(* ===== verification/_CoqProject ===== *)
-Q . S2P
Prelude.v
KVCacheUtils.v
Request.v
BlockHash.v
BlockPool.v
KVCacheInterface.v
Ledger.v
SingleTypeManager.v
Coordinator.v
KVCacheManager.v
KVCacheSizing.v
EncoderCache.v
KVOffload.v
RequestQueue.v
Scheduler.v
SchedulerInv.v
SchedulerSafe.v
SchedulerAdvance.v
SchedulerProps.v
NgramProposer.v
Detokenizer.v
Numpy.v
BlockTable.v
LogitsProcessors.v
InputBatch.v
InputBatchInv.v
InputBatchOps.v
InputBatchReorder.v
InputBatchProps.v
XmixText.v
XmixSpec.v
XmixParser.v
XmixApply.v
XmixCodegen.v
