(* ===== verification/Prelude.v ===== *)
(** * The serving core of xMIx, modelled and verified

    xMIx is vLLM with an overlay (xmix), a small language that declares where activations
    are read or steered, and tools that compile it and splice the result into the sources.
    This development models the part of the engine that decides what runs and where its
    data lives (the scheduler with its waiting queues, the request object, the paged KV
    cache with prefix caching, its configuration and its offloading, and the cache of
    encoder outputs), the drafts and the text around it, the persistent batch of the worker
    with its block tables and logits processors, and the xmix tools from the syntax tree to
    the files they edit.
    Definitions are translated from the Python sources under src/vllm and are executable;
    theorems are proved about these definitions.

    ** The parts and where they are modelled

    - Prelude (this file): Python exceptions and a state-and-exception monad [M], its
      total-correctness predicate [wp] with tactics, lists, sums, occurrences, ordered
      dictionaries.
    - KVCacheUtils: v1/core/kv_cache_utils.py.  [KVCacheBlock] objects live in a [Store]
      and are shared by reference ([bref]); [FreeQueue] is [FreeKVCacheBlockQueue], the
      intrusive doubly linked list of free blocks.  The class [FreeQueueLaws] states what
      the queue promises to its clients.  Block keys pack a hash with a group id.
    - Request: v1/request.py and v1/core/sched/utils.py ([check_stop], [remove_all]).
    - BlockHash: the block hashes of a request (kv_cache_utils.py), including the extra
      keys; the hash function is a parameter.
    - BlockPool: v1/core/block_pool.py, over the store and the queue.
    - KVCacheInterface: v1/kv_cache_interface.py, the specs of the attention types.
    - Ledger: a specification layer: the pool as accounted for by the entries (blocks and
      number of cached blocks) of all requests in all groups.
    - SingleTypeManager: v1/core/single_type_kv_cache_manager.py, one manager per KV cache
      group; the subclass is determined by the spec.
    - Coordinator: v1/core/kv_cache_coordinator.py, the managers on one shared pool.
    - KVCacheManager: v1/core/kv_cache_manager.py, the interface of the scheduler, and the
      prefix-cache statistics of v1/metrics/stats.py.
    - KVCacheSizing: the configuration of the KV cache at start-up (kv_cache_utils.py): the
      groups of layers, the memory check with its binary search for the maximum model
      length, and the blocks and tensors of all workers.
    - EncoderCache: v1/core/encoder_cache_manager.py with
      [Scheduler._try_schedule_encoder_inputs] and [_free_encoder_inputs] of
      v1/core/sched/scheduler.py.
    - KVOffload: v1/kv_offload: the CPU backend, and the LRU and ARC managers ([LRU],
      [ARC]) over the interface [Backend].
    - RequestQueue: v1/core/sched/request_queue.py, the first-come-first-served queue and
      the priority queue over the heap of the standard library ([Heap], which is modelled
      with its comparisons), and how [Scheduler.schedule] skips requests and puts them back.
    - Scheduler: v1/core/sched/scheduler.py and async_scheduler.py with their messages
      (sched/output.py, v1/outputs.py, v1/engine/__init__.py).  Requests are objects in a
      store ([objs]); the queues, the running list and the dict of requests hold references.
      [Sched.schedule] is [running_loop] (with [alloc_loop] and [preempt]), [waiting_loop]
      (with [waiting_step] and [start_running]) and [make_output]; [Sched.update_from_output] is
      [update_all].  The KV and encoder-cache connectors, the structured-output manager and
      the event publisher are records of operations.
    - SchedulerInv: what the scheduler needs of the queues ([QueueLaws]), of the block
      hasher ([HasherLaws]) and of the structured-output manager ([StructuredLaws]), with
      their instances, and the invariant [core].
    - SchedulerSafe: every operation preserves the invariant and does not raise.
    - SchedulerAdvance: by how many computed tokens [schedule] advances each request.
    - SchedulerProps: the theorems about reachable states of the scheduler, and runs that
      show what the source does not intend.
    - NgramProposer: v1/spec_decode/ngram_proposer.py, draft tokens from the request's own
      tokens, with a direct definition of what the search has to find ([reference]).
    - Detokenizer: v1/engine/detokenizer.py and transformers_utils/detokenizer_utils.py,
      stop strings and streamed text over the interface [Decoder], which [Fast.decoder] and
      [Slow.decoder] implement on top of the tokenizer libraries.
    - Numpy: assignments to NumPy arrays (rows, slices, exchanges, int32 wrap-around).
    - BlockTable: v1/worker/block_table.py, the block tables of all KV cache groups and the
      slots of the tokens of a step ([Multi] is [MultiGroupBlockTable]).
    - LogitsProcessors: v1/sample/logits_processor (interface.py, state.py, builtin.py):
      [Builder] collects what happens to the rows of the batch, the built-in processors keep
      state per row.  The class [Follows] states what a processor promises to the batch;
      the three processors are its instances.
    - InputBatch: v1/worker/gpu_input_batch.py, the rows of the running requests, with
      adding, removing, exchanging and condensing rows, and the sampling metadata.
    - InputBatchInv: what a row says about its request ([row_data]), the invariant
      [batch_inv], and that exchanges and moves rearrange whole rows.
    - InputBatchOps: adding and removing requests.
    - InputBatchReorder: the reordering of the batch for attention backends
      (v1/attention/backends/utils.py, [GPUModelRunner._may_reorder_batch]).
    - InputBatchProps: the batch through a step, as a map of requests ([abs_step]), and the
      processors that follow it.
    - XmixText: text as the xmix tools use it (lines, white space, integers, the regular
      expressions).
    - XmixSpec: activations_extractor/xmix/spec.py (the tables) and ir.py (statements).
    - XmixParser: xmix/parser.py, from the tree of [ast.parse] to validated statements.
    - XmixCodegen: xmix/codegen.py, from statements to the synthesized text.
    - XmixApply: xmix/apply.py, the commands that splice synthesized files into sources and
      take them out again, on a file system.

    ** How code is represented

    A method that mutates [self] is a computation in [M S], where [S] is the record of the
    object's fields; a call on an object held in a field runs there with [zoom].  An
    exception keeps the assignments made before it.  Python integers are [Z]; list
    indices [nat]; [bytes] lists of bytes; dictionaries [gmap], or association lists where
    the order is observable.  A [defaultdict] read inserts the default.  Loops over lists
    are structural; [FreeQueue.walk], [hash_loop], the loops of the heap, the printing
    of integers, the binary search, the n-gram search and the loops of [schedule] take fuel, and the theorems
    about them show that the fuel used is enough (the number of blocks plus one, the number
    of tokens, the length of the heap, the binary length of the number, that of the maximum
    model length plus two, twice the number of tokens plus one, the running requests plus one and the waiting requests plus one;
    [alloc_loop], which preempts a request in every round, the running requests; condensing
    the batch, the removed rows plus one; a cycle of the reordering, the rows that move).  Times are clock ticks, usage ratios exact rationals.
    Text is the list of its code points; a function that cannot change state returns a
    [result], and [outcome] states what it returns or raises.

    ** What the theorems show

    - For every sequence of calls on the scheduler ([sched_call]: requests are added,
      scheduled, answered by the model and finished, and the prefix cache is reset) in a
      plain configuration no call raises, [schedule] stays within the token budget and the
      limit of running requests and advances a request that keeps running by exactly the
      tokens it was given, the dict of requests holds exactly the waiting queue and the
      running list, which are disjoint, waiting requests hold nothing and running ones have
      the slots their tokens need, a request leaves only as finished, and an idle scheduler holds no block.  Plain
      means a single process of generation requests: no KV or encoder-cache connector, no
      speculative tokens, no asynchronous scheduling, no LoRA limit and no encoder-decoder
      model; both policies, prefix caching, preemption, chunked prefill and encoder inputs
      are covered.
    - The configuration of the KV cache puts every layer in one group, gives all workers
      the same number of blocks, within their memory unless the number is overridden, and the
      binary search finds the
      largest model length that fits.
    - The free queue refines a list; the pool's reference counts, free queue and
      prefix-cache index agree in every state reachable by its clients, and legal calls
      fail only for lack of blocks.
    - Block hashes are computed incrementally as from scratch and, with a collision-free
      hash function and for requests without multimodal inputs, identify the whole prefix.
    - The longest-hit searches of all attention types return the longest hit their type
      allows, and a hybrid model's hit is aligned over the groups.
    - For every sequence of calls of the scheduler on a supported model no call raises,
      block tables and reference counts agree, a refusal is justified and no block leaks.
    - The encoder cache of a decoder-only model accounts for its capacity; planned inputs
      can always be allocated and cover the scheduled tokens.
    - The stop check, spec merging, memory bounds, statistics and the key encoding are exact.
    - Offloading managers keep their blocks, counts and the backend accounted for, evict no
      block that is being read, and the LRU manager evicts exactly what it must.
    - The priority queue refines a sorted list; a request in the first-come-first-served
      queue is served after those before it.
    - The n-gram search finds the first occurrence of the longest match although it keeps
      only a capped prefix function; which drafts a request then gets is stated exactly.
    - Stop strings are found whenever they occur in the text after the minimum number of
      tokens, although only new characters are searched, and streamed text is never taken back and complete at the end.
    - The persistent batch refines a map from request ids to the data of the requests,
      whatever rows they are in; the reordering puts decodes, extensions and prefills in
      this order; processors that keep the interface hold in every row the state of its
      request, so minimum lengths are enforced for the right requests.  The data leave out
      the mask of allowed tokens and the flag of [logits_processing_needs_token_ids], which
      the code does not carry along with the rows.  Slots are those of the positions of the
      tokens, and two tokens share one exactly when they are at one offset of one block.
    - An xmix file that parses has only well-formed statements, is compiled exactly when its
      conditions precede what they gate (statements on all layers are exempt), and declares
      exactly the hook slots it occupies.  For names without white space and blocks that are
      well delimited, applying is all or nothing; it never lets an application claim a slot
      that another of the batch claims or that is recorded, and records what it claims so
      that a later scan finds it; reverting restores files that use line feeds.
    - Where the code does not do what it means to, a theorem or a concrete run shows it:
      cross-attention groups ([cross_attention_allocation_raises]), encoder-decoder models
      ([encoder_decoder_cache_raises]), multimodal and LoRA keys
      ([mm_partial_block_collision], [lora_salt_collision]), blocks being stored under ARC
      ([arc_touch_pending_raises]), ties of priority ([priority_tie_raises]), skipped
      requests ([fcfs_skipped_reversed]), applications with a space in their name
      ([revert_misses_spaced_app]), subscripted gates ([subscripted_gate_raises]) and
      conditions of statements on all layers ([all_layers_cond_unbound]), the memory check
      ([memory_check_insufficient]), the LoRA limit ([lora_limit_assertion_fails]), requests
      that never finish ([min_tokens_request_stuck]), drafts in the wrong row
      ([propose_rows]), stop strings left in the text ([stop_string_left_in_text]), prompts
      of embeddings with a Python tokenizer ([slow_embeds_raise]), requests passed over after a
      preemption ([priority_preemption_passes_over]) and masks of allowed tokens that are
      duplicated by an exchange of rows ([swap_duplicates_mask]).

    ** What is not modelled

    The scheduler's paths for connectors, speculative tokens and asynchronous scheduling
    are modelled, but the theorems about reachable states do not cover them.  Of the model
    runner only the order in which it changes the batch is modelled; the updates of running
    requests between removals and additions are left out, and so are the sampling metadata
    from the theorems.  The engine core around the scheduler (v1/engine/core.py) and the
    output processor are queues between processes and asynchronous tasks around the modelled
    components; they keep no state of the kind that is modelled here.
    The command lines of the xmix tools, error messages and log output, tensors,
    kernels, models, processes and network are outside the model. *)

From stdpp Require Import base tactics option list gmap strings sorting.
From Stdlib Require Import ZArith Lia.

(** ** Python exceptions and the state-and-exception monad

    Python statements mutate objects and may raise.  [M S A] is a computation
    on a state [S] that returns a value or raises; the state is returned in both
    cases, because an exception does not undo the assignments made before it. *)

Inductive exn :=
  | AssertionError
  | ValueError
  | RuntimeError
  | KeyError
  | IndexError
  | OverflowError
  | NotImplementedError
  | StopIteration
  | TypeError
  | FileNotFoundError
  | ApplyError
  | XmixError
  | AttributeError
  | ZeroDivisionError
  | OutOfFuel.  (** not a Python exception: the bound of a modelled loop *)

#[export] Instance exn_eq_dec : EqDecision exn.
Proof. solve_decision. Defined.

Inductive result (A : Type) :=
  | Ok (a : A)
  | Raise (e : exn).
Arguments Ok {A} a.
Arguments Raise {A} e.

(** Fallible computations without state *)
#[export] Instance result_ret : MRet result := λ A a, Ok a.
#[export] Instance result_bind : MBind result := λ A B f r, match r with Ok a => f a | Raise e => Raise e end.

Lemma result_bind_ok {A B} (r : result A) (f : A → result B) b : r ≫= f = Ok b → ∃ a, r = Ok a ∧ f a = Ok b.
Proof. destruct r as [a|e]; [eauto|done]. Qed.

(** [a // b] and [a % b]: rounding is towards minus infinity, as of [Z.div]. *)
Definition py_div (a b : Z) : result Z := if decide (b = 0%Z) then Raise ZeroDivisionError else Ok (a / b)%Z.
Definition py_mod (a b : Z) : result Z := if decide (b = 0%Z) then Raise ZeroDivisionError else Ok (a mod b)%Z.

(** [[f(x) for x in l]], stopping at the first exception *)
Fixpoint mapR {A B} (f : A → result B) (l : list A) : result (list B) :=
  match l with
  | [] => Ok []
  | x :: l' => y ← f x; ys ← mapR f l'; Ok (y :: ys)
  end.

Lemma mapR_ok {A B} (f : A → result B) l ys : mapR f l = Ok ys ↔ Forall2 (λ x y, f x = Ok y) l ys.
Proof.
  revert ys. induction l as [|x l IH]; intros ys; simpl.
  - split; [by intros [= <-]|]. by intros ->%Forall2_nil_inv_l.
  - split.
    + intros (y & E & (zs & Ezs & [= <-])%result_bind_ok)%result_bind_ok. constructor; [done|]. by apply IH.
    + intros (y & zs & E & Hzs & ->)%Forall2_cons_inv_l. rewrite E. simpl. apply IH in Hzs. by rewrite Hzs.
Qed.

Lemma mapR_elem_r {A B} (f : A → result B) l ys y : mapR f l = Ok ys → y ∈ ys → ∃ x, x ∈ l ∧ f x = Ok y.
Proof. intros H%mapR_ok [i Hi]%list_elem_of_lookup. destruct (Forall2_lookup_r _ _ _ _ _ H Hi) as (x & Hx%list_elem_of_lookup_2 & E). eauto. Qed.
Lemma mapR_elem_l {A B} (f : A → result B) l ys x : mapR f l = Ok ys → x ∈ l → ∃ y, y ∈ ys ∧ f x = Ok y.
Proof. intros H%mapR_ok [i Hi]%list_elem_of_lookup. destruct (Forall2_lookup_l _ _ _ _ _ H Hi) as (y & Hy%list_elem_of_lookup_2 & E). eauto. Qed.

Lemma mapR_total {A B} (f : A → result B) l : (∀ x, x ∈ l → ∃ y, f x = Ok y) → ∃ ys, mapR f l = Ok ys.
Proof.
  induction l as [|x l IH]; intros H; [by exists []|]. destruct (H x) as [y Hy]; [left|]. destruct IH as [ys Hys]; [intros z Hz; apply H; by right|].
  exists (y :: ys). cbn. by rewrite Hy, Hys.
Qed.
Lemma mapR_map {A B} (f : A → result B) (g : A → B) l : (∀ x, x ∈ l → f x = Ok (g x)) → mapR f l = Ok (g <$> l).
Proof. induction l as [|x l IH]; intros H; [done|]. cbn. rewrite (H x) by left. cbn. rewrite IH; [done|]. intros z Hz. apply H. by right. Qed.

(** [r] returns a value in [Q] or raises an exception in [E]. *)
Definition outcome {A} (E : exn → Prop) (Q : A → Prop) (r : result A) : Prop :=
  match r with Ok a => Q a | Raise e => E e end.

Lemma outcome_bind {A B} (E : exn → Prop) (R : A → Prop) (Q : B → Prop) (r : result A) (f : A → result B) :
  outcome E R r → (∀ a, R a → outcome E Q (f a)) → outcome E Q (r ≫= f).
Proof. destruct r as [a|e]; [|done]. intros Ha Hf. by apply Hf. Qed.

Lemma outcome_mono {A} (E : exn → Prop) (P Q : A → Prop) (r : result A) :
  outcome E P r → (∀ a, P a → Q a) → outcome E Q r.
Proof. destruct r; simpl; eauto. Qed.

Definition M (S A : Type) : Type := S → result A * S.

Section monad.
Context {S : Type}.

#[export] Instance M_ret : MRet (M S) := λ A a s, (Ok a, s).
#[export] Instance M_bind : MBind (M S) := λ A B f c s,
  match c s with
  | (Ok a, s') => f a s'
  | (Raise e, s') => (Raise e, s')
  end.

Definition raise {A} (e : exn) : M S A := λ s, (Raise e, s).
Definition get : M S S := λ s, (Ok s, s).
Definition gets {A} (f : S → A) : M S A := λ s, (Ok (f s), s).
Definition modify (f : S → S) : M S () := λ s, (Ok (), f s).

(** [assert b] of the source. *)
Definition assert_ (b : bool) : M S () := if b then mret () else raise AssertionError.

(** [for x in l: f(x)] *)
Fixpoint for_each {A} (l : list A) (f : A → M S ()) : M S () :=
  match l with
  | [] => mret ()
  | x :: l' => f x ;; for_each l' f
  end.
End monad.

(** Running a computation on a part of the state (an object held in a field). *)
Definition zoom {S T A} (rd : T → S) (wr : S → T → T) (c : M S A) : M T A := λ t,
  match c (rd t) with (r, s) => (r, wr s t) end.

(** Raising a pure fallible value in the monad. *)
Definition of_result {S A} (r : result A) : M S A :=
  match r with Ok a => mret a | Raise e => raise e end.

(** [l[i]] on a Python list at a non-negative index. *)
Definition index {S A} (l : list A) (i : nat) : M S A :=
  match l !! i with Some x => mret x | None => raise IndexError end.

Lemma run_pair {S A} (x : result A * S) r : x.1 = Ok r → x = (Ok r, x.2).
Proof. by destruct x; simpl; intros ->. Qed.

(** Splitting a successful [bind] *)
Lemma bind_ok {S A B} (c : M S A) (f : A → M S B) s b s' : (c ≫= f) s = (Ok b, s') → ∃ a s1, c s = (Ok a, s1) ∧ f a s1 = (Ok b, s').
Proof. unfold mbind, M_bind. destruct (c s) as [[a|e] s1]; [eauto|done]. Qed.
Lemma of_result_ok {S A} (r : result A) (s : S) a s' : of_result r s = (Ok a, s') → r = Ok a ∧ s' = s.
Proof. destruct r; [by intros [= <- <-]|done]. Qed.

(** ** Total correctness

    [wp c s Q]: run from [s], [c] returns normally and its value and final state
    satisfy [Q].  A proof of [wp] is therefore a proof that no exception occurs. *)

Definition wp {S A} (c : M S A) (s : S) (Q : A → S → Prop) : Prop :=
  match c s with (Ok a, s') => Q a s' | (Raise _, _) => False end.

Section wp.
Context {S : Type}.

Lemma wp_bind {A B} (c : M S A) (f : A → M S B) s Q :
  wp c s (λ a s', wp (f a) s' Q) → wp (c ≫= f) s Q.
Proof. unfold wp, mbind, M_bind. by destruct (c s) as [[a|e] s']. Qed.

Lemma wp_ret {A} (a : A) (s : S) (Q : A → S → Prop) : Q a s → wp (mret a) s Q.
Proof. done. Qed.

Lemma wp_gets {A} (f : S → A) (s : S) (Q : A → S → Prop) : Q (f s) s → wp (gets f) s Q.
Proof. done. Qed.

Lemma wp_modify f (s : S) (Q : () → S → Prop) : Q () (f s) → wp (modify f) s Q.
Proof. done. Qed.

Lemma wp_assert (b : bool) (s : S) (Q : () → S → Prop) : b = true → Q () s → wp (assert_ b) s Q.
Proof. by intros ->. Qed.

Lemma wp_mono {A} (c : M S A) s (P Q : A → S → Prop) :
  wp c s P → (∀ a s', P a s' → Q a s') → wp c s Q.
Proof. unfold wp. destruct (c s) as [[a|e] s']; eauto. Qed.

Lemma wp_conj {A} (c : M S A) s (P Q : A → S → Prop) :
  wp c s P → wp c s Q → wp c s (λ a s', P a s' ∧ Q a s').
Proof. unfold wp. destruct (c s) as [[a|e] s']; eauto. Qed.

Lemma wp_index {A} (l : list A) i x (s : S) Q :
  l !! i = Some x → Q x s → wp (index l i) s Q.
Proof. unfold wp, index. by intros ->. Qed.

(** The loop rule: the invariant speaks of the elements already visited. *)
Lemma wp_for_each {A} (I : list A → S → Prop) (l : list A) (f : A → M S ()) s Q :
  I [] s →
  (∀ done x rest s', l = done ++ x :: rest → I done s' →
     wp (f x) s' (λ _ s'', I (done ++ [x]) s'')) →
  (∀ s', I l s' → Q () s') →
  wp (for_each l f) s Q.
Proof.
  intros HI Hstep HQ.
  assert (∀ rest done s', l = done ++ rest → I done s' →
            wp (for_each rest f) s' (λ _ s'', I l s'')) as Hgen.
  { induction rest as [|x rest IH]; intros done s' Hl HI'; simpl.
    - apply wp_ret. by rewrite Hl, app_nil_r.
    - apply wp_bind. eapply wp_mono; [by eapply Hstep|].
      intros [] s'' HI''. apply (IH (done ++ [x])); [|done].
      by rewrite <-app_assoc. }
  eapply wp_mono; [by apply (Hgen l [] s)|]. by intros [] s' ?; apply HQ.
Qed.

Lemma wp_ok {A} (c : M S A) s (Q : A → S → Prop) :
  wp c s Q ↔ ∃ a s', c s = (Ok a, s') ∧ Q a s'.
Proof.
  unfold wp. destruct (c s) as [[a|e] s']; split; try done; [eauto| |]; by intros (?&?&[=]&?); subst.
Qed.
End wp.

Lemma wp_zoom {S T A} (rd : T → S) (wr : S → T → T) (c : M S A) t Q :
  wp c (rd t) (λ a s, Q a (wr s t)) → wp (zoom rd wr c) t Q.
Proof. unfold wp, zoom. by destruct (c (rd t)) as [[a|e] s]. Qed.

(** One symbolic step of a monadic program. *)
Ltac wp_step :=
  lazymatch goal with
  | |- wp (mbind _ _) _ _ => apply wp_bind
  | |- wp (mret _) _ _ => apply wp_ret
  | |- wp (gets _) _ _ => apply wp_gets
  | |- wp get _ _ => apply wp_gets
  | |- wp (modify _) _ _ => apply wp_modify
  | |- wp (zoom _ _ _) _ _ => apply wp_zoom
  end; simpl.
Ltac wp_steps := repeat wp_step.

(** Triples, for the operations that are specified by a precondition on the state *)
Declare Scope py_scope.
Delimit Scope py_scope with py.
Definition triple {S A} (P : S → Prop) (c : M S A) (Q : A → S → Prop) : Prop := ∀ s, P s → wp c s Q.
Notation "⟪ P ⟫ c ⟪ Q ⟫" := (triple P c Q) (at level 20, P, c, Q at level 200, format "⟪  P  ⟫  c  ⟪  Q  ⟫") : py_scope.

Lemma triple_bind {S A B} (P : S → Prop) (R : A → S → Prop) (Q : B → S → Prop) (c : M S A) (f : A → M S B) :
  triple P c R → (∀ a, triple (R a) (f a) Q) → triple P (c ≫= f) Q.
Proof. intros Hc Hf s HP. apply wp_bind. eapply wp_mono; [by apply Hc|]. intros a s'. apply Hf. Qed.

Lemma triple_weaken {S A} (P P' : S → Prop) (Q Q' : A → S → Prop) (c : M S A) :
  triple P c Q → (∀ s, P' s → P s) → (∀ a s, Q a s → Q' a s) → triple P' c Q'.
Proof. intros Hc HP HQ s Hs. eapply wp_mono; [by apply Hc, HP|]. auto. Qed.

Lemma triple_ret {S A} (a : A) (Q : A → S → Prop) : triple (Q a) (mret a) Q.
Proof. by intros s. Qed.

(** A loop that keeps [I] *)
Lemma triple_for_each {S A} (I : S → Prop) (l : list A) (f : A → M S ()) :
  (∀ x, x ∈ l → triple I (f x) (λ _, I)) → triple I (for_each l f) (λ _, I).
Proof.
  induction l as [|x l IH]; intros Hf; [by intros s|]. cbn [for_each]. eapply triple_bind; [apply Hf; left|].
  intros []. apply IH. intros y Hy. apply Hf. by right.
Qed.

Create HintDb py discriminated.
#[export] Hint Resolve wp_ret wp_gets wp_modify wp_assert triple_ret triple_bind triple_for_each : py.

(** ** Lists *)

Lemma filter_id {A} (P : A → Prop) `{∀ x, Decision (P x)} (l : list A) :
  (∀ x, x ∈ l → P x) → filter P l = l.
Proof.
  induction l as [|x l IH]; intros HP; [done|].
  rewrite filter_cons_True by (apply HP; by left). f_equal. apply IH. intros y Hy. apply HP. by right.
Qed.

Lemma filter_ext_in {A} (P Q : A → Prop) `{∀ x, Decision (P x), ∀ x, Decision (Q x)} (l : list A) :
  (∀ x, x ∈ l → P x ↔ Q x) → filter P l = filter Q l.
Proof.
  induction l as [|x l IH]; intros Hpq; [done|]. rewrite !filter_cons.
  rewrite IH by (intros y Hy; apply Hpq; by apply list_elem_of_further).
  pose proof (Hpq x (list_elem_of_here _ _)). destruct (decide (P x)), (decide (Q x)); (done || tauto).
Qed.

Lemma filter_middle {A} `{EqDecision A} (l1 l2 : list A) b : NoDup (l1 ++ b :: l2) →
  filter (λ x, x ≠ b) (l1 ++ b :: l2) = l1 ++ l2.
Proof.
  intros (_ & Hd & Hb)%NoDup_app. apply NoDup_cons in Hb as [Hb _].
  rewrite filter_app, filter_cons_False by naive_solver.
  f_equal; apply filter_id; intros x Hx ->; [|done]. apply (Hd _ Hx). by left.
Qed.

Lemma head_omap_none {A B} (f : A → option B) l : (∀ x, x ∈ l → f x = None) → head (omap f l) = None.
Proof. induction l as [|x l IH]; intros H; [done|]. cbn. rewrite (H x) by left. apply IH. intros y Hy. apply H. by right. Qed.
(** The first number of a range with a property *)
Lemma head_filter_seq (P : nat → Prop) `{∀ x, Decision (P x)} n : ∀ a,
  match head (filter P (seq a n)) with
  | Some p => a ≤ p < a + n ∧ P p ∧ ∀ x, a ≤ x < p → ¬ P x
  | None => ∀ x, a ≤ x < a + n → ¬ P x
  end.
Proof.
  induction n as [|n IH]; intros a; cbn [seq]; [intros x ?; lia|]. destruct (decide (P a)) as [Ha|Ha].
  - rewrite filter_cons_True by done. cbn. split_and!; [lia|lia|done|]. intros x ?. lia.
  - rewrite filter_cons_False by done. specialize (IH (S a)). destruct (head _) as [p|].
    + destruct IH as (? & ? & Hmin). split_and!; [lia|lia|done|]. intros x ?. destruct (decide (x = a)) as [->|]; [done|]. apply Hmin. lia.
    + intros x ?. destruct (decide (x = a)) as [->|]; [done|]. apply IH. lia.
Qed.

Lemma filter_seq_lookup (P : nat → Prop) `{∀ x, Decision (P x)} n r : r < n → (∀ x, x ≤ r → P x) → filter P (seq 0 n) !! r = Some r.
Proof.
  intros Hr HP. replace n with (S r + (n - S r)) by lia. rewrite seq_app, filter_app, filter_id by (intros x Hx%elem_of_seq; apply HP; lia).
  rewrite lookup_app_l by (rewrite length_seq; lia). apply lookup_seq. lia.
Qed.
Lemma elem_of_concat {A} (x : A) (ls : list (list A)) : x ∈ concat ls ↔ ∃ l, x ∈ l ∧ l ∈ ls.
Proof.
  induction ls as [|l ls IH]; simpl; [set_solver|]. rewrite elem_of_app, IH. set_solver.
Qed.

(** [sum(l)] *)
Definition zsum (l : list Z) : Z := foldl Z.add 0%Z l.

Section zsum.
Local Open Scope Z_scope.
Lemma zsum_acc l : ∀ a, foldl Z.add a l = a + zsum l.
Proof.
  induction l as [|x l IH]; intros a; unfold zsum; cbn [foldl]; [lia|]. rewrite (IH (a + x)), (IH (0 + x)). lia.
Qed.
Lemma zsum_cons x l : zsum (x :: l) = x + zsum l.
Proof. unfold zsum at 1. cbn [foldl]. rewrite zsum_acc. lia. Qed.
Lemma zsum_app l l' : zsum (l ++ l') = zsum l + zsum l'.
Proof. induction l as [|x l IH]; [done|]. simpl. rewrite !zsum_cons, IH. lia. Qed.
Lemma zsum_drop l i x : l !! i = Some x → zsum (drop i l) = x + zsum (drop (S i) l).
Proof. intros H. rewrite (drop_S _ _ _ H). apply zsum_cons. Qed.
Lemma zsum_nonneg l : Forall (λ x, 0 ≤ x) l → 0 ≤ zsum l.
Proof. induction 1 as [|x l Hx _ IH]; [done|]. rewrite zsum_cons. simpl in Hx. lia. Qed.
#[global] Instance zsum_Permutation : Proper ((≡ₚ) ==> eq) zsum.
Proof. induction 1; rewrite ?zsum_cons; lia. Qed.
End zsum.

(** Number of occurrences *)
Definition occ {A} `{EqDecision A} (x : A) (l : list A) : Z := Z.of_nat (length (filter (λ y, y = x) l)).

Section occ.
Context {A : Type} `{EqDecision A}.
Implicit Types (x y : A) (l : list A).

Lemma occ_nil x : occ x [] = 0%Z.
Proof. done. Qed.
Lemma occ_cons x y l : occ x (y :: l) = ((if decide (y = x) then 1 else 0) + occ x l)%Z.
Proof.
  unfold occ. rewrite filter_cons. case_decide; simpl; lia.
Qed.
Lemma occ_app x l1 l2 : occ x (l1 ++ l2) = (occ x l1 + occ x l2)%Z.
Proof. unfold occ. rewrite filter_app, length_app. lia. Qed.
Lemma occ_nonneg x l : (0 ≤ occ x l)%Z.
Proof. unfold occ. lia. Qed.
Lemma occ_pos x l : (0 < occ x l)%Z ↔ x ∈ l.
Proof.
  induction l as [|y l IH]; [rewrite occ_nil; split; [lia|by intros ?%not_elem_of_nil]|]. rewrite occ_cons, elem_of_cons.
  pose proof (occ_nonneg x l). case_decide; subst; [split; [auto|lia]|].
  rewrite <-IH. split; [intros; right; lia|]. intros [->|?]; [done|lia].
Qed.
Lemma occ_zero x l : occ x l = 0%Z ↔ x ∉ l.
Proof. rewrite <-occ_pos. pose proof (occ_nonneg x l). lia. Qed.
Lemma occ_NoDup x l : NoDup l → occ x l = (if decide (x ∈ l) then 1 else 0)%Z.
Proof.
  induction l as [|y l IH]; intros Hnd; [done|]. apply NoDup_cons in Hnd as [Hy Hnd].
  rewrite occ_cons, IH by done. destruct (decide (y = x)) as [->|Hne].
  - rewrite (decide_False (P := x ∈ l)), decide_True by (done || apply list_elem_of_here). done.
  - destruct (decide (x ∈ l)); [rewrite decide_True by (by apply list_elem_of_further); done|].
    rewrite decide_False; [done|]. rewrite elem_of_cons. naive_solver.
Qed.
Lemma occ_reverse x l : occ x (reverse l) = occ x l.
Proof. induction l as [|y l IH]; [done|]. rewrite reverse_cons, occ_app, !occ_cons, occ_nil, IH. lia. Qed.
Lemma NoDup_occ l : (∀ x, x ∈ l → (occ x l ≤ 1)%Z) → NoDup l.
Proof.
  induction l as [|y l IH]; intros H; [constructor|]. apply NoDup_cons. split.
  - intros Hy%occ_pos. specialize (H y (list_elem_of_here _ _)). rewrite occ_cons, decide_True in H by done. lia.
  - apply IH. intros x Hx. specialize (H x (list_elem_of_further _ _ _ Hx)). rewrite occ_cons in H. case_decide; lia.
Qed.
Lemma occ_filter (P : A → Prop) `{∀ x, Decision (P x)} x l : P x → occ x (filter P l) = occ x l.
Proof.
  intros HP. induction l as [|y l IH]; [done|]. rewrite filter_cons, occ_cons. destruct (decide (P y)).
  - by rewrite occ_cons, IH.
  - rewrite decide_False by congruence. lia.
Qed.
Lemma occ_le_1 x l : (∀ i j, l !! i = Some x → l !! j = Some x → i = j) → (occ x l ≤ 1)%Z.
Proof.
  induction l as [|y l IH]; intros H; [rewrite occ_nil; lia|]. rewrite occ_cons. case_decide as E; subst.
  - assert (occ x l = 0)%Z as ->; [|lia]. apply occ_zero. intros [i Hi]%list_elem_of_lookup.
    by specialize (H 0 (S i) eq_refl Hi).
  - assert (occ x l ≤ 1)%Z; [|lia]. apply IH. intros i j Hi Hj. by specialize (H (S i) (S j) Hi Hj) as [= ->].
Qed.
#[global] Instance occ_Permutation x : Proper ((≡ₚ) ==> eq) (occ x).
Proof. intros l1 l2 H. unfold occ. by rewrite H. Qed.
End occ.

(** ** Insertion-ordered dictionaries

    A Python [dict] (or [OrderedDict]) whose order is observable, as an association
    list in iteration order. *)
Module OD.
Section od.
Context {K V : Type} `{EqDecision K}.

Fixpoint get (k : K) (d : list (K * V)) : option V :=
  match d with
  | [] => None
  | (k', v) :: d' => if decide (k' = k) then Some v else get k d'
  end.

(** [d[k] = v]: in place when the key is present, else at the end *)
Fixpoint set (k : K) (v : V) (d : list (K * V)) : list (K * V) :=
  match d with
  | [] => [(k, v)]
  | (k', v') :: d' => if decide (k' = k) then (k', v) :: d' else (k', v') :: set k v d'
  end.

(** [d.pop(k)] / [del d[k]] *)
Fixpoint del (k : K) (d : list (K * V)) : list (K * V) :=
  match d with
  | [] => []
  | (k', v) :: d' => if decide (k' = k) then d' else (k', v) :: del k d'
  end.

(** [d.move_to_end(k)] for a present key *)
Definition move_to_end (k : K) (d : list (K * V)) : list (K * V) :=
  match get k d with None => d | Some v => del k d ++ [(k, v)] end.

Lemma elem_of_set k v d k' v' : NoDup d.*1 →
  (k', v') ∈ set k v d ↔ (k' = k ∧ v' = v) ∨ (k' ≠ k ∧ (k', v') ∈ d).
Proof.
  induction d as [|[k0 v0] d IH]; csimpl; intros Hnd.
  { rewrite list_elem_of_singleton. set_solver. }
  apply NoDup_cons in Hnd as [Hk0 Hnd]. case_decide; subst; rewrite !elem_of_cons.
  - split; [intros [?|Hin]|]; [naive_solver| |naive_solver].
    right. split; [|auto]. intros ->. apply Hk0, list_elem_of_fmap. by exists (k, v').
  - rewrite IH by done. naive_solver.
Qed.

Lemma keys_set k v d : (set k v d).*1 = if decide (k ∈ d.*1) then d.*1 else d.*1 ++ [k].
Proof.
  induction d as [|[k0 v0] d IH]; csimpl; [done|].
  destruct (decide (k0 = k)) as [->|Hne]; csimpl; [by rewrite decide_True by apply list_elem_of_here|].
  rewrite IH. destruct (decide (k ∈ d.*1)) as [Hin|Hin].
  - by rewrite decide_True by (by apply list_elem_of_further).
  - rewrite decide_False; [done|]. rewrite elem_of_cons. naive_solver.
Qed.

Lemma NoDup_keys_set k v d : NoDup d.*1 → NoDup (set k v d).*1.
Proof.
  intros Hnd. rewrite keys_set. case_decide; [done|]. apply NoDup_app. split_and!; [done|set_solver|apply NoDup_singleton].
Qed.

Lemma set_not_nil k v d : set k v d ≠ [].
Proof. destruct d as [|[k0 v0] d]; csimpl; [done|]. by case_decide. Qed.

Lemma keys_del k d : NoDup d.*1 → (del k d).*1 = filter (λ x, x ≠ k) d.*1.
Proof.
  induction d as [|[k0 v0] d IH]; csimpl; intros Hnd; [done|]. apply NoDup_cons in Hnd as [Hk0 Hnd].
  case_decide; subst; csimpl.
  - rewrite filter_cons_False by naive_solver. symmetry. apply filter_id. by intros x ? ->.
  - rewrite filter_cons_True by done. by rewrite IH.
Qed.

Lemma elem_of_del k d k' v' : NoDup d.*1 → (k', v') ∈ del k d ↔ k' ≠ k ∧ (k', v') ∈ d.
Proof.
  induction d as [|[k0 v0] d IH]; csimpl; intros Hnd; [set_solver|]. apply NoDup_cons in Hnd as [Hk0 Hnd].
  case_decide; subst; rewrite ?elem_of_cons.
  - split; [|naive_solver]. intros Hin. split; [|auto]. intros ->. apply Hk0, list_elem_of_fmap. by exists (k, v').
  - rewrite IH by done. naive_solver.
Qed.

Lemma get_Some k v d : NoDup d.*1 → get k d = Some v ↔ (k, v) ∈ d.
Proof.
  induction d as [|[k0 v0] d IH]; csimpl; intros Hnd; [set_solver|]. apply NoDup_cons in Hnd as [Hk0 Hnd].
  rewrite elem_of_cons. case_decide; subst.
  - split; [naive_solver|]. intros [?|Hin]; [naive_solver|]. exfalso. apply Hk0, list_elem_of_fmap. by exists (k, v).
  - rewrite IH by done. naive_solver.
Qed.

(** Splitting off one entry *)
Lemma get_del_perm k v d : get k d = Some v → d ≡ₚ (k, v) :: del k d.
Proof.
  induction d as [|[k0 v0] d IH]; csimpl; [done|]. case_decide; [by intros [= ->]; subst|].
  intros Hg. rewrite (IH Hg) at 1. by rewrite Permutation_swap.
Qed.

Lemma set_perm k v v' d : get k d = Some v → set k v' d ≡ₚ (k, v') :: del k d.
Proof.
  induction d as [|[k0 v0] d IH]; csimpl; [done|]. case_decide; [by subst|].
  intros Hg. rewrite (IH Hg). by rewrite Permutation_swap.
Qed.

Lemma set_new k v d : get k d = None → set k v d = d ++ [(k, v)].
Proof. induction d as [|[k0 v0] d IH]; csimpl; [done|]. case_decide; [done|]. intros Hg. by rewrite IH. Qed.

Lemma move_to_end_perm k d : move_to_end k d ≡ₚ d.
Proof.
  unfold move_to_end. destruct (get k d) as [v|] eqn:E; [|done]. rewrite (get_del_perm k v d E) at 2.
  by rewrite Permutation_app_comm.
Qed.

Lemma get_set k v k' d : get k' (set k v d) = if decide (k = k') then Some v else get k' d.
Proof.
  induction d as [|[k0 v0] d IH]; csimpl; [by case_decide|].
  destruct (decide (k0 = k)) as [->|]; csimpl; [by repeat case_decide|].
  rewrite IH. repeat case_decide; congruence.
Qed.

Lemma get_del k k' d : NoDup d.*1 → get k' (del k d) = if decide (k = k') then None else get k' d.
Proof.
  induction d as [|[k0 v0] d IH]; csimpl; intros Hnd; [by case_decide|]. apply NoDup_cons in Hnd as [Hk0 Hnd].
  destruct (decide (k0 = k)) as [->|Hne]; csimpl.
  - destruct (decide (k = k')) as [->|]; [|done]. clear -Hk0. induction d as [|[k1 v1] d IH]; csimpl in *; [done|].
    apply not_elem_of_cons in Hk0 as [? ?]. rewrite decide_False by done. auto.
  - rewrite IH by done. repeat case_decide; congruence.
Qed.

Lemma get_None k d : get k d = None ↔ k ∉ d.*1.
Proof.
  induction d as [|[k0 v0] d IH]; csimpl; [set_solver|]. case_decide; subst; set_solver.
Qed.
End od.
End OD.
