(* ===== verification/KVCacheUtils.v ===== *)
(** * vllm/v1/core/kv_cache_utils.py: block keys, block metadata, the free queue

    - [Bytes], [make_block_hash_with_group_id], [get_block_hash],
      [get_group_id], [maybe_convert_block_hash]: packing a block hash and a
      group id into one key.
    - [KVCacheBlock] and the object store: blocks are mutable objects shared by
      the pool, the queue and the requests, so they live in a store addressed by
      references.
    - [FreeQueue]: the intrusive doubly linked list [FreeKVCacheBlockQueue],
      modelled pointer by pointer, and the proof that it refines a list. *)

From stdpp Require Import base tactics option list gmap.
From Stdlib Require Import ZArith Lia Strings.Byte.
From S2P Require Import Prelude.
Local Open Scope Z_scope.

(** ** Bytes *)

Abbreviation bytes := (list Byte.byte).

#[export] Instance byte_eq_dec : EqDecision Byte.byte := Byte.byte_eq_dec.
#[export] Instance byte_countable : Countable Byte.byte.
Proof. exact (inj_countable Byte.to_N Byte.of_N Byte.of_to_N). Defined.

Definition byte_of_Z (z : Z) : Byte.byte := default Byte.x00 (Byte.of_N (Z.to_N z)).
Definition Z_of_byte (b : Byte.byte) : Z := Z.of_N (Byte.to_N b).

(** [int.to_bytes(n, "big")] once the range check has passed *)
Fixpoint be_bytes (n : nat) (z : Z) : bytes :=
  match n with
  | O => []
  | S n' => be_bytes n' (z / 256) ++ [byte_of_Z (z mod 256)]
  end.

(** [z.to_bytes(n, "big", signed=False)] *)
Definition to_bytes_be (n : nat) (z : Z) : result bytes :=
  if bool_decide (0 ≤ z < 256 ^ Z.of_nat n) then Ok (be_bytes n z) else Raise OverflowError.

(** [int.from_bytes(bs, "big", signed=False)] *)
Definition from_bytes_be (bs : bytes) : Z :=
  foldl (λ acc b, acc * 256 + Z_of_byte b) 0 bs.

Lemma Z_of_byte_of_Z z : 0 ≤ z < 256 → Z_of_byte (byte_of_Z z) = z.
Proof.
  intros Hz. unfold Z_of_byte, byte_of_Z.
  destruct (Byte.of_N (Z.to_N z)) as [b|] eqn:E; simpl.
  - apply Byte.to_of_N in E. rewrite E. lia.
  - apply Byte.of_N_None_iff in E. lia.
Qed.

Lemma length_be_bytes n z : length (be_bytes n z) = n.
Proof. revert z; induction n; intros; simpl; rewrite ?length_app, ?IHn; simpl; lia. Qed.

Lemma from_be_bytes n z : 0 ≤ z < 256 ^ Z.of_nat n → from_bytes_be (be_bytes n z) = z.
Proof.
  revert z; induction n as [|n IH]; intros z Hz.
  - change (256 ^ Z.of_nat 0) with 1 in Hz. simpl. unfold from_bytes_be. simpl. lia.
  - rewrite Nat2Z.inj_succ, Z.pow_succ_r in Hz by lia.
    simpl. unfold from_bytes_be in *. rewrite foldl_app, IH; simpl.
    + rewrite Z_of_byte_of_Z by (apply Z.mod_pos_bound; lia).
      pose proof (Z.div_mod z 256). lia.
    + split; [apply Z.div_pos; lia | apply Z.div_lt_upper_bound; lia].
Qed.

(** ** Block keys *)

Definition make_block_hash_with_group_id (block_hash : bytes) (group_id : nat) : result bytes :=
  match to_bytes_be 4 (Z.of_nat group_id) with
  | Ok g => Ok (block_hash ++ g)
  | Raise e => Raise e
  end.

(** [key[:-4]] *)
Definition get_block_hash (key : bytes) : bytes := take (length key - 4) key.

(** [int.from_bytes(key[-4:], "big")] *)
Definition get_group_id (key : bytes) : Z := from_bytes_be (drop (length key - 4) key).

(** [ExternalBlockHash]: [bytes | int] *)
Inductive ExternalBlockHash := HashBytes (b : bytes) | HashInt (z : Z).

(** [VLLM_KV_EVENTS_USE_INT_BLOCK_HASHES] is read from the environment. *)
Definition maybe_convert_block_hash (use_int : bool) (hash_bytes : bytes) : ExternalBlockHash :=
  if negb use_int then HashBytes hash_bytes
  else HashInt (Z.land (from_bytes_be hash_bytes) (Z.shiftl 1 64 - 1)).

Lemma make_block_hash_ok h g :
  Z.of_nat g < 2 ^ 32 →
  make_block_hash_with_group_id h g = Ok (h ++ be_bytes 4 (Z.of_nat g)).
Proof.
  intros Hg. unfold make_block_hash_with_group_id, to_bytes_be.
  rewrite bool_decide_true by (change (256 ^ Z.of_nat 4) with (2 ^ 32); lia). done.
Qed.

Lemma make_block_hash_inv h g k :
  make_block_hash_with_group_id h g = Ok k →
  Z.of_nat g < 2 ^ 32 ∧ k = h ++ be_bytes 4 (Z.of_nat g).
Proof.
  unfold make_block_hash_with_group_id, to_bytes_be. intros H. case_bool_decide as Hg; [|done].
  change (256 ^ Z.of_nat 4) with (2 ^ 32) in Hg. simplify_eq/=. split; [lia|done].
Qed.

Lemma key_split (h g : bytes) : length g = 4%nat →
  take (length (h ++ g) - 4) (h ++ g) = h ∧ drop (length (h ++ g) - 4) (h ++ g) = g.
Proof.
  intros Hg. rewrite length_app, Hg.
  replace (length h + 4 - 4)%nat with (length h) by lia.
  by rewrite take_app_length, drop_app_length.
Qed.

Lemma make_block_hash_roundtrip h g k :
  make_block_hash_with_group_id h g = Ok k → get_block_hash k = h ∧ get_group_id k = Z.of_nat g.
Proof.
  intros [Hg ->]%make_block_hash_inv.
  destruct (key_split h (be_bytes 4 (Z.of_nat g))) as [E1 E2]; [apply length_be_bytes|].
  unfold get_block_hash, get_group_id. rewrite E1, E2. split; [done|].
  apply from_be_bytes. change (256 ^ Z.of_nat 4) with (2 ^ 32). lia.
Qed.

Lemma make_block_hash_inj h1 g1 h2 g2 k :
  make_block_hash_with_group_id h1 g1 = Ok k → make_block_hash_with_group_id h2 g2 = Ok k →
  h1 = h2 ∧ g1 = g2.
Proof.
  intros [E1 G1]%make_block_hash_roundtrip [E2 G2]%make_block_hash_roundtrip.
  split; [congruence | lia].
Qed.

(** ** Block objects and the store *)

(** Identity of a [KVCacheBlock] object: a block of the pool, or one of the two
    sentinels of the free queue (both have [block_id = -1] in the source, but they
    are distinct objects). *)
Inductive bref := FakeHead | FakeTail | Blk (i : nat).

#[export] Instance bref_eq_dec : EqDecision bref.
Proof. solve_decision. Defined.
#[export] Instance bref_countable : Countable bref.
Proof.
  refine (inj_countable'
    (λ r, match r with FakeHead => None | FakeTail => Some None | Blk i => Some (Some i) end)
    (λ o, match o with None => FakeHead | Some None => FakeTail | Some (Some i) => Blk i end) _).
  by intros [].
Defined.

Record KVCacheBlock := mkBlock {
  block_id : Z;
  ref_cnt : Z;
  block_hash : option bytes;
  prev_free_block : option bref;
  next_free_block : option bref;
  is_null : bool;
}.

(** [KVCacheBlock(block_id)]: the dataclass defaults *)
Definition new_block (id : Z) : KVCacheBlock := mkBlock id 0 None None None false.

#[export] Instance KVCacheBlock_inhabited : Inhabited KVCacheBlock := populate (new_block (-1)).

Definition set_ref_cnt (f : Z → Z) (b : KVCacheBlock) : KVCacheBlock :=
  mkBlock b.(block_id) (f b.(ref_cnt)) b.(block_hash) b.(prev_free_block) b.(next_free_block) b.(is_null).
Definition set_hash (k : option bytes) (b : KVCacheBlock) : KVCacheBlock :=
  mkBlock b.(block_id) b.(ref_cnt) k b.(prev_free_block) b.(next_free_block) b.(is_null).
Definition set_prev (p : option bref) (b : KVCacheBlock) : KVCacheBlock :=
  mkBlock b.(block_id) b.(ref_cnt) b.(block_hash) p b.(next_free_block) b.(is_null).
Definition set_next (n : option bref) (b : KVCacheBlock) : KVCacheBlock :=
  mkBlock b.(block_id) b.(ref_cnt) b.(block_hash) b.(prev_free_block) n b.(is_null).
Definition set_null (b : KVCacheBlock) : KVCacheBlock :=
  mkBlock b.(block_id) b.(ref_cnt) b.(block_hash) b.(prev_free_block) b.(next_free_block) true.

(** The block objects together with the queue's counter. *)
Record Store := mkStore { objs : gmap bref KVCacheBlock; num_free_blocks : Z }.

Definition deref (s : Store) (r : bref) : KVCacheBlock := objs s !!! r.
Definition upd (r : bref) (f : KVCacheBlock → KVCacheBlock) (s : Store) : Store :=
  mkStore (<[r := f (deref s r)]> (objs s)) (num_free_blocks s).
Definition add_num (d : Z) (s : Store) : Store := mkStore (objs s) (num_free_blocks s + d).

Abbreviation prv s r := (prev_free_block (deref s r)).
Abbreviation nxt s r := (next_free_block (deref s r)).

(** Reading and assigning a field of an object. *)
Definition rd {A} (r : bref) (f : KVCacheBlock → A) : M Store A := gets (λ s, f (deref s r)).
Definition wr (r : bref) (f : KVCacheBlock → KVCacheBlock) : M Store () := modify (upd r f).

(** The [block_hash] setter asserts that no hash is set. *)
Definition assign_block_hash (r : bref) (k : bytes) : M Store () :=
  h ← rd r block_hash; assert_ (bool_decide (h = None)) ;; wr r (set_hash (Some k)).
Definition reset_hash (r : bref) : M Store () := wr r (set_hash None).

(** ** FreeKVCacheBlockQueue *)

Module FreeQueue.

Definition init_links (n : nat) (blocks : list bref) : M Store () :=
  for_each (seq 0 n) (λ i,
    bi ← index blocks i;
    (if bool_decide (0 < i)%nat
     then p ← index blocks (i - 1); wr bi (set_prev (Some p)) else mret ()) ;;
    (if bool_decide (i < n - 1)%nat
     then q ← index blocks (i + 1); wr bi (set_next (Some q)) else mret ())).

Definition init (blocks : list bref) : M Store () :=
  modify (λ s, mkStore (objs s) (Z.of_nat (length blocks))) ;;
  init_links (length blocks) blocks ;;
  modify (upd FakeHead (λ _, new_block (-1))) ;;
  modify (upd FakeTail (λ _, new_block (-1))) ;;
  if bool_decide (0 < length blocks)%nat then
    first ← index blocks 0;
    final ← index blocks (length blocks - 1);
    wr FakeHead (set_next (Some first)) ;;
    wr first (set_prev (Some FakeHead)) ;;
    wr FakeTail (set_prev (Some final)) ;;
    wr final (set_next (Some FakeTail))
  else
    wr FakeHead (set_next (Some FakeTail)) ;;
    wr FakeTail (set_prev (Some FakeHead)).

Definition popleft : M Store bref :=
  hd ← rd FakeHead next_free_block;
  match hd with
  | None | Some FakeTail =>
      n ← gets num_free_blocks;
      assert_ (bool_decide (n = 0)) ;; raise ValueError
  | Some first_block =>
      nx ← rd first_block next_free_block;
      match nx with
      | None => raise RuntimeError
      | Some second =>
          wr FakeHead (set_next (Some second)) ;;
          wr second (set_prev (Some FakeHead)) ;;
          wr first_block (set_prev None) ;;
          wr first_block (set_next None) ;;
          modify (add_num (-1)) ;;
          mret first_block
      end
  end.

(** The [for _ in range(n)] loop: the popped blocks and the next cursor. *)
Fixpoint popleft_loop (n : nat) (curr : option bref) : M Store (list bref * option bref) :=
  match n with
  | O => mret ([], curr)
  | S n' =>
      match curr with
      | None => raise AssertionError
      | Some last_block =>
          curr' ← rd last_block next_free_block;
          wr last_block (set_prev None) ;;
          wr last_block (set_next None) ;;
          '(ret, c) ← popleft_loop n' curr';
          mret (last_block :: ret, c)
      end
  end.

Definition popleft_n (n : Z) : M Store (list bref) :=
  if bool_decide (n = 0) then mret [] else
  k ← gets num_free_blocks;
  assert_ (bool_decide (n ≤ k)) ;;
  modify (add_num (- n)) ;;
  curr ← rd FakeHead next_free_block;
  '(ret, curr') ← popleft_loop (Z.to_nat n) curr;
  match curr' with
  | Some c => wr FakeHead (set_next (Some c)) ;; wr c (set_prev (Some FakeHead))
  | None => mret ()
  end ;;
  mret ret.

Definition remove (block : bref) : M Store () :=
  p ← rd block prev_free_block;
  n ← rd block next_free_block;
  match p, n with
  | Some p, Some n =>
      wr p (set_next (Some n)) ;;
      wr n (set_prev (Some p)) ;;
      wr block (set_prev None) ;;
      wr block (set_next None) ;;
      modify (add_num (-1))
  | _, _ => raise RuntimeError
  end.

Definition append (block : bref) : M Store () :=
  t ← rd FakeTail prev_free_block;
  match t with
  | None => raise RuntimeError
  | Some last_block =>
      wr last_block (set_next (Some block)) ;;
      wr block (set_prev (Some last_block)) ;;
      wr block (set_next (Some FakeTail)) ;;
      wr FakeTail (set_prev (Some block)) ;;
      modify (add_num 1)
  end.

Fixpoint append_loop (blocks : list bref) (last_block : bref) : M Store bref :=
  match blocks with
  | [] => mret last_block
  | block :: rest =>
      wr block (set_prev (Some last_block)) ;;
      wr last_block (set_next (Some block)) ;;
      append_loop rest block
  end.

Definition append_n (blocks : list bref) : M Store () :=
  if bool_decide (length blocks = 0%nat) then mret () else
  t ← rd FakeTail prev_free_block;
  match t with
  | None => raise AssertionError
  | Some last_block =>
      last' ← append_loop blocks last_block;
      wr last' (set_next (Some FakeTail)) ;;
      wr FakeTail (set_prev (Some last')) ;;
      modify (add_num (Z.of_nat (length blocks)))
  end.

(** The [while curr_block.next_free_block is not None] loop, with fuel. *)
Fixpoint walk (fuel : nat) (curr : bref) : M Store (list bref) :=
  match fuel with
  | O => raise OutOfFuel
  | S fuel' =>
      n ← rd curr next_free_block;
      match n with
      | None => mret []
      | Some n => ret ← walk fuel' n; mret (curr :: ret)
      end
  end.

Definition get_all_free_blocks (fuel : nat) : M Store (list bref) :=
  hd ← rd FakeHead next_free_block;
  match hd with
  | None => raise RuntimeError
  | Some c => walk fuel c
  end.

(** *** Reasoning about the store *)

Lemma deref_upd s r f r' :
  deref (upd r f s) r' = if decide (r = r') then f (deref s r) else deref s r'.
Proof.
  unfold deref, upd. simpl. case_decide as E; subst.
  - by rewrite lookup_total_insert_eq.
  - by rewrite lookup_total_insert_ne.
Qed.
Lemma deref_add_num s d r : deref (add_num d s) r = deref s r.
Proof. done. Qed.

(** What the queue never touches. *)
Definition meta (b : KVCacheBlock) : Z * Z * option bytes * bool :=
  (b.(block_id), b.(ref_cnt), b.(block_hash), b.(is_null)).
Definition same_meta (s s' : Store) : Prop := ∀ r, meta (deref s' r) = meta (deref s r).

#[global] Instance same_meta_preorder : PreOrder same_meta.
Proof. split; [by intros s r | by intros s1 s2 s3 H1 H2 r; rewrite H2]. Qed.

Lemma same_meta_link s s' r f :
  (∀ b, meta (f b) = meta b) → same_meta s s' → same_meta s (upd r f s').
Proof. intros Hf H r'. rewrite deref_upd. case_decide; subst; by rewrite ?Hf, H. Qed.
Lemma same_meta_add_num s s' d : same_meta s s' → same_meta s (add_num d s').
Proof. done. Qed.

(** *** The chain predicate: [p] linked to the elements of [l] in order *)

Fixpoint chain (s : Store) (p : bref) (l : list bref) : Prop :=
  match l with
  | [] => True
  | b :: l' => nxt s p = Some b ∧ prv s b = Some p ∧ chain s b l'
  end.

Definition lst (p : bref) (l : list bref) : bref := default p (last l).

Lemma lst_cons p b l : lst p (b :: l) = lst b l.
Proof. unfold lst. rewrite last_cons. by destruct (last l). Qed.
Lemma lst_app p l1 l2 : lst p (l1 ++ l2) = lst (lst p l1) l2.
Proof. revert p; induction l1 as [|b l1 IH]; intros p; [done|]. by rewrite <-app_comm_cons, !lst_cons. Qed.
Lemma lst_in p l : lst p l ∈ p :: l.
Proof.
  revert p; induction l as [|b l IH]; intros p; [by left|].
  rewrite lst_cons. right. apply IH.
Qed.
Lemma lst_snoc p l b : lst p (l ++ [b]) = b.
Proof. by rewrite lst_app, lst_cons. Qed.

Lemma chain_app s p l1 l2 : chain s p (l1 ++ l2) ↔ chain s p l1 ∧ chain s (lst p l1) l2.
Proof.
  revert p; induction l1 as [|b l1 IH]; intros p; simpl; [tauto|].
  rewrite IH, lst_cons. tauto.
Qed.

Lemma chain_frame s s' p l :
  NoDup (p :: l) →
  (∀ r, r ∈ p :: l → r ≠ lst p l → nxt s' r = nxt s r) →
  (∀ r, r ∈ l → prv s' r = prv s r) →
  chain s p l → chain s' p l.
Proof.
  revert p; induction l as [|b l IH]; intros p Hnd Hn Hp; simpl; [done|].
  intros (E1 & E2 & Hc). apply NoDup_cons in Hnd as [Hpb Hnd]. rewrite lst_cons in Hn.
  split_and!.
  - rewrite Hn; [done|by left|]. intros ->. apply Hpb, lst_in.
  - rewrite Hp; [done|by left].
  - apply IH; try done; intros r Hr; [intros Hl; apply Hn|apply Hp]; try done; by right.
Qed.

(** The representation invariant: the store's queue holds exactly [l]. *)
Record rep (s : Store) (l : list bref) : Prop := {
  rep_nodup : NoDup (FakeHead :: FakeTail :: l);
  rep_chain : chain s FakeHead (l ++ [FakeTail]);
  rep_tail : nxt s FakeTail = None;
  rep_out : ∀ b, b ∉ FakeHead :: FakeTail :: l → prv s b = None ∧ nxt s b = None;
  rep_num : num_free_blocks s = Z.of_nat (length l);
}.

Lemma rep_nodup_chain s l : rep s l → NoDup (FakeHead :: l ++ [FakeTail]).
Proof.
  intros [H _ _ _ _]. apply NoDup_cons in H as [H1 H]. apply NoDup_cons in H as [H2 H].
  apply NoDup_cons. split; [set_solver|]. apply NoDup_app. split_and!; [done|set_solver|apply NoDup_singleton].
Qed.

Lemma rep_head s l : rep s l → nxt s FakeHead = Some (default FakeTail (head l)).
Proof. intros [_ H _ _ _]. destruct l; simpl in *; naive_solver. Qed.

Lemma rep_last s l : rep s l → prv s FakeTail = Some (lst FakeHead l).
Proof. intros [_ H _ _ _]. apply chain_app in H as [_ H]. simpl in H. naive_solver. Qed.

Lemma rep_split s l1 b l2 : rep s (l1 ++ b :: l2) →
  prv s b = Some (lst FakeHead l1) ∧ nxt s b = Some (default FakeTail (head l2)).
Proof.
  intros [_ H _ _ _]. rewrite <-app_assoc, chain_app in H. simpl in H.
  destruct H as (_ & _ & ? & H). split; [done|]. destruct l2; simpl in *; naive_solver.
Qed.

Lemma link_neq l : NoDup (FakeHead :: FakeTail :: l) →
  FakeHead ∉ l ∧ FakeTail ∉ l ∧ NoDup l.
Proof. rewrite !NoDup_cons. set_solver. Qed.

Lemma chain_splice s s' p l1 n rest :
  NoDup (p :: l1 ++ n :: rest) →
  chain s p l1 → chain s n rest →
  (∀ r, r ∈ p :: l1 ++ n :: rest → r ≠ lst p l1 → nxt s' r = nxt s r) →
  (∀ r, r ∈ l1 ++ rest → prv s' r = prv s r) →
  nxt s' (lst p l1) = Some n → prv s' n = Some (lst p l1) →
  chain s' p (l1 ++ n :: rest).
Proof.
  rewrite app_comm_cons, NoDup_app. intros (Hnd1 & Hdis & Hnd2) Hc1 Hc2 Hn Hp Hpn Hnp.
  apply chain_app. split; [|simpl; split_and!; [done..|]].
  - apply (chain_frame s); try done; [|set_solver]. intros r Hr Hl. apply Hn; [|done].
    set_solver.
  - apply (chain_frame s); try done; [|set_solver]. intros r Hr Hl. apply Hn; [set_solver|].
    intros ->. by eapply Hdis, Hr; apply lst_in.
Qed.

Lemma chain_snoc s s' p l n :
  NoDup (p :: l ++ [n]) → chain s p l →
  (∀ r, r ∈ p :: l ++ [n] → r ≠ lst p l → nxt s' r = nxt s r) →
  (∀ r, r ∈ l → prv s' r = prv s r) →
  nxt s' (lst p l) = Some n → prv s' n = Some (lst p l) →
  chain s' p (l ++ [n]).
Proof. intros. apply (chain_splice s); try done. intros r. rewrite app_nil_r. auto. Qed.

(** Unfold field assignments in links, and close what is decided by disequalities. *)
Ltac links :=
  rewrite ?deref_add_num, ?deref_upd; simpl;
  repeat (case_decide; simplify_eq/=); try done; try congruence.
Ltac frame_meta :=
  repeat first [ apply same_meta_add_num | apply same_meta_link; [done|] ]; reflexivity.

Lemma head_split (l : list bref) :
  ∃ n rest, l ++ [FakeTail] = n :: rest ∧ default FakeTail (head l) = n.
Proof. destruct l; simpl; eauto. Qed.

Lemma lst_not_tail l : FakeTail ∉ l → lst FakeHead l ≠ FakeTail.
Proof. intros H E. pose proof (lst_in FakeHead l) as Hi. rewrite E in Hi. set_solver. Qed.

Lemma NoDup_tail_l1 (l1 l2 : list bref) : NoDup (FakeHead :: FakeTail :: l1 ++ l2) → FakeTail ∉ l1.
Proof. rewrite !NoDup_cons. set_solver. Qed.

Lemma unlink_nodup s l1 b l2 : rep s (l1 ++ b :: l2) →
  NoDup (FakeHead :: FakeTail :: l1 ++ l2) ∧ NoDup (b :: FakeHead :: l1 ++ (l2 ++ [FakeTail])).
Proof.
  intros Hrep. pose proof (rep_nodup _ _ Hrep) as H1. pose proof (rep_nodup_chain _ _ Hrep) as H2.
  split.
  - assert (FakeHead :: FakeTail :: l1 ++ b :: l2 ≡ₚ b :: FakeHead :: FakeTail :: l1 ++ l2) as E
      by (rewrite <-Permutation_middle; solve_Permutation).
    rewrite E in H1. by apply NoDup_cons in H1 as [_ ?].
  - assert (FakeHead :: (l1 ++ b :: l2) ++ [FakeTail] ≡ₚ b :: FakeHead :: l1 ++ (l2 ++ [FakeTail])) as E
      by (rewrite <-Permutation_middle; simpl; rewrite <-app_assoc; solve_Permutation).
    by rewrite E in H2.
Qed.

Lemma unlink_distinct s l1 b l2 : rep s (l1 ++ b :: l2) →
  b ≠ FakeHead ∧ b ≠ FakeTail ∧ lst FakeHead l1 ≠ b ∧ default FakeTail (head l2) ≠ b ∧
  lst FakeHead l1 ≠ default FakeTail (head l2).
Proof.
  intros Hrep. destruct (unlink_nodup _ _ _ _ Hrep) as [_ Hnd].
  apply NoDup_cons in Hnd as [Hb Hnd]. rewrite app_comm_cons in Hb, Hnd.
  apply NoDup_app in Hnd as (_ & Hd & _). pose proof (lst_in FakeHead l1) as Hlst.
  assert (default FakeTail (head l2) ∈ l2 ++ [FakeTail]) as Hh by (destruct l2; simpl; set_solver).
  split_and!; intros E; [| | | |by rewrite <-E in Hh; eapply Hd];
    apply Hb, elem_of_app; subst; first [by left | by right | left; set_solver | right; set_solver].
Qed.

(** Removing one element: the links around it are joined. *)
Lemma rep_unlink s s' l1 b l2 :
  rep s (l1 ++ b :: l2) →
  (∀ r, r ≠ lst FakeHead l1 → r ≠ b → nxt s' r = nxt s r) →
  (∀ r, r ≠ default FakeTail (head l2) → r ≠ b → prv s' r = prv s r) →
  nxt s' (lst FakeHead l1) = Some (default FakeTail (head l2)) →
  prv s' (default FakeTail (head l2)) = Some (lst FakeHead l1) →
  prv s' b = None → nxt s' b = None →
  num_free_blocks s' = num_free_blocks s - 1 →
  rep s' (l1 ++ l2).
Proof.
  intros Hrep Hn Hp E1 E2 E3 E4 Hnum. pose proof (unlink_distinct _ _ _ _ Hrep) as (D1&D2&D3&D4&D5).
  pose proof (unlink_nodup _ _ _ _ Hrep) as [Hnd' Hndc]. destruct Hrep as [Hnd Hc Ht Hout Hnum0].
  rewrite <-app_assoc in Hc. apply chain_app in Hc as [Hc1 Hc2].
  simpl in Hc2. destruct Hc2 as (_ & _ & Hc2).
  split; [done|..].
  - rewrite <-app_assoc. destruct (head_split l2) as (n & rest & El2 & En).
    rewrite El2, En in *. apply (chain_splice s); try done.
    + by apply NoDup_cons in Hndc as [_ ?].
    + simpl in Hc2. by destruct Hc2 as (_ & _ & ?).
    + intros r Hr Hl. apply Hn; [done|]. intros ->. apply NoDup_cons in Hndc as [Hb _]. done.
    + intros r Hr. apply NoDup_cons in Hndc as [Hb Hndc].
      apply Hp; intros ->; [|apply Hb; set_solver +Hr].
      apply NoDup_cons in Hndc as [_ Hndc]. apply NoDup_app in Hndc as (_ & Hd & Hr').
      apply NoDup_cons in Hr' as [Hr' _]. apply elem_of_app in Hr as [Hr|Hr]; [|done].
      apply (Hd _ Hr). by left.
  - rewrite Hn; [done|..]; [|done]. intros E. apply (lst_not_tail l1); [|done].
    by apply (NoDup_tail_l1 l1 (b :: l2)).
  - intros r Hr. destruct (decide (r = b)) as [->|Hrb]; [done|].
    rewrite Hn, Hp; try done; [apply Hout; set_solver +Hr Hrb|..].
    + destruct l2; simpl; set_solver +Hr.
    + intros ->. pose proof (lst_in FakeHead l1). set_solver +H Hr.
  - rewrite Hnum, Hnum0, !length_app. simpl. lia.
Qed.

Lemma wp_remove s l1 b l2 : rep s (l1 ++ b :: l2) →
  wp (remove b) s (λ _ s', rep s' (l1 ++ l2) ∧ same_meta s s').
Proof.
  intros Hrep. destruct (rep_split _ _ _ _ Hrep) as [Ep En].
  destruct (unlink_distinct _ _ _ _ Hrep) as (?&?&?&?&?).
  unfold remove, rd, wr. do 2 (wp_step; wp_step). rewrite Ep, En. wp_steps.
  split; [|frame_meta].
  apply (rep_unlink s _ _ b _ Hrep); intros; links.
Qed.

Lemma remove_absent s l b : rep s l → b ∉ FakeHead :: FakeTail :: l →
  remove b s = (Raise RuntimeError, s).
Proof.
  intros Hrep Hb. destruct (rep_out _ _ Hrep b Hb) as [Ep En].
  unfold remove, rd, mbind, M_bind, gets. by rewrite Ep.
Qed.

Lemma wp_popleft s b l : rep s (b :: l) →
  wp popleft s (λ r s', r = b ∧ rep s' l ∧ same_meta s s').
Proof.
  intros Hrep. destruct (rep_split s [] b l Hrep) as [Ep En].
  destruct (unlink_distinct s [] b l Hrep) as (?&?&?&?&?). pose proof (rep_head _ _ Hrep) as Eh.
  unfold popleft, rd, wr. do 2 wp_step. rewrite Eh. simpl.
  destruct b as [| |i]; try done. do 2 wp_step. rewrite En. wp_steps.
  split_and!; [done| |frame_meta].
  apply (rep_unlink s _ [] _ _ Hrep); intros; links.
Qed.

Lemma popleft_empty s : rep s [] → popleft s = (Raise ValueError, s).
Proof.
  intros Hrep. pose proof (rep_head _ _ Hrep) as Eh. pose proof (rep_num _ _ Hrep) as En.
  unfold popleft, rd, mbind, M_bind, gets. rewrite Eh. simpl. by rewrite En.
Qed.

(** The loop of [popleft_n] walks a chain, clearing the links behind it. *)
Lemma wp_popleft_loop l1 : ∀ s x rest c l2,
  l1 ++ c :: l2 = x :: rest → NoDup (x :: rest) → chain s x rest →
  wp (popleft_loop (length l1) (Some x)) s (λ r s',
    r = (l1, Some c) ∧ same_meta s s' ∧ num_free_blocks s' = num_free_blocks s ∧
    (∀ b, b ∈ l1 → prv s' b = None ∧ nxt s' b = None) ∧
    (∀ b, b ∉ l1 → deref s' b = deref s b)).
Proof.
  induction l1 as [|b l1 IH]; intros s x rest c l2 E Hnd Hc; simpl in E |- *; simplify_eq.
  { apply wp_ret. split_and!; [done|reflexivity|done|set_solver|done]. }
  destruct (l1 ++ c :: l2) as [|y rest] eqn:E; [by destruct l1|].
  apply NoDup_cons in Hnd as [Hb Hnd]. simpl in Hc. destruct Hc as (En & Ep & Hc).
  unfold rd, wr. do 2 wp_step. rewrite En. wp_steps.
  set (s1 := upd x (set_next None) (upd x (set_prev None) s)).
  assert (∀ r, r ≠ x → deref s1 r = deref s r) as Hs1 by (intros r Hr; unfold s1; links).
  eapply wp_mono; [apply (IH s1 y rest c l2 E Hnd)|].
  - apply (chain_frame s); try done; intros r Hr; rewrite Hs1; try done; intros ->; set_solver +Hb Hr.
  - intros [ret c'] s2 (Er & Hm & Hnum & Hin & Hout). wp_steps. simplify_eq.
    assert (x ∉ l1) as Hx by (intros Hx; apply Hb; rewrite <-E; set_solver +Hx).
    split_and!; [done| |done|..].
    + transitivity s1; [unfold s1; frame_meta|done].
    + intros r [->|Hr]%elem_of_cons; [|by apply Hin]. rewrite Hout by done. unfold s1. split; links.
    + intros r Hr. rewrite Hout, Hs1 by set_solver +Hr. done.
Qed.

(** Dropping a prefix of the queue. *)
Lemma rep_drop s s' l1 l2 :
  rep s (l1 ++ l2) →
  nxt s' FakeHead = Some (default FakeTail (head l2)) →
  prv s' (default FakeTail (head l2)) = Some FakeHead →
  (∀ b, b ∈ l1 → prv s' b = None ∧ nxt s' b = None) →
  (∀ b, b ∉ l1 → b ≠ FakeHead → nxt s' b = nxt s b) →
  (∀ b, b ∉ l1 → b ≠ default FakeTail (head l2) → prv s' b = prv s b) →
  num_free_blocks s' = num_free_blocks s - Z.of_nat (length l1) →
  rep s' l2.
Proof.
  intros Hrep E1 E2 Hin Hn Hp Hnum. destruct Hrep as [Hnd Hc Ht Hout Hnum0].
  apply NoDup_cons in Hnd as [H1 Hnd]. apply NoDup_cons in Hnd as [H2 Hnd].
  apply NoDup_app in Hnd as (_ & Hd & Hnd).
  rewrite <-app_assoc in Hc. apply chain_app in Hc as [_ Hc].
  assert (NoDup (FakeHead :: l2 ++ [FakeTail])) as Hnd2.
  { rewrite NoDup_cons, NoDup_app. split_and!; [set_solver +H1|done|set_solver +H2|apply NoDup_singleton]. }
  split.
  - rewrite !NoDup_cons. set_solver +H1 H2 Hnd.
  - destruct (head_split l2) as (n & rest & El2 & En). rewrite El2, En in *. simpl in Hc.
    assert (∀ r, r ∈ n :: rest → r ∉ l1) as Hfr.
    { intros r Hr Hr1. rewrite <-El2 in Hr. apply elem_of_app in Hr as [Hr|Hr]; [by eapply Hd|].
      set_solver +Hr Hr1 H2. }
    apply (chain_splice s _ _ []); try done.
    + by destruct Hc as (_&_&?).
    + intros r Hr Hl. apply Hn; [|done]. apply Hfr. set_solver +Hr Hl.
    + intros r Hr. apply Hp; [apply Hfr; set_solver +Hr|]. intros ->.
      apply NoDup_cons in Hnd2 as [_ Hnd2]. by apply NoDup_cons in Hnd2 as [? _].
  - rewrite Hn; [done| |done]. set_solver +H2.
  - intros b Hb. destruct (decide (b ∈ l1)) as [Hbl|Hbl]; [by apply Hin|].
    rewrite Hn, Hp; [apply Hout; set_solver +Hb Hbl|done| |done|set_solver +Hb].
    destruct l2; simpl; set_solver +Hb.
  - rewrite Hnum, Hnum0, length_app. lia.
Qed.

Lemma wp_popleft_n s l1 l2 : rep s (l1 ++ l2) →
  wp (popleft_n (Z.of_nat (length l1))) s (λ r s', r = l1 ∧ rep s' l2 ∧ same_meta s s').
Proof.
  intros Hrep. unfold popleft_n. case_bool_decide as Hz.
  { wp_steps. destruct l1; [|simpl in Hz; lia]. split_and!; [done|done|reflexivity]. }
  wp_steps. apply wp_assert.
  { apply bool_decide_true. rewrite (rep_num _ _ Hrep), length_app. lia. }
  unfold rd, wr. wp_steps. rewrite !deref_add_num, (rep_head _ _ Hrep), Nat2Z.id.
  pose proof (rep_nodup_chain _ _ Hrep) as Hnd.
  destruct (head_split l2) as (c & rest & El2 & Ec).
  rewrite <-app_assoc, El2 in Hnd. apply NoDup_cons in Hnd as [HH Hnd].
  pose proof (rep_chain _ _ Hrep) as Hc. rewrite <-app_assoc, El2 in Hc.
  assert (c ∉ l1 ∧ FakeHead ∉ l1 ∧ c ≠ FakeHead) as (Hcl & HHl & HcH).
  { apply NoDup_app in Hnd as (_ & Hd & _). set_solver +HH Hd. }
  destruct (l1 ++ c :: rest) as [|x rest'] eqn:E; [by destruct l1|]. simpl in Hc.
  assert (default FakeTail (head (l1 ++ l2)) = x) as ->.
  { destruct l1; simpl in E |- *; simplify_eq; auto. }
  eapply wp_mono; [apply (wp_popleft_loop _ _ _ _ _ _ E Hnd)|].
  { by apply (chain_frame s); [|..|apply Hc]. }
  intros [ret c'] s2 (Er & Hm & Hnum & Hin & Hout). injection Er as -> ->. wp_steps.
  split_and!; [done| |by repeat (apply same_meta_link; [done|]); rewrite <-Hm].
  apply (rep_drop s _ _ _ Hrep); try (intros b Hb; try intros Hb');
    rewrite ?deref_upd, ?Ec in *; try (links; done).
  - assert (b ≠ FakeHead ∧ b ≠ c) as [? ?] by (split; intros ->; done). links; by apply Hin.
  - links; by rewrite ?Hout by done.
  - links; by rewrite ?Hout by done.
Qed.

Lemma popleft_n_short s l n : rep s l → Z.of_nat (length l) < n →
  popleft_n n s = (Raise AssertionError, s).
Proof.
  intros Hrep Hn. unfold popleft_n. rewrite bool_decide_false by lia.
  unfold mbind, M_bind, gets. rewrite (rep_num _ _ Hrep). by rewrite bool_decide_false by lia.
Qed.

(** The loop of [append_n] extends an open chain. *)
Lemma wp_append_loop bs : ∀ s p l,
  NoDup (p :: l ++ bs) → chain s p l →
  wp (append_loop bs (lst p l)) s (λ r s',
    r = lst p (l ++ bs) ∧ chain s' p (l ++ bs) ∧ same_meta s s' ∧
    num_free_blocks s' = num_free_blocks s ∧ nxt s' r = nxt s r ∧
    (∀ b, b ∉ p :: l ++ bs → deref s' b = deref s b)).
Proof.
  induction bs as [|b bs IH]; intros s p l Hnd Hc; simpl.
  { apply wp_ret. rewrite app_nil_r in *. split_and!; [done|done|reflexivity|done..]. }
  unfold wr. wp_steps. set (s1 := upd (lst p l) _ _).
  assert (NoDup (p :: (l ++ [b]) ++ bs)) as Hnd' by (by rewrite <-app_assoc).
  assert (b ∉ p :: l ∧ b ∉ bs) as [Hb1 Hb2].
  { rewrite app_comm_cons in Hnd. apply NoDup_app in Hnd as (_ & Hd & Hb).
    apply NoDup_cons in Hb as [Hb _]. split; [|done]. intros Hi. apply (Hd _ Hi). by left. }
  pose proof (lst_in p l) as Hl. assert (lst p l ≠ b) as Hlb by congruence.
  pose proof (IH s1 p (l ++ [b]) Hnd') as IH1. rewrite lst_snoc in IH1.
  eapply wp_mono; [apply IH1|].
  - apply (chain_snoc s); try done; unfold s1; intros; try (links; done).
    + rewrite app_comm_cons in Hnd'. by apply NoDup_app in Hnd' as (? & _).
    + assert (r ≠ b) by (intros ->; set_solver). links.
  - intros r s2 (Er & Hc2 & Hm & Hnum & Hlast & Hout). rewrite <-app_assoc in *. simpl in *.
    split_and!; [done|done| |done|..].
    + transitivity s1; [unfold s1; frame_meta|done].
    + rewrite Hlast. unfold s1. assert (r ≠ lst p l) as Hr.
      { rewrite Er, lst_app. pose proof (lst_in b bs) as Hi. rewrite lst_cons.
        rewrite app_comm_cons in Hnd. apply NoDup_app in Hnd as (_ & Hd & _). intros E.
        by apply (Hd _ Hl); rewrite <-E. }
      links.
    + intros r' Hr. rewrite Hout by done. unfold s1.
      assert (r' ≠ b ∧ r' ≠ lst p l) as [??] by (split; intros ->; set_solver +Hr Hl). links.
Qed.

Lemma wp_append_n s l bs : rep s l → NoDup bs → (∀ b, b ∈ bs → b ∉ FakeHead :: FakeTail :: l) →
  wp (append_n bs) s (λ _ s', rep s' (l ++ bs) ∧ same_meta s s').
Proof.
  intros Hrep Hbs Hfresh. unfold append_n. case_bool_decide as Hz.
  { apply wp_ret. apply length_zero_iff_nil in Hz as ->. rewrite app_nil_r. split; [done|reflexivity]. }
  assert (NoDup (FakeHead :: FakeTail :: l ++ bs)) as Hnd.
  { destruct Hrep as [Hnd _ _ _ _]. rewrite !app_comm_cons. apply NoDup_app. split_and!; [done| |done].
    intros r Hr Hb. by apply (Hfresh r). }
  destruct (proj1 (NoDup_cons _ _) Hnd) as [HH Hnd']. destruct (proj1 (NoDup_cons _ _) Hnd') as [HT Hnd2].
  unfold rd, wr. wp_steps. rewrite (rep_last _ _ Hrep).
  wp_step. eapply wp_mono; [apply (wp_append_loop bs s FakeHead l)|].
  { apply NoDup_cons. split; [set_solver +HH|done]. }
  { pose proof (rep_chain _ _ Hrep) as Hc. by apply chain_app in Hc as [? _]. }
  intros r s2 (Er & Hc2 & Hm & Hnum & Hlast & Hout). wp_steps.
  assert (r ≠ FakeTail) as HrT by (rewrite Er; by apply lst_not_tail).
  split; [|by apply same_meta_add_num; repeat (apply same_meta_link; [done|])].
  split; [done|..].
  - apply (chain_snoc s2); rewrite <-?Er; try done; intros; try (links; done).
    apply NoDup_cons; split; [set_solver +HH|]. apply NoDup_app; split_and!; [done|set_solver +HT|apply NoDup_singleton].
  - links. rewrite Hout by set_solver +HT. apply (rep_tail _ _ Hrep).
  - intros b Hb. pose proof (lst_in FakeHead (l ++ bs)) as Hl. rewrite <-Er in Hl.
    assert (b ≠ r ∧ b ≠ FakeTail) as [??] by (split; intros ->; set_solver +Hb Hl).
    rewrite !deref_add_num, !deref_upd, !decide_False by done. rewrite Hout by set_solver +Hb.
    apply (rep_out _ _ Hrep). set_solver +Hb.
  - simpl. rewrite Hnum, (rep_num _ _ Hrep), length_app. lia.
Qed.

Lemma wp_append s l b : rep s l → b ∉ FakeHead :: FakeTail :: l →
  wp (append b) s (λ _ s', rep s' (l ++ [b]) ∧ same_meta s s').
Proof.
  intros Hrep Hb. unfold append, rd, wr. do 2 wp_step. rewrite (rep_last _ _ Hrep). wp_steps.
  pose proof (lst_in FakeHead l) as Hl. destruct Hrep as [Hnd Hc Ht Hout Hnum].
  destruct (link_neq _ Hnd) as (HH & HT & Hndl). apply chain_app in Hc as [Hc _].
  assert (lst FakeHead l ≠ b ∧ b ≠ FakeTail) as [? ?]
    by (split; [intros E; rewrite E in Hl; set_solver +Hb Hl | set_solver +Hb]).
  pose proof (lst_not_tail l HT). split; [|frame_meta]. split.
  - rewrite !app_comm_cons. apply NoDup_app. split_and!; [done|set_solver +Hb|apply NoDup_singleton].
  - rewrite <-app_assoc. apply chain_app. split; [|simpl; split_and!; links].
    apply (chain_frame s); try done; [by apply NoDup_cons|..]; intros r Hr; intros;
      assert (r ≠ b ∧ r ≠ FakeTail) as [??] by (split; intros ->; set_solver +Hr Hb HT); links.
  - links.
  - intros r Hr. assert (r ≠ b ∧ r ≠ FakeTail ∧ r ≠ lst FakeHead l) as (?&?&?).
    { split_and!; intros ->; set_solver +Hr Hl. }
    rewrite !deref_add_num, !deref_upd, !decide_False by done. apply Hout. set_solver +Hr.
  - simpl. rewrite Hnum, length_app. simpl. lia.
Qed.

Lemma wp_walk : ∀ l s c fuel, chain s c (l ++ [FakeTail]) → nxt s FakeTail = None →
  (S (length l) < fuel)%nat →
  wp (walk fuel c) s (λ r s', r = c :: l ∧ s' = s).
Proof.
  induction l as [|b l IH]; intros s c [|[|fuel]] Hc Ht Hf; simpl in Hf; try lia;
    cbn [walk app chain] in *; destruct Hc as (En & _ & Hc); unfold rd; do 2 wp_step; rewrite En.
  - wp_steps. rewrite Ht. by wp_steps.
  - wp_step. eapply wp_mono; [apply (IH s b (S fuel)); [done..|lia]|]. intros r s' [-> ->]. by wp_steps.
Qed.

Lemma wp_get_all_free_blocks s l fuel : rep s l → (length l < fuel)%nat →
  wp (get_all_free_blocks fuel) s (λ r s', r = l ∧ s' = s).
Proof.
  intros Hrep Hf. pose proof (rep_chain _ _ Hrep) as Hc. pose proof (rep_tail _ _ Hrep) as Ht.
  unfold get_all_free_blocks, rd. do 2 wp_step. rewrite (rep_head _ _ Hrep).
  destruct l as [|b l]; simpl.
  - destruct fuel; [simpl in Hf; lia|]. simpl. unfold rd. wp_steps. rewrite Ht. by wp_steps.
  - simpl in Hc, Hf. apply wp_walk; [apply Hc|done|lia].
Qed.

(** A chain is determined by its consecutive pairs. *)
Lemma chain_pointwise s p l :
  (∀ i x y, (p :: l) !! i = Some x → l !! i = Some y → nxt s x = Some y ∧ prv s y = Some x) →
  chain s p l.
Proof.
  revert p; induction l as [|b l IH]; intros p H; simpl; [done|].
  destruct (H 0%nat p b eq_refl eq_refl). split_and!; [done..|].
  apply IH. intros i x y Hx Hy. by apply (H (S i)).
Qed.

Definition pred_of (blocks : list bref) (i : nat) : option bref :=
  match i with O => None | S j => blocks !! j end.

Lemma pred_of_spec blocks k : (k ≤ length blocks)%nat →
  ((0 < k)%nat ∧ ∃ p, blocks !! (k - 1)%nat = Some p ∧ pred_of blocks k = Some p) ∨
  (k = 0%nat ∧ pred_of blocks k = None).
Proof.
  intros Hk. destruct k as [|k]; [by right|left]. split; [lia|].
  destruct (lookup_lt_is_Some_2 blocks k) as [p Hp]; [lia|]. exists p. simpl. by rewrite Nat.sub_0_r.
Qed.

(** What the linking loop has written when the first [k] blocks are done. *)
Definition linked_upto (blocks : list bref) (s : Store) (k : nat) (s' : Store) : Prop :=
  same_meta s s' ∧ num_free_blocks s' = num_free_blocks s ∧
  (∀ r, r ∉ blocks → deref s' r = deref s r) ∧
  (∀ i b, blocks !! i = Some b →
     prv s' b = (if bool_decide (i < k)%nat then pred_of blocks i else prv s b) ∧
     nxt s' b = (if bool_decide (i < k)%nat then blocks !! S i else nxt s b)).

Lemma linked_step blocks s k s' s'' b :
  NoDup blocks → linked_upto blocks s k s' → blocks !! k = Some b →
  (∀ r, r ≠ b → deref s'' r = deref s' r) → same_meta s' s'' →
  num_free_blocks s'' = num_free_blocks s' →
  prv s'' b = pred_of blocks k → nxt s'' b = blocks !! S k →
  linked_upto blocks s (S k) s''.
Proof.
  intros Hnd (Hm & Hnum & Hout & Hin) Hb Hfr Hm' Hnum' Ep En. split_and!.
  - by transitivity s'.
  - congruence.
  - intros r Hr. rewrite Hfr; [by apply Hout|]. intros ->. apply Hr. by eapply list_elem_of_lookup_2.
  - intros i c Hc. destruct (decide (c = b)) as [->|Hcb].
    + rewrite (NoDup_lookup _ _ _ _ Hnd Hc Hb), Ep, En. by rewrite bool_decide_true by lia.
    + assert (i ≠ k) by congruence. rewrite !Hfr by done. destruct (Hin _ _ Hc) as [-> ->].
      rewrite (bool_decide_ext (i < S k)%nat (i < k)%nat) by lia. done.
Qed.

Lemma wp_init_links blocks s : NoDup blocks → (∀ b, b ∈ blocks → prv s b = None ∧ nxt s b = None) →
  wp (init_links (length blocks) blocks) s (λ _ s', linked_upto blocks s (length blocks) s').
Proof.
  intros Hnd Hclean. unfold init_links.
  apply (wp_for_each (λ done s', linked_upto blocks s (length done) s')).
  { simpl. split_and!; [reflexivity|done|done|]. intros i b Hb. by rewrite bool_decide_false by lia. }
  2:{ intros s'. by rewrite length_seq. }
  intros done k rest s' Hseq HI. rewrite length_app; simpl. rewrite !Nat.add_1_r.
  assert (k = length done ∧ (k < length blocks)%nat) as [-> Hk].
  { assert (seq 0 (length blocks) !! length done = Some k) as Hk
      by (rewrite Hseq; by rewrite list_lookup_middle).
    apply lookup_seq in Hk. lia. }
  set (k := length done) in *. destruct (lookup_lt_is_Some_2 _ _ Hk) as [b Hb].
  destruct (Hclean b) as [Cp Cn]; [by eapply list_elem_of_lookup_2|].
  assert (prv s' b = None ∧ nxt s' b = None) as [Cp' Cn'].
  { destruct HI as (_ & _ & _ & HI). destruct (HI _ _ Hb) as [-> ->].
    by rewrite bool_decide_false by lia. }
  unfold wr. wp_step. eapply wp_index; [done|].
  destruct (pred_of_spec blocks k (Nat.lt_le_incl _ _ Hk)) as [(Hk0 & p & Hp & Epred)|[Hk0 Epred]];
    [rewrite (bool_decide_true _ Hk0) | rewrite (bool_decide_false (0 < k)%nat) by lia];
    (destruct (decide (k < length blocks - 1)%nat) as [H1|H1];
      [rewrite (bool_decide_true _ H1); destruct (lookup_lt_is_Some_2 blocks (S k)) as [q Hq]; [lia|]
      |rewrite (bool_decide_false _ H1); assert (blocks !! S k = None) as Hq by (apply lookup_ge_None; lia)]);
    repeat first [wp_step | eapply wp_index; [done|]];
    (apply (linked_step _ _ k s' _ b Hnd HI Hb); [intros; links|frame_meta|done|..]);
    rewrite ?Epred, ?Hq; links.
Qed.

Lemma rep_of_lookup blocks s :
  NoDup (FakeHead :: FakeTail :: blocks) →
  nxt s FakeHead = (blocks ++ [FakeTail]) !! 0%nat → nxt s FakeTail = None →
  (∀ i b, (blocks ++ [FakeTail]) !! i = Some b → prv s b = (FakeHead :: blocks) !! i) →
  (∀ i b, blocks !! i = Some b → nxt s b = (blocks ++ [FakeTail]) !! S i) →
  (∀ b, b ∉ FakeHead :: FakeTail :: blocks → prv s b = None ∧ nxt s b = None) →
  num_free_blocks s = Z.of_nat (length blocks) →
  rep s blocks.
Proof.
  intros Hnd Eh Et Ep En Hout Hnum. split; try done.
  apply chain_pointwise. intros i x y Hx Hy. rewrite (Ep _ _ Hy).
  destruct i as [|i]; simpl in *; [split; congruence|].
  assert (i < length blocks)%nat as Hi.
  { apply lookup_lt_Some in Hy. rewrite length_app in Hy. simpl in Hy. lia. }
  rewrite lookup_app_l in Hx by done. split; [|done]. by rewrite (En _ _ Hx).
Qed.

(** The links between consecutive blocks, as the loop leaves them. *)
Definition inner_links (blocks : list bref) (s : Store) : Prop :=
  (∀ i b, blocks !! i = Some b → prv s b = pred_of blocks i ∧ nxt s b = blocks !! S i) ∧
  (∀ b, b ∉ FakeHead :: FakeTail :: blocks → prv s b = None ∧ nxt s b = None).

Lemma prv_lookup blocks s first final i b :
  NoDup (FakeHead :: FakeTail :: blocks) → blocks !! 0%nat = Some first →
  blocks !! (length blocks - 1)%nat = Some final →
  (∀ i b, blocks !! i = Some b → b ≠ first → prv s b = pred_of blocks i) →
  prv s first = Some FakeHead → prv s FakeTail = Some final →
  (blocks ++ [FakeTail]) !! i = Some b → prv s b = (FakeHead :: blocks) !! i.
Proof.
  intros Hnd Hf Hl Hin Ef Et Hb. destruct (link_neq _ Hnd) as (HH & HT & Hndb).
  apply lookup_app_Some in Hb as [Hb|[Hge Hb]].
  - destruct (decide (b = first)) as [->|Hbf].
    + by rewrite (NoDup_lookup _ _ _ _ Hndb Hb Hf).
    + rewrite (Hin _ _ Hb Hbf). destruct i; [congruence|done].
  - apply list_lookup_singleton_Some in Hb as [Hi <-]. rewrite Et, lookup_cons.
    apply lookup_lt_Some in Hf. destruct i; [lia|]. rewrite <-Hl. f_equal. lia.
Qed.

Lemma nxt_lookup blocks s final i b :
  NoDup blocks → blocks !! (length blocks - 1)%nat = Some final →
  (∀ i b, blocks !! i = Some b → b ≠ final → nxt s b = blocks !! S i) →
  nxt s final = Some FakeTail →
  blocks !! i = Some b → nxt s b = (blocks ++ [FakeTail]) !! S i.
Proof.
  intros Hnd Hl Hin Ef Hb. apply lookup_lt_Some in Hl as Hlt.
  destruct (decide (b = final)) as [->|Hbf].
  - rewrite (NoDup_lookup _ _ _ _ Hnd Hb Hl), Ef, lookup_app_r by lia.
    by replace (S (length blocks - 1) - length blocks)%nat with 0%nat by lia.
  - rewrite (Hin _ _ Hb Hbf), lookup_app_l; [done|]. apply lookup_lt_Some in Hb as Hi.
    destruct (decide (S i = length blocks)); [|lia].
    replace (length blocks - 1)%nat with i in Hl by lia. congruence.
Qed.

Lemma rep_connect blocks s first final :
  NoDup (FakeHead :: FakeTail :: blocks) → inner_links blocks s →
  blocks !! 0%nat = Some first → blocks !! (length blocks - 1)%nat = Some final →
  num_free_blocks s = Z.of_nat (length blocks) →
  prv s FakeHead = None → nxt s FakeTail = None →
  rep (upd final (set_next (Some FakeTail)) (upd FakeTail (set_prev (Some final))
        (upd first (set_prev (Some FakeHead)) (upd FakeHead (set_next (Some first)) s)))) blocks.
Proof.
  intros Hnd [Hin Ho] Hf Hl Hnum _ EtT. destruct (link_neq _ Hnd) as (HH & HT & Hndb).
  pose proof (list_elem_of_lookup_2 _ _ _ Hf) as Hf'. pose proof (list_elem_of_lookup_2 _ _ _ Hl) as Hl'.
  assert (first ≠ FakeHead ∧ first ≠ FakeTail ∧ final ≠ FakeTail ∧ final ≠ FakeHead) as (?&?&?&?)
    by (split_and!; intros ->; done).
  assert (∀ i b, blocks !! i = Some b → b ≠ FakeHead ∧ b ≠ FakeTail) as Hne
    by (intros i b Hb; split; intros ->; by apply list_elem_of_lookup_2 in Hb).
  apply rep_of_lookup; [done| | | | | |done].
  - apply lookup_lt_Some in Hf as ?. rewrite lookup_app_l, Hf by lia. links.
  - links.
  - intros i b Hb. eapply prv_lookup; try done; [|links|links].
    intros j c Hc Hcf. destruct (Hne _ _ Hc), (Hin _ _ Hc) as [<- _]. links.
  - intros i b Hb. eapply nxt_lookup; try done; [|links].
    intros j c Hc Hcf. destruct (Hne _ _ Hc), (Hin _ _ Hc) as [_ <-]. links.
  - intros b Hb. assert (b ≠ first ∧ b ≠ final ∧ b ≠ FakeHead ∧ b ≠ FakeTail) as (?&?&?&?)
      by (split_and!; intros ->; set_solver +Hb Hf' Hl').
    rewrite !deref_upd, !decide_False by done. by apply Ho.
Qed.

(** [FreeKVCacheBlockQueue(blocks)] holds the given blocks, in order. *)
Lemma wp_init blocks s : NoDup (FakeHead :: FakeTail :: blocks) →
  (∀ b, b ≠ FakeHead → b ≠ FakeTail → prv s b = None ∧ nxt s b = None) →
  wp (init blocks) s (λ _ s', rep s' blocks ∧
    block_hash (deref s' FakeHead) = None ∧ block_hash (deref s' FakeTail) = None ∧
    ∀ b, b ≠ FakeHead → b ≠ FakeTail → meta (deref s' b) = meta (deref s b)).
Proof.
  intros Hnd Hclean. destruct (link_neq _ Hnd) as (HH & HT & Hndb).
  unfold init. do 3 wp_step. eapply wp_mono; [apply wp_init_links; [done|]|].
  { intros b Hb. apply Hclean; intros ->; done. }
  intros [] s1 (Hm & Hnum & Hout & Hin). simpl in Hnum. unfold wr. do 4 wp_step.
  assert (∀ b, meta (deref s1 b) = meta (deref s b)) as Hm' by (intros b; apply Hm).
  set (s2 := upd FakeTail _ _).
  assert (∀ b, b ≠ FakeHead → b ≠ FakeTail → deref s2 b = deref s1 b) as Es2 by (intros; unfold s2; links).
  assert (inner_links blocks s2) as Hs2.
  { split; intros.
    - destruct (Hin _ _ H) as [Ep En]. rewrite bool_decide_true in Ep, En by (by eapply lookup_lt_Some).
      rewrite Es2; [done|..]; intros ->; by apply list_elem_of_lookup_2 in H.
    - rewrite Es2, Hout by set_solver +H. apply Hclean; set_solver +H. }
  case_bool_decide as Hlen.
  - destruct (lookup_lt_is_Some_2 blocks 0 Hlen) as [first Hf].
    destruct (lookup_lt_is_Some_2 blocks (length blocks - 1)) as [final Hl]; [lia|].
    wp_step. eapply wp_index; [done|]. wp_step. eapply wp_index; [done|].
    assert (first ≠ FakeHead ∧ first ≠ FakeTail ∧ final ≠ FakeHead ∧ final ≠ FakeTail) as (?&?&?&?)
      by (apply list_elem_of_lookup_2 in Hf, Hl; split_and!; intros ->; done).
    wp_steps. split_and!.
    + apply rep_connect; try done; unfold s2; links.
    + unfold s2. links.
    + unfold s2. links.
    + intros b Hb1 Hb2. rewrite <-Hm', <-Es2, !deref_upd by done. repeat (case_decide; subst; [try done|]); done.
  - assert (blocks = []) as -> by (destruct blocks; simpl in *; [done|lia]). wp_steps.
    split_and!; [|unfold s2; links|unfold s2; links|intros b Hb1 Hb2; rewrite <-Hm', <-Es2, !deref_upd, !decide_False by done; done].
    apply rep_of_lookup; [done|links|unfold s2; links| |done| |done].
    + intros i b [-> <-]%list_lookup_singleton_Some. links.
    + intros b Hb. rewrite !deref_upd, !decide_False by set_solver +Hb. by apply Hs2.
Qed.

(** *** The queue as an abstract list, and the refinement *)

Inductive cmd :=
  | CPopleft
  | CPopleftN (n : nat)
  | CRemove (b : bref)
  | CAppend (b : bref)
  | CAppendN (bs : list bref).

Definition run (c : cmd) : M Store (list bref) :=
  match c with
  | CPopleft => b ← popleft; mret [b]
  | CPopleftN n => popleft_n (Z.of_nat n)
  | CRemove b => remove b ;; mret []
  | CAppend b => append b ;; mret []
  | CAppendN bs => append_n bs ;; mret []
  end.

(** The specification: the queue is a list, blocks leave at the front. *)
Definition spec (c : cmd) (l : list bref) : result (list bref) * list bref :=
  match c with
  | CPopleft => match l with [] => (Raise ValueError, l) | b :: l' => (Ok [b], l') end
  | CPopleftN n => if bool_decide (n ≤ length l)%nat then (Ok (take n l), drop n l) else (Raise AssertionError, l)
  | CRemove b => if bool_decide (b ∈ l) then (Ok [], filter (λ x, x ≠ b) l) else (Raise RuntimeError, l)
  | CAppend b => (Ok [], l ++ [b])
  | CAppendN bs => (Ok [], l ++ bs)
  end.

(** What a caller must respect: sentinels are private and an appended block is
    not in the queue already. *)
Definition legal (c : cmd) (l : list bref) : Prop :=
  match c with
  | CPopleft | CPopleftN _ => True
  | CRemove b => b ≠ FakeHead ∧ b ≠ FakeTail
  | CAppend b => b ∉ FakeHead :: FakeTail :: l
  | CAppendN bs => NoDup bs ∧ ∀ b, b ∈ bs → b ∉ FakeHead :: FakeTail :: l
  end.

#[global] Instance legal_dec c l : Decision (legal c l).
Proof.
  destruct c as [| | | |bs]; simpl; try apply _.
  refine (cast_if (decide (NoDup bs ∧ Forall (λ b, b ∉ FakeHead :: FakeTail :: l) bs)));
    by rewrite Forall_forall in *.
Defined.

Definition refines (s : Store) (r : result (list bref) * Store) (r' : result (list bref) * list bref) : Prop :=
  fst r = fst r' ∧ rep (snd r) (snd r') ∧ same_meta s (snd r).

Lemma refines_wp {s c l} (x : list bref) :
  wp c s (λ r s', r = x ∧ rep s' l ∧ same_meta s s') → refines s (c s) (Ok x, l).
Proof. intros (r & s' & E & -> & ? & ?)%wp_ok. by rewrite E. Qed.

Lemma run_refines s l c : rep s l → legal c l → refines s (run c s) (spec c l).
Proof.
  intros Hrep Hlegal. destruct c as [|n|b|b|bs]; simpl in *.
  - destruct l as [|b l].
    + unfold mbind, M_bind. by rewrite popleft_empty.
    + apply refines_wp. wp_step. eapply wp_mono; [by apply wp_popleft|].
      intros ? ? (-> & ? & ?). by wp_steps.
  - case_bool_decide.
    + apply refines_wp. rewrite <-(take_drop n l) in Hrep.
      pose proof (wp_popleft_n s (take n l) (drop n l) Hrep) as W.
      by rewrite length_take, Nat.min_l in W by done.
    + by rewrite (popleft_n_short s l) by (done || lia).
  - case_bool_decide as Hb.
    + apply list_elem_of_split in Hb as (l1 & l2 & ->).
      apply refines_wp. wp_step. eapply wp_mono; [by apply wp_remove|].
      intros ? ? (? & ?). wp_steps. split_and!; try done. rewrite filter_middle; [done|].
      by destruct (link_neq _ (rep_nodup _ _ Hrep)) as (_ & _ & ?).
    + unfold mbind, M_bind. rewrite (remove_absent s l) by set_solver. done.
  - apply refines_wp. wp_step. eapply wp_mono; [by apply wp_append|]. intros ? ? (? & ?). by wp_steps.
  - apply refines_wp. wp_step. destruct Hlegal. eapply wp_mono; [by apply wp_append_n|].
    intros ? ? (? & ?). by wp_steps.
Qed.

(** A sequence of calls, and the results it returns. *)
Fixpoint run_all (cs : list cmd) (s : Store) : list (result (list bref)) * Store :=
  match cs with
  | [] => ([], s)
  | c :: cs' => let '(r, s1) := run c s in let '(rs, s2) := run_all cs' s1 in (r :: rs, s2)
  end.
Fixpoint spec_all (cs : list cmd) (l : list bref) : list (result (list bref)) * list bref :=
  match cs with
  | [] => ([], l)
  | c :: cs' => let '(r, l1) := spec c l in let '(rs, l2) := spec_all cs' l1 in (r :: rs, l2)
  end.
Fixpoint legal_all (cs : list cmd) (l : list bref) : Prop :=
  match cs with
  | [] => True
  | c :: cs' => legal c l ∧ legal_all cs' (snd (spec c l))
  end.

#[global] Instance legal_all_dec cs l : Decision (legal_all cs l).
Proof. revert l; induction cs as [|c cs IH]; intros l; simpl; apply _. Defined.

Lemma run_all_refines cs : ∀ s l, rep s l → legal_all cs l →
  fst (run_all cs s) = fst (spec_all cs l) ∧
  rep (snd (run_all cs s)) (snd (spec_all cs l)) ∧ same_meta s (snd (run_all cs s)).
Proof.
  induction cs as [|c cs IH]; intros s l Hrep Hlegal; simpl in *; [split_and!; [done..|reflexivity]|].
  destruct Hlegal as [Hc Hcs]. destruct (run_refines s l c Hrep Hc) as (E & Hr & Hm).
  destruct (run c s) as [r s1], (spec c l) as [r' l1]. simpl in *. subst.
  destruct (IH s1 l1 Hr Hcs) as (E2 & Hr2 & Hm2).
  destruct (run_all cs s1), (spec_all cs l1). simpl in *. subst. split_and!; [done..|by transitivity s1].
Qed.
End FreeQueue.

(** ** What the free queue promises to the block pool

    The pool is verified against this interface: a representation predicate that
    survives assignments to the other fields of the blocks, and one law for each
    queue operation the pool calls. *)
Class FreeQueueLaws (R : Store → list bref → Prop) : Prop := {
  fq_nodup s l : R s l → NoDup l;
  fq_num s l : R s l → num_free_blocks s = Z.of_nat (length l);
  fq_frame s s' l : R s l → num_free_blocks s' = num_free_blocks s →
    (∀ r, prv s' r = prv s r ∧ nxt s' r = nxt s r) → R s' l;
  fq_init blocks s : NoDup (FakeHead :: FakeTail :: blocks) →
    (∀ b, b ≠ FakeHead → b ≠ FakeTail → prv s b = None ∧ nxt s b = None) →
    wp (FreeQueue.init blocks) s (λ _ s', R s' blocks ∧
      block_hash (deref s' FakeHead) = None ∧ block_hash (deref s' FakeTail) = None ∧
      ∀ b, b ≠ FakeHead → b ≠ FakeTail → FreeQueue.meta (deref s' b) = FreeQueue.meta (deref s b));
  fq_popleft s b l : R s (b :: l) →
    wp FreeQueue.popleft s (λ r s', r = b ∧ R s' l ∧ FreeQueue.same_meta s s');
  fq_popleft_n s l1 l2 : R s (l1 ++ l2) →
    wp (FreeQueue.popleft_n (Z.of_nat (length l1))) s (λ r s', r = l1 ∧ R s' l2 ∧ FreeQueue.same_meta s s');
  fq_remove s l1 b l2 : R s (l1 ++ b :: l2) →
    wp (FreeQueue.remove b) s (λ _ s', R s' (l1 ++ l2) ∧ FreeQueue.same_meta s s');
  fq_append_n s l bs : R s l → NoDup bs → (∀ b, b ∈ bs → b ∉ FakeHead :: FakeTail :: l) →
    wp (FreeQueue.append_n bs) s (λ _ s', R s' (l ++ bs) ∧ FreeQueue.same_meta s s');
}.

#[export] Instance free_queue_laws : FreeQueueLaws FreeQueue.rep.
Proof.
  split; auto using FreeQueue.rep_num, FreeQueue.wp_init, FreeQueue.wp_popleft,
    FreeQueue.wp_popleft_n, FreeQueue.wp_remove, FreeQueue.wp_append_n.
  - intros s l H. by destruct (FreeQueue.link_neq _ (FreeQueue.rep_nodup _ _ H)) as (_&_&?).
  - intros s s' l [Hnd Hc Ht Ho Hn] Hnum Hl. split; try done.
    + apply (FreeQueue.chain_frame s); try done; [|by intros; apply Hl..].
      eapply FreeQueue.rep_nodup_chain. by split.
    + by rewrite (proj2 (Hl FakeTail)).
    + intros b Hb. rewrite (proj1 (Hl b)), (proj2 (Hl b)). by apply Ho.
    + by rewrite Hnum.
Qed.

(** ** Properties *)

(** A store whose block objects have no links yet. *)
Definition unlinked (s : Store) : Prop :=
  ∀ b, b ≠ FakeHead → b ≠ FakeTail → prv s b = None ∧ nxt s b = None.

(** C10. [FreeKVCacheBlockQueue] refines a list.  Construct the queue on any
    distinct blocks and perform any legal sequence of [popleft], [popleft_n],
    [remove], [append] and [append_n]: every call returns (or raises) exactly what
    the list specification returns, the pointer structure represents the
    specification's list at the end, [get_all_free_blocks] enumerates that list, and
    reference counts, hashes and null flags of the blocks are untouched. *)
Theorem free_queue_refines_list (blocks : list bref) (cs : list FreeQueue.cmd) (s : Store) :
  NoDup (FakeHead :: FakeTail :: blocks) → unlinked s → FreeQueue.legal_all cs blocks →
  ∃ s1, FreeQueue.init blocks s = (Ok (), s1) ∧
    let '(rs, s2) := FreeQueue.run_all cs s1 in
    let '(rs', l) := FreeQueue.spec_all cs blocks in
    rs = rs' ∧ num_free_blocks s2 = Z.of_nat (length l) ∧
    FreeQueue.get_all_free_blocks (S (length l)) s2 = (Ok l, s2) ∧
    ∀ b, b ≠ FakeHead → b ≠ FakeTail → FreeQueue.meta (deref s2 b) = FreeQueue.meta (deref s b).
Proof.
  intros Hnd Hclean Hlegal.
  destruct (proj1 (wp_ok _ _ _) (FreeQueue.wp_init blocks s Hnd Hclean)) as ([] & s1 & E & Hrep & _ & _ & Hm).
  exists s1. split; [done|]. destruct (FreeQueue.run_all_refines cs s1 blocks Hrep Hlegal) as (Er & Hrep2 & Hm2).
  destruct (FreeQueue.run_all cs s1) as [rs s2], (FreeQueue.spec_all cs blocks) as [rs' l]. simpl in *.
  destruct (proj1 (wp_ok _ _ _) (FreeQueue.wp_get_all_free_blocks s2 l (S (length l)) Hrep2 ltac:(lia)))
    as (r & s' & Eg & -> & ->).
  split_and!; [done|by apply FreeQueue.rep_num|done|]. intros b H1 H2. by rewrite Hm2, Hm.
Qed.

Lemma free_queue_refines_list_witness :
  ∃ s1, FreeQueue.init [Blk 0; Blk 1; Blk 2] (mkStore ∅ 0) = (Ok (), s1) ∧
    let '(rs, s2) := FreeQueue.run_all
      [FreeQueue.CPopleft; FreeQueue.CRemove (Blk 2); FreeQueue.CRemove (Blk 2);
       FreeQueue.CAppendN [Blk 2; Blk 0]; FreeQueue.CPopleftN 2; FreeQueue.CPopleftN 2] s1 in
    let '(rs', l) := FreeQueue.spec_all
      [FreeQueue.CPopleft; FreeQueue.CRemove (Blk 2); FreeQueue.CRemove (Blk 2);
       FreeQueue.CAppendN [Blk 2; Blk 0]; FreeQueue.CPopleftN 2; FreeQueue.CPopleftN 2] [Blk 0; Blk 1; Blk 2] in
    rs = rs' ∧ num_free_blocks s2 = Z.of_nat (length l) ∧
    FreeQueue.get_all_free_blocks (S (length l)) s2 = (Ok l, s2) ∧
    ∀ b, b ≠ FakeHead → b ≠ FakeTail → FreeQueue.meta (deref s2 b) = FreeQueue.meta (deref (mkStore ∅ 0) b).
Proof.
  apply (free_queue_refines_list [Blk 0; Blk 1; Blk 2]
    [FreeQueue.CPopleft; FreeQueue.CRemove (Blk 2); FreeQueue.CRemove (Blk 2);
     FreeQueue.CAppendN [Blk 2; Blk 0]; FreeQueue.CPopleftN 2; FreeQueue.CPopleftN 2] (mkStore ∅ 0)).
  - apply (bool_decide_unpack _). vm_compute. exact I.
  - intros b _ _. split; reflexivity.
  - apply (bool_decide_unpack _). vm_compute. exact I.
Defined.

(** The block key packs and unpacks: for every hash and every group id below
    [2^32] the key exists, gives back both components, and distinct pairs have
    distinct keys; a larger group id raises [OverflowError]. *)
Theorem block_key_roundtrip (h : bytes) (g : nat) :
  (if bool_decide (Z.of_nat g < 2 ^ 32)
   then ∃ k, make_block_hash_with_group_id h g = Ok k ∧ get_block_hash k = h ∧ get_group_id k = Z.of_nat g ∧
        ∀ h' g', make_block_hash_with_group_id h' g' = Ok k → h' = h ∧ g' = g
   else make_block_hash_with_group_id h g = Raise OverflowError).
Proof.
  case_bool_decide as Hg.
  - pose proof (make_block_hash_ok h g Hg) as E. eexists. split; [exact E|].
    destruct (make_block_hash_roundtrip _ _ _ E). split_and!; [done..|].
    intros h' g' E'. by apply (make_block_hash_inj _ _ _ _ _ E' E).
  - unfold make_block_hash_with_group_id, to_bytes_be. rewrite bool_decide_false; [done|].
    change (256 ^ Z.of_nat 4) with (2 ^ 32). lia.
Qed.
