(* ===== verification/Request.v ===== *)
(** * vllm/v1/request.py and vllm/v1/core/sched/utils.py

    The request object: its status machine, its token lists and the stop check of
    the scheduler.  The block hasher a request is built with is a parameter of the
    operations that call it (it is defined in BlockHash.v). *)

From stdpp Require Import base tactics option list gmap strings.
From Stdlib Require Import ZArith Lia.
From S2P Require Import Prelude KVCacheUtils.
Local Open Scope Z_scope.

(** ** Status *)

Inductive RequestStatus :=
  | WAITING | WAITING_FOR_FSM | WAITING_FOR_REMOTE_KVS | RUNNING | PREEMPTED
  | FINISHED_STOPPED | FINISHED_LENGTH_CAPPED | FINISHED_ABORTED | FINISHED_IGNORED.

#[export] Instance RequestStatus_eq_dec : EqDecision RequestStatus.
Proof. solve_decision. Defined.

(** [enum.auto()] numbers the members from 1 in declaration order. *)
Definition status_value (s : RequestStatus) : Z :=
  match s with
  | WAITING => 1 | WAITING_FOR_FSM => 2 | WAITING_FOR_REMOTE_KVS => 3 | RUNNING => 4 | PREEMPTED => 5
  | FINISHED_STOPPED => 6 | FINISHED_LENGTH_CAPPED => 7 | FINISHED_ABORTED => 8 | FINISHED_IGNORED => 9
  end.

Definition status_is_finished (s : RequestStatus) : bool := status_value PREEMPTED <? status_value s.

Inductive FinishReason := STOP | LENGTH | ABORT.

(** [_FINISHED_REASON_MAP.get(status)] *)
Definition finished_reason (s : RequestStatus) : option FinishReason :=
  match s with
  | FINISHED_STOPPED => Some STOP
  | FINISHED_LENGTH_CAPPED => Some LENGTH
  | FINISHED_ABORTED => Some ABORT
  | FINISHED_IGNORED => Some LENGTH
  | _ => None
  end.

(** ** Parameters of a request *)

Record SamplingParams := mkSampling {
  sp_max_tokens : option Z;
  sp_min_tokens : Z;
  sp_ignore_eos : bool;
  sp_stop_token_ids : option (list Z);
  sp_skip_reading_prefix_cache : option bool;
  sp_structured_outputs : option bool;  (** the value of [all_constraints_none()] when set *)
  sp_extra_args : option (gmap string string);
}.
Record PoolingParams := mkPooling { pp_skip_reading_prefix_cache : option bool }.
Record LoRARequest := mkLoRA { lora_name : string; adapter_id : Z }.
Record MultiModalFeatureSpec := mkMM { identifier : string; mm_offset : Z; mm_length : Z }.
Inductive EngineCoreEventType := QUEUED | SCHEDULED | EV_PREEMPTED.

(** ** The request object.  A prompt embedding is the list of its rows, each the
    bytes of the row; times are ticks of the clock. *)
Record Request := mkRequest {
  request_id : string;
  client_index : Z;
  priority : Z;
  sampling_params : option SamplingParams;
  pooling_params : option PoolingParams;
  eos_token_id : option Z;
  lora_request : option LoRARequest;
  use_structured_output : bool;
  arrival_time : Z;
  status : RequestStatus;
  events : list (EngineCoreEventType * Z);
  stop_reason : option Z;
  kv_transfer_params : option string;
  max_tokens : Z;
  prompt_token_ids : option (list Z);
  prompt_embeds : option (list bytes);
  num_prompt_tokens : nat;
  output_token_ids : list Z;
  all_token_ids : list Z;
  num_output_placeholders : Z;
  spec_token_ids : list Z;
  num_computed_tokens : Z;
  cache_salt : option string;
  mm_features : list MultiModalFeatureSpec;
  num_cached_tokens : Z;
  num_nans_in_logits : Z;
  num_preemptions : Z;
  num_external_computed_tokens : Z;
  block_hashes : list bytes;
  skip_reading_prefix_cache : bool;
}.

Definition num_tokens (r : Request) : Z := Z.of_nat (length (all_token_ids r)).
Definition num_tokens_with_spec (r : Request) : Z :=
  Z.of_nat (length (all_token_ids r)) + Z.of_nat (length (spec_token_ids r)).
Definition num_output_tokens (r : Request) : Z := Z.of_nat (length (output_token_ids r)).
Definition num_encoder_inputs (r : Request) : Z := Z.of_nat (length (mm_features r)).
Definition has_encoder_inputs (r : Request) : bool := 0 <? num_encoder_inputs r.
Definition is_finished (r : Request) : bool := status_is_finished (status r).
Definition get_finished_reason (r : Request) : option FinishReason := finished_reason (status r).

(** [get_num_encoder_tokens(input_id)]: the assertion is on the upper bound. *)
Definition get_num_encoder_tokens (r : Request) (input_id : nat) : result Z :=
  match mm_features r !! input_id with
  | Some f => Ok (mm_length f)
  | None => Raise AssertionError
  end.

(** [StructuredOutputRequest.from_sampling_params(sampling_params) is not None] *)
Definition from_sampling_params (sp : option SamplingParams) : bool :=
  match sp with
  | None => false
  | Some sp => match sp_structured_outputs sp with Some all_none => negb all_none | None => false end
  end.

Definition length_from_prompt_token_ids_or_embeds (ids : option (list Z)) (emb : option (list bytes)) : result nat :=
  match ids, emb with
  | None, None => Raise ValueError
  | None, Some e => Ok (length e)
  | Some i, Some e => if bool_decide (length e ≠ length i) then Raise ValueError else Ok (length i)
  | Some i, None => Ok (length i)
  end.

Definition get_skip_reading_prefix_cache (sp : option SamplingParams) (pp : option PoolingParams) : bool :=
  match sp ≫= sp_skip_reading_prefix_cache with
  | Some b => b
  | None => match pp ≫= pp_skip_reading_prefix_cache with Some b => b | None => false end
  end.

Definition set_block_hashes (h : list bytes) (r : Request) : Request :=
  mkRequest (request_id r) (client_index r) (priority r) (sampling_params r) (pooling_params r)
    (eos_token_id r) (lora_request r) (use_structured_output r) (arrival_time r) (status r) (events r)
    (stop_reason r) (kv_transfer_params r) (max_tokens r) (prompt_token_ids r) (prompt_embeds r)
    (num_prompt_tokens r) (output_token_ids r) (all_token_ids r) (num_output_placeholders r)
    (spec_token_ids r) (num_computed_tokens r) (cache_salt r) (mm_features r) (num_cached_tokens r)
    (num_nans_in_logits r) (num_preemptions r) (num_external_computed_tokens r) h
    (skip_reading_prefix_cache r).
Definition set_tokens (out all : list Z) (r : Request) : Request :=
  mkRequest (request_id r) (client_index r) (priority r) (sampling_params r) (pooling_params r)
    (eos_token_id r) (lora_request r) (use_structured_output r) (arrival_time r) (status r) (events r)
    (stop_reason r) (kv_transfer_params r) (max_tokens r) (prompt_token_ids r) (prompt_embeds r)
    (num_prompt_tokens r) out all (num_output_placeholders r)
    (spec_token_ids r) (num_computed_tokens r) (cache_salt r) (mm_features r) (num_cached_tokens r)
    (num_nans_in_logits r) (num_preemptions r) (num_external_computed_tokens r) (block_hashes r)
    (skip_reading_prefix_cache r).
Definition set_status (st : RequestStatus) (sr : option Z) (r : Request) : Request :=
  mkRequest (request_id r) (client_index r) (priority r) (sampling_params r) (pooling_params r)
    (eos_token_id r) (lora_request r) (use_structured_output r) (arrival_time r) st (events r)
    sr (kv_transfer_params r) (max_tokens r) (prompt_token_ids r) (prompt_embeds r)
    (num_prompt_tokens r) (output_token_ids r) (all_token_ids r) (num_output_placeholders r)
    (spec_token_ids r) (num_computed_tokens r) (cache_salt r) (mm_features r) (num_cached_tokens r)
    (num_nans_in_logits r) (num_preemptions r) (num_external_computed_tokens r) (block_hashes r)
    (skip_reading_prefix_cache r).
Definition set_events (ev : list (EngineCoreEventType * Z)) (r : Request) : Request :=
  mkRequest (request_id r) (client_index r) (priority r) (sampling_params r) (pooling_params r)
    (eos_token_id r) (lora_request r) (use_structured_output r) (arrival_time r) (status r) ev
    (stop_reason r) (kv_transfer_params r) (max_tokens r) (prompt_token_ids r) (prompt_embeds r)
    (num_prompt_tokens r) (output_token_ids r) (all_token_ids r) (num_output_placeholders r)
    (spec_token_ids r) (num_computed_tokens r) (cache_salt r) (mm_features r) (num_cached_tokens r)
    (num_nans_in_logits r) (num_preemptions r) (num_external_computed_tokens r) (block_hashes r)
    (skip_reading_prefix_cache r).
(** [request.num_computed_tokens = n], which the scheduler assigns *)
Definition set_num_computed (n : Z) (r : Request) : Request :=
  mkRequest (request_id r) (client_index r) (priority r) (sampling_params r) (pooling_params r)
    (eos_token_id r) (lora_request r) (use_structured_output r) (arrival_time r) (status r) (events r)
    (stop_reason r) (kv_transfer_params r) (max_tokens r) (prompt_token_ids r) (prompt_embeds r)
    (num_prompt_tokens r) (output_token_ids r) (all_token_ids r) (num_output_placeholders r)
    (spec_token_ids r) n (cache_salt r) (mm_features r) (num_cached_tokens r)
    (num_nans_in_logits r) (num_preemptions r) (num_external_computed_tokens r) (block_hashes r)
    (skip_reading_prefix_cache r).

Section operations.
(** [block_hasher]: the hashes of the full blocks not hashed yet, or [None] when
    prefix caching is off. *)
Context (block_hasher : option (Request → result (list bytes))).

(** The constructor's tail: the initial block hashes. *)
Definition init_block_hashes (r : Request) : result Request :=
  match block_hasher with
  | None => Ok r
  | Some h => match h r with Ok hs => Ok (set_block_hashes hs r) | Raise e => Raise e end
  end.

(** The part of [__init__] that depends on the kind of parameters:
    [(max_tokens, status, kv_transfer_params)]. *)
Definition init_kind (sp : option SamplingParams) (pp : option PoolingParams)
    : result (Z * RequestStatus * option string) :=
  match pp, sp with
  | Some _, _ => Ok (1, WAITING, None)
  | None, Some s =>
      match sp_max_tokens s with
      | None => Raise AssertionError
      | Some mt => Ok (mt, if from_sampling_params sp then WAITING_FOR_FSM else WAITING,
                       sp_extra_args s ≫= λ ea, ea !! "kv_transfer_params"%string)
      end
  | None, None => Raise ValueError
  end.

Definition new_request (id : string) (ids : option (list Z)) (sp : option SamplingParams)
    (pp : option PoolingParams) (eos : option Z) (client : Z) (arrival : option Z) (now : Z)
    (emb : option (list bytes)) (mm : option (list MultiModalFeatureSpec)) (lora : option LoRARequest)
    (salt : option string) (prio : Z) : result Request :=
  match init_kind sp pp with
  | Raise e => Raise e
  | Ok (mt, st, kvp) =>
      match length_from_prompt_token_ids_or_embeds ids emb with
      | Raise e => Raise e
      | Ok n =>
          init_block_hashes
            (mkRequest id client prio sp pp eos lora (from_sampling_params sp) (default now arrival)
               st [] None kvp mt ids emb n [] (default (replicate n 0) ids) 0 [] 0 salt
               (default [] mm) (-1) 0 0 0 [] (get_skip_reading_prefix_cache sp pp))
      end
  end.

(** [append_output_token_ids]: an int or a list of ints. *)
Definition append_output_token_ids (token_ids : Z + list Z) (r : Request) : result Request :=
  let ts := match token_ids with inl t => [t] | inr ts => ts end in
  let r1 := set_tokens (output_token_ids r ++ ts) (all_token_ids r ++ ts) r in
  match block_hasher with
  | None => Ok r1
  | Some h =>
      match h r1 with
      | Ok hs => Ok (set_block_hashes (block_hashes r1 ++ hs) r1)
      | Raise e => Raise e
      end
  end.
End operations.

Definition record_event (ty : EngineCoreEventType) (timestamp : Z) (r : Request) : Request :=
  set_events (events r ++ [(ty, timestamp)]) r.

Definition take_events (r : Request) : option (list (EngineCoreEventType * Z)) * Request :=
  match events r with
  | [] => (None, r)
  | ev => (Some ev, set_events [] r)
  end.

(** ** vllm/v1/core/sched/utils.py *)

(** [lst.remove(item)] with [ValueError] suppressed: the first occurrence goes. *)
Fixpoint remove_first {A} `{EqDecision A} (x : A) (l : list A) : list A :=
  match l with
  | [] => []
  | y :: l' => if decide (y = x) then l' else y :: remove_first x l'
  end.

Definition remove_all {A} `{Countable A} (lst : list A) (items_to_remove : gset A) : list A :=
  match elements items_to_remove with
  | [] => lst
  | [item] => remove_first item lst
  | _ => filter (λ x, x ∉ items_to_remove) lst
  end.

(** [check_stop]: whether the request stops, and the request afterwards.
    [pooler_output] is present or not. *)
Definition check_stop (r : Request) (max_model_len : Z) (pooler_output : bool) : result (bool * Request) :=
  match pooling_params r with
  | Some _ => if pooler_output then Ok (true, set_status FINISHED_STOPPED (stop_reason r) r) else Ok (false, r)
  | None =>
      match sampling_params r with
      | None => Raise AssertionError
      | Some sp =>
          if num_output_tokens r <? sp_min_tokens sp then Ok (false, r) else
          match last (output_token_ids r) with
          | None => Raise IndexError
          | Some t =>
              if negb (sp_ignore_eos sp) && bool_decide (Some t = eos_token_id r)
              then Ok (true, set_status FINISHED_STOPPED (stop_reason r) r)
              else if bool_decide (t ∈ default [] (sp_stop_token_ids sp))
              then Ok (true, set_status FINISHED_STOPPED (Some t) r)
              else if (max_model_len <=? num_tokens r) || (max_tokens r <=? num_output_tokens r)
              then Ok (true, set_status FINISHED_LENGTH_CAPPED (stop_reason r) r)
              else Ok (false, r)
          end
      end
  end.

(** ** Lemmas *)

Lemma remove_first_absent {A} `{EqDecision A} (x : A) l : x ∉ l → remove_first x l = l.
Proof. induction l as [|y l IH]; intros Hx; simpl; [done|]. rewrite decide_False by set_solver. f_equal. apply IH. set_solver. Qed.

Lemma remove_first_NoDup {A} `{EqDecision A} (x : A) l :
  NoDup l → remove_first x l = filter (λ y, y ≠ x) l.
Proof.
  induction l as [|y l IH]; intros Hnd; [done|]. apply NoDup_cons in Hnd as [Hy Hnd]. simpl.
  case_decide as E; subst.
  - rewrite filter_cons_False by naive_solver. symmetry. apply filter_id. by intros z Hz ->.
  - rewrite filter_cons_True by done. f_equal. by apply IH.
Qed.

(** ** Properties *)

(** C32. The stop check is exact.  For a generative request that has produced a
    token, [check_stop] returns [True] exactly when the minimum length is reached
    and the last token is the (not ignored) EOS token, a stop token, or a length
    limit is reached; then the request is finished, with reason STOP for a token and
    LENGTH otherwise, and no token is lost; when it returns [False] the request is
    unchanged. *)
Theorem check_stop_exact (r : Request) (sp : SamplingParams) (t max_model_len : Z) (pooled : bool) :
  pooling_params r = None → sampling_params r = Some sp → last (output_token_ids r) = Some t →
  ∃ b r', check_stop r max_model_len pooled = Ok (b, r') ∧
    let by_token := (sp_ignore_eos sp = false ∧ Some t = eos_token_id r) ∨ t ∈ default [] (sp_stop_token_ids sp) in
    let by_length := max_model_len ≤ num_tokens r ∨ max_tokens r ≤ num_output_tokens r in
    (b = true ↔ sp_min_tokens sp ≤ num_output_tokens r ∧ (by_token ∨ by_length)) ∧
    (b = true → is_finished r' = true ∧ all_token_ids r' = all_token_ids r ∧
       ((by_token ∧ get_finished_reason r' = Some STOP) ∨ (¬ by_token ∧ get_finished_reason r' = Some LENGTH))) ∧
    (b = false → r' = r).
Proof.
  intros Hp Hs Hl. unfold check_stop. rewrite Hp, Hs, Hl.
  destruct (Z.ltb_spec (num_output_tokens r) (sp_min_tokens sp)).
  { do 2 eexists. split; [done|]. simpl. split_and!; [|done|done]. split; [done|]. lia. }
  destruct (negb (sp_ignore_eos sp) && bool_decide (Some t = eos_token_id r)) eqn:E1.
  { apply andb_true_iff in E1 as [E1%negb_true_iff E2%bool_decide_eq_true]. do 2 eexists. split; [done|].
    simpl. split_and!; [naive_solver| |done]. intros _. split_and!; [done|done|]. left. naive_solver. }
  assert (¬ (sp_ignore_eos sp = false ∧ Some t = eos_token_id r)) as Heos.
  { intros [E2 E3]. rewrite E2, bool_decide_true in E1 by done. done. }
  clear E1. case_bool_decide as E2.
  { do 2 eexists. split; [done|]. simpl. split_and!; [naive_solver| |done]. intros _. split_and!; [done|done|]. left. naive_solver. }
  destruct ((max_model_len <=? num_tokens r) || (max_tokens r <=? num_output_tokens r)) eqn:E3;
    do 2 eexists; (split; [done|]); simpl.
  - apply orb_true_iff in E3. rewrite !Z.leb_le in E3. split_and!; [naive_solver| |done]. intros _. split_and!; [done|done|]. right. split; [tauto|done].
  - apply orb_false_iff in E3. rewrite !Z.leb_gt in E3. split_and!; [|done|done]. split; [done|]. intros [_ [?|?]]; [tauto|lia].
Qed.

Definition demo_sampling : SamplingParams := mkSampling (Some 4) 0 false (Some [7]) None None None.
Definition demo_request : Request :=
  set_tokens [5; 7] [1; 2; 5; 7]
    (mkRequest "r0" 0 0 (Some demo_sampling) None (Some 9) None false 0 RUNNING [] None None 4 (Some [1; 2])
       None 2 [] [] 0 [] 2 None [] (-1) 0 0 0 [] false).

Lemma check_stop_exact_witness :
  ∃ b r', check_stop demo_request 100 false = Ok (b, r') ∧
    let by_token := (sp_ignore_eos demo_sampling = false ∧ Some 7 = eos_token_id demo_request) ∨ 7 ∈ default [] (sp_stop_token_ids demo_sampling) in
    let by_length := 100 ≤ num_tokens demo_request ∨ max_tokens demo_request ≤ num_output_tokens demo_request in
    (b = true ↔ sp_min_tokens demo_sampling ≤ num_output_tokens demo_request ∧ (by_token ∨ by_length)) ∧
    (b = true → is_finished r' = true ∧ all_token_ids r' = all_token_ids demo_request ∧
       ((by_token ∧ get_finished_reason r' = Some STOP) ∨ (¬ by_token ∧ get_finished_reason r' = Some LENGTH))) ∧
    (b = false → r' = demo_request).
Proof. apply (check_stop_exact demo_request demo_sampling 7 100 false); reflexivity. Defined.

(** On a list without duplicates (the scheduler's running list), [remove_all]
    removes exactly the requested items and keeps the order of the others, on the
    in-place single-item path as well as on the general path. *)
Lemma remove_all_filters {A} `{Countable A} (lst : list A) (items : gset A) :
  NoDup lst → remove_all lst items = filter (λ x, x ∉ items) lst.
Proof.
  intros Hnd. unfold remove_all. destruct (elements items) as [|item [|]] eqn:E; [| |done].
  - apply elements_empty_inv in E. symmetry. apply filter_id. set_solver.
  - rewrite remove_first_NoDup by done. apply list_filter_iff. intros x.
    rewrite <-(elem_of_elements items), E. set_solver.
Qed.

Lemma remove_all_filters_witness : remove_all ["a"; "b"; "c"]%string {["b"%string]} =
  filter (λ x, x ∉ ({["b"%string]} : gset string)) ["a"; "b"; "c"]%string.
Proof. apply remove_all_filters. apply (bool_decide_unpack _). vm_compute. exact I. Defined.

(** The single-item path removes only the first occurrence, although the function
    is documented to remove all of them. *)
Lemma remove_all_duplicate :
  remove_all ["a"; "b"; "a"]%string {["a"%string]} = ["b"; "a"]%string ∧
  filter (λ x, x ∉ ({["a"%string]} : gset string)) ["a"; "b"; "a"]%string = ["b"]%string.
Proof. split; reflexivity. Qed.
