(* ===== verification/BlockHash.v ===== *)
(** * vllm/v1/core/kv_cache_utils.py: prefix-cache block hashes

    The extra keys of a block, the hash chain over the full blocks of a request and
    the incremental hasher that a request calls when tokens are appended.  The
    hash function (SHA-256 over a serialisation, vllm/utils/hashing.py) is a
    parameter. *)

From stdpp Require Import base tactics option list gmap strings.
From Stdlib Require Import ZArith Lia.
From S2P Require Import Prelude KVCacheUtils Request.
Local Open Scope Z_scope.

(** ** Extra keys *)

(** An element of the [extra_keys] tuple: a string (LoRA name, multimodal
    identifier, cache salt) or the bytes of prompt embeddings. *)
Inductive extra_key := KStr (s : string) | KBytes (b : bytes).

Definition need_extra_keys (r : Request) : bool :=
  negb (bool_decide (mm_features r = [])) || bool_decide (is_Some (lora_request r))
  || bool_decide (is_Some (cache_salt r)).

(** The [while] loop of [_gen_mm_extra_hash_keys], over the features from
    [curr_mm_idx] on. *)
Fixpoint mm_loop (fs : list MultiModalFeatureSpec) (start_token_idx end_token_idx curr_mm_idx : Z)
    : list extra_key * Z :=
  match fs with
  | [] => ([], curr_mm_idx)
  | f :: fs' =>
      if mm_offset f <? end_token_idx then
        if mm_offset f + mm_length f <? start_token_idx
        then mm_loop fs' start_token_idx end_token_idx (curr_mm_idx + 1)
        else if mm_offset f + mm_length f <=? end_token_idx
        then let '(ks, c) := mm_loop fs' start_token_idx end_token_idx (curr_mm_idx + 1) in
             (KStr (identifier f) :: ks, c)
        else ([KStr (identifier f)], curr_mm_idx)
      else ([], curr_mm_idx)
  end.

Definition _gen_mm_extra_hash_keys (r : Request) (start_token_idx end_token_idx start_mm_idx : Z)
    : result (list extra_key * Z) :=
  match last (mm_features r) with
  | None => Ok ([], start_mm_idx)
  | Some last_pos =>
      if mm_offset last_pos + mm_length last_pos <? start_token_idx then Ok ([], start_mm_idx) else
      let n := Z.of_nat (length (mm_features r)) in
      if start_mm_idx <? 0 then
        if - start_mm_idx <=? n
        then Ok (mm_loop (drop (Z.to_nat (n + start_mm_idx)) (mm_features r)) start_token_idx end_token_idx
                   (n + start_mm_idx))
        else Raise AssertionError
      else Ok (mm_loop (drop (Z.to_nat start_mm_idx) (mm_features r)) start_token_idx end_token_idx start_mm_idx)
  end.

Definition _gen_lora_extra_hash_keys (r : Request) : list extra_key :=
  match lora_request r with None => [] | Some l => [KStr (lora_name l)] end.

(** [l[i:j]] for non-negative bounds *)
Definition slice {A} (l : list A) (i j : Z) : list A := take (Z.to_nat j - Z.to_nat i) (drop (Z.to_nat i) l).

Definition _gen_prompt_embeds_extra_hash_keys (r : Request) (start_token_idx end_token_idx : Z) : list extra_key :=
  match prompt_embeds r with
  | None => []
  | Some rows => [KBytes (concat (slice rows start_token_idx end_token_idx))]
  end.

(** [[request.cache_salt] if (start_token_idx == 0 and request.cache_salt) else []] *)
Definition cache_salt_keys (r : Request) (start_token_idx : Z) : list extra_key :=
  match cache_salt r with
  | Some s => if bool_decide (start_token_idx = 0) && negb (bool_decide (s = ""%string)) then [KStr s] else []
  | None => []
  end.

Definition generate_block_hash_extra_keys (r : Request) (start_token_idx end_token_idx start_mm_idx : Z)
    : result (option (list extra_key) * Z) :=
  match _gen_mm_extra_hash_keys r start_token_idx end_token_idx start_mm_idx with
  | Raise e => Raise e
  | Ok (mm_extra_keys, new_start_mm_idx) =>
      let extra_keys := _gen_lora_extra_hash_keys r ++ mm_extra_keys ++ cache_salt_keys r start_token_idx
                        ++ _gen_prompt_embeds_extra_hash_keys r start_token_idx end_token_idx in
      Ok (match extra_keys with [] => None | _ => Some extra_keys end, new_start_mm_idx)
  end.

(** ** Hashing *)

(** The values the hash function is applied to: the seed string, or the triple of
    a block. *)
Inductive hashable :=
  | HSeed (s : string)
  | HBlock (parent : bytes) (tokens : list Z) (extra : option (list extra_key)).

Section hashing.
Context (hash_function : hashable → bytes).

(** [init_none_hash]: [hash_seed] is PYTHONHASHSEED, [random] is [os.urandom(32)]. *)
Definition init_none_hash (hash_seed : option string) (random : bytes) : bytes :=
  match hash_seed with None => random | Some s => hash_function (HSeed s) end.

Context (NONE_HASH : bytes).

Definition hash_block_tokens (parent_block_hash : option bytes) (curr_block_token_ids : list Z)
    (extra_keys : option (list extra_key)) : bytes :=
  let parent := match parent_block_hash with None | Some [] => NONE_HASH | Some h => h end in
  hash_function (HBlock parent curr_block_token_ids extra_keys).

Context (block_size : Z).

(** The [while True] loop; it is left when the next block is not full. *)
Fixpoint hash_loop (fuel : nat) (r : Request) (start_token_idx curr_mm_idx : Z) (prev : option bytes)
    : result (list bytes) :=
  match fuel with
  | O => Raise OutOfFuel
  | S fuel' =>
      let end_token_idx := start_token_idx + block_size in
      if num_tokens r <? end_token_idx then Ok [] else
      match generate_block_hash_extra_keys r start_token_idx end_token_idx curr_mm_idx with
      | Raise e => Raise e
      | Ok (extra_keys, curr') =>
          let block_hash := hash_block_tokens prev (slice (all_token_ids r) start_token_idx end_token_idx) extra_keys in
          match hash_loop fuel' r end_token_idx curr' (Some block_hash) with
          | Ok hs => Ok (block_hash :: hs)
          | Raise e => Raise e
          end
      end
  end.

Definition request_block_hasher (r : Request) : result (list bytes) :=
  let start_token_idx := Z.of_nat (length (block_hashes r)) * block_size in
  if num_tokens r <? start_token_idx + block_size then Ok [] else
  let curr_mm_idx := if 0 <? start_token_idx then -1 else 0 in
  hash_loop (S (length (all_token_ids r))) r start_token_idx curr_mm_idx (last (block_hashes r)).

(** ** The reference: the hash chain over all full blocks *)

Definition blk_tokens (r : Request) (k : nat) : list Z :=
  slice (all_token_ids r) (Z.of_nat k * block_size) (Z.of_nat k * block_size + block_size).
Definition blk_extra (r : Request) (k : nat) : option (list extra_key) :=
  let s := Z.of_nat k * block_size in
  match _gen_lora_extra_hash_keys r ++ cache_salt_keys r s
        ++ _gen_prompt_embeds_extra_hash_keys r s (s + block_size) with
  | [] => None
  | ks => Some ks
  end.
Fixpoint chain_from (r : Request) (prev : option bytes) (k n : nat) : list bytes :=
  match n with
  | O => []
  | S n' => let h := hash_block_tokens prev (blk_tokens r k) (blk_extra r k) in
            h :: chain_from r (Some h) (S k) n'
  end.
Definition num_full (r : Request) : nat := Z.to_nat (num_tokens r / block_size).
(** The chain of a request without multimodal inputs. *)
Definition hash_chain (r : Request) : list bytes := chain_from r None 0 (num_full r).
End hashing.

Section hash_lemmas.
Context (H : hashable → bytes) (NONE : bytes) (bs : Z).
Context (Hbs : 0 < bs).

Abbreviation hloop := (hash_loop H NONE bs).
Abbreviation hchain := (chain_from H NONE bs).

Lemma generate_no_mm r k m : mm_features r = [] →
  generate_block_hash_extra_keys r (Z.of_nat k * bs) (Z.of_nat k * bs + bs) m = Ok (blk_extra bs r k, m).
Proof. intros E. unfold generate_block_hash_extra_keys, _gen_mm_extra_hash_keys, blk_extra. rewrite E. simpl. by destruct (_ ++ _). Qed.

Lemma hash_loop_ref r : mm_features r = [] → ∀ n k prev m fuel st,
  st = Z.of_nat k * bs → (k + n = num_full bs r)%nat → (n < fuel)%nat →
  hloop fuel r st m prev = Ok (hchain r prev k n).
Proof.
  intros Hmm n. assert (0 ≤ num_tokens r / bs) as Hdiv by (apply Z.div_pos; unfold num_tokens; lia).
  pose proof (Z.mul_div_le (num_tokens r) bs Hbs) as Hle. pose proof (Z.mul_succ_div_gt (num_tokens r) bs Hbs) as Hgt.
  induction n as [|n IH]; intros k prev m [|fuel] st -> Hk Hf; try lia; simpl; unfold num_full in Hk.
  - rewrite (proj2 (Z.ltb_lt _ _)); [done|]. nia.
  - rewrite (proj2 (Z.ltb_ge _ _)) by nia. rewrite generate_no_mm by done.
    by rewrite (IH (S k)) by (unfold num_full; lia).
Qed.

Lemma length_chain_from r n : ∀ prev k, length (hchain r prev k n) = n.
Proof. induction n; intros; simpl; auto. Qed.

Definition next_prev (prev : option bytes) (hs : list bytes) : option bytes :=
  match last hs with Some h => Some h | None => prev end.

Lemma chain_from_app r m : ∀ n prev k,
  hchain r prev k (n + m) = hchain r prev k n ++ hchain r (next_prev prev (hchain r prev k n)) (k + n) m.
Proof.
  induction n as [|n IH]; intros prev k; simpl; [by rewrite Nat.add_0_r|].
  f_equal. rewrite IH. f_equal. replace (S k + n)%nat with (k + S n)%nat by lia. f_equal.
  unfold next_prev. rewrite last_cons. by destruct (last _).
Qed.

Lemma chain_from_ext r r' n : ∀ prev k,
  (∀ j, (k ≤ j < k + n)%nat → blk_tokens bs r j = blk_tokens bs r' j ∧ blk_extra bs r j = blk_extra bs r' j) →
  hchain r prev k n = hchain r' prev k n.
Proof.
  induction n as [|n IH]; intros prev k Hj; simpl; [done|].
  destruct (Hj k) as [-> ->]; [lia|]. f_equal. apply IH. intros j ?. apply Hj. lia.
Qed.

Lemma slice_app_l {A} (l l' : list A) i j : 0 ≤ i → j ≤ Z.of_nat (length l) → slice (l ++ l') i j = slice l i j.
Proof.
  intros Hi Hj. unfold slice. destruct (decide (i ≤ Z.of_nat (length l))).
  - rewrite drop_app_le by lia. apply take_app_le. rewrite length_drop. lia.
  - by replace (Z.to_nat j - Z.to_nat i)%nat with 0%nat by lia.
Qed.

(** A request has been hashed up to date. *)
Definition hashed (r : Request) : Prop := block_hashes r = hash_chain H NONE bs r.

Lemma num_full_mono r r' : num_tokens r ≤ num_tokens r' → (num_full bs r ≤ num_full bs r')%nat.
Proof. intros. unfold num_full. apply Z2Nat.inj_le; try (apply Z.div_pos; unfold num_tokens in *; lia). by apply Z.div_le_mono. Qed.

Lemma num_full_bound r j : (j < num_full bs r)%nat → Z.of_nat j * bs + bs ≤ num_tokens r.
Proof.
  intros Hj. unfold num_full in Hj. pose proof (Z.mul_div_le (num_tokens r) bs Hbs). nia.
Qed.

(** The hasher returns what is missing from the chain. *)
Lemma hasher_completes r n : mm_features r = [] →
  block_hashes r = hchain r None 0 n → (n ≤ num_full bs r)%nat →
  request_block_hasher H NONE bs r =
    Ok (hchain r (next_prev None (hchain r None 0 n)) n (num_full bs r - n)).
Proof.
  intros Hmm Hh Hn. unfold request_block_hasher. rewrite Hh, length_chain_from.
  destruct (Z.ltb_spec (num_tokens r) (Z.of_nat n * bs + bs)) as [Hlt|Hge].
  - destruct (decide (n = num_full bs r)) as [->|]; [by rewrite Nat.sub_diag|].
    pose proof (num_full_bound r n). lia.
  - replace (last (hchain r None 0 n)) with (next_prev None (hchain r None 0 n))
      by (unfold next_prev; by destruct (last _)).
    apply hash_loop_ref; [done|done|lia|]. unfold num_full, num_tokens.
    assert (Z.of_nat (length (all_token_ids r)) / bs ≤ Z.of_nat (length (all_token_ids r)))
      by (apply Z.div_le_upper_bound; nia). lia.
Qed.

Lemma append_hashed r ts : mm_features r = [] → hashed r →
  ∃ r', append_output_token_ids (Some (request_block_hasher H NONE bs)) (inr ts) r = Ok r' ∧ hashed r' ∧
    all_token_ids r' = all_token_ids r ++ ts ∧ output_token_ids r' = output_token_ids r ++ ts.
Proof.
  intros Hmm Hh. unfold append_output_token_ids.
  set (r1 := set_tokens (output_token_ids r ++ ts) (all_token_ids r ++ ts) r).
  assert (num_tokens r ≤ num_tokens r1) as Hn by (unfold num_tokens, r1; simpl; rewrite length_app; lia).
  pose proof (num_full_mono _ _ Hn) as Hnf.
  assert (block_hashes r1 = hchain r1 None 0 (num_full bs r)) as Hh1.
  { change (block_hashes r1) with (block_hashes r). rewrite Hh. apply chain_from_ext. intros j Hj.
    pose proof (num_full_bound r j ltac:(lia)). split; [|done]. unfold blk_tokens, r1. simpl.
    symmetry. apply slice_app_l; [lia|done]. }
  rewrite (hasher_completes r1 (num_full bs r)) by done.
  set (X := block_hashes r1 ++ _). eexists. split; [done|]. split; [|done]. unfold hashed.
  assert (hash_chain H NONE bs (set_block_hashes X r1) = hchain r1 None 0 (num_full bs r1)) as ->
    by (by apply chain_from_ext).
  change (block_hashes (set_block_hashes X r1)) with X. unfold X. rewrite Hh1.
  replace (num_full bs r1) with (num_full bs r + (num_full bs r1 - num_full bs r))%nat at 2 by lia.
  by rewrite chain_from_app.
Qed.
End hash_lemmas.

(** ** Soundness of the hash as a prefix identifier

    The hash function is collision free on block inputs and never returns the empty
    string, and the root value is not the hash of a block: what SHA-256 (32-byte
    digests) and a random or seeded [NONE_HASH] provide. *)
Class GoodHash (H : hashable → bytes) (NONE : bytes) : Prop := {
  hash_inj p1 t1 e1 p2 t2 e2 : H (HBlock p1 t1 e1) = H (HBlock p2 t2 e2) → p1 = p2 ∧ t1 = t2 ∧ e1 = e2;
  hash_nonempty x : H x ≠ [];
  hash_not_root p t e : H (HBlock p t e) ≠ NONE;
}.

Section hash_sound.
Context (H : hashable → bytes) (NONE : bytes) `{!GoodHash H NONE} (bs : Z).
Abbreviation hchain := (chain_from H NONE bs).

Lemma chain_lookup_0 r prev k n h : hchain r prev k n !! 0%nat = Some h →
  h = hash_block_tokens H NONE prev (blk_tokens bs r k) (blk_extra bs r k).
Proof. destruct n; simpl; congruence. Qed.

Lemma chain_lookup_S r i : ∀ n prev k h', hchain r prev k n !! S i = Some h' →
  ∃ h, hchain r prev k n !! i = Some h ∧
    h' = hash_block_tokens H NONE (Some h) (blk_tokens bs r (k + S i)) (blk_extra bs r (k + S i)).
Proof.
  induction i as [|i IH]; intros [|n] prev k h' Hh; simpl in Hh; try done.
  - eexists. split; [done|]. apply chain_lookup_0 in Hh. by rewrite Nat.add_1_r.
  - destruct (IH _ _ _ _ Hh) as (h & E & ->). exists h. split; [done|].
    by replace (k + S (S i))%nat with (S k + S i)%nat by lia.
Qed.

Lemma chain_lookup_hash r prev k n i h : hchain r prev k n !! i = Some h →
  ∃ p t e, h = H (HBlock p t e).
Proof.
  destruct i as [|i].
  - intros ->%chain_lookup_0. unfold hash_block_tokens. by do 3 eexists.
  - intros (? & _ & ->)%chain_lookup_S. unfold hash_block_tokens. by do 3 eexists.
Qed.

(** Equal hashes sit at the same position and cover the same blocks. *)
Lemma chain_sound r1 r2 n1 n2 : ∀ i j h,
  hchain r1 None 0 n1 !! i = Some h → hchain r2 None 0 n2 !! j = Some h →
  i = j ∧ ∀ k, (k ≤ i)%nat → blk_tokens bs r1 k = blk_tokens bs r2 k ∧ blk_extra bs r1 k = blk_extra bs r2 k.
Proof.
  assert (∀ h p t e, h = H (HBlock p t e) → match h with [] => NONE | _ => h end = h ∧ h ≠ NONE) as Hnorm.
  { intros h p t e ->. split; [|apply hash_not_root].
    pose proof (hash_nonempty (HBlock p t e)). by destruct (H _). }
  induction i as [|i IH]; intros [|j] h H1 H2.
  - apply chain_lookup_0 in H1, H2. subst. apply hash_inj in H2 as (_ & E1 & E2).
    split; [done|]. intros k Hk. by replace k with 0%nat by lia.
  - apply chain_lookup_0 in H1. apply chain_lookup_S in H2 as (h2 & L2 & E2). rewrite H1 in E2.
    apply hash_inj in E2 as (E2 & _). destruct (chain_lookup_hash _ _ _ _ _ _ L2) as (?&?&?&?%Hnorm).
    destruct h2; naive_solver.
  - apply chain_lookup_0 in H2. apply chain_lookup_S in H1 as (h1 & L1 & E1). rewrite H2 in E1.
    apply hash_inj in E1 as (E1 & _). destruct (chain_lookup_hash _ _ _ _ _ _ L1) as (?&?&?&?%Hnorm).
    destruct h1; naive_solver.
  - apply chain_lookup_S in H1 as (h1 & L1 & E1), H2 as (h2 & L2 & E2). rewrite E1 in E2.
    apply hash_inj in E2 as (Ep & Et & Ee).
    destruct (chain_lookup_hash _ _ _ _ _ _ L1) as (?&?&?&[N1 _]%Hnorm).
    destruct (chain_lookup_hash _ _ _ _ _ _ L2) as (?&?&?&[N2 _]%Hnorm).
    assert (h1 = h2) as -> by (destruct h1, h2; congruence).
    destruct (IH j h2 L1 L2) as [-> Hk]. split; [done|]. intros k Hkj.
    destruct (decide (k = S j)) as [->|]; [done|]. apply Hk. lia.
Qed.

Lemma chain_NoDup r n : NoDup (hchain r None 0 n).
Proof.
  apply NoDup_alt. intros i j h H1 H2. by destruct (chain_sound r r n n i j h H1 H2).
Qed.

Lemma take_blocks {A} (l1 l2 : list A) n : 0 < bs →
  (∀ k, (k < n)%nat → slice l1 (Z.of_nat k * bs) (Z.of_nat k * bs + bs) = slice l2 (Z.of_nat k * bs) (Z.of_nat k * bs + bs)) →
  take (n * Z.to_nat bs) l1 = take (n * Z.to_nat bs) l2.
Proof.
  intros Hbs. induction n as [|n IH]; intros Hk; [done|].
  assert (∀ l : list A, take (S n * Z.to_nat bs) l = take (n * Z.to_nat bs) l ++ slice l (Z.of_nat n * bs) (Z.of_nat n * bs + bs)) as E.
  { intros l. unfold slice. replace (S n * Z.to_nat bs)%nat with (n * Z.to_nat bs + Z.to_nat bs)%nat by lia.
    rewrite <-take_take_drop. f_equal; f_equal; [lia|]. f_equal. lia. }
  rewrite !E, IH, Hk by (intros; apply Hk || idtac; lia). done.
Qed.
End hash_sound.

(** ** Properties *)

(** A sequence of [append_output_token_ids] calls. *)
Fixpoint append_many (hasher : option (Request → result (list bytes))) (tss : list (list Z)) (r : Request) : result Request :=
  match tss with
  | [] => Ok r
  | ts :: tss' =>
      match append_output_token_ids hasher (inr ts) r with
      | Ok r' => append_many hasher tss' r'
      | Raise e => Raise e
      end
  end.

Lemma append_preserves_mm h ts r r' : append_output_token_ids h ts r = Ok r' → mm_features r' = mm_features r.
Proof. unfold append_output_token_ids. destruct h as [h|]; [destruct (h _)|]; naive_solver. Qed.

Lemma append_many_hashed H NONE bs tss : 0 < bs → ∀ r, mm_features r = [] → hashed H NONE bs r →
  ∃ r', append_many (Some (request_block_hasher H NONE bs)) tss r = Ok r' ∧ hashed H NONE bs r' ∧
    all_token_ids r' = all_token_ids r ++ concat tss.
Proof.
  intros Hbs. induction tss as [|ts tss IH]; intros r Hmm Hh; cbn [append_many concat].
  { exists r. by rewrite app_nil_r. }
  destruct (append_hashed H NONE bs Hbs r ts Hmm Hh) as (r1 & E & Hh1 & Ht & _). rewrite E.
  destruct (IH r1) as (r' & E' & Hh' & Ht'); [by rewrite (append_preserves_mm _ _ _ _ E)|done|].
  exists r'. split_and!; [done..|]. by rewrite Ht', Ht, app_assoc.
Qed.

(** A request without multimodal inputs as the engine makes it: constructed with the block
    hasher, then extended by tokens *)
Inductive text_request (hasher : Request → result (list bytes)) : Request → Prop :=
  | text_new id ids sp pp eos client arrival now emb lora salt prio r :
      new_request (Some hasher) id ids sp pp eos client arrival now emb None lora salt prio = Ok r → text_request hasher r
  | text_append ts r r' : text_request hasher r → append_output_token_ids (Some hasher) ts r = Ok r' → text_request hasher r'.

Lemma new_request_hashed H NONE bs id ids sp pp eos client arrival now emb lora salt prio r : 0 < bs →
  new_request (Some (request_block_hasher H NONE bs)) id ids sp pp eos client arrival now emb None lora salt prio = Ok r →
  mm_features r = [] ∧ hashed H NONE bs r.
Proof.
  intros Hbs Hnew. unfold new_request in Hnew.
  destruct (init_kind sp pp) as [[[mt st] kvp]|]; [|done].
  destruct (length_from_prompt_token_ids_or_embeds ids emb) as [n|]; [|done]. unfold init_block_hashes in Hnew.
  set (r0 := mkRequest _ _ _ _ _ _ _ _ _ _ _ _ _ _ _ _ _ _ _ _ _ _ _ _ _ _ _ _ _ _) in Hnew.
  rewrite (hasher_completes H NONE bs Hbs r0 0) in Hnew by (done || lia). injection Hnew as <-.
  rewrite Nat.sub_0_r. split; [done|]. unfold hashed, hash_chain. simpl. by apply chain_from_ext.
Qed.

Lemma text_request_hashed H NONE bs r : 0 < bs → text_request (request_block_hasher H NONE bs) r → mm_features r = [] ∧ hashed H NONE bs r.
Proof.
  intros Hbs. induction 1 as [|ts r r' _ [Hmm Hh] E]; [by eapply new_request_hashed|]. split; [by rewrite (append_preserves_mm _ _ _ _ E)|].
  destruct (append_hashed H NONE bs Hbs r (match ts with inl t => [t] | inr l => l end) Hmm Hh) as (r1 & E1 & Hh1 & _).
  destruct ts; assert (r' = r1) as -> by (unfold append_output_token_ids in E, E1; congruence); done.
Qed.

Lemma hashed_length H NONE bs r : 0 < bs → hashed H NONE bs r → Z.of_nat (length (block_hashes r)) = num_tokens r / bs.
Proof.
  intros Hbs ->. unfold hash_chain. rewrite length_chain_from. unfold num_full. rewrite Z2Nat.id; [done|]. apply Z.div_pos; unfold num_tokens; lia.
Qed.

(** Incremental hashing equals hashing from scratch.  A request without
    multimodal inputs, built with the block hasher and extended by any sequence of
    token appends, always carries exactly the hash chain of all its full blocks:
    [num_tokens // block_size] hashes, each the hash of its parent, its tokens and
    its extra keys. *)
Theorem incremental_hashing_correct H NONE bs id ids sp pp eos client arrival now emb lora salt prio r tss :
  0 < bs →
  new_request (Some (request_block_hasher H NONE bs)) id ids sp pp eos client arrival now emb None lora salt prio = Ok r →
  ∃ r', append_many (Some (request_block_hasher H NONE bs)) tss r = Ok r' ∧
    all_token_ids r' = all_token_ids r ++ concat tss ∧
    block_hashes r' = hash_chain H NONE bs r' ∧
    Z.of_nat (length (block_hashes r')) = num_tokens r' / bs.
Proof.
  intros Hbs [Hmm Hh]%new_request_hashed; [|done]. destruct (append_many_hashed H NONE bs tss Hbs r Hmm Hh) as (r' & E & Hh' & Ht).
  exists r'. split_and!; [done..|]. by apply (hashed_length H NONE).
Qed.

(** A concrete hash: an injective encoding into bytes behind a leading 1. *)
#[export] Instance extra_key_eq_dec : EqDecision extra_key.
Proof. solve_decision. Defined.
#[export] Instance extra_key_countable : Countable extra_key.
Proof.
  refine (inj_countable' (λ k, match k with KStr s => inl s | KBytes b => inr b end)
            (λ k, match k with inl s => KStr s | inr b => KBytes b end) _). by intros [].
Defined.
Fixpoint pos_bytes (p : positive) : bytes :=
  match p with xH => [] | xO p => Byte.x00 :: pos_bytes p | xI p => Byte.x01 :: pos_bytes p end.
Definition demo_hash (x : hashable) : bytes :=
  match x with
  | HSeed s => Byte.x02 :: pos_bytes (encode s)
  | HBlock p t e => Byte.x01 :: pos_bytes (encode (p, t, e))
  end.

Lemma pos_bytes_inj p q : pos_bytes p = pos_bytes q → p = q.
Proof. revert q; induction p; intros []; simpl; intros; simplify_eq; f_equal; auto. Qed.

#[export] Instance demo_hash_good : GoodHash demo_hash [Byte.x03].
Proof.
  split; [|by intros []|done]. intros p1 t1 e1 p2 t2 e2 E. injection E as E%pos_bytes_inj.
  apply (inj encode) in E. by injection E.
Qed.

Definition demo_new (ids : list Z) : result Request :=
  new_request (Some (request_block_hasher demo_hash [Byte.x03] 2)) "r" (Some ids)
    (Some demo_sampling) None None 0 (Some 0) 0 None None None None 0.

Lemma incremental_hashing_correct_witness : ∃ r,
  demo_new [1; 2; 3] = Ok r ∧
  ∃ r', append_many (Some (request_block_hasher demo_hash [Byte.x03] 2)) [[4]; [5; 6]] r = Ok r' ∧
    all_token_ids r' = all_token_ids r ++ concat [[4]; [5; 6]] ∧
    block_hashes r' = hash_chain demo_hash [Byte.x03] 2 r' ∧
    Z.of_nat (length (block_hashes r')) = num_tokens r' / 2.
Proof.
  unfold demo_new.
  destruct (new_request (Some (request_block_hasher demo_hash [Byte.x03] 2)) "r" (Some [1; 2; 3])
    (Some demo_sampling) None None 0 (Some 0) 0 None None None None 0) as [r|] eqn:E.
  - exists r. split; [reflexivity|].
    exact (incremental_hashing_correct demo_hash [Byte.x03] 2 _ _ _ _ _ _ _ _ _ _ _ _ r [[4]; [5; 6]] ltac:(lia) E).
  - exfalso. vm_compute in E. discriminate E.
Defined.

(** C18. A block hash identifies the whole prefix.  Requests without multimodal inputs,
    constructed with the block hasher and extended by tokens, have one hash for every full
    block of their tokens; and with a collision-free hash function, if two of them have a
    common block hash, then it is at the same block position in both, both requests
    have the same tokens up to the end of that block, and the same extra keys in every
    block up to it: a prefix-cache hit never serves another prefix. *)
Theorem block_hash_identifies_prefix H NONE bs (r1 r2 : Request) (i j : nat) (h : bytes) :
  GoodHash H NONE → 0 < bs →
  text_request (request_block_hasher H NONE bs) r1 → text_request (request_block_hasher H NONE bs) r2 →
  Z.of_nat (length (block_hashes r1)) = num_tokens r1 / bs ∧
  (block_hashes r1 !! i = Some h → block_hashes r2 !! j = Some h →
   i = j ∧
   take (S i * Z.to_nat bs) (all_token_ids r1) = take (S i * Z.to_nat bs) (all_token_ids r2) ∧
   ∀ k, (k ≤ i)%nat → blk_extra bs r1 k = blk_extra bs r2 k).
Proof.
  intros HG Hbs [_ E1]%text_request_hashed [_ E2]%text_request_hashed; [|done|done]. split; [by apply (hashed_length H NONE)|].
  intros L1 L2. rewrite E1 in L1. rewrite E2 in L2.
  destruct (chain_sound H NONE bs r1 r2 _ _ i j h L1 L2) as [-> Hk]. split_and!; [done| |by intros k ?; apply Hk].
  apply take_blocks; [done|]. intros k ?. apply (Hk k). lia.
Qed.

(** The second request gets the last token of its second block after its construction. *)
Lemma block_hash_identifies_prefix_witness : ∃ r1 r2 r3 h,
  demo_new [1; 2; 3; 4; 5] = Ok r1 ∧ demo_new [1; 2; 3] = Ok r2 ∧
  append_output_token_ids (Some (request_block_hasher demo_hash [Byte.x03] 2)) (inl 4) r2 = Ok r3 ∧
  block_hashes r1 !! 1%nat = Some h ∧ block_hashes r3 !! 1%nat = Some h ∧
  (1%nat = 1%nat ∧ take (2 * Z.to_nat 2) (all_token_ids r1) = take (2 * Z.to_nat 2) (all_token_ids r3) ∧
   ∀ k, (k ≤ 1)%nat → blk_extra 2 r1 k = blk_extra 2 r3 k).
Proof.
  destruct (demo_new [1; 2; 3; 4; 5]) as [r1|] eqn:E1; [|exfalso; vm_compute in E1; discriminate E1].
  destruct (demo_new [1; 2; 3]) as [r2|] eqn:E2; [|exfalso; vm_compute in E2; discriminate E2].
  pose proof (text_new _ _ _ _ _ _ _ _ _ _ _ _ _ _ E1) as H1. pose proof (text_new _ _ _ _ _ _ _ _ _ _ _ _ _ _ E2) as H2.
  destruct (append_output_token_ids (Some (request_block_hasher demo_hash [Byte.x03] 2)) (inl 4) r2) as [r3|] eqn:E3;
    [|exfalso; vm_compute in E2; injection E2 as <-; vm_compute in E3; discriminate E3].
  pose proof (text_append _ _ _ _ H2 E3) as H3.
  vm_compute in E1, E2. injection E1 as <-. injection E2 as <-. vm_compute in E3. injection E3 as <-.
  do 3 eexists. eexists. split; [vm_compute; reflexivity|]. split; [vm_compute; reflexivity|]. split; [vm_compute; reflexivity|].
  split; [reflexivity|]. split; [reflexivity|].
  eapply (block_hash_identifies_prefix demo_hash [Byte.x03] 2);
    [apply demo_hash_good|lia|exact H1|exact H3|reflexivity|reflexivity].
Defined.

(** Two images in one block *)
Definition mm_req (H : hashable → bytes) (NONE : bytes) (img : string) (prompt : list Z) : result Request :=
  new_request (Some (request_block_hasher H NONE 4)) "r" (Some prompt) (Some demo_sampling) None None 0 (Some 0) 0
    None (Some [mkMM img 4 1; mkMM "imgZ" 5 1]) None None 0.

(** The multimodal extra keys are incomplete for a block that generated tokens
    complete.  Two requests with the same tokens but different first images, both
    images in the last, partial prompt block: after the block is completed their hash
    lists are equal, whatever the hash function, although hashing the same tokens as one
    prompt distinguishes them. *)
Theorem mm_partial_block_collision (H : hashable → bytes) (NONE : bytes) :
  ∃ ra rb ra' rb', mm_req H NONE "imgA" [1; 2; 3; 4; 7; 7] = Ok ra ∧ mm_req H NONE "imgB" [1; 2; 3; 4; 7; 7] = Ok rb ∧
    append_output_token_ids (Some (request_block_hasher H NONE 4)) (inr [8; 9]) ra = Ok ra' ∧
    append_output_token_ids (Some (request_block_hasher H NONE 4)) (inr [8; 9]) rb = Ok rb' ∧
    mm_features ra' ≠ mm_features rb' ∧ length (block_hashes ra') = 2%nat ∧
    block_hashes ra' = block_hashes rb' ∧
    (GoodHash H NONE → ∀ rc rd, mm_req H NONE "imgA" [1; 2; 3; 4; 7; 7; 8; 9] = Ok rc →
       mm_req H NONE "imgB" [1; 2; 3; 4; 7; 7; 8; 9] = Ok rd → block_hashes rc ≠ block_hashes rd).
Proof.
  do 4 eexists. split; [reflexivity|]. split; [reflexivity|]. split; [reflexivity|]. split; [reflexivity|].
  split; [done|]. split; [reflexivity|]. split; [reflexivity|].
  intros HG rc rd Ec Ed E. vm_compute in Ec, Ed. injection Ec as <-. injection Ed as <-. simpl in E.
  injection E as E. apply hash_inj in E as (_ & _ & E). discriminate E.
Qed.

(** The extra keys are untagged: a LoRA adapter named [x] and a cache salt [x]
    produce the same key tuple for the first block, so the first block of a request for
    the adapter and of a base-model request carrying that salt have the same hash for every
    hash function. *)
Theorem lora_salt_collision (H : hashable → bytes) (NONE : bytes) (x : string) (prompt : list Z) (r1 r2 : Request) :
  x ≠ ""%string → length prompt = 4%nat →
  new_request (Some (request_block_hasher H NONE 4)) "a" (Some prompt) (Some demo_sampling) None None 0 (Some 0) 0
    None None (Some (mkLoRA x 1)) None 0 = Ok r1 →
  new_request (Some (request_block_hasher H NONE 4)) "b" (Some prompt) (Some demo_sampling) None None 0 (Some 0) 0
    None None None (Some x) 0 = Ok r2 →
  length (block_hashes r1) = 1%nat ∧ block_hashes r1 = block_hashes r2.
Proof.
  intros Hx Hlen E1 E2. destruct prompt as [|a [|b [|c [|d [|]]]]]; try done.
  destruct x as [|ch x]; [done|]. vm_compute in E1, E2. injection E1 as <-. injection E2 as <-. done.
Qed.

Lemma lora_salt_collision_witness : ∃ r1 r2,
  new_request (Some (request_block_hasher demo_hash [Byte.x03] 4)) "a" (Some [1; 2; 3; 4]) (Some demo_sampling) None None 0 (Some 0) 0
    None None (Some (mkLoRA "x" 1)) None 0 = Ok r1 ∧
  new_request (Some (request_block_hasher demo_hash [Byte.x03] 4)) "b" (Some [1; 2; 3; 4]) (Some demo_sampling) None None 0 (Some 0) 0
    None None None (Some "x"%string) 0 = Ok r2 ∧
  (length (block_hashes r1) = 1%nat ∧ block_hashes r1 = block_hashes r2).
Proof.
  do 2 eexists. split; [vm_compute; reflexivity|]. split; [vm_compute; reflexivity|].
  eapply (lora_salt_collision demo_hash [Byte.x03] "x" [1; 2; 3; 4]); [done|reflexivity|vm_compute; reflexivity..].
Defined.
