(* ===== verification/BlockPool.v ===== *)
(** * vllm/v1/core/block_pool.py

    [BlockHashToBlockMap], the prefix-cache index, and [BlockPool], which owns the
    block objects, the free queue and the index.  The pool is verified against the
    interface [FreeQueueLaws] of the queue. *)

From stdpp Require Import base tactics option list gmap strings.
From Stdlib Require Import ZArith Lia QArith.
From S2P Require Import Prelude KVCacheUtils Request BlockHash.
Local Open Scope Z_scope.

(** ** BlockHashToBlockMap *)

(** [KVCacheBlock | dict[int, KVCacheBlock]] *)
Inductive cached_blocks := Single (b : bref) | Multi (d : list (Z * bref)).

Module BlockMap.
Section ops.
(** [block.block_id] *)
Context (bid : bref → Z).

Definition get_one_block (m : gmap bytes cached_blocks) (key : bytes) : result (option bref) :=
  match m !! key with
  | None => Ok None
  | Some (Single b) => Ok (Some b)
  | Some (Multi d) => match d with [] => Raise StopIteration | (_, b) :: _ => Ok (Some b) end
  end.

Definition insert (m : gmap bytes cached_blocks) (key : bytes) (block : bref) : gmap bytes cached_blocks :=
  match m !! key with
  | None => <[key := Single block]> m
  | Some (Single b) => <[key := Multi (OD.set (bid block) block (OD.set (bid b) b []))]> m
  | Some (Multi d) => <[key := Multi (OD.set (bid block) block d)]> m
  end.

Definition pop (m : gmap bytes cached_blocks) (key : bytes) (block_id : Z)
    : option bref * gmap bytes cached_blocks :=
  match m !! key with
  | None => (None, m)
  | Some (Single b) => if bool_decide (bid b = block_id) then (Some b, delete key m) else (None, m)
  | Some (Multi d) =>
      let d' := OD.del block_id d in
      (OD.get block_id d, if bool_decide (0 < length d')%nat then <[key := Multi d']> m else delete key m)
  end.

Definition len (m : gmap bytes cached_blocks) : nat := size m.
End ops.
End BlockMap.

(** ** BlockPool *)

Inductive KVCacheEvent :=
  | BlockStored (hashes : list ExternalBlockHash) (parent : option ExternalBlockHash) (token_ids : list Z)
      (block_size : Z) (lora_id : option Z)
  | BlockRemoved (hashes : list ExternalBlockHash)
  | AllBlocksCleared.

Record BlockPool := mkPool {
  num_gpu_blocks : nat;
  enable_caching : bool;
  store : Store;
  cached_block_hash_to_block : gmap bytes cached_blocks;
  null_block : bref;
  enable_kv_cache_events : bool;
  use_int_hashes : bool;  (** VLLM_KV_EVENTS_USE_INT_BLOCK_HASHES *)
  kv_event_queue : list KVCacheEvent;
}.

Definition set_store (s : Store) (p : BlockPool) : BlockPool :=
  mkPool (num_gpu_blocks p) (enable_caching p) s (cached_block_hash_to_block p) (null_block p)
    (enable_kv_cache_events p) (use_int_hashes p) (kv_event_queue p).
Definition set_cached (m : gmap bytes cached_blocks) (p : BlockPool) : BlockPool :=
  mkPool (num_gpu_blocks p) (enable_caching p) (store p) m (null_block p)
    (enable_kv_cache_events p) (use_int_hashes p) (kv_event_queue p).
Definition set_events (q : list KVCacheEvent) (p : BlockPool) : BlockPool :=
  mkPool (num_gpu_blocks p) (enable_caching p) (store p) (cached_block_hash_to_block p) (null_block p)
    (enable_kv_cache_events p) (use_int_hashes p) q.

Definition on_store {A} (c : M Store A) : M BlockPool A := zoom store set_store c.
Definition add_event (e : KVCacheEvent) : M BlockPool () :=
  modify (λ p, set_events (kv_event_queue p ++ [e]) p).
Definition bid_of (p : BlockPool) (b : bref) : Z := block_id (deref (store p) b).
Definition ref_of (p : BlockPool) (b : bref) : Z := ref_cnt (deref (store p) b).
Definition hash_of (p : BlockPool) (b : bref) : option bytes := block_hash (deref (store p) b).
Definition null_of (p : BlockPool) (b : bref) : bool := is_null (deref (store p) b).

(** [self.blocks]: the objects of the pool *)
Definition pool_blocks (n : nat) : list bref := Blk <$> seq 0 n.
Definition fresh_objs (n : nat) : gmap bref KVCacheBlock :=
  list_to_map ((λ i, (Blk i, new_block (Z.of_nat i))) <$> seq 0 n).

Definition BlockPool_init (n : nat) (caching events use_int : bool) : result BlockPool :=
  if bool_decide (n = 0%nat) then Raise AssertionError else
  match (FreeQueue.init (pool_blocks n) ;;
         nb ← FreeQueue.popleft;
         wr nb set_null ;; mret nb) (mkStore (fresh_objs n) 0) with
  | (Ok nb, s) => Ok (mkPool n caching s ∅ nb events use_int [])
  | (Raise e, _) => Raise e
  end.

Definition get_num_free_blocks : M BlockPool Z := gets (λ p, num_free_blocks (store p)).

Fixpoint get_cached_block (block_hash : bytes) (kv_cache_group_ids : list nat) : M BlockPool (option (list bref)) :=
  match kv_cache_group_ids with
  | [] => mret (Some [])
  | group_id :: rest =>
      key ← of_result (make_block_hash_with_group_id block_hash group_id);
      m ← gets cached_block_hash_to_block;
      block ← of_result (BlockMap.get_one_block m key);
      match block with
      | None => mret None
      | Some b => bs ← get_cached_block block_hash rest; mret (cons b <$> bs)
      end
  end.

(** The loop of [cache_full_blocks] over [enumerate(new_full_blocks)]. *)
Fixpoint cache_loop (group_id : nat) (blks : list bref) (hashes : list bytes) : M BlockPool (list ExternalBlockHash) :=
  match blks with
  | [] => mret []
  | blk :: blks' =>
      h ← gets (λ p, hash_of p blk);
      assert_ (bool_decide (h = None)) ;;
      match hashes with
      | [] => raise IndexError
      | block_hash :: hashes' =>
          key ← of_result (make_block_hash_with_group_id block_hash group_id);
          on_store (assign_block_hash blk key) ;;
          modify (λ p, set_cached (BlockMap.insert (bid_of p) (cached_block_hash_to_block p) key blk) p) ;;
          conv ← gets (λ p, maybe_convert_block_hash (use_int_hashes p) block_hash);
          rest ← cache_loop group_id blks' hashes';
          mret (conv :: rest)
      end
  end.

(** [parent_block_hash] of the [BlockStored] event *)
Definition parent_hash (blocks : list bref) (num_cached_blocks : Z) : M BlockPool (option ExternalBlockHash) :=
  if bool_decide (num_cached_blocks = 0) then mret None else
  parent_block ← index blocks (Z.to_nat (num_cached_blocks - 1));
  h ← gets (λ p, hash_of p parent_block);
  match h with
  | None => raise AssertionError
  | Some k => gets (λ p, Some (maybe_convert_block_hash (use_int_hashes p) (get_block_hash k)))
  end.

Definition cache_full_blocks (request : Request) (blocks : list bref)
    (num_cached_blocks num_full_blocks block_size : Z) (kv_cache_group_id : nat) : M BlockPool () :=
  if num_full_blocks <=? num_cached_blocks then mret () else
  let new_full_blocks := slice blocks num_cached_blocks num_full_blocks in
  assert_ (num_full_blocks <=? Z.of_nat (length (block_hashes request))) ;;
  let new_block_hashes := drop (Z.to_nat num_cached_blocks) (block_hashes request) in
  new_hashes ← cache_loop kv_cache_group_id new_full_blocks new_block_hashes;
  events ← gets enable_kv_cache_events;
  if (events : bool) then
    parent ← parent_hash blocks num_cached_blocks;
    add_event (BlockStored new_hashes parent
      (slice (all_token_ids request) (num_cached_blocks * block_size) (num_full_blocks * block_size))
      block_size (adapter_id <$> lora_request request))
  else mret ().

Definition _maybe_evict_cached_block (block : bref) : M BlockPool bool :=
  h ← gets (λ p, hash_of p block);
  match h with
  | None => mret false
  | Some block_hash =>
      p ← get;
      let '(r, m) := BlockMap.pop (bid_of p) (cached_block_hash_to_block p) block_hash (bid_of p block) in
      modify (set_cached m) ;;
      match r with
      | None => mret false
      | Some _ =>
          on_store (reset_hash block) ;;
          (if enable_kv_cache_events p
           then add_event (BlockRemoved [maybe_convert_block_hash (use_int_hashes p) (get_block_hash block_hash)])
           else mret ()) ;;
          mret true
      end
  end.

(** One iteration of the loops of [get_new_blocks] *)
Definition claim_block (caching : bool) (block : bref) : M BlockPool () :=
  (if caching then _maybe_evict_cached_block block ;; mret () else mret ()) ;;
  c ← gets (λ p, ref_of p block);
  assert_ (bool_decide (c = 0)) ;;
  on_store (wr block (set_ref_cnt (λ c, c + 1))).

Definition get_new_blocks (num_blocks : Z) : M BlockPool (list bref) :=
  free ← get_num_free_blocks;
  if free <? num_blocks then raise ValueError else
  ret ← on_store (FreeQueue.popleft_n num_blocks);
  caching ← gets enable_caching;
  for_each ret (claim_block caching) ;;
  mret ret.

Definition touch_block (block : bref) : M BlockPool () :=
  c ← gets (λ p, (ref_of p block, null_of p block));
  (if bool_decide (c.1 = 0) && negb c.2 then on_store (FreeQueue.remove block) else mret ()) ;;
  on_store (wr block (set_ref_cnt (λ c, c + 1))).

Definition touch (blocks : list (list bref)) : M BlockPool () :=
  for_each blocks (λ blocks_per_group,
    for_each blocks_per_group touch_block).

Definition free_blocks (ordered_blocks : list bref) : M BlockPool () :=
  for_each ordered_blocks (λ block, on_store (wr block (set_ref_cnt (λ c, c - 1)))) ;;
  p ← get;
  on_store (FreeQueue.append_n
    (filter (λ b, ref_of p b = 0 ∧ null_of p b = false) ordered_blocks)).

Definition reset_prefix_cache : M BlockPool bool :=
  p ← get;
  let num_used_blocks := Z.of_nat (num_gpu_blocks p) - num_free_blocks (store p) in
  if bool_decide (num_used_blocks ≠ 1) then mret false else
  modify (set_cached ∅) ;;
  for_each (pool_blocks (num_gpu_blocks p)) (λ block, on_store (reset_hash block)) ;;
  (if enable_kv_cache_events p then add_event AllBlocksCleared else mret ()) ;;
  mret true.

(** [get_usage], as an exact fraction *)
Definition get_usage (p : BlockPool) : Q :=
  let total := Z.of_nat (num_gpu_blocks p) - 1 in
  if bool_decide (total = 0) then 0%Q else (1 - (num_free_blocks (store p) # Z.to_pos total))%Q.

Definition take_events : M BlockPool (list KVCacheEvent) :=
  p ← get;
  if enable_kv_cache_events p then modify (set_events []) ;; mret (kv_event_queue p) else mret [].

(** ** The index is the inverse of the blocks' hashes *)

Module CacheRel.
Definition entry_blocks (e : option cached_blocks) : list bref :=
  match e with None => [] | Some (Single b) => [b] | Some (Multi d) => d.*2 end.

Definition wf_entry (bid : bref → Z) (e : cached_blocks) : Prop :=
  match e with
  | Single _ => True
  | Multi d => d ≠ [] ∧ NoDup d.*1 ∧ ∀ i b, (i, b) ∈ d → i = bid b
  end.

(** [bh] gives the hash of each block. *)
Record cache_rel (bid : bref → Z) (bh : bref → option bytes) (m : gmap bytes cached_blocks) : Prop := {
  cr_wf k e : m !! k = Some e → wf_entry bid e;
  cr_iff k b : b ∈ entry_blocks (m !! k) ↔ bh b = Some k;
}.

Section lemmas.
Context (bid : bref → Z).

Lemma cache_rel_ext bid' bh bh' m :
  (∀ b, bid' b = bid b) → (∀ b, bh' b = bh b) → cache_rel bid bh m → cache_rel bid' bh' m.
Proof.
  intros Hb Hh [Hwf Hiff]. split.
  - intros k e E. specialize (Hwf k e E). destruct e; simpl in *; [done|].
    destruct Hwf as (?&?&Hi). split_and!; [done..|]. intros i b Hin. rewrite Hb. by apply Hi.
  - intros k b. by rewrite Hh, Hiff.
Qed.

Lemma cache_rel_empty bh : (∀ b, bh b = None) → cache_rel bid bh ∅.
Proof. intros H. split; [done|]. intros k b. rewrite H. simpl. rewrite lookup_empty. set_solver. Qed.

Lemma get_one_sound bh m k r : cache_rel bid bh m → BlockMap.get_one_block m k = r →
  (∃ b, r = Ok (Some b) ∧ bh b = Some k) ∨ (r = Ok None ∧ ∀ b, bh b ≠ Some k).
Proof.
  intros [Hwf Hiff] <-. unfold BlockMap.get_one_block. destruct (m !! k) as [[b|d]|] eqn:E.
  - left. exists b. split; [done|]. apply Hiff. rewrite E. set_solver.
  - destruct (Hwf _ _ E) as (Hne & _). destruct d as [|[i b] d]; [done|]. left. exists b. split; [done|].
    apply Hiff. rewrite E. simpl. set_solver.
  - right. split; [done|]. intros b Hb. apply Hiff in Hb. rewrite E in Hb. set_solver.
Qed.

Lemma elem_of_snd_set i (b : bref) d x : NoDup d.*1 → (∀ j c, (j, c) ∈ d → j = bid c) →
  (∀ c, c ∈ d.*2 → bid c ≠ bid b) → i = bid b →
  x ∈ (OD.set i b d).*2 ↔ x = b ∨ x ∈ d.*2.
Proof.
  intros Hnd Hid Hne ->. rewrite !list_elem_of_fmap.
  split.
  - intros ([j c] & -> & [[-> ->]|[_ Hin]]%OD.elem_of_set); [by left| |done]. right. by exists (j, c).
  - intros [->|([j c] & -> & Hin)]; simpl.
    + exists (bid b, b). split; [done|]. apply OD.elem_of_set; auto.
    + exists (j, c). split; [done|]. apply OD.elem_of_set; [done|]. right. split; [|done].
      rewrite (Hid _ _ Hin). apply Hne, list_elem_of_fmap. by exists (j, c).
Qed.

Lemma insert_rel bh m k b : cache_rel bid bh m → bh b = None →
  (∀ c, bh c = Some k → bid c ≠ bid b) →
  cache_rel bid (λ x, if decide (x = b) then Some k else bh x) (BlockMap.insert bid m k b).
Proof.
  intros [Hwf Hiff] Hb Hne.
  assert (∃ e, BlockMap.insert bid m k b = <[k := e]> m ∧ wf_entry bid e ∧
            ∀ x, x ∈ entry_blocks (Some e) ↔ x = b ∨ x ∈ entry_blocks (m !! k)) as (e & -> & He & Hx).
  { unfold BlockMap.insert. destruct (m !! k) as [[c|d]|] eqn:E.
    - assert (bid c ≠ bid b) as Hcb by (apply Hne, Hiff; rewrite E; set_solver).
      eexists. split; [done|]. simpl. rewrite decide_False by done. simpl. split_and!; [done| | |].
      + apply NoDup_cons. split; [set_solver|apply NoDup_singleton].
      + intros i x. rewrite !elem_of_cons. set_solver.
      + set_solver.
    - destruct (Hwf _ _ E) as (Hd & Hnd & Hid). eexists. split; [done|]. simpl. split_and!.
      + apply OD.set_not_nil.
      + by apply OD.NoDup_keys_set.
      + intros i x [[-> ->]|[_ Hin]]%OD.elem_of_set; auto.
      + intros x. apply elem_of_snd_set; auto. intros c Hc. apply Hne, Hiff. by rewrite E.
    - eexists. split; [done|]. simpl. set_solver. }
  split.
  - intros k' e'. rewrite lookup_insert. case_decide; [by intros [= <-]|apply Hwf].
  - intros k' x. rewrite lookup_insert. case_decide as Ek; subst.
    + rewrite Hx, Hiff. case_decide; subst; naive_solver.
    + rewrite Hiff. case_decide; subst; naive_solver.
Qed.

Lemma pop_rel bh m k b : cache_rel bid bh m → bh b = Some k →
  (∀ c, bh c = Some k → bid c = bid b → c = b) →
  ∃ m', BlockMap.pop bid m k (bid b) = (Some b, m') ∧
    cache_rel bid (λ x, if decide (x = b) then None else bh x) m'.
Proof.
  intros [Hwf Hiff] Hb Hinj. pose proof (proj2 (Hiff k b) Hb) as Hin.
  assert (∃ o, (BlockMap.pop bid m k (bid b)).1 = Some b ∧
            (∀ k', (BlockMap.pop bid m k (bid b)).2 !! k' = if decide (k = k') then o else m !! k') ∧
            (∀ e, o = Some e → wf_entry bid e) ∧
            ∀ x, x ∈ entry_blocks o ↔ x ≠ b ∧ x ∈ entry_blocks (m !! k)) as (o & Er & Hm & He & Hx).
  { unfold BlockMap.pop. destruct (m !! k) as [[c|d]|] eqn:E; simpl in Hin; [| |set_solver].
    - apply list_elem_of_singleton in Hin as ->. rewrite bool_decide_true by done. exists None. split_and!; simpl.
      + done.
      + intros k'. rewrite lookup_delete. done.
      + done.
      + set_solver.
    - destruct (Hwf _ _ E) as (Hd & Hnd & Hid).
      apply list_elem_of_fmap in Hin as ([i b'] & -> & Hin). simpl in *. pose proof (Hid _ _ Hin) as ->.
      set (d' := OD.del (bid b') d).
      exists (if bool_decide (0 < length d')%nat then Some (Multi d') else None). split_and!; simpl.
      + by apply OD.get_Some.
      + intros k'. case_bool_decide; [rewrite lookup_insert|rewrite lookup_delete]; done.
      + intros e. case_bool_decide; [|done]. intros [= <-]. simpl. split_and!.
        * destruct d'; simpl in *; [lia|done].
        * unfold d'. rewrite OD.keys_del by done. by apply NoDup_filter.
        * intros i x [_ ?]%OD.elem_of_del; auto.
      + intros x. assert (x ∈ d'.*2 ↔ x ≠ b' ∧ x ∈ d.*2) as Hd'.
        { unfold d'. rewrite !list_elem_of_fmap. split.
          - intros ([j c] & -> & [Hj Hc]%OD.elem_of_del); [|done]. simpl. split; [|by exists (j, c)].
            intros ->. apply Hj. by apply Hid.
          - intros [Hxb ([j c] & -> & Hc)]. exists (j, c). split; [done|]. apply OD.elem_of_del; [done|].
            split; [|done]. simpl in *. rewrite (Hid _ _ Hc). intros Ej. apply Hxb, Hinj; [|done].
            apply Hiff. rewrite E. apply list_elem_of_fmap. by exists (j, c). }
        case_bool_decide; simpl; [done|]. rewrite <-Hd'. destruct d'; simpl in *; [done|lia]. }
  destruct (BlockMap.pop bid m k (bid b)) as [r m']. simpl in *. subst. exists m'. split; [done|]. split.
  - intros k' e. rewrite Hm. case_decide; [apply He|apply Hwf].
  - intros k' x. rewrite Hm. case_decide as Ek; subst.
    + rewrite Hx, Hiff. case_decide; subst; naive_solver.
    + rewrite Hiff. case_decide; subst; naive_solver.
Qed.
End lemmas.
End CacheRel.

(** ** The pool invariant *)

Section pool.
Context (R : Store → list bref → Prop) `{!FreeQueueLaws R}.

(** A real, non-null block of the pool *)
Definition usable (p : BlockPool) (b : bref) : Prop :=
  ∃ i, b = Blk i ∧ (0 < i < num_gpu_blocks p)%nat.

#[global] Instance usable_dec p b : Decision (usable p b).
Proof.
  destruct b as [| |i]; [right; by intros (?&?&?)..|].
  destruct (decide (0 < i < num_gpu_blocks p)%nat); [left; by exists i|right; intros (?&?&?); naive_solver].
Defined.

(** [l] is the free queue, [pend] the unreferenced blocks that are momentarily
    outside the queue (inside [get_new_blocks], [touch] and [free_blocks]). *)
Record pool_inv (p : BlockPool) (l pend : list bref) : Prop := {
  pi_rep : R (store p) l;
  pi_free b : b ∈ l ↔ usable p b ∧ ref_of p b = 0 ∧ b ∉ pend;
  pi_pend b : b ∈ pend → usable p b ∧ ref_of p b = 0;
  pi_ref b : usable p b → 0 ≤ ref_of p b;
  pi_pos : (0 < num_gpu_blocks p)%nat;
  pi_nullref : null_block p = Blk 0;
  pi_id i : (i < num_gpu_blocks p)%nat → bid_of p (Blk i) = Z.of_nat i;
  pi_isnull i : (i < num_gpu_blocks p)%nat → null_of p (Blk i) = bool_decide (i = 0%nat);
  pi_hash b : is_Some (hash_of p b) → usable p b;
  pi_cache : CacheRel.cache_rel (bid_of p) (hash_of p) (cached_block_hash_to_block p);
}.

(** What no operation changes. *)
Definition same_cfg (p p' : BlockPool) : Prop :=
  num_gpu_blocks p' = num_gpu_blocks p ∧ enable_caching p' = enable_caching p ∧
  null_block p' = null_block p ∧ enable_kv_cache_events p' = enable_kv_cache_events p ∧
  use_int_hashes p' = use_int_hashes p.

#[global] Instance same_cfg_preorder : PreOrder same_cfg.
Proof. split; [done|]. intros p1 p2 p3 (?&?&?&?&?) (?&?&?&?&?). split_and!; congruence. Qed.

Lemma usable_cfg p p' b : same_cfg p p' → usable p' b ↔ usable p b.
Proof. intros (E&_). unfold usable. by rewrite E. Qed.

Lemma usable_null p l pend b : pool_inv p l pend → usable p b → null_of p b = false.
Proof.
  intros Hi (i & -> & Hlt). rewrite (pi_isnull _ _ _ Hi) by lia. apply bool_decide_eq_false. lia.
Qed.

Lemma usable_fake p b : usable p b → b ≠ FakeHead ∧ b ≠ FakeTail.
Proof. intros (i & -> & _). done. Qed.

Lemma bid_inj p l pend b c : pool_inv p l pend → usable p b → usable p c → bid_of p b = bid_of p c → b = c.
Proof.
  intros Hi (i & -> & ?) (j & -> & ?). rewrite !(pi_id _ _ _ Hi) by lia. intros. f_equal. lia.
Qed.

(** Assigning one field of one block. *)
Lemma ref_upd_ref p b f x : ref_of (set_store (upd b (set_ref_cnt f) (store p)) p) x =
  if decide (x = b) then f (ref_of p b) else ref_of p x.
Proof. unfold ref_of. simpl. rewrite FreeQueue.deref_upd. repeat case_decide; by subst. Qed.

(** A new reference count, with the effect on the pending blocks. *)
Lemma pool_inv_ref p l pend pend' b f : pool_inv p l pend → b ∉ l →
  (usable p b → 0 ≤ f (ref_of p b)) →
  (∀ x, x ≠ b → x ∈ pend' ↔ x ∈ pend) →
  (b ∈ pend' ↔ usable p b ∧ f (ref_of p b) = 0) →
  pool_inv (set_store (upd b (set_ref_cnt f) (store p)) p) l pend'.
Proof.
  intros Hi Hbl Hf Hpend Hb. set (p' := set_store _ _).
  assert (∀ x, bid_of p' x = bid_of p x ∧ null_of p' x = null_of p x ∧ hash_of p' x = hash_of p x) as Hsame.
  { intros x. unfold bid_of, null_of, hash_of, p'. simpl. rewrite FreeQueue.deref_upd. case_decide; by subst. }
  pose proof (ref_upd_ref p b f) as Href. fold p' in Href.
  split; try apply Hi; intros *.
  - eapply fq_frame; [apply Hi|done|]. intros r. simpl. rewrite FreeQueue.deref_upd. case_decide; by subst.
  - change (usable p' b0) with (usable p b0). rewrite Href. case_decide as E; subst.
    + split; [done|]. intros (?&?&Hn). exfalso. apply Hn, Hb. done.
    + rewrite (pi_free _ _ _ Hi), Hpend by done. done.
  - change (usable p' b0) with (usable p b0). rewrite Href. case_decide as E; subst; [apply Hb|].
    rewrite Hpend by done. apply Hi.
  - change (usable p' b0) with (usable p b0). rewrite Href. case_decide as E; subst; [auto|apply Hi].
  - destruct (Hsame (Blk i)) as (->&_&_). apply Hi.
  - destruct (Hsame (Blk i)) as (_&->&_). apply Hi.
  - destruct (Hsame b0) as (_&_&->). apply (pi_hash _ _ _ Hi).
  - eapply CacheRel.cache_rel_ext; [..|apply Hi]; intros; apply Hsame.
Qed.

(** Operations of the queue leave everything but the queue in place. *)
Lemma pool_inv_queue p s l pend l' pend' : pool_inv p l pend → R s l' → FreeQueue.same_meta (store p) s →
  (∀ b, b ∈ l' ↔ usable p b ∧ ref_of p b = 0 ∧ b ∉ pend') →
  (∀ b, b ∈ pend' → usable p b ∧ ref_of p b = 0) →
  pool_inv (set_store s p) l' pend'.
Proof.
  intros Hi HR Hm Hl Hp.
  assert (∀ x, bid_of (set_store s p) x = bid_of p x ∧ null_of (set_store s p) x = null_of p x ∧
               hash_of (set_store s p) x = hash_of p x ∧ ref_of (set_store s p) x = ref_of p x) as Hsame.
  { intros x. unfold bid_of, null_of, hash_of, ref_of. simpl. pose proof (Hm x) as E.
    unfold FreeQueue.meta in E. by injection E as -> -> -> ->. }
  split; try apply Hi; try done; intros *.
  - destruct (Hsame b) as (_&_&_&->). apply Hl.
  - destruct (Hsame b) as (_&_&_&->). apply Hp.
  - destruct (Hsame b) as (_&_&_&->). apply Hi.
  - destruct (Hsame (Blk i)) as (->&_). apply Hi.
  - destruct (Hsame (Blk i)) as (_&->&_). apply Hi.
  - destruct (Hsame b) as (_&_&->&_). apply (pi_hash _ _ _ Hi).
  - eapply CacheRel.cache_rel_ext; [..|apply Hi]; intros; apply Hsame.
Qed.

(** A new hash of one block together with the matching index. *)
Lemma pool_inv_hash p l pend b k m : pool_inv p l pend → usable p b →
  CacheRel.cache_rel (bid_of p) (λ x, if decide (x = b) then k else hash_of p x) m →
  pool_inv (set_cached m (set_store (upd b (set_hash k) (store p)) p)) l pend.
Proof.
  intros Hi Hb Hm. set (p' := set_cached _ _).
  assert (∀ x, bid_of p' x = bid_of p x ∧ null_of p' x = null_of p x ∧ ref_of p' x = ref_of p x) as Hsame.
  { intros x. unfold bid_of, null_of, ref_of, p'. simpl. rewrite FreeQueue.deref_upd. case_decide; by subst. }
  assert (∀ x, hash_of p' x = if decide (x = b) then k else hash_of p x) as Hh.
  { intros x. unfold hash_of, p'. simpl. rewrite FreeQueue.deref_upd. repeat case_decide; by subst. }
  split; try apply Hi; intros *.
  - eapply fq_frame; [apply Hi|done|]. intros r. simpl. rewrite FreeQueue.deref_upd. case_decide; by subst.
  - destruct (Hsame b0) as (_&_&->). apply Hi.
  - destruct (Hsame b0) as (_&_&->). apply Hi.
  - destruct (Hsame b0) as (_&_&->). apply Hi.
  - destruct (Hsame (Blk i)) as (->&_). apply Hi.
  - destruct (Hsame (Blk i)) as (_&->&_). apply Hi.
  - rewrite Hh. case_decide; subst; [done|apply Hi].
  - eapply CacheRel.cache_rel_ext; [..|exact Hm]; intros; [apply Hsame|apply Hh].
Qed.

(** *** Eviction and allocation *)

Lemma wp_evict p l pend b : pool_inv p l pend → usable p b →
  wp (_maybe_evict_cached_block b) p (λ _ p', pool_inv p' l pend ∧ same_cfg p p' ∧
    (∀ x, ref_of p' x = ref_of p x) ∧
    (∀ x, hash_of p' x = if decide (x = b) then None else hash_of p x)).
Proof.
  intros Hi Hb. unfold _maybe_evict_cached_block. do 2 wp_step.
  destruct (hash_of p b) as [k|] eqn:Ek.
  2:{ wp_steps. split_and!; [done|reflexivity|done|]. intros x. case_decide; by subst. }
  do 2 wp_step. destruct (CacheRel.pop_rel _ _ _ k b (pi_cache _ _ _ Hi) Ek) as (m & -> & Hm).
  { intros c Hc. eapply bid_inj; [done| |done]. apply (pi_hash _ _ _ Hi). by eexists. }
  unfold reset_hash, wr, on_store. wp_steps. unfold add_event.
  pose proof (pool_inv_hash p l pend b None m Hi Hb Hm) as Hi'.
  assert (∀ q, store q = upd b (set_hash None) (store p) →
    (∀ x, ref_of q x = ref_of p x) ∧ (∀ x, hash_of q x = if decide (x = b) then None else hash_of p x)) as Hv.
  { intros q Eq. unfold ref_of, hash_of. rewrite Eq. split; intros x; rewrite FreeQueue.deref_upd;
      repeat case_decide; by subst. }
  case_match; wp_steps; (split; [|split; [done|by apply Hv]]); [|exact Hi'].
  destruct Hi'. by split.
Qed.

Definition claimed_hash (caching : bool) (p : BlockPool) (r : list bref) (x : bref) : option bytes :=
  if decide (x ∈ r) then (if caching then None else hash_of p x) else hash_of p x.

Lemma claimed_hash_app caching p q fin b x : (∀ x, hash_of q x = claimed_hash caching p fin x) →
  claimed_hash caching q [b] x = claimed_hash caching p (fin ++ [b]) x.
Proof.
  intros Hq. unfold claimed_hash. rewrite Hq. unfold claimed_hash.
  rewrite (decide_ext (x ∈ fin ++ [b]) (x ∈ fin ∨ x ∈ [b])) by apply elem_of_app.
  destruct caching, (decide (x ∈ fin)), (decide (x ∈ [b])), (decide (x ∈ fin ∨ x ∈ [b])); tauto.
Qed.

Lemma wp_claim_block p l' pend caching b rest : pool_inv p l' pend → pend ≡ₚ b :: rest → NoDup pend →
  wp (claim_block caching b) p (λ _ p', pool_inv p' l' rest ∧ same_cfg p p' ∧
    (∀ x, ref_of p' x = ref_of p x + occ x [b]) ∧ ∀ x, hash_of p' x = claimed_hash caching p [b] x).
Proof.
  intros Hi Hp Hnd. rewrite Hp in Hnd. apply NoDup_cons in Hnd as [Hb Hnd].
  assert (b ∈ pend) as Hbp by (rewrite Hp; left). destruct (pi_pend _ _ _ Hi b Hbp) as [Hu Hz].
  assert (b ∉ l') as Hbl by (intros (_&_&?)%(pi_free _ _ _ Hi); done).
  unfold claim_block. wp_step.
  apply (wp_mono _ _ (λ _ q, pool_inv q l' pend ∧ same_cfg p q ∧ (∀ x, ref_of q x = ref_of p x) ∧
    ∀ x, hash_of q x = claimed_hash caching p [b] x)).
  { unfold claimed_hash. destruct caching.
    - wp_step. eapply wp_mono; [by apply wp_evict|]. intros _ q (?&?&?&Hh). wp_steps. split_and!; [done..|].
      intros x. rewrite Hh. by rewrite (decide_ext (x = b) (x ∈ [b])) by (rewrite list_elem_of_singleton; done).
    - wp_steps. split_and!; [done|reflexivity|done|]. intros x. by case_decide. }
  intros [] q (Hi' & Hc & Hr & Hh). wp_steps. apply wp_assert; [by rewrite Hr, Hz|].
  unfold on_store, wr. wp_steps. split_and!.
  - apply (pool_inv_ref q l' pend rest b _ Hi' Hbl).
    + rewrite Hr. lia.
    + intros x Hx. rewrite Hp. set_solver +Hx.
    + split; [done|]. rewrite Hr, Hz. lia.
  - done.
  - intros x. rewrite ref_upd_ref, occ_cons, occ_nil, !Hr. repeat case_decide; subst; try done; lia.
  - intros x. rewrite <-Hh. unfold hash_of. simpl. rewrite FreeQueue.deref_upd. case_decide; by subst.
Qed.

Lemma wp_claim_all p l' caching r : pool_inv p l' r → NoDup r →
  wp (for_each r (claim_block caching)) p (λ _ p', pool_inv p' l' [] ∧ same_cfg p p' ∧
    (∀ x, ref_of p' x = ref_of p x + occ x r) ∧ ∀ x, hash_of p' x = claimed_hash caching p r x).
Proof.
  intros Hi Hnd. apply (wp_for_each (λ fin q, ∃ rest, r = fin ++ rest ∧ pool_inv q l' rest ∧ same_cfg p q ∧
    (∀ x, ref_of q x = ref_of p x + occ x fin) ∧ ∀ x, hash_of q x = claimed_hash caching p fin x)).
  - exists r. split_and!; [done|done|reflexivity|intros; rewrite occ_nil; lia|done].
  - intros fin b rest q Er (rest' & Er' & Hq & Hc & Hr & Hh). rewrite Er in Er'. apply app_inv_head in Er' as <-.
    rewrite Er in Hnd. apply NoDup_app in Hnd as (_ & _ & Hnd).
    eapply wp_mono; [by eapply wp_claim_block|]. intros _ q' (Hq' & Hc' & Hr' & Hh').
    exists rest. rewrite <-app_assoc. split_and!; [done|done|by transitivity q|..]; intros x.
    + rewrite Hr', Hr, occ_app. lia.
    + rewrite Hh'. by apply claimed_hash_app.
  - intros q (rest & Er & Hq & Hc & Hr & Hh). assert (rest = []) as ->.
    { destruct rest; [done|]. apply (f_equal length) in Er. rewrite length_app in Er. simpl in Er. lia. }
    done.
Qed.

Lemma wp_get_new_blocks p l n : pool_inv p l [] → 0 ≤ n ≤ Z.of_nat (length l) →
  wp (get_new_blocks n) p (λ r p', ∃ l', l = r ++ l' ∧ Z.of_nat (length r) = n ∧
    pool_inv p' l' [] ∧ same_cfg p p' ∧ (∀ x, ref_of p' x = ref_of p x + occ x r) ∧
    (∀ x, hash_of p' x = claimed_hash (enable_caching p) p r x)).
Proof.
  intros Hi Hn. unfold get_new_blocks, get_num_free_blocks. do 2 wp_step.
  rewrite (fq_num _ _ (pi_rep _ _ _ Hi)), (proj2 (Z.ltb_ge _ _)) by lia.
  pose proof (fq_nodup _ _ (pi_rep _ _ _ Hi)) as Hnd. rewrite <-(take_drop (Z.to_nat n) l) in Hi, Hnd.
  set (r := take (Z.to_nat n) l) in *. set (l' := drop (Z.to_nat n) l) in *.
  assert (Z.of_nat (length r) = n) as Hr by (unfold r; rewrite length_take; lia).
  wp_step. unfold on_store at 1. wp_step. rewrite <-Hr.
  eapply wp_mono; [apply (fq_popleft_n (R := R)), Hi|]. intros ? s (-> & HR & Hm). do 3 wp_step.
  assert (∀ x, ref_of (set_store s p) x = ref_of p x ∧ hash_of (set_store s p) x = hash_of p x) as Hv.
  { intros x. unfold ref_of, hash_of. simpl. pose proof (Hm x) as E. by injection E as _ -> -> _. }
  apply NoDup_app in Hnd as (Hndr & Hd & _).
  eapply wp_mono; [apply (wp_claim_all _ l' _ r); [|done]|].
  { apply (pool_inv_queue p s _ _ l' r Hi HR Hm); intros b.
    - pose proof (pi_free _ _ _ Hi b) as Hf. rewrite elem_of_app in Hf. specialize (Hd b). set_solver +Hf Hd.
    - intros Hb. destruct (proj1 (pi_free _ _ _ Hi b)) as (?&?&_); [set_solver +Hb|done]. }
  intros [] q (Hq & Hc & Hrq & Hh). wp_steps. exists l'.
  split_and!; [by unfold r, l'; rewrite take_drop|done|done|done|..]; intros x.
  - rewrite Hrq. by destruct (Hv x) as [-> _].
  - rewrite Hh. unfold claimed_hash. by destruct (Hv x) as [_ ->].
Qed.

Lemma get_new_blocks_short p l n : pool_inv p l [] → Z.of_nat (length l) < n →
  get_new_blocks n p = (Raise ValueError, p).
Proof.
  intros Hi Hn. unfold get_new_blocks, get_num_free_blocks, mbind, M_bind, gets.
  rewrite (fq_num _ _ (pi_rep _ _ _ Hi)). by rewrite (proj2 (Z.ltb_lt _ _)).
Qed.

(** *** Touching and freeing *)

(** A block a request may hold: usable, or the null block *)
Definition holdable (p : BlockPool) (b : bref) : Prop := usable p b ∨ b = null_block p.

Lemma holdable_cfg p p' b : same_cfg p p' → holdable p' b ↔ holdable p b.
Proof. intros Hc. unfold holdable. rewrite (usable_cfg _ _ _ Hc). by destruct Hc as (_&_&->&_). Qed.

Lemma null_not_usable p l pend : pool_inv p l pend → ¬ usable p (null_block p).
Proof. intros Hi (i & E & Hlt). rewrite (pi_nullref _ _ _ Hi) in E. simplify_eq. lia. Qed.

Lemma null_is_null p l pend : pool_inv p l pend → null_of p (null_block p) = true.
Proof. intros Hi. rewrite (pi_nullref _ _ _ Hi), (pi_isnull _ _ _ Hi) by apply Hi. done. Qed.

(** Adding references to a block outside the queue. *)
Lemma wp_incr p l pend b : pool_inv p l pend → b ∉ l → (pend = [] ∨ pend = [b]) →
  wp (on_store (wr b (set_ref_cnt (λ c, c + 1)))) p (λ _ p', pool_inv p' l [] ∧ same_cfg p p' ∧
    (∀ x, ref_of p' x = ref_of p x + occ x [b]) ∧ ∀ x, hash_of p' x = hash_of p x).
Proof.
  intros Hi Hb Hp. unfold on_store, wr. wp_steps. split_and!; [|done|..].
  - apply (pool_inv_ref p l pend [] b _ Hi Hb).
    + intros Hu%(pi_ref _ _ _ Hi). lia.
    + intros x Hx. destruct Hp as [->| ->]; set_solver +Hx.
    + split; [set_solver +|]. intros [Hu Hz]. pose proof (pi_ref _ _ _ Hi b Hu). lia.
  - intros x. rewrite ref_upd_ref, occ_cons, occ_nil. repeat case_decide; subst; try done; lia.
  - intros x. unfold hash_of. simpl. rewrite FreeQueue.deref_upd. case_decide; by subst.
Qed.

Lemma wp_touch_block p l b : pool_inv p l [] → holdable p b →
  wp (touch_block b) p (λ _ p', pool_inv p' (filter (λ x, x ≠ b) l) [] ∧ same_cfg p p' ∧
    (∀ x, ref_of p' x = ref_of p x + occ x [b]) ∧ ∀ x, hash_of p' x = hash_of p x).
Proof.
  intros Hi Hb. unfold touch_block. do 3 wp_step.
  destruct (decide (b ∈ l)) as [Hl|Hl].
  - destruct (proj1 (pi_free _ _ _ Hi b) Hl) as (Hu & Hz & _). pose proof (fq_nodup _ _ (pi_rep _ _ _ Hi)) as Hnd.
    rewrite bool_decide_true, (usable_null _ _ _ _ Hi Hu) by done. simpl.
    destruct (list_elem_of_split _ _ Hl) as (l1 & l2 & ->). rewrite filter_middle by done.
    unfold on_store at 1. wp_step. eapply wp_mono; [apply (fq_remove (R := R)), Hi|].
    intros _ s (HR & Hm). set (p1 := set_store s p).
    assert (pool_inv p1 (l1 ++ l2) [b]) as Hi1.
    { apply (pool_inv_queue p s _ _ _ _ Hi HR Hm); intros x.
      - pose proof (pi_free _ _ _ Hi x) as Hf. rewrite elem_of_app, elem_of_cons in Hf. rewrite elem_of_app.
        apply NoDup_app in Hnd as (_ & Hd & Hb2). apply NoDup_cons in Hb2 as [Hb2 _]. specialize (Hd b).
        rewrite list_elem_of_singleton. assert (x = b → x ∉ l1 ∧ x ∉ l2) by set_solver +Hd Hb2.
        set_solver.
      - intros ->%list_elem_of_singleton. done. }
    assert (∀ x, ref_of p1 x = ref_of p x ∧ hash_of p1 x = hash_of p x) as Hv.
    { intros x. unfold ref_of, hash_of, p1. simpl. pose proof (Hm x) as E. by injection E as _ -> -> _. }
    eapply wp_mono; [apply (wp_incr p1 _ _ b Hi1); [|by right]|].
    { intros (_&_&Hn)%(pi_free _ _ _ Hi1). set_solver +Hn. }
    intros _ q (Hq & Hc & Hr & Hh). split_and!; [done|done|..]; intros x.
    + rewrite Hr. by destruct (Hv x) as [-> _].
    + rewrite Hh. apply Hv.
  - assert (bool_decide (ref_of p b = 0) && negb (null_of p b) = false) as ->.
    { destruct Hb as [Hu| ->]; [|by rewrite (null_is_null _ _ _ Hi), andb_false_r].
      rewrite bool_decide_false; [done|]. intros Hz. apply Hl, (pi_free _ _ _ Hi). split_and!; [done..|set_solver +]. }
    rewrite filter_id by (intros x Hx ->; done). wp_step. apply wp_incr with (pend := []); auto.
Qed.

Lemma wp_touch_list p l bs : pool_inv p l [] → (∀ b, b ∈ bs → holdable p b) →
  wp (for_each bs touch_block) p (λ _ p', pool_inv p' (filter (λ x, x ∉ bs) l) [] ∧ same_cfg p p' ∧
    (∀ x, ref_of p' x = ref_of p x + occ x bs) ∧ ∀ x, hash_of p' x = hash_of p x).
Proof.
  intros Hi Hb. apply (wp_for_each (λ fin q, pool_inv q (filter (λ x, x ∉ fin) l) [] ∧ same_cfg p q ∧
    (∀ x, ref_of q x = ref_of p x + occ x fin) ∧ ∀ x, hash_of q x = hash_of p x)); [..|auto].
  - rewrite filter_id by set_solver +. split_and!; [done|reflexivity|intros; rewrite occ_nil; lia|done].
  - intros fin b rest q -> (Hq & Hc & Hr & Hh). eapply wp_mono.
    { apply wp_touch_block; [done|]. rewrite (holdable_cfg _ _ _ Hc). apply Hb. set_solver +. }
    intros _ q' (Hq' & Hc' & Hr' & Hh'). rewrite list_filter_filter in Hq'.
    split_and!; [|by transitivity q|intros x; rewrite Hr', Hr, occ_app; lia|intros x; by rewrite Hh', Hh].
    erewrite list_filter_iff; [exact Hq'|]. intros x. simpl. set_solver +.
Qed.

Lemma wp_touch p l bss : pool_inv p l [] → (∀ b, b ∈ concat bss → holdable p b) →
  wp (touch bss) p (λ _ p', pool_inv p' (filter (λ x, x ∉ concat bss) l) [] ∧ same_cfg p p' ∧
    (∀ x, ref_of p' x = ref_of p x + occ x (concat bss)) ∧ ∀ x, hash_of p' x = hash_of p x).
Proof.
  intros Hi Hb. unfold touch. apply (wp_for_each (λ fin q, pool_inv q (filter (λ x, x ∉ concat fin) l) [] ∧ same_cfg p q ∧
    (∀ x, ref_of q x = ref_of p x + occ x (concat fin)) ∧ ∀ x, hash_of q x = hash_of p x)); [..|auto].
  - rewrite filter_id by set_solver +. split_and!; [done|reflexivity|intros x; cbn [concat]; rewrite occ_nil; lia|done].
  - intros fin bs rest q -> (Hq & Hc & Hr & Hh). eapply wp_mono.
    { apply wp_touch_list; [done|]. intros b Hbs. rewrite (holdable_cfg _ _ _ Hc). apply Hb.
      rewrite concat_app. simpl. set_solver +Hbs. }
    intros _ q' (Hq' & Hc' & Hr' & Hh'). rewrite list_filter_filter in Hq'. rewrite concat_app. simpl. rewrite app_nil_r.
    split_and!; [|by transitivity q|intros x; rewrite Hr', Hr, occ_app; lia|intros x; by rewrite Hh', Hh].
    erewrite list_filter_iff; [exact Hq'|]. intros x. simpl. set_solver +.
Qed.

(** One decrement of [free_blocks]: a block that reaches zero becomes pending. *)
Lemma wp_decr q l pend b : pool_inv q l pend → (usable q b → 1 ≤ ref_of q b) →
  wp (on_store (wr b (set_ref_cnt (λ c, c - 1)))) q (λ _ q', ∃ pend',
    pool_inv q' l pend' ∧ same_cfg q q' ∧ (∀ x, ref_of q' x = ref_of q x - occ x [b]) ∧
    (∀ x, hash_of q' x = hash_of q x) ∧ ∀ x, x ∈ pend' ↔ x ∈ pend ∨ (x = b ∧ usable q b ∧ ref_of q b = 1)).
Proof.
  intros Hq Hb. unfold on_store, wr. wp_steps.
  set (pend' := if decide (usable q b ∧ ref_of q b = 1) then b :: pend else pend).
  assert (∀ x, x ∈ pend' ↔ x ∈ pend ∨ (x = b ∧ usable q b ∧ ref_of q b = 1)) as Hp
    by (intros x; unfold pend'; case_decide; set_solver).
  assert (b ∉ pend) as Hbp by (intros [Hu Hz]%(pi_pend _ _ _ Hq); specialize (Hb Hu); lia).
  exists pend'. split_and!; [|done|..|done].
  - apply (pool_inv_ref q l pend pend' b _ Hq).
    + intros (Hu & Hz & _)%(pi_free _ _ _ Hq). specialize (Hb Hu). lia.
    + intros Hu. specialize (Hb Hu). lia.
    + intros x Hx. rewrite Hp. naive_solver.
    + rewrite Hp. split; [intros [?|(_&?&?)]; [done|]; split; [done|lia]|]. intros [? ?]. right. split_and!; [done..|lia].
  - intros x. rewrite ref_upd_ref, occ_cons, occ_nil. repeat case_decide; subst; try done; lia.
  - intros x. unfold hash_of. simpl. rewrite FreeQueue.deref_upd. case_decide; by subst.
Qed.

Lemma wp_decr_all p l bl : pool_inv p l [] →
  (∀ b, usable p b → occ b bl ≤ 1 ∧ occ b bl ≤ ref_of p b) →
  wp (for_each bl (λ b, on_store (wr b (set_ref_cnt (λ c, c - 1))))) p (λ _ q, ∃ pend,
    pool_inv q l pend ∧ same_cfg p q ∧ (∀ x, ref_of q x = ref_of p x - occ x bl) ∧
    (∀ x, hash_of q x = hash_of p x) ∧ ∀ x, x ∈ pend ↔ x ∈ bl ∧ usable p x ∧ ref_of q x = 0).
Proof.
  intros Hi Hocc. apply (wp_for_each (λ fin q, ∃ pend, pool_inv q l pend ∧ same_cfg p q ∧
    (∀ x, ref_of q x = ref_of p x - occ x fin) ∧ (∀ x, hash_of q x = hash_of p x) ∧
    ∀ x, x ∈ pend ↔ x ∈ fin ∧ usable p x ∧ ref_of q x = 0)); [..|auto].
  - exists []. split_and!; [done|reflexivity|intros; rewrite occ_nil; lia|done|set_solver +].
  - intros fin b rest q -> (pend & Hq & Hc & Hr & Hh & Hp).
    assert (∀ x, usable p x → occ x (fin ++ [b]) ≤ 1 ∧ occ x (fin ++ [b]) ≤ ref_of p x) as Hub.
    { intros x Hu. destruct (Hocc x Hu) as [H1 H2]. rewrite occ_app, occ_cons in H1, H2.
      rewrite occ_app, occ_cons, occ_nil. pose proof (occ_nonneg x rest). lia. }
    eapply wp_mono; [apply (wp_decr q l pend b Hq)|].
    { rewrite (usable_cfg _ _ _ Hc), Hr. intros Hu. destruct (Hub b Hu) as [H1 H2].
      rewrite occ_app, occ_cons, occ_nil, decide_True in H1, H2 by done. lia. }
    intros _ q' (pend' & Hq' & Hc' & Hr' & Hh' & Hp'). exists pend'.
    split_and!; [done|by transitivity q|intros x; rewrite Hr', Hr, occ_app; lia|intros x; by rewrite Hh', Hh|].
    intros x. rewrite Hp', Hp, (usable_cfg _ _ _ Hc), Hr', !Hr, elem_of_app, list_elem_of_singleton.
    destruct (decide (x = b)) as [->|Hx]; rewrite ?occ_cons, ?occ_nil, ?decide_True, ?decide_False by done.
    + split; [intros [(Hf & Hu & _)|(_ & Hu & Hz)]|intros (_ & Hu & Hz); right; split_and!; [done..|lia]].
      * destruct (Hub b Hu) as [H1 _]. rewrite occ_app, occ_cons, occ_nil, decide_True in H1 by done.
        apply occ_pos in Hf. lia.
      * split_and!; [by right|done|lia].
    + split; [intros [(?&?&?)|(?&_)]; [split_and!; [auto|done|lia]|done]|].
      intros ([?|?]&?&?); [left; split_and!; [done..|lia]|done].
Qed.

(** The blocks that return to the queue, in the order given. *)
Definition released (p : BlockPool) (bl : list bref) : list bref :=
  filter (λ b, usable p b ∧ ref_of p b = occ b bl) bl.

Lemma wp_free_blocks p l bl : pool_inv p l [] → (∀ b, b ∈ bl → holdable p b) →
  (∀ b, usable p b → occ b bl ≤ 1 ∧ occ b bl ≤ ref_of p b) →
  wp (free_blocks bl) p (λ _ q, pool_inv q (l ++ released p bl) [] ∧ same_cfg p q ∧
    (∀ x, ref_of q x = ref_of p x - occ x bl) ∧ ∀ x, hash_of q x = hash_of p x).
Proof.
  intros Hi Hhold Hocc. unfold free_blocks. wp_step. eapply wp_mono; [by apply wp_decr_all|].
  intros _ q (pend & Hq & Hc & Hr & Hh & Hp). wp_step. wp_step.
  assert (filter (λ b, ref_of q b = 0 ∧ null_of q b = false) bl = released p bl) as ->.
  { unfold released. apply filter_ext_in. intros b Hb. rewrite Hr. destruct (Hhold b Hb) as [Hu| ->].
    - rewrite (usable_null q l pend) by (done || by rewrite (usable_cfg _ _ _ Hc)). split; intros; split_and!; (done || lia).
    - rewrite <-(proj1 (proj2 (proj2 Hc))), (null_is_null _ _ _ Hq). pose proof (null_not_usable _ _ _ Hi) as Hn.
      destruct Hc as (_&_&->&_). naive_solver. }
  assert (∀ x, x ∈ released p bl ↔ x ∈ pend) as Hrel.
  { intros x. unfold released. rewrite list_elem_of_filter, Hp, Hr. split; intros; naive_solver lia. }
  unfold on_store. wp_step. eapply wp_mono; [apply (fq_append_n (R := R)); [apply Hq|..]|].
  - apply NoDup_occ. intros x Hx. apply list_elem_of_filter in Hx as [Hx _].
    unfold released. rewrite occ_filter by done. apply Hocc, Hx.
  - intros b Hb. apply Hrel in Hb as Hb'. destruct (pi_pend _ _ _ Hq b Hb') as [Hu _].
    destruct (usable_fake _ _ Hu). pose proof (pi_free _ _ _ Hq b) as Hf. rewrite !elem_of_cons. naive_solver.
  - intros _ s (HR & Hm).
    assert (∀ x, ref_of (set_store s q) x = ref_of q x ∧ hash_of (set_store s q) x = hash_of q x) as Hv.
    { intros x. unfold ref_of, hash_of. simpl. pose proof (Hm x) as E. by injection E as _ -> -> _. }
    split_and!; [|done|intros x; rewrite <-Hr; apply Hv|intros x; rewrite <-Hh; apply Hv].
    apply (pool_inv_queue q s l pend _ [] Hq HR Hm); [|set_solver +].
    intros b. rewrite elem_of_app, Hrel, (pi_free _ _ _ Hq). split; [|destruct (decide (b ∈ pend)); naive_solver].
    intros [(?&?&_)|[? ?]%(pi_pend _ _ _ Hq)]; split_and!; (done || set_solver +).
Qed.

(** *** Looking up and filling the index *)

Definition block_key (h : bytes) (g : nat) : bytes := h ++ be_bytes 4 (Z.of_nat g).

#[local] Arguments be_bytes : simpl never.

Lemma wp_get_cached_block p l pend h gids : pool_inv p l pend → (∀ g, g ∈ gids → Z.of_nat g < 2 ^ 32) →
  wp (get_cached_block h gids) p (λ r p', p' = p ∧ match r with
    | Some bs => Forall2 (λ g b, hash_of p b = Some (block_key h g)) gids bs
    | None => ∃ g, g ∈ gids ∧ ∀ b, hash_of p b ≠ Some (block_key h g)
    end).
Proof.
  intros Hi. induction gids as [|g gids IH]; intros Hg; simpl; [by wp_steps|].
  rewrite (make_block_hash_ok h g) by (apply Hg; left). simpl. wp_steps.
  destruct (CacheRel.get_one_sound _ _ _ (block_key h g) _ (pi_cache _ _ _ Hi) eq_refl) as [(b & E & Hb)|[E Hb]];
    unfold block_key in E; rewrite E; simpl; wp_step.
  - wp_step. eapply wp_mono; [apply IH; intros; apply Hg; by right|]. intros r p' [-> Hr]. wp_step.
    split; [done|]. destruct r as [bs|]; simpl; [by constructor|].
    destruct Hr as (g' & ? & ?). exists g'. split; [by right|done].
  - wp_steps. split; [done|]. exists g. split; [left|done].
Qed.

Lemma bid_upd_hash p b k x : bid_of (set_store (upd b (set_hash k) (store p)) p) x = bid_of p x.
Proof. unfold bid_of. simpl. rewrite FreeQueue.deref_upd. case_decide; by subst. Qed.

Lemma wp_cache_loop g : Z.of_nat g < 2 ^ 32 → ∀ blks hashes p l, pool_inv p l [] → NoDup blks →
  (∀ b, b ∈ blks → usable p b ∧ hash_of p b = None) → (length blks ≤ length hashes)%nat →
  wp (cache_loop g blks hashes) p (λ r p', pool_inv p' l [] ∧ same_cfg p p' ∧
    (∀ x, ref_of p' x = ref_of p x) ∧ kv_event_queue p' = kv_event_queue p ∧
    r = maybe_convert_block_hash (use_int_hashes p) <$> take (length blks) hashes ∧
    (∀ i b h, blks !! i = Some b → hashes !! i = Some h → hash_of p' b = Some (block_key h g)) ∧
    ∀ x, x ∉ blks → hash_of p' x = hash_of p x).
Proof.
  intros Hg. induction blks as [|b blks IH]; intros hashes p l Hi Hnd Hb Hlen; simpl.
  { wp_steps. split_and!; [done|reflexivity|done..]. }
  apply NoDup_cons in Hnd as [Hbn Hnd]. destruct (Hb b (list_elem_of_here _ _)) as [Hu Hn].
  destruct hashes as [|h hashes]; simpl in *; [lia|].
  do 2 wp_step. apply wp_bind, wp_assert; [by rewrite Hn|].
  rewrite (make_block_hash_ok h g) by done. simpl. wp_step. wp_step. wp_step.
  unfold on_store, assign_block_hash, rd, wr. do 3 wp_step.
  apply wp_bind, wp_assert; [by apply bool_decide_eq_true|]. do 6 wp_step.
  set (p1 := set_cached _ _).
  assert (pool_inv p1 l []) as Hi1.
  { apply pool_inv_hash; [done|done|]. eapply CacheRel.cache_rel_ext; [|reflexivity|].
    2:{ apply CacheRel.insert_rel; [|done|].
        - eapply CacheRel.cache_rel_ext; [..|apply Hi]; [|done]. intros. apply bid_upd_hash.
        - intros c Hc. assert (usable p c) as Huc by (apply (pi_hash _ _ _ Hi); by eexists).
          rewrite !bid_upd_hash. intros E. assert (c = b) as ->; [|congruence]. by apply (bid_inj _ _ _ _ _ Hi Huc Hu). }
    intros x. symmetry. apply bid_upd_hash. }
  assert (∀ x, ref_of p1 x = ref_of p x ∧ hash_of p1 x = if decide (x = b) then Some (block_key h g) else hash_of p x) as Hv.
  { intros x. unfold ref_of, hash_of, p1. simpl. rewrite FreeQueue.deref_upd.
    destruct (decide (b = x)) as [<-|Hne]; [by rewrite decide_True|by rewrite decide_False]. }
  eapply wp_mono; [apply (IH hashes p1 l Hi1 Hnd); [|lia]|].
  { intros c Hc. destruct (Hb c) as [? Hcn]; [by right|]. split; [done|]. destruct (Hv c) as [_ ->].
    rewrite decide_False; [done|]. by intros ->. }
  intros r q (Hq & Hc & Hr & Hev & -> & Hh & Ho). wp_steps.
  split_and!; [done|done|intros; rewrite Hr; apply Hv|done|done|..].
  - intros [|i] x h'; simpl; intros Ex Eh; simplify_eq; [|by eapply Hh].
    rewrite (Ho x) by done. destruct (Hv x) as [_ ->]. by rewrite decide_True.
  - intros x Hx. apply not_elem_of_cons in Hx as [Hxb Hx]. rewrite Ho by done. destruct (Hv x) as [_ ->]. by rewrite decide_False.
Qed.

(** What a caller of [cache_full_blocks] guarantees. *)
Record cacheable (p : BlockPool) (request : Request) (blocks : list bref) (nc nf : Z) : Prop := {
  ca_nonneg : 0 ≤ nc;
  ca_hashes : nf ≤ Z.of_nat (length (block_hashes request));
  ca_nodup : NoDup (slice blocks nc nf);
  ca_fresh b : b ∈ slice blocks nc nf → usable p b ∧ hash_of p b = None;
  ca_parent : enable_kv_cache_events p = true → 0 < nc → nc < nf →
    ∃ pb, blocks !! Z.to_nat (nc - 1) = Some pb ∧ is_Some (hash_of p pb);
}.

Lemma lookup_slice {A} (l : list A) i j k : slice l i j !! k =
  if decide (Z.to_nat i + k < Z.to_nat j)%nat then l !! (Z.to_nat i + k)%nat else None.
Proof.
  unfold slice. destruct (decide _).
  - rewrite lookup_take, lookup_drop. by rewrite decide_True by lia.
  - apply lookup_take_ge. lia.
Qed.

Lemma length_slice {A} (l : list A) i j : (length (slice l i j) ≤ Z.to_nat j - Z.to_nat i)%nat.
Proof. unfold slice. rewrite length_take. lia. Qed.

Lemma wp_cache_full_blocks p l request blocks nc nf bs g : pool_inv p l [] → Z.of_nat g < 2 ^ 32 →
  cacheable p request blocks nc nf →
  wp (cache_full_blocks request blocks nc nf bs g) p (λ _ p', pool_inv p' l [] ∧ same_cfg p p' ∧
    (∀ x, ref_of p' x = ref_of p x) ∧
    (∀ i b h, (Z.to_nat nc ≤ i < Z.to_nat nf)%nat → blocks !! i = Some b → block_hashes request !! i = Some h →
       hash_of p' b = Some (block_key h g)) ∧
    ∀ x, x ∉ slice blocks nc nf → hash_of p' x = hash_of p x).
Proof.
  intros Hi Hg [Hnn Hlen Hnd Hfr Hpar]. unfold cache_full_blocks.
  destruct (Z.leb_spec nf nc) as [Hle|Hlt].
  { wp_steps. split_and!; [done|reflexivity|done|lia|done]. }
  apply wp_bind, wp_assert; [by apply Z.leb_le|]. wp_step.
  eapply wp_mono; [apply (wp_cache_loop g Hg _ _ p l Hi Hnd Hfr)|].
  { rewrite length_slice, length_drop. lia. }
  intros hs q (Hq & Hc & Hr & Hev & -> & Hh & Ho).
  assert (∀ i b h, (Z.to_nat nc ≤ i < Z.to_nat nf)%nat → blocks !! i = Some b → block_hashes request !! i = Some h →
       hash_of q b = Some (block_key h g)) as Hh'.
  { intros i b h Hirng Eb Eh. apply (Hh (i - Z.to_nat nc)%nat).
    - rewrite lookup_slice, decide_True by lia. by replace (Z.to_nat nc + _)%nat with i by lia.
    - rewrite lookup_drop. by replace (Z.to_nat nc + _)%nat with i by lia. }
  wp_step. wp_step. destruct (enable_kv_cache_events q) eqn:Eev; [|by wp_steps].
  wp_step. unfold parent_hash, add_event.
  assert (∀ e, pool_inv (set_events e q) l []) as He by (intros e; destruct Hq; by split).
  case_bool_decide as Hz.
  - wp_steps. done.
  - destruct Hpar as (pb & Epb & [k Hk]); [|lia|done|].
    { destruct Hc as (_&_&_&E&_). congruence. }
    apply wp_bind. eapply wp_index; [done|]. do 2 wp_step. rewrite Ho, Hk.
    + wp_steps. done.
    + intros [_ E]%Hfr. congruence.
Qed.

(** *** Resetting the cache *)

Lemma length_pool_blocks p l pend : pool_inv p l pend → NoDup pend →
  (length l + length pend ≤ num_gpu_blocks p - 1)%nat.
Proof.
  intros Hi Hp. rewrite <-length_app. replace (num_gpu_blocks p - 1)%nat with (length (Blk <$> seq 1 (num_gpu_blocks p - 1)))
    by (rewrite length_fmap, length_seq; done).
  apply NoDup_incl_length.
  - apply NoDup_ListNoDup, NoDup_app. split_and!; [by apply (fq_nodup _ _ (pi_rep _ _ _ Hi))| |done].
    intros b (_&_&?)%(pi_free _ _ _ Hi). done.
  - intros b Hb. apply list_elem_of_In. apply list_elem_of_In, elem_of_app in Hb.
    assert (usable p b) as (i & -> & Hi').
    { destruct Hb as [(?&_)%(pi_free _ _ _ Hi)|[? _]%(pi_pend _ _ _ Hi)]; done. }
    apply list_elem_of_fmap_2, elem_of_seq. lia.
Qed.


Lemma wp_reset_hashes bs p : wp (for_each bs (λ b, on_store (reset_hash b))) p (λ _ q,
  q = set_store (store q) p ∧ num_free_blocks (store q) = num_free_blocks (store p) ∧
  ∀ x, deref (store q) x = if decide (x ∈ bs) then set_hash None (deref (store p) x) else deref (store p) x).
Proof.
  apply (wp_for_each (λ fin q, q = set_store (store q) p ∧ num_free_blocks (store q) = num_free_blocks (store p) ∧
    ∀ x, deref (store q) x = if decide (x ∈ fin) then set_hash None (deref (store p) x) else deref (store p) x)); [..|auto].
  - split_and!; [by destruct p|done|]. intros x. by rewrite decide_False by apply not_elem_of_nil.
  - intros fin b rest q _ (Eq & En & Ed). unfold on_store, reset_hash, wr. wp_steps. split_and!; [by rewrite Eq|done|].
    intros x. rewrite FreeQueue.deref_upd, !Ed.
    rewrite (decide_ext (x ∈ fin ++ [b]) (x ∈ fin ∨ x = b)) by set_solver +.
    destruct (decide (b = x)) as [<-|Hne].
    + rewrite (decide_True (P := b ∈ fin ∨ b = b)) by auto. by case_decide.
    + destruct (decide (x ∈ fin)); [by rewrite decide_True by auto|]. rewrite decide_False by naive_solver. done.
Qed.

Lemma all_free_length p l : pool_inv p l [] →
  num_free_blocks (store p) = Z.of_nat (num_gpu_blocks p) - 1 ↔ ∀ b, usable p b → ref_of p b = 0.
Proof.
  intros Hi. rewrite (fq_num _ _ (pi_rep _ _ _ Hi)). pose proof (pi_pos _ _ _ Hi).
  set (us := Blk <$> seq 1 (num_gpu_blocks p - 1)).
  assert (length us = num_gpu_blocks p - 1)%nat as Hus by (unfold us; rewrite length_fmap, length_seq; done).
  assert (∀ b, b ∈ us ↔ usable p b) as Hin.
  { intros b. unfold us, usable. rewrite list_elem_of_fmap. setoid_rewrite elem_of_seq.
    split; intros (i & -> & ?); exists i; (split; [done|lia]). }
  assert (NoDup us) as Hnu by (apply NoDup_fmap_2; [intros ???; by simplify_eq|apply NoDup_seq]).
  pose proof (fq_nodup _ _ (pi_rep _ _ _ Hi)) as Hnl. split.
  - intros E b Hb. assert (us ⊆ l) as Hsub.
    { intros x Hx%list_elem_of_In. apply list_elem_of_In.
      refine (NoDup_length_incl (l := l) (l' := us) _ _ _ x Hx); [by apply NoDup_ListNoDup|lia|].
      intros y (Hy&_)%list_elem_of_In%(pi_free _ _ _ Hi). by apply list_elem_of_In, Hin. }
    by destruct (proj1 (pi_free _ _ _ Hi b) (Hsub _ (proj2 (Hin b) Hb))) as (_&?&_).
  - intros H0. assert (l ≡ₚ us) as Hp; [|rewrite Hp; lia].
    apply NoDup_Permutation; [done..|]. intros b. rewrite Hin, (pi_free _ _ _ Hi).
    split; [by intros (?&_)|]. intros Hu. split_and!; [done|auto|set_solver +].
Qed.

(** [reset_prefix_cache] succeeds exactly when no block is referenced, and then no
    block is cached any more; otherwise nothing changes. *)
Lemma wp_reset_prefix_cache p l : pool_inv p l [] →
  wp reset_prefix_cache p (λ r p', pool_inv p' l [] ∧ same_cfg p p' ∧ (∀ x, ref_of p' x = ref_of p x) ∧
    if r then (∀ b, usable p b → ref_of p b = 0) ∧ (∀ b, hash_of p' b = None) ∧ cached_block_hash_to_block p' = ∅
    else p' = p ∧ ∃ b, usable p b ∧ ref_of p b ≠ 0).
Proof.
  intros Hi. unfold reset_prefix_cache. do 2 wp_step. pose proof (all_free_length p l Hi) as Hall.
  case_bool_decide as Hu.
  { wp_steps. split_and!; [done|reflexivity|done|done|].
    destruct (decide (Exists (λ b, ref_of p b ≠ 0) (Blk <$> seq 1 (num_gpu_blocks p - 1)))) as [(b&Hb&?)%Exists_exists|Hn].
    - exists b. split; [|done]. apply list_elem_of_fmap in Hb as (i & -> & Hin%elem_of_seq). exists i. split; [done|lia].
    - exfalso. apply Hu. enough (num_free_blocks (store p) = Z.of_nat (num_gpu_blocks p) - 1) by lia. apply Hall.
      intros b (i & -> & Hin). destruct (decide (ref_of p (Blk i) = 0)); [done|]. exfalso. apply Hn, Exists_exists.
      exists (Blk i). split; [|done]. apply list_elem_of_fmap_2, elem_of_seq. lia. }
  do 3 wp_step. eapply wp_mono; [apply wp_reset_hashes|]. intros _ q (Eq & En & Ed).
  assert (∀ b, hash_of q b = None) as Hq.
  { intros b. unfold hash_of. rewrite Ed. case_decide as Hb; [done|].
    destruct (block_hash _) eqn:E; [|done]. exfalso. apply Hb.
    destruct (pi_hash _ _ _ Hi b) as (i & -> & ?); [by eexists|]. unfold pool_blocks. apply list_elem_of_fmap_2, elem_of_seq. lia. }
  assert (∀ x, bid_of q x = bid_of p x ∧ null_of q x = null_of p x ∧ ref_of q x = ref_of p x) as Hsame.
  { intros x. unfold bid_of, null_of, ref_of. rewrite Ed. by case_decide. }
  assert (∀ e, pool_inv (set_events e q) l []) as He.
  { intros e. assert (∀ x, usable (set_events e q) x ↔ usable p x) as Hus by (intros x; rewrite Eq; done).
    rewrite Eq in Hus |- *. split; try apply Hi; intros *; simpl.
    - eapply fq_frame; [apply Hi|done|]. intros r. rewrite Ed. simpl. by case_decide.
    - rewrite Hus. destruct (Hsame b) as (_&_&Er). rewrite Eq in Er. unfold ref_of in *. simpl in *. rewrite Er. apply Hi.
    - rewrite Hus. destruct (Hsame b) as (_&_&Er). rewrite Eq in Er. unfold ref_of in *. simpl in *. rewrite Er. apply Hi.
    - rewrite Hus. destruct (Hsame b) as (_&_&Er). rewrite Eq in Er. unfold ref_of in *. simpl in *. rewrite Er. apply Hi.
    - destruct (Hsame (Blk i)) as (Er&_). rewrite Eq in Er. unfold bid_of in *. simpl in *. rewrite Er. apply Hi.
    - destruct (Hsame (Blk i)) as (_&Er&_). rewrite Eq in Er. unfold null_of in *. simpl in *. rewrite Er. apply Hi.
    - specialize (Hq b). rewrite Eq in Hq. unfold hash_of in *. simpl in *. rewrite Hq. by intros [? [=]].
    - apply CacheRel.cache_rel_empty. intros b. specialize (Hq b). rewrite Eq in Hq. done. }
  pose proof (He (kv_event_queue q)) as He0. replace (set_events (kv_event_queue q) q) with q in He0 by (by destruct q).
  assert (∀ b, usable p b → ref_of p b = 0) as H0 by (apply Hall; lia).
  assert (same_cfg p q) as Hc by (rewrite Eq; done). assert (cached_block_hash_to_block q = ∅) as Hm by (rewrite Eq; done).
  unfold add_event. case_match; wp_steps; split_and!; (done || (intros; apply Hsame) || apply He).
Qed.

(** *** Construction *)

Lemma deref_fresh n c b : deref (mkStore (fresh_objs n) c) b =
  match b with Blk i => if decide (i < n)%nat then new_block (Z.of_nat i) else new_block (-1) | _ => new_block (-1) end.
Proof.
  unfold deref, fresh_objs. simpl. rewrite lookup_total_alt.
  destruct (list_to_map _ !! b) as [v|] eqn:E; simpl.
  - apply elem_of_list_to_map_2, list_elem_of_fmap in E as (i & [= -> ->] & Hi%elem_of_seq).
    by rewrite decide_True by lia.
  - apply not_elem_of_list_to_map in E. destruct b as [| |i]; try done. case_decide; [|done].
    exfalso. apply E. rewrite <-list_fmap_compose. apply list_elem_of_fmap. exists i. split; [done|]. apply elem_of_seq. lia.
Qed.

(** The queue the constructor builds, without the null block *)
Lemma wp_init_queue n c : (0 < n)%nat → let s0 := mkStore (fresh_objs n) c in
  wp (FreeQueue.init (pool_blocks n) ;; nb ← FreeQueue.popleft; wr nb set_null ;; mret nb) s0 (λ r s,
    r = Blk 0 ∧ R s (Blk <$> seq 1 (n - 1)) ∧
    (block_hash (deref s FakeHead) = None ∧ block_hash (deref s FakeTail) = None) ∧
    ∀ b, b ≠ FakeHead → b ≠ FakeTail → FreeQueue.meta (deref s b) =
      FreeQueue.meta ((if decide (b = Blk 0) then set_null else id) (deref s0 b))).
Proof.
  intros Hn s0.
  assert (pool_blocks n = Blk 0 :: (Blk <$> seq 1 (n - 1))) as Epb.
  { unfold pool_blocks. destruct n as [|n]; [lia|]. simpl. by rewrite Nat.sub_0_r. }
  wp_step. eapply wp_mono; [apply (fq_init (R := R))|].
  - rewrite !NoDup_cons. unfold pool_blocks. split_and!; [set_solver +..|].
    apply NoDup_fmap_2; [intros ???; by simplify_eq|apply NoDup_seq].
  - intros b H1 H2. unfold s0. rewrite deref_fresh. destruct b; repeat case_decide; done.
  - intros _ s1 (HR1 & Hh & Ht & Hm1). wp_step. rewrite Epb in HR1. eapply wp_mono; [by apply (fq_popleft (R := R))|].
    intros ? s2 (-> & HR2 & Hm2). unfold wr. wp_steps. split_and!; [done|..].
    + eapply fq_frame; [done|done|]. intros r. rewrite FreeQueue.deref_upd. case_decide; by subst.
    + rewrite FreeQueue.deref_upd, decide_False by done. pose proof (Hm2 FakeHead) as [= _ _ -> _]. done.
    + rewrite FreeQueue.deref_upd, decide_False by done. pose proof (Hm2 FakeTail) as [= _ _ -> _]. done.
    + intros b H1 H2. rewrite FreeQueue.deref_upd. pose proof (Hm2 b) as E. rewrite Hm1 in E by done.
      destruct (decide (Blk 0 = b)) as [<-|Hne]; [rewrite decide_True by done|rewrite decide_False by done; done].
      injection E as E1 E2 E3 E4. unfold FreeQueue.meta. simpl. congruence.
Qed.

Lemma BlockPool_init_ok n caching events use_int : (0 < n)%nat →
  ∃ p, BlockPool_init n caching events use_int = Ok p ∧ pool_inv p (Blk <$> seq 1 (n - 1)) [] ∧
    num_gpu_blocks p = n ∧ enable_caching p = caching ∧ null_block p = Blk 0 ∧ enable_kv_cache_events p = events ∧
    (∀ b, hash_of p b = None) ∧ (∀ b, usable p b → ref_of p b = 0).
Proof.
  intros Hn. unfold BlockPool_init. rewrite bool_decide_false by lia.
  set (s0 := mkStore _ _). set (free := Blk <$> seq 1 (n - 1)).
  pose proof (wp_init_queue n 0 Hn) as Hwp. fold s0 free in Hwp.
  apply wp_ok in Hwp as (? & s & -> & -> & HR & [Hh Ht] & Hm). eexists. split; [done|].
  set (p := mkPool _ _ _ _ _ _ _ _).
  assert (∀ b, hash_of p b = None ∧ (b ≠ FakeHead → b ≠ FakeTail → ref_of p b = 0)) as Hz.
  { intros b. unfold hash_of, ref_of, p. simpl. destruct (decide (b = FakeHead)) as [->|]; [done|].
    destruct (decide (b = FakeTail)) as [->|]; [done|]. pose proof (Hm b ltac:(done) ltac:(done)) as E.
    unfold s0 in E. rewrite deref_fresh in E. destruct b; try done. injection E as E1 E2 E3 E4. rewrite E2, E3.
    repeat case_decide; by simplify_eq. }
  assert (∀ i, (i < n)%nat → bid_of p (Blk i) = Z.of_nat i ∧ null_of p (Blk i) = bool_decide (i = 0%nat)) as Hid.
  { intros i Hi. unfold bid_of, null_of, p. simpl. pose proof (Hm (Blk i) ltac:(done) ltac:(done)) as E. unfold s0 in E. rewrite deref_fresh in E.
    rewrite (decide_True (P := (i < n)%nat)) in E by done.
    injection E as E1 E2 E3 E4. rewrite E1, E4. case_decide; case_bool_decide; simplify_eq; done. }
  split_and!; [|done..|apply Hz|intros b Hu; destruct (usable_fake _ _ Hu); by apply Hz].
  split; try done; intros *.
  - unfold free. rewrite list_elem_of_fmap. setoid_rewrite elem_of_seq. split.
    + intros (i & -> & ?). split_and!; [exists i; split; [done|simpl; lia]|by apply Hz|set_solver +].
    + intros ((i & -> & ?) & _). exists i. simpl in *. split; [done|lia].
  - set_solver +.
  - intros Hu. destruct (usable_fake _ _ Hu). by rewrite (proj2 (Hz b)).
  - apply Hid.
  - apply Hid.
  - rewrite (proj1 (Hz b)). by intros [? [=]].
  - apply CacheRel.cache_rel_empty. apply Hz.
Qed.
End pool.

(** ** Clients of the pool

    A client is seen through the multiset [held] of references it owns.  One step is
    one call; [pool_legal] is what clients respect: only blocks that are held, cached
    or null are touched, and only held blocks are given back, at most once per call. *)
Inductive pool_op :=
  | OGet (n : Z)
  | OTouch (bss : list (list bref))
  | OFree (bs : list bref)
  | OCache (request : Request) (blocks : list bref) (nc nf bs : Z) (g : nat)
  | OReset.

Definition pool_legal (p : BlockPool) (held : list bref) (o : pool_op) : Prop :=
  match o with
  | OGet n => 0 ≤ n
  | OTouch bss => ∀ b, b ∈ concat bss → b ∈ held ∨ is_Some (hash_of p b) ∨ b = null_block p
  | OFree bs => (∃ rest, held ≡ₚ bs ++ rest) ∧ ∀ b, b ≠ null_block p → occ b bs ≤ 1
  | OCache request blocks nc nf _ g => Z.of_nat g < 2 ^ 32 ∧ cacheable p request blocks nc nf
  | OReset => True
  end.

Definition pool_run (o : pool_op) : M BlockPool (list bref) :=
  match o with
  | OGet n => get_new_blocks n
  | OTouch bss => touch bss ;; mret []
  | OFree bs => free_blocks bs ;; mret []
  | OCache request blocks nc nf bs g => cache_full_blocks request blocks nc nf bs g ;; mret []
  | OReset => reset_prefix_cache ;; mret []
  end.

(** The references owned after a call that returned [r] *)
Definition held_after (o : pool_op) (r : result (list bref)) (held held' : list bref) : Prop :=
  match r, o with
  | Ok got, OGet _ => held' = got ++ held
  | Ok _, OTouch bss => held' = concat bss ++ held
  | Ok _, OFree bs => held ≡ₚ bs ++ held'
  | _, _ => held' = held
  end.

Inductive pool_reachable (n : nat) (caching events use_int : bool) : BlockPool → list bref → Prop :=
  | reach_init p : BlockPool_init n caching events use_int = Ok p → pool_reachable n caching events use_int p []
  | reach_step p held o r p' held' :
      pool_reachable n caching events use_int p held →
      pool_legal p held o → pool_run o p = (r, p') → held_after o r held held' →
      pool_reachable n caching events use_int p' held'.

Section clients.
Context (R : Store → list bref → Prop) `{!FreeQueueLaws R}.

Definition pool_ok (p : BlockPool) (held : list bref) : Prop :=
  ∃ l, pool_inv R p l [] ∧ (∀ b, b ∈ held → holdable p b) ∧ ∀ b, usable p b → ref_of p b = occ b held.

Lemma pool_ok_step p p' l' held' : same_cfg p p' → pool_inv R p' l' [] →
  (∀ b, b ∈ held' → holdable p b) → (∀ b, usable p b → ref_of p' b = occ b held') → pool_ok p' held'.
Proof.
  intros Hc Hi Hh Hr. exists l'. split_and!; [done|..].
  - intros b Hb. rewrite (holdable_cfg _ _ _ Hc). auto.
  - intros b Hb. rewrite (usable_cfg _ _ _ Hc) in Hb. auto.
Qed.

Lemma touchable p l held bss b : pool_inv R p l [] → (∀ b, b ∈ held → holdable p b) →
  pool_legal p held (OTouch bss) → b ∈ concat bss → holdable p b.
Proof.
  intros Hi Hh Hl Hb. destruct (Hl b Hb) as [?|[?| ->]]; [auto|left; by apply (pi_hash _ _ _ _ Hi)|by right].
Qed.

Lemma pool_step_ok p held o : pool_ok p held → pool_legal p held o →
  (∃ n, o = OGet n ∧ num_free_blocks (store p) < n ∧ pool_run o p = (Raise ValueError, p)) ∨
  wp (pool_run o) p (λ r p', ∀ held', held_after o (Ok r) held held' → pool_ok p' held').
Proof.
  intros (l & Hi & Hh & Hr) Hl. destruct o as [n|bss|bs|rq blocks nc nf bs g|]; simpl in *.
  - rewrite (fq_num _ _ (pi_rep _ _ _ _ Hi)). destruct (decide (Z.of_nat (length l) < n)) as [Hn|Hn].
    { left. exists n. split_and!; [done|done|]. by apply (get_new_blocks_short R p l). }
    right. eapply wp_mono; [apply (wp_get_new_blocks R); [done|lia]|].
    intros r p' (l' & -> & _ & Hi' & Hc & Hr' & _) held' ->. eapply pool_ok_step; [done..| |].
    + intros b [Hb|Hb]%elem_of_app; [|auto]. left. apply (pi_free _ _ _ _ Hi). set_solver +Hb.
    + intros b Hb. rewrite Hr', occ_app, Hr by done. lia.
  - right. wp_step. eapply wp_mono; [apply (wp_touch R); [done|]|].
    { intros b. by eapply touchable. }
    intros [] p' (Hi' & Hc & Hr' & _). wp_steps. intros held' ->. eapply pool_ok_step; [done..| |].
    + intros b [Hb|Hb]%elem_of_app; [by eapply touchable|auto].
    + intros b Hb. rewrite Hr', occ_app, Hr by done. lia.
  - right. destruct Hl as [(rest & Hp) Hocc]. wp_step. eapply wp_mono; [apply (wp_free_blocks R); [done|..]|].
    + intros b Hb. apply Hh. rewrite Hp. set_solver +Hb.
    + intros b Hb. pose proof (occ_nonneg b rest). rewrite Hr, Hp, occ_app by done. split; [|lia]. apply Hocc.
      intros ->. by apply (null_not_usable _ _ _ _ Hi).
    + intros [] p' (Hi' & Hc & Hr' & _). wp_steps. intros held' Hp'. eapply pool_ok_step; [done..| |].
      * intros b Hb. apply Hh. rewrite Hp'. set_solver +Hb.
      * intros b Hb. rewrite Hr', Hr by done. rewrite Hp', occ_app. lia.
  - right. destruct Hl as [Hg Hca]. wp_step. eapply wp_mono; [by apply (wp_cache_full_blocks R)|].
    intros [] p' (Hi' & Hc & Hr' & _). wp_steps. intros held' ->. eapply pool_ok_step; [done..|auto|].
    intros b Hb. rewrite Hr'. auto.
  - right. wp_step. eapply wp_mono; [by apply (wp_reset_prefix_cache R)|].
    intros r p' (Hi' & Hc & Hr' & _). wp_steps. intros held' ->. eapply pool_ok_step; [done..|auto|].
    intros b Hb. rewrite Hr'. auto.
Qed.

Lemma reachable_ok n caching events use_int p held :
  pool_reachable n caching events use_int p held → pool_ok p held.
Proof.
  induction 1 as [p Hinit|p held o r p' held' _ IH Hl Hrun Hheld].
  - destruct (decide (n = 0%nat)) as [->|Hn]; [done|].
    destruct (BlockPool_init_ok R n caching events use_int) as (p0 & E & Hi & _ & _ & _ & _ & _ & Hz); [lia|].
    rewrite E in Hinit. simplify_eq. exists (Blk <$> seq 1 (n - 1)). split_and!; [done|set_solver +|].
    intros b Hu. rewrite occ_nil. by apply Hz.
  - destruct (pool_step_ok _ _ _ IH Hl) as [(k & -> & _ & E)|Hwp].
    + rewrite E in Hrun. simplify_eq/=. done.
    + apply wp_ok in Hwp as (r' & p1 & E & Hp). rewrite E in Hrun. simplify_eq. auto.
Qed.
End clients.

(** ** Properties *)

(** A pool of four blocks after [get_new_blocks(2)], caching one of the two blocks
    and freeing the other. *)
Definition demo_request : Request :=
  match demo_new [7; 8] with
  | Ok r => r
  | Raise _ => mkRequest ""%string 0 0 None None None None false 0 WAITING [] None None 0 None None 0 [] [] 0 [] 0 None [] 0 0 0 0 [] false
  end.
Definition demo_pool0 : BlockPool :=
  match BlockPool_init 4 true true false with
  | Ok p => p
  | Raise _ => mkPool 0 false (mkStore ∅ 0) ∅ FakeHead false false []
  end.
Definition demo_pool (ops : list pool_op) : BlockPool := foldl (λ p o, (pool_run o p).2) demo_pool0 ops.
Definition demo_ops : list pool_op := [OGet 2; OCache demo_request [Blk 1] 0 1 2 0; OFree [Blk 2]].

Lemma demo_cacheable : cacheable (demo_pool [OGet 2]) demo_request [Blk 1] 0 1.
Proof.
  split; try (vm_compute; congruence).
  - apply (bool_decide_unpack _). vm_compute. exact I.
  - intros b Hb. change (b ∈ [Blk 1]) in Hb. apply list_elem_of_singleton in Hb as ->.
    split; [|vm_compute; reflexivity]. apply (bool_decide_unpack _). vm_compute. exact I.
Qed.

Lemma demo_reachable : pool_reachable 4 true true false (demo_pool demo_ops) [Blk 1].
Proof.
  eapply (reach_step _ _ _ _ (demo_pool [OGet 2; OCache demo_request [Blk 1] 0 1 2 0]) [Blk 1; Blk 2] (OFree [Blk 2]) (Ok [])).
  - eapply (reach_step _ _ _ _ (demo_pool [OGet 2]) [Blk 1; Blk 2] (OCache demo_request [Blk 1] 0 1 2 0) (Ok [])).
    + eapply (reach_step _ _ _ _ (demo_pool []) [] (OGet 2) (Ok [Blk 1; Blk 2])).
      * apply reach_init. vm_compute. reflexivity.
      * simpl. lia.
      * vm_compute. reflexivity.
      * reflexivity.
    + split; [lia|apply demo_cacheable].
    + vm_compute. reflexivity.
    + reflexivity.
  - split; [exists [Blk 1]; apply perm_swap|]. intros b _. rewrite occ_cons, occ_nil. case_decide; lia.
  - vm_compute. reflexivity.
  - apply perm_swap.
Qed.

Lemma free_enumerated p l : pool_inv FreeQueue.rep p l [] →
  FreeQueue.get_all_free_blocks (S (num_gpu_blocks p)) (store p) = (Ok l, store p).
Proof.
  intros Hi. pose proof (length_pool_blocks _ _ _ _ Hi (NoDup_nil_2)) as Hlen. simpl in Hlen.
  destruct (proj1 (wp_ok _ _ _) (FreeQueue.wp_get_all_free_blocks _ l (S (num_gpu_blocks p)) (pi_rep _ _ _ _ Hi) ltac:(lia)))
    as (? & ? & E & -> & ->). done.
Qed.

(** C24. Every state the clients can reach is consistent: the reference count of each
    non-null block is the number of references held, the free queue enumerates exactly
    the blocks nobody holds and its counter is right, and the prefix-cache index lists
    a block under a key exactly when the block carries that hash. *)
Theorem pool_reachable_consistent n caching events use_int p held :
  pool_reachable n caching events use_int p held →
  (∀ b, usable p b → ref_of p b = occ b held) ∧
  (∃ l, FreeQueue.get_all_free_blocks (S (num_gpu_blocks p)) (store p) = (Ok l, store p) ∧ NoDup l ∧
     num_free_blocks (store p) = Z.of_nat (length l) ∧ ∀ b, b ∈ l ↔ usable p b ∧ b ∉ held) ∧
  (∀ k b, b ∈ CacheRel.entry_blocks (cached_block_hash_to_block p !! k) ↔ hash_of p b = Some k) ∧
  (∀ b, is_Some (hash_of p b) → usable p b).
Proof.
  intros (l & Hi & Hh & Hr)%(reachable_ok FreeQueue.rep). split_and!; [done| |apply Hi|apply Hi].
  exists l. pose proof (pi_rep _ _ _ _ Hi) as HR.
  split_and!; [by apply free_enumerated|by eapply fq_nodup|by apply fq_num|].
  intros b. rewrite (pi_free _ _ _ _ Hi). split.
  - intros (Hu & Hz & _). split; [done|]. by rewrite Hr, occ_zero in Hz.
  - intros [Hu Hn]. split_and!; [done|by rewrite Hr, occ_zero|set_solver +].
Qed.

Lemma pool_reachable_consistent_witness :
  (∀ b, usable (demo_pool demo_ops) b → ref_of (demo_pool demo_ops) b = occ b [Blk 1]) ∧
  (∃ l, FreeQueue.get_all_free_blocks 5 (store (demo_pool demo_ops)) = (Ok l, store (demo_pool demo_ops)) ∧ NoDup l ∧
     num_free_blocks (store (demo_pool demo_ops)) = Z.of_nat (length l) ∧ ∀ b, b ∈ l ↔ usable (demo_pool demo_ops) b ∧ b ∉ [Blk 1]) ∧
  (∀ k b, b ∈ CacheRel.entry_blocks (cached_block_hash_to_block (demo_pool demo_ops) !! k) ↔ hash_of (demo_pool demo_ops) b = Some k) ∧
  (∀ b, is_Some (hash_of (demo_pool demo_ops) b) → usable (demo_pool demo_ops) b).
Proof. exact (pool_reachable_consistent 4 true true false _ _ demo_reachable). Defined.

(** C39. No call a client makes can trip an internal assertion.  In a reachable
    state every legal call returns, except [get_new_blocks(n)] with fewer than [n] free
    blocks, which raises [ValueError] and changes nothing; a successful
    [get_new_blocks(n)] returns the [n] blocks at the front of the queue, distinct,
    held by nobody, and evicted from the prefix cache. *)
Theorem pool_calls_succeed n caching events use_int p held o :
  pool_reachable n caching events use_int p held → pool_legal p held o →
  match pool_run o p with
  | (Ok r, p') =>
      match o with
      | OGet k => Z.of_nat (length r) = k ∧ NoDup r ∧
          (∀ b, b ∈ r → usable p b ∧ b ∉ held ∧ ref_of p' b = 1 ∧ (enable_caching p = true → hash_of p' b = None)) ∧
          ∃ l, FreeQueue.get_all_free_blocks (S (num_gpu_blocks p)) (store p) = (Ok l, store p) ∧ r = take (length r) l
      | _ => r = []
      end
  | (Raise e, p') => p' = p ∧ e = ValueError ∧ ∃ k, o = OGet k ∧ num_free_blocks (store p) < k
  end.
Proof.
  intros Hok%(reachable_ok FreeQueue.rep) Hl.
  destruct (pool_step_ok _ _ _ _ Hok Hl) as [(k & -> & Hk & ->)|Hwp]; [eauto|].
  destruct o as [k|bss|bs|rq blocks nc nf bs g|];
    try (simpl in Hwp |- *; unfold wp, mbind, M_bind in Hwp |- *;
         match goal with |- context [match ?c p with _ => _ end] => destruct (c p) as [[?|?] ?] end; done).
  destruct Hok as (l & Hi & Hh & Hr). simpl in Hl, Hwp |- *.
  pose proof (pi_rep _ _ _ _ Hi) as HR.
  destruct (decide (Z.of_nat (length l) < k)) as [Hn|Hn].
  { unfold wp in Hwp. by rewrite (get_new_blocks_short FreeQueue.rep p l) in Hwp. }
  destruct (proj1 (wp_ok _ _ _) (wp_get_new_blocks FreeQueue.rep p l k Hi ltac:(lia)))
    as (r & p' & -> & l' & El & Hlen & Hi' & Hc & Hr' & Hh').
  assert (NoDup r) as Hnd.
  { pose proof (fq_nodup _ _ HR) as Hnd. rewrite El in Hnd. by apply NoDup_app in Hnd as (?&_). }
  split_and!; [done|done|..].
  - intros b Hb. destruct (proj1 (pi_free _ _ _ _ Hi b)) as (Hu & Hz & _); [rewrite El; set_solver +Hb|].
    split_and!; [done|by rewrite Hr, occ_zero in Hz| |].
    + by rewrite Hr', Hz, occ_NoDup, decide_True by done.
    + intros Hc'. rewrite Hh'. unfold claimed_hash. by rewrite decide_True, Hc' by done.
  - exists l. split; [by apply (free_enumerated p l)|]. by rewrite El, take_app_length.
Qed.

Lemma pool_calls_succeed_witness :
  pool_legal (demo_pool demo_ops) [Blk 1] (OGet 2) ∧
  match pool_run (OGet 2) (demo_pool demo_ops) with
  | (Ok r, p') => Z.of_nat (length r) = 2 ∧ NoDup r ∧
          (∀ b, b ∈ r → usable (demo_pool demo_ops) b ∧ b ∉ [Blk 1] ∧ ref_of p' b = 1 ∧
             (enable_caching (demo_pool demo_ops) = true → hash_of p' b = None)) ∧
          ∃ l, FreeQueue.get_all_free_blocks 5 (store (demo_pool demo_ops)) = (Ok l, store (demo_pool demo_ops)) ∧ r = take (length r) l
  | (Raise e, p') => p' = demo_pool demo_ops ∧ e = ValueError ∧ ∃ k, OGet 2 = OGet k ∧ num_free_blocks (store (demo_pool demo_ops)) < k
  end.
Proof.
  split; [simpl; lia|].
  exact (pool_calls_succeed 4 true true false (demo_pool demo_ops) [Blk 1] (OGet 2) demo_reachable ltac:(simpl; lia)).
Defined.

(** A prefix-cache lookup is exact.  For group ids that fit a key,
    [get_cached_block] returns normally without changing the pool; it returns one
    block per group, each carrying the looked-up hash for its group, and it returns
    [None] only if some group has no such block. *)
Theorem get_cached_block_exact n caching events use_int p held h gids :
  pool_reachable n caching events use_int p held → Forall (λ g, Z.of_nat g < 2 ^ 32) gids →
  match get_cached_block h gids p with
  | (Ok (Some bs), p') => p' = p ∧
      Forall2 (λ g b, make_block_hash_with_group_id h g = from_option Ok (Raise KeyError) (hash_of p b) ∧ usable p b) gids bs
  | (Ok None, p') => p' = p ∧ ∃ g, g ∈ gids ∧ ∀ b, from_option Ok (Raise KeyError) (hash_of p b) ≠ make_block_hash_with_group_id h g
  | (Raise _, _) => False
  end.
Proof.
  intros (l & Hi & _ & _)%(reachable_ok FreeQueue.rep) Hg. rewrite Forall_forall in Hg.
  destruct (proj1 (wp_ok _ _ _) (wp_get_cached_block FreeQueue.rep p l [] h gids Hi Hg)) as (r & p' & -> & -> & Hr).
  destruct r as [bs|]; (split; [done|]).
  - apply Forall2_same_length_lookup. apply Forall2_same_length_lookup in Hr as [Hlen Hr]. split; [done|].
    intros i g b Eg Eb. rewrite make_block_hash_ok by (by eapply Hg, list_elem_of_lookup_2). rewrite (Hr i g b Eg Eb).
    split; [done|]. apply (pi_hash _ _ _ _ Hi). rewrite (Hr i g b Eg Eb). by eexists.
  - destruct Hr as (g & Hgin & Hb). exists g. split; [done|]. intros b E. rewrite make_block_hash_ok in E by auto.
    destruct (hash_of p b) as [k|] eqn:Ek; simpl in E; [|done]. injection E as ->. by apply (Hb b).
Qed.

Lemma get_cached_block_exact_witness :
  match get_cached_block [Byte.x09] [0%nat; 1%nat] (demo_pool demo_ops) with
  | (Ok (Some bs), p') => p' = demo_pool demo_ops ∧
      Forall2 (λ g b, make_block_hash_with_group_id [Byte.x09] g = from_option Ok (Raise KeyError) (hash_of (demo_pool demo_ops) b) ∧
        usable (demo_pool demo_ops) b) [0%nat; 1%nat] bs
  | (Ok None, p') => p' = demo_pool demo_ops ∧ ∃ g, g ∈ [0%nat; 1%nat] ∧
      ∀ b, from_option Ok (Raise KeyError) (hash_of (demo_pool demo_ops) b) ≠ make_block_hash_with_group_id [Byte.x09] g
  | (Raise _, _) => False
  end.
Proof.
  apply (get_cached_block_exact 4 true true false (demo_pool demo_ops) [Blk 1] [Byte.x09] [0%nat; 1%nat] demo_reachable).
  repeat constructor; lia.
Defined.

(** [reset_prefix_cache] succeeds exactly when no client holds a block of the
    pool; then no block is cached under any key, and otherwise nothing changes. *)
Theorem reset_prefix_cache_exact n caching events use_int p held :
  pool_reachable n caching events use_int p held →
  match reset_prefix_cache p with
  | (Ok true, p') => (∀ b, usable p b → b ∉ held) ∧ (∀ b, hash_of p' b = None) ∧ cached_block_hash_to_block p' = ∅ ∧
      pool_reachable n caching events use_int p' held
  | (Ok false, p') => p' = p ∧ ∃ b, usable p b ∧ b ∈ held
  | (Raise _, _) => False
  end.
Proof.
  intros Hreach. destruct (reachable_ok FreeQueue.rep _ _ _ _ _ _ Hreach) as (l & Hi & _ & Hr).
  destruct (proj1 (wp_ok _ _ _) (wp_reset_prefix_cache FreeQueue.rep p l Hi)) as (r & p' & E & Hi' & Hc & _ & Hres).
  rewrite E. destruct r.
  - destruct Hres as (H0 & Hh & Hm). split_and!; [|done|done|].
    + intros b Hu. apply occ_zero. rewrite <-Hr by done. by apply H0.
    + apply (reach_step _ _ _ _ p held OReset (Ok [])); [done|done| |done]. simpl. unfold mbind, M_bind. by rewrite E.
  - destruct Hres as (-> & b & Hu & Hb). split; [done|]. exists b. split; [done|]. apply occ_pos.
    pose proof (occ_nonneg b held). rewrite Hr in Hb by done. lia.
Qed.

Lemma reset_prefix_cache_exact_witness :
  match reset_prefix_cache (demo_pool demo_ops) with
  | (Ok true, p') => (∀ b, usable (demo_pool demo_ops) b → b ∉ [Blk 1]) ∧ (∀ b, hash_of p' b = None) ∧
      cached_block_hash_to_block p' = ∅ ∧ pool_reachable 4 true true false p' [Blk 1]
  | (Ok false, p') => p' = demo_pool demo_ops ∧ ∃ b, usable (demo_pool demo_ops) b ∧ b ∈ [Blk 1]
  | (Raise _, _) => False
  end.
Proof. exact (reset_prefix_cache_exact 4 true true false (demo_pool demo_ops) [Blk 1] demo_reachable). Defined.
