(* ===== verification/KVCacheInterface.v ===== *)
(** * vllm/v1/kv_cache_interface.py: the formats of the KV cache

    The dataclasses that describe the cache of one layer, their page and memory
    sizes, and the merging of the layers of a group into one spec. *)

From stdpp Require Import base tactics option list gmap strings.
From Stdlib Require Import ZArith Lia.
From S2P Require Import Prelude.
Local Open Scope Z_scope.

(** [vllm.utils.math_utils.cdiv] *)
Definition cdiv (a b : Z) : Z := - (a / - b).

Lemma cdiv_spec a b : 0 < b → cdiv a b = (a + b - 1) / b.
Proof.
  intros Hb. unfold cdiv. pose proof (Z.div_mod a (- b) ltac:(lia)). pose proof (Z.mod_neg_bound a (- b) ltac:(lia)).
  apply Z.div_unique with (r := a mod (- b) + b - 1); lia.
Qed.

Lemma cdiv_bounds a b : 0 < b → (cdiv a b - 1) * b < a ≤ cdiv a b * b.
Proof.
  intros Hb. rewrite cdiv_spec by done. pose proof (Z.div_mod (a + b - 1) b ltac:(lia)).
  pose proof (Z.mod_pos_bound (a + b - 1) b Hb). nia.
Qed.

Lemma cdiv_le a b c : 0 < b → cdiv a b ≤ c ↔ a ≤ c * b.
Proof. intros Hb. pose proof (cdiv_bounds a b Hb). split; nia. Qed.

Lemma cdiv_mono a a' b : 0 < b → a ≤ a' → cdiv a b ≤ cdiv a' b.
Proof. intros Hb Ha. apply cdiv_le; [done|]. pose proof (cdiv_bounds a' b Hb). lia. Qed.

Lemma cdiv_nonneg a b : 0 < b → 0 ≤ a → 0 ≤ cdiv a b.
Proof. intros Hb Ha. pose proof (cdiv_bounds a b Hb). nia. Qed.

(** ** The specs *)

(** The fields of [AttentionSpec]; a [torch.dtype] is named by a string. *)
Record AttentionFields := mkAttn { num_kv_heads : Z; head_size : Z; dtype : string }.

Inductive KVCacheSpec :=
  | FullAttentionSpec (block_size : Z) (a : AttentionFields) (sliding_window attention_chunk_size : option Z)
  | MLAAttentionSpec (block_size : Z) (a : AttentionFields) (sliding_window attention_chunk_size : option Z)
      (cache_dtype_str : option string)
  | ChunkedLocalAttentionSpec (block_size : Z) (a : AttentionFields) (attention_chunk_size : Z)
  | SlidingWindowSpec (block_size : Z) (a : AttentionFields) (sliding_window : Z)
  | MambaSpec (block_size : Z) (shapes : list (list Z)) (dtypes : list string) (page_size_padded : option Z)
      (mamba_type : string) (num_speculative_blocks : Z)
  | EncoderOnlyAttentionSpec (block_size : Z) (a : AttentionFields)
  | CrossAttentionSpec (block_size : Z) (a : AttentionFields).

#[export] Instance AttentionFields_eq_dec : EqDecision AttentionFields.
Proof. solve_decision. Defined.
(** The generated [__eq__] of the dataclasses: same class and equal fields. *)
#[export] Instance KVCacheSpec_eq_dec : EqDecision KVCacheSpec.
Proof. solve_decision. Defined.

Definition spec_block_size (s : KVCacheSpec) : Z :=
  match s with
  | FullAttentionSpec bs _ _ _ | MLAAttentionSpec bs _ _ _ _ | ChunkedLocalAttentionSpec bs _ _
  | SlidingWindowSpec bs _ _ | MambaSpec bs _ _ _ _ _ | EncoderOnlyAttentionSpec bs _ | CrossAttentionSpec bs _ => bs
  end.

Definition copy_with_new_block_size (s : KVCacheSpec) (bs : Z) : KVCacheSpec :=
  match s with
  | FullAttentionSpec _ a w c => FullAttentionSpec bs a w c
  | MLAAttentionSpec _ a w c d => MLAAttentionSpec bs a w c d
  | ChunkedLocalAttentionSpec _ a c => ChunkedLocalAttentionSpec bs a c
  | SlidingWindowSpec _ a w => SlidingWindowSpec bs a w
  | MambaSpec _ sh dt pad ty n => MambaSpec bs sh dt pad ty n
  | EncoderOnlyAttentionSpec _ a => EncoderOnlyAttentionSpec bs a
  | CrossAttentionSpec _ a => CrossAttentionSpec bs a
  end.

(** [isinstance(spec, FullAttentionSpec)]: [MLAAttentionSpec] is a subclass. *)
Definition is_full (s : KVCacheSpec) : bool :=
  match s with FullAttentionSpec _ _ _ _ | MLAAttentionSpec _ _ _ _ _ => true | _ => false end.
Definition is_mla (s : KVCacheSpec) : bool := match s with MLAAttentionSpec _ _ _ _ _ => true | _ => false end.
Definition is_cross (s : KVCacheSpec) : bool := match s with CrossAttentionSpec _ _ => true | _ => false end.

(** The configuration values the sizes depend on *)
Record VllmConfig := mkVllmConfig {
  max_model_len : Z;
  decode_context_parallel_size : Z;
  prefill_context_parallel_size : Z;
  max_num_batched_tokens : Z;
  max_num_encoder_input_tokens : Z;
}.

Section sizes.
(** [get_dtype_size]: asks torch for the element size of a dtype. *)
Context (dtype_size : string → Z).

Definition prod (shape : list Z) : Z := foldl Z.mul 1 shape.

Definition mamba_page_size (shapes : list (list Z)) (dtypes : list string) : Z :=
  foldl Z.add 0 (zip_with (λ shape d, prod shape * dtype_size d) shapes dtypes).

Definition page_size_bytes (s : KVCacheSpec) : result Z :=
  match s with
  | MLAAttentionSpec bs a _ _ cache_dtype_str =>
      if bool_decide (cache_dtype_str = Some "fp8_ds_mla"%string) then Ok (bs * 656)
      else Ok (bs * num_kv_heads a * head_size a * dtype_size (dtype a))
  | MambaSpec _ shapes dtypes page_size_padded _ _ =>
      let page_size := mamba_page_size shapes dtypes in
      match page_size_padded with
      | Some padded => if page_size <=? padded then Ok padded else Raise AssertionError
      | None => Ok page_size
      end
  | FullAttentionSpec bs a _ _ | ChunkedLocalAttentionSpec bs a _ | SlidingWindowSpec bs a _
  | EncoderOnlyAttentionSpec bs a | CrossAttentionSpec bs a =>
      Ok (2 * bs * num_kv_heads a * head_size a * dtype_size (dtype a))
  end.

(** The number of pages [max_memory_usage_bytes] multiplies with the page size *)
Definition max_pages (cfg : VllmConfig) (s : KVCacheSpec) : result Z :=
  match s with
  | FullAttentionSpec bs _ _ _ | MLAAttentionSpec bs _ _ _ _ =>
      let n := decode_context_parallel_size cfg * prefill_context_parallel_size cfg in
      let len := if 1 <? n then cdiv (max_model_len cfg) n else max_model_len cfg in
      Ok (cdiv len bs)
  | ChunkedLocalAttentionSpec bs _ chunk =>
      Ok (cdiv (Z.min (chunk + max_num_batched_tokens cfg) (max_model_len cfg)) bs)
  | SlidingWindowSpec bs _ window =>
      if bool_decide (decode_context_parallel_size cfg = 1)
      then Ok (cdiv (Z.min (window - 1 + max_num_batched_tokens cfg) (max_model_len cfg)) bs + 1)
      else Raise AssertionError
  | MambaSpec bs _ _ _ _ _ => Ok (cdiv (max_model_len cfg) bs)
  | EncoderOnlyAttentionSpec _ _ => Ok 0
  | CrossAttentionSpec bs _ => Ok (cdiv (max_num_encoder_input_tokens cfg) bs)
  end.

Definition max_memory_usage_bytes (cfg : VllmConfig) (s : KVCacheSpec) : result Z :=
  match s with
  | EncoderOnlyAttentionSpec _ _ => Ok 0
  | _ =>
      match max_pages cfg s with
      | Raise e => Raise e
      | Ok n => match page_size_bytes s with Raise e => Raise e | Ok b => Ok (n * b) end
      end
  end.
End sizes.

(** ** Merging the specs of the layers of a group *)

(** [merge_window_sizes] on the set of the sizes that are not [None] *)
Definition merge_window_sizes (window_sizes : list Z) : result (option Z) :=
  match remove_dups window_sizes with
  | [] => Ok None
  | [w] => Ok (Some w)
  | _ => Raise ValueError
  end.

Definition full_fields (s : KVCacheSpec) : option (Z * AttentionFields * option Z * option Z) :=
  match s with
  | FullAttentionSpec bs a w c | MLAAttentionSpec bs a w c _ => Some (bs, a, w, c)
  | _ => None
  end.
Definition full_window (s : KVCacheSpec) : option Z := '(_, _, w, _) ← full_fields s; w.
Definition full_chunk (s : KVCacheSpec) : option Z := '(_, _, _, c) ← full_fields s; c.
Definition attention_fields (s : KVCacheSpec) : option (Z * AttentionFields) :=
  match s with
  | FullAttentionSpec bs a _ _ | MLAAttentionSpec bs a _ _ _ | ChunkedLocalAttentionSpec bs a _
  | SlidingWindowSpec bs a _ | EncoderOnlyAttentionSpec bs a | CrossAttentionSpec bs a => Some (bs, a)
  | MambaSpec _ _ _ _ _ _ => None
  end.

(** [FullAttentionSpec.merge] *)
Definition merge_full (specs : list KVCacheSpec) : result KVCacheSpec :=
  if negb (forallb is_full specs) then Raise AssertionError else
  let sliding_window := omap full_window specs in
  let attention_chunk_size := omap full_chunk specs in
  if existsb is_mla specs then Raise AssertionError else
  match specs with
  | [] => Raise IndexError
  | s0 :: _ =>
      match full_fields s0 with
      | None => Raise AssertionError
      | Some (bs, a, _, _) =>
          match merge_window_sizes sliding_window with
          | Raise e => Raise e
          | Ok w =>
              match merge_window_sizes attention_chunk_size with
              | Raise e => Raise e
              | Ok c =>
                  if forallb (λ s, bool_decide (attention_fields s = Some (bs, a))) specs
                  then if bool_decide (is_Some w ∧ is_Some c) then Raise AssertionError
                       else Ok (FullAttentionSpec bs a w c)
                  else Raise AssertionError
              end
          end
      end
  end.

Definition cache_dtype (s : KVCacheSpec) : option string :=
  match s with MLAAttentionSpec _ _ _ _ d => d | _ => None end.

(** [MLAAttentionSpec.merge] *)
Definition merge_mla (specs : list KVCacheSpec) : result KVCacheSpec :=
  if negb (forallb is_mla specs) then Raise AssertionError else
  match remove_dups (cache_dtype <$> specs), specs with
  | [d], MLAAttentionSpec bs a _ _ _ :: _ => Ok (MLAAttentionSpec bs a None None d)
  | _, _ => Raise AssertionError
  end.

(** [KVCacheSpec.merge] of the base class *)
Definition merge_base (specs : list KVCacheSpec) : result KVCacheSpec :=
  match specs with
  | [] => Raise IndexError
  | s0 :: rest => if forallb (λ s, bool_decide (s = s0)) rest then Ok s0 else Raise AssertionError
  end.

(** [cls.merge(specs)] for the class of a given spec *)
Definition merge (cls : KVCacheSpec) (specs : list KVCacheSpec) : result KVCacheSpec :=
  match cls with
  | FullAttentionSpec _ _ _ _ => merge_full specs
  | MLAAttentionSpec _ _ _ _ _ => merge_mla specs
  | _ => merge_base specs
  end.

(** ** UniformTypeKVCacheSpecs *)

(** The dict of specs by layer name, in insertion order *)
Record UniformTypeKVCacheSpecs := mkUniform { u_block_size : Z; u_specs : list (string * KVCacheSpec) }.

(** The class-specific test against the first spec *)
Definition same_type (one_spec spec : KVCacheSpec) : bool :=
  match one_spec, spec with
  | (FullAttentionSpec _ _ _ _ | MLAAttentionSpec _ _ _ _ _), _ => is_full spec
  | CrossAttentionSpec _ _, CrossAttentionSpec _ _ => true
  | SlidingWindowSpec _ _ w, SlidingWindowSpec _ _ w' => bool_decide (w' = w)
  | ChunkedLocalAttentionSpec _ _ c, ChunkedLocalAttentionSpec _ _ c' => bool_decide (c' = c)
  | MambaSpec _ _ _ _ _ n, MambaSpec _ _ _ _ _ n' => bool_decide (n' = n)
  | _, _ => false
  end.

Definition is_uniform_type (specs : list (string * KVCacheSpec)) : result bool :=
  if (1 <? length (remove_dups (spec_block_size <$> specs.*2)))%nat then Ok false else
  match specs.*2 with
  | [] => Raise StopIteration
  | EncoderOnlyAttentionSpec _ _ :: _ => Raise NotImplementedError
  | one_spec :: rest => Ok (forallb (same_type one_spec) (one_spec :: rest))
  end.

Definition from_specs (specs : list (string * KVCacheSpec)) : result (option UniformTypeKVCacheSpecs) :=
  match is_uniform_type specs with
  | Raise e => Raise e
  | Ok true => match specs with [] => Raise StopIteration | (_, s) :: _ => Ok (Some (mkUniform (spec_block_size s) specs)) end
  | Ok false => Ok None
  end.

Record KVCacheGroupSpec := mkGroup { layer_names : list string; kv_cache_spec : KVCacheSpec }.
Record KVCacheTensor := mkTensor { tensor_size : Z; shared_by : list string }.
Record KVCacheConfig := mkConfig {
  num_blocks : nat;
  kv_cache_tensors : list KVCacheTensor;
  kv_cache_groups : list KVCacheGroupSpec;
}.

(** ** Properties of merging *)

Lemma remove_dups_nil {A} `{EqDecision A} (l : list A) : remove_dups l = [] ↔ l = [].
Proof.
  split; [|by intros ->]. destruct l as [|x l]; [done|]. intros E.
  assert (x ∈ remove_dups (x :: l)) as Hx by (apply elem_of_remove_dups; left). rewrite E in Hx. by apply not_elem_of_nil in Hx.
Qed.

Lemma merge_window_sizes_Ok ws o : merge_window_sizes ws = Ok o ↔
  match o with None => ws = [] | Some w => w ∈ ws ∧ ∀ x, x ∈ ws → x = w end.
Proof.
  unfold merge_window_sizes. pose proof (λ x, elem_of_remove_dups ws x) as Hin.
  pose proof (NoDup_remove_dups ws) as Hnd. pose proof (remove_dups_nil ws) as Hnil.
  destruct (remove_dups ws) as [|w [|w' l]], o as [v|].
  - split; [done|]. intros [Hv _]. apply Hin in Hv. by apply not_elem_of_nil in Hv.
  - split; [|done]. intros _. by apply Hnil.
  - setoid_rewrite list_elem_of_singleton in Hin. split.
    + intros [= <-]. split; [by apply Hin|]. intros x Hx. by apply Hin.
    + intros [_ Hv]. do 2 f_equal. apply Hv, Hin. done.
  - split; [done|]. intros E. apply Hnil in E. done.
  - split; [done|]. intros [_ Hv]. exfalso. apply NoDup_cons in Hnd as [Hw _]. apply Hw.
    rewrite (Hv w), <-(Hv w') by (apply Hin; set_solver +). left.
  - split; [done|]. intros E. apply Hnil in E. done.
Qed.

(** The layers of a group agree with the merged spec [m]. *)
Definition compatible (specs : list KVCacheSpec) (m : KVCacheSpec) : Prop :=
  ∃ bs a w c, m = FullAttentionSpec bs a w c ∧ ¬ (is_Some w ∧ is_Some c) ∧ specs ≠ [] ∧
    (∀ s, s ∈ specs → ∃ w' c', s = FullAttentionSpec bs a w' c' ∧ (w' = None ∨ w' = w) ∧ (c' = None ∨ c' = c)) ∧
    (w = None ∨ ∃ s, s ∈ specs ∧ full_window s = w) ∧ (c = None ∨ ∃ s, s ∈ specs ∧ full_chunk s = c).

Lemma merged_field (f : KVCacheSpec → option Z) specs o : merge_window_sizes (omap f specs) = Ok o ↔
  (∀ s, s ∈ specs → f s = None ∨ f s = o) ∧ (o = None ∨ ∃ s, s ∈ specs ∧ f s = o).
Proof.
  rewrite merge_window_sizes_Ok. destruct o as [w|].
  - setoid_rewrite list_elem_of_omap. split.
    + intros [(s & ? & ?) Hu]. split; [|right; eauto]. intros s' Hs'. destruct (f s') eqn:E; [|auto]. right. f_equal. eauto.
    + intros [Hs [?|(s & ? & ?)]]; [done|]. split; [eauto|]. intros x (s' & Hs' & E). destruct (Hs s' Hs'); congruence.
  - split.
    + intros E. split; [|auto]. intros s Hs. destruct (f s) as [w|] eqn:Ew; [|auto].
      assert (w ∈ omap f specs) as Hw by (apply list_elem_of_omap; eauto). rewrite E in Hw. by apply not_elem_of_nil in Hw.
    + intros [Hs _]. destruct (omap f specs) as [|w l] eqn:E; [done|].
      assert (w ∈ omap f specs) as (s & ? & ?)%list_elem_of_omap by (rewrite E; left). destruct (Hs s); congruence.
Qed.

Lemma existsb_mla specs : forallb is_full specs = true → existsb is_mla specs = false →
  ∀ s, s ∈ specs → ∃ bs a w c, s = FullAttentionSpec bs a w c.
Proof.
  intros Hf Hm s Hs%list_elem_of_In. rewrite forallb_forall in Hf. specialize (Hf s Hs).
  destruct s; try done; [eauto|]. exfalso. assert (existsb is_mla specs = true) by (apply existsb_exists; eauto). congruence.
Qed.

(** [FullAttentionSpec.merge] returns [m] exactly when the group is not empty,
    every layer is a (non-MLA) full-attention layer with the attention fields of [m],
    every window (chunk) size that is set equals that of [m], which is set only if some
    layer sets it, and not both are set; in all other cases it raises. *)
Theorem merge_full_exact specs m : merge_full specs = Ok m ↔ compatible specs m.
Proof.
  unfold merge_full. split.
  - intros H. destruct (forallb is_full specs) eqn:Ef; [|done]. simpl in H.
    destruct (existsb is_mla specs) eqn:Em; [done|]. pose proof (existsb_mla _ Ef Em) as Hfull.
    destruct specs as [|s0 rest] eqn:Es; [done|]. rewrite <-Es in *.
    destruct (Hfull s0) as (bs & a & w0 & c0 & ->); [rewrite Es; left|]. simpl in H.
    destruct (merge_window_sizes (omap full_window specs)) as [w|] eqn:Ew; [|done].
    destruct (merge_window_sizes (omap full_chunk specs)) as [c|] eqn:Ec; [|done].
    destruct (forallb _ _) eqn:Ea in H; [|done]. rewrite forallb_forall in Ea. case_bool_decide as Hwc; [done|]. injection H as <-.
    apply merged_field in Ew as [Hw1 Hw2]. apply merged_field in Ec as [Hc1 Hc2].
    exists bs, a, w, c. split_and!; [done|done|by rewrite Es| |done|done].
    intros s Hs. destruct (Hfull s Hs) as (bs' & a' & w' & c' & ->). specialize (Hw1 _ Hs). specialize (Hc1 _ Hs).
    apply list_elem_of_In, Ea, bool_decide_eq_true in Hs. simpl in Hs. simplify_eq. eauto.
  - intros (bs & a & w & c & -> & Hwc & Hne & Hs & Hw & Hc).
    assert (forallb is_full specs = true) as ->.
    { apply forallb_forall. intros s (w' & c' & -> & _)%list_elem_of_In%Hs. done. }
    assert (existsb is_mla specs = false) as ->.
    { apply not_true_is_false. intros (s & Hin & ?)%existsb_exists. apply list_elem_of_In, Hs in Hin as (?&?&->&_). done. }
    assert (merge_window_sizes (omap full_window specs) = Ok w) as ->.
    { apply merged_field. split; [|done]. intros s (w' & c' & -> & ? & _)%Hs. done. }
    assert (merge_window_sizes (omap full_chunk specs) = Ok c) as ->.
    { apply merged_field. split; [|done]. intros s (w' & c' & -> & _ & ?)%Hs. done. }
    destruct specs as [|s0 rest] eqn:Es; [done|]. rewrite <-Es in *.
    destruct (Hs s0) as (w0 & c0 & -> & _); [rewrite Es; left|]. simpl.
    rewrite (proj2 (forallb_forall _ _)), bool_decide_false; [done|done|].
    intros s (w' & c' & -> & _)%list_elem_of_In%Hs. by apply bool_decide_eq_true.
Qed.

(** [MLAAttentionSpec.merge] compares only the quantization: layers with other shapes
    are merged silently into the shape of the first one. *)
Lemma merge_mla_ignores_shape bs a bs' a' d :
  merge_mla [MLAAttentionSpec bs a None None d; MLAAttentionSpec bs' a' None None d] =
  Ok (MLAAttentionSpec bs a None None d).
Proof.
  unfold merge_mla. cbn. destruct (decide_rel _ _ _) as [_|Hn]; [done|]. exfalso. apply Hn. left.
Qed.
