(* ===== verification/Ledger.v ===== *)
(** * The block pool as the KV cache managers see it

    Every request has, in every group, an entry: the list of its blocks and how many
    of them are in the prefix cache.  [ledger_inv p l E] says that the pool [p], whose
    free queue is [l], is exactly accounted for by the multiset [E] of all entries.
    The lemmas restate each pool operation as an update of one entry; the managers are
    verified against them. *)

From stdpp Require Import base tactics option list gmap.
From Stdlib Require Import ZArith Lia.
From S2P Require Import Prelude KVCacheUtils Request BlockHash BlockPool.
Local Open Scope Z_scope.

(** The blocks of a request in one group, and the number of cached ones *)
Definition entry : Type := list bref * Z.

Section ledger.
Context (R : Store → list bref → Prop) `{!FreeQueueLaws R}.
Implicit Types (p : BlockPool) (l bl : list bref) (E : list entry).

(** Blocks after the cached ones belong to this entry alone and carry no hash. *)
Record entry_ok p (e : entry) : Prop := {
  eo_hold b : b ∈ e.1 → holdable p b;
  eo_occ b : usable p b → occ b e.1 ≤ 1;
  eo_nc : 0 ≤ e.2 ≤ Z.of_nat (length e.1);
  eo_tail : enable_caching p = true → ∀ b, b ∈ drop (Z.to_nat e.2) e.1 →
    usable p b ∧ hash_of p b = None ∧ ref_of p b = 1;
  eo_head : enable_kv_cache_events p = true → ∀ b, b ∈ take (Z.to_nat e.2) e.1 → is_Some (hash_of p b);
}.

Record ledger_inv p l E : Prop := {
  li_pool : pool_inv R p l [];
  li_ref b : usable p b → ref_of p b = occ b (concat E.*1);
  li_entry e : e ∈ E → entry_ok p e;
}.

#[global] Instance ledger_inv_perm p l : Proper ((≡ₚ) ==> iff) (ledger_inv p l).
Proof.
  intros E E' HE. split; intros [Hp Hr He]; split; try done.
  - intros b Hb. rewrite Hr by done. by rewrite HE.
  - intros e. rewrite <-HE. apply He.
  - intros b Hb. rewrite Hr by done. by rewrite HE.
  - intros e. rewrite HE. apply He.
Qed.

Lemma entry_ok_nil p : entry_ok p ([], 0).
Proof. split; simpl; try set_solver +. intros b _. rewrite occ_nil. lia. Qed.

Lemma ledger_nil p l E : ledger_inv p l (([], 0) :: E) ↔ ledger_inv p l E.
Proof.
  split; intros [Hp Hr He]; split; try done.
  - intros e Hin. apply He. by right.
  - intros e [->|Hin]%elem_of_cons; [apply entry_ok_nil|auto].
Qed.

(** An entry that a change of the pool leaves alone *)
Lemma entry_ok_frame p p' e : same_cfg p p' → entry_ok p e →
  (∀ b, b ∈ e.1 → hash_of p' b = hash_of p b) →
  (∀ b, enable_caching p = true → b ∈ drop (Z.to_nat e.2) e.1 → ref_of p' b = 1) → entry_ok p' e.
Proof.
  intros Hc [Hh Ho Hn Ht Hd] Hhash Href. pose proof Hc as (_ & Ec & _ & Ee & _). split; [..|done| |].
  - intros b Hb. rewrite (holdable_cfg _ _ _ Hc). auto.
  - intros b Hb. apply Ho. by rewrite <-(usable_cfg _ _ _ Hc).
  - rewrite Ec. intros Hca b Hb. rewrite (usable_cfg _ _ _ Hc), Hhash by (by eapply subseteq_drop).
    destruct (Ht Hca b Hb) as (?&?&_). auto.
  - rewrite Ee. intros Hev b Hb. rewrite Hhash by (by eapply subseteq_take). auto.
Qed.

Lemma ledger_occ p l E e b : ledger_inv p l (e :: E) → usable p b →
  ref_of p b = occ b e.1 + occ b (concat E.*1).
Proof. intros Hi Hb. rewrite (li_ref _ _ _ Hi) by done. csimpl. by rewrite occ_app. Qed.

(** A block held by two entries is not in the tail of one of them. *)
Lemma tail_exclusive p l E e e' b : ledger_inv p l (e :: E) → e' ∈ E → enable_caching p = true →
  b ∈ drop (Z.to_nat e'.2) e'.1 → b ∉ e.1.
Proof.
  intros Hi He' Hc Hb Hbe. destruct (eo_tail _ _ (li_entry _ _ _ Hi e' (list_elem_of_further _ _ _ He')) Hc b Hb) as (Hu & _ & H1).
  rewrite (ledger_occ _ _ _ _ _ Hi Hu) in H1. apply occ_pos in Hbe.
  assert (b ∈ concat E.*1) as Hin%occ_pos; [|lia].
  apply elem_of_concat. exists e'.1. split; [by apply subseteq_drop in Hb|]. by apply list_elem_of_fmap_2.
Qed.

(** A usable block some entry holds is not free. *)
Lemma held_not_free p l E e b : ledger_inv p l E → e ∈ E → b ∈ e.1 → b ∉ l.
Proof.
  intros Hi He Hb (Hu & Hz & _)%(pi_free _ _ _ _ (li_pool _ _ _ Hi)). rewrite (li_ref _ _ _ Hi) in Hz by done.
  apply occ_zero in Hz. apply Hz, elem_of_concat. exists e.1. split; [done|]. by apply list_elem_of_fmap_2.
Qed.

(** *** [get_new_blocks] extends an entry *)
Lemma wp_ledger_alloc p l bl nc E n : ledger_inv p l ((bl, nc) :: E) → 0 ≤ n ≤ Z.of_nat (length l) →
  wp (get_new_blocks n) p (λ r p', ∃ l', l = r ++ l' ∧ Z.of_nat (length r) = n ∧
    ledger_inv p' l' ((bl ++ r, nc) :: E) ∧ same_cfg p p').
Proof.
  intros Hi Hn. eapply wp_mono; [by apply (wp_get_new_blocks R), Hn; apply Hi|].
  intros r p' (l' & -> & Hlen & Hp' & Hc & Hr & Hh). exists l'. split_and!; [done|done| |done].
  pose proof Hi as [Hp Href He].
  assert (∀ b, b ∈ r → usable p b ∧ ref_of p b = 0) as Hfresh.
  { intros b Hb. destruct (proj1 (pi_free _ _ _ _ Hp b)) as (?&?&_); [set_solver +Hb|done]. }
  assert (NoDup r) as Hnd by (by pose proof (fq_nodup _ _ (pi_rep _ _ _ _ Hp)) as (?&_)%NoDup_app).
  assert (∀ e b, e ∈ (bl, nc) :: E → b ∈ e.1 → b ∉ r) as Hdis.
  { intros e b Hin Hb Hbr. eapply held_not_free; [exact Hi|done..|]. set_solver +Hbr. }
  assert (∀ b, b ∉ r → hash_of p' b = hash_of p b ∧ ref_of p' b = ref_of p b) as Hold.
  { intros b Hb. rewrite Hh, Hr. unfold claimed_hash. rewrite decide_False by done. apply occ_zero in Hb. split; [done|lia]. }
  assert (∀ e, e ∈ (bl, nc) :: E → entry_ok p' e) as Hok.
  { intros e Hin. apply (entry_ok_frame p); [done|auto|..].
    - intros b Hb. apply Hold. by eapply Hdis.
    - intros b Hca Hb. destruct (Hold b) as [_ ->].
      + eapply Hdis; [done|]. by eapply subseteq_drop.
      + by apply (eo_tail _ _ (He e Hin) Hca). }
  split; [done|..].
  - intros b Hb. rewrite (usable_cfg _ _ _ Hc) in Hb. rewrite Hr, (ledger_occ _ _ _ _ _ Hi Hb). csimpl. rewrite !occ_app. lia.
  - intros e [->|Hin]%elem_of_cons; [|apply Hok; by right].
    destruct (Hok (bl, nc) ltac:(left)) as [Hho Hoc Hnc Hta Hhe]. simpl in *. split; simpl.
    + intros b [Hb|Hb]%elem_of_app; [auto|]. left. rewrite (usable_cfg _ _ _ Hc). by apply Hfresh.
    + intros b Hb. rewrite occ_app, (occ_NoDup b r) by done. destruct (decide (b ∈ r)) as [Hbr|Hbr].
      * assert (b ∉ bl) as ->%occ_zero; [|lia]. intros Hbl. by apply (Hdis (bl, nc) b (list_elem_of_here _ _) Hbl).
      * specialize (Hoc b Hb). lia.
    + rewrite length_app. lia.
    + intros Hca b. rewrite drop_app_le by lia. intros [Hb|Hb]%elem_of_app; [auto|].
      destruct (Hfresh b Hb) as [Hu Hz]. rewrite (usable_cfg _ _ _ Hc), Hr, Hz, Hh, occ_NoDup by done.
      unfold claimed_hash. destruct Hc as (_ & Ec & _). rewrite !decide_True by done. by rewrite <-Ec, Hca.
    + intros Hev b. rewrite take_app_le by lia. auto.
Qed.

(** *** [touch] adds entries of cached blocks *)
Definition hit_list p (bs : list bref) : Prop :=
  (∀ b, b ∈ bs → b = null_block p ∨ is_Some (hash_of p b)) ∧ (∀ b, usable p b → occ b bs ≤ 1) ∧
  (enable_kv_cache_events p = true → ∀ b, b ∈ bs → is_Some (hash_of p b)).

Definition full_entry (bs : list bref) : entry := (bs, Z.of_nat (length bs)).

Lemma fst_full_entry bss : (full_entry <$> bss).*1 = bss.
Proof. induction bss as [|bs bss IH]; csimpl; [done|]. by rewrite IH. Qed.

Lemma wp_ledger_touch p l E bss : ledger_inv p l E → (∀ bs, bs ∈ bss → hit_list p bs) →
  wp (touch bss) p (λ _ p', ledger_inv p' (filter (λ x, x ∉ concat bss) l) ((full_entry <$> bss) ++ E) ∧
    same_cfg p p' ∧ (∀ x, hash_of p' x = hash_of p x)).
Proof.
  intros Hi Hb. pose proof Hi as [Hp Href He].
  assert (∀ bs b, bs ∈ bss → b ∈ bs → holdable p b) as Hhold.
  { intros bs b Hbs Hin. destruct (Hb bs Hbs) as (Hh & _). destruct (Hh b Hin) as [->|Hs]; [by right|].
    left. by apply (pi_hash _ _ _ _ Hp). }
  eapply wp_mono; [apply (wp_touch R p l bss Hp)|].
  { intros b (bs & ? & ?)%elem_of_concat. eauto. }
  intros _ p' (Hp' & Hc & Hr & Hh). split_and!; [split|done|done]; [done|..].
  - intros b Hu. rewrite (usable_cfg _ _ _ Hc) in Hu. rewrite Hr, Href by done.
    rewrite fmap_app, fst_full_entry, concat_app, occ_app. lia.
  - intros e [(bs & -> & Hbs)%list_elem_of_fmap|Hin]%elem_of_app.
    + destruct (Hb bs Hbs) as (Hc1 & Hc2 & Hc3). split; simpl.
      * intros b Hin. rewrite (holdable_cfg _ _ _ Hc). eauto.
      * intros b Hu. apply Hc2. by rewrite <-(usable_cfg _ _ _ Hc).
      * lia.
      * intros _ b. rewrite Nat2Z.id, drop_all. set_solver +.
      * destruct Hc as (_&_&_&->&_). intros Hev b. rewrite Nat2Z.id, firstn_all, Hh. auto.
    + apply (entry_ok_frame p); [done|auto|auto|]. intros b Hca Hbt.
      destruct (eo_tail _ _ (He e Hin) Hca b Hbt) as (Hu & Hn & H1). rewrite Hr, H1.
      assert (b ∉ concat bss) as ->%occ_zero; [|lia]. intros (bs & Hbb & Hbs)%elem_of_concat.
      destruct (Hb bs Hbs) as (Hc1 & _). destruct (Hc1 b Hbb) as [->|[? Hs]]; [|congruence].
      by apply (null_not_usable _ _ _ _ Hp).
Qed.

(** *** [free_blocks] shrinks an entry: [rem] leaves, null blocks may come in *)
Record shrinks p (e e' : entry) (rem : list bref) : Prop := {
  sh_rem b : b ∈ rem → b ∈ e.1;
  sh_keep b : b ∈ e'.1 → b ∈ e.1 ∨ b = null_block p;
  sh_occ b : usable p b → occ b e.1 = occ b e'.1 + occ b rem;
  sh_nc : 0 ≤ e'.2 ≤ Z.of_nat (length e'.1);
  sh_tail : enable_caching p = true → ∀ b, b ∈ drop (Z.to_nat e'.2) e'.1 → b ∈ drop (Z.to_nat e.2) e.1;
  sh_head : enable_kv_cache_events p = true → take (Z.to_nat e'.2) e'.1 ⊆ take (Z.to_nat e.2) e.1;
}.

Lemma wp_ledger_free p l E e e' rem : ledger_inv p l (e :: E) → shrinks p e e' rem →
  wp (free_blocks rem) p (λ _ p', ledger_inv p' (l ++ released p rem) (e' :: E) ∧ same_cfg p p' ∧
    (∀ x, hash_of p' x = hash_of p x)).
Proof.
  intros Hi Hs. pose proof Hi as [Hp Href He]. pose proof (He e (list_elem_of_here _ _)) as He0.
  assert (∀ b, usable p b → occ b e'.1 + occ b rem ≤ 1 ∧ occ b rem ≤ ref_of p b) as Hocc.
  { intros b Hb. pose proof (sh_occ _ _ _ _ Hs b Hb). pose proof (eo_occ _ _ He0 b Hb). pose proof (occ_nonneg b e'.1).
    pose proof (occ_nonneg b (concat E.*1)). rewrite (ledger_occ _ _ _ _ _ Hi Hb). lia. }
  eapply wp_mono; [apply (wp_free_blocks R p l rem Hp)|].
  { intros b Hb. apply (eo_hold _ _ He0). by apply (sh_rem _ _ _ _ Hs). }
  { intros b Hb. destruct (Hocc b Hb). pose proof (occ_nonneg b e'.1). lia. }
  intros _ p' (Hp' & Hc & Hr & Hh). split_and!; [split|done|done]; [done|..].
  - intros b Hb. rewrite (usable_cfg _ _ _ Hc) in Hb. rewrite Hr, (ledger_occ _ _ _ _ _ Hi Hb).
    csimpl. rewrite occ_app, (sh_occ _ _ _ _ Hs b Hb). lia.
  - intros e0 [->|Hin]%elem_of_cons.
    + split.
      * intros b Hb. rewrite (holdable_cfg _ _ _ Hc).
        destruct (sh_keep _ _ _ _ Hs b Hb) as [?| ->]; [by apply (eo_hold _ _ He0)|by right].
      * intros b Hb. rewrite (usable_cfg _ _ _ Hc) in Hb. destruct (Hocc b Hb). pose proof (occ_nonneg b rem). lia.
      * apply Hs.
      * pose proof Hc as (_ & Ec & _). rewrite Ec. intros Hca b Hb. pose proof Hb as Hb'.
        apply (sh_tail _ _ _ _ Hs Hca) in Hb'. destruct (eo_tail _ _ He0 Hca b Hb') as (Hu & Hn & H1).
        rewrite (usable_cfg _ _ _ Hc), Hh, Hr, H1. split_and!; [done|done|]. destruct (Hocc b Hu) as [Ho _].
        assert (0 < occ b e'.1) by (apply occ_pos; by eapply subseteq_drop). pose proof (occ_nonneg b rem). lia.
      * destruct Hc as (_ & _ & _ & Ee & _). rewrite Ee. intros Hev b Hb. rewrite Hh.
        apply (eo_head _ _ He0 Hev). by apply (sh_head _ _ _ _ Hs Hev).
    + assert (e0 ∈ e :: E) as Hin' by (by right). apply (entry_ok_frame p); [done|auto|auto|].
      intros b Hca Hb. rewrite Hr. destruct (eo_tail _ _ (He e0 Hin') Hca b Hb) as (_ & _ & ->).
      assert (b ∉ rem) as ->%occ_zero; [|lia]. intros Hbr. apply (sh_rem _ _ _ _ Hs) in Hbr.
      by eapply (tail_exclusive _ _ _ _ e0).
Qed.

(** Giving back a whole entry *)
Lemma wp_ledger_free_all p l E bl nc : ledger_inv p l ((bl, nc) :: E) →
  wp (free_blocks (reverse bl)) p (λ _ p', ledger_inv p' (l ++ released p (reverse bl)) E ∧ same_cfg p p' ∧
    (∀ x, hash_of p' x = hash_of p x)).
Proof.
  intros Hi. eapply wp_mono; [apply (wp_ledger_free p l E (bl, nc) ([], 0) _ Hi)|].
  - split; simpl; try set_solver +.
    intros b _. rewrite occ_reverse, occ_nil. lia.
  - intros _ p' (Hi' & ? & ?). by rewrite ledger_nil in Hi'.
Qed.

(** *** [cache_full_blocks] moves blocks of an entry to its cached part *)
Lemma slice_drop {A} (bl : list A) nc nf : slice bl nc nf ⊆ drop (Z.to_nat nc) bl.
Proof. apply subseteq_take. Qed.

Lemma occ_split3 (bl : list bref) nc nf b : 0 ≤ nc ≤ nf →
  occ b bl = occ b (take (Z.to_nat nc) bl) + occ b (slice bl nc nf) + occ b (drop (Z.to_nat nf) bl).
Proof.
  intros Hn. rewrite <-(take_drop (Z.to_nat nc) bl) at 1. rewrite <-(take_drop (Z.to_nat nf - Z.to_nat nc) (drop _ bl)) at 1.
  rewrite drop_drop, !occ_app. replace (Z.to_nat nc + (Z.to_nat nf - Z.to_nat nc))%nat with (Z.to_nat nf) by lia. unfold slice. lia.
Qed.

Lemma drop_drop_subseteq {A} (bl : list A) nc nf : nc ≤ nf → drop (Z.to_nat nf) bl ⊆ drop (Z.to_nat nc) bl.
Proof.
  intros Hn. replace (Z.to_nat nf) with (Z.to_nat nc + (Z.to_nat nf - Z.to_nat nc))%nat by lia.
  rewrite <-drop_drop. apply subseteq_drop.
Qed.

Lemma wp_ledger_cache p l E bl nc nf request bs g : ledger_inv p l ((bl, nc) :: E) → enable_caching p = true →
  Z.of_nat g < 2 ^ 32 → nc ≤ nf ≤ Z.of_nat (length bl) → nf ≤ Z.of_nat (length (block_hashes request)) →
  wp (cache_full_blocks request bl nc nf bs g) p (λ _ p', ledger_inv p' l ((bl, nf) :: E) ∧ same_cfg p p' ∧
    (∀ i b h, (Z.to_nat nc ≤ i < Z.to_nat nf)%nat → bl !! i = Some b → block_hashes request !! i = Some h →
       hash_of p' b = Some (block_key h g)) ∧
    ∀ x, x ∉ slice bl nc nf → hash_of p' x = hash_of p x).
Proof.
  intros Hi Hca Hg Hnf Hlen. pose proof Hi as [Hp Href He].
  pose proof (He _ (list_elem_of_here _ _)) as He0. destruct (eo_nc _ _ He0) as [Hnc Hnc']. simpl in Hnc, Hnc'.
  assert (∀ b, b ∈ slice bl nc nf → usable p b ∧ hash_of p b = None ∧ ref_of p b = 1) as Hsl.
  { intros b Hb. apply (eo_tail _ _ He0 Hca). by eapply slice_drop. }
  eapply wp_mono; [apply (wp_cache_full_blocks R p l request bl nc nf bs g Hp Hg)|].
  { split; [done|done| |by intros b (?&?&_)%Hsl|].
    - apply NoDup_occ. intros b Hb. destruct (Hsl b Hb) as (Hu & _). etrans; [|apply (eo_occ _ _ He0 b Hu)]. simpl.
      rewrite (occ_split3 bl nc nf) by lia. pose proof (occ_nonneg b (take (Z.to_nat nc) bl)).
      pose proof (occ_nonneg b (drop (Z.to_nat nf) bl)). lia.
    - intros Hev Hpos _. destruct (lookup_lt_is_Some_2 bl (Z.to_nat (nc - 1))) as [pb Hpb]; [lia|].
      exists pb. split; [done|]. apply (eo_head _ _ He0 Hev). apply elem_of_take. exists (Z.to_nat (nc - 1)). simpl. split; [done|lia]. }
  intros _ p' (Hp' & Hc & Hr & Hset & Ho). split_and!; [split|done|done|done]; [done|..].
  - intros b Hb. rewrite (usable_cfg _ _ _ Hc) in Hb. rewrite Hr, Href by done. done.
  - intros e [->|Hin]%elem_of_cons.
    + split; simpl; [| |lia|..].
      * intros b Hb. rewrite (holdable_cfg _ _ _ Hc). by apply (eo_hold _ _ He0).
      * intros b Hb. rewrite (usable_cfg _ _ _ Hc) in Hb. by apply (eo_occ _ _ He0).
      * intros _ b Hb. pose proof (drop_drop_subseteq bl nc nf ltac:(lia) b Hb) as Hb'.
        destruct (eo_tail _ _ He0 Hca b Hb') as (Hu & Hn & H1). rewrite (usable_cfg _ _ _ Hc), Hr, Ho; [done|].
        intros Hs. pose proof (eo_occ _ _ He0 b Hu) as H2. simpl in H2. rewrite (occ_split3 bl nc nf) in H2 by lia.
        apply occ_pos in Hs, Hb. pose proof (occ_nonneg b (take (Z.to_nat nc) bl)). lia.
      * intros Hev b (i & Eb & Hlt)%elem_of_take. destruct (decide (i < Z.to_nat nc)%nat) as [Hlt'|Hge].
        -- destruct Hc as (_&_&_&Ee&_). rewrite Ee in Hev.
           assert (is_Some (hash_of p b)) as Hs by (apply (eo_head _ _ He0 Hev), elem_of_take; eauto).
           rewrite Ho; [done|]. intros (_ & Hn & _)%Hsl. rewrite Hn in Hs. by destruct Hs.
        -- destruct (lookup_lt_is_Some_2 (block_hashes request) i) as [h Hh]; [lia|].
           rewrite (Hset i b h) by (done || lia). by eexists.
    + assert (e ∈ (bl, nc) :: E) as Hin' by (by right).
      apply (entry_ok_frame p); [done|auto|..].
      * intros b Hb. apply Ho. intros Hs. destruct (Hsl b Hs) as (Hu & _ & H1).
        rewrite (ledger_occ _ _ _ _ _ Hi Hu) in H1. simpl in H1.
        assert (0 < occ b bl) by (apply occ_pos; apply slice_drop in Hs; by eapply subseteq_drop).
        assert (0 < occ b (concat E.*1)) by (apply occ_pos, elem_of_concat; exists e.1; split; [done|by apply list_elem_of_fmap_2]).
        lia.
      * intros b _ Hb. rewrite Hr. by apply (eo_tail _ _ (He e Hin') Hca).
Qed.

(** *** [reset_prefix_cache] succeeds only when all entries are empty or null *)
Lemma wp_ledger_reset p l E : ledger_inv p l E →
  wp reset_prefix_cache p (λ r p', ledger_inv p' l E ∧ same_cfg p p' ∧
    if r then ∀ b, hash_of p' b = None else p' = p ∧ ∃ b, usable p b ∧ ref_of p b ≠ 0).
Proof.
  intros Hi. eapply wp_mono; [apply (wp_reset_prefix_cache R _ l), Hi|]. intros r p' (Hp & Hc & Hr & Hres).
  destruct r; [|by destruct Hres as [-> ?]]. destruct Hres as (H0 & Hn & _). pose proof Hi as [Hp0 Href He].
  split_and!; [|done|done]. split; [done|..].
  { intros b Hb. rewrite (usable_cfg _ _ _ Hc) in Hb. rewrite Hr. auto. }
  intros e Hin. destruct (He e Hin) as [Hh Ho Hnc Ht Hd]. pose proof Hc as (_ & Ec & _ & Ee & _).
  assert (∀ b, b ∈ e.1 → ¬ usable p b) as Hnu.
  { intros b Hb Hu. specialize (H0 b Hu). rewrite (Href b Hu) in H0. apply occ_zero in H0. apply H0, elem_of_concat.
    exists e.1. split; [done|]. by apply list_elem_of_fmap_2. }
  split; [..|done| |].
  - intros b Hb. rewrite (holdable_cfg _ _ _ Hc). auto.
  - intros b Hb. apply Ho. by rewrite <-(usable_cfg _ _ _ Hc).
  - rewrite Ec. intros Hca b Hb. exfalso. destruct (Ht Hca b Hb) as (Hu & _). apply subseteq_drop in Hb. by apply (Hnu b Hb).
  - rewrite Ee. intros Hev b Hb. exfalso. specialize (Hd Hev b Hb). apply (pi_hash _ _ _ _ Hp0) in Hd.
    apply subseteq_take in Hb. by apply (Hnu b Hb).
Qed.
End ledger.
