(* ===== verification/SingleTypeManager.v ===== *)
(** * vllm/v1/core/single_type_kv_cache_manager.py

    The per-group managers: which blocks each request holds in one KV cache group,
    how many of them are in the prefix cache, and the search for the longest cache
    hit of each attention type.  All managers of a process share one [BlockPool]. *)

From stdpp Require Import base tactics option list gmap strings.
From Stdlib Require Import ZArith Lia.
From S2P Require Import Prelude KVCacheUtils Request BlockHash BlockPool Ledger KVCacheInterface.
Local Open Scope Z_scope.

(** ** State *)

Record Manager := mkManager {
  mspec : KVCacheSpec;
  dcp_world_size : Z;
  pcp_world_size : Z;
  req_to_blocks : gmap string (list bref);  (** a [defaultdict(list)] *)
  num_cached_block : gmap string Z;
  kv_cache_group_id : nat;
  _null_block : bref;
}.

Definition set_req (f : gmap string (list bref) → gmap string (list bref)) (m : Manager) : Manager :=
  mkManager (mspec m) (dcp_world_size m) (pcp_world_size m) (f (req_to_blocks m)) (num_cached_block m)
    (kv_cache_group_id m) (_null_block m).
Definition set_ncached (f : gmap string Z → gmap string Z) (m : Manager) : Manager :=
  mkManager (mspec m) (dcp_world_size m) (pcp_world_size m) (req_to_blocks m) (f (num_cached_block m))
    (kv_cache_group_id m) (_null_block m).

(** The block size of a spec under context parallelism *)
Definition scaled_block_size (spec : KVCacheSpec) (dcp pcp : Z) : Z :=
  if 1 <? dcp * pcp then spec_block_size spec * (dcp * pcp) else spec_block_size spec.
Definition block_size (m : Manager) : Z := scaled_block_size (mspec m) (dcp_world_size m) (pcp_world_size m).

(** [get_manager_for_kv_cache_spec]: [spec_manager_map] has no entry for
    encoder-only specs. *)
Definition get_manager_for_kv_cache_spec (spec : KVCacheSpec) (pool : BlockPool) (group_id : nat) (dcp pcp : Z) : result Manager :=
  match spec with
  | EncoderOnlyAttentionSpec _ _ => Raise KeyError
  | _ => Ok (mkManager spec dcp pcp ∅ ∅ group_id (null_block pool))
  end.

(** The managers mutate their own state and the shared pool. *)
Abbreviation MS := (BlockPool * Manager)%type.
Definition on_pool {S A} (c : M BlockPool A) : M (BlockPool * S) A := zoom fst (λ p s, (p, s.2)) c.
Definition on_mgr {A} (c : M Manager A) : M MS A := zoom snd (λ m s, (s.1, m)) c.

(** [self.req_to_blocks[request_id]] of the [defaultdict]: a read inserts []. *)
Definition req_blocks (request_id : string) : M Manager (list bref) :=
  bs ← gets (λ m, req_to_blocks m !! request_id);
  match bs with
  | Some l => mret l
  | None => modify (set_req <[request_id := []]>) ;; mret []
  end.

(** ** Operations of the base class and their overrides *)

(** The extra tokens [MambaManager] adds for speculative decoding *)
Definition spec_tokens (spec : KVCacheSpec) (num_tokens : Z) : Z :=
  match spec with
  | MambaSpec bs _ _ _ _ nspec => if 0 <? nspec then num_tokens + bs * nspec else num_tokens
  | _ => num_tokens
  end.

Definition evictable (p : BlockPool) (b : bref) : bool := bool_decide (ref_of p b = 0) && negb (null_of p b).

Definition get_num_blocks_to_allocate (request_id : string) (num_tokens : Z) (new_computed_blocks : list bref) : M MS Z :=
  m ← gets snd;
  let num_required_blocks := cdiv (spec_tokens (mspec m) num_tokens) (block_size m) in
  blocks ← on_mgr (req_blocks request_id);
  let num_new_blocks := num_required_blocks - Z.of_nat (length new_computed_blocks) - Z.of_nat (length blocks) in
  p ← gets fst;
  let num_evictable_computed_blocks := Z.of_nat (length (filter (λ b, evictable p b) new_computed_blocks)) in
  mret (num_new_blocks + num_evictable_computed_blocks).

Definition save_new_computed_blocks (request_id : string) (new_computed_blocks : list bref) : M MS () :=
  m ← gets snd;
  if is_cross (mspec m) then assert_ (bool_decide (length new_computed_blocks = 0%nat)) else
  if bool_decide (num_cached_block m !! request_id = None) then
    blocks ← on_mgr (req_blocks request_id);
    assert_ (bool_decide (length blocks = 0%nat)) ;;
    on_mgr (modify (set_req <[request_id := blocks ++ new_computed_blocks]>)) ;;
    on_mgr (modify (set_ncached <[request_id := Z.of_nat (length new_computed_blocks)]>))
  else assert_ (bool_decide (length new_computed_blocks = 0%nat)).

Definition allocate_new_blocks (request_id : string) (num_tokens : Z) : M MS (list bref) :=
  m ← gets snd;
  blocks ← on_mgr (req_blocks request_id);
  let num_required_blocks := cdiv (spec_tokens (mspec m) num_tokens) (block_size m) in
  let num_new_blocks := num_required_blocks - Z.of_nat (length blocks) in
  if num_new_blocks <=? 0 then mret [] else
  new_blocks ← on_pool (get_new_blocks num_new_blocks);
  on_mgr (modify (set_req <[request_id := blocks ++ new_blocks]>)) ;;
  mret new_blocks.

Definition cache_blocks (request : Request) (num_tokens : Z) : M MS () :=
  m ← gets snd;
  if is_cross (mspec m) then raise ValueError else
  let num_cached_blocks := default 0 (num_cached_block m !! request_id request) in
  let num_full_blocks := num_tokens / block_size m in
  if num_full_blocks <=? num_cached_blocks then mret () else
  blocks ← on_mgr (req_blocks (request_id request));
  on_pool (cache_full_blocks request blocks num_cached_blocks num_full_blocks (block_size m) (kv_cache_group_id m)) ;;
  on_mgr (modify (set_ncached <[request_id request := num_full_blocks]>)).

Definition free (request_id : string) : M MS () :=
  m ← gets snd;
  let blocks := default [] (req_to_blocks m !! request_id) in
  on_mgr (modify (set_req (delete request_id))) ;;
  on_pool (free_blocks (reverse blocks)) ;;
  on_mgr (modify (set_ncached (delete request_id))).

Definition get_num_skipped_tokens (spec : KVCacheSpec) (num_computed_tokens : Z) : Z :=
  match spec with
  | SlidingWindowSpec _ _ w => num_computed_tokens - w + 1
  | ChunkedLocalAttentionSpec _ _ c => num_computed_tokens / c * c
  | _ => 0
  end.

(** The loop of [remove_skipped_blocks] over [i = n-1, ..., 0]: the blocks after the
    loop and the removed ones.  [blocks[i] == self._null_block] compares block ids
    first, which are unique in the pool. *)
Fixpoint skip_loop (null : bref) (n : nat) (blocks removed : list bref) : result (list bref * list bref) :=
  match n with
  | O => Ok (blocks, removed)
  | S i =>
      match blocks !! i with
      | None => Raise IndexError
      | Some b => if bool_decide (b = null) then Ok (blocks, removed)
                  else skip_loop null i (<[i := null]> blocks) (removed ++ [b])
      end
  end.

Definition remove_skipped_blocks (request_id : string) (num_computed_tokens : Z) : M MS () :=
  m ← gets snd;
  let num_skipped_tokens := get_num_skipped_tokens (mspec m) num_computed_tokens in
  if num_skipped_tokens <=? 0 then mret () else
  let num_skipped_blocks := num_skipped_tokens / block_size m in
  blocks ← on_mgr (req_blocks request_id);
  r ← of_result (skip_loop (_null_block m) (Z.to_nat num_skipped_blocks) blocks []);
  on_mgr (modify (set_req <[request_id := r.1]>)) ;;
  on_pool (free_blocks r.2).

(** The prefix of blocks referenced by every entry of [req_to_blocks] *)
Fixpoint common_prefix (p : BlockPool) (n : Z) (blocks : list bref) : Z :=
  match blocks with
  | [] => 0
  | b :: rest => if bool_decide (ref_of p b = n) then 1 + common_prefix p n rest else 0
  end.

Definition get_num_common_prefix_blocks (running_request_id : string) : M MS Z :=
  m ← gets snd;
  if is_full (mspec m) then
    blocks ← on_mgr (req_blocks running_request_id);
    s ← get;
    mret (common_prefix s.1 (Z.of_nat (size (req_to_blocks s.2))) blocks)
  else mret 0.

(** ** The longest cache hit of each attention type *)

Abbreviation columns := (list (list bref)).

(** [for computed, cached in zip(computed_blocks, cached_block): computed.append(cached)] *)
Definition append_row (computed : columns) (row : list bref) : columns :=
  zip_with (λ c b, c ++ [b]) computed row ++ drop (length row) computed.

(** The truth value of [cached_block := block_pool.get_cached_block(...)] *)
Definition truthy (r : option (list bref)) : option (list bref) :=
  match r with Some (b :: bs) => Some (b :: bs) | _ => None end.

Fixpoint hit_loop (gids : list nat) (hashes : list bytes) (computed : columns) : M BlockPool columns :=
  match hashes with
  | [] => mret computed
  | h :: hashes' =>
      cached ← get_cached_block h gids;
      match truthy cached with
      | Some row => hit_loop gids hashes' (append_row computed row)
      | None => mret computed
      end
  end.

(** [if use_eagle and computed_blocks[0]: for computed in computed_blocks: computed.pop()] *)
Definition eagle_pop (use_eagle : bool) (computed : columns) : M BlockPool columns :=
  if use_eagle then
    first ← index computed 0;
    if bool_decide (first = []) then mret computed
    else mret ((λ c, take (length c - 1) c) <$> computed)
  else mret computed.

Definition full_find_longest_cache_hit (block_hashes : list bytes) (max_length : Z) (gids : list nat)
    (spec : KVCacheSpec) (use_eagle : bool) (dcp pcp : Z) : M BlockPool columns :=
  match spec with
  | FullAttentionSpec _ _ _ _ | MLAAttentionSpec _ _ _ _ _ | ChunkedLocalAttentionSpec _ _ _ =>
      let max_num_blocks := max_length / scaled_block_size spec dcp pcp in
      if max_num_blocks <? 0 then raise ValueError (* islice *) else
      computed ← hit_loop gids (take (Z.to_nat max_num_blocks) block_hashes) (replicate (length gids) []);
      eagle_pop use_eagle computed
  | _ => raise AssertionError
  end.

(** [for computed, cached in zip(computed_blocks, cached_block): computed[i] = cached] *)
Definition assign_row (i : nat) (computed : columns) (row : list bref) : columns :=
  zip_with (λ c b, <[i := b]> c) computed row ++ drop (length row) computed.

(** [for i in range(n - 1, -1, -1)] of the sliding window: the columns, the final
    [num_contiguous_blocks] and [match_found] *)
Fixpoint window_loop (gids : list nat) (hashes : list bytes) (needed : Z) (n : nat) (computed : columns) (contiguous : nat)
    : M BlockPool (columns * nat * bool) :=
  match n with
  | O => mret (computed, contiguous, false)
  | S i =>
      h ← index hashes i;
      cached ← get_cached_block h gids;
      match truthy cached with
      | Some row =>
          let computed := assign_row i computed row in
          let contiguous := S contiguous in
          if needed <=? Z.of_nat contiguous
          then mret (take (i + contiguous) <$> computed, contiguous, true)
          else window_loop gids hashes needed i computed contiguous
      | None => window_loop gids hashes needed i computed 0
      end
  end.

Definition window_find_longest_cache_hit (block_hashes : list bytes) (max_length : Z) (gids : list nat)
    (spec : KVCacheSpec) (use_eagle : bool) (dcp pcp : Z) : M BlockPool columns :=
  match spec with
  | SlidingWindowSpec bs _ window =>
      assert_ (bool_decide (dcp = 1)) ;;
      assert_ (bool_decide (pcp = 1)) ;;
      let needed := cdiv (window - 1) bs + (if use_eagle then 1 else 0) in
      let max_num_blocks := Z.to_nat (max_length / bs) in
      null ← gets null_block;
      r ← window_loop gids block_hashes needed max_num_blocks (replicate (length gids) (replicate max_num_blocks null)) 0;
      let '(computed, contiguous, match_found) := r in
      eagle_pop use_eagle (if (match_found : bool) then computed else take contiguous <$> computed)
  | _ => raise AssertionError
  end.

(** [for i in range(start, max_num_blocks)]: [n] indices remain from [i] *)
Fixpoint chunk_loop (gids : list nat) (hashes : list bytes) (i n : nat) (computed : columns) : M BlockPool columns :=
  match n with
  | O => mret computed
  | S n' =>
      h ← index hashes i;
      cached ← get_cached_block h gids;
      match truthy cached with
      | Some row => chunk_loop gids hashes (S i) n' (append_row computed row)
      | None => mret computed
      end
  end.

Definition chunked_find_longest_cache_hit (block_hashes : list bytes) (max_length : Z) (gids : list nat)
    (spec : KVCacheSpec) (use_eagle : bool) (dcp pcp : Z) : M BlockPool columns :=
  match spec with
  | ChunkedLocalAttentionSpec bs _ chunk =>
      assert_ (negb use_eagle) ;;
      assert_ (bool_decide (dcp = 1)) ;;
      assert_ (bool_decide (pcp = 1)) ;;
      let max_num_blocks := max_length / bs in
      let local_attention_start_idx := if 0 <? max_length then max_length / chunk * chunk else 0 in
      let start_block := Z.to_nat (local_attention_start_idx / bs) in
      null ← gets null_block;
      chunk_loop gids block_hashes start_block (Z.to_nat max_num_blocks - start_block)
        (replicate (length gids) (replicate start_block null))
  | _ => raise AssertionError
  end.

Fixpoint mamba_loop (gids : list nat) (hashes : list bytes) (null : bref) (n : nat) (computed : columns) : M BlockPool columns :=
  match n with
  | O => mret computed
  | S i =>
      h ← index hashes i;
      cached ← get_cached_block h gids;
      match truthy cached with
      | Some row => mret (append_row ((λ c, c ++ replicate i null) <$> computed) row)
      | None => mamba_loop gids hashes null i computed
      end
  end.

Definition mamba_find_longest_cache_hit (block_hashes : list bytes) (max_length : Z) (gids : list nat)
    (spec : KVCacheSpec) (use_eagle : bool) (dcp pcp : Z) : M BlockPool columns :=
  match spec with
  | MambaSpec bs _ _ _ _ _ =>
      assert_ (bool_decide (dcp = 1)) ;;
      assert_ (bool_decide (pcp = 1)) ;;
      null ← gets null_block;
      mamba_loop gids block_hashes null (Z.to_nat (max_length / bs)) (replicate (length gids) [])
  | _ => raise AssertionError
  end.

(** The classmethod of the manager class of a spec *)
Definition find_longest_cache_hit (cls : KVCacheSpec) (block_hashes : list bytes) (max_length : Z) (gids : list nat)
    (spec : KVCacheSpec) (use_eagle : bool) (dcp pcp : Z) : M BlockPool columns :=
  match cls with
  | FullAttentionSpec _ _ _ _ | MLAAttentionSpec _ _ _ _ _ =>
      full_find_longest_cache_hit block_hashes max_length gids spec use_eagle dcp pcp
  | SlidingWindowSpec _ _ _ => window_find_longest_cache_hit block_hashes max_length gids spec use_eagle dcp pcp
  | ChunkedLocalAttentionSpec _ _ _ => chunked_find_longest_cache_hit block_hashes max_length gids spec use_eagle dcp pcp
  | MambaSpec _ _ _ _ _ _ => mamba_find_longest_cache_hit block_hashes max_length gids spec use_eagle dcp pcp
  | CrossAttentionSpec _ _ => if is_cross spec then raise NotImplementedError else raise AssertionError
  | EncoderOnlyAttentionSpec _ _ => raise KeyError
  end.

(** ** The entries of a manager *)

Definition blocks_of (rid : string) (m : Manager) : list bref := default [] (req_to_blocks m !! rid).
Definition ncached_of (rid : string) (m : Manager) : Z := default 0 (num_cached_block m !! rid).
Definition entry_of (rid : string) (m : Manager) : entry := (blocks_of rid m, ncached_of rid m).

Definition entries (m : Manager) : list entry :=
  (λ x : string * list bref, (x.2, ncached_of x.1 m)) <$> map_to_list (req_to_blocks m).

(** The manager without one request *)
Definition drop_req (rid : string) (m : Manager) : Manager := set_req (delete rid) (set_ncached (delete rid) m).

(** Only requests with blocks (possibly an empty list) have a cached count. *)
Definition mgr_wf (m : Manager) : Prop := ∀ rid, req_to_blocks m !! rid = None → num_cached_block m !! rid = None.

(** [m'] differs from [m] in one request only. *)
Definition only_req (rid : string) (m m' : Manager) : Prop := drop_req rid m' = drop_req rid m.

Lemma only_req_cfg rid m m' : only_req rid m m' → mspec m' = mspec m ∧ block_size m' = block_size m ∧
  kv_cache_group_id m' = kv_cache_group_id m ∧ _null_block m' = _null_block m.
Proof. unfold only_req, drop_req, block_size. intros [=]. repeat split; congruence. Qed.

Lemma only_req_other rid rid' m m' : only_req rid m m' → rid' ≠ rid →
  req_to_blocks m' !! rid' = req_to_blocks m !! rid' ∧ num_cached_block m' !! rid' = num_cached_block m !! rid'.
Proof.
  intros Ho Hne. pose proof (f_equal (λ m, req_to_blocks m !! rid') Ho) as Er.
  pose proof (f_equal (λ m, num_cached_block m !! rid') Ho) as En. simpl in Er, En.
  rewrite !lookup_delete_ne in Er by done. by rewrite !lookup_delete_ne in En by done.
Qed.

#[export] Instance only_req_preorder rid : PreOrder (only_req rid).
Proof. split; [done|]. unfold only_req. intros ???; congruence. Qed.

Lemma only_req_set_req rid l m : only_req rid m (set_req <[rid := l]> m).
Proof. unfold only_req, drop_req, set_req, set_ncached. simpl. by rewrite delete_insert_eq. Qed.
Lemma only_req_set_ncached rid n m : only_req rid m (set_ncached <[rid := n]> m).
Proof. unfold only_req, drop_req, set_req, set_ncached. simpl. by rewrite delete_insert_eq. Qed.

Lemma entries_own rid m : entries m ≡ₚ
  (if req_to_blocks m !! rid is Some bl then [(bl, ncached_of rid m)] else []) ++ entries (drop_req rid m).
Proof.
  unfold entries. simpl.
  assert (∀ l : list (string * list bref), rid ∉ l.*1 →
    (λ x, (x.2, ncached_of x.1 (drop_req rid m))) <$> l = (λ x, (x.2, ncached_of x.1 m)) <$> l) as Hext.
  { intros l Hl. apply list_fmap_ext. intros i [k v] Hx. simpl. unfold ncached_of. simpl.
    rewrite lookup_delete_ne; [done|]. intros ->. apply Hl, list_elem_of_fmap. exists (k, v). split; [done|].
    by eapply list_elem_of_lookup_2. }
  assert (rid ∉ (map_to_list (delete rid (req_to_blocks m))).*1) as Hn.
  { intros ([k v] & -> & Hin)%list_elem_of_fmap. apply elem_of_map_to_list in Hin. simpl in Hin. by rewrite lookup_delete_eq in Hin. }
  rewrite (Hext _ Hn). destruct (req_to_blocks m !! rid) as [bl|] eqn:E.
  - by rewrite <-(map_to_list_delete (req_to_blocks m) rid bl E).
  - by rewrite delete_id by done.
Qed.

Section manager.
Context (R : Store → list bref → Prop) `{!FreeQueueLaws R}.

(** The manager [m], and other entries [E], account for the pool. *)
Record mgr_inv (p : BlockPool) (l : list bref) (E : list entry) (m : Manager) : Prop := {
  mi_wf : mgr_wf m;
  mi_null : _null_block m = null_block p;
  mi_bs : 0 < block_size m;
  mi_gid : Z.of_nat (kv_cache_group_id m) < 2 ^ 32;
  mi_ledger : ledger_inv R p l (entries m ++ E);
}.

Lemma ledger_entry p l E m rid : mgr_wf m →
  ledger_inv R p l (entries m ++ E) ↔ ledger_inv R p l (entry_of rid m :: entries (drop_req rid m) ++ E).
Proof.
  intros Hwf. rewrite (entries_own rid m). unfold entry_of, blocks_of.
  destruct (req_to_blocks m !! rid) as [bl|] eqn:E1; simpl; [done|].
  unfold ncached_of. rewrite (Hwf rid E1). simpl. by rewrite ledger_nil.
Qed.

(** Restoring the invariant after an operation on one request *)
Lemma mgr_inv_update p l E m p' l' m' rid : mgr_inv p l E m → only_req rid m m' → same_cfg p p' →
  (req_to_blocks m' !! rid = None → num_cached_block m' !! rid = None) →
  ledger_inv R p' l' (entry_of rid m' :: entries (drop_req rid m) ++ E) → mgr_inv p' l' E m'.
Proof.
  intros [Hwf Hnull Hbs Hg _] Ho Hc Hwf' Hl. destruct (only_req_cfg _ _ _ Ho) as (_ & Eb & Eg & En).
  assert (mgr_wf m') as Hw.
  { intros rid'. destruct (decide (rid' = rid)) as [->|Hne]; [done|].
    destruct (only_req_other _ _ _ _ Ho Hne) as [-> ->]. apply Hwf. }
  split; [done|..].
  - rewrite En. destruct Hc as (_&_&->&_). done.
  - by rewrite Eb.
  - by rewrite Eg.
  - apply (ledger_entry _ _ _ _ rid Hw). by rewrite Ho.
Qed.

Lemma mgr_inv_entry p l E m rid : mgr_inv p l E m →
  ledger_inv R p l (entry_of rid m :: entries (drop_req rid m) ++ E).
Proof. intros Hi. apply ledger_entry; apply Hi. Qed.

Lemma mgr_entry_ok p l E m rid : mgr_inv p l E m → entry_ok p (entry_of rid m).
Proof. intros Hi. eapply li_entry; [by apply (mgr_inv_entry p l E m rid)|left]. Qed.

(** Reading [req_to_blocks[rid]] *)
Lemma wp_req_blocks p l E m rid Q : mgr_inv p l E m →
  (∀ m', mgr_inv p l E m' → only_req rid m m' → req_to_blocks m' !! rid = Some (blocks_of rid m) →
    num_cached_block m' = num_cached_block m → Q (blocks_of rid m) (p, m')) →
  wp (on_mgr (req_blocks rid)) (p, m) Q.
Proof.
  intros Hi HQ. unfold on_mgr, req_blocks. do 3 wp_step. destruct (req_to_blocks m !! rid) as [bl|] eqn:Em.
  - wp_steps. assert (bl = blocks_of rid m) as -> by (unfold blocks_of; by rewrite Em). by apply HQ.
  - wp_steps. assert (blocks_of rid m = []) as Eb by (unfold blocks_of; by rewrite Em). rewrite Eb in HQ.
    apply HQ; [|apply only_req_set_req|simpl; by rewrite lookup_insert_eq|done].
    eapply mgr_inv_update; [done|apply only_req_set_req|reflexivity|simpl; by rewrite lookup_insert_eq|].
    pose proof (mgr_inv_entry _ _ _ _ rid Hi) as H. unfold entry_of in *. rewrite Eb in H.
    unfold blocks_of. simpl. by rewrite lookup_insert_eq.
Qed.

(** *** The specification of each operation *)

Definition required_blocks (m : Manager) (num_tokens : Z) : Z := cdiv (spec_tokens (mspec m) num_tokens) (block_size m).
Definition num_evictable (p : BlockPool) (bs : list bref) : Z := Z.of_nat (length (filter (λ b, evictable p b) bs)).

Lemma blocks_of_Some rid m bl : req_to_blocks m !! rid = Some bl → blocks_of rid m = bl.
Proof. unfold blocks_of. by intros ->. Qed.

Lemma wp_get_num_blocks_to_allocate p l E m rid n new : mgr_inv p l E m →
  wp (get_num_blocks_to_allocate rid n new) (p, m) (λ r s, s.1 = p ∧ mgr_inv p l E s.2 ∧ only_req rid m s.2 ∧
    entry_of rid s.2 = entry_of rid m ∧ num_cached_block s.2 = num_cached_block m ∧
    r = required_blocks m n - Z.of_nat (length new) - Z.of_nat (length (blocks_of rid m)) + num_evictable p new).
Proof.
  intros Hi. unfold get_num_blocks_to_allocate. do 3 wp_step. eapply wp_req_blocks; [done|].
  intros m' Hi' Ho Hb Hn. wp_steps. split_and!; [done|done|done| |done|done].
  unfold entry_of, ncached_of. by rewrite (blocks_of_Some _ _ _ Hb), Hn.
Qed.

(** [save_new_computed_blocks] of a new request adopts the touched blocks. *)
Lemma wp_save_new p l E m rid bs : mgr_inv p l (full_entry bs :: E) m → is_cross (mspec m) = false →
  blocks_of rid m = [] → num_cached_block m !! rid = None →
  wp (save_new_computed_blocks rid bs) (p, m) (λ _ s, s.1 = p ∧ mgr_inv p l E s.2 ∧ only_req rid m s.2 ∧
    entry_of rid s.2 = full_entry bs).
Proof.
  intros Hi Hx Hb Hn. unfold save_new_computed_blocks. do 2 wp_step. rewrite Hx, Hn. simpl.
  wp_step. eapply wp_req_blocks; [done|]. rewrite Hb. intros m' Hi' Ho Hb' Hn'. apply wp_bind, wp_assert; [done|].
  unfold on_mgr. wp_steps. set (m2 := set_ncached _ _).
  assert (only_req rid m m2) as Ho2.
  { etrans; [exact Ho|]. etrans; [apply only_req_set_req|apply only_req_set_ncached]. }
  assert (entry_of rid m2 = full_entry bs) as Ee.
  { unfold entry_of, blocks_of, ncached_of, m2, full_entry. simpl. by rewrite !lookup_insert_eq. }
  split_and!; [done| |done|done]. pose proof (mgr_inv_entry _ _ _ _ rid Hi') as Hl.
  assert (entry_of rid m' = ([], 0)) as E0.
  { unfold entry_of, ncached_of. by rewrite (blocks_of_Some _ _ _ Hb'), Hn', Hn. }
  rewrite E0, ledger_nil, <-Permutation_middle in Hl. rewrite <-Ee in Hl.
  destruct Hi' as [Hwf' Hnull' Hbs' Hg' _]. destruct Hi as [Hwf Hnull Hbs Hg _].
  assert (mgr_wf m2) as Hw2.
  { intros rid' Hr'. unfold m2 in *. simpl in *. destruct (decide (rid = rid')) as [<-|Hne]; [by rewrite lookup_insert_eq in Hr'|].
    rewrite lookup_insert_ne in Hr' by done. rewrite lookup_insert_ne by done. by apply Hwf'. }
  split; [done|done|done|done|]. apply (ledger_entry _ _ _ _ rid Hw2). by rewrite Ho2, <-Ho.
Qed.

(** ... and of a running request changes nothing. *)
Lemma wp_save_running p m rid n : num_cached_block m !! rid = Some n →
  wp (save_new_computed_blocks rid []) (p, m) (λ _ s, s = (p, m)).
Proof.
  intros Hn. unfold save_new_computed_blocks. do 2 wp_step. rewrite Hn. by case_match.
Qed.

Lemma wp_allocate p l E m rid n : mgr_inv p l E m →
  required_blocks m n - Z.of_nat (length (blocks_of rid m)) ≤ Z.of_nat (length l) →
  wp (allocate_new_blocks rid n) (p, m) (λ r s, ∃ l', l = r ++ l' ∧ mgr_inv s.1 l' E s.2 ∧ only_req rid m s.2 ∧
    same_cfg p s.1 ∧ blocks_of rid s.2 = blocks_of rid m ++ r ∧ num_cached_block s.2 = num_cached_block m ∧
    Z.of_nat (length r) = Z.max 0 (required_blocks m n - Z.of_nat (length (blocks_of rid m)))).
Proof.
  intros Hi Hfree. unfold allocate_new_blocks. do 3 wp_step. eapply wp_req_blocks; [done|].
  intros m' Hi' Ho Hb Hn. fold (required_blocks m n). destruct (Z.leb_spec (required_blocks m n - Z.of_nat (length (blocks_of rid m))) 0).
  { wp_steps. exists l. rewrite app_nil_r. split_and!; [done|done|done|reflexivity|by apply blocks_of_Some|done|simpl; lia]. }
  wp_step. unfold on_pool. wp_step. pose proof (mgr_inv_entry _ _ _ _ rid Hi') as Hl.
  eapply wp_mono; [apply (wp_ledger_alloc R); [done|lia]|].
  intros r p' (l' & -> & Hlen & Hl' & Hc). unfold on_mgr. wp_steps. exists l'. set (m2 := set_req _ m').
  assert (blocks_of rid m2 = blocks_of rid m ++ r) as Eb.
  { unfold blocks_of at 1, m2. simpl. by rewrite lookup_insert_eq. }
  assert (only_req rid m' m2) as Ho2 by apply only_req_set_req.
  split_and!; [done| |by transitivity m'|done|done|done|lia].
  apply (mgr_inv_update p (r ++ l') E m' _ _ _ rid); [exact Hi'|done|done|unfold m2; simpl; by rewrite lookup_insert_eq|].
  unfold entry_of at 1. rewrite Eb. by rewrite (blocks_of_Some _ _ _ Hb) in Hl'.
Qed.

Lemma wp_cache_blocks p l E m request n : mgr_inv p l E m → enable_caching p = true → is_cross (mspec m) = false →
  let rid := request_id request in
  n / block_size m ≤ Z.of_nat (length (blocks_of rid m)) → n / block_size m ≤ Z.of_nat (length (block_hashes request)) →
  wp (cache_blocks request n) (p, m) (λ _ s, mgr_inv s.1 l E s.2 ∧ only_req rid m s.2 ∧ same_cfg p s.1 ∧
    blocks_of rid s.2 = blocks_of rid m ∧ ncached_of rid s.2 = Z.max (ncached_of rid m) (n / block_size m) ∧
    (∀ i b h, (Z.to_nat (ncached_of rid m) ≤ i < Z.to_nat (n / block_size m))%nat →
       blocks_of rid m !! i = Some b → block_hashes request !! i = Some h →
       hash_of s.1 b = Some (block_key h (kv_cache_group_id m))) ∧
    (∀ x, x ∉ slice (blocks_of rid m) (ncached_of rid m) (n / block_size m) → hash_of s.1 x = hash_of p x)).
Proof.
  intros Hi Hca Hx rid Hlen Hh. unfold cache_blocks. do 2 wp_step. rewrite Hx. fold rid. fold (ncached_of rid m).
  destruct (Z.leb_spec (n / block_size m) (ncached_of rid m)).
  { wp_steps. split_and!; [done|reflexivity|reflexivity|done|lia|lia|done]. }
  wp_step. eapply wp_req_blocks; [done|]. intros m' Hi' Ho Hb Hn. wp_step. unfold on_pool. wp_step.
  pose proof (mgr_inv_entry _ _ _ _ rid Hi') as Hl.
  assert (entry_of rid m' = (blocks_of rid m, ncached_of rid m)) as Ee.
  { unfold entry_of, ncached_of. by rewrite (blocks_of_Some _ _ _ Hb), Hn. }
  rewrite Ee in Hl. eapply wp_mono; [apply (wp_ledger_cache R); [done|done|apply Hi|lia|done]|].
  intros _ p' (Hl' & Hc & Hset & Hother). unfold on_mgr. wp_steps. set (m2 := set_ncached _ _).
  assert (only_req rid m' m2) as Ho2 by apply only_req_set_ncached.
  assert (blocks_of rid m2 = blocks_of rid m) as Eb by (by apply blocks_of_Some).
  assert (ncached_of rid m2 = n / block_size m) as En by (unfold ncached_of, m2; simpl; by rewrite lookup_insert_eq).
  split_and!; [|by transitivity m'|done|done|lia|done|done].
  apply (mgr_inv_update p l E m' _ _ _ rid); [done|done|done|unfold m2; simpl; by rewrite Hb|].
  unfold entry_of. by rewrite Eb, En.
Qed.

Lemma wp_free p l E m rid : mgr_inv p l E m →
  wp (free rid) (p, m) (λ _ s, mgr_inv s.1 (l ++ released p (reverse (blocks_of rid m))) E s.2 ∧ s.2 = drop_req rid m ∧
    same_cfg p s.1 ∧ ∀ x, hash_of s.1 x = hash_of p x).
Proof.
  intros Hi. unfold free, on_mgr, on_pool. do 7 wp_step. fold (blocks_of rid m).
  pose proof (mgr_inv_entry _ _ _ _ rid Hi) as Hl. unfold entry_of in Hl.
  eapply wp_mono; [by eapply (wp_ledger_free_all R)|]. intros _ p' (Hl' & Hc & Hh). wp_steps.
  split_and!; [|done|done|done]. set (m2 := set_ncached _ _).
  assert (only_req rid m m2) as Ho.
  { unfold only_req, drop_req, m2, set_req, set_ncached. simpl. by rewrite !delete_delete_eq. }
  apply (mgr_inv_update p l E m _ _ _ rid); [done|done|done|intros _; unfold m2; simpl; by rewrite lookup_delete_eq|].
  unfold entry_of, blocks_of, ncached_of, m2. simpl. rewrite !lookup_delete_eq. simpl. by apply ledger_nil.
Qed.

(** *** [remove_skipped_blocks] *)

(** The first [n] blocks with the run of non-null blocks that ends at [n] nulled. *)
Lemma skip_loop_spec null n : ∀ bl removed, (n ≤ length bl)%nat →
  ∃ k, (k ≤ n)%nat ∧ skip_loop null n bl removed =
      Ok (take k bl ++ replicate (n - k) null ++ drop n bl, removed ++ reverse (take (n - k) (drop k bl))) ∧
    (∀ i, (k ≤ i < n)%nat → bl !! i ≠ Some null) ∧ (k = 0%nat ∨ bl !! (k - 1)%nat = Some null).
Proof.
  induction n as [|i IH]; intros bl removed Hn; simpl.
  { exists 0%nat. simpl. rewrite drop_0, app_nil_r. split_and!; [lia|done|lia|by left]. }
  destruct (lookup_lt_is_Some_2 bl i) as [b Hb]; [lia|]. rewrite Hb. case_bool_decide as Hbn.
  - exists (S i). rewrite Nat.sub_diag. simpl. rewrite app_nil_r, take_drop. subst.
    split_and!; [lia|done|lia|]. right. by rewrite Nat.sub_0_r.
  - destruct (IH (<[i := null]> bl) (removed ++ [b])) as (k & Hk & -> & Hne & Hend); [rewrite length_insert; lia|].
    exists k. split_and!; [lia| | |].
    + f_equal. f_equal.
      * rewrite take_insert_ge by lia. rewrite (drop_insert_ge _ _ i) by lia. rewrite Nat.sub_diag.
        rewrite (drop_S _ _ _ Hb). simpl. replace (S i - k)%nat with ((i - k) + 1)%nat by lia.
        rewrite replicate_add. simpl. by rewrite <-app_assoc.
      * rewrite <-app_assoc. f_equal. replace (S i - k)%nat with (S (i - k)) by lia.
        rewrite drop_insert_ge by lia. rewrite take_insert_ge by lia.
        rewrite (take_S_r _ _ b); [by rewrite reverse_app|]. rewrite lookup_drop.
        by replace (k + (i - k))%nat with i by lia.
    + intros j Hj. destruct (decide (j = i)) as [->|Hji]; [rewrite Hb; congruence|].
      specialize (Hne j ltac:(lia)). by rewrite list_lookup_insert_ne in Hne by lia.
    + destruct (decide (k = 0)%nat) as [|Hk0]; [by left|]. destruct Hend as [?|Hend]; [by left|right].
      by rewrite list_lookup_insert_ne in Hend by lia.
Qed.

Definition num_skipped_blocks (m : Manager) (num_computed_tokens : Z) : Z :=
  Z.max 0 (get_num_skipped_tokens (mspec m) num_computed_tokens) / block_size m.

(** Null blocks come before all others. *)
Definition null_prefix (null : bref) (bl : list bref) : Prop :=
  ∀ i j, (i ≤ j)%nat → bl !! j = Some null → bl !! i = Some null.

Lemma skip_shrinks p bl nc k n : entry_ok p (bl, nc) → (k ≤ n ≤ length bl)%nat →
  ¬ usable p (null_block p) →
  (enable_caching p = true → (n ≤ Z.to_nat nc)%nat) → (enable_kv_cache_events p = true → n = 0%nat) →
  shrinks p (bl, nc) (take k bl ++ replicate (n - k) (null_block p) ++ drop n bl, nc) (reverse (take (n - k) (drop k bl))).
Proof.
  intros He Hk Hnull Hca Hev. pose proof (eo_nc _ _ He) as Hnc. simpl in Hnc. split; simpl.
  - intros b. rewrite elem_of_reverse. intros Hb%subseteq_take. by eapply subseteq_drop.
  - intros b. rewrite !elem_of_app. intros [Hb|[[-> _]%elem_of_replicate|Hb]]; [|by right|].
    + left. by eapply subseteq_take.
    + left. by eapply subseteq_drop.
  - intros b Hb. rewrite occ_reverse, !occ_app.
    rewrite <-(take_drop k bl) at 1. rewrite <-(take_drop (n - k) (drop k bl)) at 1. rewrite drop_drop, !occ_app.
    replace (k + (n - k))%nat with n by lia.
    assert (occ b (replicate (n - k) (null_block p)) = 0) as ->; [|lia].
    apply occ_zero. intros [-> _]%elem_of_replicate. done.
  - rewrite !length_app, length_take, length_replicate, length_drop. lia.
  - intros H%Hca b. rewrite app_assoc, drop_app_ge by (rewrite length_app, length_take, length_replicate; lia).
    rewrite length_app, length_take, length_replicate, drop_drop.
    by replace (n + (Z.to_nat nc - (k `min` length bl + (n - k))))%nat with (Z.to_nat nc) by lia.
  - intros ->%Hev. assert (k = 0)%nat as -> by lia. simpl. by rewrite drop_0.
Qed.

Lemma wp_remove_skipped p l E m rid n : mgr_inv p l E m →
  num_skipped_blocks m n ≤ Z.of_nat (length (blocks_of rid m)) →
  (enable_caching p = true → num_skipped_blocks m n ≤ ncached_of rid m) →
  (enable_kv_cache_events p = true → num_skipped_blocks m n = 0) →
  wp (remove_skipped_blocks rid n) (p, m) (λ _ s, ∃ l', mgr_inv s.1 (l ++ l') E s.2 ∧ only_req rid m s.2 ∧ same_cfg p s.1 ∧
    num_cached_block s.2 = num_cached_block m ∧ length (blocks_of rid s.2) = length (blocks_of rid m) ∧
    (∀ x, hash_of s.1 x = hash_of p x) ∧
    (∀ i, num_skipped_blocks m n ≤ Z.of_nat i → blocks_of rid s.2 !! i = blocks_of rid m !! i) ∧
    (null_prefix (null_block p) (blocks_of rid m) →
      ∀ i, Z.of_nat i < num_skipped_blocks m n → blocks_of rid s.2 !! i = Some (null_block p))).
Proof.
  intros Hi Hlen Hca Hev. unfold remove_skipped_blocks. do 2 wp_step.
  unfold num_skipped_blocks in *. set (t := get_num_skipped_tokens (mspec m) n) in *.
  pose proof (mi_bs _ _ _ _ Hi) as Hbs.
  destruct (Z.leb_spec t 0) as [Ht|Ht].
  { wp_steps. exists []. rewrite app_nil_r, (Z.max_l 0 t), Z.div_0_l by lia.
    split_and!; [done|reflexivity|reflexivity|done..|lia]. }
  rewrite Z.max_r in * by lia. assert (0 ≤ t / block_size m) as Hpos by (apply Z.div_pos; lia).
  set (nb := t / block_size m) in *. wp_step. eapply wp_req_blocks; [done|]. intros m' Hi' Ho Hb Hn.
  rewrite (mi_null _ _ _ _ Hi). wp_step.
  destruct (skip_loop_spec (null_block p) (Z.to_nat nb) (blocks_of rid m) []) as (k & Hk & -> & Hne & Hend); [lia|]. simpl.
  wp_steps. unfold on_mgr. wp_steps. unfold on_pool. wp_step. set (bl' := take k _ ++ _). set (m2 := set_req _ m').
  pose proof (mgr_inv_entry _ _ _ _ rid Hi') as Hl.
  assert (entry_of rid m' = (blocks_of rid m, ncached_of rid m)) as Ee.
  { unfold entry_of, ncached_of. by rewrite (blocks_of_Some _ _ _ Hb), Hn. }
  assert (entry_of rid m2 = (bl', ncached_of rid m)) as Ee2.
  { unfold entry_of, blocks_of, ncached_of, m2. simpl. by rewrite lookup_insert_eq, Hn. }
  assert (blocks_of rid m2 = bl') as Eb2 by (by injection Ee2).
  rewrite Ee in Hl. eapply wp_mono.
  { apply (wp_ledger_free R p l _ _ (bl', ncached_of rid m) _ Hl), skip_shrinks; [| lia | | |].
    - rewrite <-Ee. by eapply mgr_entry_ok.
    - eapply null_not_usable, Hl.
    - intros H%Hca. lia.
    - intros H%Hev. lia. }
  intros _ p' (Hl' & Hc & Hh). simpl. eexists. split_and!; [|transitivity m'; [done|apply only_req_set_req]|done|done| |done| |].
  - apply (mgr_inv_update p l E m' _ _ _ rid); [done|apply only_req_set_req|done|unfold m2; simpl; by rewrite lookup_insert_eq|].
    rewrite Ee2. exact Hl'.
  - rewrite Eb2. unfold bl'. rewrite !length_app, length_take, length_replicate, length_drop. lia.
  - intros i Hin. rewrite Eb2. unfold bl'. rewrite app_assoc, lookup_app_r by (rewrite length_app, length_take, length_replicate; lia).
    rewrite length_app, length_take, length_replicate, lookup_drop. f_equal. lia.
  - intros Hnp i Hin. rewrite Eb2. unfold bl'. destruct (decide (i < k)%nat).
    + rewrite lookup_app_l by (rewrite length_take; lia). rewrite lookup_take, decide_True by done.
      destruct Hend as [->|Hend]; [lia|]. eapply Hnp; [|exact Hend]. lia.
    + rewrite lookup_app_r, length_take, lookup_app_l by (rewrite ?length_take, ?length_replicate; lia).
      apply lookup_replicate. split; [done|lia].
Qed.
End manager.

(** ** What a cache hit is *)

Section hits.
Context (R : Store → list bref → Prop) `{!FreeQueueLaws R}.
Context (p : BlockPool) (l : list bref) (Hpool : pool_inv R p l []).
Context (gids : list nat) (Hgids : ∀ g, g ∈ gids → Z.of_nat g < 2 ^ 32).

(** The cached blocks of one hash, one per group *)
Definition lookup_row (h : bytes) : option (list bref) :=
  match get_cached_block h gids p with (Ok r, _) => truthy r | (Raise _, _) => None end.

Lemma wp_lookup_row h Q : (∀ r, truthy r = lookup_row h → Q r p) → wp (get_cached_block h gids) p Q.
Proof.
  intros HQ. destruct (proj1 (wp_ok _ _ _) (wp_get_cached_block R p l [] h gids Hpool Hgids)) as (r & p' & E & -> & _).
  unfold wp. unfold lookup_row in HQ. rewrite E in HQ |- *. by apply HQ.
Qed.

Lemma lookup_row_spec h row : lookup_row h = Some row →
  length row = length gids ∧ ∀ j g b, gids !! j = Some g → row !! j = Some b → hash_of p b = Some (block_key h g).
Proof.
  destruct (proj1 (wp_ok _ _ _) (wp_get_cached_block R p l [] h gids Hpool Hgids)) as (r & p' & E & -> & Hr).
  unfold lookup_row. rewrite E. intros Et. destruct r as [[|b bs]|]; simpl in Et; [done| |done]. injection Et as <-.
  split; [by rewrite (Forall2_length _ _ _ Hr)|]. intros j g b' Hg Hb. by apply (Forall2_lookup_lr _ _ _ _ _ _ Hr Hg Hb).
Qed.

(** The columns hold [k] blocks per group; position [i] holds the row [expect i], or
    the null block when nothing is expected. *)
Definition col_ok (expect : nat → option (list bref)) (k : nat) (cols : columns) : Prop :=
  length cols = length gids ∧ ∀ j c, cols !! j = Some c → length c = k ∧
    ∀ i b, c !! i = Some b →
      match expect i with None => b = null_block p | Some row => row !! j = Some b end.

Lemma col_ok_ext expect expect' k cols : (∀ i, (i < k)%nat → expect i = expect' i) →
  col_ok expect k cols → col_ok expect' k cols.
Proof.
  intros Hext [Hl Hc]. split; [done|]. intros j c Hj. destruct (Hc j c Hj) as [Hk Hi]. split; [done|].
  intros i b Hb. rewrite <-Hext by (rewrite <-Hk; by eapply lookup_lt_Some). exact (Hi i b Hb).
Qed.

Lemma lookup_zip_row (f : list bref → bref → list bref) cols row j c' : length row = length cols →
  (zip_with f cols row ++ drop (length row) cols) !! j = Some c' →
  ∃ c b, cols !! j = Some c ∧ row !! j = Some b ∧ c' = f c b.
Proof.
  intros Hlen. rewrite drop_ge, app_nil_r by lia. intros (c & b & ? & ? & ?)%lookup_zip_with_Some. eauto.
Qed.

Lemma col_ok_append expect k cols row : col_ok expect k cols → expect k = Some row → length row = length gids →
  col_ok expect (S k) (append_row cols row).
Proof.
  intros [Hl Hc] Hk Hr. split.
  { unfold append_row. rewrite drop_ge, app_nil_r, length_zip_with by lia. lia. }
  intros j c' (c & b & Hj & Hb & ->)%lookup_zip_row; [|lia]. destruct (Hc j c Hj) as [Hlen Hi].
  split; [rewrite length_app; simpl; lia|]. intros i x [Hx|[Hge Hx]]%lookup_app_Some; [by apply Hi|].
  apply list_lookup_singleton_Some in Hx as [Ei <-]. replace i with k by lia. by rewrite Hk.
Qed.

Lemma col_ok_assign expect k cols row i : col_ok expect k cols → (i < k)%nat → length row = length gids →
  col_ok (λ x, if decide (x = i) then Some row else expect x) k (assign_row i cols row).
Proof.
  intros [Hl Hc] Hk Hr. split.
  { unfold assign_row. rewrite drop_ge, app_nil_r, length_zip_with by lia. lia. }
  intros j c' (c & b & Hj & Hb & ->)%lookup_zip_row; [|lia]. destruct (Hc j c Hj) as [Hlen Hi].
  split; [by rewrite length_insert|]. intros x y. case_decide as Ex; subst.
  - rewrite list_lookup_insert_eq by lia. by intros [= <-].
  - rewrite list_lookup_insert_ne by done. apply Hi.
Qed.

Lemma col_ok_take expect k k' cols : col_ok expect k cols → (k' ≤ k)%nat → col_ok expect k' (take k' <$> cols).
Proof.
  intros [Hl Hc] Hk. split; [by rewrite length_fmap|]. intros j c' Hj.
  apply list_lookup_fmap_Some in Hj as (c & -> & Hj). destruct (Hc j c Hj) as [Hlen Hi]. split; [rewrite length_take; lia|].
  intros i b (Hb & _)%lookup_take_Some. by apply Hi.
Qed.

Lemma col_ok_nulls n : col_ok (λ _, None) n (replicate (length gids) (replicate n (null_block p))).
Proof.
  split; [apply length_replicate|]. intros j c [-> _]%lookup_replicate. split; [apply length_replicate|].
  by intros i b [-> _]%lookup_replicate.
Qed.

Lemma col_ok_nil expect : col_ok expect 0 (replicate (length gids) []).
Proof. split; [apply length_replicate|]. by intros j c [-> _]%lookup_replicate. Qed.

Definition eagle_len (use_eagle : bool) (k : nat) : nat := if use_eagle then (k - 1)%nat else k.

Lemma wp_eagle_pop use_eagle expect k cols : gids ≠ [] → col_ok expect k cols →
  wp (eagle_pop use_eagle cols) p (λ cols' p', p' = p ∧ col_ok expect (eagle_len use_eagle k) cols').
Proof.
  intros Hne Hok. unfold eagle_pop. destruct use_eagle; [|by wp_steps]. pose proof Hok as [Hl Hc].
  destruct cols as [|c cols]; [by destruct gids|]. apply wp_bind. eapply wp_index; [done|].
  destruct (Hc 0%nat c eq_refl) as [Hk _]. case_bool_decide as E.
  - wp_steps. split; [done|]. subst c. simpl in Hk. subst k. done.
  - wp_steps. split; [done|]. change (?x :: ?y) with ((λ c, take (length c - 1) c) <$> (c :: cols)).
    rewrite (Forall_fmap_ext_1 _ (take (k - 1)) (c :: cols)).
    + apply (col_ok_take _ _ _ _ Hok). lia.
    + apply Forall_lookup. intros j x Hx. by destruct (Hc j x Hx) as [-> _].
Qed.

(** *** Full and chunked attention: the longest cached prefix *)

Fixpoint hit_prefix (hashes : list bytes) : nat :=
  match hashes with
  | [] => 0
  | h :: hashes' => if lookup_row h then S (hit_prefix hashes') else 0
  end.

Lemma hit_prefix_spec hashes : (hit_prefix hashes ≤ length hashes)%nat ∧
  (∀ i, (i < hit_prefix hashes)%nat → ∃ h, hashes !! i = Some h ∧ is_Some (lookup_row h)) ∧
  (∀ h, hashes !! hit_prefix hashes = Some h → lookup_row h = None).
Proof.
  induction hashes as [|h hashes (Hl & Hin & Hout)]; simpl; [split_and!; [lia|lia|done]|].
  destruct (lookup_row h) as [row|] eqn:E; (split_and!; [lia| |]).
  - intros [|i] Hi; simpl; [exists h; rewrite E; eauto|]. apply Hin. lia.
  - done.
  - lia.
  - by intros h' [= <-].
Qed.

(** The row at a position of the request *)
Definition row_at (hashes : list bytes) (i : nat) : option (list bref) := h ← hashes !! i; lookup_row h.

Lemma wp_hit_loop hashes : ∀ todo cols k, col_ok (row_at hashes) k cols →
  (∀ i h, todo !! i = Some h → hashes !! (k + i)%nat = Some h) →
  wp (hit_loop gids todo cols) p (λ c p', p' = p ∧ col_ok (row_at hashes) (k + hit_prefix todo) c).
Proof.
  induction todo as [|h todo IH]; intros cols k Hok Htodo; simpl; [rewrite Nat.add_0_r; by wp_steps|].
  wp_step. apply wp_lookup_row. intros r ->. destruct (lookup_row h) as [row|] eqn:E.
  - replace (k + S (hit_prefix todo))%nat with (S k + hit_prefix todo)%nat by lia. apply IH.
    + apply col_ok_append; [done| |by apply (lookup_row_spec h)]. unfold row_at.
      rewrite <-(Nat.add_0_r k), (Htodo 0%nat h eq_refl). done.
    + intros i h' Hi. rewrite <-(Htodo (S i) h' Hi). f_equal. lia.
  - rewrite Nat.add_0_r. by wp_steps.
Qed.

Lemma wp_chunk_loop hashes start : ∀ n i cols, (start ≤ i)%nat → (i + n ≤ length hashes)%nat →
  col_ok (λ x, if decide (x < start)%nat then None else row_at hashes x) i cols →
  wp (chunk_loop gids hashes i n cols) p (λ c p', p' = p ∧
    col_ok (λ x, if decide (x < start)%nat then None else row_at hashes x) (i + hit_prefix (take n (drop i hashes))) c).
Proof.
  induction n as [|n IH]; intros i cols Hs Hlen Hok; simpl; [rewrite Nat.add_0_r; by wp_steps|].
  destruct (lookup_lt_is_Some_2 hashes i) as [h Hh]; [lia|]. wp_step. eapply wp_index; [done|].
  wp_step. rewrite (drop_S _ _ _ Hh). simpl. apply wp_lookup_row. intros r ->.
  destruct (lookup_row h) as [row|] eqn:E.
  - rewrite <-Nat.add_succ_comm. apply IH; [lia|lia|]. apply col_ok_append; [done| |by apply (lookup_row_spec h)].
    rewrite decide_False by lia. unfold row_at. by rewrite Hh.
  - rewrite Nat.add_0_r. by wp_steps.
Qed.

(** *** Sliding window: the last [need] blocks of the prefix are cached *)

Definition window_ok (hashes : list bytes) (need L : nat) : Prop :=
  ∀ i, (L - need ≤ i < L)%nat → is_Some (row_at hashes i).

(** Position [i] of a hit of length [L] *)
Definition window_row (hashes : list bytes) (need L i : nat) : option (list bref) :=
  if decide (L - need ≤ i)%nat then row_at hashes i else None.

Lemma wp_window_loop hashes needed M : let need := Z.to_nat (Z.max 1 needed) in (M ≤ length hashes)%nat →
  ∀ n cols c ex, (n + c ≤ M)%nat → (c < need)%nat → col_ok ex M cols →
  (∀ i, (i < n)%nat → ex i = None) → (∀ i, (n ≤ i < n + c)%nat → ex i = row_at hashes i ∧ is_Some (row_at hashes i)) →
  (∀ L, (n + c < L ≤ M)%nat → ¬ window_ok hashes need L) →
  wp (window_loop gids hashes needed n cols c) p (λ r p', p' = p ∧ ∃ L, (L ≤ M)%nat ∧ window_ok hashes need L ∧
    (∀ L', (L < L' ≤ M)%nat → ¬ window_ok hashes need L') ∧
    col_ok (window_row hashes need L) L (if r.2 then r.1.1 else take r.1.2 <$> r.1.1)).
Proof.
  intros need HM. induction n as [|n IH]; intros cols c ex Hnc Hc Hok Hnull Hhit Hmax; simpl.
  - wp_steps. split; [done|]. exists c. split_and!; [lia| |done|].
    + intros i Hi. apply Hhit. lia.
    + apply (col_ok_ext ex); [|by eapply col_ok_take]. intros i Hi. unfold window_row. rewrite decide_True by lia. apply Hhit. lia.
  - destruct (lookup_lt_is_Some_2 hashes n) as [h Hh]; [lia|]. wp_step. eapply wp_index; [done|]. wp_step.
    apply wp_lookup_row. intros r ->. destruct (lookup_row h) as [row|] eqn:E.
    + assert (row_at hashes n = Some row) as Ern by (unfold row_at; by rewrite Hh).
      pose proof (col_ok_assign ex M cols row n Hok ltac:(lia) ltac:(by apply (lookup_row_spec h))) as Hok'.
      set (ex' := λ x, if decide (x = n) then Some row else ex x) in Hok'.
      assert (∀ i, (n ≤ i < n + S c)%nat → ex' i = row_at hashes i ∧ is_Some (row_at hashes i)) as Hhit'.
      { intros i Hi. unfold ex'. case_decide; subst; [rewrite Ern; eauto|]. apply Hhit. lia. }
      destruct (Z.leb_spec needed (Z.of_nat (S c))).
      * wp_steps. split; [done|]. exists (n + S c)%nat. split_and!; [lia| | |].
        -- intros i Hi. apply Hhit'. lia.
        -- intros L HL. apply Hmax. lia.
        -- apply (col_ok_ext ex'); [|eapply col_ok_take; [done|lia]]. intros i Hi. unfold window_row. case_decide.
           ++ apply Hhit'. lia.
           ++ unfold ex'. rewrite decide_False by lia. apply Hnull. lia.
      * apply (IH _ _ ex'); [lia|lia|done| |apply Hhit'|intros L HL; apply Hmax; lia].
        intros i Hi. unfold ex'. rewrite decide_False by lia. apply Hnull. lia.
    + apply (IH _ _ ex); [lia|lia|done|intros i Hi; apply Hnull; lia|lia|].
      intros L HL Hw. destruct (decide (S n + c < L)%nat) as [Hlt|Hge]; [apply (Hmax L); [lia|done]|].
      destruct (Hw n) as [row Hrow]; [lia|]. unfold row_at in Hrow. rewrite Hh in Hrow. simpl in Hrow. congruence.
Qed.

(** *** Mamba: the last cached state *)

Definition last_row (hashes : list bytes) (k i : nat) : option (list bref) :=
  if decide (S i = k) then row_at hashes i else None.

Lemma wp_mamba_loop hashes : ∀ n, (n ≤ length hashes)%nat →
  wp (mamba_loop gids hashes (null_block p) n (replicate (length gids) [])) p (λ cols p', p' = p ∧ ∃ k, (k ≤ n)%nat ∧
    (k = 0%nat ∨ is_Some (row_at hashes (k - 1))) ∧ (∀ i, (k ≤ i < n)%nat → row_at hashes i = None) ∧
    col_ok (last_row hashes k) k cols).
Proof.
  induction n as [|n IH]; intros Hn; simpl.
  { wp_steps. split; [done|]. exists 0%nat. split_and!; [lia|by left|lia|apply col_ok_nil]. }
  destruct (lookup_lt_is_Some_2 hashes n) as [h Hh]; [lia|]. wp_step. eapply wp_index; [done|]. wp_step.
  apply wp_lookup_row. intros r ->. destruct (lookup_row h) as [row|] eqn:E.
  - assert (row_at hashes n = Some row) as Ern by (unfold row_at; by rewrite Hh).
    wp_steps. split; [done|]. exists (S n). split_and!; [lia|right; simpl; rewrite Nat.sub_0_r, Ern; by eexists|lia|].
    apply col_ok_append; [|unfold last_row; by rewrite decide_True|by apply (lookup_row_spec h)].
    rewrite fmap_replicate. simpl. apply (col_ok_ext (λ _, None)); [|apply col_ok_nulls].
    intros i Hi. unfold last_row. by rewrite decide_False by lia.
  - eapply wp_mono; [apply IH; lia|]. intros cols p' (-> & k & Hk & Hlast & Hnone & Hok). split; [done|].
    exists k. split_and!; [lia|done| |done]. intros i Hi. destruct (decide (i = n)) as [->|]; [unfold row_at; by rewrite Hh|].
    apply Hnone. lia.
Qed.

(** *** The four searches *)

Context (Hne : gids ≠ []).

Lemma wp_full_hit hashes max_length spec use_eagle dcp pcp : is_full spec = true →
  0 ≤ max_length → 0 < scaled_block_size spec dcp pcp →
  wp (full_find_longest_cache_hit hashes max_length gids spec use_eagle dcp pcp) p (λ cols p', p' = p ∧
    col_ok (row_at hashes)
      (eagle_len use_eagle (hit_prefix (take (Z.to_nat (max_length / scaled_block_size spec dcp pcp)) hashes))) cols).
Proof.
  intros Hf Hm Hbs. unfold full_find_longest_cache_hit.
  assert (0 ≤ max_length / scaled_block_size spec dcp pcp) as Hpos by (by apply Z.div_pos).
  destruct spec; try done; simpl; rewrite (proj2 (Z.ltb_ge _ _) Hpos);
    (apply wp_bind; eapply wp_mono; [apply (wp_hit_loop hashes _ _ 0); [apply col_ok_nil|]|];
     [by intros i h (?&_)%lookup_take_Some|]; intros cols p' [-> Hok]; by apply wp_eagle_pop).
Qed.

Lemma wp_window_hit hashes max_length bs a w (use_eagle : bool) : 0 < bs → 0 ≤ max_length →
  max_length / bs ≤ Z.of_nat (length hashes) →
  let M := Z.to_nat (max_length / bs) in
  let need := Z.to_nat (Z.max 1 (cdiv (w - 1) bs + (if use_eagle then 1 else 0))) in
  wp (window_find_longest_cache_hit hashes max_length gids (SlidingWindowSpec bs a w) use_eagle 1 1) p (λ cols p', p' = p ∧
    ∃ L, (L ≤ M)%nat ∧ window_ok hashes need L ∧ (∀ L', (L < L' ≤ M)%nat → ¬ window_ok hashes need L') ∧
      col_ok (window_row hashes need L) (eagle_len use_eagle L) cols).
Proof.
  intros Hbs Hm Hlen M need. unfold window_find_longest_cache_hit.
  apply wp_bind, wp_assert; [done|]. apply wp_bind, wp_assert; [done|]. do 2 wp_step. apply wp_bind.
  eapply wp_mono; [apply (wp_window_loop hashes _ M) with (ex := λ _, None)|].
  - unfold M. assert (0 ≤ max_length / bs) by (by apply Z.div_pos). lia.
  - unfold M. lia.
  - lia.
  - apply col_ok_nulls.
  - done.
  - lia.
  - unfold M. lia.
  - intros [[cols c] found] p' (-> & L & HL & Hw & Hmax & Hok). simpl in Hok.
    eapply wp_mono; [by apply wp_eagle_pop|]. intros cols' p'' [-> Hok']. split; [done|]. exists L. done.
Qed.

Lemma wp_chunked_hit hashes max_length bs a c : 0 < bs → 0 < c → 0 ≤ max_length →
  max_length / bs ≤ Z.of_nat (length hashes) →
  let M := Z.to_nat (max_length / bs) in
  let start := Z.to_nat (max_length / c * c / bs) in
  wp (chunked_find_longest_cache_hit hashes max_length gids (ChunkedLocalAttentionSpec bs a c) false 1 1) p (λ cols p', p' = p ∧
    col_ok (λ x, if decide (x < start)%nat then None else row_at hashes x)
      (start + hit_prefix (take (M - start) (drop start hashes))) cols).
Proof.
  intros Hbs Hc Hm Hlen M start. unfold chunked_find_longest_cache_hit.
  assert ((if 0 <? max_length then max_length / c * c else 0) = max_length / c * c) as ->.
  { destruct (Z.ltb_spec 0 max_length); [done|]. replace max_length with 0 by lia. done. }
  fold M start. do 3 (apply wp_bind, wp_assert; [done|]). do 2 wp_step.
  assert (max_length / c * c ≤ max_length) by (pose proof (Z.mul_div_le max_length c Hc); lia).
  assert (start ≤ M)%nat by (unfold start, M; apply Z2Nat.inj_le; [apply Z.div_pos; [|lia]; apply Z.mul_nonneg_nonneg;
    [apply Z.div_pos; lia|lia]|apply Z.div_pos; lia|apply Z.div_le_mono; lia]).
  apply wp_chunk_loop; [lia|unfold M in *; lia|].
  apply (col_ok_ext (λ _, None)); [|apply col_ok_nulls]. intros i Hi. by rewrite decide_True.
Qed.

Lemma wp_mamba_hit hashes max_length bs sh dt pad ty n use_eagle : 0 < bs → 0 ≤ max_length →
  max_length / bs ≤ Z.of_nat (length hashes) →
  let M := Z.to_nat (max_length / bs) in
  wp (mamba_find_longest_cache_hit hashes max_length gids (MambaSpec bs sh dt pad ty n) use_eagle 1 1) p (λ cols p', p' = p ∧
    ∃ k, (k ≤ M)%nat ∧ (k = 0%nat ∨ is_Some (row_at hashes (k - 1))) ∧ (∀ i, (k ≤ i < M)%nat → row_at hashes i = None) ∧
      col_ok (last_row hashes k) k cols).
Proof.
  intros Hbs Hm Hlen M. unfold mamba_find_longest_cache_hit.
  do 2 (apply wp_bind, wp_assert; [done|]). do 2 wp_step. apply wp_mamba_loop.
  assert (0 ≤ max_length / bs) by (by apply Z.div_pos). unfold M. lia.
Qed.

(** The blocks of a column may be handed to a request. *)
Lemma col_hit_list hashes expect k cols j c : NoDup hashes → col_ok expect k cols → cols !! j = Some c →
  (∀ i row, expect i = Some row → row_at hashes i = Some row) →
  (enable_kv_cache_events p = true → ∀ i, (i < k)%nat → is_Some (expect i)) → hit_list p c.
Proof.
  intros Hnd [Hlen Hok] Hj Hex Hev. destruct (Hok j c Hj) as [Hk Hc].
  destruct (lookup_lt_is_Some_2 gids j) as [g Hg]; [rewrite <-Hlen; by eapply lookup_lt_Some|].
  assert (∀ i b row, c !! i = Some b → expect i = Some row →
    ∃ h, hashes !! i = Some h ∧ hash_of p b = Some (block_key h g)) as Hhash.
  { intros i b row Hb He. specialize (Hc i b Hb). rewrite He in Hc. specialize (Hex i row He). unfold row_at in Hex.
    apply bind_Some in Hex as (h & Hh & Hrow). exists h. split; [done|]. by eapply (lookup_row_spec h row). }
  split_and!.
  - intros b [i Hi]%list_elem_of_lookup. pose proof (Hc i b Hi) as Hb. destruct (expect i) as [row|] eqn:He; [|by left].
    right. destruct (Hhash i b row Hi He) as (h & _ & ->). by eexists.
  - intros b Hu. apply occ_le_1. intros i i' Hi Hi'.
    assert (∀ x, c !! x = Some b → ∃ h, hashes !! x = Some h ∧ hash_of p b = Some (block_key h g)) as Hx.
    { intros x Hx. pose proof (Hc x b Hx) as Hb. destruct (expect x) as [row|] eqn:He; [by eapply Hhash|].
      subst b. by apply (null_not_usable _ _ _ _ Hpool) in Hu. }
    destruct (Hx i Hi) as (h & Hh & E1), (Hx i' Hi') as (h' & Hh' & E2). rewrite E1 in E2. injection E2 as E2.
    apply app_inj_2 in E2 as [-> _]; [|done]. by eapply NoDup_lookup.
  - intros Hev' b [i Hi]%list_elem_of_lookup. destruct (Hev Hev' i) as [row He]; [rewrite <-Hk; by eapply lookup_lt_Some|].
    destruct (Hhash i b row Hi He) as (h & _ & ->). by eexists.
Qed.
End hits.

(** ** Properties *)

(** The group ids a block key can hold *)
Definition groups_fit (gids : list nat) : Prop := gids ≠ [] ∧ Forall (λ g, Z.of_nat g < 2 ^ 32) gids.

Lemma groups_fit_all gids : groups_fit gids → ∀ g, g ∈ gids → Z.of_nat g < 2 ^ 32.
Proof. intros [_ H]. by rewrite Forall_forall in H. Qed.

Definition demo_attn : AttentionFields := mkAttn 1 1 "bfloat16"%string.

(** The hash of the cached block of [demo_pool demo_ops] and an uncached one *)
Definition demo_hashes : list bytes := block_hashes demo_request ++ [[Byte.x09]].

(** C31. [FullAttentionManager.find_longest_cache_hit] returns the longest cached
    prefix: in a reachable pool it returns normally and leaves the pool alone; for some
    [n] not above the block limit, the first [n] hashes are cached in all groups and the
    next one is not (if there is one below the limit), and every group's column holds
    the cached blocks of the first [n] hashes, in order, the last one dropped for eagle. *)
Theorem full_attention_hit_longest n0 caching events use_int p held hashes max_length gids spec use_eagle dcp pcp :
  pool_reachable n0 caching events use_int p held → groups_fit gids → is_full spec = true →
  0 ≤ max_length → 0 < scaled_block_size spec dcp pcp →
  ∃ n cols, full_find_longest_cache_hit hashes max_length gids spec use_eagle dcp pcp p = (Ok cols, p) ∧
    (n ≤ Z.to_nat (max_length / scaled_block_size spec dcp pcp))%nat ∧
    (∀ i, (i < n)%nat → is_Some (row_at p gids hashes i)) ∧
    ((n < Z.to_nat (max_length / scaled_block_size spec dcp pcp))%nat → row_at p gids hashes n = None) ∧
    col_ok p gids (row_at p gids hashes) (eagle_len use_eagle n) cols.
Proof.
  intros (l & Hi & _ & _)%(reachable_ok FreeQueue.rep) Hg Hf Hm Hbs.
  destruct (proj1 (wp_ok _ _ _) (wp_full_hit FreeQueue.rep p l Hi gids (groups_fit_all _ Hg) (proj1 Hg) hashes max_length spec
    use_eagle dcp pcp Hf Hm Hbs)) as (cols & p' & E & -> & Hok).
  set (M := Z.to_nat (max_length / scaled_block_size spec dcp pcp)) in *.
  destruct (hit_prefix_spec p gids (take M hashes)) as (Hle & Hin & Hout).
  rewrite length_take in Hle. eexists _, cols. split_and!; [done| | | |exact Hok]; [lia|..].
  - intros i (h & (Hh & _)%lookup_take_Some & Hs)%Hin. unfold row_at. by rewrite Hh.
  - intros Hlt. unfold row_at. destruct (hashes !! hit_prefix p gids (take M hashes)) as [h|] eqn:Eh; [|done]. simpl.
    apply Hout. by rewrite lookup_take, decide_True by done.
Qed.

Lemma full_attention_hit_longest_witness :
  ∃ n cols, full_find_longest_cache_hit demo_hashes 5 [0%nat] (FullAttentionSpec 2 demo_attn None None) false 1 1
      (demo_pool demo_ops) = (Ok cols, demo_pool demo_ops) ∧
    (n ≤ Z.to_nat (5 / 2))%nat ∧
    (∀ i, (i < n)%nat → is_Some (row_at (demo_pool demo_ops) [0%nat] demo_hashes i)) ∧
    ((n < Z.to_nat (5 / 2))%nat → row_at (demo_pool demo_ops) [0%nat] demo_hashes n = None) ∧
    col_ok (demo_pool demo_ops) [0%nat] (row_at (demo_pool demo_ops) [0%nat] demo_hashes) (eagle_len false n) cols.
Proof.
  apply (full_attention_hit_longest 4 true true false (demo_pool demo_ops) [Blk 1] demo_hashes 5 [0%nat]
    (FullAttentionSpec 2 demo_attn None None) false 1 1 demo_reachable).
  - split; [done|]. repeat constructor; lia.
  - reflexivity.
  - lia.
  - vm_compute. reflexivity.
Defined.

(** The search finds the one cached block. *)
Example full_attention_hit_example :
  fst (full_find_longest_cache_hit demo_hashes 5 [0%nat] (FullAttentionSpec 2 demo_attn None None) false 1 1 (demo_pool demo_ops))
  = Ok [[Blk 1]].
Proof. vm_compute. reflexivity. Qed.

(** [SlidingWindowManager.find_longest_cache_hit] returns the longest prefix the
    window allows: the length [L] is the greatest one, not above the block limit, such
    that the last [need] blocks of the prefix (all of it when shorter) are cached in
    all groups, where [need] blocks cover the window (one more for eagle, at least one);
    the columns hold these blocks and null blocks before them, the last block dropped for
    eagle. *)
Theorem sliding_window_hit_longest n0 caching events use_int p held hashes max_length gids bs a w (use_eagle : bool) :
  pool_reachable n0 caching events use_int p held → groups_fit gids →
  0 < bs → 0 ≤ max_length → max_length / bs ≤ Z.of_nat (length hashes) →
  let M := Z.to_nat (max_length / bs) in
  let need := Z.to_nat (Z.max 1 (cdiv (w - 1) bs + (if use_eagle then 1 else 0))) in
  ∃ L cols, window_find_longest_cache_hit hashes max_length gids (SlidingWindowSpec bs a w) use_eagle 1 1 p = (Ok cols, p) ∧
    (L ≤ M)%nat ∧ window_ok p gids hashes need L ∧ (∀ L', (L < L' ≤ M)%nat → ¬ window_ok p gids hashes need L') ∧
    col_ok p gids (window_row p gids hashes need L) (eagle_len use_eagle L) cols.
Proof.
  intros (l & Hi & _ & _)%(reachable_ok FreeQueue.rep) Hg Hbs Hm Hlen M need.
  destruct (proj1 (wp_ok _ _ _) (wp_window_hit FreeQueue.rep p l Hi gids (groups_fit_all _ Hg) (proj1 Hg) hashes max_length bs a w
    use_eagle Hbs Hm Hlen)) as (cols & p' & E & -> & L & HL). exists L, cols. done.
Qed.

Lemma sliding_window_hit_longest_witness :
  let M := Z.to_nat (4 / 2) in
  let need := Z.to_nat (Z.max 1 (cdiv (3 - 1) 2 + 0)) in
  ∃ L cols, window_find_longest_cache_hit demo_hashes 4 [0%nat] (SlidingWindowSpec 2 demo_attn 3) false 1 1
      (demo_pool demo_ops) = (Ok cols, demo_pool demo_ops) ∧
    (L ≤ M)%nat ∧ window_ok (demo_pool demo_ops) [0%nat] demo_hashes need L ∧
    (∀ L', (L < L' ≤ M)%nat → ¬ window_ok (demo_pool demo_ops) [0%nat] demo_hashes need L') ∧
    col_ok (demo_pool demo_ops) [0%nat] (window_row (demo_pool demo_ops) [0%nat] demo_hashes need L) (eagle_len false L) cols.
Proof.
  apply (sliding_window_hit_longest 4 true true false (demo_pool demo_ops) [Blk 1] demo_hashes 4 [0%nat] 2 demo_attn 3 false demo_reachable).
  - split; [done|]. repeat constructor; lia.
  - lia.
  - lia.
  - vm_compute. discriminate.
Defined.

(** [ChunkedLocalAttentionManager.find_longest_cache_hit]: blocks before the
    chunk of the next token are null, from there on the columns hold the longest run of
    cached blocks: all positions of the run are cached in every group, and the position
    after it is not (if it is below the block limit). *)
Theorem chunked_hit_longest n0 caching events use_int p held hashes max_length gids bs a c :
  pool_reachable n0 caching events use_int p held → groups_fit gids →
  0 < bs → 0 < c → 0 ≤ max_length → max_length / bs ≤ Z.of_nat (length hashes) →
  let M := Z.to_nat (max_length / bs) in
  let start := Z.to_nat (max_length / c * c / bs) in
  ∃ n cols, chunked_find_longest_cache_hit hashes max_length gids (ChunkedLocalAttentionSpec bs a c) false 1 1 p = (Ok cols, p) ∧
    (∀ i, (start ≤ i < start + n)%nat → is_Some (row_at p gids hashes i)) ∧
    ((start + n < M)%nat → row_at p gids hashes (start + n) = None) ∧
    col_ok p gids (λ i, if decide (i < start)%nat then None else row_at p gids hashes i) (start + n) cols.
Proof.
  intros (l & Hi & _ & _)%(reachable_ok FreeQueue.rep) Hg Hbs Hc Hm Hlen M start.
  destruct (proj1 (wp_ok _ _ _) (wp_chunked_hit FreeQueue.rep p l Hi gids (groups_fit_all _ Hg) hashes max_length bs a c Hbs Hc Hm Hlen))
    as (cols & p' & E & -> & Hok). fold M start in Hok.
  destruct (hit_prefix_spec p gids (take (M - start) (drop start hashes))) as (Hle & Hin & Hout).
  eexists _, cols. split_and!; [done| | |exact Hok].
  - intros i Hi'. destruct (Hin (i - start)%nat) as (h & (Hh & _)%lookup_take_Some & Hs); [lia|]. rewrite lookup_drop in Hh.
    unfold row_at. by replace (start + (i - start))%nat with i in Hh by lia; rewrite Hh.
  - intros Hlt. unfold row_at. set (n := hit_prefix _ _ _) in *.
    destruct (hashes !! (start + n)%nat) as [h|] eqn:Eh; [|done]. simpl. apply Hout.
    by rewrite lookup_take, decide_True, lookup_drop by lia.
Qed.

Lemma chunked_hit_longest_witness :
  let M := Z.to_nat (4 / 2) in
  let start := Z.to_nat (4 / 8 * 8 / 2) in
  ∃ n cols, chunked_find_longest_cache_hit demo_hashes 4 [0%nat] (ChunkedLocalAttentionSpec 2 demo_attn 8) false 1 1
      (demo_pool demo_ops) = (Ok cols, demo_pool demo_ops) ∧
    (∀ i, (start ≤ i < start + n)%nat → is_Some (row_at (demo_pool demo_ops) [0%nat] demo_hashes i)) ∧
    ((start + n < M)%nat → row_at (demo_pool demo_ops) [0%nat] demo_hashes (start + n) = None) ∧
    col_ok (demo_pool demo_ops) [0%nat]
      (λ i, if decide (i < start)%nat then None else row_at (demo_pool demo_ops) [0%nat] demo_hashes i) (start + n) cols.
Proof.
  apply (chunked_hit_longest 4 true true false (demo_pool demo_ops) [Blk 1] demo_hashes 4 [0%nat] 2 demo_attn 8 demo_reachable).
  - split; [done|]. repeat constructor; lia.
  - lia.
  - lia.
  - lia.
  - vm_compute. discriminate.
Defined.

(** [MambaManager.find_longest_cache_hit] finds the last cached state: for some
    [k], position [k-1] is cached in all groups (or [k] is 0), no later position below
    the limit is, and the columns are [k-1] null blocks and that block. *)
Theorem mamba_hit_last n0 caching events use_int p held hashes max_length gids bs sh dt pad ty nspec use_eagle :
  pool_reachable n0 caching events use_int p held → groups_fit gids →
  0 < bs → 0 ≤ max_length → max_length / bs ≤ Z.of_nat (length hashes) →
  let M := Z.to_nat (max_length / bs) in
  ∃ k cols, mamba_find_longest_cache_hit hashes max_length gids (MambaSpec bs sh dt pad ty nspec) use_eagle 1 1 p = (Ok cols, p) ∧
    (k ≤ M)%nat ∧ (k = 0%nat ∨ is_Some (row_at p gids hashes (k - 1))) ∧
    (∀ i, (k ≤ i < M)%nat → row_at p gids hashes i = None) ∧ col_ok p gids (last_row p gids hashes k) k cols.
Proof.
  intros (l & Hi & _ & _)%(reachable_ok FreeQueue.rep) Hg Hbs Hm Hlen M.
  destruct (proj1 (wp_ok _ _ _) (wp_mamba_hit FreeQueue.rep p l Hi gids (groups_fit_all _ Hg) hashes max_length bs sh dt pad ty nspec
    use_eagle Hbs Hm Hlen)) as (cols & p' & E & -> & k & Hk). exists k, cols. done.
Qed.

Lemma mamba_hit_last_witness :
  let M := Z.to_nat (4 / 2) in
  ∃ k cols, mamba_find_longest_cache_hit demo_hashes 4 [0%nat] (MambaSpec 2 [[1]] ["f"%string] None "mamba2"%string 0) false 1 1
      (demo_pool demo_ops) = (Ok cols, demo_pool demo_ops) ∧
    (k ≤ M)%nat ∧ (k = 0%nat ∨ is_Some (row_at (demo_pool demo_ops) [0%nat] demo_hashes (k - 1))) ∧
    (∀ i, (k ≤ i < M)%nat → row_at (demo_pool demo_ops) [0%nat] demo_hashes i = None) ∧
    col_ok (demo_pool demo_ops) [0%nat] (last_row (demo_pool demo_ops) [0%nat] demo_hashes k) k cols.
Proof.
  apply (mamba_hit_last 4 true true false (demo_pool demo_ops) [Blk 1] demo_hashes 4 [0%nat] 2 [[1]] ["f"%string] None "mamba2"%string 0 false demo_reachable).
  - split; [done|]. repeat constructor; lia.
  - lia.
  - lia.
  - vm_compute. discriminate.
Defined.

(** The blocks in use after [remove_skipped_blocks] at [computed] tokens and an
    allocation for [new] more tokens *)
Definition live_blocks (spec : KVCacheSpec) (computed new : Z) : Z :=
  cdiv (computed + new) (spec_block_size spec) - Z.max 0 (get_num_skipped_tokens spec computed) / spec_block_size spec.

Lemma cdiv_sub_mul a q b : 0 < b → cdiv (a - q * b) b = cdiv a b - q.
Proof.
  intros Hb. rewrite !cdiv_spec by done. replace (a - q * b + b - 1) with (a + b - 1 + (- q) * b) by lia.
  rewrite Z.div_add by lia. lia.
Qed.

Lemma window_live bs a w computed new : 0 < bs → 1 ≤ w → 0 ≤ computed → 0 ≤ new →
  live_blocks (SlidingWindowSpec bs a w) computed new ≤ cdiv (w - 1 + new) bs + 1 ∧
  live_blocks (SlidingWindowSpec bs a w) computed new ≤ cdiv (computed + new) bs.
Proof.
  intros Hbs Hw Hc Hn. unfold live_blocks. simpl. set (t := computed - w + 1). set (q := Z.max 0 t / bs).
  assert (0 ≤ q) by (apply Z.div_pos; lia). split; [|lia].
  rewrite <-cdiv_sub_mul by done. transitivity (cdiv (w - 1 + new - (-1) * bs) bs); [|rewrite cdiv_sub_mul by done; lia].
  apply cdiv_mono; [done|]. pose proof (Z.div_mod (Z.max 0 t) bs ltac:(lia)). pose proof (Z.mod_pos_bound (Z.max 0 t) bs Hbs).
  unfold q. lia.
Qed.

Lemma chunk_live bs a c computed new : 0 < bs → 0 < c → (bs | c) → 0 ≤ computed → 0 ≤ new →
  live_blocks (ChunkedLocalAttentionSpec bs a c) computed new ≤ cdiv (c + new) bs ∧
  live_blocks (ChunkedLocalAttentionSpec bs a c) computed new ≤ cdiv (computed + new) bs.
Proof.
  intros Hbs Hc [k ->] Hcomp Hn. unfold live_blocks. simpl. set (q := computed / (k * bs)).
  assert (0 ≤ q) as Hq by (apply Z.div_pos; lia). rewrite Z.max_r by nia.
  replace (q * (k * bs)) with (q * k * bs) by lia. rewrite Z.div_mul by lia. split; [|nia].
  rewrite <-cdiv_sub_mul by done. apply cdiv_mono; [done|].
  pose proof (Z.div_mod computed (k * bs) ltac:(lia)). pose proof (Z.mod_pos_bound computed (k * bs) Hc). fold q in H. nia.
Qed.

(** The memory a spec asks for is enough: whatever the progress of a request, if
    one step schedules at most [max_num_batched_tokens] tokens within [max_model_len],
    the blocks the request occupies after the skipped ones are released fit in
    [max_memory_usage_bytes].  For chunked attention this needs the chunk size to be a
    multiple of the block size. *)
Theorem max_memory_covers_live_blocks dtype_size cfg spec computed new bytes page :
  0 < spec_block_size spec → 0 ≤ computed → 0 ≤ new ≤ max_num_batched_tokens cfg → computed + new ≤ max_model_len cfg →
  match spec with
  | SlidingWindowSpec _ _ w => 1 ≤ w
  | ChunkedLocalAttentionSpec bs _ c => 0 < c ∧ (bs | c)
  | FullAttentionSpec _ _ _ _ | MLAAttentionSpec _ _ _ _ _ =>
      decode_context_parallel_size cfg * prefill_context_parallel_size cfg ≤ 1
  | MambaSpec _ _ _ _ _ _ => True
  | _ => False
  end →
  page_size_bytes dtype_size spec = Ok page → 0 ≤ page → max_memory_usage_bytes dtype_size cfg spec = Ok bytes →
  live_blocks spec computed new * page ≤ bytes.
Proof.
  intros Hbs Hc Hn Hlen Hspec Hpage Hpos Hmem.
  assert (∃ n, max_pages cfg spec = Ok n ∧ bytes = n * page) as (n & Hpages & ->).
  { unfold max_memory_usage_bytes in Hmem. destruct spec; try done; rewrite Hpage in Hmem;
      destruct (max_pages _ _) as [n|]; simplify_eq; by exists n. }
  apply Z.mul_le_mono_nonneg_r; [done|]. clear Hmem Hpage.
  assert (∀ s, spec_block_size s = spec_block_size spec → get_num_skipped_tokens s computed = 0 →
    live_blocks s computed new ≤ cdiv (max_model_len cfg) (spec_block_size spec)) as Hno.
  { intros s Es Esk. unfold live_blocks. rewrite Es, Esk, Z.max_id, Z.div_0_l, Z.sub_0_r by lia. by apply cdiv_mono. }
  destruct spec as [bs a w c|bs a w c d|bs a c|bs a w|bs sh dt pad ty ns|bs a|bs a]; simpl in *; try done.
  - rewrite (proj2 (Z.ltb_ge _ _)) in Hpages by lia. injection Hpages as <-. by apply Hno.
  - rewrite (proj2 (Z.ltb_ge _ _)) in Hpages by lia. injection Hpages as <-. by apply Hno.
  - injection Hpages as <-. destruct Hspec as [Hc0 Hdiv].
    destruct (chunk_live bs a c computed new Hbs Hc0 Hdiv Hc ltac:(lia)) as [H1 H2].
    apply Z.min_case_strong; intros _; [etrans; [exact H1|]|etrans; [exact H2|]]; apply cdiv_mono; lia.
  - case_bool_decide; [|done]. injection Hpages as <-.
    destruct (window_live bs a w computed new Hbs Hspec Hc ltac:(lia)) as [H1 H2].
    apply Z.min_case_strong; intros _.
    + etrans; [exact H1|]. apply Z.add_le_mono_r, cdiv_mono; lia.
    + etrans; [exact H2|]. etrans; [apply (cdiv_mono _ (max_model_len cfg)); lia|lia].
  - injection Hpages as <-. by apply Hno.
Qed.

Lemma max_memory_covers_live_blocks_witness :
  live_blocks (SlidingWindowSpec 4 demo_attn 6) 21 3 * 16 ≤ 64.
Proof.
  apply (max_memory_covers_live_blocks (λ _, 2) (mkVllmConfig 100 1 1 4 0) (SlidingWindowSpec 4 demo_attn 6) 21 3 64 16);
    try (simpl; lia); reflexivity.
Defined.

(** Without divisibility the memory is too small: a chunk of 5 tokens and blocks of 4. *)
Example chunk_memory_too_small :
  max_memory_usage_bytes (λ _, 1) (mkVllmConfig 100 1 1 2 0) (ChunkedLocalAttentionSpec 4 (mkAttn 1 1 "int8"%string) 5) = Ok (2 * 8) ∧
  live_blocks (ChunkedLocalAttentionSpec 4 (mkAttn 1 1 "int8"%string) 5) 19 2 = 3.
Proof. split; reflexivity. Qed.
