(* ===== verification/Coordinator.v ===== *)
(** * vllm/v1/core/kv_cache_coordinator.py

    The coordinator runs the managers of all KV cache groups on one block pool and
    combines the cache hits of groups of different attention types. *)

From stdpp Require Import base tactics option list gmap strings sorting.
From Stdlib Require Import ZArith Lia.
From S2P Require Import Prelude KVCacheUtils Request BlockHash BlockPool Ledger KVCacheInterface SingleTypeManager.
Local Open Scope Z_scope.

(** ** State *)

(** What [verify_and_split_kv_cache_groups] computes *)
Record HybridInfo := mkHybrid {
  full_attention_group_ids : list nat;
  other_group_ids : list nat;
  full_attention_spec : KVCacheSpec;
  other_spec : KVCacheSpec;
  full_attn_first : bool;
}.

(** The subclass of the coordinator *)
Inductive coordinator_kind := NoPrefixCache | Unitary | Hybrid (h : HybridInfo).

Record Coordinator := mkCoord {
  kind : coordinator_kind;
  cmax_model_len : Z;
  use_eagle : bool;
  cdcp : Z;
  cpcp : Z;
  block_pool : BlockPool;
  single_type_managers : list Manager;
}.

Definition set_state (s : BlockPool * list Manager) (c : Coordinator) : Coordinator :=
  mkCoord (kind c) (cmax_model_len c) (use_eagle c) (cdcp c) (cpcp c) s.1 s.2.

Definition on_block_pool {A} (f : M BlockPool A) : M Coordinator A :=
  zoom block_pool (λ p c, set_state (p, single_type_managers c) c) f.

(** [for i, manager in enumerate(self.single_type_managers): f(i, manager)]: the
    managers share the pool, and those visited before an exception keep their changes. *)
Fixpoint each_from {A} (f : nat → M MS A) (i : nat) (ms : list Manager) (p : BlockPool)
    : result (list A) * (BlockPool * list Manager) :=
  match ms with
  | [] => (Ok [], (p, []))
  | m :: ms' =>
      match f i (p, m) with
      | (Raise e, s) => (Raise e, (s.1, s.2 :: ms'))
      | (Ok a, s) =>
          match each_from f (S i) ms' s.1 with
          | (Raise e, s') => (Raise e, (s'.1, s.2 :: s'.2))
          | (Ok l, s') => (Ok (a :: l), (s'.1, s.2 :: s'.2))
          end
      end
  end.

Definition each_manager {A} (f : nat → M MS A) : M Coordinator (list A) := λ c,
  let '(r, s) := each_from f 0 (single_type_managers c) (block_pool c) in (r, set_state s c).

(** ** Operations of the base class *)

Module Coord.
Definition get_num_blocks_to_allocate (request_id : string) (num_tokens : Z) (new_computed_blocks : columns)
    (num_encoder_tokens : Z) : M Coordinator Z :=
  counts ← each_manager (λ i,
    m ← gets snd;
    if is_cross (mspec m) then SingleTypeManager.get_num_blocks_to_allocate request_id num_encoder_tokens []
    else bs ← index new_computed_blocks i;
         SingleTypeManager.get_num_blocks_to_allocate request_id num_tokens bs);
  mret (foldl Z.add 0 counts).

Definition save_new_computed_blocks (request_id : string) (new_computed_blocks : columns) : M Coordinator () :=
  each_manager (λ i, bs ← index new_computed_blocks i;
    SingleTypeManager.save_new_computed_blocks request_id bs) ;; mret ().

Definition allocate_new_blocks (request_id : string) (num_tokens num_encoder_tokens : Z) : M Coordinator columns :=
  each_manager (λ _, m ← gets snd;
    SingleTypeManager.allocate_new_blocks request_id (if is_cross (mspec m) then num_encoder_tokens else num_tokens)).

Definition cache_blocks (request : Request) (num_computed_tokens : Z) : M Coordinator () :=
  each_manager (λ _, SingleTypeManager.cache_blocks request num_computed_tokens) ;; mret ().

Definition free (request_id : string) : M Coordinator () :=
  each_manager (λ _, SingleTypeManager.free request_id) ;; mret ().

(** overridden by [KVCacheCoordinatorNoPrefixCache] *)
Definition get_num_common_prefix_blocks (running_request_id : string) : M Coordinator (list Z) :=
  c ← get;
  match kind c with
  | NoPrefixCache => mret (replicate (length (single_type_managers c)) 0)
  | _ => each_manager (λ _, SingleTypeManager.get_num_common_prefix_blocks running_request_id)
  end.

Definition remove_skipped_blocks (request_id : string) (num_computed_tokens : Z) : M Coordinator () :=
  each_manager (λ _, SingleTypeManager.remove_skipped_blocks request_id num_computed_tokens) ;; mret ().

(** [manager.req_to_blocks.get(request_id) or []] *)
Definition get_blocks (request_id : string) (c : Coordinator) : columns :=
  (λ m, default [] (req_to_blocks m !! request_id)) <$> single_type_managers c.
End Coord.

(** ** Construction *)

Fixpoint make_managers (pool : BlockPool) (dcp pcp : Z) (i : nat) (groups : list KVCacheGroupSpec) : result (list Manager) :=
  match groups with
  | [] => Ok []
  | g :: rest =>
      match get_manager_for_kv_cache_spec (kv_cache_spec g) pool i dcp pcp with
      | Raise e => Raise e
      | Ok m => match make_managers pool dcp pcp (S i) rest with Raise e => Raise e | Ok ms => Ok (m :: ms) end
      end
  end.

(** The loop over the groups: the two specs and the two id lists found so far *)
Fixpoint split_groups (i : nat) (groups : list KVCacheGroupSpec) (full other : option KVCacheSpec) (fids oids : list nat)
    : result (option KVCacheSpec * option KVCacheSpec * list nat * list nat) :=
  match groups with
  | [] => Ok (full, other, fids, oids)
  | g :: rest =>
      let s := kv_cache_spec g in
      if is_full s then
        match full with
        | None => split_groups (S i) rest (Some s) other (fids ++ [i]) oids
        | Some f => if bool_decide (f = s) then split_groups (S i) rest full other (fids ++ [i]) oids else Raise AssertionError
        end
      else
        match other with
        | None => split_groups (S i) rest full (Some s) fids (oids ++ [i])
        | Some o => if bool_decide (o = s) then split_groups (S i) rest full other fids (oids ++ [i]) else Raise AssertionError
        end
  end.

(** [max(a) < min(b)] *)
Definition all_below (a b : list nat) : bool := forallb (λ x, forallb (λ y, (x <? y)%nat) b) a.

Definition verify_and_split_kv_cache_groups (groups : list KVCacheGroupSpec) (enable_caching : bool) : result HybridInfo :=
  match split_groups 0 groups None None [] [] with
  | Raise e => Raise e
  | Ok (Some full, Some other, fids, oids) =>
      if enable_caching && negb (bool_decide (spec_block_size other mod spec_block_size full = 0)) then Raise AssertionError
      else if all_below fids oids then Ok (mkHybrid fids oids full other true)
      else if all_below oids fids then Ok (mkHybrid fids oids full other false)
      else Raise ValueError
  | Ok _ => Raise AssertionError
  end.

(** [get_kv_cache_coordinator] with the constructors it calls *)
Definition get_kv_cache_coordinator (cfg : KVCacheConfig) (max_len : Z) (eagle caching events use_int : bool) (dcp pcp : Z)
    : result Coordinator :=
  match BlockPool_init (num_blocks cfg) caching events use_int with
  | Raise e => Raise e
  | Ok pool =>
      match make_managers pool dcp pcp 0 (kv_cache_groups cfg) with
      | Raise e => Raise e
      | Ok ms =>
          if negb caching then Ok (mkCoord NoPrefixCache max_len eagle dcp pcp pool ms) else
          if bool_decide (length (kv_cache_groups cfg) = 1%nat) then Ok (mkCoord Unitary max_len eagle dcp pcp pool ms) else
          if bool_decide (dcp = 1) && bool_decide (pcp = 1) then
            match verify_and_split_kv_cache_groups (kv_cache_groups cfg) caching with
            | Raise e => Raise e
            | Ok h => Ok (mkCoord (Hybrid h) max_len eagle dcp pcp pool ms)
            end
          else Raise AssertionError
      end
  end.

(** ** The longest cache hit *)

Definition hybrid_find_longest_cache_hit (h : HybridInfo) (eagle : bool) (cls : KVCacheSpec) (block_hashes : list bytes)
    (max_cache_hit_length : Z) : M BlockPool (columns * Z) :=
  let full_bs := spec_block_size (full_attention_spec h) in
  let other_bs := spec_block_size (other_spec h) in
  full ← full_find_longest_cache_hit block_hashes max_cache_hit_length (full_attention_group_ids h) (full_attention_spec h) eagle 1 1;
  full0 ← index full 0;
  let hit_length := Z.of_nat (length full0) * full_bs in
  other ← find_longest_cache_hit cls block_hashes hit_length (other_group_ids h) (other_spec h) eagle 1 1;
  other0 ← index other 0;
  let hit_length := Z.of_nat (length other0) * other_bs in
  assert_ (bool_decide (hit_length mod full_bs = 0)) ;;
  let full := take (Z.to_nat (hit_length / full_bs)) <$> full in
  mret (if full_attn_first h then full ++ other else other ++ full, hit_length).

Definition coord_find_longest_cache_hit (block_hashes : list bytes) (max_cache_hit_length : Z) : M Coordinator (columns * Z) :=
  c ← get;
  match kind c with
  | NoPrefixCache => mret (replicate (length (single_type_managers c)) [], 0)
  | Unitary =>
      m ← index (single_type_managers c) 0;
      hit ← on_block_pool (find_longest_cache_hit (mspec m) block_hashes max_cache_hit_length [0%nat] (mspec m) (use_eagle c)
                             (cdcp c) (cpcp c));
      hit0 ← index hit 0;
      let bs := spec_block_size (mspec m) * (if 1 <? cdcp c then cdcp c else 1) * (if 1 <? cpcp c then cpcp c else 1) in
      mret (hit, Z.of_nat (length hit0) * bs)
  | Hybrid h =>
      g ← index (other_group_ids h) 0;
      m ← index (single_type_managers c) g;
      on_block_pool (hybrid_find_longest_cache_hit h (use_eagle c) (mspec m) block_hashes max_cache_hit_length)
  end.

(** ** The managers together account for the pool *)

(** The loop rule: [I] relates the results so far, the managers visited (with their new
    state), those to come, and the pool. *)
Lemma wp_each_manager {A} (f : nat → M MS A) (c : Coordinator) (Q : list A → Coordinator → Prop)
    (I : list A → list Manager → list Manager → BlockPool → Prop) :
  I [] [] (single_type_managers c) (block_pool c) →
  (∀ rs fin m rest p, I rs fin (m :: rest) p → length rs = length fin →
     wp (f (length fin)) (p, m) (λ a s, I (rs ++ [a]) (fin ++ [s.2]) rest s.1)) →
  (∀ rs ms p, I rs ms [] p → length rs = length ms → Q rs (set_state (p, ms) c)) →
  wp (each_manager f) c Q.
Proof.
  intros H0 Hstep Hend. unfold wp, each_manager.
  assert (∀ rest rs fin p, I rs fin rest p → length rs = length fin →
    match each_from f (length fin) rest p with
    | (Ok l, s) => I (rs ++ l) (fin ++ s.2) [] s.1 ∧ length (rs ++ l) = length (fin ++ s.2)
    | (Raise _, _) => False
    end) as Hgen.
  { induction rest as [|m rest IH]; intros rs fin p HI Hlen; simpl; [by rewrite !app_nil_r|].
    destruct (proj1 (wp_ok _ _ _) (Hstep _ _ _ _ _ HI Hlen)) as (a & [p1 m1] & -> & HI'). simpl.
    specialize (IH (rs ++ [a]) (fin ++ [m1]) p1 HI'). rewrite !length_app in IH. simpl in IH. specialize (IH ltac:(lia)).
    replace (length fin + 1)%nat with (S (length fin)) in IH by lia. unfold Datatypes.fst.
    destruct (each_from f (S (length fin)) rest p1) as [[l|e] [p2 ms2]]; [|done]. simpl in IH |- *.
    rewrite <-!app_assoc in IH. done. }
  specialize (Hgen (single_type_managers c) [] [] (block_pool c) H0 eq_refl). simpl in Hgen.
  destruct (each_from f 0 (single_type_managers c) (block_pool c)) as [[l|e] [p ms]]; [|done]. destruct Hgen as [HI Hlen].
  by apply Hend.
Qed.

Section coordinator.
Context (R : Store → list bref → Prop) `{!FreeQueueLaws R}.

Record mgr_static (p : BlockPool) (m : Manager) : Prop := {
  ms_wf : mgr_wf m;
  ms_null : _null_block m = null_block p;
  ms_bs : 0 < block_size m;
  ms_gid : Z.of_nat (kv_cache_group_id m) < 2 ^ 32;
}.

Lemma mgr_static_inv p l E m : mgr_inv R p l E m → mgr_static p m.
Proof. intros []. by split. Qed.

Lemma mgr_static_cfg p p' m : same_cfg p p' → mgr_static p m → mgr_static p' m.
Proof. intros (_&_&E&_) []. split; [done|by rewrite E|done|done]. Qed.

(** [E]: entries that belong to no manager (blocks touched but not yet saved) *)
Record coord_inv (p : BlockPool) (l : list bref) (E : list entry) (ms : list Manager) : Prop := {
  ci_static m : m ∈ ms → mgr_static p m;
  ci_ledger : ledger_inv R p l (concat (entries <$> ms) ++ E);
}.

(** The entries of the other managers *)
Definition others (E : list entry) (fin rest : list Manager) : list entry :=
  concat (entries <$> fin) ++ concat (entries <$> rest) ++ E.

Lemma entries_split fin m rest E : concat (entries <$> fin ++ m :: rest) ++ E ≡ₚ entries m ++ others E fin rest.
Proof.
  unfold others. rewrite fmap_app, concat_app. csimpl. rewrite <-!app_assoc. apply Permutation_app_swap_app.
Qed.

Lemma coord_inv_at p l E fin m rest : coord_inv p l E (fin ++ m :: rest) → mgr_inv R p l (others E fin rest) m.
Proof.
  intros [Hs Hl]. destruct (Hs m) as [? ? ? ?]; [set_solver +|]. split; [done..|]. by rewrite <-entries_split.
Qed.

Lemma coord_inv_put p l E fin m rest p' l' E' m' : coord_inv p l E (fin ++ m :: rest) → same_cfg p p' →
  mgr_inv R p' l' (others E' fin rest) m' → coord_inv p' l' E' (fin ++ m' :: rest).
Proof.
  intros [Hs _] Hc Hm. split; [|rewrite entries_split; apply Hm].
  intros x. rewrite elem_of_app, elem_of_cons. intros [Hx|[->|Hx]].
  - apply (mgr_static_cfg p); [done|]. apply Hs. set_solver +Hx.
  - by eapply mgr_static_inv.
  - apply (mgr_static_cfg p); [done|]. apply Hs. set_solver +Hx.
Qed.

(** Running an operation on every manager.  [E i] are the loose entries when manager
    [i] is visited, [J] what is known of the pool and its free queue. *)
Lemma wp_each_coord {A} (f : nat → M MS A) (c : Coordinator) l (E : nat → list entry)
    (J : nat → BlockPool → list bref → Prop) (pre : nat → Manager → Prop) (post : nat → A → Manager → Manager → Prop)
    (Q : list A → Coordinator → Prop) :
  coord_inv (block_pool c) l (E 0%nat) (single_type_managers c) → J 0%nat (block_pool c) l →
  (∀ i m, single_type_managers c !! i = Some m → pre i m) →
  (∀ i p l F m, mgr_inv R p l (F ++ E i) m → same_cfg (block_pool c) p → J i p l → pre i m →
     wp (f i) (p, m) (λ a s, ∃ l', mgr_inv R s.1 l' (F ++ E (S i)) s.2 ∧ same_cfg p s.1 ∧ J (S i) s.1 l' ∧ post i a m s.2)) →
  (∀ rs ms p l', let n := length (single_type_managers c) in
     coord_inv p l' (E n) ms → same_cfg (block_pool c) p → J n p l' → length rs = n → length ms = n →
     (∀ i m, single_type_managers c !! i = Some m → ∃ a m', rs !! i = Some a ∧ ms !! i = Some m' ∧ post i a m m') →
     Q rs (set_state (p, ms) c)) →
  wp (each_manager f) c Q.
Proof.
  intros Hinv HJ Hpre Hstep Hend.
  apply (wp_each_manager f c Q (λ rs fin rest p, ∃ l', coord_inv p l' (E (length fin)) (fin ++ rest) ∧
    same_cfg (block_pool c) p ∧ J (length fin) p l' ∧ (∃ old, single_type_managers c = old ++ rest ∧ length old = length fin ∧
    ∀ i m, old !! i = Some m → ∃ a m', rs !! i = Some a ∧ fin !! i = Some m' ∧ post i a m m'))).
  - exists l. split_and!; [done|reflexivity|done|]. by exists [].
  - intros rs fin m rest p (l' & Hi & Hc & Hj & old & Eold & Hlen & Hold) Hrs.
    pose proof (coord_inv_at _ _ _ _ _ _ Hi) as Hm. unfold others in Hm. rewrite app_assoc in Hm.
    eapply wp_mono; [apply (Hstep _ _ _ _ _ Hm Hc Hj)|].
    { apply Hpre. rewrite Eold, <-Hlen. by apply list_lookup_middle. }
    intros a [p' m'] (l2 & Hm' & Hc' & Hj' & Hpost). simpl in *. exists l2.
    rewrite length_app. simpl. replace (length fin + 1)%nat with (S (length fin)) by lia.
    rewrite <-!app_assoc in *. simpl. split_and!; [by eapply coord_inv_put|by transitivity p|done|].
    exists (old ++ [m]). rewrite <-app_assoc, length_app. split_and!; [done|simpl; lia|].
    intros i x [Hx|[Hge Hx]]%lookup_app_Some.
    + destruct (Hold i x Hx) as (b & y & Hb & Hy & ?). exists b, y. split_and!; [by apply lookup_app_l_Some..|done].
    + apply list_lookup_singleton_Some in Hx as [Ei <-]. exists a, m'. assert (i = length fin) as -> by lia.
      split_and!; [rewrite <-Hrs|..]; [by apply list_lookup_middle..|done].
  - intros rs ms p (l' & Hi & Hc & Hj & old & Eold & Hlen & Hold) Hrs. rewrite app_nil_r in *. subst old.
    rewrite <-Hlen in *. apply (Hend _ _ _ l'); try done; lia.
Qed.

(** *** The operations *)

Definition set_ok (c : Coordinator) (p : BlockPool) (ms : list Manager) (c' : Coordinator) : Prop :=
  c' = set_state (p, ms) c ∧ length ms = length (single_type_managers c).

(** What [remove_skipped_blocks] needs of a request at [n] computed tokens *)
Definition skip_pre (p : BlockPool) (rid : string) (n : Z) (m : Manager) : Prop :=
  num_skipped_blocks m n ≤ Z.of_nat (length (blocks_of rid m)) ∧
  (enable_caching p = true → num_skipped_blocks m n ≤ ncached_of rid m) ∧
  (enable_kv_cache_events p = true → num_skipped_blocks m n = 0).

Lemma wp_coord_remove_skipped c l rid n : coord_inv (block_pool c) l [] (single_type_managers c) →
  (∀ m, m ∈ single_type_managers c → skip_pre (block_pool c) rid n m) →
  wp (Coord.remove_skipped_blocks rid n) c (λ _ c', ∃ p l' ms, set_ok c p ms c' ∧ coord_inv p l' [] ms ∧
    same_cfg (block_pool c) p ∧ (length l ≤ length l')%nat ∧ (∀ x, hash_of p x = hash_of (block_pool c) x) ∧
    ∀ i m, single_type_managers c !! i = Some m → ∃ m', ms !! i = Some m' ∧ only_req rid m m' ∧
      num_cached_block m' = num_cached_block m ∧ length (blocks_of rid m') = length (blocks_of rid m)).
Proof.
  intros Hi Hpre. unfold Coord.remove_skipped_blocks. wp_step.
  apply (wp_each_coord _ c l (λ _, []) (λ _ p l', (length l ≤ length l')%nat ∧ ∀ x, hash_of p x = hash_of (block_pool c) x)
    (λ _, skip_pre (block_pool c) rid n) (λ _ _ m m', only_req rid m m' ∧ num_cached_block m' = num_cached_block m ∧
      length (blocks_of rid m') = length (blocks_of rid m))); [done|done| | |].
  - intros i m Hm. apply Hpre. by eapply list_elem_of_lookup_2.
  - intros i p l' F m Hm Hc [Hl Hh] (H1 & H2 & H3). pose proof Hc as (_ & Eca & _ & Eev & _).
    eapply wp_mono; [apply (wp_remove_skipped R p l' _ m rid n Hm H1)|].
    + by rewrite Eca.
    + by rewrite Eev.
    + intros _ s (l2 & ? & ? & ? & ? & ? & Hh' & _). exists (l' ++ l2). rewrite length_app.
      split_and!; [done|done|lia| |done..]. intros x. by rewrite Hh', Hh.
  - intros rs ms p l' n' Hi' Hc [Hl Hh] _ Hlen Hpost. wp_steps. exists p, l', ms. split_and!; [done|done|done|done|done|].
    intros i m Hm. destruct (Hpost i m Hm) as (_ & m' & _ & ? & ?). exists m'. done.
Qed.

(** The blocks manager [m] still has to allocate when its hit is [bs] *)
Definition tokens_for (n nenc : Z) (m : Manager) : Z := if is_cross (mspec m) then nenc else n.
Definition missing (rid : string) (n nenc : Z) (m : Manager) (bs : list bref) : Z :=
  required_blocks m (tokens_for n nenc m) - Z.of_nat (length bs) - Z.of_nat (length (blocks_of rid m)).

Definition counts (p : BlockPool) (rid : string) (n nenc : Z) (bss : columns) (ms : list Manager) : list Z :=
  zip_with (λ m bs, missing rid n nenc m bs + num_evictable p bs) ms bss.

Lemma wp_coord_get_num c l rid n nenc bss : coord_inv (block_pool c) l [] (single_type_managers c) →
  length bss = length (single_type_managers c) →
  (∀ i m bs, single_type_managers c !! i = Some m → bss !! i = Some bs → is_cross (mspec m) = true → bs = []) →
  wp (Coord.get_num_blocks_to_allocate rid n bss nenc) c (λ r c', ∃ ms, set_ok c (block_pool c) ms c' ∧
    coord_inv (block_pool c) l [] ms ∧ r = zsum (counts (block_pool c) rid n nenc bss (single_type_managers c)) ∧
    ∀ i m, single_type_managers c !! i = Some m → ∃ m', ms !! i = Some m' ∧ only_req rid m m' ∧
      entry_of rid m' = entry_of rid m ∧ num_cached_block m' = num_cached_block m).
Proof.
  intros Hi Hlen Hx. unfold Coord.get_num_blocks_to_allocate. wp_step.
  apply (wp_each_coord _ c l (λ _, []) (λ _ p l', p = block_pool c ∧ l' = l)
    (λ i m, single_type_managers c !! i = Some m)
    (λ i a m m', (∃ bs, bss !! i = Some bs ∧ a = missing rid n nenc m bs + num_evictable (block_pool c) bs) ∧ only_req rid m m' ∧
      entry_of rid m' = entry_of rid m ∧ num_cached_block m' = num_cached_block m)); [done|done|done| |].
  - intros i p l' F m Hm _ [-> ->] Em. destruct (lookup_lt_is_Some_2 bss i) as [bs Hbs]; [rewrite Hlen; by eapply lookup_lt_Some|].
    do 2 wp_step. destruct (is_cross (mspec m)) eqn:Ecr.
    + eapply wp_mono; [by apply (wp_get_num_blocks_to_allocate R)|]. intros a [p' m'] (-> & ? & ? & ? & ? & ->). simpl in *.
      exists l. split_and!; [done|reflexivity|done|done| |done|done|done]. exists []. unfold missing, tokens_for. rewrite Ecr.
      split; [|done]. by rewrite (Hx i m bs Em Hbs Ecr) in Hbs.
    + apply wp_bind. eapply wp_index; [done|]. eapply wp_mono; [by apply (wp_get_num_blocks_to_allocate R)|].
      intros a [p' m'] (-> & ? & ? & ? & ? & ->). simpl in *.
      exists l. split_and!; [done|reflexivity|done|done| |done|done|done]. exists bs. unfold missing, tokens_for. rewrite Ecr. split; [done|lia].
  - intros rs ms p l' n' Hi' Hc [-> ->] Hrs Hlms Hpost. wp_steps. exists ms. split_and!; [done|done| |].
    + f_equal. apply list_eq_same_length with (n := length rs); [|done|].
      { unfold counts. rewrite length_zip_with. unfold n' in *. lia. }
      intros i a b _ Ha Hb. apply lookup_zip_with_Some in Hb as (m & bs & -> & Hm & Hbs).
      destruct (Hpost i m Hm) as (a' & m' & Ha' & _ & (bs' & Hbs' & ->) & _). congruence.
    + intros i m Hm. destruct (Hpost i m Hm) as (_ & m' & _ & ? & _ & ?). exists m'. done.
Qed.

Lemma mgr_inv_perm p l E E' m : E ≡ₚ E' → mgr_inv R p l E m → mgr_inv R p l E' m.
Proof. intros HE []. split; try done. by rewrite <-HE. Qed.

(** A request unknown to a manager *)
Definition fresh_req (rid : string) (m : Manager) : Prop :=
  is_cross (mspec m) = false ∧ blocks_of rid m = [] ∧ num_cached_block m !! rid = None.

Lemma wp_coord_save c l rid bss : coord_inv (block_pool c) l (full_entry <$> bss) (single_type_managers c) →
  length bss = length (single_type_managers c) → (∀ m, m ∈ single_type_managers c → fresh_req rid m) →
  wp (Coord.save_new_computed_blocks rid bss) c (λ _ c', ∃ ms, set_ok c (block_pool c) ms c' ∧
    coord_inv (block_pool c) l [] ms ∧
    ∀ i m, single_type_managers c !! i = Some m → ∃ m' bs, ms !! i = Some m' ∧ bss !! i = Some bs ∧ only_req rid m m' ∧
      entry_of rid m' = full_entry bs).
Proof.
  intros Hi Hlen Hfresh. unfold Coord.save_new_computed_blocks. wp_step.
  apply (wp_each_coord _ c l (λ i, full_entry <$> drop i bss) (λ _ p l', p = block_pool c ∧ l' = l)
    (λ i m, single_type_managers c !! i = Some m)
    (λ i _ m m', ∃ bs, bss !! i = Some bs ∧ only_req rid m m' ∧ entry_of rid m' = full_entry bs)); [by rewrite drop_0|done|done| |].
  - intros i p l' F m Hm _ [-> ->] Em. destruct (lookup_lt_is_Some_2 bss i) as [bs Hbs]; [rewrite Hlen; by eapply lookup_lt_Some|].
    destruct (Hfresh m) as (Hx & Hb & Hn); [by eapply list_elem_of_lookup_2|].
    apply wp_bind. eapply wp_index; [done|]. eapply wp_mono; [eapply (wp_save_new R); [|done..]|].
    { eapply mgr_inv_perm; [|exact Hm]. rewrite (drop_S _ _ _ Hbs). csimpl. symmetry. apply Permutation_middle. }
    intros [] [p' m'] (-> & ? & ? & ?). simpl in *. exists l. split_and!; [done|reflexivity|done|done|]. by exists bs.
  - intros rs ms p l' n' Hi' Hc [-> ->] Hrs Hlms Hpost. wp_steps. exists ms. unfold n' in *.
    rewrite drop_ge in Hi' by lia. split_and!; [done|done|].
    intros i m Hm. destruct (Hpost i m Hm) as (_ & m' & _ & ? & bs & ? & ? & ?). exists m', bs. done.
Qed.

(** The blocks each manager will take from the pool *)
Definition demands (rid : string) (n nenc : Z) (ms : list Manager) : list Z :=
  (λ m, Z.max 0 (missing rid n nenc m [])) <$> ms.

Lemma wp_coord_allocate c l rid n nenc : coord_inv (block_pool c) l [] (single_type_managers c) →
  zsum (demands rid n nenc (single_type_managers c)) ≤ Z.of_nat (length l) →
  wp (Coord.allocate_new_blocks rid n nenc) c (λ new c', ∃ p l' ms, set_ok c p ms c' ∧ coord_inv p l' [] ms ∧
    same_cfg (block_pool c) p ∧ length new = length ms ∧
    ∀ i m, single_type_managers c !! i = Some m → ∃ m' r, ms !! i = Some m' ∧ new !! i = Some r ∧ only_req rid m m' ∧
      blocks_of rid m' = blocks_of rid m ++ r ∧ num_cached_block m' = num_cached_block m ∧
      Z.of_nat (length r) = Z.max 0 (missing rid n nenc m [])).
Proof.
  intros Hi Hsum. unfold Coord.allocate_new_blocks. set (ds := demands rid n nenc (single_type_managers c)) in *.
  assert (∀ xs : list Z, Forall (λ x, 0 ≤ x) xs → 0 ≤ zsum xs) as Hpos.
  { induction 1; [done|]. rewrite zsum_cons. lia. }
  assert (∀ i, Forall (λ x, 0 ≤ x) (drop i ds)) as Hds.
  { intros i. apply Forall_drop. unfold ds, demands. apply Forall_fmap, Forall_forall. intros; simpl; lia. }
  apply (wp_each_coord _ c l (λ _, []) (λ i p l', zsum (drop i ds) ≤ Z.of_nat (length l'))
    (λ i m, single_type_managers c !! i = Some m)
    (λ i r m m', only_req rid m m' ∧ blocks_of rid m' = blocks_of rid m ++ r ∧ num_cached_block m' = num_cached_block m ∧
      Z.of_nat (length r) = Z.max 0 (missing rid n nenc m []))); [done|by rewrite drop_0|done| |].
  - intros i p l' F m Hm Hc Hj Em. do 2 wp_step. fold (tokens_for n nenc m).
    assert (ds !! i = Some (Z.max 0 (missing rid n nenc m []))) as Hd by (unfold ds, demands; by rewrite list_lookup_fmap, Em).
    rewrite (zsum_drop _ _ _ Hd) in Hj. pose proof (Hpos _ (Hds (S i))) as Hrest. unfold missing in *. simpl in *.
    eapply wp_mono; [apply (wp_allocate R); [done|lia]|].
    intros r s (l2 & -> & ? & ? & ? & ? & ? & Hr). rewrite length_app in Hj. exists l2. split_and!; [done|done|lia|done|done|done|lia].
  - intros rs ms p l' n' Hi' Hc _ Hrs Hlms Hpost. exists p, l', ms. split_and!; [done|done|done|lia|].
    intros i m Hm. destruct (Hpost i m Hm) as (r & m' & ? & ? & ?). exists m', r. done.
Qed.

Lemma wp_coord_cache c l request n : coord_inv (block_pool c) l [] (single_type_managers c) →
  enable_caching (block_pool c) = true → let rid := request_id request in
  (∀ m, m ∈ single_type_managers c → is_cross (mspec m) = false ∧
     n / block_size m ≤ Z.of_nat (length (blocks_of rid m)) ∧ n / block_size m ≤ Z.of_nat (length (block_hashes request))) →
  wp (Coord.cache_blocks request n) c (λ _ c', ∃ p ms, set_ok c p ms c' ∧ coord_inv p l [] ms ∧ same_cfg (block_pool c) p ∧
    ∀ i m, single_type_managers c !! i = Some m → ∃ m', ms !! i = Some m' ∧ only_req rid m m' ∧
      blocks_of rid m' = blocks_of rid m ∧ ncached_of rid m' = Z.max (ncached_of rid m) (n / block_size m)).
Proof.
  intros Hi Hca rid Hpre. unfold Coord.cache_blocks. wp_step.
  apply (wp_each_coord _ c l (λ _, []) (λ _ p l', l' = l) (λ _ m, m ∈ single_type_managers c)
    (λ _ _ m m', only_req rid m m' ∧ blocks_of rid m' = blocks_of rid m ∧
       ncached_of rid m' = Z.max (ncached_of rid m) (n / block_size m))); [done|done| | |].
  - intros i m Hm. by eapply list_elem_of_lookup_2.
  - intros i p l' F m Hm Hc -> Hin. destruct (Hpre m Hin) as (Hx & H1 & H2).
    eapply wp_mono; [apply (wp_cache_blocks R _ _ _ _ request n Hm); [|done..]|].
    + by destruct Hc as (_ & -> & _).
    + intros [] s (? & ? & ? & ? & ? & _). exists l. done.
  - intros rs ms p l' n' Hi' Hc -> _ Hlen Hpost. wp_steps. exists p, ms. split_and!; [done|done|done|].
    intros i m Hm. destruct (Hpost i m Hm) as (_ & m' & _ & ? & ?). exists m'. done.
Qed.

Lemma wp_coord_free c l rid : coord_inv (block_pool c) l [] (single_type_managers c) →
  wp (Coord.free rid) c (λ _ c', ∃ p l', set_ok c p (drop_req rid <$> single_type_managers c) c' ∧
    coord_inv p l' [] (drop_req rid <$> single_type_managers c) ∧ same_cfg (block_pool c) p ∧ (length l ≤ length l')%nat ∧
    ∀ x, hash_of p x = hash_of (block_pool c) x).
Proof.
  intros Hi. unfold Coord.free. wp_step.
  apply (wp_each_coord _ c l (λ _, []) (λ _ p l', (length l ≤ length l')%nat ∧ ∀ x, hash_of p x = hash_of (block_pool c) x)
    (λ _ _, True) (λ _ _ m m', m' = drop_req rid m)); [done|done|done| |].
  - intros i p l' F m Hm Hc [Hl Hh] _. eapply wp_mono; [by apply (wp_free R)|].
    intros [] s (? & ? & ? & Hh'). eexists. split_and!; [done|done|rewrite length_app; lia| |done]. intros x. by rewrite Hh', Hh.
  - intros rs ms p l' n' Hi' Hc [Hl Hh] _ Hlen Hpost. wp_steps.
    assert (ms = drop_req rid <$> single_type_managers c) as ->.
    { apply list_eq. intros i. rewrite list_lookup_fmap. destruct (single_type_managers c !! i) as [m|] eqn:Em; simpl.
      - destruct (Hpost i m Em) as (_ & m' & _ & -> & ->). done.
      - apply lookup_ge_None in Em. apply lookup_ge_None. unfold n' in *. lia. }
    exists p, l'. done.
Qed.

(** [touch] on the coordinator's pool *)
Lemma wp_coord_touch c l bss : coord_inv (block_pool c) l [] (single_type_managers c) →
  (∀ bs, bs ∈ bss → hit_list (block_pool c) bs) →
  wp (on_block_pool (touch bss)) c (λ _ c', ∃ p, c' = set_state (p, single_type_managers c) c ∧
    coord_inv p (filter (λ x, x ∉ concat bss) l) (full_entry <$> bss) (single_type_managers c) ∧
    same_cfg (block_pool c) p ∧ ∀ x, hash_of p x = hash_of (block_pool c) x).
Proof.
  intros [Hs Hl] Hb. rewrite app_nil_r in Hl. unfold on_block_pool. wp_step.
  eapply wp_mono; [by apply (wp_ledger_touch R)|]. intros [] p (Hl' & Hc & Hh). exists p. split_and!; [done| |done|done].
  split; [|by rewrite Permutation_app_comm]. intros m Hm. apply (mgr_static_cfg (block_pool c)); auto.
Qed.

(** Touching takes no more free blocks than the evictable ones among the hits. *)
Lemma touch_length p l bss : pool_inv R p l [] →
  Z.of_nat (length l) ≤ Z.of_nat (length (filter (λ x, x ∉ concat bss) l)) + num_evictable p (concat bss).
Proof.
  intros Hi. unfold num_evictable.
  assert (length l = length (filter (λ x, x ∈ concat bss) l) + length (filter (λ x, x ∉ concat bss) l))%nat as ->.
  { clear Hi. induction l as [|x l IH]; [done|]. rewrite !filter_cons.
    destruct (decide (x ∈ concat bss)); [rewrite decide_False by naive_solver|rewrite decide_True by done]; simpl; lia. }
  enough (length (filter (λ x, x ∈ concat bss) l) ≤ length (filter (λ b, evictable p b) (concat bss)))%nat by lia.
  apply NoDup_incl_length.
  - apply NoDup_ListNoDup, NoDup_filter. by apply (fq_nodup _ _ (pi_rep _ _ _ _ Hi)).
  - intros b [Hb (Hu & Hz & _)%(pi_free _ _ _ _ Hi)]%list_elem_of_In%list_elem_of_filter.
    apply list_elem_of_In, list_elem_of_filter. split; [|done]. unfold evictable.
    by rewrite bool_decide_true, (usable_null _ _ _ _ _ Hi Hu).
Qed.
End coordinator.

(** ** Splitting the groups of a hybrid model *)

(** The groups are the full-attention ones followed by the others, or the reverse. *)
Record hybrid_ok (h : HybridInfo) (specs : list KVCacheSpec) : Prop := {
  ho_order : (if full_attn_first h then full_attention_group_ids h ++ other_group_ids h
              else other_group_ids h ++ full_attention_group_ids h) = seq 0 (length specs);
  ho_full i : i ∈ full_attention_group_ids h → specs !! i = Some (full_attention_spec h);
  ho_other i : i ∈ other_group_ids h → specs !! i = Some (other_spec h);
  ho_kinds : is_full (full_attention_spec h) = true ∧ is_full (other_spec h) = false;
  ho_nonempty : full_attention_group_ids h ≠ [] ∧ other_group_ids h ≠ [];
}.

(** The state of the loop after the first groups *)
Record split_inv (done : list KVCacheSpec) (full other : option KVCacheSpec) (fids oids : list nat) : Prop := {
  si_perm : fids ++ oids ≡ₚ seq 0 (length done);
  si_fsorted : Sorted.StronglySorted lt fids;
  si_osorted : Sorted.StronglySorted lt oids;
  si_full i : i ∈ fids → full = done !! i ∧ is_Some full;
  si_other i : i ∈ oids → other = done !! i ∧ is_Some other;
  si_fkind s : full = Some s → is_full s = true ∧ fids ≠ [];
  si_okind s : other = Some s → is_full s = false ∧ oids ≠ [];
}.

Lemma sorted_snoc l n : Sorted.StronglySorted lt l → (∀ i, i ∈ l → (i < n)%nat) → Sorted.StronglySorted lt (l ++ [n]).
Proof.
  induction 1 as [|x l Hs IH Hx]; intros Hn; simpl; [repeat constructor|]. constructor.
  - apply IH. intros i Hi. apply Hn. by right.
  - apply Forall_app. split; [done|]. repeat constructor. apply Hn. left.
Qed.

Lemma split_inv_bound done full other fids oids i : split_inv done full other fids oids →
  i ∈ fids ∨ i ∈ oids → (i < length done)%nat.
Proof.
  intros Hi Hin. assert (i ∈ fids ++ oids) as H by set_solver. rewrite (si_perm _ _ _ _ _ Hi) in H. apply elem_of_seq in H. lia.
Qed.

Lemma split_groups_spec : ∀ groups done full other fids oids r, split_inv done full other fids oids →
  split_groups (length done) groups full other fids oids = Ok r →
  let '(full', other', fids', oids') := r in split_inv (done ++ (kv_cache_spec <$> groups)) full' other' fids' oids'.
Proof.
  induction groups as [|g groups IH]; intros done full other fids oids r Hi Hr; csimpl in *.
  { injection Hr as <-. by rewrite app_nil_r. }
  assert (length (done ++ [kv_cache_spec g]) = S (length done)) as Hlen by (rewrite length_app; simpl; lia).
  replace (done ++ kv_cache_spec g :: (kv_cache_spec <$> groups)) with ((done ++ [kv_cache_spec g]) ++ (kv_cache_spec <$> groups))
    by (by rewrite <-app_assoc).
  rewrite <-Hlen in Hr.
  assert (∀ i o, i ∈ fids ∨ i ∈ oids → o = done !! i → o = (done ++ [kv_cache_spec g]) !! i) as Hold.
  { intros i o Hin ->. by rewrite lookup_app_l by (by eapply split_inv_bound). }
  assert ((done ++ [kv_cache_spec g]) !! length done = Some (kv_cache_spec g)) as Hnew by (by apply list_lookup_middle).
  pose proof Hi as [Hp Hfs Hos Hf Ho Hfk Hok].
  destruct (is_full (kv_cache_spec g)) eqn:Ek.
  - assert (∀ f, (full = None ∨ full = Some (kv_cache_spec g)) → f = Some (kv_cache_spec g) →
      split_inv (done ++ [kv_cache_spec g]) f other (fids ++ [length done]) oids) as Hnext.
    { intros f Hfull ->. split; [..|done].
      - rewrite Hlen, seq_S, <-Hp, <-app_assoc. simpl. by rewrite <-Permutation_middle, Permutation_cons_append, <-app_assoc.
      - apply sorted_snoc; [done|]. intros i Hin. eapply split_inv_bound; [done|by left].
      - done.
      - intros i [Hin| ->%list_elem_of_singleton]%elem_of_app; [|by rewrite Hnew; eauto].
        destruct (Hf i Hin) as [E Hs]. split; [|eauto]. apply Hold; [by left|]. destruct Hfull as [->| ->]; [by destruct Hs|done].
      - intros i Hin. destruct (Ho i Hin) as [E Hs]. split; [|done]. apply Hold; [by right|done].
      - intros s [= <-]. split; [done|]. by destruct fids. }
    destruct full as [f|]; [case_bool_decide; [subst|done]|]; (eapply IH; [|exact Hr]; apply Hnext; auto).
  - assert (∀ o, (other = None ∨ other = Some (kv_cache_spec g)) → o = Some (kv_cache_spec g) →
      split_inv (done ++ [kv_cache_spec g]) full o fids (oids ++ [length done])) as Hnext.
    { intros o Hother ->. split; [.. |done|].
      - rewrite Hlen, seq_S, <-Hp, <-app_assoc. done.
      - done.
      - apply sorted_snoc; [done|]. intros i Hin. eapply split_inv_bound; [done|by right].
      - intros i Hin. destruct (Hf i Hin) as [E Hs]. split; [|done]. apply Hold; [by left|done].
      - intros i [Hin| ->%list_elem_of_singleton]%elem_of_app; [|by rewrite Hnew; eauto].
        destruct (Ho i Hin) as [E Hs]. split; [|eauto]. apply Hold; [by right|]. destruct Hother as [->| ->]; [by destruct Hs|done].
      - intros s [= <-]. split; [done|]. by destruct oids. }
    destruct other as [o|]; [case_bool_decide; [subst|done]|]; (eapply IH; [|exact Hr]; apply Hnext; auto).
Qed.

Lemma sorted_app a b : Sorted.StronglySorted lt a → Sorted.StronglySorted lt b → all_below a b = true →
  Sorted.StronglySorted lt (a ++ b).
Proof.
  intros Ha Hb Hab. unfold all_below in Hab. rewrite forallb_forall in Hab. induction Ha as [|x a Ha IH Hx]; simpl; [done|].
  constructor; [apply IH; intros; apply Hab; by right|]. apply Forall_app. split; [done|]. apply Forall_forall. intros y Hy.
  specialize (Hab x (or_introl eq_refl)). rewrite forallb_forall in Hab. apply Nat.ltb_lt, Hab. by apply list_elem_of_In.
Qed.

Lemma sorted_seq l n : Sorted.StronglySorted lt l → l ≡ₚ seq 0 n → l = seq 0 n.
Proof.
  intros Hl Hp. apply (StronglySorted_unique_strong lt); [lia|done| |done].
  clear. generalize 0%nat. induction n as [|n IH]; intros k; simpl; constructor; [done|].
  apply Forall_forall. intros x ?%elem_of_seq. lia.
Qed.

Lemma verify_and_split_ok groups caching h : verify_and_split_kv_cache_groups groups caching = Ok h →
  hybrid_ok h (kv_cache_spec <$> groups) ∧
  (caching = true → spec_block_size (other_spec h) mod spec_block_size (full_attention_spec h) = 0).
Proof.
  unfold verify_and_split_kv_cache_groups. destruct (split_groups _ _ _ _ _ _) as [[[[full other] fids] oids]|] eqn:E; [|done].
  apply (split_groups_spec groups []) in E; [|split; (done || set_solver || constructor)]. simpl in E.
  destruct E as [Hp Hfs Hos Hf Ho Hfk Hok]. intros H. destruct full as [full|], other as [other|]; [|done..].
  destruct (caching && _) eqn:Ec; [done|].
  assert (caching = true → spec_block_size other mod spec_block_size full = 0) as Hdiv.
  { intros ->. simpl in Ec. apply negb_false_iff, bool_decide_eq_true in Ec. done. }
  destruct (Hfk _ eq_refl), (Hok _ eq_refl).
  assert (∀ first, (if first : bool then fids ++ oids else oids ++ fids) = seq 0 (length (kv_cache_spec <$> groups)) →
    hybrid_ok (mkHybrid fids oids full other first) (kv_cache_spec <$> groups)) as Hmk.
  { intros first Eo. split; simpl; [done| | |done|done]; intros i Hin.
    - by destruct (Hf i Hin).
    - by destruct (Ho i Hin). }
  destruct (all_below fids oids) eqn:E1; [|destruct (all_below oids fids) eqn:E2; [|done]]; injection H as <-.
  - split; [|done]. apply Hmk. apply sorted_seq; [by apply sorted_app|done].
  - split; [|done]. apply Hmk. apply sorted_seq; [by apply sorted_app|]. by rewrite Permutation_app_comm.
Qed.

(** ** The hit of the coordinator *)

(** The specs a search supports *)
Definition searchable (spec : KVCacheSpec) (eagle : bool) (dcp pcp : Z) : Prop :=
  match spec with
  | FullAttentionSpec _ _ _ _ | MLAAttentionSpec _ _ _ _ _ => True
  | SlidingWindowSpec _ _ _ | MambaSpec _ _ _ _ _ _ => dcp = 1 ∧ pcp = 1
  | ChunkedLocalAttentionSpec _ _ c => eagle = false ∧ dcp = 1 ∧ pcp = 1 ∧ 0 < c
  | _ => False
  end.

Section search.
Context (R : Store → list bref → Prop) `{!FreeQueueLaws R}.
Context (p : BlockPool) (l : list bref) (Hpool : pool_inv R p l []).

(** A hit of [k] blocks for groups [gids]: position [i] of every column holds the
    cached block of hash [i] or the null block. *)
Definition hit_of (gids : list nat) (hashes : list bytes) (dense : bool) (k : nat) (cols : columns) : Prop :=
  ∃ ex, col_ok p gids ex k cols ∧ (∀ i row, ex i = Some row → row_at p gids hashes i = Some row) ∧
    (dense = true → ∀ i, (i < k)%nat → is_Some (ex i)) ∧ (k ≤ length hashes)%nat.

Lemma eagle_len_le eagle k : (eagle_len eagle k ≤ k)%nat.
Proof. destruct eagle; simpl; lia. Qed.

Lemma blocks_le_length (k : nat) max_length bs : 0 < bs → 0 ≤ max_length → (k ≤ Z.to_nat (max_length / bs))%nat →
  Z.of_nat k * bs ≤ max_length.
Proof.
  intros Hbs Hm Hk. assert (0 ≤ max_length / bs) by (by apply Z.div_pos).
  pose proof (Z.mul_div_le max_length bs Hbs). assert (Z.of_nat k ≤ max_length / bs) by lia. nia.
Qed.

Lemma wp_full_find_hit gids hashes max_length spec eagle dcp pcp :
  gids ≠ [] → (∀ g, g ∈ gids → Z.of_nat g < 2 ^ 32) → is_full spec = true →
  let bs := scaled_block_size spec dcp pcp in 0 < bs → 0 ≤ max_length →
  wp (full_find_longest_cache_hit hashes max_length gids spec eagle dcp pcp) p (λ cols p', p' = p ∧
    ∃ k, Z.of_nat k * bs ≤ max_length ∧ hit_of gids hashes true k cols).
Proof.
  intros Hne Hg Hf bs Hbs Hm. eapply wp_mono; [by apply (wp_full_hit R p l Hpool gids Hg Hne)|].
  intros cols p' [-> Hok]. split; [done|]. fold bs in Hok.
  destruct (hit_prefix_spec p gids (take (Z.to_nat (max_length / bs)) hashes)) as (Hle & Hin & _). rewrite length_take in Hle.
  set (n := hit_prefix p gids _) in *. pose proof (eagle_len_le eagle n) as Hel.
  exists (eagle_len eagle n). split; [apply blocks_le_length; [done|done|lia]|].
  exists (row_at p gids hashes). split_and!; [exact Hok|done| |lia].
  intros _ i Hi. destruct (Hin i) as (h & (Hh & _)%lookup_take_Some & Hs'); [lia|]. unfold row_at. by rewrite Hh.
Qed.

Lemma wp_find_hit gids hashes max_length spec eagle dcp pcp :
  gids ≠ [] → (∀ g, g ∈ gids → Z.of_nat g < 2 ^ 32) → searchable spec eagle dcp pcp →
  let bs := scaled_block_size spec dcp pcp in
  0 < bs → 0 ≤ max_length → max_length / bs ≤ Z.of_nat (length hashes) →
  wp (find_longest_cache_hit spec hashes max_length gids spec eagle dcp pcp) p (λ cols p', p' = p ∧
    ∃ k, Z.of_nat k * bs ≤ max_length ∧ hit_of gids hashes (is_full spec) k cols).
Proof.
  intros Hne Hg Hs bs Hbs Hm Hlen. unfold bs in *. clear bs.
  destruct spec as [bs a w c|bs a w c d|bs a c|bs a w|bs sh dt pad ty ns|bs a|bs a]; simpl in Hs; try done.
  - by apply wp_full_find_hit.
  - by apply wp_full_find_hit.
  - destruct Hs as (-> & -> & -> & Hc). eapply wp_mono; [by apply (wp_chunked_hit R p l Hpool gids Hg)|].
    intros cols p' [-> Hok]. split; [done|].
    assert (scaled_block_size (ChunkedLocalAttentionSpec bs a c) 1 1 = bs) as Esb by done. rewrite Esb in *. set (M := Z.to_nat (max_length / bs)) in *.
    set (start := Z.to_nat (max_length / c * c / bs)) in *.
    destruct (hit_prefix_spec p gids (take (M - start) (drop start hashes))) as (Hle & _). rewrite length_take, length_drop in Hle.
    assert (start ≤ M)%nat.
    { unfold start, M. apply Z2Nat.inj_le; [apply Z.div_pos; [|lia]; apply Z.mul_nonneg_nonneg; [apply Z.div_pos; lia|lia]|
        apply Z.div_pos; lia|apply Z.div_le_mono; [lia|]; pose proof (Z.mul_div_le max_length c Hc); lia]. }
    eexists. split; [|eexists; split_and!; [exact Hok| |done|unfold M in *; lia]].
    { apply blocks_le_length; [done|done|]. unfold M in *; lia. }
    intros i row. simpl. by case_decide.
  - destruct Hs as [-> ->]. eapply wp_mono; [by apply (wp_window_hit R p l Hpool gids Hg Hne)|].
    intros cols p' (-> & L & HL & _ & _ & Hok). split; [done|]. exists (eagle_len eagle L).
    assert (scaled_block_size (SlidingWindowSpec bs a w) 1 1 = bs) as Esb by done. rewrite Esb in *.
    pose proof (eagle_len_le eagle L). split; [apply blocks_le_length; [done|done|]; lia|].
    eexists. split_and!; [exact Hok| |done|lia]. intros i row. unfold window_row. by case_decide.
  - destruct Hs as [-> ->]. eapply wp_mono; [by apply (wp_mamba_hit R p l Hpool gids Hg)|].
    intros cols p' (-> & k & Hk & _ & _ & Hok). split; [done|]. exists k.
    assert (scaled_block_size (MambaSpec bs sh dt pad ty ns) 1 1 = bs) as Esb by done. rewrite Esb in *.
    split; [apply blocks_le_length; [done|done|]; lia|].
    eexists. split_and!; [exact Hok| |done|lia]. intros i row. unfold last_row. by case_decide.
Qed.

Lemma hit_of_length gids hashes dense k cols j c : hit_of gids hashes dense k cols → cols !! j = Some c → length c = k.
Proof. intros (ex & [_ Hok] & _) Hj. by apply (Hok j c). Qed.

Lemma hit_of_take gids hashes dense k k' cols : (k' ≤ k)%nat → hit_of gids hashes dense k cols →
  hit_of gids hashes dense k' (take k' <$> cols).
Proof.
  intros Hk (ex & Hok & H1 & H2 & H3). exists ex. split_and!; [by eapply col_ok_take|done| |lia]. intros Hd i Hi. apply H2; [done|lia].
Qed.

Lemma hit_of_hit_list gids hashes dense k cols j c : (∀ g, g ∈ gids → Z.of_nat g < 2 ^ 32) → NoDup hashes →
  hit_of gids hashes dense k cols → cols !! j = Some c →
  (enable_kv_cache_events p = true → dense = true) → hit_list p c.
Proof.
  intros Hg Hnd (ex & Hok & H1 & H2 & _) Hj Hev. eapply (col_hit_list R p l Hpool gids Hg hashes); [done..|]. auto.
Qed.

Lemma wp_hybrid_hit h specs hashes max_length eagle : hybrid_ok h specs → Z.of_nat (length specs) < 2 ^ 32 →
  0 < spec_block_size (full_attention_spec h) → 0 < spec_block_size (other_spec h) →
  spec_block_size (other_spec h) mod spec_block_size (full_attention_spec h) = 0 →
  searchable (other_spec h) eagle 1 1 → 0 ≤ max_length →
  wp (hybrid_find_longest_cache_hit h eagle (other_spec h) hashes max_length) p (λ r p', p' = p ∧
    ∃ kf ko full other, hit_of (full_attention_group_ids h) hashes true kf full ∧
      hit_of (other_group_ids h) hashes false ko other ∧
      r = (if full_attn_first h then full ++ other else other ++ full, Z.of_nat ko * spec_block_size (other_spec h)) ∧
      Z.of_nat kf * spec_block_size (full_attention_spec h) = Z.of_nat ko * spec_block_size (other_spec h) ∧
      Z.of_nat ko * spec_block_size (other_spec h) ≤ max_length).
Proof.
  intros Hh Hn Hbf Hbo Hdiv Hs Hm. unfold hybrid_find_longest_cache_hit.
  assert (∀ g, g ∈ full_attention_group_ids h ++ other_group_ids h → Z.of_nat g < 2 ^ 32) as Hgall.
  { intros g Hg. assert (g ∈ seq 0 (length specs)) as Hin%elem_of_seq; [|lia]. rewrite <-(ho_order _ _ Hh). destruct (full_attn_first h); set_solver. }
  destruct (ho_nonempty _ _ Hh) as [Hnf Hno]. destruct (ho_kinds _ _ Hh) as [Hkf _].
  set (bf := spec_block_size (full_attention_spec h)) in *. set (bo := spec_block_size (other_spec h)) in *.
  assert (scaled_block_size (full_attention_spec h) 1 1 = bf) as Esf by done.
  assert (scaled_block_size (other_spec h) 1 1 = bo) as Eso by done.
  apply wp_bind. eapply wp_mono.
  { apply (wp_full_find_hit (full_attention_group_ids h)); [done| |done|by rewrite Esf|done].
    intros g Hg. apply Hgall. set_solver +Hg. }
  intros full p' (-> & k & Hkm & Hfull). rewrite Esf in Hkm. pose proof Hfull as (exf & [Hlf _] & _ & _ & Hkl).
  destruct (lookup_lt_is_Some_2 full 0) as [full0 Hf0].
  { rewrite Hlf. destruct (full_attention_group_ids h); [done|simpl; lia]. }
  apply wp_bind. eapply wp_index; [done|]. rewrite (hit_of_length _ _ _ _ _ _ _ Hfull Hf0).
  assert (∃ d, bo = d * bf ∧ 0 < d) as (d & Ed & Hd).
  { apply Z.mod_divide in Hdiv as [d Hd]; [|lia]. exists d. split; [done|]. nia. }
  assert (Z.of_nat k * bf / bo ≤ Z.of_nat k) as Hko.
  { rewrite Ed. apply Z.div_le_upper_bound; nia. }
  apply wp_bind. eapply wp_mono.
  { apply (wp_find_hit (other_group_ids h)); [done| |done|by rewrite Eso|nia|rewrite Eso; lia].
    intros g Hg. apply Hgall. set_solver +Hg. }
  intros other p' (-> & ko & Hkob & Hother). rewrite Eso in Hkob. pose proof Hother as (exo & [Hlo _] & _).
  destruct (lookup_lt_is_Some_2 other 0) as [other0 Ho0].
  { rewrite Hlo. destruct (other_group_ids h); [done|simpl; lia]. }
  apply wp_bind. eapply wp_index; [done|]. rewrite (hit_of_length _ _ _ _ _ _ _ Hother Ho0).
  assert (Z.of_nat ko * bo = Z.of_nat ko * d * bf) as Emul by (rewrite Ed; lia).
  apply wp_bind, wp_assert; [apply bool_decide_eq_true; rewrite Emul; apply Z.mod_mul; lia|].
  rewrite Emul, Z.div_mul by lia. wp_steps. split; [done|]. exists (Z.to_nat (Z.of_nat ko * d)), ko, (take (Z.to_nat (Z.of_nat ko * d)) <$> full), other.
  split_and!; [| |rewrite <-Emul; done|lia|lia].
  - eapply hit_of_take; [|exact Hfull]. nia.
  - destruct Hother as (ex & H1 & H2 & _ & H4). exists ex. done.
Qed.
End search.

(** ** Properties *)

Lemma hit_of_key R `{!FreeQueueLaws R} p l gids hashes dense k cols i c g j b : pool_inv R p l [] →
  (∀ g, g ∈ gids → Z.of_nat g < 2 ^ 32) → hit_of p gids hashes dense k cols →
  cols !! i = Some c → gids !! i = Some g → c !! j = Some b →
  b = null_block p ∨ ∃ h, hashes !! j = Some h ∧ hash_of p b = Some (block_key h g).
Proof.
  intros Hp Hg (ex & [_ Hok] & Hex & _) Hi Hgi Hj. destruct (Hok i c Hi) as [_ Hc]. specialize (Hc j b Hj).
  destruct (ex j) as [row|] eqn:E; [right|by left]. apply Hex in E. unfold row_at in E.
  apply bind_Some in E as (h & Hh & Hrow). exists h. split; [done|].
  by eapply (lookup_row_spec R p l Hp gids Hg h row).
Qed.

(** The two id lists, one after the other, index the groups. *)
Lemma hybrid_index h specs i : hybrid_ok h specs → (i < length specs)%nat →
  let first := if full_attn_first h then full_attention_group_ids h else other_group_ids h in
  let second := if full_attn_first h then other_group_ids h else full_attention_group_ids h in
  (if decide (i < length first)%nat then first !! i = Some i else second !! (i - length first)%nat = Some i) ∧
  (length first + length second = length specs)%nat.
Proof.
  intros Hh Hi first second. assert (first ++ second = seq 0 (length specs)) as E.
  { rewrite <-(ho_order _ _ Hh). unfold first, second. by destruct (full_attn_first h). }
  split; [|rewrite <-length_app, E; apply length_seq].
  assert ((first ++ second) !! i = Some i) as Hl by (rewrite E; apply lookup_seq; lia).
  case_decide; [by rewrite lookup_app_l in Hl|]. by rewrite lookup_app_r in Hl by lia.
Qed.

Section hybrid_columns.
Context (R : Store → list bref → Prop) `{!FreeQueueLaws R}.

(** Column [i] of a merged hit belongs to group [i]. *)
Lemma hybrid_column p l h specs hashes kf ko full other i c s :
  pool_inv R p l [] → hybrid_ok h specs → Z.of_nat (length specs) < 2 ^ 32 →
  hit_of p (full_attention_group_ids h) hashes true kf full → hit_of p (other_group_ids h) hashes false ko other →
  Z.of_nat kf * spec_block_size (full_attention_spec h) = Z.of_nat ko * spec_block_size (other_spec h) →
  (if full_attn_first h then full ++ other else other ++ full) !! i = Some c → specs !! i = Some s →
  Z.of_nat (length c) * spec_block_size s = Z.of_nat ko * spec_block_size (other_spec h) ∧
  ∀ j b, c !! j = Some b → b = null_block p ∨ ∃ hsh, hashes !! j = Some hsh ∧ hash_of p b = Some (block_key hsh i).
Proof.
  intros Hp Hh Hn Hf Ho Elen Hc Hs. pose proof (lookup_lt_Some _ _ _ Hs) as Hi.
  destruct (hybrid_index h specs i Hh Hi) as [Hidx _].
  assert (∀ gids dense k cols x, hit_of p gids hashes dense k cols →
    (gids = full_attention_group_ids h ∧ k = kf ∨ gids = other_group_ids h ∧ k = ko) →
    cols !! x = Some c → gids !! x = Some i →
    Z.of_nat (length c) * spec_block_size s = Z.of_nat ko * spec_block_size (other_spec h) ∧
    ∀ j b, c !! j = Some b → b = null_block p ∨ ∃ hsh, hashes !! j = Some hsh ∧ hash_of p b = Some (block_key hsh i)) as Hcol.
  { intros gids dense k cols x Hhit Hk Hx Hgx. assert (i ∈ gids) as Hin by (by eapply list_elem_of_lookup_2). split.
    - rewrite (hit_of_length _ _ _ _ _ _ _ _ Hhit Hx). destruct Hk as [[-> ->]|[-> ->]].
      + apply (ho_full _ _ Hh) in Hin. by simplify_eq.
      + apply (ho_other _ _ Hh) in Hin. by simplify_eq.
    - intros j b Hj. eapply (hit_of_key R); [exact Hp| |exact Hhit|done..]. intros g Hg.
      assert (g ∈ seq 0 (length specs)) as ?%elem_of_seq; [|lia]. rewrite <-(ho_order _ _ Hh).
      destruct Hk as [[-> _]|[-> _]], (full_attn_first h); set_solver +Hg. }
  pose proof Hf as (_ & [Hlf _] & _). pose proof Ho as (_ & [Hlo _] & _).
  destruct (full_attn_first h); simpl in Hidx; case_decide.
  - rewrite lookup_app_l in Hc by lia. eapply Hcol; [exact Hf|by left|done..].
  - rewrite lookup_app_r, Hlf in Hc by lia. eapply Hcol; [exact Ho|by right|done..].
  - rewrite lookup_app_l in Hc by lia. eapply Hcol; [exact Ho|by right|done..].
  - rewrite lookup_app_r, Hlo in Hc by lia. eapply Hcol; [exact Hf|by left|done..].
Qed.
End hybrid_columns.

(** The hit of a hybrid model is aligned.  If [verify_and_split_kv_cache_groups]
    accepts the groups, the search returns normally; it returns one column per group, in
    the order of the groups; in every group the columns cover the same number of tokens,
    the returned length, which is not above the limit; and every block of column [i] is the
    null block or the cached block of group [i] for the hash at its position. *)
Theorem hybrid_hit_aligned n0 caching events use_int p held groups h hashes max_length eagle :
  pool_reachable n0 caching events use_int p held → verify_and_split_kv_cache_groups groups true = Ok h →
  Z.of_nat (length groups) < 2 ^ 32 → 0 < spec_block_size (full_attention_spec h) → 0 < spec_block_size (other_spec h) →
  searchable (other_spec h) eagle 1 1 → 0 ≤ max_length →
  ∃ cols len, hybrid_find_longest_cache_hit h eagle (other_spec h) hashes max_length p = (Ok (cols, len), p) ∧
    length cols = length groups ∧ 0 ≤ len ≤ max_length ∧
    ∀ i c g, cols !! i = Some c → groups !! i = Some g →
      Z.of_nat (length c) * spec_block_size (kv_cache_spec g) = len ∧
      ∀ j b, c !! j = Some b → b = null_block p ∨ ∃ hsh, hashes !! j = Some hsh ∧ hash_of p b = Some (block_key hsh i).
Proof.
  intros (l & Hp & _ & _)%(reachable_ok FreeQueue.rep) [Hh Hdiv]%verify_and_split_ok Hn Hbf Hbo Hs Hm.
  set (specs := kv_cache_spec <$> groups) in *. assert (length specs = length groups) as El by (unfold specs; by rewrite length_fmap).
  rewrite <-El in *.
  destruct (proj1 (wp_ok _ _ _) (wp_hybrid_hit FreeQueue.rep p l Hp h specs hashes max_length eagle Hh Hn Hbf Hbo (Hdiv eq_refl) Hs Hm))
    as ([cols len] & p' & E & -> & kf & ko & full & other & Hf & Ho & [= -> ->] & Elen & Hlen).
  eexists _, _. split_and!; [exact E| |lia|done|].
  - destruct Hf as (_ & [Hlf _] & _), Ho as (_ & [Hlo _] & _).
    pose proof (f_equal length (ho_order _ _ Hh)) as Hord. rewrite length_seq in Hord. rewrite <-Hord.
    destruct (full_attn_first h); rewrite !length_app; lia.
  - intros i c g Hc Hg. eapply (hybrid_column FreeQueue.rep p l h specs); [done..|]. unfold specs. by rewrite list_lookup_fmap, Hg.
Qed.

Definition demo_groups : list KVCacheGroupSpec :=
  [mkGroup [] (FullAttentionSpec 2 demo_attn None None); mkGroup [] (SlidingWindowSpec 2 demo_attn 3)].

Lemma hybrid_hit_aligned_witness : ∃ h,
  verify_and_split_kv_cache_groups demo_groups true = Ok h ∧
  ∃ cols len, hybrid_find_longest_cache_hit h false (other_spec h) demo_hashes 3 (demo_pool demo_ops) = (Ok (cols, len), demo_pool demo_ops) ∧
    length cols = length demo_groups ∧ 0 ≤ len ≤ 3 ∧
    ∀ i c g, cols !! i = Some c → demo_groups !! i = Some g →
      Z.of_nat (length c) * spec_block_size (kv_cache_spec g) = len ∧
      ∀ j b, c !! j = Some b → b = null_block (demo_pool demo_ops) ∨
        ∃ hsh, demo_hashes !! j = Some hsh ∧ hash_of (demo_pool demo_ops) b = Some (block_key hsh i).
Proof.
  exists (mkHybrid [0%nat] [1%nat] (FullAttentionSpec 2 demo_attn None None) (SlidingWindowSpec 2 demo_attn 3) true).
  split; [reflexivity|].
  apply (hybrid_hit_aligned 4 true true false (demo_pool demo_ops) [Blk 1] demo_groups _ demo_hashes 3 false demo_reachable);
    [reflexivity|simpl; lia..|done|lia].
Defined.
