(* ===== verification/KVCacheManager.v ===== *)
(** * vllm/v1/core/kv_cache_manager.py

    The interface of the scheduler to the KV cache: [get_computed_blocks],
    [allocate_slots] and [free], on top of the coordinator, and the prefix-cache
    statistics of vllm/v1/metrics/stats.py. *)

From stdpp Require Import base tactics option list gmap strings.
From Stdlib Require Import ZArith Lia QArith.
From S2P Require Import Prelude KVCacheUtils Request BlockHash BlockPool Ledger KVCacheInterface SingleTypeManager Coordinator.
Local Open Scope Z_scope.

(** ** Statistics *)

Record PrefixCacheStats := mkStats {
  st_reset : bool;
  st_requests : Z; st_queries : Z; st_hits : Z;
  st_preempted_requests : Z; st_preempted_queries : Z; st_preempted_hits : Z;
}.
Definition new_stats : PrefixCacheStats := mkStats false 0 0 0 0 0 0.

Definition record (num_tokens num_hits : Z) (preempted : bool) (s : PrefixCacheStats) : PrefixCacheStats :=
  if preempted
  then mkStats (st_reset s) (st_requests s) (st_queries s) (st_hits s)
         (st_preempted_requests s + 1) (st_preempted_queries s + num_tokens) (st_preempted_hits s + num_hits)
  else mkStats (st_reset s) (st_requests s + 1) (st_queries s + num_tokens) (st_hits s + num_hits)
         (st_preempted_requests s) (st_preempted_queries s) (st_preempted_hits s).
Definition set_reset (s : PrefixCacheStats) : PrefixCacheStats :=
  mkStats true (st_requests s) (st_queries s) (st_hits s) (st_preempted_requests s) (st_preempted_queries s) (st_preempted_hits s).

(** [CachingMetrics]: the hit rate of the most recent requests *)
Module Metrics.
Record CachingMetrics := mkMetrics {
  max_recent_requests : Z;
  aggregated_requests : Z;
  aggregated_query_total : Z;
  aggregated_query_hit : Z;
  query_queue : list (Z * Z * Z);
}.

Definition init (n : Z) : CachingMetrics := mkMetrics n 0 0 0 [].
Definition reset (m : CachingMetrics) : CachingMetrics := mkMetrics (max_recent_requests m) 0 0 0 [].

(** [while len(queue) > 1 and aggregated_requests > max_recent_requests] *)
Fixpoint evict (queue : list (Z * Z * Z)) (limit req total hit : Z) : CachingMetrics :=
  match queue with
  | (r, q, h) :: ((_ :: _) as rest) =>
      if limit <? req then evict rest limit (req - r) (total - q) (hit - h) else mkMetrics limit req total hit queue
  | _ => mkMetrics limit req total hit queue
  end.

Definition observe (stats : PrefixCacheStats) (m0 : CachingMetrics) : CachingMetrics :=
  let m := if st_reset stats then reset m0 else m0 in
  if bool_decide (st_requests stats = 0) then m else
  evict (query_queue m ++ [(st_requests stats, st_queries stats, st_hits stats)]) (max_recent_requests m)
    (aggregated_requests m + st_requests stats) (aggregated_query_total m + st_queries stats)
    (aggregated_query_hit m + st_hits stats).

Definition hit_rate (m : CachingMetrics) : Q :=
  if bool_decide (aggregated_query_total m = 0) then 0%Q
  else (inject_Z (aggregated_query_hit m) / inject_Z (aggregated_query_total m))%Q.
End Metrics.

(** ** KVCacheBlocks *)

(** [EmptyBlocks] is the object [KVCacheManager.empty_kv_cache_blocks], which
    [allocate_slots] recognises by identity; any other object is [Blocks]. *)
Inductive KVCacheBlocks := EmptyBlocks | Blocks (blocks : columns).

Definition blocks_of_kv (n : nat) (b : KVCacheBlocks) : columns :=
  match b with EmptyBlocks => replicate n [] | Blocks cols => cols end.

(** [__add__] *)
Definition add_blocks (n : nat) (a b : KVCacheBlocks) : KVCacheBlocks :=
  Blocks (zip_with app (blocks_of_kv n a) (blocks_of_kv n b)).
Definition any_blocks (cols : columns) : bool := existsb (λ c, negb (bool_decide (c = []))) cols.
Definition kv_block_ids (p : BlockPool) (n : nat) (allow_none : bool) (b : KVCacheBlocks) : option (list (list Z)) :=
  let cols := blocks_of_kv n b in
  if allow_none && negb (any_blocks cols) then None else Some ((λ c : list bref, bid_of p <$> c) <$> cols).
Definition get_unhashed_block_ids (p : BlockPool) (n : nat) (b : KVCacheBlocks) : result (list Z) :=
  match blocks_of_kv n b with
  | [c] => Ok (bid_of p <$> filter (λ x, hash_of p x = None) c)
  | _ => Raise AssertionError
  end.
Definition new_empty (n : nat) (b : KVCacheBlocks) : KVCacheBlocks := Blocks (replicate (length (blocks_of_kv n b)) []).

(** ** KVCacheManager *)

Record KVCacheManager := mkKVM {
  km_max_model_len : Z;
  km_enable_caching : bool;
  km_log_stats : bool;
  prefix_cache_stats : option PrefixCacheStats;
  coordinator : Coordinator;
  num_kv_cache_groups : nat;
}.

Definition set_coord (c : Coordinator) (k : KVCacheManager) : KVCacheManager :=
  mkKVM (km_max_model_len k) (km_enable_caching k) (km_log_stats k) (prefix_cache_stats k) c (num_kv_cache_groups k).
Definition set_stats (s : option PrefixCacheStats) (k : KVCacheManager) : KVCacheManager :=
  mkKVM (km_max_model_len k) (km_enable_caching k) (km_log_stats k) s (coordinator k) (num_kv_cache_groups k).
Definition on_coord {A} (f : M Coordinator A) : M KVCacheManager A := zoom coordinator set_coord f.

Definition KVCacheManager_init (cfg : KVCacheConfig) (max_len : Z) (caching eagle log_stats events use_int : bool) (dcp pcp : Z)
    : result KVCacheManager :=
  let groups := kv_cache_groups cfg in
  if caching && negb (bool_decide (length (remove_dups (spec_block_size <$> (kv_cache_spec <$> groups))) = 1%nat)
                      && ((dcp * pcp <=? 1) || bool_decide (length groups = 1%nat)))
  then Raise AssertionError
  else match get_kv_cache_coordinator cfg max_len eagle caching events use_int dcp pcp with
       | Raise e => Raise e
       | Ok c => Ok (mkKVM max_len caching log_stats (if log_stats then Some new_stats else None) c (length groups))
       end.

Definition create_kv_cache_blocks (cols : columns) : KVCacheBlocks := if any_blocks cols then Blocks cols else EmptyBlocks.

Definition make_prefix_cache_stats : M KVCacheManager (option PrefixCacheStats) :=
  k ← get;
  if negb (km_log_stats k) then mret None else modify (set_stats (Some new_stats)) ;; mret (prefix_cache_stats k).

Definition get_computed_blocks (request : Request) : M KVCacheManager (KVCacheBlocks * Z) :=
  k ← get;
  if negb (km_enable_caching k) || skip_reading_prefix_cache request then mret (EmptyBlocks, 0) else
  let max_cache_hit_length := num_tokens request - 1 in
  hit ← on_coord (coord_find_longest_cache_hit (block_hashes request) max_cache_hit_length);
  (if km_log_stats k then
     match prefix_cache_stats k with
     | None => raise AssertionError
     | Some s => modify (set_stats (Some (record (num_tokens request) hit.2 (0 <? num_preemptions request) s)))
     end
   else mret ()) ;;
  mret (create_kv_cache_blocks hit.1, hit.2).

Definition allocate_slots (request : Request) (num_new_tokens num_new_computed_tokens : Z)
    (new_computed_blocks : option KVCacheBlocks) (num_lookahead_tokens : Z) (delay_cache_blocks : bool)
    (num_encoder_tokens : Z) : M KVCacheManager (option KVCacheBlocks) :=
  if bool_decide (num_new_tokens = 0) then raise ValueError else
  k ← get;
  let computed := default EmptyBlocks new_computed_blocks in
  let new_computed_block_list := blocks_of_kv (num_kv_cache_groups k) computed in
  on_coord (Coord.remove_skipped_blocks (request_id request) (num_computed_tokens request)) ;;
  let num_computed := num_computed_tokens request + num_new_computed_tokens in
  let num_tokens_need_slot := Z.min (num_computed + num_new_tokens + num_lookahead_tokens) (km_max_model_len k) in
  num_blocks_to_allocate ← on_coord (Coord.get_num_blocks_to_allocate (request_id request) num_tokens_need_slot
                                       new_computed_block_list num_encoder_tokens);
  free ← on_coord (on_block_pool get_num_free_blocks);
  if free <? num_blocks_to_allocate then mret None else
  (if km_enable_caching k then on_coord (on_block_pool (touch new_computed_block_list))
   else assert_ (negb (any_blocks new_computed_block_list))) ;;
  (match computed with
   | EmptyBlocks => mret ()
   | Blocks _ => on_coord (Coord.save_new_computed_blocks (request_id request) new_computed_block_list)
   end) ;;
  new_blocks ← on_coord (Coord.allocate_new_blocks (request_id request) num_tokens_need_slot num_encoder_tokens);
  if negb (km_enable_caching k) || delay_cache_blocks then mret (Some (create_kv_cache_blocks new_blocks)) else
  on_coord (Coord.cache_blocks request (Z.min (num_computed + num_new_tokens) (num_tokens request))) ;;
  mret (Some (create_kv_cache_blocks new_blocks)).

Definition km_free (request : Request) : M KVCacheManager () := on_coord (Coord.free (request_id request)).

Definition km_reset_prefix_cache : M KVCacheManager bool :=
  ok ← on_coord (on_block_pool reset_prefix_cache);
  if negb ok then mret false else
  k ← get;
  (if km_log_stats k then
     match prefix_cache_stats k with None => raise AssertionError | Some s => modify (set_stats (Some (set_reset s))) end
   else mret ()) ;;
  mret true.

Definition km_get_num_common_prefix_blocks (running_request_id : string) : M KVCacheManager (list Z) :=
  on_coord (Coord.get_num_common_prefix_blocks running_request_id).

Definition km_take_events : M KVCacheManager (list KVCacheEvent) := on_coord (on_block_pool BlockPool.take_events).

Definition get_blocks (request_id : string) (k : KVCacheManager) : KVCacheBlocks :=
  create_kv_cache_blocks (Coord.get_blocks request_id (coordinator k)).

Definition get_block_ids (request_id : string) (k : KVCacheManager) : option (list (list Z)) :=
  kv_block_ids (block_pool (coordinator k)) (num_kv_cache_groups k) false (get_blocks request_id k).

Definition km_cache_blocks (request : Request) (n : Z) : M KVCacheManager () :=
  k ← get; if km_enable_caching k then on_coord (Coord.cache_blocks request n) else mret ().

Definition usage (k : KVCacheManager) : Q := get_usage (block_pool (coordinator k)).

(** ** The invariant *)

Section kvm.
Context (R : Store → list bref → Prop) `{!FreeQueueLaws R}.

Abbreviation pool k := (block_pool (coordinator k)).
Abbreviation mgrs k := (single_type_managers (coordinator k)).

(** What construction fixes and no operation changes *)
Definition cfg_of (m : Manager) := (mspec m, dcp_world_size m, pcp_world_size m, kv_cache_group_id m).

Record km_shape (k : KVCacheManager) : Prop := {
  ks_groups : num_kv_cache_groups k = length (mgrs k);
  ks_caching : enable_caching (pool k) = km_enable_caching k;
  ks_stats : is_Some (prefix_cache_stats k) ↔ km_log_stats k = true;
  ks_cfg i m : mgrs k !! i = Some m → kv_cache_group_id m = i ∧
    dcp_world_size m = cdcp (coordinator k) ∧ pcp_world_size m = cpcp (coordinator k);
  ks_count : Z.of_nat (length (mgrs k)) < 2 ^ 32;
  ks_kind : match kind (coordinator k) with
    | NoPrefixCache => km_enable_caching k = false
    | Unitary => length (mgrs k) = 1%nat
    | Hybrid h => hybrid_ok h (mspec <$> mgrs k) ∧ cdcp (coordinator k) = 1 ∧ cpcp (coordinator k) = 1 ∧
        spec_block_size (other_spec h) mod spec_block_size (full_attention_spec h) = 0
    end;
}.

Definition km_inv (k : KVCacheManager) (l : list bref) : Prop := km_shape k ∧ coord_inv R (pool k) l [] (mgrs k).

Lemma only_req_cfg_of rid m m' : only_req rid m m' → cfg_of m' = cfg_of m.
Proof. unfold only_req, drop_req, cfg_of. intros [=]. congruence. Qed.

(** [ms'] is [ms] after operations on one request. *)
Definition steps_of (rid : string) (ms ms' : list Manager) (P : nat → Manager → Manager → Prop) : Prop :=
  length ms' = length ms ∧ ∀ i m, ms !! i = Some m → ∃ m', ms' !! i = Some m' ∧ only_req rid m m' ∧ P i m m'.

Lemma steps_trans rid ms ms' ms'' P P' P'' : steps_of rid ms ms' P → steps_of rid ms' ms'' P' →
  (∀ i m m' m'', ms !! i = Some m → only_req rid m m' → only_req rid m' m'' → P i m m' → P' i m' m'' → P'' i m m'') →
  steps_of rid ms ms'' P''.
Proof.
  intros [Hl H] [Hl' H'] HP. split; [lia|]. intros i m Hm. destruct (H i m Hm) as (m' & Hm' & Ho & Hp).
  destruct (H' i m' Hm') as (m'' & Hm'' & Ho' & Hp'). exists m''. split_and!; [done|by transitivity m'|by eapply HP].
Qed.

Lemma steps_cfg rid ms ms' P : steps_of rid ms ms' P → cfg_of <$> ms' = cfg_of <$> ms.
Proof.
  intros [Hl H]. apply list_eq. intros i. rewrite !list_lookup_fmap. destruct (ms !! i) as [m|] eqn:E; simpl.
  - destruct (H i m E) as (m' & -> & Ho & _). simpl. by rewrite (only_req_cfg_of _ _ _ Ho).
  - apply lookup_ge_None in E. by rewrite (proj2 (lookup_ge_None ms' i)) by lia.
Qed.

Lemma shape_update k p ms : km_shape k → same_cfg (pool k) p → cfg_of <$> ms = cfg_of <$> mgrs k →
  km_shape (set_coord (set_state (p, ms) (coordinator k)) k).
Proof.
  intros [Hg Hc Hst Hcfg Hn Hk] Hp Hms.
  assert (length ms = length (mgrs k)) as Hl by (apply (f_equal length) in Hms; by rewrite !length_fmap in Hms).
  assert (mspec <$> ms = mspec <$> mgrs k) as Hsp.
  { apply (f_equal (fmap (λ x : KVCacheSpec * Z * Z * nat, x.1.1.1))) in Hms. by rewrite <-!list_fmap_compose in Hms. }
  split; simpl; [by rewrite Hl|by destruct Hp as (_ & -> & _)|done| |by rewrite Hl|].
  - intros i m Hm. apply (f_equal (lookup i)) in Hms. rewrite !list_lookup_fmap, Hm in Hms. simpl in Hms.
    destruct (mgrs k !! i) as [m0|] eqn:E; [|done]. simpl in Hms. unfold cfg_of in Hms. simplify_eq.
    destruct (Hcfg i m0 E) as (? & ? & ?). split_and!; congruence.
  - destruct (kind (coordinator k)); [done|by rewrite Hl|by rewrite Hsp].
Qed.

Lemma spec_tokens_ge m n : 0 < block_size m → n ≤ spec_tokens (mspec m) n.
Proof.
  intros Hbs. assert (0 < spec_block_size (mspec m)) as Hb.
  { unfold block_size, scaled_block_size in Hbs. destruct (Z.ltb_spec 1 (dcp_world_size m * pcp_world_size m)); nia. }
  destruct (mspec m); simpl in *; try done. destruct (Z.ltb_spec 0 num_speculative_blocks); nia.
Qed.

(** *** Counting *)

Definition missing_all (rid : string) (n nenc : Z) (ms : list Manager) (bss : columns) : list Z :=
  zip_with (missing rid n nenc) ms bss.

Lemma counts_split p rid n nenc : ∀ ms bss, length bss = length ms →
  zsum (counts p rid n nenc bss ms) = zsum (missing_all rid n nenc ms bss) + num_evictable p (concat bss).
Proof.
  induction ms as [|m ms IH]; intros [|bs bss] Hlen; simpl in Hlen; try done.
  specialize (IH bss ltac:(lia)). unfold counts, missing_all in *. simpl. rewrite !zsum_cons, IH.
  unfold num_evictable. rewrite filter_app, length_app. lia.
Qed.

(** Either every group is short of blocks (or exact), or every group has enough. *)
Definition balanced (xs : list Z) : Prop := Forall (λ x, 0 ≤ x) xs ∨ Forall (λ x, x ≤ 0) xs.

Lemma balanced_sum xs : balanced xs → zsum (Z.max 0 <$> xs) = Z.max 0 (zsum xs).
Proof.
  assert (∀ ys, Forall (λ x, 0 ≤ x) ys → zsum (Z.max 0 <$> ys) = zsum ys ∧ 0 ≤ zsum ys) as Hpos.
  { induction 1 as [|x l Hx _ [IH1 IH2]]; [done|]. simpl in Hx. rewrite fmap_cons, !zsum_cons, IH1, Z.max_r by done. lia. }
  assert (∀ ys, Forall (λ x, x ≤ 0) ys → zsum (Z.max 0 <$> ys) = 0 ∧ zsum ys ≤ 0) as Hneg.
  { induction 1 as [|x l Hx _ [IH1 IH2]]; [done|]. simpl in Hx. rewrite fmap_cons, !zsum_cons, IH1, Z.max_l by done. lia. }
  intros [H|H]; [destruct (Hpos xs H) as [-> ?]|destruct (Hneg xs H) as [-> ?]]; lia.
Qed.

Lemma missing_only rid n nenc m m' bs : only_req rid m m' →
  Z.of_nat (length (blocks_of rid m')) = Z.of_nat (length (blocks_of rid m)) + Z.of_nat (length bs) →
  missing rid n nenc m' [] = missing rid n nenc m bs.
Proof.
  intros Ho Hl. destruct (only_req_cfg _ _ _ Ho) as (Es & Eb & _). unfold missing, required_blocks, tokens_for.
  rewrite Es, Eb, Hl. simpl. lia.
Qed.

(** *** Committing an allocation: touch, save, allocate *)

Definition hits_ok (p : BlockPool) (ms : list Manager) (rid : string) (kb : KVCacheBlocks) : Prop :=
  match kb with
  | EmptyBlocks => True
  | Blocks bss => enable_caching p = true ∧ length bss = length ms ∧ (∀ bs, bs ∈ bss → hit_list p bs) ∧
      ∀ m, m ∈ ms → fresh_req rid m
  end.

Lemma concat_nils {A} n : concat (replicate n (@nil A)) = [].
Proof. induction n; [done|]. simpl. done. Qed.

Lemma coord_inv_nils p l ms n : coord_inv R p l (replicate n ([], 0)) ms → coord_inv R p l [] ms.
Proof.
  intros [Hs Hl]. split; [done|]. induction n as [|n IH]; [done|]. apply IH. simpl in Hl.
  by rewrite <-Permutation_middle, ledger_nil in Hl.
Qed.

Lemma any_nils n : any_blocks (replicate n []) = false.
Proof. unfold any_blocks. by induction n. Qed.

Lemma wp_commit k l rid kb : km_inv k l → hits_ok (pool k) (mgrs k) rid kb →
  let bss := blocks_of_kv (length (mgrs k)) kb in
  wp ((if km_enable_caching k then on_coord (on_block_pool (touch bss)) else assert_ (negb (any_blocks bss))) ;;
      (match kb with EmptyBlocks => mret () | Blocks _ => on_coord (Coord.save_new_computed_blocks rid bss) end)) k
    (λ _ k', ∃ p ms, k' = set_coord (set_state (p, ms) (coordinator k)) k ∧ same_cfg (pool k) p ∧
      coord_inv R p (filter (λ x, x ∉ concat bss) l) [] ms ∧
      steps_of rid (mgrs k) ms (λ i m m', ∃ bs, bss !! i = Some bs ∧ blocks_of rid m' = blocks_of rid m ++ bs ∧
        ncached_of rid m' = ncached_of rid m + Z.of_nat (length bs))).
Proof.
  intros [Hsh Hi] Hh bss. wp_step.
  apply (wp_mono _ _ (λ _ k', ∃ p, k' = set_coord (set_state (p, mgrs k) (coordinator k)) k ∧ same_cfg (pool k) p ∧
    coord_inv R p (filter (λ x, x ∉ concat bss) l) (full_entry <$> bss) (mgrs k))).
  { destruct (km_enable_caching k) eqn:Ec.
    - unfold on_coord. wp_step. eapply wp_mono; [apply (wp_coord_touch R _ l bss Hi)|].
      + destruct kb as [|cols]; unfold bss; simpl; [|apply Hh].
        intros bs [-> _]%elem_of_replicate. split_and!; [set_solver +|intros b _; rewrite occ_nil; lia|set_solver +].
      + intros [] c (p & -> & ? & ? & _). exists p. done.
    - destruct kb as [|cols]; [|destruct Hh as [Hca _]; rewrite (ks_caching _ Hsh) in Hca; congruence].
      apply wp_assert; [unfold bss; simpl; by rewrite any_nils|]. exists (pool k). destruct k as [? ? ? ? [] ?]. simpl.
      split_and!; [done|reflexivity|]. unfold bss. simpl. rewrite concat_nils, filter_id by set_solver +.
      rewrite fmap_replicate. destruct Hi as [Hs Hl]. split; [done|]. clear -Hl FreeQueueLaws0.
      generalize (length single_type_managers). intros n. rewrite app_nil_r in Hl. induction n as [|n IH]; simpl; [by rewrite app_nil_r|].
      by rewrite <-Permutation_middle, ledger_nil. }
  intros [] k1 (p & -> & Hc & Hi1). destruct kb as [|cols].
  - wp_steps. exists p, (mgrs k). unfold bss in *. simpl in *. rewrite fmap_replicate in Hi1.
    split_and!; [done|done|by eapply coord_inv_nils|]. split; [done|]. intros i m Hm. exists m.
    split_and!; [done|reflexivity|]. exists []. rewrite app_nil_r. split_and!; [|done|simpl; lia].
    apply lookup_replicate. split; [done|]. by eapply lookup_lt_Some.
  - destruct Hh as (Hca & Hlen & _ & Hfresh). unfold on_coord. wp_step.
    eapply wp_mono; [by apply (wp_coord_save R (set_state (p, mgrs k) (coordinator k)))|].
    intros [] c (ms & [-> Hlms] & Hi2 & Hpost). exists p, ms. split_and!; [done|done|done|].
    split; [done|]. intros i m Hm. destruct (Hpost i m Hm) as (m' & bs & Hm' & Hbs & Ho & Ee). exists m'. split_and!; [done|done|].
    destruct (Hfresh m) as (_ & Hb & Hn); [by eapply list_elem_of_lookup_2|]. unfold entry_of, full_entry in Ee. injection Ee as E1 E2.
    exists bs. split_and!; [done|by rewrite Hb|]. unfold ncached_of at 2. by rewrite Hn.
Qed.

(** *** [allocate_slots] *)

Definition slots_needed (k : KVCacheManager) (request : Request) (new newcomp look : Z) : Z :=
  Z.min (num_computed_tokens request + newcomp + new + look) (km_max_model_len k).
Definition tokens_to_cache (request : Request) (new newcomp : Z) : Z :=
  Z.min (num_computed_tokens request + newcomp + new) (num_tokens request).

(** What the scheduler guarantees when it asks for slots *)
Record alloc_pre (k : KVCacheManager) (request : Request) (new newcomp : Z) (kb : KVCacheBlocks) (look : Z)
    (delay : bool) (nenc : Z) : Prop := {
  ap_new : new ≠ 0;
  ap_skip m : m ∈ mgrs k → skip_pre (pool k) (request_id request) (num_computed_tokens request) m;
  ap_hits : hits_ok (pool k) (mgrs k) (request_id request) kb;
  ap_cross i m bs : mgrs k !! i = Some m → blocks_of_kv (length (mgrs k)) kb !! i = Some bs →
    is_cross (mspec m) = true → bs = [];
  ap_balanced : balanced (missing_all (request_id request) (slots_needed k request new newcomp look) nenc (mgrs k)
    (blocks_of_kv (length (mgrs k)) kb));
  ap_cache : km_enable_caching k = true → delay = false →
    tokens_to_cache request new newcomp ≤ slots_needed k request new newcomp look ∧
    ∀ m, m ∈ mgrs k → is_cross (mspec m) = false ∧
      tokens_to_cache request new newcomp / block_size m ≤ Z.of_nat (length (block_hashes request));
}.

Definition len_of (rid : string) (m : Manager) : Z := Z.of_nat (length (blocks_of rid m)).

Lemma hits_len p ms rid kb : hits_ok p ms rid kb → length (blocks_of_kv (length ms) kb) = length ms.
Proof. destruct kb; simpl; [by rewrite length_replicate|]. by intros (_ & ? & _). Qed.

Lemma hits_ok_steps p p' ms ms' rid kb P : hits_ok p ms rid kb → same_cfg p p' → (∀ x, hash_of p' x = hash_of p x) →
  steps_of rid ms ms' P → (∀ i m m', P i m m' → length (blocks_of rid m') = length (blocks_of rid m) ∧
    num_cached_block m' = num_cached_block m) → hits_ok p' ms' rid kb.
Proof.
  intros Hh Hc Hhash [Hlen Hsteps] HP. destruct kb as [|bss]; [done|]. destruct Hh as (Hca & Hl & Hb & Hf).
  pose proof Hc as (_ & Ec & En & Ee & _). split_and!; [by rewrite Ec|lia| |].
  - intros bs (H1 & H2 & H3)%Hb. split_and!.
    + intros b. rewrite En, Hhash. auto.
    + intros b. rewrite (usable_cfg _ _ _ Hc). auto.
    + rewrite Ee. intros Hev b. rewrite Hhash. auto.
  - intros m' [i Hi]%list_elem_of_lookup. destruct (lookup_lt_is_Some_2 ms i) as [m Hm].
    { rewrite <-Hlen. by eapply lookup_lt_Some. }
    destruct (Hsteps i m Hm) as (m2 & Hm2 & Ho & Hp). simplify_eq. destruct (HP _ _ _ Hp) as [El En'].
    destruct (Hf m) as (Hx & Hbl & Hn); [by eapply list_elem_of_lookup_2|]. destruct (only_req_cfg _ _ _ Ho) as (Es & _).
    split_and!; [by rewrite Es| |by rewrite En']. rewrite Hbl in El. by destruct (blocks_of rid m').
Qed.

Lemma missing_all_steps rid n nenc ms ms' bss P : steps_of rid ms ms' P →
  (∀ i m m', P i m m' → length (blocks_of rid m') = length (blocks_of rid m)) →
  missing_all rid n nenc ms' bss = missing_all rid n nenc ms bss.
Proof.
  intros [Hlen Hsteps] HP. unfold missing_all. apply list_eq. intros i. rewrite !lookup_zip_with.
  destruct (ms !! i) as [m|] eqn:E; simpl.
  - destruct (Hsteps i m E) as (m' & -> & Ho & Hp). simpl. destruct (bss !! i); simpl; [|done]. f_equal.
    destruct (only_req_cfg _ _ _ Ho) as (Es & Eb & _). unfold missing, required_blocks, tokens_for. by rewrite Es, Eb, (HP _ _ _ Hp).
  - apply lookup_ge_None in E. by rewrite (proj2 (lookup_ge_None ms' i)) by lia.
Qed.

Lemma demands_steps rid n nenc ms ms' bss P : steps_of rid ms ms' P → length bss = length ms →
  (∀ i m m', P i m m' → ∃ bs, bss !! i = Some bs ∧ blocks_of rid m' = blocks_of rid m ++ bs) →
  demands rid n nenc ms' = Z.max 0 <$> missing_all rid n nenc ms bss.
Proof.
  intros [Hlen Hsteps] Hl HP. unfold demands, missing_all. apply list_eq. intros i. rewrite !list_lookup_fmap, lookup_zip_with.
  destruct (ms !! i) as [m|] eqn:E; simpl.
  - destruct (Hsteps i m E) as (m' & -> & Ho & Hp). simpl. destruct (HP _ _ _ Hp) as (bs & -> & Eb). simpl.
    do 2 f_equal. apply missing_only; [done|]. rewrite Eb, length_app. lia.
  - apply lookup_ge_None in E. by rewrite (proj2 (lookup_ge_None ms' i)) by lia.
Qed.

(** The check of [allocate_slots]: skipped blocks are released, then the blocks are
    counted and compared with the free ones. *)
Lemma wp_check k l rid n nenc computed kb : km_inv k l →
  (∀ m, m ∈ mgrs k → skip_pre (pool k) rid computed m) → hits_ok (pool k) (mgrs k) rid kb →
  (∀ i m bs, mgrs k !! i = Some m → blocks_of_kv (length (mgrs k)) kb !! i = Some bs → is_cross (mspec m) = true → bs = []) →
  let bss := blocks_of_kv (length (mgrs k)) kb in
  wp (on_coord (Coord.remove_skipped_blocks rid computed) ;;
      a ← on_coord (Coord.get_num_blocks_to_allocate rid n bss nenc);
      b ← on_coord (on_block_pool get_num_free_blocks); mret (a, b)) k
    (λ r k', ∃ p ms l', k' = set_coord (set_state (p, ms) (coordinator k)) k ∧ same_cfg (pool k) p ∧ coord_inv R p l' [] ms ∧
      hits_ok p ms rid kb ∧ (length l ≤ length l')%nat ∧ r.2 = Z.of_nat (length l') ∧
      r.1 = zsum (missing_all rid n nenc (mgrs k) bss) + num_evictable p (concat bss) ∧
      steps_of rid (mgrs k) ms (λ i m m', length (blocks_of rid m') = length (blocks_of rid m) ∧
        num_cached_block m' = num_cached_block m)).
Proof.
  intros [Hsh Hi] Hskip Hh Hcross bss. pose proof (hits_len _ _ _ _ Hh) as Hlen. fold bss in Hlen.
  wp_step. unfold on_coord at 1. wp_step. eapply wp_mono; [by apply (wp_coord_remove_skipped R _ l)|].
  intros [] c1 (p1 & l1 & ms1 & [-> Hl1] & Hi1 & Hc1 & Hlen1 & Hh1 & Hs1).
  assert (steps_of rid (mgrs k) ms1 (λ i m m', length (blocks_of rid m') = length (blocks_of rid m) ∧
        num_cached_block m' = num_cached_block m)) as Hst1.
  { split; [done|]. intros i m Hm. destruct (Hs1 i m Hm) as (m' & ? & ? & ? & ?). eauto. }
  wp_step. unfold on_coord at 1. wp_step. eapply wp_mono.
  { apply (wp_coord_get_num R (set_state (p1, ms1) (coordinator k)) l1 rid n nenc bss Hi1); [simpl; lia|].
    intros i m1 bs Hm1 Hbs Hx. simpl in Hm1. destruct (lookup_lt_is_Some_2 (mgrs k) i) as [m Hm].
    { rewrite <-Hl1. by eapply lookup_lt_Some. }
    destruct (Hs1 i m Hm) as (m' & Hm' & Ho & _). simplify_eq. apply (Hcross i m bs Hm Hbs).
    destruct (only_req_cfg _ _ _ Ho) as (Es & _). by rewrite <-Es. }
  simpl. intros a c2 (ms2 & [-> Hl2] & Hi2 & -> & Hs2). simpl in *.
  assert (steps_of rid (mgrs k) ms2 (λ i m m', length (blocks_of rid m') = length (blocks_of rid m) ∧
        num_cached_block m' = num_cached_block m)) as Hst2.
  { eapply (steps_trans rid (mgrs k) ms1 ms2 _ (λ _ m m', entry_of rid m' = entry_of rid m ∧ num_cached_block m' = num_cached_block m)); [done|..].
    - split; [lia|]. intros i m Hm. destruct (Hs2 i m Hm) as (m' & ? & ? & ? & ?). eauto.
    - intros i m m' m'' _ _ _ [El En] [Ee En']. split; [|congruence]. rewrite <-El. unfold entry_of in Ee. by injection Ee as -> _. }
  wp_step. unfold on_coord, on_block_pool, get_num_free_blocks. wp_steps.
  exists p1, ms2, l1. split_and!; [done|done|done| |done| | |done].
  - eapply (hits_ok_steps (pool k)); [done|done|done|exact Hst2|by intros].
  - apply (fq_num _ _ (pi_rep _ _ _ _ (li_pool _ _ _ _ (ci_ledger _ _ _ _ _ Hi1)))).
  - rewrite counts_split by lia. f_equal. f_equal. eapply missing_all_steps; [exact Hst1|]. by intros ??? [-> _].
Qed.

Lemma steps_impl rid ms ms' (P P' : nat → Manager → Manager → Prop) : steps_of rid ms ms' P →
  (∀ i m m', P i m m' → P' i m m') → steps_of rid ms ms' P'.
Proof.
  intros [Hl H] HP. split; [done|]. intros i m Hm. destruct (H i m Hm) as (m' & ? & ? & ?). eauto.
Qed.

Lemma wp_seq3 {S A B C} (c1 : M S ()) (c2 : M S A) (c3 : M S B) (f : A → B → M S C) s Q :
  wp (c1 ;; a ← c2; b ← c3; mret (a, b)) s (λ r s', wp (f r.1 r.2) s' Q) → wp (c1 ;; a ← c2; b ← c3; f a b) s Q.
Proof.
  unfold wp, mbind, M_bind. destruct (c1 s) as [[[]|] s1]; [|done]. destruct (c2 s1) as [[a|] s2]; [|done].
  by destruct (c3 s2) as [[b|] s3].
Qed.

Lemma wp_seq2 {S C} (c1 c2 : M S ()) (f : M S C) s Q :
  wp (c1 ;; c2) s (λ _ s', wp f s' Q) → wp (c1 ;; c2 ;; f) s Q.
Proof.
  unfold wp, mbind, M_bind. destruct (c1 s) as [[[]|] s1]; [|done]. by destruct (c2 s1) as [[a|] s2].
Qed.

(** The blocks of a request after a successful allocation *)
Definition allocated (rid : string) (n nenc : Z) (bss new : columns) (i : nat) (m m' : Manager) : Prop :=
  ∃ bs r, bss !! i = Some bs ∧ new !! i = Some r ∧
    len_of rid m' = len_of rid m + Z.of_nat (length bs) + Z.of_nat (length r) ∧
    drop (length (blocks_of rid m)) (blocks_of rid m') = bs ++ r ∧
    Z.of_nat (length r) = Z.max 0 (missing rid n nenc m bs) ∧
    required_blocks m (tokens_for n nenc m) ≤ len_of rid m' ∧
    ncached_of rid m + Z.of_nat (length bs) ≤ ncached_of rid m'.

Lemma allocated_compose rid n nenc bss new i m m1 m2 m3 bs r : only_req rid m m1 → only_req rid m1 m2 →
  length (blocks_of rid m1) = length (blocks_of rid m) → bss !! i = Some bs → blocks_of rid m2 = blocks_of rid m1 ++ bs →
  new !! i = Some r → blocks_of rid m3 = blocks_of rid m2 ++ r → Z.of_nat (length r) = Z.max 0 (missing rid n nenc m2 []) →
  ncached_of rid m + Z.of_nat (length bs) ≤ ncached_of rid m3 →
  allocated rid n nenc bss new i m m3.
Proof.
  intros Ho1 Ho2 Hl Hbs Hb2 Hr Hb3 Hlr Hnc. assert (missing rid n nenc m2 [] = missing rid n nenc m bs) as Em.
  { apply missing_only; [by transitivity m1|]. rewrite Hb2, length_app. lia. }
  assert (len_of rid m3 = len_of rid m + Z.of_nat (length bs) + Z.of_nat (length r)) as Elen.
  { unfold len_of. rewrite Hb3, Hb2, !length_app. lia. }
  exists bs, r. split_and!; [done|done|done| |lia| |done].
  - by rewrite Hb3, Hb2, <-app_assoc, <-Hl, drop_app_length.
  - rewrite Elen. rewrite Em in Hlr. unfold missing, len_of in *. lia.
Qed.

Lemma enough_to_cache k request new newcomp look m x : 0 < block_size m →
  tokens_to_cache request new newcomp ≤ slots_needed k request new newcomp look → is_cross (mspec m) = false →
  required_blocks m (tokens_for (slots_needed k request new newcomp look) x m) ≤ len_of (request_id request) m →
  tokens_to_cache request new newcomp / block_size m ≤ len_of (request_id request) m.
Proof.
  intros Hbs Hle Hx Hreq. unfold tokens_for in Hreq. rewrite Hx in Hreq. unfold required_blocks in Hreq.
  apply cdiv_le in Hreq; [|done]. pose proof (spec_tokens_ge m (slots_needed k request new newcomp look) Hbs).
  apply Z.div_le_upper_bound; [done|]. lia.
Qed.

(** The last phase: the full blocks of the request enter the prefix cache. *)
Lemma wp_cache_phase k l l3 p3 ms3 request new newcomp look nenc bss cols : km_inv k l →
  let rid := request_id request in let n := slots_needed k request new newcomp look in let nc := tokens_to_cache request new newcomp in
  km_enable_caching k = true → coord_inv R p3 l3 [] ms3 → same_cfg (pool k) p3 →
  steps_of rid (mgrs k) ms3 (allocated rid n nenc bss cols) → nc ≤ n →
  (∀ m, m ∈ mgrs k → is_cross (mspec m) = false ∧ nc / block_size m ≤ Z.of_nat (length (block_hashes request))) →
  wp (on_coord (Coord.cache_blocks request nc)) (set_coord (set_state (p3, ms3) (coordinator k)) k) (λ _ k', ∃ p4 ms4,
    k' = set_coord (set_state (p4, ms4) (coordinator k)) k ∧ km_inv k' l3 ∧ same_cfg (pool k) p4 ∧
    steps_of rid (mgrs k) ms4 (λ i m m', allocated rid n nenc bss cols i m m' ∧ nc / block_size m ≤ ncached_of rid m')).
Proof.
  intros [Hsh Hi] rid n nc Eca Hi3 Hc Hst3 Hle Hall. unfold on_coord. apply wp_zoom. eapply wp_mono.
  { apply (wp_coord_cache R _ l3); [done| |].
    - pose proof Hc as (_ & Ep & _). simpl. by rewrite Ep, (ks_caching _ Hsh).
    - intros m3 [i Hm3]%list_elem_of_lookup. simpl in Hm3. destruct (lookup_lt_is_Some_2 (mgrs k) i) as [m Hm].
      { rewrite <-(proj1 Hst3). by eapply lookup_lt_Some. }
      destruct (proj2 Hst3 i m Hm) as (m' & ? & Ho & bs & r & _ & _ & _ & _ & _ & Hreq & _). simplify_eq.
      destruct (only_req_cfg _ _ _ Ho) as (Es & Eb & _). destruct (Hall m) as [Hx Hlen]; [by eapply list_elem_of_lookup_2|].
      rewrite Es, Eb. split_and!; [done| |done]. rewrite <-Eb. eapply enough_to_cache; [|done|by rewrite Es|].
      + rewrite Eb. apply (ms_bs _ _ (ci_static _ _ _ _ _ Hi m ltac:(by eapply list_elem_of_lookup_2))).
      + unfold tokens_for, required_blocks in *. rewrite Es, Eb. exact Hreq. }
  intros [] c4 (p4 & ms4 & [-> Hl4] & Hi4 & Hc4 & Hs4). assert (same_cfg (pool k) p4) as Hc' by (by etrans).
  assert (steps_of rid (mgrs k) ms4 (λ i m m', allocated rid n nenc bss cols i m m' ∧ nc / block_size m ≤ ncached_of rid m')) as Hst4.
  { eapply (steps_trans rid _ ms3 ms4 _ (λ _ m m', blocks_of rid m' = blocks_of rid m ∧
      ncached_of rid m' = Z.max (ncached_of rid m) (nc / block_size m))); [exact Hst3|..].
    - split; [done|]. intros i m Hm. destruct (Hs4 i m Hm) as (m' & ? & ? & ? & ?). eauto.
    - intros i m m' m'' _ Ho _ (bs & r & H1 & H2 & H3 & H4 & H5 & H6 & H7) [Eb En].
      destruct (only_req_cfg _ _ _ Ho) as (_ & Ebs & _). rewrite Ebs in En. split; [|lia].
      exists bs, r. unfold len_of in *. rewrite Eb. split_and!; (done || lia). }
  exists p4, ms4. split_and!; [done| |done|done].
  split; [apply (shape_update k p4 ms4); [done|done|by eapply steps_cfg]|done].
Qed.

Lemma wp_allocate_slots k l request new newcomp okb look delay nenc : km_inv k l →
  let kb := default EmptyBlocks okb in alloc_pre k request new newcomp kb look delay nenc →
  let rid := request_id request in let n := slots_needed k request new newcomp look in
  let bss := blocks_of_kv (length (mgrs k)) kb in
  wp (allocate_slots request new newcomp okb look delay nenc) k (λ r k', ∃ l' p ms,
    k' = set_coord (set_state (p, ms) (coordinator k)) k ∧ km_inv k' l' ∧ same_cfg (pool k) p ∧
    match r with
    | None => (length l ≤ length l')%nat ∧
        steps_of rid (mgrs k) ms (λ i m m', len_of rid m' = len_of rid m ∧ num_cached_block m' = num_cached_block m) ∧
        Z.of_nat (length l') < zsum (missing_all rid n nenc (mgrs k) bss) + num_evictable p (concat bss)
    | Some kb' => ∃ cols, kb' = create_kv_cache_blocks cols ∧ length cols = length (mgrs k) ∧
        steps_of rid (mgrs k) ms (λ i m m', allocated rid n nenc bss cols i m m' ∧
          (km_enable_caching k = true → delay = false → tokens_to_cache request new newcomp / block_size m ≤ ncached_of rid m'))
    end).
Proof.
  intros Hk kb [Hnew Hskip Hh Hcross Hbal Hcache] rid n bss. pose proof Hk as [Hsh Hi]. unfold allocate_slots.
  rewrite bool_decide_false by done. do 2 wp_step. fold kb. rewrite (ks_groups _ Hsh). fold bss rid n.
  apply wp_seq3. eapply wp_mono; [by apply (wp_check k l rid n nenc (num_computed_tokens request) kb)|].
  intros [need free] k1 (p1 & ms1 & l1 & Ek1 & Hc1 & Hi1 & Hh1 & Hl1 & Efree & Eneed & Hs1).
  cbn [fst snd] in Efree, Eneed |- *. fold bss in Eneed.
  assert (km_shape k1) as Hsh1 by (rewrite Ek1; apply shape_update; [done|done|by eapply steps_cfg]).
  pose proof (proj1 Hs1) as Hlen1. pose proof (hits_len _ _ _ _ Hh) as Hlbss. fold bss in Hlbss.
  destruct (Z.ltb_spec free need) as [Hlt|Hge].
  { wp_steps. exists l1, p1, ms1. split_and!; [done|by rewrite Ek1 in *|done|done| |lia].
    eapply steps_impl; [exact Hs1|]. intros i m m' [El En]. unfold len_of. by rewrite El. }
  assert (bss = blocks_of_kv (length (mgrs k1)) kb) as Ebss by (rewrite Ek1; simpl; by rewrite Hlen1).
  apply wp_seq2. eapply wp_mono.
  { pose proof (wp_commit k1 l1 rid kb) as Hcommit. cbv zeta in Hcommit. rewrite <-Ebss in Hcommit.
    assert (km_enable_caching k1 = km_enable_caching k) as Eca by (by rewrite Ek1). rewrite Eca in Hcommit.
    apply Hcommit; [by split; [|rewrite Ek1]|by rewrite Ek1]. }
  intros _ k2 (p2 & ms2 & Ek2 & Hc2 & Hi2 & Hs2). rewrite Ek1 in Ek2, Hc2, Hs2. simpl in Ek2, Hc2, Hs2.
  apply wp_bind. unfold on_coord at 1. apply wp_zoom. eapply wp_mono.
  { apply (wp_coord_allocate R (coordinator k2) (filter (λ x, x ∉ concat bss) l1) rid n nenc); [by rewrite Ek2|].
    rewrite Ek2. cbn [coordinator set_coord set_state single_type_managers snd].
    rewrite (demands_steps rid n nenc ms1 ms2 bss _ Hs2) by (lia || naive_solver).
    rewrite (missing_all_steps rid n nenc (mgrs k) ms1 bss _ Hs1) by naive_solver. rewrite balanced_sum by done.
    pose proof (touch_length R p1 l1 bss (li_pool _ _ _ _ (ci_ledger _ _ _ _ _ Hi1))). lia. }
  intros cols c3 (p3 & l3 & ms3 & [-> Hl3] & Hi3 & Hc3 & Hlc & Hs3). rewrite Ek2 in Hl3, Hc3, Hs3 |- *. simpl in Hl3, Hc3, Hs3 |- *.
  set (k3 := set_coord (set_state (p3, ms3) (coordinator k)) k).
  match goal with |- wp _ ?x _ => change x with k3 end.
  assert (steps_of rid (mgrs k) ms3 (allocated rid n nenc bss cols)) as Hst3.
  { split; [pose proof (proj1 Hs2); lia|]. intros i m Hm. destruct (proj2 Hs1 i m Hm) as (m1 & Hm1 & Ho1 & Hb1 & Hn1).
    destruct (proj2 Hs2 i m1 Hm1) as (m2 & Hm2 & Ho2 & bs & Hbs & Hb2 & Hn2).
    destruct (Hs3 i m2 Hm2) as (m3 & r & Hm3 & Hr & Ho3 & Hb3 & Hn3 & Hlr).
    exists m3. split_and!; [done|etrans; [exact Ho1|by etrans]|]. eapply (allocated_compose _ _ _ _ _ _ m m1 m2 m3); try done.
    unfold ncached_of in *. rewrite Hn3, Hn2, Hn1. done. }
  assert (same_cfg (pool k) p3) as Hc by (etrans; [exact Hc1|by etrans]).
  assert (length cols = length (mgrs k)) as Hlcols by (pose proof (proj1 Hst3); lia).
  assert (km_shape k3) as Hsh3 by (apply (shape_update k p3 ms3); [done|done|by eapply steps_cfg]).
  destruct (negb (km_enable_caching k) || delay) eqn:Edelay.
  { wp_steps. exists l3, p3, ms3. split_and!; [done|by split|done|]. exists cols. split_and!; [done|done|].
    eapply steps_impl; [exact Hst3|]. intros i m m' Ha. split; [done|]. intros Eca ->. by rewrite Eca in Edelay. }
  apply orb_false_iff in Edelay as [Eca%negb_false_iff ->]. destruct (Hcache Eca eq_refl) as [Hle Hall].
  apply wp_bind. eapply wp_mono; [by apply (wp_cache_phase k l l3 p3 ms3 request new newcomp look nenc bss cols)|].
  intros [] k4 (p4 & ms4 & -> & Hk4 & Hc4 & Hs4). wp_steps. exists l3, p4, ms4. split_and!; [done..|]. exists cols. split_and!; [done|done|].
  eapply steps_impl; [exact Hs4|]. intros i m m' [? ?]. by split.
Qed.

(** *** [free] and [reset_prefix_cache] *)

Lemma wp_km_free k l request : km_inv k l →
  wp (km_free request) k (λ _ k', ∃ p l', let ms := drop_req (request_id request) <$> mgrs k in
    k' = set_coord (set_state (p, ms) (coordinator k)) k ∧ km_inv k' l' ∧ same_cfg (pool k) p ∧
    (∀ x, hash_of p x = hash_of (pool k) x) ∧ (length l ≤ length l')%nat).
Proof.
  intros [Hsh Hi]. unfold km_free, on_coord. wp_step. eapply wp_mono; [by apply (wp_coord_free R _ l)|].
  intros [] c (p & l' & [-> Hl] & Hi' & Hc & Hlen & Hh). exists p, l'. split_and!; [done| |done|done|done].
  split; [|done]. apply shape_update; [done|done|]. rewrite <-list_fmap_compose. by apply list_fmap_ext.
Qed.

(** The parts of the state that do not depend on the statistics nor on the pool's contents *)
Definition same_model (k k' : KVCacheManager) : Prop :=
  mgrs k' = mgrs k ∧ km_enable_caching k' = km_enable_caching k ∧ km_max_model_len k' = km_max_model_len k ∧
  enable_kv_cache_events (pool k') = enable_kv_cache_events (pool k) ∧ use_eagle (coordinator k') = use_eagle (coordinator k) ∧
  cdcp (coordinator k') = cdcp (coordinator k) ∧ cpcp (coordinator k') = cpcp (coordinator k).

Lemma wp_km_reset k l : km_inv k l →
  wp km_reset_prefix_cache k (λ r k', km_inv k' l ∧ same_model k k' ∧
    if r then ∀ b, hash_of (pool k') b = None else k' = k ∧ ∃ b, usable (pool k) b ∧ ref_of (pool k) b ≠ 0).
Proof.
  intros [Hsh [Hs Hl]]. unfold km_reset_prefix_cache. wp_step. unfold on_coord, on_block_pool. do 2 wp_step.
  eapply wp_mono; [by apply (wp_ledger_reset R _ l)|]. intros r p (Hl' & Hc & Hres).
  set (k1 := set_coord _ _).
  assert (∀ s, (is_Some s ↔ km_log_stats k = true) → km_inv (set_stats s k1) l) as Hinv.
  { intros s Hst. split; [|split; [intros m Hm; eapply mgr_static_cfg; eauto|done]].
    destruct (shape_update k p (mgrs k) Hsh Hc eq_refl). by split. }
  assert (∀ s, same_model k (set_stats s k1)) as Hsame by (intros s; by destruct Hc as (_ & _ & _ & ? & _)).
  destruct r; simpl.
  - do 3 wp_step. destruct (km_log_stats k) eqn:Elog.
    + destruct (proj2 (ks_stats _ Hsh) Elog) as [s Es]. rewrite Es. wp_steps. split_and!; [by apply Hinv|apply Hsame|done].
    + wp_steps. split_and!; [|apply (Hsame (prefix_cache_stats k))|done]. apply (Hinv (prefix_cache_stats k)). rewrite (ks_stats _ Hsh). by rewrite Elog.
  - wp_steps. split_and!; [apply (Hinv (prefix_cache_stats k)), (ks_stats _ Hsh)|apply (Hsame (prefix_cache_stats k))| |by apply Hres].
    destruct Hres as [Hres _]. unfold k1. rewrite Hres. by destruct k as [? ? ? ? [] ?].
Qed.

(** *** [get_computed_blocks] *)

(** The model's attention types support the prefix cache. *)
Record prefix_cachable (k : KVCacheManager) : Prop := {
  pc_dcp : 1 ≤ cdcp (coordinator k);
  pc_pcp : 1 ≤ cpcp (coordinator k);
  pc_search m : m ∈ mgrs k → searchable (mspec m) (use_eagle (coordinator k)) (cdcp (coordinator k)) (cpcp (coordinator k));
  pc_events : enable_kv_cache_events (pool k) = true → ∀ m, m ∈ mgrs k → is_full (mspec m) = true;
}.

(** The request's hashes cover its full blocks, and no two blocks share a hash. *)
Definition hashes_ready (k : KVCacheManager) (request : Request) : Prop :=
  1 ≤ num_tokens request ∧ NoDup (block_hashes request) ∧
  ∀ m, m ∈ mgrs k → num_tokens request / block_size m ≤ Z.of_nat (length (block_hashes request)).

(** A hit of [len] tokens in every group *)
Definition hit_ok (k : KVCacheManager) (cols : columns) (len : Z) : Prop :=
  length cols = length (mgrs k) ∧ ∀ i c m, cols !! i = Some c → mgrs k !! i = Some m →
    Z.of_nat (length c) * block_size m = len ∧ hit_list (pool k) c.

(** The blocks of a hit are null or carry the key of the block they stand for. *)
Definition hit_keys (k : KVCacheManager) (hashes : list bytes) (cols : columns) : Prop :=
  ∀ i c j b, cols !! i = Some c → c !! j = Some b → b = null_block (pool k) ∨
    ∃ h, hashes !! j = Some h ∧ hash_of (pool k) b = Some (block_key h i).

Lemma unitary_block_size spec d p : 1 ≤ d → 1 ≤ p →
  spec_block_size spec * (if 1 <? d then d else 1) * (if 1 <? p then p else 1) = scaled_block_size spec d p.
Proof.
  intros Hd Hp. unfold scaled_block_size. destruct (Z.eq_dec d 1) as [->|], (Z.eq_dec p 1) as [->|].
  - simpl. lia.
  - rewrite (proj2 (Z.ltb_lt 1 p)) by lia. rewrite (proj2 (Z.ltb_lt 1 (1 * p))) by lia. simpl. lia.
  - rewrite (proj2 (Z.ltb_lt 1 d)) by lia. rewrite (proj2 (Z.ltb_lt 1 (d * 1))) by lia. simpl. lia.
  - rewrite (proj2 (Z.ltb_lt 1 p)), (proj2 (Z.ltb_lt 1 d)) by lia. rewrite (proj2 (Z.ltb_lt 1 (d * p))) by nia. lia.
Qed.

Lemma wp_unitary_find k l request m : km_inv k l → prefix_cachable k → hashes_ready k request →
  kind (coordinator k) = Unitary → mgrs k = [m] →
  wp (coord_find_longest_cache_hit (block_hashes request) (num_tokens request - 1)) (coordinator k)
    (λ r c, c = coordinator k ∧ 0 ≤ r.2 ≤ num_tokens request - 1 ∧ hit_ok k r.1 r.2 ∧ hit_keys k (block_hashes request) r.1).
Proof.
  intros [Hsh Hi] [Hd Hp Hs Hev] (Hn & Hnd & Hlen) Hk Hms. unfold coord_find_longest_cache_hit. do 2 wp_step. rewrite Hk, Hms.
  apply wp_bind. eapply wp_index; [done|]. assert (m ∈ mgrs k) as Hm by (rewrite Hms; left).
  destruct (ks_cfg _ Hsh 0%nat m) as (Eg & Ed & Ep); [by rewrite Hms|].
  assert (scaled_block_size (mspec m) (cdcp (coordinator k)) (cpcp (coordinator k)) = block_size m) as Ebs.
  { unfold block_size. by rewrite Ed, Ep. }
  pose proof (ms_bs _ _ (ci_static _ _ _ _ _ Hi m Hm)) as Hbs. pose proof (li_pool _ _ _ _ (ci_ledger _ _ _ _ _ Hi)) as Hpool.
  apply wp_bind. unfold on_block_pool. wp_step. eapply wp_mono.
  { apply (wp_find_hit R (pool k) l Hpool [0%nat]); [done| |by apply Hs|by rewrite Ebs|lia|].
    - intros g ->%list_elem_of_singleton. done.
    - rewrite Ebs. etrans; [|apply (Hlen m Hm)]. apply Z.div_le_mono; lia. }
  intros cols p (-> & n & Hnb & Hhit). rewrite Ebs in Hnb. pose proof Hhit as (ex & [Hlc _] & _).
  destruct cols as [|c [|]]; simpl in Hlc; try done. apply wp_bind. eapply wp_index; [done|]. wp_steps.
  rewrite (hit_of_length _ _ _ _ _ _ 0%nat c Hhit eq_refl).
  rewrite unitary_block_size, Ebs by done.
  split_and!; [by destruct (coordinator k)|nia|lia| |].
  2:{ intros i c' j b [-> <-]%list_lookup_singleton_Some Hb.
      eapply (hit_of_key R); [exact Hpool| |exact Hhit|exact (eq_refl : [c] !! 0%nat = Some c)|done|done].
      intros g ->%list_elem_of_singleton. done. }
  split; [by rewrite Hms|]. intros i c' m'. rewrite Hms. intros [-> <-]%list_lookup_singleton_Some [_ <-]%list_lookup_singleton_Some.
  rewrite (hit_of_length _ _ _ _ _ _ 0%nat c Hhit eq_refl). split; [done|].
  eapply (hit_of_hit_list R (pool k) l Hpool [0%nat]); [|done|exact Hhit|exact (eq_refl : [c] !! 0%nat = Some c)|auto].
  intros g ->%list_elem_of_singleton. done.
Qed.

Lemma wp_hybrid_find k l request h : km_inv k l → prefix_cachable k → hashes_ready k request →
  kind (coordinator k) = Hybrid h →
  wp (coord_find_longest_cache_hit (block_hashes request) (num_tokens request - 1)) (coordinator k)
    (λ r c, c = coordinator k ∧ 0 ≤ r.2 ≤ num_tokens request - 1 ∧ hit_ok k r.1 r.2 ∧ hit_keys k (block_hashes request) r.1).
Proof.
  intros [Hsh Hi] [Hd Hp Hs Hev] (Hn & Hnd & Hlen) Hk. unfold coord_find_longest_cache_hit. do 2 wp_step. rewrite Hk.
  pose proof (ks_kind _ Hsh) as Hkind. rewrite Hk in Hkind. destruct Hkind as (Hh & Ed & Ep & Hdiv).
  pose proof (li_pool _ _ _ _ (ci_ledger _ _ _ _ _ Hi)) as Hpool. destruct (ho_nonempty _ _ Hh) as [Hnf Hno].
  assert (∀ i s, (mspec <$> mgrs k) !! i = Some s → ∃ m, mgrs k !! i = Some m ∧ mspec m = s ∧ block_size m = spec_block_size s ∧
    0 < spec_block_size s ∧ m ∈ mgrs k) as Hspec.
  { intros i s Es. apply list_lookup_fmap_Some in Es as (m & -> & Hm). assert (m ∈ mgrs k) as Hin by (by eapply list_elem_of_lookup_2).
    destruct (ks_cfg _ Hsh i m Hm) as (_ & Ed' & Ep').
    assert (block_size m = spec_block_size (mspec m)) as Eb by (unfold block_size; by rewrite Ed', Ep', Ed, Ep).
    exists m. split_and!; [done|done|done| |done]. rewrite <-Eb. by apply (ms_bs _ _ (ci_static _ _ _ _ _ Hi m Hin)). }
  destruct (other_group_ids h) as [|g oids] eqn:Eo; [done|]. destruct (full_attention_group_ids h) as [|gf fids] eqn:Ef; [done|].
  destruct (Hspec g (other_spec h)) as (mo & Hmo & Emo & Ebo & Hbo & Hino); [apply (ho_other _ _ Hh); rewrite Eo; left|].
  destruct (Hspec gf (full_attention_spec h)) as (mf & _ & _ & _ & Hbf & _); [apply (ho_full _ _ Hh); rewrite Ef; left|].
  apply wp_bind. eapply wp_index; [done|]. apply wp_bind. eapply wp_index; [done|]. unfold on_block_pool. wp_step. rewrite Emo.
  assert (Z.of_nat (length (mspec <$> mgrs k)) < 2 ^ 32) as Hcount by (rewrite length_fmap; apply Hsh).
  eapply wp_mono; [apply (wp_hybrid_hit R (pool k) l Hpool h (mspec <$> mgrs k)); [done|done|done|done|done| |lia]|].
  { specialize (Hs mo Hino). rewrite Ed, Ep, Emo in Hs. exact Hs. }
  intros [cols len] p (-> & kf & ko & full & other & Hf & Ho & [= -> ->] & Elen & Hle). simpl.
  assert (length (if full_attn_first h then full ++ other else other ++ full) = length (mgrs k)) as Hlcols.
  { pose proof Hf as (_ & [Hlf _] & _). pose proof Ho as (_ & [Hlo _] & _).
    pose proof (f_equal length (ho_order _ _ Hh)) as Hord. rewrite length_seq, length_fmap in Hord. rewrite <-Hord.
    destruct (full_attn_first h); rewrite !length_app; lia. }
  split_and!; [by destruct (coordinator k)|lia|lia| |].
  2:{ intros i c j b Hc Hb. destruct (lookup_lt_is_Some_2 (mgrs k) i) as [m Hm]; [rewrite <-Hlcols; by eapply lookup_lt_Some|].
      eapply (hybrid_column R (pool k) l h _ _ kf ko full other i c (mspec m) Hpool Hh Hcount Hf Ho Elen Hc); [|done].
      by rewrite list_lookup_fmap, Hm. }
  split; [done|].
  intros i c m Hc Hm. assert ((mspec <$> mgrs k) !! i = Some (mspec m)) as Hsm by (by rewrite list_lookup_fmap, Hm).
    destruct (hybrid_column R (pool k) l h _ _ kf ko full other i c (mspec m) Hpool Hh Hcount Hf Ho Elen Hc Hsm) as [E1 _].
    destruct (Hspec i (mspec m) Hsm) as (m' & ? & _ & Eb & _). simplify_eq. split; [by rewrite Eb|].
    assert (∀ ids g', (ids = full_attention_group_ids h ∨ ids = other_group_ids h) → g' ∈ ids → Z.of_nat g' < 2 ^ 32) as Hgids.
    { intros ids g' Hids Hg'. assert (g' ∈ seq 0 (length (mspec <$> mgrs k))) as ?%elem_of_seq; [|lia].
      rewrite <-(ho_order _ _ Hh). destruct Hids as [->| ->], (full_attn_first h); set_solver +Hg'. }
    assert (enable_kv_cache_events (pool k) = true → false = true) as Hne.
    { intros Hev'. specialize (Hev Hev' mo Hino). destruct (ho_kinds _ _ Hh) as [_ Ek]. rewrite Emo in Hev. congruence. }
    assert (∃ j, full !! j = Some c ∨ other !! j = Some c) as (j & [Hj|Hj]).
    { destruct (full_attn_first h); apply lookup_app_Some in Hc as [?|[_ ?]]; eauto. }
    + eapply (hit_of_hit_list R (pool k) l Hpool); [|done|exact Hf|exact Hj|done]. intros g' Hg'. exact (Hgids _ g' (or_introl eq_refl) Hg').
    + eapply (hit_of_hit_list R (pool k) l Hpool); [|done|exact Ho|exact Hj|done]. intros g' Hg'. exact (Hgids _ g' (or_intror eq_refl) Hg').
Qed.

Lemma wp_get_computed_blocks k l request : km_inv k l → prefix_cachable k → hashes_ready k request →
  wp (get_computed_blocks request) k (λ r k', km_inv k' l ∧ coordinator k' = coordinator k ∧
    km_max_model_len k' = km_max_model_len k ∧ km_enable_caching k' = km_enable_caching k ∧
    0 ≤ r.2 ≤ num_tokens request - 1 ∧ (km_enable_caching k = false ∨ skip_reading_prefix_cache request = true → r = (EmptyBlocks, 0)) ∧
    match r.1 with EmptyBlocks => mgrs k = [] ∨ r.2 = 0 | Blocks cols => hit_ok k cols r.2 ∧ hit_keys k (block_hashes request) cols ∧ km_enable_caching k = true end).
Proof.
  intros Hk Hpc Hready. pose proof Hk as [Hsh Hi]. unfold get_computed_blocks. do 2 wp_step.
  destruct (negb (km_enable_caching k) || skip_reading_prefix_cache request) eqn:Eskip.
  { wp_steps. destruct Hready as [? _]. split_and!; [done|done|done|done|lia|lia|done|by right]. }
  apply orb_false_iff in Eskip as [Eca%negb_false_iff Esk]. apply wp_bind. unfold on_coord. apply wp_zoom.
  apply (wp_mono _ _ (λ r c, c = coordinator k ∧ 0 ≤ r.2 ≤ num_tokens request - 1 ∧ hit_ok k r.1 r.2 ∧ hit_keys k (block_hashes request) r.1)).
  { pose proof (ks_kind _ Hsh) as Hkind. destruct (kind (coordinator k)) as [| |h] eqn:Ek; [congruence| |by eapply wp_hybrid_find].
    destruct (mgrs k) as [|m [|]] eqn:Ems; try done. by eapply wp_unitary_find. }
  intros [cols len] c (-> & Hlen & Hok & Hkeys). replace (set_coord (coordinator k) k) with k by (by destruct k). simpl in Hlen, Hok, Hkeys |- *.
  assert (match create_kv_cache_blocks cols with EmptyBlocks => mgrs k = [] ∨ len = 0 | Blocks cols => hit_ok k cols len ∧ hit_keys k (block_hashes request) cols ∧ km_enable_caching k = true end) as Hres.
  { unfold create_kv_cache_blocks. destruct (any_blocks cols) eqn:Eany; [done|].
    destruct (mgrs k) as [|m ms] eqn:Ems; [by left|]. right. pose proof Hok as [Hl Hcols]. rewrite Ems in Hl, Hcols.
    destruct cols as [|c cols]; [done|]. destruct (Hcols 0%nat c m eq_refl eq_refl) as [<- _].
    unfold any_blocks in Eany. simpl in Eany. apply orb_false_iff in Eany as [E%negb_false_iff%bool_decide_eq_true _]. by rewrite E. }
  assert (∀ s, (is_Some s ↔ km_log_stats k = true) → km_inv (set_stats s k) l) as Hinv.
  { intros s Hst. split; [|done]. destruct Hsh. by split. }
  assert (km_enable_caching k = false ∨ skip_reading_prefix_cache request = true → (create_kv_cache_blocks cols, len) = (EmptyBlocks, 0))
    as Hno by (intros [?|?]; congruence).
  destruct (km_log_stats k) eqn:Elog.
  - destruct (proj2 (ks_stats _ Hsh) Elog) as [s Es]. rewrite Es. wp_steps.
    split_and!; [apply Hinv; done|done|done|done|lia|lia|done|done].
  - wp_steps. split_and!; [done|done|done|done|lia|lia|done|done].
Qed.

(** ** Requests over their lifetime *)

(** Windows and chunks are not empty, and there is no cross-attention group. *)
Definition spec_sane (s : KVCacheSpec) : Prop :=
  match s with
  | SlidingWindowSpec _ _ w => 1 ≤ w
  | ChunkedLocalAttentionSpec _ _ c => 0 < c
  | CrossAttentionSpec _ _ => False
  | _ => True
  end.

Record model_ok (k : KVCacheManager) : Prop := {
  mo_sane m : m ∈ mgrs k → spec_sane (mspec m);
  mo_events : enable_kv_cache_events (pool k) = true → ∀ m, m ∈ mgrs k → is_full (mspec m) = true;
  mo_cache : km_enable_caching k = true → prefix_cachable k;
}.

(** A request with slots for [N] tokens, of which the first [T] are cached when the
    prefix cache is on *)
Definition live (k : KVCacheManager) (rid : string) (N T : Z) : Prop :=
  0 ≤ T ≤ N ∧ ∀ m, m ∈ mgrs k → len_of rid m = required_blocks m N ∧
    (km_enable_caching k = true → T / block_size m ≤ ncached_of rid m).

(** A request without blocks *)
Definition absent (k : KVCacheManager) (rid : string) : Prop :=
  ∀ m, m ∈ mgrs k → blocks_of rid m = [] ∧ num_cached_block m !! rid = None.

Lemma km_bs k l m : km_inv k l → m ∈ mgrs k → 0 < block_size m.
Proof. intros [_ Hi] Hm. apply (ms_bs _ _ (ci_static _ _ _ _ _ Hi m Hm)). Qed.

Lemma spec_tokens_mono s n n' : n ≤ n' → spec_tokens s n ≤ spec_tokens s n'.
Proof. intros Hn. destruct s; simpl; try done. destruct (Z.ltb_spec 0 num_speculative_blocks); lia. Qed.

Lemma required_mono m n n' : 0 < block_size m → n ≤ n' → required_blocks m n ≤ required_blocks m n'.
Proof. intros Hb Hn. unfold required_blocks. apply cdiv_mono; [done|]. by apply spec_tokens_mono. Qed.

Lemma required_covers m n t : 0 < block_size m → t ≤ n → t / block_size m ≤ required_blocks m n.
Proof.
  intros Hb Ht. pose proof (spec_tokens_ge m n Hb). unfold required_blocks.
  pose proof (cdiv_bounds (spec_tokens (mspec m) n) _ Hb). apply Z.div_le_upper_bound; lia.
Qed.

Lemma skipped_le m c : 0 < block_size m → 0 ≤ c → spec_sane (mspec m) → 0 ≤ num_skipped_blocks m c ≤ c / block_size m.
Proof.
  intros Hb Hc Hs. unfold num_skipped_blocks.
  assert (Z.max 0 (get_num_skipped_tokens (mspec m) c) ≤ c) as Hle.
  { apply Z.max_lub; [done|]. destruct (mspec m); simpl in *; try lia. rewrite Z.mul_comm. by apply Z.mul_div_le. }
  split; [apply Z.div_pos; lia|apply Z.div_le_mono; lia].
Qed.

Lemma skipped_full m c : is_full (mspec m) = true → num_skipped_blocks m c = 0.
Proof. unfold num_skipped_blocks. destruct (mspec m); try done; intros _; simpl; by rewrite Z.max_id, Z.div_0_l || apply Zdiv_0_l. Qed.

Lemma live_skip k l rid N T c m : km_inv k l → model_ok k → live k rid N T → 0 ≤ c ≤ T → m ∈ mgrs k →
  skip_pre (pool k) rid c m.
Proof.
  intros Hk [Hs Hev _] [HT Hl] Hc Hm. pose proof (km_bs _ _ _ Hk Hm) as Hb. destruct (Hl m Hm) as [Hlen Hn].
  destruct (skipped_le m c Hb ltac:(lia) (Hs m Hm)) as [_ Hsk].
  assert (c / block_size m ≤ T / block_size m) by (apply Z.div_le_mono; lia).
  assert (T / block_size m ≤ required_blocks m N) by (apply required_covers; lia).
  split_and!.
  - unfold len_of in Hlen. lia.
  - destruct Hk as [Hsh _]. rewrite (ks_caching _ Hsh). intros Hca%Hn. lia.
  - intros He. apply skipped_full. by apply Hev.
Qed.

Lemma absent_skip k l rid m : km_inv k l → model_ok k → absent k rid → m ∈ mgrs k → skip_pre (pool k) rid 0 m.
Proof.
  intros Hk [Hs Hev _] Ha Hm. pose proof (km_bs _ _ _ Hk Hm) as Hb.
  destruct (skipped_le m 0 Hb ltac:(lia) (Hs m Hm)) as [H1 H2]. rewrite Z.div_0_l in H2 by lia.
  destruct (Ha m Hm) as [Eb En]. unfold skip_pre, ncached_of. rewrite Eb, En. simpl. lia.
Qed.

(** *** What is known after [allocate_slots] *)

Lemma missing_nocross rid n nenc m bs : is_cross (mspec m) = false →
  missing rid n nenc m bs = required_blocks m n - Z.of_nat (length bs) - len_of rid m.
Proof. intros Hx. unfold missing, tokens_for. by rewrite Hx. Qed.

Lemma sane_nocross s : spec_sane s → is_cross s = false.
Proof. by destruct s. Qed.

Lemma live_balanced k l rid N T n : km_inv k l → model_ok k → live k rid N T →
  balanced (missing_all rid n 0 (mgrs k) (replicate (length (mgrs k)) [])).
Proof.
  intros Hk [Hs _ _] [_ Hl].
  assert (∀ x, x ∈ missing_all rid n 0 (mgrs k) (replicate (length (mgrs k)) []) → ∃ m, m ∈ mgrs k ∧
    x = required_blocks m n - required_blocks m N) as Hx.
  { intros x [i Hx]%list_elem_of_lookup. apply lookup_zip_with_Some in Hx as (m & bs & -> & Hm & [-> _]%lookup_replicate).
    assert (m ∈ mgrs k) as Hin by (by eapply list_elem_of_lookup_2). exists m. split; [done|].
    rewrite missing_nocross by (by apply sane_nocross, Hs). destruct (Hl m Hin) as [-> _]. simpl. lia. }
  destruct (decide (N ≤ n)).
  - left. apply Forall_forall. intros x (m & Hm & ->)%Hx. pose proof (required_mono m N n (km_bs _ _ _ Hk Hm)). lia.
  - right. apply Forall_forall. intros x (m & Hm & ->)%Hx. pose proof (required_mono m n N (km_bs _ _ _ Hk Hm)). lia.
Qed.

Lemma admit_balanced k l rid n len cols : km_inv k l → model_ok k → absent k rid → hit_ok k cols len → len ≤ n →
  balanced (missing_all rid n 0 (mgrs k) cols).
Proof.
  intros Hk [Hs _ _] Ha [Hl Hc] Hn. left. apply Forall_forall. intros x [i Hx]%list_elem_of_lookup.
  apply lookup_zip_with_Some in Hx as (m & bs & -> & Hm & Hbs). assert (m ∈ mgrs k) as Hin by (by eapply list_elem_of_lookup_2).
  rewrite missing_nocross by (by apply sane_nocross, Hs). destruct (Ha m Hin) as [Eb _]. unfold len_of. rewrite Eb. simpl.
  destruct (Hc i bs m Hbs Hm) as [El _]. pose proof (km_bs _ _ _ Hk Hin) as Hb.
  pose proof (required_covers m n len Hb Hn). rewrite <-El, Z.div_mul in H by lia. lia.
Qed.

(** A request another request's operation leaves alone *)
Lemma other_req rid rid' m m' : only_req rid m m' → rid' ≠ rid →
  blocks_of rid' m' = blocks_of rid' m ∧ ncached_of rid' m' = ncached_of rid' m ∧
  num_cached_block m' !! rid' = num_cached_block m !! rid'.
Proof. intros Ho Hne. unfold blocks_of, ncached_of. by destruct (only_req_other _ _ _ _ Ho Hne) as [-> ->]. Qed.

Lemma steps_back rid ms ms' P m' : steps_of rid ms ms' P → m' ∈ ms' →
  ∃ i m, ms !! i = Some m ∧ m ∈ ms ∧ only_req rid m m' ∧ P i m m'.
Proof.
  intros [Hl H] [i Hi]%list_elem_of_lookup. destruct (lookup_lt_is_Some_2 ms i) as [m Hm]; [rewrite <-Hl; by eapply lookup_lt_Some|].
  destruct (H i m Hm) as (m2 & ? & Ho & Hp). simplify_eq. exists i, m. split_and!; [done|by eapply list_elem_of_lookup_2|done|done].
Qed.

Definition update (k : KVCacheManager) (p : BlockPool) (ms : list Manager) : KVCacheManager :=
  set_coord (set_state (p, ms) (coordinator k)) k.

Lemma live_other k p ms rid rid' P N T : steps_of rid (mgrs k) ms P → rid' ≠ rid → live k rid' N T → live (update k p ms) rid' N T.
Proof.
  intros Hs Hne [HT Hl]. split; [done|]. intros m' Hm'. destruct (steps_back _ _ _ _ _ Hs Hm') as (i & m & _ & Hm & Ho & _).
  destruct (other_req _ _ _ _ Ho Hne) as (Eb & En & _). destruct (only_req_cfg _ _ _ Ho) as (Es & Ebs & _).
  unfold len_of, required_blocks. rewrite Eb, En, Es, Ebs. by apply Hl.
Qed.

Lemma absent_other k p ms rid rid' P : steps_of rid (mgrs k) ms P → rid' ≠ rid → absent k rid' → absent (update k p ms) rid'.
Proof.
  intros Hs Hne Ha m' Hm'. destruct (steps_back _ _ _ _ _ Hs Hm') as (i & m & _ & Hm & Ho & _).
  destruct (other_req _ _ _ _ Ho Hne) as (Eb & _ & En). rewrite Eb, En. by apply Ha.
Qed.

Lemma model_ok_update k p ms rid P : same_cfg (pool k) p → steps_of rid (mgrs k) ms P → model_ok k → model_ok (update k p ms).
Proof.
  intros Hc Hs [H1 H2 H3]. pose proof Hc as (_ & _ & _ & Ee & _).
  assert (∀ m', m' ∈ ms → ∃ m, m ∈ mgrs k ∧ mspec m' = mspec m) as Hspec.
  { intros m' Hm'. destruct (steps_back _ _ _ _ _ Hs Hm') as (i & m & _ & Hm & Ho & _).
    destruct (only_req_cfg _ _ _ Ho) as (Es & _). eauto. }
  split; simpl.
  - intros m' (m & Hm & ->)%Hspec. auto.
  - rewrite Ee. intros Hev m' (m & Hm & ->)%Hspec. auto.
  - intros Hca. destruct (H3 Hca) as [? ? Hse Hev]. split; simpl; [done|done| |].
    + intros m' (m & Hm & ->)%Hspec. auto.
    + rewrite Ee. intros Hev' m' (m & Hm & ->)%Hspec. auto.
Qed.

(** The request after slots were granted *)
Lemma live_granted k l p ms rid n bss cols N T T' tc : km_inv k l → model_ok k →
  steps_of rid (mgrs k) ms (λ i m m', allocated rid n 0 bss cols i m m' ∧
    (km_enable_caching k = true → tc = true → T' / block_size m ≤ ncached_of rid m')) →
  (∀ i m bs, mgrs k !! i = Some m → bss !! i = Some bs →
     len_of rid m + Z.of_nat (length bs) ≤ required_blocks m (Z.max N n) ∧
     (N ≤ n ∨ required_blocks m N ≤ len_of rid m + Z.of_nat (length bs)) ∧
     (km_enable_caching k = true → T / block_size m ≤ ncached_of rid m + Z.of_nat (length bs))) →
  0 ≤ T ≤ Z.max N n → 0 ≤ T' ≤ Z.max N n → live (update k p ms) rid (Z.max N n) (if tc then Z.max T T' else T).
Proof.
  intros Hk Hmo Hs Hb HT HT'. split; [destruct tc; lia|]. intros m' Hm'.
  destruct (steps_back _ _ _ _ _ Hs Hm') as (i & m & Hi & Hm & Ho & (bs & r & Hbs & _ & Hlen & _ & Hr & Hreq & Hnc) & Htc).
  destruct (only_req_cfg _ _ _ Ho) as (Es & Ebs & _). destruct (Hb i m bs Hi Hbs) as (B1 & B2 & B3).
  pose proof (sane_nocross _ (mo_sane _ Hmo m Hm)) as Hx. rewrite missing_nocross in Hr by done.
  unfold tokens_for in Hreq. rewrite Hx in Hreq. pose proof (km_bs _ _ _ Hk Hm) as Hbs0.
  assert (required_blocks m' (Z.max N n) = required_blocks m (Z.max N n)) as -> by (unfold required_blocks; by rewrite Es, Ebs).
  split.
  - destruct (Z.max_spec N n) as [[? Emax]|[? Emax]]; rewrite Emax in B1 |- *.
    + lia.
    + pose proof (required_mono m n N Hbs0). destruct B2; [assert (N = n) as <- by lia|]; lia.
  - simpl. intros Hca. rewrite Ebs. specialize (B3 Hca). destruct tc; [|lia]. specialize (Htc Hca eq_refl).
    apply Z.max_case_strong; lia.
Qed.

(** *** The calls of the scheduler *)

Inductive kv_call :=
  | CAdmit (request : Request) (new look : Z) (delay : bool)  (** a waiting request *)
  | CStep (request : Request) (new look : Z)  (** a running request *)
  | CCache (request : Request) (n : Z)  (** blocks that arrived from a remote cache *)
  | CFree (request : Request)
  | CReset.

(** The call, and whether it was granted *)
Definition run_call (c : kv_call) : M KVCacheManager bool :=
  match c with
  | CAdmit request new look delay =>
      hit ← get_computed_blocks request;
      r ← allocate_slots request new hit.2 (Some hit.1) look delay 0;
      mret (bool_decide (is_Some r))
  | CStep request new look =>
      r ← allocate_slots request new 0 None look false 0;
      mret (bool_decide (is_Some r))
  | CCache request n => km_cache_blocks request n ;; mret true
  | CFree request => km_free request ;; mret true
  | CReset => km_reset_prefix_cache
  end.

(** The live requests: slots and cached tokens *)
Abbreviation lives := (gmap string (Z * Z)).

Definition request_ok (k : KVCacheManager) (request : Request) : Prop :=
  1 ≤ num_tokens request ≤ km_max_model_len k ∧ (km_enable_caching k = true → hashes_ready k request).

Definition call_ok (k : KVCacheManager) (L : lives) (c : kv_call) : Prop :=
  match c with
  | CAdmit request new look delay => L !! request_id request = None ∧ num_computed_tokens request = 0 ∧
      request_ok k request ∧ 0 < new ∧ 0 ≤ look
  | CStep request new look => request_ok k request ∧ 0 < new ∧ 0 ≤ look ∧
      ∃ N T, L !! request_id request = Some (N, T) ∧ 0 ≤ num_computed_tokens request ≤ T
  | CCache request n => request_ok k request ∧ ∃ N T, L !! request_id request = Some (N, T) ∧ 0 ≤ n ≤ N ∧ n ≤ num_tokens request
  | CFree _ | CReset => True
  end.

(** The tokens [get_computed_blocks] finds in the cache *)
Definition hit_len (k : KVCacheManager) (request : Request) : Z :=
  match get_computed_blocks request k with (Ok hit, _) => hit.2 | (Raise _, _) => 0 end.

Definition lives_after (k : KVCacheManager) (c : kv_call) (granted : bool) (L : lives) : lives :=
  match c, granted with
  | CAdmit request new look delay, true =>
      let len := hit_len k request in
      let slots := slots_needed k request new len look in
      <[request_id request := (Z.max len slots, if delay then len else Z.max len (tokens_to_cache request new len))]> L
  | CStep request new look, true =>
      match L !! request_id request with
      | Some (N, T) => <[request_id request := (Z.max N (slots_needed k request new 0 look), Z.max T (tokens_to_cache request new 0))]> L
      | None => L
      end
  | CCache request n, true =>
      match L !! request_id request with Some (N, T) => <[request_id request := (N, Z.max T n)]> L | None => L end
  | CFree request, true => delete (request_id request) L
  | _, _ => L
  end.

(** The lives account for all requests of all managers. *)
Definition lives_ok (k : KVCacheManager) (L : lives) : Prop :=
  ∀ rid, match L !! rid with Some (N, T) => live k rid N T | None => absent k rid end.

Definition sched_inv (k : KVCacheManager) (L : lives) : Prop := ∃ l, km_inv k l ∧ model_ok k ∧ lives_ok k L.

Lemma lives_ok_update k p ms L rid P v : lives_ok k L → steps_of rid (mgrs k) ms P →
  match v with Some (N, T) => live (update k p ms) rid N T | None => absent (update k p ms) rid end →
  lives_ok (update k p ms) (match v with Some x => <[rid := x]> L | None => delete rid L end).
Proof.
  intros HL Hs Hv rid'. destruct (decide (rid' = rid)) as [->|Hne].
  - destruct v as [[N T]|]; [by rewrite lookup_insert_eq|by rewrite lookup_delete_eq].
  - assert ((match v with Some x => <[rid := x]> L | None => delete rid L end) !! rid' = L !! rid') as ->.
    { destruct v; [by rewrite lookup_insert_ne|by rewrite lookup_delete_ne]. }
    specialize (HL rid'). destruct (L !! rid') as [[N T]|]; [by eapply live_other|by eapply absent_other].
Qed.

Lemma lives_ok_same k p ms L rid P : lives_ok k L → steps_of rid (mgrs k) ms P →
  match L !! rid with Some (N, T) => live (update k p ms) rid N T | None => absent (update k p ms) rid end →
  lives_ok (update k p ms) L.
Proof.
  intros HL Hs Hv. pose proof (lives_ok_update k p ms L rid P (L !! rid) HL Hs Hv) as H.
  destruct (L !! rid) as [x|] eqn:E; [by rewrite insert_id in H|by rewrite delete_id in H].
Qed.

Lemma live_refused k p ms rid P N T : live k rid N T → steps_of rid (mgrs k) ms P →
  (∀ i m m', P i m m' → len_of rid m' = len_of rid m ∧ num_cached_block m' = num_cached_block m) →
  live (update k p ms) rid N T.
Proof.
  intros [HT Hl] Hs HP. split; [done|]. intros m' Hm'. destruct (steps_back _ _ _ _ _ Hs Hm') as (i & m & _ & Hm & Ho & Hp).
  destruct (only_req_cfg _ _ _ Ho) as (Es & Ebs & _). destruct (HP _ _ _ Hp) as [El En]. destruct (Hl m Hm) as [H1 H2].
  unfold required_blocks, ncached_of in *. rewrite El, En, Es, Ebs. done.
Qed.

Lemma absent_refused k p ms rid P : absent k rid → steps_of rid (mgrs k) ms P →
  (∀ i m m', P i m m' → len_of rid m' = len_of rid m ∧ num_cached_block m' = num_cached_block m) → absent (update k p ms) rid.
Proof.
  intros Ha Hs HP m' Hm'. destruct (steps_back _ _ _ _ _ Hs Hm') as (i & m & _ & Hm & Ho & Hp).
  destruct (HP _ _ _ Hp) as [El En]. destruct (Ha m Hm) as [H1 H2]. rewrite En. split; [|done].
  unfold len_of in El. rewrite H1 in El. destruct (blocks_of rid m'); [done|simpl in El; lia].
Qed.

(** *** Every legal call succeeds and keeps the invariant *)

Lemma tokens_fit k request new newcomp look : num_tokens request ≤ km_max_model_len k → 0 ≤ look →
  tokens_to_cache request new newcomp ≤ slots_needed k request new newcomp look.
Proof. intros. unfold tokens_to_cache, slots_needed. lia. Qed.

Lemma cache_ready k request new newcomp m : hashes_ready k request → 0 < block_size m → m ∈ mgrs k →
  tokens_to_cache request new newcomp / block_size m ≤ Z.of_nat (length (block_hashes request)).
Proof.
  intros (_ & _ & H) Hb Hm. etrans; [|apply (H m Hm)]. apply Z.div_le_mono; [done|]. unfold tokens_to_cache. lia.
Qed.

Lemma step_alloc_pre k l N T request new look : km_inv k l → model_ok k → live k (request_id request) N T →
  request_ok k request → 0 < new → 0 ≤ look → 0 ≤ num_computed_tokens request ≤ T →
  alloc_pre k request new 0 EmptyBlocks look false 0.
Proof.
  intros Hk Hmo Hlive [Hnt Hhr] Hnew Hlook Hcomp. split; simpl.
  - lia.
  - intros m Hm. by eapply live_skip.
  - done.
  - intros i m bs _ [-> _]%lookup_replicate. done.
  - by eapply live_balanced.
  - intros Hca _. split; [by apply tokens_fit; [lia|]|]. intros m Hm.
    split; [by apply sane_nocross, Hmo|]. apply (cache_ready k); [auto|by apply (km_bs k l)|done].
Qed.

Lemma wp_step_call k L request new look : sched_inv k L → call_ok k L (CStep request new look) →
  wp (run_call (CStep request new look)) k (λ r k', sched_inv k' (lives_after k (CStep request new look) r L)).
Proof.
  intros (l & Hk & Hmo & HL) ([Hnt Hhr] & Hnew & Hlook & N & T & EL & Hcomp). set (rid := request_id request) in *.
  pose proof (HL rid) as Hlive. rewrite EL in Hlive. simpl. wp_step.
  eapply wp_mono; [apply (wp_allocate_slots k l request new 0 None look false 0 Hk)|].
  { by eapply step_alloc_pre. }
  intros r k' (l' & p & ms & -> & Hk' & Hc & Hr). wp_steps. simpl in Hr. fold rid in Hr. destruct r as [kb|].
  - rewrite bool_decide_true by (by eexists). unfold lives_after. fold rid. rewrite EL. destruct Hr as (cols & _ & _ & Hs). exists l'. split_and!; [done|by eapply model_ok_update|].
    apply (lives_ok_update k p ms L rid _ (Some (_, _)) HL Hs).
    apply (live_granted k l p ms rid _ (replicate (length (mgrs k)) []) cols N T _ true Hk Hmo).
    + eapply steps_impl; [exact Hs|]. intros i m m' [? ?]. split; [done|]. auto.
    + intros i m bs Hm [-> _]%lookup_replicate. destruct Hlive as [HT Hl]. destruct (Hl m) as [El En]; [by eapply list_elem_of_lookup_2|].
      simpl. rewrite El. pose proof (km_bs _ _ _ Hk (list_elem_of_lookup_2 _ _ _ Hm)) as Hb.
      split_and!; [|lia|intros Hca; specialize (En Hca); lia]. pose proof (required_mono m N (Z.max N (slots_needed k request new 0 look)) Hb). lia.
    + destruct Hlive as [HT _]. lia.
    + pose proof (tokens_fit k request new 0 look). unfold tokens_to_cache in *. lia.
  - rewrite bool_decide_false by (by intros [? [=]]). change (lives_after _ _ false L) with L. destruct Hr as (_ & Hs & _). exists l'. split_and!; [done|by eapply model_ok_update|].
    eapply lives_ok_same; [done|exact Hs|]. rewrite EL. by eapply live_refused.
Qed.

(** What [get_computed_blocks] gives [allocate_slots] *)
Definition admit_hit (k : KVCacheManager) (kb : KVCacheBlocks) (len : Z) : Prop :=
  match kb with EmptyBlocks => mgrs k = [] ∨ len = 0 | Blocks cols => hit_ok k cols len ∧ km_enable_caching k = true end.

Lemma admit_hit_len k kb len i m bs : admit_hit k kb len → mgrs k !! i = Some m →
  blocks_of_kv (length (mgrs k)) kb !! i = Some bs → Z.of_nat (length bs) * block_size m = len.
Proof.
  intros Hkb Hm Hbs. destruct kb as [|cols]; simpl in Hbs.
  - apply lookup_replicate in Hbs as [-> _]. destruct Hkb as [E| ->]; [by rewrite E in Hm|]. simpl. lia.
  - destruct Hkb as [[_ H] _]. by eapply H.
Qed.

Lemma admit_alloc_pre k l request new look delay kb len : km_inv k l → model_ok k → absent k (request_id request) →
  num_computed_tokens request = 0 → request_ok k request → 0 < new → 0 ≤ look →
  0 ≤ len ≤ num_tokens request - 1 → admit_hit k kb len → alloc_pre k request new len kb look delay 0.
Proof.
  intros Hk Hmo Ha Hcomp [Hnt Hhr] Hnew Hlook Hlen Hkb. set (slots := slots_needed k request new len look).
  assert (len ≤ slots) as Hls by (unfold slots, slots_needed; lia). pose proof Hk as [Hsh _].
  split; simpl.
  - lia.
  - intros m Hm. rewrite Hcomp. by eapply absent_skip.
  - destruct kb as [|cols]; [done|]. destruct Hkb as [[Hl Hc] Hca]. split_and!; [by rewrite (ks_caching _ Hsh)|done| |].
    + intros bs [i Hi]%list_elem_of_lookup. destruct (lookup_lt_is_Some_2 (mgrs k) i) as [m Hm]; [rewrite <-Hl; by eapply lookup_lt_Some|].
      by eapply (Hc i bs m).
    + intros m Hm. destruct (Ha m Hm). split_and!; [by apply sane_nocross, Hmo|done|done].
  - intros i m bs Hm _. rewrite (sane_nocross _ (mo_sane _ Hmo m (list_elem_of_lookup_2 _ _ _ Hm))). done.
  - fold slots. left. apply Forall_forall. intros x [i Hx]%list_elem_of_lookup.
    apply lookup_zip_with_Some in Hx as (m & bs & -> & Hm & Hbs). pose proof (list_elem_of_lookup_2 _ _ _ Hm) as Hin.
    rewrite missing_nocross by (by apply sane_nocross, Hmo). destruct (Ha m Hin) as [Eb _]. unfold len_of. rewrite Eb.
    pose proof (km_bs _ _ _ Hk Hin) as Hb. pose proof (required_covers m slots len Hb Hls) as Hcov.
    rewrite <-(admit_hit_len k kb len i m bs Hkb Hm Hbs), Z.div_mul in Hcov by lia. simpl. lia.
  - intros Hca _. split; [apply tokens_fit; [lia|done]|]. intros m Hm.
    split; [by apply sane_nocross, Hmo|]. apply (cache_ready k); [auto|by apply (km_bs k l)|done].
Qed.

Lemma wp_admit_allocate k l L request new look delay kb len : km_inv k l → model_ok k → lives_ok k L →
  L !! request_id request = None → num_computed_tokens request = 0 → request_ok k request → 0 < new → 0 ≤ look →
  0 ≤ len ≤ num_tokens request - 1 →
  admit_hit k kb len →
  let slots := slots_needed k request new len look in
  wp (allocate_slots request new len (Some kb) look delay 0) k (λ r k', sched_inv k'
    (if r then <[request_id request := (Z.max len slots, if delay then len else Z.max len (tokens_to_cache request new len))]> L else L)).
Proof.
  intros Hk Hmo HL EL Hcomp Hreq Hnew Hlook Hlen Hkb slots. set (rid := request_id request) in *.
  pose proof (HL rid) as Ha. rewrite EL in Ha. simpl in Ha.
  pose proof Hreq as [Hnt _]. assert (len ≤ slots) as Hls by (unfold slots, slots_needed; lia).
  set (bss := blocks_of_kv (length (mgrs k)) kb).
  assert (∀ i m bs, mgrs k !! i = Some m → bss !! i = Some bs → Z.of_nat (length bs) * block_size m = len) as Hbss.
  { intros i m bs. by apply admit_hit_len. }
  eapply wp_mono; [apply (wp_allocate_slots k l request new len (Some kb) look delay 0 Hk); by eapply admit_alloc_pre|].
  intros r k' (l' & p & ms & -> & Hk' & Hc & Hr). simpl in Hr. fold slots rid bss in Hr. destruct r as [kb'|].
  - destruct Hr as (cols & _ & _ & Hs). exists l'. split_and!; [done|by eapply model_ok_update|].
    apply (lives_ok_update k p ms L rid _ (Some (_, _)) HL Hs).
    replace (if delay then len else Z.max len (tokens_to_cache request new len)) with
      (if negb delay then Z.max len (tokens_to_cache request new len) else len) by (by destruct delay).
    apply (live_granted k l p ms rid _ bss cols len len _ (negb delay) Hk Hmo).
    + eapply steps_impl; [exact Hs|]. intros i m m' [? Hd]. split; [done|]. intros Hca Hdel%negb_true_iff. auto.
    + intros i m bs Hm Hbs. pose proof (list_elem_of_lookup_2 _ _ _ Hm) as Hin. pose proof (km_bs _ _ _ Hk Hin) as Hb.
      destruct (Ha m Hin) as [Eb En]. unfold len_of, ncached_of. rewrite Eb, En. simpl. specialize (Hbss i m bs Hm Hbs).
      pose proof (required_covers m (Z.max len slots) len Hb ltac:(lia)) as H1. rewrite <-Hbss, Z.div_mul in H1 by lia.
      split_and!; [rewrite <-Hbss; lia|by left|intros _; rewrite <-Hbss, Z.div_mul; lia].
    + lia.
    + pose proof (tokens_fit k request new len look). unfold tokens_to_cache, slots in *. lia.
  - destruct Hr as (_ & Hs & _). exists l'. split_and!; [done|by eapply model_ok_update|].
    eapply lives_ok_same; [done|exact Hs|]. fold rid in EL. rewrite EL. by eapply absent_refused.
Qed.

Lemma same_model_ok k k' L : same_model k k' → model_ok k → lives_ok k L → model_ok k' ∧ lives_ok k' L.
Proof.
  intros (Em & Eca & _ & Eev & Eu & Ed & Ep) [H1 H2 H3] HL. split.
  - split; rewrite ?Em, ?Eca, ?Eev; [done|done|]. intros [? ? ? ?]%H3. by split; rewrite ?Em, ?Eev, ?Eu, ?Ed, ?Ep.
  - intros rid. specialize (HL rid). unfold live, absent in *. by rewrite Em, Eca.
Qed.

(** The first half of an admission *)
Lemma wp_admit_get k l L request : km_inv k l → model_ok k → lives_ok k L → request_ok k request →
  wp (get_computed_blocks request) k (λ r k', km_inv k' l ∧ same_model k k' ∧ coordinator k' = coordinator k ∧ model_ok k' ∧ lives_ok k' L ∧
    request_ok k' request ∧ 0 ≤ r.2 ≤ num_tokens request - 1 ∧ admit_hit k' r.1 r.2).
Proof.
  intros Hk Hmo HL Hreq.
  apply (wp_mono _ _ (λ r k', km_inv k' l ∧ coordinator k' = coordinator k ∧ km_max_model_len k' = km_max_model_len k ∧
    km_enable_caching k' = km_enable_caching k ∧ 0 ≤ r.2 ≤ num_tokens request - 1 ∧ admit_hit k r.1 r.2)).
  { destruct (km_enable_caching k) eqn:Eca.
    - eapply wp_mono; [apply (wp_get_computed_blocks k l request Hk); [by apply Hmo|by apply Hreq]|].
      intros [kb len] k' (? & ? & ? & ? & ? & _ & ?). split_and!; (done || congruence || lia || idtac). rewrite Eca in *. destruct kb; naive_solver.
    - unfold get_computed_blocks. do 2 wp_step. rewrite Eca. wp_steps. destruct Hreq as [[? _] _]. simpl.
      split_and!; try done; try (by right); simpl; lia. }
  intros [kb len] k1 (Hk1 & Ec & Em & Eca & Hlen & Hkb). assert (same_model k k1) as Hsame by (unfold same_model; by rewrite Ec).
  destruct (same_model_ok k k1 L Hsame Hmo HL) as [??]. split_and!; (done || lia || idtac).
  - unfold request_ok, hashes_ready in *. by rewrite Ec, Em, Eca.
  - unfold admit_hit, hit_ok in *. by rewrite Ec, Eca.
Qed.

Lemma wp_admit_call k L request new look delay : sched_inv k L → call_ok k L (CAdmit request new look delay) →
  wp (run_call (CAdmit request new look delay)) k (λ r k', sched_inv k' (lives_after k (CAdmit request new look delay) r L)).
Proof.
  intros (l & Hk & Hmo & HL) (EL & Hcomp & Hreq & Hnew & Hlook). unfold run_call, lives_after, hit_len.
  pose proof (wp_admit_get k l L request Hk Hmo HL Hreq) as Hget.
  apply wp_ok in Hget as ([kb len] & k1 & E & Hk1 & Hsame & _ & Hmo1 & HL1 & Hreq1 & Hlen & Hkb). rewrite E.
  apply wp_bind. unfold wp at 1. rewrite E. apply wp_bind. simpl in Hlen, Hkb |- *.
  eapply wp_mono; [by apply (wp_admit_allocate k1 l L request new look delay kb len)|].
  assert (slots_needed k1 request new len look = slots_needed k request new len look) as ->.
  { destruct Hsame as (_ & _ & Em & _). unfold slots_needed. by rewrite Em. }
  by intros [kb'|] k' Hinv; wp_steps.
Qed.

Lemma wp_free_call k L request : sched_inv k L →
  wp (run_call (CFree request)) k (λ r k', sched_inv k' (lives_after k (CFree request) r L)).
Proof.
  intros (l & Hk & Hmo & HL). simpl. wp_step. eapply wp_mono; [by apply wp_km_free|].
  intros [] k' (p & l' & -> & Hk' & Hc & _). wp_steps. exists l'. set (rid := request_id request) in *.
  assert (steps_of rid (mgrs k) (drop_req rid <$> mgrs k) (λ _ m m', m' = drop_req rid m)) as Hs.
  { split; [by rewrite length_fmap|]. intros i m Hm. exists (drop_req rid m). rewrite list_lookup_fmap, Hm. split_and!; [done| |done].
    unfold only_req, drop_req, set_req, set_ncached. simpl. by rewrite !delete_delete_eq. }
  split_and!; [done|by eapply model_ok_update|]. apply (lives_ok_update k p _ L rid _ None HL Hs).
  intros m' Hm'. destruct (steps_back _ _ _ _ _ Hs Hm') as (i & m & _ & _ & _ & ->).
  unfold blocks_of. simpl. rewrite !lookup_delete_eq. done.
Qed.

Lemma wp_cache_call k L request n : sched_inv k L → call_ok k L (CCache request n) →
  wp (run_call (CCache request n)) k (λ r k', sched_inv k' (lives_after k (CCache request n) r L)).
Proof.
  intros (l & Hk & Hmo & HL) ([Hnt Hhr] & N & T & EL & Hn & Hnn). simpl. rewrite EL. set (rid := request_id request) in *.
  pose proof (HL rid) as Hlive. rewrite EL in Hlive. pose proof Hk as [Hsh Hi]. unfold km_cache_blocks. wp_step. do 2 wp_step.
  destruct (km_enable_caching k) eqn:Eca.
  - unfold on_coord. wp_step. eapply wp_mono; [apply (wp_coord_cache R _ l request n Hi)|].
    + by rewrite (ks_caching _ Hsh).
    + intros m Hm. destruct Hlive as [_ Hl]. destruct (Hl m Hm) as [El _]. pose proof (km_bs k l m Hk Hm) as Hb.
      split_and!; [by apply sane_nocross, Hmo| |].
      * pose proof (required_covers m N n Hb ltac:(lia)) as Hcov. unfold len_of in El. fold rid. lia.
      * destruct (Hhr eq_refl) as (_ & _ & Hh). etrans; [|apply (Hh m Hm)]. by apply Z.div_le_mono.
    + intros [] c (p & ms & [-> Hlm] & Hi' & Hc & Hs). wp_steps.
      assert (steps_of rid (mgrs k) ms (λ _ m m', blocks_of rid m' = blocks_of rid m ∧
        ncached_of rid m' = Z.max (ncached_of rid m) (n / block_size m))) as Hst.
      { split; [done|]. intros i m Hm. destruct (Hs i m Hm) as (m' & ? & ? & ? & ?). eauto. }
      exists l. split_and!; [split; [|done]; apply shape_update; [done|done|by eapply steps_cfg]|by eapply model_ok_update|].
      apply (lives_ok_update k p ms L rid _ (Some (_, _)) HL Hst). destruct Hlive as [HT Hl]. split; [lia|].
      intros m' Hm'. destruct (steps_back _ _ _ _ _ Hst Hm') as (i & m & _ & Hm & Ho & Eb & En).
      destruct (only_req_cfg _ _ _ Ho) as (Es & Ebs & _). destruct (Hl m Hm) as [El Hnc]. unfold len_of, required_blocks in *.
      rewrite Eb, Es, Ebs. split; [done|]. simpl. intros _. specialize (Hnc Eca). rewrite En. apply Z.max_case_strong; lia.
  - wp_steps. exists l. split_and!; [done|done|]. intros rid'. destruct (decide (rid' = rid)) as [->|Hne].
    + rewrite lookup_insert_eq. destruct Hlive as [HT Hl]. split; [lia|]. intros m Hm. destruct (Hl m Hm). split; [done|congruence].
    + rewrite lookup_insert_ne by done. apply HL.
Qed.


Lemma wp_reset_call k L : sched_inv k L → wp (run_call CReset) k (λ r k', sched_inv k' (lives_after k CReset r L)).
Proof.
  intros (l & Hk & Hmo & HL). eapply wp_mono; [by apply (wp_km_reset k l)|]. intros r k' (Hk' & Hs & _).
  assert (lives_after k CReset r L = L) as -> by (by destruct r). exists l. split; [done|]. by eapply same_model_ok.
Qed.

Lemma wp_call k L c : sched_inv k L → call_ok k L c → wp (run_call c) k (λ r k', sched_inv k' (lives_after k c r L)).
Proof.
  destruct c; [apply wp_admit_call|apply wp_step_call|apply wp_cache_call|intros ? _; by apply wp_free_call|intros ? _; by apply wp_reset_call].
Qed.

(** *** Construction *)

(** A configuration the modelled attention types support *)
Record config_ok (cfg : KVCacheConfig) (caching eagle events : bool) (dcp pcp : Z) : Prop := {
  co_count : Z.of_nat (length (kv_cache_groups cfg)) < 2 ^ 32;
  co_dcp : 1 ≤ dcp;
  co_pcp : 1 ≤ pcp;
  co_size g : g ∈ kv_cache_groups cfg → 0 < spec_block_size (kv_cache_spec g);
  co_sane g : g ∈ kv_cache_groups cfg → spec_sane (kv_cache_spec g);
  co_events g : events = true → g ∈ kv_cache_groups cfg → is_full (kv_cache_spec g) = true;
  co_search g : caching = true → g ∈ kv_cache_groups cfg → searchable (kv_cache_spec g) eagle dcp pcp;
}.

Lemma make_managers_spec p dcp pcp : ∀ groups i ms, make_managers p dcp pcp i groups = Ok ms →
  length ms = length groups ∧ mspec <$> ms = kv_cache_spec <$> groups ∧
  ∀ j m, ms !! j = Some m → ∃ g, groups !! j = Some g ∧
    m = mkManager (kv_cache_spec g) dcp pcp ∅ ∅ (i + j) (null_block p).
Proof.
  induction groups as [|g groups IH]; intros i ms; simpl; [by intros [= <-]|].
  destruct (get_manager_for_kv_cache_spec _ _ _ _ _) as [m|] eqn:E; [|done].
  assert (m = mkManager (kv_cache_spec g) dcp pcp ∅ ∅ i (null_block p)) as -> by (by destruct (kv_cache_spec g); simplify_eq/=).
  destruct (make_managers _ _ _ _ _) as [ms'|] eqn:E'; [|done]. intros [= <-]. destruct (IH _ _ E') as (Hl & Hs & Hm).
  csimpl. rewrite Hl, Hs. split_and!; [done|done|]. intros [|j] m' Hj; simplify_eq/=.
  - exists g. by rewrite Nat.add_0_r.
  - destruct (Hm j m' Hj) as (g' & Hg' & ->). exists g'. split; [done|]. f_equal. lia.
Qed.

Lemma scaled_pos s d p : 1 ≤ d → 1 ≤ p → 0 < spec_block_size s → 0 < scaled_block_size s d p.
Proof. intros. unfold scaled_block_size. destruct (1 <? d * p); [|done]. apply Z.mul_pos_pos; nia. Qed.

Lemma entries_fresh (ms : list Manager) : (∀ m, m ∈ ms → req_to_blocks m = ∅) → concat (entries <$> ms) = [].
Proof.
  induction ms as [|m ms IH]; intros H; [done|]. csimpl. rewrite IH by (intros; apply H; by right).
  unfold entries. rewrite (H m) by left. by rewrite map_to_list_empty.
Qed.

Lemma coordinator_init_spec cfg max_len eagle caching events use_int dcp pcp c :
  get_kv_cache_coordinator cfg max_len eagle caching events use_int dcp pcp = Ok c →
  BlockPool_init (num_blocks cfg) caching events use_int = Ok (block_pool c) ∧
  make_managers (block_pool c) dcp pcp 0 (kv_cache_groups cfg) = Ok (single_type_managers c) ∧
  use_eagle c = eagle ∧ cdcp c = dcp ∧ cpcp c = pcp ∧
  match kind c with
  | NoPrefixCache => caching = false
  | Unitary => length (kv_cache_groups cfg) = 1%nat
  | Hybrid h => verify_and_split_kv_cache_groups (kv_cache_groups cfg) true = Ok h ∧ dcp = 1 ∧ pcp = 1
  end.
Proof.
  unfold get_kv_cache_coordinator. destruct (BlockPool_init _ _ _ _) as [p|] eqn:Ep; [|done].
  destruct (make_managers _ _ _ _ _) as [ms|] eqn:Em; [|done]. destruct caching; simpl; [|by intros [= <-]].
  case_bool_decide; [by intros [= <-]|]. do 2 (case_bool_decide; [|done]). simpl.
  destruct (verify_and_split_kv_cache_groups _ _) as [h|] eqn:Eh; [|done]. by intros [= <-].
Qed.

Lemma init_ok cfg max_len caching eagle log events use_int dcp pcp k : config_ok cfg caching eagle events dcp pcp →
  KVCacheManager_init cfg max_len caching eagle log events use_int dcp pcp = Ok k → sched_inv k ∅.
Proof.
  intros [Hn Hd Hp Hsz Hsa Hev Hse]. unfold KVCacheManager_init. destruct (caching && _); [done|].
  destruct (get_kv_cache_coordinator _ _ _ _ _ _ _ _) as [c|] eqn:E; [|done]. intros [= <-].
  apply coordinator_init_spec in E as (Ep & Em & Eu & Ed & Epc & Hkind). apply make_managers_spec in Em as (Hl & Hsp & Hm).
  assert (0 < num_blocks cfg)%nat as Hpos.
  { destruct (num_blocks cfg); [|lia]. by vm_compute in Ep. }
  destruct (BlockPool_init_ok R _ caching events use_int Hpos) as (p & Ep' & Hpi & _ & Eca & _ & Eev & _ & Hz).
  rewrite Ep in Ep'. injection Ep' as <-.
  assert (∀ m, m ∈ single_type_managers c → ∃ i g, g ∈ kv_cache_groups cfg ∧ kv_cache_groups cfg !! i = Some g ∧
    m = mkManager (kv_cache_spec g) dcp pcp ∅ ∅ i (null_block (block_pool c))) as Hman.
  { intros m [j Hj]%list_elem_of_lookup. destruct (Hm j m Hj) as (g & Hg & ->). exists j, g.
    split_and!; [by eapply list_elem_of_lookup_2|done|done]. }
  exists (Blk <$> seq 1 (num_blocks cfg - 1)). split_and!.
  - split.
    + split; simpl; [done|done|destruct log; split; [done|by eexists|by intros [? [=]]|done]|..].
      * intros i m Hi. destruct (Hm i m Hi) as (g & _ & ->). by rewrite Ed, Epc.
      * by rewrite Hl.
      * destruct (kind c); [done|by rewrite Hl|]. destruct Hkind as (Hv & -> & ->).
        destruct (verify_and_split_ok _ _ _ Hv) as [Hh Hdiv]. rewrite Hsp. auto.
    + split; simpl.
      * intros m (i & g & Hg & Hi & ->)%Hman. split; simpl; [done|done|unfold block_size; apply scaled_pos; simpl; auto|].
        apply lookup_lt_Some in Hi. lia.
      * rewrite entries_fresh by (by intros m (i & g & _ & _ & ->)%Hman). simpl. split; [done| |set_solver +].
        intros b Hb. rewrite (Hz b Hb). symmetry. apply occ_nil.
  - split; simpl.
    + intros m (i & g & Hg & _ & ->)%Hman; simpl; auto.
    + rewrite Eev. intros He m (i & g & Hg & _ & ->)%Hman; simpl; auto.
    + intros ->. split; simpl; [by rewrite Ed|by rewrite Epc| |].
      * intros m (i & g & Hg & _ & ->)%Hman. rewrite Eu, Ed, Epc; simpl; auto.
      * rewrite Eev. intros He m (i & g & Hg & _ & ->)%Hman; simpl; auto.
  - intros rid. rewrite lookup_empty. intros m (i & g & _ & _ & ->)%Hman. done.
Qed.

(** *** Consequences of the invariant *)

(** All references the managers hold *)
Definition held_blocks (ms : list Manager) : list bref := concat ((λ m, concat (map_to_list (req_to_blocks m)).*2) <$> ms).

Lemma entries_held (ms : list Manager) : concat (concat (entries <$> ms)).*1 = held_blocks ms.
Proof.
  unfold held_blocks. induction ms as [|m ms IH]; csimpl; [done|]. rewrite fmap_app, concat_app, IH. f_equal.
  unfold entries. by rewrite <-list_fmap_compose.
Qed.

Lemma km_refs k l b : km_inv k l → usable (pool k) b → ref_of (pool k) b = occ b (held_blocks (mgrs k)).
Proof. intros [_ [_ Hl]] Hb. rewrite (li_ref _ _ _ _ Hl b Hb), app_nil_r. by rewrite entries_held. Qed.

Lemma km_entry k l m rid : km_inv k l → m ∈ mgrs k → entry_ok (pool k) (entry_of rid m).
Proof.
  intros [_ [Hs Hl]] Hm. unfold entry_of. destruct (req_to_blocks m !! rid) as [bl|] eqn:E.
  - apply (li_entry _ _ _ _ Hl). apply elem_of_app. left. apply elem_of_concat. exists (entries m).
    split; [|by apply list_elem_of_fmap_2]. unfold blocks_of. rewrite E. apply list_elem_of_fmap.
    exists (rid, bl). split; [done|]. by apply elem_of_map_to_list.
  - unfold blocks_of, ncached_of. rewrite (ms_wf _ _ (Hs m Hm) rid E), E. apply entry_ok_nil.
Qed.

Lemma no_lives_no_refs k l b : km_inv k l → lives_ok k ∅ → usable (pool k) b → ref_of (pool k) b = 0.
Proof.
  intros Hk HL Hb. rewrite (km_refs k l b Hk Hb). apply occ_zero.
  intros (bl & Hbl & (m & -> & Hm)%list_elem_of_fmap)%elem_of_concat.
  apply elem_of_concat in Hbl as (bs & Hbs & ([rid bs'] & -> & Hin)%list_elem_of_fmap). apply elem_of_map_to_list in Hin.
  specialize (HL rid). rewrite lookup_empty in HL. destruct (HL m Hm) as [E _]. unfold blocks_of in E. rewrite Hin in E.
  simpl in *. subst. by apply not_elem_of_nil in Hbs.
Qed.

Lemma no_lives_all_free k l : km_inv k l → lives_ok k ∅ → num_free_blocks (store (pool k)) = Z.of_nat (num_gpu_blocks (pool k)) - 1.
Proof.
  intros Hk HL. pose proof Hk as [_ [_ Hl]]. apply (all_free_length R (pool k) l (li_pool _ _ _ _ Hl)).
  intros b Hb. by eapply no_lives_no_refs.
Qed.

(** *** Why a call is refused *)

(** The blocks a request with hit [cols] lacks for [n] slots *)
Definition shortfall (ms : list Manager) (rid : string) (n : Z) (cols : columns) : Z :=
  zsum (zip_with (λ m bs, required_blocks m n - Z.of_nat (length bs) - len_of rid m) ms cols).

Lemma missing_shortfall k rid n cols : model_ok k → zsum (missing_all rid n 0 (mgrs k) cols) = shortfall (mgrs k) rid n cols.
Proof.
  intros Hmo. unfold missing_all, shortfall. f_equal. apply list_eq. intros i. rewrite !lookup_zip_with.
  destruct (mgrs k !! i) as [m|] eqn:E; simpl; [|done]. destruct (cols !! i); simpl; [|done].
  by rewrite missing_nocross by (by eapply sane_nocross, Hmo, list_elem_of_lookup_2).
Qed.

Lemma wp_step_refused k L request new look : sched_inv k L → call_ok k L (CStep request new look) →
  wp (run_call (CStep request new look)) k (λ r k', r = false →
    num_free_blocks (store (pool k')) <
      shortfall (mgrs k) (request_id request) (slots_needed k request new 0 look) (replicate (length (mgrs k)) [])).
Proof.
  intros (l & Hk & Hmo & HL) (Hreq & Hnew & Hlook & N & T & EL & Hcomp). pose proof (HL (request_id request)) as Hlive. rewrite EL in Hlive.
  simpl. wp_step. eapply wp_mono; [apply (wp_allocate_slots k l request new 0 None look false 0 Hk); by eapply step_alloc_pre|].
  intros [kb|] k' (l' & p & ms & -> & Hk' & Hc & Hr); wp_steps; [done|]. intros _. destruct Hr as (_ & _ & Hlt). simpl in Hlt.
  rewrite missing_shortfall in Hlt by done. destruct Hk' as [_ [_ Hl']].
  pose proof (fq_num _ _ (pi_rep _ _ _ _ (li_pool _ _ _ _ Hl'))) as En. simpl in En |- *. rewrite concat_nils in Hlt.
  unfold num_evictable in Hlt. simpl in Hlt. lia.
Qed.

Lemma wp_admit_refused k L request new look delay : sched_inv k L → call_ok k L (CAdmit request new look delay) →
  wp (run_call (CAdmit request new look delay)) k (λ r k', r = false → ∃ kb len k1,
    get_computed_blocks request k = (Ok (kb, len), k1) ∧ let cols := blocks_of_kv (length (mgrs k)) kb in
    num_free_blocks (store (pool k')) <
      shortfall (mgrs k) (request_id request) (slots_needed k request new len look) cols + num_evictable (pool k') (concat cols)).
Proof.
  intros (l & Hk & Hmo & HL) (EL & Hcomp & Hreq & Hnew & Hlook). pose proof (HL (request_id request)) as Ha. rewrite EL in Ha. unfold run_call.
  pose proof (wp_admit_get k l L request Hk Hmo HL Hreq) as Hget.
  apply wp_ok in Hget as ([kb len] & k1 & E & Hk1 & Hsame & Ec & Hmo1 & HL1 & Hreq1 & Hlen & Hkb).
  apply wp_bind. unfold wp at 1. rewrite E. apply wp_bind. simpl in Hlen, Hkb |- *.
  assert (absent k1 (request_id request)) as Ha1 by (unfold absent; by rewrite Ec).
  eapply wp_mono; [apply (wp_allocate_slots k1 l request new len (Some kb) look delay 0 Hk1); by eapply admit_alloc_pre|].
  intros [kb'|] k' (l' & p & ms & -> & Hk' & Hc & Hr); wp_steps; [done|]. intros _. exists kb, len, k1. split; [done|].
  destruct Hr as (_ & _ & Hlt). simpl in Hlt. rewrite missing_shortfall, Ec in Hlt by done. destruct Hk' as [_ [_ Hl']].
  pose proof (fq_num _ _ (pi_rep _ _ _ _ (li_pool _ _ _ _ Hl'))) as En. simpl in En |- *. rewrite En.
  assert (slots_needed k1 request new len look = slots_needed k request new len look) as <-; [|done].
  destruct Hsame as (_ & _ & Em & _). unfold slots_needed. by rewrite Em.
Qed.

Lemma wp_reset_refused k L : sched_inv k L → wp (run_call CReset) k (λ r _, r = false → L ≠ ∅).
Proof.
  intros (l & Hk & Hmo & HL). eapply wp_mono; [by apply (wp_km_reset k l)|]. intros r k' (_ & _ & Hr) -> ->.
  destruct Hr as (_ & b & Hb & Hne). apply Hne. by eapply no_lives_no_refs.
Qed.
End kvm.

(** ** The manager under the scheduler *)

(** The states the scheduler can bring the manager to, with the live requests *)
Inductive kv_reachable : KVCacheManager → gmap string (Z * Z) → Prop :=
  | kvr_init cfg max_len caching eagle log events use_int dcp pcp k :
      config_ok cfg caching eagle events dcp pcp →
      KVCacheManager_init cfg max_len caching eagle log events use_int dcp pcp = Ok k → kv_reachable k ∅
  | kvr_call k L c r k' : kv_reachable k L → call_ok k L c → run_call c k = (Ok r, k') → kv_reachable k' (lives_after k c r L).

Lemma sched_reachable k L : kv_reachable k L → sched_inv FreeQueue.rep k L.
Proof.
  induction 1 as [|k L c r k' _ IH Hc E]; [by eapply (init_ok FreeQueue.rep)|].
  pose proof (wp_call FreeQueue.rep k L c IH Hc) as Hwp. unfold wp in Hwp. by rewrite E in Hwp.
Qed.

(** A hybrid model: full attention and a sliding window of three tokens, blocks of two
    tokens, seven usable blocks *)
Definition demo_config : KVCacheConfig := mkConfig 8 [] demo_groups.
Definition demo_kv0 : result KVCacheManager := KVCacheManager_init demo_config 16 true false true false false 1 1.
Definition demo_req (rid : string) (computed : Z) (ids : list Z) : Request :=
  match new_request (Some (request_block_hasher demo_hash [Byte.x03] 2)) rid (Some ids)
          (Some demo_sampling) None None 0 (Some 0) 0 None None None None 0 with
  | Ok r => set_num_computed computed r
  | Raise _ => demo_request
  end.
Definition demo_step (s : KVCacheManager * gmap string (Z * Z)) (c : kv_call) : KVCacheManager * gmap string (Z * Z) :=
  match run_call c s.1 with (Ok r, k') => (k', lives_after s.1 c r s.2) | (Raise _, k') => (k', s.2) end.
Definition demo_start : KVCacheManager :=
  match demo_kv0 with Ok k => k | Raise _ => mkKVM 0 false false None (mkCoord NoPrefixCache 0 false 1 1 demo_pool0 []) 0 end.
Definition demo_state (cs : list kv_call) : KVCacheManager * gmap string (Z * Z) := foldl demo_step (demo_start, ∅) cs.
Definition admit_a : kv_call := CAdmit (demo_req "a" 0 [1; 2; 3; 4; 5]) 5 0 false.
Definition admit_b : kv_call := CAdmit (demo_req "b" 0 [1; 2; 3; 4; 9]) 1 0 false.
Definition step_a : kv_call := CStep (demo_req "a" 5 [1; 2; 3; 4; 5; 6]) 1 0.
Definition free_a : kv_call := CFree (demo_req "a" 0 [1; 2; 3; 4; 5]).

Lemma demo_config_ok : config_ok demo_config true false false 1 1.
Proof.
  split; try (simpl; lia).
  all: intros; repeat match goal with H : _ ∈ _ |- _ => simpl in H; apply elem_of_cons in H as [->|H] || by apply not_elem_of_nil in H end.
  all: simpl; (done || lia).
Qed.

Lemma demo_request_ok k rid computed ids : k = (demo_state []).1 ∨ k = (demo_state [admit_a]).1 →
  (rid, ids) ∈ [("a"%string, [1; 2; 3; 4; 5]); ("b"%string, [1; 2; 3; 4; 9]); ("a"%string, [1; 2; 3; 4; 5; 6])] →
  request_ok k (demo_req rid computed ids).
Proof.
  intros Hk Hr. repeat (apply elem_of_cons in Hr as [[= -> ->]|Hr]); [..|by apply not_elem_of_nil in Hr].
  all: destruct Hk as [->| ->].
  all: split; [split; apply Z.leb_le; vm_compute; reflexivity|intros _].
  all: split_and!; [apply Z.leb_le; vm_compute; reflexivity|apply (bool_decide_unpack _); vm_compute; exact I|].
  all: apply Forall_forall; apply (bool_decide_unpack _); vm_compute; exact I.
Qed.

Lemma demo_init : kv_reachable (demo_state []).1 (demo_state []).2.
Proof. apply (kvr_init demo_config 16 true false true false false 1 1 _ demo_config_ok). vm_compute. reflexivity. Qed.

Lemma admit_a_ok : call_ok (demo_state []).1 ∅ admit_a.
Proof. split_and!; [done|vm_compute; reflexivity|apply demo_request_ok; [by left|set_solver +]|lia|lia]. Qed.

Lemma demo_step_reachable s c r : kv_reachable s.1 s.2 → call_ok s.1 s.2 c → (run_call c s.1).1 = Ok r →
  kv_reachable (demo_step s c).1 (demo_step s c).2.
Proof.
  intros Hs Hc E%run_pair. pose proof (kvr_call _ _ _ _ _ Hs Hc E) as H. unfold demo_step. rewrite E. exact H.
Qed.

Lemma demo_admitted : kv_reachable (demo_state [admit_a]).1 (demo_state [admit_a]).2.
Proof. apply (demo_step_reachable (demo_state []) admit_a true demo_init admit_a_ok). vm_compute. reflexivity. Qed.

Lemma demo_calls_ok c : c ∈ [admit_b; step_a; free_a; CReset] → call_ok (demo_state [admit_a]).1 (demo_state [admit_a]).2 c.
Proof.
  intros Hc. repeat (apply elem_of_cons in Hc as [->|Hc]); [..|by apply not_elem_of_nil in Hc].
  - split_and!; [vm_compute; reflexivity|vm_compute; reflexivity|apply demo_request_ok; [by right|set_solver +]|lia|lia].
  - split_and!; [apply demo_request_ok; [by right|set_solver +]|lia|lia|]. exists 5, 5.
    split; [vm_compute; reflexivity|split; apply Z.leb_le; vm_compute; reflexivity].
  - done.
  - done.
Qed.

(** ** Properties *)

(** C3. No call of the scheduler fails.  In every reachable state of a supported model,
    admitting a waiting request, scheduling more tokens of a running one, caching blocks,
    freeing and resetting return normally: no assertion fires, no lookup fails and
    [get_new_blocks] is never short of blocks.  A refusal ([None] of [allocate_slots]) is
    a normal result. *)
Theorem kv_calls_succeed k L c : kv_reachable k L → call_ok k L c → ∃ r k', run_call c k = (Ok r, k').
Proof.
  intros Hk%sched_reachable Hc. destruct (proj1 (wp_ok _ _ _) (wp_call FreeQueue.rep k L c Hk Hc)) as (r & k' & E & _). eauto.
Qed.

Lemma kv_calls_succeed_witness : ∃ r k', run_call step_a (demo_state [admit_a]).1 = (Ok r, k').
Proof.
  apply (kv_calls_succeed (demo_state [admit_a]).1 (demo_state [admit_a]).2 step_a demo_admitted).
  apply demo_calls_ok. set_solver +.
Defined.

(** C9. The blocks of the requests are accounted for.  In every reachable state the
    reference count of each block is the number of times the block tables of all groups
    hold it; a live request with slots for [N] tokens has exactly the blocks these need
    in each group, no block twice; with the prefix cache on, its blocks after the cached
    ones are not shared with any other table and carry no hash; and requests that are not
    live hold nothing. *)
Theorem kv_blocks_accounted k L : kv_reachable k L →
  let ms := single_type_managers (coordinator k) in let p := block_pool (coordinator k) in
  (∀ b, usable p b → ref_of p b = occ b (held_blocks ms)) ∧
  (∀ rid N T m, L !! rid = Some (N, T) → m ∈ ms →
     Z.of_nat (length (blocks_of rid m)) = required_blocks m N ∧ N ≤ Z.of_nat (length (blocks_of rid m)) * block_size m ∧
     (∀ b, usable p b → occ b (blocks_of rid m) ≤ 1) ∧
     (km_enable_caching k = true → ∀ b, b ∈ drop (Z.to_nat (ncached_of rid m)) (blocks_of rid m) →
        usable p b ∧ hash_of p b = None ∧ ref_of p b = 1)) ∧
  (∀ rid m, L !! rid = None → m ∈ ms → blocks_of rid m = []).
Proof.
  intros (l & Hk & Hmo & HL)%sched_reachable ms p. split_and!.
  - intros b. by eapply km_refs.
  - intros rid N T m EL Hm. pose proof (HL rid) as Hlive. rewrite EL in Hlive. destruct Hlive as [HT Hl].
    destruct (Hl m Hm) as [El _]. pose proof (km_bs _ _ _ _ Hk Hm) as Hb. unfold len_of in El.
    destruct (km_entry _ k l m rid Hk Hm) as [_ Ho _ Ht _]. split_and!; [done| |done|].
    + rewrite El. unfold required_blocks. pose proof (spec_tokens_ge m N Hb). pose proof (cdiv_bounds (spec_tokens (mspec m) N) _ Hb). lia.
    + destruct Hk as [Hsh _]. rewrite <-(ks_caching _ Hsh). done.
  - intros rid m EL Hm. pose proof (HL rid) as Ha. rewrite EL in Ha. by apply Ha.
Qed.

Lemma kv_blocks_accounted_witness :
  let k := (demo_state [admit_a]).1 in let L := (demo_state [admit_a]).2 in
  let ms := single_type_managers (coordinator k) in let p := block_pool (coordinator k) in
  (∀ b, usable p b → ref_of p b = occ b (held_blocks ms)) ∧
  (∀ rid N T m, L !! rid = Some (N, T) → m ∈ ms →
     Z.of_nat (length (blocks_of rid m)) = required_blocks m N ∧ N ≤ Z.of_nat (length (blocks_of rid m)) * block_size m ∧
     (∀ b, usable p b → occ b (blocks_of rid m) ≤ 1) ∧
     (km_enable_caching k = true → ∀ b, b ∈ drop (Z.to_nat (ncached_of rid m)) (blocks_of rid m) →
        usable p b ∧ hash_of p b = None ∧ ref_of p b = 1)) ∧
  (∀ rid m, L !! rid = None → m ∈ ms → blocks_of rid m = []).
Proof. apply (kv_blocks_accounted _ _ demo_admitted). Defined.

(** A refusal is justified.  [allocate_slots] returns [None] to a running request
    only if, after the blocks outside the attention windows were released, fewer blocks
    are free than its groups lack for the new slots; to a waiting request only if the free
    blocks, not counting the free blocks of the cache hit, are fewer than the groups lack
    beyond the hit.  [reset_prefix_cache] is refused only while a request is live, and the
    other calls are never refused. *)
Theorem kv_refusal_justified k L c k' : kv_reachable k L → call_ok k L c → run_call c k = (Ok false, k') →
  let ms := single_type_managers (coordinator k) in let p' := block_pool (coordinator k') in
  match c with
  | CAdmit request new look _ => ∃ kb len k1, get_computed_blocks request k = (Ok (kb, len), k1) ∧
      num_free_blocks (store p') - num_evictable p' (concat (blocks_of_kv (length ms) kb)) <
        shortfall ms (request_id request) (slots_needed k request new len look) (blocks_of_kv (length ms) kb)
  | CStep request new look => num_free_blocks (store p') <
      shortfall ms (request_id request) (slots_needed k request new 0 look) (replicate (length ms) [])
  | CReset => L ≠ ∅
  | CCache _ _ | CFree _ => False
  end.
Proof.
  intros Hk%sched_reachable Hc E. destruct c as [request new look delay|request new look|request n|request|].
  - pose proof (wp_admit_refused FreeQueue.rep k L request new look delay Hk Hc) as Hwp. unfold wp in Hwp. rewrite E in Hwp.
    destruct (Hwp eq_refl) as (kb & len & k1 & E1 & Hlt). exists kb, len, k1. split; [done|]. lia.
  - pose proof (wp_step_refused FreeQueue.rep k L request new look Hk Hc) as Hwp. unfold wp in Hwp. rewrite E in Hwp. by apply Hwp.
  - simpl in E. unfold mbind, M_bind in E. by destruct (km_cache_blocks request n k) as [[]].
  - simpl in E. unfold mbind, M_bind in E. by destruct (km_free request k) as [[]].
  - pose proof (wp_reset_refused FreeQueue.rep k L Hk) as Hwp. unfold wp in Hwp. rewrite E in Hwp. by apply Hwp.
Qed.

Lemma kv_refusal_justified_witness :
  let k := (demo_state [admit_a]).1 in let k' := (run_call admit_b k).2 in
  let ms := single_type_managers (coordinator k) in let p' := block_pool (coordinator k') in
  (run_call admit_b k).1 = Ok false ∧
  match admit_b with
  | CAdmit request new look _ => ∃ kb len k1, get_computed_blocks request k = (Ok (kb, len), k1) ∧
      num_free_blocks (store p') - num_evictable p' (concat (blocks_of_kv (length ms) kb)) <
        shortfall ms (request_id request) (slots_needed k request new len look) (blocks_of_kv (length ms) kb)
  | _ => False
  end.
Proof.
  split; [vm_compute; reflexivity|].
  apply (kv_refusal_justified (demo_state [admit_a]).1 (demo_state [admit_a]).2 admit_b); [exact demo_admitted| |apply run_pair; vm_compute; reflexivity].
  apply demo_calls_ok. set_solver +.
Defined.

(** C25. A cache hit is usable.  In every reachable state with the prefix cache on,
    [get_computed_blocks] returns normally and changes only the statistics; the length of
    the hit leaves at least one token of the request to compute; if the hit has blocks,
    they cover exactly that length in every group, and each is the null block or the
    cached block of that group for the request's block hash at the same position. *)
Theorem get_computed_blocks_sound k L request : kv_reachable k L → km_enable_caching k = true → request_ok k request →
  ∃ kb len k', get_computed_blocks request k = (Ok (kb, len), k') ∧ coordinator k' = coordinator k ∧
    0 ≤ len ≤ num_tokens request - 1 ∧
    match kb with
    | EmptyBlocks => len = 0
    | Blocks cols => length cols = length (single_type_managers (coordinator k)) ∧
        ∀ i c m, cols !! i = Some c → single_type_managers (coordinator k) !! i = Some m →
          Z.of_nat (length c) * block_size m = len ∧
          ∀ j b, c !! j = Some b → b = null_block (block_pool (coordinator k)) ∨
            ∃ h, block_hashes request !! j = Some h ∧ hash_of (block_pool (coordinator k)) b = Some (block_key h i)
    end.
Proof.
  intros (l & Hk & Hmo & HL)%sched_reachable Hca Hreq.
  pose proof (wp_get_computed_blocks FreeQueue.rep k l request Hk (mo_cache _ Hmo Hca) (proj2 Hreq Hca)) as Hwp.
  apply wp_ok in Hwp as ([kb len] & k' & E & _ & Ec & _ & _ & Hlen & _ & Hkb). exists kb, len, k'. split_and!; [done|done|apply Hlen|apply Hlen|].
  destruct kb as [|cols]; simpl in Hkb.
  - destruct Hkb as [Hnil|]; [|done]. destruct Hk as [Hsh _]. pose proof (ks_kind _ Hsh) as Hkind.
    destruct (kind (coordinator k)) as [| |h]; [congruence|by rewrite Hnil in Hkind|].
    destruct Hkind as (Hh & _). rewrite Hnil in Hh. destruct (ho_nonempty _ _ Hh) as [Hne _].
    pose proof (ho_order _ _ Hh) as Ho. exfalso. apply Hne. destruct (full_attn_first h); simpl in Ho; by apply app_nil in Ho as [? ?].
  - destruct Hkb as ([Hl Hc] & Hkeys & _). split; [done|]. intros i c m Hi Hm. split; [by eapply Hc|]. intros j b. by eapply Hkeys.
Qed.

Lemma get_computed_blocks_sound_witness :
  let k := (demo_state [admit_a]).1 in let request := demo_req "b" 0 [1; 2; 3; 4; 9] in
  ∃ kb len k', get_computed_blocks request k = (Ok (kb, len), k') ∧ coordinator k' = coordinator k ∧
    0 ≤ len ≤ num_tokens request - 1 ∧
    match kb with
    | EmptyBlocks => len = 0
    | Blocks cols => length cols = length (single_type_managers (coordinator k)) ∧
        ∀ i c m, cols !! i = Some c → single_type_managers (coordinator k) !! i = Some m →
          Z.of_nat (length c) * block_size m = len ∧
          ∀ j b, c !! j = Some b → b = null_block (block_pool (coordinator k)) ∨
            ∃ h, block_hashes request !! j = Some h ∧ hash_of (block_pool (coordinator k)) b = Some (block_key h i)
    end.
Proof.
  intros k request. apply (get_computed_blocks_sound k (demo_state [admit_a]).2 request demo_admitted); [vm_compute; reflexivity|].
  apply demo_request_ok; [by right|set_solver +].
Defined.

Example get_computed_blocks_example :
  (get_computed_blocks (demo_req "b" 0 [1; 2; 3; 4; 9]) (demo_state [admit_a]).1).1 =
  Ok (Blocks [[Blk 1; Blk 2]; [Blk 0; Blk 5]], 4).
Proof. vm_compute. reflexivity. Qed.

(** No block leaks.  Whatever calls the scheduler made, once no request is live all
    blocks but the null block are free, and [reset_prefix_cache] succeeds. *)
Theorem kv_no_leak k : kv_reachable k ∅ →
  num_free_blocks (store (block_pool (coordinator k))) = Z.of_nat (num_gpu_blocks (block_pool (coordinator k))) - 1 ∧
  ∃ k', km_reset_prefix_cache k = (Ok true, k').
Proof.
  intros Hk%sched_reachable. pose proof Hk as (l & Hi & Hmo & HL). split; [by eapply (no_lives_all_free FreeQueue.rep)|].
  destruct (proj1 (wp_ok _ _ _) (wp_reset_refused FreeQueue.rep k ∅ Hk)) as ([] & k' & E & Hr); [by exists k'|]. by destruct (Hr eq_refl).
Qed.

Lemma demo_state_snoc cs c : demo_state (cs ++ [c]) = demo_step (demo_state cs) c.
Proof. unfold demo_state. by rewrite foldl_app. Qed.

Lemma demo_freed : kv_reachable (demo_state [admit_a; free_a]).1 ∅.
Proof.
  assert ((demo_state [admit_a; free_a]).2 = ∅) as <- by (vm_compute; reflexivity).
  rewrite (demo_state_snoc [admit_a] free_a : demo_state [admit_a; free_a] = _).
  refine (demo_step_reachable (demo_state [admit_a]) free_a true demo_admitted _ _); [exact I|vm_compute; reflexivity].
Qed.

Lemma kv_no_leak_witness : let k := (demo_state [admit_a; free_a]).1 in
  num_free_blocks (store (block_pool (coordinator k))) = Z.of_nat (num_gpu_blocks (block_pool (coordinator k))) - 1 ∧
  ∃ k', km_reset_prefix_cache k = (Ok true, k').
Proof. apply (kv_no_leak _ demo_freed). Defined.

(** An encoder-decoder model with three usable blocks of two tokens *)
Definition cross_config : KVCacheConfig :=
  mkConfig 4 [] [mkGroup [] (FullAttentionSpec 2 demo_attn None None); mkGroup [] (CrossAttentionSpec 2 demo_attn)].

Definition cross_k0 : KVCacheManager :=
  match KVCacheManager_init cross_config 16 false false false false false 1 1 with Ok k => k | Raise _ => demo_start end.

(** Models with cross-attention are outside the guarantee that no call fails: the count that
    [allocate_slots] compares with the free blocks adds up all groups, and for a running
    request, for which the scheduler passes no encoder tokens, the cross-attention group
    counts minus the blocks it has.  Here a request fills the pool; its next token needs
    a block, the count is negative, and [allocate_slots] raises [ValueError] in
    [get_new_blocks] instead of returning [None]. *)
Theorem cross_attention_allocation_raises :
  ∃ k0 k1 blocks, KVCacheManager_init cross_config 16 false false false false false 1 1 = Ok k0 ∧
    allocate_slots (demo_req "a" 0 [1; 2]) 2 0 None 0 false 4 k0 = (Ok (Some blocks), k1) ∧
    num_free_blocks (store (block_pool (coordinator k1))) = 0 ∧
    (allocate_slots (demo_req "a" 2 [1; 2; 3]) 1 0 None 0 false 0 k1).1 = Raise ValueError.
Proof.
  exists cross_k0, (allocate_slots (demo_req "a" 0 [1; 2]) 2 0 None 0 false 4 cross_k0).2, (Blocks [[Blk 1]; [Blk 2; Blk 3]]).
  split_and!; [|apply run_pair|..]; vm_compute; reflexivity.
Qed.

(** ** The hit rate *)

Section metrics.
Import Metrics.
Implicit Types (h q : list (Z * Z * Z)).

(** What was observed since the last reset *)
Definition observed h (s : PrefixCacheStats) : list (Z * Z * Z) :=
  let h := if st_reset s then [] else h in
  if bool_decide (st_requests s = 0) then h else h ++ [(st_requests s, st_queries s, st_hits s)].

Definition total (f : Z * Z * Z → Z) q : Z := zsum (f <$> q).
Definition requests_in (x : Z * Z * Z) : Z := x.1.1.
Definition queries_in (x : Z * Z * Z) : Z := x.1.2.
Definition hits_in (x : Z * Z * Z) : Z := x.2.

(** The aggregates are those of the last observations, [h] without the first [i]. *)
Record metrics_ok (n : Z) h (i : nat) (m : CachingMetrics) : Prop := {
  mk_max : max_recent_requests m = n;
  mk_queue : query_queue m = drop i h;
  mk_requests : aggregated_requests m = total requests_in (drop i h);
  mk_queries : aggregated_query_total m = total queries_in (drop i h);
  mk_hits : aggregated_query_hit m = total hits_in (drop i h);
  mk_bound : (i < length h)%nat ∨ h = [] ∧ i = 0%nat;
  mk_longest : i = 0%nat ∨ n < total requests_in (drop (i - 1) h);
}.
Definition window_kept (n : Z) (m : CachingMetrics) : Prop := aggregated_requests m ≤ n ∨ (length (query_queue m) ≤ 1)%nat.

Lemma total_cons f x q : total f (x :: q) = f x + total f q.
Proof. unfold total. csimpl. apply zsum_cons. Qed.

Lemma total_app f q q' : total f (q ++ q') = total f q + total f q'.
Proof. induction q as [|x q IH]; simpl; [done|]. rewrite !total_cons, IH. lia. Qed.

Lemma drop_cons_S {A} (l : list A) i (x : A) (q : list A) : drop i l = x :: q → drop (S i) l = q ∧ (i < length l)%nat.
Proof.
  intros E. pose proof (f_equal length E) as El. rewrite length_drop in El. simpl in El.
  split; [|lia]. replace (S i) with (i + 1)%nat by lia. rewrite <-drop_drop, E. done.
Qed.

Lemma evict_ok n h : ∀ q i, drop i h = q → q ≠ [] → (i = 0%nat ∨ n < total requests_in (drop (i - 1) h)) →
  let m := evict q n (total requests_in q) (total queries_in q) (total hits_in q) in
  ∃ j, metrics_ok n h j m ∧ window_kept n m.
Proof.
  induction q as [|[[r t] u] q IH]; intros i E Hne Hl; [done|]. destruct (drop_cons_S _ _ _ _ E) as [E' Hi].
  assert (metrics_ok n h i (mkMetrics n (total requests_in ((r, t, u) :: q)) (total queries_in ((r, t, u) :: q))
    (total hits_in ((r, t, u) :: q)) ((r, t, u) :: q))) as Hm by (rewrite <-E; split; simpl; auto).
  simpl. destruct q as [|y q]; [exists i; split; [done|]; right; simpl; lia|].
  destruct (Z.ltb_spec n (total requests_in ((r, t, u) :: y :: q))) as [Hlt|Hge]; [|exists i; split; [done|]; by left].
  specialize (IH (S i) E' ltac:(done)). rewrite !(total_cons _ (r, t, u)), !Z.add_simpl_l.
  apply IH. right. simpl. by rewrite Nat.sub_0_r, E.
Qed.

Lemma observe_ok n h i m s : metrics_ok n h i m → window_kept n m → 0 ≤ st_requests s →
  ∃ j, metrics_ok n (observed h s) j (observe s m) ∧ window_kept n (observe s m).
Proof.
  intros Hm Hw Hs. set (h' := if st_reset s then [] else h).
  assert (∃ j, metrics_ok n h' j (if st_reset s then reset m else m) ∧ window_kept n (if st_reset s then reset m else m)) as (j & Hm' & Hw').
  { unfold h'. destruct (st_reset s); [|eauto]. exists 0%nat. destruct Hm. split; [split; simpl; auto|right; simpl; lia]. }
  unfold observe, observed. fold h'. case_bool_decide as E; [eauto|]. set (m' := if st_reset s then reset m else m) in *.
  set (x := (st_requests s, st_queries s, st_hits s)). destruct Hm' as [H1 H2 H3 H4 H5 H6 H7].
  assert (j ≤ length h')%nat as Hj by (destruct H6 as [|[-> ->]]; simpl; lia).
  assert (∀ f, total f (drop j h') + f x = total f (drop j h' ++ [x])) as Et.
  { intros f. by rewrite total_app. }
  rewrite H1, H2, H3, H4, H5, (Et requests_in : _ + st_requests s = _),
    (Et queries_in : _ + st_queries s = _), (Et hits_in : _ + st_hits s = _). apply (evict_ok n (h' ++ [x]) _ j).
  - by rewrite drop_app_le.
  - by destruct (drop j h').
  - destruct H7 as [|H7]; [by left|right]. rewrite drop_app_le by lia. rewrite total_app.
    assert (total requests_in [x] = st_requests s) as -> by done. lia.
Qed.

Lemma observe_all_ok n (stats : list PrefixCacheStats) : Forall (λ s, 0 ≤ st_requests s) stats → ∀ h i m,
  metrics_ok n h i m → window_kept n m →
  ∃ j, metrics_ok n (foldl observed h stats) j (foldl (flip observe) m stats) ∧ window_kept n (foldl (flip observe) m stats).
Proof.
  induction 1 as [|s stats Hs _ IH]; intros h i m Hm Hw; [eauto|]. simpl.
  destruct (observe_ok n h i m s Hm Hw Hs) as (j & Hm' & Hw'). by eapply IH.
Qed.
End metrics.

(** The reported hit rate is that of a window of recent requests.  After any sequence
    of observations, [CachingMetrics] holds the longest suffix of the observations since
    the last reset that has at most [max_recent_requests] requests, the latest
    observation being kept in any case; the aggregates are the sums over that suffix, and
    the hit rate is their quotient, or 0 without queries. *)
Theorem caching_metrics_window n stats : Forall (λ s, 0 ≤ st_requests s) stats →
  let m := foldl (flip Metrics.observe) (Metrics.init n) stats in let h := foldl observed [] stats in
  ∃ i, Metrics.query_queue m = drop i h ∧ ((i < length h)%nat ∨ h = []) ∧
    (total requests_in (drop i h) ≤ n ∨ (length (drop i h) ≤ 1)%nat) ∧
    (i = 0%nat ∨ n < total requests_in (drop (i - 1) h)) ∧
    Metrics.aggregated_requests m = total requests_in (drop i h) ∧
    Metrics.hit_rate m = (if bool_decide (total queries_in (drop i h) = 0)%Z then 0
      else inject_Z (total hits_in (drop i h)) / inject_Z (total queries_in (drop i h)))%Q.
Proof.
  intros Hs m h. destruct (observe_all_ok n stats Hs [] 0 (Metrics.init n)) as (i & [H1 H2 H3 H4 H5 H6 H7] & Hw).
  - by split; simpl; auto.
  - right. simpl. lia.
  - exists i. fold m h in H2, H3, H4, H5, H6, H7, Hw |- *. unfold Metrics.hit_rate, window_kept in *. rewrite H2, H3 in *.
    rewrite H4, H5. split_and!; (done || naive_solver).
Qed.

Lemma caching_metrics_window_witness :
  let stats := [mkStats false 2 10 4 0 0 0; mkStats false 3 20 5 0 0 0] in
  let m := foldl (flip Metrics.observe) (Metrics.init 4) stats in let h := foldl observed [] stats in
  Metrics.query_queue m = [(3, 20, 5)] ∧
  ∃ i, Metrics.query_queue m = drop i h ∧ ((i < length h)%nat ∨ h = []) ∧
    (total requests_in (drop i h) ≤ 4 ∨ (length (drop i h) ≤ 1)%nat) ∧
    (i = 0%nat ∨ 4 < total requests_in (drop (i - 1) h)) ∧
    Metrics.aggregated_requests m = total requests_in (drop i h) ∧
    Metrics.hit_rate m = (if bool_decide (total queries_in (drop i h) = 0)%Z then 0
      else inject_Z (total hits_in (drop i h)) / inject_Z (total queries_in (drop i h)))%Q.
Proof.
  intros stats. split; [reflexivity|]. apply (caching_metrics_window 4 stats). repeat constructor; simpl; lia.
Defined.
