(* ===== verification/KVCacheSizing.v ===== *)
(** * vllm/v1/core/kv_cache_utils.py: the KV cache configuration at start-up

    How the layers of a model are grouped, how many blocks fit the memory of the workers,
    which layers share a tensor, and how large the tensors are. *)

From stdpp Require Import base tactics option list gmap strings.
From Stdlib Require Import ZArith Lia QArith.
From S2P Require Import Prelude Request KVCacheInterface KVCacheManager.
Local Open Scope Z_scope.

(** The spec of a group on the side of the workers: a plain spec, or the specs of layers
    that need the same number of slots but have pages of different sizes *)
Inductive any_spec := Plain (s : KVCacheSpec) | UniformType (u : UniformTypeKVCacheSpecs).
Record WorkerGroup := mkWGroup { wg_layers : list string; wg_spec : any_spec }.
Record WorkerConfig := mkWConfig { wc_num_blocks : Z; wc_tensors : list KVCacheTensor; wc_groups : list WorkerGroup }.

(** A dict from layer names to specs, in insertion order *)
Abbreviation spec_dict := (list (string * KVCacheSpec)).

(** [max(l)] and [min(l)] *)
Definition maxR (l : list Z) : result Z := match l with [] => Raise ValueError | x :: l' => Ok (foldl Z.max x l') end.
Definition minR (l : list Z) : result Z := match l with [] => Raise ValueError | x :: l' => Ok (foldl Z.min x l') end.
Definition cdivR (a b : Z) : result Z := if decide (b = 0) then Raise ZeroDivisionError else Ok (cdiv a b).

(** [vllm_config.model_config.max_model_len = n] *)
Definition set_max_model_len (n : Z) (cfg : VllmConfig) : VllmConfig :=
  mkVllmConfig n (decode_context_parallel_size cfg) (prefill_context_parallel_size cfg)
    (KVCacheInterface.max_num_batched_tokens cfg) (KVCacheInterface.max_num_encoder_input_tokens cfg).

Section sizing.
(** [get_dtype_size], and the settings that are only read *)
Context (dtype_size : string → Z) (num_gpu_blocks_override : option Z) (disable_hybrid_kv_cache_manager : bool).

(** ** Sizes *)

Definition spec_page_size_bytes (s : any_spec) : result Z :=
  match s with
  | Plain s => page_size_bytes dtype_size s
  | UniformType u => l ← mapR (page_size_bytes dtype_size) (u_specs u).*2; Ok (zsum l)
  end.

Definition spec_max_memory_usage_bytes (cfg : VllmConfig) (s : any_spec) : result Z :=
  match s with
  | Plain s => KVCacheInterface.max_memory_usage_bytes dtype_size cfg s
  | UniformType u =>
      pages ← mapR (λ s, m ← KVCacheInterface.max_memory_usage_bytes dtype_size cfg s; p ← page_size_bytes dtype_size s; cdivR m p) (u_specs u).*2;
      max_num_pages ← maxR pages;
      page ← spec_page_size_bytes (UniformType u);
      Ok (max_num_pages * page)
  end.

(** [max_memory_usage_bytes(vllm_config, specs)] *)
Definition max_memory_usage_bytes (cfg : VllmConfig) (specs : list any_spec) : result Z :=
  l ← mapR (spec_max_memory_usage_bytes cfg) specs; Ok (zsum l).

Definition specs_of (d : spec_dict) : list any_spec := Plain <$> d.*2.

(** The closure sets the length in the configuration it measures. *)
Definition fits_in_memory (d : spec_dict) (available_memory model_len : Z) : M VllmConfig bool :=
  modify (set_max_model_len model_len) ;;
  cfg ← get;
  memory_needed ← of_result (max_memory_usage_bytes cfg (specs_of d));
  mret (memory_needed <=? available_memory).

(** [while left <= right] *)
Fixpoint search (fuel : nat) (d : spec_dict) (available_memory left right found : Z) : M VllmConfig Z :=
  match fuel with
  | O => raise OutOfFuel
  | S fuel' =>
      if left <=? right then
        let mid := (left + right) / 2 in
        ok ← fits_in_memory d available_memory mid;
        if ok : bool then search fuel' d available_memory (mid + 1) right mid
        else search fuel' d available_memory left (mid - 1) found
      else mret found
  end.

Definition estimate_max_model_len (d : spec_dict) (available_memory : Z) : M VllmConfig Z :=
  cfg ← get;
  let current_max := max_model_len cfg in
  ok ← fits_in_memory d available_memory 1;
  if negb ok then mret 0
  else search (S (S (Z.to_nat (Z.log2 current_max)))) d available_memory 1 current_max 1.

Definition check_enough_kv_cache_memory (d : spec_dict) (available_memory : Z) : M VllmConfig () :=
  if bool_decide (d = []) then mret () else
  if available_memory <=? 0 then raise ValueError else
  cfg ← get;
  needed_memory ← of_result (max_memory_usage_bytes cfg (specs_of d));
  if available_memory <? needed_memory then estimate_max_model_len d available_memory ;; raise ValueError
  else mret ().

(** ** Groups *)

Definition key_of {V} (k : string) (d : list (string * V)) : result V :=
  match OD.get k d with Some v => Ok v | None => Raise KeyError end.

Definition create_kv_cache_group_specs (d : spec_dict) (grouped_layer_names : list (list string)) : result (list WorkerGroup) :=
  mapR (λ names,
    layer_specs ← mapR (λ n, key_of n d) names;
    match layer_specs with
    | [] => Raise IndexError
    | s0 :: _ => merged ← merge s0 layer_specs; Ok (mkWGroup names (Plain merged))
    end) grouped_layer_names.

(** [except AssertionError]: other exceptions of [merge] pass. *)
Definition is_kv_cache_spec_uniform (d : spec_dict) : result bool :=
  match d.*2 with
  | [] => Ok true
  | s0 :: _ => match merge s0 d.*2 with Ok _ => Ok true | Raise AssertionError => Ok false | Raise e => Raise e end
  end.

Definition get_max_concurrency_for_kv_cache_config (cfg : VllmConfig) (c : WorkerConfig) : result Q :=
  num_layer_per_group ← maxR ((λ g, Z.of_nat (length (wg_layers g))) <$> wc_groups c);
  usage ← max_memory_usage_bytes cfg (wg_spec <$> wc_groups c);
  match wc_groups c with
  | [] => Raise IndexError
  | g :: _ =>
      page ← spec_page_size_bytes (wg_spec g);
      num_block_per_request ← cdivR (num_layer_per_group * usage) (page * num_layer_per_group);
      if decide (num_block_per_request = 0) then Raise ZeroDivisionError
      else Ok (inject_Z (wc_num_blocks c) / inject_Z num_block_per_request)%Q
  end.

Definition may_override_num_blocks (num_blocks : Z) : Z := default num_blocks num_gpu_blocks_override.

Definition get_num_blocks (num_layers available_memory page_size : Z) : result Z :=
  a ← py_div available_memory page_size;
  n ← py_div a num_layers;
  Ok (may_override_num_blocks (Z.max n 0)).

(** [set(layer.page_size_bytes for layer in kv_cache_spec.values())] *)
Definition page_sizes (d : spec_dict) : result (list Z) := l ← mapR (page_size_bytes dtype_size) d.*2; Ok (remove_dups l).

Definition get_uniform_page_size (d : spec_dict) : result Z :=
  l ← page_sizes d; match l with [p] => Ok p | _ => Raise AssertionError end.

Definition _get_kv_cache_groups_uniform_spec (d : spec_dict) : result (list WorkerGroup) := create_kv_cache_group_specs d [d.*1].
Definition _get_kv_cache_groups_uniform_type (u : UniformTypeKVCacheSpecs) : list WorkerGroup := [mkWGroup (u_specs u).*1 (UniformType u)].

Definition is_kv_cache_page_size_uniform (d : spec_dict) : result bool := l ← page_sizes d; Ok (bool_decide (length l = 1%nat)).
Definition is_kv_cache_type_attention_free (d : spec_dict) : bool := bool_decide (d = []).

(** [same_type_layers[layer_spec].append(layer_name)] on a [defaultdict(list)] *)
Definition same_type_layers (d : spec_dict) : list (KVCacheSpec * list string) :=
  foldl (λ acc x, OD.set x.2 (default [] (OD.get x.2 acc) ++ [x.1]) acc) [] d.

(** [layers[i::n]] for [0 < n] *)
Definition stride (i n : nat) (layers : list string) : list string :=
  omap (λ k, layers !! (i + k * n)%nat) (seq 0 (length layers)).

(** The groups of one type: [layers[i::num_groups]] for every [i] *)
Definition split_layers (group_size : Z) (layers : list string) : list (list string) :=
  let num_groups := Z.to_nat (cdiv (Z.of_nat (length layers)) group_size) in
  (λ i, stride i num_groups layers) <$> seq 0 num_groups.

Definition _get_kv_cache_groups_uniform_page_size (d : spec_dict) : result (list WorkerGroup) :=
  let types := (same_type_layers d).*2 in
  group_size ← minR ((λ layers, Z.of_nat (length layers)) <$> types);
  create_kv_cache_group_specs d (types ≫= split_layers group_size).

(** The local variables of [unify_hybrid_kv_cache_specs] *)
Definition is_window (s : KVCacheSpec) : bool := match s with SlidingWindowSpec _ _ _ => true | _ => false end.
Definition is_chunked (s : KVCacheSpec) : bool := match s with ChunkedLocalAttentionSpec _ _ _ => true | _ => false end.
Definition to_full (s : KVCacheSpec) : KVCacheSpec :=
  match s with
  | SlidingWindowSpec bs a w => FullAttentionSpec bs a (Some w) None
  | ChunkedLocalAttentionSpec bs a c => FullAttentionSpec bs a None (Some c)
  | _ => s
  end.

(** [is_kv_cache_spec_uniform(d) or UniformTypeKVCacheSpecs.is_uniform_type(d)] *)
Definition uniform_spec_or_type (d : spec_dict) : result bool :=
  u ← is_kv_cache_spec_uniform d; if u : bool then Ok true else is_uniform_type d.

(** The dict is converted in place; the value is the dict afterwards. *)
Definition unify_hybrid_kv_cache_specs (d : spec_dict) : result spec_dict :=
  u ← uniform_spec_or_type d;
  if u : bool then Ok d else
  let d' := if existsb is_full d.*2 && (existsb is_window d.*2 || existsb is_chunked d.*2)
            then (λ x, (x.1, to_full x.2)) <$> d else d in
  u' ← uniform_spec_or_type d';
  if u' : bool then Ok d' else Raise ValueError.

Definition get_kv_cache_groups (d : spec_dict) : result (list WorkerGroup) :=
  d ← (if disable_hybrid_kv_cache_manager then unify_hybrid_kv_cache_specs d else Ok d);
  if is_kv_cache_type_attention_free d then Ok [] else
  uniform ← is_kv_cache_spec_uniform d;
  if uniform : bool then _get_kv_cache_groups_uniform_spec d else
  uniform_spec ← from_specs d;
  match uniform_spec with
  | Some u => Ok (_get_kv_cache_groups_uniform_type u)
  | None =>
      same_page ← is_kv_cache_page_size_uniform d;
      if same_page : bool then _get_kv_cache_groups_uniform_page_size d else Raise NotImplementedError
  end.

(** ** Tensors *)

(** The [i]-th layer of every group that has one *)
Definition shared_layers (groups : list WorkerGroup) (i : nat) : list string := omap (λ g, wg_layers g !! i) groups.

Definition get_kv_cache_config_from_groups (groups : list WorkerGroup) (d : spec_dict) (available_memory : Z) : result WorkerConfig :=
  let general :=
    group_size ← maxR ((λ g, Z.of_nat (length (wg_layers g))) <$> groups);
    page_size ← get_uniform_page_size d;
    if group_size <=? 0 then Raise AssertionError else
    num_blocks ← get_num_blocks group_size available_memory page_size;
    Ok (mkWConfig num_blocks
          ((λ i, mkTensor (page_size * num_blocks) (shared_layers groups i)) <$> seq 0 (Z.to_nat group_size)) groups) in
  match groups with
  | [] => Ok (mkWConfig 1 [] groups)
  | [mkWGroup names (UniformType u)] =>
      page_size ← spec_page_size_bytes (UniformType u);
      n ← py_div available_memory page_size;
      let num_blocks := may_override_num_blocks n in
      tensors ← mapR (λ name,
        s ← key_of name (u_specs u);
        p ← page_size_bytes dtype_size s;
        Ok (mkTensor (p * num_blocks) [name])) names;
      Ok (mkWConfig num_blocks tensors groups)
  | _ => general
  end.

(** [copy.deepcopy(kv_cache_configs[0])] with every uniform type replaced by one of its specs *)
Definition scheduler_group (g : WorkerGroup) : result KVCacheGroupSpec :=
  match wg_spec g with
  | Plain s => Ok (mkGroup (wg_layers g) s)
  | UniformType u => match (u_specs u).*2 with [] => Raise StopIteration | s :: _ => Ok (mkGroup (wg_layers g) s) end
  end.
Definition generate_scheduler_kv_cache_config (configs : list WorkerConfig) : result KVCacheConfig :=
  match configs with
  | [] => Raise IndexError
  | c :: _ =>
      if forallb (λ c', bool_decide (wc_num_blocks c' = wc_num_blocks c)) configs then
        groups ← mapR scheduler_group (wc_groups c);
        Ok (mkConfig (Z.to_nat (wc_num_blocks c)) (wc_tensors c) groups)
      else Raise AssertionError
  end.

(** ** All workers *)

(** What [_report_kv_cache_config] computes for the log: the tokens that fit, and the
    concurrency *)
Definition _report_kv_cache_config (cfg : VllmConfig) (c : WorkerConfig) : result (Z * Q) :=
  min_block_size ← minR ((λ g, match wg_spec g with Plain s => spec_block_size s | UniformType u => u_block_size u end) <$> wc_groups c);
  n ← py_div (wc_num_blocks c) (Z.of_nat (length (wc_groups c)));
  let cp := prefill_context_parallel_size cfg * decode_context_parallel_size cfg in
  let num_tokens := if 1 <? cp then n * min_block_size * cp else n * min_block_size in
  max_concurrency ← get_max_concurrency_for_kv_cache_config cfg c;
  Ok (num_tokens, max_concurrency).

(** The first use of a layer fixes its spec; the others must agree. *)
Fixpoint merge_specs (merged d : spec_dict) : result spec_dict :=
  match d with
  | [] => Ok merged
  | (name, s) :: rest =>
      match OD.get name merged with
      | None => merge_specs (OD.set name s merged) rest
      | Some s' => if bool_decide (s' = s) then merge_specs merged rest else Raise AssertionError
      end
  end.
Fixpoint merge_workers (merged : spec_dict) (ds : list spec_dict) : result spec_dict :=
  match ds with [] => Ok merged | d :: rest => m ← merge_specs merged d; merge_workers m rest end.

(** The groups restricted to the layers of one worker *)
Definition worker_groups (groups : list WorkerGroup) (d : spec_dict) : list WorkerGroup :=
  (λ g, mkWGroup (filter (λ n, n ∈ d.*1) (wg_layers g)) (wg_spec g)) <$> groups.

Definition worker_config (groups : list WorkerGroup) (x : spec_dict * Z) : result WorkerConfig :=
  let gs := worker_groups groups x.1 in
  if bool_decide (length (gs ≫= wg_layers) = length x.1) then get_kv_cache_config_from_groups gs x.1 x.2
  else Raise AssertionError.

(** The loop that gives every worker [min_num_blocks] blocks *)
Definition shrink_tensor (old new : Z) (t : KVCacheTensor) : result KVCacheTensor :=
  r ← py_mod (tensor_size t) old;
  if negb (bool_decide (r = 0)) then Raise AssertionError else
  q ← py_div (tensor_size t) old;
  Ok (mkTensor (q * new) (shared_by t)).
Definition shrink_config (cfg : VllmConfig) (min_num_blocks : Z) (c : WorkerConfig) : result WorkerConfig :=
  tensors ← mapR (shrink_tensor (wc_num_blocks c) min_num_blocks) (wc_tensors c);
  let c' := mkWConfig min_num_blocks tensors (wc_groups c) in
  if bool_decide (wc_groups c = []) then Ok c' else _report_kv_cache_config cfg c' ;; Ok c'.

Definition get_kv_cache_configs (kv_cache_specs : list spec_dict) (available_memory : list Z) : M VllmConfig (list WorkerConfig) :=
  for_each (zip kv_cache_specs available_memory) (λ x, check_enough_kv_cache_memory x.1 x.2) ;;
  merged ← of_result (merge_workers [] kv_cache_specs);
  groups ← of_result (get_kv_cache_groups merged);
  configs ← of_result (mapR (worker_config groups) (zip kv_cache_specs available_memory));
  min_num_blocks ← of_result (minR (wc_num_blocks <$> configs));
  cfg ← get;
  of_result (mapR (shrink_config cfg min_num_blocks) configs).
End sizing.

(** ** The estimate of the maximum model length *)

Section estimate.
Context (dtype_size : string → Z).

(** Sizes are positive and, with a sliding window, there is no decode context parallelism. *)
Definition measurable (cfg : VllmConfig) (s : KVCacheSpec) : Prop :=
  0 < spec_block_size s ∧ (∃ p, page_size_bytes dtype_size s = Ok p ∧ 0 ≤ p) ∧ (is_window s = true → decode_context_parallel_size cfg = 1).

Definition is_encoder_only (s : KVCacheSpec) : bool := match s with EncoderOnlyAttentionSpec _ _ => true | _ => false end.

Definition usage_at (cfg : VllmConfig) (n : Z) (s : KVCacheSpec) (z : Z) : Prop :=
  KVCacheInterface.max_memory_usage_bytes dtype_size (set_max_model_len n cfg) s = Ok z.

Lemma max_pages_mono cfg s n n' : measurable cfg s → n ≤ n' →
  ∃ a b, max_pages (set_max_model_len n cfg) s = Ok a ∧ max_pages (set_max_model_len n' cfg) s = Ok b ∧ a ≤ b.
Proof.
  intros (Hb & _ & Hw) Hn.
  destruct s; cbn [max_pages set_max_model_len max_model_len decode_context_parallel_size prefill_context_parallel_size
    KVCacheInterface.max_num_batched_tokens KVCacheInterface.max_num_encoder_input_tokens spec_block_size is_window] in *.
  all: try (rewrite bool_decide_true by auto). all: eexists _, _; split; [reflexivity|split; [reflexivity|]].
  all: repeat first [done|lia|apply Z.add_le_mono_r|case_match|apply cdiv_mono].
Qed.

Lemma usage_mono cfg s n n' : measurable cfg s → n ≤ n' → ∃ a b, usage_at cfg n s a ∧ usage_at cfg n' s b ∧ a ≤ b.
Proof.
  intros Hs Hn. destruct (max_pages_mono cfg s n n' Hs Hn) as (a & b & Ea & Eb & Hab). destruct Hs as (_ & (p & Ep & Hp) & _).
  destruct (is_encoder_only s) eqn:Es; [destruct s; try done; by exists 0, 0|].
  exists (a * p), (b * p). unfold usage_at, KVCacheInterface.max_memory_usage_bytes. rewrite Ea, Eb, Ep.
  destruct s; try done; split_and!; try done; nia.
Qed.

(** The memory needed at a length *)
Definition needs (cfg : VllmConfig) (d : spec_dict) (n z : Z) : Prop := max_memory_usage_bytes dtype_size (set_max_model_len n cfg) (specs_of d) = Ok z.
Definition fits (cfg : VllmConfig) (d : spec_dict) (available n : Z) : Prop := ∃ z, needs cfg d n z ∧ z ≤ available.

Lemma needs_cons cfg x d n a z : usage_at cfg n x.2 a → needs cfg d n z → needs cfg (x :: d) n (a + z).
Proof.
  unfold needs, max_memory_usage_bytes, specs_of, usage_at. intros Ha (l & El & [= <-])%result_bind_ok.
  cbn [fmap list_fmap mapR spec_max_memory_usage_bytes]. rewrite Ha. cbn [mbind result_bind]. cbn [fmap list_fmap] in El. rewrite El. cbn [mbind result_bind].
  by rewrite zsum_cons.
Qed.

Lemma needs_mono cfg d n n' : Forall (measurable cfg) d.*2 → n ≤ n' → ∃ a b, needs cfg d n a ∧ needs cfg d n' b ∧ a ≤ b.
Proof.
  intros Hd Hn. induction d as [|x d IH]; [by exists 0, 0|]. rewrite fmap_cons in Hd. apply Forall_cons in Hd as [Hx Hd].
  destruct (usage_mono cfg x.2 n n' Hx Hn) as (a & b & Ha & Hb & ?). destruct (IH Hd) as (a' & b' & Ha' & Hb' & ?).
  exists (a + a'), (b + b'). split_and!; [by apply needs_cons|by apply needs_cons|lia].
Qed.

Lemma fits_mono cfg d av n n' : Forall (measurable cfg) d.*2 → n ≤ n' → fits cfg d av n' → fits cfg d av n.
Proof.
  intros Hd Hn (z & Hz & ?). destruct (needs_mono cfg d n n' Hd Hn) as (a & b & Ha & Hb & ?). exists a. split; [done|].
  unfold needs in *. rewrite Hz in Hb. injection Hb as ->. lia.
Qed.

Lemma set_len_set n n' cfg : set_max_model_len n (set_max_model_len n' cfg) = set_max_model_len n cfg.
Proof. done. Qed.

Lemma wp_fits cfg0 cfg d av n (Q : bool → VllmConfig → Prop) : Forall (measurable cfg) d.*2 →
  set_max_model_len n cfg0 = set_max_model_len n cfg →
  (fits cfg d av n → Q true (set_max_model_len n cfg)) → (¬ fits cfg d av n → Q false (set_max_model_len n cfg)) →
  wp (fits_in_memory dtype_size d av n) cfg0 Q.
Proof.
  intros Hd E0 Ht Hf. unfold fits_in_memory. apply wp_bind, wp_modify, wp_bind, wp_gets. rewrite E0.
  destruct (needs_mono cfg d n n Hd ltac:(lia)) as (z & _ & Hz & _). apply wp_bind. unfold needs in Hz. rewrite Hz. apply wp_ret, wp_ret.
  destruct (Z.leb_spec z av) as [Hle|Hgt].
  - apply Ht. by exists z.
  - apply Hf. intros (z' & Hz' & ?). unfold needs in Hz'. rewrite Hz in Hz'. injection Hz' as ->. lia.
Qed.

Lemma search_eq fuel d av l r found : search dtype_size (S fuel) d av l r found =
  if l <=? r then
    let mid := (l + r) / 2 in
    ok ← fits_in_memory dtype_size d av mid;
    if ok : bool then search dtype_size fuel d av (mid + 1) r mid else search dtype_size fuel d av l (mid - 1) found
  else mret found.
Proof. done. Qed.

Lemma wp_search cfg d av m : Forall (measurable cfg) d.*2 → ∀ fuel l r found cfg0,
  (∀ n, set_max_model_len n cfg0 = set_max_model_len n cfg) → 1 ≤ l ≤ found + 1 → 1 ≤ found ≤ m → r ≤ m → r - l + 1 < 2 ^ Z.of_nat fuel →
  fits cfg d av found → (∀ n, r < n ≤ m → ¬ fits cfg d av n) →
  wp (search dtype_size (S fuel) d av l r found) cfg0
    (λ x cfg', (1 ≤ x ≤ m ∧ fits cfg d av x ∧ ∀ n, x < n ≤ m → ¬ fits cfg d av n) ∧ ∀ n, set_max_model_len n cfg' = set_max_model_len n cfg).
Proof.
  intros Hd. induction fuel as [|fuel IH]; intros l r found cfg0 E0 Hl Hfm Hr Hsz Hfit Hnot; rewrite search_eq.
  { change (2 ^ Z.of_nat 0) with 1 in Hsz. rewrite (proj2 (Z.leb_gt l r)) by lia. apply wp_ret. split_and!; try done; try lia. intros n Hn. apply Hnot. lia. }
  destruct (Z.leb_spec l r) as [Hle|Hgt].
  2:{ apply wp_ret. split_and!; try done; try lia. intros n Hn. apply Hnot. lia. }
  pose proof (Z.div_mod (l + r) 2 ltac:(lia)). pose proof (Z.mod_pos_bound (l + r) 2 ltac:(lia)). cbv zeta. set (mid := (l + r) / 2) in *.
  rewrite Nat2Z.inj_succ, Z.pow_succ_r in Hsz by lia. apply wp_bind. apply (wp_fits _ cfg); [done|done| |].
  - intros Hm. apply IH; try done; lia.
  - intros Hm. apply IH; try done; try lia. intros n Hn Hf. apply Hm. eapply fits_mono; [done| |exact Hf]. lia.
Qed.

(** What [estimate_max_model_len] returns: the largest length that fits, 0 if none does *)
Definition best_length (cfg : VllmConfig) (d : spec_dict) (available m : Z) (x : Z) : Prop :=
  (x = 0 ∧ ∀ n, 1 ≤ n ≤ m → ¬ fits cfg d available n) ∨
  (1 ≤ x ≤ m ∧ fits cfg d available x ∧ ∀ n, x < n ≤ m → ¬ fits cfg d available n).

Lemma wp_estimate cfg d av : Forall (measurable cfg) d.*2 → 1 ≤ max_model_len cfg →
  wp (estimate_max_model_len dtype_size d av) cfg
    (λ x cfg', best_length cfg d av (max_model_len cfg) x ∧ ∀ n, set_max_model_len n cfg' = set_max_model_len n cfg).
Proof.
  intros Hd Hm. unfold estimate_max_model_len. apply wp_bind, wp_gets, wp_bind. set (m := max_model_len cfg) in *.
  apply (wp_fits _ cfg); [done|done| |].
  - intros Hf. cbn [negb]. eapply wp_mono; [apply (wp_search cfg d av m Hd)|].
    + done.
    + lia.
    + lia.
    + done.
    + rewrite Nat2Z.inj_succ, Z2Nat.id by apply Z.log2_nonneg. pose proof (Z.log2_spec m ltac:(lia)). lia.
    + done.
    + lia.
    + intros x c [? ?]. split; [by right|done].
  - intros Hf. cbn [negb]. apply wp_ret. split; [|done]. left. split; [done|]. intros n Hn Hfn. apply Hf. eapply fits_mono; [done| |exact Hfn]. lia.
Qed.

(** C16. The binary search of [estimate_max_model_len] ends - its loop needs at most
    [log2 max_model_len + 2] tests of its condition - and it returns the largest length up
    to [max_model_len] whose cache fits the memory, or 0 when not even one token fits. *)
Theorem estimate_exact cfg d available_memory :
  Forall (measurable cfg) d.*2 → 1 ≤ max_model_len cfg →
  ∃ x cfg', estimate_max_model_len dtype_size d available_memory cfg = (Ok x, cfg') ∧
    best_length cfg d available_memory (max_model_len cfg) x.
Proof.
  intros Hd Hm. pose proof (wp_estimate cfg d available_memory Hd Hm) as H. unfold wp in H.
  destruct (estimate_max_model_len _ _ _ _) as [[x|e] cfg'] eqn:E; [|done]. exists x, cfg'. by destruct H.
Qed.
End estimate.

(** ** The groups *)

Lemma NoDup_omap_inj {A B} (f : A → option B) (l : list A) : NoDup l →
  (∀ x y z, x ∈ l → y ∈ l → f x = Some z → f y = Some z → x = y) → NoDup (omap f l).
Proof.
  induction 1 as [|x l Hx Hnd IH]; intros Hf; csimpl; [constructor|].
  assert (NoDup (omap f l)) by (apply IH; intros; eapply Hf; eauto using list_elem_of_further).
  destruct (f x) as [z|] eqn:E; [|done]. apply NoDup_cons. split; [|done].
  intros (y & Hy & Ey)%list_elem_of_omap. apply Hx. rewrite (Hf x y z); [done|left|by right|done|done].
Qed.

Lemma elem_of_stride x i n layers : x ∈ stride i n layers ↔ ∃ k, layers !! (i + k * n)%nat = Some x ∧ (k < length layers)%nat.
Proof.
  unfold stride. rewrite list_elem_of_omap. setoid_rewrite elem_of_seq. split.
  - intros (k & ? & ?). exists k. split; [done|lia].
  - intros (k & ? & ?). exists k. split; [lia|done].
Qed.

(** The slices [layers[i::n]] for [i < n] are a partition of [layers]. *)
Lemma stride_partition n layers : (0 < n)%nat → NoDup layers → seq 0 n ≫= (λ i, stride i n layers) ≡ₚ layers.
Proof.
  intros Hn Hnd. apply NoDup_Permutation; [|done|].
  - apply NoDup_bind; [| |apply NoDup_seq].
    + intros i j x Hi%elem_of_seq Hj%elem_of_seq (k & Hk & _)%elem_of_stride (k' & Hk' & _)%elem_of_stride.
      pose proof (NoDup_lookup _ _ _ _ Hnd Hk Hk') as E.
      assert ((i + k * n) mod n = i)%nat as E1 by (rewrite Nat.Div0.mod_add; apply Nat.mod_small; lia).
      assert ((j + k' * n) mod n = j)%nat as E2 by (rewrite Nat.Div0.mod_add; apply Nat.mod_small; lia). congruence.
    + intros i _. apply NoDup_omap_inj; [apply NoDup_seq|]. intros k k' x _ _ Hk Hk'.
      pose proof (NoDup_lookup _ _ _ _ Hnd Hk Hk'). nia.
  - intros x. rewrite list_elem_of_bind. split.
    + intros (i & (k & Hk & _)%elem_of_stride & _). by eapply list_elem_of_lookup_2.
    + intros [j Hj]%list_elem_of_lookup. pose proof (Nat.div_mod j n ltac:(lia)) as E. pose proof (Nat.mod_upper_bound j n ltac:(lia)).
      exists (j mod n)%nat. rewrite elem_of_stride, elem_of_seq. split; [|lia]. exists (j / n)%nat.
      replace (j mod n + j / n * n)%nat with j by lia. split; [done|]. apply lookup_lt_Some in Hj. nia.
Qed.

Lemma omap_none {A B} (f : A → option B) l : (∀ x, x ∈ l → f x = None) → omap f l = [].
Proof.
  induction l as [|x l IH]; intros H; [done|]. csimpl. rewrite (H x) by left. apply IH. intros y Hy. apply H. by right.
Qed.
Lemma length_omap_le {A B} (f : A → option B) l : (length (omap f l) ≤ length l)%nat.
Proof. induction l as [|x l IH]; csimpl; [done|]. destruct (f x); csimpl; lia. Qed.

(** With [ceil(len / g)] slices, none has more than [g] layers and none is empty. *)
Lemma stride_length i n g layers : (i < n)%nat → (n ≤ length layers)%nat → (length layers ≤ n * g)%nat →
  (1 ≤ length (stride i n layers) ≤ g)%nat.
Proof.
  intros Hi Hn Hg. split.
  - assert (is_Some (layers !! i)) as [x Hx] by (apply lookup_lt_is_Some; lia).
    assert (x ∈ stride i n layers) as Hin by (apply elem_of_stride; exists 0%nat; split; [by rewrite Nat.add_0_r|lia]).
    destruct (stride i n layers); [by apply not_elem_of_nil in Hin|simpl; lia].
  - destruct (decide (g ≤ length layers)%nat) as [Hgl|].
    2:{ unfold stride. etrans; [apply length_omap_le|]. rewrite length_seq. lia. }
    unfold stride. replace (length layers) with (g + (length layers - g))%nat at 1 by lia. rewrite seq_app, omap_app, length_app.
    rewrite (omap_none _ (seq (0 + g) _)); [simpl; rewrite Nat.add_0_r; etrans; [apply length_omap_le|by rewrite length_seq]|].
    intros k Hk%elem_of_seq. apply lookup_ge_None. nia.
Qed.

Lemma bind_concat {A B} (f : A → list B) l : l ≫= f = concat (f <$> l).
Proof. induction l as [|x l IH]; [done|]. csimpl. by rewrite IH. Qed.

Lemma split_layers_partition g layers : 0 < g → layers ≠ [] → NoDup layers →
  concat (split_layers g layers) ≡ₚ layers ∧ Forall (λ names, 1 ≤ Z.of_nat (length names) ≤ g) (split_layers g layers).
Proof.
  intros Hg Hne Hnd. unfold split_layers. pose proof (cdiv_bounds (Z.of_nat (length layers)) g Hg) as Hb.
  set (n := Z.to_nat (cdiv (Z.of_nat (length layers)) g)).
  assert (0 < length layers)%nat by (destruct layers; [done|simpl; lia]).
  assert (Z.of_nat n = cdiv (Z.of_nat (length layers)) g) as En by (unfold n; rewrite Z2Nat.id; [done|nia]).
  rewrite <-En in Hb. split.
  - rewrite <-bind_concat. apply stride_partition; [nia|done].
  - apply Forall_fmap, Forall_forall. intros i Hi%elem_of_seq. simpl.
    pose proof (stride_length i n (Z.to_nat g) layers ltac:(lia) ltac:(nia) ltac:(nia)). lia.
Qed.

Lemma create_groups_names d names gs : create_kv_cache_group_specs d names = Ok gs → wg_layers <$> gs = names.
Proof.
  unfold create_kv_cache_group_specs. intros H%mapR_ok. induction H as [|n g ns gs Hg _ IH]; [done|]. csimpl. f_equal; [|done].
  apply result_bind_ok in Hg as (l & _ & Hg). destruct l as [|s0 l]; [done|]. by apply result_bind_ok in Hg as (m & _ & [= <-]).
Qed.

Lemma create_groups_plain d names gs g : create_kv_cache_group_specs d names = Ok gs → g ∈ gs →
  ∃ m, wg_spec g = Plain m ∧ wg_layers g ≠ [] ∧ ∃ s0 specs, mapR (λ n, key_of n d) (wg_layers g) = Ok (s0 :: specs) ∧ merge s0 (s0 :: specs) = Ok m.
Proof.
  unfold create_kv_cache_group_specs. intros H Hg. destruct (mapR_elem_r _ _ _ _ H Hg) as (n & _ & Hn).
  apply result_bind_ok in Hn as (l & El & Hn). destruct l as [|s0 l]; [done|].
  apply result_bind_ok in Hn as (m & Em & [= <-]). exists m. split_and!; [done| |by exists s0, l]. by intros E; simpl in *; subst n.
Qed.

(** Grouping by spec: the lists of names are a partition of the layers, none is empty. *)
Lemma same_type_partition (d : spec_dict) :
  concat (same_type_layers d).*2 ≡ₚ d.*1 ∧ Forall (λ l, l ≠ []) (same_type_layers d).*2 ∧ NoDup (same_type_layers d).*1 ∧
  (d ≠ [] → same_type_layers d ≠ []) ∧ ∀ s l n, (s, l) ∈ same_type_layers d → n ∈ l → (n, s) ∈ d.
Proof.
  unfold same_type_layers. induction d as [|[n s] d IH] using rev_ind; [repeat split; try done; try constructor; set_solver|].
  rewrite foldl_app. cbn [foldl fst snd]. destruct IH as (Hp & Hne & Hnd & _ & Hs). set (acc := foldl _ [] d) in *.
  assert (OD.set s (default [] (OD.get s acc) ++ [n]) acc ≡ₚ (s, default [] (OD.get s acc) ++ [n]) :: OD.del s acc ∧
    acc.*2 ≫= id ≡ₚ default [] (OD.get s acc) ++ concat (OD.del s acc).*2) as [Hset Hacc].
  { rewrite bind_concat, list_fmap_id. destruct (OD.get s acc) as [l|] eqn:E; simpl.
    - split; [by eapply OD.set_perm|]. by rewrite (OD.get_del_perm s l acc E) at 1.
    - rewrite (OD.set_new _ _ _ E). assert (OD.del s acc = acc) as ->; [|split; [by rewrite Permutation_app_comm|done]].
      clear -E. induction acc as [|[k v] acc IH]; [done|]. simpl in *. case_decide; [done|]. f_equal. by apply IH. }
  rewrite bind_concat, list_fmap_id in Hacc. split_and!.
  - rewrite Hset. csimpl. rewrite fmap_app. csimpl. rewrite <-Hp, Hacc. rewrite <-!app_assoc. apply Permutation_app_head, Permutation_app_comm.
  - rewrite Hset. csimpl. constructor; [by destruct (default [] _)|]. rewrite Forall_forall in *. intros l Hl. apply Hne. revert Hl.
    intros (x & -> & Hx)%list_elem_of_fmap. destruct x as [k v]. apply OD.elem_of_del in Hx as [_ Hx]; [|done]. apply list_elem_of_fmap. by exists (k, v).
  - by apply OD.NoDup_keys_set.
  - intros _. apply OD.set_not_nil.
  - intros s' l n' [[-> ->]|[_ Hl]]%OD.elem_of_set Hn'; [|by apply elem_of_app; left; eapply Hs|done].
    apply elem_of_app in Hn' as [Hn'|Hn'%list_elem_of_singleton]; apply elem_of_app; [left|right; rewrite Hn'; by left].
    destruct (OD.get s acc) as [l0|] eqn:E; [|by apply not_elem_of_nil in Hn']. apply OD.get_Some in E; [|done]. by eapply Hs.
Qed.

Lemma foldl_min_le l : ∀ x, foldl Z.min x l ≤ x ∧ ∀ y, y ∈ l → foldl Z.min x l ≤ y.
Proof.
  induction l as [|z l IH]; intros x; cbn [foldl]; [split; [lia|set_solver]|]. destruct (IH (Z.min x z)) as [H1 H2]. split; [lia|].
  intros y [->|Hy]%elem_of_cons; [lia|auto].
Qed.
Lemma minR_le l m x : minR l = Ok m → x ∈ l → m ≤ x.
Proof. destruct l as [|y l]; [done|]. simpl. intros [= <-]. destruct (foldl_min_le l y). intros [->|?]%elem_of_cons; auto. Qed.
Lemma foldl_min_in l : ∀ x, foldl Z.min x l ∈ x :: l.
Proof.
  induction l as [|z l IH]; intros x; cbn [foldl]; [left|]. specialize (IH (Z.min x z)). apply elem_of_cons in IH as [E|H].
  - rewrite E. destruct (Z.min_spec x z) as [[_ ->]|[_ ->]]; set_solver.
  - set_solver.
Qed.
Lemma minR_in l m : minR l = Ok m → m ∈ l.
Proof. destruct l as [|y l]; [done|]. simpl. intros [= <-]. apply foldl_min_in. Qed.

Section groups.
Context (dtype_size : string → Z) (disable_hybrid : bool).

(** A layer with spec [s] can use the block table of a group with spec [m]. *)
Definition same_format (s m : KVCacheSpec) : Prop :=
  spec_block_size s = spec_block_size m ∧ page_size_bytes dtype_size s = page_size_bytes dtype_size m.

Lemma merge_format s0 specs m s : merge s0 specs = Ok m → s ∈ specs → is_mla m = false → same_format s m.
Proof.
  unfold merge, same_format. intros Hm Hs Hmla. destruct s0.
  2:{ unfold merge_mla in Hm. repeat case_match; simplify_eq. }
  1:{ apply merge_full_exact in Hm as (bs & a' & w & c & -> & _ & _ & Hall & _). by destruct (Hall s Hs) as (? & ? & -> & _). }
  all: unfold merge_base in Hm; destruct specs as [|s1 rest]; [done|]; destruct (forallb _ _) eqn:E; [|done]; injection Hm as <-;
    apply elem_of_cons in Hs as [->|Hs]; [done|]; rewrite forallb_forall in E; apply list_elem_of_In, E, bool_decide_eq_true in Hs; by subst.
Qed.

Lemma to_full_format s : same_format (to_full s) s.
Proof. by destruct s. Qed.

(** The layers of a group fit its spec *)
Definition group_ok (d : spec_dict) (g : WorkerGroup) : Prop :=
  wg_layers g ≠ [] ∧
  match wg_spec g with
  | Plain m => is_mla m = false → ∀ n s, n ∈ wg_layers g → (n, s) ∈ d → same_format s m
  | UniformType u => (u_specs u).*1 = wg_layers g ∧
      ∀ n s, (n, s) ∈ d → ∃ s', (n, s') ∈ u_specs u ∧ spec_block_size s = u_block_size u ∧ same_format s s'
  end.

Lemma create_groups_ok d names gs : NoDup d.*1 → create_kv_cache_group_specs d names = Ok gs → Forall (group_ok d) gs.
Proof.
  intros Hnd H. apply Forall_forall. intros g Hg. destruct (create_groups_plain _ _ _ _ H Hg) as (m & Em & Hne & s0 & specs & Es & Hm).
  split; [done|]. rewrite Em. intros Hmla n s Hn Hs. eapply merge_format; [exact Hm| |done].
  destruct (mapR_elem_l _ _ _ _ Es Hn) as (y & Hy & Ey). unfold key_of in Ey. apply OD.get_Some in Hs; [|done].
  rewrite Hs in Ey. by injection Ey as <-.
Qed.

Lemma uniform_type_block_size d u n s : from_specs d = Ok (Some u) → (n, s) ∈ d → u_specs u = d ∧ spec_block_size s = u_block_size u.
Proof.
  unfold from_specs. destruct (is_uniform_type d) as [[]|] eqn:E; [|done|done]. destruct d as [|[n0 s0] d]; [done|]. intros [= <-] Hs.
  split; [done|]. unfold is_uniform_type in E. destruct (Nat.ltb_spec 1 (length (remove_dups (spec_block_size <$> ((n0, s0) :: d).*2)))) as [|Hle]; [done|].
  cbn [u_block_size]. assert (∀ z, z ∈ spec_block_size <$> ((n0, s0) :: d).*2 → z = spec_block_size s0) as H.
  { intros z Hz%elem_of_remove_dups. assert (spec_block_size s0 ∈ spec_block_size <$> ((n0, s0) :: d).*2) as H0%elem_of_remove_dups by (csimpl; left).
    destruct (remove_dups _) as [|x [|]]; [by apply not_elem_of_nil in Hz| |simpl in Hle; lia]. set_solver. }
  apply H. apply list_elem_of_fmap. exists s. split; [done|]. apply list_elem_of_fmap. by exists (n, s).
Qed.

Lemma unify_spec d d' : unify_hybrid_kv_cache_specs d = Ok d' →
  uniform_spec_or_type d' = Ok true ∧ (d' = d ∨ d' = (λ x, (x.1, to_full x.2)) <$> d).
Proof.
  unfold unify_hybrid_kv_cache_specs. intros (u & Eu & H)%result_bind_ok. destruct u; [injection H as <-; auto|].
  apply result_bind_ok in H as (u' & Eu' & H). destruct u'; [|done]. injection H as <-. split; [done|]. case_match; auto.
Qed.

(** What [get_kv_cache_groups] does after the optional conversion *)
Definition groups_of (d : spec_dict) : result (list WorkerGroup) := get_kv_cache_groups dtype_size false d.

Lemma groups_of_eq d : get_kv_cache_groups dtype_size disable_hybrid d =
  (d' ← (if disable_hybrid then unify_hybrid_kv_cache_specs d else Ok d); groups_of d').
Proof. unfold groups_of, get_kv_cache_groups. destruct disable_hybrid; [|done]. by destruct (unify_hybrid_kv_cache_specs d). Qed.

(** No group has more layers than the attention type with the fewest *)
Definition even_groups (d : spec_dict) (gs : list WorkerGroup) : Prop :=
  ∀ g s l, g ∈ gs → (s, l) ∈ same_type_layers d → (length (wg_layers g) ≤ length l)%nat.

Lemma page_size_groups d gs : NoDup d.*1 → d ≠ [] → _get_kv_cache_groups_uniform_page_size d = Ok gs →
  concat (wg_layers <$> gs) ≡ₚ d.*1 ∧ Forall (group_ok d) gs ∧ even_groups d gs.
Proof.
  intros Hnd Hne H. unfold _get_kv_cache_groups_uniform_page_size in H. apply result_bind_ok in H as (g & Eg & H).
  destruct (same_type_partition d) as (Hp & Hnn & Hk & Hne' & _). specialize (Hne' Hne). set (types := (same_type_layers d).*2) in *.
  assert (0 < g) as Hg.
  { apply minR_in, list_elem_of_fmap in Eg as (l & -> & Hl). rewrite Forall_forall in Hnn. specialize (Hnn l Hl). destruct l; [done|simpl; lia]. }
  assert (NoDup (concat types)) as Hndc by (by rewrite Hp).
  assert (∀ l, l ∈ types → NoDup l) as Hndl.
  { intros l Hl. apply list_elem_of_split in Hl as (l1 & l2 & E). rewrite E, concat_app in Hndc. cbn [concat] in Hndc.
    apply NoDup_app in Hndc as (_ & _ & Hndc). by apply NoDup_app in Hndc as [? _]. }
  pose proof (create_groups_names _ _ _ H) as En. pose proof (create_groups_ok _ _ _ Hnd H) as Hok. split_and!; [|done|].
  - rewrite En, <-Hp. clear -Hndl Hnn Hg. induction types as [|l types IH]; [done|]. apply Forall_cons in Hnn as [Hl Hnn]. csimpl. rewrite concat_app, IH; [|done|].
    + apply Permutation_app; [|done]. apply split_layers_partition; [done|done|]. apply Hndl. left.
    + intros l' Hl'. apply Hndl. by right.
  - intros x s l Hx Hl. assert (wg_layers x ∈ types ≫= split_layers g) as Hin by (rewrite <-En; by apply list_elem_of_fmap_2).
    apply list_elem_of_bind in Hin as (l0 & Hin & Hl0). rewrite Forall_forall in Hnn.
    destruct (split_layers_partition g l0 Hg (Hnn _ Hl0) (Hndl _ Hl0)) as [_ Hf]. rewrite Forall_forall in Hf. specialize (Hf _ Hin).
    assert (g ≤ Z.of_nat (length l)); [|lia]. eapply minR_le; [exact Eg|]. apply list_elem_of_fmap. exists l. split; [done|].
    apply list_elem_of_fmap. by exists (s, l).
Qed.

Lemma groups_of_partition d gs : NoDup d.*1 → groups_of d = Ok gs →
  concat (wg_layers <$> gs) ≡ₚ d.*1 ∧ Forall (group_ok d) gs ∧ ((1 < length gs)%nat → even_groups d gs ∧ uniform_spec_or_type d = Ok false).
Proof.
  intros Hnd H. unfold groups_of, get_kv_cache_groups in H. cbn [mbind result_bind] in H. unfold is_kv_cache_type_attention_free in H. case_bool_decide as Hd.
  { injection H as <-. subst d. split_and!; [done|done|simpl; lia]. }
  apply result_bind_ok in H as (u & Eu & H). destruct u.
  { unfold _get_kv_cache_groups_uniform_spec in H. pose proof (create_groups_names _ _ _ H) as En. split_and!; [|by eapply create_groups_ok|].
    - rewrite En. simpl. by rewrite app_nil_r.
    - apply (f_equal length) in En. rewrite length_fmap in En. rewrite En. simpl. lia. }
  apply result_bind_ok in H as ([u|] & Eut & H).
  { injection H as <-. destruct d as [|[n0 s0] d0] eqn:Ed; [done|]. rewrite <-Ed in *.
    destruct (uniform_type_block_size d u n0 s0 Eut ltac:(subst d; left)) as [Eu' _]. unfold _get_kv_cache_groups_uniform_type. split_and!.
    - csimpl. by rewrite Eu', app_nil_r.
    - constructor; [|done]. split; [simpl; rewrite Eu', Ed; done|]. simpl. split; [done|]. intros n s Hs. exists s.
      destruct (uniform_type_block_size d u n s Eut Hs) as [-> ?]. by split_and!.
    - simpl. lia. }
  apply result_bind_ok in H as (p & Ep & H). destruct p; [|done].
  destruct (page_size_groups d gs Hnd Hd H) as (? & ? & ?). split_and!; [done|done|]. intros _. split; [done|].
  unfold uniform_spec_or_type. rewrite Eu. cbn [mbind result_bind]. unfold from_specs in Eut. destruct (is_uniform_type d) as [[]|]; [|done|done].
  by destruct d as [|[]].
Qed.

Lemma group_ok_converted d g : NoDup d.*1 → group_ok ((λ x, (x.1, to_full x.2)) <$> d) g → group_ok d g.
Proof.
  intros Hnd [Hne Hg]. split; [done|]. assert (∀ n s, (n, s) ∈ d → (n, to_full s) ∈ (λ x : string * KVCacheSpec, (x.1, to_full x.2)) <$> d) as Hc.
  { intros n s Hs. apply list_elem_of_fmap. by exists (n, s). }
  destruct (wg_spec g) as [m|u].
  - intros Hm n s Hn Hs. destruct (Hg Hm n (to_full s) Hn (Hc _ _ Hs)). destruct (to_full_format s). split; congruence.
  - destruct Hg as [Hk Hg]. split; [done|]. intros n s Hs. destruct (Hg n (to_full s) (Hc _ _ Hs)) as (s' & Hs' & Hb & [? ?]).
    exists s'. destruct (to_full_format s). split_and!; [done|congruence|split; congruence].
Qed.

(** Every layer of the model in exactly one group, every layer in the format of its group,
    groups of balanced size *)
Definition grouped (d : spec_dict) (gs : list WorkerGroup) : Prop :=
  concat (wg_layers <$> gs) ≡ₚ d.*1 ∧ Forall (group_ok d) gs ∧ ((1 < length gs)%nat → even_groups d gs).

Lemma get_groups_grouped d gs : NoDup d.*1 → get_kv_cache_groups dtype_size disable_hybrid d = Ok gs → grouped d gs.
Proof.
  intros Hnd. rewrite groups_of_eq. intros (d' & Ed & H)%result_bind_ok. destruct disable_hybrid.
  - apply unify_spec in Ed as [Hu [->| ->]].
    + destruct (groups_of_partition d gs Hnd H) as (? & ? & Hb). split_and!; [done|done|]. intros [? ?]%Hb. congruence.
    + assert (((λ x : string * KVCacheSpec, (x.1, to_full x.2)) <$> d).*1 = d.*1) as E1 by (rewrite <-list_fmap_compose; by apply list_fmap_ext).
      destruct (groups_of_partition ((λ x, (x.1, to_full x.2)) <$> d) gs) as (Hp & Hf & Hb); [by rewrite E1|done|]. rewrite E1 in Hp. split_and!; [done| |].
      * eapply Forall_impl; [exact Hf|]. intros g. by apply group_ok_converted.
      * intros [? ?]%Hb. congruence.
  - injection Ed as <-. destruct (groups_of_partition d gs Hnd H) as (? & ? & Hb). split_and!; [done|done|]. by intros [? ?]%Hb.
Qed.

(** C33. The KV cache groups of a model: every layer is in exactly one group, no group is
    empty, every layer has the block size and the page size of its group's spec (of its own
    entry, in a group of one type with several page sizes; merged MLA specs excepted, whose
    shapes are not compared), also after the conversion that
    a disabled hybrid manager asks for, and with several groups none has more layers than
    the attention type with the fewest. *)
Theorem kv_cache_groups_partition d gs : NoDup d.*1 → get_kv_cache_groups dtype_size disable_hybrid d = Ok gs → grouped d gs.
Proof. apply get_groups_grouped. Qed.
End groups.

(** ** The tensors of a worker *)

Section tensors.
Context (dtype_size : string → Z).

Lemma foldl_max_le l : ∀ x, x ≤ foldl Z.max x l ∧ ∀ y, y ∈ l → y ≤ foldl Z.max x l.
Proof.
  induction l as [|z l IH]; intros x; cbn [foldl]; [split; [lia|set_solver]|]. destruct (IH (Z.max x z)) as [H1 H2]. split; [lia|].
  intros y [->|Hy]%elem_of_cons; [lia|auto].
Qed.
Lemma maxR_ge l m x : maxR l = Ok m → x ∈ l → x ≤ m.
Proof. destruct l as [|y l]; [done|]. simpl. intros [= <-]. destruct (foldl_max_le l y). intros [->|?]%elem_of_cons; auto. Qed.

(** Taking the [i]-th layer of every group, for all [i], takes every layer once. *)
Lemma shared_layers_cons g gs i : shared_layers (g :: gs) i = (match wg_layers g !! i with Some n => [n] | None => [] end) ++ shared_layers gs i.
Proof. unfold shared_layers. csimpl. by destruct (wg_layers g !! i). Qed.

Lemma concat_app_pointwise {A} (f g : nat → list A) l : concat ((λ i, f i ++ g i) <$> l) ≡ₚ concat (f <$> l) ++ concat (g <$> l).
Proof.
  induction l as [|i l IH]; [done|]. csimpl. rewrite IH. rewrite <-!app_assoc. apply Permutation_app_head.
  rewrite !app_assoc. apply Permutation_app_tail, Permutation_app_comm.
Qed.

Lemma concat_lookups {A} (l : list A) k : (length l ≤ k)%nat → concat ((λ i, match l !! i with Some n => [n] | None => [] end) <$> seq 0 k) = l.
Proof.
  revert k. induction l as [|x l IH]; intros k Hk.
  - clear. induction (seq 0 k) as [|i s IH]; [done|]. csimpl. done.
  - destruct k as [|k]; simpl in Hk; [lia|]. cbn [seq]. csimpl. f_equal. rewrite <-fmap_S_seq, <-list_fmap_compose. apply (IH k). lia.
Qed.

Lemma shared_layers_partition gs k : (∀ g, g ∈ gs → (length (wg_layers g) ≤ k)%nat) →
  concat (shared_layers gs <$> seq 0 k) ≡ₚ concat (wg_layers <$> gs).
Proof.
  induction gs as [|g gs IH]; intros Hk.
  - clear. induction (seq 0 k); done.
  - erewrite (list_fmap_ext _ _ (seq 0 k)) by (intros; apply shared_layers_cons). rewrite (concat_app_pointwise _ (shared_layers gs)).
    rewrite concat_lookups by (apply Hk; left). csimpl. rewrite IH; [done|]. intros g' Hg'. apply Hk. by right.
Qed.

(** A worker with the layers [d] and [m] bytes gets tensors for exactly its layers; the
    tensor of a layer holds exactly [num_blocks] of its pages. *)
Definition holds_layers (d : spec_dict) (c : WorkerConfig) : Prop :=
  concat (shared_by <$> wc_tensors c) ≡ₚ d.*1 ∧
  ∀ t n s, t ∈ wc_tensors c → n ∈ shared_by t → (n, s) ∈ d →
    ∃ p, page_size_bytes dtype_size s = Ok p ∧ tensor_size t = p * wc_num_blocks c.
Definition total_size (c : WorkerConfig) : Z := zsum (tensor_size <$> wc_tensors c).

Lemma zsum_repeat z k : zsum (replicate k z) = Z.of_nat k * z.
Proof. induction k as [|k IH]; [done|]. simpl. rewrite zsum_cons, IH. lia. Qed.

Lemma uniform_page_size d p n s : get_uniform_page_size dtype_size d = Ok p → (n, s) ∈ d → page_size_bytes dtype_size s = Ok p.
Proof.
  unfold get_uniform_page_size, page_sizes. intros (l & (l0 & E0 & [= <-])%result_bind_ok & H)%result_bind_ok Hs.
  assert (s ∈ d.*2) as Hs2 by (apply list_elem_of_fmap; by exists (n, s)). destruct (mapR_elem_l _ _ _ _ E0 Hs2) as (y & Hy%elem_of_remove_dups & Ey).
  destruct (remove_dups l0) as [|x [|]]; [done| |done]. injection H as <-. apply list_elem_of_singleton in Hy as ->. done.
Qed.

Lemma general_config override gs d m c g p : maxR ((λ g, Z.of_nat (length (wg_layers g))) <$> gs) = Ok g → get_uniform_page_size dtype_size d = Ok p →
  concat (wg_layers <$> gs) ≡ₚ d.*1 →
  (if g <=? 0 then Raise AssertionError else
   num_blocks ← get_num_blocks override g m p;
   Ok (mkWConfig num_blocks ((λ i, mkTensor (p * num_blocks) (shared_layers gs i)) <$> seq 0 (Z.to_nat g)) gs)) = Ok c →
  holds_layers d c ∧ wc_groups c = gs ∧
  (override = None → 0 < p → 0 ≤ m → 0 ≤ wc_num_blocks c ∧ Forall (λ t, 0 ≤ tensor_size t) (wc_tensors c) ∧ total_size c ≤ m < g * p * (wc_num_blocks c + 1)).
Proof.
  intros Eg Ep Hgs H. destruct (Z.leb_spec g 0) as [|Hg]; [done|]. apply result_bind_ok in H as (nb & Enb & [= <-]). split_and!; [split|done|].
  - cbn [wc_tensors]. rewrite <-list_fmap_compose. change (shared_by ∘ _) with (shared_layers gs). rewrite shared_layers_partition; [done|].
    intros x Hx. assert (Z.of_nat (length (wg_layers x)) ≤ g); [|lia]. eapply maxR_ge; [exact Eg|]. apply list_elem_of_fmap. by exists x.
  - cbn [wc_tensors wc_num_blocks]. intros t n s (i & -> & _)%list_elem_of_fmap Hn Hs. exists p. split; [|done]. by eapply uniform_page_size.
  - intros -> Hp Hm. unfold get_num_blocks, py_div, may_override_num_blocks in Enb. rewrite decide_False in Enb by lia. cbn [mbind result_bind] in Enb.
    rewrite decide_False in Enb by lia. cbn [mbind result_bind] in Enb. injection Enb as <-. unfold total_size. cbn [wc_tensors wc_num_blocks default].
    set (k := m / p / g). assert (0 ≤ m / p) by (apply Z.div_pos; lia). assert (0 ≤ k) by (apply Z.div_pos; lia). rewrite Z.max_l by done.
    pose proof (Z.div_mod m p ltac:(lia)). pose proof (Z.mod_pos_bound m p Hp). pose proof (Z.div_mod (m / p) g ltac:(lia)) as E2. fold k in E2.
    pose proof (Z.mod_pos_bound (m / p) g Hg). split; [done|].
    assert (zsum (tensor_size <$> ((λ i, mkTensor (p * k) (shared_layers gs i)) <$> seq 0 (Z.to_nat g))) = g * (p * k)) as ->.
    { rewrite <-list_fmap_compose. assert (∀ l : list nat, tensor_size ∘ (λ i, mkTensor (p * k) (shared_layers gs i)) <$> l = replicate (length l) (p * k)) as E.
      { intros l. induction l as [|i l IH]; [done|]. csimpl. by rewrite IH. }
      rewrite E, length_seq, zsum_repeat. lia. }
    split_and!; [|nia|nia]. apply Forall_fmap, Forall_forall. intros i _. simpl. nia.
Qed.

Lemma uniform_page_elem d p : get_uniform_page_size dtype_size d = Ok p → ∃ n s, (n, s) ∈ d ∧ page_size_bytes dtype_size s = Ok p.
Proof.
  unfold get_uniform_page_size, page_sizes. intros (l & (l0 & E0 & [= <-])%result_bind_ok & H)%result_bind_ok.
  destruct (remove_dups l0) as [|x [|]] eqn:E; [done| |done]. injection H as <-. assert (x ∈ l0) as Hx by (apply elem_of_remove_dups; rewrite E; left).
  destruct (mapR_elem_r _ _ _ _ E0 Hx) as (s & ([n s'] & -> & Hs)%list_elem_of_fmap & Es). eauto.
Qed.

(** The tensors of a group of one type with several page sizes *)
Definition own_tensor (all : spec_dict) (nb : Z) (name : string) : result KVCacheTensor :=
  s ← key_of name all; p ← page_size_bytes dtype_size s; Ok (mkTensor (p * nb) [name]).

Lemma own_tensor_ok all nb n t : NoDup all.*1 → own_tensor all nb n = Ok t →
  shared_by t = [n] ∧ ∃ s p, (n, s) ∈ all ∧ page_size_bytes dtype_size s = Ok p ∧ tensor_size t = p * nb.
Proof.
  intros Hnd. unfold own_tensor, key_of. intros (s & Es & (p & Ep & [= <-])%result_bind_ok)%result_bind_ok.
  destruct (OD.get n all) eqn:E; [|done]. injection Es as ->. apply OD.get_Some in E; [|done]. split; [done|]. eauto.
Qed.

Lemma own_tensors_size (all us : spec_dict) (P : string → Prop) `{∀ n, Decision (P n)} nb l ts : NoDup all.*1 → us ⊆ all → 0 ≤ nb →
  (∀ n s p, (n, s) ∈ all → page_size_bytes dtype_size s = Ok p → 0 < p) →
  mapR (page_size_bytes dtype_size) us.*2 = Ok l → mapR (own_tensor all nb) (filter P us.*1) = Ok ts → zsum (tensor_size <$> ts) ≤ zsum l * nb.
Proof.
  intros Hnd Hus Hnb Hpos. revert l ts. induction us as [|[n s] us IH]; intros l ts; csimpl; [by intros [= <-] [= <-]|].
  intros (p & Ep & (l' & El & [= <-])%result_bind_ok)%result_bind_ok. rewrite zsum_cons.
  assert ((n, s) ∈ all) as Hs by (apply Hus; left). pose proof (Hpos _ _ _ Hs Ep). assert (us ⊆ all) as Hus' by set_solver. rewrite filter_cons. case_decide.
  - cbn [mapR]. intros (t & Et & (ts' & Ets & [= <-])%result_bind_ok)%result_bind_ok. csimpl. rewrite zsum_cons. specialize (IH Hus' _ _ El Ets).
    apply own_tensor_ok in Et as (_ & s' & p' & Hs' & Ep' & ->); [|done]. apply OD.get_Some in Hs, Hs'; [|done|done].
    assert (p' = p) by congruence. subst. lia.
  - intros Hts. specialize (IH Hus' _ _ El Hts). nia.
Qed.

Lemma type_config override (P : string → Prop) `{∀ n, Decision (P n)} u d m page n ts :
  NoDup (u_specs u).*1 → filter P (u_specs u).*1 ≡ₚ d.*1 →
  (∀ n s, (n, s) ∈ d → ∃ s', (n, s') ∈ u_specs u ∧ same_format dtype_size s s') →
  spec_page_size_bytes dtype_size (UniformType u) = Ok page → py_div m page = Ok n →
  mapR (own_tensor (u_specs u) (may_override_num_blocks override n)) (filter P (u_specs u).*1) = Ok ts →
  let c := mkWConfig (may_override_num_blocks override n) ts [mkWGroup (filter P (u_specs u).*1) (UniformType u)] in
  holds_layers d c ∧
  (override = None → (∀ n s p, (n, s) ∈ u_specs u → page_size_bytes dtype_size s = Ok p → 0 < p) → 0 ≤ m →
   0 ≤ wc_num_blocks c ∧ Forall (λ t, 0 ≤ tensor_size t) (wc_tensors c) ∧ total_size c ≤ m < page * (wc_num_blocks c + 1)).
Proof.
  intros Hnd Hperm Hfmt Hpage Hn Hts c. split; [split|].
  - rewrite <-Hperm. cbn [wc_tensors c]. clear -Hts Hnd. apply mapR_ok in Hts. revert Hts. generalize (filter P (u_specs u).*1). intros l Hts.
    induction Hts as [|x t l ts' Ht _ IH]; [done|]. csimpl. apply own_tensor_ok in Ht as [-> _]; [|done]. simpl. by rewrite IH.
  - cbn [wc_tensors wc_num_blocks c]. intros t k s Ht Hk Hs. destruct (mapR_elem_r _ _ _ _ Hts Ht) as (k' & _ & Ek).
    apply own_tensor_ok in Ek as (Esh & s' & p & Hs' & Ep & Et); [|done]. rewrite Esh in Hk. apply list_elem_of_singleton in Hk as ->.
    destruct (Hfmt _ _ Hs) as (s'' & Hs'' & _ & Ef). apply OD.get_Some in Hs', Hs''; [|done|done]. assert (s'' = s') as -> by congruence.
    exists p. split; [congruence|done].
  - intros -> Hpos Hm. unfold may_override_num_blocks in *. cbn [default] in *. cbn [wc_tensors wc_num_blocks c]. unfold py_div in Hn.
    case_decide; [done|]. injection Hn as <-. cbn in Hpage. apply result_bind_ok in Hpage as (l & El & [= <-]).
    assert (0 ≤ zsum l) as Hl. { apply zsum_nonneg, Forall_forall. intros p Hp. destruct (mapR_elem_r _ _ _ _ El Hp) as (s & ([k s'] & -> & Hs)%list_elem_of_fmap & Es). specialize (Hpos _ _ _ Hs Es). lia. }
    assert (0 ≤ m / zsum l) by (apply Z.div_pos; lia). pose proof (Z.div_mod m (zsum l) ltac:(lia)). pose proof (Z.mod_pos_bound m (zsum l) ltac:(lia)).
    split_and!; [done| | |nia].
    + apply Forall_forall. intros t Ht. destruct (mapR_elem_r _ _ _ _ Hts Ht) as (k' & _ & Ek).
      apply own_tensor_ok in Ek as (_ & s' & p & Hs' & Ep & ->); [|done]. specialize (Hpos _ _ _ Hs' Ep). nia.
    + unfold total_size. cbn [wc_tensors c]. pose proof (own_tensors_size (u_specs u) (u_specs u) P _ l ts Hnd ltac:(done) ltac:(done) Hpos El Hts). nia.
Qed.
End tensors.

(** ** All workers *)

Lemma merge_specs_spec d : ∀ merged m, NoDup merged.*1 → merge_specs merged d = Ok m →
  NoDup m.*1 ∧ ∀ n s, (n, s) ∈ m ↔ (n, s) ∈ merged ∨ (n, s) ∈ d.
Proof.
  induction d as [|[n s] d IH]; intros merged m Hnd; cbn [merge_specs]; [intros [= <-]; set_solver|].
  destruct (OD.get n merged) as [s'|] eqn:E.
  - case_bool_decide as Es; [|done]. subst s'. apply OD.get_Some in E; [|done]. intros [Hm Hin]%IH; [|done]. split; [done|].
    intros n' s''. rewrite Hin, elem_of_cons. naive_solver.
  - intros [Hm Hin]%IH; [|by apply OD.NoDup_keys_set]. split; [done|]. intros n' s'. rewrite Hin, OD.set_new by done. set_solver.
Qed.

Lemma merge_workers_spec ds : ∀ merged m, NoDup merged.*1 → merge_workers merged ds = Ok m →
  NoDup m.*1 ∧ ∀ n s, (n, s) ∈ m ↔ (n, s) ∈ merged ∨ ∃ d, d ∈ ds ∧ (n, s) ∈ d.
Proof.
  induction ds as [|d ds IH]; intros merged m Hnd; cbn [merge_workers]; [intros [= <-]; split; [done|]; set_solver|].
  intros (m1 & [H1 Hin1]%merge_specs_spec & [H2 Hin2]%IH)%result_bind_ok; [|done|done]. split; [done|]. intros n s. rewrite Hin2, Hin1. set_solver.
Qed.

Lemma concat_filter {A} (P : A → Prop) `{∀ x, Decision (P x)} (ls : list (list A)) : concat (filter P <$> ls) = filter P (concat ls).
Proof. induction ls as [|l ls IH]; [done|]. csimpl. by rewrite filter_app, IH. Qed.

(** A worker's part of the groups has exactly its layers. *)
Lemma worker_groups_partition merged gs (d : spec_dict) : concat (wg_layers <$> gs) ≡ₚ merged.*1 → NoDup merged.*1 → NoDup d.*1 → d ⊆ merged →
  concat (wg_layers <$> worker_groups gs d) ≡ₚ d.*1.
Proof.
  intros Hp Hnd Hd Hsub. unfold worker_groups. rewrite <-list_fmap_compose. change (wg_layers ∘ _) with (filter (λ n, n ∈ d.*1) ∘ wg_layers).
  rewrite list_fmap_compose, concat_filter, Hp. apply NoDup_Permutation; [by apply NoDup_filter|done|].
  intros n. rewrite list_elem_of_filter. split; [by intros [? _]|]. intros Hn. split; [done|].
  apply list_elem_of_fmap in Hn as ([n' s] & -> & Hs). apply list_elem_of_fmap. exists (n', s). split; [done|]. by apply Hsub.
Qed.

Section workers.
Context (dtype_size : string → Z) (disable_hybrid : bool).

Context (override : option Z).

(** What a worker's configuration promises; the memory matters unless the number of blocks
    is overridden. *)
Definition worker_fits (x : spec_dict * Z) (c : WorkerConfig) : Prop :=
  holds_layers dtype_size x.1 c ∧ (override = None → 0 ≤ wc_num_blocks c ∧ Forall (λ t, 0 ≤ tensor_size t) (wc_tensors c) ∧ total_size c ≤ x.2).

Lemma worker_config_ok merged gs x c : NoDup merged.*1 → grouped dtype_size merged gs → NoDup x.1.*1 → x.1 ⊆ merged →
  (∀ n s p, (n, s) ∈ merged → page_size_bytes dtype_size s = Ok p → 0 < p) → 0 ≤ x.2 →
  worker_config dtype_size override gs x = Ok c → worker_fits x c ∧ wc_groups c = worker_groups gs x.1.
Proof.
  intros Hnd (Hp & Hok & _) Hd Hsub Hpos Hm H. destruct x as [d m]. unfold worker_config in H. cbn [fst snd] in *.
  pose proof (worker_groups_partition _ _ _ Hp Hnd Hd Hsub) as Hwp. case_bool_decide; [|done].
  assert (∀ g p, maxR ((λ g, Z.of_nat (length (wg_layers g))) <$> worker_groups gs d) = Ok g → get_uniform_page_size dtype_size d = Ok p →
    (if g <=? 0 then Raise AssertionError else
     num_blocks ← get_num_blocks override g m p;
     Ok (mkWConfig num_blocks ((λ i, mkTensor (p * num_blocks) (shared_layers (worker_groups gs d) i)) <$> seq 0 (Z.to_nat g)) (worker_groups gs d))) = Ok c →
    worker_fits (d, m) c ∧ wc_groups c = worker_groups gs d) as Hgen.
  { intros g p Eg Ep Hc. destruct (general_config dtype_size override _ d m c g p Eg Ep Hwp Hc) as (? & ? & Hsz). split; [|done]. split; [done|]. intros Eo.
    destruct (uniform_page_elem _ _ _ Ep) as (n & s & Hs & Es). destruct (Hsz Eo (Hpos _ _ _ (Hsub _ Hs) Es) Hm) as (? & ? & ? & ?). by split_and!. }
  unfold get_kv_cache_config_from_groups in H. destruct (worker_groups gs d) as [|[names [sp|u]] [|g2 rest]] eqn:Egs.
  { injection H as <-. split; [|done]. split; [|intros _; split_and!; [simpl; lia|done|done]]. split; [done|]. cbn. intros ? ? ? Ht. by apply not_elem_of_nil in Ht. }
  1,2,4: apply result_bind_ok in H as (g & Eg & H); apply result_bind_ok in H as (p & Ep & H); by apply (Hgen g p).
  clear Hgen. unfold worker_groups in Egs. destruct gs as [|g0 [|]]; [done| |done]. csimpl in Egs. injection Egs as <- Esp.
  apply Forall_cons in Hok as [[_ Hg] _]. rewrite Esp in Hg. destruct Hg as [Hkeys Hfmt]. csimpl in Hp. rewrite app_nil_r in Hp. csimpl in Hwp. rewrite app_nil_r in Hwp.
  rewrite <-Hkeys in *. apply result_bind_ok in H as (page & Epage & H). apply result_bind_ok in H as (n & En & H). apply result_bind_ok in H as (ts & Ets & [= <-]).
  assert (NoDup (u_specs u).*1) as Hndu by (by rewrite Hp).
  destruct (type_config dtype_size override (λ n, n ∈ d.*1) u d m page n ts Hndu Hwp) as [Hh Hsz].
  - intros k s Hs. destruct (Hfmt k s (Hsub _ Hs)) as (s' & ? & _ & ?). eauto.
  - done.
  - done.
  - exact Ets.
  - split; [|done]. split; [done|]. intros Eo. assert (∀ k s p, (k, s) ∈ u_specs u → page_size_bytes dtype_size s = Ok p → 0 < p) as Hposu.
    { intros k s p Hs Es. assert (k ∈ merged.*1) as Hk by (rewrite <-Hp; apply list_elem_of_fmap; by exists (k, s)).
      apply list_elem_of_fmap in Hk as ([k' s0] & -> & Hs0). cbn [fst] in *. destruct (Hfmt _ _ Hs0) as (s' & Hs' & _ & _ & Ef). apply OD.get_Some in Hs, Hs'; [|done|done].
      assert (s' = s) as -> by congruence. eapply Hpos; [exact Hs0|congruence]. }
    destruct (Hsz Eo Hposu Hm) as (? & ? & ? & ?). by split_and!.
Qed.

Lemma shrink_tensor_ok old new t t' : shrink_tensor old new t = Ok t' →
  ∃ q, tensor_size t = q * old ∧ old ≠ 0 ∧ t' = mkTensor (q * new) (shared_by t).
Proof.
  unfold shrink_tensor, py_mod, py_div. intros (r & Er & H)%result_bind_ok. case_decide as Ho; [done|]. injection Er as <-.
  case_bool_decide as E; [|done]. apply result_bind_ok in H as (q & [= <-] & [= <-]). exists (tensor_size t / old).
  pose proof (Z.div_mod (tensor_size t) old Ho). split_and!; [lia|done|done].
Qed.

Lemma shrink_tensors_ok old new ts : ∀ ts', mapR (shrink_tensor old new) ts = Ok ts' → 0 ≤ new ≤ old → Forall (λ t, 0 ≤ tensor_size t) ts →
  shared_by <$> ts' = shared_by <$> ts ∧ zsum (tensor_size <$> ts') ≤ zsum (tensor_size <$> ts) ∧ Forall (λ t, 0 ≤ tensor_size t) ts'.
Proof.
  induction ts as [|t ts IH]; intros ts' H Hn Hpos; [by injection H as <-|]. cbn [mapR] in H.
  apply result_bind_ok in H as (t' & (q & Eq & Ho & ->)%shrink_tensor_ok & H). apply result_bind_ok in H as (ts2 & E2 & [= <-]).
  apply Forall_cons in Hpos as [Ht Hpos]. destruct (IH _ E2 Hn Hpos) as (E & ? & ?). assert (0 ≤ q) by nia. csimpl. rewrite E, !zsum_cons. split_and!; [done| |].
  - rewrite Eq. nia.
  - constructor; [simpl; nia|done].
Qed.

Lemma shrink_shared old new ts : ∀ ts', mapR (shrink_tensor old new) ts = Ok ts' → shared_by <$> ts' = shared_by <$> ts.
Proof.
  induction ts as [|t ts IH]; intros ts' H; [by injection H as <-|]. cbn [mapR] in H.
  apply result_bind_ok in H as (t' & (q & _ & _ & ->)%shrink_tensor_ok & H). apply result_bind_ok in H as (ts2 & E2 & [= <-]). csimpl. by rewrite (IH _ E2).
Qed.

Lemma shrink_config_ok cfg new x c c' : shrink_config dtype_size cfg new c = Ok c' → (override = None → 0 ≤ new) → new ≤ wc_num_blocks c → worker_fits x c →
  worker_fits x c' ∧ wc_num_blocks c' = new ∧ wc_groups c' = wc_groups c.
Proof.
  unfold shrink_config. intros (ts & Ets & H)%result_bind_ok H0 Hn ([Hl Hs] & Hm).
  assert (c' = mkWConfig new ts (wc_groups c)) as ->. { case_bool_decide; [by injection H|]. by apply result_bind_ok in H as (? & _ & [= <-]). }
  clear H. split; [|done]. split; [split|]; cbn [wc_tensors wc_num_blocks].
  - by rewrite (shrink_shared _ _ _ _ Ets).
  - intros t n s Ht Hin Hns. destruct (mapR_elem_r _ _ _ _ Ets Ht) as (t0 & Ht0 & (q & Eq & Ho & ->)%shrink_tensor_ok).
    destruct (Hs t0 n s Ht0 Hin Hns) as (p & Ep & Esz). exists p. split; [done|]. cbn [tensor_size]. assert (q = p) by nia. by subst.
  - intros Eo. specialize (H0 Eo). destruct (Hm Eo) as (_ & Hpos & Hsz). destruct (shrink_tensors_ok _ _ _ _ Ets ltac:(lia) Hpos) as (_ & Hle & Hpos').
    unfold total_size in *. cbn [wc_tensors]. split_and!; [done|done|lia].
Qed.

(** The configuration of the scheduler is that of the workers. *)
Lemma scheduler_config_ok configs n c0 rest : configs = c0 :: rest → Forall (λ c, wc_num_blocks c = n) configs →
  Forall (λ g, match wg_spec g with Plain _ => True | UniformType u => u_specs u ≠ [] end) (wc_groups c0) →
  ∃ sc, generate_scheduler_kv_cache_config configs = Ok sc ∧ num_blocks sc = Z.to_nat n ∧ layer_names <$> kv_cache_groups sc = wg_layers <$> wc_groups c0.
Proof.
  intros -> Hn Hg. pose proof Hn as Hn'. apply Forall_cons in Hn' as [E0 _]. unfold generate_scheduler_kv_cache_config.
  rewrite (proj2 (forallb_forall _ _)).
  2:{ intros c Hc%list_elem_of_In. rewrite Forall_forall in Hn. apply bool_decide_eq_true. rewrite (Hn c Hc). done. }
  assert (∃ gs, mapR scheduler_group (wc_groups c0) = Ok gs ∧ layer_names <$> gs = wg_layers <$> wc_groups c0) as (gs & Egs & Elay).
  { induction (wc_groups c0) as [|[ns sp] gs IH]; [by exists []|]. apply Forall_cons in Hg as [Hsp Hg]. destruct (IH Hg) as (gs' & E & El).
    assert (∃ s, scheduler_group (mkWGroup ns sp) = Ok (mkGroup ns s)) as [s Es].
    { unfold scheduler_group. destruct sp as [s|u]; [by exists s|]. simpl in *. destruct (u_specs u) as [|[k s] us]; [done|]. by exists s. }
    exists (mkGroup ns s :: gs'). cbn [mapR]. rewrite Es, E. split; [done|]. csimpl. by rewrite El. }
  rewrite Egs. cbn [mbind result_bind]. eexists. split; [done|]. by rewrite E0.
Qed.

(** C8. The KV cache configurations of all workers (pipeline stages with different layers and
    memory) are consistent: they have the same number of blocks; every worker has tensors
    for exactly its own layers, each layer in one tensor, and the tensor of a layer holds
    exactly that many pages of the layer, so that a block id of the scheduler is valid on
    every worker; and the configuration of the scheduler exists and has that number of
    blocks.  Unless the number of blocks is overridden ([num_gpu_blocks_override]), the
    tensors also fit the memory of the worker; with an override they need not. *)
Theorem kv_cache_configs_consistent cfg kv_cache_specs available_memory configs cfg' :
  Forall (λ d, NoDup d.*1) kv_cache_specs → Forall (λ m, 0 ≤ m) available_memory →
  (∀ d n s p, d ∈ kv_cache_specs → (n, s) ∈ d → page_size_bytes dtype_size s = Ok p → 0 < p) →
  get_kv_cache_configs dtype_size override disable_hybrid kv_cache_specs available_memory cfg = (Ok configs, cfg') →
  ∃ n sc, Forall2 (λ x c, worker_fits x c ∧ wc_num_blocks c = n) (zip kv_cache_specs available_memory) configs ∧
    generate_scheduler_kv_cache_config configs = Ok sc ∧ num_blocks sc = Z.to_nat n.
Proof.
  intros Hnd Hmem Hpos H. unfold get_kv_cache_configs in H.
  assert (∃ merged gs cs n, merge_workers [] kv_cache_specs = Ok merged ∧ get_kv_cache_groups dtype_size disable_hybrid merged = Ok gs ∧
    mapR (worker_config dtype_size override gs) (zip kv_cache_specs available_memory) = Ok cs ∧ minR (wc_num_blocks <$> cs) = Ok n ∧
    ∃ cfg1, mapR (shrink_config dtype_size cfg1 n) cs = Ok configs) as (merged & gs & cs & n & Em & Eg & Ecs & En & cfg1 & Esh).
  { apply bind_ok in H as (_ & cfg1 & _ & H). 
    apply bind_ok in H as (merged & ? & [Em ->]%of_result_ok & H). apply bind_ok in H as (gs & ? & [Eg ->]%of_result_ok & H).
    apply bind_ok in H as (cs & ? & [Ec ->]%of_result_ok & H). apply bind_ok in H as (n & ? & [En ->]%of_result_ok & H).
    apply bind_ok in H as (? & ? & [= <- <-] & [Es ->]%of_result_ok). exists merged, gs, cs, n. eauto 8. }
  clear H. apply merge_workers_spec in Em as [Hndm Hin]; [|constructor].
  pose proof (get_groups_grouped dtype_size disable_hybrid merged gs Hndm Eg) as Hgr.
  assert (Forall2 (λ x c, worker_fits x c ∧ wc_groups c = worker_groups gs x.1) (zip kv_cache_specs available_memory) cs) as Hcs.
  { apply mapR_ok, Forall2_same_length_lookup in Ecs as [Hlen Ecs]. apply Forall2_same_length_lookup. split; [done|]. intros i x c Hx Hc.
    pose proof (elem_of_zip_l x.1 x.2 kv_cache_specs available_memory) as Hl. pose proof (elem_of_zip_r x.1 x.2 kv_cache_specs available_memory) as Hr.
    rewrite <-surjective_pairing in Hl, Hr. pose proof (list_elem_of_lookup_2 _ _ _ Hx) as Hxin. specialize (Hl Hxin). specialize (Hr Hxin).
    rewrite Forall_forall in Hnd. rewrite Forall_forall in Hmem. eapply worker_config_ok; [exact Hndm|exact Hgr|by apply Hnd| | |by apply Hmem|by eapply Ecs].
    - intros [k s] Hs. apply Hin. right. eauto.
    - intros k s p [Hs|(d & Hd & Hs)]%Hin; [by apply not_elem_of_nil in Hs|]. by eapply Hpos. }
  assert (Forall (λ c, n ≤ wc_num_blocks c) cs) as Hmin by (apply Forall_forall; intros c Hc; eapply minR_le; [exact En|by apply list_elem_of_fmap_2]).
  assert (override = None → 0 ≤ n) as Hn.
  { intros Eo. apply minR_in, list_elem_of_fmap in En as (c & -> & [i Hi]%list_elem_of_lookup). destruct (Forall2_lookup_r _ _ _ _ _ Hcs Hi) as (x & _ & (_ & Hx) & _). apply (Hx Eo). }
  assert (Forall2 (λ x c, (worker_fits x c ∧ wc_num_blocks c = n) ∧ wc_groups c = worker_groups gs x.1) (zip kv_cache_specs available_memory) configs) as Hfin.
  { apply mapR_ok in Esh. clear -Hcs Hmin Hn Esh. revert configs Esh. induction Hcs as [|x c xs cs [Hx Hg] _ IH]; intros configs Esh; [by apply Forall2_nil_inv_l in Esh as ->|].
    apply Forall2_cons_inv_l in Esh as (c' & configs' & Ec & Esh & ->). apply Forall_cons in Hmin as [Hmin1 Hmin].
    destruct (shrink_config_ok _ _ x _ _ Ec Hn Hmin1 Hx) as (? & ? & ?). constructor; [split; [done|congruence]|by apply IH]. }
  destruct configs as [|c0 rest].
  { exfalso. apply mapR_ok, Forall2_nil_inv_r in Esh as ->. done. }
  destruct (scheduler_config_ok (c0 :: rest) n c0 rest eq_refl) as (sc & Esc & Enb & _).
  - apply Forall_forall. intros c [i Hi]%list_elem_of_lookup. by destruct (Forall2_lookup_r _ _ _ _ _ Hfin Hi) as (x & _ & [_ ?] & _).
  - apply Forall2_cons_inv_r in Hfin as (x & xs & [_ Eg0] & _ & _). rewrite Eg0. unfold worker_groups. apply Forall_fmap. destruct Hgr as (_ & Hok & _).
    eapply Forall_impl; [exact Hok|]. intros g [Hne Hg]. simpl. destruct (wg_spec g) as [|u]; [done|]. destruct Hg as [Hk _]. by intros E; rewrite E in Hk.
  - exists n, sc. split_and!; [|done|done]. eapply Forall2_impl; [exact Hfin|]. by intros x c [? _].
Qed.
End workers.

(** ** One request of the maximum length *)

Section one_request.
Context (dtype_size : string → Z) (disable_hybrid : bool).

Lemma check_ok d m cfg cfg' : check_enough_kv_cache_memory dtype_size d m cfg = (Ok (), cfg') →
  cfg' = cfg ∧ (d = [] ∨ ∃ z, max_memory_usage_bytes dtype_size cfg (specs_of d) = Ok z ∧ z ≤ m).
Proof.
  unfold check_enough_kv_cache_memory. case_bool_decide as Hd; [intros [= <-]; auto|]. destruct (Z.leb_spec m 0); [done|].
  intros (? & ? & [= <- <-] & H1)%bind_ok. apply bind_ok in H1 as (z & ? & [Ez ->]%of_result_ok & H1). destruct (Z.ltb_spec m z).
  - by apply bind_ok in H1 as (? & ? & _ & [=]).
  - injection H1 as <-. split; [done|]. right. exists z. split; [done|lia].
Qed.

Lemma checks_ok l cfg cfg' : for_each l (λ x, check_enough_kv_cache_memory dtype_size x.1 x.2) cfg = (Ok (), cfg') →
  cfg' = cfg ∧ ∀ x, x ∈ l → x.1 = [] ∨ ∃ z, max_memory_usage_bytes dtype_size cfg (specs_of x.1) = Ok z ∧ z ≤ x.2.
Proof.
  induction l as [|x l IH]; cbn [for_each]; [intros [= <-]; split; [done|set_solver]|].
  intros ([] & ? & [-> Hx]%check_ok & [-> Hl]%IH)%bind_ok. split; [done|]. intros y [->|Hy]%elem_of_cons; [done|auto].
Qed.

(** [k] layers with the same spec *)
Lemma usage_same cfg d s u z : (∀ n s', (n, s') ∈ d → s' = s) → KVCacheInterface.max_memory_usage_bytes dtype_size cfg s = Ok u →
  max_memory_usage_bytes dtype_size cfg (specs_of d) = Ok z → z = Z.of_nat (length d) * u.
Proof.
  intros Hs Hu (l & El & [= <-])%result_bind_ok. revert l El. induction d as [|[n s'] d IH]; intros l El; [by injection El as <-|].
  unfold specs_of in El. csimpl in El. cbn [mapR spec_max_memory_usage_bytes] in El. rewrite (Hs n s') in El by left. rewrite Hu in El. cbn [mbind result_bind] in El.
  apply result_bind_ok in El as (l' & El & [= <-]). rewrite zsum_cons. rewrite (IH (λ n s' H, Hs n s' (list_elem_of_further _ _ _ H)) l' El).
  simpl. lia.
Qed.

Lemma full_model_groups d bs a gs : (∀ n s, (n, s) ∈ d → s = FullAttentionSpec bs a None None) → d ≠ [] →
  get_kv_cache_groups dtype_size disable_hybrid d = Ok gs → ∃ s, gs = [mkWGroup d.*1 (Plain s)].
Proof.
  intros Hs Hne. assert (merge_full d.*2 = Ok (FullAttentionSpec bs a None None)) as Hm.
  { apply merge_full_exact. exists bs, a, None, None. split_and!; [done|by intros [[] _]| | |auto|auto]; [by destruct d|].
    intros s ([n s'] & -> & Hin)%list_elem_of_fmap. rewrite (Hs _ _ Hin). eauto 10. }
  assert (is_kv_cache_spec_uniform d = Ok true) as Hu.
  { unfold is_kv_cache_spec_uniform. destruct d as [|[n0 s0] d]; [done|]. rewrite (Hs n0 s0) in * by left. csimpl. csimpl in Hm. cbn [merge]. by rewrite Hm. }
  rewrite groups_of_eq. assert ((if disable_hybrid then unify_hybrid_kv_cache_specs d else Ok d) = Ok d) as ->.
  { destruct disable_hybrid; [|done]. unfold unify_hybrid_kv_cache_specs, uniform_spec_or_type. by rewrite Hu. }
  cbn [mbind result_bind]. unfold groups_of, get_kv_cache_groups. cbn [mbind result_bind]. unfold is_kv_cache_type_attention_free. rewrite bool_decide_false by done. rewrite Hu.
  cbn [mbind result_bind]. unfold _get_kv_cache_groups_uniform_spec. intros H. pose proof (create_groups_names _ _ _ H) as En.
  destruct gs as [|g [|]]; [done| |done]. injection En as En. destruct (create_groups_plain _ _ _ g H ltac:(left)) as (m & Em & _).
  exists m. destruct g; simpl in *. by subst.
Qed.

(** The number of blocks of a worker whose layers all need [u = pages * p] bytes *)
Lemma enough_blocks gs d names s m c p pages : worker_groups gs d = [mkWGroup names (Plain s)] → length names = length d → (∀ n s', (n, s') ∈ d → page_size_bytes dtype_size s' = Ok p) → 0 < p →
  Z.of_nat (length d) * (pages * p) ≤ m → 0 ≤ pages → worker_config dtype_size None gs (d, m) = Ok c → pages ≤ wc_num_blocks c.
Proof.
  intros Egs Hln Hp Hp0 Hm Hpg. unfold worker_config. cbn [fst snd]. rewrite Egs. case_bool_decide as Hlen; [|done]. unfold get_kv_cache_config_from_groups.
  intros (g & Eg & (p' & Ep & H)%result_bind_ok)%result_bind_ok. injection Eg as <-. csimpl in H. rewrite Hln in H.
  destruct (uniform_page_elem _ _ _ Ep) as (n & s' & Hs & Es). rewrite (Hp _ _ Hs) in Es. injection Es as <-.
  destruct (Z.leb_spec (Z.of_nat (length d)) 0) as [|Hg]; [done|]. apply result_bind_ok in H as (nb & Enb & [= <-]). cbn [wc_num_blocks].
  unfold get_num_blocks, py_div, may_override_num_blocks in Enb. rewrite decide_False in Enb by lia. cbn [mbind result_bind] in Enb.
  rewrite decide_False in Enb by lia. cbn [mbind result_bind default] in Enb. injection Enb as <-.
  transitivity (m / p / Z.of_nat (length d)); [|lia]. rewrite Z.div_div by lia. apply Z.div_le_lower_bound; nia.
Qed.

(** The check of the memory is enough for a model of full-attention layers, however its
    layers and its memory are distributed over the workers: if the configurations are
    generated, every worker has at least the blocks of one request of [max_model_len]
    tokens. *)
Theorem full_model_fits_request cfg kv_cache_specs available_memory configs cfg' bs a p c :
  (∀ d n s, d ∈ kv_cache_specs → (n, s) ∈ d → s = FullAttentionSpec bs a None None) →
  Forall (λ d, NoDup d.*1 ∧ d ≠ []) kv_cache_specs →
  page_size_bytes dtype_size (FullAttentionSpec bs a None None) = Ok p → 0 < p → 0 < bs → 0 ≤ max_model_len cfg →
  decode_context_parallel_size cfg = 1 → prefill_context_parallel_size cfg = 1 →
  get_kv_cache_configs dtype_size None disable_hybrid kv_cache_specs available_memory cfg = (Ok configs, cfg') → c ∈ configs →
  cdiv (max_model_len cfg) bs ≤ wc_num_blocks c.
Proof.
  intros Hs Hds Hp Hp0 Hbs Hlen Hdcp Hpcp H Hc. unfold get_kv_cache_configs in H.
  apply bind_ok in H as ([] & ? & Hchk & H). apply checks_ok in Hchk as [-> Hchk]. apply bind_ok in H as (merged & ? & [Em ->]%of_result_ok & H).
  apply bind_ok in H as (gs & ? & [Eg ->]%of_result_ok & H). apply bind_ok in H as (cs & ? & [Ec ->]%of_result_ok & H).
  apply bind_ok in H as (n & ? & [En ->]%of_result_ok & H). apply bind_ok in H as (? & ? & [= <- <-] & [Es ->]%of_result_ok).
  destruct (mapR_elem_r _ _ _ _ Es Hc) as (c0 & _ & E0). assert (wc_num_blocks c = n) as ->.
  { unfold shrink_config in E0. apply result_bind_ok in E0 as (ts & _ & E0). case_bool_decide; [by injection E0 as <-|]. by apply result_bind_ok in E0 as (? & _ & [= <-]). }
  apply minR_in, list_elem_of_fmap in En as (c1 & -> & Hc1). destruct (mapR_elem_r _ _ _ _ Ec Hc1) as ([d m] & Hx & Ex).
  pose proof (elem_of_zip_l _ _ _ _ Hx) as Hd. rewrite Forall_forall in Hds. destruct (Hds d Hd) as [Hnd Hdne].
  apply merge_workers_spec in Em as [Hndm Hin]; [|constructor].
  assert (∀ n s, (n, s) ∈ merged → s = FullAttentionSpec bs a None None) as Hsm.
  { intros k s [Hk|(d' & Hd' & Hk)]%Hin; [by apply not_elem_of_nil in Hk|by eapply Hs]. }
  assert (d ⊆ merged) as Hsub by (intros [k s] Hk; apply Hin; eauto).
  assert (merged ≠ []) as Hmne by (destruct d as [|x d]; [done|]; intros ->; specialize (Hsub x ltac:(left)); by apply not_elem_of_nil in Hsub).
  destruct (get_groups_grouped dtype_size disable_hybrid merged gs Hndm Eg) as (Hperm & _).
  destruct (full_model_groups merged bs a gs Hsm Hmne Eg) as (s & ->).
  pose proof (worker_groups_partition _ _ d Hperm Hndm Hnd Hsub) as Hwp. unfold worker_groups in Hwp. csimpl in Hwp. rewrite app_nil_r in Hwp.
  destruct (Hchk _ Hx) as [|(z & Ez & Hz)]; [done|]. cbn [fst snd] in *.
  assert (KVCacheInterface.max_memory_usage_bytes dtype_size cfg (FullAttentionSpec bs a None None) = Ok (cdiv (max_model_len cfg) bs * p)) as Hu.
  { unfold KVCacheInterface.max_memory_usage_bytes, max_pages. rewrite Hdcp, Hpcp, Hp. done. }
  rewrite (usage_same _ _ _ _ _ (λ n s Hn, Hs d n s Hd Hn) Hu Ez) in Hz.
  eapply (enough_blocks [mkWGroup merged.*1 (Plain s)] d); [reflexivity| | |exact Hp0|exact Hz| |exact Ex].
  - apply Permutation_length in Hwp. by rewrite length_fmap in Hwp.
  - intros k s' Hk. by rewrite (Hs d k s' Hd Hk).
  - by apply cdiv_nonneg.
Qed.
End one_request.

(** ** Example models *)

Definition one_byte (dtype : string) : Z := 1.
(** Pages of [4 * heads] bytes for two tokens *)
Definition heads (k : Z) : AttentionFields := mkAttn k 1 "int8".
Definition full_layer (k : Z) : KVCacheSpec := FullAttentionSpec 2 (heads k) None None.
Definition sw_layer : KVCacheSpec := SlidingWindowSpec 2 (heads 1) 2.
Definition four_tokens : VllmConfig := mkVllmConfig 4 1 1 4 0.
Definition hybrid_model : spec_dict :=
  [("f0", full_layer 1); ("f1", full_layer 1); ("s0", sw_layer); ("s1", sw_layer); ("s2", sw_layer)]%string.
(** Two pipeline stages of a full-attention model *)
Definition stages (k0 k1 : Z) : list spec_dict := [[("l0", full_layer k0)]; [("l1", full_layer k1); ("l2", full_layer k1)]]%string.

Lemma stages_full k d n s : d ∈ stages k k → (n, s) ∈ d → s = full_layer k.
Proof. unfold stages. rewrite !elem_of_cons, elem_of_nil. intros [->|[->|[]]]; rewrite !elem_of_cons, elem_of_nil; naive_solver. Qed.

Definition result_of {S A} (x : result A * S) : result A := x.1.

Lemma estimate_exact_witness : Forall (measurable one_byte four_tokens) hybrid_model.*2 ∧
  ∃ x cfg', estimate_max_model_len one_byte hybrid_model 44 four_tokens = (Ok x, cfg') ∧ best_length one_byte four_tokens hybrid_model 44 4 x.
Proof.
  assert (Forall (measurable one_byte four_tokens) hybrid_model.*2) as H.
  { repeat constructor; try done; by exists 4. }
  split; [done|]. exact (estimate_exact one_byte four_tokens hybrid_model 44 H ltac:(done)).
Defined.

Lemma kv_cache_groups_partition_witness : ∃ gs, get_kv_cache_groups one_byte false hybrid_model = Ok gs ∧
  wg_layers <$> gs = [["f0"; "f1"]; ["s0"; "s2"]; ["s1"]]%string ∧ grouped one_byte hybrid_model gs.
Proof.
  eexists. split; [vm_compute; reflexivity|]. split; [done|]. apply (kv_cache_groups_partition one_byte false); [|vm_compute; reflexivity].
  apply (bool_decide_unpack _). vm_compute. exact I.
Defined.

Lemma kv_cache_configs_consistent_witness : ∃ configs n sc,
  get_kv_cache_configs one_byte None false (stages 1 1) [100; 64] four_tokens = (Ok configs, four_tokens) ∧
  Forall2 (λ x c, worker_fits one_byte None x c ∧ wc_num_blocks c = n) (zip (stages 1 1) [100; 64]) configs ∧
  generate_scheduler_kv_cache_config configs = Ok sc ∧ KVCacheInterface.num_blocks sc = Z.to_nat n.
Proof.
  eexists. edestruct (kv_cache_configs_consistent one_byte false None four_tokens (stages 1 1) [100; 64]) as (n & sc & H); [| | |vm_compute; reflexivity|].
  - repeat constructor; set_solver.
  - repeat constructor; done.
  - intros d n s p Hd Hs. rewrite (stages_full 1 d n s Hd Hs). by intros [= <-].
  - exists n, sc. split; [vm_compute; reflexivity|exact H].
Defined.

Lemma full_model_fits_request_witness : ∃ c0 c1,
  get_kv_cache_configs one_byte None true (stages 1 1) [8; 17] four_tokens = (Ok [c0; c1], four_tokens) ∧ 2 ≤ wc_num_blocks c1.
Proof.
  eexists _, _. split; [vm_compute; reflexivity|].
  eapply (full_model_fits_request one_byte true four_tokens (stages 1 1) [8; 17] _ four_tokens 2 (heads 1) 4); try done.
  - apply stages_full.
  - repeat constructor; done || set_solver.
  - right. left.
Defined.

(** The check of the memory passes, but the cache cannot serve a request of the maximum
    length (four tokens in blocks of two): with exactly the memory of its two blocks, one of
    them becomes the null block, and a prompt of three tokens gets no slots in an empty
    cache; the padding of the groups of a hybrid model is not counted, and the reported
    concurrency is below one; and a group of one type counts the pages of the layers of all
    pipeline stages, so that no block is left for the first stage and its tensor size is
    divided by zero. *)
Theorem memory_check_insufficient :
  (let run := get_kv_cache_configs one_byte None false [[("f0", full_layer 1)]]%string [8] four_tokens in
   let k := configs ← result_of run; sc ← generate_scheduler_kv_cache_config configs; KVCacheManager_init sc 4 true false true false false 1 1 in
   match k with Ok k => result_of (allocate_slots (demo_req "a" 0 [1; 2; 3]) 3 0 None 0 false 0 k) | Raise e => Raise e end = Ok None) ∧
  (let run := get_kv_cache_configs one_byte None false [hybrid_model] [52] four_tokens in
   ∃ c, result_of run = Ok [c] ∧ get_max_concurrency_for_kv_cache_config one_byte four_tokens c = Ok (6 / 8)%Q) ∧
  result_of (get_kv_cache_configs one_byte None false (stages 1 2) [8; 32] four_tokens) = Raise ZeroDivisionError.
Proof. split_and!; [vm_compute; reflexivity|eexists; split; vm_compute; reflexivity|vm_compute; reflexivity]. Qed.
