(* ===== verification/EncoderCache.v ===== *)
(** * vllm/v1/core/encoder_cache_manager.py and its use by the scheduler

    The cache of encoder outputs (embeddings of images or audio), counted in tokens,
    and the scheduler's [_try_schedule_encoder_inputs] and [_free_encoder_inputs]. *)

From stdpp Require Import base tactics option list gmap strings.
From Stdlib Require Import ZArith Lia.
From S2P Require Import Prelude KVCacheUtils Request.
Local Open Scope Z_scope.

(** ** State *)

Record EncoderCacheManager := mkEnc {
  cache_size : Z;
  num_free_slots : Z;
  num_freeable_slots : Z;
  cached : gmap string (gset string);
  freeable : list (string * Z);
  freed : list string;
}.

Definition enc_init (size : Z) : EncoderCacheManager := mkEnc size size size ∅ [] [].

Abbreviation ME := (M EncoderCacheManager).

Definition set_cached (c : gmap string (gset string)) (e : EncoderCacheManager) : EncoderCacheManager :=
  mkEnc (cache_size e) (num_free_slots e) (num_freeable_slots e) c (freeable e) (freed e).
Definition set_freeable (f : list (string * Z)) (n : Z) (e : EncoderCacheManager) : EncoderCacheManager :=
  mkEnc (cache_size e) (num_free_slots e) n (cached e) f (freed e).
Definition set_slots (free freeable' : Z) (e : EncoderCacheManager) : EncoderCacheManager :=
  mkEnc (cache_size e) free freeable' (cached e) (freeable e) (freed e).

(** ** Operations *)

Definition mm_hash_of (request : Request) (input_id : nat) : ME string :=
  f ← index (mm_features request) input_id; mret (identifier f).

Definition check_and_update_cache (request : Request) (input_id : nat) : ME bool :=
  mm_hash ← mm_hash_of request input_id;
  e ← get;
  match cached e !! mm_hash with
  | None => mret false
  | Some refs =>
      (if bool_decide (refs = ∅) then
         match OD.get mm_hash (freeable e) with
         | None => raise KeyError
         | Some n => modify (set_freeable (OD.del mm_hash (freeable e)) (num_freeable_slots e - n))
         end
       else mret ()) ;;
      modify (λ e, set_cached (<[mm_hash := {[request_id request]} ∪ refs]> (cached e)) e) ;;
      mret true
  end.

(** [while num_tokens > self.num_free_slots: ...], structural on the dictionary it pops *)
Fixpoint evict_loop (num_tokens : Z) (fr : list (string * Z)) (e : EncoderCacheManager) : result () * EncoderCacheManager :=
  if num_tokens <=? num_free_slots e then (Ok (), e) else
  match fr with
  | [] => (Raise KeyError, e)
  | (mm_hash, n) :: fr' =>
      let e1 := set_freeable fr' (num_freeable_slots e) e in
      match cached e !! mm_hash with
      | None => (Raise KeyError, e1)
      | Some _ => evict_loop num_tokens fr'
          (mkEnc (cache_size e) (num_free_slots e + n) (num_freeable_slots e) (delete mm_hash (cached e)) fr' (freed e ++ [mm_hash]))
      end
  end.

Definition evict (num_tokens : Z) : ME () := λ e, evict_loop num_tokens (freeable e) e.

Definition can_allocate (request : Request) (input_id : nat) (encoder_compute_budget num_tokens_to_schedule : Z) : ME bool :=
  num_tokens ← of_result (get_num_encoder_tokens request input_id);
  if encoder_compute_budget <? num_tokens then mret false else
  let num_tokens := num_tokens + num_tokens_to_schedule in
  e ← get;
  if num_tokens <=? num_free_slots e then mret true else
  if num_freeable_slots e <? num_tokens then mret false else
  evict num_tokens ;; mret true.

Definition allocate (request : Request) (input_id : nat) : ME () :=
  mm_hash ← mm_hash_of request input_id;
  modify (λ e, set_cached (<[mm_hash := default ∅ (cached e !! mm_hash)]> (cached e)) e) ;;
  num_encoder_tokens ← of_result (get_num_encoder_tokens request input_id);
  e ← get;
  assert_ (num_encoder_tokens <=? num_free_slots e) ;;
  assert_ (num_encoder_tokens <=? num_freeable_slots e) ;;
  modify (λ e, set_cached (<[mm_hash := {[request_id request]} ∪ default ∅ (cached e !! mm_hash)]> (cached e)) e) ;;
  modify (λ e, set_slots (num_free_slots e - num_encoder_tokens) (num_freeable_slots e - num_encoder_tokens) e).

Definition get_cached_input_ids (request : Request) (e : EncoderCacheManager) : list nat :=
  filter (λ i, is_Some (mm_features request !! i ≫= λ f, cached e !! identifier f))
    (seq 0 (length (mm_features request))).

Definition free_encoder_input (request : Request) (input_id : nat) : ME () :=
  mm_hash ← mm_hash_of request input_id;
  e ← get;
  let refs := default ∅ (cached e !! mm_hash) in
  if bool_decide (refs = ∅) then mret () else
  let refs' := refs ∖ {[request_id request]} in
  modify (set_cached (<[mm_hash := refs']> (cached e))) ;;
  if bool_decide (refs' = ∅) then
    num_tokens ← of_result (get_num_encoder_tokens request input_id);
    modify (λ e, set_freeable (OD.set mm_hash num_tokens (freeable e)) (num_freeable_slots e + num_tokens) e)
  else mret ().

Definition get_freed_mm_hashes : ME (list string) :=
  e ← get;
  modify (λ e, mkEnc (cache_size e) (num_free_slots e) (num_freeable_slots e) (cached e) (freeable e) []) ;;
  mret (freed e).

Section iteration.
(** The order in which Python iterates over a set of input ids is not specified. *)
Context (set_iter : list nat → list nat).

Definition free (request : Request) : ME () :=
  e ← get; for_each (set_iter (get_cached_input_ids request e)) (free_encoder_input request).

(** [Scheduler._free_encoder_inputs] *)
Definition _free_encoder_inputs (is_encoder_decoder : bool) (request : Request) : ME () :=
  e ← get;
  for_each (set_iter (get_cached_input_ids request e)) (λ input_id,
    f ← index (mm_features request) input_id;
    if (is_encoder_decoder && (0 <? num_computed_tokens request)) || (mm_offset f + mm_length f <=? num_computed_tokens request)
    then free_encoder_input request input_id else mret ()).
End iteration.

(** *** [Scheduler._try_schedule_encoder_inputs] *)

(** The local variables of the loop *)
Record enc_vars := mkVars {
  v_to_schedule : list nat;
  v_new_tokens : Z;
  v_budget : Z;
  v_external : list nat;
  v_hashes : gset string;
  v_num_tokens : Z;
}.

Section schedule.
(** [scheduler_config.disable_chunked_mm_input], [self.is_encoder_decoder] and, with a
    remote cache, the items it has *)
Context (disable_chunked_mm_input is_encoder_decoder : bool) (remote_cache_has_item : option (list bool)).
Context (request : Request) (num_computed_tokens : Z).

Fixpoint encoder_loop (fs : list MultiModalFeatureSpec) (i : nat) (v : enc_vars) : ME enc_vars :=
  match fs with
  | [] => mret v
  | f :: fs' =>
      let start_pos := mm_offset f in
      let num_encoder_tokens := mm_length f in
      let stop n := mret (mkVars (v_to_schedule v) n (v_budget v) (v_external v) (v_hashes v) (v_num_tokens v)) in
      if num_computed_tokens + v_new_tokens v <=? start_pos then mret v else
      if is_encoder_decoder && (0 <? num_computed_tokens) then
        assert_ (bool_decide (start_pos = 0)) ;; encoder_loop fs' (S i) v
      else if start_pos + num_encoder_tokens <=? num_computed_tokens then encoder_loop fs' (S i) v
      else if negb is_encoder_decoder && bool_decide (identifier f ∈ v_hashes v) then encoder_loop fs' (S i) v
      else
        hit ← (if is_encoder_decoder then mret false else check_and_update_cache request i);
        if hit : bool then encoder_loop fs' (S i) v else
        if disable_chunked_mm_input && (num_computed_tokens <? start_pos) &&
           (num_computed_tokens + v_new_tokens v <? start_pos + num_encoder_tokens)
        then stop (start_pos - num_computed_tokens) else
        ok ← can_allocate request i (v_budget v) (v_num_tokens v);
        if negb ok then stop (if num_computed_tokens <? start_pos then start_pos - num_computed_tokens else 0) else
        external ← match remote_cache_has_item with None => mret false | Some l => index l i end;
        if external : bool then
          encoder_loop fs' (S i) (mkVars (v_to_schedule v) (v_new_tokens v) (v_budget v) (v_external v ++ [i])
            ({[identifier f]} ∪ v_hashes v) (v_num_tokens v + num_encoder_tokens))
        else
          encoder_loop fs' (S i) (mkVars (v_to_schedule v ++ [i]) (v_new_tokens v) (v_budget v - num_encoder_tokens) (v_external v)
            ({[identifier f]} ∪ v_hashes v) (v_num_tokens v + num_encoder_tokens))
  end.

Definition _try_schedule_encoder_inputs (num_new_tokens encoder_compute_budget : Z) : ME (list nat * Z * Z * list nat) :=
  if bool_decide (num_new_tokens = 0) || negb (has_encoder_inputs request)
  then mret ([], num_new_tokens, encoder_compute_budget, []) else
  v ← encoder_loop (mm_features request) 0 (mkVars [] num_new_tokens encoder_compute_budget [] ∅ 0);
  mret (v_to_schedule v, v_new_tokens v, v_budget v, v_external v).
End schedule.

(** *** Budgets *)

Record SchedulerConfig := mkSchedConfig {
  cfg_disable_chunked_mm_input : bool;
  max_num_batched_tokens : Z;
  max_num_encoder_input_tokens : Z;
  encoder_cache_size : Z;
}.

(** [max(l)] of a non-empty list *)
Definition zmax (l : list Z) : Z := match l with [] => 0 | x :: l' => foldl Z.max x l' end.

Definition compute_text_encoder_budget : Z * Z := (0, 0).

Definition compute_mm_encoder_budget (cfg : SchedulerConfig) (max_tokens_by_modality : list (string * Z)) : result (Z * Z) :=
  if bool_decide (max_tokens_by_modality = []) then Ok (0, 0) else
  let max_tokens_per_mm_item := zmax max_tokens_by_modality.*2 in
  if cfg_disable_chunked_mm_input cfg && (max_num_batched_tokens cfg <? max_tokens_per_mm_item) then Raise ValueError else
  Ok (Z.max (max_num_encoder_input_tokens cfg) max_tokens_per_mm_item, Z.max (encoder_cache_size cfg) max_tokens_per_mm_item).

(** The registry tells whether the model takes multimodal inputs, and their sizes. *)
Definition compute_encoder_budget (cfg : SchedulerConfig) (supports_multimodal : bool) (max_tokens_by_modality : list (string * Z))
    : result (Z * Z) :=
  if supports_multimodal then compute_mm_encoder_budget cfg max_tokens_by_modality else Ok compute_text_encoder_budget.

(** ** The invariant *)

Section encoder.
(** The number of tokens an input takes, a function of its content hash *)
Context (size : string → Z).

Definition weight (P : gset string → bool) (c : gmap string (gset string)) : Z :=
  zsum ((λ x : string * gset string, if P x.2 then size x.1 else 0) <$> map_to_list c).
Definition any_ref (r : gset string) : bool := true.
Definition has_ref (r : gset string) : bool := negb (bool_decide (r = ∅)).

Lemma any_ref_true r : any_ref r = true.
Proof. done. Qed.
Lemma has_ref_empty : has_ref ∅ = false.
Proof. done. Qed.
Lemma has_ref_true r : r ≠ ∅ → has_ref r = true.
Proof. intros H. unfold has_ref. by rewrite bool_decide_false. Qed.

Lemma weight_insert P c h r : c !! h = None → weight P (<[h := r]> c) = (if P r then size h else 0) + weight P c.
Proof. intros H. unfold weight. rewrite map_to_list_insert by done. csimpl. apply zsum_cons. Qed.

Lemma weight_delete P c h r : c !! h = Some r → weight P (delete h c) = weight P c - (if P r then size h else 0).
Proof.
  intros H. rewrite <-(insert_delete_id c h r H) at 2. rewrite weight_insert by apply lookup_delete_eq. lia.
Qed.

Lemma weight_update P c h r r' : c !! h = Some r →
  weight P (<[h := r']> c) = weight P c - (if P r then size h else 0) + (if P r' then size h else 0).
Proof.
  intros H. rewrite <-insert_delete_eq. rewrite weight_insert by apply lookup_delete_eq. rewrite (weight_delete P c h r H). lia.
Qed.

Record enc_inv (e : EncoderCacheManager) : Prop := {
  ei_free : num_free_slots e = cache_size e - weight any_ref (cached e);
  ei_freeable : num_freeable_slots e = cache_size e - weight has_ref (cached e);
  ei_sum : num_free_slots e + zsum (freeable e).*2 = num_freeable_slots e;
  ei_keys h n : (h, n) ∈ freeable e ↔ cached e !! h = Some ∅ ∧ n = size h;
  ei_nodup : NoDup (freeable e).*1;
  ei_nonneg : 0 ≤ num_free_slots e;
  ei_pos h : is_Some (cached e !! h) → 0 ≤ size h;
}.

(** The features of a request have the sizes of their hashes. *)
Definition sized (request : Request) : Prop := ∀ f, f ∈ mm_features request → mm_length f = size (identifier f) ∧ 0 ≤ mm_length f.

Lemma enc_init_ok n : 0 ≤ n → enc_inv (enc_init n).
Proof.
  intros Hn. split; simpl; try done; unfold weight; rewrite ?map_to_list_empty; simpl; unfold zsum; simpl; try lia.
  - intros h m. rewrite lookup_empty. set_solver.
  - constructor.
  - intros h. rewrite lookup_empty. by intros [].
Qed.

Lemma free_le_freeable e : enc_inv e → num_free_slots e ≤ num_freeable_slots e.
Proof.
  intros [_ _ Hs Hk _ _ Hp]. assert (0 ≤ zsum (freeable e).*2); [|lia]. apply zsum_nonneg, Forall_fmap, Forall_forall.
  intros [h n] [Hc ->]%Hk. simpl. apply Hp. by rewrite Hc.
Qed.

Lemma wp_mm_hash request i f (e : EncoderCacheManager) Q : mm_features request !! i = Some f → Q (identifier f) e →
  wp (mm_hash_of request i) e Q.
Proof. intros Hf HQ. unfold mm_hash_of. apply wp_bind. eapply wp_index; [done|]. by wp_steps. Qed.

Lemma num_encoder_tokens_at request i f : mm_features request !! i = Some f → get_num_encoder_tokens request i = Ok (mm_length f).
Proof. intros Hf. unfold get_num_encoder_tokens. by rewrite Hf. Qed.

Lemma zsum_snd_del h n d : NoDup (d : list (string * Z)).*1 → (h, n) ∈ d → zsum (OD.del h d).*2 = zsum d.*2 - n.
Proof.
  induction d as [|[h' n'] d IH]; csimpl; intros Hnd Hin; [set_solver +Hin|]. apply NoDup_cons in Hnd as [Hh Hnd].
  rewrite zsum_cons. case_decide as E; [subst|].
  - apply elem_of_cons in Hin as [[= <-]|Hin]; [lia|]. exfalso. apply Hh, list_elem_of_fmap. by exists (h, n).
  - apply elem_of_cons in Hin as [[= <- <-]|Hin]; [done|]. csimpl. rewrite zsum_cons, IH by done. lia.
Qed.

Lemma wp_check_and_update request i f e : enc_inv e → mm_features request !! i = Some f → let h := identifier f in
  wp (check_and_update_cache request i) e (λ r e', enc_inv e' ∧ cache_size e' = cache_size e ∧ num_free_slots e' = num_free_slots e ∧
    match cached e !! h with
    | None => r = false ∧ e' = e
    | Some refs => r = true ∧ cached e' = <[h := {[request_id request]} ∪ refs]> (cached e)
    end).
Proof.
  intros Hi Hf h. pose proof Hi as [H1 H2 H3 H4 H5 H6 H7]. unfold check_and_update_cache. apply wp_bind. eapply wp_mm_hash; [done|].
  fold h. do 2 wp_step. destruct (cached e !! h) as [refs|] eqn:E; [|by wp_steps].
  assert (has_ref ({[request_id request]} ∪ refs) = true) as Hr.
  { apply has_ref_true. set_solver. }
  apply wp_bind. case_bool_decide as Er; [subst refs|].
  - assert ((h, size h) ∈ freeable e) as Hin by (by apply H4). rewrite (proj2 (OD.get_Some _ _ _ H5) Hin). wp_steps.
    split_and!; try done. split; simpl; try done.
    + rewrite (weight_update _ _ _ _ _ E), !any_ref_true. lia.
    + rewrite (weight_update _ _ _ _ _ E), Hr, has_ref_empty. lia.
    + rewrite (zsum_snd_del h (size h)) by done. lia.
    + intros h' n. rewrite OD.elem_of_del, H4 by done. destruct (decide (h' = h)) as [->|Hne].
      * rewrite lookup_insert_eq. split; [naive_solver|]. intros [Heq%(inj Some) _]. set_solver.
      * rewrite lookup_insert_ne by done. naive_solver.
    + rewrite OD.keys_del by done. by apply NoDup_filter.
    + intros h'. destruct (decide (h' = h)) as [->|Hne]; [intros _; apply H7; by rewrite E|rewrite lookup_insert_ne by done; auto].
  - wp_steps. split_and!; try done. split; simpl; try done.
    + rewrite (weight_update _ _ _ _ _ E), !any_ref_true. lia.
    + rewrite (weight_update _ _ _ _ _ E), Hr, (has_ref_true refs) by done. lia.
    + intros h' n. rewrite H4. destruct (decide (h' = h)) as [->|Hne]; [|by rewrite lookup_insert_ne].
      rewrite E, lookup_insert_eq. split; [naive_solver|]. intros [Heq%(inj Some) _]. set_solver.
    + intros h'. destruct (decide (h' = h)) as [->|Hne]; [intros _; apply H7; by rewrite E|rewrite lookup_insert_ne by done; auto].
Qed.

(** The oldest unreferenced entries are evicted, no more than needed. *)
Record evicted_to (need : Z) (e e' : EncoderCacheManager) (ev : list (string * Z)) : Prop := {
  et_freeable : freeable e = ev ++ freeable e';
  et_cached h : cached e' !! h = if decide (h ∈ ev.*1) then None else cached e !! h;
  et_freed : freed e' = freed e ++ ev.*1;
  et_size : cache_size e' = cache_size e ∧ num_freeable_slots e' = num_freeable_slots e;
  et_enough : need ≤ num_free_slots e';
  et_minimal init last : ev = init ++ [last] → num_free_slots e + zsum init.*2 < need;
}.

Lemma evicted_none need e : need ≤ num_free_slots e → evicted_to need e e [].
Proof. intros H. split; simpl; [done|done|by rewrite app_nil_r|done|done|]. intros [|??] ? Heq; discriminate Heq. Qed.

Lemma evict_one h n fr e : enc_inv e → freeable e = (h, n) :: fr →
  enc_inv (mkEnc (cache_size e) (num_free_slots e + n) (num_freeable_slots e) (delete h (cached e)) fr (freed e ++ [h])) ∧
  cached e !! h = Some ∅ ∧ n = size h.
Proof.
  intros [H1 H2 H3 H4 H5 H6 H7] E. rewrite E in *. destruct (proj1 (H4 h n)) as [Hc ->]; [left|].
  csimpl in *. apply NoDup_cons in H5 as [Hh Hnd]. rewrite zsum_cons in H3. split; [|done]. split; simpl.
  - rewrite (weight_delete _ _ _ _ Hc), any_ref_true. lia.
  - rewrite (weight_delete _ _ _ _ Hc), has_ref_empty. lia.
  - lia.
  - intros h' n'. specialize (H4 h' n'). rewrite elem_of_cons in H4. destruct (decide (h' = h)) as [->|Hne].
    + rewrite lookup_delete_eq. split; [|naive_solver]. intros Hin. exfalso. apply Hh, list_elem_of_fmap. by exists (h, n').
    + rewrite lookup_delete_ne by done. rewrite <-H4. naive_solver.
  - done.
  - specialize (H7 h). rewrite Hc in H7. specialize (H7 ltac:(done)). lia.
  - intros h' Hs. apply H7. destruct (decide (h' = h)) as [->|Hne]; [by rewrite Hc|]. by rewrite lookup_delete_ne in Hs.
Qed.

Lemma evict_loop_ok need : ∀ fr e, enc_inv e → freeable e = fr → need ≤ num_freeable_slots e →
  ∃ e' ev, evict_loop need fr e = (Ok (), e') ∧ enc_inv e' ∧ evicted_to need e e' ev.
Proof.
  induction fr as [|[h n] fr IH]; intros e Hi Hfr Hneed; simpl; destruct (Z.leb_spec need (num_free_slots e)) as [Hle|Hgt].
  - exists e, []. split_and!; [done|done|]. by apply evicted_none.
  - pose proof (ei_sum _ Hi) as Hs. rewrite Hfr in Hs. unfold zsum in Hs. simpl in Hs. lia.
  - exists e, []. split_and!; [done|done|]. by apply evicted_none.
  - destruct (evict_one h n fr e Hi Hfr) as (Hi' & Hc & ->). rewrite Hc.
    edestruct IH as (e' & ev & E & Hie & [G1 G2 G3 G4 G5 G6]); [exact Hi'|done|done|]. simpl in *.
    exists e', ((h, size h) :: ev). split_and!; [done|done|]. split; [by rewrite Hfr, G1| | |done|done|].
    + intros h'. rewrite G2. csimpl. destruct (decide (h' = h)) as [->|Hne].
      * rewrite (decide_True (P := h ∈ h :: _)) by left. by rewrite lookup_delete_eq; case_decide.
      * rewrite lookup_delete_ne by done. destruct (decide (h' ∈ ev.*1)).
        -- by rewrite decide_True by (by right).
        -- by rewrite decide_False by (rewrite elem_of_cons; naive_solver).
    + rewrite G3. csimpl. by rewrite <-app_assoc.
    + intros [|x init] last Eev; simplify_eq/=; [unfold zsum; simpl; lia|]. specialize (G6 _ _ eq_refl).
      csimpl. rewrite zsum_cons. lia.
Qed.

(** [can_allocate] reserves nothing; it makes room. *)
Lemma wp_can_allocate request i f budget k e : enc_inv e → mm_features request !! i = Some f →
  let need := mm_length f + k in
  wp (can_allocate request i budget k) e (λ r e', enc_inv e' ∧
    r = ((mm_length f <=? budget) && ((need <=? num_free_slots e) || (need <=? num_freeable_slots e))) ∧
    if r then ∃ ev, evicted_to need e e' ev else e' = e).
Proof.
  intros Hi Hf need. unfold can_allocate. rewrite (num_encoder_tokens_at _ _ _ Hf). simpl. do 2 wp_step.
  destruct (Z.ltb_spec budget (mm_length f)) as [Hb|Hb].
  { wp_steps. rewrite (proj2 (Z.leb_gt _ _)) by done. done. }
  rewrite (proj2 (Z.leb_le (mm_length f) budget)) by done. do 2 wp_step. fold need. simpl.
  destruct (Z.leb_spec need (num_free_slots e)) as [Hle|Hgt]; simpl.
  { wp_steps. split_and!; [done|done|]. exists []. by apply evicted_none. }
  destruct (Z.ltb_spec (num_freeable_slots e) need) as [Hlt|Hge].
  { wp_steps. by rewrite (proj2 (Z.leb_gt _ _)). }
  rewrite (proj2 (Z.leb_le need _)) by done. apply wp_bind.
  destruct (evict_loop_ok need (freeable e) e Hi eq_refl Hge) as (e' & ev & E & Hie & Hev).
  unfold wp, evict. rewrite E. simpl. eauto.
Qed.

Lemma wp_enc_allocate request i f e : enc_inv e → sized request → mm_features request !! i = Some f → let h := identifier f in
  cached e !! h = None → size h ≤ num_free_slots e →
  wp (allocate request i) e (λ _ e', enc_inv e' ∧ cached e' = <[h := {[request_id request]}]> (cached e) ∧
    cache_size e' = cache_size e ∧ num_free_slots e' = num_free_slots e - size h).
Proof.
  intros Hi Hsz Hf h Hc Hle. pose proof (free_le_freeable e Hi) as Hff. pose proof Hi as [H1 H2 H3 H4 H5 H6 H7].
  destruct (Hsz f (list_elem_of_lookup_2 _ _ _ Hf)) as [Hl Hpos]. fold h in Hl. unfold allocate. apply wp_bind. eapply wp_mm_hash; [done|].
  fold h. do 3 wp_step. rewrite (num_encoder_tokens_at _ _ _ Hf), Hc. simpl. do 3 wp_step. rewrite Hl.
  apply wp_bind, wp_assert; [apply Z.leb_le; simpl; lia|]. apply wp_bind, wp_assert; [apply Z.leb_le; simpl; lia|]. wp_steps.
  rewrite lookup_insert_eq, insert_insert_eq. simpl. rewrite union_empty_r_L. split_and!; try done.
  split; simpl; try done.
  - rewrite weight_insert, any_ref_true by done. lia.
  - rewrite weight_insert, has_ref_true by (done || set_solver). lia.
  - lia.
  - intros h' n. rewrite H4. destruct (decide (h' = h)) as [->|Hne]; [|by rewrite lookup_insert_ne].
    rewrite Hc, lookup_insert_eq. split; [naive_solver|]. intros [Heq%(inj Some) _]. set_solver.
  - lia.
  - intros h'. destruct (decide (h' = h)) as [->|Hne]; [intros _; lia|rewrite lookup_insert_ne by done; auto].
Qed.

(** Freeing a reference keeps the entry in the cache. *)
Definition refs_dropped (rid : string) (e e' : EncoderCacheManager) : Prop :=
  cache_size e' = cache_size e ∧ num_free_slots e' = num_free_slots e ∧ freed e' = freed e ∧
  ∀ h, match cached e !! h, cached e' !! h with
       | Some r, Some r' => r' ⊆ r ∧ r ∖ {[rid]} ⊆ r'
       | None, None => True
       | _, _ => False
       end.

Lemma refs_dropped_refl rid e : refs_dropped rid e e.
Proof. split_and!; try done. intros h. destruct (cached e !! h); set_solver. Qed.

Lemma refs_dropped_trans rid e e' e'' : refs_dropped rid e e' → refs_dropped rid e' e'' → refs_dropped rid e e''.
Proof.
  intros (H1 & H2 & H3 & H4) (G1 & G2 & G3 & G4). split_and!; try congruence. intros h. specialize (H4 h). specialize (G4 h).
  destruct (cached e !! h), (cached e' !! h), (cached e'' !! h); try done. set_solver.
Qed.

Lemma wp_free_encoder_input request i f e : enc_inv e → sized request → mm_features request !! i = Some f → let h := identifier f in
  wp (free_encoder_input request i) e (λ _ e', enc_inv e' ∧ refs_dropped (request_id request) e e' ∧
    ∀ r, cached e' !! h = Some r → request_id request ∉ r).
Proof.
  intros Hi Hsz Hf h. pose proof Hi as [H1 H2 H3 H4 H5 H6 H7]. destruct (Hsz f (list_elem_of_lookup_2 _ _ _ Hf)) as [Hl Hpos]. fold h in Hl.
  unfold free_encoder_input. apply wp_bind. eapply wp_mm_hash; [done|]. fold h. do 2 wp_step.
  case_bool_decide as Er.
  { wp_steps. split_and!; [done|apply refs_dropped_refl|]. intros r Hr. rewrite Hr in Er. simpl in Er. set_solver. }
  destruct (cached e !! h) as [refs|] eqn:E; [|done]. simpl in *. set (refs' := refs ∖ {[request_id request]}). do 2 wp_step.
  assert (∀ e', cache_size e' = cache_size e → num_free_slots e' = num_free_slots e → freed e' = freed e →
    cached e' = <[h := refs']> (cached e) → refs_dropped (request_id request) e e') as Hdrop.
  { intros e' G1 G2 G3 G4. split_and!; try done. intros h'. rewrite G4. destruct (decide (h' = h)) as [->|Hne].
    - rewrite E, lookup_insert_eq. set_solver.
    - rewrite lookup_insert_ne by done. destruct (cached e !! h'); set_solver. }
  assert (∀ r, <[h := refs']> (cached e) !! h = Some r → request_id request ∉ r) as Hgone.
  { intros r. rewrite lookup_insert_eq. intros [= <-]. set_solver. }
  assert (∀ h', is_Some (<[h := refs']> (cached e) !! h') → 0 ≤ size h') as Hpos'.
  { intros h'. destruct (decide (h' = h)) as [->|Hne]; [intros _; lia|rewrite lookup_insert_ne by done; auto]. }
  case_bool_decide as Er'.
  - rewrite (num_encoder_tokens_at _ _ _ Hf). wp_steps. split_and!; [|by apply Hdrop|done].
    assert (h ∉ (freeable e).*1) as Hni.
    { intros ([h' n] & -> & [Hc _]%H4)%list_elem_of_fmap. simpl in *. congruence. }
    assert (OD.set h (mm_length f) (freeable e) = freeable e ++ [(h, mm_length f)]) as Eset.
    { clear -Hni. induction (freeable e) as [|[h' n'] d IH]; csimpl in *; [done|]. apply not_elem_of_cons in Hni as [? ?].
      rewrite decide_False by done. by rewrite IH. }
    split; simpl; try done.
    + rewrite (weight_update _ _ _ _ _ E), !any_ref_true. lia.
    + rewrite (weight_update _ _ _ _ _ E), Er', has_ref_empty, has_ref_true by done. lia.
    + rewrite Eset, fmap_app, zsum_app. unfold zsum at 2. simpl. lia.
    + intros h' n. rewrite OD.elem_of_set, H4 by done. destruct (decide (h' = h)) as [->|Hne].
      * rewrite lookup_insert_eq, Er', Hl. naive_solver.
      * rewrite lookup_insert_ne by done. naive_solver.
    + by apply OD.NoDup_keys_set.
  - wp_steps. split_and!; [|by apply Hdrop|done]. split; simpl; try done.
    + rewrite (weight_update _ _ _ _ _ E), !any_ref_true. lia.
    + rewrite (weight_update _ _ _ _ _ E), !has_ref_true by done. lia.
    + intros h' n. rewrite H4. destruct (decide (h' = h)) as [->|Hne]; [|by rewrite lookup_insert_ne].
      rewrite E, lookup_insert_eq. naive_solver.
Qed.

Lemma wp_free_each request (P : nat → MultiModalFeatureSpec → bool) ids e : enc_inv e → sized request →
  (∀ i, i ∈ ids → is_Some (mm_features request !! i)) →
  wp (for_each ids (λ i, f ← index (mm_features request) i;
        if P i f then free_encoder_input request i else mret ())) e
    (λ _ e', enc_inv e' ∧ refs_dropped (request_id request) e e').
Proof.
  intros Hi Hsz Hids. apply (wp_for_each (λ _ e', enc_inv e' ∧ refs_dropped (request_id request) e e')).
  - split; [done|apply refs_dropped_refl].
  - intros fin i rest e' -> [Hi' Hd]. destruct (Hids i) as [f Hf]; [set_solver +|]. apply wp_bind. eapply wp_index; [done|].
    destruct (P i f); [|by wp_steps]. eapply wp_mono; [by eapply wp_free_encoder_input|]. intros [] e'' (? & ? & _).
    split; [done|by eapply refs_dropped_trans].
  - done.
Qed.

Lemma cached_ids_lookup request e i : i ∈ get_cached_input_ids request e → is_Some (mm_features request !! i).
Proof.
  unfold get_cached_input_ids. intros [[x Hx] _]%list_elem_of_filter. apply bind_Some in Hx as (f & Hf & _). by exists f.
Qed.

Section iter.
Context (set_iter : list nat → list nat) (set_iter_perm : ∀ l, set_iter l ≡ₚ l).

(** After [free] the request references none of its inputs. *)
Lemma wp_enc_free request e : enc_inv e → sized request →
  wp (free set_iter request) e (λ _ e', enc_inv e' ∧ refs_dropped (request_id request) e e' ∧
    ∀ f r, f ∈ mm_features request → cached e' !! identifier f = Some r → request_id request ∉ r).
Proof.
  intros Hi Hsz. unfold free. do 2 wp_step. set (ids := set_iter (get_cached_input_ids request e)).
  apply (wp_for_each (λ fin e', enc_inv e' ∧ refs_dropped (request_id request) e e' ∧
    ∀ i f r, i ∈ fin → mm_features request !! i = Some f → cached e' !! identifier f = Some r → request_id request ∉ r)).
  - split_and!; [done|apply refs_dropped_refl|set_solver +].
  - intros fin i rest e' Hids (Hi' & Hd & Hg). destruct (cached_ids_lookup request e i) as [f Hf].
    { rewrite <-(set_iter_perm (get_cached_input_ids request e)). fold ids. rewrite Hids. set_solver +. }
    eapply wp_mono; [by eapply wp_free_encoder_input|]. intros [] e'' (Hi'' & Hd' & Hg').
    split_and!; [done|by eapply refs_dropped_trans|]. intros j g r [Hj| ->%list_elem_of_singleton]%elem_of_app Hgj Hr; [|simplify_eq; auto].
    destruct Hd' as (_ & _ & _ & Hd'). specialize (Hd' (identifier g)). rewrite Hr in Hd'.
    destruct (cached e' !! identifier g) as [r0|] eqn:E0; [|done]. specialize (Hg j g r0 Hj Hgj E0). set_solver.
  - intros e' (Hi' & Hd & Hg). split_and!; [done|done|]. intros f r [i Hf]%list_elem_of_lookup Hr.
    apply (Hg i f r); [|done|done]. unfold ids. rewrite set_iter_perm. apply list_elem_of_filter. split.
    + rewrite Hf. simpl. destruct Hd as (_ & _ & _ & Hd). specialize (Hd (identifier f)). rewrite Hr in Hd.
      destruct (cached e !! identifier f); [by eexists|done].
    + apply elem_of_seq. apply lookup_lt_Some in Hf. lia.
Qed.

Lemma wp_free_encoder_inputs encdec request e : enc_inv e → sized request →
  wp (_free_encoder_inputs set_iter encdec request) e (λ _ e', enc_inv e' ∧ refs_dropped (request_id request) e e').
Proof.
  intros Hi Hsz. unfold _free_encoder_inputs. do 2 wp_step.
  apply (wp_free_each request (λ _ f, (encdec && (0 <? num_computed_tokens request)) || (mm_offset f + mm_length f <=? num_computed_tokens request)));
    [done|done|]. intros i Hin. apply (cached_ids_lookup _ e). by rewrite <-(set_iter_perm (get_cached_input_ids request e)).
Qed.
End iter.

(** Only unreferenced entries are evicted. *)
Lemma evicted_unref need e e' ev h : enc_inv e → evicted_to need e e' ev → h ∈ ev.*1 → cached e !! h = Some ∅.
Proof.
  intros Hi Hev ([h' n] & -> & Hin)%list_elem_of_fmap. apply (ei_keys _ Hi h' n).
  rewrite (et_freeable _ _ _ _ Hev). set_solver +Hin.
Qed.

Lemma evicted_free need e e' ev : enc_inv e → enc_inv e' → evicted_to need e e' ev → num_free_slots e ≤ num_free_slots e'.
Proof.
  intros Hi Hi' Hev. pose proof (ei_sum _ Hi) as H1. pose proof (ei_sum _ Hi') as H2. destruct (et_size _ _ _ _ Hev) as [_ E].
  rewrite (et_freeable _ _ _ _ Hev), fmap_app, zsum_app in H1. assert (0 ≤ zsum ev.*2); [|lia].
  apply zsum_nonneg, Forall_fmap, Forall_forall. intros [h n] Hin. simpl.
  assert ((h, n) ∈ freeable e) as [Hc ->]%(ei_keys _ Hi) by (rewrite (et_freeable _ _ _ _ Hev); set_solver +Hin).
  apply (ei_pos _ Hi). by rewrite Hc.
Qed.

(** *** Scheduling encoder inputs *)

Section plan.
Context (request : Request) (computed n0 budget0 : Z).
Context (Hsized : sized request) (Hn0 : 0 ≤ n0).
Context (Hsorted : ∀ j k f g, mm_features request !! j = Some f → mm_features request !! k = Some g → (j ≤ k)%nat → mm_offset f ≤ mm_offset g).
Implicit Types (v : enc_vars) (e : EncoderCacheManager).

(** The inputs chosen so far, in the order of their allocation, and their hashes *)
Definition chosen v : list nat := v_to_schedule v ++ v_external v.
Definition hashes_at (ids : list nat) : list string := omap (λ i, identifier <$> mm_features request !! i) ids.

Lemma hashes_at_app ids ids' : hashes_at (ids ++ ids') = hashes_at ids ++ hashes_at ids'.
Proof. apply omap_app. Qed.

(** The output of an input is available: scheduled now, or cached and referenced. *)
Definition available v e (f : MultiModalFeatureSpec) : Prop :=
  identifier f ∈ v_hashes v ∨ ∃ r, cached e !! identifier f = Some r ∧ request_id request ∈ r.

(** The plan after the inputs before [i] *)
Record plan_ok (i : nat) v e : Prop := {
  pl_inv : enc_inv e;
  pl_valid j : j ∈ chosen v → is_Some (mm_features request !! j);
  pl_hashes : list_to_set (hashes_at (chosen v)) = v_hashes v;
  pl_nodup : NoDup (hashes_at (chosen v));
  pl_new h : h ∈ v_hashes v → cached e !! h = None;
  pl_tokens : v_num_tokens v = zsum (size <$> hashes_at (chosen v));
  pl_room : v_num_tokens v ≤ num_free_slots e;
  pl_budget : v_budget v = budget0 - zsum (size <$> hashes_at (v_to_schedule v));
  pl_budget_pos : 0 ≤ budget0 → 0 ≤ v_budget v;
  pl_available j f : (j < i)%nat → mm_features request !! j = Some f →
    mm_offset f < computed + n0 → computed < mm_offset f + mm_length f → available v e f;
}.

(** Enough inputs are available for the tokens [n]. *)
Definition covered n v e : Prop := 0 < n → ∀ f, f ∈ mm_features request →
  mm_offset f < computed + n → computed < mm_offset f + mm_length f → available v e f.

Lemma plan_covered i v e n : plan_ok i v e → n ≤ n0 →
  (∀ f, mm_features request !! i = Some f → 0 < n → computed + n ≤ mm_offset f) → covered n v e.
Proof.
  intros Hp Hn Hi Hpos f [j Hf]%list_elem_of_lookup Hs He. destruct (decide (j < i)%nat) as [Hlt|Hge].
  - apply (pl_available _ _ _ Hp j f Hlt Hf); lia.
  - destruct (mm_features request !! i) as [g|] eqn:Eg.
    + specialize (Hi g eq_refl Hpos). specialize (Hsorted i j g f Eg Hf ltac:(lia)). lia.
    + apply lookup_ge_None in Eg. apply lookup_lt_Some in Hf. lia.
Qed.

(** Moving on past an input that is available or not needed *)
Lemma plan_skip i v e f : plan_ok i v e → mm_features request !! i = Some f →
  (mm_offset f < computed + n0 → computed < mm_offset f + mm_length f → available v e f) → plan_ok (S i) v e.
Proof.
  intros [] Hf Ha. split; try done. intros j g Hj Hg. destruct (decide (j = i)) as [->|]; [simplify_eq; auto|]. apply (pl_available0 j); [lia|done].
Qed.

(** The cache changes, but entries referenced by the request stay and nothing is added. *)
Lemma plan_cache i v e e' : plan_ok i v e → enc_inv e' → num_free_slots e ≤ num_free_slots e' →
  (∀ h, cached e !! h = None → cached e' !! h = None) →
  (∀ h r, cached e !! h = Some r → request_id request ∈ r → ∃ r', cached e' !! h = Some r' ∧ request_id request ∈ r') →
  plan_ok i v e'.
Proof.
  intros [] Hi Hf Hn Hr. split; try done; [auto|lia|]. intros j f Hj Hfj Hs He.
  destruct (pl_available0 j f Hj Hfj Hs He) as [?|(r & Hc & Hin)]; [by left|right]. by eapply Hr.
Qed.

Lemma plan_evict i v e e' ev need : plan_ok i v e → enc_inv e' → evicted_to need e e' ev → plan_ok i v e'.
Proof.
  intros Hp Hi' Hev. pose proof (pl_inv _ _ _ Hp) as Hi. apply (plan_cache i v e e' Hp Hi').
  - by eapply evicted_free.
  - intros h Hh. rewrite (et_cached _ _ _ _ Hev). by case_decide.
  - intros h r Hr Hin. exists r. split; [|done]. rewrite (et_cached _ _ _ _ Hev), decide_False; [done|].
    intros Hh. rewrite (evicted_unref _ _ _ _ h Hi Hev Hh) in Hr. injection Hr as <-. set_solver.
Qed.

Lemma plan_choose i v v' e f : plan_ok i v e → mm_features request !! i = Some f → let h := identifier f in
  cached e !! h = None → h ∉ v_hashes v → size h + v_num_tokens v ≤ num_free_slots e →
  chosen v' ≡ₚ i :: chosen v → v_hashes v' = {[h]} ∪ v_hashes v → v_num_tokens v' = v_num_tokens v + size h →
  v_budget v' = budget0 - zsum (size <$> hashes_at (v_to_schedule v')) → (0 ≤ budget0 → 0 ≤ v_budget v') →
  plan_ok (S i) v' e.
Proof.
  intros [] Hf h Hc Hh Hroom Hch Ehs Ent Ebud Hbud.
  assert (hashes_at (chosen v') ≡ₚ h :: hashes_at (chosen v)) as Hperm.
  { unfold hashes_at. rewrite Hch. csimpl. by rewrite Hf. }
  split; [done|..|done|done|].
  - intros j. rewrite Hch. intros [->|Hj]%elem_of_cons; [by rewrite Hf|auto].
  - rewrite Hperm. simpl. by rewrite pl_hashes0, Ehs.
  - rewrite Hperm. apply NoDup_cons. split; [|done]. intros Hin. apply Hh. rewrite <-pl_hashes0. by apply elem_of_list_to_set.
  - intros h'. rewrite Ehs. intros [->%elem_of_singleton|?]%elem_of_union; auto.
  - rewrite Hperm. csimpl. rewrite zsum_cons. lia.
  - lia.
  - intros j g Hj Hg Hs He. destruct (decide (j = i)) as [->|].
    + simplify_eq. left. rewrite Ehs. set_solver.
    + destruct (pl_available0 j g ltac:(lia) Hg Hs He) as [?|?]; [left; rewrite Ehs; set_solver|by right].
Qed.

Context (disable : bool) (remote : option (list bool)).
Context (Hremote : ∀ l, remote = Some l → length l = length (mm_features request)).
Abbreviation eloop := (encoder_loop disable false remote request computed).

(** What the loop leaves: a plan that covers the reduced number of tokens *)
Definition plan_result v e : Prop := plan_ok 0 v e ∧ 0 ≤ v_new_tokens v ≤ n0 ∧ covered (v_new_tokens v) v e.

Lemma plan_stop i v e n : plan_ok i v e → 0 ≤ n ≤ n0 →
  (∀ f, mm_features request !! i = Some f → 0 < n → computed + n ≤ mm_offset f) →
  plan_result (mkVars (v_to_schedule v) n (v_budget v) (v_external v) (v_hashes v) (v_num_tokens v)) e.
Proof.
  intros Hp Hn Hi. pose proof (plan_covered i v e n Hp (proj2 Hn) Hi) as Hc. split; [|split; [exact Hn|exact Hc]].
  destruct Hp. split; try done. intros j f Hj. lia.
Qed.

Lemma remote_lookup i f (Q : bool → EncoderCacheManager → Prop) e : mm_features request !! i = Some f → (∀ b, Q b e) →
  wp (match remote with None => mret false | Some l => index l i end) e Q.
Proof.
  intros Hf HQ. destruct remote as [l|] eqn:E; [|by apply wp_ret]. apply lookup_lt_Some in Hf.
  destruct (lookup_lt_is_Some_2 l i) as [b Hb]; [by rewrite (Hremote l)|]. by eapply wp_index.
Qed.

Lemma wp_encoder_loop : ∀ fs i v e, (∀ j, fs !! j = mm_features request !! (i + j)%nat) →
  plan_ok i v e → v_new_tokens v = n0 → wp (eloop fs i v) e plan_result.
Proof.
  induction fs as [|f fs IH]; intros i v e Hfs Hp Hn; simpl.
  { apply wp_ret. destruct v as [ts nt b ex hs k]. simpl in Hn. subst nt. apply (plan_stop i (mkVars ts n0 b ex hs k)); [done|lia|].
    intros f Hf. specialize (Hfs 0%nat). rewrite Nat.add_0_r, Hf in Hfs. done. }
  assert (mm_features request !! i = Some f) as Hf by (specialize (Hfs 0%nat); by rewrite Nat.add_0_r in Hfs).
  assert (∀ j, fs !! j = mm_features request !! (S i + j)%nat) as Hfs'.
  { intros j. specialize (Hfs (S j)). by rewrite Nat.add_succ_r in Hfs. }
  rewrite Hn. destruct (Z.leb_spec (computed + n0) (mm_offset f)) as [Hstop|Hin].
  { apply wp_ret. destruct v as [ts nt b ex hs k]. simpl in Hn. subst nt. apply (plan_stop i (mkVars ts n0 b ex hs k)); [done|lia|].
    intros g Hg _. by simplify_eq. }
  destruct (Z.leb_spec (mm_offset f + mm_length f) computed) as [Hdone|Hneed].
  { apply IH; [done| |done]. apply (plan_skip i v e f Hp Hf). lia. }
  simpl. case_bool_decide as Hh.
  { apply IH; [done| |done]. apply (plan_skip i v e f Hp Hf). intros _ _. by left. }
  apply wp_bind. eapply wp_mono; [by apply (wp_check_and_update request i f), Hf; apply Hp|].
  intros hit e1 (Hi1 & _ & Ef1 & Hc1). destruct (cached e !! identifier f) as [refs|] eqn:Ec.
  { destruct Hc1 as [-> Hc1]. assert (plan_ok i v e1) as Hp1.
    { apply (plan_cache i v e e1 Hp Hi1); [lia|..]; intros h; rewrite Hc1; (destruct (decide (h = identifier f)) as [->|Hne];
        [rewrite lookup_insert_eq|by rewrite lookup_insert_ne by done; eauto]); [congruence|].
      intros r Hr Hin'. eexists. split; [done|]. set_solver. }
    apply IH; [done| |done]. apply (plan_skip i v e1 f Hp1 Hf). intros _ _. right. rewrite Hc1, lookup_insert_eq.
    eexists. split; [done|]. set_solver. }
  destruct Hc1 as [-> ->]. destruct (Hsized f (list_elem_of_lookup_2 _ _ _ Hf)) as [Esz Hszp].
  destruct (disable && (computed <? mm_offset f) && _) eqn:Edis.
  { apply wp_ret. apply andb_prop in Edis as [[_ Hlt%Z.ltb_lt]%andb_prop _]. apply (plan_stop i); [done|lia|].
    intros g Hg _. simplify_eq. lia. }
  apply wp_bind. eapply wp_mono; [by apply (wp_can_allocate request i f), Hf; apply Hp|].
  intros ok e2 (Hi2 & Hr & Hok). destruct ok; simpl.
  2:{ clear Hr. subst e2. apply wp_ret. apply (plan_stop i); [done|..].
      - destruct (Z.ltb_spec computed (mm_offset f)); lia.
      - intros g Hg. simplify_eq. destruct (Z.ltb_spec computed (mm_offset f)); lia. }
  symmetry in Hr. destruct Hok as [ev Hev]. pose proof Hp as [Hi _ _ _ _ _ _ Hbud _ _].
  assert (plan_ok i v e2) as Hp2 by (by eapply plan_evict).
  assert (cached e2 !! identifier f = None) as Hc2.
  { rewrite (et_cached _ _ _ _ Hev). by case_decide. }
  pose proof (et_enough _ _ _ _ Hev) as Henough.
  assert (∀ ids, hashes_at (ids ++ [i]) = hashes_at ids ++ [identifier f]) as Hat.
  { intros ids. rewrite hashes_at_app. unfold hashes_at at 2. csimpl. by rewrite Hf. }
  apply wp_bind. apply (remote_lookup i f); [done|]. intros [].
  - apply IH; [done| |done]. apply (plan_choose i v _ e2 f Hp2 Hf Hc2 Hh); simpl; [lia| |done|lia|done|apply Hp2].
    unfold chosen. simpl. rewrite app_assoc. by rewrite Permutation_app_comm.
  - apply IH; [done| |done]. apply (plan_choose i v _ e2 f Hp2 Hf Hc2 Hh); simpl; [lia| |done|lia| |].
    + unfold chosen. simpl. rewrite <-app_assoc. simpl. by rewrite Permutation_middle.
    + rewrite Hat, fmap_app, zsum_app, Hbud, Esz. unfold zsum at 3. simpl. lia.
    + intros _. apply andb_prop in Hr as [Hr%Z.leb_le _]. lia.
Qed.
End plan.

(** *** Scheduling, then allocating *)

Lemma sizes_nonneg request ids : sized request → 0 ≤ zsum (size <$> hashes_at request ids).
Proof.
  intros Hsz. apply zsum_nonneg, Forall_fmap, Forall_forall. intros h (j & Hj & Hh)%list_elem_of_omap. simpl.
  apply fmap_Some in Hh as (g & Hg & ->). by destruct (Hsz g (list_elem_of_lookup_2 _ _ _ Hg)) as [<- ?].
Qed.

Lemma wp_allocate_all request : sized request → ∀ ids e, enc_inv e → let hs := hashes_at request ids in
  (∀ i, i ∈ ids → is_Some (mm_features request !! i)) → NoDup hs → (∀ h, h ∈ hs → cached e !! h = None) →
  zsum (size <$> hs) ≤ num_free_slots e →
  wp (for_each ids (allocate request)) e (λ _ e', enc_inv e' ∧ num_free_slots e' = num_free_slots e - zsum (size <$> hs) ∧
    ∀ h, cached e' !! h = if decide (h ∈ hs) then Some {[request_id request]} else cached e !! h).
Proof.
  intros Hsz. induction ids as [|i ids IH]; intros e Hi hs Hv Hnd Hnew Hroom.
  { apply wp_ret. unfold zsum. simpl. split_and!; [done|lia|done]. }
  destruct (Hv i) as [f Hf]; [left|]. assert (hs = identifier f :: hashes_at request ids) as Ehs.
  { unfold hs, hashes_at. csimpl. by rewrite Hf. }
  clearbody hs. subst hs. csimpl in Hroom. rewrite zsum_cons in Hroom. apply NoDup_cons in Hnd as [Hnh Hnd].
  pose proof (sizes_nonneg request ids Hsz) as Hpos. cbn [for_each]. apply wp_bind.
  eapply wp_mono; [apply (wp_enc_allocate request i f e Hi Hsz Hf); [apply Hnew; left|lia]|].
  intros [] e1 (Hi1 & Hc1 & _ & En1). eapply wp_mono; [apply (IH e1 Hi1)|].
  - intros j Hj. apply Hv. by right.
  - done.
  - intros h Hh. rewrite Hc1, lookup_insert_ne by (intros <-; done). apply Hnew. by right.
  - lia.
  - intros [] e2 (Hi2 & En2 & Hc2). split_and!; [done|rewrite fmap_cons, zsum_cons; lia|]. intros h. rewrite Hc2, Hc1.
    destruct (decide (h ∈ hashes_at request ids)) as [Hin|Hni].
    + by rewrite decide_True by (by right).
    + destruct (decide (h = identifier f)) as [->|Hne].
      * by rewrite lookup_insert_eq, decide_True by left.
      * rewrite lookup_insert_ne by done. rewrite decide_False; [done|]. rewrite elem_of_cons. naive_solver.
Qed.

Section step.
Context (set_iter : list nat → list nat) (set_iter_perm : ∀ l, set_iter l ≡ₚ l).

(** One request in [Scheduler.schedule]: its inputs are planned, requests preempted to
    make room in the KV cache are freed, and the planned inputs are allocated. *)
Definition encoder_step (disable : bool) (remote : option (list bool)) (request : Request) (computed n budget : Z)
    (preempted : list Request) : ME (list nat * Z * Z * list nat) :=
  plan ← _try_schedule_encoder_inputs disable false remote request computed n budget;
  for_each preempted (free set_iter) ;;
  for_each plan.1.1.1 (allocate request) ;;
  for_each plan.2 (allocate request) ;;
  mret plan.

(** The inputs of a request are sorted by position. *)
Definition sorted_inputs (request : Request) : Prop := ∀ j k f g, mm_features request !! j = Some f →
  mm_features request !! k = Some g → (j ≤ k)%nat → mm_offset f ≤ mm_offset g.

Definition step_legal (remote : option (list bool)) (request : Request) (n : Z) (preempted : list Request) : Prop :=
  sized request ∧ sorted_inputs request ∧ 0 ≤ n ∧ (∀ l, remote = Some l → length l = length (mm_features request)) ∧
  Forall (λ r, sized r ∧ request_id r ≠ request_id request) preempted.

Lemma wp_try_schedule disable remote request computed n budget preempted e : enc_inv e → step_legal remote request n preempted →
  wp (_try_schedule_encoder_inputs disable false remote request computed n budget) e (λ r e', ∃ v,
    r = (v_to_schedule v, v_new_tokens v, v_budget v, v_external v) ∧ plan_result request computed n budget v e').
Proof.
  intros Hi (Hsz & Hso & Hn & Hrem & _). unfold _try_schedule_encoder_inputs.
  set (v0 := mkVars [] n budget [] ∅ 0).
  assert (plan_ok request computed n budget 0 v0 e) as Hp0.
  { split; simpl; try done; [set_solver|constructor|by apply Hi|unfold zsum; simpl; lia|lia]. }
  destruct (bool_decide (n = 0) || negb (has_encoder_inputs request)) eqn:E.
  - wp_steps. exists v0. split; [done|]. split; [done|]. split; [simpl; lia|]. intros Hpos f Hf. simpl in Hpos.
    apply orb_prop in E as [?%bool_decide_eq_true|Hno]; [lia|]. apply negb_true_iff in Hno. unfold has_encoder_inputs, num_encoder_inputs in Hno.
    apply Z.ltb_ge in Hno. destruct (mm_features request); [set_solver +Hf|simpl in Hno; lia].
  - apply wp_bind. eapply wp_mono; [by apply (wp_encoder_loop request computed n budget Hsz Hn Hso disable remote Hrem _ 0 v0 e)|].
    intros v e' Hres. wp_steps. eauto.
Qed.

(** Freeing other requests does not disturb the plan. *)
Lemma wp_free_preempted rid preempted e : enc_inv e → Forall (λ r, sized r ∧ request_id r ≠ rid) preempted →
  wp (for_each preempted (free set_iter)) e (λ _ e', enc_inv e' ∧ num_free_slots e' = num_free_slots e ∧ cache_size e' = cache_size e ∧
    (∀ h, cached e !! h = None → cached e' !! h = None) ∧
    (∀ h r, cached e !! h = Some r → rid ∈ r → ∃ r', cached e' !! h = Some r' ∧ rid ∈ r')).
Proof.
  intros Hi Hall. apply (wp_for_each (λ _ e', enc_inv e' ∧ num_free_slots e' = num_free_slots e ∧ cache_size e' = cache_size e ∧
    (∀ h, cached e !! h = None → cached e' !! h = None) ∧
    (∀ h r, cached e !! h = Some r → rid ∈ r → ∃ r', cached e' !! h = Some r' ∧ rid ∈ r'))); [split_and!; eauto| |done].
  intros fin req rest e' -> (Hi' & H1 & H2 & H3 & H4). apply Forall_app in Hall as [_ [[Hsz Hne] _]%Forall_cons].
  eapply wp_mono; [by apply (wp_enc_free set_iter set_iter_perm req e')|]. intros [] e'' (Hi'' & (G1 & G2 & _ & G3) & _).
  split_and!; [done|congruence|congruence|..].
  - intros h Hh. specialize (G3 h). rewrite (H3 h Hh) in G3. by destruct (cached e'' !! h).
  - intros h r Hr Hin. destruct (H4 h r Hr Hin) as (r' & Hr' & Hin'). specialize (G3 h). rewrite Hr' in G3.
    destruct (cached e'' !! h) as [r''|]; [|done]. exists r''. split; [done|]. set_solver.
Qed.

(** The step succeeds, and every input the scheduled tokens need is in the cache,
    referenced by the request. *)
Lemma wp_encoder_step disable remote request computed n budget preempted e : enc_inv e → step_legal remote request n preempted →
  wp (encoder_step disable remote request computed n budget preempted) e (λ r e', enc_inv e' ∧
    let '(ids, n', budget', ext) := r in
    0 ≤ n' ≤ n ∧ budget' = budget - zsum (size <$> hashes_at request ids) ∧ (0 ≤ budget → 0 ≤ budget') ∧
    NoDup (hashes_at request (ids ++ ext)) ∧
    (0 < n' → ∀ f, f ∈ mm_features request → mm_offset f < computed + n' → computed < mm_offset f + mm_length f →
       ∃ refs, cached e' !! identifier f = Some refs ∧ request_id request ∈ refs)).
Proof.
  intros Hi Hl. pose proof Hl as (Hsz & _ & _ & _ & Hpre). unfold encoder_step. apply wp_bind.
  eapply wp_mono; [by eapply wp_try_schedule|]. intros r e1 (v & -> & Hp & Hn & Hcov). simpl.
  destruct Hp as [Hi1 Hval Hhs Hnd Hnew Htok Hroom Hbud Hbpos _]. apply wp_bind.
  eapply wp_mono; [by apply (wp_free_preempted (request_id request))|]. intros [] e2 (Hi2 & Ef & _ & Hnone & Href).
  assert (∀ h, h ∈ hashes_at request (chosen v) → cached e2 !! h = None) as Hnew2.
  { intros h Hh. apply Hnone, Hnew. rewrite <-Hhs. by apply elem_of_list_to_set. }
  unfold chosen in *. rewrite hashes_at_app in *. apply NoDup_app in Hnd as (Hnd1 & Hdis & Hnd2).
  rewrite fmap_app, zsum_app in Htok.
  pose proof (sizes_nonneg request (v_external v) Hsz) as Hpe.
  apply wp_bind. eapply wp_mono; [apply (wp_allocate_all request Hsz (v_to_schedule v) e2 Hi2)|].
  { intros j Hj. apply Hval. set_solver +Hj. } { done. } { intros h Hh. apply Hnew2. set_solver +Hh. } { lia. }
  intros [] e3 (Hi3 & En3 & Hc3). apply wp_bind. eapply wp_mono; [apply (wp_allocate_all request Hsz (v_external v) e3 Hi3)|].
  { intros j Hj. apply Hval. set_solver +Hj. } { done. }
  { intros h Hh. rewrite Hc3, decide_False by (intros Hh'; by eapply Hdis). apply Hnew2. set_solver +Hh. } { lia. }
  intros [] e4 (Hi4 & En4 & Hc4). wp_steps. split_and!; [done|apply Hn|apply Hn|done|done| |].
  { rewrite hashes_at_app. by apply NoDup_app. }
  intros Hp f Hf Hs He. destruct (Hcov Hp f Hf Hs He) as [Hin|(r & Hr & Hin)].
  - rewrite <-Hhs, elem_of_list_to_set, elem_of_app in Hin. rewrite Hc4, Hc3. repeat case_decide; try (eexists; split; [done|set_solver +]).
    naive_solver.
  - rewrite Hc4, Hc3. repeat case_decide; try (eexists; split; [done|set_solver +]). by eapply Href.
Qed.
End step.

(** ** The cache under the scheduler *)

Inductive enc_reachable (set_iter : list nat → list nat) : EncoderCacheManager → Prop :=
  | er_init n : 0 ≤ n → enc_reachable set_iter (enc_init n)
  | er_step disable remote request computed n budget preempted r e e' : enc_reachable set_iter e →
      step_legal remote request n preempted →
      encoder_step set_iter disable remote request computed n budget preempted e = (Ok r, e') → enc_reachable set_iter e'
  | er_free request e e' : enc_reachable set_iter e → sized request → free set_iter request e = (Ok (), e') → enc_reachable set_iter e'
  | er_free_inputs request e e' : enc_reachable set_iter e → sized request →
      _free_encoder_inputs set_iter false request e = (Ok (), e') → enc_reachable set_iter e'
  | er_freed hs e e' : enc_reachable set_iter e → get_freed_mm_hashes e = (Ok hs, e') → enc_reachable set_iter e'.

Lemma enc_reachable_inv set_iter e : (∀ l, set_iter l ≡ₚ l) → enc_reachable set_iter e → enc_inv e.
Proof.
  intros Hp. induction 1 as [n Hn|disable remote request computed n budget pre r e e' _ IH Hl E|request e e' _ IH Hs E|request e e' _ IH Hs E|hs e e' _ IH E].
  - by apply enc_init_ok.
  - pose proof (wp_encoder_step set_iter Hp disable remote request computed n budget pre e IH Hl) as Hwp. unfold wp in Hwp.
    rewrite E in Hwp. apply Hwp.
  - pose proof (wp_enc_free set_iter Hp request e IH Hs) as Hwp. unfold wp in Hwp. rewrite E in Hwp. apply Hwp.
  - pose proof (wp_free_encoder_inputs set_iter Hp false request e IH Hs) as Hwp. unfold wp in Hwp. rewrite E in Hwp. apply Hwp.
  - injection E as _ <-. destruct IH. by split.
Qed.
End encoder.

(** *** A demonstration: two images of four and three tokens *)

Definition demo_size (h : string) : Z := if decide (h = "cat"%string) then 4 else 3.
Definition demo_mm (rid : string) (computed : Z) (fs : list MultiModalFeatureSpec) : Request :=
  mkRequest rid 0 0 (Some demo_sampling) None None None false 0 RUNNING [] None None 4 (Some []) None 0 [] [] 0 [] computed None
    fs (-1) 0 0 0 [] false.
Definition cat_dog : list MultiModalFeatureSpec := [mkMM "cat" 2 4; mkMM "dog" 8 3].
Definition demo_enc : EncoderCacheManager :=
  (encoder_step (λ l, l) false None (demo_mm "a" 0 cat_dog) 0 12 10 [] (enc_init 8)).2.
Definition demo_enc_freed : EncoderCacheManager := (free (λ l, l) (demo_mm "a" 0 cat_dog) demo_enc).2.

Lemma demo_sized rid computed : sized demo_size (demo_mm rid computed cat_dog).
Proof. intros f Hf. simpl in Hf. repeat (apply elem_of_cons in Hf as [->|Hf]); [done|done|set_solver +Hf]. Qed.

Lemma demo_legal rid : step_legal demo_size None (demo_mm rid 0 cat_dog) 12 [].
Proof.
  split_and!; [apply demo_sized| |lia|done|constructor]. intros [|[|j]] [|[|k]] f g; simpl; intros; simplify_eq; simpl; lia.
Qed.

Lemma demo_enc_reachable : enc_reachable demo_size (λ l, l) demo_enc.
Proof. eapply (er_step _ _ false None (demo_mm "a" 0 cat_dog) 0 12 10 []); [apply (er_init _ _ 8); lia|apply demo_legal|apply run_pair; vm_compute; reflexivity]. Qed.

Lemma demo_enc_freed_reachable : enc_reachable demo_size (λ l, l) demo_enc_freed.
Proof. eapply (er_free _ _ (demo_mm "a" 0 cat_dog)); [apply demo_enc_reachable|apply demo_sized|apply run_pair; vm_compute; reflexivity]. Qed.

(** ** Properties *)

(** The encoder cache accounts for its capacity.  In every state the scheduler can
    reach for a decoder-only model, whatever the order in which Python iterates over
    sets, [num_free_slots] is the capacity minus the sizes of all cached inputs and is
    not negative, [num_freeable_slots] is the capacity minus the sizes of the inputs some
    request references, and [freeable] lists exactly the unreferenced inputs, once each,
    with their sizes. *)
Theorem encoder_slots_accounted size set_iter e : (∀ l, set_iter l ≡ₚ l) → enc_reachable size set_iter e →
  0 ≤ num_free_slots e ≤ num_freeable_slots e ∧
  num_free_slots e + weight size any_ref (cached e) = cache_size e ∧
  num_freeable_slots e + weight size has_ref (cached e) = cache_size e ∧
  NoDup (freeable e).*1 ∧ ∀ h n, (h, n) ∈ freeable e ↔ cached e !! h = Some ∅ ∧ n = size h.
Proof.
  intros Hp Hr. pose proof (enc_reachable_inv _ _ _ Hp Hr) as Hi. pose proof (free_le_freeable _ _ Hi). destruct Hi.
  split_and!; (done || lia).
Qed.

Lemma encoder_slots_accounted_witness :
  0 ≤ num_free_slots demo_enc ≤ num_freeable_slots demo_enc ∧
  num_free_slots demo_enc + weight demo_size any_ref (cached demo_enc) = cache_size demo_enc ∧
  num_freeable_slots demo_enc + weight demo_size has_ref (cached demo_enc) = cache_size demo_enc ∧
  NoDup (freeable demo_enc).*1 ∧ ∀ h n, (h, n) ∈ freeable demo_enc ↔ cached demo_enc !! h = Some ∅ ∧ n = demo_size h.
Proof. apply (encoder_slots_accounted demo_size (λ l, l) demo_enc); [done|exact demo_enc_reachable]. Defined.

(** C21. Scheduling encoder inputs is safe.  In every reachable state of a decoder-only
    model, planning a request's inputs, freeing the requests preempted meanwhile and
    allocating the planned inputs returns normally: [allocate] always finds the room that
    [can_allocate] made.  The number of tokens is only reduced; the compute budget is
    charged with the sizes of the inputs to encode and never overdrawn; no input is
    allocated twice; and every input that overlaps the scheduled tokens is in the cache,
    referenced by the request. *)
Theorem encoder_step_safe size set_iter disable remote request computed n budget preempted e : (∀ l, set_iter l ≡ₚ l) →
  enc_reachable size set_iter e → step_legal size remote request n preempted →
  ∃ ids n' budget' ext e', encoder_step set_iter disable remote request computed n budget preempted e = (Ok (ids, n', budget', ext), e') ∧
    0 ≤ n' ≤ n ∧ budget' = budget - zsum (size <$> hashes_at request ids) ∧ (0 ≤ budget → 0 ≤ budget') ∧
    NoDup (hashes_at request (ids ++ ext)) ∧
    (0 < n' → ∀ f, f ∈ mm_features request → mm_offset f < computed + n' → computed < mm_offset f + mm_length f →
       ∃ refs, cached e' !! identifier f = Some refs ∧ request_id request ∈ refs).
Proof.
  intros Hp Hr%(enc_reachable_inv _ _ _ Hp) Hl.
  destruct (proj1 (wp_ok _ _ _) (wp_encoder_step size set_iter Hp disable remote request computed n budget preempted e Hr Hl))
    as ([[[ids n'] budget'] ext] & e' & E & _ & Hres). exists ids, n', budget', ext, e'. by split.
Qed.

Lemma encoder_step_safe_witness : let request := demo_mm "b" 0 cat_dog in
  ∃ ids n' budget' ext e', encoder_step (λ l, l) false None request 0 12 10 [] demo_enc_freed = (Ok (ids, n', budget', ext), e') ∧
    0 ≤ n' ≤ 12 ∧ budget' = 10 - zsum (demo_size <$> hashes_at request ids) ∧ (0 ≤ 10 → 0 ≤ budget') ∧
    NoDup (hashes_at request (ids ++ ext)) ∧
    (0 < n' → ∀ f, f ∈ mm_features request → mm_offset f < 0 + n' → 0 < mm_offset f + mm_length f →
       ∃ refs, cached e' !! identifier f = Some refs ∧ request_id request ∈ refs).
Proof.
  intros request. apply (encoder_step_safe demo_size (λ l, l) false None request 0 12 10 [] demo_enc_freed); [done|exact demo_enc_freed_reachable|].
  apply demo_legal.
Defined.

(** [can_allocate] is exact and evicts least-recently freed inputs first.  In every
    reachable state it returns normally; it returns true exactly when the input fits the
    compute budget and, with the tokens already planned, the capacity not held by
    referenced inputs; then that much space is free, the evicted inputs are the oldest of
    [freeable], none of them is referenced, no more are evicted than needed, they are
    reported in [freed], and all other inputs stay cached. *)
Theorem can_allocate_exact size set_iter request i f budget planned e : (∀ l, set_iter l ≡ₚ l) →
  enc_reachable size set_iter e → mm_features request !! i = Some f →
  ∃ r e', can_allocate request i budget planned e = (Ok r, e') ∧
    (r = true ↔ mm_length f ≤ budget ∧ mm_length f + planned ≤ num_freeable_slots e) ∧
    (r = false → e' = e) ∧
    (r = true → mm_length f + planned ≤ num_free_slots e' ∧ num_freeable_slots e' = num_freeable_slots e ∧
       ∃ ev, freeable e = ev ++ freeable e' ∧ freed e' = freed e ++ ev.*1 ∧
         (∀ init last, ev = init ++ [last] → num_free_slots e + zsum init.*2 < mm_length f + planned) ∧
         (∀ h, h ∈ ev.*1 → cached e !! h = Some ∅ ∧ cached e' !! h = None) ∧
         (∀ h, h ∉ ev.*1 → cached e' !! h = cached e !! h)).
Proof.
  intros Hp Hr%(enc_reachable_inv _ _ _ Hp) Hf. pose proof (free_le_freeable _ _ Hr) as Hle.
  destruct (proj1 (wp_ok _ _ _) (wp_can_allocate size request i f budget planned e Hr Hf)) as (r & e' & E & _ & Er & Hres).
  exists r, e'. split_and!; [done| | |].
  - rewrite Er, andb_true_iff, orb_true_iff, !Z.leb_le. lia.
  - intros ->. done.
  - intros ->. destruct Hres as [ev Hev]. pose proof Hev as [G1 G2 G3 [_ G4] G5 G6]. split_and!; [done|done|]. exists ev.
    split_and!; [done|done|done|..].
    + intros h Hh. split; [by eapply evicted_unref|]. by rewrite G2, decide_True.
    + intros h Hh. by rewrite G2, decide_False.
Qed.

Lemma can_allocate_exact_witness : let request := demo_mm "b" 0 [mkMM "cow" 0 3] in let f := mkMM "cow" 0 3 in let e := demo_enc_freed in
  ∃ r e', can_allocate request 0 10 0 e = (Ok r, e') ∧
    (r = true ↔ mm_length f ≤ 10 ∧ mm_length f + 0 ≤ num_freeable_slots e) ∧
    (r = false → e' = e) ∧
    (r = true → mm_length f + 0 ≤ num_free_slots e' ∧ num_freeable_slots e' = num_freeable_slots e ∧
       ∃ ev, freeable e = ev ++ freeable e' ∧ freed e' = freed e ++ ev.*1 ∧
         (∀ init last, ev = init ++ [last] → num_free_slots e + zsum init.*2 < mm_length f + 0) ∧
         (∀ h, h ∈ ev.*1 → cached e !! h = Some ∅ ∧ cached e' !! h = None) ∧
         (∀ h, h ∉ ev.*1 → cached e' !! h = cached e !! h)).
Proof.
  intros request f e. apply (can_allocate_exact demo_size (λ l, l) request 0 f 10 0 e); [done|exact demo_enc_freed_reachable|reflexivity].
Defined.

(** An encoder-decoder model: a request's audio is planned and allocated, and freed
    after its first decoded token. *)
Definition audio_round (rid audio : string) (len : Z) : ME () :=
  let request computed := demo_mm rid computed [mkMM audio 0 len] in
  plan ← _try_schedule_encoder_inputs false true None (request 0) 0 2 100;
  for_each plan.1.1.1 (allocate (request 0)) ;;
  _free_encoder_inputs (λ l, l) true (request 1).

(** For encoder-decoder models the accounting of the slots fails.  [_try_schedule_encoder_inputs]
    then skips the lookup of the cache, so a second request with the same audio is charged
    again for the entry that is already cached: after two requests with one audio of 4
    tokens in a cache of 8, no slot is free, all 8 are said to be freeable, but only 4 can
    be reclaimed.  Scheduling an audio of 8 tokens then raises [KeyError] from [popitem]
    on the empty dictionary. *)
Theorem encoder_decoder_cache_raises : let e := ((audio_round "a" "hello" 4 ;; audio_round "b" "hello" 4) (enc_init 8)).2 in
  num_free_slots e = 0 ∧ num_freeable_slots e = 8 ∧ freeable e = [("hello"%string, 4)] ∧
  (audio_round "c" "bye" 8 (enc_init 8)).1 = Ok () ∧ (audio_round "c" "bye" 8 e).1 = Raise KeyError.
Proof. vm_compute. done. Qed.
