(* ===== verification/KVOffload.v ===== *)
(** * vllm/v1/kv_offload: the CPU backend and the LRU and ARC managers

    An offloading manager keeps, per block hash, the status of a block of a backend
    (CPU memory).  The managers are written against the interface [Backend] and proved
    against its laws, which the CPU backend satisfies. *)

From Stdlib Require Import ZArith Lia Lqa QArith Qminmax Qround.
From stdpp Require Import base tactics option list gmap strings.
From S2P Require Import Prelude KVCacheUtils.
Local Open Scope Z_scope.

(** ** Backends *)

(** [ctypes.c_int32] assignment keeps the low 32 bits. *)
Definition c_int32 (z : Z) : Z := (z + 2 ^ 31) mod 2 ^ 32 - 2 ^ 31.

Record BlockStatus := mkStatus { ref_cnt : Z; block_id : Z }.
Definition new_status (id : Z) : BlockStatus := mkStatus (-1) id.
Definition is_ready (b : BlockStatus) : bool := 0 <=? ref_cnt b.
Definition set_ref (z : Z) (b : BlockStatus) : BlockStatus := mkStatus (c_int32 z) (block_id b).

(** [Backend]: [allocate_blocks] returns the block ids of the new statuses; their
    reference count is -1. *)
Class Backend (B : Type) := {
  get_num_free_blocks : B → Z;
  allocate_blocks : list bytes → M B (list Z);
  free_block : Z → M B ();
  block_size : B → Z;
  medium : B → string;
}.

Record CPUBackend := mkCPU {
  cpu_block_size : Z;
  num_blocks : Z;
  num_allocated_blocks : Z;
  allocated_blocks_free_list : list Z;
}.
Definition new_cpu (size n : Z) : CPUBackend := mkCPU size n 0 [].

Definition cpu_num_free (b : CPUBackend) : Z :=
  Z.of_nat (length (allocated_blocks_free_list b)) + num_blocks b - num_allocated_blocks b.

(** [for _ in range(num_fresh_blocks): ...] *)
Fixpoint alloc_fresh (n : nat) : M CPUBackend (list Z) :=
  match n with
  | O => mret []
  | S n' =>
      b ← get;
      modify (λ b, mkCPU (cpu_block_size b) (num_blocks b) (num_allocated_blocks b + 1) (allocated_blocks_free_list b)) ;;
      r ← alloc_fresh n';
      mret (num_allocated_blocks b :: r)
  end.

(** [allocated_blocks_free_list.pop()] takes the last element. *)
Fixpoint alloc_reused (n : nat) : M CPUBackend (list Z) :=
  match n with
  | O => mret []
  | S n' =>
      b ← get;
      let l := allocated_blocks_free_list b in
      match last l with
      | None => raise IndexError
      | Some id =>
          modify (λ b, mkCPU (cpu_block_size b) (num_blocks b) (num_allocated_blocks b) (take (length l - 1) l)) ;;
          r ← alloc_reused n';
          mret (id :: r)
      end
  end.

Definition cpu_allocate (block_hashes : list bytes) : M CPUBackend (list Z) :=
  b ← get;
  let n := Z.of_nat (length block_hashes) in
  let num_fresh_blocks := Z.min n (num_blocks b - num_allocated_blocks b) in
  let num_reused_blocks := n - num_fresh_blocks in
  assert_ (num_reused_blocks <=? Z.of_nat (length (allocated_blocks_free_list b))) ;;
  fresh ← alloc_fresh (Z.to_nat num_fresh_blocks);
  reused ← alloc_reused (Z.to_nat num_reused_blocks);
  mret (fresh ++ reused).

Definition cpu_free (id : Z) : M CPUBackend () :=
  modify (λ b, mkCPU (cpu_block_size b) (num_blocks b) (num_allocated_blocks b) (allocated_blocks_free_list b ++ [id])).

#[export] Instance cpu_backend : Backend CPUBackend := {
  get_num_free_blocks := cpu_num_free;
  allocate_blocks := cpu_allocate;
  free_block := cpu_free;
  block_size := cpu_block_size;
  medium _ := "CPU"%string;
}.

(** What the managers rely on: [ok b cap used] says that [b] has capacity [cap] and that
    exactly the blocks [used] are allocated. *)
Class BackendLaws (B : Type) `{!Backend B} (ok : B → Z → list Z → Prop) : Prop := {
  bl_perm b cap used used' : used ≡ₚ used' → ok b cap used → ok b cap used';
  bl_nodup b cap used : ok b cap used → NoDup used;
  bl_count b cap used : ok b cap used → get_num_free_blocks b = cap - Z.of_nat (length used) ∧ 0 ≤ get_num_free_blocks b;
  bl_alloc b cap used hs : ok b cap used → Z.of_nat (length hs) ≤ get_num_free_blocks b →
    wp (allocate_blocks hs) b (λ ids b', length ids = length hs ∧ ok b' cap (ids ++ used));
  bl_free b cap id used : ok b cap (id :: used) → wp (free_block id) b (λ _ b', ok b' cap used);
}.

(** ** The LRU manager *)

Record OffloadingEvent := mkOffEvent { oe_hashes : list bytes; oe_block_size : Z; oe_medium : string; removed : bool }.
Record PrepareStoreOutput := mkOutput {
  block_hashes_to_store : list bytes;
  store_spec : list Z;
  block_hashes_evicted : list bytes;
}.

Abbreviation statuses := (list (bytes * BlockStatus)).

Module LRU.
Section lru.
Context {B : Type} `{!Backend B}.

Record Manager := mkLRU {
  backend : B;
  blocks : statuses;
  events : option (list OffloadingEvent);
}.

Definition init (b : B) (enable_events : bool) : Manager := mkLRU b [] (if enable_events then Some [] else None).

Definition set_blocks (d : statuses) (m : Manager) : Manager := mkLRU (backend m) d (events m).
Definition on_backend {A} (c : M B A) : M Manager A := zoom backend (λ b m, mkLRU b (blocks m) (events m)) c.

(** [if hashes and self.events is not None: self.events.append(...)] *)
Definition add_event (hashes : list bytes) (rem : bool) : M Manager () :=
  m ← get;
  match events m with
  | Some ev => if bool_decide (hashes = []) then mret () else
    modify (λ m, mkLRU (backend m) (blocks m) (Some (ev ++ [mkOffEvent hashes (block_size (backend m)) (medium (backend m)) rem])))
  | None => mret ()
  end.

Fixpoint lookup (block_hashes : list bytes) (m : Manager) : Z :=
  match block_hashes with
  | [] => 0
  | h :: rest =>
    match OD.get h (blocks m) with
    | Some b => if is_ready b then 1 + lookup rest m else 0
    | None => 0
    end
  end.

(** [self.blocks[h]] *)
Definition get_block (h : bytes) : M Manager BlockStatus :=
  m ← get; match OD.get h (blocks m) with Some b => mret b | None => raise KeyError end.
Definition set_block (h : bytes) (b : BlockStatus) : M Manager () := modify (λ m, set_blocks (OD.set h b (blocks m)) m).

Fixpoint prepare_load (block_hashes : list bytes) : M Manager (list Z) :=
  match block_hashes with
  | [] => mret []
  | h :: rest =>
    b ← get_block h;
    assert_ (is_ready b) ;;
    set_block h (set_ref (ref_cnt b + 1) b) ;;
    ids ← prepare_load rest;
    mret (block_id b :: ids)
  end.

Definition touch (block_hashes : list bytes) : M Manager () :=
  for_each (reverse block_hashes) (λ h, modify (λ m, set_blocks (OD.move_to_end h (blocks m)) m)).

Definition complete_load (block_hashes : list bytes) : M Manager () :=
  for_each block_hashes (λ h,
  b ← get_block h;
  assert_ (0 <? ref_cnt b) ;;
  set_block h (set_ref (ref_cnt b - 1) b)).

(** The loop over [self.blocks.items()] with its [else]: the [n > 0] oldest blocks
  without reader, or [None] *)
Fixpoint scan (items : statuses) (n : Z) : option (list bytes) :=
  match items with
  | [] => None
  | (h, b) :: rest =>
    if ref_cnt b =? 0 then (if n - 1 =? 0 then Some [h] else cons h <$> scan rest (n - 1)) else scan rest n
  end.

(** [self.backend.free(self.blocks.pop(h))] *)
Definition evict (h : bytes) : M Manager () :=
  b ← get_block h;
  modify (λ m, set_blocks (OD.del h (blocks m)) m) ;;
  on_backend (free_block (block_id b)).

Definition prepare_store (block_hashes : list bytes) : M Manager (option PrepareStoreOutput) :=
  m ← get;
  let to_store := filter (λ h, OD.get h (blocks m) = None) block_hashes in
  let num_blocks_to_evict := Z.of_nat (length to_store) - get_num_free_blocks (backend m) in
  match (if 0 <? num_blocks_to_evict then scan (blocks m) num_blocks_to_evict else Some []) with
  | None => mret None
  | Some to_evict =>
    for_each to_evict evict ;;
    add_event to_evict true ;;
    ids ← on_backend (allocate_blocks to_store);
    assert_ (bool_decide (length ids = length to_store)) ;;
    for_each (zip to_store ids) (λ x, set_block x.1 (new_status x.2)) ;;
    mret (Some (mkOutput to_store ids to_evict))
  end.

Fixpoint mark_stored (block_hashes : list bytes) : M Manager (list bytes) :=
  match block_hashes with
  | [] => mret []
  | h :: rest =>
    b ← get_block h;
    if is_ready b then mark_stored rest
    else set_block h (set_ref 0 b) ;; r ← mark_stored rest; mret (h :: r)
  end.

Definition complete_store (block_hashes : list bytes) (success : bool) : M Manager () :=
  stored ← (if success then mark_stored block_hashes else
  for_each block_hashes (λ h,
    b ← get_block h;
    if is_ready b then mret ()
    else on_backend (free_block (block_id b)) ;; modify (λ m, set_blocks (OD.del h (blocks m)) m)) ;;
  mret []);
  add_event stored false.

Definition take_events : M Manager (list OffloadingEvent) :=
  m ← get;
  match events m with
  | None => mret []
  | Some ev => modify (λ m, mkLRU (backend m) (blocks m) (Some [])) ;; mret ev
  end.
End lru.
Arguments Manager : clear implicits.
End LRU.

(** ** The ARC manager *)

Module ARC.
Section arc.
Context {B : Type} `{!Backend B}.

(** [target_t1_size], a Python float, is an exact rational here. *)
Record Manager := mkARC {
  backend : B;
  target_t1_size : Q;
  t1 : statuses;
  t2 : statuses;
  b1 : list (bytes * ());
  b2 : list (bytes * ());
  events : option (list OffloadingEvent);
  cache_capacity : Z;
}.

Definition init (b : B) (enable_events : bool) : Manager :=
  mkARC b 0 [] [] [] [] (if enable_events then Some [] else None) (get_num_free_blocks b).

Definition set_backend (b : B) (m : Manager) : Manager :=
  mkARC b (target_t1_size m) (t1 m) (t2 m) (b1 m) (b2 m) (events m) (cache_capacity m).
Definition set_t (d1 d2 : statuses) (m : Manager) : Manager :=
  mkARC (backend m) (target_t1_size m) d1 d2 (b1 m) (b2 m) (events m) (cache_capacity m).
Definition set_b (g1 g2 : list (bytes * ())) (m : Manager) : Manager :=
  mkARC (backend m) (target_t1_size m) (t1 m) (t2 m) g1 g2 (events m) (cache_capacity m).
Definition set_target (q : Q) (m : Manager) : Manager :=
  mkARC (backend m) q (t1 m) (t2 m) (b1 m) (b2 m) (events m) (cache_capacity m).
Definition set_events (ev : option (list OffloadingEvent)) (m : Manager) : Manager :=
  mkARC (backend m) (target_t1_size m) (t1 m) (t2 m) (b1 m) (b2 m) ev (cache_capacity m).
Definition on_backend {A} (c : M B A) : M Manager A := zoom backend set_backend c.

Definition add_event (hashes : list bytes) (rem : bool) : M Manager () :=
  m ← get;
  match events m with
  | Some ev => if bool_decide (hashes = []) then mret () else
    modify (set_events (Some (ev ++ [mkOffEvent hashes (block_size (backend m)) (medium (backend m)) rem])))
  | None => mret ()
  end.

(** [self.t1.get(h) or self.t2.get(h)] *)
Definition find (h : bytes) (m : Manager) : option BlockStatus :=
  match OD.get h (t1 m) with Some b => Some b | None => OD.get h (t2 m) end.

(** The status object is shared: an update is seen through the dictionary that holds it. *)
Definition update (h : bytes) (b : BlockStatus) : M Manager () :=
  modify (λ m, match OD.get h (t1 m) with
             | Some _ => set_t (OD.set h b (t1 m)) (t2 m) m
             | None => set_t (t1 m) (OD.set h b (t2 m)) m
             end).

Fixpoint lookup (block_hashes : list bytes) (m : Manager) : Z :=
  match block_hashes with
  | [] => 0
  | h :: rest =>
    match find h m with
    | Some b => if is_ready b then 1 + lookup rest m else 0
    | None => 0
    end
  end.

Definition get_block (h : bytes) : M Manager BlockStatus :=
  m ← get; match find h m with Some b => mret b | None => raise AssertionError end.

Fixpoint prepare_load (block_hashes : list bytes) : M Manager (list Z) :=
  match block_hashes with
  | [] => mret []
  | h :: rest =>
    b ← get_block h;
    assert_ (is_ready b) ;;
    update h (set_ref (ref_cnt b + 1) b) ;;
    ids ← prepare_load rest;
    mret (block_id b :: ids)
  end.

(** [d.move_to_end(h)], which raises when the key is absent *)
Definition move_or_raise {V} (h : bytes) (d : list (bytes * V)) : M Manager (list (bytes * V)) :=
  if decide (OD.get h d = None) then raise KeyError else mret (OD.move_to_end h d).

(** [max(1, len(a) / len(b))] *)
Definition delta (a b : list (bytes * ())) : Q :=
  Qmax 1 (inject_Z (Z.of_nat (length a)) / inject_Z (Z.of_nat (length b))).

Definition touch_one (h : bytes) : M Manager () :=
  m ← get;
  match OD.get h (t1 m) with
  | Some b =>
    modify (set_t (OD.del h (t1 m)) (t2 m)) ;;
    if negb (is_ready b) then
      m' ← get;
      d ← move_or_raise h (t1 m');
      modify (set_t d (t2 m'))
    else modify (set_t (OD.del h (t1 m)) (OD.set h b (t2 m)))
  | None =>
  match OD.get h (t2 m) with
  | Some _ => modify (set_t (t1 m) (OD.move_to_end h (t2 m)))
  | None =>
  match OD.get h (b1 m) with
  | Some _ =>
    modify (set_target (Qmin (target_t1_size m + delta (b2 m) (b1 m)) (inject_Z (cache_capacity m)))) ;;
    modify (set_b (OD.move_to_end h (b1 m)) (b2 m))
  | None =>
  match OD.get h (b2 m) with
  | Some _ =>
    modify (set_target (Qmax (target_t1_size m - delta (b1 m) (b2 m)) 0)) ;;
    modify (set_b (b1 m) (OD.move_to_end h (b2 m)))
  | None => mret ()
  end end end end.

Definition touch (block_hashes : list bytes) : M Manager () := for_each (reverse block_hashes) touch_one.

Definition complete_load (block_hashes : list bytes) : M Manager () :=
  for_each block_hashes (λ h,
  b ← get_block h;
  assert_ (0 <? ref_cnt b) ;;
  update h (set_ref (ref_cnt b - 1) b)).

(** The oldest block without reader *)
Fixpoint first_free (items : statuses) : option (bytes * BlockStatus) :=
  match items with
  | [] => None
  | (h, b) :: rest => if ref_cnt b =? 0 then Some (h, b) else first_free rest
  end.

(** [while num_blocks_to_evict > 0], for [n] blocks; [None] when the method returns None *)
Fixpoint evict_loop (n : nat) : M Manager (option (list bytes)) :=
  match n with
  | O => mret (Some [])
  | S n' =>
    m ← get;
    let from_t1 := if Qfloor (target_t1_size m) <=? Z.of_nat (length (t1 m)) then first_free (t1 m) else None in
    match from_t1 with
    | Some (h, b) =>
        modify (set_t (OD.del h (t1 m)) (t2 m)) ;;
        modify (set_b (OD.set h () (b1 m)) (b2 m)) ;;
        on_backend (free_block (block_id b)) ;;
        r ← evict_loop n';
        mret (cons h <$> r)
    | None =>
        match first_free (t2 m) with
        | None => mret None
        | Some (h, b) =>
            modify (set_t (t1 m) (OD.del h (t2 m))) ;;
            modify (set_b (b1 m) (OD.set h () (b2 m))) ;;
            on_backend (free_block (block_id b)) ;;
            r ← evict_loop n';
            mret (cons h <$> r)
        end
    end
  end.

(** [for i in range(len(b) - self.cache_capacity): b.popitem(last=False)] *)
Definition trim (cap : Z) (b : list (bytes * ())) : list (bytes * ()) := drop (Z.to_nat (Z.of_nat (length b) - cap)) b.

Definition insert_new (x : bytes * Z) : M Manager () :=
  modify (λ m, set_t (OD.set x.1 (new_status x.2) (t1 m)) (t2 m) m) ;;
  modify (λ m, set_b (OD.del x.1 (b1 m)) (OD.del x.1 (b2 m)) m).

Definition prepare_store (block_hashes : list bytes) : M Manager (option PrepareStoreOutput) :=
  m ← get;
  let to_store := filter (λ h, OD.get h (t1 m) = None ∧ OD.get h (t2 m) = None) block_hashes in
  if bool_decide (to_store = []) then mret (Some (mkOutput [] [] [])) else
  let num_blocks_to_evict := Z.of_nat (length to_store) - get_num_free_blocks (backend m) in
  evicted ← evict_loop (Z.to_nat num_blocks_to_evict);
  match evicted with
  | None => mret None
  | Some to_evict =>
    modify (λ m, set_b (trim (cache_capacity m) (b1 m)) (trim (cache_capacity m) (b2 m)) m) ;;
    add_event to_evict true ;;
    ids ← on_backend (allocate_blocks to_store);
    assert_ (bool_decide (length ids = length to_store)) ;;
    for_each (zip to_store ids) insert_new ;;
    mret (Some (mkOutput to_store ids to_evict))
  end.

Fixpoint mark_stored (block_hashes : list bytes) : M Manager (list bytes) :=
  match block_hashes with
  | [] => mret []
  | h :: rest =>
    m ← get;
    match find h m with
    | Some b =>
        if is_ready b then mark_stored rest
        else update h (set_ref 0 b) ;; r ← mark_stored rest; mret (h :: r)
    | None => mark_stored rest
    end
  end.

(** [block = self.t1.pop(h, None)], then from [t2]; freed when it was not ready *)
Definition drop_failed (h : bytes) : M Manager () :=
  m ← get;
  let found := find h m in
  modify (match OD.get h (t1 m) with
        | Some _ => set_t (OD.del h (t1 m)) (t2 m)
        | None => set_t (t1 m) (OD.del h (t2 m))
        end) ;;
  match found with
  | Some b => if is_ready b then mret () else on_backend (free_block (block_id b))
  | None => mret ()
  end.

Definition complete_store (block_hashes : list bytes) (success : bool) : M Manager () :=
  stored ← (if success then mark_stored block_hashes else for_each block_hashes drop_failed ;; mret []);
  add_event stored false.

Definition take_events : M Manager (list OffloadingEvent) :=
  m ← get;
  match events m with
  | None => mret []
  | Some ev => modify (set_events (Some [])) ;; mret ev
  end.
End arc.
Arguments Manager : clear implicits.
End ARC.

(** ** The CPU backend satisfies the laws *)

Record cpu_ok (b : CPUBackend) (cap : Z) (used : list Z) : Prop := {
  co_cap : num_blocks b = cap;
  co_alloc : 0 ≤ num_allocated_blocks b ≤ cap;
  co_used : allocated_blocks_free_list b ++ used ≡ₚ seqZ 0 (num_allocated_blocks b);
}.

Lemma cpu_init_ok size n : 0 ≤ n → cpu_ok (new_cpu size n) n [].
Proof. intros Hn. split; simpl; [done|lia|done]. Qed.

Lemma wp_alloc_fresh n b cap used : cpu_ok b cap used → Z.of_nat n ≤ cap - num_allocated_blocks b →
  wp (alloc_fresh n) b (λ r b', length r = n ∧ cpu_ok b' cap (r ++ used) ∧
    allocated_blocks_free_list b' = allocated_blocks_free_list b).
Proof.
  revert b used. induction n as [|n IH]; intros b used Hok Hn; simpl; [by wp_steps|]. do 5 wp_step.
  destruct Hok as [H1 H2 H3]. eapply wp_mono; [apply (IH _ (num_allocated_blocks b :: used))|].
  - split; simpl; [done|lia|]. rewrite <-Permutation_middle, H3.
    rewrite seqZ_app by lia. rewrite Permutation_app_comm. done.
  - simpl. lia.
  - intros r b' (Hl & Hok' & Hf). wp_steps. split_and!; [simpl; lia| |done]. destruct Hok' as [G1 G2 G3].
    split; [done|done|]. rewrite <-G3. simpl. by rewrite Permutation_middle.
Qed.

Lemma wp_alloc_reused n b cap used : cpu_ok b cap used → (n ≤ length (allocated_blocks_free_list b))%nat →
  wp (alloc_reused n) b (λ r b', length r = n ∧ cpu_ok b' cap (r ++ used)).
Proof.
  revert b used. induction n as [|n IH]; intros b used Hok Hn; simpl; [by wp_steps|]. do 2 wp_step. set (l := allocated_blocks_free_list b) in *.
  destruct (last l) as [id|] eqn:El; [|apply last_None in El; rewrite El in Hn; simpl in Hn; lia].
  apply last_Some in El as [l' El]. do 2 wp_step. rewrite El, length_app. simpl.
  replace (length l' + 1 - 1)%nat with (length l') by lia. rewrite take_app_length.
  destruct Hok as [H1 H2 H3]. wp_step. eapply wp_mono; [apply (IH _ (id :: used))|].
  - split; simpl; [done|done|]. rewrite <-H3. fold l. by rewrite El, <-app_assoc.
  - simpl. rewrite El, length_app in Hn. simpl in Hn. lia.
  - intros r b' (Hl & [G1 G2 G3]). wp_steps. split; [simpl; lia|]. split; [done|done|].
    rewrite <-G3. simpl. by rewrite Permutation_middle.
Qed.

#[export] Instance cpu_laws : BackendLaws CPUBackend cpu_ok.
Proof.
  split.
  - intros b cap used used' Hp [H1 H2 H3]. split; [done|done|]. by rewrite <-Hp.
  - intros b cap used [_ _ H3]. assert (NoDup (allocated_blocks_free_list b ++ used)) as Hnd by (rewrite H3; apply NoDup_seqZ).
    by apply NoDup_app in Hnd as (_ & _ & ?).
  - intros b cap used [H1 H2 H3]. apply Permutation_length in H3. rewrite length_app, length_seqZ in H3. simpl. unfold cpu_num_free. lia.
  - intros b cap used hs Hok Hlen. pose proof Hok as [H1 H2 H3]. simpl in *. unfold cpu_allocate, cpu_num_free in *. do 2 wp_step.
    apply wp_bind, wp_assert; [apply Z.leb_le; lia|]. wp_step. eapply wp_mono; [apply (wp_alloc_fresh _ _ cap used Hok); lia|].
    intros fresh b1 (Hl1 & Hok1 & Hf1). wp_step. eapply wp_mono; [apply (wp_alloc_reused _ _ cap _ Hok1); rewrite Hf1; lia|].
    intros reused b2 (Hl2 & [G1 G2 G3]). wp_steps. split; [rewrite length_app; lia|]. split; [done|done|].
    rewrite <-G3. apply Permutation_app_head. rewrite (Permutation_app_comm fresh reused). by rewrite <-app_assoc.
  - intros b cap id used [H1 H2 H3]. simpl. unfold cpu_free. wp_steps. split; simpl; [done|done|]. by rewrite <-app_assoc.
Qed.

(** ** The accounting shared by the two managers *)

Section offload.
Context {B : Type} `{!Backend B} (ok : B → Z → list Z → Prop) `{!BackendLaws B ok}.
Implicit Types (v : statuses) (loads hs : list bytes).

(** A block is being stored and nobody reads it, or its count is that of its readers. *)
Definition in_use_ok loads (h : bytes) (st : BlockStatus) : Prop :=
  (ref_cnt st = -1 ∧ h ∉ loads) ∨ ref_cnt st = occ h loads.

(** [v] is the content of the manager, [loads] the loads under way. *)
Record offload_inv (b : B) (cap : Z) v loads : Prop := {
  of_keys : NoDup v.*1;
  of_ids : ok b cap (block_id <$> v.*2);
  of_ref h st : (h, st) ∈ v → in_use_ok loads h st;
  of_loads h : h ∈ loads → ∃ st, (h, st) ∈ v ∧ is_ready st = true;
}.

Lemma offload_perm b cap v v' loads loads' : v ≡ₚ v' → loads ≡ₚ loads' → offload_inv b cap v loads → offload_inv b cap v' loads'.
Proof.
  intros Hv Hl [H1 H2 H3 H4]. split.
  - by rewrite <-Hv.
  - eapply bl_perm; [|exact H2]. by rewrite Hv.
  - intros h st. rewrite <-Hv. intros Hin. unfold in_use_ok. rewrite <-Hl. by apply H3.
  - intros h. rewrite <-Hl. intros (st & Hin & ?)%H4. exists st. by rewrite <-Hv.
Qed.

Lemma offload_fst h st v : h ∉ v.*1 → (h, st) ∉ v.
Proof. intros Hh Hin. apply Hh, list_elem_of_fmap. by exists (h, st). Qed.

(** Changing the count of one block *)
Lemma offload_update b cap h st st' v loads loads' : offload_inv b cap ((h, st) :: v) loads → block_id st' = block_id st →
  in_use_ok loads' h st' → (∀ h', h' ≠ h → occ h' loads' = occ h' loads) → (h ∈ loads' → is_ready st' = true) →
  offload_inv b cap ((h, st') :: v) loads'.
Proof.
  intros [H1 H2 H3 H4] Hid Hst Hocc Hready. csimpl in *. apply NoDup_cons in H1 as [Hh Hnd].
  assert (∀ h', h' ≠ h → h' ∈ loads' ↔ h' ∈ loads) as Hmem.
  { intros h' Hne. by rewrite <-!occ_pos, Hocc. }
  split; csimpl; [by apply NoDup_cons|by rewrite Hid|..].
  - intros h' st0 [[= -> ->]|Hin]%elem_of_cons; [done|]. assert (h' ≠ h) as Hne by (intros ->; by eapply offload_fst).
    destruct (H3 h' st0 (list_elem_of_further _ _ _ Hin)) as [[? ?]|E]; [left; by rewrite Hmem|right; by rewrite Hocc].
  - intros h' Hh'. destruct (decide (h' = h)) as [->|Hne]; [exists st'; split; [left|auto]|].
    apply Hmem in Hh'; [|done]. destruct (H4 h' Hh') as (st0 & [[= -> ->]|Hin]%elem_of_cons & ?); [done|].
    exists st0. split; [by right|done].
Qed.

Lemma offload_idle b cap h st v loads : offload_inv b cap ((h, st) :: v) loads → ref_cnt st ≤ 0 → h ∉ loads.
Proof.
  intros [_ _ H3 _] Hr. destruct (H3 h st (list_elem_of_here _ _)) as [[_ ?]|E]; [done|]. apply occ_zero.
  pose proof (occ_nonneg h loads). lia.
Qed.

(** Giving a block back *)
Lemma wp_offload_free b cap h st v loads : offload_inv b cap ((h, st) :: v) loads → ref_cnt st ≤ 0 →
  wp (free_block (block_id st)) b (λ _ b', offload_inv b' cap v loads).
Proof.
  intros Hi Hr. pose proof (offload_idle _ _ _ _ _ _ Hi Hr) as Hh. destruct Hi as [H1 H2 H3 H4]. csimpl in *.
  apply NoDup_cons in H1 as [Hk Hnd]. eapply wp_mono; [by apply (bl_free b cap)|]. intros [] b' Hok. split; [done|done|..].
  - intros h' st' Hin. apply H3. by right.
  - intros h' Hin. destruct (H4 h' Hin) as (st' & [[= -> ->]|?]%elem_of_cons & ?); [done|eauto].
Qed.

(** Taking new blocks *)
Lemma wp_offload_alloc b cap v loads hs : offload_inv b cap v loads → NoDup hs → (∀ h, h ∈ hs → h ∉ v.*1) →
  Z.of_nat (length hs) ≤ get_num_free_blocks b →
  wp (allocate_blocks hs) b (λ ids b', length ids = length hs ∧
    offload_inv b' cap (v ++ zip hs (new_status <$> ids)) loads).
Proof.
  intros [H1 H2 H3 H4] Hnd Hnew Hlen. eapply wp_mono; [by apply (bl_alloc b cap _ hs H2)|]. intros ids b' [Hl Hok]. split; [done|].
  assert ((zip hs (new_status <$> ids)).*1 = hs) as E1 by (apply fst_zip; rewrite length_fmap; lia).
  assert ((zip hs (new_status <$> ids)).*2 = new_status <$> ids) as E2 by (apply snd_zip; rewrite length_fmap; lia).
  split.
  - rewrite fmap_app, E1. apply NoDup_app. split_and!; [done|set_solver|done].
  - rewrite !fmap_app, E2. eapply bl_perm; [|exact Hok]. rewrite Permutation_app_comm. f_equiv.
    rewrite <-list_fmap_compose. by rewrite (list_fmap_ext _ id), list_fmap_id by done.
  - intros h st [Hin|Hin]%elem_of_app; [auto|]. left.
    assert (h ∈ hs) as Hh by (rewrite <-E1; apply list_elem_of_fmap; by exists (h, st)).
    assert (st ∈ new_status <$> ids) as (id & -> & _)%list_elem_of_fmap by (rewrite <-E2; apply list_elem_of_fmap; by exists (h, st)).
    split; [done|]. intros (st' & Hst & _)%H4. apply (Hnew h Hh). apply list_elem_of_fmap. by exists (h, st').
  - intros h (st & Hin & ?)%H4. exists st. split; [set_solver|done].
Qed.

Lemma offload_count b cap v loads : offload_inv b cap v loads → get_num_free_blocks b = cap - Z.of_nat (length v) ∧ Z.of_nat (length v) ≤ cap.
Proof. intros [_ H _ _]. destruct (bl_count b cap _ H) as [E ?]. rewrite !length_fmap in E. lia. Qed.

Lemma c_int32_small z : - 2 ^ 31 ≤ z < 2 ^ 31 → c_int32 z = z.
Proof. intros Hz. unfold c_int32. rewrite Z.mod_small by lia. lia. Qed.

Lemma occ_le_length {A} `{EqDecision A} (x : A) (l : list A) : occ x l ≤ Z.of_nat (length l).
Proof. unfold occ. pose proof (length_filter (λ y, y = x) l). lia. Qed.

(** The statuses after one more, or one less, load of [h] *)
Lemma offload_load b cap h st v loads : offload_inv b cap ((h, st) :: v) loads → is_ready st = true →
  Z.of_nat (length loads) + 1 < 2 ^ 31 → offload_inv b cap ((h, set_ref (ref_cnt st + 1) st) :: v) (h :: loads) ∧
  is_ready (set_ref (ref_cnt st + 1) st) = true.
Proof.
  intros Hi Hr Hlen. unfold is_ready in *. apply Z.leb_le in Hr. pose proof (of_ref _ _ _ _ Hi h st (list_elem_of_here _ _)) as Hst.
  assert (ref_cnt st = occ h loads) as E by (destruct Hst as [[? _]|?]; [lia|done]). pose proof (occ_le_length h loads) as Hle.
  pose proof (occ_nonneg h loads). unfold set_ref. rewrite c_int32_small by lia.
  assert ((0 <=? ref_cnt st + 1) = true) as Hrdy by (apply Z.leb_le; lia). split; [|done].
  eapply offload_update; [exact Hi|done| | |done].
  - right. simpl. rewrite occ_cons, decide_True by done. lia.
  - intros h' Hne. rewrite occ_cons, decide_False by done. lia.
Qed.

Lemma offload_unload b cap h st v loads : offload_inv b cap ((h, st) :: v) (h :: loads) → Z.of_nat (length loads) < 2 ^ 31 →
  0 < ref_cnt st ∧ offload_inv b cap ((h, set_ref (ref_cnt st - 1) st) :: v) loads.
Proof.
  intros Hi Hlen. pose proof (of_ref _ _ _ _ Hi h st (list_elem_of_here _ _)) as Hst.
  assert (ref_cnt st = occ h loads + 1) as E.
  { destruct Hst as [[_ Hn]|E]; [exfalso; apply Hn; left|]. rewrite E, occ_cons, decide_True by done. lia. }
  pose proof (occ_le_length h loads). pose proof (occ_nonneg h loads). split; [lia|]. unfold set_ref. rewrite c_int32_small by lia.
  eapply offload_update; [exact Hi|done| | |].
  - right. simpl. lia.
  - intros h' Hne. rewrite occ_cons, decide_False by done. lia.
  - intros _. unfold is_ready. apply Z.leb_le. simpl. lia.
Qed.

(** A block whose store is done *)
Lemma offload_stored b cap h st v loads : offload_inv b cap ((h, st) :: v) loads → is_ready st = false →
  offload_inv b cap ((h, set_ref 0 st) :: v) loads.
Proof.
  intros Hi Hr%Z.leb_gt. pose proof (offload_idle _ _ _ _ _ _ Hi ltac:(lia)) as Hh.
  eapply offload_update; [exact Hi|done|right|done|done]. simpl. rewrite c_int32_small by lia. symmetry. by apply occ_zero.
Qed.
End offload.

(** ** The LRU manager against the laws of its backend *)

Lemma del_filter {K V} `{EqDecision K} (k : K) (d : list (K * V)) : NoDup d.*1 → OD.del k d = filter (λ x, x.1 ≠ k) d.
Proof.
  induction d as [|[k0 v0] d IH]; csimpl; intros Hnd; [done|]. apply NoDup_cons in Hnd as [Hk0 Hnd]. case_decide; subst.
  - rewrite filter_cons_False by naive_solver. symmetry. apply filter_id. intros [k1 v1] Hin E. simpl in E. subst. apply Hk0, list_elem_of_fmap. by exists (k, v1).
  - rewrite filter_cons_True by done. by rewrite IH.
Qed.

(** The hashes that no transfer uses, oldest first *)
Definition idle (v : statuses) : list bytes := (filter (λ x, ref_cnt x.2 = 0) v).*1.

Lemma idle_cons x v : idle (x :: v) = if decide (ref_cnt x.2 = 0) then x.1 :: idle v else idle v.
Proof. unfold idle. rewrite filter_cons. by case_decide. Qed.

Lemma elem_of_idle h v : h ∈ idle v ↔ ∃ st, (h, st) ∈ v ∧ ref_cnt st = 0.
Proof.
  unfold idle. rewrite list_elem_of_fmap. split.
  - intros ([h' st] & -> & [? ?]%list_elem_of_filter). eauto.
  - intros (st & ? & ?). exists (h, st). split; [done|]. by apply list_elem_of_filter.
Qed.

Lemma idle_NoDup v : NoDup v.*1 → NoDup (idle v).
Proof.
  induction v as [|[h st] v IH]; csimpl; intros Hnd; [constructor|]. apply NoDup_cons in Hnd as [Hh Hnd]. rewrite idle_cons. simpl.
  case_decide; [|auto]. apply NoDup_cons. split; [|auto]. intros (st' & Hin & _)%elem_of_idle. apply Hh, list_elem_of_fmap. by exists (h, st').
Qed.

(** The search for blocks to evict takes the oldest idle ones, or fails when there are too few. *)
Lemma scan_spec v : ∀ n, 0 < n → LRU.scan v n = if decide (n ≤ Z.of_nat (length (idle v))) then Some (take (Z.to_nat n) (idle v)) else None.
Proof.
  induction v as [|[h st] v IH]; intros n Hn; [simpl; rewrite decide_False by lia; done|].
  rewrite idle_cons. simpl. destruct (decide (ref_cnt st = 0)) as [E|E].
  - rewrite (proj2 (Z.eqb_eq _ _) E). destruct (Z.eqb_spec (n - 1) 0).
    + rewrite decide_True by (simpl; lia). by replace (Z.to_nat n) with 1%nat by lia.
    + rewrite IH by lia. replace (Z.to_nat n) with (S (Z.to_nat (n - 1))) by lia. cbn [length take].
      repeat case_decide; (done || lia).
  - rewrite (proj2 (Z.eqb_neq _ _) E). by apply IH.
Qed.

Section lru_proofs.
Context {B : Type} `{!Backend B} (ok : B → Z → list Z → Prop) `{!BackendLaws B ok} (cap : Z).
Implicit Types (m : LRU.Manager B) (loads hs : list bytes).

Definition lru_inv m loads : Prop := offload_inv ok (LRU.backend m) cap (LRU.blocks m) loads.

Lemma wp_lru_get h st m (Q : BlockStatus → LRU.Manager B → Prop) : OD.get h (LRU.blocks m) = Some st → Q st m → wp (LRU.get_block h) m Q.
Proof. intros E HQ. unfold LRU.get_block. wp_step. wp_step. rewrite E. by apply wp_ret. Qed.

Lemma lru_get_Some m loads h st : lru_inv m loads → (h, st) ∈ LRU.blocks m ↔ OD.get h (LRU.blocks m) = Some st.
Proof. intros [Hnd _ _ _]. by rewrite OD.get_Some. Qed.

(** A change of one status that keeps the accounting *)
Lemma lru_set m loads loads' h st st' : OD.get h (LRU.blocks m) = Some st →
  (∀ v, offload_inv ok (LRU.backend m) cap ((h, st) :: v) loads → offload_inv ok (LRU.backend m) cap ((h, st') :: v) loads') →
  lru_inv m loads → lru_inv (LRU.set_blocks (OD.set h st' (LRU.blocks m)) m) loads'.
Proof.
  intros E Hv Hi. unfold lru_inv. simpl. eapply offload_perm; [done|symmetry; by eapply OD.set_perm|done|].
  apply Hv. eapply offload_perm; [done|by apply OD.get_del_perm|done|exact Hi].
Qed.

Lemma lru_split m loads h st : OD.get h (LRU.blocks m) = Some st → lru_inv m loads →
  offload_inv ok (LRU.backend m) cap ((h, st) :: OD.del h (LRU.blocks m)) loads.
Proof. intros E Hi. eapply offload_perm; [done|by apply OD.get_del_perm|done|exact Hi]. Qed.
Arguments lru_split {m loads h st}.

(** *** Loads *)

Definition ready m h : Prop := ∃ st, OD.get h (LRU.blocks m) = Some st ∧ is_ready st = true.

Lemma ready_set m h h' st' : is_ready st' = true → ready m h' → ready (LRU.set_blocks (OD.set h st' (LRU.blocks m)) m) h'.
Proof. intros Hr (st & E & ?). unfold ready. simpl. rewrite OD.get_set. case_decide; eauto. Qed.

(** The hash stays at the same place of the backend. *)
Definition kept m m' h : Prop := ∀ st, OD.get h (LRU.blocks m) = Some st →
  ∃ st', OD.get h (LRU.blocks m') = Some st' ∧ block_id st' = block_id st.

Lemma kept_trans m1 m2 m3 h : kept m1 m2 h → kept m2 m3 h → kept m1 m3 h.
Proof. intros H1 H2 st (st' & E & <-)%H1. destruct (H2 st' E) as (st2 & ? & <-). eauto. Qed.
Lemma kept_set m h st st' h' : OD.get h (LRU.blocks m) = Some st → block_id st' = block_id st →
  kept m (LRU.set_blocks (OD.set h st' (LRU.blocks m)) m) h'.
Proof. intros E Hid st0 E0. simpl. rewrite OD.get_set. case_decide; [|eauto]. subst. exists st'. split; congruence. Qed.

Lemma wp_lru_prepare_load hs : ∀ m loads, lru_inv m loads → (∀ h, h ∈ hs → ready m h) →
  Z.of_nat (length loads) + Z.of_nat (length hs) < 2 ^ 31 →
  wp (LRU.prepare_load hs) m (λ ids m', lru_inv m' (hs ++ loads) ∧
    Forall2 (λ h id, ∃ st, OD.get h (LRU.blocks m) = Some st ∧ block_id st = id) hs ids ∧ ∀ h, kept m m' h).
Proof.
  induction hs as [|h hs IH]; intros m loads Hi Hr Hlen; cbn [LRU.prepare_load].
  { wp_steps. split_and!; [done|constructor|]. intros h st. eauto. }
  destruct (Hr h (list_elem_of_here _ _)) as (st & E & Hst). cbn [length] in Hlen.
  apply wp_bind, (wp_lru_get _ st); [done|]. apply wp_bind, wp_assert; [done|].
  unfold LRU.set_block. do 3 wp_step.
  destruct (offload_load ok _ cap h st _ loads (lru_split E Hi) Hst ltac:(lia)) as [_ Hst'].
  eapply wp_mono; [apply (IH _ (h :: loads))|].
  - eapply lru_set; [exact E| |exact Hi]. intros v Hv. by apply offload_load; [|done|lia].
  - intros h' Hh'. apply ready_set; [done|]. apply Hr. by right.
  - cbn [length]. lia.
  - intros ids m' (Hi' & Hids & Hk). apply wp_ret. split_and!; [| |intros h'; eapply kept_trans; [|apply Hk]; by apply (kept_set _ h st)].
    + eapply offload_perm; [done|done| |exact Hi']. simpl. by rewrite <-Permutation_middle.
    + constructor; [eauto|]. eapply Forall2_impl; [exact Hids|]. simpl. intros h' id (st0 & E0 & <-). rewrite OD.get_set in E0.
      case_decide; [|eauto]. subst. injection E0 as <-. eauto.
Qed.

Lemma wp_lru_complete_load hs : ∀ m loads, lru_inv m (hs ++ loads) → Z.of_nat (length (hs ++ loads)) < 2 ^ 31 →
  wp (LRU.complete_load hs) m (λ _ m', lru_inv m' loads ∧ ∀ h, kept m m' h).
Proof.
  unfold LRU.complete_load. induction hs as [|h hs IH]; intros m loads Hi Hlen; cbn [for_each].
  { wp_steps. split; [done|]. intros h st. eauto. }
  destruct (of_loads _ _ _ _ _ Hi h (list_elem_of_here _ _)) as (st & Hin & _). rewrite lru_get_Some in Hin by done.
  cbn [length app] in Hlen. destruct (offload_unload ok _ cap h st _ (hs ++ loads) (lru_split Hin Hi) ltac:(lia)) as [Hpos _].
  apply wp_bind. apply wp_bind, (wp_lru_get _ st); [done|]. apply wp_bind, wp_assert; [by apply Z.ltb_lt|].
  unfold LRU.set_block. wp_step. eapply wp_mono; [apply IH|].
  - eapply lru_set; [exact Hin| |exact Hi]. intros v Hv. apply (offload_unload ok _ cap h st v (hs ++ loads) Hv). lia.
  - lia.
  - intros [] m' (? & Hk). split; [done|]. intros h'. eapply kept_trans; [|apply Hk]; by apply (kept_set _ h st).
Qed.

(** Every hash of [touch] keeps its status; only the order changes. *)
Lemma wp_lru_touch hs : ∀ m loads, lru_inv m loads → wp (LRU.touch hs) m (λ _ m', lru_inv m' loads ∧ LRU.blocks m' ≡ₚ LRU.blocks m).
Proof.
  unfold LRU.touch. generalize (reverse hs). clear hs. intros hs. induction hs as [|h hs IH]; intros m loads Hi; cbn [for_each]; [by wp_steps|].
  do 2 wp_step. eapply wp_mono; [apply (IH _ loads)|].
  - eapply offload_perm; [done|symmetry; apply OD.move_to_end_perm|done|exact Hi].
  - intros [] m' (? & Hp). split; [done|]. rewrite Hp. apply OD.move_to_end_perm.
Qed.

(** *** Stores *)

Lemma wp_lru_evict h st m loads : OD.get h (LRU.blocks m) = Some st → ref_cnt st ≤ 0 → lru_inv m loads →
  wp (LRU.evict h) m (λ _ m', lru_inv m' loads ∧ LRU.blocks m' = filter (λ x, x.1 ≠ h) (LRU.blocks m) ∧ length (LRU.blocks m) = S (length (LRU.blocks m'))).
Proof.
  intros E Hr Hi. apply wp_bind, (wp_lru_get _ st); [done|]. unfold LRU.on_backend. do 3 wp_step.
  eapply wp_mono; [eapply wp_offload_free; [done|exact (lru_split E Hi)|done]|]. intros [] b' Hi'.
  split_and!; [done|apply del_filter, Hi|]. simpl. by rewrite (Permutation_length (OD.get_del_perm h st _ E)).
Qed.

Lemma wp_lru_evict_all hs : ∀ m loads, NoDup hs → (∀ h, h ∈ hs → h ∈ idle (LRU.blocks m)) → lru_inv m loads →
  wp (for_each hs LRU.evict) m (λ _ m', lru_inv m' loads ∧ LRU.blocks m' = filter (λ x, x.1 ∉ hs) (LRU.blocks m) ∧
    length (LRU.blocks m) = (length hs + length (LRU.blocks m'))%nat).
Proof.
  induction hs as [|h hs IH]; intros m loads Hnd Hidle Hi; cbn [for_each].
  { wp_step. split_and!; [done| |done]. symmetry. apply filter_id. intros x _. apply not_elem_of_nil. }
  apply NoDup_cons in Hnd as [Hh Hnd]. destruct (proj1 (elem_of_idle _ _) (Hidle h (list_elem_of_here _ _))) as (st & Hin & Hr).
  rewrite lru_get_Some in Hin by done. apply wp_bind. eapply wp_mono; [apply (wp_lru_evict h st); [done|lia|done]|].
  intros [] m1 (Hi1 & E1 & Ev1). eapply wp_mono; [apply (IH m1 loads Hnd)|].
  - intros h' Hh'. destruct (proj1 (elem_of_idle _ _) (Hidle h' (list_elem_of_further _ _ _ Hh'))) as (st' & Hin' & Hr').
    apply elem_of_idle. exists st'. rewrite E1, list_elem_of_filter. split_and!; [|done|done]. simpl. by intros ->.
  - done.
  - intros [] m2 (Hi2 & E2 & Ev2). split_and!; [done| |simpl; lia]. rewrite E2, E1, list_filter_filter.
    apply filter_ext_in. intros x _. rewrite not_elem_of_cons. tauto.
Qed.

Lemma wp_lru_add_event hs rem m (Q : () → LRU.Manager B → Prop) :
  (∀ ev, Q () (LRU.mkLRU (LRU.backend m) (LRU.blocks m) ev)) → wp (LRU.add_event hs rem) m Q.
Proof.
  intros HQ. unfold LRU.add_event. wp_step. wp_step. assert (Q () m) by (destruct m; apply HQ).
  destruct (LRU.events m); [|by wp_steps]. case_bool_decide; [by wp_steps|]. wp_step. apply HQ.
Qed.

(** [self.blocks[h] = block] for new hashes appends them. *)
Lemma wp_lru_insert hs : ∀ ids m (Q : () → LRU.Manager B → Prop), NoDup hs → (∀ h, h ∈ hs → h ∉ (LRU.blocks m).*1) → length ids = length hs →
  Q () (LRU.set_blocks (LRU.blocks m ++ zip hs (new_status <$> ids)) m) →
  wp (for_each (zip hs ids) (λ x, LRU.set_block x.1 (new_status x.2))) m Q.
Proof.
  induction hs as [|h hs IH]; intros [|id ids] m Q Hnd Hnew Hlen HQ; try done.
  { apply wp_ret. cbn in HQ. rewrite app_nil_r in HQ. by destruct m. }
  apply NoDup_cons in Hnd as [Hh Hnd]. cbn [zip for_each]. apply wp_bind. unfold LRU.set_block at 1. wp_step.
  assert (OD.get h (LRU.blocks m) = None) as E by (apply OD.get_None, Hnew; left).
  rewrite (OD.set_new _ _ _ E). apply IH; [done| |simpl in Hlen; lia|].
  - intros h' Hh'. simpl. rewrite fmap_app, elem_of_app. intros [?|?%list_elem_of_singleton]; [|simpl in *; by subst].
    apply (Hnew h'); [by right|done].
  - simpl. rewrite <-app_assoc. apply HQ.
Qed.

(** The hashes a store really needs, and how many evictions they take *)
Definition missing m hs : list bytes := filter (λ h, OD.get h (LRU.blocks m) = None) hs.
Definition to_evict m hs : list bytes :=
  take (Z.to_nat (Z.of_nat (length (missing m hs)) - get_num_free_blocks (LRU.backend m))) (idle (LRU.blocks m)).
Definition enough m hs : Prop :=
  Z.of_nat (length (missing m hs)) - get_num_free_blocks (LRU.backend m) ≤ Z.of_nat (length (idle (LRU.blocks m))).

#[export] Instance enough_dec m hs : Decision (enough m hs).
Proof. unfold enough. apply _. Defined.

Lemma lru_scan m hs : (if 0 <? Z.of_nat (length (missing m hs)) - get_num_free_blocks (LRU.backend m)
    then LRU.scan (LRU.blocks m) (Z.of_nat (length (missing m hs)) - get_num_free_blocks (LRU.backend m)) else Some []) =
  if decide (enough m hs) then Some (to_evict m hs) else None.
Proof.
  unfold enough, to_evict. set (n := Z.of_nat (length (missing m hs)) - _). destruct (Z.ltb_spec 0 n); [by apply scan_spec|].
  rewrite decide_True by lia. by replace (Z.to_nat n) with 0%nat by lia.
Qed.

Lemma lru_store_refused m hs : ¬ enough m hs → LRU.prepare_store hs m = (Ok None, m).
Proof.
  intros Hn. pose proof (lru_scan m hs) as E. rewrite decide_False in E by done. unfold missing in E.
  unfold LRU.prepare_store, mbind, M_bind, get. by rewrite E.
Qed.

Lemma wp_lru_prepare_store hs m loads : lru_inv m loads → NoDup hs → enough m hs →
  wp (LRU.prepare_store hs) m (λ r m', ∃ ids, r = Some (mkOutput (missing m hs) ids (to_evict m hs)) ∧
    length ids = length (missing m hs) ∧
    LRU.blocks m' = filter (λ x, x.1 ∉ to_evict m hs) (LRU.blocks m) ++ zip (missing m hs) (new_status <$> ids) ∧ lru_inv m' loads).
Proof.
  intros Hi Hnd He. pose proof (lru_scan m hs) as E. rewrite decide_True in E by done.
  unfold LRU.prepare_store. do 2 wp_step. fold (missing m hs). rewrite E. apply wp_bind.
  pose proof (idle_NoDup (LRU.blocks m) ltac:(apply Hi)) as Hnidle.
  assert (NoDup (to_evict m hs)) as Hnev by (apply (NoDup_app (to_evict m hs) (drop (Z.to_nat (Z.of_nat (length (missing m hs)) - get_num_free_blocks (LRU.backend m))) (idle (LRU.blocks m)))); unfold to_evict; by rewrite take_drop).
  eapply wp_mono; [apply (wp_lru_evict_all _ _ loads Hnev); [intros h; apply subseteq_take|done]|].
  intros [] m1 (Hi1 & E1 & Hl1). apply wp_bind, wp_lru_add_event. intros ev. unfold LRU.on_backend. do 2 wp_step.
  assert (∀ h, h ∈ missing m hs → h ∉ (LRU.blocks m1).*1) as Hnew.
  { intros h [Hh%OD.get_None _]%list_elem_of_filter. rewrite E1. intros (x & -> & [_ Hx]%list_elem_of_filter)%list_elem_of_fmap.
    apply Hh, list_elem_of_fmap. by exists x. }
  assert (NoDup (missing m hs)) as Hnm by by apply NoDup_filter.
  eapply wp_mono; [apply (wp_offload_alloc ok _ cap _ loads (missing m hs) Hi1 Hnm Hnew)|].
  { destruct (offload_count ok _ _ _ _ Hi), (offload_count ok _ _ _ _ Hi1). unfold enough, to_evict in *. rewrite length_take in Hl1. lia. }
  intros ids b' [Hlen Hi']. apply wp_bind, wp_assert; [by apply bool_decide_eq_true|]. apply wp_bind, wp_lru_insert; [done|done|done|].
  apply wp_ret. exists ids. split_and!; [done|done|by rewrite <-E1|]. exact Hi'.
Qed.

Lemma kept_perm m m' loads h : lru_inv m loads → LRU.blocks m' ≡ₚ LRU.blocks m → kept m m' h.
Proof.
  intros [Hnd _ _ _] Hp st E. exists st. split; [|done]. apply OD.get_Some in E; [|done]. apply OD.get_Some; [by rewrite Hp|by rewrite Hp].
Qed.

Lemma wp_lru_mark_stored hs : ∀ m loads, lru_inv m loads → (∀ h, h ∈ hs → h ∈ (LRU.blocks m).*1) →
  wp (LRU.mark_stored hs) m (λ _ m', lru_inv m' loads ∧ (∀ h, kept m m' h) ∧ (∀ h, ready m h → ready m' h) ∧ (∀ h, h ∈ hs → ready m' h)).
Proof.
  induction hs as [|h hs IH]; intros m loads Hi Hin; cbn [LRU.mark_stored].
  { wp_steps. split_and!; [done| |done|by intros h ?%not_elem_of_nil]. intros h st. eauto. }
  destruct (OD.get h (LRU.blocks m)) as [st|] eqn:E; [|exfalso; apply OD.get_None in E; apply E, Hin; left].
  apply wp_bind, (wp_lru_get _ st); [done|]. destruct (is_ready st) eqn:Er.
  - eapply wp_mono; [apply (IH m loads Hi); intros; apply Hin; by right|]. intros r m' (? & ? & Hm & Hs). split_and!; [done|done|done|].
    intros h' [->|?]%elem_of_cons; [|auto]. apply Hm. by exists st.
  - unfold LRU.set_block. do 3 wp_step. eapply wp_mono; [apply (IH _ loads)|].
    + eapply lru_set; [exact E| |exact Hi]. intros v Hv. by apply offload_stored.
    + intros h' Hh'. simpl. rewrite OD.keys_set. assert (h' ∈ (LRU.blocks m).*1) by (apply Hin; by right). case_decide; set_solver.
    + intros r m' (Hi' & Hk & Hm & Hs). apply wp_ret. split_and!; [done| | |].
      * intros h'. eapply kept_trans; [|apply Hk]; by apply (kept_set _ h st).
      * intros h' Hr. apply Hm, ready_set; done.
      * intros h' [->|?]%elem_of_cons; [|auto]. apply Hm. exists (set_ref 0 st). split; [|done]. simpl. by rewrite OD.get_set, decide_True.
Qed.

(** A failed store gives the blocks back that were not ready. *)
Lemma wp_lru_drop hs : ∀ m loads, lru_inv m loads → NoDup hs → (∀ h, h ∈ hs → h ∈ (LRU.blocks m).*1) →
  wp (for_each hs (λ h, b ← LRU.get_block h; if is_ready b then mret ()
      else LRU.on_backend (free_block (block_id b)) ;; modify (λ m, LRU.set_blocks (OD.del h (LRU.blocks m)) m))) m
    (λ _ m', lru_inv m' loads ∧ (∀ h, h ∉ hs ∨ ready m h → OD.get h (LRU.blocks m') = OD.get h (LRU.blocks m)) ∧
      (∀ h, h ∈ hs → ready m h ∨ OD.get h (LRU.blocks m') = None)).
Proof.
  induction hs as [|h hs IH]; intros m loads Hi Hnd Hin; cbn [for_each].
  { wp_steps. split_and!; [done|done|by intros h ?%not_elem_of_nil]. }
  apply NoDup_cons in Hnd as [Hh Hnd].
  destruct (OD.get h (LRU.blocks m)) as [st|] eqn:E; [|exfalso; apply OD.get_None in E; apply E, Hin; left].
  apply wp_bind, wp_bind, (wp_lru_get _ st); [done|]. destruct (is_ready st) eqn:Er.
  { wp_step. eapply wp_mono; [apply (IH m loads Hi Hnd); intros; apply Hin; by right|]. intros [] m' (? & Hs & Hd). split_and!; [done| |].
    - intros h' Hh'. apply Hs. destruct Hh' as [?|?]; [left; set_solver|auto].
    - intros h' [->|?]%elem_of_cons; [|auto]. left. by exists st. }
  unfold LRU.on_backend. do 2 wp_step. eapply wp_mono; [eapply (wp_offload_free ok _ cap h st _ loads); [exact (lru_split E Hi)|apply Z.leb_gt in Er; lia]|].
  intros [] b' Hi'. wp_step. assert (NoDup (LRU.blocks m).*1) as Hk by apply Hi.
  eapply wp_mono; [apply (IH _ loads)|]; simpl.
  - exact Hi'.
  - done.
  - intros h' Hh'. rewrite OD.keys_del by done. apply list_elem_of_filter. split; [by intros ->|]. apply Hin. by right.
  - intros [] m' (? & Hs & Hd). assert (∀ h', h' ≠ h → ready (LRU.set_blocks (OD.del h (LRU.blocks m)) (LRU.mkLRU b' (LRU.blocks m) (LRU.events m))) h' ↔ ready m h') as Hr.
    { intros h' Hne. unfold ready. simpl. by rewrite OD.get_del, decide_False by done. }
    split_and!; [done| |].
    + intros h' Hh'. destruct (decide (h' = h)) as [->|Hne].
      { destruct Hh' as [Hn|(st' & E' & ?)]; [exfalso; apply Hn; left|congruence]. }
      rewrite Hs by (rewrite Hr by done; set_solver). by rewrite OD.get_del, decide_False by done.
    + intros h' Hh'. destruct (decide (h' = h)) as [->|Hne].
      { right. rewrite Hs by (by left). by rewrite OD.get_del, decide_True by done. }
      rewrite <-Hr by done. apply Hd. set_solver.
Qed.

Lemma wp_lru_complete_store hs success m loads : lru_inv m loads → NoDup hs → (∀ h, h ∈ hs → h ∈ (LRU.blocks m).*1) →
  wp (LRU.complete_store hs success) m (λ _ m', lru_inv m' loads ∧ (∀ h, ready m h → kept m m' h) ∧
    if success then ∀ h, h ∈ hs → ready m' h else ∀ h, h ∈ hs → ready m h ∨ OD.get h (LRU.blocks m') = None).
Proof.
  intros Hi Hnd Hin. unfold LRU.complete_store. apply wp_bind. destruct success.
  - eapply wp_mono; [by apply (wp_lru_mark_stored hs m loads)|]. intros r m' (? & Hk & _ & ?). apply wp_lru_add_event. intros ev. split_and!; [done|intros h _; apply Hk|done].
  - apply wp_bind. eapply wp_mono; [by apply (wp_lru_drop hs m loads)|]. intros [] m' (? & Hs & ?). apply wp_ret, wp_lru_add_event. intros ev.
    split_and!; [done| |done]. intros h Hr st E. exists st. split; [|done]. cbn [LRU.blocks]. rewrite Hs by auto. done.
Qed.

Lemma lru_lookup_ready hs m : LRU.lookup hs m = Z.of_nat (length hs) → ∀ h, h ∈ hs → ready m h.
Proof.
  assert (∀ hs, LRU.lookup hs m ≤ Z.of_nat (length hs)) as Hle.
  { clear hs. induction hs as [|h hs IH]; simpl; [lia|]. destruct (OD.get h (LRU.blocks m)) as [st|]; [destruct (is_ready st)|]; lia. }
  induction hs as [|h hs IH]; cbn [LRU.lookup length]; intros Hl h' Hin; [by apply not_elem_of_nil in Hin|].
  pose proof (Hle hs). destruct (OD.get h (LRU.blocks m)) as [st|] eqn:E; [destruct (is_ready st) eqn:Er|]; [|lia|lia].
  apply elem_of_cons in Hin as [->|Hin]; [by exists st|]. apply IH; [lia|done].
Qed.

(** *** The manager under its callers *)

Inductive offload_op :=
  | PrepareLoad (hs : list bytes)
  | CompleteLoad (hs : list bytes)
  | Touch (hs : list bytes)
  | PrepareStore (hs : list bytes)
  | CompleteStore (hs : list bytes) (success : bool)
  | TakeEvents.

Definition lru_run (op : offload_op) : M (LRU.Manager B) () :=
  match op with
  | PrepareLoad hs => LRU.prepare_load hs ;; mret ()
  | CompleteLoad hs => LRU.complete_load hs
  | Touch hs => LRU.touch hs
  | PrepareStore hs => LRU.prepare_store hs ;; mret ()
  | CompleteStore hs success => LRU.complete_store hs success
  | TakeEvents => LRU.take_events ;; mret ()
  end.

(** What a caller respects: it loads what [lookup] found, completes the loads it started,
    and completes stores of hashes the manager holds. *)
Definition lru_legal m loads (op : offload_op) loads' : Prop :=
  match op with
  | PrepareLoad hs => LRU.lookup hs m = Z.of_nat (length hs) ∧ loads' = hs ++ loads ∧ Z.of_nat (length loads') < 2 ^ 31
  | CompleteLoad hs => loads ≡ₚ hs ++ loads'
  | Touch _ | TakeEvents => loads' = loads
  | PrepareStore hs => NoDup hs ∧ loads' = loads
  | CompleteStore hs _ => NoDup hs ∧ (∀ h, h ∈ hs → h ∈ (LRU.blocks m).*1) ∧ loads' = loads
  end.

Inductive lru_reachable : LRU.Manager B → list bytes → Prop :=
  | lru_start b ev : ok b cap [] → lru_reachable (LRU.init b ev) []
  | lru_step m loads op loads' m' : lru_reachable m loads → lru_legal m loads op loads' → lru_run op m = (Ok (), m') →
      lru_reachable m' loads'.

Definition lru_good m loads : Prop := lru_inv m loads ∧ Z.of_nat (length loads) < 2 ^ 31.

Lemma wp_lru_run m loads op loads' : lru_good m loads → lru_legal m loads op loads' →
  wp (lru_run op) m (λ _ m', lru_good m' loads' ∧ ∀ h, h ∈ loads → kept m m' h).
Proof.
  intros [Hi Hlen] Hl. assert (∀ h, h ∈ loads → ready m h) as Hready.
  { intros h (st & Hin & Hr)%(of_loads _ _ _ _ _ Hi). exists st. by rewrite <-lru_get_Some by done. }
  destruct op as [hs|hs|hs|hs|hs success|]; simpl in *.
  - destruct Hl as (Hl & -> & Hb). rewrite length_app in Hb. apply wp_bind.
    eapply wp_mono; [apply (wp_lru_prepare_load hs m loads Hi (lru_lookup_ready _ _ Hl)); lia|].
    intros ids m' (? & _ & ?). apply wp_ret. split; [split; [done|rewrite length_app; lia]|auto].
  - pose proof (Permutation_length Hl) as El. rewrite length_app in El. eapply wp_mono; [apply (wp_lru_complete_load hs m loads')|].
    + eapply offload_perm; [done|done|exact Hl|exact Hi].
    + rewrite length_app. lia.
    + intros [] m' [? ?]. split; [split; [done|lia]|auto].
  - subst. eapply wp_mono; [by apply wp_lru_touch|]. intros [] m' [? ?]. split; [done|]. intros h _. by eapply kept_perm.
  - destruct Hl as [Hnd ->]. apply wp_bind. destruct (decide (enough m hs)) as [He|He].
    + eapply wp_mono; [by apply wp_lru_prepare_store|]. intros r m' (ids & _ & _ & Eb & Hi'). apply wp_ret. split; [done|].
      intros h Hh st E. exists st. split; [|done]. rewrite <-lru_get_Some by done. rewrite Eb, elem_of_app. left.
      rewrite <-lru_get_Some in E by done. apply list_elem_of_filter. split; [|done]. simpl. intros Hev%subseteq_take.
      apply elem_of_idle in Hev as (st' & Hin & Hr). pose proof (of_ref _ _ _ _ _ Hi _ _ Hin) as [[_ ?]|Eo]; [done|].
      apply occ_pos in Hh. lia.
    + unfold wp. rewrite lru_store_refused by done. simpl. split; [done|]. intros h _ st. eauto.
  - destruct Hl as (Hnd & Hin & ->). eapply wp_mono; [by apply wp_lru_complete_store|]. intros [] m' (? & Hk & _). split; [done|auto].
  - subst. unfold LRU.take_events. apply wp_bind. do 2 wp_step. destruct (LRU.events m); wp_steps; (split; [done|intros h _ st; eauto]).
Qed.

Lemma lru_reachable_good m loads : lru_reachable m loads → lru_good m loads.
Proof.
  induction 1 as [b ev Hok|m loads op loads' m' _ IH Hl Hrun].
  - split; [|done]. split; simpl; [constructor|done|by intros ? ? ?%not_elem_of_nil|by intros ? ?%not_elem_of_nil].
  - pose proof (wp_lru_run m loads op loads' IH Hl) as Hwp. unfold wp in Hwp. rewrite Hrun in Hwp. apply Hwp.
Qed.
End lru_proofs.

(** ** The ARC manager against the laws of its backend *)

Section arc_proofs.
Context {B : Type} `{!Backend B} (ok : B → Z → list Z → Prop) `{!BackendLaws B ok} (cap : Z).
Implicit Types (m : ARC.Manager B) (loads hs : list bytes).

Definition resident m : statuses := ARC.t1 m ++ ARC.t2 m.
Definition arc_keys m : list bytes := (resident m).*1 ++ (ARC.b1 m).*1 ++ (ARC.b2 m).*1.

Record arc_inv m loads : Prop := {
  ai_off : offload_inv ok (ARC.backend m) cap (resident m) loads;
  ai_keys : NoDup (arc_keys m);
  ai_cap : ARC.cache_capacity m = cap;
  ai_target : (0 <= ARC.target_t1_size m <= inject_Z cap)%Q;
}.

Lemma arc_inv_cap m loads : arc_inv m loads → 0 ≤ cap.
Proof. intros [Hi _ _ _]. destruct (offload_count ok _ _ _ _ Hi). lia. Qed.

Lemma arc_find m loads h : arc_inv m loads → ARC.find h m = OD.get h (resident m).
Proof.
  intros _. unfold ARC.find, resident. induction (ARC.t1 m) as [|[k v] d IH]; csimpl; [done|]. by case_decide.
Qed.

Lemma arc_find_Some m loads h st : arc_inv m loads → ARC.find h m = Some st ↔ (h, st) ∈ resident m.
Proof. intros Hi. rewrite (arc_find _ loads) by done. apply OD.get_Some, (ai_off _ _ Hi). Qed.

(** Replacing the resident blocks by a permutation of them *)
Lemma arc_inv_t d1 d2 m loads loads' :
  offload_inv ok (ARC.backend m) cap (d1 ++ d2) loads' → (d1 ++ d2).*1 ≡ₚ (resident m).*1 → arc_inv m loads →
  arc_inv (ARC.set_t d1 d2 m) loads'.
Proof. intros Hi Hp [H1 H2 H3 H4]. split; [done| |done|done]. unfold arc_keys, resident in *. simpl. by rewrite Hp. Qed.

Definition upd h st m : ARC.Manager B := (ARC.update h st m).2.

Lemma arc_split m h st : ARC.find h m = Some st →
  ∃ v, resident m ≡ₚ (h, st) :: v ∧ ∀ st', ∃ d1 d2, upd h st' m = ARC.set_t d1 d2 m ∧ d1 ++ d2 ≡ₚ (h, st') :: v.
Proof.
  unfold ARC.find, resident, upd, ARC.update, modify. simpl. intros Hf. destruct (OD.get h (ARC.t1 m)) as [st1|] eqn:E.
  - injection Hf as ->. exists (OD.del h (ARC.t1 m) ++ ARC.t2 m). split; [by rewrite (OD.get_del_perm _ _ _ E) at 1|].
    intros st'. eexists _, _. split; [done|]. by rewrite (OD.set_perm _ _ st' _ E).
  - exists (ARC.t1 m ++ OD.del h (ARC.t2 m)). split; [rewrite (OD.get_del_perm _ _ _ Hf) at 1; by rewrite Permutation_middle|].
    intros st'. eexists _, _. split; [done|]. rewrite (OD.set_perm _ _ st' _ Hf). by rewrite Permutation_middle.
Qed.

Lemma arc_upd_inv m loads loads' h st st' : ARC.find h m = Some st →
  (∀ v, offload_inv ok (ARC.backend m) cap ((h, st) :: v) loads → offload_inv ok (ARC.backend m) cap ((h, st') :: v) loads') →
  arc_inv m loads → arc_inv (upd h st' m) loads'.
Proof.
  intros Hf Hv Hi. destruct (arc_split m h st Hf) as (v & Hp & Hu). destruct (Hu st') as (d1 & d2 & -> & Hp').
  apply (arc_inv_t _ _ _ loads); [| |done].
  - eapply offload_perm; [done|symmetry; exact Hp'|done|]. apply Hv. eapply offload_perm; [done|exact Hp|done|apply Hi].
  - by rewrite Hp', Hp.
Qed.

Lemma arc_find_upd m h st h' : is_Some (ARC.find h m) → ARC.find h' (upd h st m) = if decide (h = h') then Some st else ARC.find h' m.
Proof.
  unfold ARC.find, upd, ARC.update, modify. simpl. intros Hf. destruct (OD.get h (ARC.t1 m)) as [st1|] eqn:E; simpl; rewrite ?OD.get_set.
  - by case_decide.
  - destruct (decide (h = h')) as [->|]; [by rewrite E|done].
Qed.

Definition arc_kept m m' h : Prop := ∀ st, ARC.find h m = Some st → ∃ st', ARC.find h m' = Some st' ∧ block_id st' = block_id st.

Lemma arc_kept_refl m h : arc_kept m m h.
Proof. intros st. eauto. Qed.
Lemma arc_kept_trans m1 m2 m3 h : arc_kept m1 m2 h → arc_kept m2 m3 h → arc_kept m1 m3 h.
Proof. intros H1 H2 st (st' & E & <-)%H1. destruct (H2 st' E) as (st2 & ? & <-). eauto. Qed.
Lemma arc_kept_upd m h st st' h' : ARC.find h m = Some st → block_id st' = block_id st → arc_kept m (upd h st' m) h'.
Proof. intros E Hid st0 E0. rewrite arc_find_upd by eauto. case_decide; [|eauto]. subst. exists st'. split; congruence. Qed.
Lemma arc_kept_incl m m' loads loads' h : arc_inv m loads → arc_inv m' loads' → (∀ st, (h, st) ∈ resident m → (h, st) ∈ resident m') → arc_kept m m' h.
Proof. intros Hi Hi' Hin st E. exists st. split; [|done]. apply (arc_find_Some m' loads'); [done|]. apply Hin. by apply (arc_find_Some m loads). Qed.

Lemma wp_arc_get h st m (Q : BlockStatus → ARC.Manager B → Prop) : ARC.find h m = Some st → Q st m → wp (ARC.get_block h) m Q.
Proof. intros E HQ. unfold ARC.get_block. wp_step. wp_step. rewrite E. by apply wp_ret. Qed.

Lemma wp_arc_update h st m (Q : () → ARC.Manager B → Prop) : Q () (upd h st m) → wp (ARC.update h st) m Q.
Proof. done. Qed.

(** *** Loads *)

Definition arc_ready m h : Prop := ∃ st, ARC.find h m = Some st ∧ is_ready st = true.

Lemma wp_arc_prepare_load hs : ∀ m loads, arc_inv m loads → (∀ h, h ∈ hs → arc_ready m h) →
  Z.of_nat (length loads) + Z.of_nat (length hs) < 2 ^ 31 →
  wp (ARC.prepare_load hs) m (λ _ m', arc_inv m' (hs ++ loads) ∧ ∀ h, arc_kept m m' h).
Proof.
  induction hs as [|h hs IH]; intros m loads Hi Hr Hlen; cbn [ARC.prepare_load].
  { wp_steps. split; [done|]. intros h. apply arc_kept_refl. }
  destruct (Hr h (list_elem_of_here _ _)) as (st & E & Hst). cbn [length] in Hlen.
  apply wp_bind, (wp_arc_get _ st); [done|]. apply wp_bind, wp_assert; [done|]. apply wp_bind, wp_arc_update, wp_bind.
  assert (is_ready (set_ref (ref_cnt st + 1) st) = true) as Hst'.
  { destruct (arc_split m h st E) as (v & Hp & _). eapply (offload_load ok _ cap h st v loads); [|done|lia].
    eapply offload_perm; [done|exact Hp|done|apply Hi]. }
  eapply wp_mono; [apply (IH _ (h :: loads))|].
  - eapply arc_upd_inv; [exact E| |exact Hi]. intros v Hv. by apply offload_load; [|done|lia].
  - intros h' Hh'. destruct (Hr h' (list_elem_of_further _ _ _ Hh')) as (st0 & E0 & ?). unfold arc_ready. rewrite arc_find_upd by eauto. case_decide; eauto.
  - cbn [length]. lia.
  - intros ids m' (Hi' & Hk). apply wp_ret. split.
    + destruct Hi' as [H1 H2 H3 H4]. split; try done. eapply offload_perm; [done|done| |exact H1]. simpl. by rewrite <-Permutation_middle.
    + intros h'. eapply arc_kept_trans; [|apply Hk]. by apply (arc_kept_upd _ h st).
Qed.

Lemma wp_arc_complete_load hs : ∀ m loads, arc_inv m (hs ++ loads) → Z.of_nat (length (hs ++ loads)) < 2 ^ 31 →
  wp (ARC.complete_load hs) m (λ _ m', arc_inv m' loads ∧ ∀ h, arc_kept m m' h).
Proof.
  unfold ARC.complete_load. induction hs as [|h hs IH]; intros m loads Hi Hlen; cbn [for_each].
  { wp_steps. split; [done|]. intros h. apply arc_kept_refl. }
  destruct (of_loads _ _ _ _ _ (ai_off _ _ Hi) h (list_elem_of_here _ _)) as (st & Hin & _). apply (arc_find_Some m _ h st Hi) in Hin as E.
  cbn [length app] in Hlen. assert (0 < ref_cnt st) as Hpos.
  { destruct (arc_split m h st E) as (v & Hp & _). eapply (offload_unload ok _ cap h st v (hs ++ loads)); [|lia].
    eapply offload_perm; [done|exact Hp|done|apply Hi]. }
  apply wp_bind. apply wp_bind, (wp_arc_get _ st); [done|]. apply wp_bind, wp_assert; [by apply Z.ltb_lt|]. apply wp_arc_update.
  eapply wp_mono; [apply IH|].
  - eapply arc_upd_inv; [exact E| |exact Hi]. intros v Hv. apply (offload_unload ok _ cap h st v (hs ++ loads) Hv). lia.
  - lia.
  - intros [] m' (? & Hk). split; [done|]. intros h'. eapply arc_kept_trans; [|apply Hk]. by apply (arc_kept_upd _ h st).
Qed.

(** *** Touches *)

Lemma arc_delta_ge a b : (1 <= ARC.delta a b)%Q.
Proof. apply Q.le_max_l. Qed.

Lemma arc_inv_target q m loads : (0 <= q <= inject_Z cap)%Q → arc_inv m loads → arc_inv (ARC.set_target q m) loads.
Proof. intros Hq [H1 H2 H3 H4]. by split. Qed.

Lemma arc_inv_b g1 g2 m loads : NoDup ((resident m).*1 ++ g1.*1 ++ g2.*1) → arc_inv m loads → arc_inv (ARC.set_b g1 g2 m) loads.
Proof. intros Hn [H1 H2 H3 H4]. by split. Qed.

Lemma arc_inv_b_perm g1 g2 m loads : g1.*1 ≡ₚ (ARC.b1 m).*1 → g2.*1 ≡ₚ (ARC.b2 m).*1 → arc_inv m loads → arc_inv (ARC.set_b g1 g2 m) loads.
Proof. intros H1 H2 Hi. apply arc_inv_b; [|done]. rewrite H1, H2. apply Hi. Qed.

Lemma arc_inv_perm d1 d2 m loads : d1 ++ d2 ≡ₚ resident m → arc_inv m loads → arc_inv (ARC.set_t d1 d2 m) loads.
Proof.
  intros Hp Hi. eapply arc_inv_t; [|by rewrite Hp|exact Hi]. eapply offload_perm; [done|symmetry; exact Hp|done|apply Hi].
Qed.

Lemma wp_arc_touch_one h m loads : arc_inv m loads → (∀ st, OD.get h (ARC.t1 m) = Some st → is_ready st = true) →
  wp (ARC.touch_one h) m (λ _ m', arc_inv m' loads ∧ resident m' ≡ₚ resident m).
Proof.
  intros Hi Hr. unfold ARC.touch_one. do 2 wp_step. pose proof (arc_inv_cap _ _ Hi) as Hcap.
  assert (0 <= inject_Z cap)%Q as Hcap' by (by rewrite (Zle_Qle 0 cap) in Hcap).
  pose proof (ai_target _ _ Hi) as Ht. rewrite (ai_cap _ _ Hi).
  destruct (OD.get h (ARC.t1 m)) as [st|] eqn:E1.
  { do 2 wp_step. rewrite (Hr st eq_refl). simpl. wp_step.
    assert (OD.get h (ARC.t2 m) = None) as E2.
    { apply OD.get_None. intros H2. pose proof (ai_off _ _ Hi) as [Hnd _ _ _]. unfold resident in Hnd. rewrite fmap_app in Hnd.
      apply NoDup_app in Hnd as (Hnd1 & Hd & _). apply (Hd h); [|done]. apply OD.get_Some in E1; [|done]. apply list_elem_of_fmap. by exists (h, st). }
    assert (OD.del h (ARC.t1 m) ++ OD.set h st (ARC.t2 m) ≡ₚ resident m) as Hp.
    { rewrite (OD.set_new _ _ _ E2). unfold resident. rewrite (OD.get_del_perm _ _ _ E1) at 2. rewrite app_assoc.
      apply (Permutation_app_comm _ [(h, st)]). }
    split; [|done]. change (arc_inv (ARC.set_t (OD.del h (ARC.t1 m)) (OD.set h st (ARC.t2 m)) m) loads). by apply arc_inv_perm. }
  destruct (OD.get h (ARC.t2 m)) as [st|] eqn:E2.
  { wp_step. assert (ARC.t1 m ++ OD.move_to_end h (ARC.t2 m) ≡ₚ resident m) as Hp by (by rewrite OD.move_to_end_perm). split; [|done]. by apply arc_inv_perm. }
  destruct (OD.get h (ARC.b1 m)) as [[]|] eqn:E3; [|destruct (OD.get h (ARC.b2 m)) as [[]|] eqn:E4].
  - do 3 wp_step. split; [|done]. apply (arc_inv_b_perm (OD.move_to_end h (ARC.b1 m)) (ARC.b2 m)); [by rewrite OD.move_to_end_perm|done|].
    apply arc_inv_target; [|done]. split; [|apply Q.le_min_r]. apply Q.min_glb; [|done].
    pose proof (arc_delta_ge (ARC.b2 m) (ARC.b1 m)). lra.
  - do 3 wp_step. split; [|done]. apply (arc_inv_b_perm (ARC.b1 m) (OD.move_to_end h (ARC.b2 m))); [done|by rewrite OD.move_to_end_perm|].
    apply arc_inv_target; [|done]. split; [apply Q.le_max_r|]. apply Q.max_lub; [|done].
    pose proof (arc_delta_ge (ARC.b1 m) (ARC.b2 m)). lra.
  - by wp_steps.
Qed.

Lemma arc_kept_perm m m' loads loads' h : arc_inv m loads → arc_inv m' loads' → resident m' ≡ₚ resident m → arc_kept m m' h.
Proof. intros Hi Hi' Hp. eapply arc_kept_incl; [done|done|]. intros st. by rewrite Hp. Qed.

(** No hash of [hs] is being stored. *)
Definition no_pending m hs : Prop := ∀ h st, h ∈ hs → ARC.find h m = Some st → is_ready st = true.

Lemma wp_arc_touch hs m loads : arc_inv m loads → no_pending m hs →
  wp (ARC.touch hs) m (λ _ m', arc_inv m' loads ∧ resident m' ≡ₚ resident m).
Proof.
  intros Hi Hr. unfold ARC.touch. apply wp_for_each with (I := λ _ m', arc_inv m' loads ∧ resident m' ≡ₚ resident m).
  - done.
  - intros done h rest m' Hl [Hi' Hp]. eapply wp_mono; [apply (wp_arc_touch_one h m' loads Hi')|intros [] m'' [? E]; by rewrite E].
    intros st E. apply (Hr h st); [apply elem_of_reverse; rewrite Hl; set_solver|]. apply (arc_find_Some m loads); [done|]. rewrite <-Hp.
    apply (arc_find_Some m' loads); [done|]. unfold ARC.find. by rewrite E.
  - done.
Qed.

(** *** Evictions *)

Lemma first_free_Some d h st : ARC.first_free d = Some (h, st) → (h, st) ∈ d ∧ ref_cnt st = 0.
Proof.
  induction d as [|[h' st'] d IH]; csimpl; [done|]. destruct (Z.eqb_spec (ref_cnt st') 0).
  - intros [= -> ->]. split; [left|done].
  - intros [? ?]%IH. split; [by right|done].
Qed.

(** The part of the loop body that gives a block back *)
Lemma wp_arc_free_one h st d1 d2 g1 g2 m loads : (h, st) ∈ resident m → ref_cnt st = 0 → arc_inv m loads →
  (h, st) :: d1 ++ d2 ≡ₚ resident m → g1.*1 ++ g2.*1 ≡ₚ h :: (ARC.b1 m).*1 ++ (ARC.b2 m).*1 →
  wp (ARC.on_backend (free_block (block_id st))) (ARC.set_b g1 g2 (ARC.set_t d1 d2 m))
    (λ _ m', arc_inv m' loads ∧ (h, st) :: resident m' ≡ₚ resident m).
Proof.
  intros Hin Hr Hi Hd Hg. unfold ARC.on_backend. wp_step.
  eapply wp_mono; [eapply (wp_offload_free ok _ cap h st (d1 ++ d2) loads); [|lia]; eapply offload_perm; [done|symmetry; exact Hd|done|apply Hi]|].
  intros [] b' Hi'. destruct Hi as [H1 H2 H3 H4]. split; [|done]. split; simpl; [done| |done|done].
  unfold arc_keys, resident in *. simpl. rewrite Hg. rewrite <-Hd in H2. csimpl in H2. by rewrite <-Permutation_middle.
Qed.

Lemma ghost_set h (g : list (bytes * ())) : h ∉ g.*1 → (OD.set h () g).*1 ≡ₚ h :: g.*1.
Proof. intros Hh. rewrite OD.keys_set, decide_False by done. by rewrite Permutation_app_comm. Qed.

Lemma wp_arc_evict_loop n : ∀ m loads, arc_inv m loads →
  wp (ARC.evict_loop n) m (λ r m', arc_inv m' loads ∧ resident m' ⊆+ resident m ∧ (∀ x, x ∈ resident m → x.1 ∈ loads → x ∈ resident m') ∧
    match r with Some ev => length ev = n ∧ length (resident m) = (n + length (resident m'))%nat | None => True end).
Proof.
  induction n as [|n IH]; intros m loads Hi; cbn [ARC.evict_loop]; [by wp_steps|]. do 2 wp_step.
  assert (∀ m1 h st, arc_inv m1 loads → (h, st) :: resident m1 ≡ₚ resident m → ref_cnt st = 0 →
    wp (r ← ARC.evict_loop n; mret (cons h <$> r)) m1 (λ r m', arc_inv m' loads ∧ resident m' ⊆+ resident m ∧
      (∀ x, x ∈ resident m → x.1 ∈ loads → x ∈ resident m') ∧
      match r with Some ev => length ev = S n ∧ length (resident m) = (S n + length (resident m'))%nat | None => True end)) as Hnext.
  { intros m1 h st Hi1 Hp Hr. apply wp_bind. eapply wp_mono; [by apply (IH m1 loads)|]. intros r m' (Hi' & Hs & Hin & Hlen). apply wp_ret. split_and!; [done| | |].
    - rewrite <-Hp. by apply submseteq_cons.
    - intros x Hx Hl. apply Hin; [|done]. rewrite <-Hp in Hx. apply elem_of_cons in Hx as [->|?]; [|done]. exfalso. simpl in Hl.
      apply (offload_idle ok (ARC.backend m) cap h st (resident m1) loads); [|lia|done]. eapply offload_perm; [done|symmetry; exact Hp|done|apply Hi].
    - apply Permutation_length in Hp. destruct r as [ev|]; simpl; [simpl in Hp; lia|done]. }
  assert (∀ h st, (h, st) ∈ resident m → h ∉ (ARC.b1 m).*1 ∧ h ∉ (ARC.b2 m).*1) as Hnew.
  { intros h st Hin. pose proof (ai_keys _ _ Hi) as (_ & Hd & _)%NoDup_app. specialize (Hd h). rewrite elem_of_app in Hd.
    assert (h ∈ (resident m).*1) by (apply list_elem_of_fmap; by exists (h, st)). tauto. }
  destruct (if _ <=? _ then _ else None) as [[h st]|] eqn:E1.
  { assert ((h, st) ∈ ARC.t1 m ∧ ref_cnt st = 0) as [Hin Hr] by (apply first_free_Some; by destruct (_ <=? _)).
    assert ((h, st) ∈ resident m) as Hres by (apply elem_of_app; by left). do 5 wp_step.
    eapply wp_mono; [apply (wp_arc_free_one h st (OD.del h (ARC.t1 m)) (ARC.t2 m) (OD.set h () (ARC.b1 m)) (ARC.b2 m) m loads Hres Hr Hi)|].
    - unfold resident. rewrite app_comm_cons. f_equiv. symmetry. apply OD.get_del_perm, OD.get_Some; [|done].
      pose proof (of_keys _ _ _ _ _ (ai_off _ _ Hi)) as Hnd. unfold resident in Hnd. rewrite fmap_app in Hnd. by apply NoDup_app in Hnd as (? & _).
    - rewrite ghost_set by (by eapply Hnew). done.
    - intros [] m1 [Hi1 Hp]. by apply (Hnext m1 h st). }
  clear E1. destruct (ARC.first_free (ARC.t2 m)) as [[h st]|] eqn:E2; [|by wp_steps].
  apply first_free_Some in E2 as [Hin Hr]. assert ((h, st) ∈ resident m) as Hres by (apply elem_of_app; by right). do 5 wp_step.
  eapply wp_mono; [apply (wp_arc_free_one h st (ARC.t1 m) (OD.del h (ARC.t2 m)) (ARC.b1 m) (OD.set h () (ARC.b2 m)) m loads Hres Hr Hi)|].
  - unfold resident. rewrite Permutation_middle. f_equiv. symmetry. apply OD.get_del_perm, OD.get_Some; [|done].
    pose proof (of_keys _ _ _ _ _ (ai_off _ _ Hi)) as Hnd. unfold resident in Hnd. rewrite fmap_app in Hnd. by apply NoDup_app in Hnd as (_ & _ & ?).
  - rewrite ghost_set by (by eapply Hnew). by rewrite Permutation_middle.
  - intros [] m1 [Hi1 Hp]. by apply (Hnext m1 h st).
Qed.

(** *** Stores *)

Lemma wp_arc_add_event hs rem m (Q : () → ARC.Manager B → Prop) :
  (∀ ev, Q () (ARC.set_events ev m)) → wp (ARC.add_event hs rem) m Q.
Proof.
  intros HQ. unfold ARC.add_event. wp_step. wp_step. assert (Q () m) by (destruct m; apply HQ).
  destruct (ARC.events m); [|by wp_steps]. case_bool_decide; [by wp_steps|]. wp_step. apply HQ.
Qed.

Lemma arc_inv_events ev m loads : arc_inv m loads → arc_inv (ARC.set_events ev m) loads.
Proof. intros [H1 H2 H3 H4]. by split. Qed.

(** The state after the new hashes are entered *)
Definition insert_all (xs : list (bytes * Z)) m : ARC.Manager B := foldl (λ m x, (ARC.insert_new x m).2) m xs.

Lemma wp_arc_insert_all xs : ∀ m (Q : () → ARC.Manager B → Prop), Q () (insert_all xs m) → wp (for_each xs ARC.insert_new) m Q.
Proof.
  induction xs as [|x xs IH]; intros m Q HQ; cbn [for_each]; [by apply wp_ret|]. apply wp_bind. unfold ARC.insert_new at 1. do 3 wp_step. by apply IH.
Qed.

Lemma insert_all_spec xs : ∀ m, NoDup (arc_keys m) → NoDup xs.*1 → (∀ h, h ∈ xs.*1 → h ∉ (resident m).*1) →
  resident (insert_all xs m) ≡ₚ resident m ++ (prod_map id new_status <$> xs) ∧ NoDup (arc_keys (insert_all xs m)) ∧
  ARC.backend (insert_all xs m) = ARC.backend m ∧ ARC.cache_capacity (insert_all xs m) = ARC.cache_capacity m ∧
  ARC.target_t1_size (insert_all xs m) = ARC.target_t1_size m.
Proof.
  induction xs as [|[h id] xs IH]; intros m Hk Hnd Hnew; [simpl; by rewrite app_nil_r|].
  change (insert_all ((h, id) :: xs) m) with (insert_all xs (ARC.insert_new (h, id) m).2). set (m1 := (ARC.insert_new (h, id) m).2).
  rewrite fmap_cons in Hnd, Hnew. apply NoDup_cons in Hnd as [Hh Hnd]. simpl in Hh, Hnew.
  assert (h ∉ (resident m).*1) as Hh1 by (apply Hnew; left).
  assert (OD.get h (ARC.t1 m) = None) as E1 by (apply OD.get_None; intros ?; apply Hh1; unfold resident; rewrite fmap_app; set_solver).
  assert (resident m1 ≡ₚ resident m ++ [(h, new_status id)]) as Hr.
  { unfold m1, resident. simpl. rewrite (OD.set_new _ _ _ E1), <-!app_assoc. f_equiv. apply Permutation_app_comm. }
  destruct (IH m1) as (H1 & H2 & H3 & H4 & H5).
  - assert (arc_keys m1 ≡ₚ h :: (resident m).*1 ++ (OD.del h (ARC.b1 m)).*1 ++ (OD.del h (ARC.b2 m)).*1) as ->.
    { unfold arc_keys. rewrite Hr, fmap_app, <-app_assoc. simpl. by rewrite <-Permutation_middle. }
    apply NoDup_app in Hk as (Hk1 & Hk2 & Hk3). apply NoDup_app in Hk3 as (Hk3 & Hk4 & Hk5). rewrite !OD.keys_del by done.
    assert (∀ l : list bytes, filter (λ x, x ≠ h) l ⊆ l) as Hsub by (intros l x [_ ?]%list_elem_of_filter; done).
    apply NoDup_cons. split; [rewrite !elem_of_app, !list_elem_of_filter; naive_solver|].
    apply NoDup_app. split_and!; [done| |apply NoDup_app; split_and!; [by apply NoDup_filter| |by apply NoDup_filter]].
    + intros x Hx. rewrite elem_of_app, !list_elem_of_filter. specialize (Hk2 x Hx). rewrite elem_of_app in Hk2. tauto.
    + intros x [_ Hx]%list_elem_of_filter. rewrite list_elem_of_filter. specialize (Hk4 x Hx). tauto.
  - done.
  - intros h' Hh'. rewrite Hr, fmap_app, elem_of_app. csimpl. rewrite list_elem_of_singleton. intros [?| ->]; [|done]. apply (Hnew h'); [by right|done].
  - split_and!; [|done|done|done|done]. by rewrite H1, Hr, <-app_assoc.
Qed.

Lemma arc_trim m loads : arc_inv m loads →
  arc_inv (ARC.set_b (ARC.trim (ARC.cache_capacity m) (ARC.b1 m)) (ARC.trim (ARC.cache_capacity m) (ARC.b2 m)) m) loads.
Proof.
  intros Hi. apply arc_inv_b; [|done]. pose proof (ai_keys _ _ Hi) as Hk. unfold ARC.trim. rewrite !fmap_drop.
  eapply sublist_NoDup; [exact Hk|]. unfold arc_keys. repeat apply sublist_app; [done|apply sublist_drop|apply sublist_drop].
Qed.

Lemma wp_arc_prepare_store hs m loads : arc_inv m loads → NoDup hs →
  wp (ARC.prepare_store hs) m (λ _ m', arc_inv m' loads ∧ ∀ h, h ∈ loads → arc_kept m m' h).
Proof.
  intros Hi Hnd. unfold ARC.prepare_store. do 2 wp_step. set (to_store := filter _ hs).
  assert (∀ h, h ∈ to_store ↔ h ∈ hs ∧ h ∉ (resident m).*1) as Hto.
  { intros h. unfold to_store, resident. rewrite list_elem_of_filter, fmap_app, elem_of_app, !OD.get_None. tauto. }
  case_bool_decide as Hempty.
  { wp_step. split; [done|]. intros h _. apply arc_kept_refl. }
  wp_step. eapply wp_mono; [by apply (wp_arc_evict_loop _ m loads)|]. intros [ev|] m1 (Hi1 & Hsub & Hin & Hev).
  2: { wp_step. split; [done|]. intros h Hh. eapply arc_kept_incl; [done|done|]. intros st ?. by apply Hin. }
  destruct Hev as [Hlev Hcnt]. do 2 wp_step. apply arc_trim in Hi1 as Hi2. set (m2 := ARC.set_b _ _ m1) in *. apply wp_bind, wp_arc_add_event. intros e.
  apply (arc_inv_events e) in Hi2 as Hi3. set (m3 := ARC.set_events e m2) in *. apply wp_bind. unfold ARC.on_backend. apply wp_zoom.
  assert (∀ h, h ∈ to_store → h ∉ (resident m3).*1) as Hnew.
  { intros h [_ Hn]%Hto Hr. apply Hn. apply list_elem_of_fmap in Hr as (x & -> & Hx). apply list_elem_of_fmap. exists x. split; [done|].
    eapply elem_of_submseteq; [exact Hx|exact Hsub]. }
  eapply wp_mono; [apply (wp_offload_alloc ok _ cap _ loads to_store (ai_off _ _ Hi3)); [by apply NoDup_filter|done|]|].
  { destruct (offload_count ok _ _ _ _ (ai_off _ _ Hi)), (offload_count ok _ _ _ _ (ai_off _ _ Hi3)).
    change (resident m3) with (resident m1) in *. lia. }
  intros ids b' [Hlen Hi4]. apply wp_bind, wp_assert; [by apply bool_decide_eq_true|]. apply wp_bind, wp_arc_insert_all. apply wp_ret.
  set (m4 := ARC.set_backend b' m3). destruct (insert_all_spec (zip to_store ids) m4) as (H1 & H2 & H3 & H4 & H5).
  { apply Hi3. }
  { rewrite fst_zip by lia. by apply NoDup_filter. }
  { rewrite fst_zip by lia. done. }
  assert ((prod_map id new_status <$> zip to_store ids) = zip to_store (new_status <$> ids)) as Ez.
  { clear. generalize ids. induction to_store as [|h l IH]; intros [|i l']; try done. csimpl. f_equal. apply IH. }
  rewrite Ez in H1. assert (arc_inv (insert_all (zip to_store ids) m4) loads) as Hi5.
  { split; [|done|rewrite H4; apply Hi3|rewrite H5; apply Hi3]. rewrite H3. eapply offload_perm; [done|symmetry; exact H1|done|exact Hi4]. }
  split; [done|]. intros h Hh. eapply arc_kept_incl; [done|done|]. intros st Hst. rewrite H1, elem_of_app. left. by apply Hin.
Qed.

Lemma wp_arc_mark_stored hs : ∀ m loads, arc_inv m loads → wp (ARC.mark_stored hs) m (λ _ m', arc_inv m' loads ∧ ∀ h, arc_kept m m' h).
Proof.
  induction hs as [|h hs IH]; intros m loads Hi; cbn [ARC.mark_stored]; [wp_step; split; [done|intros h; apply arc_kept_refl]|]. do 2 wp_step.
  destruct (ARC.find h m) as [st|] eqn:E; [|by apply IH]. destruct (is_ready st) eqn:Er; [by apply IH|].
  apply wp_bind, wp_arc_update, wp_bind. eapply wp_mono; [apply (IH _ loads)|].
  - eapply arc_upd_inv; [exact E| |exact Hi]. intros v Hv. by apply offload_stored.
  - intros r m' [? Hk]. apply wp_ret. split; [done|]. intros h'. eapply arc_kept_trans; [|apply Hk]. by apply (arc_kept_upd _ h st).
Qed.

Definition all_pending m hs : Prop := ∀ h st, h ∈ hs → ARC.find h m = Some st → is_ready st = false.

(** Dropping one hash that is not ready *)
Lemma wp_arc_drop_failed h m loads : arc_inv m loads → all_pending m [h] →
  wp (ARC.drop_failed h) m (λ _ m', arc_inv m' loads ∧ (∀ x, x ∈ resident m' → x ∈ resident m) ∧
    (∀ x, x ∈ resident m → x.1 ∈ loads → x ∈ resident m')).
Proof.
  intros Hi Hp. unfold ARC.drop_failed. do 4 wp_step.
  set (d1 := match OD.get h (ARC.t1 m) with Some _ => OD.del h (ARC.t1 m) | None => ARC.t1 m end).
  set (d2 := match OD.get h (ARC.t1 m) with Some _ => ARC.t2 m | None => OD.del h (ARC.t2 m) end).
  assert ((match OD.get h (ARC.t1 m) with Some _ => ARC.set_t (OD.del h (ARC.t1 m)) (ARC.t2 m) | None => ARC.set_t (ARC.t1 m) (OD.del h (ARC.t2 m)) end) m =
    ARC.set_t d1 d2 m) as -> by (unfold d1, d2; by destruct (OD.get h (ARC.t1 m))).
  destruct (ARC.find h m) as [st|] eqn:E.
  - assert ((h, st) :: d1 ++ d2 ≡ₚ resident m) as Hd.
    { unfold d1, d2, ARC.find, resident in *. destruct (OD.get h (ARC.t1 m)) as [st1|] eqn:E1.
      - injection E as ->. by rewrite (OD.get_del_perm _ _ _ E1) at 2.
      - rewrite (OD.get_del_perm _ _ _ E) at 2. by rewrite Permutation_middle. }
    pose proof (Hp h st (list_elem_of_here _ _) E) as Hr. rewrite Hr. apply Z.leb_gt in Hr.
    assert (offload_inv ok (ARC.backend m) cap ((h, st) :: d1 ++ d2) loads) as Ho by (eapply offload_perm; [done|symmetry; exact Hd|done|apply Hi]).
    unfold ARC.on_backend. apply wp_zoom. eapply wp_mono; [eapply (wp_offload_free ok _ cap h st _ loads Ho); lia|].
    intros [] b' Hi'. destruct Hi as [H1 H2 H3 H4]. split_and!.
    + split; [done| |done|done]. unfold arc_keys, resident in *. simpl. rewrite <-Hd in H2. csimpl in H2. by apply NoDup_cons in H2 as [_ ?].
    + intros x Hx. rewrite <-Hd. by right.
    + intros x Hx Hl. rewrite <-Hd in Hx. apply elem_of_cons in Hx as [->|?]; [|done]. exfalso.
      apply (offload_idle ok _ cap h st (d1 ++ d2) loads Ho); [lia|done].
  - assert (d1 = ARC.t1 m ∧ d2 = ARC.t2 m) as [-> ->].
    { unfold d1, d2, ARC.find in *. destruct (OD.get h (ARC.t1 m)); [done|]. split; [done|]. clear -E. induction (ARC.t2 m) as [|[k v] d IH]; csimpl in *; [done|].
      case_decide; [done|]. by rewrite IH. }
    wp_step. split_and!; [|done|done]. by destruct m.
Qed.

Lemma wp_arc_complete_store hs success m loads : arc_inv m loads → (success = false → all_pending m hs) →
  wp (ARC.complete_store hs success) m (λ _ m', arc_inv m' loads ∧ ∀ h, h ∈ loads → arc_kept m m' h).
Proof.
  intros Hi Hp. unfold ARC.complete_store. apply wp_bind. destruct success.
  - eapply wp_mono; [by apply (wp_arc_mark_stored hs m loads)|]. intros r m' [? Hk]. apply wp_arc_add_event. intros ev.
    split; [by apply arc_inv_events|]. intros h _. apply Hk.
  - apply wp_bind. specialize (Hp eq_refl).
    apply wp_for_each with (I := λ _ m', arc_inv m' loads ∧ (∀ x, x ∈ resident m' → x ∈ resident m) ∧ (∀ x, x ∈ resident m → x.1 ∈ loads → x ∈ resident m')).
    + done.
    + intros done h rest m' Hl (Hi' & Hs & Hk). eapply wp_mono; [apply (wp_arc_drop_failed h m' loads Hi')|].
      * intros h' st ->%list_elem_of_singleton E. apply (Hp h); [rewrite Hl; set_solver|]. apply (arc_find_Some m loads); [done|]. by apply Hs, (arc_find_Some m' loads).
      * intros [] m'' (? & ? & ?). split_and!; [done|auto|auto].
    + intros m' (Hi' & _ & Hk). apply wp_ret, wp_arc_add_event. intros ev. apply (arc_inv_events ev) in Hi' as Hi''. split; [done|].
      intros h Hh. eapply (arc_kept_incl m _ loads loads); [done|done|]. intros st Hst. by apply Hk.
Qed.

Lemma arc_lookup_ready hs m : ARC.lookup hs m = Z.of_nat (length hs) → ∀ h, h ∈ hs → arc_ready m h.
Proof.
  assert (∀ hs, ARC.lookup hs m ≤ Z.of_nat (length hs)) as Hle.
  { clear hs. induction hs as [|h hs IH]; simpl; [lia|]. destruct (ARC.find h m) as [st|]; [destruct (is_ready st)|]; lia. }
  induction hs as [|h hs IH]; cbn [ARC.lookup length]; intros Hl h' Hin; [by apply not_elem_of_nil in Hin|].
  pose proof (Hle hs). destruct (ARC.find h m) as [st|] eqn:E; [destruct (is_ready st) eqn:Er|]; [|lia|lia].
  apply elem_of_cons in Hin as [->|Hin]; [by exists st|]. apply IH; [lia|done].
Qed.

(** *** The manager under its callers *)

Definition arc_run (op : offload_op) : M (ARC.Manager B) () :=
  match op with
  | PrepareLoad hs => ARC.prepare_load hs ;; mret ()
  | CompleteLoad hs => ARC.complete_load hs
  | Touch hs => ARC.touch hs
  | PrepareStore hs => ARC.prepare_store hs ;; mret ()
  | CompleteStore hs success => ARC.complete_store hs success
  | TakeEvents => ARC.take_events ;; mret ()
  end.

(** Besides what the LRU manager asks for, a touched hash is not being stored and a
    failed store names no block that can be read. *)
Definition arc_legal m loads (op : offload_op) loads' : Prop :=
  match op with
  | PrepareLoad hs => ARC.lookup hs m = Z.of_nat (length hs) ∧ loads' = hs ++ loads ∧ Z.of_nat (length loads') < 2 ^ 31
  | CompleteLoad hs => loads ≡ₚ hs ++ loads'
  | Touch hs => no_pending m hs ∧ loads' = loads
  | PrepareStore hs => NoDup hs ∧ loads' = loads
  | CompleteStore hs success => (success = false → all_pending m hs) ∧ loads' = loads
  | TakeEvents => loads' = loads
  end.

Inductive arc_reachable : ARC.Manager B → list bytes → Prop :=
  | arc_start b ev : ok b cap [] → arc_reachable (ARC.init b ev) []
  | arc_step m loads op loads' m' : arc_reachable m loads → arc_legal m loads op loads' → arc_run op m = (Ok (), m') →
      arc_reachable m' loads'.

Definition arc_good m loads : Prop := arc_inv m loads ∧ Z.of_nat (length loads) < 2 ^ 31.

Lemma wp_arc_run m loads op loads' : arc_good m loads → arc_legal m loads op loads' →
  wp (arc_run op) m (λ _ m', arc_good m' loads' ∧ ∀ h, h ∈ loads → arc_kept m m' h).
Proof.
  intros [Hi Hlen] Hl. destruct op as [hs|hs|hs|hs|hs success|]; simpl in *.
  - destruct Hl as (Hl & -> & Hb). rewrite length_app in Hb. apply wp_bind.
    eapply wp_mono; [apply (wp_arc_prepare_load hs m loads Hi (arc_lookup_ready _ _ Hl)); lia|].
    intros ids m' [? ?]. apply wp_ret. split; [split; [done|rewrite length_app; lia]|auto].
  - pose proof (Permutation_length Hl) as El. rewrite length_app in El. eapply wp_mono; [apply (wp_arc_complete_load hs m loads')|].
    + destruct Hi as [H1 H2 H3 H4]. split; try done. eapply offload_perm; [done|done|exact Hl|exact H1].
    + rewrite length_app. lia.
    + intros [] m' [? ?]. split; [split; [done|lia]|auto].
  - destruct Hl as [Hl ->]. eapply wp_mono; [by apply wp_arc_touch|]. intros [] m' [? ?]. split; [done|]. intros h _. by eapply arc_kept_perm.
  - destruct Hl as [Hnd ->]. apply wp_bind. eapply wp_mono; [by apply wp_arc_prepare_store|]. intros r m' [? ?]. by apply wp_ret.
  - destruct Hl as [Hp ->]. eapply wp_mono; [by apply wp_arc_complete_store|]. intros [] m' [? ?]. done.
  - subst. unfold ARC.take_events. apply wp_bind. do 2 wp_step. destruct (ARC.events m); do 4 try wp_step; (split; [|intros h _ st; eauto]); split; try done.
    by apply (arc_inv_events (Some [])).
Qed.

Lemma arc_reachable_good m loads : arc_reachable m loads → arc_good m loads.
Proof.
  induction 1 as [b ev Hok|m loads op loads' m' _ IH Hl Hrun].
  - pose proof (bl_count b cap [] Hok) as [Hf Hf']. simpl in Hf. split; [|done]. split; simpl; [|constructor|lia|].
    + split; simpl; [constructor|done|by intros ? ? ?%not_elem_of_nil|by intros ? ?%not_elem_of_nil].
    + split; [done|]. change 0%Q with (inject_Z 0). rewrite <-Zle_Qle. lia.
  - pose proof (wp_arc_run m loads op loads' IH Hl) as Hwp. unfold wp in Hwp. rewrite Hrun in Hwp. apply Hwp.
Qed.
End arc_proofs.

(** C20. Under callers that load what [lookup] reports, complete the loads they start and
    complete stores of hashes the manager holds, no call of the LRU manager raises,
    whatever backend satisfies the laws.  Afterwards the blocks of the backend are
    pairwise distinct and all accounted for, every count is -1 for a block being stored
    or else the number of loads of that hash under way, and a hash that was being loaded
    is still at the same place of the backend: no block is evicted under its reader. *)
Theorem lru_calls_safe {B : Type} `{!Backend B} (ok : B → Z → list Z → Prop) `{!BackendLaws B ok} cap m loads op loads' :
  lru_reachable ok cap m loads → lru_legal m loads op loads' →
  ∃ m', lru_run op m = (Ok (), m') ∧ lru_reachable ok cap m' loads' ∧
    NoDup (block_id <$> (LRU.blocks m').*2) ∧
    get_num_free_blocks (LRU.backend m') = cap - Z.of_nat (length (LRU.blocks m')) ∧
    (∀ h st, OD.get h (LRU.blocks m') = Some st → ref_cnt st = -1 ∧ h ∉ loads' ∨ ref_cnt st = occ h loads') ∧
    (∀ h st, h ∈ loads → OD.get h (LRU.blocks m) = Some st →
       ∃ st', OD.get h (LRU.blocks m') = Some st' ∧ block_id st' = block_id st).
Proof.
  intros Hr Hl. pose proof (wp_lru_run ok cap m loads op loads' (lru_reachable_good ok cap m loads Hr) Hl) as Hwp.
  apply wp_ok in Hwp as ([] & m' & Hrun & [Hi _] & Hk). exists m'. split_and!.
  - done.
  - by eapply lru_step.
  - eapply bl_nodup, Hi.
  - apply (offload_count ok _ _ _ _ Hi).
  - intros h st Hin. apply (of_ref _ _ _ _ _ Hi). by rewrite lru_get_Some.
  - intros h st Hin. by apply Hk.
Qed.

(** A manager of four blocks with two loads of the same block under way *)
Definition hash_a : bytes := [Byte.x61].
Definition hash_b : bytes := [Byte.x62].
Definition hash_c : bytes := [Byte.x63].
Definition hash_d : bytes := [Byte.x64].
Definition ex_lru_ops : list offload_op :=
  [PrepareStore [hash_a; hash_b; hash_c]; CompleteStore [hash_a; hash_b; hash_c] true; PrepareLoad [hash_a; hash_b];
   PrepareLoad [hash_a]; Touch [hash_c]].
Definition ex_lru (n : nat) : LRU.Manager CPUBackend := (for_each (take n ex_lru_ops) lru_run (LRU.init (new_cpu 16 4) true)).2.

Lemma ex_lru_reachable : lru_reachable cpu_ok 4 (ex_lru 5) [hash_a; hash_a; hash_b].
Proof.
  apply (lru_step _ _ (ex_lru 4) [hash_a; hash_a; hash_b] (Touch [hash_c])); [|done|by vm_compute].
  apply (lru_step _ _ (ex_lru 3) [hash_a; hash_b] (PrepareLoad [hash_a])); [|split_and!; [by vm_compute|done|done]|by vm_compute].
  apply (lru_step _ _ (ex_lru 2) [] (PrepareLoad [hash_a; hash_b])); [|split_and!; [by vm_compute|done|done]|by vm_compute].
  apply (lru_step _ _ (ex_lru 1) [] (CompleteStore [hash_a; hash_b; hash_c] true)); [| |by vm_compute].
  - apply (lru_step _ _ (ex_lru 0) [] (PrepareStore [hash_a; hash_b; hash_c])); [by apply (lru_start cpu_ok), cpu_init_ok| |by vm_compute].
    split; [|done]. apply (bool_decide_unpack _). by vm_compute.
  - split_and!; [| |done].
    + apply (bool_decide_unpack _). by vm_compute.
    + apply Forall_forall, (bool_decide_unpack _). by vm_compute.
Qed.

Lemma lru_calls_safe_witness : lru_reachable cpu_ok 4 (ex_lru 5) [hash_a; hash_a; hash_b] ∧
  ∃ m', lru_run (PrepareStore [hash_d]) (ex_lru 5) = (Ok (), m') ∧ lru_reachable cpu_ok 4 m' [hash_a; hash_a; hash_b] ∧
    NoDup (block_id <$> (LRU.blocks m').*2).
Proof.
  split; [exact ex_lru_reachable|].
  destruct (lru_calls_safe cpu_ok 4 (ex_lru 5) [hash_a; hash_a; hash_b] (PrepareStore [hash_d]) [hash_a; hash_a; hash_b]) as (m' & ? & ? & ? & _).
  - exact ex_lru_reachable.
  - split; [apply NoDup_singleton|done].
  - eauto.
Defined.

(** C30. [prepare_store] of the LRU manager is exact: it refuses, changing nothing, iff the
    hashes it does not hold outnumber the free blocks and the blocks no transfer uses
    together; otherwise it evicts exactly as many blocks as are lacking, the least
    recently used of the unused ones, keeps every other block in its place of the order
    and appends the missing hashes, not yet readable, in the order of the request. *)
Theorem lru_prepare_store_exact {B : Type} `{!Backend B} (ok : B → Z → list Z → Prop) `{!BackendLaws B ok} cap m loads hs :
  lru_reachable ok cap m loads → NoDup hs →
  let to_store := filter (λ h, OD.get h (LRU.blocks m) = None) hs in
  let lacking := Z.of_nat (length to_store) - get_num_free_blocks (LRU.backend m) in
  let unused := (filter (λ x, ref_cnt x.2 = 0) (LRU.blocks m)).*1 in
  let evicted := take (Z.to_nat lacking) unused in
  if decide (lacking ≤ Z.of_nat (length unused)) then
    ∃ ids m', LRU.prepare_store hs m = (Ok (Some (mkOutput to_store ids evicted)), m') ∧ length ids = length to_store ∧
      LRU.blocks m' = filter (λ x, x.1 ∉ evicted) (LRU.blocks m) ++ zip to_store (new_status <$> ids)
  else LRU.prepare_store hs m = (Ok None, m).
Proof.
  intros Hr Hnd to_store lacking unused evicted. destruct (lru_reachable_good ok cap m loads Hr) as [Hi _]. case_decide as He.
  - pose proof (wp_lru_prepare_store ok cap hs m loads Hi Hnd He) as Hwp. apply wp_ok in Hwp as (r & m' & Hrun & ids & -> & Hl & Hb & _). eauto.
  - by apply lru_store_refused.
Qed.

(** With all four blocks taken, two more hashes evict the unused block and are refused. *)
Lemma lru_prepare_store_exact_witness :
  let m := (LRU.prepare_store [hash_a; hash_d] (ex_lru 5)).2 in
  lru_reachable cpu_ok 4 (ex_lru 5) [hash_a; hash_a; hash_b] ∧ LRU.prepare_store [[Byte.x65]; [Byte.x66]] m = (Ok None, m).
Proof.
  intros m. split; [exact ex_lru_reachable|].
  assert (lru_reachable cpu_ok 4 m [hash_a; hash_a; hash_b]) as Hr.
  { apply (lru_step _ _ (ex_lru 5) [hash_a; hash_a; hash_b] (PrepareStore [hash_a; hash_d])); [exact ex_lru_reachable| |by vm_compute].
    split; [|done]. apply (bool_decide_unpack _). by vm_compute. }
  assert (NoDup [[Byte.x65]; [Byte.x66]]) as Hnd by (apply (bool_decide_unpack _); by vm_compute).
  pose proof (lru_prepare_store_exact cpu_ok 4 m [hash_a; hash_a; hash_b] [[Byte.x65]; [Byte.x66]] Hr Hnd) as H.
  cbv zeta in H. rewrite decide_False in H; [exact H|]. clear H. intros H. vm_compute in H. by apply H.
Defined.

(** Touching a hash of the ARC manager whose store is not complete raises a
    [KeyError], whatever the other hashes of the call: the block was popped from [t1]
    before [move_to_end], and its backend block belongs to nobody any more. *)
Theorem arc_touch_pending_raises {B : Type} `{!Backend B} (m : ARC.Manager B) h st hs :
  NoDup (ARC.t1 m).*1 → OD.get h (ARC.t1 m) = Some st → is_ready st = false →
  ARC.touch (hs ++ [h]) m = (Raise KeyError, ARC.set_t (OD.del h (ARC.t1 m)) (ARC.t2 m) m).
Proof.
  intros Hnd E Hr. unfold ARC.touch. rewrite reverse_snoc. cbn [for_each].
  unfold mbind, M_bind. unfold ARC.touch_one at 1, mbind, M_bind, get, modify, ARC.move_or_raise. rewrite E, Hr. simpl.
  rewrite decide_True by (by rewrite OD.get_del, decide_True). done.
Qed.

(** The calls of the offloading connector: [prepare_store], then [touch] of the same hashes *)
Lemma arc_touch_pending_raises_witness :
  let m := (ARC.prepare_store [hash_a; hash_b] (ARC.init (new_cpu 16 4) false)).2 in
  (ARC.prepare_store [hash_a; hash_b] (ARC.init (new_cpu 16 4) false)).1 = Ok (Some (mkOutput [hash_a; hash_b] [0; 1] [])) ∧
  (ARC.touch [hash_a; hash_b] m).1 = Raise KeyError.
Proof.
  intros m. split; [by vm_compute|]. change [hash_a; hash_b] with ([hash_a] ++ [hash_b]).
  rewrite (arc_touch_pending_raises m hash_b (mkStatus (-1) 1) [hash_a]); [done|..].
  - apply (bool_decide_unpack _). by vm_compute.
  - by vm_compute.
  - done.
Defined.

(** C23. With callers that also touch no hash being stored and report no failed store of a
    readable block, no call of the ARC manager raises.  Afterwards a hash is in at most
    one of [t1], [t2], [b1] and [b2]; the resident blocks are distinct blocks of the
    backend and all accounted for; counts agree with the loads under way; the target size
    of [t1] lies between 0 and the capacity; and no block is evicted under its reader. *)
Theorem arc_calls_safe {B : Type} `{!Backend B} (ok : B → Z → list Z → Prop) `{!BackendLaws B ok} cap m loads op loads' :
  arc_reachable ok cap m loads → arc_legal m loads op loads' →
  ∃ m', arc_run op m = (Ok (), m') ∧ arc_reachable ok cap m' loads' ∧
    NoDup ((ARC.t1 m' ++ ARC.t2 m').*1 ++ (ARC.b1 m').*1 ++ (ARC.b2 m').*1) ∧
    NoDup (block_id <$> (ARC.t1 m' ++ ARC.t2 m').*2) ∧
    get_num_free_blocks (ARC.backend m') = cap - Z.of_nat (length (ARC.t1 m') + length (ARC.t2 m')) ∧
    (∀ h st, ARC.find h m' = Some st → ref_cnt st = -1 ∧ h ∉ loads' ∨ ref_cnt st = occ h loads') ∧
    (0 <= ARC.target_t1_size m' <= inject_Z cap)%Q ∧
    (∀ h st, h ∈ loads → ARC.find h m = Some st → ∃ st', ARC.find h m' = Some st' ∧ block_id st' = block_id st).
Proof.
  intros Hr Hl. pose proof (wp_arc_run ok cap m loads op loads' (arc_reachable_good ok cap m loads Hr) Hl) as Hwp.
  apply wp_ok in Hwp as ([] & m' & Hrun & [Hi _] & Hk). exists m'. destruct (offload_count ok _ _ _ _ (ai_off _ _ _ _ Hi)) as [Hc _]. split_and!.
  - done.
  - by eapply arc_step.
  - apply Hi.
  - eapply bl_nodup, (of_ids _ _ _ _ _ (ai_off _ _ _ _ Hi)).
  - rewrite Hc. unfold resident. rewrite length_app. done.
  - intros h st Hin. apply (of_ref _ _ _ _ _ (ai_off _ _ _ _ Hi)). by rewrite <-(arc_find_Some ok cap m' loads').
  - apply Hi.
  - apply Hi.
  - intros h st Hin. by apply Hk.
Qed.

Definition ex_arc_ops : list offload_op :=
  [PrepareStore [hash_a; hash_b]; CompleteStore [hash_a; hash_b] true; PrepareLoad [hash_a]; Touch [hash_a]].
Definition ex_arc (n : nat) : ARC.Manager CPUBackend := (for_each (take n ex_arc_ops) arc_run (ARC.init (new_cpu 16 2) true)).2.

Lemma ex_arc_reachable : arc_reachable cpu_ok 2 (ex_arc 4) [hash_a].
Proof.
  apply (arc_step _ _ (ex_arc 3) [hash_a] (Touch [hash_a])); [| |by vm_compute].
  2: { split; [|done]. intros h st ->%list_elem_of_singleton E. vm_compute in E. by injection E as <-. }
  apply (arc_step _ _ (ex_arc 2) [] (PrepareLoad [hash_a])); [|split_and!; [by vm_compute|done|done]|by vm_compute].
  apply (arc_step _ _ (ex_arc 1) [] (CompleteStore [hash_a; hash_b] true)); [|done|by vm_compute].
  apply (arc_step _ _ (ex_arc 0) [] (PrepareStore [hash_a; hash_b])); [by apply (arc_start cpu_ok), cpu_init_ok| |by vm_compute].
  split; [|done]. apply (bool_decide_unpack _). by vm_compute.
Qed.

Lemma arc_calls_safe_witness : arc_reachable cpu_ok 2 (ex_arc 4) [hash_a] ∧
  ∃ m', arc_run (PrepareStore [hash_c]) (ex_arc 4) = (Ok (), m') ∧ arc_reachable cpu_ok 2 m' [hash_a].
Proof.
  split; [exact ex_arc_reachable|].
  destruct (arc_calls_safe cpu_ok 2 (ex_arc 4) [hash_a] (PrepareStore [hash_c]) [hash_a]) as (m' & ? & ? & _).
  - exact ex_arc_reachable.
  - split; [apply NoDup_singleton|done].
  - eauto.
Defined.
