(* ===== verification/RequestQueue.v ===== *)
(** * vllm/v1/core/sched/request_queue.py: the queues of waiting requests

    A waiting queue is a [deque] (FCFS) or a binary heap of the standard library's
    [heapq] (PRIORITY); both implement the interface [RequestQueue].  Requests are
    references: [req] is their type, two requests are equal when they are the same object,
    and [priority] and [arrival_time] read their attributes.  Arrival times are floats, a
    finite float being an integer number of units of 2^-1074 s. *)

From Stdlib Require Import ZArith Lia.
From stdpp Require Import base tactics option list gmap sorting.
From S2P Require Import Prelude.
Local Open Scope Z_scope.

(** ** The interface *)

Class RequestQueue (req Q : Type) := {
  add_request : req → M Q ();
  pop_request : M Q req;
  peek_request : M Q req;
  prepend_request : req → M Q ();
  prepend_requests : Q → M Q ();
  remove_request : req → M Q ();
  remove_requests : list req → M Q ();
  queue_len : Q → nat;
  queue_iter : Q → result (list req);
  queue_reversed : Q → result (list req);
}.

(** ** FCFS *)

Module FCFS.
Section fcfs.
Context {req : Type} `{EqDecision req}.
Abbreviation deque := (list req).

Definition append (r : req) : M deque () := modify (λ d, d ++ [r]).
Definition appendleft (r : req) : M deque () := modify (cons r).
Definition popleft : M deque req :=
  d ← get; match d with [] => raise IndexError | r :: d' => modify (λ _, d') ;; mret r end.
Definition peek : M deque req := d ← get; match d with [] => raise IndexError | r :: _ => mret r end.
(** [extendleft] appends on the left one by one. *)
Definition extendleft (rs : list req) : M deque () := for_each rs appendleft.
(** [remove]: the first occurrence *)
Fixpoint del_first (r : req) (d : deque) : option deque :=
  match d with [] => None | r' :: d' => if decide (r' = r) then Some d' else cons r' <$> del_first r d' end.
Definition remove (r : req) : M deque () :=
  d ← get; match del_first r d with None => raise ValueError | Some d' => modify (λ _, d') end.
Definition remove_all (rs : list req) : M deque () := modify (filter (λ r, r ∉ rs)).
End fcfs.
End FCFS.

#[export] Instance fcfs_queue {req} `{EqDecision req} : RequestQueue req (list req) := {
  add_request := FCFS.append;
  pop_request := FCFS.popleft;
  peek_request := FCFS.peek;
  prepend_request := FCFS.appendleft;
  prepend_requests other := FCFS.extendleft (reverse other);
  remove_request := FCFS.remove;
  remove_requests := FCFS.remove_all;
  queue_len := length;
  queue_iter d := Ok d;
  queue_reversed d := Ok (reverse d);
}.

(** ** heapq, on tuples (priority, arrival time, request) *)

Module Heap.
Section heap.
Context {req : Type} `{EqDecision req}.

Record entry := mkEntry { e_priority : Z; e_arrival : Z; e_request : req }.
#[export] Instance entry_eq_dec : EqDecision entry.
Proof. solve_decision. Defined.
Abbreviation heap := (list entry).

(** [a < b] on tuples: the first components that differ decide.  Two different requests
  are not ordered: [Request] defines no [__lt__]. *)
Definition entry_lt (a b : entry) : result bool :=
  if decide (e_priority a = e_priority b) then
    if decide (e_arrival a = e_arrival b) then
      if decide (e_request a = e_request b) then Ok false else Raise TypeError
    else Ok (e_arrival a <? e_arrival b)
  else Ok (e_priority a <? e_priority b).

Definition swap (i j : nat) : M heap () :=
  h ← get; x ← index h i; y ← index h j; modify (λ h, <[i := y]> (<[j := x]> h)).

(** [siftdown]: the item at [pos] moves towards [startpos] while it is smaller than its parent. *)
Fixpoint siftdown (fuel startpos pos : nat) : M heap () :=
  match fuel with
  | O => raise OutOfFuel
  | S fuel' =>
    if (startpos <? pos)%nat then
      let parentpos := ((pos - 1) / 2)%nat in
      h ← get;
      newitem ← index h pos;
      parent ← index h parentpos;
      cmp ← of_result (entry_lt newitem parent);
      if cmp : bool then swap parentpos pos ;; siftdown fuel' startpos parentpos else mret ()
    else mret ()
  end.

(** The first loop of [siftup]: the smaller child moves up until a leaf is reached. *)
Fixpoint sift_to_leaf (fuel pos : nat) : M heap nat :=
  match fuel with
  | O => raise OutOfFuel
  | S fuel' =>
    h ← get;
    let endpos := length h in
    if (pos <? endpos / 2)%nat then
      let childpos := (2 * pos + 1)%nat in
      childpos ← (if (childpos + 1 <? endpos)%nat then
          a ← index h childpos;
          b ← index h (childpos + 1);
          cmp ← of_result (entry_lt a b);
          mret (if cmp : bool then childpos else (childpos + 1)%nat)
        else mret childpos);
      swap childpos pos ;; sift_to_leaf fuel' childpos
    else mret pos
  end.

Definition siftup (pos : nat) : M heap () :=
  h ← get;
  leaf ← sift_to_leaf (S (length h)) pos;
  siftdown (S leaf) pos leaf.

Definition heappush (e : entry) : M heap () :=
  modify (λ h, h ++ [e]) ;;
  h ← get;
  siftdown (length h) 0 (length h - 1).

Definition heappop : M heap entry :=
  h ← get;
  match last h with
  | None => raise IndexError
  | Some lastelt =>
    modify (take (length h - 1)) ;;
    h' ← get;
    match h' with
    | [] => mret lastelt
    | returnitem :: _ => modify (<[0%nat := lastelt]>) ;; siftup 0 ;; mret returnitem
    end
  end.

(** [for i in reversed(range(n//2)): siftup(i)] *)
Definition heapify : M heap () := h ← get; for_each (reverse (seq 0 (length h / 2))) siftup.
End heap.
Arguments entry : clear implicits.
End Heap.

(** ** PRIORITY *)

Module Priority.
Section priority.
Context {req : Type} `{EqDecision req} (priority arrival_time : req → Z).
Abbreviation heap := (list (Heap.entry req)).

Definition entry_of (r : req) : Heap.entry req := Heap.mkEntry (priority r) (arrival_time r) r.
Definition add (r : req) : M heap () := Heap.heappush (entry_of r).
Definition pop : M heap req :=
  h ← get;
  if bool_decide (h = []) then raise IndexError else e ← Heap.heappop; mret (Heap.e_request e).
Definition peek : M heap req :=
  h ← get; match h with [] => raise IndexError | e :: _ => mret (Heap.e_request e) end.
Definition remove (r : req) : M heap () := modify (filter (λ e, Heap.e_request e ≠ r)) ;; Heap.heapify.
Definition remove_all (rs : list req) : M heap () := modify (filter (λ e, Heap.e_request e ∉ rs)) ;; Heap.heapify.

(** [while heap_copy: ...] of [__iter__], every request handed to [body] as it is yielded *)
Fixpoint iterate {S} (fuel : nat) (heap_copy : heap) (body : req → M S ()) : M S () :=
  match fuel, heap_copy with
  | _, [] => mret ()
  | O, _ => raise OutOfFuel
  | Datatypes.S fuel', _ =>
    match Heap.heappop heap_copy with
    | (Ok e, heap_copy') => body (Heap.e_request e) ;; iterate fuel' heap_copy' body
    | (Raise ex, _) => raise ex
    end
  end.

(** [list(queue)] *)
Definition iter_list (h : heap) : result (list req) :=
  match iterate (length h) h (λ r, modify (λ l : list req, l ++ [r])) [] with
  | (Ok _, l) => Ok l
  | (Raise ex, _) => Raise ex
  end.

Definition prepend_all (other : heap) : M heap () := iterate (length other) other add.
End priority.
End Priority.

Definition priority_queue {req} `{EqDecision req} (priority arrival_time : req → Z) : RequestQueue req (list (Heap.entry req)) := {|
  add_request := Priority.add priority arrival_time;
  pop_request := Priority.pop;
  peek_request := Priority.peek;
  prepend_request := Priority.add priority arrival_time;
  prepend_requests := Priority.prepend_all priority arrival_time;
  remove_request := Priority.remove;
  remove_requests := Priority.remove_all;
  queue_len := length;
  queue_iter := Priority.iter_list;
  queue_reversed h := match Priority.iter_list h with Ok l => Ok (reverse l) | Raise ex => Raise ex end;
|}.

(** [create_request_queue]: an empty queue of the policy *)
Inductive SchedulingPolicy := FCFS_policy | PRIORITY_policy.
Definition create_request_queue (req : Type) (policy : SchedulingPolicy) : list req + list (Heap.entry req) :=
  match policy with PRIORITY_policy => inr [] | FCFS_policy => inl [] end.

(** ** The heap invariant *)

Section heap_proofs.
Context {req : Type} `{EqDecision req}.
Abbreviation entry := (Heap.entry req).
Implicit Types (h : list entry) (a b e x y : entry) (i j k pos start : nat).

(** The order the tuples are compared by, requests left out *)
Definition ele a b : Prop :=
  Heap.e_priority a < Heap.e_priority b ∨ Heap.e_priority a = Heap.e_priority b ∧ Heap.e_arrival a ≤ Heap.e_arrival b.
Infix "≼" := ele (at level 70).

#[local] Instance ele_refl : Reflexive ele.
Proof. intros a. unfold ele. lia. Qed.
#[local] Instance ele_trans : Transitive ele.
Proof. intros a b c. unfold ele. lia. Qed.
Lemma ele_total a b : a ≼ b ∨ b ≼ a.
Proof. unfold ele. lia. Qed.

(** No two different requests have the same priority and arrival time. *)
Definition tie_free h : Prop := ∀ a b, a ∈ h → b ∈ h → a ≼ b → b ≼ a → a = b.

#[global] Instance tie_free_perm : Proper ((≡ₚ) ==> iff) tie_free.
Proof. intros h h' Hp. unfold tie_free. by setoid_rewrite Hp. Qed.

Lemma tie_free_sub h h' : (∀ a, a ∈ h' → a ∈ h) → tie_free h → tie_free h'.
Proof. unfold tie_free. eauto. Qed.

Lemma entry_lt_spec h a b : tie_free h → a ∈ h → b ∈ h → ∃ c, Heap.entry_lt a b = Ok c ∧ if c then a ≼ b else b ≼ a.
Proof.
  intros Ht Ha Hb. unfold Heap.entry_lt. repeat case_decide.
  - eexists. split; [done|]. unfold ele. lia.
  - exfalso. assert (a = b) as ->; [|done]. apply (Ht a b); [done|done|unfold ele; lia..].
  - eexists. split; [done|]. destruct (Z.ltb_spec (Heap.e_arrival a) (Heap.e_arrival b)); unfold ele; lia.
  - eexists. split; [done|]. destruct (Z.ltb_spec (Heap.e_priority a) (Heap.e_priority b)); unfold ele; lia.
Qed.

Lemma wp_entry_lt h a b (Q : bool → list entry → Prop) : tie_free h → a ∈ h → b ∈ h →
  (a ≼ b → Q true h) → (b ≼ a → Q false h) → wp (of_result (Heap.entry_lt a b)) h Q.
Proof. intros Ht Ha Hb H1 H2. destruct (entry_lt_spec h a b Ht Ha Hb) as ([] & -> & ?); apply wp_ret; auto. Qed.

(** Exchanging two elements *)
Lemma swap_perm i j x y h : h !! i = Some x → h !! j = Some y → <[i := y]> (<[j := x]> h) ≡ₚ h.
Proof.
  intros Hi Hj. apply Permutation_inj. split; [by rewrite !length_insert|].
  exists (λ k, if decide (k = i) then j else if decide (k = j) then i else k). split.
  - intros a b. repeat case_decide; congruence.
  - intros k. assert (i < length h ∧ j < length h)%nat as [? ?] by (split; by eapply lookup_lt_Some). repeat case_decide; subst.
    + by rewrite list_lookup_insert_eq by (by rewrite length_insert).
    + by rewrite list_lookup_insert_ne, list_lookup_insert_eq by done.
    + by rewrite !list_lookup_insert_ne by done.
Qed.

Lemma wp_swap i j x y h (Q : () → list entry → Prop) : h !! i = Some x → h !! j = Some y →
  Q () (<[i := y]> (<[j := x]> h)) → wp (Heap.swap i j) h Q.
Proof.
  intros Hi Hj HQ. unfold Heap.swap. do 2 wp_step. apply wp_bind, (wp_index _ _ x); [done|]. apply wp_bind, (wp_index _ _ y); [done|]. by wp_step.
Qed.

(** The parent of a position, and the edges of the tree below position [k] *)
Definition par i : nat := ((i - 1) / 2)%nat.
Definition edge_ok h i : Prop := ∀ x y, h !! i = Some x → h !! par i = Some y → y ≼ x.
Definition ok_from h k (P : nat → Prop) : Prop := ∀ i, (0 < i)%nat → (k ≤ par i)%nat → P i → edge_ok h i.
Definition is_heap h : Prop := ok_from h 0 (λ _, True).

(** [pos] is in the subtree of [k]. *)
Inductive below k : nat → Prop :=
  | below_here : below k k
  | below_child pos : below k (par pos) → (0 < pos)%nat → below k pos.

Lemma below_le k pos : below k pos → (k ≤ pos)%nat.
Proof. induction 1 as [|pos _ IH]; [lia|]. unfold par in IH. assert ((pos - 1) / 2 ≤ pos - 1)%nat by (apply Nat.Div0.div_le_upper_bound; lia). lia. Qed.

Lemma par_lt pos : (0 < pos)%nat → (par pos < pos)%nat.
Proof. intros ?. unfold par. assert ((pos - 1) / 2 ≤ pos - 1)%nat by (apply Nat.Div0.div_le_upper_bound; lia). lia. Qed.

Lemma below_par k pos : below k pos → (k < pos)%nat → below k (par pos).
Proof. intros [|pos' H] Hk; [lia|done]. Qed.

Lemma par_child i pos : (0 < i)%nat → par i = pos → i = (2 * pos + 1)%nat ∨ i = (2 * pos + 2)%nat.
Proof. unfold par. intros Hi <-. pose proof (Nat.div_mod_eq (i - 1) 2). pose proof (Nat.mod_upper_bound (i - 1) 2). lia. Qed.
Lemma par_left pos : par (2 * pos + 1) = pos.
Proof. unfold par. replace (2 * pos + 1 - 1)%nat with (pos * 2)%nat by lia. by apply Nat.div_mul. Qed.
Lemma par_right pos : par (2 * pos + 2) = pos.
Proof. unfold par. replace (2 * pos + 2 - 1)%nat with (1 + pos * 2)%nat by lia. rewrite Nat.div_add by lia. simpl. lia. Qed.

(** The children of [pos] are not smaller than its parent: the item at [pos] may be replaced. *)
Definition bridge h k pos : Prop := (k < pos)%nat → ∀ i x y, (0 < i)%nat → par i = pos → h !! i = Some x → h !! par pos = Some y → y ≼ x.

(** Looking up in a list after [swap] *)
Lemma lookup_swap i j x y h k : h !! i = Some x → h !! j = Some y →
  <[i := y]> (<[j := x]> h) !! k = if decide (k = i) then Some y else if decide (k = j) then Some x else h !! k.
Proof.
  intros Hi Hj. assert (i < length h ∧ j < length h)%nat as [? ?] by (split; by eapply lookup_lt_Some). repeat case_decide; subst.
  - by rewrite list_lookup_insert_eq by (by rewrite length_insert).
  - by rewrite list_lookup_insert_ne, list_lookup_insert_eq by done.
  - by rewrite !list_lookup_insert_ne by done.
Qed.

(** Moving the item at [pos] up keeps every edge but the new one above it. *)
Lemma bubble_up h k pos x y : (k < pos)%nat → below k pos → h !! pos = Some x → h !! par pos = Some y → x ≼ y →
  ok_from h k (λ i, i ≠ pos) → bridge h k pos →
  let h' := <[par pos := x]> (<[pos := y]> h) in ok_from h' k (λ i, i ≠ par pos) ∧ bridge h' k (par pos).
Proof.
  intros Hk Hb Hx Hy Hxy Hok Hbr h'. pose proof (par_lt pos ltac:(lia)) as Hp.
  assert (∀ i, h' !! i = if decide (i = par pos) then Some x else if decide (i = pos) then Some y else h !! i) as Hl by (intros i; by apply lookup_swap).
  split.
  - intros i Hi Hki Hne a b. rewrite !Hl, decide_False by done. destruct (decide (i = pos)) as [->|Hip].
    + rewrite decide_True by done. by intros [= ->] [= ->].
    + intros Ha. destruct (decide (par i = par pos)) as [E|E]; [intros [= ->]|].
      { transitivity y; [done|]. apply (Hok i); [done|done|done|done|]. by rewrite E. }
      destruct (decide (par i = pos)) as [E'|E']; [intros [= ->]; by apply (Hbr Hk i)|]. by apply (Hok i).
  - intros Hk' i a b Hi Hpi. rewrite !Hl. pose proof (par_lt (par pos) ltac:(lia)).
    rewrite (decide_False (P := i = par pos)), (decide_False (P := par (par pos) = par pos)), (decide_False (P := par (par pos) = pos))
      by (pose proof (par_lt i Hi); lia). intros Ha Hb'.
    assert (b ≼ y) as Hby by (apply (Hok (par pos)); [lia|apply below_le, below_par; [by apply below_par|done]|lia|done|done]).
    destruct (decide (i = pos)) as [->|Hip]; [by injection Ha as ->|]. transitivity y; [done|].
    apply (Hok i); [done|lia|done|done|]. by rewrite Hpi.
Qed.

Lemma edge_mono h k (P Q : nat → Prop) : (∀ i, Q i → P i ∨ edge_ok h i) → ok_from h k P → ok_from h k Q.
Proof. intros HPQ Hok i Hi Hk HQ. destruct (HPQ i HQ); [by apply Hok|done]. Qed.

Lemma wp_siftdown fuel start : ∀ pos h, (pos < fuel)%nat → (pos < length h)%nat → tie_free h → below start pos →
  ok_from h start (λ i, i ≠ pos) → bridge h start pos →
  wp (Heap.siftdown fuel start pos) h (λ _ h', h' ≡ₚ h ∧ ok_from h' start (λ _, True)).
Proof.
  induction fuel as [|fuel IH]; intros pos h Hf Hlen Ht Hb Hok Hbr; [lia|]. cbn [Heap.siftdown].
  destruct (Nat.ltb_spec start pos) as [Hlt|Hge].
  2: { wp_step. split; [done|]. apply below_le in Hb. intros i Hi Hk _. apply Hok; [done|done|]. pose proof (par_lt i Hi). lia. }
  fold (par pos). pose proof (par_lt pos ltac:(lia)) as Hp.
  destruct (lookup_lt_is_Some_2 h pos Hlen) as [x Hx]. destruct (lookup_lt_is_Some_2 h (par pos) ltac:(lia)) as [y Hy].
  do 2 wp_step. apply wp_bind, (wp_index _ _ x); [done|]. apply wp_bind, (wp_index _ _ y); [done|].
  apply wp_bind, wp_entry_lt; [done|by eapply list_elem_of_lookup_2|by eapply list_elem_of_lookup_2| |].
  - intros Hxy. apply wp_bind, (wp_swap _ _ y x); [done|done|].
    pose proof (bubble_up h start pos x y Hlt Hb Hx Hy Hxy Hok Hbr) as [Hok' Hbr'].
    pose proof (swap_perm (par pos) pos y x h Hy Hx) as Hperm. set (h' := <[par pos := x]> (<[pos := y]> h)) in *.
    eapply wp_mono; [apply (IH (par pos) h')|].
    + lia.
    + unfold h'. rewrite !length_insert. lia.
    + by rewrite Hperm.
    + by apply below_par.
    + done.
    + done.
    + intros [] h'' [Hp' ?]. split; [by rewrite Hp'|done].
  - intros Hyx. apply wp_ret. split; [done|]. intros i Hi Hk _. destruct (decide (i = pos)) as [->|]; [|by apply Hok].
    intros a b Ha Hb'. by simplify_eq.
Qed.

(** While an item sinks to a leaf: its own edges are unknown, and its children may take its place. *)
Definition sinking h k pos : Prop := ok_from h k (λ i, i ≠ pos ∧ par i ≠ pos) ∧ bridge h k pos.

Lemma sink_step h k pos c x y : below k pos → (0 < c)%nat → par c = pos → h !! pos = Some x → h !! c = Some y →
  (∀ i z, (0 < i)%nat → par i = pos → h !! i = Some z → y ≼ z) →
  sinking h k pos → sinking (<[c := x]> (<[pos := y]> h)) k c.
Proof.
  intros Hb Hc Hpc Hx Hy Hmin [Hok Hbr]. pose proof (par_lt c Hc) as Hlt. pose proof (below_le k pos Hb).
  assert (∀ i, <[c := x]> (<[pos := y]> h) !! i = if decide (i = c) then Some x else if decide (i = pos) then Some y else h !! i) as Hl by (intros i; by apply lookup_swap).
  split.
  - intros i Hi Hki [Hic Hpic] a b. rewrite !Hl, (decide_False (P := i = c)), (decide_False (P := par i = c)) by done.
    destruct (decide (i = pos)) as [->|Hip].
    + intros [= ->]. rewrite decide_False by (pose proof (par_lt pos Hi); lia). intros Hb'.
      apply (Hbr ltac:(pose proof (par_lt pos Hi); lia) c); done.
    + intros Ha. destruct (decide (par i = pos)) as [E|E]; [intros [= ->]; by eapply Hmin|]. by apply (Hok i).
  - intros _ i a b Hi Hpi. rewrite !Hl, Hpc. rewrite (decide_False (P := i = c)), (decide_False (P := i = pos)) by (pose proof (par_lt i Hi); lia).
    rewrite (decide_False (P := pos = c)), (decide_True (P := pos = pos)) by (done || lia). intros Ha [= ->].
    apply (Hok i); [done|lia| |done|by rewrite Hpi]. pose proof (par_lt i Hi). lia.
Qed.

Lemma wp_sift_to_leaf fuel k : ∀ pos h, (length h < fuel + pos)%nat → (pos < length h)%nat → tie_free h → below k pos → sinking h k pos →
  wp (Heap.sift_to_leaf fuel pos) h (λ leaf h', h' ≡ₚ h ∧ (leaf < length h')%nat ∧ below k leaf ∧
    ok_from h' k (λ i, i ≠ leaf) ∧ bridge h' k leaf).
Proof.
  induction fuel as [|fuel IH]; intros pos h Hf Hlen Ht Hb Hs; [lia|]. cbn [Heap.sift_to_leaf]. apply wp_bind, wp_gets. cbv beta zeta.
  pose proof (Nat.div_mod_eq (length h) 2) as Hdiv. pose proof (Nat.mod_upper_bound (length h) 2 ltac:(lia)) as Hmod.
  destruct (Nat.ltb_spec pos (length h / 2)) as [Hlt|Hge].
  2: { apply wp_ret. cbv beta. split_and!; [done|done|done| |apply Hs]. intros i Hi Hk Hne. destruct (decide (par i = pos)) as [E|]; [|by apply Hs].
       intros x y Hx%lookup_lt_Some. apply par_child in E; lia. }
  destruct (lookup_lt_is_Some_2 h pos Hlen) as [x Hx]. destruct (lookup_lt_is_Some_2 h (2 * pos + 1)%nat ltac:(lia)) as [l Hl].
  assert (∀ c y, (0 < c)%nat → par c = pos → h !! c = Some y → (∀ i z, (0 < i)%nat → par i = pos → h !! i = Some z → y ≼ z) →
    wp (Heap.swap c pos ;; Heap.sift_to_leaf fuel c) h (λ leaf h', h' ≡ₚ h ∧ (leaf < length h')%nat ∧ below k leaf ∧
      ok_from h' k (λ i, i ≠ leaf) ∧ bridge h' k leaf)) as Hnext.
  { intros c y Hc Hpc Hy Hmin. apply wp_bind, (wp_swap _ _ y x); [done|done|].
    pose proof (swap_perm c pos y x h Hy Hx) as Hperm. pose proof (sink_step h k pos c x y Hb Hc Hpc Hx Hy Hmin Hs) as Hs'.
    apply lookup_lt_Some in Hy as Hclen. pose proof (par_lt c Hc). set (h' := <[c := x]> (<[pos := y]> h)) in *.
    assert (length h' = length h) as El by (unfold h'; by rewrite !length_insert).
    eapply wp_mono; [apply (IH c h')|]; [lia|lia|by rewrite Hperm|by apply below_child; [rewrite Hpc|]|done|].
    intros leaf h'' (Hp' & ?). split; [by rewrite Hp'|done]. }
  cbv zeta. apply wp_bind. destruct (Nat.ltb_spec (2 * pos + 1 + 1) (length h)) as [Hr|Hr].
  - replace (2 * pos + 1 + 1)%nat with (2 * pos + 2)%nat in * by lia.
    destruct (lookup_lt_is_Some_2 h (2 * pos + 2)%nat Hr) as [r Hrr]. apply wp_bind, (wp_index _ _ l); [done|]. apply wp_bind, (wp_index _ _ r); [done|].
    apply wp_bind, wp_entry_lt; [done|by eapply list_elem_of_lookup_2|by eapply list_elem_of_lookup_2| |].
    + intros Hlr. apply wp_ret, (Hnext _ l); [lia|apply par_left|done|]. intros i z Hi [->| ->]%(par_child i) Hz; [|..|done]; by simplify_eq.
    + intros Hrl. apply wp_ret, (Hnext _ r); [lia|apply par_right|done|]. intros i z Hi [->| ->]%(par_child i) Hz; [|..|done]; by simplify_eq.
  - apply wp_ret, (Hnext _ l); [lia|apply par_left|done|]. intros i z Hi [->| ->]%(par_child i) Hz; [by simplify_eq| |done].
    apply lookup_lt_Some in Hz. lia.
Qed.

Lemma wp_siftup k h : (k < length h)%nat → tie_free h → ok_from h (S k) (λ _, True) →
  wp (Heap.siftup k) h (λ _ h', h' ≡ₚ h ∧ ok_from h' k (λ _, True)).
Proof.
  intros Hk Ht Hok. unfold Heap.siftup. apply wp_bind, wp_gets, wp_bind. eapply wp_mono; [apply (wp_sift_to_leaf _ k)|].
  - lia.
  - done.
  - done.
  - constructor.
  - split; [|intros ?; lia]. intros i Hi Hki [H1 H2]. apply Hok; [done|lia|done].
  - intros leaf h' (Hp & Hlt & Hb & Hok' & Hbr). eapply wp_mono; [apply wp_siftdown; [lia|done|by rewrite Hp|done|done|done]|].
    intros [] h'' [Hp' ?]. split; [by rewrite Hp'|done].
Qed.

Lemma wp_heappush e h : tie_free (e :: h) → is_heap h → wp (Heap.heappush e) h (λ _ h', h' ≡ₚ e :: h ∧ is_heap h').
Proof.
  intros Ht Hh. unfold Heap.heappush. apply wp_bind, wp_modify, wp_bind, wp_gets. cbv beta. rewrite length_app. cbn [length]. replace (length h + 1 - 1)%nat with (length h) by lia.
  assert (h ++ [e] ≡ₚ e :: h) as Hp by (by rewrite Permutation_app_comm).
  eapply wp_mono; [apply wp_siftdown; [lia|rewrite length_app; simpl; lia|by rewrite Hp| | |]|].
  - induction (length h) as [n IH] using lt_wf_ind. destruct n as [|n]; [constructor|]. apply below_child; [|lia]. apply IH, par_lt. lia.
  - intros i Hi _ Hne x y Hx Hy. pose proof (par_lt i Hi). apply lookup_lt_Some in Hx as Hl. rewrite length_app in Hl. simpl in Hl.
    rewrite lookup_app_l in Hx, Hy by lia. by apply (Hh i); [|lia|..].
  - intros _ i x y Hi Hpi Hx. apply lookup_lt_Some in Hx. rewrite length_app in Hx. simpl in Hx. pose proof (par_lt i Hi). lia.
  - intros [] h' [Hp' ?]. split; [by rewrite Hp', Hp|done].
Qed.

(** The root of a heap is a minimum. *)
Lemma heap_root_le h x i y : is_heap h → h !! 0%nat = Some x → h !! i = Some y → x ≼ y.
Proof.
  intros Hh H0. revert y. induction i as [i IH] using lt_wf_ind. intros y Hy. destruct (decide (i = 0)%nat) as [->|Hne]; [by simplify_eq|].
  pose proof (par_lt i ltac:(lia)) as Hp. apply lookup_lt_Some in Hy as Hl. destruct (lookup_lt_is_Some_2 h (par i) ltac:(lia)) as [z Hz].
  transitivity z; [by eapply IH|]. apply (Hh i); [lia|lia|done|done|done].
Qed.

Lemma wp_heappop h : h ≠ [] → tie_free h → is_heap h →
  wp Heap.heappop h (λ e h', e :: h' ≡ₚ h ∧ is_heap h' ∧ ∀ x, x ∈ h → e ≼ x).
Proof.
  intros Hne Ht Hh. unfold Heap.heappop. apply wp_bind, wp_gets.
  destruct (last h) as [z|] eqn:El; [|by apply last_None in El]. apply last_Some in El as [h0 ->].
  apply wp_bind, wp_modify, wp_bind, wp_gets. rewrite length_app. cbn [length]. replace (length h0 + 1 - 1)%nat with (length h0) by lia.
  rewrite take_app_length. destruct h0 as [|r t].
  - apply wp_ret. split_and!; [done| |set_solver]. intros i Hi _ _ x y Hx. by rewrite lookup_nil in Hx.
  - apply wp_bind, wp_modify. cbn [insert list_insert]. assert (z :: r :: t ≡ₚ (r :: t) ++ [z]) as Hp by (by rewrite Permutation_app_comm).
    apply wp_bind. eapply wp_mono; [apply wp_siftup|].
    + simpl. lia.
    + apply (tie_free_sub ((r :: t) ++ [z])); [|done]. set_solver.
    + intros i Hi Hk _ x y Hx Hy. pose proof (par_lt i Hi). apply lookup_lt_Some in Hx as Hl. simpl in Hl.
      destruct i as [|i]; [lia|]. destruct (par (S i)) as [|p] eqn:Ep; [lia|]. simpl in Hx, Hy.
      apply (Hh (S i)); [done|lia|done| |]; rewrite ?Ep; rewrite lookup_app_l by (simpl; lia); done.
    + intros [] h' [Hp' Hok]. apply wp_ret. split_and!; [by rewrite Hp', <-Hp, Permutation_swap|done|].
      intros x [i Hi]%list_elem_of_lookup. by eapply (heap_root_le ((r :: t) ++ [z])).
Qed.

Lemma wp_heapify h : tie_free h → wp Heap.heapify h (λ _ h', h' ≡ₚ h ∧ is_heap h').
Proof.
  intros Ht. unfold Heap.heapify. apply wp_bind, wp_gets.
  assert (∀ k h0, (k ≤ length h0)%nat → tie_free h0 → ok_from h0 k (λ _, True) →
    wp (for_each (reverse (seq 0 k)) Heap.siftup) h0 (λ _ h', h' ≡ₚ h0 ∧ is_heap h')) as Hgen.
  { induction k as [|k IH]; intros h0 Hk Ht0 Hok; [by apply wp_ret|]. rewrite seq_S, reverse_snoc. cbn [for_each]. apply wp_bind.
    eapply wp_mono; [apply wp_siftup; [lia|done|done]|]. intros [] h1 [Hp1 Hok1].
    eapply wp_mono; [apply (IH h1); [rewrite Hp1; lia|by rewrite Hp1|done]|]. intros [] h2 [Hp2 ?]. split; [by rewrite Hp2|done]. }
  apply Hgen; [apply Nat.Div0.div_le_upper_bound; lia|done|]. intros i Hi Hk _ x y Hx%lookup_lt_Some. exfalso.
  pose proof (Nat.div_mod_eq (length h) 2). pose proof (Nat.mod_upper_bound (length h) 2 ltac:(lia)). destruct (par_child i (par i) Hi eq_refl); lia.
Qed.
End heap_proofs.

(** ** What a priority queue promises: a list kept in order *)

Inductive queue_op (req : Type) :=
  | QAdd (r : req) | QPop | QPeek | QPrepend (r : req) | QPrependAll (rs : list req)
  | QRemove (r : req) | QRemoveAll (rs : list req) | QLen | QIter | QReversed.
Arguments QAdd {req} r. Arguments QPop {req}. Arguments QPeek {req}. Arguments QPrepend {req} r. Arguments QPrependAll {req} rs.
Arguments QRemove {req} r. Arguments QRemoveAll {req} rs. Arguments QLen {req}. Arguments QIter {req}. Arguments QReversed {req}.

Inductive answer (req : Type) := ANone | AReq (r : req) | ALen (n : nat) | AList (rs : list req).
Arguments ANone {req}. Arguments AReq {req} r. Arguments ALen {req} n. Arguments AList {req} rs.

Section clients.
Context {req : Type}.

(** One call through the interface; the queue given to [prepend_requests] was filled by
    [prepend_request], as the scheduler does with the requests it skips. *)
Definition run_op {Q : Type} `{!RequestQueue req Q} (empty : Q) (op : queue_op req) : M Q (answer req) :=
  match op with
  | QAdd r => add_request r ;; mret ANone
  | QPop => r ← pop_request; mret (AReq r)
  | QPeek => r ← peek_request; mret (AReq r)
  | QPrepend r => prepend_request r ;; mret ANone
  | QPrependAll rs =>
      match for_each rs prepend_request empty with
      | (Ok _, other) => prepend_requests other ;; mret ANone
      | (Raise ex, _) => raise ex
      end
  | QRemove r => remove_request r ;; mret ANone
  | QRemoveAll rs => remove_requests rs ;; mret ANone
  | QLen => q ← get; mret (ALen (queue_len q))
  | QIter => q ← get; l ← of_result (queue_iter q); mret (AList l)
  | QReversed => q ← get; l ← of_result (queue_reversed q); mret (AList l)
  end.

(** A run goes on after an exception; what it returns is every answer. *)
Fixpoint run_ops {Q A O : Type} (step : O → M Q A) (ops : list O) (q : Q) : list (result A) :=
  match ops with
  | [] => []
  | op :: ops' => let '(r, q') := step op q in r :: run_ops step ops' q'
  end.
End clients.

Section priority_spec.
Context {req : Type} `{EqDecision req} (priority arrival_time : req → Z).
Implicit Types (r : req) (L : list req) (h : list (Heap.entry req)).

(** [r] goes before [r']. *)
Definition before r r' : Prop := priority r < priority r' ∨ priority r = priority r' ∧ arrival_time r ≤ arrival_time r'.
#[export] Instance before_dec r r' : Decision (before r r').
Proof. unfold before. apply _. Defined.

Fixpoint insert_sorted r L : list req :=
  match L with
  | [] => [r]
  | r' :: L' => if decide (before r r') then r :: L else r' :: insert_sorted r L'
  end.

Definition spec_op (op : queue_op req) : M (list req) (answer req) :=
  match op with
  | QAdd r | QPrepend r => modify (insert_sorted r) ;; mret ANone
  | QPop => L ← get; match L with [] => raise IndexError | r :: L' => modify (λ _, L') ;; mret (AReq r) end
  | QPeek => L ← get; match L with [] => raise IndexError | r :: _ => mret (AReq r) end
  | QPrependAll rs => modify (λ L, foldr insert_sorted L rs) ;; mret ANone
  | QRemove r => modify (filter (λ r', r' ≠ r)) ;; mret ANone
  | QRemoveAll rs => modify (filter (λ r', r' ∉ rs)) ;; mret ANone
  | QLen => L ← get; mret (ALen (length L))
  | QIter => L ← get; mret (AList L)
  | QReversed => L ← get; mret (AList (reverse L))
  end.

Lemma insert_sorted_perm r L : insert_sorted r L ≡ₚ r :: L.
Proof. induction L as [|r' L IH]; simpl; [done|]. case_decide; [done|]. rewrite IH. apply Permutation_swap. Qed.

Lemma insert_sorted_sorted r L : StronglySorted before L → StronglySorted before (insert_sorted r L).
Proof.
  induction 1 as [|r' L HL IH Hr]; simpl; [repeat constructor|]. case_decide as Hb.
  - constructor; [by constructor|]. constructor; [done|]. eapply Forall_impl; [exact Hr|]. intros r2. unfold before in *. simpl. lia.
  - constructor; [done|]. rewrite insert_sorted_perm. constructor; [unfold before in *; lia|done].
Qed.

Context (no_ties : ∀ r r', priority r = priority r' → arrival_time r = arrival_time r' → r = r').
Abbreviation entry_of := (Priority.entry_of priority arrival_time).

(** The heap holds the requests of the list, which is in order. *)
Record rep h L : Prop := {
  rep_perm : h ≡ₚ entry_of <$> L;
  rep_heap : is_heap h;
  rep_sorted : StronglySorted before L;
}.

Lemma ele_before r r' : ele (entry_of r) (entry_of r') ↔ before r r'.
Proof. done. Qed.

Lemma entries_tie_free L : tie_free (entry_of <$> L).
Proof.
  intros a b (r & -> & _)%list_elem_of_fmap (r' & -> & _)%list_elem_of_fmap. rewrite !ele_before. unfold before. intros H1 H2.
  f_equal. apply no_ties; lia.
Qed.

Lemma rep_tie_free h L : rep h L → tie_free h.
Proof. intros [Hp _ _]. rewrite Hp. apply entries_tie_free. Qed.

Lemma rep_nil : rep [] [].
Proof. split; [done| |constructor]. intros i Hi _ _ x y Hx. by rewrite lookup_nil in Hx. Qed.

Lemma rep_empty h L : rep h L → h = [] ↔ L = [].
Proof.
  intros [Hp _ _]. split; intros ->.
  - apply Permutation_nil_l in Hp. by destruct L.
  - by apply Permutation_nil_r in Hp.
Qed.

Lemma wp_priority_add r h L : rep h L → wp (Priority.add priority arrival_time r) h (λ _ h', rep h' (insert_sorted r L)).
Proof.
  intros Hr. pose proof Hr as [Hp Hh Hs]. unfold Priority.add. eapply wp_mono; [apply wp_heappush; [|done]|].
  - rewrite Hp, <-(fmap_cons entry_of). apply entries_tie_free.
  - intros [] h' [Hp' Hh']. split; [|done|by apply insert_sorted_sorted]. by rewrite Hp', insert_sorted_perm, Hp.
Qed.

(** The entry popped is that of the first request of the list. *)
Lemma wp_rep_heappop h r L : rep h (r :: L) → wp Heap.heappop h (λ e h', e = entry_of r ∧ rep h' L).
Proof.
  intros Hr. pose proof Hr as [Hp Hh Hs]. assert (h ≠ []) as Hne by (intros E; by apply (rep_empty h (r :: L)) in E).
  eapply wp_mono; [apply wp_heappop; [done|by eapply rep_tie_free|done]|]. intros e h' (Hp' & Hh' & Hmin).
  assert (e = entry_of r) as ->.
  { assert (e ∈ entry_of <$> (r :: L)) as He by (rewrite <-Hp, <-Hp'; left). apply (entries_tie_free (r :: L)); [done|left| |].
    - apply Hmin. rewrite Hp. left.
    - apply list_elem_of_fmap in He as (r' & -> & Hr'). rewrite ele_before. apply StronglySorted_inv in Hs as [_ Hs].
      apply elem_of_cons in Hr' as [->|Hr']; [unfold before; lia|]. rewrite Forall_forall in Hs. by apply Hs. }
  split; [done|]. apply StronglySorted_inv in Hs as [Hs _]. split; [|done|done].
  rewrite <-Hp' in Hp. by apply Permutation_cons_inv in Hp.
Qed.

Lemma rep_peek h r L : rep h (r :: L) → head h = Some (entry_of r).
Proof.
  intros Hr. pose proof (wp_rep_heappop h r L Hr) as Hwp. apply wp_ok in Hwp as (e & h' & Hrun & -> & _).
  pose proof Hr as [Hp Hh Hs]. destruct h as [|e t]; [by apply Permutation_nil_l in Hp|]. simpl. f_equal.
  apply (rep_tie_free _ _ Hr); [left|rewrite Hp; left| |].
  - assert (entry_of r ∈ e :: t) as [i Hi]%list_elem_of_lookup by (rewrite Hp; left). by eapply (heap_root_le (e :: t)).
  - assert (e ∈ entry_of <$> r :: L) as (r' & -> & Hr')%list_elem_of_fmap by (rewrite <-Hp; left). rewrite ele_before.
    apply StronglySorted_inv in Hs as [_ Hs]. apply elem_of_cons in Hr' as [->|Hr']; [unfold before; lia|]. rewrite Forall_forall in Hs. by apply Hs.
Qed.

Lemma StronglySorted_filter (P : req → Prop) `{∀ r, Decision (P r)} L : StronglySorted before L → StronglySorted before (filter P L).
Proof.
  induction 1 as [|r L HL IH Hr]; [constructor|]. rewrite filter_cons. case_decide; [|done]. constructor; [done|].
  rewrite Forall_forall in *. intros x [_ Hx]%list_elem_of_filter. by apply Hr.
Qed.

Lemma wp_rep_filter (P : req → Prop) `{∀ r, Decision (P r)} h L : rep h L →
  wp (modify (filter (λ e, P (Heap.e_request e))) ;; Heap.heapify) h (λ _ h', rep h' (filter P L)).
Proof.
  intros [Hp Hh Hs]. apply wp_bind, wp_modify. assert (filter (λ e, P (Heap.e_request e)) h ≡ₚ entry_of <$> filter P L) as E.
  { rewrite Hp. clear. induction L as [|r L IH]; [done|]. csimpl. rewrite !filter_cons. simpl. case_decide; csimpl; by rewrite IH. }
  eapply wp_mono; [apply wp_heapify; rewrite E; apply entries_tie_free|]. intros [] h' [Hp' Hh']. split; [by rewrite Hp'|done|by apply StronglySorted_filter].
Qed.

(** Iterating visits the requests in the order of the list. *)
Lemma iterate_rep {S} (body : req → M S ()) L : ∀ h n s, rep h L → (length L ≤ n)%nat → Priority.iterate n h body s = for_each L body s.
Proof.
  induction L as [|r L IH]; intros h n s Hr Hn.
  { apply rep_empty in Hr as E. rewrite (proj2 E eq_refl). by destruct n. }
  destruct n as [|n]; [simpl in Hn; lia|]. assert (h ≠ []) as Hne by (intros E; by apply (rep_empty h (r :: L)) in E).
  pose proof (wp_rep_heappop h r L Hr) as (e & h' & Hrun & -> & Hr')%wp_ok. destruct h as [|e0 t]; [done|].
  cbn [Priority.iterate for_each]. rewrite Hrun. cbn [Heap.e_request Priority.entry_of]. unfold mbind, M_bind.
  destruct (body r s) as [[[]|ex] s']; [|done]. apply IH; [done|simpl in Hn; lia].
Qed.

Lemma rep_length h L : rep h L → length h = length L.
Proof. intros [Hp _ _]. by rewrite Hp, length_fmap. Qed.

Lemma iter_list_rep h L : rep h L → Priority.iter_list h = Ok L.
Proof.
  intros Hr. unfold Priority.iter_list. rewrite (iterate_rep _ L) by (done || by rewrite (rep_length _ _ Hr)).
  assert (∀ l0, for_each L (λ r, modify (λ l : list req, l ++ [r])) l0 = (Ok (), l0 ++ L)) as ->; [|done].
  clear. induction L as [|r L IH]; intros l0; cbn; [by rewrite app_nil_r|]. unfold mbind, M_bind. simpl. rewrite IH. by rewrite <-app_assoc.
Qed.

Lemma wp_priority_add_all rs : ∀ h L, rep h L →
  wp (for_each rs (Priority.add priority arrival_time)) h (λ _ h', rep h' (foldl (λ L r, insert_sorted r L) L rs)).
Proof.
  induction rs as [|r rs IH]; intros h L Hr; cbn [for_each foldl]; [by apply wp_ret|]. apply wp_bind.
  eapply wp_mono; [by apply wp_priority_add|]. intros [] h' Hr'. by apply IH.
Qed.

Lemma sorted_unique L L' : StronglySorted before L → StronglySorted before L' → L ≡ₚ L' → L = L'.
Proof.
  apply StronglySorted_unique_strong. intros r r' _ _. unfold before. intros H1 H2. apply no_ties; lia.
Qed.

Lemma foldl_insert_perm rs : ∀ L, foldl (λ L r, insert_sorted r L) L rs ≡ₚ rs ++ L.
Proof. induction rs as [|r rs IH]; intros L; simpl; [done|]. rewrite IH, insert_sorted_perm. by rewrite <-Permutation_middle. Qed.
Lemma foldr_insert_perm rs L : foldr insert_sorted L rs ≡ₚ rs ++ L.
Proof. induction rs as [|r rs IH]; simpl; [done|]. by rewrite insert_sorted_perm, IH. Qed.
Lemma foldl_insert_sorted rs : ∀ L, StronglySorted before L → StronglySorted before (foldl (λ L r, insert_sorted r L) L rs).
Proof. induction rs as [|r rs IH]; intros L HL; simpl; [done|]. by apply IH, insert_sorted_sorted. Qed.
Lemma foldr_insert_sorted rs L : StronglySorted before L → StronglySorted before (foldr insert_sorted L rs).
Proof. intros HL. induction rs as [|r rs IH]; simpl; [done|]. by apply insert_sorted_sorted. Qed.

(** One call: the same answer, and the heap represents the new list. *)
Definition simulates {A} (c : M (list (Heap.entry req)) A) (d : M (list req) A) : Prop := ∀ h L, rep h L →
  (c h).1 = (d L).1 ∧ rep (c h).2 (d L).2.

Lemma simulates_wp {A} (c : M (list (Heap.entry req)) A) (a : A) f : (∀ h L, rep h L → wp c h (λ a' h', a' = a ∧ rep h' (f L))) →
  simulates c (modify f ;; mret a).
Proof. intros Hc h L Hr. pose proof (Hc h L Hr) as (a' & h' & Hrun & -> & Hr')%wp_ok. by rewrite Hrun. Qed.

Lemma simulates_unit (c : M (list (Heap.entry req)) ()) f : (∀ h L, rep h L → wp c h (λ _ h', rep h' (f L))) →
  simulates (c ;; mret (ANone (req:=req))) (modify f ;; mret ANone).
Proof. intros Hc. apply simulates_wp. intros h L Hr. apply wp_bind. eapply wp_mono; [by apply Hc|]. intros [] h' ?. by apply wp_ret. Qed.

Lemma run_op_simulates op : simulates (run_op (RequestQueue0 := priority_queue priority arrival_time) [] op) (spec_op op).
Proof.
  destruct op as [r| | |r|rs|r|rs| | |]; simpl.
  - apply simulates_unit. intros h L. apply wp_priority_add.
  - intros h L Hr. unfold Priority.pop, mbind, M_bind, get. simpl. destruct L as [|r L].
    + rewrite (proj2 (rep_empty h [] Hr) eq_refl). simpl. split; [done|apply rep_nil].
    + rewrite bool_decide_false by (intros E; by apply (rep_empty h (r :: L)) in E). pose proof (wp_rep_heappop h r L Hr) as (e & h' & Hrun & -> & Hr')%wp_ok.
      by rewrite Hrun.
  - intros h L Hr. unfold Priority.peek, mbind, M_bind, get. simpl. destruct L as [|r L].
    + rewrite (proj2 (rep_empty h [] Hr) eq_refl). simpl. split; [done|apply rep_nil].
    + pose proof (rep_peek h r L Hr) as Hh. destruct h as [|e t]; [done|]. by injection Hh as ->.
  - apply simulates_unit. intros h L. apply wp_priority_add.
  - pose proof (wp_priority_add_all rs [] [] rep_nil) as (u & other & Hrun & Ho)%wp_ok. rewrite Hrun. apply simulates_unit. intros h L Hr.
    unfold wp, Priority.prepend_all. rewrite (iterate_rep _ _ _ _ _ Ho) by (by rewrite (rep_length _ _ Ho)).
    eapply (wp_mono (for_each _ _) h); [by apply wp_priority_add_all|]. intros [] h' Hr'.
    rewrite (sorted_unique (foldr insert_sorted L rs) (foldl (λ L r, insert_sorted r L) L (foldl (λ L r, insert_sorted r L) [] rs))); [done|..].
    + apply foldr_insert_sorted, Hr.
    + apply foldl_insert_sorted, Hr.
    + by rewrite foldr_insert_perm, !foldl_insert_perm, app_nil_r.
  - apply simulates_unit. intros h L Hr. exact (wp_rep_filter (λ r', r' ≠ r) h L Hr).
  - apply simulates_unit. intros h L Hr. exact (wp_rep_filter (λ r', r' ∉ rs) h L Hr).
  - intros h L Hr. unfold mbind, M_bind, get. simpl. by rewrite (rep_length h L).
  - intros h L Hr. unfold mbind, M_bind, get. simpl. by rewrite (iter_list_rep h L).
  - intros h L Hr. unfold mbind, M_bind, get. simpl. by rewrite (iter_list_rep h L).
Qed.

Lemma run_ops_simulates {A O} (step : O → M (list (Heap.entry req)) A) (spec : O → M (list req) A) ops :
  (∀ op, simulates (step op) (spec op)) → ∀ h L, rep h L → run_ops step ops h = run_ops spec ops L.
Proof.
  intros Hs. induction ops as [|op ops IH]; intros h L Hr; [done|]. destruct (Hs op h L Hr) as [H1 H2]. simpl.
  destruct (step op h) as [r h'], (spec op L) as [r' L']. simpl in *. subst. f_equal. by apply IH.
Qed.
End priority_spec.

(** C19. When no two requests have the same priority and arrival time, the heap-based
    queue of the PRIORITY policy is indistinguishable from a list kept in order of
    priority, then arrival: for every sequence of calls (additions, pops, peeks,
    prepending another queue, removals of one or many requests, length, iteration in both
    directions) each answer is the answer of that list, the [IndexError]s of an empty
    queue included.  In particular no other exception is raised and every loop of [heapq]
    ends. *)
Theorem priority_queue_refines {req : Type} `{EqDecision req} (priority arrival_time : req → Z) ops :
  (∀ r r', priority r = priority r' → arrival_time r = arrival_time r' → r = r') →
  run_ops (run_op (RequestQueue0 := priority_queue priority arrival_time) []) ops [] =
  run_ops (spec_op priority arrival_time) ops [].
Proof.
  intros Hties. apply (run_ops_simulates priority arrival_time); [|apply rep_nil]. intros op. by apply run_op_simulates.
Qed.

(** Requests as pairs of a priority and an arrival time *)
Lemma priority_queue_refines_witness :
  let ops := [QAdd (2, 10); QAdd (1, 30); QAdd (1, 20); QPrependAll [(0, 50); (3, 5)]; QRemove (1, 30); QIter; QPop; QPop; QPeek; QLen] in
  run_ops (run_op (RequestQueue0 := priority_queue (req := Z * Z) fst snd) []) ops [] = run_ops (spec_op fst snd) ops [] ∧
  last (run_ops (spec_op fst snd) ops []) = Some (Ok (ALen (req := Z * Z) 2)).
Proof.
  intros ops. split; [|done]. apply (priority_queue_refines fst snd ops). intros [p t] [p' t']. simpl. congruence.
Defined.

(** Two different requests with the same priority and arrival time cannot wait
    together under the PRIORITY policy: adding the second raises [TypeError], because the
    tuples of the heap fall back to comparing the requests, and the request is left in
    the heap although its addition failed. *)
Theorem priority_tie_raises {req : Type} `{EqDecision req} (priority arrival_time : req → Z) r r' :
  r ≠ r' → priority r = priority r' → arrival_time r = arrival_time r' →
  run_ops (run_op (RequestQueue0 := priority_queue priority arrival_time) []) [QAdd r; QAdd r'; QLen] [] =
  [Ok ANone; Raise TypeError; Ok (ALen 2)].
Proof.
  intros Hne Hp Ha. assert (Heap.entry_lt (Priority.entry_of priority arrival_time r') (Priority.entry_of priority arrival_time r) = Raise TypeError) as E.
  { unfold Heap.entry_lt. rewrite decide_True by done. rewrite decide_True by done. by rewrite decide_False. }
  assert (Priority.add priority arrival_time r' [Priority.entry_of priority arrival_time r] =
    (Raise TypeError, [Priority.entry_of priority arrival_time r; Priority.entry_of priority arrival_time r'])) as Eadd.
  { cbv -[Heap.entry_lt Priority.entry_of]. by rewrite E. }
  assert (Priority.add priority arrival_time r [] = (Ok (), [Priority.entry_of priority arrival_time r])) as Eadd0 by done.
  cbn. cbv [mbind M_bind]. rewrite Eadd0. cbn [mret M_ret]. rewrite Eadd. done.
Qed.

(** The children of a request with [n = 2] share the attributes of their parent. *)
Lemma priority_tie_raises_witness :
  (1 : Z, 0 : Z, 1000 : Z) ≠ (2, 0, 1000) ∧
  run_ops (run_op (RequestQueue0 := priority_queue (req := Z * Z * Z) (λ r, r.1.2) snd) []) [QAdd (1, 0, 1000); QAdd (2, 0, 1000); QLen] [] =
  [Ok ANone; Raise TypeError; Ok (ALen 2)].
Proof. split; [done|]. apply (priority_tie_raises (λ r : Z * Z * Z, r.1.2) snd (1, 0, 1000) (2, 0, 1000)); done. Defined.

(** ** FCFS in the scheduler *)

(** Calls that neither remove nor prepend requests *)
Definition plain_op {req} (op : queue_op req) : bool :=
  match op with QAdd _ | QPop | QPeek | QLen | QIter | QReversed => true | _ => false end.
Definition is_pop {req} (op : queue_op req) : bool := match op with QPop => true | _ => false end.

(** Under FCFS a waiting request is served after exactly as many pops as there are
    requests ahead of it: whatever is added, read or popped meanwhile, once [n] requests
    have been popped the next [pop_request] returns the request that was [n]-th. *)
Theorem fcfs_request_served {req : Type} `{EqDecision req} (ops : list (queue_op req)) : ∀ (q : list req) n r,
  q !! n = Some r → Forall (λ op, plain_op op = true) ops → length (filter (λ op, is_pop op = true) ops) = n →
  last (run_ops (run_op []) (ops ++ [QPop]) q) = Some (Ok (AReq r)).
Proof.
  induction ops as [|op ops IH]; intros q n r Hq Hplain Hn.
  { simpl in Hn. subst. destruct q as [|r' q]; [done|]. by injection Hq as ->. }
  apply Forall_cons in Hplain as [Hop Hplain]. rewrite filter_cons in Hn.
  assert (∀ q' n' (a : result (answer req)), q' !! n' = Some r → length (filter (λ op, is_pop op = true) ops) = n' →
    last (a :: run_ops (run_op []) (ops ++ [QPop]) q') = Some (Ok (AReq r))) as Hnext.
  { intros q' n' a Hq' Hn'. rewrite last_cons, (IH q' n' r); done. }
  destruct op; try done; simpl in Hn.
  - apply (Hnext _ n); [by apply lookup_app_l_Some|done].
  - destruct n as [|n]; [done|]. destruct q as [|r' q]; [done|]. apply (Hnext q n); [done|by injection Hn].
  - destruct q as [|r' q]; [done|]. by apply (Hnext _ n).
  - by apply (Hnext _ n).
  - by apply (Hnext _ n).
  - by apply (Hnext _ n).
Qed.

Lemma fcfs_request_served_witness :
  last (run_ops (run_op []) ([QAdd 7; QPop; QIter; QPop] ++ [QPop]) [4; 5; 6]) = Some (Ok (AReq 6)).
Proof. apply (fcfs_request_served _ _ 2%nat); [done|by repeat constructor|done]. Defined.

(** The loop of [Scheduler.schedule] that pops a request it cannot schedule yet and keeps it
    in [skipped_waiting_requests]; the state is the pair of queues. *)
Definition skip_one {req Q} `{!RequestQueue req Q} : M (Q * Q) () :=
  request ← zoom fst (λ q s, (q, s.2)) peek_request;
  zoom fst (λ q s, (q, s.2)) pop_request ;;
  zoom snd (λ q s, (s.1, q)) (prepend_request request).

(** [if skipped_waiting_requests: self.waiting.prepend_requests(skipped_waiting_requests)] *)
Definition put_back {req Q} `{!RequestQueue req Q} : M (Q * Q) () :=
  s ← get;
  if (queue_len s.2 =? 0)%nat then mret () else zoom fst (λ q s, (q, s.2)) (prepend_requests s.2).

(** Under FCFS, requests that the scheduler skips in a step go back to the head of the
    waiting queue in reverse order: [skipped_waiting_requests] is filled by
    [prepend_request] and put back with its order kept. *)
Theorem fcfs_skipped_reversed {req : Type} `{EqDecision req} (skipped rest : list req) :
  ((for_each skipped (λ _, skip_one (req := req)) ;; put_back (req := req)) (skipped ++ rest, [])).2.1 = reverse skipped ++ rest.
Proof.
  assert (∀ (r : req) q acc, skip_one (req := req) (r :: q, acc) = (Ok (), (q, r :: acc))) as Hone by reflexivity.
  assert (∀ l acc, for_each l (λ _, skip_one (req := req)) (l ++ rest, acc) = (Ok (), (rest, reverse l ++ acc))) as E.
  { induction l as [|r l IH]; intros acc; [done|]. cbn [for_each app]. cbv [mbind M_bind]. rewrite Hone, IH, reverse_cons, <-app_assoc. done. }
  assert (∀ l d : list req, FCFS.extendleft l d = (Ok (), reverse l ++ d)) as El.
  { induction l as [|r l IH]; intros d; [done|]. unfold FCFS.extendleft in *. cbn [for_each]. cbv [mbind M_bind FCFS.appendleft modify]. rewrite IH, reverse_cons, <-app_assoc. done. }
  unfold mbind at 1, M_bind at 1. rewrite E, app_nil_r. unfold put_back, mbind, M_bind, get. cbn [snd].
  destruct (Nat.eqb_spec (queue_len (reverse skipped)) 0) as [E0|E0].
  - cbn. simpl in E0. rewrite length_reverse in E0. by destruct skipped.
  - unfold zoom. cbn. rewrite El. cbn. by rewrite reverse_involutive.
Qed.
