(* ===== verification/Scheduler.v ===== *)
(** * vllm/v1/core/sched/scheduler.py, async_scheduler.py and output.py

    The scheduler: its state, [schedule] with its two loops, [update_from_output], and the
    requests that enter and leave.  Requests are shared objects: the queues, the running
    list and the dict of requests hold references into a store of objects.  The KV and
    encoder-cache connectors, the structured-output manager and the event publisher are
    interfaces: records of operations on the state [W] of the world around the scheduler. *)

From stdpp Require Import base tactics option list gmap strings.
From Stdlib Require Import ZArith Lia QArith.
From S2P Require Import Prelude KVCacheUtils Request BlockHash BlockPool KVCacheInterface Coordinator KVCacheManager EncoderCache RequestQueue.
Local Open Scope Z_scope.

(** ** Assignments to the attributes of a request *)

Definition update_request (st : RequestStatus) (placeholders : Z) (spec : list Z) (computed cached nans preemptions external : Z)
    (r : Request) : Request :=
  mkRequest (request_id r) (client_index r) (priority r) (sampling_params r) (pooling_params r)
    (eos_token_id r) (lora_request r) (use_structured_output r) (arrival_time r) st (events r)
    (stop_reason r) (kv_transfer_params r) (max_tokens r) (prompt_token_ids r) (prompt_embeds r)
    (num_prompt_tokens r) (output_token_ids r) (all_token_ids r) placeholders spec computed
    (cache_salt r) (mm_features r) cached nans preemptions external (block_hashes r)
    (skip_reading_prefix_cache r).
Definition set_request_status (st : RequestStatus) (r : Request) : Request :=
  update_request st (num_output_placeholders r) (spec_token_ids r) (num_computed_tokens r) (num_cached_tokens r)
    (num_nans_in_logits r) (num_preemptions r) (num_external_computed_tokens r) r.
Definition set_placeholders (n : Z) (r : Request) : Request :=
  update_request (status r) n (spec_token_ids r) (num_computed_tokens r) (num_cached_tokens r)
    (num_nans_in_logits r) (num_preemptions r) (num_external_computed_tokens r) r.
Definition set_spec_tokens (ts : list Z) (r : Request) : Request :=
  update_request (status r) (num_output_placeholders r) ts (num_computed_tokens r) (num_cached_tokens r)
    (num_nans_in_logits r) (num_preemptions r) (num_external_computed_tokens r) r.
Definition set_cached_tokens (n : Z) (r : Request) : Request :=
  update_request (status r) (num_output_placeholders r) (spec_token_ids r) (num_computed_tokens r) n
    (num_nans_in_logits r) (num_preemptions r) (num_external_computed_tokens r) r.
Definition set_nans (n : Z) (r : Request) : Request :=
  update_request (status r) (num_output_placeholders r) (spec_token_ids r) (num_computed_tokens r) (num_cached_tokens r)
    n (num_preemptions r) (num_external_computed_tokens r) r.
Definition set_external (n : Z) (r : Request) : Request :=
  update_request (status r) (num_output_placeholders r) (spec_token_ids r) (num_computed_tokens r) (num_cached_tokens r)
    (num_nans_in_logits r) (num_preemptions r) n r.
(** The three assignments of a preemption *)
Definition set_preempted (r : Request) : Request :=
  update_request PREEMPTED (num_output_placeholders r) (spec_token_ids r) 0 (num_cached_tokens r)
    (num_nans_in_logits r) (num_preemptions r + 1) (num_external_computed_tokens r) r.

(** ** Configuration *)

Record Config := mkSchedulerConfig {
  max_num_running_reqs : Z;
  max_num_scheduled_tokens : Z;
  sched_max_model_len : Z;
  long_prefill_token_threshold : Z;
  enable_chunked_prefill : bool;
  disable_chunked_mm_input : bool;
  encoder_compute_budget : Z;  (** [self.max_num_encoder_input_tokens] *)
  cross_attention_tokens : Z;  (** [scheduler_config.max_num_encoder_input_tokens] *)
  num_spec_tokens : Z;
  num_lookahead_tokens : Z;
  max_loras : option Z;  (** [lora_config], if any *)
  is_encoder_decoder : bool;
  sched_log_stats : bool;
  use_pp : bool;
  use_v2_model_runner : bool;
  async_scheduling : bool;  (** the class is [AsyncScheduler] *)
  sched_block_size : Z;
  num_groups : nat;  (** [len(kv_cache_config.kv_cache_groups)] *)
  sched_policy : SchedulingPolicy;
}.

(** [SpecDecodingStats] *)
Record SpecDecodingStats := mkSpecStats {
  sd_num_spec_tokens : Z; sd_num_drafts : Z; sd_num_draft_tokens : Z; sd_num_accepted_tokens : Z; sd_per_pos : list Z;
}.
Definition new_spec_stats (n : Z) : SpecDecodingStats := mkSpecStats n 0 0 0 (replicate (Z.to_nat n) 0).
Definition observe_draft (draft accepted : Z) (s : SpecDecodingStats) : result SpecDecodingStats :=
  if accepted <=? sd_num_spec_tokens s then
    Ok (mkSpecStats (sd_num_spec_tokens s) (sd_num_drafts s + 1) (sd_num_draft_tokens s + draft) (sd_num_accepted_tokens s + accepted)
          (imap (λ i n, if Z.of_nat i <? accepted then n + 1 else n) (sd_per_pos s)))
  else Raise AssertionError.

(** ** What the scheduler sends and receives

    [T] stands for tensors and for metadata the scheduler only passes on.  Fields that the
    scheduler neither reads nor sets (and the trace headers, which it copies) are left out. *)

Section messages.
Context {T : Type}.

Record NewRequestData := mkNewData {
  nd_req_id : string;
  nd_prompt_token_ids : option (list Z);
  nd_mm_features : list MultiModalFeatureSpec;
  nd_sampling_params : option SamplingParams;
  nd_pooling_params : option PoolingParams;
  nd_block_ids : list (list Z);
  nd_num_computed_tokens : Z;
  nd_lora_request : option LoRARequest;
  nd_prompt_embeds : option (list bytes);
  nd_prefill_token_ids : option (list Z);
}.
Definition from_request (r : Request) (block_ids : list (list Z)) (prefill_token_ids : option (list Z)) : NewRequestData :=
  mkNewData (request_id r) (prompt_token_ids r) (mm_features r) (sampling_params r) (pooling_params r) block_ids
    (num_computed_tokens r) (lora_request r) (prompt_embeds r) prefill_token_ids.

Record CachedRequestData := mkCachedData {
  cd_req_ids : list string;
  cd_resumed_req_ids : gset string;
  cd_new_token_ids : list (list Z);
  cd_all_token_ids : gmap string (list Z);
  cd_new_block_ids : list (option (list (list Z)));
  cd_num_computed_tokens : list Z;
  cd_num_output_tokens : list Z;
}.

Record SchedulerOutput := mkSchedulerOutput {
  scheduled_new_reqs : list NewRequestData;
  scheduled_cached_reqs : CachedRequestData;
  num_scheduled_tokens : list (string * Z);
  total_num_scheduled_tokens : Z;
  scheduled_spec_decode_tokens : gmap string (list Z);
  scheduled_encoder_inputs : gmap string (list nat);
  num_common_prefix_blocks : list Z;
  preempted_req_ids : gset string;
  out_finished_req_ids : gset string;
  free_encoder_mm_hashes : list string;
  pending_structured_output_tokens : bool;
  kv_connector_metadata : option T;
  ec_connector_metadata : option T;
}.

Record KVConnectorOutput := mkKVOutput {
  finished_sending : list string;
  finished_recving : list string;
  kv_connector_stats : option T;
  invalid_block_ids : gset Z;
}.
Record ModelRunnerOutput := mkRunnerOutput {
  req_id_to_index : gmap string nat;
  sampled_token_ids : list (list Z);
  logprobs : option T;
  prompt_logprobs_dict : gmap string T;  (** the entries that are not [None] *)
  pooler_output : list (option T);
  kv_connector_output : option KVConnectorOutput;
  mro_num_nans_in_logits : option (gmap string Z);
}.

Record EngineCoreOutput := mkECOutput {
  eo_request_id : string;
  eo_new_token_ids : list Z;
  eo_finish_reason : option FinishReason;
  eo_new_logprobs : option T;
  eo_prompt_logprobs : option T;
  eo_pooling_output : option T;
  eo_stop_reason : option Z;
  eo_events : option (list (EngineCoreEventType * Z));
  eo_kv_transfer_params : option T;
  eo_num_cached_tokens : Z;
  eo_num_nans_in_logits : Z;
}.
Record SchedulerStats := mkSchedStats {
  num_running_reqs : Z; num_waiting_reqs : Z; kv_cache_usage : Q;
  stats_prefix_cache : PrefixCacheStats; stats_connector : option PrefixCacheStats;
  stats_spec_decoding : option SpecDecodingStats; stats_kv_connector : option T;
}.
Record EngineCoreOutputs := mkECOutputs {
  ec_outputs : list EngineCoreOutput;
  scheduler_stats : option SchedulerStats;
  finished_requests : option (gset string);
}.
End messages.
Arguments SchedulerOutput : clear implicits.
Arguments KVConnectorOutput : clear implicits.
Arguments ModelRunnerOutput : clear implicits.
Arguments EngineCoreOutput : clear implicits.
Arguments SchedulerStats : clear implicits.
Arguments EngineCoreOutputs : clear implicits.

(** ** The components the scheduler calls, as interfaces *)

Section interfaces.
Context (W T : Type).

Record KVConnector := mkConnector {
  supports_hma : bool;
  get_num_new_matched_tokens : Request → Z → M W (option Z * bool);
  update_state_after_alloc : Request → KVCacheBlocks → Z → M W ();
  build_connector_meta : SchedulerOutput T → M W T;
  request_finished : Request → list Z → M W (bool * option T);
  request_finished_all_groups : Request → list (list Z) → M W (bool * option T);
  update_connector_output : KVConnectorOutput T → M W ();
  connector_take_events : M W (list KVCacheEvent);
  get_kv_connector_stats : M W (option T);
  aggregate : T → T → T;
}.
Record ECConnector := mkECConnector {
  has_caches : Request → M W (list bool);
  ec_update_state_after_alloc : Request → nat → M W ();
  ec_build_connector_meta : SchedulerOutput T → M W T;
}.
Record StructuredOutputManager := mkStructured {
  grammar_ready : Request → M W bool;  (** [request.structured_output_request.grammar] is there *)
  should_advance : Request → M W bool;
  accept_tokens : Request → list Z → M W ();
  validate_tokens : Request → list Z → M W (list Z);
  grammar_bitmask : list string → gmap string (list Z) → M W T;
}.
End interfaces.
Arguments supports_hma {W T}.
Arguments get_num_new_matched_tokens {W T}.
Arguments update_state_after_alloc {W T}.
Arguments build_connector_meta {W T}.
Arguments request_finished {W T}.
Arguments request_finished_all_groups {W T}.
Arguments update_connector_output {W T}.
Arguments connector_take_events {W T}.
Arguments get_kv_connector_stats {W T}.
Arguments aggregate {W T}.
Arguments has_caches {W T}.
Arguments ec_update_state_after_alloc {W T}.
Arguments ec_build_connector_meta {W T}.
Arguments grammar_ready {W T}.
Arguments should_advance {W T}.
Arguments accept_tokens {W T}.
Arguments validate_tokens {W T}.
Arguments grammar_bitmask {W T}.

(** ** The state *)

(** The priority and the arrival time of every request, which order a priority queue *)
Definition attributes (objs : gmap nat Request) : gmap nat (Z * Z) := (λ r, (priority r, arrival_time r)) <$> objs.
Definition priority_of (attrs : gmap nat (Z * Z)) (r : nat) : Z := default 0 (fst <$> attrs !! r).
Definition arrival_of (attrs : gmap nat (Z * Z)) (r : nat) : Z := default 0 (snd <$> attrs !! r).

Record Scheduler (Q W : Type) := mkScheduler {
  objs : gmap nat Request;  (** the request objects *)
  next_ref : nat;
  requests : gmap string nat;
  waiting : Q;
  running : list nat;
  finished_req_ids : gset string;
  finished_req_ids_dict : option (list (Z * gset string));
  finished_recving_kv_req_ids : gset string;
  failed_recving_kv_req_ids : gset string;
  prev_step_scheduled_req_ids : gset string;
  kv_cache_manager : KVCacheManager;
  encoder_cache_manager : EncoderCacheManager;
  connector_prefix_cache_stats : option PrefixCacheStats;
  world : W;
}.
Arguments mkScheduler {Q W}.
Arguments objs {Q W}.
Arguments next_ref {Q W}.
Arguments requests {Q W}.
Arguments waiting {Q W}.
Arguments running {Q W}.
Arguments finished_req_ids {Q W}.
Arguments finished_req_ids_dict {Q W}.
Arguments finished_recving_kv_req_ids {Q W}.
Arguments failed_recving_kv_req_ids {Q W}.
Arguments prev_step_scheduled_req_ids {Q W}.
Arguments kv_cache_manager {Q W}.
Arguments encoder_cache_manager {Q W}.
Arguments connector_prefix_cache_stats {Q W}.
Arguments world {Q W}.

(** The local variables of [schedule] *)
Record locals := mkLocals {
  l_new : list nat;  (** [scheduled_new_reqs] *)
  l_resumed : list nat;  (** [scheduled_resumed_reqs] *)
  l_running : list nat;  (** [scheduled_running_reqs] *)
  l_preempted : list nat;  (** [preempted_reqs] *)
  l_blocks : gmap string KVCacheBlocks;  (** [req_to_new_blocks] *)
  l_tokens : list (string * Z);  (** [num_scheduled_tokens] *)
  l_budget : Z;  (** [token_budget] *)
  l_enc_inputs : gmap string (list nat);  (** [scheduled_encoder_inputs] *)
  l_enc_budget : Z;  (** [encoder_compute_budget] *)
  l_spec : gmap string (list Z);  (** [scheduled_spec_decode_tokens] *)
  l_index : nat;  (** [req_index] *)
  l_loras : gset Z;  (** [scheduled_loras] *)
}.

(** The local variables of the loop of [update_from_output] *)
Record update_vars (T : Type) := mkUpdate {
  u_outputs : list (Z * list (EngineCoreOutput T));
  u_spec_stats : option SpecDecodingStats;
  u_stopped_running : gset nat;
  u_stopped_preempted : gset nat;
}.
Arguments mkUpdate {T}.
Arguments u_outputs {T}.
Arguments u_spec_stats {T}.
Arguments u_stopped_running {T}.
Arguments u_stopped_preempted {T}.

Module Sched.
Section sched.
Context {Q W T : Type}.
(** The waiting queue of the policy, by the attributes of the requests, and an empty one *)
Context (queue : gmap nat (Z * Z) → RequestQueue nat Q) (new_queue : Q).
Context (c : Config) (connector : option (KVConnector W T)) (ec_connector : option (ECConnector W T))
  (structured : StructuredOutputManager W T) (publish : list KVCacheEvent → M W ()).
(** The block hasher of the requests; the iteration order of sets of encoder inputs and of
    request ids; [logprobs.slice], whether a request wants log probabilities, and the truth
    value of transfer parameters *)
Context (block_hasher : option (Request → result (list bytes))) (set_iter : list nat → list nat) (set_order : list string → list string)
  (slice : T → nat → nat → T) (wants_logprobs : SamplingParams → bool) (truthy : T → bool).

Abbreviation scheduler := (Scheduler Q W).
Abbreviation MS := (M scheduler).

(** *** Assignments to the fields *)

Definition set_objs (o : gmap nat Request) (s : scheduler) : scheduler :=
  mkScheduler o (next_ref s) (requests s) (waiting s) (running s) (finished_req_ids s) (finished_req_ids_dict s)
    (finished_recving_kv_req_ids s) (failed_recving_kv_req_ids s) (prev_step_scheduled_req_ids s)
    (kv_cache_manager s) (encoder_cache_manager s) (connector_prefix_cache_stats s) (world s).
Definition set_requests (rs : gmap string nat) (s : scheduler) : scheduler :=
  mkScheduler (objs s) (next_ref s) rs (waiting s) (running s) (finished_req_ids s) (finished_req_ids_dict s)
    (finished_recving_kv_req_ids s) (failed_recving_kv_req_ids s) (prev_step_scheduled_req_ids s)
    (kv_cache_manager s) (encoder_cache_manager s) (connector_prefix_cache_stats s) (world s).
Definition set_waiting (q : Q) (s : scheduler) : scheduler :=
  mkScheduler (objs s) (next_ref s) (requests s) q (running s) (finished_req_ids s) (finished_req_ids_dict s)
    (finished_recving_kv_req_ids s) (failed_recving_kv_req_ids s) (prev_step_scheduled_req_ids s)
    (kv_cache_manager s) (encoder_cache_manager s) (connector_prefix_cache_stats s) (world s).
Definition set_running (l : list nat) (s : scheduler) : scheduler :=
  mkScheduler (objs s) (next_ref s) (requests s) (waiting s) l (finished_req_ids s) (finished_req_ids_dict s)
    (finished_recving_kv_req_ids s) (failed_recving_kv_req_ids s) (prev_step_scheduled_req_ids s)
    (kv_cache_manager s) (encoder_cache_manager s) (connector_prefix_cache_stats s) (world s).
Definition set_finished (f : gset string) (d : option (list (Z * gset string))) (s : scheduler) : scheduler :=
  mkScheduler (objs s) (next_ref s) (requests s) (waiting s) (running s) f d
    (finished_recving_kv_req_ids s) (failed_recving_kv_req_ids s) (prev_step_scheduled_req_ids s)
    (kv_cache_manager s) (encoder_cache_manager s) (connector_prefix_cache_stats s) (world s).
Definition set_recving (finished failed : gset string) (s : scheduler) : scheduler :=
  mkScheduler (objs s) (next_ref s) (requests s) (waiting s) (running s) (finished_req_ids s) (finished_req_ids_dict s)
    finished failed (prev_step_scheduled_req_ids s)
    (kv_cache_manager s) (encoder_cache_manager s) (connector_prefix_cache_stats s) (world s).
Definition set_prev_step (p : gset string) (s : scheduler) : scheduler :=
  mkScheduler (objs s) (next_ref s) (requests s) (waiting s) (running s) (finished_req_ids s) (finished_req_ids_dict s)
    (finished_recving_kv_req_ids s) (failed_recving_kv_req_ids s) p
    (kv_cache_manager s) (encoder_cache_manager s) (connector_prefix_cache_stats s) (world s).
Definition set_kv (k : KVCacheManager) (s : scheduler) : scheduler :=
  mkScheduler (objs s) (next_ref s) (requests s) (waiting s) (running s) (finished_req_ids s) (finished_req_ids_dict s)
    (finished_recving_kv_req_ids s) (failed_recving_kv_req_ids s) (prev_step_scheduled_req_ids s)
    k (encoder_cache_manager s) (connector_prefix_cache_stats s) (world s).
Definition set_enc (e : EncoderCacheManager) (s : scheduler) : scheduler :=
  mkScheduler (objs s) (next_ref s) (requests s) (waiting s) (running s) (finished_req_ids s) (finished_req_ids_dict s)
    (finished_recving_kv_req_ids s) (failed_recving_kv_req_ids s) (prev_step_scheduled_req_ids s)
    (kv_cache_manager s) e (connector_prefix_cache_stats s) (world s).
Definition set_connector_stats (p : option PrefixCacheStats) (s : scheduler) : scheduler :=
  mkScheduler (objs s) (next_ref s) (requests s) (waiting s) (running s) (finished_req_ids s) (finished_req_ids_dict s)
    (finished_recving_kv_req_ids s) (failed_recving_kv_req_ids s) (prev_step_scheduled_req_ids s)
    (kv_cache_manager s) (encoder_cache_manager s) p (world s).
Definition set_world (w : W) (s : scheduler) : scheduler :=
  mkScheduler (objs s) (next_ref s) (requests s) (waiting s) (running s) (finished_req_ids s) (finished_req_ids_dict s)
    (finished_recving_kv_req_ids s) (failed_recving_kv_req_ids s) (prev_step_scheduled_req_ids s)
    (kv_cache_manager s) (encoder_cache_manager s) (connector_prefix_cache_stats s) w.

Definition on_kv {A} (f : M KVCacheManager A) : MS A := zoom kv_cache_manager set_kv f.
Definition on_enc {A} (f : M EncoderCacheManager A) : MS A := zoom encoder_cache_manager set_enc f.
Definition on_world {A} (f : M W A) : MS A := zoom world set_world f.
Definition on_waiting {A} (f : RequestQueue nat Q → M Q A) : MS A := λ s, zoom waiting set_waiting (f (queue (attributes (objs s)))) s.
(** A queue held in a local variable *)
Definition on_local {A} (f : RequestQueue nat Q → M Q A) (q : Q) : MS (A * Q) := λ s,
  match f (queue (attributes (objs s))) q with (Ok a, q') => (Ok (a, q'), s) | (Raise e, _) => (Raise e, s) end.

(** The object of a reference; a reference never dangles. *)
Definition obj (r : nat) : MS Request := s ← get; match objs s !! r with Some x => mret x | None => raise KeyError end.
Definition upd (r : nat) (f : Request → Request) : MS () := modify (λ s, set_objs (alter f r (objs s)) s).
Definition id_of (r : nat) : MS string := request ← obj r; mret (request_id request).

(** *** The RUNNING requests *)

(** [_try_schedule_encoder_inputs]; the remote cache is asked when there is something to schedule. *)
Definition try_encoder (request : Request) (num_computed num_new budget : Z) : MS (list nat * Z * Z * list nat) :=
  remote ← match ec_connector with
           | Some ec => if bool_decide (num_new = 0) || negb (has_encoder_inputs request) then mret None
                        else l ← on_world (has_caches ec request); mret (Some l)
           | None => mret None
           end;
  on_enc (_try_schedule_encoder_inputs (disable_chunked_mm_input c) (is_encoder_decoder c) remote request num_computed num_new budget).

Definition running_num_new (request : Request) (token_budget : Z) : Z :=
  let n := num_tokens_with_spec request + num_output_placeholders request - num_computed_tokens request in
  let n := if (0 <? long_prefill_token_threshold c) && (long_prefill_token_threshold c <? n) then long_prefill_token_threshold c else n in
  let n := Z.min n token_budget in
  let max_total_tokens := Z.min (Z.of_nat (num_prompt_tokens request) + max_tokens request) (sched_max_model_len c) in
  Z.min n (max_total_tokens - 1 - num_computed_tokens request).

(** [max(l, key=...)]: the first of the largest *)
Fixpoint max_by (key : nat → Z * Z) (best : nat) (l : list nat) : nat :=
  match l with
  | [] => best
  | x :: l' =>
      let a := key best in let b := key x in
      if (a.1 <? b.1) || bool_decide (a.1 = b.1) && (a.2 <? b.2) then max_by key x l' else max_by key best l'
  end.

(** What a preempted request had been given in this step is taken back. *)
Definition rollback (p : nat) (v : locals) : MS locals :=
  request ← obj p;
  let rid := request_id request in
  match OD.get rid (l_tokens v), l_blocks v !! rid with
  | Some n, Some _ =>
      restored ← match l_enc_inputs v !! rid with
                 | Some ids => l ← of_result (mapR (get_num_encoder_tokens request) ids); mret (zsum l)
                 | None => mret 0
                 end;
      mret (mkLocals (l_new v) (l_resumed v) (remove_first p (l_running v)) (l_preempted v) (delete rid (l_blocks v))
              (OD.del rid (l_tokens v)) (l_budget v + n) (delete rid (l_enc_inputs v)) (l_enc_budget v + restored)
              (delete rid (l_spec v)) (l_index v - 1) (l_loras v))
  | _, _ => raise KeyError
  end.

(** The request to preempt, taken off the running list *)
Definition select_victim (v : locals) : MS (nat * locals) :=
  s ← get;
  match sched_policy c with
  | PRIORITY_policy =>
      match running s with
      | [] => raise ValueError
      | x :: l =>
          let attrs := attributes (objs s) in
          let p := max_by (λ r, (priority_of attrs r, arrival_of attrs r)) x l in
          modify (set_running (remove_first p (running s))) ;;
          if bool_decide (p ∈ l_running v) then v' ← rollback p v; mret (p, v') else mret (p, v)
      end
  | FCFS_policy =>
      match last (running s) with
      | None => raise IndexError
      | Some p => modify (set_running (take (length (running s) - 1) (running s))) ;; mret (p, v)
      end
  end.

Definition preempt (now : Z) (p : nat) (v : locals) : MS locals :=
  request ← obj p;
  on_kv (km_free request) ;;
  on_enc (EncoderCache.free set_iter request) ;;
  upd p set_preempted ;;
  (if sched_log_stats c then upd p (record_event EV_PREEMPTED now) else mret ()) ;;
  on_waiting (λ _, prepend_request p) ;;
  mret (mkLocals (l_new v) (l_resumed v) (l_running v) (l_preempted v ++ [p]) (l_blocks v) (l_tokens v) (l_budget v)
          (l_enc_inputs v) (l_enc_budget v) (l_spec v) (l_index v) (l_loras v)).

(** [while True]: allocate slots, preempting until there is room or the request itself is
    preempted *)
Fixpoint alloc_loop (fuel : nat) (now : Z) (r : nat) (num_new : Z) (v : locals) : MS (option KVCacheBlocks * locals) :=
  match fuel with
  | O => raise OutOfFuel
  | S fuel' =>
      request ← obj r;
      new_blocks ← on_kv (allocate_slots request num_new 0 None (num_lookahead_tokens c) false 0);
      match new_blocks with
      | Some b => mret (Some b, v)
      | None =>
          pv ← select_victim v;
          v' ← preempt now pv.1 pv.2;
          if decide (pv.1 = r) then mret (None, v') else alloc_loop fuel' now r num_new v'
      end
  end.

Definition allocate_encoder (request : Request) (inputs external : list nat) : MS () :=
  for_each inputs (λ i, on_enc (EncoderCache.allocate request i)) ;;
  for_each external (λ i,
    on_enc (EncoderCache.allocate request i) ;;
    match ec_connector with Some ec => on_world (ec_update_state_after_alloc ec request i) | None => mret () end).

(** The speculative tokens of a scheduled request, trimmed to what is scheduled *)
Definition take_spec (request : Request) (num_new : Z) : option (list Z) :=
  let k := num_new + num_computed_tokens request - num_tokens request - num_output_placeholders request in
  if 0 <? k then Some (take (Z.to_nat k) (spec_token_ids request)) else None.

Definition schedule_running (r : nat) (new_blocks : KVCacheBlocks) (num_new : Z) (inputs external : list nat) (new_enc_budget : Z)
    (v : locals) : MS locals :=
  request ← obj r;
  let rid := request_id request in
  (if bool_decide (spec_token_ids request = []) then mret () else upd r (set_spec_tokens [])) ;;
  allocate_encoder request inputs external ;;
  mret (mkLocals (l_new v) (l_resumed v) (l_running v ++ [r]) (l_preempted v) (<[rid := new_blocks]> (l_blocks v))
          (OD.set rid num_new (l_tokens v)) (l_budget v - num_new)
          (if bool_decide (inputs = []) then l_enc_inputs v else <[rid := inputs]> (l_enc_inputs v))
          (if bool_decide (inputs = []) then l_enc_budget v else new_enc_budget)
          (if bool_decide (spec_token_ids request = []) then l_spec v else
             match take_spec request num_new with Some ts => <[rid := ts]> (l_spec v) | None => l_spec v end)
          (S (l_index v)) (l_loras v)).

Definition with_index (i : nat) (v : locals) : locals :=
  mkLocals (l_new v) (l_resumed v) (l_running v) (l_preempted v) (l_blocks v) (l_tokens v) (l_budget v)
    (l_enc_inputs v) (l_enc_budget v) (l_spec v) i (l_loras v).

(** [while req_index < len(self.running) and token_budget > 0] *)
Fixpoint running_loop (fuel : nat) (now : Z) (v : locals) : MS locals :=
  match fuel with
  | O => raise OutOfFuel
  | S fuel' =>
      s ← get;
      match running s !! l_index v with
      | None => mret v
      | Some r =>
          if l_budget v <=? 0 then mret v else
          request ← obj r;
          let num_new := running_num_new request (l_budget v) in
          plan ← (if has_encoder_inputs request then try_encoder request (num_computed_tokens request) num_new (l_enc_budget v)
                  else mret ([], num_new, l_enc_budget v, []));
          let '(inputs, num_new, new_enc_budget, external) := plan in
          if bool_decide (num_new = 0) then running_loop fuel' now (with_index (S (l_index v)) v) else
          res ← alloc_loop (length (running s)) now r num_new v;
          match res.1 with
          | None => mret res.2
          | Some new_blocks =>
              v' ← schedule_running r new_blocks num_new inputs external new_enc_budget res.2;
              running_loop fuel' now v'
          end
      end
  end.

(** The LoRA adapters of the scheduled requests *)
Definition running_loras (v : locals) : MS (gset Z) :=
  s ← get;
  match max_loras c with
  | None => mret ∅
  | Some m =>
      let ids := omap (λ r, objs s !! r ≫= lora_request) (l_running v) in
      let loras : gset Z := list_to_set (filter (λ i, 0 < i) (adapter_id <$> ids)) in
      assert_ (Z.of_nat (size loras) <=? m) ;; mret loras
  end.

(** *** The WAITING requests *)

(** [_update_waiting_for_remote_kv] *)
Definition _update_waiting_for_remote_kv (r : nat) : MS bool :=
  assert_ (bool_decide (is_Some connector)) ;;
  request ← obj r;
  s ← get;
  let rid := request_id request in
  if bool_decide (rid ∉ finished_recving_kv_req_ids s) then mret false else
  (if bool_decide (rid ∈ failed_recving_kv_req_ids s) then
     (if bool_decide (num_computed_tokens request ≠ 0) then on_kv (km_cache_blocks request (num_computed_tokens request))
      else on_kv (km_free request)) ;;
     modify (λ s, set_recving (finished_recving_kv_req_ids s) (failed_recving_kv_req_ids s ∖ {[rid]}) s)
   else
     match get_block_ids rid (kv_cache_manager s) with
     | Some [block_ids] =>
         let n := Z.min (Z.of_nat (length block_ids) * sched_block_size c) (num_tokens request) in
         let n := if bool_decide (n = num_tokens request) then n - 1 else n in
         on_kv (km_cache_blocks request n) ;; upd r (set_num_computed n)
     | _ => raise ValueError
     end) ;;
  modify (λ s, set_recving (finished_recving_kv_req_ids s ∖ {[rid]}) (failed_recving_kv_req_ids s) s) ;;
  mret true.

(** [_update_connector_prefix_cache_stats] *)
Definition _update_connector_prefix_cache_stats (r : nat) : MS () :=
  request ← obj r;
  modify (λ s, set_connector_stats (record (num_tokens request) (num_external_computed_tokens request) (0 <? num_preemptions request)
                                      <$> connector_prefix_cache_stats s) s).

(** The checks at the head of the loop: whether the request may be scheduled in this step *)
Definition admissible (r : nat) (v : locals) : MS bool :=
  request ← obj r;
  ready ← (if bool_decide (status request = WAITING_FOR_REMOTE_KVS) then
             is_ready ← _update_waiting_for_remote_kv r;
             (if is_ready : bool then upd r (set_request_status WAITING) else mret ()) ;; mret is_ready
           else mret true);
  if negb ready then mret false else
  request ← obj r;
  ready ← (if bool_decide (status request = WAITING_FOR_FSM) then
             g ← (if use_structured_output request then on_world (grammar_ready structured request) else mret false);
             (if g : bool then upd r (set_request_status WAITING) else mret ()) ;; mret g
           else mret true);
  if negb ready then mret false else
  mret (match max_loras c, lora_request request with
        | Some m, Some l => negb (bool_decide (Z.of_nat (size (l_loras v)) = m) && bool_decide (adapter_id l ∉ l_loras v))
        | _, _ => true
        end).

(** The tokens that are already computed: [None] when the connector cannot tell yet, else
    the blocks of the local cache with their tokens, the external tokens, and whether they
    are loaded asynchronously *)
Definition find_computed (r : nat) : MS (option (KVCacheBlocks * Z * Z * bool * Z)) :=
  request ← obj r;
  if bool_decide (num_computed_tokens request = 0) then
    hit ← on_kv (get_computed_blocks request);
    match connector with
    | None => mret (Some (hit.1, hit.2, 0, false, hit.2))
    | Some cn =>
        ext ← on_world (get_num_new_matched_tokens cn request hit.2);
        match ext.1 with
        | None => mret None
        | Some e => upd r (set_external e) ;; mret (Some (hit.1, hit.2, e, ext.2, hit.2 + e))
        end
    end
  else mret (Some (EmptyBlocks, 0, 0, false, num_computed_tokens request)).

Definition waiting_num_new (request : Request) (num_computed : Z) : Z :=
  let n := num_tokens request - num_computed in
  if (0 <? long_prefill_token_threshold c) && (long_prefill_token_threshold c <? n) then long_prefill_token_threshold c else n.

(** The request leaves the waiting queue for the running list. *)
Definition start_running (now : Z) (r : nat) (num_new num_computed : Z) (inputs external : list nat) (new_enc_budget : Z) (v : locals) : MS locals :=
  _update_connector_prefix_cache_stats r ;;
  modify (λ s, set_running (running s ++ [r]) s) ;;
  (if sched_log_stats c then upd r (record_event SCHEDULED now) else mret ()) ;;
  request ← obj r;
  kind ← (match status request with
          | WAITING => mret true
          | PREEMPTED => mret false
          | _ => raise RuntimeError
          end);
  s ← get;
  let rid := request_id request in
  let blocks := get_blocks rid (kv_cache_manager s) in
  upd r (set_request_status RUNNING) ;;
  upd r (set_num_computed num_computed) ;;
  (if num_cached_tokens request <? 0 then upd r (set_cached_tokens num_computed) else mret ()) ;;
  request ← obj r;
  allocate_encoder request inputs external ;;
  mret (mkLocals (if kind : bool then l_new v ++ [r] else l_new v) (if kind : bool then l_resumed v else l_resumed v ++ [r])
          (l_running v) (l_preempted v) (<[rid := blocks]> (l_blocks v)) (OD.set rid num_new (l_tokens v)) (l_budget v - num_new)
          (if bool_decide (inputs = []) then l_enc_inputs v else <[rid := inputs]> (l_enc_inputs v))
          (if bool_decide (inputs = []) then l_enc_budget v else new_enc_budget)
          (l_spec v) (S (l_index v))
          (match max_loras c, lora_request request with Some _, Some l => {[adapter_id l]} ∪ l_loras v | _, _ => l_loras v end)).

(** [self.waiting.pop_request(); skipped_waiting_requests.prepend_request(request)] *)
Definition skip (r : nat) (skipped : Q) : MS Q :=
  on_waiting (λ _, pop_request) ;; x ← on_local (λ _, prepend_request r) skipped; mret x.2.

(** The number of tokens to schedule with its encoder inputs; [None]: not without chunked
    prefill *)
Definition plan_waiting (request : Request) (num_computed num_external : Z) (load_kv_async : bool) (v : locals)
    : MS (option (list nat * Z * Z * list nat)) :=
  if load_kv_async then assert_ (0 <? num_external) ;; mret (Some ([], 0, l_enc_budget v, [])) else
  let n := waiting_num_new request num_computed in
  if negb (enable_chunked_prefill c) && (l_budget v <? n) then mret None else
  let n := Z.min n (l_budget v) in
  assert_ (0 <? n) ;;
  if has_encoder_inputs request then x ← try_encoder request num_computed n (l_enc_budget v); mret (Some x)
  else mret (Some ([], n, l_enc_budget v, [])).

(** One iteration: whether the loop goes on *)
Definition waiting_step (now : Z) (v : locals) (skipped : Q) : MS (bool * locals * Q) :=
  r ← on_waiting (λ _, peek_request);
  ok ← admissible r v;
  if negb ok then sk ← skip r skipped; mret (true, v, sk) else
  found ← find_computed r;
  match found with
  | None => sk ← skip r skipped; mret (true, v, sk)
  | Some (blocks, num_local, num_external, load_kv_async, num_computed) =>
      request ← obj r;
      plan ← plan_waiting request num_computed num_external load_kv_async v;
      match plan with
      | None => sk ← skip r skipped; mret (true, v, sk)
      | Some (inputs, num_new, new_enc_budget, external) =>
          if negb load_kv_async && has_encoder_inputs request && bool_decide (num_new = 0) then mret (false, v, skipped) else
          let look := if bool_decide (num_computed_tokens request = 0) then 0 else num_lookahead_tokens c in
          let enc_tokens := if is_encoder_decoder c && has_encoder_inputs request then cross_attention_tokens c else 0 in
          new_blocks ← on_kv (allocate_slots request (num_new + num_external) num_local (Some blocks) look load_kv_async enc_tokens);
          match new_blocks with
          | None => mret (false, v, skipped)
          | Some b =>
              s ← get;
              (match connector with
               | Some cn => on_world (update_state_after_alloc cn request (add_blocks (num_kv_cache_groups (kv_cache_manager s)) blocks b) num_external)
               | None => mret ()
               end) ;;
              r' ← on_waiting (λ _, pop_request);
              if load_kv_async then
                x ← on_local (λ _, prepend_request r') skipped;
                upd r' (set_request_status WAITING_FOR_REMOTE_KVS) ;; mret (true, v, x.2)
              else
                v' ← start_running now r' num_new num_computed inputs external new_enc_budget v; mret (true, v', skipped)
          end
      end
  end.

(** [while self.waiting and token_budget > 0] *)
Fixpoint waiting_loop (fuel : nat) (now : Z) (v : locals) (skipped : Q) : MS (locals * Q) :=
  match fuel with
  | O => raise OutOfFuel
  | S fuel' =>
      s ← get;
      if bool_decide (queue_len (RequestQueue := queue (attributes (objs s))) (waiting s) = 0%nat) || (l_budget v <=? 0) then mret (v, skipped) else
      if bool_decide (Z.of_nat (length (running s)) = max_num_running_reqs c) then mret (v, skipped) else
      x ← waiting_step now v skipped;
      let '(more, v', skipped') := x in
      if more : bool then waiting_loop fuel' now v' skipped' else mret (v', skipped')
  end.

(** *** [schedule] *)

(** [req_to_new_blocks[id].get_block_ids(allow_none)] *)
Definition new_block_ids (allow_none : bool) (rid : string) (v : locals) : MS (option (list (list Z))) :=
  s ← get;
  match l_blocks v !! rid with
  | Some b => let k := kv_cache_manager s in mret (kv_block_ids (block_pool (coordinator k)) (num_kv_cache_groups k) allow_none b)
  | None => raise KeyError
  end.

Fixpoint mapM_ {A B} (f : A → MS B) (l : list A) : MS (list B) :=
  match l with [] => mret [] | x :: l' => y ← f x; ys ← mapM_ f l'; mret (y :: ys) end.

Definition new_request_data (v : locals) (r : nat) : MS NewRequestData :=
  request ← obj r;
  ids ← new_block_ids false (request_id request) v;
  mret (from_request request (default [] ids) (if use_v2_model_runner c then Some (all_token_ids request) else None)).

(** The entry of one request in [_make_cached_request_data] *)
Record cached_entry := mkCachedEntry {
  ce_req_id : string; ce_resumed : bool; ce_new_tokens : list Z; ce_all : option (list Z);
  ce_blocks : option (list (list Z)); ce_computed : Z; ce_output : Z;
}.
Definition cached_request_entry (v : locals) (x : bool * nat) : MS cached_entry :=
  request ← obj x.2;
  let rid := request_id request in
  n ← (match OD.get rid (l_tokens v) with Some n => mret n | None => raise KeyError end);
  let num_tokens := n - Z.of_nat (length (default [] (l_spec v !! rid))) in
  s ← get;
  let in_prev := bool_decide (rid ∈ prev_step_scheduled_req_ids s) in
  assert_ (negb (x.1 && in_prev)) ;;
  ids ← new_block_ids true rid v;
  mret (mkCachedEntry rid x.1
          (take (Z.to_nat num_tokens) (drop (Z.to_nat (num_computed_tokens request)) (all_token_ids request)))
          (if in_prev then None else Some (all_token_ids request)) ids (num_computed_tokens request)
          (num_output_tokens request + num_output_placeholders request)).

Definition _make_cached_request_data (running_reqs resumed_reqs : list nat) (v : locals) : MS CachedRequestData :=
  l ← mapM_ (cached_request_entry v) ((pair false <$> running_reqs) ++ (pair true <$> resumed_reqs));
  mret (mkCachedData (ce_req_id <$> l) (list_to_set (ce_req_id <$> filter (λ e, ce_resumed e = true) l))
          (if use_pp c then ce_new_tokens <$> l else [])
          (list_to_map (omap (λ e, pair (ce_req_id e) <$> ce_all e) l))
          (ce_blocks <$> l) (ce_computed <$> l) (ce_output <$> l)).

(** [_update_after_schedule] of [Scheduler] *)
Definition update_after_schedule (out : SchedulerOutput T) : MS () :=
  for_each (num_scheduled_tokens out) (λ x,
    s ← get;
    match requests s !! x.1 with
    | None => raise KeyError
    | Some r =>
        upd r (λ request, set_num_computed (num_computed_tokens request + x.2) request) ;;
        request ← obj r;
        if has_encoder_inputs request then on_enc (EncoderCache._free_encoder_inputs set_iter (is_encoder_decoder c) request) else mret ()
    end) ;;
  modify (λ s, set_finished ∅ (finished_req_ids_dict s) s).

(** ... and of [AsyncScheduler], whose loop gives whether structured-output tokens are pending *)
Definition async_placeholders (out : SchedulerOutput T) (rid : string) : MS bool :=
  s ← get;
  match requests s !! rid with
  | None => raise KeyError
  | Some r =>
      request ← obj r;
      let pending := use_structured_output request && (0 <? num_output_placeholders request) in
      let k := Z.of_nat (length (default [] (scheduled_spec_decode_tokens out !! rid))) in
      (if bool_decide (num_computed_tokens request = num_tokens request + num_output_placeholders request + k) then
         upd r (set_placeholders (num_output_placeholders request + (1 + k))) ;;
         upd r (set_spec_tokens (replicate (Z.to_nat (num_spec_tokens c)) (-1)))
       else mret ()) ;;
      mret pending
  end.
Definition set_pending (b : bool) (o : SchedulerOutput T) : SchedulerOutput T :=
  mkSchedulerOutput (scheduled_new_reqs o) (scheduled_cached_reqs o) (num_scheduled_tokens o) (total_num_scheduled_tokens o)
    (scheduled_spec_decode_tokens o) (scheduled_encoder_inputs o) (num_common_prefix_blocks o) (preempted_req_ids o)
    (out_finished_req_ids o) (free_encoder_mm_hashes o) b (kv_connector_metadata o) (ec_connector_metadata o).
Definition _update_after_schedule (out : SchedulerOutput T) : MS (SchedulerOutput T) :=
  update_after_schedule out ;;
  if async_scheduling c then
    l ← mapM_ (async_placeholders out) (num_scheduled_tokens out).*1;
    mret (set_pending (existsb id l) out)
  else mret out.

Definition set_meta (kv ec : option T) (o : SchedulerOutput T) : SchedulerOutput T :=
  mkSchedulerOutput (scheduled_new_reqs o) (scheduled_cached_reqs o) (num_scheduled_tokens o) (total_num_scheduled_tokens o)
    (scheduled_spec_decode_tokens o) (scheduled_encoder_inputs o) (num_common_prefix_blocks o) (preempted_req_ids o)
    (out_finished_req_ids o) (free_encoder_mm_hashes o) (pending_structured_output_tokens o) kv ec.

(** The metadata of the connectors *)
Definition attach_metadata (out : SchedulerOutput T) : MS (SchedulerOutput T) :=
  kv ← (match connector with Some cn => m ← on_world (build_connector_meta cn out); mret (Some m) | None => mret None end);
  let out := set_meta kv None out in
  ec ← (match ec_connector with Some ec => m ← on_world (ec_build_connector_meta ec out); mret (Some m) | None => mret None end);
  mret (set_meta kv ec out).

(** The checks after the loops, and the output *)
Definition make_output (v : locals) : MS (SchedulerOutput T) :=
  let total := zsum (l_tokens v).*2 in
  assert_ (total <=? max_num_scheduled_tokens c) ;;
  assert_ (0 <=? l_budget v) ;;
  s ← get;
  assert_ (Z.of_nat (length (running s)) <=? max_num_running_reqs c) ;;
  assert_ (length (l_new v) + length (l_resumed v) + length (l_running v) <=? length (running s))%nat ;;
  common ← (match running s with
            | [] => mret (replicate (num_groups c) 0)
            | r :: _ => rid ← id_of r; on_kv (km_get_num_common_prefix_blocks rid)
            end);
  let new_reqs := if use_v2_model_runner c then l_new v ++ l_resumed v else l_new v in
  let resumed_reqs := if use_v2_model_runner c then [] else l_resumed v in
  new_reqs_data ← mapM_ (new_request_data v) new_reqs;
  cached_reqs_data ← _make_cached_request_data (l_running v) resumed_reqs v;
  modify (set_prev_step (list_to_set (l_tokens v).*1)) ;;
  preempted ← mapM_ id_of (l_preempted v);
  s ← get;
  freed ← on_enc get_freed_mm_hashes;
  mret (mkSchedulerOutput new_reqs_data cached_reqs_data (l_tokens v) total (l_spec v) (l_enc_inputs v) common
          (list_to_set preempted) (finished_req_ids s) freed false None None).

Definition new_locals : locals :=
  mkLocals [] [] [] [] ∅ [] (max_num_scheduled_tokens c) ∅ (encoder_compute_budget c) ∅ 0 ∅.

(** [now] is [time.monotonic()]. *)
Definition schedule (now : Z) : MS (SchedulerOutput T) :=
  s ← get;
  v ← running_loop (S (length (running s))) now new_locals;
  loras ← running_loras v;
  let v := mkLocals (l_new v) (l_resumed v) (l_running v) (l_preempted v) (l_blocks v) (l_tokens v) (l_budget v)
             (l_enc_inputs v) (l_enc_budget v) (l_spec v) (l_index v) loras in
  s ← get;
  x ← (if bool_decide (l_preempted v = []) then
         waiting_loop (S (queue_len (RequestQueue := queue (attributes (objs s))) (waiting s))) now v new_queue
       else mret (v, new_queue));
  let '(v, skipped) := x in
  s ← get;
  (if bool_decide (queue_len (RequestQueue := queue (attributes (objs s))) skipped = 0%nat) then mret ()
   else on_waiting (λ _, prepend_requests skipped)) ;;
  out ← make_output v;
  out ← attach_metadata out;
  _update_after_schedule out.

(** *** Finished requests *)

(** [_connector_finished] *)
Definition _connector_finished (request : Request) : MS (bool * option T) :=
  match connector with
  | None => mret (false, None)
  | Some cn =>
      s ← get;
      let block_ids := default [] (get_block_ids (request_id request) (kv_cache_manager s)) in
      if negb (supports_hma cn) then
        assert_ (bool_decide (num_groups c = 1%nat)) ;;
        ids ← index block_ids 0;
        on_world (request_finished cn request ids)
      else on_world (request_finished_all_groups cn request block_ids)
  end.

Definition _free_blocks (r : nat) : MS () :=
  request ← obj r;
  assert_ (is_finished request) ;;
  on_kv (km_free request) ;;
  s ← get;
  match requests s !! request_id request with
  | None => raise KeyError
  | Some _ => modify (λ s, set_requests (delete (request_id request) (requests s)) s)
  end.

Definition _free_request (r : nat) : MS (option T) :=
  request ← obj r;
  assert_ (is_finished request) ;;
  x ← _connector_finished request;
  on_enc (EncoderCache.free set_iter request) ;;
  modify (λ s, set_finished ({[request_id request]} ∪ finished_req_ids s)
    ((λ d, OD.set (client_index request) ({[request_id request]} ∪ default ∅ (OD.get (client_index request) d)) d) <$> finished_req_ids_dict s) s) ;;
  (if x.1 : bool then mret () else _free_blocks r) ;;
  mret x.2.

(** *** [update_from_output] *)

(** The loop of [_update_request_with_output]: the tokens that are kept, and whether the
    request stopped *)
Fixpoint append_tokens (r : nat) (kept tokens : list Z) : MS (list Z * bool) :=
  match tokens with
  | [] => mret (kept, false)
  | t :: rest =>
      request ← obj r;
      request' ← of_result (append_output_token_ids block_hasher (inl t) request);
      upd r (λ _, request') ;;
      x ← of_result (check_stop request' (sched_max_model_len c) false);
      upd r (λ _, x.2) ;;
      if x.1 : bool then mret (kept ++ [t], true) else append_tokens r (kept ++ [t]) rest
  end.

(** ... and of [AsyncScheduler] *)
Definition _update_request_with_output (r : nat) (tokens : list Z) : MS (list Z * bool) :=
  before ← obj r;
  x ← append_tokens r [] tokens;
  if negb (async_scheduling c) then mret x else
  upd r (λ request, set_placeholders (num_output_placeholders request - Z.of_nat (length x.1)) request) ;;
  request ← obj r;
  assert_ (0 <=? num_output_placeholders request) ;;
  (if bool_decide (status before = RUNNING)
   then on_kv (km_cache_blocks request (num_computed_tokens request - num_output_placeholders request)) else mret ()) ;;
  mret x.

(** [make_spec_decoding_stats] *)
Definition make_spec_decoding_stats (stats : option SpecDecodingStats) (draft accepted : Z) : MS (option SpecDecodingStats) :=
  if negb (sched_log_stats c) then mret None else
  s ← of_result (observe_draft draft accepted (default (new_spec_stats (num_spec_tokens c)) stats));
  mret (Some s).

(** The tokens of rejected drafts are not computed. *)
Definition adjust_rejected (r : nat) (scheduled_spec generated : list Z) (stats : option SpecDecodingStats) : MS (option SpecDecodingStats) :=
  let num_draft := Z.of_nat (length scheduled_spec) in
  let num_accepted := Z.of_nat (length generated) - 1 in
  let num_rejected := num_draft - num_accepted in
  upd r (λ q, if 0 <? num_computed_tokens q then set_num_computed (num_computed_tokens q - num_rejected) q else q) ;;
  upd r (λ q, if 0 <? num_output_placeholders q then set_placeholders (num_output_placeholders q - num_rejected) q else q) ;;
  make_spec_decoding_stats stats num_draft num_accepted.

(** [struct_output_request.grammar.accept_tokens(req_id, new_token_ids)] *)
Definition advance_grammar (request : Request) (tokens : list Z) : MS () :=
  if bool_decide (tokens = []) then mret () else
  adv ← on_world (should_advance structured request);
  if negb adv then mret () else
  assert_ (use_structured_output request) ;;
  g ← on_world (grammar_ready structured request);
  assert_ g ;;
  on_world (accept_tokens structured request tokens).

(** The output of one request; [stopped] and the tokens are known *)
Definition emit_output (out : ModelRunnerOutput T) (r : nat) (req_index : nat) (tokens : list Z) (pooled : option T) (params : option T)
    (u : update_vars T) : MS (update_vars T) :=
  request ← obj r;
  let rid := request_id request in
  let new_logprobs := match sampling_params request, logprobs out with
                      | Some sp, Some l => if wants_logprobs sp then Some (slice l req_index (S req_index)) else None
                      | _, _ => None
                      end in
  advance_grammar request tokens ;;
  (match mro_num_nans_in_logits out ≫= lookup rid with Some n => upd r (set_nans n) | None => mret () end) ;;
  request ← obj r;
  let prompt := prompt_logprobs_dict out !! rid in
  if negb (bool_decide (tokens = [])) || bool_decide (is_Some pooled) || match params with Some p => truthy p | None => false end then
    let (ev, request') := Request.take_events request in
    upd r (λ _, request') ;;
    let o := mkECOutput rid tokens (get_finished_reason request) new_logprobs prompt pooled (stop_reason request) ev params
               (num_cached_tokens request) (num_nans_in_logits request) in
    let client := client_index request in
    mret (mkUpdate (OD.set client (default [] (OD.get client (u_outputs u)) ++ [o]) (u_outputs u)) (u_spec_stats u)
            (u_stopped_running u) (u_stopped_preempted u))
  else assert_ (bool_decide (prompt = None)) ;; mret u.

Definition update_one (so : SchedulerOutput T) (out : ModelRunnerOutput T) (failed : gset string) (x : string * Z) (u : update_vars T) : MS (update_vars T) :=
  assert_ (0 <? x.2) ;;
  if bool_decide (x.1 ∈ failed) then mret u else
  s ← get;
  match requests s !! x.1 with
  | None => mret u
  | Some r =>
      req_index ← (match req_id_to_index out !! x.1 with Some i => mret i | None => raise KeyError end);
      generated ← (if bool_decide (sampled_token_ids out = []) then mret [] else index (sampled_token_ids out) req_index);
      stats ← (match scheduled_spec_decode_tokens so !! x.1 with
               | Some ((_ :: _) as spec) => adjust_rejected r spec generated (u_spec_stats u)
               | _ => mret (u_spec_stats u)
               end);
      before ← obj r;
      y ← (if bool_decide (generated = []) then mret ([], false) else _update_request_with_output r generated);
      z ← (if bool_decide (pooler_output out = []) then mret (None, y.2) else
             pooled ← index (pooler_output out) req_index;
             request ← obj r;
             w ← of_result (check_stop request (sched_max_model_len c) (bool_decide (is_Some pooled)));
             upd r (λ _, w.2) ;; mret (pooled, w.1));
      params ← (if z.2 : bool then _free_request r else mret None);
      let stopped_running := if (z.2 : bool) && bool_decide (status before = RUNNING) then {[r]} ∪ u_stopped_running u else u_stopped_running u in
      let stopped_preempted := if (z.2 : bool) && negb (bool_decide (status before = RUNNING)) then {[r]} ∪ u_stopped_preempted u else u_stopped_preempted u in
      emit_output out r req_index y.1 z.1 params (mkUpdate (u_outputs u) stats stopped_running stopped_preempted)
  end.

Fixpoint update_all (so : SchedulerOutput T) (out : ModelRunnerOutput T) (failed : gset string) (l : list (string * Z)) (u : update_vars T) : MS (update_vars T) :=
  match l with [] => mret u | x :: l' => u' ← update_one so out failed x u; update_all so out failed l' u' end.

(** [make_stats] *)
Definition _make_connector_prefix_cache_stats : MS (option PrefixCacheStats) :=
  s ← get;
  match connector_prefix_cache_stats s with
  | None => mret None
  | Some p => modify (set_connector_stats (Some new_stats)) ;; mret (Some p)
  end.
Definition make_stats (spec : option SpecDecodingStats) (kv_stats : option T) : MS (option (SchedulerStats T)) :=
  if negb (sched_log_stats c) then mret None else
  p ← on_kv make_prefix_cache_stats;
  match p with
  | None => raise AssertionError
  | Some p =>
      cs ← _make_connector_prefix_cache_stats;
      s ← get;
      mret (Some (mkSchedStats (Z.of_nat (length (running s))) (Z.of_nat (queue_len (RequestQueue := queue (attributes (objs s))) (waiting s)))
                    (usage (kv_cache_manager s)) p cs spec kv_stats))
  end.

(** *** Remote KV caches *)

Definition _update_from_kv_xfer_finished (o : KVConnectorOutput T) : MS () :=
  (match connector with Some cn => on_world (update_connector_output cn o) | None => mret () end) ;;
  for_each (finished_recving o) (λ rid, modify (λ s, set_recving ({[rid]} ∪ finished_recving_kv_req_ids s) (failed_recving_kv_req_ids s) s)) ;;
  for_each (finished_sending o) (λ rid,
    s ← get; match requests s !! rid with None => raise AssertionError | Some r => _free_blocks r end).

(** The loop over the blocks of one request: [marked_invalid_block_ids], whether the request
    is affected, whether it has marked a block, and the affected tokens *)
Record invalid_vars := mkInvalid { i_marked_ids : gset Z; i_affected : bool; i_marked : bool; i_tokens : Z }.
Fixpoint scan_blocks (r : nat) (invalid : gset Z) (num_computed : Z) (idx : Z) (block_ids : list Z) (v : invalid_vars) : MS invalid_vars :=
  match block_ids with
  | [] => mret v
  | b :: rest =>
      if bool_decide (b ∉ invalid) then scan_blocks r invalid num_computed (idx + 1) rest v else
      if bool_decide (b ∈ i_marked_ids v) then
        scan_blocks r invalid num_computed (idx + 1) rest (mkInvalid (i_marked_ids v) true (i_marked v) (i_tokens v))
      else
        let ids := {[b]} ∪ i_marked_ids v in
        if i_marked v then scan_blocks r invalid num_computed (idx + 1) rest (mkInvalid ids true true (i_tokens v)) else
        let n := idx * sched_block_size c in
        upd r (λ q, set_external (num_external_computed_tokens q - (num_computed - n)) (set_num_computed n q)) ;;
        scan_blocks r invalid num_computed (idx + 1) rest (mkInvalid ids true true (i_tokens v + (num_computed - n)))
  end.

Definition _update_requests_with_invalid_blocks (reqs : list nat) (invalid : gset Z) : MS (gset string * Z) :=
  let fix go (reqs : list nat) (marked : gset Z) (affected : gset string) (total : Z) : MS (gset string * Z) :=
    match reqs with
    | [] => mret (affected, total)
    | r :: rest =>
        request ← obj r;
        s ← get;
        let rid := request_id request in
        match get_block_ids rid (kv_cache_manager s) with
        | Some [block_ids] =>
            let num_computed :=
              if bool_decide (status request = WAITING_FOR_REMOTE_KVS) then
                if bool_decide (rid ∈ failed_recving_kv_req_ids s) then num_computed_tokens request
                else Z.of_nat (length block_ids) * sched_block_size c
              else num_cached_tokens request in
            nblocks ← of_result (py_div (num_computed + sched_block_size c - 1) (sched_block_size c));
            v ← scan_blocks r invalid num_computed 0 (take (Z.to_nat nblocks) block_ids) (mkInvalid marked false false total);
            request ← obj r;
            if negb (i_affected v) then go rest (i_marked_ids v) affected (i_tokens v) else
            (if i_marked v then mret () else upd r (λ q, set_num_computed (num_cached_tokens q) q)) ;;
            go rest (i_marked_ids v) ({[rid]} ∪ affected)
              (if i_marked v then i_tokens v else i_tokens v + (num_computed_tokens request - num_cached_tokens request))
        | _ => raise ValueError
        end
    end in
  go reqs ∅ ∅ 0.

Definition _handle_invalid_blocks (invalid : gset Z) : MS (gset string) :=
  s ← get;
  l ← of_result (queue_iter (RequestQueue := queue (attributes (objs s))) (waiting s));
  let async_reqs := filter (λ r, status <$> objs s !! r = Some WAITING_FOR_REMOTE_KVS) l in
  x ← _update_requests_with_invalid_blocks async_reqs invalid;
  modify (λ s, set_recving (finished_recving_kv_req_ids s) (failed_recving_kv_req_ids s ∪ x.1) s) ;;
  s ← get;
  y ← _update_requests_with_invalid_blocks (running s) invalid;
  mret y.1.

(** *** [update_from_output] *)

(** The events of the KV cache and of the connector are published. *)
Definition publish_events : MS () :=
  r ← on_kv km_take_events;
  more ← (match connector with Some cn => on_world (connector_take_events cn) | None => mret [] end);
  let events := r ++ more in
  if bool_decide (events = []) then mret () else on_world (publish events).

Definition set_finished_requests (f : gset string) (o : EngineCoreOutputs T) : EngineCoreOutputs T :=
  mkECOutputs (ec_outputs o) (scheduler_stats o) (Some f).
Definition set_stats_of (st : SchedulerStats T) (o : EngineCoreOutputs T) : EngineCoreOutputs T :=
  mkECOutputs (ec_outputs o) (Some st) (finished_requests o).
Definition empty_outputs : EngineCoreOutputs T := mkECOutputs [] None None.

(** The outputs of all clients, with the requests that finished since the last ones *)
Definition engine_core_outputs (u : update_vars T) : MS (list (Z * EngineCoreOutputs T)) :=
  let outs := (λ x, (x.1, mkECOutputs x.2 None None)) <$> u_outputs u in
  s ← get;
  match finished_req_ids_dict s with
  | Some ((_ :: _) as d) =>
      modify (λ s, set_finished (finished_req_ids s) (Some []) s) ;;
      mret (foldl (λ acc x, OD.set x.1 (set_finished_requests x.2 (default empty_outputs (OD.get x.1 acc))) acc) outs d)
  | _ => mret outs
  end.

Definition update_from_output (so : SchedulerOutput T) (out : ModelRunnerOutput T) : MS (list (Z * EngineCoreOutputs T)) :=
  let kv_out := kv_connector_output out in
  kv_stats ← (match kv_out ≫= kv_connector_stats, connector with
              | Some st, Some cn => o ← on_world (get_kv_connector_stats cn); mret (Some (match o with Some st' => aggregate cn st st' | None => st end))
              | o, _ => mret o
              end);
  failed ← (match kv_out with
            | Some o => if bool_decide (invalid_block_ids o = ∅) then mret ∅ else _handle_invalid_blocks (invalid_block_ids o)
            | None => mret ∅
            end);
  u ← update_all so out failed (num_scheduled_tokens so) (mkUpdate [] None ∅ ∅);
  modify (λ s, set_running (remove_all (running s) (u_stopped_running u)) s) ;;
  (if bool_decide (u_stopped_preempted u = ∅) then mret () else on_waiting (λ _, remove_requests (elements (u_stopped_preempted u)))) ;;
  (match kv_out with Some o => _update_from_kv_xfer_finished o | None => mret () end) ;;
  publish_events ;;
  outs ← engine_core_outputs u;
  stats ← make_stats (u_spec_stats u) kv_stats;
  mret (match stats with
        | None => outs
        | Some st => match outs with [] => [(0, set_stats_of st empty_outputs)] | (k, o) :: rest => (k, set_stats_of st o) :: rest end
        end).

(** *** Requests enter and leave *)

Definition add_request (now : Z) (request : Request) : MS () :=
  s ← get;
  let r := next_ref s in
  modify (λ s, mkScheduler (<[r := request]> (objs s)) (S r) (requests s) (waiting s) (running s) (finished_req_ids s) (finished_req_ids_dict s)
    (finished_recving_kv_req_ids s) (failed_recving_kv_req_ids s) (prev_step_scheduled_req_ids s)
    (kv_cache_manager s) (encoder_cache_manager s) (connector_prefix_cache_stats s) (world s)) ;;
  on_waiting (λ _, RequestQueue.add_request r) ;;
  modify (λ s, set_requests (<[request_id request := r]> (requests s)) s) ;;
  if sched_log_stats c then upd r (record_event QUEUED now) else mret ().

(** The first pass of [finish_requests]: the unfinished requests among the ids *)
Definition valid_requests (s : scheduler) (ids : list string) : list nat :=
  omap (λ rid, r ← requests s !! rid; q ← objs s !! r; if is_finished q then None else Some r) ids.
Definition has_status (s : scheduler) (st : RequestStatus) (r : nat) : bool := bool_decide (status <$> objs s !! r = Some st).

Definition finish_requests (request_ids : list string) (finished_status : RequestStatus) : MS () :=
  assert_ (status_is_finished finished_status) ;;
  s ← get;
  let valid := valid_requests s (set_order request_ids) in
  let from_running := filter (λ r, has_status s RUNNING r = true) valid in
  let from_waiting := filter (λ r, has_status s RUNNING r = false) valid in
  modify (λ s, set_running (remove_all (running s) (list_to_set from_running)) s) ;;
  (if bool_decide (from_waiting = []) then mret () else on_waiting (λ _, remove_requests from_waiting)) ;;
  for_each valid (λ r, upd r (set_request_status finished_status) ;; _free_request r ;; mret ()).

(** [update_draft_token_ids] *)
Definition update_draft_token_ids (drafts : list (string * list Z)) : MS () :=
  for_each drafts (λ x,
    s ← get;
    match requests s !! x.1 with
    | None => mret ()
    | Some r =>
        request ← obj r;
        if is_finished request then mret () else
        adv ← on_world (should_advance structured request);
        if adv : bool then ts ← on_world (validate_tokens structured request x.2); upd r (set_spec_tokens ts)
        else upd r (set_spec_tokens x.2)
    end).

(** [get_grammar_bitmask] *)
Definition get_grammar_bitmask (so : SchedulerOutput T) : MS (option (list string * T)) :=
  s ← get;
  let ids := filter (λ rid, (r ← requests s !! rid; q ← objs s !! r; Some (use_structured_output q)) = Some true) (num_scheduled_tokens so).*1 in
  if bool_decide (ids = []) then mret None else
  b ← on_world (grammar_bitmask structured ids (scheduled_spec_decode_tokens so)); mret (Some (ids, b)).

Definition get_request_counts (s : scheduler) : nat * nat :=
  (length (running s), queue_len (RequestQueue := queue (attributes (objs s))) (waiting s)).
Definition get_num_unfinished_requests (s : scheduler) : nat :=
  (queue_len (RequestQueue := queue (attributes (objs s))) (waiting s) + length (running s))%nat.
Definition has_unfinished_requests (s : scheduler) : bool := (0 <? get_num_unfinished_requests s)%nat.
Definition has_finished_requests (s : scheduler) : bool := negb (bool_decide (finished_req_ids s = ∅)).
Definition has_requests (s : scheduler) : bool := has_unfinished_requests s || has_finished_requests s.
Definition reset_prefix_cache : MS bool := on_kv km_reset_prefix_cache.

(** [__init__]: [encoder_cache_size] is the second of the budgets of [compute_encoder_budget]. *)
Definition init (include_finished_set : bool) (kv_cache_config : KVCacheConfig) (num_gpu_blocks : option Z) (caching eagle events use_int : bool)
    (dcp pcp encoder_cache_size : Z) (w : W) : result scheduler :=
  if bool_decide (is_Some connector) && is_encoder_decoder c then Raise AssertionError else
  if negb (0 <? default 0 num_gpu_blocks) then Raise AssertionError else
  k ← KVCacheManager_init kv_cache_config (sched_max_model_len c) caching eagle (sched_log_stats c) events use_int dcp pcp;
  Ok (mkScheduler ∅ 0 ∅ new_queue [] ∅ (if include_finished_set then Some [] else None) ∅ ∅ ∅ k (enc_init encoder_cache_size)
        (if bool_decide (is_Some connector) && sched_log_stats c then Some new_stats else None) w).
End sched.
End Sched.

(** The queues of the two policies *)
Definition fcfs_waiting (attrs : gmap nat (Z * Z)) : RequestQueue nat (list nat) := fcfs_queue.
Definition priority_waiting (attrs : gmap nat (Z * Z)) : RequestQueue nat (list (Heap.entry nat)) :=
  priority_queue (priority_of attrs) (arrival_of attrs).
