(* ===== verification/SchedulerInv.v ===== *)
(** * The invariant of the scheduler

    What the waiting queue, the block hasher and the structured-output manager promise to
    the scheduler (as classes, with instances), the invariant that relates the requests,
    the queues, the KV cache and the encoder cache, and the proof that the calls of the
    scheduler keep it and do not raise. *)

From stdpp Require Import base tactics option list gmap strings.
From Stdlib Require Import ZArith Lia QArith.
From S2P Require Import Prelude KVCacheUtils Request BlockHash BlockPool Ledger KVCacheInterface SingleTypeManager Coordinator KVCacheManager EncoderCache RequestQueue Scheduler.
Local Open Scope Z_scope.

(** ** What the scheduler relies on *)

Abbreviation attrs := (gmap nat (Z * Z)).

(** The waiting queue: [rep a q l] when [q] holds the requests [l] (in any order);
    [compat a l] when the requests [l] may be in one queue. *)
Class QueueLaws {Q : Type} (queue : attrs → RequestQueue nat Q) (new_queue : Q) (rep : attrs → Q → list nat → Prop)
    (compat : attrs → list nat → Prop) : Prop := {
  ql_new a : rep a new_queue [];
  ql_len a q l : rep a q l → queue_len (RequestQueue := queue a) q = length l;
  ql_head a q l : rep a q l → l ≠ [] → ∃ r q' l', peek_request (RequestQueue := queue a) q = (Ok r, q) ∧
    pop_request (RequestQueue := queue a) q = (Ok r, q') ∧ l ≡ₚ r :: l' ∧ rep a q' l';
  ql_add a q l r : compat a (r :: l) → rep a q l → wp (RequestQueue.add_request (RequestQueue := queue a) r) q (λ _ q', rep a q' (r :: l));
  ql_prepend a q l r : compat a (r :: l) → rep a q l → wp (prepend_request (RequestQueue := queue a) r) q (λ _ q', rep a q' (r :: l));
  ql_prepend_all a q l q' l' : compat a (l' ++ l) → rep a q l → rep a q' l' →
    wp (prepend_requests (RequestQueue := queue a) q') q (λ _ q'', rep a q'' (l' ++ l));
  ql_remove a q l rs : rep a q l → wp (remove_requests (RequestQueue := queue a) rs) q (λ _ q', rep a q' (filter (λ r, r ∉ rs) l));
  ql_iter a q l : rep a q l → ∃ l', queue_iter (RequestQueue := queue a) q = Ok l' ∧ l' ≡ₚ l;
  ql_attrs a a' q l : (∀ r, r ∈ l → a' !! r = a !! r) → rep a q l → rep a' q l;
  ql_perm a q l l' : l ≡ₚ l' → rep a q l → rep a q l';
  ql_sub a l l' : (∀ r, r ∈ l' → r ∈ l) → compat a l → compat a l';
  ql_compat_attrs a a' l : (∀ r, r ∈ l → a' !! r = a !! r) → compat a l → compat a' l;
  ql_compat_nil a : compat a [];
}.

(** *** First come, first served *)

#[export] Instance fcfs_laws : QueueLaws fcfs_waiting [] (λ _ q l, q ≡ₚ l) (λ _ _, True).
Proof.
  split; try done.
  - intros a q l Hq. by rewrite <-Hq.
  - intros a q l Hq Hl. destruct q as [|r q]; [by apply Permutation_nil_l in Hq|]. by exists r, q, q.
  - intros a q l r _ Hq. apply wp_modify. by rewrite Hq, Permutation_app_comm.
  - intros a q l r _ Hq. apply wp_modify. by rewrite Hq.
  - intros a q l q' l' _ Hq Hq'. cbn. unfold FCFS.extendleft.
    apply (wp_for_each (λ fin d, d ≡ₚ fin ++ l)).
    + done.
    + intros fin x rest d _ Hd. apply wp_modify. rewrite Hd, <-app_assoc. apply Permutation_middle.
    + intros d Hd. rewrite Hd, reverse_Permutation. by rewrite Hq'.
  - intros a q l rs Hq. apply wp_modify. by rewrite Hq.
  - intros a q l Hq. by exists q.
  - intros a q l l' Hp Hq. by rewrite Hq.
Qed.

(** *** Priorities without ties *)

Section priority_laws.
Local Abbreviation entry a := (Priority.entry_of (priority_of a) (arrival_of a)).

(** No two requests of the list have the same priority and arrival time. *)
Definition distinct_keys (a : attrs) (l : list nat) : Prop :=
  ∀ r r', r ∈ l → r' ∈ l → priority_of a r = priority_of a r' → arrival_of a r = arrival_of a r' → r = r'.
Definition heap_rep (a : attrs) (h : list (Heap.entry nat)) (l : list nat) : Prop :=
  h ≡ₚ entry a <$> l ∧ is_heap h ∧ tie_free h.

Lemma distinct_sub a l l' : (∀ r, r ∈ l' → r ∈ l) → distinct_keys a l → distinct_keys a l'.
Proof. intros Hs Hd r r' Hr Hr'. apply Hd; auto. Qed.

Lemma distinct_tie_free a l : distinct_keys a l → tie_free (entry a <$> l).
Proof.
  intros Hd x y (r & -> & Hr)%list_elem_of_fmap (r' & -> & Hr')%list_elem_of_fmap. unfold ele. simpl. intros H1 H2.
  f_equal. apply Hd; [done|done|lia|lia].
Qed.

Lemma heap_add a h l r : distinct_keys a (r :: l) → heap_rep a h l → wp (Heap.heappush (entry a r)) h (λ _ h', heap_rep a h' (r :: l)).
Proof.
  intros Hd (Hp & Hh & _). pose proof (distinct_tie_free a (r :: l) Hd) as Ht. csimpl in Ht.
  eapply wp_mono; [apply wp_heappush; [by rewrite Hp|done]|]. intros [] h' [Hp' Hh']. assert (h' ≡ₚ entry a <$> r :: l) as E by (by rewrite Hp', Hp).
  split_and!; [done|done|by rewrite E].
Qed.

Lemma heap_pop a h l : heap_rep a h l → l ≠ [] → ∃ r h' l', head h = Some (entry a r) ∧ Heap.heappop h = (Ok (entry a r), h') ∧ l ≡ₚ r :: l' ∧ heap_rep a h' l'.
Proof.
  intros (Hp & Hh & Ht) Hl. assert (h ≠ []) as Hne by (intros ->; apply Permutation_nil_l in Hp; by destruct l).
  pose proof (wp_heappop h Hne Ht Hh) as (e & h' & E & Hp' & Hh' & Hmin)%wp_ok.
  assert (e ∈ entry a <$> l) as (r & -> & Hr)%list_elem_of_fmap by (rewrite <-Hp, <-Hp'; left).
  apply list_elem_of_split in Hr as (l1 & l2 & El). exists r, h', (l1 ++ l2). split_and!; [|done|by rewrite El, Permutation_middle|].
  - destruct h as [|e0 t]; [done|]. simpl. f_equal. apply Ht; [left|rewrite <-Hp'; left| |apply Hmin; left].
    assert (entry a r ∈ e0 :: t) as [i Hi]%list_elem_of_lookup by (rewrite <-Hp'; left). by eapply (heap_root_le (e0 :: t)).
  - split_and!; [|done|].
    + apply (Permutation_cons_inv (a := entry a r)). rewrite Hp', Hp, El, !fmap_app, fmap_cons. by rewrite Permutation_middle.
    + eapply tie_free_sub; [|exact Ht]. intros x Hx. rewrite <-Hp'. by right.
Qed.

(** [prepend_requests] moves the requests of the other queue one by one. *)
Lemma heap_prepend_all a n : ∀ o l' h l, length l' = n → distinct_keys a (l' ++ l) → heap_rep a o l' → heap_rep a h l →
  wp (Priority.iterate n o (Priority.add (priority_of a) (arrival_of a))) h (λ _ h', heap_rep a h' (l' ++ l)).
Proof.
  induction n as [|n IH]; intros o l' h l Hn Hd Ho Hh.
  { destruct l'; [|done]. destruct Ho as [Ho _]. apply Permutation_nil_r in Ho as ->. by apply wp_ret. }
  destruct (heap_pop a o l' Ho) as (r & o' & l1 & Hhd & E & Hl & Ho'); [by intros ->|]. destruct o as [|e0 t]; [done|].
  cbn [Priority.iterate]. rewrite E. cbn [Heap.e_request Priority.entry_of]. apply wp_bind. eapply wp_mono; [apply (heap_add a h l r)|].
  - eapply distinct_sub; [|exact Hd]. intros x. rewrite Hl, !elem_of_app, !elem_of_cons. tauto.
  - done.
  - intros [] h1 Hh1. eapply wp_mono; [apply (IH o' l1 h1 (r :: l))|].
    + apply Permutation_length in Hl. simpl in Hl. lia.
    + eapply distinct_sub; [|exact Hd]. intros x. rewrite Hl, !elem_of_app, !elem_of_cons. tauto.
    + done.
    + done.
    + intros [] h2 (Hp2 & ? & ?). split_and!; [|done|done]. by rewrite Hp2, Hl, <-Permutation_middle.
Qed.

(** [list(queue)] empties a copy of the heap. *)
Lemma heap_iter a n : ∀ h l acc, length l = n → heap_rep a h l →
  wp (Priority.iterate n h (λ r, modify (λ l, l ++ [r]))) acc (λ _ acc', acc' ≡ₚ acc ++ l).
Proof.
  induction n as [|n IH]; intros h l acc Hn Hh.
  { destruct l; [|done]. destruct Hh as [Hh _]. apply Permutation_nil_r in Hh as ->. apply wp_ret. by rewrite app_nil_r. }
  destruct (heap_pop a h l Hh) as (r & h' & l' & Hhd & E & Hl & Hh'); [by intros ->|]. destruct h as [|e0 t]; [done|].
  cbn [Priority.iterate]. rewrite E. cbn [Heap.e_request Priority.entry_of]. apply wp_bind, wp_modify. eapply wp_mono; [apply (IH h' l')|].
  - apply Permutation_length in Hl. simpl in Hl. lia.
  - done.
  - intros [] acc' ->. by rewrite Hl, <-app_assoc.
Qed.

#[export] Instance priority_laws : QueueLaws priority_waiting [] heap_rep distinct_keys.
Proof.
  split.
  - intros a. split_and!; [done| |]; [by intros i Hi _ _ x y Hx; rewrite lookup_nil in Hx|]. intros x y Hx. by apply not_elem_of_nil in Hx.
  - intros a q l [Hp _]. cbn. by rewrite Hp, length_fmap.
  - intros a q l Hq Hl. destruct (heap_pop a q l Hq Hl) as (r & q' & l' & Hh & E & Hp & Hq'). exists r, q', l'. split_and!; [| |done|done]; cbn.
    + unfold Priority.peek, mbind, M_bind, get. destruct q as [|e t]; [done|]. by injection Hh as ->.
    + unfold Priority.pop, mbind, M_bind, get. rewrite bool_decide_false by (by intros ->). by rewrite E.
  - intros a q l r Hc Hq. by apply heap_add.
  - intros a q l r Hc Hq. by apply heap_add.
  - intros a q l q' l' Hc Hq Hq'. cbn. unfold Priority.prepend_all. apply heap_prepend_all; [|done|done|done].
    destruct Hq' as [Hp _]. apply Permutation_length in Hp. by rewrite length_fmap in Hp.
  - intros a q l rs (Hp & Hh & Ht). cbn. unfold Priority.remove_all. apply wp_bind, wp_modify.
    assert (filter (λ e, Heap.e_request e ∉ rs) q ≡ₚ entry a <$> filter (λ r, r ∉ rs) l) as E.
    { rewrite Hp. clear. induction l as [|r l IH]; [done|]. csimpl. rewrite !filter_cons. simpl. case_decide; csimpl; by rewrite IH. }
    assert (tie_free (filter (λ e, Heap.e_request e ∉ rs) q)) as Ht'.
    { eapply tie_free_sub; [|exact Ht]. intros x [_ ?]%list_elem_of_filter. done. }
    eapply wp_mono; [by apply wp_heapify|]. intros [] h' [Hp' Hh']. split_and!; [by rewrite Hp'|done|by rewrite Hp'].
  - intros a q l Hq. cbn. unfold Priority.iter_list. assert (length l = length q) as Hn by (destruct Hq as [Hp _]; by rewrite Hp, length_fmap).
    destruct (proj1 (wp_ok _ _ _) (heap_iter a _ q l [] Hn Hq)) as (? & l' & -> & Hl). by exists l'.
  - intros a a' q l Ha (Hp & Hh & Ht). split_and!; [|done|done]. rewrite Hp. assert (entry a <$> l = entry a' <$> l) as ->; [|done].
    apply list_fmap_ext. intros i r Hr%list_elem_of_lookup_2. unfold Priority.entry_of, priority_of, arrival_of. by rewrite (Ha r Hr).
  - intros a q l l' Hl (Hp & ? & ?). split_and!; [|done|done]. by rewrite <-Hl.
  - intros a l l'. apply distinct_sub.
  - intros a a' l Ha Hd r r' Hr Hr'. unfold priority_of, arrival_of. rewrite (Ha r Hr), (Ha r' Hr'). by apply Hd.
  - intros a r r' Hr. by apply not_elem_of_nil in Hr.
Qed.
End priority_laws.

(** *** The block hasher *)

(** What the hash of a block depends on, and the hashes *)
Definition same_content (q q' : Request) : Prop :=
  all_token_ids q' = all_token_ids q ∧ block_hashes q' = block_hashes q ∧ mm_features q' = mm_features q ∧
  lora_request q' = lora_request q ∧ cache_salt q' = cache_salt q ∧ prompt_embeds q' = prompt_embeds q.

(** With the prefix cache on, a request that is [good] has different hashes for all its
    full blocks, of any of the block sizes; appending a token keeps it so. *)
Class HasherLaws (caching : bool) (block_sizes : list Z) (block_hasher : option (Request → result (list bytes))) (good : Request → Prop) : Prop := {
  hl_ready q : caching = true → good q → NoDup (block_hashes q) ∧ ∀ b, b ∈ block_sizes → num_tokens q / b ≤ Z.of_nat (length (block_hashes q));
  hl_append q t : good q → ∃ q', append_output_token_ids block_hasher (inl t) q = Ok q' ∧ good q';
  hl_content q q' : same_content q q' → good q → good q';
}.

(** No prefix cache, no hasher *)
#[export] Instance no_hasher bss : HasherLaws false bss None (λ _, True).
Proof. split; [done| |done]. intros q t _. by eexists. Qed.

(** The hasher of BlockHash.v, for requests without multimodal inputs and blocks that are
    not smaller than those it hashes *)
Lemma chain_hasher (H : hashable → bytes) (NONE : bytes) bs bss : GoodHash H NONE → 0 < bs → (∀ b, b ∈ bss → bs ≤ b) →
  HasherLaws true bss (Some (request_block_hasher H NONE bs)) (λ q, mm_features q = [] ∧ hashed H NONE bs q).
Proof.
  intros HG Hbs Hbss. split.
  - intros q _ [_ Hh]. unfold hashed, hash_chain in Hh. rewrite !Hh. split; [by apply chain_NoDup|]. intros b Hb. rewrite length_chain_from. unfold num_full.
    assert (0 ≤ num_tokens q) by (unfold num_tokens; lia). rewrite Z2Nat.id by (apply Z.div_pos; lia). specialize (Hbss b Hb). apply Z.div_le_compat_l; lia.
  - intros q t [Hmm Hh]. destruct (append_hashed H NONE bs Hbs q [t] Hmm Hh) as (q' & E & Hh' & _). exists q'. split_and!; [exact E| |done].
    by rewrite (append_preserves_mm _ _ _ _ E).
  - intros q q' (E1 & E2 & E3 & E4 & E5 & E6) [Hmm Hh]. split; [congruence|]. unfold hashed, hash_chain, num_full, num_tokens in *. rewrite E1, E2, Hh. apply chain_from_ext.
    intros j _. unfold blk_tokens, blk_extra, _gen_lora_extra_hash_keys, cache_salt_keys, _gen_prompt_embeds_extra_hash_keys. by rewrite E1, E4, E5, E6.
Qed.

(** *** The structured-output manager and the event publisher *)

Class StructuredLaws {W T : Type} (structured : StructuredOutputManager W T) : Prop := {
  sl_ready q w : wp (grammar_ready structured q) w (λ _ _, True);
  sl_advance q ts w : wp (should_advance structured q) w (λ adv w', adv = true → use_structured_output q = true ∧
    wp (grammar_ready structured q) w' (λ ready w'', ready = true ∧ wp (accept_tokens structured q ts) w'' (λ _ _, True)));
}.

(** ** The KV cache under the scheduler *)

Lemma wp_bind_inv {S A B} (f : M S A) (g : A → M S B) s Q : wp (f ≫= g) s Q → wp f s (λ a s', wp (g a) s' Q).
Proof. unfold wp, mbind, M_bind. by destruct (f s) as [[a|e] s']. Qed.

Abbreviation kv_inv := (sched_inv FreeQueue.rep).
Abbreviation kv_managers k := (single_type_managers (coordinator k)).

(** What no call changes *)
Definition kv_cfg (k : KVCacheManager) : Z * bool * bool * list Z :=
  (km_max_model_len k, km_enable_caching k, km_log_stats k, block_size <$> kv_managers k).

Lemma block_sizes_cfg (ms ms' : list Manager) : cfg_of <$> ms' = cfg_of <$> ms → block_size <$> ms' = block_size <$> ms.
Proof.
  intros E. assert (∀ l : list Manager, block_size <$> l = (λ x : KVCacheSpec * Z * Z * nat, scaled_block_size x.1.1.1 x.1.1.2 x.1.2) <$> (cfg_of <$> l)) as H.
  { intros l. rewrite <-list_fmap_compose. by apply list_fmap_ext. }
  by rewrite !H, E.
Qed.

Lemma kv_cfg_update k p ms : cfg_of <$> ms = cfg_of <$> kv_managers k → kv_cfg (set_coord (set_state (p, ms) (coordinator k)) k) = kv_cfg k.
Proof. intros E. unfold kv_cfg. cbn. by rewrite (block_sizes_cfg _ _ E). Qed.

Lemma request_ok_cfg k k' q : kv_cfg k' = kv_cfg k → request_ok k q → request_ok k' q.
Proof.
  intros [= E1 E2 _ E4] [Hn Hh]. split; [by rewrite E1|]. rewrite E2. intros Hc. destruct (Hh Hc) as (? & ? & Hm). split_and!; [done|done|].
  intros m Hm'. assert (block_size m ∈ block_size <$> kv_managers k') as Hin by (by apply list_elem_of_fmap_2). rewrite E4 in Hin.
  apply list_elem_of_fmap in Hin as (m0 & -> & Hm0). by apply Hm.
Qed.

(** A step of a running request *)
Lemma wp_kv_step k L q n look N T : kv_inv k L → request_ok k q → 0 < n → 0 ≤ look → L !! request_id q = Some (N, T) → 0 ≤ num_computed_tokens q ≤ T →
  wp (allocate_slots q n 0 None look false 0) k (λ r k', kv_cfg k' = kv_cfg k ∧
    kv_inv k' (if r then <[request_id q := (Z.max N (slots_needed k q n 0 look), Z.max T (tokens_to_cache q n 0))]> L else L)).
Proof.
  intros Hk Hq Hn Hl HL HT. apply wp_conj.
  - pose proof Hk as (l & Hkm & Hmo & HL'). pose proof (HL' (request_id q)) as Hlive. rewrite HL in Hlive.
    eapply wp_mono; [apply (wp_allocate_slots FreeQueue.rep k l q n 0 None look false 0 Hkm); by eapply step_alloc_pre|].
    intros r k' (l' & p & ms & -> & _ & _ & Hr). apply kv_cfg_update. destruct r as [kb|].
    + destruct Hr as (cols & _ & _ & Hs). by eapply steps_cfg.
    + destruct Hr as (_ & Hs & _). by eapply steps_cfg.
  - pose proof (wp_step_call FreeQueue.rep k L q n look Hk ltac:(split_and!; eauto)) as H. apply wp_bind_inv in H.
    eapply wp_mono; [exact H|]. intros r k' H'. apply wp_ok in H' as (b & k2 & [= <- <-] & H'). unfold lives_after in H'. rewrite HL in H'. by destruct r.
Qed.

(** The admission of a waiting request, in two halves *)
Lemma wp_kv_get k L q : kv_inv k L → request_ok k q →
  wp (get_computed_blocks q) k (λ hit k', kv_cfg k' = kv_cfg k ∧ kv_inv k' L ∧ 0 ≤ hit.2 ≤ num_tokens q - 1 ∧ admit_hit k' hit.1 hit.2).
Proof.
  intros (l & Hkm & Hmo & HL) Hq. pose proof (wp_admit_get FreeQueue.rep k l L q Hkm Hmo HL Hq) as H.
  apply (wp_mono _ _ (λ r k', (km_inv FreeQueue.rep k' l ∧ same_model k k' ∧ coordinator k' = coordinator k ∧ model_ok k' ∧ lives_ok k' L ∧
    request_ok k' q ∧ 0 ≤ r.2 ≤ num_tokens q - 1 ∧ admit_hit k' r.1 r.2) ∧ km_log_stats k' = km_log_stats k)).
  - apply wp_conj; [done|]. revert H. generalize (λ (r : KVCacheBlocks * Z) k', km_inv FreeQueue.rep k' l ∧ same_model k k' ∧ coordinator k' = coordinator k ∧ model_ok k' ∧ lives_ok k' L ∧
    request_ok k' q ∧ 0 ≤ r.2 ≤ num_tokens q - 1 ∧ admit_hit k' r.1 r.2). intros P. unfold wp, get_computed_blocks, mbind, M_bind, get, on_coord, zoom.
    destruct (negb (km_enable_caching k) || skip_reading_prefix_cache q); [done|].
    destruct (coord_find_longest_cache_hit _ _ _) as [[hit|e] co]; [|done]. destruct (km_log_stats k) eqn:El; [|done].
    by destruct (prefix_cache_stats k).
  - intros r k' ((Hkm' & (Em & Eca & Emx & _) & Ec & Hmo' & HL' & _ & ? & ?) & Elog). split_and!; [|by exists l|lia|lia|done].
    unfold kv_cfg. by rewrite Emx, Eca, Elog, Ec.
Qed.

Lemma wp_kv_admit k L q n look kb len : kv_inv k L → request_ok k q → L !! request_id q = None → num_computed_tokens q = 0 → 0 < n → 0 ≤ look →
  0 ≤ len ≤ num_tokens q - 1 → admit_hit k kb len →
  wp (allocate_slots q n len (Some kb) look false 0) k (λ r k', kv_cfg k' = kv_cfg k ∧
    kv_inv k' (if r then <[request_id q := (Z.max len (slots_needed k q n len look), Z.max len (tokens_to_cache q n len))]> L else L)).
Proof.
  intros (l & Hkm & Hmo & HL) Hq HN Hc Hn Hl Hlen Hkb. apply wp_conj.
  - pose proof (HL (request_id q)) as Ha. rewrite HN in Ha.
    eapply wp_mono; [apply (wp_allocate_slots FreeQueue.rep k l q n len (Some kb) look false 0 Hkm); by eapply admit_alloc_pre|].
    intros r k' (l' & p & ms & -> & _ & _ & Hr). apply kv_cfg_update. destruct r as [kb'|].
    + destruct Hr as (cols & _ & _ & Hs). by eapply steps_cfg.
    + destruct Hr as (_ & Hs & _). by eapply steps_cfg.
  - by apply (wp_admit_allocate FreeQueue.rep k l L q n look false kb len).
Qed.

Lemma wp_kv_free k L q : kv_inv k L → wp (km_free q) k (λ _ k', kv_cfg k' = kv_cfg k ∧ kv_inv k' (delete (request_id q) L)).
Proof.
  intros Hk. apply wp_conj.
  - destruct Hk as (l & Hkm & _). eapply wp_mono; [by apply (wp_km_free FreeQueue.rep k l)|]. intros _ k' (p & l' & -> & _).
    apply kv_cfg_update. rewrite <-list_fmap_compose. by apply list_fmap_ext.
  - pose proof (wp_free_call FreeQueue.rep k L q Hk) as H. apply wp_bind_inv in H. eapply wp_mono; [exact H|]. by intros [] k'.
Qed.

(** The calls that only read, or empty a buffer *)
Lemma wp_kv_common k L rid : kv_inv k L → wp (km_get_num_common_prefix_blocks rid) k (λ _ k', kv_cfg k' = kv_cfg k ∧ kv_inv k' L).
Proof.
  intros (l & Hk & Hmo & HL). pose proof Hk as [Hsh Hi]. unfold km_get_num_common_prefix_blocks, on_coord, Coord.get_num_common_prefix_blocks.
  apply wp_zoom, wp_bind, wp_gets.
  assert (wp (each_manager (λ _, SingleTypeManager.get_num_common_prefix_blocks rid)) (coordinator k)
    (λ _ c, kv_cfg (set_coord c k) = kv_cfg k ∧ kv_inv (set_coord c k) L)) as Heach.
  { apply (wp_each_coord FreeQueue.rep _ _ l (λ _, []) (λ _ p l', p = block_pool (coordinator k) ∧ l' = l) (λ _ _, True)
      (λ _ _ m m', only_req rid m m' ∧ len_of rid m' = len_of rid m ∧ num_cached_block m' = num_cached_block m)); [done|done|done| |].
    - intros i p l' F m Hm _ [-> ->] _. unfold SingleTypeManager.get_num_common_prefix_blocks. apply wp_bind, wp_gets. cbn.
      destruct (is_full (mspec m)).
      + apply wp_bind. eapply (wp_req_blocks FreeQueue.rep); [exact Hm|]. intros m' Hm' Ho Hb Hn. apply wp_bind, wp_gets, wp_ret. exists l. cbn.
        split_and!; [done|reflexivity|done|done|done| |done]. unfold len_of. by rewrite (blocks_of_Some _ _ _ Hb).
      + apply wp_ret. exists l. cbn. split_and!; [done|reflexivity|done|done| |done|done]. unfold only_req. done.
    - intros rs ms p l' n Hi' _ [-> ->] _ Hlen Hpost.
      assert (steps_of rid (kv_managers k) ms (λ _ m m', len_of rid m' = len_of rid m ∧ num_cached_block m' = num_cached_block m)) as Hs.
      { split; [done|]. intros i m Hm. destruct (Hpost i m Hm) as (_ & m' & _ & ? & ? & ?). eauto. }
      pose proof (steps_cfg _ _ _ _ Hs) as Ecfg. split; [by apply kv_cfg_update|]. exists l.
      split_and!; [split; [by apply shape_update|done]|by eapply model_ok_update|]. eapply lives_ok_same; [done|exact Hs|].
      specialize (HL rid). destruct (L !! rid) as [[N T]|]; [by eapply live_refused|by eapply absent_refused]. }
  destruct (kind (coordinator k)); [|done|done]. apply wp_ret. replace (set_coord (coordinator k) k) with k by (by destruct k). split; [done|]. by exists l.
Qed.

Lemma kv_inv_events k L e : kv_inv k L → kv_inv (set_coord (set_state (set_events e (block_pool (coordinator k)), kv_managers k) (coordinator k)) k) L.
Proof.
  intros (l & [Hsh Hi] & [M1 M2 M3] & HL). exists l. split_and!; [split|split|done].
  - by destruct Hsh; split.
  - destruct Hi as [H1 [H2 H3 H4]]. split; [intros m Hm; destruct (H1 m Hm); by split|]. split; [destruct H2; by split|done|intros x Hx; destruct (H4 x Hx); by split].
  - done.
  - done.
  - intros Hc. destruct (M3 Hc). by split.
Qed.

Lemma wp_kv_take_events k L : kv_inv k L → wp km_take_events k (λ _ k', kv_cfg k' = kv_cfg k ∧ kv_inv k' L).
Proof.
  intros Hk. unfold km_take_events, on_coord, on_block_pool. apply wp_zoom, wp_zoom. unfold BlockPool.take_events. apply wp_bind, wp_gets.
  destruct (enable_kv_cache_events _).
  - apply wp_bind, wp_modify, wp_ret. split; [done|]. by apply kv_inv_events.
  - apply wp_ret. by destruct k as [? ? ? ? [] ?].
Qed.

Lemma wp_kv_stats k L : kv_inv k L → wp make_prefix_cache_stats k (λ r k', kv_cfg k' = kv_cfg k ∧ kv_inv k' L ∧ (km_log_stats k = true → is_Some r)).
Proof.
  intros (l & [Hsh Hi] & [M1 M2 M3] & HL). unfold make_prefix_cache_stats. apply wp_bind, wp_gets.
  destruct (km_log_stats k) eqn:E; cbn.
  - apply wp_bind, wp_modify, wp_ret. pose proof (ks_stats _ Hsh) as Hst. split_and!; [done| |intros _; by apply Hst]. exists l. split_and!; [split|split|done]; [|done|done|done|].
    + destruct Hsh. by split.
    + intros Hc. destruct (M3 Hc). by split.
  - apply wp_ret. split_and!; [done|by exists l|done].
Qed.

(** ** The encoder cache under the scheduler *)

Section encoder.
Context (size : string → Z).

(** The inputs [ids] of [q] can be allocated, one after the other. *)
Definition enc_plan (q : Request) (ids : list nat) (e : EncoderCacheManager) : Prop :=
  (∀ i, i ∈ ids → is_Some (mm_features q !! i)) ∧ NoDup (hashes_at q ids) ∧ (∀ h, h ∈ hashes_at q ids → cached e !! h = None) ∧
  zsum (size <$> hashes_at q ids) ≤ num_free_slots e.

Lemma enc_plan_nil q e : enc_inv size e → enc_plan q [] e.
Proof. intros He. split_and!; [by intros i ?%not_elem_of_nil|constructor|by intros h ?%not_elem_of_nil|]. apply He. Qed.

Lemma wp_enc_plan disable q computed n budget e : enc_inv size e → sized size q → sorted_inputs q → 0 ≤ n →
  wp (_try_schedule_encoder_inputs disable false None q computed n budget) e (λ p e', enc_inv size e' ∧
    enc_plan q (p.1.1.1 ++ p.2) e' ∧ 0 ≤ p.1.1.2 ≤ n).
Proof.
  intros He Hsz Hso Hn. eapply wp_mono; [by apply (wp_try_schedule size (λ l, l) (λ l, reflexivity l) disable None q computed n budget [])|].
  intros p e' (v & -> & [He' Hv Hh Hnd Hnew Htok Hroom _ _ _] & Hle & _). cbn. unfold chosen in *. split; [done|]. split; [|done].
  split_and!; [done|done| |lia]. intros h Hin. apply Hnew. rewrite <-Hh. by apply elem_of_list_to_set.
Qed.

Lemma enc_plan_dropped rid q ids e e' : refs_dropped rid e e' → enc_plan q ids e → enc_plan q ids e'.
Proof.
  intros (_ & Ef & _ & Hd) (H1 & H2 & H3 & H4). split_and!; [done|done| |by rewrite Ef]. intros h Hh. specialize (Hd h). rewrite (H3 h Hh) in Hd.
  by destruct (cached e' !! h).
Qed.

Lemma wp_enc_allocate_all q ids e : enc_inv size e → sized size q → enc_plan q ids e → wp (for_each ids (allocate q)) e (λ _ e', enc_inv size e').
Proof. intros He Hsz (?&?&?&?). eapply wp_mono; [by apply (wp_allocate_all size q Hsz ids e)|]. by intros [] e' (? & _). Qed.
End encoder.

(** ** Loops *)


Lemma for_each_app {S A} (l l' : list A) (f : A → M S ()) s : for_each (l ++ l') f s = (for_each l f ;; for_each l' f) s.
Proof.
  revert s. induction l as [|x l IH]; intros s; [done|]. cbn. unfold mbind, M_bind in *. destruct (f x s) as [[[]|e] s']; [|done]. apply IH.
Qed.

Lemma for_each_ext {S A} (l : list A) (f g : A → M S ()) s : (∀ x s, f x s = g x s) → for_each l f s = for_each l g s.
Proof. intros H. revert s. induction l as [|x l IH]; intros s; [done|]. cbn. unfold mbind, M_bind. rewrite H. by destruct (g x s) as [[[]|e] s']. Qed.

(** A loop on a part of the state *)
Lemma for_each_zoom {S U A} (rd : U → S) (wr : S → U → U) (f : A → M S ()) l u :
  (∀ s u, rd (wr s u) = s) → (∀ s s' u, wr s (wr s' u) = wr s u) → wr (rd u) u = u →
  for_each l (λ x, zoom rd wr (f x)) u = zoom rd wr (for_each l f) u.
Proof.
  intros H1 H2 H3. unfold zoom. revert u H3. induction l as [|x l IH]; intros u H3; cbn; unfold mret, M_ret, mbind, M_bind; [by rewrite H3|].
  destruct (f x (rd u)) as [[[]|e] s]; [|done]. rewrite IH by (by rewrite H1, H2). rewrite H1. destruct (for_each l f s) as [r s']. by rewrite H2.
Qed.

(** ** The invariant *)

(** What no step changes of a request *)
Definition frame (q : Request) := (request_id q, priority q, arrival_time q, mm_features q).
Definition same_frame (o o' : gmap nat Request) : Prop := ∀ r, frame <$> o' !! r = frame <$> o !! r.

Lemma same_frame_refl o : same_frame o o.
Proof. done. Qed.
Lemma same_frame_trans o o' o'' : same_frame o o' → same_frame o' o'' → same_frame o o''.
Proof. intros H H' r. by rewrite H', H. Qed.
Lemma same_frame_insert o r q q' : o !! r = Some q → frame q' = frame q → same_frame o (<[r := q']> o).
Proof.
  intros Hq Hf r'. destruct (decide (r' = r)) as [->|Hne]; [|by rewrite lookup_insert_ne]. rewrite lookup_insert_eq, Hq. cbn. by rewrite Hf.
Qed.
Lemma same_frame_attrs o o' : same_frame o o' → attributes o' = attributes o.
Proof.
  intros H. apply map_eq. intros r. unfold attributes. rewrite !lookup_fmap. specialize (H r).
  destruct (o !! r), (o' !! r); cbn in *; [injection H as ? -> -> ?|..]; done.
Qed.
Lemma same_frame_id o o' r : same_frame o o' → request_id <$> o' !! r = request_id <$> o !! r.
Proof. intros H. specialize (H r). destruct (o !! r), (o' !! r); cbn in *; [injection H as -> ? ? ?|..]; done. Qed.
Lemma same_frame_lookup o o' r q' : same_frame o o' → o' !! r = Some q' → ∃ q, o !! r = Some q ∧ frame q' = frame q.
Proof. intros H Hq. specialize (H r). rewrite Hq in H. destruct (o !! r) as [q|]; [|done]. injection H. intros. exists q. split; [done|]. unfold frame. congruence. Qed.
Lemma frame_id q q' : frame q' = frame q → request_id q' = request_id q.
Proof. by intros [=]. Qed.

(** The tokens a request has been given in this step *)
Definition tokens_of (tok : list (string * Z)) (q : Request) : Z := default 0 (OD.get (request_id q) tok).

Abbreviation lives := (gmap string (Z * Z)).

(** A waiting request has no blocks and no computed tokens. *)
Definition wait_ok (L : lives) (q : Request) : Prop :=
  (status q = WAITING ∨ status q = WAITING_FOR_FSM ∨ status q = PREEMPTED) ∧ num_computed_tokens q = 0 ∧ L !! request_id q = None.

(** A running request has slots for its computed tokens, those of this step included. *)
Definition run_ok (L : lives) (tok : list (string * Z)) (q : Request) : Prop :=
  status q = RUNNING ∧ ∃ N T, L !! request_id q = Some (N, T) ∧ 0 ≤ num_computed_tokens q ∧ 0 ≤ tokens_of tok q ∧
    num_computed_tokens q + tokens_of tok q ≤ T ∧ num_computed_tokens q + tokens_of tok q ≤ num_tokens q.

Section core.
Context (compat : attrs → list nat → Prop) (compat_sub : ∀ a l l', (∀ r, r ∈ l' → r ∈ l) → compat a l → compat a l').
Context (max_len : Z) (good : Request → Prop) (good_content : ∀ q q', same_content q q' → good q → good q') (size : string → Z) (K0 : Z * bool * bool * list Z).

(** A request the scheduler can finish: it has room for one more token, and may stop
    when it must. *)
Record req_ok (q : Request) : Prop := {
  ro_good : good q;
  ro_tokens : num_tokens q = Z.of_nat (num_prompt_tokens q) + num_output_tokens q;
  ro_prompt : (1 ≤ num_prompt_tokens q)%nat;
  ro_len : num_tokens q < max_len;
  ro_max : num_output_tokens q < max_tokens q;
  ro_params : pooling_params q = None ∧ ∃ sp, sampling_params q = Some sp ∧
    Z.of_nat (num_prompt_tokens q) + sp_min_tokens sp ≤ max_len ∧ sp_min_tokens sp ≤ max_tokens q;
  ro_spec : spec_token_ids q = [] ∧ num_output_placeholders q = 0;
  ro_inputs : sized size q ∧ sorted_inputs q;
}.

(** Assignments to other attributes *)
Definition same_request (q q' : Request) : Prop := same_content q q' ∧ output_token_ids q' = output_token_ids q ∧
  num_prompt_tokens q' = num_prompt_tokens q ∧ max_tokens q' = max_tokens q ∧ pooling_params q' = pooling_params q ∧
  sampling_params q' = sampling_params q ∧ spec_token_ids q' = spec_token_ids q ∧ num_output_placeholders q' = num_output_placeholders q.

Lemma req_ok_same q q' : same_request q q' → req_ok q → req_ok q'.
Proof.
  intros (Hs & E1 & E2 & E3 & E4 & E5 & E6 & E7) [H1 H2 H3 H4 H5 H6 H7 [H8 H9]]. pose proof Hs as (F1 & F2 & F3 & F4 & F5 & F6).
  split; unfold num_tokens, num_output_tokens, sized, sorted_inputs in *; rewrite ?F1, ?F3, ?E1, ?E2, ?E3, ?E4, ?E5, ?E6, ?E7; try done. by eapply good_content.
Qed.

Record core (o : gmap nat Request) (nx : nat) (rs : gmap string nat) (k : KVCacheManager) (e : EncoderCacheManager)
    (wl run : list nat) (L : lives) (tok : list (string * Z)) : Prop := {
  co_compat : compat (attributes o) (wl ++ run);
  co_nodup : NoDup (wl ++ run);
  co_fresh r : (nx ≤ r)%nat → o !! r = None;
  co_ids rid r : rs !! rid = Some r ↔ r ∈ wl ++ run ∧ request_id <$> o !! r = Some rid;
  co_req r : r ∈ wl ++ run → ∃ q, o !! r = Some q ∧ req_ok q;
  co_wait r q : r ∈ wl → o !! r = Some q → wait_ok L q;
  co_run r q : r ∈ run → o !! r = Some q → run_ok L tok q;
  co_lives rid : is_Some (L !! rid) → ∃ r, r ∈ run ∧ request_id <$> o !! r = Some rid;
  co_kv : kv_inv k L;
  co_cfg : kv_cfg k = K0;
  co_enc : enc_inv size e;
}.

Implicit Types (o : gmap nat Request) (rs : gmap string nat) (wl run : list nat) (L : lives) (tok : list (string * Z)).

Lemma core_kv o nx rs k k' e wl run L tok : core o nx rs k e wl run L tok → kv_cfg k' = kv_cfg k → kv_inv k' L → core o nx rs k' e wl run L tok.
Proof. intros [] ? ?. split; try done. congruence. Qed.
Lemma core_enc o nx rs k e e' wl run L tok : core o nx rs k e wl run L tok → enc_inv size e' → core o nx rs k e' wl run L tok.
Proof. intros [] ?. by split. Qed.

(** The lists matter up to their order. *)
Lemma core_perm o nx rs k e wl wl' run run' L tok : wl ≡ₚ wl' → run ≡ₚ run' → core o nx rs k e wl run L tok → core o nx rs k e wl' run' L tok.
Proof.
  intros Hw Hr [H1 H2 H3 H4 H5 H6 H7 H8 H9 H10 H11]. split; try done.
  - eapply compat_sub; [|exact H1]. intros r. by rewrite Hw, Hr.
  - by rewrite <-Hw, <-Hr.
  - intros rid r. rewrite H4. by rewrite Hw, Hr.
  - intros r. rewrite <-Hw, <-Hr. apply H5.
  - intros r q. rewrite <-Hw. apply H6.
  - intros r q. rewrite <-Hr. apply H7.
  - intros rid (r & ? & ?)%H8. exists r. by rewrite <-Hr.
Qed.

(** The tokens of other requests *)
Lemma run_ok_tokens L tok tok' q : (tokens_of tok' q = tokens_of tok q) → run_ok L tok q → run_ok L tok' q.
Proof. unfold run_ok. by intros ->. Qed.

(** Different requests have different ids. *)
Lemma core_unique o nx rs k e wl run L tok r r' q q' : core o nx rs k e wl run L tok → r ∈ wl ++ run → r' ∈ wl ++ run →
  o !! r = Some q → o !! r' = Some q' → request_id q = request_id q' → r = r'.
Proof.
  intros Hc Hr Hr' Hq Hq' E. assert (rs !! request_id q = Some r) as H1 by (apply (co_ids _ _ _ _ _ _ _ _ _ Hc); by rewrite Hq).
  assert (rs !! request_id q = Some r') as H2 by (apply (co_ids _ _ _ _ _ _ _ _ _ Hc); by rewrite Hq', E). congruence.
Qed.

(** An assignment to one request *)
Lemma core_upd o nx rs k e wl run L tok r q q' : core o nx rs k e wl run L tok → o !! r = Some q → frame q' = frame q →
  (r ∈ wl ++ run → req_ok q → req_ok q') → (r ∈ wl → wait_ok L q → wait_ok L q') → (r ∈ run → run_ok L tok q → run_ok L tok q') →
  core (<[r := q']> o) nx rs k e wl run L tok.
Proof.
  intros [H1 H2 H3 H4 H5 H6 H7 H8 H9 H10 H11] Hq Hf Hok Hw Hr. pose proof (same_frame_insert o r q q' Hq Hf) as Hs. split; try done.
  - by rewrite (same_frame_attrs _ _ Hs).
  - intros r' Hr'. destruct (decide (r' = r)) as [->|Hne]; [rewrite (H3 r Hr') in Hq; done|]. rewrite lookup_insert_ne by done. auto.
  - intros rid r'. rewrite H4, (same_frame_id _ _ _ Hs). done.
  - intros r' Hr'. destruct (H5 r' Hr') as (q0 & Hq0 & Hok'). destruct (decide (r' = r)) as [->|Hne].
    + rewrite lookup_insert_eq. simplify_eq. eauto.
    + rewrite lookup_insert_ne by done. eauto.
  - intros r' q0 Hr' [[-> <-]|[? ?]]%lookup_insert_Some; eauto.
  - intros r' q0 Hr' [[-> <-]|[? ?]]%lookup_insert_Some; eauto.
  - intros rid (r' & ? & ?)%H8. exists r'. by rewrite (same_frame_id _ _ _ Hs).
Qed.

(** The requests with another id *)
Lemma core_other o nx rs k e wl run L tok r q r' q' : core o nx rs k e wl run L tok → r ∈ wl ++ run → o !! r = Some q →
  r' ∈ wl ++ run → o !! r' = Some q' → r' ≠ r → request_id q' ≠ request_id q.
Proof. intros Hc Hr Hq Hr' Hq' Hne E. apply Hne. by eapply core_unique. Qed.

(** A running request is preempted. *)
Lemma core_preempt o nx rs k k' e wl run run' L tok tok' r q q' : core o nx rs k e wl run L tok → run ≡ₚ r :: run' → o !! r = Some q →
  frame q' = frame q → (req_ok q → req_ok q') → status q' = PREEMPTED → num_computed_tokens q' = 0 → kv_cfg k' = kv_cfg k →
  kv_inv k' (delete (request_id q) L) → (∀ x, request_id x ≠ request_id q → tokens_of tok' x = tokens_of tok x) →
  core (<[r := q']> o) nx rs k' e (r :: wl) run' (delete (request_id q) L) tok'.
Proof.
  intros Hc Hp Hq Hf Hok Hst Hcomp Hcfg Hkv Htok. apply (core_perm o nx rs k e wl wl run (r :: run')) in Hc; [|done|done].
  pose proof Hc as [H1 H2 H3 H4 H5 H6 H7 H8 H9 H10 H11]. pose proof (same_frame_insert o r q q' Hq Hf) as Hs.
  assert (r ∈ wl ++ r :: run') as Hr by (apply elem_of_app; right; left).
  assert ((r :: wl) ++ run' ≡ₚ wl ++ r :: run') as Hpm by (by rewrite <-Permutation_middle).
  assert (∀ x, x ∈ wl ∨ x ∈ run' → x ≠ r) as Hne.
  { rewrite <-Hpm in H2. apply NoDup_cons in H2 as [H2 _]. intros x Hx ->. apply H2, elem_of_app. tauto. }
  pose proof (λ x y, core_other _ _ _ _ _ _ _ _ _ r q x y Hc Hr Hq) as Hoth. split.
  - rewrite (same_frame_attrs _ _ Hs). eapply compat_sub; [|exact H1]. intros x. by rewrite Hpm.
  - by rewrite Hpm.
  - intros x Hx. rewrite lookup_insert_ne; [auto|]. intros <-. rewrite (H3 r Hx) in Hq. done.
  - intros rid x. rewrite H4, (same_frame_id _ _ _ Hs), Hpm. done.
  - intros x Hx. rewrite Hpm in Hx. destruct (H5 x Hx) as (y & Hy & ?). destruct (decide (x = r)) as [->|]; [|rewrite lookup_insert_ne by done; eauto].
    rewrite lookup_insert_eq. simplify_eq. eauto.
  - intros x y [->|Hx]%elem_of_cons.
    + rewrite lookup_insert_eq. intros [= <-]. split_and!; [auto|done|]. rewrite (frame_id _ _ Hf). apply lookup_delete_eq.
    + rewrite lookup_insert_ne by (apply not_eq_sym; auto). intros Hy. destruct (H6 x y Hx Hy) as (? & ? & E). split_and!; [done|done|].
      apply lookup_delete_None. auto.
  - intros x y Hx. assert (x ≠ r) as Hxr by auto. rewrite lookup_insert_ne by done. intros Hy.
    assert (x ∈ wl ++ r :: run') as Hx' by (apply elem_of_app; right; by right). specialize (Hoth x y Hx' Hy Hxr).
    apply (run_ok_tokens _ tok); [auto|]. destruct (H7 x y) as (? & N & T & E & ?); [by right|done|]. split; [done|]. exists N, T. rewrite lookup_delete_ne by done. done.
  - intros rid [x [Hn Hx]%lookup_delete_Some]. destruct (H8 rid) as (z & [->|Hz]%elem_of_cons & Hid); [by eexists| |].
    + rewrite Hq in Hid. cbn in Hid. congruence.
    + exists z. by rewrite (same_frame_id _ _ _ Hs).
  - done.
  - congruence.
  - done.
Qed.

(** Slots are granted to a running request. *)
Lemma core_grant o nx rs k k' e wl run L tok r q N T N' T' : core o nx rs k e wl run L tok → r ∈ run → o !! r = Some q →
  L !! request_id q = Some (N, T) → T ≤ T' → kv_cfg k' = kv_cfg k → kv_inv k' (<[request_id q := (N', T')]> L) →
  core o nx rs k' e wl run (<[request_id q := (N', T')]> L) tok.
Proof.
  intros Hc Hr Hq HL HT Hcfg Hkv. pose proof Hc as [H1 H2 H3 H4 H5 H6 H7 H8 H9 H10 H11]. split; try done.
  - intros r' q' Hr' Hq'. destruct (H6 r' q' Hr' Hq') as (? & ? & E). split_and!; [done|done|]. rewrite lookup_insert_ne; [done|]. congruence.
  - intros r' q' Hr' Hq'. destruct (H7 r' q' Hr' Hq') as (? & N0 & T0 & E & ? & ? & ? & ?). split; [done|]. destruct (decide (request_id q' = request_id q)) as [E'|Hne].
    + exists N', T'. rewrite E', lookup_insert_eq. rewrite E' in E. simplify_eq. split_and!; [done|lia..].
    + exists N0, T0. rewrite lookup_insert_ne by done. done.
  - intros rid. destruct (decide (rid = request_id q)) as [->|Hne]; [|rewrite lookup_insert_ne by done; apply H8]. intros _. exists r. by rewrite Hq.
  - congruence.
Qed.

Lemma core_tokens o nx rs k e wl run L tok tok' : core o nx rs k e wl run L tok →
  (∀ r q, r ∈ run → o !! r = Some q → run_ok L tok q → run_ok L tok' q) → core o nx rs k e wl run L tok'.
Proof. intros [] H. split; try done. eauto. Qed.

(** A waiting request becomes a running one. *)
Lemma core_admit o nx rs k k' e wl wl' run L tok tok' r q q' x : core o nx rs k e wl run L tok → wl ≡ₚ r :: wl' → o !! r = Some q →
  frame q' = frame q → (req_ok q → req_ok q') → kv_cfg k' = kv_cfg k → kv_inv k' (<[request_id q := x]> L) →
  run_ok (<[request_id q := x]> L) tok' q' → (∀ y, request_id y ≠ request_id q → tokens_of tok' y = tokens_of tok y) →
  core (<[r := q']> o) nx rs k' e wl' (run ++ [r]) (<[request_id q := x]> L) tok'.
Proof.
  intros Hc Hp Hq Hf Hok Hcfg Hkv Hrun Htok. apply (core_perm o nx rs k e wl (r :: wl') run run) in Hc; [|done|done].
  pose proof Hc as [H1 H2 H3 H4 H5 H6 H7 H8 H9 H10 H11]. pose proof (same_frame_insert o r q q' Hq Hf) as Hs.
  assert (r ∈ (r :: wl') ++ run) as Hr by left. assert (wl' ++ run ++ [r] ≡ₚ (r :: wl') ++ run) as Hpm by (rewrite app_assoc; cbn; by rewrite Permutation_app_comm).
  assert (∀ z, z ∈ wl' ∨ z ∈ run → z ≠ r) as Hne by (apply NoDup_cons in H2 as [H2 _]; intros z Hz ->; apply H2, elem_of_app; tauto).
  pose proof (λ z y, core_other _ _ _ _ _ _ _ _ _ r q z y Hc Hr Hq) as Hoth. split.
  - rewrite (same_frame_attrs _ _ Hs). eapply compat_sub; [|exact H1]. intros z. by rewrite Hpm.
  - by rewrite Hpm.
  - intros z Hz. rewrite lookup_insert_ne; [auto|]. intros <-. rewrite (H3 r Hz) in Hq. done.
  - intros rid z. rewrite H4, (same_frame_id _ _ _ Hs), Hpm. done.
  - intros z Hz. rewrite Hpm in Hz. destruct (H5 z Hz) as (y & Hy & ?). destruct (decide (z = r)) as [->|]; [|rewrite lookup_insert_ne by done; eauto].
    rewrite lookup_insert_eq. simplify_eq. eauto.
  - intros z y Hz. assert (z ≠ r) by auto. rewrite lookup_insert_ne by done. intros Hy. destruct (H6 z y) as (? & ? & E); [by right|done|]. split_and!; [done|done|].
    rewrite lookup_insert_ne; [done|]. apply not_eq_sym, (Hoth z y); [apply elem_of_app; left; by right|done|done].
  - intros z y [Hz| ->%list_elem_of_singleton]%elem_of_app.
    + assert (z ≠ r) by auto. rewrite lookup_insert_ne by done. intros Hy. assert (request_id y ≠ request_id q) by (apply (Hoth z y); [apply elem_of_app; by right|done|done]).
      apply (run_ok_tokens _ tok); [auto|]. destruct (H7 z y Hz Hy) as (? & N & T & E & ?). split; [done|]. exists N, T. rewrite lookup_insert_ne by done. done.
    + rewrite lookup_insert_eq. by intros [= <-].
  - intros rid. destruct (decide (rid = request_id q)) as [->|Hnr].
    + intros _. exists r. split; [apply elem_of_app; right; left|]. by rewrite (same_frame_id _ _ _ Hs), Hq.
    + rewrite lookup_insert_ne by done. intros (z & Hz & Hid)%H8. exists z. rewrite (same_frame_id _ _ _ Hs). split; [apply elem_of_app; by left|done].
  - done.
  - congruence.
  - done.
Qed.

(** A request leaves. *)
Lemma core_remove o nx rs k k' e wl wl' run run' L tok r q q' : core o nx rs k e wl run L tok → wl ++ run ≡ₚ r :: wl' ++ run' →
  (∀ x, x ∈ wl' → x ∈ wl) → (∀ x, x ∈ run' → x ∈ run) → o !! r = Some q → frame q' = frame q → kv_cfg k' = kv_cfg k →
  kv_inv k' (delete (request_id q) L) →
  core (<[r := q']> o) nx (delete (request_id q) rs) k' e wl' run' (delete (request_id q) L) tok.
Proof.
  intros Hc Hp Hw Hr' Hq Hf Hcfg Hkv. pose proof Hc as [H1 H2 H3 H4 H5 H6 H7 H8 H9 H10 H11]. pose proof (same_frame_insert o r q q' Hq Hf) as Hs.
  assert (∀ x, x ∈ wl' ++ run' → x ∈ wl ++ run ∧ x ≠ r) as Hin.
  { intros x Hx. rewrite Hp in H2. apply NoDup_cons in H2 as [H2 _]. split; [rewrite Hp; by right|]. intros ->. done. }
  assert (r ∈ wl ++ run) as Hr by (rewrite Hp; left). pose proof (λ z y, core_other _ _ _ _ _ _ _ _ _ r q z y Hc Hr Hq) as Hoth. split.
  - rewrite (same_frame_attrs _ _ Hs). eapply compat_sub; [|exact H1]. intros x Hx. by apply Hin.
  - rewrite Hp in H2. by apply NoDup_cons in H2 as [_ H2].
  - intros z Hz. rewrite lookup_insert_ne; [auto|]. intros <-. rewrite (H3 r Hz) in Hq. done.
  - intros rid z. rewrite lookup_delete_Some, H4, (same_frame_id _ _ _ Hs). split.
    + intros (Hn & Hz & Hid). split; [|done]. rewrite Hp in Hz. apply elem_of_cons in Hz as [->|Hz]; [|done]. rewrite Hq in Hid. cbn in Hid. congruence.
    + intros [[Hz Hne]%Hin Hid]. split_and!; [|done|done]. intros <-. destruct (H5 z Hz) as (y & Hy & _). rewrite Hy in Hid. injection Hid as Hid.
      by apply (Hoth z y).
  - intros z [Hz Hne]%Hin. rewrite lookup_insert_ne by done. auto.
  - intros z y Hz. destruct (Hin z) as [Hz' Hne]; [apply elem_of_app; by left|]. rewrite lookup_insert_ne by done. intros Hy.
    destruct (H6 z y) as (? & ? & E); [auto|done|]. split_and!; [done|done|]. apply lookup_delete_None. auto.
  - intros z y Hz. destruct (Hin z) as [Hz' Hne]; [apply elem_of_app; by right|]. rewrite lookup_insert_ne by done. intros Hy.
    destruct (H7 z y) as (? & N & T & E & ?); [auto|done|]. split; [done|]. exists N, T. rewrite lookup_delete_ne by (apply not_eq_sym, (Hoth z y); done). done.
  - intros rid [x [Hn Hx]%lookup_delete_Some]. destruct (H8 rid) as (z & Hz & Hid); [by eexists|].
    exists z. rewrite (same_frame_id _ _ _ Hs). split; [|done]. assert (z ∈ wl ++ run) as Hz' by (apply elem_of_app; by right).
    rewrite Hp in Hz'. apply elem_of_cons in Hz' as [->|Hz']; [rewrite Hq in Hid; cbn in Hid; congruence|]. apply elem_of_app in Hz' as [Hz'|?]; [|done].
    apply NoDup_app in H2 as (_ & H2 & _). by destruct (H2 z (Hw z Hz')).
  - done.
  - congruence.
  - done.
Qed.

(** A request enters. *)
Lemma core_add o nx rs k e wl run L tok q : core o nx rs k e wl run L tok → rs !! request_id q = None → req_ok q →
  (status q = WAITING ∨ status q = WAITING_FOR_FSM) → num_computed_tokens q = 0 → compat (attributes (<[nx := q]> o)) (nx :: wl ++ run) →
  core (<[nx := q]> o) (S nx) (<[request_id q := nx]> rs) k e (nx :: wl) run L tok.
Proof.
  intros [H1 H2 H3 H4 H5 H6 H7 H8 H9 H10 H11] Hid Hok Hst Hcomp Hcompat. assert (o !! nx = None) as Hnx by auto.
  assert (∀ r, r ∈ wl ++ run → r ≠ nx) as Hne by (intros r (y & Hy & _)%H5 ->; congruence).
  assert (L !! request_id q = None) as HL.
  { apply eq_None_not_Some. intros (r & Hr & E)%H8. assert (rs !! request_id q = Some r); [|congruence]. apply H4. split; [apply elem_of_app; by right|done]. }
  split; try done.
  - apply NoDup_cons. split; [|done]. intros Hin. by apply (Hne nx).
  - intros r Hr. rewrite lookup_insert_ne by lia. apply H3. lia.
  - intros rid r. destruct (decide (rid = request_id q)) as [->|Hn].
    + rewrite lookup_insert_eq. split.
      * intros [= <-]. split; [left|]. by rewrite lookup_insert_eq.
      * intros [[->|Hr]%elem_of_cons E]; [done|]. rewrite lookup_insert_ne in E by (apply not_eq_sym; auto).
        assert (rs !! request_id q = Some r); [|congruence]. by apply H4.
    + rewrite lookup_insert_ne, H4 by done. cbn [app]. rewrite elem_of_cons. split.
      * intros [Hr E]. rewrite lookup_insert_ne by (apply not_eq_sym; auto). auto.
      * intros [[->|Hr] E]; [rewrite lookup_insert_eq in E; cbn in E; congruence|]. rewrite lookup_insert_ne in E by (apply not_eq_sym; auto). done.
  - intros r [->|Hr]%elem_of_cons; [rewrite lookup_insert_eq; eauto|]. rewrite lookup_insert_ne by (apply not_eq_sym; auto). auto.
  - intros r y [->|Hr]%elem_of_cons.
    + rewrite lookup_insert_eq. intros [= <-]. split_and!; [tauto|done|done].
    + rewrite lookup_insert_ne; [eauto|]. apply not_eq_sym, Hne, elem_of_app. by left.
  - intros r y Hr. rewrite lookup_insert_ne; [eauto|]. apply not_eq_sym, Hne, elem_of_app. by right.
  - intros rid (r & Hr & E)%H8. exists r. split; [done|]. rewrite lookup_insert_ne; [done|]. apply not_eq_sym, Hne, elem_of_app. by right.
Qed.

(** The tokens of a step become computed tokens. *)
Lemma core_tick o nx rs k e wl run L tok r q n : core o nx rs k e wl run L ((request_id q, n) :: tok) → NoDup ((request_id q, n) :: tok).*1 → r ∈ run → o !! r = Some q →
  core (<[r := set_num_computed (num_computed_tokens q + n) q]> o) nx rs k e wl run L tok.
Proof.
  intros Hc Hnd Hr Hq. pose proof Hc as [H1 H2 H3 H4 H5 H6 H7 H8 H9 H10 H11]. set (q' := set_num_computed _ q).
  csimpl in Hnd. apply NoDup_cons in Hnd as [Hnew%OD.get_None _]. pose proof (same_frame_insert o r q q' Hq eq_refl) as Hs. split; try done.
  - by rewrite (same_frame_attrs _ _ Hs).
  - intros z Hz. rewrite lookup_insert_ne; [auto|]. intros <-. rewrite (H3 r Hz) in Hq. done.
  - intros rid z. by rewrite H4, (same_frame_id _ _ _ Hs).
  - intros z Hz. destruct (H5 z Hz) as (y & Hy & Hok). destruct (decide (z = r)) as [->|]; [|rewrite lookup_insert_ne by done; eauto].
    rewrite lookup_insert_eq. simplify_eq. eexists. split; [done|]. eapply req_ok_same; [|exact Hok]. done.
  - intros z y Hz. rewrite lookup_insert_ne; [eauto|]. intros <-. apply NoDup_app in H2 as (_ & H2 & _). by apply (H2 r).
  - intros z y Hz [[-> <-]|[Hne Hy]]%lookup_insert_Some.
    + destruct (H7 z q Hz Hq) as (? & N & T & E & ? & Ht & HT & Hn). split; [done|]. exists N, T. unfold tokens_of in *. cbn in Ht, HT, Hn |- *.
      rewrite decide_True in Ht, HT, Hn by done. cbn in *. rewrite Hnew. cbn. change (num_tokens q') with (num_tokens q). split_and!; [done|lia..].
    + eapply run_ok_tokens; [|by apply (H7 z y)]. unfold tokens_of. cbn. rewrite decide_False; [done|]. intros E. apply Hne. symmetry.
      eapply (core_unique o nx rs k e wl run L _ z r y q Hc); [apply elem_of_app; by right|apply elem_of_app; by right|done|done|done].
  - intros rid (z & ? & ?)%H8. exists z. by rewrite (same_frame_id _ _ _ Hs).
Qed.
End core.
