(* ===== verification/SchedulerSafe.v ===== *)
(** * The scheduler keeps its invariant

    Without remote caches, LoRA limits, speculative tokens and pooling models: every call
    of the scheduler succeeds and keeps the invariant of SchedulerInv.v. *)

From stdpp Require Import base tactics option list gmap strings.
From Stdlib Require Import ZArith Lia QArith.
From S2P Require Import Prelude KVCacheUtils Request BlockHash BlockPool Ledger KVCacheInterface SingleTypeManager Coordinator KVCacheManager EncoderCache RequestQueue Scheduler SchedulerInv.
Local Open Scope Z_scope.

(** The fields of updated local variables *)
Ltac locals_cbn := cbn [l_new l_resumed l_running l_preempted l_blocks l_tokens l_budget l_enc_inputs l_enc_budget l_spec l_index l_loras] in *.

(** The fields of an updated state *)
Ltac sched_cbn := cbn [objs next_ref requests waiting running finished_req_ids finished_req_ids_dict finished_recving_kv_req_ids failed_recving_kv_req_ids
  prev_step_scheduled_req_ids kv_cache_manager encoder_cache_manager connector_prefix_cache_stats world Sched.set_objs Sched.set_requests Sched.set_waiting
  Sched.set_running Sched.set_finished Sched.set_recving Sched.set_prev_step Sched.set_kv Sched.set_enc Sched.set_connector_stats Sched.set_world].

Section scheduler.
Context {Q W T : Type}.
Context (queue : attrs → RequestQueue nat Q) (new_queue : Q) (rep : attrs → Q → list nat → Prop) (compat : attrs → list nat → Prop).
Context `{!QueueLaws queue new_queue rep compat}.
Context (c : Config) (structured : StructuredOutputManager W T) `{!StructuredLaws structured}.
Context (publish : list KVCacheEvent → M W ()) (publish_ok : ∀ l w, wp (publish l) w (λ _ _, True)).
Context (caching : bool) (block_sizes : list Z) (block_hasher : option (Request → result (list bytes))) (good : Request → Prop).
Context `{!HasherLaws caching block_sizes block_hasher good}.
Context (set_iter : list nat → list nat) (set_iter_perm : ∀ l, set_iter l ≡ₚ l).
Context (set_order : list string → list string) (set_order_perm : ∀ l, set_order l ≡ₚ remove_dups l).
Context (slice : T → nat → nat → T) (wants_logprobs : SamplingParams → bool) (truthy : T → bool).
Context (size : string → Z).

(** What this development covers of the configuration *)
Record config_plain : Prop := {
  cp_encdec : is_encoder_decoder c = false;
  cp_async : async_scheduling c = false;
  cp_loras : max_loras c = None;
  cp_lookahead : 0 ≤ num_lookahead_tokens c;
  cp_tokens : 0 ≤ max_num_scheduled_tokens c;
  cp_running : 0 ≤ max_num_running_reqs c;
}.
Context (Hplain : config_plain).

Abbreviation scheduler := (Scheduler Q W).
Abbreviation cfg := (sched_max_model_len c, caching, sched_log_stats c, block_sizes).
Abbreviation qok := (req_ok (sched_max_model_len c) good size).
Abbreviation inv o nx rs k e := (core compat (sched_max_model_len c) good size cfg o nx rs k e).
Abbreviation core_at s := (inv (objs s) (next_ref s) (requests s) (kv_cache_manager s) (encoder_cache_manager s)).
Implicit Types (s : scheduler) (v : locals) (wl run : list nat) (L : lives) (prev : gset string).

(** ** Accesses *)

Lemma wp_obj s r q Ψ : objs s !! r = Some q → Ψ q s → wp (Sched.obj r) s Ψ.
Proof. intros Hq HΨ. apply wp_bind, wp_gets. by rewrite Hq. Qed.
Lemma wp_upd s r f q Ψ : objs s !! r = Some q → Ψ () (Sched.set_objs (<[r := f q]> (objs s)) s) → wp (Sched.upd r f) s Ψ.
Proof.
  intros Hq HΨ. apply wp_modify. replace (alter f r (objs s)) with (<[r := f q]> (objs s)); [done|]. apply map_eq. intros r'.
  destruct (decide (r' = r)) as [->|Hne]; [by rewrite lookup_insert_eq, lookup_alter_eq, Hq|by rewrite lookup_insert_ne, lookup_alter_ne].
Qed.
Lemma wp_on_kv {A} (f : M KVCacheManager A) s Ψ : wp f (kv_cache_manager s) (λ a k, Ψ a (Sched.set_kv k s)) → wp (Sched.on_kv f) s Ψ.
Proof. apply wp_zoom. Qed.
Lemma wp_on_enc {A} (f : M EncoderCacheManager A) s Ψ : wp f (encoder_cache_manager s) (λ a e, Ψ a (Sched.set_enc e s)) → wp (Sched.on_enc f) s Ψ.
Proof. apply wp_zoom. Qed.
Lemma wp_on_world {A} (f : M W A) s Ψ : wp f (world s) (λ a w, Ψ a (Sched.set_world w s)) → wp (Sched.on_world f) s Ψ.
Proof. apply wp_zoom. Qed.
Lemma wp_on_waiting {A} (f : RequestQueue nat Q → M Q A) s Ψ :
  wp (f (queue (attributes (objs s)))) (waiting s) (λ a q, Ψ a (Sched.set_waiting q s)) → wp (Sched.on_waiting queue f) s Ψ.
Proof. apply wp_zoom. Qed.
Lemma wp_on_local {A} (f : RequestQueue nat Q → M Q A) q s Ψ :
  wp (f (queue (attributes (objs s)))) q (λ a q', Ψ (a, q') s) → wp (Sched.on_local queue f q) s Ψ.
Proof. unfold wp, Sched.on_local. by destruct (f _ q) as [[a|e] q']. Qed.

(** What a request with the invariant promises to the KV cache *)
Lemma qok_request k q : kv_cfg k = cfg → qok q → request_ok k q.
Proof.
  intros [= E1 E2 _ E4] [H1 H2 H3 H4 H5 H6 H7 H8]. split; [rewrite E1; unfold num_output_tokens in *; lia|]. rewrite E2. intros Hc.
  destruct (hl_ready q Hc H1) as [Hn Hb]. split_and!; [unfold num_output_tokens in *; lia|done|]. intros m Hm. apply Hb. rewrite <-E4. by apply list_elem_of_fmap_2.
Qed.

(** ** The plan of a step *)

Definition scheduled v : list nat := l_running v ++ l_new v ++ l_resumed v.

Record plan_inv (o : gmap nat Request) run prev v : Prop := {
  pv_nodup : NoDup (scheduled v);
  pv_sub r : r ∈ scheduled v → r ∈ run;
  pv_keys rid : rid ∈ (l_tokens v).*1 ↔ ∃ r, r ∈ scheduled v ∧ request_id <$> o !! r = Some rid;
  pv_unique : NoDup (l_tokens v).*1;
  pv_blocks rid : rid ∈ (l_tokens v).*1 → is_Some (l_blocks v !! rid);
  pv_pos x : x ∈ l_tokens v → 0 < x.2;
  pv_budget : 0 ≤ l_budget v;
  pv_total : l_budget v + zsum (l_tokens v).*2 = max_num_scheduled_tokens c;
  pv_spec : l_spec v = ∅;
  pv_inputs rid ids : l_enc_inputs v !! rid = Some ids → ∃ r q, r ∈ scheduled v ∧ o !! r = Some q ∧ request_id q = rid ∧
    ∀ i, i ∈ ids → is_Some (mm_features q !! i);
  pv_resumed r rid : r ∈ l_resumed v → request_id <$> o !! r = Some rid → rid ∉ prev;
  pv_preempted r : r ∈ l_preempted v → is_Some (o !! r);
}.

Lemma plan_frame o o' run prev v : same_frame o o' → plan_inv o run prev v → plan_inv o' run prev v.
Proof.
  intros Hs []. split; try done.
  - intros rid. rewrite pv_keys0. by setoid_rewrite (same_frame_id _ _ _ Hs).
  - intros rid ids (r & q & Hr & Hq & Hid & Hi)%pv_inputs0. specialize (Hs r). rewrite Hq in Hs. destruct (o' !! r) as [q'|] eqn:E; [|done].
    injection Hs as E1 _ _ E2. exists r, q'. rewrite E2. split_and!; (done || congruence).
  - intros r rid. rewrite (same_frame_id _ _ _ Hs). eauto.
  - intros r [q Hq]%pv_preempted0. specialize (Hs r). rewrite Hq in Hs. by destruct (o' !! r).
Qed.

Lemma plan_run o run run' prev v : (∀ r, r ∈ scheduled v → r ∈ run') → plan_inv o run prev v → plan_inv o run' prev v.
Proof. intros Hs []. by split. Qed.

(** The requests scheduled so far come before the current position. *)
Definition placed run v : Prop :=
  (length (l_running v) ≤ l_index v)%nat ∧ ∀ x, x ∈ l_running v → ∃ i, (i < l_index v)%nat ∧ run !! i = Some x.
Definition none_admitted v : Prop := l_new v = [] ∧ l_resumed v = [].
(** ... and the current request is not after it. *)
Definition current run v (r : nat) : Prop :=
  ∃ j, run !! j = Some r ∧ (j ≤ l_index v)%nat ∧ (sched_policy c = FCFS_policy → j = l_index v).

Lemma current_new run v r : NoDup run → placed run v → run !! l_index v = Some r → r ∉ l_running v.
Proof. intros Hnd [_ Hp] Hr (i & Hi & Hir)%Hp. pose proof (NoDup_lookup _ _ _ _ Hnd Hir Hr). lia. Qed.

(** A step that began with the dict [rs0] of requests *)
Section step.
Context (rs0 : gmap string nat).

Record phase prev s wl L v : Prop := {
  ph_core : core_at s wl (running s) L (l_tokens v);
  ph_prev : prev_step_scheduled_req_ids s = prev ∧ requests s = rs0;
  ph_resume x rid : x ∈ wl → (λ q, (request_id q, status q)) <$> objs s !! x = Some (rid, PREEMPTED) → rid ∈ prev → x ∈ l_preempted v;
  ph_len : Z.of_nat (length (running s)) ≤ max_num_running_reqs c;
  ph_plan : plan_inv (objs s) (running s) prev v;
}.

(** ** Preemption *)

Lemma remove_first_split (x : nat) l i : NoDup l → l !! i = Some x → remove_first x l = take i l ++ drop (S i) l.
Proof.
  revert i. induction l as [|y l IH]; intros i Hnd Hi; [done|]. apply NoDup_cons in Hnd as [Hy Hnd]. destruct i as [|i]; cbn in *.
  - simplify_eq. by rewrite decide_True, drop_0.
  - rewrite decide_False by (intros ->; by apply Hy, (list_elem_of_lookup_2 _ i)). by rewrite (IH i).
Qed.

Lemma remove_first_perm (x : nat) l : x ∈ l → l ≡ₚ x :: remove_first x l.
Proof.
  induction l as [|y l IH]; intros Hx; [by apply not_elem_of_nil in Hx|]. cbn. destruct (decide (y = x)) as [->|Hne]; [done|].
  apply elem_of_cons in Hx as [->|Hx]; [done|]. rewrite (IH Hx) at 1. by rewrite Permutation_swap.
Qed.

(** Positions after a removal *)
Lemma removed_before l i j (x y : nat) : NoDup l → l !! i = Some x → l !! j = Some y → x ≠ y →
  ∃ j', remove_first x l !! j' = Some y ∧ (j' ≤ j)%nat ∧ ((i < j)%nat → (j' < j)%nat).
Proof.
  intros Hnd Hi Hj Hne. pose proof (lookup_lt_Some _ _ _ Hi) as Hil. assert (i ≠ j) by (intros ->; congruence). rewrite (remove_first_split x l i) by done. assert (length (take i l) = i) as Hlen by (rewrite length_take; lia).
  destruct (decide (j < i)%nat).
  - exists j. split_and!; [|lia|lia]. rewrite lookup_app_l by lia. by rewrite lookup_take_lt by lia.
  - exists (j - 1)%nat. split_and!; [|lia|lia]. rewrite lookup_app_r by lia. rewrite lookup_drop, Hlen. by replace (S i + (j - 1 - i))%nat with j by lia.
Qed.

Lemma max_by_elem key : ∀ l x, Sched.max_by key x l ∈ x :: l.
Proof.
  induction l as [|y l IH]; intros x; cbn; [left|]. case_match; [specialize (IH y)|specialize (IH x)]; apply elem_of_cons in IH as [->|?]; [right; left|by do 2 right|left|by do 2 right].
Qed.

Lemma encoder_tokens_known q ids : (∀ i, i ∈ ids → is_Some (mm_features q !! i)) → ∃ ys, mapR (get_num_encoder_tokens q) ids = Ok ys.
Proof.
  induction ids as [|i ids IH]; intros Hids; [by eexists|]. destruct (Hids i) as [f Hf]; [left|]. destruct IH as [ys E]; [intros j Hj; apply Hids; by right|].
  exists (mm_length f :: ys). cbn [mapR]. by rewrite (num_encoder_tokens_at _ _ _ Hf), E.
Qed.

(** The rollback of a scheduled victim *)
Lemma wp_rollback prev s wl L v p l : phase prev s wl L v → p ∈ l_running v →
  wp (Sched.rollback p v) (Sched.set_running l s) (λ v' s', s' = Sched.set_running l s ∧ plan_inv (objs s) (remove_first p (running s)) prev v' ∧
    (∀ q x, objs s !! p = Some q → request_id x ≠ request_id q → tokens_of (l_tokens v') x = tokens_of (l_tokens v) x) ∧
    l_running v' = remove_first p (l_running v) ∧ l_index v' = (l_index v - 1)%nat ∧ l_preempted v' = l_preempted v ∧ l_new v' = l_new v ∧ l_resumed v' = l_resumed v ∧ l_budget v ≤ l_budget v').
Proof.
  intros [Hc _ _ _ Hpl] Hp. pose proof Hpl as [P1 P2 P3 P4 P5 P6 P7 P8 P9 P10 P11 P12].
  assert (p ∈ scheduled v) as Hps by (apply elem_of_app; by left). pose proof (P2 p Hps) as Hpr.
  assert (∀ r, r ∈ running s → r ∈ wl ++ running s) as Hin by (intros r ?; apply elem_of_app; by right).
  destruct (co_req _ _ _ _ _ _ _ _ _ _ _ _ _ _ Hc p (Hin p Hpr)) as (q & Hq & Hok). unfold Sched.rollback. apply wp_bind. eapply wp_obj; [done|].
  assert (request_id q ∈ (l_tokens v).*1) as Hkey by (apply P3; exists p; by rewrite Hq).
  destruct (OD.get (request_id q) (l_tokens v)) as [n|] eqn:En; [|by apply OD.get_None in En].
  destruct (P5 _ Hkey) as [b Eb]. rewrite Eb. apply wp_bind.
  assert (∀ r, r ∈ scheduled v → request_id <$> objs s !! r = Some (request_id q) → r = p) as Huniq.
  { intros r Hr E. destruct (objs s !! r) as [q'|] eqn:Eq; [|done]. injection E as E. eapply (core_unique _ _ _ _ _ _ _ _ _ _ _ _ _ _ r p q' q Hc); auto. }
  apply (wp_mono _ _ (λ _ s', s' = Sched.set_running l s)).
  { destruct (l_enc_inputs v !! request_id q) as [ids|] eqn:Eids; [|by apply wp_ret]. apply wp_bind.
    destruct (P10 _ _ Eids) as (r & q' & Hr & Hq' & Eid & Hids). assert (r = p) as -> by (apply Huniq; [done|]; by rewrite Hq', <-Eid). simplify_eq.
    destruct (encoder_tokens_known _ ids Hids) as [ys ->].
    by apply wp_ret, wp_ret. }
  intros restored s' ->. apply wp_ret. cbn. split; [done|]. assert (NoDup (running s)) as Hnr by (by apply (co_nodup _ _ _ _ _ _ _ _ _ _ _ _ _ _) in Hc as (_ & _ & ?)%NoDup_app).
  assert (remove_first p (l_running v) ++ l_new v ++ l_resumed v = filter (λ r, r ≠ p) (scheduled v)) as Esch.
  { pose proof P1 as (Hn1 & Hd & _)%NoDup_app. unfold scheduled. rewrite filter_app, remove_first_NoDup by done. f_equal. symmetry. apply filter_id.
    intros x Hx ->. by apply (Hd p Hp). }
  split_and!; [|intros q' x Hq' Hx; simplify_eq; unfold tokens_of; by rewrite OD.get_del, decide_False by done|done|done|done|done|done|].
  2:{ assert (0 < n); [|lia]. apply (P6 (request_id q, n)). by apply OD.get_Some. }
  split; unfold scheduled; locals_cbn; rewrite ?Esch; try done.
  - by apply NoDup_filter.
  - intros r [Hne Hr]%list_elem_of_filter. rewrite remove_first_NoDup by done. apply list_elem_of_filter. auto.
  - intros rid. rewrite OD.keys_del, list_elem_of_filter, P3 by done. setoid_rewrite list_elem_of_filter. split.
    + intros [Hne (r & Hr & Hid)]. exists r. split_and!; [|done|done]. intros ->. rewrite Hq in Hid. cbn in Hid. congruence.
    + intros (r & [Hne Hr] & Hid). split; [|by exists r]. intros ->. by apply Hne, Huniq.
  - rewrite OD.keys_del by done. by apply NoDup_filter.
  - intros rid. rewrite OD.keys_del, list_elem_of_filter by done. intros [Hne Hrid]. rewrite lookup_delete_ne by done. auto.
  - intros [rid m]. rewrite OD.elem_of_del by done. intros [_ H]. by apply P6 in H.
  - assert (0 < n); [|lia]. apply (P6 (request_id q, n)). by apply OD.get_Some.
  - pose proof (OD.get_del_perm _ _ _ En) as Hp'. assert (zsum (l_tokens v).*2 = n + zsum (OD.del (request_id q) (l_tokens v)).*2); [|lia].
    rewrite Hp' at 1. csimpl. by rewrite zsum_cons.
  - by rewrite P9, delete_empty.
  - intros rid ids [Hne H]%lookup_delete_Some. destruct (P10 rid ids H) as (r & q' & Hr & Hq' & Eid & Hi). exists r, q'. rewrite list_elem_of_filter.
    split_and!; [|done|done|done|done]. intros ->. simplify_eq.
Qed.

(** The victim leaves the running list, and what it had been given goes back. *)
Record selected prev s v (p : nat) v' run' : Prop := {
  se_run : running s ≡ₚ p :: run';
  se_plan : plan_inv (objs s) run' prev v';
  se_tokens q x : objs s !! p = Some q → request_id x ≠ request_id q → tokens_of (l_tokens v') x = tokens_of (l_tokens v) x;
  se_preempted : l_preempted v' = l_preempted v;
  se_placed : placed run' v';
  se_admitted : none_admitted v';
  se_sub x : x ∈ l_running v' → x ∈ l_running v;
  se_budget : l_budget v ≤ l_budget v';
  se_current r : current (running s) v r → r ≠ p → current run' v' r;
  se_measure : (length run' - l_index v' ≤ length (running s) - l_index v)%nat;
}.

Lemma wp_select_victim prev s wl L v r : phase prev s wl L v → placed (running s) v → none_admitted v → current (running s) v r →
  wp (Sched.select_victim c v) s (λ pv s', ∃ run', s' = Sched.set_running run' s ∧ selected prev s v pv.1 pv.2 run').
Proof.
  intros Hph [Hlen Hpl] [Hnew Hres] Hcur. pose proof Hph as [Hc _ _ _ Hplan]. assert (NoDup (running s)) as Hnd by (by apply co_nodup in Hc as (_ & _ & ?)%NoDup_app).
  assert (scheduled v = l_running v) as Esch by (unfold scheduled; by rewrite Hnew, Hres, app_nil_r).
  unfold Sched.select_victim. apply wp_bind, wp_gets. pose proof Hcur as (j & Hj & Hjl & Hje). destruct (sched_policy c) eqn:Epol.
  - specialize (Hje eq_refl). subst j. destruct (last (running s)) as [p|] eqn:Elast.
    2:{ apply last_None in Elast. by rewrite Elast in Hj. }
    apply wp_bind, wp_modify, wp_ret. set (n := (length (running s) - 1)%nat). exists (take n (running s)). split; [done|]. cbn [fst snd].
    pose proof (lookup_lt_Some _ _ _ Hj) as Hlt. rewrite last_lookup in Elast. replace (Init.Nat.pred (length (running s))) with n in Elast by lia.
    assert (∀ i x, running s !! i = Some x → x ≠ p → take n (running s) !! i = Some x) as Htake.
    { intros i x Hx Hne. pose proof (lookup_lt_Some _ _ _ Hx). rewrite lookup_take_lt; [done|]. assert (i ≠ n) by (intros ->; congruence). lia. }
    assert (∀ x, x ∈ l_running v → x ≠ p) as Hnp.
    { intros x (i & Hi & Hx)%Hpl ->. pose proof (NoDup_lookup _ _ _ _ Hnd Hx Elast). lia. }
    split; try done.
    + rewrite <-(take_drop n (running s)) at 1. rewrite (drop_S _ _ _ Elast), drop_ge by lia. by rewrite Permutation_app_comm.
    + eapply plan_run; [|exact Hplan]. rewrite Esch. intros x Hx. destruct (Hpl x Hx) as (i & _ & Hi). eapply list_elem_of_lookup_2, Htake; [exact Hi|auto].
    + split; [done|]. intros x Hx. destruct (Hpl x Hx) as (i & Hi & Hxi). exists i. auto.
    + intros x (i & Hi & ? & ?) Hne. exists i. auto.
    + rewrite length_take. lia.
  - destruct (running s) as [|x0 l0] eqn:Erun; [done|]. set (p := Sched.max_by _ x0 l0).
    assert (p ∈ running s) as Hp by (rewrite Erun; apply max_by_elem). rewrite <-Erun in *. clearbody p. clear Erun x0 l0.
    apply wp_bind, wp_modify. pose proof (remove_first_perm p _ Hp) as Hperm. apply list_elem_of_lookup in Hp as [i Hi].
    assert (∀ x, x ∈ running s → x ≠ p → x ∈ remove_first p (running s)) as Hkeep.
    { intros x Hx Hne. rewrite Hperm in Hx. by apply elem_of_cons in Hx as [->|?]. }
    assert (length (running s) = S (length (remove_first p (running s)))) as Hlr by (by rewrite Hperm at 1).
    case_bool_decide as Hpv.
    + apply wp_bind. eapply wp_mono; [by apply (wp_rollback prev s wl L v p _ Hph Hpv)|]. intros v' s' (-> & Hplan' & Htok & Er & Ei & Ep & En & Es & Eb).
      apply wp_ret. exists (remove_first p (running s)). split; [done|]. destruct (Hpl p Hpv) as (ip & Hip & Hip'). assert (ip = i) as -> by (by eapply NoDup_lookup).
      pose proof (remove_first_perm p _ Hpv) as Hpr%Permutation_length. cbn in Hpr.
      split; cbn [fst snd]; rewrite ?Er, ?Ei, ?Ep; try done.
      * split; rewrite ?Er, ?Ei; [lia|]. intros x Hx. assert (x ∈ l_running v ∧ x ≠ p) as [Hx' Hne].
        { pose proof (pv_nodup _ _ _ _ Hplan) as Hn. rewrite Esch in Hn. rewrite remove_first_NoDup in Hx by done. apply list_elem_of_filter in Hx. tauto. }
        destruct (Hpl x Hx') as (ix & Hix & Hx2). destruct (removed_before _ i ix p x Hnd Hi Hx2 (not_eq_sym Hne)) as (j' & ? & ? & Hj').
        exists j'. split; [|done]. destruct (decide (i < ix)%nat); [specialize (Hj' ltac:(done)); lia|]. assert (i ≠ ix) by (intros ->; congruence). lia.
      * by split; rewrite ?En, ?Es.
      * intros x. rewrite remove_first_NoDup; [by intros [_ ?]%list_elem_of_filter|]. rewrite <-Esch. by apply Hplan.
      * intros x (jx & Hjx & Hle & _) Hne. destruct (removed_before _ i jx p x Hnd Hi Hjx (not_eq_sym Hne)) as (j' & ? & ? & Hj'). exists j'. rewrite Ei.
        split_and!; [done| |by rewrite Epol]. destruct (decide (i < jx)%nat); [specialize (Hj' ltac:(done)); lia|]. assert (i ≠ jx) by (intros ->; congruence). lia.
      * lia.
    + apply wp_ret. exists (remove_first p (running s)). split; [done|]. cbn [fst snd]. split; try done.
      * eapply plan_run; [|exact Hplan]. rewrite Esch. intros x Hx. apply Hkeep; [|by intros ->]. apply (pv_sub _ _ _ _ Hplan). by rewrite Esch.
      * split; [done|]. intros x Hx. destruct (Hpl x Hx) as (ix & Hix & Hx2). assert (x ≠ p) as Hne by (by intros ->).
        destruct (removed_before _ i ix p x Hnd Hi Hx2 (not_eq_sym Hne)) as (j' & ? & ? & _). exists j'. split; [lia|done].
      * intros x (jx & Hjx & Hle & _) Hne. destruct (removed_before _ i jx p x Hnd Hi Hjx (not_eq_sym Hne)) as (j' & ? & ? & _). exists j'. split_and!; [done|lia|by rewrite Epol].
      * lia.
Qed.

Definition with_preempted (p : nat) v : locals :=
  mkLocals (l_new v) (l_resumed v) (l_running v) (l_preempted v ++ [p]) (l_blocks v) (l_tokens v) (l_budget v)
    (l_enc_inputs v) (l_enc_budget v) (l_spec v) (l_index v) (l_loras v).

(** A log entry, when statistics are kept *)
Definition logged (g : Request → Request) (q : Request) : Request := if sched_log_stats c then g q else q.

Lemma wp_log s r g q Ψ : objs s !! r = Some q → Ψ () (Sched.set_objs (<[r := logged g q]> (objs s)) s) →
  wp (if sched_log_stats c then Sched.upd r g else mret ()) s Ψ.
Proof.
  intros Hq HΨ. unfold logged in HΨ. destruct (sched_log_stats c); [by eapply wp_upd|]. apply wp_ret. rewrite insert_id in HΨ by done. by destruct s.
Qed.

Lemma wp_preempt prev s wl L v v' now p run' : phase prev s wl L v → rep (attributes (objs s)) (waiting s) wl → selected prev s v p v' run' →
  wp (Sched.preempt queue c set_iter now p v') (Sched.set_running run' s) (λ v'' s', v'' = with_preempted p v' ∧ running s' = run' ∧
    (∃ L', phase prev s' (p :: wl) L' v'') ∧ rep (attributes (objs s')) (waiting s') (p :: wl) ∧ same_frame (objs s) (objs s') ∧
    (∀ x, x ≠ p → objs s' !! x = objs s !! x) ∧ ∃ rid, refs_dropped rid (encoder_cache_manager s) (encoder_cache_manager s')).
Proof.
  intros [Hc Hprev Hresume Hlen Hplan] Hrep [Srun Splan Stok Spre _ _ _ _ _ _].
  assert (p ∈ running s) as Hp by (rewrite Srun; left). pose proof Hc as [C1 C2 C3 C4 C5 C6 C7 C8 C9 C10 C11].
  destruct (C5 p) as (q & Hq & Hok); [apply elem_of_app; by right|]. unfold Sched.preempt. apply wp_bind. eapply wp_obj; [exact Hq|].
  apply wp_bind, wp_on_kv. eapply wp_mono; [by apply (wp_kv_free _ L)|]. intros [] k' [Ek Hk'].
  apply wp_bind, wp_on_enc. destruct (ro_inputs _ _ _ _ Hok) as [Hsz Hso]. eapply wp_mono; [by apply (wp_enc_free size set_iter set_iter_perm q)|].
  intros [] e' (He' & Hd & _). set (q' := logged (record_event EV_PREEMPTED now) (set_preempted q)).
  assert (frame q' = frame q ∧ same_request q q' ∧ status q' = PREEMPTED ∧ num_computed_tokens q' = 0) as (Hf & Hsr & Hst & Hnc).
  { unfold q', logged. by destruct (sched_log_stats c). }
  apply wp_bind. eapply wp_upd; [exact Hq|]. apply wp_bind. eapply wp_log; [apply lookup_insert_eq|]. sched_cbn.
  rewrite insert_insert_eq. fold q'. pose proof (same_frame_insert _ p q q' Hq Hf) as Hs. apply wp_bind, wp_on_waiting. sched_cbn.
  rewrite (same_frame_attrs _ _ Hs). eapply wp_mono; [apply (ql_prepend (attributes (objs s)) _ wl p); [|exact Hrep]|].
  { eapply ql_sub; [|exact C1]. intros x [->|Hx]%elem_of_cons; apply elem_of_app; [by right|by left]. }
  intros [] wq Hwq. apply wp_ret. split_and!; [done|done| |by sched_cbn; rewrite (same_frame_attrs _ _ Hs)|done| |by exists (request_id q)].
  2:{ intros x Hx. sched_cbn. by rewrite lookup_insert_ne. }
  exists (delete (request_id q) L). split; sched_cbn.
  - eapply core_enc; [|exact He']. eapply (core_preempt _ ql_sub); [exact Hc|exact Srun|exact Hq|exact Hf| |done|done|exact Ek|exact Hk'|].
    + by apply (req_ok_same _ _ hl_content).
    + intros x Hx. by apply (Stok q).
  - done.
  - intros x rid [->|Hx]%elem_of_cons; [intros _ _; apply elem_of_app; right; left|]. assert (x ≠ p) as Hne.
    { intros ->. apply NoDup_app in C2 as (_ & C2 & _). by apply (C2 p). }
    rewrite lookup_insert_ne by done. intros E Hin. apply elem_of_app. left. rewrite Spre. by eapply Hresume.
  - apply Permutation_length in Srun. cbn in Srun. lia.
  - eapply plan_frame; [exact Hs|]. destruct Splan. split; try done. intros x [Hx| ->%list_elem_of_singleton]%elem_of_app; [auto|by eexists].
Qed.

(** *** The allocation loop *)

Record alloc_ready s wl v r q n ids : Prop := {
  ar_rep : rep (attributes (objs s)) (waiting s) wl;
  ar_placed : placed (running s) v;
  ar_admitted : none_admitted v;
  ar_current : current (running s) v r;
  ar_obj : objs s !! r = Some q;
  ar_new : r ∉ l_running v;
  ar_tokens : 0 < n ≤ num_tokens q - num_computed_tokens q;
  ar_budget : n ≤ l_budget v;
  ar_plan : enc_plan size q ids (encoder_cache_manager s);
}.

(** What is known when the loop ends, whether or not the request got its slots *)
Record alloc_done v0 s0 s wl v : Prop := {
  ad_rep : rep (attributes (objs s)) (waiting s) wl;
  ad_placed : placed (running s) v;
  ad_admitted : none_admitted v;
  ad_measure : (length (running s) - l_index v ≤ length (running s0) - l_index v0)%nat;
}.

Lemma wp_alloc_loop prev now r q n ids fuel : ∀ s wl L v, phase prev s wl L v → alloc_ready s wl v r q n ids → (length (running s) ≤ fuel)%nat →
  wp (Sched.alloc_loop queue c set_iter fuel now r n v) s (λ res s', ∃ wl' L', phase prev s' wl' L' res.2 ∧ alloc_done v s s' wl' res.2 ∧
    if res.1 then alloc_ready s' wl' res.2 r q n ids ∧ ∃ N T, L' !! request_id q = Some (N, T) ∧ num_computed_tokens q + n ≤ T
    else l_preempted res.2 ≠ []).
Proof.
  induction fuel as [|fuel IH]; intros s wl L v Hph Har Hfuel; pose proof Har as [Hrep Hpl Hna Hcur Hq Hnew Hn Hb Hep].
  { destruct Hcur as (j & Hj%lookup_lt_Some & _). lia. }
  assert (r ∈ running s) as Hr by (destruct Hcur as (j & Hj & _); by eapply list_elem_of_lookup_2).
  pose proof Hph as [Hc Hprev Hresume Hlen Hplan]. pose proof Hc as [C1 C2 C3 C4 C5 C6 C7 C8 C9 C10 C11].
  destruct (C5 r) as (q0 & Hq0 & Hok); [apply elem_of_app; by right|]. assert (q0 = q) as -> by congruence. destruct (C7 r q Hr Hq) as (Hst & N & T0 & HL & Hnc & Ht & HT & Hle).
  cbn [Sched.alloc_loop]. apply wp_bind. eapply wp_obj; [exact Hq|]. apply wp_bind, wp_on_kv.
  eapply wp_mono; [apply (wp_kv_step _ L q n (num_lookahead_tokens c) N T0); [done|by apply qok_request|lia|apply Hplain|done|lia]|].
  intros [b|] k' [Ek Hk'].
  - apply wp_ret. exists wl, (<[request_id q := (Z.max N (slots_needed (kv_cache_manager s) q n 0 (num_lookahead_tokens c)), Z.max T0 (tokens_to_cache q n 0))]> L).
    cbn [fst snd]. split_and!.
    + split; sched_cbn; try done. eapply core_grant; [exact Hc|exact Hr|exact Hq|exact HL|lia|exact Ek|exact Hk'].
    + by split.
    + by split.
    + do 2 eexists. rewrite lookup_insert_eq. split; [done|]. unfold tokens_to_cache. lia.
  - assert (phase prev (Sched.set_kv k' s) wl L v) as Hph'. { split; sched_cbn; try done. by eapply core_kv. }
    apply wp_bind. eapply wp_mono; [by apply (wp_select_victim prev _ wl L v r Hph')|]. intros [p v'] s1 (run' & -> & Hsel). cbn [fst snd] in Hsel |- *.
    apply wp_bind. eapply wp_mono; [by apply (wp_preempt prev _ wl L v v' now p run' Hph')|].
    intros v'' s2 (-> & Erun & [L' Hph2] & Hrep2 & Hs2 & Hobj2 & rid & Hd). sched_cbn. cbn [fst snd]. pose proof Hsel as [Srun Splan Stok Spre Spl Sad Ssub Sb Scur Sm].
    assert (alloc_done v s s2 (p :: wl) (with_preempted p v')) as Hdone. { split; rewrite ?Erun; try done. }
    destruct (decide (p = r)) as [->|Hne].
    + apply wp_ret. exists (r :: wl), L'. cbn [fst snd]. split_and!; [done|done|]. unfold with_preempted. cbn. by destruct (l_preempted v').
    + assert (alloc_ready s2 (p :: wl) (with_preempted p v') r q n ids) as Har2.
      { split; rewrite ?Erun; try done.
        - apply (Scur r); [done|by apply not_eq_sym].
        - rewrite Hobj2 by (by apply not_eq_sym). done.
        - intros Hin. by apply Hnew, Ssub.
        - cbn. lia.
        - by eapply enc_plan_dropped. }
      eapply wp_mono; [apply (IH s2 (p :: wl) L' _ Hph2 Har2)|].
      { apply Permutation_length in Srun. cbn in Srun. rewrite Erun. lia. }
      intros res s' (wl' & L2 & Hph3 & [D1 D2 D3 D4] & Hres). exists wl', L2. split_and!; [done| |done]. split; try done. destruct Hdone as [_ _ _ Hm]. lia.
Qed.

(** ** Scheduling a request *)

Lemma wp_allocate_encoder q inputs external s Ψ : enc_inv size (encoder_cache_manager s) → sized size q →
  enc_plan size q (inputs ++ external) (encoder_cache_manager s) → (∀ e', enc_inv size e' → Ψ () (Sched.set_enc e' s)) →
  wp (Sched.allocate_encoder (T := T) None q inputs external) s Ψ.
Proof.
  intros He Hsz Hp HΨ. assert (Sched.allocate_encoder (T := T) None q inputs external s = Sched.on_enc (for_each (inputs ++ external) (allocate q)) s) as E.
  { unfold Sched.on_enc. rewrite <-for_each_zoom; [|done|done|by destruct s]. rewrite for_each_app. unfold Sched.allocate_encoder, mbind, M_bind.
    destruct (for_each inputs _ s) as [[[]|x] s']; [|done]. apply for_each_ext. intros i s0. unfold Sched.on_enc. by destruct (zoom _ _ _ s0) as [[[]|x] s1]. }
  unfold wp. rewrite E. change (wp (Sched.on_enc (for_each (inputs ++ external) (allocate q))) s Ψ). apply wp_on_enc.
  eapply wp_mono; [by apply wp_enc_allocate_all|]. intros [] e'. apply HΨ.
Qed.

(** One more request in the plan *)
Lemma plan_add o run run' prev v v' r q n inputs b : plan_inv o run prev v → (∀ x, x ∈ run → x ∈ run') → r ∈ run' → o !! r = Some q →
  r ∉ scheduled v → (∀ x, x ∈ scheduled v → request_id <$> o !! x ≠ Some (request_id q)) → 0 < n ≤ l_budget v →
  (∀ i, i ∈ inputs → is_Some (mm_features q !! i)) → scheduled v' ≡ₚ r :: scheduled v →
  l_tokens v' = OD.set (request_id q) n (l_tokens v) → l_blocks v' = <[request_id q := b]> (l_blocks v) → l_budget v' = l_budget v - n →
  l_enc_inputs v' = (if bool_decide (inputs = []) then l_enc_inputs v else <[request_id q := inputs]> (l_enc_inputs v)) →
  l_spec v' = l_spec v → l_preempted v' = l_preempted v →
  (∀ x, x ∈ l_resumed v' → x ∈ l_resumed v ∨ x = r ∧ request_id q ∉ prev) →
  plan_inv o run' prev v' ∧ l_tokens v' = l_tokens v ++ [(request_id q, n)].
Proof.
  intros [P1 P2 P3 P4 P5 P6 P7 P8 P9 P10 P11 P12] Hsub Hr Hq Hns Hid Hn Hin Esch Etok Eblk Ebud Eenc Espec Epre Eres.
  assert (request_id q ∉ (l_tokens v).*1) as Hk by (rewrite P3; intros (x & Hx & E); by apply (Hid x)).
  assert (OD.set (request_id q) n (l_tokens v) = l_tokens v ++ [(request_id q, n)]) as Eset by (by apply OD.set_new, OD.get_None).
  rewrite Eset in Etok. split; [|done]. split.
  - rewrite Esch. by apply NoDup_cons.
  - intros x. rewrite Esch. intros [->|Hx]%elem_of_cons; auto.
  - intros rid. rewrite Etok, fmap_app, elem_of_app, P3. csimpl. rewrite list_elem_of_singleton. setoid_rewrite Esch. setoid_rewrite elem_of_cons. split.
    + intros [(x & ? & ?)| ->]; [by exists x; auto|]. exists r. split; [by left|by rewrite Hq].
    + intros (x & [->|Hx] & E); [right; rewrite Hq in E; by injection E|left; by exists x].
  - rewrite Etok, fmap_app. csimpl. apply NoDup_app. split_and!; [done| |apply NoDup_singleton]. intros x Hx ->%list_elem_of_singleton. done.
  - intros rid. rewrite Etok, Eblk, fmap_app, elem_of_app. csimpl. rewrite list_elem_of_singleton. intros Hrid.
    destruct (decide (rid = request_id q)) as [->|Hne]; [rewrite lookup_insert_eq; by eexists|]. rewrite lookup_insert_ne by done. apply P5. tauto.
  - rewrite Etok. intros x [Hx| ->%list_elem_of_singleton]%elem_of_app; [auto|]. cbn. lia.
  - lia.
  - rewrite Etok, fmap_app, zsum_app. csimpl. rewrite zsum_cons. change (zsum []) with 0. lia.
  - by rewrite Espec.
  - intros rid ids. setoid_rewrite Esch. setoid_rewrite elem_of_cons. rewrite Eenc. case_bool_decide as Ei.
    + intros (x & y & ? & ? & ? & ?)%P10. exists x, y. auto.
    + intros [[<- <-]|[_ (x & y & ? & ? & ? & ?)%P10]]%lookup_insert_Some; [exists r, q|exists x, y]; auto.
  - intros x rid [Hx|[-> Hx]]%Eres; [eauto|]. rewrite Hq. by intros [= <-].
  - by rewrite Epre.
Qed.

Lemma tokens_of_set tok rid n x : tokens_of (OD.set rid n tok) x = if decide (rid = request_id x) then n else tokens_of tok x.
Proof. unfold tokens_of. rewrite OD.get_set. by case_decide. Qed.

(** A request that is not in the plan has no tokens yet, and its id is not there. *)
Lemma plan_unscheduled prev s wl L v r q : phase prev s wl L v → r ∈ wl ++ running s → objs s !! r = Some q → r ∉ scheduled v →
  tokens_of (l_tokens v) q = 0 ∧ ∀ x, x ∈ scheduled v → request_id <$> objs s !! x ≠ Some (request_id q).
Proof.
  intros [Hc _ _ _ Hpl] Hr Hq Hns. assert (∀ x, x ∈ scheduled v → request_id <$> objs s !! x ≠ Some (request_id q)) as Hid.
  { intros x Hx E. destruct (objs s !! x) as [y|] eqn:Ey; [|done]. injection E as E. apply Hns. assert (x = r) as <-; [|done].
    eapply (core_unique _ _ _ _ _ _ _ _ _ _ _ _ _ _ x r y q Hc); [|done|done|done|done]. apply elem_of_app. right. by apply (pv_sub _ _ _ _ Hpl). }
  split; [|done]. unfold tokens_of. destruct (OD.get _ _) as [n|] eqn:E; [|done]. exfalso.
  assert (request_id q ∈ (l_tokens v).*1) as (x & Hx & Ex)%(pv_keys _ _ _ _ Hpl).
  { apply OD.get_Some in E; [|by apply Hpl]. apply list_elem_of_fmap. by exists (request_id q, n). }
  by apply (Hid x).
Qed.

(** The new tokens of a request count for it alone. *)
Lemma core_schedule o nx rs k e wl run L tok r q n : inv o nx rs k e wl run L tok → r ∈ run → o !! r = Some q → tokens_of tok q = 0 →
  0 < n ≤ num_tokens q - num_computed_tokens q → (∃ N T, L !! request_id q = Some (N, T) ∧ num_computed_tokens q + n ≤ T) →
  inv o nx rs k e wl run L (OD.set (request_id q) n tok).
Proof.
  intros Hc Hr Hq Ht Hn (N & T0 & HL & HT). eapply core_tokens; [exact Hc|]. intros r' q' Hr' Hq' Hrun. destruct (decide (r' = r)) as [->|Hne].
  - assert (q' = q) as -> by congruence. destruct Hrun as (? & N' & T' & HL' & ? & _ & _ & _). split; [done|]. exists N, T0.
    rewrite tokens_of_set, decide_True by done. split_and!; [done|lia..].
  - eapply run_ok_tokens; [|done]. rewrite tokens_of_set, decide_False; [done|]. apply not_eq_sym.
    eapply (core_other _ _ _ _ _ _ _ _ _ _ _ _ _ _ r q r' q' Hc); [apply elem_of_app; by right|done|apply elem_of_app; by right|done|done].
Qed.

Lemma wp_schedule_running prev s wl L v r q n inputs external nb b : phase prev s wl L v → alloc_ready s wl v r q n (inputs ++ external) →
  (∃ N T, L !! request_id q = Some (N, T) ∧ num_computed_tokens q + n ≤ T) →
  wp (Sched.schedule_running (T := T) None r b n inputs external nb v) s (λ v' s', phase prev s' wl L v' ∧ rep (attributes (objs s')) (waiting s') wl ∧
    placed (running s') v' ∧ none_admitted v' ∧ running s' = running s ∧ l_index v' = S (l_index v)).
Proof.
  intros Hph [Hrep [Hpl1 Hpl2] [Hna1 Hna2] Hcur Hq Hnew Hn Hb Hep] HL. pose proof Hph as [Hc Hprev Hresume Hlen Hplan].
  assert (r ∈ running s) as Hr by (destruct Hcur as (j & Hj & _); by eapply list_elem_of_lookup_2).
  assert (scheduled v = l_running v) as Esch by (unfold scheduled; by rewrite Hna1, Hna2, app_nil_r).
  pose proof Hc as [C1 C2 C3 C4 C5 C6 C7 C8 C9 C10 C11]. destruct (C5 r) as (q0 & Hq0 & Hok); [apply elem_of_app; by right|]. assert (q0 = q) as -> by congruence.
  destruct (plan_unscheduled prev s wl L v r q Hph) as [Ht Hid]; [apply elem_of_app; by right|done|by rewrite Esch|].
  destruct (ro_spec _ _ _ _ Hok) as [Hsp _]. destruct (ro_inputs _ _ _ _ Hok) as [Hsz _].
  unfold Sched.schedule_running. apply wp_bind. eapply wp_obj; [exact Hq|]. rewrite !(bool_decide_true (spec_token_ids q = [])) by done.
  apply wp_bind, wp_ret, wp_bind. apply wp_allocate_encoder; [done|done|done|]. intros e' He'. apply wp_ret. match goal with |- phase _ _ _ _ ?v0 ∧ _ => set (v' := v0) end.
  destruct (plan_add (objs s) (running s) (running s) prev v v' r q n inputs b Hplan) as [Hplan' Etok]; try done; try lia.
  { by rewrite Esch. }
  { intros i Hi. destruct Hep as (Hep & _). apply Hep, elem_of_app. by left. }
  { unfold scheduled, v'. cbn. rewrite Hna1, Hna2. cbn. rewrite !app_nil_r. by rewrite Permutation_app_comm. }
  { intros x Hx. by left. }
  split_and!; [|done| |done|done|done].
  - split; sched_cbn; try done. eapply core_enc; [|exact He']. by apply (core_schedule _ _ _ _ _ _ _ _ _ r).
  - split; sched_cbn; cbn [l_running l_index v'].
    + rewrite length_app. cbn. lia.
    + intros x [Hx| ->%list_elem_of_singleton]%elem_of_app.
      * destruct (Hpl2 x Hx) as (i & ? & ?). exists i. split; [lia|done].
      * destruct Hcur as (j & Hj & ? & _). exists j. split; [lia|done].
Qed.

Lemma running_num_new_range q tok L budget : qok q → run_ok L tok q → 0 < budget →
  0 ≤ Sched.running_num_new c q budget ≤ Z.min budget (num_tokens q - num_computed_tokens q).
Proof.
  intros [H1 H2 H3 H4 H5 H6 [H7 H8] H9] (_ & N & T0 & _ & Hc & Ht & _ & Hn) Hb. unfold Sched.running_num_new, num_tokens_with_spec, num_output_tokens in *. rewrite H7, H8.
  fold (num_tokens q). cbn [length]. destruct ((0 <? _) && _) eqn:E; [apply andb_prop in E as [?%Z.ltb_lt ?%Z.ltb_lt]|]; lia.
Qed.

Lemma set_enc_id s : Sched.set_enc (encoder_cache_manager s) s = s.
Proof. by destruct s. Qed.

Lemma wp_try_encoder s q computed n budget : enc_inv size (encoder_cache_manager s) → qok q → 0 ≤ n →
  wp (Sched.try_encoder (T := T) c None q computed n budget) s (λ p s', ∃ e', s' = Sched.set_enc e' s ∧ enc_inv size e' ∧
    enc_plan size q (p.1.1.1 ++ p.2) e' ∧ 0 ≤ p.1.1.2 ≤ n).
Proof.
  intros He Hok Hn. destruct (ro_inputs _ _ _ _ Hok) as [Hsz Hso]. unfold Sched.try_encoder. apply wp_bind, wp_ret, wp_on_enc. rewrite (cp_encdec Hplain).
  eapply wp_mono; [by apply (wp_enc_plan size (disable_chunked_mm_input c) q computed n budget)|]. intros p e' (? & ? & ?). by exists e'.
Qed.

Lemma phase_enc prev s wl L v e' : phase prev s wl L v → enc_inv size e' → phase prev (Sched.set_enc e' s) wl L v.
Proof. intros [] He. split; sched_cbn; try done. by eapply core_enc. Qed.

Lemma phase_index prev s wl L v i : phase prev s wl L v → phase prev s wl L (Sched.with_index i v).
Proof. intros [H1 H2 H3 H4 []]. split; [done..|]. by split. Qed.

(** The loop over the running requests ends within its fuel. *)
Lemma wp_running_loop prev now fuel : ∀ s wl L v, phase prev s wl L v → rep (attributes (objs s)) (waiting s) wl → placed (running s) v → none_admitted v →
  (length (running s) - l_index v < fuel)%nat →
  wp (Sched.running_loop queue c (T := T) None set_iter fuel now v) s (λ v' s', ∃ wl' L', phase prev s' wl' L' v' ∧
    rep (attributes (objs s')) (waiting s') wl' ∧ none_admitted v').
Proof.
  induction fuel as [|fuel IH]; intros s wl L v Hph Hrep Hpl Hna Hfuel; [lia|]. cbn [Sched.running_loop]. apply wp_bind, wp_gets.
  destruct (running s !! l_index v) as [r|] eqn:Er; [|apply wp_ret; by exists wl, L].
  destruct (Z.leb_spec (l_budget v) 0) as [Hb|Hb]; [apply wp_ret; by exists wl, L|]. pose proof (lookup_lt_Some _ _ _ Er) as Hlt.
  pose proof Hph as [Hc Hprev Hresume Hlen Hplan]. pose proof Hc as [C1 C2 C3 C4 C5 C6 C7 C8 C9 C10 C11].
  pose proof (list_elem_of_lookup_2 _ _ _ Er) as Hr. destruct (C5 r) as (q & Hq & Hok); [apply elem_of_app; by right|].
  pose proof (running_num_new_range q _ L (l_budget v) Hok (C7 r q Hr Hq) Hb) as Hnum.
  apply wp_bind. eapply wp_obj; [exact Hq|]. set (n0 := Sched.running_num_new c q (l_budget v)) in *. apply wp_bind.
  apply (wp_mono _ _ (λ p s', ∃ e', s' = Sched.set_enc e' s ∧ enc_inv size e' ∧ enc_plan size q (p.1.1.1 ++ p.2) e' ∧ 0 ≤ p.1.1.2 ≤ n0)).
  { destruct (has_encoder_inputs q); [apply wp_try_encoder; [done|done|lia]|]. apply wp_ret. exists (encoder_cache_manager s). rewrite set_enc_id.
    split_and!; [done|done|by apply enc_plan_nil|cbn; lia|cbn; lia]. }
  intros [[[inputs n] nb] external] s1 (e' & -> & He' & Hep & Hn). cbn [fst snd] in Hep, Hn. pose proof (phase_enc _ _ _ _ _ e' Hph He') as Hph1.
  case_bool_decide as En0.
  { apply (IH _ wl L); [by apply phase_index|done| |done|cbn; lia]. destruct Hpl as [Hp1 Hp2]. split; [cbn; lia|]. intros x Hx. destruct (Hp2 x Hx) as (i & ? & ?).
    exists i. split; [cbn; lia|done]. }
  assert (NoDup (running s)) as Hnd by (by apply NoDup_app in C2 as (_ & _ & ?)).
  assert (alloc_ready (Sched.set_enc e' s) wl v r q n (inputs ++ external)) as Har.
  { split; sched_cbn; try done; try lia; [|by eapply current_new]. exists (l_index v). auto. }
  apply wp_bind. eapply wp_mono; [by apply (wp_alloc_loop prev now r q n (inputs ++ external) _ _ wl L v Hph1 Har)|].
  intros [[b|] v1] s2 (wl1 & L1 & Hph2 & [D1 D2 D3 D4] & Hres); cbn [fst snd] in *; [|apply wp_ret; by exists wl1, L1].
  destruct Hres as [Har2 HL1]. apply wp_bind. eapply wp_mono; [by apply (wp_schedule_running prev s2 wl1 L1 v1 r q n inputs external nb b)|].
  intros v2 s3 (Hph3 & Hrep3 & Hpl3 & Hna3 & Erun & Ei). apply (IH s3 wl1 L1); [done|done|done|done|]. rewrite Erun, Ei. sched_cbn. cbn [running Sched.set_enc] in D4. lia.
Qed.

(** ** The waiting requests *)

Lemma wp_upd_if (b : bool) s r g q Ψ : objs s !! r = Some q → Ψ () (Sched.set_objs (<[r := if b then g q else q]> (objs s)) s) →
  wp (if b then Sched.upd r g else mret ()) s Ψ.
Proof. intros Hq HΨ. destruct b; [by eapply wp_upd|]. apply wp_ret. rewrite insert_id in HΨ by done. by destruct s. Qed.

(** The waiting requests are those of the queue and those skipped in this step. *)
Record waiting_phase prev s wl (skipped : Q) sk L v : Prop := {
  wp_phase : phase prev s (wl ++ sk) L v;
  wp_rep : rep (attributes (objs s)) (waiting s) wl;
  wp_skipped : rep (attributes (objs s)) skipped sk;
  wp_preempted : l_preempted v = [];
}.

(** An assignment to a waiting request, and a new world *)
Lemma waiting_upd prev s wl skipped sk L v r q q' w : waiting_phase prev s wl skipped sk L v → r ∈ wl ++ sk → objs s !! r = Some q → frame q' = frame q →
  same_request q q' → (wait_ok L q → wait_ok L q') → (status q' = PREEMPTED → status q = PREEMPTED) →
  waiting_phase prev (Sched.set_objs (<[r := q']> (objs s)) (Sched.set_world w s)) wl skipped sk L v.
Proof.
  intros [[Hc Hprev Hresume Hlen Hplan] Hrep Hsk Hpre] Hr Hq Hf Hsr Hw Hst. pose proof (same_frame_insert _ r q q' Hq Hf) as Hs.
  assert (r ∉ running s) as Hnr. { intros Hr'. apply co_nodup in Hc as (_ & Hc & _)%NoDup_app. by apply (Hc r). }
  split; sched_cbn; rewrite ?(same_frame_attrs _ _ Hs); try done. split; sched_cbn; try done.
  - eapply core_upd; [exact Hc|exact Hq|exact Hf| |done|done]. intros _. by apply (req_ok_same _ _ hl_content).
  - intros x rid Hx. destruct (decide (x = r)) as [->|Hne]; [|rewrite lookup_insert_ne by done; eauto]. rewrite lookup_insert_eq. cbn. intros [= <- Est]. intros Hin.
    apply (Hresume r (request_id q)); [done| |by rewrite <-(frame_id _ _ Hf)]. rewrite Hq. cbn. by rewrite Hst.
  - by eapply plan_frame.
Qed.

Lemma wait_ready L q : wait_ok L q → status q ≠ WAITING_FOR_REMOTE_KVS ∧ (status q ≠ WAITING_FOR_FSM → status q = WAITING ∨ status q = PREEMPTED).
Proof. intros ([-> | [-> | ->]] & _); split; auto; done. Qed.

Lemma wp_admissible prev s wl skipped sk L v r q : waiting_phase prev s wl skipped sk L v → r ∈ wl ++ sk → objs s !! r = Some q → wait_ok L q →
  wp (Sched.admissible c None structured r v) s (λ ok s', ∃ q', waiting_phase prev s' wl skipped sk L v ∧ objs s' !! r = Some q' ∧ running s' = running s ∧
    waiting s' = waiting s ∧ attributes (objs s') = attributes (objs s) ∧ wait_ok L q' ∧ (ok = true → status q' = WAITING ∨ status q' = PREEMPTED)).
Proof.
  intros Hph Hr Hq Hw. destruct (wait_ready L q Hw) as [Hst1 Hst2]. unfold Sched.admissible. apply wp_bind. eapply wp_obj; [exact Hq|].
  rewrite bool_decide_false by done. apply wp_bind, wp_ret. cbn [negb]. apply wp_bind. eapply wp_obj; [exact Hq|]. case_bool_decide as Hfsm.
  - apply wp_bind, wp_bind. apply (wp_mono _ _ (λ _ s', ∃ w, s' = Sched.set_world w s)).
    { destruct (use_structured_output q); [|apply wp_ret; exists (world s); by destruct s]. apply wp_on_world. eapply wp_mono; [apply sl_ready|]. intros b w _. by exists w. }
    intros g s1 [w ->]. apply wp_bind. eapply (wp_upd_if g); [exact Hq|]. sched_cbn. apply wp_ret.
    set (q' := if g then set_request_status WAITING q else q).
    assert (frame q' = frame q ∧ same_request q q' ∧ wait_ok L q' ∧ (status q' = PREEMPTED → status q = PREEMPTED) ∧ (g = true → status q' = WAITING)) as (Hf & Hsr & Hw' & Hst & Hg).
    { unfold q'. destruct g; split_and!; try done. destruct Hw as (_ & ? & ?). split_and!; [by left|done|done]. }
    pose proof (waiting_upd prev s wl skipped sk L v r q q' w Hph Hr Hq Hf Hsr (λ _, Hw') Hst) as Hph'.
    pose proof (same_frame_insert _ r q q' Hq Hf) as Hs.
    destruct g; cbn [negb]; apply wp_ret; exists q'; sched_cbn; rewrite (same_frame_attrs _ _ Hs), lookup_insert_eq; split_and!; try done. intros _. left. by apply Hg.
  - apply wp_bind, wp_ret. cbn [negb]. rewrite (cp_loras Hplain). apply wp_ret. exists q. split_and!; auto.
Qed.

(** A request that cannot be scheduled now is put aside. *)
Lemma wp_skip prev s wl skipped sk L v r wq' wl' : waiting_phase prev s wl skipped sk L v →
  pop_request (RequestQueue := queue (attributes (objs s))) (waiting s) = (Ok r, wq') → wl ≡ₚ r :: wl' → rep (attributes (objs s)) wq' wl' →
  wp (Sched.skip queue r skipped) s (λ skipped' s', ∃ wl' sk', waiting_phase prev s' wl' skipped' sk' L v ∧ (length wl' < length wl)%nat).
Proof.
  intros [[Hc Hprev Hresume Hlen Hplan] Hrep Hsk Hpre] Hpop Hwl Hwq. unfold Sched.skip. apply wp_bind, wp_on_waiting. unfold wp. rewrite Hpop.
  apply wp_bind, wp_on_local. sched_cbn. eapply wp_mono; [apply (ql_prepend _ skipped sk r); [|done]|].
  { eapply ql_sub; [|apply Hc]. intros x Hx. rewrite Hwl. apply elem_of_app. left. apply elem_of_cons in Hx as [->|Hx]; [by left|apply elem_of_app; by right]. }
  intros [] skipped' Hsk'. apply wp_ret. exists wl', (r :: sk). assert (wl ++ sk ≡ₚ wl' ++ r :: sk) as Hp by (rewrite Hwl; cbn; by rewrite Permutation_middle).
  split; [|apply Permutation_length in Hwl; cbn in Hwl; lia]. split; sched_cbn; try done. split; sched_cbn; try done.
  - by eapply (core_perm _ ql_sub).
  - intros x rid. rewrite <-Hp. eauto.
Qed.

Lemma enc_plan_features q q' ids e : mm_features q' = mm_features q → enc_plan size q ids e → enc_plan size q' ids e.
Proof. unfold enc_plan, hashes_at. by intros ->. Qed.

(** The request as it is admitted *)
Definition admitted (now hit : Z) (q : Request) : Request :=
  let q1 := set_num_computed hit (set_request_status RUNNING (logged (record_event SCHEDULED now) q)) in
  if num_cached_tokens q <? 0 then set_cached_tokens hit q1 else q1.

Lemma admitted_ok now hit q : frame (admitted now hit q) = frame q ∧ same_request q (admitted now hit q) ∧ status (admitted now hit q) = RUNNING ∧
  num_computed_tokens (admitted now hit q) = hit ∧ lora_request (admitted now hit q) = lora_request q.
Proof. unfold admitted, logged. by destruct (sched_log_stats c), (num_cached_tokens q <? 0). Qed.

Lemma wp_start_running prev s wl wl' wq' skipped sk L v now r q n hit inputs external nb k' N' T' : waiting_phase prev s wl skipped sk L v →
  Z.of_nat (length (running s)) < max_num_running_reqs c → wl ≡ₚ r :: wl' → rep (attributes (objs s)) wq' wl' → objs s !! r = Some q →
  status q = WAITING ∨ status q = PREEMPTED → 0 ≤ hit → 0 < n ≤ num_tokens q - hit → n ≤ l_budget v → hit + n ≤ T' →
  enc_plan size q (inputs ++ external) (encoder_cache_manager s) →
  kv_cfg k' = kv_cfg (kv_cache_manager s) → kv_inv k' (<[request_id q := (N', T')]> L) →
  wp (Sched.start_running (T := T) c None now r n hit inputs external nb v) (Sched.set_waiting wq' (Sched.set_kv k' s)) (λ v' s',
    waiting_phase prev s' wl' skipped sk (<[request_id q := (N', T')]> L) v').
Proof.
  intros Hwp Hlt Hwl Hwq Hq Hst Hhit Hn Hb HT Hep Ek Hk. pose proof Hwp as [Hph Hrep Hsk Hpre]. pose proof Hph as [Hc Hprev Hresume Hlen Hplan].
  assert (r ∈ wl ++ sk) as Hr by (rewrite Hwl; left). pose proof Hc as [C1 C2 C3 C4 C5 C6 C7 C8 C9 C10 C11].
  destruct (C5 r) as (q0 & Hq0 & Hok); [apply elem_of_app; by left|]. assert (q0 = q) as -> by congruence. clear Hq0.
  assert (r ∉ running s) as Hnr by (intros Hr'; apply NoDup_app in C2 as (_ & C2 & _); by apply (C2 r)).
  assert (r ∉ scheduled v) as Hns by (intros Hin; by apply Hnr, (pv_sub _ _ _ _ Hplan)).
  destruct (plan_unscheduled prev s _ L v r q Hph) as [Ht Hid]; [apply elem_of_app; by left|done|done|].
  destruct (admitted_ok now hit q) as (Hf & Hsr & Hst' & Hcomp & _). destruct (ro_inputs _ _ _ _ Hok) as [Hsz _].
  pose proof (same_frame_insert _ r q (admitted now hit q) Hq Hf) as Hs.
  unfold Sched.start_running, Sched._update_connector_prefix_cache_stats. apply wp_bind, wp_bind. eapply wp_obj; [exact Hq|]. apply wp_modify.
  apply wp_bind, wp_modify, wp_bind. eapply (wp_upd_if (sched_log_stats c)); [exact Hq|]. sched_cbn. set (q1 := if sched_log_stats c then _ else q).
  apply wp_bind. eapply wp_obj; [apply lookup_insert_eq|].
  assert (status q1 = status q ∧ request_id q1 = request_id q ∧ num_cached_tokens q1 = num_cached_tokens q) as (E1 & E2 & E3) by (unfold q1; by destruct (sched_log_stats c)).
  apply wp_bind. match goal with |- wp _ ?st _ => apply (wp_mono _ _ (λ kind s', s' = st ∧ (kind = false → status q = PREEMPTED))) end.
  { rewrite E1. destruct Hst as [-> | ->]; apply wp_ret; (split; [reflexivity|done]). }
  intros kind s1 [-> Hkind]. apply wp_bind, wp_gets, wp_bind. eapply wp_upd; [apply lookup_insert_eq|]. apply wp_bind. eapply wp_upd; [apply lookup_insert_eq|].
  apply wp_bind. eapply (wp_upd_if (num_cached_tokens q1 <? 0)); [apply lookup_insert_eq|]. apply wp_bind. sched_cbn. rewrite !insert_insert_eq, E2, E3.
  change (if num_cached_tokens q <? 0 then set_cached_tokens hit (set_num_computed hit (set_request_status RUNNING q1)) else set_num_computed hit (set_request_status RUNNING q1))
    with (admitted now hit q). set (q' := admitted now hit q) in *.
  eapply wp_obj; [apply lookup_insert_eq|]. apply wp_bind. pose proof Hsr as ((_ & _ & Emm & _) & _).
  apply wp_allocate_encoder; [done|unfold sized; by rewrite Emm|by eapply enc_plan_features|]. intros e' He'. apply wp_ret.
  match goal with |- waiting_phase _ _ _ _ _ _ ?v0 => set (v' := v0) end.
  set (o' := <[r := q']> (objs s)) in *.
  assert (o' !! r = Some q') as Hq' by apply lookup_insert_eq. pose proof (frame_id _ _ Hf) as Eid.
  destruct (plan_add o' (running s) (running s ++ [r]) prev v v' r q' n inputs (get_blocks (request_id q) k')) as [Hplan' Etok]; try done; try lia.
  { by eapply plan_frame. }
  { intros x Hx. apply elem_of_app. by left. }
  { apply elem_of_app. right. left. }
  { intros x Hx. rewrite (same_frame_id _ _ _ Hs), Eid. auto. }
  { intros i Hi. destruct Hep as (Hep & _). rewrite Emm. apply Hep, elem_of_app. by left. }
  { unfold scheduled, v'. locals_cbn. destruct kind; rewrite <-?app_assoc; cbn; by rewrite <-!Permutation_middle, ?app_nil_r. }
  { by rewrite Eid. }
  { by rewrite Eid. }
  { by rewrite Eid. }
  { unfold v'. locals_cbn. destruct kind; [by left|]. intros x [Hx| ->%list_elem_of_singleton]%elem_of_app; [by left|right]. split; [done|].
    intros Hin. rewrite Eid in Hin. specialize (Hresume r (request_id q) Hr). rewrite Hq in Hresume. cbn in Hresume. rewrite (Hkind eq_refl) in Hresume.
    specialize (Hresume eq_refl Hin). rewrite Hpre in Hresume. by apply not_elem_of_nil in Hresume. }
  assert (l_tokens v' = OD.set (request_id q) n (l_tokens v)) as Etok' by done.
  assert (∀ x, x ∈ wl' ++ sk → x ≠ r) as Hne.
  { rewrite Hwl in C2. apply NoDup_cons in C2 as [C2 _]. intros x Hx ->. apply C2, elem_of_app. by left. }
  split; sched_cbn; fold o'; rewrite ?(same_frame_attrs _ _ Hs); try done. split; sched_cbn; fold o'; try done.
  - eapply core_enc; [|exact He']. eapply (core_admit _ ql_sub); [exact Hc| |exact Hq|exact Hf|by apply (req_ok_same _ _ hl_content)|exact Ek|exact Hk| |].
    + by rewrite Hwl.
    + split; [done|]. exists N', T'. rewrite Eid, lookup_insert_eq, Hcomp, Etok', tokens_of_set, decide_True by done. assert (num_tokens q' = num_tokens q) as ->.
      { destruct Hsr as ((E & _) & _). unfold num_tokens. by rewrite E. }
      split_and!; [done|lia..].
    + intros y Hy. by rewrite Etok', tokens_of_set, decide_False by (by apply not_eq_sym).
  - intros x rid Hx. unfold o'. rewrite lookup_insert_ne by (apply not_eq_sym; auto). apply Hresume. rewrite Hwl. by right.
  - rewrite length_app. cbn. lia.
Qed.

Lemma waiting_num_new_range q hit : 0 ≤ hit < num_tokens q → 0 < Sched.waiting_num_new c q hit ≤ num_tokens q - hit.
Proof. intros Hh. unfold Sched.waiting_num_new. destruct ((0 <? _) && _) eqn:E; [apply andb_prop in E as [?%Z.ltb_lt ?%Z.ltb_lt]|]; lia. Qed.

Lemma waiting_kv prev s wl skipped sk L v k' : waiting_phase prev s wl skipped sk L v → kv_cfg k' = kv_cfg (kv_cache_manager s) → kv_inv k' L →
  waiting_phase prev (Sched.set_kv k' s) wl skipped sk L v.
Proof. intros [[] ? ? ?] ? ?. split; sched_cbn; try done. split; sched_cbn; try done. by eapply core_kv. Qed.
Lemma waiting_enc prev s wl skipped sk L v e' : waiting_phase prev s wl skipped sk L v → enc_inv size e' → waiting_phase prev (Sched.set_enc e' s) wl skipped sk L v.
Proof. intros [? ? ? ?] ?. split; try done. by apply phase_enc. Qed.

(** The number of tokens to schedule *)
Lemma wp_plan_waiting prev s wl skipped sk L v q hit : waiting_phase prev s wl skipped sk L v → qok q → 0 ≤ hit < num_tokens q → 0 < l_budget v →
  wp (Sched.plan_waiting (T := T) c None q hit 0 false v) s (λ p s', ∃ e', s' = Sched.set_enc e' s ∧ enc_inv size e' ∧
    match p with None => True | Some (inputs, n, nb, external) => enc_plan size q (inputs ++ external) e' ∧ 0 ≤ n ≤ num_tokens q - hit ∧ n ≤ l_budget v ∧
      (has_encoder_inputs q = false → 0 < n) end).
Proof.
  intros [Hph _ _ _] Hok Hhit Hb. pose proof (co_enc _ _ _ _ _ _ _ _ _ _ _ _ _ _ (ph_core _ _ _ _ _ Hph)) as He. unfold Sched.plan_waiting.
  pose proof (waiting_num_new_range q hit Hhit) as Hn. set (n0 := Sched.waiting_num_new c q hit) in *. destruct (negb (enable_chunked_prefill c) && _).
  { apply wp_ret. exists (encoder_cache_manager s). by rewrite set_enc_id. }
  apply wp_bind, wp_assert; [apply Z.ltb_lt; lia|]. destruct (has_encoder_inputs q).
  - apply wp_bind. eapply wp_mono; [apply wp_try_encoder; [done|done|lia]|]. intros [[[inputs n] nb] external] s' (e' & -> & ? & ? & ?). cbn [fst snd] in *.
    apply wp_ret. exists e'. split_and!; try done; lia.
  - apply wp_ret. exists (encoder_cache_manager s). rewrite set_enc_id. split_and!; try done; try lia. by apply enc_plan_nil.
Qed.

Lemma wp_waiting_step prev s wl skipped sk L v now : waiting_phase prev s wl skipped sk L v → wl ≠ [] → 0 < l_budget v →
  Z.of_nat (length (running s)) < max_num_running_reqs c →
  wp (Sched.waiting_step queue c None None structured now v skipped) s (λ x s', ∃ wl' sk' L', waiting_phase prev s' wl' x.2 sk' L' x.1.2 ∧
    (x.1.1 = true → (length wl' < length wl)%nat)).
Proof.
  intros Hw Hne Hb Hlt. destruct (ql_head _ _ wl (wp_rep _ _ _ _ _ _ _ Hw) Hne) as (r & wq' & wl' & Hpeek & Hpop & Hwl & Hwq). unfold Sched.waiting_step.
  apply wp_bind, wp_on_waiting. unfold wp at 1. rewrite Hpeek. replace (Sched.set_waiting (waiting s) s) with s by (by destruct s).
  assert (r ∈ wl ++ sk) as Hr by (rewrite Hwl; left). pose proof Hw as [[Hc _ _ _ _] _ _ _].
  assert (r ∈ (wl ++ sk) ++ running s) as Hr' by (apply elem_of_app; by left).
  destruct (co_req _ _ _ _ _ _ _ _ _ _ _ _ _ _ Hc r Hr') as (q & Hq & _).
  apply wp_bind. eapply wp_mono; [apply (wp_admissible prev s wl skipped sk L v r q Hw Hr Hq); by apply (co_wait _ _ _ _ _ _ _ _ _ _ _ _ _ _ Hc r)|].
  intros ok s1 (q1 & Hw1 & Hq1 & Erun1 & Ewait1 & Eattr1 & Hwait1 & Hst1). clear q Hq Hc. rewrite <-Eattr1, <-Ewait1 in Hpop. rewrite <-Eattr1 in Hwq.
  rewrite <-Erun1 in Hlt, Hr'. destruct ok; cbn [negb].
  2:{ apply wp_bind. eapply wp_mono; [by apply (wp_skip prev s1 wl skipped sk L v r wq' wl')|]. intros sk2 s2 (wl2 & l2 & ? & ?). apply wp_ret. by exists wl2, l2, L. }
  specialize (Hst1 eq_refl). destruct Hwait1 as (_ & Hcomp & HL). pose proof Hw1 as [[Hc1 _ _ _ _] _ _ _].
  destruct (co_req _ _ _ _ _ _ _ _ _ _ _ _ _ _ Hc1 r Hr') as (q0 & Hq0 & Hok). assert (q0 = q1) as -> by congruence. clear Hq0.
  pose proof Hc1 as [_ _ _ _ _ _ _ _ C9 C10 _].
  apply wp_bind. unfold Sched.find_computed. apply wp_bind. eapply wp_obj; [exact Hq1|]. rewrite bool_decide_true by done. apply wp_bind, wp_on_kv.
  eapply wp_mono; [apply (wp_kv_get _ L q1); [done|by apply qok_request]|]. intros [kb hit] k2 (Ek2 & Hk2 & Hhit & Hkb). cbn [fst snd] in *. apply wp_ret.
  pose proof (waiting_kv _ _ _ _ _ _ _ k2 Hw1 Ek2 Hk2) as Hw2. apply wp_bind. eapply wp_obj; [exact Hq1|]. apply wp_bind.
  eapply wp_mono; [apply (wp_plan_waiting prev _ wl skipped sk L v q1 hit Hw2 Hok); lia|]. intros plan s3 (e' & -> & He' & Hplan).
  pose proof (waiting_enc _ _ _ _ _ _ _ e' Hw2 He') as Hw3. destruct plan as [[[[inputs n] nb] external]|].
  2:{ apply wp_bind. eapply wp_mono; [by apply (wp_skip prev _ wl skipped sk L v r wq' wl')|]. intros sk2 s2 (wl2 & l2 & ? & ?). apply wp_ret. by exists wl2, l2, L. }
  destruct Hplan as (Hep & Hn & Hnb & Hpos). cbn [negb andb]. destruct (has_encoder_inputs q1 && bool_decide (n = 0)) eqn:Ezero.
  { apply wp_ret. by exists wl, sk, L. }
  assert (0 < n) as Hn0.
  { destruct (has_encoder_inputs q1); [|auto]. cbn [andb] in Ezero. apply bool_decide_eq_false in Ezero. lia. }
  rewrite (cp_encdec Hplain), bool_decide_true by done. cbn [andb]. apply wp_bind, wp_on_kv. sched_cbn. rewrite Z.add_0_r.
  eapply wp_mono; [apply (wp_kv_admit k2 L q1 n 0 kb hit); [done| |done|done|done|lia|lia|done]|].
  { apply qok_request; [congruence|done]. }
  intros [b|] k4 [Ek4 Hk4].
  2:{ apply wp_ret. exists wl, sk, L. split; [|done]. by apply (waiting_kv _ _ _ _ _ _ _ k4 Hw3). }
  apply wp_bind, wp_gets, wp_bind, wp_ret, wp_bind, wp_on_waiting. sched_cbn. unfold wp at 1. rewrite Hpop. apply wp_bind.
  match type of Hk4 with kv_inv _ (<[_ := (?N, ?T0)]> L) => set (N0 := N) in *; set (T1 := T0) in * end.
  eapply wp_mono; [apply (wp_start_running prev (Sched.set_enc e' (Sched.set_kv k2 s1)) wl wl' wq' skipped sk L v now r q1 n hit inputs external nb k4 N0 T1 Hw3); try done; try lia|].
  { unfold T1, tokens_to_cache. rewrite Hcomp. lia. }
  intros v' s5 Hw5. apply wp_ret. exists wl', sk, (<[request_id q1 := (N0, T1)]> L). split; [done|]. intros _. apply Permutation_length in Hwl. cbn in Hwl. lia.
Qed.

Lemma wp_waiting_loop prev now fuel : ∀ s wl skipped sk L v, waiting_phase prev s wl skipped sk L v → (length wl < fuel)%nat →
  wp (Sched.waiting_loop queue c None None structured fuel now v skipped) s (λ x s', ∃ wl' sk' L', waiting_phase prev s' wl' x.2 sk' L' x.1).
Proof.
  induction fuel as [|fuel IH]; intros s wl skipped sk L v Hw Hfuel; [lia|]. cbn [Sched.waiting_loop]. apply wp_bind, wp_gets.
  rewrite (ql_len _ _ _ (wp_rep _ _ _ _ _ _ _ Hw)). destruct (bool_decide (length wl = 0%nat) || (l_budget v <=? 0)) eqn:E; [apply wp_ret; by exists wl, sk, L|].
  apply orb_false_iff in E as [E1%bool_decide_eq_false E2%Z.leb_gt]. case_bool_decide as E3; [apply wp_ret; by exists wl, sk, L|].
  pose proof (ph_len _ _ _ _ _ (wp_phase _ _ _ _ _ _ _ Hw)) as Hlen. apply wp_bind.
  eapply wp_mono; [apply (wp_waiting_step prev s wl skipped sk L v now Hw); [by intros ->|lia|lia]|].
  intros [[more v'] skipped'] s' (wl' & sk' & L' & Hw' & Hless). cbn [fst snd] in *. destruct more; [|apply wp_ret; by exists wl', sk', L'].
  apply (IH s' wl' skipped' sk' L' v' Hw'). specialize (Hless eq_refl). lia.
Qed.

(** ** The output of a step *)

Lemma wp_mapM {A B} (f : A → M scheduler B) (P : A → B → Prop) l s : (∀ x, x ∈ l → wp (f x) s (λ y s', s' = s ∧ P x y)) →
  wp (Sched.mapM_ f l) s (λ ys s', s' = s ∧ Forall2 P l ys).
Proof.
  induction l as [|x l IH]; intros Hf; cbn [Sched.mapM_]; [by apply wp_ret|]. apply wp_bind. eapply wp_mono; [apply Hf; left|]. intros y s' [-> Hy].
  apply wp_bind. eapply wp_mono; [apply IH; intros z Hz; apply Hf; by right|]. intros ys s' [-> Hys]. apply wp_ret. auto.
Qed.

(** A scheduled request *)
Lemma plan_request prev s wl L v r : phase prev s wl L v → r ∈ scheduled v → ∃ q n b, objs s !! r = Some q ∧
  OD.get (request_id q) (l_tokens v) = Some n ∧ l_blocks v !! request_id q = Some b.
Proof.
  intros [Hc _ _ _ Hpl] Hr. destruct (co_req _ _ _ _ _ _ _ _ _ _ _ _ _ _ Hc r) as (q & Hq & _); [apply elem_of_app; right; by apply (pv_sub _ _ _ _ Hpl)|].
  assert (request_id q ∈ (l_tokens v).*1) as Hk by (apply (pv_keys _ _ _ _ Hpl); exists r; by rewrite Hq). destruct (pv_blocks _ _ _ _ Hpl _ Hk) as [b Hb].
  apply list_elem_of_fmap in Hk as ([rid n] & E & Hin). cbn in E. subst rid. exists q, n, b. split_and!; [done| |done]. by apply OD.get_Some; [apply Hpl|].
Qed.

Lemma wp_new_request_data prev s wl L v r : phase prev s wl L v → r ∈ scheduled v →
  wp (Sched.new_request_data c v r) s (λ d s', s' = s ∧ Some (nd_req_id d) = request_id <$> objs s !! r).
Proof.
  intros Hph Hr. destruct (plan_request _ _ _ _ _ r Hph Hr) as (q & n & b & Hq & _ & Hb). unfold Sched.new_request_data. apply wp_bind. eapply wp_obj; [done|].
  apply wp_bind. unfold Sched.new_block_ids. apply wp_bind, wp_gets. rewrite Hb. apply wp_ret, wp_ret. by rewrite Hq.
Qed.

Lemma wp_cached_request_entry prev s wl L v x : phase prev s wl L v → x.2 ∈ scheduled v → (x.1 = true → x.2 ∈ l_resumed v) →
  wp (Sched.cached_request_entry v x) s (λ d s', s' = s ∧ Some (Sched.ce_req_id d) = request_id <$> objs s !! x.2).
Proof.
  intros Hph Hr Hres. destruct (plan_request _ _ _ _ _ x.2 Hph Hr) as (q & n & b & Hq & Hn & Hb). unfold Sched.cached_request_entry. apply wp_bind. eapply wp_obj; [done|].
  rewrite Hn. apply wp_bind, wp_ret, wp_bind, wp_gets, wp_bind, wp_assert.
  { apply negb_true_iff, andb_false_iff. destruct x.1; [right|by left]. apply bool_decide_eq_false. rewrite (proj1 (ph_prev _ _ _ _ _ Hph)).
    apply (pv_resumed _ _ _ _ (ph_plan _ _ _ _ _ Hph) x.2); [auto|by rewrite Hq]. }
  apply wp_bind. unfold Sched.new_block_ids. apply wp_bind, wp_gets. rewrite Hb. apply wp_ret, wp_ret. by rewrite Hq.
Qed.

(** The requests of an output *)
Definition output_reqs (out : SchedulerOutput T) : list string := (nd_req_id <$> scheduled_new_reqs out) ++ cd_req_ids (scheduled_cached_reqs out).

Lemma ids_of_scheduled prev s wl L v l ids : phase prev s wl L v → l ≡ₚ scheduled v → Forall2 (λ r rid, Some rid = request_id <$> objs s !! r) l ids →
  ids ≡ₚ (l_tokens v).*1.
Proof.
  intros Hph Hl Hids. pose proof Hph as [Hc _ _ _ Hpl]. pose proof Hpl as [P1 P2 P3 P4 _ _ _ _ _ _ _ _].
  assert (∀ r r', r ∈ l → r' ∈ l → request_id <$> objs s !! r = request_id <$> objs s !! r' → r = r') as Hinj.
  { intros r r' Hr Hr' E. rewrite Hl in Hr, Hr'. apply P2 in Hr, Hr'. assert (r ∈ wl ++ running s ∧ r' ∈ wl ++ running s) as [H1 H2] by (rewrite !elem_of_app; auto).
    destruct (co_req _ _ _ _ _ _ _ _ _ _ _ _ _ _ Hc r H1) as (q & Hq & _), (co_req _ _ _ _ _ _ _ _ _ _ _ _ _ _ Hc r' H2) as (q' & Hq' & _).
    rewrite Hq, Hq' in E. injection E as E. by eapply (core_unique _ _ _ _ _ _ _ _ _ _ _ _ _ _ r r' q q' Hc). }
  apply NoDup_Permutation; [|done|].
  - rewrite <-Hl in P1. clear -Hids P1 Hinj. induction Hids as [|r rid l ids E Hids IH]; [constructor|]. apply NoDup_cons in P1 as [Hr P1]. apply NoDup_cons. split.
    + intros [i Hi]%list_elem_of_lookup. destruct (Forall2_lookup_r _ _ _ _ _ Hids Hi) as (r' & Hr'%list_elem_of_lookup_2 & E'). apply Hr.
      assert (r = r') as ->; [|done]. apply Hinj; [left|by right|congruence].
    + apply IH; [done|]. intros x x' Hx Hx'. apply Hinj; by right.
  - intros rid. rewrite P3. setoid_rewrite <-Hl. split.
    + intros [i Hi]%list_elem_of_lookup. destruct (Forall2_lookup_r _ _ _ _ _ Hids Hi) as (r & Hr%list_elem_of_lookup_2 & E). by exists r.
    + intros (r & [i Hi]%list_elem_of_lookup & E). destruct (Forall2_lookup_l _ _ _ _ _ Hids Hi) as (rid' & Hr%list_elem_of_lookup_2 & E'). congruence.
Qed.

Lemma wp_make_output prev s wl L v : phase prev s wl L v → rep (attributes (objs s)) (waiting s) wl →
  wp (Sched.make_output (T := T) c v) s (λ out s', num_scheduled_tokens out = l_tokens v ∧ total_num_scheduled_tokens out = zsum (l_tokens v).*2 ∧
    scheduled_spec_decode_tokens out = ∅ ∧ output_reqs out ≡ₚ (l_tokens v).*1 ∧ (∃ k' e', s' = Sched.set_enc e' (Sched.set_prev_step (list_to_set (l_tokens v).*1) (Sched.set_kv k' s)) ∧
    kv_cfg k' = kv_cfg (kv_cache_manager s) ∧ kv_inv k' L ∧ enc_inv size e')).
Proof.
  intros Hph Hrep. pose proof Hph as [Hc Hprev Hresume Hlen Hplan]. pose proof Hplan as [P1 P2 P3 P4 P5 P6 P7 P8 P9 P10 P11 P12]. unfold Sched.make_output.
  apply wp_bind, wp_assert; [apply Z.leb_le; lia|]. apply wp_bind, wp_assert; [by apply Z.leb_le|]. apply wp_bind, wp_gets.
  apply wp_bind, wp_assert; [by apply Z.leb_le|]. apply wp_bind, wp_assert.
  { apply Nat.leb_le. assert (length (scheduled v) ≤ length (running s))%nat as H.
    { apply submseteq_length, NoDup_submseteq; [done|]. exact P2. }
    unfold scheduled in H. rewrite !length_app in H. lia. }
  apply wp_bind. apply (wp_mono _ _ (λ _ s', ∃ k', s' = Sched.set_kv k' s ∧ kv_cfg k' = kv_cfg (kv_cache_manager s) ∧ kv_inv k' L)).
  { destruct (running s) as [|r l] eqn:Erun.
    - apply wp_ret. exists (kv_cache_manager s). split_and!; [by destruct s|done|apply Hc].
    - apply wp_bind. unfold Sched.id_of. destruct (co_req _ _ _ _ _ _ _ _ _ _ _ _ _ _ Hc r) as (q & Hq & _); [apply elem_of_app; right; left|].
      apply wp_bind. eapply wp_obj; [done|]. apply wp_ret, wp_on_kv. eapply wp_mono; [apply (wp_kv_common _ L); apply Hc|]. intros ? k' [? ?]. by exists k'. }
  intros common s1 (k' & -> & Ek & Hk). assert (phase prev (Sched.set_kv k' s) wl L v) as Hph1 by (split; sched_cbn; try done; by eapply core_kv).
  apply wp_bind. eapply wp_mono; [apply (wp_mapM _ (λ r d, Some (nd_req_id d) = request_id <$> objs s !! r))|].
  { intros r Hr. apply (wp_new_request_data prev _ wl L v r Hph1). unfold scheduled. apply elem_of_app. right.
    destruct (use_v2_model_runner c); [done|apply elem_of_app; by left]. }
  intros new s2 [-> Hnew]. apply wp_bind. unfold Sched._make_cached_request_data. apply wp_bind. eapply wp_mono; [apply (wp_mapM _ (λ x d, Some (Sched.ce_req_id d) = request_id <$> objs s !! x.2))|].
  { intros [b r] Hr. apply (wp_cached_request_entry prev _ wl L v (b, r) Hph1); cbn [fst snd].
    - unfold scheduled. apply elem_of_app in Hr as [(r' & [= _ ->] & Hr)%list_elem_of_fmap|(r' & [= _ ->] & Hr)%list_elem_of_fmap]; apply elem_of_app; [by left|right].
      destruct (use_v2_model_runner c); [by apply not_elem_of_nil in Hr|]. apply elem_of_app. by right.
    - intros ->. apply elem_of_app in Hr as [(r' & [=] & Hr)%list_elem_of_fmap|(r' & [= ->] & Hr)%list_elem_of_fmap].
      destruct (use_v2_model_runner c); [by apply not_elem_of_nil in Hr|done]. }
  intros ces s2 [-> Hces]. apply wp_ret, wp_bind, wp_modify, wp_bind. eapply wp_mono; [apply (wp_mapM _ (λ _ _, True))|].
  { intros r Hr. destruct (P12 r Hr) as [q Hq]. unfold Sched.id_of. apply wp_bind. eapply wp_obj; [exact Hq|]. by apply wp_ret. }
  intros pre s2 [-> _]. apply wp_bind, wp_gets, wp_bind, wp_on_enc. unfold get_freed_mm_hashes. apply wp_bind, wp_gets, wp_bind, wp_modify, wp_ret, wp_ret. cbn [num_scheduled_tokens total_num_scheduled_tokens scheduled_spec_decode_tokens].
  split_and!; [done|done|done| |].
  { unfold output_reqs. cbn [scheduled_new_reqs scheduled_cached_reqs cd_req_ids].
    eapply (ids_of_scheduled prev _ wl L v ((if use_v2_model_runner c then l_new v ++ l_resumed v else l_new v) ++
      (l_running v ++ (if use_v2_model_runner c then [] else l_resumed v))) _ Hph1).
    - unfold scheduled. destruct (use_v2_model_runner c); [rewrite app_nil_r|]; [by rewrite Permutation_app_comm|]. by rewrite Permutation_app_swap_app.
    - apply Forall2_app; [by apply Forall2_fmap_r|]. apply Forall2_fmap_r. apply (Forall2_fmap_l snd (λ r d, Some (Sched.ce_req_id d) = request_id <$> objs s !! r)) in Hces.
      rewrite fmap_app, <-!list_fmap_compose in Hces. unfold compose in Hces. cbn in Hces. rewrite !list_fmap_id in Hces. exact Hces. }
  exists k'. eexists. split_and!; [reflexivity|done|done|]. sched_cbn. destruct (co_enc _ _ _ _ _ _ _ _ _ _ _ _ _ _ Hc). by split.
Qed.

End step.

(** ** A whole step *)

(** The invariant between two calls *)
Definition sched_ok s : Prop := ∃ wl L, core_at s wl (running s) L [] ∧ rep (attributes (objs s)) (waiting s) wl ∧
  Z.of_nat (length (running s)) ≤ max_num_running_reqs c ∧
  ∀ x rid, x ∈ wl → (λ q, (request_id q, status q)) <$> objs s !! x = Some (rid, PREEMPTED) → rid ∉ prev_step_scheduled_req_ids s.

(** The tokens given in a step become computed tokens of running requests. *)
Definition advanced s (x : string * Z) : Prop :=
  ∃ r q, r ∈ running s ∧ requests s !! x.1 = Some r ∧ objs s !! r = Some q ∧ 0 < x.2 ≤ num_computed_tokens q.

Record ticking wl L s0 s (rest : list (string * Z)) : Prop := {
  tk_core : core_at s wl (running s) L rest;
  tk_frame : same_frame (objs s0) (objs s);
  tk_status x : status <$> objs s !! x = status <$> objs s0 !! x;
  tk_same : running s = running s0 ∧ requests s = requests s0 ∧ waiting s = waiting s0 ∧ prev_step_scheduled_req_ids s = prev_step_scheduled_req_ids s0;
}.

Lemma wp_tick wl L s0 s rid n rest : ticking wl L s0 s ((rid, n) :: rest) → NoDup ((rid, n) :: rest).*1 → 0 < n →
  (∃ r, r ∈ running s0 ∧ request_id <$> objs s0 !! r = Some rid) →
  wp (s ← get; match requests s !! (rid, n).1 with
      | None => raise KeyError
      | Some r => Sched.upd r (λ request, set_num_computed (num_computed_tokens request + (rid, n).2) request) ;;
          request ← Sched.obj r;
          if has_encoder_inputs request then Sched.on_enc (EncoderCache._free_encoder_inputs set_iter (is_encoder_decoder c) request) else mret ()
      end) s (λ _ s', ticking wl L s0 s' rest ∧ advanced s' (rid, n) ∧ ∀ x, x.1 ≠ rid → advanced s x → advanced s' x).
Proof.
  intros [Hc Hs Hst (E1 & E2 & E3 & E4)] Hnd Hn (r & Hr & Hid). rewrite <-(same_frame_id _ _ _ Hs) in Hid. rewrite <-E1 in Hr. apply wp_bind, wp_gets. cbn [fst snd].
  assert (requests s !! rid = Some r) as Hrid by (apply (co_ids _ _ _ _ _ _ _ _ _ _ _ _ _ _ Hc); split; [apply elem_of_app; by right|done]). rewrite Hrid.
  destruct (objs s !! r) as [q|] eqn:Hq; [|done]. injection Hid as Hid. subst rid. apply wp_bind. eapply wp_upd; [exact Hq|]. apply wp_bind.
  eapply wp_obj; [apply lookup_insert_eq|]. set (q' := set_num_computed (num_computed_tokens q + n) q).
  pose proof (core_tick _ _ _ hl_content _ _ _ _ _ _ _ _ _ _ _ r q n Hc Hnd Hr Hq) as Hc'. fold q' in Hc'.
  assert (advanced (Sched.set_objs (<[r := q']> (objs s)) s) (request_id q, n)) as Hadv.
  { exists r, q'. sched_cbn. rewrite lookup_insert_eq. cbn. split_and!; try done. destruct (co_run _ _ _ _ _ _ _ _ _ _ _ _ _ _ Hc r q Hr Hq) as (_ & _ & _ & _ & ? & _). lia. }
  assert (∀ x, x.1 ≠ request_id q → advanced s x → advanced (Sched.set_objs (<[r := q']> (objs s)) s) x) as Hother.
  { intros x Hne (r' & y & Hr' & Hx & Hy & Hpos). exists r', y. sched_cbn. rewrite lookup_insert_ne; [done|]. intros <-.
    apply (co_ids _ _ _ _ _ _ _ _ _ _ _ _ _ _ Hc) in Hx as [_ Hx]. rewrite Hq in Hx. injection Hx. auto. }
  assert (ticking wl L s0 (Sched.set_objs (<[r := q']> (objs s)) s) rest) as Htick.
  { split; sched_cbn; try done.
    - eapply same_frame_trans; [exact Hs|]. by eapply same_frame_insert.
    - intros x. rewrite <-Hst. destruct (decide (x = r)) as [->|Hne]; [by rewrite lookup_insert_eq, Hq|by rewrite lookup_insert_ne]. }
  destruct (has_encoder_inputs q'); [|by apply wp_ret]. apply wp_on_enc.
  eapply wp_mono; [apply (wp_free_encoder_inputs size set_iter set_iter_perm); [apply Hc|]|].
  { destruct (co_req _ _ _ _ _ _ _ _ _ _ _ _ _ _ Hc r) as (q0 & Hq0 & Hok); [apply elem_of_app; by right|]. assert (q0 = q) as -> by congruence. by apply Hok. }
  intros [] e' [He' _]. split_and!; [|done|done]. destruct Htick. split; try done. by eapply core_enc.
Qed.

Lemma wp_update_after prev s wl L (out : SchedulerOutput T) v : plan_inv (objs s) (running s) prev v → num_scheduled_tokens out = l_tokens v →
  core_at s wl (running s) L (l_tokens v) →
  wp (Sched._update_after_schedule c set_iter out) s (λ out' s', out' = out ∧ ticking wl L s s' [] ∧ ∀ x, x ∈ l_tokens v → advanced s' x).
Proof.
  intros Hplan Eout Hc. unfold Sched._update_after_schedule. rewrite (cp_async Hplain). apply wp_bind.
  apply (wp_mono _ _ (λ _ s', ticking wl L s s' [] ∧ ∀ x, x ∈ l_tokens v → advanced s' x)); [|intros [] s' ?; by apply wp_ret].
  unfold Sched.update_after_schedule. apply wp_bind. rewrite Eout.
  apply (wp_for_each (λ fin s', ∀ rest, l_tokens v = fin ++ rest → ticking wl L s s' rest ∧ ∀ x, x ∈ fin → advanced s' x)).
  - intros rest E. cbn in E. subst rest. split; [by split|]. by intros x ?%not_elem_of_nil.
  - intros fin [rid n] rest s' E Hfin. destruct (Hfin _ E) as [Htick Hadv]. pose proof (pv_unique _ _ _ _ Hplan) as Hnd. rewrite E, fmap_app in Hnd.
    apply NoDup_app in Hnd as (_ & Hdis & Hnd). eapply wp_mono; [apply (wp_tick wl L s s' rid n rest Htick Hnd)|].
    + apply (pv_pos _ _ _ _ Hplan (rid, n)). rewrite E. apply elem_of_app. right. left.
    + destruct (proj1 (pv_keys _ _ _ _ Hplan rid)) as (r & Hr & Hid); [rewrite E, fmap_app; apply elem_of_app; right; left|]. exists r. split; [by apply (pv_sub _ _ _ _ Hplan)|done].
    + intros [] s'' (Ht & Ha & Ho) rest' E'. rewrite E, <-app_assoc in E'. apply app_inv_head in E'. cbn in E'. injection E' as <-. split; [done|].
      intros x [Hx| ->%list_elem_of_singleton]%elem_of_app; [|done]. apply Ho; [|auto]. intros Ex. apply (Hdis x.1); [by apply list_elem_of_fmap_2|]. rewrite Ex. left.
  - intros s' Hall. destruct (Hall []) as [Ht Ha]; [by rewrite app_nil_r|]. apply wp_modify. split; [|done]. by destruct Ht.
Qed.

(** What a step promises: the tokens of the output go to different running requests and
    become computed tokens; they fit the budget; the output describes exactly the requests
    that get tokens; no request is lost. *)
Record schedule_ok s (out : SchedulerOutput T) s' : Prop := {
  sk_unique : NoDup (num_scheduled_tokens out).*1;
  sk_total : total_num_scheduled_tokens out = zsum (num_scheduled_tokens out).*2 ∧ total_num_scheduled_tokens out ≤ max_num_scheduled_tokens c;
  sk_output : output_reqs out ≡ₚ (num_scheduled_tokens out).*1;
  sk_advanced x : x ∈ num_scheduled_tokens out → advanced s' x;
  sk_spec : scheduled_spec_decode_tokens out = ∅;
  sk_requests : requests s' = requests s;
}.

Lemma phase_start s wl L : core_at s wl (running s) L [] → Z.of_nat (length (running s)) ≤ max_num_running_reqs c →
  (∀ x rid, x ∈ wl → (λ q, (request_id q, status q)) <$> objs s !! x = Some (rid, PREEMPTED) → rid ∉ prev_step_scheduled_req_ids s) →
  phase (requests s) (prev_step_scheduled_req_ids s) s wl L (Sched.new_locals c).
Proof.
  intros Hc Hlen Hresume. split; try done; [intros x rid Hx E Hin; by destruct (Hresume x rid Hx E)|]. pose proof (cp_tokens Hplain).
  split; unfold scheduled; locals_cbn; cbn [app fmap list_fmap]; try done; try constructor; try (by intros ? ?%not_elem_of_nil).
  - by intros ?%not_elem_of_nil.
  - by intros (r & ?%not_elem_of_nil & _).
  - cbn. unfold zsum. cbn. lia.
  - intros r rid Hr. by apply not_elem_of_nil in Hr.
Qed.

(** After both loops all waiting requests are in the queue. *)
Lemma wp_loops now s wl L : core_at s wl (running s) L [] → rep (attributes (objs s)) (waiting s) wl → Z.of_nat (length (running s)) ≤ max_num_running_reqs c →
  (∀ x rid, x ∈ wl → (λ q, (request_id q, status q)) <$> objs s !! x = Some (rid, PREEMPTED) → rid ∉ prev_step_scheduled_req_ids s) →
  wp (v ← Sched.running_loop queue c (T := T) None set_iter (S (length (running s))) now (Sched.new_locals c);
      loras ← Sched.running_loras c v;
      let v := mkLocals (l_new v) (l_resumed v) (l_running v) (l_preempted v) (l_blocks v) (l_tokens v) (l_budget v)
                 (l_enc_inputs v) (l_enc_budget v) (l_spec v) (l_index v) loras in
      s ← get;
      if bool_decide (l_preempted v = []) then
        Sched.waiting_loop queue c None None structured (S (queue_len (RequestQueue := queue (attributes (objs s))) (waiting s))) now v new_queue
      else mret (v, new_queue)) s (λ x s', ∃ wl' sk' L', phase (requests s) (prev_step_scheduled_req_ids s) s' (wl' ++ sk') L' x.1 ∧
        rep (attributes (objs s')) (waiting s') wl' ∧ rep (attributes (objs s')) x.2 sk').
Proof.
  intros Hc Hrep Hlen Hresume. apply wp_bind. eapply wp_mono; [apply (wp_running_loop (requests s) (prev_step_scheduled_req_ids s) now _ s wl L)|].
  { by apply phase_start. } { done. } { split; [done|]. intros x Hx. by apply not_elem_of_nil in Hx. } { done. } { cbn. lia. }
  intros v1 s1 (wl1 & L1 & Hph1 & Hrep1 & Hna1). unfold Sched.running_loras. apply wp_bind, wp_bind, wp_gets. rewrite (cp_loras Hplain). apply wp_ret.
  match goal with |- context [mret (?w, new_queue)] => set (v2 := w) end. cbv zeta.
  assert (phase (requests s) (prev_step_scheduled_req_ids s) s1 wl1 L1 v2) as Hph2 by (destruct Hph1 as [H1 H2 H3 H4 []]; split; [done..|]; by split).
  apply wp_bind, wp_gets. case_bool_decide as Hpre.
  - rewrite (ql_len _ _ _ Hrep1). eapply wp_mono; [apply (wp_waiting_loop (requests s) (prev_step_scheduled_req_ids s) now _ s1 wl1 new_queue [] L1 v2); [|lia]|].
    + split; [by rewrite app_nil_r|done|apply ql_new|done].
    + intros x s2 (wl2 & sk2 & L2 & [? ? ? _]). by exists wl2, sk2, L2.
  - apply wp_ret. exists wl1, [], L1. rewrite app_nil_r. split_and!; [done|done|apply ql_new].
Qed.

Lemma wp_schedule now s : sched_ok s →
  wp (Sched.schedule queue new_queue c None None structured set_iter now) s (λ out s', sched_ok s' ∧ schedule_ok s out s').
Proof.
  intros (wl0 & L0 & Hc0 & Hrep0 & Hlen0 & Hresume0). unfold Sched.schedule. apply wp_bind, wp_gets.
  pose proof (wp_loops now s wl0 L0 Hc0 Hrep0 Hlen0 Hresume0) as H. apply wp_bind_inv in H. apply wp_bind. eapply wp_mono; [exact H|]. clear H. intros v s1 H.
  apply wp_bind_inv in H. apply wp_bind. eapply wp_mono; [exact H|]. clear H. intros loras s2 H. cbv zeta in H |- *.
  apply wp_bind_inv in H. apply wp_bind. eapply wp_mono; [exact H|]. clear H. intros s3' s3 H. apply wp_bind. eapply wp_mono; [exact H|]. clear H v s1 s2 s3 s3' loras.
  intros [v skipped] s1 (wl & sk & L & Hph & Hrep & Hsk). cbn [fst snd] in *. apply wp_bind, wp_gets, wp_bind. rewrite (ql_len _ _ _ Hsk).
  apply (wp_mono _ _ (λ _ s2, phase (requests s) (prev_step_scheduled_req_ids s) s2 (sk ++ wl) L v ∧ rep (attributes (objs s2)) (waiting s2) (sk ++ wl))).
  { assert (phase (requests s) (prev_step_scheduled_req_ids s) s1 (sk ++ wl) L v) as Hph'.
    { destruct Hph as [H1 H2 H3 H4 H5]. split; try done; [by eapply (core_perm _ ql_sub); [apply Permutation_app_comm|done|exact H1]|].
      intros x rid. rewrite (Permutation_app_comm sk wl). apply H3. }
    case_bool_decide as E.
    - apply wp_ret. apply length_zero_iff_nil in E. by subst sk.
    - apply wp_on_waiting. eapply wp_mono; [apply (ql_prepend_all _ _ wl _ sk); [|done|done]|].
      + eapply ql_sub; [|apply Hph']. intros x Hx. apply elem_of_app. by left.
      + intros [] q' Hq'. split; [|done]. by destruct Hph'. }
  intros _ s2 [Hph2 Hrep2]. clear Hph Hrep Hsk. set (wl2 := sk ++ wl) in *. apply wp_bind. eapply wp_mono; [by apply (wp_make_output (requests s) (prev_step_scheduled_req_ids s) s2 wl2 L v)|].
  intros out s3 (Etok & Etot & Espec & Eout & k' & e' & -> & Ek & Hk & He). apply wp_bind. unfold Sched.attach_metadata. apply wp_bind, wp_ret, wp_bind, wp_ret, wp_ret.
  destruct Hph2 as [Hc Hprev Hresume Hlen Hplan]. set (out' := Sched.set_meta _ _ _). set (s3 := Sched.set_enc e' _).
  assert (core_at s3 wl2 (running s3) L (l_tokens v)) as Hc3 by (eapply core_enc; [|exact He]; by eapply core_kv).
  eapply wp_mono; [apply (wp_update_after (prev_step_scheduled_req_ids s) s3 wl2 L out' v Hplan); [done|exact Hc3]|].
  intros out'' s4 (-> & [Ht1 Ht2 Ht3 (E1 & E2 & E3 & E4)] & Hadv). split.
  - exists wl2, L. rewrite E1, E3, (same_frame_attrs _ _ Ht2). rewrite E1 in Ht1. split_and!; [done|done|done|]. intros x rid Hx Ex. rewrite E4.
    unfold s3. sched_cbn. rewrite elem_of_list_to_set. intros (r & Hr & Hid)%(pv_keys _ _ _ _ Hplan).
    apply (pv_sub _ _ _ _ Hplan) in Hr. destruct (objs s2 !! r) as [q|] eqn:Hq; [|done]. injection Hid as Hid.
    destruct (objs s4 !! x) as [q4|] eqn:Hq4; [|done]. injection Ex as Ex _. destruct (same_frame_lookup _ _ _ _ Ht2 Hq4) as (q3 & Hq3 & Ef). unfold s3 in Hq3. sched_cbn.
    assert (x = r) as ->. { eapply (core_unique _ _ _ _ _ _ _ _ _ _ _ _ _ _ x r q3 q Hc); [apply elem_of_app; by left|apply elem_of_app; by right|done|done|]. rewrite <-(frame_id _ _ Ef). congruence. }
    apply (co_nodup _ _ _ _ _ _ _ _ _ _ _ _ _ _) in Hc as (_ & Hc & _)%NoDup_app. by apply (Hc r).
  - split; unfold out'; cbn [num_scheduled_tokens total_num_scheduled_tokens scheduled_spec_decode_tokens Sched.set_meta]; rewrite ?Etok.
    + apply Hplan.
    + rewrite Etot. split; [done|]. destruct Hplan. lia.
    + exact Eout.
    + done.
    + done.
    + rewrite E2. apply Hprev.
Qed.

(** ** Tokens come back *)

Lemma append_fields t q q' : append_output_token_ids block_hasher (inl t) q = Ok q' → output_token_ids q' = output_token_ids q ++ [t] ∧
  all_token_ids q' = all_token_ids q ++ [t] ∧ frame q' = frame q ∧ status q' = status q ∧ num_computed_tokens q' = num_computed_tokens q ∧
  num_prompt_tokens q' = num_prompt_tokens q ∧ max_tokens q' = max_tokens q ∧ pooling_params q' = pooling_params q ∧
  sampling_params q' = sampling_params q ∧ spec_token_ids q' = spec_token_ids q ∧ num_output_placeholders q' = num_output_placeholders q.
Proof.
  unfold append_output_token_ids. destruct block_hasher as [h|]; [|intros [= <-]; by split_and!]. destruct (h _) as [hs|]; [|done]. intros [= <-]. by split_and!.
Qed.

Lemma check_stop_cases q sp t m b : pooling_params q = None → sampling_params q = Some sp → last (output_token_ids q) = Some t →
  (∃ st sr, check_stop q m b = Ok (true, set_status st sr q) ∧ status_is_finished st = true) ∨
  (check_stop q m b = Ok (false, q) ∧ (num_output_tokens q < sp_min_tokens sp ∨ num_tokens q < m ∧ num_output_tokens q < max_tokens q)).
Proof.
  intros Hp Hs Hl. unfold check_stop. rewrite Hp, Hs, Hl. destruct (Z.ltb_spec (num_output_tokens q) (sp_min_tokens sp)); [right; split; [done|by left]|].
  destruct (negb _ && _); [left; by do 2 eexists|]. case_bool_decide; [left; by do 2 eexists|].
  destruct ((m <=? num_tokens q) || (max_tokens q <=? num_output_tokens q)) eqn:E; [left; by do 2 eexists|]. right. split; [done|]. right.
  apply orb_false_iff in E. rewrite !Z.leb_gt in E. done.
Qed.

(** What an accepted token changes of a request that goes on *)
Record went_on q q' : Prop := {
  wo_ok : qok q';
  wo_frame : frame q' = frame q;
  wo_status : status q' = status q;
  wo_computed : num_computed_tokens q' = num_computed_tokens q;
  wo_tokens : num_tokens q ≤ num_tokens q';
}.

Lemma went_on_wait L q q' : went_on q q' → wait_ok L q → wait_ok L q'.
Proof. intros [? Hf Hs Hc ?] (? & ? & ?). unfold wait_ok. by rewrite Hs, Hc, (frame_id _ _ Hf). Qed.
Lemma went_on_run L q q' : went_on q q' → run_ok L [] q → run_ok L [] q'.
Proof.
  intros [? Hf Hs Hc ?] (? & N & T0 & ? & ? & ? & ? & ?). unfold run_ok, tokens_of in *. cbn in *. rewrite Hs, Hc, (frame_id _ _ Hf). split; [done|]. exists N, T0. split_and!; try done; lia.
Qed.

Lemma append_step t q : qok q → ∃ q1 b q2, append_output_token_ids block_hasher (inl t) q = Ok q1 ∧ check_stop q1 (sched_max_model_len c) false = Ok (b, q2) ∧
  frame q2 = frame q ∧ if b : bool then is_finished q2 = true else went_on q q2.
Proof.
  intros [H1 H2 H3 H4 H5 (H6 & sp & H7 & H8 & H9) H10 H11]. destruct (hl_append q t H1) as (q1 & E1 & Hgood).
  destruct (append_fields t q q1 E1) as (F1 & F2 & F3 & F4 & F5 & F6 & F7 & F8 & F9 & F10 & F11).
  assert (num_tokens q1 = num_tokens q + 1) as En by (unfold num_tokens; rewrite F2, length_app; cbn; lia).
  assert (num_output_tokens q1 = num_output_tokens q + 1) as Eo by (unfold num_output_tokens; rewrite F1, length_app; cbn; lia).
  destruct (check_stop_cases q1 sp t (sched_max_model_len c) false) as [(st & sr & E & Hst)|[E Hgo]]; [congruence|congruence|by rewrite F1, last_snoc|..].
  - exists q1, true, (set_status st sr q1). split_and!; [done|done|done|]. done.
  - exists q1, false, q1. split_and!; [done|done|done|]. split; [|done|done|done|lia]. unfold num_output_tokens, sized, sorted_inputs in *. injection F3 as _ _ _ F3.
    split; rewrite ?F3, ?F6, ?F7, ?F8, ?F9, ?F10, ?F11; try done.
    + unfold num_output_tokens in *. lia.
    + unfold num_output_tokens in *. lia.
    + unfold num_output_tokens in *. lia.
    + split; [done|]. by exists sp.
    + unfold sized, sorted_inputs. by rewrite F3.
Qed.

Lemma went_on_trans q q' q'' : went_on q q' → went_on q' q'' → went_on q q''.
Proof. intros [] []. split; (done || congruence || lia). Qed.

Lemma wp_append_tokens r tokens : ∀ kept s q, objs s !! r = Some q → qok q →
  wp (Sched.append_tokens c block_hasher r kept tokens) s (λ x s', ∃ q', s' = Sched.set_objs (<[r := q']> (objs s)) s ∧ frame q' = frame q ∧
    (if x.2 then is_finished q' = true else went_on q q') ∧ (kept ≠ [] ∨ tokens ≠ [] → x.1 ≠ [])).
Proof.
  induction tokens as [|t tokens IH]; intros kept s q Hq Hok; cbn [Sched.append_tokens].
  { apply wp_ret. exists q. rewrite insert_id by done. split_and!; [by destruct s|done|by split|by intros [?|?]]. }
  destruct (append_step t q Hok) as (q1 & b & q2 & E1 & E2 & Hf & Hb). apply wp_bind. eapply wp_obj; [done|]. rewrite E1. apply wp_bind, wp_ret, wp_bind.
  eapply wp_upd; [done|]. rewrite E2. apply wp_bind, wp_ret, wp_bind. cbn [fst snd]. eapply wp_upd; [apply lookup_insert_eq|]. sched_cbn. rewrite insert_insert_eq.
  assert (kept ++ [t] ≠ []) as Hne by (by destruct kept). destruct b.
  - apply wp_ret. exists q2. cbn [fst snd]. split_and!; done.
  - eapply wp_mono; [apply (IH (kept ++ [t]) _ q2); [apply lookup_insert_eq|apply Hb]|]. intros [ks st] s' (q' & -> & Hf' & Hx & Hk). cbn [fst snd] in *. exists q'.
    sched_cbn. rewrite insert_insert_eq. split_and!; [done|congruence| |auto]. destruct st; [done|]. by eapply went_on_trans.
Qed.

(** ** A finished request is freed *)

Record freed_request (s s' : scheduler) (rid : string) : Prop := {
  fr_objs : objs s' = objs s;
  fr_waiting : waiting s' = waiting s;
  fr_running : running s' = running s;
  fr_prev : prev_step_scheduled_req_ids s' = prev_step_scheduled_req_ids s;
  fr_requests : requests s' = delete rid (requests s);
  fr_finished : finished_req_ids s' = {[rid]} ∪ finished_req_ids s;
}.

Lemma wp_free_request s o wl run L r q q' wl' run' : inv o (next_ref s) (requests s) (kv_cache_manager s) (encoder_cache_manager s) wl run L [] →
  objs s = <[r := q']> o → o !! r = Some q → frame q' = frame q → is_finished q' = true → wl ++ run ≡ₚ r :: wl' ++ run' →
  (∀ x, x ∈ wl' → x ∈ wl) → (∀ x, x ∈ run' → x ∈ run) →
  wp (Sched._free_request (T := T) c None set_iter r) s (λ p s', p = None ∧ freed_request s s' (request_id q) ∧
    core_at s' wl' run' (delete (request_id q) L) []).
Proof.
  intros Hc Eo Hq Hf Hfin Hp Hw Hr. assert (objs s !! r = Some q') as Hq' by (by rewrite Eo, lookup_insert_eq). pose proof (frame_id _ _ Hf) as Eid.
  destruct (co_req _ _ _ _ _ _ _ _ _ _ _ _ _ _ Hc r) as (q0 & Hq0 & Hok); [rewrite Hp; left|]. assert (q0 = q) as -> by congruence.
  unfold Sched._free_request. apply wp_bind. eapply wp_obj; [exact Hq'|]. apply wp_bind, wp_assert; [done|]. apply wp_bind, wp_ret.
  apply wp_bind, wp_on_enc. eapply wp_mono; [apply (wp_enc_free size set_iter set_iter_perm q'); [apply Hc|]|].
  { destruct (ro_inputs _ _ _ _ Hok) as [Hsz _]. injection Hf as _ _ _ Emm. unfold sized. by rewrite Emm. }
  intros [] e' (He' & _ & _). apply wp_bind, wp_modify. cbn [fst snd]. apply wp_bind. unfold Sched._free_blocks. apply wp_bind. eapply wp_obj; [exact Hq'|].
  apply wp_bind, wp_assert; [done|]. apply wp_bind, wp_on_kv. sched_cbn. eapply wp_mono; [apply (wp_kv_free _ L q'); apply Hc|]. rewrite Eid. intros [] k' [Ek Hk].
  apply wp_bind, wp_gets. sched_cbn. assert (requests s !! request_id q = Some r) as ->.
  { apply (co_ids _ _ _ _ _ _ _ _ _ _ _ _ _ _ Hc). split; [rewrite Hp; left|]. by rewrite Hq. }
  apply wp_modify, wp_ret. split; [done|]. split; [by split|]. sched_cbn. rewrite Eo. eapply core_enc; [|exact He'].
  by apply (core_remove _ ql_sub _ _ _ _ _ _ _ _ _ _ wl wl' run run' L [] r q q' Hc).
Qed.

(** ** [update_from_output] *)

(** The loop over the scheduled requests that began in [s0] with the waiting requests
    [wl0]; the requests [sr] and [sp] of the running list and of the queue have stopped. *)
Record updating s0 wl0 s (sr sp : gset nat) : Prop := {
  up_core : ∃ L, core_at s (filter (λ r, r ∉ sp) wl0) (filter (λ r, r ∉ sr) (running s0)) L [];
  up_rep : rep (attributes (objs s)) (waiting s) wl0;
  up_running : running s = running s0;
  up_resume x rid : x ∈ filter (λ r, r ∉ sp) wl0 → (λ q, (request_id q, status q)) <$> objs s !! x = Some (rid, PREEMPTED) →
    rid ∉ prev_step_scheduled_req_ids s;
  up_requests rid r : requests s0 !! rid = Some r → requests s !! rid = Some r ∨
    requests s !! rid = None ∧ rid ∈ finished_req_ids s ∧ is_finished <$> objs s !! r = Some true;
  up_only rid r : requests s !! rid = Some r → requests s0 !! rid = Some r;
}.

Lemma updating_upd s0 wl0 s sr sp r q q' : updating s0 wl0 s sr sp → objs s !! r = Some q → frame q' = frame q → status q' = status q →
  (qok q → qok q') → (∀ L, wait_ok L q → wait_ok L q') → (∀ L, run_ok L [] q → run_ok L [] q') →
  updating s0 wl0 (Sched.set_objs (<[r := q']> (objs s)) s) sr sp.
Proof.
  intros [[L Hc] Hrep Hrun Hres Hreq Honly] Hq Hf Hst H1 H2 H3. pose proof (same_frame_insert _ r q q' Hq Hf) as Hs. split; sched_cbn; try done.
  - exists L. eapply core_upd; [exact Hc|exact Hq|exact Hf|auto..].
  - by rewrite (same_frame_attrs _ _ Hs).
  - intros x rid Hx. destruct (decide (x = r)) as [->|Hne]; [|rewrite lookup_insert_ne by done; eauto]. rewrite lookup_insert_eq. cbn. rewrite Hst, (frame_id _ _ Hf).
    intros E. apply (Hres r); [done|]. by rewrite Hq.
  - intros rid x Hx. destruct (Hreq rid x Hx) as [?|(? & ? & E)]; [by left|right]. split_and!; [done|done|]. destruct (decide (x = r)) as [->|Hne]; [|by rewrite lookup_insert_ne].
    rewrite lookup_insert_eq. rewrite Hq in E. cbn in *. unfold is_finished in *. by rewrite Hst.
Qed.

Lemma updating_world s0 wl0 s sr sp w : updating s0 wl0 s sr sp → updating s0 wl0 (Sched.set_world w s) sr sp.
Proof. intros []. by split. Qed.

Lemma same_request_ok q q' : same_request q q' → status q' = status q → num_computed_tokens q' = num_computed_tokens q → frame q' = frame q →
  (qok q → qok q') ∧ (∀ L, wait_ok L q → wait_ok L q') ∧ (∀ L, run_ok L [] q → run_ok L [] q').
Proof.
  intros Hsr Hst Hc Hf. split; [by apply (req_ok_same _ _ hl_content)|]. unfold wait_ok, run_ok, num_tokens, tokens_of. rewrite Hst, Hc, (frame_id _ _ Hf).
  destruct Hsr as ((E & _) & _). by rewrite E.
Qed.

Lemma updating_same s0 wl0 s sr sp r q q' : updating s0 wl0 s sr sp → objs s !! r = Some q → frame q' = frame q → same_request q q' → status q' = status q →
  num_computed_tokens q' = num_computed_tokens q → updating s0 wl0 (Sched.set_objs (<[r := q']> (objs s)) s) sr sp.
Proof. intros Hu Hq Hf Hsr Hst Hc. destruct (same_request_ok q q' Hsr Hst Hc Hf) as (? & ? & ?). by eapply updating_upd. Qed.

Lemma wp_advance_grammar q tokens s : wp (Sched.advance_grammar structured q tokens) s (λ _ s', ∃ w, s' = Sched.set_world w s).
Proof.
  assert (s = Sched.set_world (world s) s) as Es by (by destruct s). unfold Sched.advance_grammar. case_bool_decide; [apply wp_ret; by exists (world s)|].
  apply wp_bind, wp_on_world. eapply wp_mono; [apply (sl_advance q tokens)|]. intros adv w1 H1. destruct adv; [|apply wp_ret; by exists w1]. destruct (H1 eq_refl) as [Hu H2].
  apply wp_bind, wp_assert; [done|]. apply wp_bind, wp_on_world. sched_cbn. eapply wp_mono; [exact H2|]. intros ready w2 [-> H3].
  apply wp_bind, wp_assert; [done|]. apply wp_on_world. sched_cbn. eapply wp_mono; [exact H3|]. intros [] w3 _. by exists w3.
Qed.

Lemma wp_emit_output s0 wl0 s sr sp (out : ModelRunnerOutput T) r q i tokens u : updating s0 wl0 s sr sp → objs s !! r = Some q →
  (tokens = [] → prompt_logprobs_dict out !! request_id q = None) →
  wp (Sched.emit_output structured slice wants_logprobs truthy out r i tokens None None u) s (λ u' s', updating s0 wl0 s' sr sp ∧
    u_stopped_running u' = u_stopped_running u ∧ u_stopped_preempted u' = u_stopped_preempted u).
Proof.
  intros Hu Hq Hpl. unfold Sched.emit_output. apply wp_bind. eapply wp_obj; [exact Hq|]. apply wp_bind. eapply wp_mono; [apply wp_advance_grammar|]. intros [] s1 [w ->].
  apply (updating_world _ _ _ _ _ w) in Hu. apply wp_bind.
  apply (wp_mono _ _ (λ _ s', ∃ q1, objs s' !! r = Some q1 ∧ request_id q1 = request_id q ∧ updating s0 wl0 s' sr sp)).
  { destruct (mro_num_nans_in_logits out ≫= lookup (request_id q)) as [n|]; [|apply wp_ret; by exists q]. eapply wp_upd; [exact Hq|]. exists (set_nans n q).
    split; [apply lookup_insert_eq|]. split; [done|]. by eapply updating_same. }
  intros [] s1 (q1 & Hq1 & Eid & Hu1). apply wp_bind. eapply wp_obj; [exact Hq1|]. rewrite (bool_decide_false (is_Some (@None T))), !orb_false_r by (by intros [? [=]]).
  case_bool_decide as Ht; cbn [negb].
  - apply wp_bind, wp_assert; [apply bool_decide_eq_true; auto|]. by apply wp_ret.
  - destruct (Request.take_events q1) as [ev q2] eqn:Ev. apply wp_bind. eapply wp_upd; [exact Hq1|]. apply wp_ret. split_and!; [|done|done].
    unfold Request.take_events in Ev. destruct (events q1) as [|x l] eqn:Ee; injection Ev as <- <-; by eapply updating_same.
Qed.

Lemma filter_stop (S : gset nat) (l : list nat) (r : nat) : NoDup (filter (λ x, x ∉ S) l) → r ∈ filter (λ x, x ∉ S) l →
  filter (λ x, x ∉ S) l ≡ₚ r :: filter (λ x, x ∉ {[r]} ∪ S) l.
Proof.
  intros Hnd Hr. rewrite (remove_first_perm r _ Hr) at 1. rewrite remove_first_NoDup by done. rewrite list_filter_filter.
  rewrite (list_filter_iff (λ x, x ≠ r ∧ x ∉ S) (λ x, x ∉ {[r]} ∪ S)); [done|]. intros x. set_solver +.
Qed.

Lemma filter_stop_sub (S : gset nat) (l : list nat) (r x : nat) : x ∈ filter (λ x, x ∉ {[r]} ∪ S) l → x ∈ filter (λ x, x ∉ S) l.
Proof. rewrite !list_elem_of_filter. set_solver +. Qed.

(** A live request stops: it is freed, and it is noted in the set of its list. *)
Lemma wp_stop s0 wl0 s sr sp r q q' : updating s0 wl0 s sr sp → requests s !! request_id q = Some r → objs s !! r = Some q → frame q' = frame q → is_finished q' = true →
  wp (Sched._free_request (T := T) c None set_iter r) (Sched.set_objs (<[r := q']> (objs s)) s) (λ p s', p = None ∧ objs s' !! r = Some q' ∧
    updating s0 wl0 s' (if bool_decide (status q = RUNNING) then {[r]} ∪ sr else sr) (if bool_decide (status q = RUNNING) then sp else {[r]} ∪ sp)).
Proof.
  intros [[L Hc] Hrep Hrun Hres Hreq Honly] Hrid Hq Hf Hfin. pose proof Hc as [C1 C2 C3 C4 C5 C6 C7 C8 C9 C10 C11].
  pose proof (proj1 (C4 _ _) Hrid) as [Hr _]. pose proof (same_frame_insert _ r q q' Hq Hf) as Hs.
  set (wl' := filter (λ x, x ∉ (if bool_decide (status q = RUNNING) then sp else {[r]} ∪ sp)) wl0).
  set (run' := filter (λ x, x ∉ (if bool_decide (status q = RUNNING) then {[r]} ∪ sr else sr)) (running s0)).
  pose proof C2 as (N1 & _ & N2)%NoDup_app.
  assert (filter (λ x, x ∉ sp) wl0 ++ filter (λ x, x ∉ sr) (running s0) ≡ₚ r :: wl' ++ run' ∧ (∀ x, x ∈ wl' → x ∈ filter (λ x, x ∉ sp) wl0) ∧
    (∀ x, x ∈ run' → x ∈ filter (λ x, x ∉ sr) (running s0))) as (Hp & Hsub1 & Hsub2).
  { unfold wl', run'. apply elem_of_app in Hr as [Hr|Hr].
    - destruct (C6 r q Hr Hq) as (Hst & _). rewrite !bool_decide_false by (intros E; rewrite E in Hst; by destruct Hst as [|[|]]).
      split_and!; [|intros x; apply filter_stop_sub|done]. by rewrite (filter_stop sp wl0 r N1 Hr) at 1.
    - destruct (C7 r q Hr Hq) as (Hst & _). rewrite !bool_decide_true by done.
      split_and!; [|done|intros x; apply filter_stop_sub]. rewrite (filter_stop sr (running s0) r N2 Hr) at 1. by rewrite Permutation_middle. }
  eapply wp_mono; [apply (wp_free_request (Sched.set_objs (<[r := q']> (objs s)) s) (objs s) (filter (λ x, x ∉ sp) wl0) (filter (λ x, x ∉ sr) (running s0)) L r q q' wl' run'); [exact Hc|done..]|].
  intros p s' (-> & [F1 F2 F3 F4 F5 F6] & Hc'). sched_cbn. cbn [objs waiting running prev_step_scheduled_req_ids requests finished_req_ids Sched.set_objs] in F1, F2, F3, F4, F5, F6.
  split_and!; [done|by rewrite F1, lookup_insert_eq|]. split.
  - by exists (delete (request_id q) L).
  - by rewrite F1, F2, (same_frame_attrs _ _ Hs).
  - by rewrite F3.
  - intros x rid Hx. rewrite F1, F4. destruct (decide (x = r)) as [->|Hne].
    + rewrite lookup_insert_eq. intros [= _ E]. unfold is_finished in Hfin. by rewrite E in Hfin.
    + rewrite lookup_insert_ne by done. apply Hres. by apply Hsub1.
  - intros rid x Hx. rewrite F1, F5, F6. destruct (decide (rid = request_id q)) as [->|Hne].
    + right. assert (x = r) as -> by (apply Honly in Hrid; congruence). rewrite lookup_delete_eq, lookup_insert_eq. cbn. rewrite Hfin. split_and!; [done|set_solver +|done].
    + rewrite lookup_delete_ne by done. destruct (Hreq rid x Hx) as [?|(? & ? & ?)]; [by left|right]. split_and!; [done|set_solver|].
      destruct (decide (x = r)) as [->|Hnr]; [rewrite lookup_insert_eq; cbn; by rewrite Hfin|by rewrite lookup_insert_ne].
  - intros rid x. rewrite F5. intros [_ ?]%lookup_delete_Some. auto.
Qed.

(** What the model runner answers to the output of a step *)
Record answers s (so : SchedulerOutput T) (out : ModelRunnerOutput T) : Prop := {
  an_kv : kv_connector_output out = None;
  an_pool : pooler_output out = [];
  an_spec : scheduled_spec_decode_tokens so = ∅;
  an_pos x : x ∈ num_scheduled_tokens so → 0 < x.2;
  an_tokens x r : x ∈ num_scheduled_tokens so → requests s !! x.1 = Some r → ∃ i g, req_id_to_index out !! x.1 = Some i ∧
    (if bool_decide (sampled_token_ids out = []) then g = [] else sampled_token_ids out !! i = Some g) ∧
    (g = [] → prompt_logprobs_dict out !! x.1 = None);
}.

Lemma wp_update_one s0 wl0 s so out x u : answers s0 so out → x ∈ num_scheduled_tokens so →
  updating s0 wl0 s (u_stopped_running u) (u_stopped_preempted u) →
  wp (Sched.update_one c None structured block_hasher set_iter slice wants_logprobs truthy so out ∅ x u) s (λ u' s',
    updating s0 wl0 s' (u_stopped_running u') (u_stopped_preempted u')).
Proof.
  intros [A1 A2 A3 A4 A5] Hx Hu. unfold Sched.update_one. apply wp_bind, wp_assert; [by apply Z.ltb_lt, A4|]. rewrite bool_decide_false by set_solver +.
  apply wp_bind, wp_gets. destruct (requests s !! x.1) as [r|] eqn:Hrid; [|by apply wp_ret]. pose proof Hu as [[L Hc] _ _ _ _ Honly].
  destruct (A5 x r Hx (Honly _ _ Hrid)) as (i & g & Hi & Hg & Hpl). rewrite Hi. apply wp_bind, wp_ret, wp_bind.
  apply (wp_mono _ _ (λ g' s', g' = g ∧ s' = s)).
  { case_bool_decide; [apply wp_ret; by subst g|by eapply wp_index]. }
  intros g' s' [-> ->]. rewrite A3, lookup_empty. apply wp_bind, wp_ret, wp_bind.
  pose proof (proj1 (co_ids _ _ _ _ _ _ _ _ _ _ _ _ _ _ Hc _ _) Hrid) as [Hr Hid].
  destruct (co_req _ _ _ _ _ _ _ _ _ _ _ _ _ _ Hc r Hr) as (q & Hq & Hok). rewrite Hq in Hid. injection Hid as Hid. eapply wp_obj; [exact Hq|]. apply wp_bind.
  apply (wp_mono _ _ (λ (y : list Z * bool) s', ∃ q', s' = Sched.set_objs (<[r := q']> (objs s)) s ∧ frame q' = frame q ∧
    (if y.2 then is_finished q' = true else went_on q q') ∧ (y.1 = [] → g = []))).
  { destruct (decide (g = [])) as [Eg|Eg]; [rewrite (bool_decide_true (g = [])) by done|rewrite (bool_decide_false (g = [])) by done].
    - apply wp_ret. exists q. rewrite insert_id by done. split_and!; [by destruct s|done|by split|done].
    - unfold Sched._update_request_with_output. apply wp_bind. eapply wp_obj; [exact Hq|]. apply wp_bind. eapply wp_mono; [by apply (wp_append_tokens r g [] s q)|].
      intros y s' (q' & -> & ? & ? & Hne). rewrite (cp_async Hplain). apply wp_ret. exists q'. split_and!; try done. intros E. destruct (Hne (or_intror Eg) E). }
  intros [ts stopped] s1 (q' & -> & Hf & Hy & Hne). cbn [fst snd] in *. rewrite A2, (bool_decide_true (@nil (option T) = [])) by done. apply wp_bind, wp_ret. cbn [fst snd].
  apply wp_bind. destruct stopped; cbn [andb].
  - rewrite <-Hid in Hrid. eapply wp_mono; [by apply (wp_stop s0 wl0 s _ _ r q q' Hu)|]. intros p s2 (-> & Hq2 & Hu2).
    eapply wp_mono; [eapply (wp_emit_output s0 wl0 s2); [exact Hu2|exact Hq2|]|].
    + intros E. rewrite (frame_id _ _ Hf), Hid. auto.
    + intros u' s' (Hu' & E1 & E2). cbn [u_stopped_running u_stopped_preempted] in E1, E2. rewrite E1, E2. revert Hu'. case_bool_decide; cbn [negb]; done.
  - apply wp_ret. assert (updating s0 wl0 (Sched.set_objs (<[r := q']> (objs s)) s) (u_stopped_running u) (u_stopped_preempted u)) as Hu2.
    { pose proof Hy as []. eapply (updating_upd s0 wl0 s _ _ r q q' Hu Hq); [done|done|done|intros L'; by eapply went_on_wait|intros L'; by eapply went_on_run]. }
    eapply wp_mono; [eapply (wp_emit_output s0 wl0); [exact Hu2|apply lookup_insert_eq|]|].
    + intros E. rewrite (frame_id _ _ Hf), Hid. auto.
    + intros u' s' (Hu' & E1 & E2). cbn [u_stopped_running u_stopped_preempted] in E1, E2. by rewrite E1, E2.
Qed.

Lemma wp_update_all s0 wl0 so out l : answers s0 so out → (∀ x, x ∈ l → x ∈ num_scheduled_tokens so) → ∀ s u,
  updating s0 wl0 s (u_stopped_running u) (u_stopped_preempted u) →
  wp (Sched.update_all c None structured block_hasher set_iter slice wants_logprobs truthy so out ∅ l u) s (λ u' s',
    updating s0 wl0 s' (u_stopped_running u') (u_stopped_preempted u')).
Proof.
  intros Ha. induction l as [|x l IH]; intros Hl s u Hu; cbn [Sched.update_all]; [by apply wp_ret|]. apply wp_bind.
  eapply wp_mono; [apply (wp_update_one s0 wl0 s so out x u Ha); [apply Hl; left|done]|]. intros u' s' Hu'. apply IH; [|done]. intros y Hy. apply Hl. by right.
Qed.

(** Every request of [s] is still there in [s'], or it has finished. *)
Definition accounted s s' : Prop :=
  (∀ rid r, requests s !! rid = Some r → requests s' !! rid = Some r ∨
     requests s' !! rid = None ∧ rid ∈ finished_req_ids s' ∧ is_finished <$> objs s' !! r = Some true) ∧
  (∀ rid r, requests s' !! rid = Some r → requests s !! rid = Some r).

(** The parts of the state the rest of the call leaves alone *)
Definition same_lists s s' : Prop := objs s' = objs s ∧ next_ref s' = next_ref s ∧ requests s' = requests s ∧ waiting s' = waiting s ∧ running s' = running s ∧
  prev_step_scheduled_req_ids s' = prev_step_scheduled_req_ids s ∧ encoder_cache_manager s' = encoder_cache_manager s ∧ finished_req_ids s' = finished_req_ids s.

Lemma wp_publish_events s L : kv_inv (kv_cache_manager s) L →
  wp (Sched.publish_events (T := T) None publish) s (λ _ s', same_lists s s' ∧ kv_cfg (kv_cache_manager s') = kv_cfg (kv_cache_manager s) ∧ kv_inv (kv_cache_manager s') L).
Proof.
  intros Hk. unfold Sched.publish_events. apply wp_bind, wp_on_kv. eapply wp_mono; [by apply (wp_kv_take_events _ L)|]. intros evs k' [Ek Hk'].
  apply wp_bind, wp_ret. case_bool_decide; [by apply wp_ret|]. apply wp_on_world. eapply wp_mono; [apply publish_ok|]. by intros [] w _.
Qed.

Lemma wp_engine_core_outputs s u : wp (Sched.engine_core_outputs (T := T) u) s (λ _ s', same_lists s s' ∧ kv_cache_manager s' = kv_cache_manager s).
Proof. unfold Sched.engine_core_outputs. apply wp_bind, wp_gets. destruct (finished_req_ids_dict s) as [[|x d]|]; [by apply wp_ret|by apply wp_bind, wp_modify, wp_ret|by apply wp_ret]. Qed.

Lemma wp_make_stats s L spec kv : kv_inv (kv_cache_manager s) L → kv_cfg (kv_cache_manager s) = cfg →
  wp (Sched.make_stats (T := T) queue c spec kv) s (λ _ s', same_lists s s' ∧ kv_cfg (kv_cache_manager s') = kv_cfg (kv_cache_manager s) ∧ kv_inv (kv_cache_manager s') L).
Proof.
  intros Hk [= _ _ Elog _]. unfold Sched.make_stats. destruct (sched_log_stats c); cbn [negb]; [|by apply wp_ret]. apply wp_bind, wp_on_kv.
  eapply wp_mono; [by apply (wp_kv_stats _ L)|]. intros p k' (Ek & Hk' & Hp). destruct (Hp Elog) as [p' ->]. apply wp_bind. unfold Sched._make_connector_prefix_cache_stats.
  apply wp_bind, wp_gets. sched_cbn. destruct (connector_prefix_cache_stats s); [apply wp_bind, wp_modify|]; by apply wp_ret, wp_bind, wp_gets, wp_ret.
Qed.

(** Updates that leave the lists alone keep the invariant. *)
Lemma sched_ok_same s s' wl L : core_at s wl (running s) L [] → rep (attributes (objs s)) (waiting s) wl → Z.of_nat (length (running s)) ≤ max_num_running_reqs c →
  (∀ x rid, x ∈ wl → (λ q, (request_id q, status q)) <$> objs s !! x = Some (rid, PREEMPTED) → rid ∉ prev_step_scheduled_req_ids s) →
  same_lists s s' → kv_cfg (kv_cache_manager s') = kv_cfg (kv_cache_manager s) → kv_inv (kv_cache_manager s') L → sched_ok s'.
Proof.
  intros Hc Hrep Hlen Hres (E1 & E2 & E3 & E4 & E5 & E6 & E7 & E8) Ek Hk. exists wl, L. rewrite E1, E2, E3, E4, E5, E6, E7. split_and!; try done. by eapply core_kv.
Qed.

Lemma wp_update_from_output s so out : sched_ok s → answers s so out →
  wp (Sched.update_from_output queue c None structured publish block_hasher set_iter slice wants_logprobs truthy so out) s (λ _ s', sched_ok s' ∧ accounted s s').
Proof.
  intros (wl & L & Hc & Hrep & Hlen & Hres) Ha. unfold Sched.update_from_output. rewrite (an_kv _ _ _ Ha). cbn [mbind option_bind]. apply wp_bind, wp_ret, wp_bind, wp_ret, wp_bind.
  assert (NoDup wl ∧ NoDup (running s)) as [N1 N2] by (apply co_nodup in Hc as (? & _ & ?)%NoDup_app; done).
  assert (∀ (l : list nat) (S : gset nat), S = ∅ → filter (λ r, r ∉ S) l = l) as Hid by (intros l S ->; apply filter_id; intros x _; apply not_elem_of_empty).
  eapply wp_mono; [apply (wp_update_all s wl so out _ Ha)|]; [done| |].
  { cbn [u_stopped_running u_stopped_preempted]. split; try done; [exists L|..]; rewrite ?(Hid _ ∅ eq_refl); try done. intros rid r. by left. }
  intros u s1 [[L1 Hc1] Hrep1 Hrun1 Hres1 Hreq1 Honly1]. apply wp_bind, wp_modify, wp_bind. sched_cbn. rewrite Hrun1, remove_all_filters by done.
  set (run' := filter (λ x, x ∉ u_stopped_running u) (running s)) in *. set (wl' := filter (λ x, x ∉ u_stopped_preempted u) wl) in *.
  apply (wp_mono _ _ (λ _ s2, ∃ q', s2 = Sched.set_waiting q' (Sched.set_running run' s1) ∧ rep (attributes (objs s1)) q' wl')).
  { case_bool_decide as E.
    - apply wp_ret. exists (waiting s1). split; [by destruct s1|]. unfold wl'. by rewrite (Hid _ _ E).
    - apply wp_on_waiting. eapply wp_mono; [apply (ql_remove _ _ wl); exact Hrep1|]. intros [] q' Hq'. exists q'. split; [done|].
      replace wl' with (filter (λ r, r ∉ elements (u_stopped_preempted u)) wl); [done|]. apply list_filter_iff. intros x. by rewrite elem_of_elements. }
  intros [] s2 (q' & -> & Hq'). apply wp_bind, wp_ret, wp_bind. pose proof (co_kv _ _ _ _ _ _ _ _ _ _ _ _ _ _ Hc1) as Hk1.
  eapply wp_mono; [by apply (wp_publish_events _ L1)|]. intros [] s3 (S3 & Ek3 & Hk3). apply wp_bind.
  eapply wp_mono; [apply wp_engine_core_outputs|]. intros outs s4 [S4 Ek4]. apply wp_bind.
  assert (kv_cfg (kv_cache_manager s4) = cfg) as Ecfg by (rewrite Ek4, Ek3; apply (co_cfg _ _ _ _ _ _ _ _ _ _ _ _ _ _ Hc1)).
  eapply wp_mono; [apply (wp_make_stats s4 L1); [by rewrite Ek4|done]|]. intros st s5 (S5 & Ek5 & Hk5). apply wp_ret.
  assert (same_lists (Sched.set_waiting q' (Sched.set_running run' s1)) s5) as S.
  { unfold same_lists in *. destruct S3 as (?&?&?&?&?&?&?&?), S4 as (?&?&?&?&?&?&?&?), S5 as (?&?&?&?&?&?&?&?). split_and!; congruence. }
  split.
  - eapply (sched_ok_same (Sched.set_waiting q' (Sched.set_running run' s1)) s5 wl' L1); [exact Hc1|exact Hq'| |exact Hres1|exact S|congruence|done]. sched_cbn.
    assert (length run' ≤ length (running s))%nat by apply length_filter. lia.
  - destruct S as (E1 & _ & E3 & _ & _ & _ & _ & E8). sched_cbn. cbn [objs requests finished_req_ids Sched.set_waiting Sched.set_running] in *.
    unfold accounted. rewrite E1, E3, E8. done.
Qed.

(** ** Requests enter and leave *)

(** A new request: its id is new, and it can be ordered among the others. *)
Record enters s (q : Request) : Prop := {
  en_id : requests s !! request_id q = None;
  en_ok : qok q;
  en_status : status q = WAITING ∨ status q = WAITING_FOR_FSM;
  en_computed : num_computed_tokens q = 0;
  en_compat : compat (attributes (<[next_ref s := q]> (objs s))) (next_ref s :: (map_to_list (requests s)).*2);
}.

Lemma live_refs s wl L tok r : core_at s wl (running s) L tok → r ∈ wl ++ running s → r ∈ (map_to_list (requests s)).*2.
Proof.
  intros Hc Hr. destruct (co_req _ _ _ _ _ _ _ _ _ _ _ _ _ _ Hc r Hr) as (q & Hq & _). apply list_elem_of_fmap. exists (request_id q, r). split; [done|].
  apply elem_of_map_to_list. apply (co_ids _ _ _ _ _ _ _ _ _ _ _ _ _ _ Hc). by rewrite Hq.
Qed.

Lemma wp_add_request now s q : sched_ok s → enters s q →
  wp (Sched.add_request queue c now q) s (λ _ s', sched_ok s' ∧ requests s' = <[request_id q := next_ref s]> (requests s)).
Proof.
  intros (wl & L & Hc & Hrep & Hlen & Hres) [E1 E2 E3 E4 E5]. pose proof Hc as [C1 C2 C3 C4 C5 C6 C7 C8 C9 C10 C11]. set (nx := next_ref s) in *.
  assert (∀ r, r ∈ wl ++ running s → r ≠ nx) as Hne. { intros r (y & Hy & _)%C5 ->. by rewrite (C3 nx) in Hy. }
  assert (compat (attributes (<[nx := q]> (objs s))) (nx :: wl ++ running s)) as Hcompat.
  { eapply ql_sub; [|exact E5]. intros r [->|Hr]%elem_of_cons; [left|right]. by eapply live_refs. }
  pose proof (core_add _ _ _ _ _ _ _ _ _ _ wl (running s) L [] q Hc E1 E2 E3 E4 Hcompat) as Hc'.
  unfold Sched.add_request. apply wp_bind, wp_gets, wp_bind, wp_modify. sched_cbn. apply wp_bind, wp_on_waiting. sched_cbn. fold nx.
  eapply wp_mono; [apply (ql_add _ _ wl nx)|].
  { eapply ql_sub; [|exact Hcompat]. intros r [->|Hr]%elem_of_cons; [left|right]. apply elem_of_app. by left. }
  { eapply ql_attrs; [|exact Hrep]. intros r Hr. unfold attributes. rewrite !lookup_fmap, lookup_insert_ne; [done|]. apply not_eq_sym, Hne, elem_of_app. by left. }
  intros [] wq Hwq. apply wp_bind, wp_modify. sched_cbn. fold nx. set (q' := logged (record_event QUEUED now) q).
  assert (frame q' = frame q ∧ same_request q q' ∧ status q' = status q ∧ num_computed_tokens q' = num_computed_tokens q) as (Hf & Hsr & Hst & Hnc).
  { unfold q', logged. by destruct (sched_log_stats c). }
  eapply (wp_upd_if (sched_log_stats c)); [apply lookup_insert_eq|]. sched_cbn. fold (logged (record_event QUEUED now) q). fold q'. split; [|done].
  assert (same_frame (<[nx := q]> (objs s)) (<[nx := q']> (<[nx := q]> (objs s)))) as Hs by (eapply same_frame_insert; [apply lookup_insert_eq|done]).
  destruct (same_request_ok q q' Hsr Hst Hnc Hf) as (O1 & O2 & O3).
  exists (nx :: wl), L. sched_cbn. split_and!; [| |done|].
  - eapply core_upd; [exact Hc'|apply lookup_insert_eq|exact Hf|auto..].
  - by rewrite (same_frame_attrs _ _ Hs).
  - intros x rid [->|Hx]%elem_of_cons.
    + rewrite lookup_insert_eq. intros [= _ Est]. rewrite Hst in Est. destruct E3; congruence.
    + rewrite !lookup_insert_ne; [by apply Hres|..]; apply not_eq_sym, Hne, elem_of_app; by left.
Qed.

(** *** [finish_requests] *)

Lemma valid_spec s wl L ids r : core_at s wl (running s) L [] → r ∈ Sched.valid_requests s ids ↔ ∃ rid, rid ∈ ids ∧ requests s !! rid = Some r.
Proof.
  intros Hc. unfold Sched.valid_requests. rewrite list_elem_of_omap. split.
  - intros (rid & Hrid & E). exists rid. split; [done|]. apply bind_Some in E as (r' & Hr' & E). apply bind_Some in E as (q & _ & E). destruct (is_finished q); [done|]. by injection E as ->.
  - intros (rid & Hrid & Hr). exists rid. split; [done|]. rewrite Hr. cbn. apply (co_ids _ _ _ _ _ _ _ _ _ _ _ _ _ _ Hc) in Hr as [Hr _].
    destruct (co_req _ _ _ _ _ _ _ _ _ _ _ _ _ _ Hc r Hr) as (q & Hq & _). rewrite Hq. cbn. assert (is_finished q = false) as ->; [|done]. unfold is_finished.
    apply elem_of_app in Hr as [Hr|Hr].
    + destruct (co_wait _ _ _ _ _ _ _ _ _ _ _ _ _ _ Hc r q Hr Hq) as ([-> |[-> | ->]] & _); done.
    + destruct (co_run _ _ _ _ _ _ _ _ _ _ _ _ _ _ Hc r q Hr Hq) as (-> & _). done.
Qed.

Lemma valid_NoDup s wl L ids : core_at s wl (running s) L [] → NoDup ids → NoDup (Sched.valid_requests s ids).
Proof.
  intros Hc. induction ids as [|rid ids IH]; intros Hnd; [constructor|]. apply NoDup_cons in Hnd as [Hni Hnd]. unfold Sched.valid_requests. csimpl.
  case_match eqn:E; [|by apply IH]. apply NoDup_cons. split; [|by apply IH]. intros (rid' & Hin & Hr)%(valid_spec s wl L ids _ Hc).
  apply bind_Some in E as (r' & Hr' & E). apply bind_Some in E as (q & _ & E). destruct (is_finished q); [done|]. injection E as ->.
  apply (co_ids _ _ _ _ _ _ _ _ _ _ _ _ _ _ Hc) in Hr as [_ Hr], Hr' as [_ Hr']. assert (rid' = rid) as -> by congruence. done.
Qed.

Abbreviation without S l := (filter (λ x : nat, x ∉ @list_to_set nat (gset nat) _ _ _ S) l).

(** After the requests [fin] have been freed *)
Record finishing s s1 wl s' (fin : list nat) : Prop := {
  fi_core : ∃ L, core_at s' (without fin wl) (without fin (running s)) L [];
  fi_attrs : attributes (objs s') = attributes (objs s);
  fi_same : waiting s' = waiting s1 ∧ running s' = running s1 ∧ prev_step_scheduled_req_ids s' = prev_step_scheduled_req_ids s;
  fi_objs x : x ∉ fin → objs s' !! x = objs s !! x;
  fi_requests rid r : requests s !! rid = Some r → (r ∉ fin → requests s' !! rid = Some r) ∧
    (r ∈ fin → requests s' !! rid = None ∧ rid ∈ finished_req_ids s' ∧ is_finished <$> objs s' !! r = Some true);
  fi_only rid r : requests s' !! rid = Some r → requests s !! rid = Some r;
}.

Lemma without_snoc (fin : list nat) (r : nat) (l : list nat) : filter (λ x : nat, x ∉ {[r]} ∪ @list_to_set nat (gset nat) _ _ _ fin) l = without (fin ++ [r]) l.
Proof. apply list_filter_iff. intros x. rewrite list_to_set_app, list_to_set_singleton. set_solver +. Qed.

Lemma wp_finish_one s s1 wl s' fin r st : finishing s s1 wl s' fin → r ∈ wl ++ running s → r ∉ fin → status_is_finished st = true →
  wp (Sched.upd r (set_request_status st) ;; Sched._free_request (T := T) c None set_iter r ;; mret ()) s' (λ _ s'', finishing s s1 wl s'' (fin ++ [r])).
Proof.
  intros [[L Hc] Hat (E1 & E2 & E3) Hobj Hreq Honly] Hr Hnf Hst. pose proof (co_nodup _ _ _ _ _ _ _ _ _ _ _ _ _ _ Hc) as Hnd. rewrite <-filter_app in Hnd.
  assert (r ∈ without fin (wl ++ running s)) as Hrl by (apply list_elem_of_filter; split; [by rewrite elem_of_list_to_set|done]).
  destruct (co_req _ _ _ _ _ _ _ _ _ _ _ _ _ _ Hc r) as (q & Hq & Hok); [by rewrite <-filter_app|]. set (q' := set_request_status st q).
  apply wp_bind. eapply wp_upd; [exact Hq|]. fold q'. apply wp_bind. pose proof (filter_stop _ _ r Hnd Hrl) as Hp. rewrite !filter_app, !without_snoc in Hp.
  eapply wp_mono; [apply (wp_free_request (Sched.set_objs (<[r := q']> (objs s')) s') (objs s') (without fin wl) (without fin (running s)) L r q q' _ _ Hc eq_refl Hq eq_refl Hst Hp)|].
  { intros x. rewrite <-without_snoc. apply filter_stop_sub. } { intros x. rewrite <-without_snoc. apply filter_stop_sub. }
  intros p s2 (_ & [F1 F2 F3 F4 F5 F6] & Hc2). cbn [objs waiting running prev_step_scheduled_req_ids requests finished_req_ids Sched.set_objs] in F1, F2, F3, F4, F5, F6.
  apply wp_ret. assert (requests s' !! request_id q = Some r) as Hrid.
  { apply (co_ids _ _ _ _ _ _ _ _ _ _ _ _ _ _ Hc). rewrite <-filter_app, Hq. done. }
  split.
  - by exists (delete (request_id q) L).
  - rewrite F1, <-Hat. eapply same_frame_attrs, same_frame_insert; [exact Hq|done].
  - split_and!; congruence.
  - intros x [Hx Hxr]%not_elem_of_app. rewrite F1, lookup_insert_ne; [auto|]. intros <-. by apply Hxr, list_elem_of_singleton.
  - intros rid x Hx. destruct (Hreq rid x Hx) as [H1 H2]. rewrite F1, F5, F6. split.
    + intros [Hxf Hxr]%not_elem_of_app. rewrite lookup_delete_ne; [auto|]. intros <-. specialize (H1 Hxf). apply Hxr, list_elem_of_singleton. congruence.
    + intros [Hxf| ->%list_elem_of_singleton]%elem_of_app.
      * destruct (H2 Hxf) as (G1 & G2 & G3). assert (x ≠ r) by (by intros ->). rewrite lookup_insert_ne by done. split_and!; [|set_solver +G2|done]. apply lookup_delete_None. auto.
      * assert (rid = request_id q) as ->. { specialize (H1 Hnf). apply (co_ids _ _ _ _ _ _ _ _ _ _ _ _ _ _ Hc) in H1 as [_ H1]. rewrite Hq in H1. by injection H1. }
        rewrite lookup_delete_eq, lookup_insert_eq. cbn. split_and!; [done|set_solver +|]. unfold is_finished, q'. cbn. by rewrite Hst.
  - intros rid x. rewrite F5. intros [_ ?]%lookup_delete_Some. auto.
Qed.

Lemma wp_finish_requests s ids st : sched_ok s → status_is_finished st = true →
  wp (Sched.finish_requests (T := T) queue c None set_iter set_order ids st) s (λ _ s', sched_ok s' ∧ accounted s s' ∧ ∀ rid, rid ∈ ids → requests s' !! rid = None).
Proof.
  intros (wl & L & Hc & Hrep & Hlen & Hres) Hst. unfold Sched.finish_requests. apply wp_bind, wp_assert; [done|]. apply wp_bind, wp_gets.
  assert (NoDup wl ∧ NoDup (running s)) as [N1 N2] by (pose proof (co_nodup _ _ _ _ _ _ _ _ _ _ _ _ _ _ Hc) as (? & _ & ?)%NoDup_app; done).
  pose proof (valid_spec s wl L (set_order ids)) as Hvs. specialize (λ r, Hvs r Hc). assert (NoDup (Sched.valid_requests s (set_order ids))) as Hvn.
  { eapply valid_NoDup; [exact Hc|]. rewrite set_order_perm. apply NoDup_remove_dups. }
  set (valid := Sched.valid_requests s (set_order ids)) in *. cbv zeta.
  assert (∀ r, r ∈ valid → r ∈ wl ++ running s) as Hlive by (intros r (rid & _ & Hr)%Hvs; by apply (co_ids _ _ _ _ _ _ _ _ _ _ _ _ _ _ Hc) in Hr as [? _]).
  assert (∀ r, r ∈ running s → Sched.has_status s RUNNING r = true) as Hrs.
  { intros r Hr. destruct (co_req _ _ _ _ _ _ _ _ _ _ _ _ _ _ Hc r) as (q & Hq & _); [apply elem_of_app; by right|]. unfold Sched.has_status. apply bool_decide_eq_true. rewrite Hq. cbn.
    f_equal. by apply (co_run _ _ _ _ _ _ _ _ _ _ _ _ _ _ Hc r q Hr Hq). }
  assert (∀ r, r ∈ wl → Sched.has_status s RUNNING r = false) as Hws.
  { intros r Hr. destruct (co_req _ _ _ _ _ _ _ _ _ _ _ _ _ _ Hc r) as (q & Hq & _); [apply elem_of_app; by left|]. unfold Sched.has_status. apply bool_decide_eq_false. rewrite Hq. cbn.
    intros [= E]. destruct (co_wait _ _ _ _ _ _ _ _ _ _ _ _ _ _ Hc r q Hr Hq) as (Hq' & _). rewrite E in Hq'. by destruct Hq' as [|[|]]. }
  apply wp_bind, wp_modify. rewrite remove_all_filters by done. set (run' := filter _ (running s)).
  assert (run' = without valid (running s)) as Erun.
  { apply filter_ext_in. intros r Hr. rewrite !elem_of_list_to_set, list_elem_of_filter. specialize (Hrs r Hr). tauto. }
  apply wp_bind. apply (wp_mono _ _ (λ _ s1, ∃ q', s1 = Sched.set_waiting q' (Sched.set_running run' s) ∧ rep (attributes (objs s)) q' (without valid wl))).
  { assert (filter (λ r, r ∉ filter (λ r, Sched.has_status s RUNNING r = false) valid) wl = without valid wl) as Ewl.
    { apply filter_ext_in. intros r Hr. rewrite elem_of_list_to_set, list_elem_of_filter. specialize (Hws r Hr). tauto. }
    case_bool_decide as E.
    - apply wp_ret. exists (waiting s). split; [by destruct s|]. rewrite <-Ewl, E. rewrite filter_id; [done|]. intros r _. apply not_elem_of_nil.
    - apply wp_on_waiting. eapply wp_mono; [apply (ql_remove _ _ wl); exact Hrep|]. intros [] q' Hq'. exists q'. split; [done|]. by rewrite <-Ewl. }
  intros [] s1 (q' & -> & Hq').
  apply (wp_for_each (λ fin s', finishing s (Sched.set_waiting q' (Sched.set_running run' s)) wl s' fin)).
  - split; sched_cbn; try done.
    + exists L. by rewrite !filter_id by (intros x _; apply not_elem_of_empty).
    + intros rid r Hr. split; [done|]. by intros ?%not_elem_of_nil.
  - intros fin r rest s' Ev Hfin. assert (r ∈ valid) as Hrv by (rewrite Ev; apply elem_of_app; right; left). apply wp_finish_one; [done|by apply Hlive| |done].
    intros Hin. rewrite Ev in Hvn. apply NoDup_app in Hvn as (_ & Hvn & _). apply (Hvn r Hin). left.
  - intros s' [[L' Hc'] Hat (E1 & E2 & E3) Hobj Hreq Honly]. cbn [waiting running Sched.set_waiting Sched.set_running] in E1, E2. rewrite Erun in E2. split_and!.
    + exists (without valid wl), L'. rewrite E1, E2, E3, Hat. split_and!; [done|done| |].
      * assert (length (without valid (running s)) ≤ length (running s))%nat by apply length_filter. lia.
      * intros x rid [Hx Hxw]%list_elem_of_filter. rewrite elem_of_list_to_set in Hx. rewrite Hobj by done. by apply Hres.
    + split; [|done]. intros rid r Hr. destruct (Hreq rid r Hr) as [H1 H2]. destruct (decide (r ∈ valid)); auto.
    + intros rid Hrid. destruct (requests s !! rid) as [r|] eqn:Hr.
      * destruct (Hreq rid r Hr) as [_ H2]. apply H2. apply Hvs. exists rid. rewrite set_order_perm, elem_of_remove_dups. done.
      * apply eq_None_not_Some. intros [r Hr']. apply Honly in Hr'. congruence.
Qed.

Lemma wp_sched_reset s : sched_ok s → wp Sched.reset_prefix_cache s (λ _ s', sched_ok s' ∧ requests s' = requests s).
Proof.
  intros (wl & L & Hc & Hrep & Hlen & Hres). unfold Sched.reset_prefix_cache. apply wp_on_kv. pose proof (co_kv _ _ _ _ _ _ _ _ _ _ _ _ _ _ Hc) as Hk.
  pose proof (wp_reset_call FreeQueue.rep _ L Hk) as H1. cbn [run_call] in H1. destruct Hk as (l & Hkm & _).
  pose proof (wp_km_reset FreeQueue.rep _ l Hkm) as H2. apply wp_ok in H1 as (b & k' & E & Hk'), H2 as (b2 & k2 & E2 & _ & Hsame & _).
  rewrite E in E2. injection E2 as <- <-. assert (km_log_stats k' = km_log_stats (kv_cache_manager s)) as Elog.
  { revert E. unfold km_reset_prefix_cache, on_coord, on_block_pool, zoom, mbind, M_bind, get. destruct (reset_prefix_cache _) as [[[]|] p]; cbn; [|by intros [= <- <-]|done].
    destruct (km_log_stats _) eqn:El; [destruct (prefix_cache_stats _)|]; cbn; intros [= <- <-]; done. }
  unfold wp. rewrite E. split; [|done]. eapply (sched_ok_same s _ wl L); try done.
  destruct Hsame as (Em & Ec & Emx & _). unfold kv_cfg. sched_cbn. by rewrite Em, Ec, Emx, Elog.
Qed.

(** ** The calls of the engine *)

Inductive sched_call :=
  | AddRequest (now : Z) (request : Request)
  | Schedule (now : Z)
  | UpdateFromOutput (so : SchedulerOutput T) (out : ModelRunnerOutput T)
  | FinishRequests (ids : list string) (st : RequestStatus)
  | ResetPrefixCache.

Definition run_sched_call (x : sched_call) : M scheduler () :=
  match x with
  | AddRequest now q => Sched.add_request queue c now q
  | Schedule now => Sched.schedule (T := T) queue new_queue c None None structured set_iter now ;; mret ()
  | UpdateFromOutput so out =>
      Sched.update_from_output queue c None structured publish block_hasher set_iter slice wants_logprobs truthy so out ;; mret ()
  | FinishRequests ids st => Sched.finish_requests (T := T) queue c None set_iter set_order ids st
  | ResetPrefixCache => Sched.reset_prefix_cache ;; mret ()
  end.

Definition call_legal s (x : sched_call) : Prop :=
  match x with
  | AddRequest _ q => enters s q
  | UpdateFromOutput so out => answers s so out
  | FinishRequests _ st => status_is_finished st = true
  | Schedule _ | ResetPrefixCache => True
  end.

(** Every request is kept, or it has finished. *)
Definition kept s s' : Prop := ∀ rid r, requests s !! rid = Some r → requests s' !! rid = Some r ∨
  requests s' !! rid = None ∧ rid ∈ finished_req_ids s' ∧ is_finished <$> objs s' !! r = Some true.

Lemma wp_sched_call s x : sched_ok s → call_legal s x → wp (run_sched_call x) s (λ _ s', sched_ok s' ∧ kept s s').
Proof.
  intros Hs Hx. assert (∀ s', requests s' = requests s → kept s s') as Hsame by (intros s' E rid r Hr; left; by rewrite E). destruct x; cbn [run_sched_call call_legal] in *.
  - eapply wp_mono; [by apply wp_add_request|]. intros [] s' [? E]. split; [done|]. intros rid r Hr. left. rewrite E, lookup_insert_ne; [done|].
    intros <-. rewrite (en_id _ _ Hx) in Hr. done.
  - apply wp_bind. eapply wp_mono; [by apply wp_schedule|]. intros out s' [? []]. apply wp_ret. auto.
  - apply wp_bind. eapply wp_mono; [by apply wp_update_from_output|]. intros out' s' [? [? _]]. by apply wp_ret.
  - eapply wp_mono; [by apply wp_finish_requests|]. intros [] s' (? & [? _] & _). done.
  - apply wp_bind. eapply wp_mono; [by apply wp_sched_reset|]. intros b s' [? ?]. apply wp_ret. auto.
Qed.

(** The states the engine can bring a new scheduler to *)
Inductive reachable : scheduler → Prop :=
  | reach_init fin kvc ngpu eagle events use_int dcp pcp esize w s : config_ok kvc caching eagle events dcp pcp → 0 ≤ esize →
      Sched.init (T := T) new_queue c None fin kvc ngpu caching eagle events use_int dcp pcp esize w = Ok s →
      block_size <$> kv_managers (kv_cache_manager s) = block_sizes → reachable s
  | reach_call s x s' : reachable s → call_legal s x → run_sched_call x s = (Ok (), s') → reachable s'.

Lemma sched_reachable_ok s : reachable s → sched_ok s.
Proof.
  induction 1 as [fin kvc ngpu eagle events use_int dcp pcp esize w s Hcfg He E Ebs|s x s' _ IH Hx E].
  - unfold Sched.init in E. rewrite bool_decide_false in E by (by intros [? [=]]). cbn [andb] in E. destruct (negb _); [done|].
    apply result_bind_ok in E as (k & Ek & E). injection E as <-. cbn [kv_cache_manager] in Ebs. pose proof (init_ok FreeQueue.rep _ _ _ _ _ _ _ _ _ k Hcfg Ek) as Hk.
    assert (kv_cfg k = cfg) as Ecfg.
    { unfold kv_cfg. rewrite Ebs. unfold KVCacheManager_init in Ek. destruct (caching && _); [done|]. destruct (get_kv_cache_coordinator _ _ _ _ _ _ _ _); [|done]. by injection Ek as <-. }
    exists [], ∅. split_and!; cbn; try done; [|apply ql_new|apply Hplain]. split; cbn; try done.
    + apply ql_compat_nil.
    + constructor.
    + intros rid r. rewrite lookup_empty. split; [done|]. by intros [?%not_elem_of_nil _].
    + by intros r ?%not_elem_of_nil.
    + intros rid. rewrite lookup_empty. by intros [? [=]].
    + by apply enc_init_ok.
  - pose proof (wp_sched_call s x IH Hx) as H. unfold wp in H. rewrite E in H. apply H.
Qed.
End scheduler.
