(* ===== verification/SchedulerAdvance.v ===== *)
(** * How far the requests get in a step

    What [schedule] does to the number of computed tokens of the requests that are
    running before and after it: the first loop changes it only by preempting, the second
    only for requests that were not running, and the last one adds the tokens that were
    given.  The statements are about runs that return; that they do is shown in
    SchedulerSafe.v. *)

From stdpp Require Import base tactics option list gmap strings.
From Stdlib Require Import ZArith Lia QArith.
From S2P Require Import Prelude KVCacheUtils Request BlockHash BlockPool Ledger KVCacheInterface SingleTypeManager Coordinator KVCacheManager EncoderCache RequestQueue Scheduler.
Local Open Scope Z_scope.

(** [keeps R c]: whatever [c] returns, it relates the states before and after by [R]. *)
Definition keeps {S A} (R : S → S → Prop) (c : M S A) : Prop := ∀ s a s', c s = (Ok a, s') → R s s'.

Section keeps.
Context {S : Type} (R : S → S → Prop) `{!PreOrder R}.

Lemma keeps_bind {A B} (c : M S A) (f : A → M S B) : keeps R c → (∀ a, keeps R (f a)) → keeps R (c ≫= f).
Proof. intros Hc Hf s b s' (a & s1 & E & E')%bind_ok. etrans; [by eapply Hc|by eapply Hf]. Qed.
Lemma keeps_ret {A} (a : A) : keeps R (mret a).
Proof. by intros s b s' [= _ <-]. Qed.
Lemma keeps_raise {A} e : keeps R (raise (A := A) e).
Proof. by intros s b s' [=]. Qed.
Lemma keeps_get : keeps R get.
Proof. by intros s b s' [= _ <-]. Qed.
Lemma keeps_modify f : (∀ s, R s (f s)) → keeps R (modify f).
Proof. intros Hf s b s' [= _ <-]. apply Hf. Qed.
Lemma keeps_assert b : keeps R (assert_ b).
Proof. destruct b; [apply keeps_ret|apply keeps_raise]. Qed.
Lemma keeps_of_result {A} (r : result A) : keeps R (of_result r).
Proof. destruct r; [apply keeps_ret|apply keeps_raise]. Qed.
Lemma keeps_zoom {T A} (rd : S → T) (wr : T → S → S) (c : M T A) : (∀ t s, R s (wr t s)) → keeps R (zoom rd wr c).
Proof. intros Hw s a s'. unfold zoom. destruct (c (rd s)) as [r t]. intros [= _ <-]. apply Hw. Qed.
Lemma keeps_for_each {A} (l : list A) (f : A → M S ()) : (∀ x, keeps R (f x)) → keeps R (for_each l f).
Proof. intros Hf. induction l as [|x l IH]; [apply keeps_ret|]. apply keeps_bind; [apply Hf|done]. Qed.
End keeps.

Lemma keeps_mono {S A} (R R' : S → S → Prop) (c : M S A) : (∀ s s', R s s' → R' s s') → keeps R c → keeps R' c.
Proof. intros HR Hc s a s' E. by eapply HR, Hc. Qed.

Section advance.
Context {Q W T : Type}.
Context (queue : gmap nat (Z * Z) → RequestQueue nat Q) (new_queue : Q) (c : Config) (structured : StructuredOutputManager W T)
  (set_iter : list nat → list nat).
Abbreviation scheduler := (Scheduler Q W).
Implicit Types (s : scheduler) (v : locals) (r : nat).

(** Status and computed tokens of the request behind a reference *)
Definition progress s r : option (RequestStatus * Z) := (λ q, (status q, num_computed_tokens q)) <$> objs s !! r.

(** Nothing moves; nothing but [r] moves; running requests do not move; what is running
    was running and has not moved. *)
Definition still s s' : Prop := ∀ r, progress s' r = progress s r.
Definition still_but r0 s s' : Prop := ∀ r, r ≠ r0 → progress s' r = progress s r.
Definition forward s s' : Prop := ∀ r n, progress s r = Some (RUNNING, n) → progress s' r = Some (RUNNING, n).
Definition backward s s' : Prop := ∀ r n, progress s' r = Some (RUNNING, n) → progress s r = Some (RUNNING, n).

#[local] Instance still_preorder : PreOrder still.
Proof. split; [by intros s r|]. intros a b d H H' r. by rewrite H'. Qed.
#[local] Instance still_but_preorder r0 : PreOrder (still_but r0).
Proof. split; [by intros s r|]. intros a b d H H' r Hr. by rewrite H', H. Qed.
#[local] Instance forward_preorder : PreOrder forward.
Proof. split; [by intros s r|]. intros a b d H H' r n Hn. by apply H', H. Qed.
#[local] Instance backward_preorder : PreOrder backward.
Proof. split; [by intros s r|]. intros a b d H H' r n Hn. by apply H, H'. Qed.

Lemma still_forward s s' : still s s' → forward s s'.
Proof. intros H r n E. by rewrite H. Qed.
Lemma still_backward s s' : still s s' → backward s s'.
Proof. intros H r n E. by rewrite <-H. Qed.
(** A request that was not running may move. *)
Lemma still_but_forward r0 s s' : still_but r0 s s' → (∀ n, progress s r0 ≠ Some (RUNNING, n)) → forward s s'.
Proof. intros H Hr0 r n E. destruct (decide (r = r0)) as [->|Hne]; [by destruct (Hr0 n)|]. by rewrite H. Qed.

Lemma progress_upd s r0 f r : progress (Sched.set_objs (alter f r0 (objs s)) s) r =
  if decide (r = r0) then (λ q, (status (f q), num_computed_tokens (f q))) <$> objs s !! r else progress s r.
Proof.
  unfold progress. cbn [objs Sched.set_objs]. case_decide as E; [subst r; rewrite lookup_alter_eq; by destruct (objs s !! r0)|by rewrite lookup_alter_ne].
Qed.

Lemma upd_still r0 f : (∀ q, status (f q) = status q ∧ num_computed_tokens (f q) = num_computed_tokens q) → keeps still (Sched.upd r0 f).
Proof.
  intros Hf. apply keeps_modify. intros s r. rewrite progress_upd. case_decide; [|done]. unfold progress. destruct (objs s !! r) as [q|]; [|done].
  cbn. by destruct (Hf q) as [-> ->].
Qed.
Lemma upd_still_but r0 f : keeps (still_but r0) (Sched.upd r0 f).
Proof. apply keeps_modify. intros s r Hr. by rewrite progress_upd, decide_False. Qed.
Lemma obj_still r : keeps still (Sched.obj (W := W) (Q := Q) r).
Proof. apply keeps_bind; [apply _|apply keeps_get, _|]. intros s. destruct (objs s !! r); [apply keeps_ret, _|apply keeps_raise]. Qed.
Lemma on_kv_still {A} (f : M KVCacheManager A) : keeps still (Sched.on_kv (Q := Q) (W := W) f).
Proof. by apply keeps_zoom. Qed.
Lemma on_enc_still {A} (f : M EncoderCacheManager A) : keeps still (Sched.on_enc (Q := Q) (W := W) f).
Proof. by apply keeps_zoom. Qed.
Lemma on_world_still {A} (f : M W A) : keeps still (Sched.on_world (Q := Q) f).
Proof. by apply keeps_zoom. Qed.
Lemma on_waiting_still {A} (f : RequestQueue nat Q → M Q A) : keeps still (Sched.on_waiting (W := W) queue f).
Proof. intros s a s'. apply (keeps_zoom still). by intros q s0 r. Qed.
Lemma on_local_still {A} (f : RequestQueue nat Q → M Q A) q : keeps still (Sched.on_local (W := W) queue f q).
Proof. intros s a s'. unfold Sched.on_local. destruct (f _ q) as [[x|e] q']; [|done]. by intros [= _ <-]. Qed.

(** One step through a program all of whose parts leave the requests alone *)
Ltac still_step :=
  lazymatch goal with
  | |- keeps _ (mbind _ _) => apply keeps_bind; [apply _| |intros ?]
  | |- keeps _ (mret _) => apply keeps_ret, _
  | |- keeps _ (raise _) => apply keeps_raise
  | |- keeps _ get => apply keeps_get, _
  | |- keeps _ (assert_ _) => apply keeps_assert, _
  | |- keeps _ (of_result _) => apply keeps_of_result, _
  | |- keeps _ (for_each _ _) => apply keeps_for_each; [apply _|intros ?]
  | |- keeps _ (modify _) => apply keeps_modify; by intros ? ?
  | |- keeps _ (Sched.upd _ _) => apply upd_still; by intros ?
  | |- keeps _ (Sched.obj _) => apply obj_still
  | |- keeps _ (Sched.on_kv _) => apply on_kv_still
  | |- keeps _ (Sched.on_enc _) => apply on_enc_still
  | |- keeps _ (Sched.on_world _) => apply on_world_still
  | |- keeps _ (Sched.on_waiting _ _) => apply on_waiting_still
  | |- keeps _ (Sched.on_local _ _ _) => apply on_local_still
  | |- keeps _ (let x := _ in _) => cbv zeta
  | |- keeps _ (match ?x with _ => _ end) => destruct x
  end.
Ltac still := repeat still_step.

(** ** The running requests *)

Lemma try_encoder_still q computed n budget : keeps still (Sched.try_encoder (Q := Q) (T := T) c (None (A := ECConnector W T)) q computed n budget).
Proof. unfold Sched.try_encoder. still. Qed.
Lemma allocate_encoder_still q inputs external : keeps still (Sched.allocate_encoder (Q := Q) (T := T) (None (A := ECConnector W T)) q inputs external).
Proof. unfold Sched.allocate_encoder. still. Qed.

Lemma schedule_running_kept r nb n inputs external b v s v' s' :
  Sched.schedule_running (Q := Q) (T := T) (None (A := ECConnector W T)) r nb n inputs external b v s = (Ok v', s') → still s s' ∧ l_preempted v' = l_preempted v.
Proof.
  intros E. split.
  - revert E. apply keeps_bind; [apply _|apply obj_still|]. intros q. still. apply allocate_encoder_still.
  - apply bind_ok in E as (q & s1 & _ & E). apply bind_ok in E as (? & s2 & _ & E). apply bind_ok in E as (? & s3 & _ & E). by injection E as <- _.
Qed.

Lemma select_victim_kept v s p v' s' : Sched.select_victim (Q := Q) (W := W) c v s = (Ok (p, v'), s') → still s s'.
Proof. revert s p s'. intros s p s'. apply (keeps_mono still still); [done|]. unfold Sched.select_victim, Sched.rollback. still. Qed.

Lemma preempt_backward now p v s v' s' : Sched.preempt queue c set_iter now p v s = (Ok v', s') → backward s s' ∧ l_preempted v' ≠ [].
Proof.
  intros E. unfold Sched.preempt in E. split.
  - revert E. apply keeps_bind; [apply _|eapply keeps_mono; [apply still_backward|still]|]. intros q.
    do 2 (apply keeps_bind; [apply _|eapply keeps_mono; [apply still_backward|still]|intros _]).
    apply keeps_bind; [apply _| |intros _; eapply keeps_mono; [apply still_backward|still]].
    apply keeps_modify. intros s0 r m. rewrite progress_upd. case_decide; [|done]. by destruct (objs s0 !! r).
  - apply bind_ok in E as (q & s1 & _ & E). do 5 (apply bind_ok in E as (? & ? & _ & E)). injection E as <- _. cbn. by destruct (l_preempted v).
Qed.

(** Without a preemption nothing moves. *)
Definition unless_preempted v s v' s' : Prop := backward s s' ∧ (l_preempted v' = l_preempted v ∧ still s s' ∨ l_preempted v' ≠ []).

Lemma unless_preempted_trans v s v1 s1 v2 s2 : unless_preempted v s v1 s1 → unless_preempted v1 s1 v2 s2 → unless_preempted v s v2 s2.
Proof.
  intros [Hb Hc] [Hb' Hc']. split; [by etrans|]. destruct Hc' as [[E Hs]|]; [|by right]. rewrite E. destruct Hc as [[E' Hs']|]; [left; split; [done|by etrans]|by right].
Qed.
Lemma unless_preempted_still v s v' s' : still s s' → l_preempted v' = l_preempted v → unless_preempted v s v' s'.
Proof. intros H E. split; [by apply still_backward|by left]. Qed.

Lemma alloc_loop_kept now r n fuel : ∀ v s x s', Sched.alloc_loop (W := W) queue c set_iter fuel now r n v s = (Ok x, s') → unless_preempted v s x.2 s'.
Proof.
  induction fuel as [|fuel IH]; intros v s x s' E; [done|]. cbn in E. apply bind_ok in E as (q & s1 & E1%obj_still & E). apply bind_ok in E as (nb & s2 & E2%on_kv_still & E).
  assert (still s s2) as Hs by by etrans. destruct nb as [b|]; [injection E as <- <-; by apply unless_preempted_still|].
  apply bind_ok in E as ([p v1] & s3 & E3%select_victim_kept & E). apply bind_ok in E as (v2 & s4 & [Hb Hp]%preempt_backward & E). cbn [fst snd] in *.
  assert (unless_preempted v s v2 s4) as H.
  { split; [|by right]. etrans; [|exact Hb]. apply still_backward. by etrans. }
  case_decide; [by injection E as <- <-|]. eapply unless_preempted_trans; [exact H|by eapply IH].
Qed.

Lemma running_loop_kept now fuel : ∀ v s v' s', Sched.running_loop queue c (T := T) (None (A := ECConnector W T)) set_iter fuel now v s = (Ok v', s') → unless_preempted v s v' s'.
Proof.
  induction fuel as [|fuel IH]; intros v s v' s' E; [done|]. cbn [Sched.running_loop] in E. apply bind_ok in E as (s0 & s0' & [= <- <-] & E).
  destruct (running s !! l_index v) as [r|]; [|injection E as <- <-; by apply unless_preempted_still].
  destruct (l_budget v <=? 0); [injection E as <- <-; by apply unless_preempted_still|].
  apply bind_ok in E as (q & s1 & E1%obj_still & E). apply bind_ok in E as ([[[inputs n] b] external] & s2 & E2 & E).
  assert (still s s2) as Hs.
  { etrans; [exact E1|]. destruct (has_encoder_inputs q); [by apply try_encoder_still in E2|]. by injection E2 as _ _ _ _ <-. }
  case_bool_decide as Hn.
  - eapply unless_preempted_trans; [by apply (unless_preempted_still v s (Sched.with_index (S (l_index v)) v) s2)|by eapply IH].
  - apply bind_ok in E as ([o v1] & s3 & H3%alloc_loop_kept & E). cbn [fst snd] in *.
    assert (unless_preempted v s v1 s3) as H by (eapply unless_preempted_trans; [by apply (unless_preempted_still v s v s2)|done]).
    destruct o as [nb|]; [|by injection E as <- <-]. apply bind_ok in E as (v2 & s4 & [H4 E4]%schedule_running_kept & E).
    eapply unless_preempted_trans; [exact H|]. eapply unless_preempted_trans; [by apply unless_preempted_still|by eapply IH].
Qed.

(** ** The waiting requests *)

(** A change of a request that is not running *)
Lemma upd_not_running r f s a s' q : objs s !! r = Some q → status q ≠ RUNNING → Sched.upd r f s = (Ok a, s') → forward s s'.
Proof.
  intros Hq Hst E%upd_still_but. eapply still_but_forward; [exact E|]. intros n. unfold progress. rewrite Hq. by intros [= ? _].
Qed.

Lemma obj_ok r s q s' : Sched.obj (Q := Q) (W := W) r s = (Ok q, s') → s' = s ∧ objs s !! r = Some q.
Proof. unfold Sched.obj. intros (s1 & ? & [= <- <-] & E)%bind_ok. destruct (objs s !! r) as [q'|]; [|done]. by injection E as <- <-. Qed.

Abbreviation no_connector := (None (A := KVConnector W T)).
Abbreviation no_ec := (None (A := ECConnector W T)).

Lemma admissible_forward r v : keeps forward (Sched.admissible c no_connector structured (Q := Q) r v).
Proof.
  intros s a s' E. unfold Sched.admissible in E. apply bind_ok in E as (q & s0 & [-> Hq]%obj_ok & E). apply bind_ok in E as (b & s1 & E1 & E).
  case_bool_decide as Hrem. { by apply bind_ok in E1 as (b' & s2 & (? & ? & ? & _)%bind_ok & _). }
  injection E1 as <- <-. cbn [negb] in E. apply bind_ok in E as (q' & s0 & [-> Hq']%obj_ok & E). apply bind_ok in E as (b & s1 & E1 & E).
  assert (forward s s1) as Hf; [|by destruct (negb b); injection E as _ <-].
  case_bool_decide as Hfsm; [|by injection E1 as _ <-]. apply bind_ok in E1 as (g & s2 & E2 & E1). apply bind_ok in E1 as (u & s3 & E3 & [= _ <-]).
  assert (still s s2 ∧ objs s2 = objs s) as [Hs Ho].
  { destruct (use_structured_output q'); [|by injection E2 as _ <-]. split; [by eapply on_world_still|]. revert E2. unfold Sched.on_world, zoom.
    destruct (grammar_ready structured q' (world s)) as [x w]. by intros [= _ <-]. }
  etrans; [by apply still_forward|]. destruct g; [|by injection E3 as _ <-]. eapply (upd_not_running r _ s2 _ s3 q'); [by rewrite Ho|congruence|exact E3].
Qed.

Lemma find_computed_still r : keeps still (Sched.find_computed no_connector (Q := Q) r).
Proof. unfold Sched.find_computed. still. Qed.
Lemma find_computed_sync r s blocks num_local num_external async computed s' :
  Sched.find_computed no_connector (Q := Q) r s = (Ok (Some (blocks, num_local, num_external, async, computed)), s') → async = false.
Proof.
  intros (q & s1 & _ & E)%bind_ok. case_bool_decide; [|by injection E]. apply bind_ok in E as (hit & s2 & _ & E). by injection E.
Qed.
Lemma plan_waiting_still q n e async v : keeps still (Sched.plan_waiting (Q := Q) (T := T) c no_ec q n e async v).
Proof. unfold Sched.plan_waiting. still. apply try_encoder_still. Qed.
Lemma skip_still r sk : keeps still (Sched.skip (W := W) queue r sk).
Proof. unfold Sched.skip. still. Qed.

(** Only the request that starts moves, and it was not running. *)
Lemma start_running_forward now r n computed inputs external b v : keeps forward (Sched.start_running c no_ec (Q := Q) (T := T) now r n computed inputs external b v).
Proof.
  intros s a s' E. assert (still_but r s s') as Hbut.
  { revert E. eapply (keeps_mono (still_but r)); [done|]. unfold Sched.start_running, Sched._update_connector_prefix_cache_stats.
    repeat first [apply upd_still_but | apply (keeps_mono still); [by intros ? ? H ? _|apply allocate_encoder_still]
      | apply (keeps_mono still); [by intros ? ? H ? _|apply obj_still] | still_step]. }
  eapply still_but_forward; [exact Hbut|]. intros m Hm.
  unfold Sched.start_running in E. apply bind_ok in E as (? & s1 & E1 & E). apply bind_ok in E as (? & s2 & E2 & E). apply bind_ok in E as (? & s3 & E3 & E).
  apply bind_ok in E as (q & s0 & [-> Hq]%obj_ok & E). apply bind_ok in E as (k & s4 & E4 & _).
  assert (still s s3) as Hs.
  { trans s1; [revert E1|trans s2; [revert E2|revert E3]].
    - unfold Sched._update_connector_prefix_cache_stats. eapply (keeps_mono still); [done|still].
    - eapply (keeps_mono still); [done|still].
    - eapply (keeps_mono still); [done|still]. }
  specialize (Hs r). rewrite Hm in Hs. unfold progress in Hs. rewrite Hq in Hs. cbn in Hs. destruct (status q); (done || by injection Hs).
Qed.

Lemma waiting_step_forward now v sk : keeps forward (Sched.waiting_step queue c no_connector no_ec structured now v sk).
Proof.
  assert (∀ A (m : M scheduler A), keeps still m → keeps forward m) as Hf by (intros A m; apply keeps_mono, still_forward).
  intros s a s' E. unfold Sched.waiting_step in E. apply bind_ok in E as (r & s1 & E1%on_waiting_still & E). apply bind_ok in E as (ok & s2 & E2%admissible_forward & E).
  assert (forward s s2) as H2 by (etrans; [by apply still_forward|done]). etrans; [exact H2|]. clear H2 E1 E2 s1.
  destruct ok; cbn [negb] in E; [|revert E; apply Hf; still; apply skip_still].
  apply bind_ok in E as (found & s3 & E3 & E). pose proof (find_computed_still _ _ _ _ E3) as H3%still_forward. etrans; [exact H3|]. clear H3.
  destruct found as [[[[[blocks nl] ne] async] computed]|]; [|revert E; apply Hf; still; apply skip_still]. apply find_computed_sync in E3 as ->.
  revert E. apply keeps_bind; [apply _|apply Hf, obj_still|]. intros q. apply keeps_bind; [apply _|apply Hf, plan_waiting_still|].
  intros [[[[inputs n] b] external]|]; [|apply Hf; still; apply skip_still]. cbn [negb].
  case_match; [apply Hf; still|]. cbv zeta. apply keeps_bind; [apply _|apply Hf; still|]. intros [nb|]; [|apply Hf; still].
  apply keeps_bind; [apply _|apply Hf; still|]. intros s0. apply keeps_bind; [apply _|apply Hf; still|]. intros _. apply keeps_bind; [apply _|apply Hf; still|]. intros r'.
  apply keeps_bind; [apply _|apply start_running_forward|]. intros v'. apply Hf. still.
Qed.

Lemma waiting_loop_forward now fuel : ∀ v sk, keeps forward (Sched.waiting_loop queue c no_connector no_ec structured fuel now v sk).
Proof.
  induction fuel as [|fuel IH]; intros v sk; cbn [Sched.waiting_loop]; [apply keeps_raise|]. apply keeps_bind; [apply _|apply keeps_get, _|]. intros s.
  destruct (_ || _); [apply keeps_ret, _|]. case_bool_decide; [apply keeps_ret, _|]. apply keeps_bind; [apply _|apply waiting_step_forward|].
  intros [[more v'] sk']. destruct more; [apply IH|apply keeps_ret, _].
Qed.

(** ** The tokens are added *)

Lemma mapM_still {A B} (f : A → M scheduler B) l : (∀ x, keeps still (f x)) → keeps still (Sched.mapM_ f l).
Proof. intros Hf. induction l as [|x l IH]; cbn [Sched.mapM_]; still; [apply Hf|done]. Qed.

Lemma make_output_still v : keeps still (Sched.make_output (Q := Q) (W := W) (T := T) c v).
Proof.
  unfold Sched.make_output, Sched._make_cached_request_data, Sched.id_of. still; apply mapM_still; intros ?;
    unfold Sched.new_request_data, Sched.cached_request_entry, Sched.new_block_ids, Sched.id_of; still.
Qed.

Definition add_tokens (k : Z) (x : RequestStatus * Z) : RequestStatus * Z := (x.1, x.2 + k).

Lemma tick_progress x s s' : (s ← get; match requests s !! x.1 with
    | None => raise KeyError
    | Some r => Sched.upd r (λ request, set_num_computed (num_computed_tokens request + x.2) request) ;;
        request ← Sched.obj r;
        if has_encoder_inputs request then Sched.on_enc (EncoderCache._free_encoder_inputs set_iter (is_encoder_decoder c) request) else mret ()
    end) s = (Ok (), s') →
  requests s' = requests s ∧ ∀ r, progress s' r = if decide (requests s !! x.1 = Some r) then add_tokens x.2 <$> progress s r else progress s r.
Proof.
  intros (s0 & ? & [= <- <-] & E)%bind_ok. destruct (requests s !! x.1) as [r0|]; [|done]. apply bind_ok in E as ([] & s1 & [= <-] & E).
  apply bind_ok in E as (q & ? & [-> Hq]%obj_ok & E). match type of E with _ ?s2 = _ => assert (still s2 s' ∧ requests s' = requests s2) as [Hs Hr] end.
  { destruct (has_encoder_inputs q); [|by injection E as <-]. split; [by eapply on_enc_still|]. revert E. unfold Sched.on_enc, zoom. destruct (EncoderCache._free_encoder_inputs _ _ _ _). by intros [= _ <-]. }
  split; [done|]. intros r. rewrite Hs, progress_upd. unfold progress. destruct (decide (r = r0)) as [->|Hne].
  - rewrite decide_True by done. by destruct (objs s !! r0).
  - rewrite decide_False; [done|]. by intros [= ->].
Qed.

Lemma ticks_progress l : ∀ s s', for_each l (λ x, s ← get; match requests s !! x.1 with
    | None => raise KeyError
    | Some r => Sched.upd r (λ request, set_num_computed (num_computed_tokens request + x.2) request) ;;
        request ← Sched.obj r;
        if has_encoder_inputs request then Sched.on_enc (EncoderCache._free_encoder_inputs set_iter (is_encoder_decoder c) request) else mret ()
    end) s = (Ok (), s') → NoDup l.*1 → requests s' = requests s ∧
  ∀ rid r, (∀ rid', requests s !! rid' = Some r ↔ rid' = rid) → progress s' r = add_tokens (default 0 (OD.get rid l)) <$> progress s r.
Proof.
  induction l as [|[rid0 n] l IH]; intros s s' E Hnd.
  - injection E as <-. split; [done|]. intros rid r _. cbn. unfold add_tokens. destruct (progress s r) as [[st m]|]; [|done]. cbn. by rewrite Z.add_0_r.
  - cbn [for_each] in E. apply bind_ok in E as ([] & s1 & [Hr1 Hp1]%tick_progress & E). cbn in Hnd. apply NoDup_cons in Hnd as [Hin Hnd].
    destruct (IH _ _ E Hnd) as [Hr Hp]. split; [congruence|]. intros rid r Hrid. rewrite (Hp rid r), Hp1 by by rewrite Hr1. cbn [fst snd OD.get].
    rewrite (decide_ext _ _ _ _ (Hrid rid0)). case_decide as Hd; [subst rid0|done].
    rewrite <-option_fmap_compose. replace (OD.get rid l) with (None (A := Z)).
    + destruct (progress s r) as [[st m]|]; [|done]. cbn. unfold add_tokens. cbn. by rewrite Z.add_0_r.
    + symmetry. by apply OD.get_None.
Qed.

Lemma update_after_progress (out out' : SchedulerOutput T) s s' : async_scheduling c = false → Sched._update_after_schedule c set_iter out s = (Ok out', s') →
  NoDup (num_scheduled_tokens out').*1 → num_scheduled_tokens out' = num_scheduled_tokens out ∧ requests s' = requests s ∧
  ∀ rid r, (∀ rid', requests s !! rid' = Some r ↔ rid' = rid) → progress s' r = add_tokens (default 0 (OD.get rid (num_scheduled_tokens out))) <$> progress s r.
Proof.
  unfold Sched._update_after_schedule. intros -> E Hnd. apply bind_ok in E as ([] & s1 & E1 & [= <- <-]). apply bind_ok in E1 as ([] & s2 & E2 & [= <-]).
  apply ticks_progress in E2 as [Hr Hp]; [|done]. split_and!; [done|done|]. intros rid r Hrid. by rewrite <-(Hp rid r Hrid).
Qed.

(** A request that is running before and after a step has computed exactly the tokens it
    was given more than before. *)
Lemma schedule_advances now s (out : SchedulerOutput T) s' rid r n m : async_scheduling c = false →
  Sched.schedule queue new_queue c no_connector no_ec structured set_iter now s = (Ok out, s') →
  NoDup (num_scheduled_tokens out).*1 → requests s' = requests s → (∀ rid', requests s !! rid' = Some r ↔ rid' = rid) →
  progress s r = Some (RUNNING, n) → progress s' r = Some (RUNNING, m) → m = n + default 0 (OD.get rid (num_scheduled_tokens out)).
Proof.
  intros Ha E Hnd Hreq Hrid Hn Hm. unfold Sched.schedule in E. apply bind_ok in E as (? & ? & [= <- <-] & E).
  apply bind_ok in E as (v & s1 & [Hb Hk]%running_loop_kept & E). apply bind_ok in E as (loras & s2 & E2 & E).
  assert (still s1 s2) as H2 by (revert E2; unfold Sched.running_loras; eapply (keeps_mono still); [done|still]).
  apply bind_ok in E as (? & ? & [= <- <-] & E). cbn [l_preempted] in E. apply bind_ok in E as ([v' sk] & s3 & E3 & E).
  apply bind_ok in E as (? & ? & [= <- <-] & E). apply bind_ok in E as (? & s4 & E4 & E). apply bind_ok in E as (o & s5 & E5%make_output_still & E).
  assert (still s3 s5) as H5. { etrans; [|exact E5]. revert E4. eapply (keeps_mono still); [done|still]. }
  apply bind_ok in E as (o' & s6 & E6 & E). assert (s6 = s5 ∧ num_scheduled_tokens o' = num_scheduled_tokens o) as [-> _] by (cbv in E6; by injection E6 as <- <-). apply update_after_progress in E as (Eo & Hr & Hp); [|done|done].
  rewrite Eo. rewrite (Hp rid r), H5 in Hm by by rewrite <-Hr, Hreq. assert (progress s3 r = Some (RUNNING, n)) as Hs3; [|rewrite Hs3 in Hm; by injection Hm as <-].
  clear E4. case_bool_decide as Hpre.
  - destruct Hk as [[_ Hs]|Hx]; [|by destruct Hx]. apply waiting_loop_forward in E3. apply E3. by rewrite H2, Hs.
  - injection E3 as _ _ <-. rewrite H2 in Hm |- *. destruct (progress s1 r) as [[st k]|] eqn:Ek; [|done]. injection Hm as -> Hm. apply Hb in Ek. congruence.
Qed.
End advance.
