(* ===== verification/SchedulerProps.v ===== *)
(** * What the scheduler guarantees

    The properties of the scheduler in all states its callers can bring it to, for any
    waiting queue, block hasher and structured-output manager that keep the laws of
    SchedulerInv.v; a run with the FCFS queue, the prefix cache and its hash chain that
    shows the hypotheses can hold; and behaviours that the source does not intend. *)

From stdpp Require Import base tactics option list gmap strings.
From Stdlib Require Import ZArith Lia QArith.
From S2P Require Import Prelude KVCacheUtils Request BlockHash BlockPool Ledger KVCacheInterface SingleTypeManager Coordinator KVCacheManager EncoderCache RequestQueue Scheduler SchedulerInv SchedulerSafe SchedulerAdvance.
Local Open Scope Z_scope.

Section properties.
Context {Q W T : Type}.
Context (queue : attrs → RequestQueue nat Q) (new_queue : Q) (rep : attrs → Q → list nat → Prop) (compat : attrs → list nat → Prop).
Context `{!QueueLaws queue new_queue rep compat}.
Context (c : Config) (structured : StructuredOutputManager W T) `{!StructuredLaws structured}.
Context (publish : list KVCacheEvent → M W ()) (publish_ok : ∀ l w, wp (publish l) w (λ _ _, True)).
Context (caching : bool) (block_sizes : list Z) (block_hasher : option (Request → result (list bytes))) (good : Request → Prop).
Context `{!HasherLaws caching block_sizes block_hasher good}.
Context (set_iter : list nat → list nat) (set_iter_perm : ∀ l, set_iter l ≡ₚ l).
Context (set_order : list string → list string) (set_order_perm : ∀ l, set_order l ≡ₚ remove_dups l).
Context (slice : T → nat → nat → T) (wants_logprobs : SamplingParams → bool) (truthy : T → bool).
Context (size : string → Z) (Hplain : config_plain c).

Abbreviation scheduler := (Scheduler Q W).
Abbreviation reach := (reachable queue new_queue compat c structured publish caching block_sizes block_hasher good set_iter set_order slice wants_logprobs truthy size).
Abbreviation legal := (call_legal (W := W) (T := T) compat c good size).
Abbreviation run := (run_sched_call queue new_queue c structured publish block_hasher set_iter set_order slice wants_logprobs truthy).
Implicit Types (s : scheduler).


Lemma reach_ok s : reach s → sched_ok rep compat c caching block_sizes good size s.
Proof. by apply sched_reachable_ok. Qed.

Lemma run_ok_call s x : reach s → legal s x → wp (run x) s (λ _ s', sched_ok rep compat c caching block_sizes good size s' ∧ kept s s').
Proof. intros Hs Hx. apply wp_sched_call; [done..|by apply reach_ok|done]. Qed.

(** The live requests are those of the two lists. *)
Lemma live_perm s wl L : core compat (sched_max_model_len c) good size (sched_max_model_len c, caching, sched_log_stats c, block_sizes)
    (objs s) (next_ref s) (requests s) (kv_cache_manager s) (encoder_cache_manager s) wl (running s) L [] →
  (map_to_list (requests s)).*2 ≡ₚ wl ++ running s.
Proof.
  intros Hc. pose proof (co_ids _ _ _ _ _ _ _ _ _ _ _ _ _ _ Hc) as Hids. apply NoDup_Permutation.
  - apply NoDup_fmap_2_strong; [|apply NoDup_map_to_list]. intros [rid r] [rid' r'] H1%elem_of_map_to_list H2%elem_of_map_to_list E. cbn in E. subst r'.
    apply Hids in H1 as [_ H1], H2 as [_ H2]. f_equal. congruence.
  - apply (co_nodup _ _ _ _ _ _ _ _ _ _ _ _ _ _ Hc).
  - intros r. split; [|by eapply live_refs]. intros ([rid r'] & -> & H%elem_of_map_to_list)%list_elem_of_fmap. by apply Hids in H as [? _].
Qed.

(** Slots for [N] tokens hold [N] tokens. *)
Lemma live_covers k l L rid N T0 m : km_inv FreeQueue.rep k l → lives_ok k L → L !! rid = Some (N, T0) → m ∈ kv_managers k → T0 ≤ len_of rid m * block_size m.
Proof.
  intros Hk HL E Hm. specialize (HL rid). rewrite E in HL. destruct HL as [HT Hlen]. destruct (Hlen m Hm) as [-> _]. pose proof (km_bs _ _ _ _ Hk Hm) as Hb.
  pose proof (spec_tokens_ge m N Hb). unfold required_blocks. pose proof (cdiv_bounds (spec_tokens (mspec m) N) _ Hb). lia.
Qed.


(** The id of a live request names only that request. *)
Lemma id_unique s wl L r rid : core compat (sched_max_model_len c) good size (sched_max_model_len c, caching, sched_log_stats c, block_sizes)
    (objs s) (next_ref s) (requests s) (kv_cache_manager s) (encoder_cache_manager s) wl (running s) L [] →
  r ∈ wl ++ running s → request_id <$> objs s !! r = Some rid → ∀ rid', requests s !! rid' = Some r ↔ rid' = rid.
Proof.
  intros Hc Hr Hid rid'. pose proof (co_ids _ _ _ _ _ _ _ _ _ _ _ _ _ _ Hc) as Hids. split; [|intros ->; by apply Hids].
  intros [_ H]%Hids. congruence.
Qed.

Lemma running_progress s wl L r : core compat (sched_max_model_len c) good size (sched_max_model_len c, caching, sched_log_stats c, block_sizes)
    (objs s) (next_ref s) (requests s) (kv_cache_manager s) (encoder_cache_manager s) wl (running s) L [] →
  r ∈ running s → ∃ q, objs s !! r = Some q ∧ progress s r = Some (RUNNING, num_computed_tokens q).
Proof.
  intros Hc Hr. destruct (co_req _ _ _ _ _ _ _ _ _ _ _ _ _ _ Hc r) as (q & Hq & _); [apply elem_of_app; by right|].
  destruct (co_run _ _ _ _ _ _ _ _ _ _ _ _ _ _ Hc r q Hr Hq) as [Hst _]. exists q. unfold progress. by rewrite Hq, <-Hst.
Qed.

(** C2. A step of a scheduler of plain configuration (as in the first property) respects
    its token budget and its limit of running requests, and advances the requests by what
    it gives them.  [schedule] gives tokens to different running requests only, at least
    one token each, at most [max_num_scheduled_tokens] in all; its output describes
    exactly the requests that got tokens, each once; a request that runs before and after
    the step has afterwards exactly the tokens it was given more computed tokens, none if
    it was given none, and any request that was given tokens has at least these computed;
    at most [max_num_running_reqs] requests run afterwards; and no request leaves or
    enters the dict of requests. *)
Theorem schedule_within_limits s now : reach s → ∃ out s',
  Sched.schedule (T := T) queue new_queue c None None structured set_iter now s = (Ok out, s') ∧ schedule_ok c s out s' ∧
  Z.of_nat (length (running s')) ≤ max_num_running_reqs c ∧
  ∀ r q, r ∈ running s → r ∈ running s' → objs s !! r = Some q →
    num_computed_tokens <$> objs s' !! r = Some (num_computed_tokens q + default 0 (OD.get (request_id q) (num_scheduled_tokens out))).
Proof.
  intros Hs%reach_ok. pose proof (wp_schedule queue new_queue rep compat c structured caching block_sizes block_hasher good set_iter set_iter_perm size Hplain now s Hs) as H.
  apply wp_ok in H as (out & s' & E & (wl & L & Hc' & _ & Hlen & _) & Hout). exists out, s'. split_and!; [done|done|done|].
  destruct Hs as (wl0 & L0 & Hc & _). intros r q Hr Hr' Hq. destruct (running_progress s wl0 L0 r Hc Hr) as (q0 & Hq0 & Hp). assert (q0 = q) as -> by congruence.
  destruct (running_progress s' wl L r Hc' Hr') as (q' & Hq' & Hp'). rewrite Hq'. cbn. f_equal.
  eapply (schedule_advances queue new_queue c structured set_iter now s out s' (request_id q) r); [apply Hplain|done|apply Hout|apply Hout| |done|done].
  eapply id_unique; [exact Hc|apply elem_of_app; by right|by rewrite Hq].
Qed.

(** C4. Every unfinished request is in exactly one place.  In every reachable state of a
    scheduler of plain configuration, iterating the waiting queue gives requests that are
    pairwise different and different from the running ones; the dict of requests has
    exactly the requests of the queue and of the running list, under their ids; and the
    number of unfinished requests the scheduler reports is the size of the dict.  A
    waiting request is waiting or preempted, has no computed tokens and holds no block; a
    running request has status RUNNING, fewer tokens than the model's maximum length,
    computed tokens that are tokens it has, and in every KV cache group blocks for all of
    its computed tokens. *)
Theorem unfinished_accounted s : reach s → ∃ wl,
  queue_iter (RequestQueue := queue (attributes (objs s))) (waiting s) = Ok wl ∧ NoDup (wl ++ running s) ∧
  (∀ rid r, requests s !! rid = Some r ↔ r ∈ wl ++ running s ∧ request_id <$> objs s !! r = Some rid) ∧
  Sched.get_num_unfinished_requests queue s = base.size (requests s) ∧
  (∀ r, r ∈ wl → ∃ q, objs s !! r = Some q ∧ (status q = WAITING ∨ status q = WAITING_FOR_FSM ∨ status q = PREEMPTED) ∧ num_computed_tokens q = 0 ∧
    ∀ m, m ∈ kv_managers (kv_cache_manager s) → len_of (request_id q) m = 0) ∧
  ∀ r, r ∈ running s → ∃ q, objs s !! r = Some q ∧ status q = RUNNING ∧
    0 ≤ num_computed_tokens q ≤ num_tokens q ∧ num_tokens q < sched_max_model_len c ∧
    ∀ m, m ∈ kv_managers (kv_cache_manager s) → num_computed_tokens q ≤ len_of (request_id q) m * block_size m.
Proof.
  intros (wl0 & L & Hc0 & Hrep & _ & _)%reach_ok. destruct (ql_iter _ _ _ Hrep) as (wl & Eiter & Hwl). exists wl.
  pose proof Hc0 as Hc. eapply (core_perm _ ql_sub) in Hc; [|symmetry; exact Hwl|done]. pose proof Hc as [_ C2 _ C4 C5 C6 C7 _ (l & Hk & _ & HL) _ _]. split_and!; [done|done|done|..].
  - unfold Sched.get_num_unfinished_requests. rewrite (ql_len _ _ _ Hrep), <-length_app, <-(live_perm s wl0 L Hc0), length_fmap. by rewrite length_map_to_list.
  - intros r Hr. destruct (C5 r) as (q & Hq & Hok); [apply elem_of_app; by left|]. exists q. destruct (C6 r q Hr Hq) as (Hst & H0 & HLr). split_and!; [done|done|done|].
    intros m Hm. specialize (HL (request_id q)). rewrite HLr in HL. destruct (HL m Hm) as [E _]. unfold len_of. by rewrite E.
  - intros r Hr. destruct (C5 r) as (q & Hq & Hok); [apply elem_of_app; by right|]. exists q. destruct (C7 r q Hr Hq) as (Hst & N & T0 & EL & H0 & Ht & HT & Hn).
    unfold tokens_of in *. cbn in Ht, HT, Hn. split_and!; [done|done|done|lia|apply Hok|].
    intros m Hm. pose proof (live_covers _ l L _ N T0 m Hk HL EL Hm). lia.
Qed.

(** C5. A request leaves a scheduler of plain configuration only by finishing.  Whatever the
    legal call, a request of the dict is still there afterwards, or its id is among the
    finished ids of the step and the request object has a finished status. *)
Theorem requests_leave_finished s x s' : reach s → legal s x → run x s = (Ok (), s') →
  ∀ rid r, requests s !! rid = Some r → requests s' !! rid = Some r ∨
    requests s' !! rid = None ∧ rid ∈ finished_req_ids s' ∧ is_finished <$> objs s' !! r = Some true.
Proof. intros Hs Hx E. pose proof (run_ok_call s x Hs Hx) as H. unfold wp in H. rewrite E in H. apply H. Qed.

(** C17. An idle scheduler of plain configuration holds nothing.  In every reachable state
    without requests the running list and the waiting queue are empty and every block of the
    KV cache but the null block is free, however the requests came, were preempted, stopped
    or were aborted. *)
Theorem idle_holds_nothing s : reach s → requests s = ∅ →
  running s = [] ∧ queue_len (RequestQueue := queue (attributes (objs s))) (waiting s) = 0%nat ∧
  num_free_blocks (store (block_pool (coordinator (kv_cache_manager s)))) = Z.of_nat (num_gpu_blocks (block_pool (coordinator (kv_cache_manager s)))) - 1.
Proof.
  intros (wl & L & Hc & Hrep & _ & _)%reach_ok E. pose proof (live_perm s wl L Hc) as Hp. rewrite E, map_to_list_empty in Hp. apply Permutation_nil_l in Hp.
  symmetry in Hp. apply app_eq_nil in Hp as [-> Hrun]. split_and!; [done|by rewrite (ql_len _ _ _ Hrep)|].
  destruct (co_kv _ _ _ _ _ _ _ _ _ _ _ _ _ _ Hc) as (l & Hk & _ & HL). assert (L = ∅) as ->.
  { apply map_eq. intros rid. rewrite lookup_empty. apply eq_None_not_Some. intros (r & Hr & _)%(co_lives _ _ _ _ _ _ _ _ _ _ _ _ _ _ Hc). rewrite Hrun in Hr. by apply not_elem_of_nil in Hr. }
  by eapply (no_lives_all_free FreeQueue.rep).
Qed.
End properties.

(** ** A run

    One full-attention group with blocks of two tokens, three usable blocks, the prefix
    cache on: request [a] has four prompt tokens and [b] three, [b] shares the first
    block of [a], and the first generated token of [a] preempts [b]. *)

Definition demo_structured : StructuredOutputManager () () :=
  mkStructured _ _ (λ _, mret true) (λ q, mret (use_structured_output q)) (λ _ _, mret ()) (λ _ ts, mret ts) (λ _ _, mret ()).
#[export] Instance demo_structured_laws : StructuredLaws demo_structured.
Proof. split; [done|]. by intros q ts []. Qed.

Definition demo_cfg : Config :=
  mkSchedulerConfig 2 8 8 0 true false 4 0 0 0 None false true false false false 2 1 FCFS_policy.
Definition demo_kvc : KVCacheConfig := mkConfig 4 [] [mkGroup ["l"%string] (FullAttentionSpec 2 demo_attn None None)].
Definition demo_hasher : option (Request → result (list bytes)) := Some (request_block_hasher demo_hash [Byte.x03] 2).
Definition demo_good (q : Request) : Prop := mm_features q = [] ∧ hashed demo_hash [Byte.x03] 2 q.
Definition demo_publish : list KVCacheEvent → M () () := λ _, mret ().

Lemma demo_plain : config_plain demo_cfg.
Proof. split; done. Qed.
#[export] Instance demo_hasher_laws : HasherLaws true [2] demo_hasher demo_good.
Proof. apply chain_hasher; [apply demo_hash_good|lia|]. intros b ->%list_elem_of_singleton. lia. Qed.

Definition demo_reqs (id : string) (ids : list Z) : Request :=
  match new_request demo_hasher id (Some ids) (Some demo_sampling) None None 0 (Some 0) 0 None None None None 0 with Ok q => q | Raise _ => demo_request end.

Abbreviation dcall := (sched_call (T := ())).
Abbreviation dstate := (Scheduler (list nat) ()).
Abbreviation drun := (run_sched_call fcfs_waiting [] demo_cfg demo_structured demo_publish demo_hasher (λ l, l) remove_dups (λ t _ _, t) (λ _, false) (λ _, false)).
Abbreviation dreach := (reachable fcfs_waiting [] (λ _ _, True) demo_cfg demo_structured demo_publish true [2] demo_hasher demo_good (λ l, l) remove_dups
  (λ t _ _, t) (λ _, false) (λ _, false) (λ _, 1)).
Abbreviation dlegal := (call_legal (Q := list nat) (W := ()) (T := ()) (λ _ _, True) demo_cfg demo_good (λ _, 1)).

Definition demo_sched0 : dstate :=
  match Sched.init (T := ()) [] demo_cfg None true demo_kvc (Some 4) true false false false 1 1 4 () with
  | Ok s => s
  | Raise _ => mkScheduler ∅ 0 ∅ [] [] ∅ None ∅ ∅ ∅ demo_start (enc_init 0) None ()
  end.
Definition demo_output (s : dstate) : SchedulerOutput () :=
  match Sched.schedule (T := ()) fcfs_waiting [] demo_cfg None None demo_structured (λ l, l) 0 s with
  | (Ok out, _) => out
  | _ => mkSchedulerOutput [] (mkCachedData [] ∅ [] ∅ [] [] []) [] 0 ∅ ∅ [] ∅ ∅ [] false None None
  end.
(** One token for each request *)
Definition demo_answer : ModelRunnerOutput () :=
  mkRunnerOutput (<["a"%string := 0%nat]> {["b"%string := 1%nat]}) [[5]; [6]] None ∅ [] None None.

Definition demo_after (xs : list dcall) : dstate := foldl (λ s x, (drun x s).2) demo_sched0 xs.
Definition two_added : list dcall := [AddRequest 0 (demo_reqs "a" [1; 2; 3; 4]); AddRequest 0 (demo_reqs "b" [1; 2; 9])].
Definition first_step : list dcall := two_added ++ [Schedule 0].
Definition first_answer : dcall := UpdateFromOutput (demo_output (demo_after two_added)) demo_answer.
Definition second_step : list dcall := first_step ++ [first_answer; Schedule 0].
Definition all_gone : list dcall := second_step ++ [FinishRequests ["b"; "a"]%string FINISHED_ABORTED].

Lemma demo_kvc_ok : config_ok demo_kvc true false false 1 1.
Proof.
  split; try (cbn; lia).
  all: intros; repeat match goal with H : _ ∈ _ |- _ => cbn in H; apply elem_of_cons in H as [->|H] || by apply not_elem_of_nil in H end.
  all: cbn; (done || lia).
Qed.

Lemma demo_reach0 : dreach (demo_after []).
Proof. eapply (reach_init _ _ _ _ _ _ _ _ _ _ _ _ _ _ _ _ true demo_kvc (Some 4) false false false 1 1 4 ()); [apply demo_kvc_ok|lia|vm_compute; reflexivity|vm_compute; reflexivity]. Qed.

Lemma demo_run xs x : (drun x (demo_after xs)).1 = Ok () → drun x (demo_after xs) = (Ok (), demo_after (xs ++ [x])).
Proof. intros E. unfold demo_after. rewrite foldl_app. cbn [foldl]. by apply run_pair. Qed.

Lemma demo_reach_step xs x : dreach (demo_after xs) → dlegal (demo_after xs) x → (drun x (demo_after xs)).1 = Ok () → dreach (demo_after (xs ++ [x])).
Proof.
  intros Hs Hx E. eapply reach_call; [exact Hs|exact Hx|by apply demo_run].
Qed.

(** The checks on a new request without multimodal inputs, as one boolean *)
Definition demo_checks (s : dstate) (q : Request) : bool :=
  bool_decide (requests s !! request_id q = None) && bool_decide (mm_features q = []) && bool_decide (block_hashes q = hash_chain demo_hash [Byte.x03] 2 q) &&
  bool_decide (num_tokens q = Z.of_nat (num_prompt_tokens q) + num_output_tokens q) && (1 <=? Z.of_nat (num_prompt_tokens q)) && (num_tokens q <? 8) &&
  (num_output_tokens q <? max_tokens q) && (Z.of_nat (num_prompt_tokens q) <=? 8) && (0 <=? max_tokens q) &&
  bool_decide (status q = WAITING) && bool_decide (num_computed_tokens q = 0) && bool_decide (spec_token_ids q = []) && bool_decide (num_output_placeholders q = 0).

Lemma demo_enters s q : demo_checks s q = true → pooling_params q = None → sampling_params q = Some demo_sampling →
  enters (λ _ _, True) demo_cfg demo_good (λ _, 1) s q.
Proof.
  unfold demo_checks. intros H Hp Hs. repeat apply andb_prop in H as [H ?]. rewrite ?bool_decide_eq_true, ?Z.leb_le, ?Z.ltb_lt in *. split; [done| |by left|done|done].
  split; try done.
  - lia.
  - split; [done|]. exists demo_sampling. cbn. split_and!; [done|lia|lia].
  - unfold sized, sorted_inputs. assert (mm_features q = []) as -> by done. split; [by intros f ?%not_elem_of_nil|done].
Qed.

Lemma demo_added : dreach (demo_after two_added).
Proof.
  apply (demo_reach_step [AddRequest 0 (demo_reqs "a" [1; 2; 3; 4])]); [|apply demo_enters; vm_compute; reflexivity|vm_compute; reflexivity].
  apply (demo_reach_step []); [apply demo_reach0|apply demo_enters; vm_compute; reflexivity|vm_compute; reflexivity].
Qed.

Lemma demo_first : dreach (demo_after first_step).
Proof. apply demo_reach_step; [apply demo_added|done|vm_compute; reflexivity]. Qed.

Lemma demo_answers (s : dstate) (so : SchedulerOutput ()) : num_scheduled_tokens so = [("a"%string, 4); ("b"%string, 1)] →
  scheduled_spec_decode_tokens so = ∅ → answers s so demo_answer.
Proof.
  intros E Es. split; rewrite ?E; [done|done|done|..].
  - intros x [-> |[-> |?%not_elem_of_nil]%elem_of_cons]%elem_of_cons; [done|done|done].
  - intros x r [-> |[-> |?%not_elem_of_nil]%elem_of_cons]%elem_of_cons _; [exists 0%nat, [5]|exists 1%nat, [6]|done]; split_and!; (reflexivity || done).
Qed.

Lemma demo_second : dreach (demo_after second_step).
Proof.
  apply (demo_reach_step (first_step ++ [first_answer])); [|done|vm_compute; reflexivity].
  apply demo_reach_step; [apply demo_first|apply demo_answers; vm_compute; reflexivity|vm_compute; reflexivity].
Qed.

(** [b] has been preempted. *)
Lemma demo_second_state : running (demo_after second_step) = [0%nat] ∧ waiting (demo_after second_step) = [1%nat] ∧
  requests (demo_after second_step) !! "b"%string = Some 1%nat.
Proof. split_and!; vm_compute; reflexivity. Qed.

Lemma demo_gone : dreach (demo_after all_gone).
Proof. apply demo_reach_step; [apply demo_second|done|vm_compute; reflexivity]. Qed.

Lemma demo_publish_ok l w : wp (demo_publish l) w (λ _ _, True).
Proof. done. Qed.

Lemma demo_iter (l : list nat) : l ≡ₚ l.
Proof. done. Qed.
Lemma demo_order (l : list string) : remove_dups l ≡ₚ remove_dups l.
Proof. done. Qed.


Lemma schedule_within_limits_witness : ∃ out s',
  Sched.schedule (T := ()) fcfs_waiting [] demo_cfg None None demo_structured (λ l, l) 0 (demo_after second_step) = (Ok out, s') ∧
  schedule_ok demo_cfg (demo_after second_step) out s' ∧ Z.of_nat (length (running s')) ≤ 2 ∧
  ∀ r q, r ∈ running (demo_after second_step) → r ∈ running s' → objs (demo_after second_step) !! r = Some q →
    num_computed_tokens <$> objs s' !! r = Some (num_computed_tokens q + default 0 (OD.get (request_id q) (num_scheduled_tokens out))).
Proof.
  apply (schedule_within_limits fcfs_waiting [] (λ _ q l, q ≡ₚ l) (λ _ _, True) demo_cfg demo_structured demo_publish demo_publish_ok true [2] demo_hasher demo_good
    (λ l, l) demo_iter remove_dups demo_order (λ t _ _, t) (λ _, false) (λ _, false) (λ _, 1) demo_plain). apply demo_second.
Defined.

Lemma unfinished_accounted_witness : let s := demo_after second_step in ∃ wl,
  queue_iter (RequestQueue := fcfs_waiting (attributes (objs s))) (waiting s) = Ok wl ∧ NoDup (wl ++ running s) ∧
  (∀ rid r, requests s !! rid = Some r ↔ r ∈ wl ++ running s ∧ request_id <$> objs s !! r = Some rid) ∧
  Sched.get_num_unfinished_requests fcfs_waiting s = size (requests s) ∧
  (∀ r, r ∈ wl → ∃ q, objs s !! r = Some q ∧ (status q = WAITING ∨ status q = WAITING_FOR_FSM ∨ status q = PREEMPTED) ∧ num_computed_tokens q = 0 ∧
    ∀ m, m ∈ kv_managers (kv_cache_manager s) → len_of (request_id q) m = 0) ∧
  ∀ r, r ∈ running s → ∃ q, objs s !! r = Some q ∧ status q = RUNNING ∧
    0 ≤ num_computed_tokens q ≤ num_tokens q ∧ num_tokens q < 8 ∧
    ∀ m, m ∈ kv_managers (kv_cache_manager s) → num_computed_tokens q ≤ len_of (request_id q) m * block_size m.
Proof.
  apply (unfinished_accounted fcfs_waiting [] (λ _ q l, q ≡ₚ l) (λ _ _, True) demo_cfg demo_structured demo_publish demo_publish_ok true [2] demo_hasher demo_good
    (λ l, l) demo_iter remove_dups demo_order (λ t _ _, t) (λ _, false) (λ _, false) (λ _, 1) demo_plain). apply demo_second.
Defined.

Lemma requests_leave_finished_witness : let s := demo_after second_step in let s' := demo_after all_gone in
  requests s !! "b"%string = Some 1%nat ∧ (requests s' !! "b"%string = Some 1%nat ∨
    requests s' !! "b"%string = None ∧ "b"%string ∈ finished_req_ids s' ∧ is_finished <$> objs s' !! 1%nat = Some true).
Proof.
  split; [vm_compute; reflexivity|].
  apply (requests_leave_finished fcfs_waiting [] (λ _ q l, q ≡ₚ l) (λ _ _, True) demo_cfg demo_structured demo_publish demo_publish_ok true [2] demo_hasher demo_good
    (λ l, l) demo_iter remove_dups demo_order (λ t _ _, t) (λ _, false) (λ _, false) (λ _, 1) demo_plain
    (demo_after second_step) (FinishRequests ["b"; "a"]%string FINISHED_ABORTED)); [apply demo_second|done|apply demo_run; vm_compute; reflexivity|vm_compute; reflexivity].
Defined.

Lemma idle_holds_nothing_witness : let s := demo_after all_gone in
  running s = [] ∧ queue_len (RequestQueue := fcfs_waiting (attributes (objs s))) (waiting s) = 0%nat ∧
  num_free_blocks (store (block_pool (coordinator (kv_cache_manager s)))) = Z.of_nat (num_gpu_blocks (block_pool (coordinator (kv_cache_manager s)))) - 1.
Proof.
  apply (idle_holds_nothing fcfs_waiting [] (λ _ q l, q ≡ₚ l) (λ _ _, True) demo_cfg demo_structured demo_publish demo_publish_ok true [2] demo_hasher demo_good
    (λ l, l) demo_iter remove_dups demo_order (λ t _ _, t) (λ _, false) (λ _, false) (λ _, 1) demo_plain); [apply demo_gone|vm_compute; reflexivity].
Defined.

(** ** Behaviours the source does not intend *)

(** A run of calls on a scheduler without prefix cache, whether all of them succeeded, and
    the state *)
Section scripts.
Context {Q : Type} (queue : attrs → RequestQueue nat Q) (new_queue : Q) (c : Config).

Inductive event := EAdd (q : Request) | ESchedule | EUpdate (i : nat) (tokens : list (string * Z)).

(** [EUpdate i] answers the [i]-th output, with a token for the requests it names. *)
Definition answer (tokens : list (string * Z)) : ModelRunnerOutput () :=
  mkRunnerOutput (list_to_map (imap (λ i x, (x.1, i)) tokens)) ((λ x, if x.2 <? 0 then [] else [x.2]) <$> tokens) None ∅ [] None None.

Definition script_step (st : bool * list (SchedulerOutput ()) * Scheduler Q ()) (e : event) : bool * list (SchedulerOutput ()) * Scheduler Q () :=
  let '(ok, outs, s) := st in
  match e with
  | EAdd q => match Sched.add_request queue c 0 q s with (Ok _, s') => (ok, outs, s') | (Raise _, s') => (false, outs, s') end
  | ESchedule =>
      match Sched.schedule (T := ()) queue new_queue c None None demo_structured (λ l, l) 0 s with
      | (Ok out, s') => (ok, outs ++ [out], s')
      | (Raise _, s') => (false, outs, s')
      end
  | EUpdate i tokens =>
      match outs !! i with
      | None => (false, outs, s)
      | Some so =>
          match Sched.update_from_output queue c None demo_structured demo_publish None (λ l, l) (λ t _ _, t) (λ _, false) (λ _, false) so (answer tokens) s with
          | (Ok _, s') => (ok, outs, s')
          | (Raise _, s') => (false, outs, s')
          end
      end
  end.
Definition script (blocks : nat) (es : list event) : bool * list (SchedulerOutput ()) * Scheduler Q () :=
  let kvc := mkConfig blocks [] [mkGroup ["l"%string] (FullAttentionSpec 2 demo_attn None None)] in
  match Sched.init (T := ()) new_queue c None false kvc (Some (Z.of_nat blocks)) false false false false 1 1 16 () with
  | Ok s => foldl script_step (true, [], s) es
  | Raise _ => (false, [], mkScheduler ∅ 0 ∅ new_queue [] ∅ None ∅ ∅ ∅ demo_start (enc_init 0) None ())
  end.
Definition next_schedule (st : bool * list (SchedulerOutput ()) * Scheduler Q ()) :=
  Sched.schedule (T := ()) queue new_queue c None None demo_structured (λ l, l) 0 st.2.
End scripts.

Definition script_request (id : string) (prio : Z) (ids : list Z) (sp : SamplingParams) (mm : list MultiModalFeatureSpec) (lora : option LoRARequest) : Request :=
  match new_request None id (Some ids) (Some sp) None None 0 (Some prio) 0 None (Some mm) lora None prio with Ok q => q | Raise _ => demo_request end.

(** One LoRA adapter at a time; encoder budget of four tokens, nine tokens per step *)
Definition lora_cfg : Config :=
  mkSchedulerConfig 3 9 32 0 true false 4 0 0 0 (Some 1) false false false false false 2 1 FCFS_policy.
Definition lora_events : list event :=
  [EAdd (script_request "r0" 0 (replicate 12 1) demo_sampling [mkMM "i0" 2 4; mkMM "i1" 6 4] None);
   EAdd (script_request "r1" 0 (replicate 8 1) demo_sampling [mkMM "i2" 3 4] (Some (mkLoRA "x" 1))); ESchedule;
   EAdd (script_request "r2" 0 (replicate 5 1) demo_sampling [] (Some (mkLoRA "y" 2))); ESchedule].

(** A request of three prompt tokens that asks for at least ten more, in a model of at
    most six tokens *)
Definition stuck_cfg : Config :=
  mkSchedulerConfig 3 9 6 0 true false 4 0 0 0 None false false false false false 2 1 FCFS_policy.
Definition stuck_events : list event :=
  [EAdd (script_request "r" 0 [1; 2; 3] (mkSampling (Some 10) 10 false None None None None) [] None);
   ESchedule; EUpdate 0 [("r"%string, 4)]; ESchedule; EUpdate 1 [("r"%string, 5)]; ESchedule; EUpdate 2 [("r"%string, 6)]; ESchedule].

(** Pipelined steps: two outputs are in flight; X has the lowest priority. *)
Definition skip_cfg : Config :=
  mkSchedulerConfig 8 9 32 0 true false 4 0 0 0 None false false false false false 2 1 PRIORITY_policy.
Definition skip_events : list event :=
  let add id prio ids := EAdd (script_request id prio ids demo_sampling [] None) in
  [add "x"%string 9 [1; 2; 3]; add "y"%string 1 [1; 2; 3]; ESchedule; add "z"%string 2 [1; 2]; add "w"%string 3 [1; 2]; ESchedule;
   EUpdate 0 [("x"%string, 5); ("y"%string, 5)]; ESchedule; EUpdate 1 [("z"%string, 5); ("w"%string, 5)]; ESchedule].

(** The LoRA limit is counted on scheduled requests only.  A running request that is
    skipped for lack of encoder budget does not count, so a request with another adapter
    is admitted; when both are scheduled in the next step, [schedule] fails its assertion
    that at most [max_loras] adapters are in the batch. *)
Example lora_limit_assertion_fails :
  let st := script fcfs_waiting [] lora_cfg 40 lora_events in
  st.1.1 = true ∧ running st.2 = [0; 1; 2]%nat ∧ (num_scheduled_tokens <$> last st.1.2) = Some [("r0"%string, 6); ("r2"%string, 3)] ∧
  (next_schedule fcfs_waiting [] lora_cfg st).1 = Raise AssertionError.
Proof. vm_compute. split_and!; reflexivity. Qed.

Definition stuck_state := script fcfs_waiting [] stuck_cfg 40 stuck_events.

Lemma stuck_fixpoint outs : script_step fcfs_waiting [] stuck_cfg (true, outs, stuck_state.2) ESchedule =
  (true, outs ++ [default (demo_output demo_sched0) (last stuck_state.1.2)], stuck_state.2).
Proof. vm_compute. reflexivity. Qed.

(** A request can stay for ever.  [check_stop] does not stop a request before its
    [min_tokens], not even at the maximum model length, and from there [schedule] has no
    token left to give it: the request of the example, with [prompt + min_tokens] above the
    maximum length, is running, unfinished and without tokens after every further step. *)
Example min_tokens_request_stuck n :
  let st := foldl (script_step fcfs_waiting [] stuck_cfg) stuck_state (replicate n ESchedule) in
  st.1.1 = true ∧ running st.2 = [0%nat] ∧ requests st.2 !! "r"%string = Some 0%nat ∧ (status <$> objs st.2 !! 0%nat) = Some RUNNING ∧
  length st.1.2 = (4 + n)%nat ∧ Forall (λ out, num_scheduled_tokens out = []) (drop 3 st.1.2).
Proof.
  assert (∀ outs, ∃ outs', foldl (script_step fcfs_waiting [] stuck_cfg) (true, outs, stuck_state.2) (replicate n ESchedule) = (true, outs ++ outs', stuck_state.2) ∧
    length outs' = n ∧ Forall (λ out, num_scheduled_tokens out = []) outs') as Hn.
  { induction n as [|n IH]; intros outs; cbn [replicate foldl]; [exists []; by rewrite app_nil_r|]. rewrite stuck_fixpoint.
    destruct (IH (outs ++ [default (demo_output demo_sched0) (last stuck_state.1.2)])) as (outs' & -> & Hl & Hf). eexists. rewrite <-app_assoc. split; [reflexivity|].
    split; [cbn; lia|]. apply Forall_app. split; [|done]. constructor; [vm_compute; reflexivity|constructor]. }
  destruct (Hn stuck_state.1.2) as (outs' & E & Hl & Hf). assert (stuck_state = (true, stuck_state.1.2, stuck_state.2)) as Es by (vm_compute; reflexivity).
  assert (length stuck_state.1.2 = 4%nat) as Ho by (vm_compute; reflexivity).
  assert (Forall (λ out, num_scheduled_tokens out = []) (drop 3 stuck_state.1.2)) as Hd by (vm_compute; repeat constructor).
  assert (running stuck_state.2 = [0%nat]) as Hr by (vm_compute; reflexivity).
  assert (requests stuck_state.2 !! "r"%string = Some 0%nat) as Hq by (vm_compute; reflexivity).
  assert ((status <$> objs stuck_state.2 !! 0%nat) = Some RUNNING) as Hs by (vm_compute; reflexivity).
  rewrite <-Es in E. cbv zeta. rewrite E. clear Es E Hn. generalize dependent stuck_state. intros st Ho Hd Hr Hq Hs. cbn [fst snd]. split_and!; try done.
  - rewrite length_app, Hl, Ho. reflexivity.
  - rewrite drop_app_le by lia. apply Forall_app. by split.
Qed.

(** The preemption of a request that was passed over does not move the position back, so
    the request after the current one is passed over as well: [w] has a token to compute,
    there is budget and a free block, and it is not scheduled. *)
Lemma priority_preemption_passes_over :
  let st := script priority_waiting [] skip_cfg 7 skip_events in
  st.1.1 = true ∧ (num_scheduled_tokens <$> last st.1.2) = Some [("z"%string, 1)] ∧
  (λ q, (request_id q, status q, num_computed_tokens q, num_tokens q)) <$> objs st.2 !! 3%nat = Some ("w"%string, RUNNING, 2, 3) ∧
  num_free_blocks (store (block_pool (coordinator (kv_cache_manager st.2)))) = 1.
Proof. vm_compute. split_and!; reflexivity. Qed.
