(* ===== verification/NgramProposer.v ===== *)
(** * vllm/v1/spec_decode/ngram_proposer.py

    Draft tokens for speculative decoding, found in the tokens of the request itself: the
    search for the longest n-gram that ends the context and occurs earlier in it (the prefix
    function of Knuth, Morris and Pratt on the reversed context, capped at the longest
    n-gram), and the batch over the requests of a step with its preallocated buffers.

    The search is equal to a direct definition ([reference]); the batch is exact when no
    request is left out before another one, and gives drafts to the wrong requests
    otherwise. *)

From stdpp Require Import base tactics option list gmap strings.
From Stdlib Require Import ZArith Lia.
From S2P Require Import Prelude.
Local Open Scope nat_scope.

(** ** [_find_longest_matched_ngram_and_propose_tokens] *)

(** The local variables of the loop *)
Record kmp := mkKmp { lps : list nat; longest_ngram : nat; position : nat; prev_lps : nat; pos : nat (** [i] *) }.

(** [while i < total_token].  Compiled code does not check array bounds; an access out of
    bounds is [IndexError] here, and does not occur. *)
Fixpoint kmp_loop (fuel : nat) (tokens : list Z) (max_ngram : nat) (v : kmp) : result kmp :=
  match fuel with
  | O => Raise OutOfFuel
  | S fuel' =>
      let i := pos v in
      if i <? length tokens then
        match tokens !! prev_lps v, tokens !! i with
        | Some a, Some b =>
            if (a =? b)%Z then
              let prev := S (prev_lps v) in
              let longer := longest_ngram v <=? prev in
              let lps' := if i <? max_ngram then <[i := prev]> (lps v) else lps v in
              prev' ← (if prev =? max_ngram then match lps' !! (max_ngram - 1) with Some w => Ok w | None => Raise IndexError end else Ok prev);
              kmp_loop fuel' tokens max_ngram
                (mkKmp lps' (if longer then prev else longest_ngram v) (if longer then i else position v) prev' (S i))
            else if negb (prev_lps v =? 0) then
              match lps v !! (prev_lps v - 1) with
              | Some w => kmp_loop fuel' tokens max_ngram (mkKmp (lps v) (longest_ngram v) (position v) w i)
              | None => Raise IndexError
              end
            else kmp_loop fuel' tokens max_ngram (mkKmp (lps v) (longest_ngram v) (position v) 0 (S i))
        | _, _ => Raise IndexError
        end
      else Ok v
  end.

(** Every round moves [i] forward, or [prev_lps] back, which never exceeds [i]. *)
Definition kmp_fuel (tokens : list Z) : nat := S (2 * length tokens).

Definition _find_longest_matched_ngram_and_propose_tokens (origin_tokens : list Z) (min_ngram max_ngram : nat) (max_model_len k : Z) : result (list Z) :=
  let total_token := length origin_tokens in
  if total_token <? min_ngram then Ok [] else
  let k := Z.min k (max_model_len - Z.of_nat total_token) in
  if (k <=? 0)%Z then Ok [] else
  let tokens := reverse origin_tokens in
  v ← kmp_loop (kmp_fuel tokens) tokens max_ngram (mkKmp (replicate max_ngram 0) 0 0 0 1);
  if longest_ngram v <? min_ngram then Ok [] else
  let start_position := total_token - 1 - position v + longest_ngram v in
  let k := Z.min k (Z.of_nat total_token - Z.of_nat start_position) in
  Ok (take (Z.to_nat k) (drop start_position origin_tokens)).

(** ** The specification

    The n-gram at the end of the context occurs at an earlier position; the two may overlap. *)
Definition occurs (tokens : list Z) (n p : nat) : bool :=
  (p + n <? length tokens) && bool_decide (take n (drop p tokens) = drop (length tokens - n) tokens).
(** The first occurrence *)
Definition first_at (tokens : list Z) (n : nat) : option nat := head (filter (λ p, occurs tokens n p = true) (seq 0 (length tokens))).
(** The longest n-gram with its first occurrence *)
Definition best_match (tokens : list Z) (min_ngram max_ngram : nat) : option (nat * nat) :=
  head (omap (λ n, pair n <$> first_at tokens n) (reverse (seq min_ngram (S max_ngram - min_ngram)))).
(** Up to [k] tokens that follow it, within the maximum length of the model *)
Definition reference (tokens : list Z) (min_ngram max_ngram : nat) (max_model_len k : Z) : list Z :=
  match best_match tokens min_ngram max_ngram with
  | Some (n, p) => take (Z.to_nat (Z.min k (max_model_len - Z.of_nat (length tokens)))) (drop (p + n) tokens)
  | None => []
  end.

(** ** The batch *)

Record NgramProposer := mkProposer {
  min_n : nat;
  max_n : nat;
  num_spec : Z;  (** [k] *)
  prop_max_model_len : Z;
  valid_ngram_draft : list (list Z);
  valid_ngram_num_drafts : list Z;
}.
Definition set_buffers (draft : list (list Z)) (num : list Z) (s : NgramProposer) : NgramProposer :=
  mkProposer (min_n s) (max_n s) (num_spec s) (prop_max_model_len s) draft num.
(** [__init__]; the warm-up call of [propose] has no request to work on *)
Definition new_proposer (prompt_lookup_min prompt_lookup_max : nat) (k max_model_len : Z) (max_num_seqs : nat) : NgramProposer :=
  mkProposer prompt_lookup_min prompt_lookup_max k max_model_len
    (replicate max_num_seqs (replicate (Z.to_nat k) 0%Z)) (replicate max_num_seqs 0%Z).

(** One iteration of [batch_propose_numba]; the iterations write different rows, so they
    may run in parallel. *)
Definition propose_one (num_tokens_no_spec : list nat) (token_ids_cpu : list (list Z)) (x : nat * nat) : M NgramProposer () :=
  let '(i, idx) := x in
  num_tokens ← index num_tokens_no_spec idx;
  row ← index token_ids_cpu idx;
  s ← get;
  drafter_output ← of_result (_find_longest_matched_ngram_and_propose_tokens (take num_tokens row) (min_n s) (max_n s) (prop_max_model_len s) (num_spec s));
  _ ← index (valid_ngram_num_drafts s) i;
  old ← index (valid_ngram_draft s) i;
  let n := length drafter_output in
  modify (set_buffers (<[i := drafter_output ++ drop n old]> (valid_ngram_draft s)) (<[i := Z.of_nat n]> (valid_ngram_num_drafts s))).
Definition batch_propose_numba (valid_ngram_requests num_tokens_no_spec : list nat) (token_ids_cpu : list (list Z)) : M NgramProposer () :=
  for_each (imap pair valid_ngram_requests) (propose_one num_tokens_no_spec token_ids_cpu).

Definition read_draft (valid_ngram_requests : list nat) (s : NgramProposer) (i : nat) : result (list Z) :=
  if bool_decide (i ∈ valid_ngram_requests) then
    match valid_ngram_num_drafts s !! i, valid_ngram_draft s !! i with
    | Some n, Some row => Ok (if (0 <? n)%Z then take (Z.to_nat n) row else [])
    | _, _ => Raise IndexError
    end
  else Ok [].
Definition batch_propose (num_requests : nat) (valid_ngram_requests num_tokens_no_spec : list nat) (token_ids_cpu : list (list Z)) : M NgramProposer (list (list Z)) :=
  (if bool_decide (valid_ngram_requests = []) then mret () else batch_propose_numba valid_ngram_requests num_tokens_no_spec token_ids_cpu) ;;
  s ← get;
  of_result (mapR (read_draft valid_ngram_requests s) (seq 0 num_requests)).

(** Whether request [i] gets drafts *)
Definition needs_ngram (sampled_token_ids : list (list Z)) (req_ids : list string) (num_tokens_no_spec : list nat) (unsupported : gset string)
    (s : NgramProposer) (i : nat) : result bool :=
  match sampled_token_ids !! i with
  | Some [] | None => Ok false
  | Some _ =>
      match req_ids !! i with
      | None => Raise IndexError
      | Some rid =>
          if bool_decide (rid ∈ unsupported) then Ok false else
          match num_tokens_no_spec !! i with
          | None => Raise IndexError
          | Some n => Ok (Z.of_nat n <? prop_max_model_len s)%Z
          end
      end
  end.
Definition propose (sampled_token_ids : list (list Z)) (req_ids : list string) (num_tokens_no_spec : list nat) (token_ids_cpu : list (list Z))
    (unsupported : gset string) : M NgramProposer (list (list Z)) :=
  s ← get;
  let all := seq 0 (length sampled_token_ids) in
  bs ← of_result (mapR (needs_ngram sampled_token_ids req_ids num_tokens_no_spec unsupported s) all);
  let valid := omap (λ x, if x.2 : bool then Some x.1 else None) (zip all bs) in
  batch_propose (length sampled_token_ids) valid num_tokens_no_spec token_ids_cpu.

(** ** Borders

    [border t j v]: the first [v] tokens of [t] are also the last [v] of the first [j], and
    [v < j]. *)

Definition border (t : list Z) (j v : nat) : Prop := v < j ∧ ∀ x, x < v → t !! x = t !! (j - v + x).
(** The longest border of [t[:j]] *)
Definition longest_border (t : list Z) (j v : nat) : Prop := border t j v ∧ ∀ w, border t j w → w ≤ v.

Section borders.
Context (t : list Z).
Implicit Types i j w : nat.

Lemma border_0 j : 0 < j → border t j 0.
Proof. split; [done|]. lia. Qed.
Lemma border_S j v : border t (S j) (S v) ↔ border t j v ∧ t !! v = t !! j.
Proof.
  unfold border. split.
  - intros [? H]. split_and!; [lia| |].
    + intros x Hx. rewrite H by lia. f_equal; lia.
    + rewrite H by lia. f_equal; lia.
  - intros [[? H] E]. split; [lia|]. intros x Hx. destruct (decide (x = v)) as [->|]; [rewrite E|rewrite H by lia]; f_equal; lia.
Qed.
Lemma border_trans j v w : border t j v → border t v w → border t j w.
Proof. intros [? H] [? H']. split; [lia|]. intros x Hx. rewrite H' by lia. rewrite H by lia. f_equal; lia. Qed.
Lemma border_inner j v w : border t j v → border t j w → w < v → border t v w.
Proof.
  intros [? H] [? H'] ?. split; [lia|]. intros x Hx. rewrite H' by lia. rewrite (H (v - w + x)) by lia. f_equal; lia.
Qed.
Lemma longest_border_1 : longest_border t 1 0.
Proof. split; [apply border_0; lia|]. intros w [? _]. lia. Qed.

(** What the loop knows in front of position [i]: [prev_lps] is a border of [t[:i]] and no
    longer one (up to the cap) can be extended, [lps] holds the longest borders of the
    prefixes seen so far, and the best match so far is the longest, and the last of these. *)
Record kmp_inv (m : nat) (v : kmp) : Prop := {
  ki_pos : 1 ≤ pos v ≤ length t;
  ki_prev : border t (pos v) (prev_lps v);
  ki_cap : prev_lps v < m;
  ki_ext : ∀ w, border t (S (pos v)) (S w) → S w ≤ m → w ≤ prev_lps v;
  ki_len : length (lps v) = m;
  ki_lps : ∀ j, j < m → j < pos v → ∃ w, lps v !! j = Some w ∧ longest_border t (S j) w;
  ki_zero : ∀ j, j < m → pos v ≤ j → lps v !! j = Some 0;
  ki_best : longest_ngram v ≤ m ∧ ∀ i w, 1 ≤ i < pos v → border t (S i) w → w ≤ m → w ≤ longest_ngram v ∧ (w = longest_ngram v → 1 ≤ w → i ≤ position v);
  ki_found : 1 ≤ longest_ngram v → 1 ≤ position v < pos v ∧ border t (S (position v)) (longest_ngram v);
}.

Lemma kmp_inv_init m : 1 ≤ m → 1 ≤ length t → kmp_inv m (mkKmp (replicate m 0) 0 0 0 1).
Proof.
  intros Hm Ht. split; cbn; try lia.
  - apply border_0. lia.
  - intros w [? _] _. lia.
  - apply length_replicate.
  - intros j ? ?. exists 0. replace j with 0 by lia. split; [by apply lookup_replicate|apply longest_border_1].
  - intros j ? _. by apply lookup_replicate.
  - split; [lia|]. intros i w ?. lia.
Qed.

(** A border of [t[:i+1]] up to the cap, when the tokens at [prev_lps] and [i] agree *)
Lemma kmp_inv_longest m v w : kmp_inv m v → border t (S (pos v)) w → w ≤ m → w ≤ S (prev_lps v).
Proof. intros H Hw ?. destruct w as [|w]; [lia|]. pose proof (ki_ext _ _ H w Hw). lia. Qed.

Lemma kmp_inv_match m v prev lps' a : kmp_inv m v → pos v < length t → t !! prev_lps v = Some a → t !! pos v = Some a →
  prev = S (prev_lps v) → lps' = (if pos v <? m then <[pos v := prev]> (lps v) else lps v) →
  ∃ prev', (if prev =? m then match lps' !! (m - 1) with Some w => Ok w | None => Raise IndexError end else Ok prev) = Ok prev' ∧
    kmp_inv m (mkKmp lps' (if longest_ngram v <=? prev then prev else longest_ngram v) (if longest_ngram v <=? prev then pos v else position v) prev' (S (pos v))).
Proof.
  intros H Hi Ha Hb -> ->. pose proof (ki_prev _ _ H) as [Hlt _]. pose proof (ki_cap _ _ H) as Hcap.
  assert (border t (S (pos v)) (S (prev_lps v))) as HB. { apply border_S. split; [apply (ki_prev _ _ H)|congruence]. }
  set (lps' := if pos v <? m then _ else _).
  assert (length lps' = m) as Hlen. { unfold lps'. destruct (pos v <? m); [rewrite length_insert|]; apply (ki_len _ _ H). }
  assert (∀ j, j < m → j < S (pos v) → ∃ w, lps' !! j = Some w ∧ longest_border t (S j) w) as Hlps.
  { intros j Hj Hjv. unfold lps'. destruct (decide (j = pos v)) as [->|].
    - rewrite (proj2 (Nat.ltb_lt _ _) Hj). exists (S (prev_lps v)). rewrite list_lookup_insert_eq by (rewrite (ki_len _ _ H); lia).
      split; [done|]. split; [done|]. intros w Hw. apply (kmp_inv_longest m); [done..|]. destruct Hw. lia.
    - destruct (pos v <? m); [rewrite list_lookup_insert_ne by done|]; apply (ki_lps _ _ H); lia. }
  assert (∃ prev', (if S (prev_lps v) =? m then match lps' !! (m - 1) with Some w => Ok w | None => Raise IndexError end else Ok (S (prev_lps v))) = Ok prev' ∧
    border t (S (pos v)) prev' ∧ prev' < m ∧ ∀ w, border t (S (pos v)) w → S w ≤ m → w ≤ prev') as (prev' & E & HB' & Hc' & Hx').
  { destruct (Nat.eqb_spec (S (prev_lps v)) m) as [Em|].
    - destruct (Hlps (m - 1)) as (w & -> & [Hw Hl]); [lia..|]. replace (S (m - 1)) with m in * by lia. rewrite Em in HB. exists w. split; [done|].
      split; [by eapply border_trans|]. split; [by destruct Hw|]. intros w' Hw' ?. apply Hl. eapply border_inner; [done..|lia].
    - exists (S (prev_lps v)). split_and!; [done|done|lia|]. intros w Hw ?. apply (kmp_inv_longest m); [done..|lia]. }
  exists prev'. split; [done|]. destruct (ki_best _ _ H) as [HL Hbest]. split; cbn [pos prev_lps lps longest_ngram position]; try done.
  - lia.
  - intros w Hw%border_S ?. apply Hx'; [apply Hw|lia].
  - intros j ? ?. unfold lps'. destruct (pos v <? m); [rewrite list_lookup_insert_ne by lia|]; apply (ki_zero _ _ H); lia.
  - destruct (Nat.leb_spec (longest_ngram v) (S (prev_lps v))); (split; [lia|]); intros i w Hi' Hw ?.
    + destruct (decide (i = pos v)) as [->|]; [split; [by eapply kmp_inv_longest|lia]|]. destruct (Hbest i w); [lia|done|done|]. lia.
    + destruct (decide (i = pos v)) as [->|]; [|apply Hbest; [lia|done..]]. pose proof (kmp_inv_longest m v w H Hw). lia.
  - intros _. destruct (Nat.leb_spec (longest_ngram v) (S (prev_lps v))); [split; [lia|done]|].
    destruct (ki_found _ _ H); [lia|]. split; [lia|done].
Qed.

Lemma kmp_inv_back m v a b : kmp_inv m v → t !! prev_lps v = Some a → t !! pos v = Some b → a ≠ b → prev_lps v ≠ 0 →
  ∃ w, lps v !! (prev_lps v - 1) = Some w ∧ w < prev_lps v ∧ kmp_inv m (mkKmp (lps v) (longest_ngram v) (position v) w (pos v)).
Proof.
  intros H Ha Hb Hab H0. pose proof (ki_prev _ _ H) as HB. pose proof HB as [Hlt _]. pose proof (ki_cap _ _ H).
  destruct (ki_lps _ _ H (prev_lps v - 1)) as (w & Hw & [HBw Hl]); [lia..|]. replace (S (prev_lps v - 1)) with (prev_lps v) in * by lia.
  assert (w < prev_lps v) by (destruct HBw; lia). exists w. split_and!; [done|done|]. split; cbn; try apply H.
  - by eapply border_trans.
  - lia.
  - intros w' Hw' ?. pose proof (ki_ext _ _ H w' Hw'). apply border_S in Hw' as [Hw' E]. apply Hl. eapply border_inner; [done..|].
    destruct (decide (w' = prev_lps v)) as [->|]; [congruence|lia].
Qed.

Lemma kmp_inv_skip m v a b : kmp_inv m v → pos v < length t → t !! prev_lps v = Some a → t !! pos v = Some b → a ≠ b → prev_lps v = 0 →
  kmp_inv m (mkKmp (lps v) (longest_ngram v) (position v) 0 (S (pos v))).
Proof.
  intros H Hi Ha Hb Hab H0. pose proof (ki_cap _ _ H).
  assert (∀ w, border t (S (pos v)) w → w ≤ m → w = 0) as Hnone.
  { intros [|w] Hw ?; [done|]. pose proof (ki_ext _ _ H w Hw). apply border_S in Hw as [_ E]. replace w with (prev_lps v) in E by lia. congruence. }
  split; cbn; try apply H; try lia.
  - apply border_0. lia.
  - intros w [Hw _]%border_S ?. rewrite (Hnone w); [done|done|lia].
  - intros j Hj Hjv. destruct (decide (j = pos v)) as [->|]; [|apply (ki_lps _ _ H); lia]. exists 0. split; [apply (ki_zero _ _ H); lia|].
    split; [apply border_0; lia|]. intros w Hw. rewrite (Hnone w Hw); [done|]. destruct Hw. lia.
  - intros j ? ?. apply (ki_zero _ _ H); lia.
  - destruct (ki_best _ _ H) as [HL Hbest]. split; [done|]. intros i w ? Hw ?. destruct (decide (i = pos v)) as [->|]; [|apply Hbest; [lia|done..]].
    rewrite (Hnone w) by done. lia.
  - intros HL. destruct (ki_found _ _ H HL). split; [lia|done].
Qed.

(** The loop ends with the invariant at the end of the tokens. *)
Lemma kmp_loop_ok fuel m v : kmp_inv m v → 2 * (length t - pos v) + prev_lps v < fuel →
  ∃ v', kmp_loop fuel t m v = Ok v' ∧ kmp_inv m v' ∧ pos v' = length t.
Proof.
  revert v. induction fuel as [|fuel IH]; intros v H Hf; [lia|]. cbn [kmp_loop]. pose proof (ki_pos _ _ H). pose proof (ki_prev _ _ H) as [Hlt _].
  destruct (Nat.ltb_spec (pos v) (length t)); [|exists v; split_and!; [done|done|lia]].
  destruct (lookup_lt_is_Some_2 t (prev_lps v)) as [a Ha]; [lia|]. destruct (lookup_lt_is_Some_2 t (pos v)) as [b Hb]; [lia|]. rewrite Ha, Hb.
  destruct (Z.eqb_spec a b) as [->|Hab].
  - destruct (kmp_inv_match m v _ _ b H ltac:(lia) Ha Hb eq_refl eq_refl) as (prev' & E & H'). rewrite E. cbn [mbind result_bind].
    pose proof (ki_prev _ _ H') as [Hp' _]. pose proof (ki_cap _ _ H') as Hc'. cbn [pos prev_lps] in Hp', Hc'.
    apply IH; [done|]. cbn [pos prev_lps]. assert (prev' ≤ S (prev_lps v)); [|lia].
    destruct (Nat.eqb_spec (S (prev_lps v)) m); [lia|]. by injection E as <-.
  - destruct (Nat.eqb_spec (prev_lps v) 0) as [Hz|Hz]; cbn [negb].
    + apply IH; [by eapply kmp_inv_skip|cbn; lia].
    + destruct (kmp_inv_back m v a b H Ha Hb Hab Hz) as (w & -> & ? & H'). apply IH; [done|cbn; lia].
Qed.
End borders.

(** ** The search finds what the specification says *)

Lemma occurs_spec l n p : occurs l n p = true ↔ p + n < length l ∧ ∀ x, x < n → l !! (p + x) = l !! (length l - n + x).
Proof.
  unfold occurs. rewrite andb_true_iff, Nat.ltb_lt, bool_decide_eq_true. split; intros [Hp H]; (split; [done|]).
  - intros x Hx. rewrite <-(lookup_drop l p), <-(lookup_take_lt _ n) by done. by rewrite H, lookup_drop.
  - apply list_eq. intros x. destruct (decide (x < n)).
    + rewrite lookup_take_lt, !lookup_drop by done. by apply H.
    + rewrite lookup_take_ge by lia. symmetry. apply lookup_ge_None. rewrite length_drop. lia.
Qed.
(** An earlier occurrence is a border of the reversed tokens. *)
Lemma occurs_border l n p : occurs l n p = true ↔ border (reverse l) (length l - p) n.
Proof.
  rewrite occurs_spec. unfold border. split.
  - intros [Hp H]. split; [lia|]. intros x Hx. rewrite !reverse_lookup by lia. specialize (H (n - S x)).
    replace (length l - S x) with (length l - n + (n - S x)) by lia. rewrite <-H by lia. f_equal; lia.
  - intros [Hp H]. split; [lia|]. intros x Hx. specialize (H (n - S x)). rewrite !reverse_lookup in H by lia.
    replace (p + x) with (length l - S (length l - p - n + (n - S x))) by lia. rewrite <-H by lia. f_equal; lia.
Qed.
Lemma first_at_spec l n p : occurs l n p = true → (∀ x, occurs l n x = true → p ≤ x) → first_at l n = Some p.
Proof.
  intros Hp Hmin. unfold first_at. pose proof (head_filter_seq (λ p, occurs l n p = true) (length l) 0) as H.
  pose proof (proj1 (proj1 (occurs_spec _ _ _) Hp)). destruct (head _) as [q|].
  - destruct H as (? & Hq & Hf). f_equal. pose proof (Hmin q Hq). destruct (decide (p < q)); [|lia]. by destruct (Hf p ltac:(lia)).
  - destruct (H p); [lia|done].
Qed.
Lemma first_at_none l n : (∀ x, occurs l n x ≠ true) → first_at l n = None.
Proof.
  intros Hn. unfold first_at. pose proof (head_filter_seq (λ p, occurs l n p = true) (length l) 0) as H. destruct (head _) as [q|]; [|done]. destruct H as (_ & Hq & _). by destruct (Hn q).
Qed.

Lemma best_match_none l lo hi : (∀ n p, lo ≤ n ≤ hi → occurs l n p ≠ true) → best_match l lo hi = None.
Proof.
  intros H. apply head_omap_none. intros n Hn. rewrite elem_of_reverse, elem_of_seq in Hn. rewrite first_at_none; [done|]. intros x. apply H. lia.
Qed.
Lemma best_match_some l lo hi n p : lo ≤ n ≤ hi → occurs l n p = true → (∀ x, occurs l n x = true → p ≤ x) →
  (∀ n' p', n < n' ≤ hi → occurs l n' p' ≠ true) → best_match l lo hi = Some (n, p).
Proof.
  intros Hn Hp Hmin Hmax. unfold best_match. replace (S hi - lo) with ((n - lo) + S (hi - n)) by lia. rewrite seq_app, reverse_app. replace (lo + (n - lo)) with n by lia.
  cbn [seq]. rewrite reverse_cons, <-app_assoc, omap_app. cbn [app omap list_omap]. rewrite (first_at_spec _ _ _ Hp Hmin). cbn [fmap option_fmap option_map].
  assert (omap (λ n, pair n <$> first_at l n) (reverse (seq (S n) (hi - n))) = []) as ->; [|done].
  apply head_None, head_omap_none. intros x Hx. rewrite elem_of_reverse, elem_of_seq in Hx. rewrite first_at_none; [done|]. intros y. apply Hmax. lia.
Qed.

Lemma kmp_search l m : 1 ≤ m → 1 ≤ length l → ∃ v, kmp_loop (kmp_fuel (reverse l)) (reverse l) m (mkKmp (replicate m 0) 0 0 0 1) = Ok v ∧
  longest_ngram v ≤ m ∧ (∀ n p, 1 ≤ n ≤ m → occurs l n p = true → n ≤ longest_ngram v ∧ (n = longest_ngram v → length l - 1 - position v ≤ p)) ∧
  (1 ≤ longest_ngram v → position v < length l ∧ occurs l (longest_ngram v) (length l - 1 - position v) = true).
Proof.
  intros Hm Hl. destruct (kmp_loop_ok (reverse l) (kmp_fuel (reverse l)) m (mkKmp (replicate m 0) 0 0 0 1)) as (v & E & H & Hp).
  { apply kmp_inv_init; [done|by rewrite length_reverse]. }
  { unfold kmp_fuel. cbn. lia. }
  rewrite length_reverse in Hp. exists v. destruct (ki_best _ _ _ H) as [HL Hbest]. split_and!; [done|done| |].
  - intros n p Hn Ho. pose proof (proj1 (proj1 (occurs_spec _ _ _) Ho)). apply occurs_border in Ho.
    replace (length l - p) with (S (length l - p - 1)) in Ho by lia. destruct (Hbest (length l - p - 1) n); [lia|done|lia|]. split; [done|]. intros. lia.
  - intros Hn. destruct (ki_found _ _ _ H Hn) as [? HB]. split; [lia|]. apply occurs_border. by replace (length l - (length l - 1 - position v)) with (S (position v)) by lia.
Qed.

(** C14. The search equals its specification.  With the n-gram lengths in order, it
    terminates without leaving its arrays, and proposes the tokens that follow the first
    occurrence of the longest n-gram that ends the context, at most [k] and never beyond
    the maximum length of the model; the capped prefix function loses no match. *)
Theorem ngram_search_exact tokens min_ngram max_ngram max_model_len k : 1 ≤ min_ngram ≤ max_ngram →
  _find_longest_matched_ngram_and_propose_tokens tokens min_ngram max_ngram max_model_len k = Ok (reference tokens min_ngram max_ngram max_model_len k).
Proof.
  intros Hm. unfold _find_longest_matched_ngram_and_propose_tokens, reference. destruct (Nat.ltb_spec (length tokens) min_ngram).
  { rewrite best_match_none; [done|]. intros n p ? [? _]%occurs_spec. lia. }
  destruct (Z.leb_spec (Z.min k (max_model_len - Z.of_nat (length tokens))) 0).
  { rewrite Z2Nat.nonpos by done. by destruct (best_match _ _ _) as [[]|]. }
  destruct (kmp_search tokens max_ngram) as (v & -> & HL & Hbest & Hfound); [lia..|]. cbn [mbind result_bind].
  destruct (Nat.ltb_spec (longest_ngram v) min_ngram).
  { rewrite best_match_none; [done|]. intros n p ? Ho. destruct (Hbest n p); [lia|done|lia]. }
  destruct Hfound as [? Ho]; [lia|]. rewrite (best_match_some _ _ _ (longest_ngram v) (length tokens - 1 - position v)).
  - f_equal. rewrite Z2Nat.inj_min, <-take_take. rewrite (take_ge (drop _ _) (Z.to_nat (Z.of_nat (length tokens) - _))) by (rewrite length_drop; lia). done.
  - lia.
  - done.
  - intros x Hx. destruct (Hbest (longest_ngram v) x) as [_ Hx']; [lia|done|]. by apply Hx'.
  - intros n' p' ? Ho'. destruct (Hbest n' p'); [lia|done|lia].
Qed.

Lemma ngram_search_exact_witness : let tokens := [1; 2; 1; 2; 1; 2; 1; 2; 1]%Z in
  _find_longest_matched_ngram_and_propose_tokens tokens 1 3 11 4 = Ok (reference tokens 1 3 11 4) ∧ reference tokens 1 3 11 4 = [2; 1]%Z.
Proof. cbv zeta. split; [apply (ngram_search_exact _ 1 3 11 4); lia|vm_compute; reflexivity]. Defined.

(** ** The batch *)

#[local] Instance result_eq_dec {A} `{EqDecision A} : EqDecision (result A).
Proof. solve_decision. Defined.

Section batch.
Context (num_tokens_no_spec : list nat) (token_ids_cpu : list (list Z)).

(** The tokens of request [idx], and the drafts they give *)
Definition context (idx : nat) : list Z := take (default 0 (num_tokens_no_spec !! idx)) (default [] (token_ids_cpu !! idx)).
Definition own_draft (s : NgramProposer) (idx : nat) : list Z :=
  reference (context idx) (min_n s) (max_n s) (prop_max_model_len s) (num_spec s).
(** What row [i] of the buffers holds *)
Definition row_draft (s : NgramProposer) (i : nat) : list Z :=
  take (Z.to_nat (default 0%Z (valid_ngram_num_drafts s !! i))) (default [] (valid_ngram_draft s !! i)).

(** The rows before [n] hold the drafts of the requests [valid], the others are as in [s]. *)
Definition rows_written (s : NgramProposer) (valid : list nat) (n : nat) (s' : NgramProposer) : Prop :=
  (min_n s', max_n s', prop_max_model_len s', num_spec s') = (min_n s, max_n s, prop_max_model_len s, num_spec s) ∧
  length (valid_ngram_draft s') = length (valid_ngram_draft s) ∧ length (valid_ngram_num_drafts s') = length (valid_ngram_num_drafts s) ∧
  ∀ i, if i <? n then ∀ idx, valid !! i = Some idx → row_draft s' i = own_draft s idx else row_draft s' i = row_draft s i.

Lemma wp_propose_one s s' valid i idx : 1 ≤ min_n s ≤ max_n s → rows_written s valid i s' → valid !! i = Some idx →
  idx < length num_tokens_no_spec → idx < length token_ids_cpu → i < length (valid_ngram_draft s) → i < length (valid_ngram_num_drafts s) →
  wp (propose_one num_tokens_no_spec token_ids_cpu (i, idx)) s' (λ _ s'', rows_written s valid (S i) s'').
Proof.
  intros Hm ([= E1 E2 E3 E4] & Hd & Hn & Hrows) Hi Hi1 Hi2 Hi3 Hi4.
  destruct (lookup_lt_is_Some_2 _ _ Hi1) as [nt Hnt]. destruct (lookup_lt_is_Some_2 _ _ Hi2) as [row Hrow].
  rewrite <-Hd in Hi3. rewrite <-Hn in Hi4. destruct (lookup_lt_is_Some_2 _ _ Hi3) as [old Hold]. destruct (lookup_lt_is_Some_2 _ _ Hi4) as [on Hon].
  assert (context idx = take nt row) as Hc by (unfold context; by rewrite Hnt, Hrow).
  unfold propose_one. apply wp_bind, (wp_index _ _ nt); [done|]. apply wp_bind, (wp_index _ _ row); [done|]. apply wp_bind, wp_gets.
  rewrite ngram_search_exact by (rewrite E1, E2; done). rewrite E1, E2, E3, E4, <-Hc. fold (own_draft s idx). cbn [of_result]. apply wp_bind, wp_ret.
  apply wp_bind, (wp_index _ _ on); [done|]. apply wp_bind, (wp_index _ _ old); [done|]. apply wp_modify. unfold set_buffers, rows_written. cbn [min_n max_n prop_max_model_len num_spec valid_ngram_draft valid_ngram_num_drafts].
  split_and!; [congruence|by rewrite length_insert|by rewrite length_insert|]. intros j. specialize (Hrows j). unfold row_draft. cbn [valid_ngram_num_drafts valid_ngram_draft].
  destruct (decide (j = i)) as [->|].
  - rewrite (proj2 (Nat.ltb_lt i (S i)) ltac:(lia)). intros idx' E. rewrite Hi in E. injection E as <-. rewrite !list_lookup_insert_eq by done. cbn [default].
    unfold id. by rewrite Nat2Z.id, take_app_length.
  - rewrite !list_lookup_insert_ne by done. destruct (Nat.ltb_spec j (S i)), (Nat.ltb_spec j i); try lia; done.
Qed.

Lemma wp_batch_propose_numba s valid : 1 ≤ min_n s ≤ max_n s → (∀ idx, idx ∈ valid → idx < length num_tokens_no_spec ∧ idx < length token_ids_cpu) →
  length valid ≤ length (valid_ngram_draft s) → length valid ≤ length (valid_ngram_num_drafts s) →
  wp (batch_propose_numba valid num_tokens_no_spec token_ids_cpu) s (λ _ s', rows_written s valid (length valid) s').
Proof.
  intros Hm Hv Hd Hn. apply (wp_for_each (λ l s', rows_written s valid (length l) s')).
  - split_and!; try done.
  - intros l x rest s' E Hs. assert (imap pair valid !! length l = Some x) as Hx by (by rewrite E, list_lookup_middle).
    rewrite list_lookup_imap in Hx. destruct (valid !! length l) as [idx|] eqn:Hi; [|done]. injection Hx as <-.
    pose proof (lookup_lt_Some _ _ _ Hi). destruct (Hv idx); [by eapply list_elem_of_lookup_2|]. rewrite length_app, Nat.add_1_r.
    apply wp_propose_one; [done..|lia|lia].
  - intros s'. by rewrite length_imap.
Qed.

Lemma needs_ngram_total sampled req_ids unsupported s i : i < length sampled → length sampled ≤ length req_ids → length sampled ≤ length num_tokens_no_spec →
  ∃ b, needs_ngram sampled req_ids num_tokens_no_spec unsupported s i = Ok b.
Proof.
  intros Hi Hr Hn. unfold needs_ngram. destruct (lookup_lt_is_Some_2 sampled i Hi) as [l ->]. destruct l; [eauto|].
  destruct (lookup_lt_is_Some_2 req_ids i) as [rid ->]; [lia|]. case_bool_decide; [eauto|].
  destruct (lookup_lt_is_Some_2 num_tokens_no_spec i) as [n ->]; [lia|]. eauto.
Qed.
End batch.

(** The requests that get drafts *)
Definition valid_requests (sampled : list (list Z)) (req_ids : list string) (num_tokens_no_spec : list nat) (unsupported : gset string) (s : NgramProposer) : list nat :=
  filter (λ i, needs_ngram sampled req_ids num_tokens_no_spec unsupported s i = Ok true) (seq 0 (length sampled)).

Lemma omap_zip_filter (f : nat → result bool) l bs : mapR f l = Ok bs →
  omap (λ x : nat * bool, if x.2 then Some x.1 else None) (zip l bs) = filter (λ i, f i = Ok true) l.
Proof.
  intros H%mapR_ok. induction H as [|i b l bs E _ IH]; [done|]. rewrite filter_cons, E. destruct b; cbn.
  - by rewrite decide_True, <-IH.
  - by rewrite decide_False, <-IH.
Qed.
(** C34. What [propose] returns.  No array is left, and a request that is left out gets no
    drafts.  The drafts of the [i]-th of the others are written to row [i], but a request
    reads the row of its own number [r]: it gets its own drafts (those of the specification)
    when no request before it is left out, else the drafts of a later request, or what the
    row still held from an earlier step. *)
Theorem propose_rows s sampled req_ids num_tokens_no_spec token_ids_cpu unsupported :
  1 ≤ min_n s ≤ max_n s → length sampled ≤ length req_ids → length sampled ≤ length num_tokens_no_spec → length sampled ≤ length token_ids_cpu →
  length sampled ≤ length (valid_ngram_draft s) → length sampled ≤ length (valid_ngram_num_drafts s) →
  let valid := valid_requests sampled req_ids num_tokens_no_spec unsupported s in
  ∃ s', propose sampled req_ids num_tokens_no_spec token_ids_cpu unsupported s =
    (Ok ((λ r, if decide (r ∈ valid) then
                 match valid !! r with Some r' => own_draft num_tokens_no_spec token_ids_cpu s r' | None => row_draft s r end
               else []) <$> seq 0 (length sampled)), s') ∧
    ∀ r, r ∈ valid → (∀ x, x < r → x ∈ valid) → valid !! r = Some r.
Proof.
  intros Hm Hr Hn Ht Hd Hnd valid.
  destruct (mapR_total (needs_ngram sampled req_ids num_tokens_no_spec unsupported s) (seq 0 (length sampled))) as [bs Hbs].
  { intros i Hi%elem_of_seq. apply needs_ngram_total; lia. }
  assert (∀ i, i ∈ valid → i < length sampled) as Hv by (intros i [_ Hi%elem_of_seq]%list_elem_of_filter; lia).
  assert (length valid ≤ length sampled) as Hlv. { etrans; [apply length_filter|by rewrite length_seq]. }
  assert (wp (propose sampled req_ids num_tokens_no_spec token_ids_cpu unsupported) s (λ r s', r = (λ r, if decide (r ∈ valid) then
                 match valid !! r with Some r' => own_draft num_tokens_no_spec token_ids_cpu s r' | None => row_draft s r end
               else []) <$> seq 0 (length sampled))) as H.
  { unfold propose. apply wp_bind, wp_gets. rewrite Hbs. apply wp_bind, wp_ret. rewrite (omap_zip_filter _ _ _ Hbs). fold valid. unfold batch_propose. apply wp_bind.
    assert (wp (if bool_decide (valid = []) then mret () else batch_propose_numba valid num_tokens_no_spec token_ids_cpu) s
      (λ _ s', rows_written num_tokens_no_spec token_ids_cpu s valid (length valid) s')) as Hw.
    { case_bool_decide as E; [rewrite E; apply wp_ret; by split_and!|]. apply wp_batch_propose_numba; [done| |lia|lia]. intros idx Hi%Hv. lia. }
    eapply wp_mono; [exact Hw|]. intros [] s' (_ & Hl1 & Hl2 & Hrows). apply wp_bind, wp_gets.
    rewrite (mapR_map _ (λ r, if decide (r ∈ valid) then
                 match valid !! r with Some r' => own_draft num_tokens_no_spec token_ids_cpu s r' | None => row_draft s r end else [])); [by apply wp_ret|].
    intros i Hi%elem_of_seq. unfold read_draft. destruct (decide (i ∈ valid)) as [Hiv|Hiv]; [rewrite bool_decide_eq_true_2 by done|by rewrite bool_decide_eq_false_2].
    specialize (Hrows i). assert (match valid !! i with Some r' => own_draft num_tokens_no_spec token_ids_cpu s r' | None => row_draft s i end = row_draft s' i) as ->.
    { destruct (valid !! i) as [r'|] eqn:E.
      - pose proof (lookup_lt_Some _ _ _ E). rewrite (proj2 (Nat.ltb_lt _ _)) in Hrows by done. by rewrite (Hrows r').
      - apply lookup_ge_None in E. by rewrite (proj2 (Nat.ltb_ge _ _)) in Hrows. }
    unfold row_draft. destruct (lookup_lt_is_Some_2 (valid_ngram_num_drafts s') i) as [n ->]; [lia|]. destruct (lookup_lt_is_Some_2 (valid_ngram_draft s') i) as [row ->]; [lia|].
    cbn. unfold id. destruct (Z.ltb_spec 0 n); [done|]. by rewrite Z2Nat.nonpos by lia. }
  apply wp_ok in H as (r & s' & -> & ->). exists s'. split; [done|].
  intros x Hx Hall. unfold valid, valid_requests. apply filter_seq_lookup; [by apply Hv|]. intros y Hy.
  assert (y ∈ valid) as [Hy' _]%list_elem_of_filter; [|done]. destruct (decide (y = x)) as [->|]; [done|]. apply Hall. lia.
Qed.

(** Two requests in one step, then the second alone: it is given the drafts it had before,
    although its context is another one. *)
Definition demo_proposer : NgramProposer :=
  (propose [[5]; [5]]%Z ["a"; "b"]%string [3; 5] [[1; 1; 1; 0; 0]; [1; 2; 3; 1; 2]]%Z ∅ (new_proposer 1 2 2 10 2)).2.
Lemma propose_rows_witness :
  let rows := [[1; 1; 1; 0; 0]; [7; 8; 7; 8; 7]]%Z in
  (∃ s', propose [[]; [5]]%Z ["a"; "b"]%string [3; 5] rows ∅ demo_proposer = (Ok [[]; [3; 1]]%Z, s')) ∧ own_draft [3; 5] rows demo_proposer 1 = [8; 7]%Z.
Proof.
  cbv zeta. split; [|vm_compute; reflexivity].
  destruct (propose_rows demo_proposer [[]; [5]]%Z ["a"; "b"]%string [3; 5] [[1; 1; 1; 0; 0]; [7; 8; 7; 8; 7]]%Z ∅) as (s' & E & _); [vm_compute; lia..|].
  exists s'. rewrite E. f_equal.
Defined.
