(* ===== verification/Detokenizer.v ===== *)
(** * vllm/v1/engine/detokenizer.py and vllm/transformers_utils/detokenizer_utils.py

    From sampled tokens to text: the search for stop strings, the text of a request that
    grows token by token and is streamed with a buffer that holds back what may still
    become a stop string, and the two decoders, on top of the stream of the tokenizers
    library ([Fast]) and on top of a Python tokenizer ([Slow]).  Both libraries are
    parameters.  Text is the list of its code points. *)

From stdpp Require Import base tactics option list gmap strings.
From Stdlib Require Import ZArith Lia.
From S2P Require Import Prelude.
Local Open Scope Z_scope.

Abbreviation text := (list Z).

(** [s.find(sub, start)] *)
Definition find (s sub : text) (start : Z) : Z :=
  let first := Z.to_nat (if start <? 0 then start + Z.of_nat (length s) else start) in
  match head (filter (λ i, take (length sub) (drop i s) = sub) (seq first (S (length s) - first))) with
  | Some i => Z.of_nat i
  | None => -1
  end.
(** [s[:n]] *)
Definition slice_to (s : text) (n : Z) : text := take (Z.to_nat (if n <? 0 then n + Z.of_nat (length s) else n)) s.
Definition len (s : text) : Z := Z.of_nat (length s).

(** [check_stop_strings] *)
Fixpoint check_stop (output_text : text) (new_char_count : Z) (stop : list text) (include_in_output : bool) : option (text * Z) :=
  match stop with
  | [] => None
  | stop_str :: rest =>
      let stop_index := find output_text stop_str (1 - new_char_count - len stop_str) in
      if stop_index =? -1 then check_stop output_text new_char_count rest include_in_output else
      if include_in_output then
        let stop_index := stop_index + len stop_str in
        if len output_text <=? stop_index then Some (stop_str, -1) else Some (stop_str, stop_index)
      else Some (stop_str, stop_index)
  end.
Definition check_stop_strings (output_text : text) (new_char_count : Z) (stop : list text) (include_in_output : bool) : option (text * Z) :=
  if (new_char_count =? 0) || bool_decide (stop = []) then None else check_stop output_text new_char_count stop include_in_output.

(** ** [BaseIncrementalDetokenizer]

    [decode_next] of the subclass works on its own attributes, the decoder. *)
Class Decoder (D : Type) := decode_next : Z → M D text.

Record Detokenizer (D : Type) := mkDetokenizer {
  token_ids : list Z;
  stop : list text;
  min_tokens : Z;
  include_stop_str_in_output : bool;
  stop_buffer_length : Z;
  last_output_text_offset : Z;
  output_text : text;
  prompt_len : nat;  (** the tokens of the prompt in [token_ids]; 0 but for [Slow] *)
  decoder : D;
}.
Arguments mkDetokenizer {D}.
Arguments token_ids {D}.
Arguments stop {D}.
Arguments min_tokens {D}.
Arguments include_stop_str_in_output {D}.
Arguments stop_buffer_length {D}.
Arguments last_output_text_offset {D}.
Arguments output_text {D}.
Arguments prompt_len {D}.
Arguments decoder {D}.

Section detokenizer.
Context {D : Type} `{!Decoder D}.

Abbreviation MD := (M (Detokenizer D)).

(** [__init__] *)
Definition new_detokenizer (stop_list : list text) (min_tokens : Z) (include : bool) (prompt : list Z) (d : D) : Detokenizer D :=
  mkDetokenizer prompt stop_list min_tokens include
    (match stop_list with
     | s :: l => if include then 0 else foldl (λ m x, Z.max m (len x)) (len s) l - 1
     | [] => 0
     end) 0 [] (length prompt) d.

Definition set_token_ids (ts : list Z) (d : Detokenizer D) : Detokenizer D :=
  mkDetokenizer ts (stop d) (min_tokens d) (include_stop_str_in_output d) (stop_buffer_length d) (last_output_text_offset d) (output_text d) (prompt_len d) (decoder d).
Definition set_output_text (t : text) (d : Detokenizer D) : Detokenizer D :=
  mkDetokenizer (token_ids d) (stop d) (min_tokens d) (include_stop_str_in_output d) (stop_buffer_length d) (last_output_text_offset d) t (prompt_len d) (decoder d).
Definition set_text_offset (n : Z) (d : Detokenizer D) : Detokenizer D :=
  mkDetokenizer (token_ids d) (stop d) (min_tokens d) (include_stop_str_in_output d) (stop_buffer_length d) n (output_text d) (prompt_len d) (decoder d).
Definition set_decoder (x : D) (d : Detokenizer D) : Detokenizer D :=
  mkDetokenizer (token_ids d) (stop d) (min_tokens d) (include_stop_str_in_output d) (stop_buffer_length d) (last_output_text_offset d) (output_text d) (prompt_len d) x.

Definition output_token_ids (d : Detokenizer D) : list Z := drop (prompt_len d) (token_ids d).
Definition num_output_tokens (d : Detokenizer D) : Z := Z.of_nat (length (output_token_ids d)).

(** The loop over the new tokens, which moves [stop_check_offset] while there are fewer
    than [min_tokens] *)
Fixpoint decode_all (new_token_ids : list Z) (stop_check_offset : Z) : MD Z :=
  match new_token_ids with
  | [] => mret stop_check_offset
  | t :: rest =>
      modify (λ d, set_token_ids (token_ids d ++ [t]) d) ;;
      piece ← zoom decoder set_decoder (decode_next t);
      modify (λ d, set_output_text (output_text d ++ piece) d) ;;
      d ← get;
      decode_all rest (if negb (min_tokens d =? 0) && (num_output_tokens d <=? min_tokens d) then len (output_text d) else stop_check_offset)
  end.

Definition update (new_token_ids : list Z) (stop_terminated : bool) : MD (option text) :=
  if bool_decide (new_token_ids = []) then mret None else
  d ← get;
  let skip := stop_terminated && negb (include_stop_str_in_output d) in
  let n := (length new_token_ids - 1)%nat in
  stop_check_offset ← decode_all (if skip then take n new_token_ids else new_token_ids) (len (output_text d));
  (if skip then modify (λ d, set_token_ids (token_ids d ++ drop n new_token_ids) d) else mret ()) ;;
  d ← get;
  if negb (bool_decide (stop d = [])) && (min_tokens d <? num_output_tokens d) then
    match check_stop_strings (output_text d) (len (output_text d) - stop_check_offset) (stop d) (include_stop_str_in_output d) with
    | Some (stop_string, truncate_to) =>
        (if truncate_to =? -1 then mret () else modify (λ d, set_output_text (slice_to (output_text d) truncate_to) d)) ;;
        mret (Some stop_string)
    | None => mret None
    end
  else mret None.

Definition get_next_output_text (finished delta : bool) : MD text :=
  d ← get;
  let buffer_length := if finished then 0 else stop_buffer_length d in
  if negb delta then mret (if buffer_length =? 0 then output_text d else slice_to (output_text d) (- buffer_length)) else
  let length := len (output_text d) - buffer_length in
  let last_offset := last_output_text_offset d in
  if last_offset <? length then
    modify (set_text_offset length) ;;
    mret (take (Z.to_nat (length - last_offset)) (drop (Z.to_nat last_offset) (output_text d)))
  else mret [].
End detokenizer.

(** The replacement character, which stands for an incomplete byte sequence *)
Definition replacement : Z := 65533.

(** ** [FastIncrementalDetokenizer] *)

Module Fast.
Section fast.
(** The stream of the tokenizers library: a new one, and a step, which gives a piece of
    text or raises; of an exception it is known whether it is an invalid prefix.
    [decode]: [tokenizer.decode] *)
Context {S : Type} (new_stream : S) (step : Z → S → (option text + exn * bool) * S) (decode : list Z → text).

Record State := mkFast { stream : S; spaces_between_special_tokens : bool; last_special : bool; added_token_ids : gmap Z text }.
Definition set_stream (s : S) (f : State) : State := mkFast s (spaces_between_special_tokens f) (last_special f) (added_token_ids f).

Definition _protected_step (t : Z) : M State (option text) :=
  f ← get;
  match step t (stream f) with
  | (inl o, s) => modify (set_stream s) ;; mret o
  | (inr (e, invalid_prefix), s) =>
      modify (set_stream s) ;;
      match e with
      | OverflowError | TypeError => mret None
      | _ =>
          if negb invalid_prefix then raise e else
          match step t new_stream with
          | (inl o, s') => modify (set_stream s') ;; mret o
          | (inr (e', _), s') => modify (set_stream s') ;; raise e'
          end
      end
  end.

Definition decoder : Decoder State := λ next_token_id,
  token ← _protected_step next_token_id;
  f ← get;
  if spaces_between_special_tokens f then mret (default [] token) else
  let special := added_token_ids f !! next_token_id in
  modify (λ f, mkFast (stream f) (spaces_between_special_tokens f) (bool_decide (is_Some special)) (added_token_ids f)) ;;
  mret (match special with Some t => if last_special f then t else default [] token | None => default [] token end).

(** The shortest suffix of at least four tokens that decodes to whole characters *)
Definition safe_suffix (prompt : list Z) : list Z :=
  let n := length prompt in
  if (n <=? 4)%nat then prompt else
  match head (filter (λ i, replacement ∉ decode (drop (n - i) prompt)) (seq 4 (Nat.min (n + 1) 24 - 4))) with
  | Some i => drop (n - i) prompt
  | None => prompt
  end.
Definition init (prompt_token_ids : option (list Z)) (skip_special spaces_between : bool) (added : gmap Z text) : result State :=
  let f := mkFast new_stream true false ∅ in
  match for_each (safe_suffix (default [] prompt_token_ids)) (λ t, _protected_step t ;; mret ()) f with
  | (Raise e, _) => Raise e
  | (Ok _, f) =>
      let spaces := skip_special || spaces_between in
      Ok (if spaces || bool_decide (added = ∅) then mkFast (stream f) true false ∅ else mkFast (stream f) false false added)
  end.
End fast.
End Fast.

(** ** [SlowIncrementalDetokenizer] *)

Module Slow.
(** A Python tokenizer; a token without text is [None]. *)
Record Tokenizer := mkTokenizer {
  convert_ids_to_tokens : list Z → bool → list (option text);
  convert_tokens_to_string : list (option text) → result text;
  vocab_size : Z;  (** [len(tokenizer)] *)
  is_fast : bool;
  added_vocab : list text;
  all_special_tokens : list text;
}.

Section slow.
Context (tokenizer : Tokenizer) (skip_special_tokens spaces_between_special_tokens : bool).

(** The loop of [_convert_tokens_to_string_with_added_encoders] *)
Fixpoint sub_texts (output_tokens current : list (option text)) : result (list text) :=
  let flush rest := if bool_decide (current = []) then Ok rest else t ← convert_tokens_to_string tokenizer current; Ok (t :: rest) in
  match output_tokens with
  | [] => flush []
  | token :: rest =>
      let is_in l := match token with Some t => bool_decide (t ∈ l) | None => false end in
      if skip_special_tokens && is_in (all_special_tokens tokenizer) then sub_texts rest current else
      if is_in (added_vocab tokenizer) then
        (if bool_decide (current = []) then ts ← sub_texts rest []; Ok (default [] token :: ts)
         else t ← convert_tokens_to_string tokenizer current; ts ← sub_texts rest []; Ok (t :: default [] token :: ts))
      else sub_texts rest (current ++ [token])
  end.
Fixpoint join_with (sep : text) (l : list text) : text :=
  match l with [] => [] | [x] => x | x :: l' => x ++ sep ++ join_with sep l' end.
Definition _convert_tokens_to_string_with_added_encoders (output_tokens : list (option text)) : result text :=
  ts ← sub_texts output_tokens [];
  Ok (join_with (if spaces_between_special_tokens then [32] else []) ts).

Definition to_string (tokens : list (option text)) : result text :=
  if is_fast tokenizer || bool_decide (added_vocab tokenizer = []) then convert_tokens_to_string tokenizer tokens
  else _convert_tokens_to_string_with_added_encoders tokens.

(** [_replace_none_with_empty] and [convert_prompt_ids_to_tokens] *)
Definition _replace_none_with_empty (tokens : list (option text)) : list (option text) := (λ t, Some (default [] t)) <$> tokens.
Definition INITIAL_INCREMENTAL_DETOKENIZATION_OFFSET : nat := 5.
Definition convert_prompt_ids_to_tokens (prompt_ids : list Z) : list (option text) * nat * nat :=
  let last := drop (length prompt_ids - (INITIAL_INCREMENTAL_DETOKENIZATION_OFFSET + 2)) prompt_ids in
  let new_tokens := convert_ids_to_tokens tokenizer last skip_special_tokens in
  let read_offset := length new_tokens in
  (_replace_none_with_empty new_tokens, (read_offset - INITIAL_INCREMENTAL_DETOKENIZATION_OFFSET)%nat, read_offset).

(** [detokenize_incrementally] with the tokens of the previous calls *)
Definition detokenize_incrementally (new_token_id : Z) (prev_tokens : list (option text)) (prefix_offset read_offset : nat)
    : result (list (option text) * text * nat * nat) :=
  let new_tokens := if (0 <=? new_token_id) && (new_token_id <? vocab_size tokenizer)
                    then convert_ids_to_tokens tokenizer [new_token_id] skip_special_tokens else [Some []] in
  let output_tokens := prev_tokens ++ new_tokens in
  prefix_text ← to_string (drop prefix_offset (take read_offset output_tokens));
  new_text ← to_string (drop prefix_offset output_tokens);
  if (length new_text <=? length prefix_text)%nat || bool_decide (last new_text = Some replacement)
  then Ok (new_tokens, [], prefix_offset, read_offset)
  else Ok (new_tokens, drop (length prefix_text) new_text, read_offset, length output_tokens).

(** The attributes; [read_offset] may be missing. *)
Record State := mkSlow { tokens : list (option text); prefix_offset : nat; read_offset : option nat }.
Definition decoder : Decoder State := λ next_token_id,
  s ← get;
  match read_offset s with
  | None => raise AttributeError
  | Some r =>
      x ← of_result (detokenize_incrementally next_token_id (tokens s) (prefix_offset s) r);
      let '(new_tokens, decoded_text, p, r) := x in
      modify (λ s, mkSlow (tokens s ++ new_tokens) p (Some r)) ;; mret decoded_text
  end.

(** [__init__]: a prompt of tokens, or of so many embeddings, whose branch assigns to
    [self.read_offest] *)
Definition init (prompt : list Z + nat) : State :=
  match prompt with
  | inl ids => let '(ts, p, r) := convert_prompt_ids_to_tokens ids in mkSlow ts p (Some r)
  | inr n => mkSlow (replicate n (Some [])) 0 None
  end.
Definition prompt_ids (prompt : list Z + nat) : list Z := match prompt with inl ids => ids | inr n => replicate n 0 end.
End slow.
End Slow.

(** ** The search for stop strings *)

Lemma occurrence_fits (s sub : text) i : take (length sub) (drop i s) = sub → sub ≠ [] → (i + length sub ≤ length s)%nat.
Proof. intros H Hne. assert (length sub ≠ 0)%nat by (by destruct sub). apply (f_equal length) in H. rewrite length_take, length_drop in H. lia. Qed.
Lemma occurrence_take (s sub : text) i n : (i + length sub ≤ n)%nat → take (length sub) (drop i (take n s)) = take (length sub) (drop i s).
Proof. intros H. replace n with (i + (n - i))%nat by lia. rewrite <-take_drop_commute, take_take. f_equal; lia. Qed.

(** What [find] returns: the first occurrence at [first] or later *)
Lemma find_spec s sub start first : first = Z.to_nat (if start <? 0 then start + Z.of_nat (length s) else start) →
  (find s sub start = -1 ∧ ∀ i, (first ≤ i ≤ length s)%nat → take (length sub) (drop i s) ≠ sub) ∨
  (∃ i, find s sub start = Z.of_nat i ∧ (first ≤ i ≤ length s)%nat ∧ take (length sub) (drop i s) = sub ∧
     ∀ j, (first ≤ j < i)%nat → take (length sub) (drop j s) ≠ sub).
Proof.
  intros ->. unfold find. set (a := Z.to_nat _).
  pose proof (head_filter_seq (λ i, take (length sub) (drop i s) = sub) (S (length s) - a) a) as H. destruct (head _) as [i|].
  - right. exists i. destruct H as (? & ? & ?). split_and!; [done|lia|lia|done|done].
  - left. split; [done|]. intros i Hi. apply H. lia.
Qed.

(** The first stop string of the list that occurs in a text, with its first occurrence *)
Definition first_stop (t : text) (stop : list text) : option (text * nat) :=
  head (omap (λ s, pair s <$> head (filter (λ i, take (length s) (drop i t) = s) (seq 0 (S (length t))))) stop).
(** Where the text is cut *)
Definition stop_cut (t : text) (include : bool) (x : text * nat) : text * Z :=
  (x.1, if include then if (length t <=? x.2 + length x.1)%nat then -1 else Z.of_nat (x.2 + length x.1) else Z.of_nat x.2).
(** No stop string occurs in [t]. *)
Definition no_stop (t : text) (stop : list text) : Prop := ∀ s i, s ∈ stop → take (length s) (drop i t) ≠ s.

Lemma find_incremental t n s : s ≠ [] → (0 < n ≤ length t)%nat → (∀ i, take (length s) (drop i (take (length t - n) t)) ≠ s) →
  find t s (1 - Z.of_nat n - len s) = find t s 0.
Proof.
  intros Hs Hn Hno. assert (0 < length s)%nat by (destruct s; [done|cbn; lia]). unfold len.
  assert (∀ i, take (length s) (drop i t) = s → (length t - n < i + length s)%nat) as Hlate.
  { intros i Hi. destruct (decide (i + length s ≤ length t - n)%nat); [|lia]. destruct (Hno i). by rewrite occurrence_take. }
  destruct (find_spec t s (1 - Z.of_nat n - Z.of_nat (length s)) _ eq_refl) as [[-> H1]|(i & -> & H1 & H2 & H3)];
    destruct (find_spec t s 0 _ eq_refl) as [[-> H1']|(i' & -> & H1' & H2' & H3')]; rewrite (proj2 (Z.ltb_lt _ _)) in * by lia; try done.
  - destruct (H1 i'); [|done]. specialize (Hlate i' H2'). lia.
  - destruct (H1' i); [cbn; lia|done].
  - f_equal. pose proof (Hlate i' H2'). destruct (decide (i < i')%nat); [by destruct (H3' i); [cbn; lia|]|].
    destruct (decide (i' < i)%nat); [|lia]. destruct (H3 i'); [lia|done].
Qed.

(** C35. The search looks only at the new characters, and this is enough: when no stop string
    occurs in the text that was searched before, the result is that of a search of the
    whole text: the first stop string of the list that occurs, at its first occurrence,
    and where the text has to be cut. *)
Theorem stop_search_exact t n stop include : (0 < n ≤ length t)%nat → (∀ s, s ∈ stop → s ≠ []) → no_stop (take (length t - n) t) stop →
  check_stop_strings t (Z.of_nat n) stop include = stop_cut t include <$> first_stop t stop.
Proof.
  intros Hn Hne Hno. unfold check_stop_strings. rewrite (proj2 (Z.eqb_neq _ _)) by lia. cbn [orb]. destruct (bool_decide_reflect (stop = [])) as [->|_]; [done|].
  induction stop as [|s stop IH]; [done|]. cbn [check_stop]. rewrite find_incremental; [|apply Hne; left|done|intros i; apply Hno; left].
  unfold first_stop. cbn [omap list_omap]. fold (first_stop t stop). pose proof (head_filter_seq (λ i, take (length s) (drop i t) = s) (S (length t)) 0) as H.
  destruct (find_spec t s 0 _ eq_refl) as [[-> H1]|(i & -> & H1 & H2 & H3)]; cbn [Z.to_nat] in *.
  - destruct (head (filter _ _)) as [j|]; [by destruct H as (? & Hj & _); destruct (H1 j); [cbn; lia|]|]. cbn. apply IH.
    + intros x Hx. apply Hne. by right.
    + intros x j Hx. apply Hno. by right.
  - destruct (head (filter _ _)) as [j|]; [|destruct (H i); [lia|done]]. destruct H as (? & Hj & Hmin).
    assert (j = i) as ->. { destruct (decide (i < j)%nat); [by destruct (Hmin i); [lia|]|]. destruct (decide (j < i)%nat); [|lia]. by destruct (H3 j); [cbn; lia|]. }
    rewrite (proj2 (Z.eqb_neq _ _)) by lia. cbn. unfold stop_cut, len. cbn [fst snd]. destruct include; [|done].
    destruct (Nat.leb_spec (length t) (i + length s)), (Z.leb_spec (Z.of_nat (length t)) (Z.of_nat i + Z.of_nat (length s))); try lia; [done|].
    do 2 f_equal. lia.
Qed.

Lemma stop_search_exact_witness : let t := [1; 2; 3; 4; 5; 3; 4]%Z in
  check_stop_strings t 5 [[9]; [3; 4]] true = stop_cut t true <$> first_stop t [[9]; [3; 4]] ∧ first_stop t [[9]; [3; 4]] = Some ([3; 4], 2%nat).
Proof.
  cbv zeta. split; [|vm_compute; reflexivity]. apply (stop_search_exact _ 5).
  - cbn. lia.
  - intros s Hs. by repeat apply elem_of_cons in Hs as [->|Hs]; [..|apply not_elem_of_nil in Hs].
  - intros s i Hs. cbn [length Nat.sub take]. repeat apply elem_of_cons in Hs as [->|Hs]; [..|by apply not_elem_of_nil in Hs]; do 3 (destruct i as [|i]; [done|]); by cbn.
Defined.

(** ** Streaming *)

Section streaming.
Context {D : Type} `{!Decoder D}.
(** The decoder gives a piece of text for every token. *)
Context (decodes : ∀ t x, wp (decode_next t) x (λ _ _, True)).
Implicit Types d : Detokenizer D.

(** What decoding leaves as it is *)
Definition settings d := (stop d, min_tokens d, include_stop_str_in_output d, stop_buffer_length d, last_output_text_offset d, prompt_len d).

Lemma wp_decode_all ts : ∀ off d, wp (decode_all ts off) d (λ off' d', settings d' = settings d ∧ token_ids d' = token_ids d ++ ts ∧
  (∃ new, output_text d' = output_text d ++ new) ∧ (off' = off ∨ len (output_text d) ≤ off' ≤ len (output_text d')) ∧ (min_tokens d = 0 → off' = off)).
Proof.
  induction ts as [|t ts IH]; intros off d; cbn [decode_all].
  { apply wp_ret. split_and!; [done|by rewrite app_nil_r|exists []; by rewrite app_nil_r|by left|done]. }
  apply wp_bind, wp_modify, wp_bind, wp_zoom. eapply wp_mono; [apply decodes|]. intros piece x _. apply wp_bind, wp_modify, wp_bind, wp_gets.
  eapply wp_mono; [apply IH|]. intros off' d' (Hs & Ht & [new Hnew] & Hoff & Hmin). unfold settings in *. cbn [stop min_tokens include_stop_str_in_output stop_buffer_length
    last_output_text_offset prompt_len token_ids output_text set_decoder set_output_text set_token_ids] in *. split_and!; [done|by rewrite Ht, <-app_assoc| | |].
  - exists (piece ++ new). by rewrite Hnew, <-app_assoc.
  - destruct Hoff as [->|Hoff]; [|right; unfold len in *; rewrite !length_app in *; lia].
    case_match; [|by left]. right. rewrite Hnew. unfold len. rewrite !length_app. lia.
  - intros E. rewrite (Hmin E), E. done.
Qed.

(** [t] is what decoding the tokens [ts] adds to the text. *)
Definition decodes_to (ts : list Z) d (t : text) : Prop :=
  ∃ o d1, decode_all ts (len (output_text d)) d = (Ok o, d1) ∧ output_text d1 = output_text d ++ t.
(** The tokens that an update decodes: not a stop token at the end that is not to be shown *)
Definition decoded d (ts : list Z) (terminated : bool) : list Z :=
  if terminated && negb (include_stop_str_in_output d) then take (length ts - 1) ts else ts.
(** The number of tokens still to come before stop strings count *)
Definition missing d : nat := Z.to_nat (min_tokens d - num_output_tokens d).

(** The offset from which stop strings are searched is the text of the first [missing]
    tokens. *)
Lemma decode_all_offset ts : ∀ off d, (prompt_len d ≤ length (token_ids d))%nat → ∃ off' d' pre post, decode_all ts off d = (Ok off', d') ∧
  output_text d' = output_text d ++ pre ++ post ∧ (∀ o, ∃ o1 d1, decode_all (take (missing d) ts) o d = (Ok o1, d1) ∧ output_text d1 = output_text d ++ pre) ∧
  (missing d = 0%nat → off' = off) ∧ (off' = len (output_text d ++ pre) ∨ off' = off ∧ pre = []).
Proof.
  induction ts as [|t ts IH]; intros off d Hp.
  { exists off, d, [], []. rewrite take_nil, !app_nil_r. split_and!; [done|done|intros o; by exists o, d|done|by right]. }
  destruct (proj1 (wp_ok _ _ _) (decodes t (decoder (set_token_ids (token_ids d ++ [t]) d)))) as (piece & x & E & _).
  set (d1 := set_output_text (output_text d ++ piece) (set_decoder x (set_token_ids (token_ids d ++ [t]) d))).
  assert (∀ rest o, decode_all (t :: rest) o d = decode_all rest (if negb (min_tokens d1 =? 0) && (num_output_tokens d1 <=? min_tokens d1) then len (output_text d1) else o) d1) as Estep.
  { intros rest o. cbn [decode_all]. unfold mbind, M_bind, modify, zoom, get. rewrite E. done. }
  assert (num_output_tokens d1 = num_output_tokens d + 1) as En.
  { unfold num_output_tokens, output_token_ids, d1. cbn [prompt_len token_ids set_output_text set_decoder set_token_ids]. rewrite !length_drop, length_app. cbn [length]. lia. }
  assert (0 ≤ num_output_tokens d) by (unfold num_output_tokens; lia). assert (min_tokens d1 = min_tokens d) as Em by done.
  assert (prompt_len d1 ≤ length (token_ids d1))%nat as Hp1 by (unfold d1; cbn; rewrite length_app; lia).
  setoid_rewrite Estep. destruct (IH (if negb (min_tokens d1 =? 0) && (num_output_tokens d1 <=? min_tokens d1) then len (output_text d1) else off) d1 Hp1) as (off' & d' & pre & post & E' & Ht & Hpre & H0 & Hoff).
  unfold missing in *. rewrite En, Em in *. destruct (Z.ltb_spec (num_output_tokens d) (min_tokens d)) as [Hlt|Hge].
  - exists off', d', (piece ++ pre), post. replace (Z.to_nat (min_tokens d - num_output_tokens d)) with (S (Z.to_nat (min_tokens d - (num_output_tokens d + 1)))) by lia.
    rewrite (proj2 (Z.leb_le _ _)), (proj2 (Z.eqb_neq _ _)) in * by lia. cbn [negb andb take] in *. split_and!; [done|rewrite Ht; cbn; by rewrite <-!app_assoc| |lia|].
    + intros o. rewrite Estep. destruct (Hpre (len (output_text d1))) as (o1 & d2 & E2 & Ht2). exists o1, d2. split; [done|]. rewrite Ht2. cbn. by rewrite <-app_assoc.
    + left. destruct Hoff as [->|[-> ->]]; cbn; [by rewrite <-app_assoc|]. by rewrite app_nil_r.
  - replace (Z.to_nat (min_tokens d - num_output_tokens d)) with 0%nat by lia. replace (Z.to_nat (min_tokens d - (num_output_tokens d + 1))) with 0%nat in Hpre by lia.
    destruct (Hpre 0) as (o1 & d2 & [= _ <-] & Ht2). assert (pre = []) as ->. { rewrite <-(app_nil_r (output_text d1)) in Ht2 at 1. by apply app_inv_head in Ht2. }
    rewrite (proj2 (Z.leb_gt _ _)), andb_false_r in * by lia. exists off', d', [], (piece ++ post). split_and!; [done|rewrite Ht; cbn; by rewrite <-!app_assoc| |intros _; apply H0; lia|].
    + intros o. exists o, d. rewrite app_nil_r. by rewrite take_0.
    + right. split; [|done]. apply H0. lia.
Qed.

(** [update]: the text grows by what was decoded, and is cut where [check_stop_strings] says *)
Lemma wp_update ts terminated d : wp (update ts terminated) d (λ r d', settings d' = settings d ∧ token_ids d' = token_ids d ++ ts ∧
  ∃ new off, let full := output_text d ++ new in len (output_text d) ≤ off ≤ len full ∧ (min_tokens d = 0 → off = len (output_text d)) ∧ (ts = [] → new = []) ∧
    ((prompt_len d ≤ length (token_ids d))%nat → ∃ pre post, new = pre ++ post ∧ off = len (output_text d ++ pre) ∧
      decodes_to (decoded d ts terminated) d new ∧ decodes_to (take (missing d) (decoded d ts terminated)) d pre) ∧
    match (if negb (bool_decide (stop d = [])) && (min_tokens d <? num_output_tokens d') then
             check_stop_strings full (len full - off) (stop d) (include_stop_str_in_output d) else None) with
    | Some (s, cut) => r = Some s ∧ output_text d' = if cut =? -1 then full else slice_to full cut
    | None => r = None ∧ output_text d' = full
    end).
Proof.
  unfold update. destruct (bool_decide_reflect (ts = [])) as [->|Hts].
  { apply wp_ret. split_and!; [done|by rewrite app_nil_r|]. exists [], (len (output_text d)). rewrite app_nil_r. cbv zeta. assert (decoded d [] terminated = []) as Ed by (unfold decoded; by destruct (_ && _)).
    split_and!; [lia|lia|done|done| |].
    { intros _. rewrite Ed, take_nil. exists [], []. split_and!; [done|by rewrite app_nil_r|..]; (eexists _, d; split; [reflexivity|]; by rewrite app_nil_r). }
    unfold check_stop_strings. rewrite Z.sub_diag. cbn [Z.eqb orb]. by destruct (_ && _). }
  apply wp_bind, wp_gets, wp_bind. set (skip := terminated && _). set (l := if skip then _ else _). assert (l = decoded d ts terminated) as El by done.
  eapply wp_mono; [apply wp_conj; [apply wp_decode_all|apply (proj2 (wp_ok _ _ (λ off d', decode_all l (len (output_text d)) d = (Ok off, d'))))]|].
  { destruct (proj1 (wp_ok _ _ _) (wp_decode_all l (len (output_text d)) d)) as (o & d1 & E & _). by exists o, d1. }
  intros off d1 ((Hs & Ht & [new Hnew] & Hoff & Hmin) & Erun).
  assert ((prompt_len d ≤ length (token_ids d))%nat → ∃ pre post, new = pre ++ post ∧ off = len (output_text d ++ pre) ∧ decodes_to l d new ∧ decodes_to (take (missing d) l) d pre) as Hpre.
  { intros Hp. destruct (decode_all_offset l (len (output_text d)) d Hp) as (off' & d' & pre & post & E & Ht' & Hpre & _ & Ho'). rewrite Erun in E. injection E as <- <-.
    rewrite Hnew in Ht'. apply app_inv_head in Ht'. exists pre, post. split_and!; [done|destruct Ho' as [->|[-> ->]]; [done|by rewrite app_nil_r]|by exists off, d1|apply Hpre]. }
  rewrite El in Hpre. subst l. clear El.
  apply wp_bind. assert (wp (if skip then modify (λ d, set_token_ids (token_ids d ++ drop (length ts - 1) ts) d) else mret ()) d1
    (λ _ d2, settings d2 = settings d ∧ token_ids d2 = token_ids d ++ ts ∧ output_text d2 = output_text d ++ new)) as Hw.
  { destruct skip; [apply wp_modify|apply wp_ret]; (split_and!; [done| |done]); cbn [token_ids set_token_ids]; rewrite Ht; [|done]. by rewrite <-app_assoc, take_drop. }
  eapply wp_mono; [exact Hw|]. intros [] d2 (Hs2 & Ht2 & Hn2). apply wp_bind, wp_gets. pose proof Hs2 as Hs2'. unfold settings in Hs2. injection Hs2 as E1 E2 E3 E4 E5 E6.
  rewrite Hnew in Hoff. rewrite E1, E2, E3, Hn2. set (full := output_text d ++ new) in *.
  assert (len (output_text d) ≤ off ≤ len full) as Ho by (destruct Hoff as [->|]; [unfold full, len; rewrite length_app; lia|done]).
  destruct (negb _ && _) eqn:Ec; [|apply wp_ret; split_and!; [done|done|]; exists new, off; fold full; cbv zeta; by rewrite Ec].
  destruct (check_stop_strings _ _ _ _) as [[s cut]|] eqn:Es; [|apply wp_ret; split_and!; [done|done|]; exists new, off; fold full; cbv zeta; by rewrite Ec, Es].
  apply wp_bind. destruct (Z.eqb_spec cut (-1)) as [->|Hc]; [apply wp_ret|apply wp_modify]; apply wp_ret; (split_and!; [done|done|]);
    exists new, off; fold full; cbv zeta; (split_and!; [lia|lia|exact Hmin|done|exact Hpre|]).
  - by rewrite Ec, Es.
  - unfold num_output_tokens, output_token_ids in *. cbn [prompt_len token_ids set_output_text output_text]. rewrite Ec, Es, (proj2 (Z.eqb_neq _ _)) by done. by rewrite Hn2.
Qed.

(** The buffer is long enough for every stop string. *)
Definition buffered d : Prop := (∀ s, s ∈ stop d → s ≠ []) ∧ 0 ≤ stop_buffer_length d ∧
  (include_stop_str_in_output d = false → ∀ s, s ∈ stop d → len s - 1 ≤ stop_buffer_length d).
(** [t] is the text that was handed out, and none of it is in the buffer. *)
Definition sent d (t : text) : Prop := t = take (Z.to_nat (last_output_text_offset d)) (output_text d) ∧
  0 ≤ last_output_text_offset d ≤ Z.max 0 (len (output_text d) - stop_buffer_length d).

Lemma foldl_len_le (l : list text) : ∀ m, m ≤ foldl (λ m x, Z.max m (len x)) m l ∧ ∀ x, x ∈ l → len x ≤ foldl (λ m x, Z.max m (len x)) m l.
Proof.
  induction l as [|y l IH]; intros m; cbn [foldl]; [split; [lia|]; intros x Hx; by apply not_elem_of_nil in Hx|].
  destruct (IH (Z.max m (len y))) as [H1 H2]. split; [lia|]. intros x [->|Hx]%elem_of_cons; [lia|by apply H2].
Qed.
Lemma new_buffered stops m include prompt x : (∀ s, s ∈ stops → s ≠ []) → buffered (new_detokenizer stops m include prompt x).
Proof.
  intros Hne. split; [done|]. cbn. destruct stops as [|s l]; [split; [lia|intros _ x' Hx; by apply not_elem_of_nil in Hx]|].
  assert (0 < len s). { destruct s; [by destruct (Hne []); [left|]|]. unfold len. cbn. lia. }
  destruct include; [by split|]. destruct (foldl_len_le l (len s)) as [H1 H2]. split; [lia|]. intros _ y [->|Hy]%elem_of_cons; [lia|]. specialize (H2 y Hy). lia.
Qed.

(** A stop string that is found ends in the new characters. *)
Lemma check_stop_bound t n stops include s cut : (∀ s, s ∈ stops → s ≠ []) → 0 ≤ n ≤ len t → check_stop_strings t n stops include = Some (s, cut) → cut ≠ -1 →
  s ∈ stops ∧ 0 ≤ cut ≤ len t ∧ (if include then len t - n < cut else len t - n < cut + len s).
Proof.
  unfold check_stop_strings. destruct (Z.eqb_spec n 0); [done|]. cbn [orb]. case_bool_decide; [done|]. intros Hne Hn E Hc. clear H.
  induction stops as [|s' l IH]; [done|]. cbn [check_stop] in E. assert (0 < len s'). { destruct s'; [by destruct (Hne []); [left|]|]. unfold len. cbn. lia. }
  destruct (find_spec t s' (1 - n - len s') _ eq_refl) as [[E' _]|(i & E' & Hi & Hocc & _)]; rewrite E' in E.
  - rewrite Z.eqb_refl in E. destruct IH; [intros ? ?; apply Hne; by right|done|]. split; [by right|done].
  - rewrite (proj2 (Z.eqb_neq _ _)) in E by lia. rewrite (proj2 (Z.ltb_lt _ _)) in Hi by lia. pose proof (occurrence_fits _ _ _ Hocc (Hne s' (list_elem_of_here _ _))).
    unfold len in *. destruct include; [destruct (Z.leb_spec (Z.of_nat (length t)) (Z.of_nat i + Z.of_nat (length s')))|]; injection E as <- <-; (split; [by left|]); lia.
Qed.

Lemma wp_update_sent ts terminated d t : buffered d → sent d t → wp (update ts terminated) d (λ r d', buffered d' ∧
  t = take (Z.to_nat (last_output_text_offset d')) (output_text d') ∧ 0 ≤ last_output_text_offset d' ≤ len (output_text d') ∧ (r = None → sent d' t)).
Proof.
  intros (Hne & Hb & Hi) [Ht Hoff]. eapply wp_mono; [apply wp_update|]. intros r d' (Hs & _ & new & off & Ho & _ & _ & _ & Hm). cbv zeta in *. unfold settings in Hs. injection Hs as E1 E2 E3 E4 E5 E6.
  unfold sent, buffered. rewrite E1, E3, E4, E5. set (full := output_text d ++ new) in *. set (o := last_output_text_offset d) in *.
  assert (len full = len (output_text d) + len new) as Hl by (unfold full, len; rewrite length_app; lia). assert (0 ≤ len new) by (unfold len; lia). assert (0 ≤ len (output_text d)) by (unfold len; lia).
  assert (take (Z.to_nat o) full = t) as Hf. { rewrite Ht. unfold full. apply take_app_le. unfold len in *. lia. }
  split; [done|]. destruct (negb _ && _).
  2: { destruct Hm as [-> ->]. split_and!; [by rewrite Hf|lia|lia|]. intros _. split; [by rewrite Hf|lia]. }
  destruct (check_stop_strings _ _ _ _) as [[s cut]|] eqn:Ec; destruct Hm as [-> ->]; [|split_and!; [by rewrite Hf|lia|lia|]; intros _; split; [by rewrite Hf|lia]].
  destruct (Z.eqb_spec cut (-1)) as [->|Hc]; [split_and!; [by rewrite Hf|lia|lia|done]|].
  assert (0 ≤ len full - off ≤ len full) as Hn by lia. destruct (check_stop_bound _ _ _ _ _ _ Hne Hn Ec Hc) as (Hin & Hcut & Hlow). unfold slice_to. rewrite (proj2 (Z.ltb_ge _ _)) by lia.
  assert (o ≤ cut). { destruct (include_stop_str_in_output d); [lia|]. specialize (Hi eq_refl s Hin). lia. }
  split_and!; [rewrite take_take; rewrite <-Hf; f_equal; lia|lia| |done]. unfold len in *. rewrite length_take. lia.
Qed.

Lemma wp_get_delta finished d t : 0 ≤ stop_buffer_length d → t = take (Z.to_nat (last_output_text_offset d)) (output_text d) → 0 ≤ last_output_text_offset d ≤ len (output_text d) →
  wp (get_next_output_text finished true) d (λ r d', (stop d', include_stop_str_in_output d', stop_buffer_length d', output_text d') = (stop d, include_stop_str_in_output d, stop_buffer_length d, output_text d) ∧
    (if finished then t ++ r = output_text d' else sent d t → sent d' (t ++ r))).
Proof.
  intros Hb Ht Ho. unfold get_next_output_text. apply wp_bind, wp_gets. cbn [negb]. set (b := if finished then 0 else stop_buffer_length d). assert (0 ≤ b) by (by destruct finished).
  set (o := last_output_text_offset d) in *. destruct (Z.ltb_spec o (len (output_text d) - b)).
  - apply wp_bind, wp_modify, wp_ret. split; [done|]. assert (t ++ take (Z.to_nat (len (output_text d) - b - o)) (drop (Z.to_nat o) (output_text d)) = take (Z.to_nat (len (output_text d) - b)) (output_text d)) as Hj.
    { rewrite Ht, take_drop_commute. rewrite <-Z2Nat.inj_add by lia. replace (o + (len (output_text d) - b - o)) with (len (output_text d) - b) by lia.
      rewrite <-(take_drop (Z.to_nat o) (take (Z.to_nat (len (output_text d) - b)) (output_text d))) at 2. f_equal. rewrite take_take. f_equal. lia. }
    rewrite Hj. destruct finished; cbn [output_text set_text_offset].
    + rewrite take_ge; [done|]. subst b. unfold len. lia.
    + intros _. unfold sent. cbn [output_text set_text_offset last_output_text_offset stop_buffer_length]. subst b. split; [done|lia].
  - apply wp_ret. rewrite app_nil_r. split; [done|]. destruct finished; [|done]. rewrite Ht. apply take_ge. subst b. unfold len in *. lia.
Qed.

(** The outputs of a request in delta mode.  Of every output of the engine core: its tokens,
    whether it is the last one (and then whether it ends with a stop token), and whether
    text is handed out after it. *)
Fixpoint stream (l : list (list Z * option bool * bool)) : M (Detokenizer D) (list text * bool) :=
  match l with
  | [] => mret ([], false)
  | (new_token_ids, finish, emit) :: l' =>
      stop_string ← update new_token_ids (bool_decide (finish = Some true));
      if bool_decide (is_Some stop_string) || bool_decide (is_Some finish) then
        t ← get_next_output_text true true; mret ([t], true)
      else
        t ← (if emit : bool then get_next_output_text false true else mret []);
        x ← stream l'; mret (t :: x.1, x.2)
  end.

Lemma wp_stream l : ∀ d t, buffered d → sent d t → wp (stream l) d (λ r d', t ++ concat r.1 `prefix_of` output_text d' ∧ (r.2 = true → t ++ concat r.1 = output_text d')).
Proof.
  induction l as [|[[ts finish] emit] l IH]; intros d t Hb Hs; cbn [stream].
  { apply wp_ret. cbn. rewrite app_nil_r. split; [|done]. destruct Hs as [-> _]. apply prefix_take. }
  apply wp_bind. eapply wp_mono; [by apply wp_update_sent|]. intros r d1 (Hb1 & Ht1 & Ho1 & Hs1). pose proof Hb1 as (_ & Hb1' & _).
  destruct (bool_decide_reflect (is_Some r)) as [|Hr]; [|destruct (bool_decide_reflect (is_Some finish))]; cbn [orb].
  1,2: apply wp_bind; (eapply wp_mono; [by apply (wp_get_delta true)|]); intros t' d2 [_ E]; apply wp_ret; cbn; by rewrite app_nil_r, E.
  apply eq_None_not_Some in Hr as ->. specialize (Hs1 eq_refl). apply wp_bind.
  assert (wp (if emit then get_next_output_text false true else mret []) d1 (λ t' d2, buffered d2 ∧ sent d2 (t ++ t'))) as Hw.
  { destruct emit; [|apply wp_ret; rewrite app_nil_r; done]. eapply wp_mono; [by apply (wp_get_delta false)|]. intros t' d2 [Hset Hsent]. split; [|by apply Hsent].
    injection Hset as E1 E2 E3 E4. unfold buffered. by rewrite E1, E2, E3. }
  eapply wp_mono; [exact Hw|]. intros t' d2 [Hb2 Hs2]. apply wp_bind. eapply wp_mono; [by apply IH|]. intros [outs fin] d3 [H1 H2]. apply wp_ret. cbn in *.
  rewrite app_assoc. split; [done|]. intros ->. by apply H2.
Qed.

(** C15. Streamed text is never taken back.  Whatever the decoder makes of the tokens, and
    whenever text is handed out, the pieces handed out join to a prefix of the request's
    text even when the text is cut at a stop string later, because the buffer holds back
    what may be part of one; when the request has finished they join to all of its text. *)
Theorem streamed_text_exact stops minimum include prompt x l : (∀ s, s ∈ stops → s ≠ []) →
  wp (stream l) (new_detokenizer stops minimum include prompt x) (λ r d', concat r.1 `prefix_of` output_text d' ∧ (r.2 = true → concat r.1 = output_text d')).
Proof. intros Hne. apply (wp_stream l _ []); [by apply new_buffered|]. split; [done|]. cbn. lia. Qed.

Lemma first_stop_none t stops : first_stop t stops = None ↔ no_stop t stops.
Proof.
  split.
  - intros H s i Hs Hi. pose proof (head_filter_seq (λ i, take (length s) (drop i t) = s) (S (length t)) 0) as Hh. unfold first_stop in H. apply head_None in H.
    assert (pair s <$> head (filter (λ i, take (length s) (drop i t) = s) (seq 0 (S (length t)))) = None) as E.
    { apply eq_None_not_Some. intros [y Hy]. assert (y ∈ omap (λ s, pair s <$> head (filter (λ i, take (length s) (drop i t) = s) (seq 0 (S (length t))))) stops) as Hin by (apply list_elem_of_omap; eauto).
      rewrite H in Hin. by apply not_elem_of_nil in Hin. }
    destruct (head _) as [j|]; [done|]. destruct (decide (i < S (length t))%nat); [by destruct (Hh i); [lia|]|].
    rewrite drop_ge in Hi by lia. rewrite take_nil in Hi. subst s. destruct (Hh 0%nat); [lia|done].
  - intros H. apply head_omap_none. intros s Hs. pose proof (head_filter_seq (λ i, take (length s) (drop i t) = s) (S (length t)) 0) as Hh.
    destruct (head _) as [i|]; [|done]. destruct Hh as (_ & Hi & _). by destruct (H s i).
Qed.

(** C36. No update misses a stop string, [min_tokens] respected.  An update decodes its
    tokens (but for a final stop token that is not to be shown), which adds [pre ++ post] to
    the text, [pre] from the tokens that were still missing to [min_tokens].  While there
    are at most [min_tokens] output tokens it reports nothing and leaves the text whole.
    With more, and if no stop string occurs in the text up to and with [pre] (the text
    before the update, when [min_tokens] had been reached), it reports the first stop string
    of the list that occurs in the whole text (even across the border between old and new
    text), cuts the text there, and otherwise leaves a text in which none occurs. *)
Theorem update_finds_stop ts terminated d : (∀ s, s ∈ stop d → s ≠ []) → (prompt_len d ≤ length (token_ids d))%nat →
  wp (update ts terminated) d (λ r d', settings d' = settings d ∧ token_ids d' = token_ids d ++ ts ∧ ∃ pre post, let full := output_text d ++ pre ++ post in
    decodes_to (decoded d ts terminated) d (pre ++ post) ∧ decodes_to (take (missing d) (decoded d ts terminated)) d pre ∧
    (num_output_tokens d' ≤ min_tokens d → r = None ∧ output_text d' = full) ∧
    (min_tokens d < num_output_tokens d' → no_stop (output_text d ++ pre) (stop d) →
      r = fst <$> first_stop full (stop d) ∧
      output_text d' = match stop_cut full (include_stop_str_in_output d) <$> first_stop full (stop d) with
                       | Some (_, cut) => if cut =? -1 then full else slice_to full cut
                       | None => full
                       end ∧
      (r = None → no_stop (output_text d') (stop d')))).
Proof.
  intros Hne Hp. eapply wp_mono; [apply wp_update|]. intros r d' (Hs & Ht & new & off & _ & _ & _ & Hpre & Hm). cbv zeta in *. split; [done|]. unfold settings in Hs. injection Hs as E1 E2 E3 E4 E5 E6.
  split; [done|]. destruct (Hpre Hp) as (pre & post & -> & -> & Hd1 & Hd2). exists pre, post. split_and!; [done|done|..].
  - intros Hle. rewrite (proj2 (Z.ltb_ge _ _)), andb_false_r in Hm by lia. done.
  - intros Hlt Hno. rewrite (proj2 (Z.ltb_lt _ _)), andb_true_r in Hm by done. set (full := output_text d ++ pre ++ post) in *.
    assert (full = (output_text d ++ pre) ++ post) as Ef by (unfold full; by rewrite <-app_assoc). set (old := output_text d ++ pre) in *.
    assert (len full - len old = len post) as Hl by (rewrite Ef; unfold len; rewrite length_app; lia). rewrite Hl in Hm.
    match goal with |- ?A ∧ ?B ∧ _ => assert (A ∧ B) as [HA HB] end.
    2: { split_and!; [done|done|]. intros Hr. rewrite HB, E1. rewrite HA in Hr. destruct (first_stop full (stop d)) as [[]|] eqn:Es; [done|]. cbn. by apply first_stop_none. }
    assert (no_stop full (stop d) → first_stop full (stop d) = None) as Hnone by apply first_stop_none.
    destruct (decide (post = [])) as [->|Hnew].
    { rewrite Hnone by (rewrite Ef; by rewrite app_nil_r). unfold check_stop_strings in Hm. cbn [len length Z.of_nat Z.eqb orb] in Hm. destruct (negb _); by destruct Hm as [-> ->]. }
    assert (0 < length post)%nat by (destruct post; [done|cbn; lia]). destruct (bool_decide_reflect (stop d = [])) as [Es|Es].
    { rewrite Hnone by (rewrite Es; intros s i Hs; by apply not_elem_of_nil in Hs). cbn [negb] in Hm. by destruct Hm as [-> ->]. }
    cbn [negb] in Hm. unfold len in Hm. rewrite stop_search_exact in Hm; [|rewrite Ef, length_app; lia|done|].
    + destruct (first_stop full (stop d)) as [[s i]|]; cbn in *; by destruct Hm as [-> ->].
    + rewrite Ef, length_app. replace (length old + length post - length post)%nat with (length old) by lia. by rewrite take_app_length.
Qed.
End streaming.

(** A decoder that gives every token as one character *)
#[local] Instance chars : Decoder () := λ t, mret [t].
Lemma chars_decodes t x : wp (decode_next t) x (λ _ _, True).
Proof. done. Qed.

Lemma streamed_text_exact_witness :
  let d := new_detokenizer (D := ()) [[3; 4; 5]] 0 false [] () in let l := [([1; 2], None, true); ([3; 4], None, true); ([6; 3], None, true); ([4; 5; 7], None, true)] in
  wp (stream l) d (λ r d', concat r.1 `prefix_of` output_text d' ∧ (r.2 = true → concat r.1 = output_text d')) ∧ (stream l d).1 = Ok ([[]; [1; 2]; [3; 4]; [6]], true).
Proof.
  cbv zeta. split; [|vm_compute; reflexivity]. apply (streamed_text_exact chars_decodes). intros s Hs. by apply list_elem_of_singleton in Hs as ->.
Defined.

(** One token is missing to the minimum of two; the stop string comes after it. *)
Lemma update_finds_stop_witness :
  let d := set_output_text [1] (set_token_ids [1] (new_detokenizer (D := ()) [[3]; [4; 5]] 2 false [] ())) in
  wp (update [7; 4; 5; 6] false) d (λ r d', r = Some [4; 5] ∧ output_text d' = [1; 7]).
Proof.
  cbv zeta. eapply wp_mono; [apply (update_finds_stop chars_decodes [7; 4; 5; 6]); [|cbn; lia]|].
  - intros s [-> | ->%list_elem_of_singleton]%elem_of_cons; done.
  - intros r d' (Hs & Ht & pre & post & (o & d1 & E1 & H1) & (o' & d2 & E2 & H2) & _ & H).
    apply (f_equal (λ x, output_text x.2)) in E1, E2. cbn [snd] in E1, E2. rewrite H1 in E1. rewrite H2 in E2. vm_compute in E1, E2. injection E2 as <-. injection E1 as <-.
    destruct H as (Hr & Ho & _); [|apply first_stop_none; vm_compute; reflexivity|rewrite Hr, Ho; split; vm_compute; reflexivity].
    unfold settings in Hs. injection Hs as _ _ _ _ _ Ep. unfold num_output_tokens, output_token_ids. rewrite Ep, Ht. cbn. lia.
Defined.

(** The order of the list decides, not the order in the text: when one update brings two
    stop strings, the one that comes first in the list is taken even if another occurs
    before it, and the text that is returned contains the other one. *)
Theorem stop_string_left_in_text : let d := new_detokenizer (D := ()) [[2]; [1]] 0 false [] () in
  (update [7; 1; 8; 2] false d).1 = Ok (Some [2]) ∧ output_text (update [7; 1; 8; 2] false d).2 = [7; 1; 8].
Proof. split; reflexivity. Qed.

(** A request with prompt embeddings cannot be detokenized by a Python tokenizer: its
    constructor assigns to a misspelt attribute, and the first token raises. *)
Theorem slow_embeds_raise tokenizer skip spaces n t rest stops minimum include :
  let d := new_detokenizer stops minimum include (Slow.prompt_ids (inr n)) (Slow.init tokenizer skip (inr n)) in
  (@update Slow.State (Slow.decoder tokenizer skip spaces) (t :: rest) false d).1 = Raise AttributeError.
Proof. reflexivity. Qed.

(** ** The Python decoder loses no text *)

Section slow_text.
Context (tokenizer : Slow.Tokenizer) (skip spaces : bool).
(** The tokenizer decodes token by token. *)
Context (f : option text → text) (Hstr : ∀ l, Slow.to_string tokenizer skip spaces l = Ok (concat (f <$> l))).

Definition text_of (l : list (option text)) : text := concat (f <$> l).
Lemma text_of_app l l' : text_of (l ++ l') = text_of l ++ text_of l'.
Proof. unfold text_of. by rewrite fmap_app, concat_app. Qed.

Fixpoint decode_tokens (ts : list Z) : M Slow.State text :=
  match ts with
  | [] => mret []
  | t :: rest => piece ← Slow.decoder tokenizer skip spaces t; more ← decode_tokens rest; mret (piece ++ more)
  end.

Definition offsets_ok (s : Slow.State) (r : nat) : Prop :=
  Slow.read_offset s = Some r ∧ (Slow.prefix_offset s ≤ r ≤ length (Slow.tokens s))%nat.

Lemma wp_slow_decode t s r : offsets_ok s r → wp (Slow.decoder tokenizer skip spaces t) s (λ piece s', ∃ r' new, offsets_ok s' r' ∧ (r ≤ r')%nat ∧
  Slow.tokens s' = Slow.tokens s ++ new ∧ piece ++ text_of (drop r' (Slow.tokens s')) = text_of (drop r (Slow.tokens s'))).
Proof.
  intros (Er & Hp & Hr). unfold Slow.decoder. apply wp_bind, wp_gets. rewrite Er. unfold Slow.detokenize_incrementally. rewrite !Hstr. cbn [mbind result_bind].
  match goal with |- context [Slow.tokens s ++ ?n] => set (new := n) end. set (all := Slow.tokens s ++ new). set (p := Slow.prefix_offset s) in *. fold (text_of (drop p (take r all))) (text_of (drop p all)).
  assert (length all = length (Slow.tokens s) + length new)%nat as Hl by (unfold all; by rewrite length_app).
  assert (text_of (drop p all) = text_of (drop p (take r all)) ++ text_of (drop r all)) as E.
  { rewrite <-text_of_app. f_equal. rewrite <-(take_drop r all) at 1. rewrite drop_app_le by (rewrite length_take; lia). done. }
  destruct (_ || _) eqn:Ec; cbn [of_result]; apply wp_bind, wp_ret, wp_bind, wp_modify, wp_ret.
  - exists r, new. unfold offsets_ok. cbn [Slow.read_offset Slow.prefix_offset Slow.tokens]. fold all. split_and!; [done|lia|lia|lia|done|done].
  - exists (length all), new. unfold offsets_ok. cbn [Slow.read_offset Slow.prefix_offset Slow.tokens]. fold all. split_and!; [done|lia|lia|lia|done|].
    rewrite (drop_ge all (length all)) by done. by rewrite E, drop_app_length, app_nil_r.
Qed.

Lemma wp_decode_tokens ts : ∀ s r, offsets_ok s r → wp (decode_tokens ts) s (λ out s', ∃ r' new, offsets_ok s' r' ∧ (r ≤ r')%nat ∧
  Slow.tokens s' = Slow.tokens s ++ new ∧ out ++ text_of (drop r' (Slow.tokens s')) = text_of (drop r (Slow.tokens s'))).
Proof.
  induction ts as [|t ts IH]; intros s r Hs; cbn [decode_tokens].
  { apply wp_ret. exists r, []. split_and!; [done|done|by rewrite app_nil_r|done]. }
  apply wp_bind. eapply wp_mono; [by apply wp_slow_decode|]. intros piece s1 (r1 & new1 & H1 & Hr1 & Ht1 & E1). apply wp_bind. eapply wp_mono; [by apply IH|].
  intros out s2 (r2 & new2 & H2 & Hr2 & Ht2 & E2). apply wp_ret. exists r2, (new1 ++ new2). split_and!; [done|lia|by rewrite Ht2, Ht1, <-app_assoc|].
  rewrite <-app_assoc, E2, Ht2. destruct H1 as (_ & _ & Hl1). rewrite !drop_app_le by lia. rewrite !text_of_app, app_assoc. by rewrite E1.
Qed.
End slow_text.

(** Incremental detokenization loses and repeats nothing: with a tokenizer that decodes
    token by token, the pieces returned so far, followed by the text of the tokens that are
    still held back as an incomplete character, are the text of all tokens. *)
Theorem slow_decode_lossless tokenizer skip spaces f prompt ts : (∀ l, Slow.to_string tokenizer skip spaces l = Ok (concat (f <$> l))) →
  let s := Slow.init tokenizer skip (inl prompt) in
  wp (decode_tokens tokenizer skip spaces ts) s (λ out s', ∃ held new, Slow.tokens s' = Slow.tokens s ++ new ∧ held `suffix_of` new ∧ out ++ text_of f held = text_of f new).
Proof.
  intros Hstr. cbv zeta. set (s := Slow.init _ _ _). assert (offsets_ok s (length (Slow.tokens s))) as Hs.
  { unfold s, Slow.init, Slow.convert_prompt_ids_to_tokens, offsets_ok, Slow._replace_none_with_empty. cbn. rewrite length_fmap. split_and!; [done|lia|done]. }
  eapply wp_mono; [by apply (wp_decode_tokens _ _ _ f Hstr)|]. intros out s' (r' & new & _ & Hr & Ht & E). exists (drop r' (Slow.tokens s')), new. split; [done|].
  rewrite Ht in E |- *. rewrite drop_app_length in E. split; [|done]. rewrite drop_app_ge by lia. apply suffix_drop.
Qed.

Definition demo_tokenizer : Slow.Tokenizer :=
  Slow.mkTokenizer (λ l _, (λ t, Some [t; 65533 + t - 9]) <$> l) (λ l, Ok (concat (default [] <$> l))) 100 true [] [].
Lemma slow_decode_lossless_witness : let s := Slow.init demo_tokenizer false (inl [1; 2; 3; 4; 5; 6; 7; 8]) in
  wp (decode_tokens demo_tokenizer false true [4; 9; 5]) s (λ out s', ∃ held new, Slow.tokens s' = Slow.tokens s ++ new ∧ held `suffix_of` new ∧
    out ++ text_of (default []) held = text_of (default []) new) ∧
  (decode_tokens demo_tokenizer false true [4; 9] s).1 = Ok [4; 65528].
Proof. cbv zeta. split; [by apply (slow_decode_lossless demo_tokenizer false true (default []))|vm_compute; reflexivity]. Defined.
