(* ===== verification/Numpy.v ===== *)
(** * Arrays of NumPy and lists updated in place

    What the worker's batch uses of NumPy arrays (and of Python lists indexed like them): reads
    and writes at an index, which raise IndexError out of range; assignments to a slice, with
    the clipping of the bounds and the broadcast of a single value; the exchange of two
    entries; and the width of the stored integers. *)

From stdpp Require Import base tactics option list.
From Stdlib Require Import ZArith Lia.
From S2P Require Import Prelude.

(** ** 32-bit integers *)

(** An int64 (or an int32 product) stored in an int32 array keeps its low 32 bits. *)
Definition wrap32 (x : Z) : Z := ((x + 2 ^ 31) mod 2 ^ 32 - 2 ^ 31)%Z.
Definition int32_range (x : Z) : Prop := (- 2 ^ 31 ≤ x < 2 ^ 31)%Z.
#[export] Instance int32_range_dec x : Decision (int32_range x) := _.

Lemma wrap32_id x : int32_range x → wrap32 x = x.
Proof. unfold wrap32, int32_range. intros ?. rewrite Z.mod_small; lia. Qed.
Lemma wrap32_range x : int32_range (wrap32 x).
Proof. unfold wrap32, int32_range. pose proof (Z.mod_pos_bound (x + 2 ^ 31) (2 ^ 32) ltac:(lia)). lia. Qed.

Section arrays.
Context {A : Type}.
Implicit Types (l vs : list A) (i j : nat).

(** [a[i] = x] *)
Definition np_set (i : nat) (x : A) : M (list A) () := λ l,
  if decide (i < length l) then (Ok (), <[i := x]> l) else (Raise IndexError, l).

(** [a[j] = a[i]] *)
Definition np_move (i j : nat) : M (list A) () :=
  l ← get;
  x ← index l i;
  np_set j x.

(** [a[i], a[j] = a[j], a[i]] on entries that are values *)
Definition np_swap (i j : nat) : M (list A) () :=
  l ← get;
  y ← index l j;
  x ← index l i;
  np_set i y;;
  np_set j x.

(** The entry an exchange of [i] and [j] brings to [k] *)
Definition swap_ix (i j k : nat) : nat := if decide (k = i) then j else if decide (k = j) then i else k.
(** The entry a copy from [i] to [j] brings to [k] *)
Definition move_ix (i j k : nat) : nat := if decide (k = j) then i else k.

Lemma swap_ix_involutive i j k : swap_ix i j (swap_ix i j k) = k.
Proof. unfold swap_ix. repeat case_decide; congruence. Qed.
Lemma swap_ix_lt i j k n : i < n → j < n → k < n → swap_ix i j k < n.
Proof. unfold swap_ix. intros. repeat case_decide; lia. Qed.
Lemma swap_ix_comm i j k : swap_ix i j k = swap_ix j i k.
Proof. unfold swap_ix. repeat case_decide; congruence. Qed.

(** [l] is [l0] with its entries taken from other places. *)
Definition rearranged (f : nat → nat) (l0 l : list A) : Prop := length l = length l0 ∧ ∀ k, k < length l0 → l !! k = l0 !! f k.

Lemma wp_np_set i x l (Q : () → list A → Prop) : i < length l → Q () (<[i := x]> l) → wp (np_set i x) l Q.
Proof. unfold wp, np_set. intros. by rewrite decide_True. Qed.

Lemma wp_np_move i j l (Q : () → list A → Prop) : i < length l → j < length l →
  (∀ l', rearranged (move_ix i j) l l' → Q () l') → wp (np_move i j) l Q.
Proof.
  intros Hi Hj HQ. destruct (lookup_lt_is_Some_2 l i Hi) as [x Hx]. unfold np_move. wp_step.
  apply wp_gets. wp_step. eapply wp_index; [done|]. apply wp_np_set; [done|]. apply HQ. split; [by rewrite length_insert|].
  intros k Hk. unfold move_ix. destruct (decide (k = j)) as [->|]; [by rewrite list_lookup_insert_eq|]. by rewrite list_lookup_insert_ne.
Qed.

Lemma wp_np_swap i j l (Q : () → list A → Prop) : i < length l → j < length l →
  (∀ l', rearranged (swap_ix i j) l l' → Q () l') → wp (np_swap i j) l Q.
Proof.
  intros Hi Hj HQ. destruct (lookup_lt_is_Some_2 l i Hi) as [x Hx], (lookup_lt_is_Some_2 l j Hj) as [y Hy]. unfold np_swap. wp_step.
  apply wp_gets. wp_step. eapply wp_index; [done|]. wp_step. eapply wp_index; [done|]. wp_step. apply wp_np_set; [done|].
  apply wp_np_set; [by rewrite length_insert|]. apply HQ. split; [by rewrite !length_insert|].
  intros k Hk. unfold swap_ix. destruct (decide (k = j)) as [->|].
  - rewrite list_lookup_insert_eq by (by rewrite length_insert). case_decide; congruence.
  - rewrite list_lookup_insert_ne by done. case_decide; subst; [by rewrite list_lookup_insert_eq|]. by rewrite list_lookup_insert_ne.
Qed.

(** [a[lo:hi] = vs]: the bounds are clipped to the array; a single value is broadcast. *)
Definition np_set_slice (lo hi : nat) (vs : list A) : M (list A) () := λ l,
  let n := hi `min` length l - lo `min` length l in
  let write us := take (lo `min` length l) l ++ us ++ drop (lo `min` length l + n) l in
  if decide (length vs = n) then (Ok (), write vs)
  else match vs with
       | [v] => (Ok (), write (replicate n v))
       | _ => (Raise ValueError, l)
       end.

(** A slice inside the array that gets as many values as it has entries *)
Lemma wp_np_set_slice lo hi vs l (Q : () → list A → Prop) : hi ≤ length l → hi = lo + length vs →
  Q () (take lo l ++ vs ++ drop hi l) → wp (np_set_slice lo hi vs) l Q.
Proof.
  intros Hhi Hlen HQ. unfold wp, np_set_slice. rewrite !Nat.min_l by lia. rewrite decide_True by lia. by replace (lo + (hi - lo)) with hi by lia.
Qed.

(** The entries after an assignment to a slice *)
Lemma length_written lo l vs : lo + length vs ≤ length l → length (take lo l ++ vs ++ drop (lo + length vs) l) = length l.
Proof. intros ?. rewrite !length_app, length_take, length_drop. lia. Qed.
Lemma lookup_written lo l vs k : lo + length vs ≤ length l →
  (take lo l ++ vs ++ drop (lo + length vs) l) !! k = if decide (lo ≤ k < lo + length vs) then vs !! (k - lo) else l !! k.
Proof.
  intros ?. destruct (decide (lo ≤ k < lo + length vs)).
  - rewrite lookup_app_r, length_take_le by (rewrite ?length_take; lia). by rewrite lookup_app_l by lia.
  - destruct (decide (k < lo)); [by rewrite lookup_app_l, lookup_take_lt by (rewrite ?length_take; lia)|].
    rewrite lookup_app_r, length_take_le by (rewrite ?length_take; lia). rewrite lookup_app_r by lia. rewrite lookup_drop. f_equal. lia.
Qed.
Lemma take_slice lo l vs : lo + length vs ≤ length l → take (lo + length vs) (take lo l ++ vs ++ drop (lo + length vs) l) = take lo l ++ vs.
Proof. intros ?. rewrite app_assoc, take_app_le by (rewrite length_app, length_take; lia). rewrite take_ge; [done|]. rewrite length_app, length_take. lia. Qed.
End arrays.

(** [a[row, lo:hi] = vs] on a two-dimensional array *)
Definition np_set_row_slice {A} (row lo hi : nat) (vs : list A) : M (list (list A)) () := λ t,
  match t !! row with
  | None => (Raise IndexError, t)
  | Some r => match np_set_slice lo hi vs r with (res, r') => (res, <[row := r']> t) end
  end.

Lemma wp_np_set_row_slice {A} row lo hi (vs r : list A) t (Q : () → list (list A) → Prop) : t !! row = Some r → hi ≤ length r → hi = lo + length vs →
  Q () (<[row := take lo r ++ vs ++ drop hi r]> t) → wp (np_set_row_slice row lo hi vs) t Q.
Proof.
  intros Hr Hhi Hlen HQ. assert (wp (np_set_slice lo hi vs) r (λ _ r', r' = take lo r ++ vs ++ drop hi r)) as H by (by apply wp_np_set_slice).
  unfold wp, np_set_row_slice in *. rewrite Hr. destruct (np_set_slice lo hi vs r) as [[[]|e] r']; [by subst|done].
Qed.

#[export] Hint Resolve wrap32_range : py.
