(* ===== verification/BlockTable.v ===== *)
(** * vllm/v1/worker/block_table.py

    The block tables of the worker: for every request of the batch (a row) the blocks that hold
    its tokens, one table per KV cache group, and the slots of the tokens of a step.  A table
    has a copy on the device.  Blocks of the KV cache manager may be split into smaller blocks
    of the kernel, and with context parallelism the tokens are spread over ranks. *)

From stdpp Require Import base tactics option list.
From Stdlib Require Import ZArith Lia.
From S2P Require Import Prelude Numpy.

(** ** State *)

(** The attributes that the constructor sets once *)
Record Layout := mkLayout {
  max_num_reqs : nat;
  max_num_batched_tokens : nat;
  block_size : nat;
  blocks_per_kv_block : nat;
  use_hybrid_blocks : bool;
  max_num_blocks_per_req : nat;
  pcp_world_size : nat;
  pcp_rank : nat;
  dcp_world_size : nat;
  dcp_rank : nat;
  cp_kv_cache_interleave_size : nat;
}.

(** A [CpuGpuBuffer]: the array of the host and its copy on the device *)
Record CpuGpuBuffer (A : Type) := mkBuffer { cpu : list A; gpu : list A }.
Arguments mkBuffer {A} _ _.
Arguments cpu {A} _.
Arguments gpu {A} _.
Definition make_buffer {A} (n : nat) (zero : A) : CpuGpuBuffer A := mkBuffer (replicate n zero) (replicate n zero).
Definition copy_to_gpu {A} (n : nat) (b : CpuGpuBuffer A) : CpuGpuBuffer A := mkBuffer (cpu b) (take n (cpu b) ++ drop n (gpu b)).

Record BlockTable := mkBlockTable {
  layout : Layout;
  block_table : CpuGpuBuffer (list Z);
  num_blocks_per_row : list nat;
  slot_mapping : CpuGpuBuffer Z;
}.
Definition set_table (t : list (list Z)) (b : BlockTable) : BlockTable :=
  mkBlockTable (layout b) (mkBuffer t (gpu (block_table b))) (num_blocks_per_row b) (slot_mapping b).
Definition set_num_blocks (n : list nat) (b : BlockTable) : BlockTable := mkBlockTable (layout b) (block_table b) n (slot_mapping b).
Definition set_slots (s : list Z) (b : BlockTable) : BlockTable :=
  mkBlockTable (layout b) (block_table b) (num_blocks_per_row b) (mkBuffer s (gpu (slot_mapping b))).
Definition table (b : BlockTable) : list (list Z) := cpu (block_table b).
Definition slots (b : BlockTable) : list Z := cpu (slot_mapping b).

(** ** The constructor.  [pcp] and [dcp] are the world size and the rank of the groups for
    context parallelism, when the groups are initialized. *)
Definition new_block_table (bsize nreqs nblocks ntokens kernel_block_size interleave : nat) (pcp dcp : option (nat * nat)) : result BlockTable :=
  '(bs, per, hybrid) ←
    (if decide (kernel_block_size = bsize) then Ok (bsize, 1, false)
     else if decide (kernel_block_size = 0) then Raise ZeroDivisionError
     else if decide (bsize mod kernel_block_size ≠ 0) then Raise ValueError
     else Ok (kernel_block_size, bsize / kernel_block_size, true));
  let '(pcp_n, pcp_r) := default (1, 0) pcp in
  let '(dcp_n, dcp_r) := default (1, 0) dcp in
  let width := nblocks * per in
  Ok (mkBlockTable (mkLayout nreqs ntokens bs per hybrid width pcp_n pcp_r dcp_n dcp_r interleave)
        (make_buffer nreqs (replicate width 0%Z)) (replicate nreqs 0) (make_buffer ntokens 0%Z)).

(** ** Rows *)

(** [kv_manager_block_ids.reshape(-1, 1) * blocks_per_kv_block + arange], flattened *)
Definition map_to_kernel_blocks (ids : list Z) (per : nat) (arange : list nat) : list Z :=
  if decide (per = 1) then ids
  else concat ((λ id, (λ k, (id * Z.of_nat per + Z.of_nat k)%Z) <$> arange) <$> ids).
Definition kernel_block_arange (c : Layout) : list nat := seq 0 (blocks_per_kv_block c).

(** The values an assignment to the int32 table stores: a list of Python integers out of range
    raises, an int64 array is cast. *)
Definition table_values (c : Layout) (ids : list Z) : result (list Z) :=
  if use_hybrid_blocks c then Ok (wrap32 <$> map_to_kernel_blocks ids (blocks_per_kv_block c) (kernel_block_arange c))
  else if decide (Forall int32_range ids) then Ok ids else Raise OverflowError.

Definition append_row (block_ids : list Z) (row_idx : nat) : M BlockTable () :=
  if decide (block_ids = []) then mret ()
  else
    c ← gets layout;
    let num_blocks := if use_hybrid_blocks c then length (map_to_kernel_blocks block_ids (blocks_per_kv_block c) (kernel_block_arange c)) else length block_ids in
    b ← get;
    start ← index (num_blocks_per_row b) row_idx;
    zoom num_blocks_per_row set_num_blocks (np_set row_idx (start + num_blocks));;
    vs ← of_result (table_values c block_ids);
    zoom table set_table (np_set_row_slice row_idx start (start + num_blocks) vs).

Definition add_row (block_ids : list Z) (row_idx : nat) : M BlockTable () :=
  zoom num_blocks_per_row set_num_blocks (np_set row_idx 0);;
  append_row block_ids row_idx.

Definition move_row (src tgt : nat) : M BlockTable () :=
  b ← get;
  num_blocks ← index (num_blocks_per_row b) src;
  r ← index (table b) src;
  zoom table set_table (np_set_row_slice tgt 0 num_blocks (take num_blocks r));;
  zoom num_blocks_per_row set_num_blocks (np_set tgt num_blocks).

(** The right-hand sides are indexed by lists, which copies the rows. *)
Definition swap_row (src tgt : nat) : M BlockTable () :=
  zoom num_blocks_per_row set_num_blocks (np_swap src tgt);;
  zoom table set_table (np_swap src tgt).

(** ** The slots of the tokens of a step *)

Definition total_cp_world_size (c : Layout) : nat := pcp_world_size c * dcp_world_size c.
Definition total_cp_rank (c : Layout) : nat := pcp_rank c * dcp_world_size c + dcp_rank c.

(** The slot of one token.  [block_numbers * block_size] is an int32 product; the sum with the
    int64 offset is not. *)
Definition token_slot (b : BlockTable) (req_index position : nat) : result Z :=
  let c := layout b in
  let flat := concat (table b) in
  let at_ (i : nat) : result Z := match flat !! i with Some x => Ok x | None => Raise IndexError end in
  let w := total_cp_world_size c in
  if decide (1 < w) then
    let virtual_block_size := block_size c * w in
    block_number ← at_ (req_index * max_num_blocks_per_req c + position / virtual_block_size);
    let virtual_block_offset := position mod virtual_block_size in
    let mask := bool_decide ((virtual_block_offset / cp_kv_cache_interleave_size c) mod w = total_cp_rank c) in
    let block_offset := virtual_block_offset / (w * cp_kv_cache_interleave_size c) * cp_kv_cache_interleave_size c
                        + virtual_block_offset mod cp_kv_cache_interleave_size c in
    Ok (if mask then wrap32 (block_number * Z.of_nat (block_size c)) + Z.of_nat block_offset else -1)%Z
  else
    block_number ← at_ (req_index * max_num_blocks_per_req c + position / block_size c);
    Ok (wrap32 (block_number * Z.of_nat (block_size c)) + Z.of_nat (position mod block_size c))%Z.

Definition compute_slot_mapping (req_indices positions : list nat) : M BlockTable () :=
  if decide (length req_indices = length positions) then
    b ← get;
    vs ← of_result (mapR (λ rp, token_slot b rp.1 rp.2) (zip req_indices positions));
    zoom slots set_slots (np_set_slice 0 (length req_indices) vs)
  else raise ValueError.

(** ** The copies on the device *)

Definition commit_block_table (num_reqs : nat) : M BlockTable () :=
  modify (λ b, mkBlockTable (layout b) (copy_to_gpu num_reqs (block_table b)) (num_blocks_per_row b) (slot_mapping b)).
Definition commit_slot_mapping (num_tokens : nat) : M BlockTable () :=
  modify (λ b, mkBlockTable (layout b) (block_table b) (num_blocks_per_row b) (copy_to_gpu num_tokens (slot_mapping b))).
Definition clear : M BlockTable () :=
  modify (λ b, let zero (t : list (list Z)) := (λ r, replicate (length r) 0%Z) <$> t in
    mkBlockTable (layout b) (mkBuffer (zero (cpu (block_table b))) (zero (gpu (block_table b)))) (num_blocks_per_row b) (slot_mapping b)).
Definition get_device_tensor (num_reqs : nat) (b : BlockTable) : list (list Z) := take num_reqs (gpu (block_table b)).

(** ** One table per KV cache group *)
Module Multi.

Notation MultiGroupBlockTable := (list BlockTable).

Definition new (nreqs max_model_len ntokens : nat) (block_sizes kernel_block_sizes : list nat) (num_speculative_tokens interleave : nat)
    (pcp dcp : option (nat * nat)) : result MultiGroupBlockTable :=
  let total := (default (1, 0) dcp).1 * (default (1, 0) pcp).1 in
  if decide (length kernel_block_sizes = length block_sizes) then
    mapR (λ bk : nat * nat,
      if decide (bk.1 * total = 0) then Raise ZeroDivisionError
      else new_block_table bk.1 nreqs (((max_model_len + bk.1 * total - 1) / (bk.1 * total)) `max` (1 + num_speculative_tokens)) ntokens bk.2 interleave pcp dcp)
      (zip block_sizes kernel_block_sizes)
  else Raise ValueError.

(** [self.block_tables[i]], an object of the list *)
Definition at_table {A} (i : nat) (f : M BlockTable A) : M MultiGroupBlockTable A := λ t,
  match t !! i with
  | None => (Raise IndexError, t)
  | Some b => match f b with (r, b') => (r, <[i := b']> t) end
  end.

Definition each (f : M BlockTable ()) : M MultiGroupBlockTable () :=
  t ← get; for_each (seq 0 (length t)) (λ i, at_table i f).
Definition each_ids (f : list Z → M BlockTable ()) (block_ids : list (list Z)) : M MultiGroupBlockTable () :=
  t ← get; for_each (seq 0 (length t)) (λ i, ids ← index block_ids i; at_table i (f ids)).

Definition append_row (block_ids : list (list Z)) (row_idx : nat) := each_ids (λ ids, append_row ids row_idx) block_ids.
Definition add_row (block_ids : list (list Z)) (row_idx : nat) := each_ids (λ ids, add_row ids row_idx) block_ids.
Definition move_row (src tgt : nat) := each (move_row src tgt).
Definition swap_row (src tgt : nat) := each (swap_row src tgt).
Definition compute_slot_mapping (req_indices positions : list nat) := each (compute_slot_mapping req_indices positions).
Definition commit_block_table (num_reqs : nat) := each (commit_block_table num_reqs).
Definition commit_slot_mapping (num_tokens : nat) := each (commit_slot_mapping num_tokens).
Definition clear := each clear.
End Multi.

(** * Properties *)

(** ** Rows as lists of blocks

    The abstract state of a table is the list of kernel blocks of every row; the contents of
    the table past the end of a row do not matter. *)

Record wf (b : BlockTable) : Prop := {
  wf_rows : length (table b) = max_num_reqs (layout b);
  wf_width : Forall (λ r, length r = max_num_blocks_per_req (layout b)) (table b);
  wf_counts : length (num_blocks_per_row b) = max_num_reqs (layout b);
  wf_bound : Forall (λ n, n ≤ max_num_blocks_per_req (layout b)) (num_blocks_per_row b);
  wf_per : 0 < blocks_per_kv_block (layout b);
  wf_plain : use_hybrid_blocks (layout b) = false → blocks_per_kv_block (layout b) = 1;
}.
Definition row_blocks (b : BlockTable) (r : nat) : list Z :=
  match table b !! r, num_blocks_per_row b !! r with Some row, Some n => take n row | _, _ => [] end.
Definition kernel_ids (c : Layout) (ids : list Z) : list Z := map_to_kernel_blocks ids (blocks_per_kv_block c) (kernel_block_arange c).
(** The block ids that the int32 table can hold *)
Definition block_fits (c : Layout) (id : Z) : Prop := (0 ≤ id ∧ (id + 1) * Z.of_nat (blocks_per_kv_block c) ≤ 2 ^ 31)%Z.
(** What operations on rows leave alone *)
Definition same_frame (b b' : BlockTable) : Prop :=
  layout b' = layout b ∧ slot_mapping b' = slot_mapping b ∧ gpu (block_table b') = gpu (block_table b).

Lemma wf_row b r : wf b → r < max_num_reqs (layout b) → ∃ row n, table b !! r = Some row ∧ num_blocks_per_row b !! r = Some n ∧
  length row = max_num_blocks_per_req (layout b) ∧ n ≤ max_num_blocks_per_req (layout b) ∧ row_blocks b r = take n row.
Proof.
  intros H Hr. destruct (lookup_lt_is_Some_2 (table b) r) as [row Hrow]; [by rewrite (wf_rows _ H)|].
  destruct (lookup_lt_is_Some_2 (num_blocks_per_row b) r) as [n Hn]; [by rewrite (wf_counts _ H)|].
  exists row, n. split_and!; [done..| | |].
  - by apply (Forall_lookup_1 _ _ _ _ (wf_width _ H) Hrow).
  - by apply (Forall_lookup_1 _ _ _ _ (wf_bound _ H) Hn).
  - unfold row_blocks. by rewrite Hrow, Hn.
Qed.
Lemma wf_update b t n : wf b → length t = length (table b) → Forall (λ r, length r = max_num_blocks_per_req (layout b)) t →
  length n = length (num_blocks_per_row b) → Forall (λ n, n ≤ max_num_blocks_per_req (layout b)) n → wf (set_table t (set_num_blocks n b)).
Proof. intros [] ????. constructor; cbn; try done; congruence. Qed.

Lemma length_kernel_ids c ids : length (kernel_ids c ids) = length ids * blocks_per_kv_block c.
Proof.
  unfold kernel_ids, map_to_kernel_blocks, kernel_block_arange. case_decide as E; [rewrite E; lia|].
  induction ids as [|id ids IH]; [done|]. rewrite fmap_cons. cbn [concat]. rewrite length_app, length_fmap, length_seq, IH. cbn. lia.
Qed.
Lemma kernel_ids_app c ids ids' : kernel_ids c (ids ++ ids') = kernel_ids c ids ++ kernel_ids c ids'.
Proof. unfold kernel_ids, map_to_kernel_blocks. case_decide; [done|]. by rewrite fmap_app, concat_app. Qed.

(** The kernel block of an offset in a manager block *)
Lemma lookup_kernel_ids c ids q k id : k < blocks_per_kv_block c → ids !! q = Some id →
  kernel_ids c ids !! (q * blocks_per_kv_block c + k) = Some (id * Z.of_nat (blocks_per_kv_block c) + Z.of_nat k)%Z.
Proof.
  intros Hk. revert q. induction ids as [|id' ids IH]; intros q Hq; [done|]. change (id' :: ids) with ([id'] ++ ids). rewrite kernel_ids_app.
  assert (length (kernel_ids c [id']) = blocks_per_kv_block c) as Hlen by (rewrite length_kernel_ids; cbn; lia). destruct q as [|q].
  - injection Hq as ->. rewrite lookup_app_l by lia. unfold kernel_ids, map_to_kernel_blocks. case_decide as E.
    + assert (k = 0) as -> by lia. cbn. f_equal. lia.
    + rewrite fmap_cons. cbn [concat fmap list_fmap]. rewrite app_nil_r, list_lookup_fmap. unfold kernel_block_arange. by rewrite lookup_seq_lt by done.
  - rewrite lookup_app_r, Hlen by (rewrite Hlen; lia). replace (S q * blocks_per_kv_block c + k - blocks_per_kv_block c) with (q * blocks_per_kv_block c + k) by lia. by apply IH.
Qed.
Lemma kernel_ids_elem c ids x : x ∈ kernel_ids c ids → ∃ id k, id ∈ ids ∧ k < blocks_per_kv_block c ∧ x = (id * Z.of_nat (blocks_per_kv_block c) + Z.of_nat k)%Z.
Proof.
  unfold kernel_ids, map_to_kernel_blocks, kernel_block_arange. case_decide as E.
  - intros Hx. exists x, 0. rewrite E. split_and!; [done|lia|lia].
  - intros (l & Hl & (id & -> & Hid)%list_elem_of_fmap)%elem_of_concat. apply list_elem_of_fmap in Hl as (k & -> & Hk%elem_of_seq).
    exists id, k. split_and!; [done|lia|done].
Qed.
Lemma table_values_ok b ids : wf b → Forall (block_fits (layout b)) ids → table_values (layout b) ids = Ok (kernel_ids (layout b) ids).
Proof.
  intros Hwf Hids. set (c := layout b) in *. unfold table_values. destruct (use_hybrid_blocks c) eqn:Eh.
  - f_equal. rewrite <-(list_fmap_id (kernel_ids c ids)). apply list_fmap_ext. intros i x Hx%list_elem_of_lookup_2. apply wrap32_id.
    apply kernel_ids_elem in Hx as (id & k & Hid & Hk & ->). rewrite Forall_forall in Hids. specialize (Hids _ Hid) as [].
    pose proof (Z.mul_nonneg_nonneg id (Z.of_nat (blocks_per_kv_block c))). unfold int32_range. change (Datatypes.id ?x) with x. lia.
  - assert (blocks_per_kv_block c = 1) as E by (by apply (wf_plain _ Hwf)). unfold kernel_ids, map_to_kernel_blocks. rewrite (decide_True (P := _ = 1)) by done.
    rewrite decide_True; [done|]. eapply Forall_impl; [done|]. intros x []. unfold int32_range. rewrite E in *. lia.
Qed.

Lemma append_row_spec ids r b : wf b → r < max_num_reqs (layout b) → Forall (block_fits (layout b)) ids →
  length (row_blocks b r) + length ids * blocks_per_kv_block (layout b) ≤ max_num_blocks_per_req (layout b) →
  wp (append_row ids r) b (λ _ b', wf b' ∧ same_frame b b' ∧
    ∀ k, row_blocks b' k = if decide (k = r) then row_blocks b r ++ kernel_ids (layout b) ids else row_blocks b k).
Proof.
  intros Hwf Hr Hids Hfit. destruct (wf_row b r Hwf Hr) as (row & n & Hrow & Hn & Hlen & Hle & Hblocks). rewrite Hblocks in *. rewrite length_take_le in Hfit by lia.
  assert (length (kernel_ids (layout b) ids) = length ids * blocks_per_kv_block (layout b)) as Hk by apply length_kernel_ids.
  unfold append_row. destruct (decide (ids = [])) as [->|].
  - apply wp_ret. split_and!; [done..|]. intros k. case_decide; [subst k|done]. rewrite Hblocks. unfold kernel_ids, map_to_kernel_blocks. case_decide; by rewrite app_nil_r.
  - wp_step. wp_step. wp_step. apply wp_gets. wp_step. eapply wp_index; [done|].
    assert ((if use_hybrid_blocks (layout b) then length (map_to_kernel_blocks ids (blocks_per_kv_block (layout b)) (kernel_block_arange (layout b))) else length ids)
      = length (kernel_ids (layout b) ids)) as -> by (destruct (use_hybrid_blocks _) eqn:E; [done|rewrite Hk, (wf_plain _ Hwf E); lia]).
    wp_step. wp_step. apply wp_np_set; [by eapply lookup_lt_Some|]. wp_step. rewrite (table_values_ok b) by done. apply wp_ret. wp_step.
    eapply wp_np_set_row_slice; [done|lia|done|]. set (ks := kernel_ids (layout b) ids) in *.
    set (row' := take n row ++ ks ++ drop (n + length ks) row). set (cs := <[r := n + length ks]> (num_blocks_per_row b)).
    change (let b' := set_table (<[r := row']> (table b)) (set_num_blocks cs b) in wf b' ∧ same_frame b b' ∧ ∀ k, row_blocks b' k = if decide (k = r) then take n row ++ ks else row_blocks b k).
    cbn zeta. subst row' cs.
    split_and!; [|done|].
    + apply wf_update; rewrite ?length_insert; [done..| |done|].
      * apply Forall_insert; [apply (wf_width _ Hwf)|]. rewrite length_written; lia.
      * apply Forall_insert; [apply (wf_bound _ Hwf)|lia].
    + intros k. unfold row_blocks. cbn. destruct (decide (k = r)) as [->|].
      * rewrite !list_lookup_insert_eq by (by eapply lookup_lt_Some). apply take_slice. lia.
      * by rewrite !list_lookup_insert_ne.
Qed.

Lemma row_blocks_nil b' r : num_blocks_per_row b' !! r = Some 0 → row_blocks b' r = [].
Proof. unfold row_blocks. intros ->. by destruct (table b' !! r). Qed.

Lemma add_row_spec ids r b : wf b → r < max_num_reqs (layout b) → Forall (block_fits (layout b)) ids →
  length ids * blocks_per_kv_block (layout b) ≤ max_num_blocks_per_req (layout b) →
  wp (add_row ids r) b (λ _ b', wf b' ∧ same_frame b b' ∧
    ∀ k, row_blocks b' k = if decide (k = r) then kernel_ids (layout b) ids else row_blocks b k).
Proof.
  intros Hwf Hr Hids Hfit. unfold add_row. wp_step. wp_step. assert (r < length (num_blocks_per_row b)) as Hlt by (by rewrite (wf_counts _ Hwf)). apply wp_np_set; [done|].
  set (b1 := set_num_blocks (<[r:=0]> (num_blocks_per_row b)) b).
  assert (row_blocks b1 r = []) as E1 by (apply row_blocks_nil; by apply list_lookup_insert_eq).
  assert (wf b1) as Hwf1. { destruct Hwf. constructor; cbn; rewrite ?length_insert; try done. apply Forall_insert; [done|lia]. }
  eapply wp_mono; [apply (append_row_spec ids r b1); [done..|rewrite E1; cbn; lia]|]. cbn. intros _ b' (Hwf' & (E2 & E3 & E4) & Hrows). split_and!; [done..|].
  intros k. rewrite Hrows. case_decide; [by rewrite E1|]. unfold row_blocks, b1. cbn. by rewrite list_lookup_insert_ne.
Qed.

Lemma move_row_spec src tgt b : wf b → src < max_num_reqs (layout b) → tgt < max_num_reqs (layout b) →
  wp (move_row src tgt) b (λ _ b', wf b' ∧ same_frame b b' ∧ ∀ k, row_blocks b' k = row_blocks b (move_ix src tgt k)).
Proof.
  intros Hwf Hs Ht. destruct (wf_row b src Hwf Hs) as (row & n & Hrow & Hn & Hlen & Hle & Hblocks), (wf_row b tgt Hwf Ht) as (row' & n' & Hrow' & Hn' & Hlen' & Hle' & Hblocks').
  unfold move_row. wp_step. apply wp_gets. wp_step. eapply wp_index; [done|]. wp_step. eapply wp_index; [done|]. wp_step. wp_step.
  eapply wp_np_set_row_slice; [done|lia|rewrite length_take_le; lia|]. wp_step. apply wp_np_set; [by eapply lookup_lt_Some|]. set (new := take n row ++ drop n row').
  change (let b' := set_table (<[tgt := new]> (table b)) (set_num_blocks (<[tgt := n]> (num_blocks_per_row b)) b) in
    wf b' ∧ same_frame b b' ∧ ∀ k, row_blocks b' k = row_blocks b (move_ix src tgt k)). cbn zeta.
  split_and!; [|done|].
  - apply wf_update; rewrite ?length_insert; [done..| |done|]; apply Forall_insert; try apply Hwf; [|done]. unfold new. rewrite length_app, length_take, length_drop. lia.
  - intros k. unfold move_ix, row_blocks. cbn. destruct (decide (k = tgt)) as [->|]; [|by rewrite !list_lookup_insert_ne].
    rewrite !list_lookup_insert_eq by (by eapply lookup_lt_Some). rewrite Hrow, Hn. unfold new. rewrite take_app_le by (rewrite length_take; lia).
    by rewrite take_take, Nat.min_id.
Qed.

Lemma Forall_rearranged {A} (P : A → Prop) f (l l' : list A) : rearranged f l l' → (∀ k, k < length l → f k < length l) → Forall P l → Forall P l'.
Proof.
  intros [Hlen H] Hf HP. apply Forall_lookup. intros k x Hk. pose proof (lookup_lt_Some _ _ _ Hk). rewrite H in Hk by lia. by apply (Forall_lookup_1 _ _ _ _ HP Hk).
Qed.

Lemma swap_row_spec src tgt b : wf b → src < max_num_reqs (layout b) → tgt < max_num_reqs (layout b) →
  wp (swap_row src tgt) b (λ _ b', wf b' ∧ same_frame b b' ∧ ∀ k, row_blocks b' k = row_blocks b (swap_ix src tgt k)).
Proof.
  intros Hwf Hs Ht. pose proof (wf_rows _ Hwf) as Er. pose proof (wf_counts _ Hwf) as Ec. unfold swap_row. wp_step. wp_step. apply wp_np_swap; [lia..|]. intros ns Hns.
  wp_step. apply wp_np_swap; [change (src < length (table b)); lia|change (tgt < length (table b)); lia|]. intros t Hrt. change (rearranged (swap_ix src tgt) (table b) t) in Hrt.
  change (let b' := set_table t (set_num_blocks ns b) in wf b' ∧ same_frame b b' ∧ ∀ k, row_blocks b' k = row_blocks b (swap_ix src tgt k)). cbn zeta.
  assert (∀ k, k < max_num_reqs (layout b) → swap_ix src tgt k < max_num_reqs (layout b)) as Hlt by (intros; by apply swap_ix_lt).
  split_and!; [|done|].
  - apply wf_update; [done|apply Hrt| |apply Hns|].
    + eapply (Forall_rearranged _ (swap_ix src tgt)); [exact Hrt| |apply Hwf]. unfold table in *. by rewrite Er.
    + eapply (Forall_rearranged _ (swap_ix src tgt)); [done| |apply Hwf]. by rewrite Ec.
  - destruct Hns as [Ln Hns], Hrt as [Lt Hrt]. unfold table in *. intros k. unfold row_blocks. cbn. unfold table. destruct (decide (k < max_num_reqs (layout b))).
    + by rewrite Hns, Hrt by lia.
    + assert (swap_ix src tgt k = k) as -> by (unfold swap_ix; repeat case_decide; lia). by rewrite !lookup_ge_None_2 by lia.
Qed.

(** ** Slots

    Rank [k] of [w] owns the positions whose interleave unit is [k] modulo [w]; the [n]-th
    position a rank owns is at its local position [n]. *)
Definition owner (c : Layout) (p : nat) : nat := (p / cp_kv_cache_interleave_size c) mod total_cp_world_size c.
Definition local_position (c : Layout) (p : nat) : nat :=
  p / (total_cp_world_size c * cp_kv_cache_interleave_size c) * cp_kv_cache_interleave_size c + p mod cp_kv_cache_interleave_size c.
(** The slot of a local position among the blocks [ids] of the KV cache manager, which are of size [n] *)
Definition manager_slot (n : nat) (ids : list Z) (p : nat) : option Z := (λ id, id * Z.of_nat n + Z.of_nat (p mod n))%Z <$> ids !! (p / n).
Definition manager_block_size (c : Layout) : nat := block_size c * blocks_per_kv_block c.

(** Sizes that fit together *)
Record sizes_ok (c : Layout) : Prop := {
  so_block : 0 < block_size c;
  so_per : 0 < blocks_per_kv_block c;
  so_world : 0 < total_cp_world_size c;
  so_interleave : 0 < cp_kv_cache_interleave_size c;
  so_divides : (cp_kv_cache_interleave_size c | block_size c);
  so_rank : total_cp_rank c < total_cp_world_size c;
}.

(** The number of full rounds over the ranks before a position *)
Definition rounds (w i p : nat) : nat := p / (w * i).

Lemma local_div_unit w i p : 0 < i → (rounds w i p * i + p mod i) / i = rounds w i p.
Proof. intros ?. rewrite Nat.div_add_l by lia. rewrite (Nat.div_small (p mod i)); [lia|]. apply Nat.mod_upper_bound. lia. Qed.
Lemma local_mod_unit w i p : (rounds w i p * i + p mod i) mod i = p mod i.
Proof. rewrite Nat.add_comm, Nat.Div0.mod_add. apply Nat.Div0.mod_mod. Qed.
Lemma virtual_split w i c p : p mod (w * i * c) = p mod (w * i) + w * i * (rounds w i p mod c).
Proof. apply Nat.Div0.mod_mul_r. Qed.
(** The block of a position and its offset there are those of its local position. *)
Lemma virtual_block w i c p : 0 < i → p / (i * c * w) = (rounds w i p * i + p mod i) / (i * c).
Proof.
  intros. replace (i * c * w) with (w * i * c) by lia. rewrite <-(Nat.Div0.div_div p (w * i) c), <-(Nat.Div0.div_div _ i c), local_div_unit by done. done.
Qed.
Lemma virtual_offset w i c p : 0 < w → 0 < i →
  (p mod (i * c * w)) / (w * i) * i + (p mod (i * c * w)) mod i = (rounds w i p * i + p mod i) mod (i * c).
Proof.
  intros. replace (i * c * w) with (w * i * c) by lia. rewrite (Nat.Div0.mod_mul_r _ i c), local_mod_unit, local_div_unit by done. rewrite virtual_split.
  assert (p mod (w * i) < w * i) by (apply Nat.mod_upper_bound; lia).
  replace ((p mod (w * i) + w * i * (rounds w i p mod c)) / (w * i)) with (rounds w i p mod c) by (rewrite (Nat.mul_comm (w * i)), Nat.div_add, (Nat.div_small (p mod _)) by lia; lia).
  replace ((p mod (w * i) + w * i * (rounds w i p mod c)) mod i) with (p mod i); [lia|].
  replace (w * i * (rounds w i p mod c)) with (w * (rounds w i p mod c) * i) by lia. rewrite Nat.Div0.mod_add. rewrite (Nat.mul_comm w i), Nat.Div0.mod_mul_r.
  rewrite (Nat.mul_comm i), Nat.Div0.mod_add. by rewrite Nat.Div0.mod_mod.
Qed.
Lemma virtual_owner w i c p : 0 < i → (p mod (i * c * w) / i) mod w = (p / i) mod w.
Proof.
  intros. replace (i * c * w) with (i * (w * c)) by lia. rewrite Nat.Div0.mod_mul_r.
  rewrite (Nat.mul_comm i), Nat.div_add, (Nat.div_small (p mod i)) by (try apply Nat.mod_upper_bound; lia). cbn.
  rewrite Nat.Div0.mod_mul_r, (Nat.mul_comm w), Nat.Div0.mod_add. apply Nat.Div0.mod_mod.
Qed.
(** A position is determined by its owner and its local position. *)
Lemma position_split w i p : p = (rounds w i p * w + (p / i) mod w) * i + p mod i.
Proof.
  unfold rounds. replace (w * i) with (i * w) by lia. rewrite <-(Nat.Div0.div_div p i w). pose proof (Nat.div_mod_eq p i). pose proof (Nat.div_mod_eq (p / i) w). nia.
Qed.

Lemma owner_lt c p : sizes_ok c → owner c p < total_cp_world_size c.
Proof. intros []. apply Nat.mod_upper_bound. lia. Qed.
Lemma local_position_inj c p q : sizes_ok c → owner c p = owner c q → local_position c p = local_position c q → p = q.
Proof.
  intros [] Ho Hl. unfold owner, local_position in *. set (w := total_cp_world_size c) in *. set (i := cp_kv_cache_interleave_size c) in *.
  assert (rounds w i p = rounds w i q) as Em by (rewrite <-(local_div_unit w i p so_interleave0), <-(local_div_unit w i q so_interleave0); unfold rounds; by rewrite Hl).
  assert (p mod i = q mod i) as Er by (rewrite <-(local_mod_unit w i p), <-(local_mod_unit w i q); unfold rounds; by rewrite Hl).
  rewrite (position_split w i p), (position_split w i q). by rewrite Em, Er, Ho.
Qed.

(** The row and the column of an entry of the flattened table *)
Lemma lookup_concat_rows {A} (t : list (list A)) n : Forall (λ r, length r = n) t → ∀ r j row, t !! r = Some row → j < n → concat t !! (r * n + j) = row !! j.
Proof.
  induction 1 as [|x t Hx _ IH]; intros r j row Hr Hj; [done|]. destruct r as [|r]; cbn in *.
  - injection Hr as ->. by rewrite lookup_app_l by lia.
  - rewrite lookup_app_r by lia. replace (n + r * n + j - length x) with (r * n + j) by lia. by apply IH.
Qed.

(** The blocks whose slots fit in 32 bits *)
Definition slots_fit (c : Layout) (id : Z) : Prop := (0 ≤ id ∧ (id + 1) * Z.of_nat (manager_block_size c) ≤ 2 ^ 31)%Z.

(** Row [r] of the table holds the manager's blocks [ids]. *)
Definition holds_blocks (b : BlockTable) (r : nat) (ids : list Z) : Prop :=
  r < max_num_reqs (layout b) ∧ row_blocks b r = kernel_ids (layout b) ids ∧ Forall (slots_fit (layout b)) ids.

Lemma kernel_slot c ids p s : sizes_ok c → manager_slot (manager_block_size c) ids p = Some s →
  ∃ k, kernel_ids c ids !! (p / block_size c) = Some k ∧ (k * Z.of_nat (block_size c) + Z.of_nat (p mod block_size c))%Z = s ∧
    (Forall (slots_fit c) ids → int32_range (k * Z.of_nat (block_size c))).
Proof.
  intros [] Hs. unfold manager_slot in Hs. apply fmap_Some in Hs as (id & Hid & ->). unfold manager_block_size in *. rewrite <-Nat.Div0.div_div in Hid.
  assert (p / block_size c mod blocks_per_kv_block c < blocks_per_kv_block c) as Hk by (apply Nat.mod_upper_bound; lia).
  pose proof (lookup_kernel_ids c ids _ _ id Hk Hid) as E. rewrite Nat.mul_comm, <-Nat.div_mod_eq in E. eexists; split_and!; [exact E| |].
  - rewrite Nat.Div0.mod_mul_r. nia.
  - intros Hfit. destruct (Forall_lookup_1 _ _ _ _ Hfit Hid) as [H1 H2]. unfold manager_block_size, int32_range in *.
    assert (0 ≤ id * Z.of_nat (blocks_per_kv_block c))%Z by (apply Z.mul_nonneg_nonneg; lia). split; [|].
    + transitivity 0%Z; [lia|]. apply Z.mul_nonneg_nonneg; lia.
    + eapply Z.lt_le_trans; [|exact H2]. rewrite Nat2Z.inj_mul, (Z.mul_comm (Z.of_nat (block_size c))), Z.mul_assoc. apply Z.mul_lt_mono_pos_r; lia.
Qed.

Lemma row_entry b r ids j k : wf b → holds_blocks b r ids → kernel_ids (layout b) ids !! j = Some k →
  concat (table b) !! (r * max_num_blocks_per_req (layout b) + j) = Some k.
Proof.
  intros Hwf (Hr & Hrow & _) Hk. destruct (wf_row b r Hwf Hr) as (row & n & E & _ & Hlen & Hle & Eb). rewrite <-Hrow, Eb in Hk.
  apply lookup_take_Some in Hk as [Hk Hj]. rewrite (lookup_concat_rows _ _ (wf_width _ Hwf) _ _ row); [done..|lia].
Qed.

Lemma token_slot_exact b r ids p s : wf b → sizes_ok (layout b) → holds_blocks b r ids →
  manager_slot (manager_block_size (layout b)) ids (local_position (layout b) p) = Some s →
  token_slot b r p = Ok (if decide (owner (layout b) p = total_cp_rank (layout b)) then s else -1)%Z.
Proof.
  intros Hwf Hok Hb Hs. destruct (kernel_slot _ _ _ _ Hok Hs) as (k & Hk & Es & Hfit). destruct Hok as [Hbs Hper Hw Hi [c Hc] Hrank].
  specialize (Hfit (proj2 (proj2 Hb))). unfold token_slot, owner, local_position in *. set (L := layout b) in *. set (w := total_cp_world_size L) in *.
  set (i := cp_kv_cache_interleave_size L) in *. assert (block_size L = i * c) as Ebs by lia. destruct (decide (1 < w)) as [|Hw1].
  - fold (rounds w i p) in *. assert (block_size L * w = i * c * w) as Ev by lia. rewrite Ev, virtual_block, virtual_offset, virtual_owner by lia. rewrite <-Ebs.
    fold L. rewrite (row_entry b r ids _ k) by done. cbn. rewrite wrap32_id by done. rewrite <-Es. case_bool_decide; case_decide; done || lia.
  - assert (w = 1) as Ew by lia. assert (p / (w * i) * i + p mod i = p) as El by (rewrite Ew, Nat.mul_1_l; pose proof (Nat.div_mod_eq p i); lia). rewrite El in *.
    fold L. rewrite (row_entry b r ids _ k) by done. cbn. rewrite wrap32_id by done. rewrite Es. rewrite Ew in *. rewrite Nat.mod_1_r. by rewrite decide_True by lia.
Qed.

(** What the slots of a step are, for the rows' blocks [ids] *)
Definition step_slot (c : Layout) (ids : nat → list Z) (r p : nat) : option Z :=
  if decide (owner c p = total_cp_rank c) then manager_slot (manager_block_size c) (ids r) (local_position c p) else Some (-1)%Z.
(** The rows of a step's tokens hold the blocks of these tokens. *)
Definition step_ready (b : BlockTable) (ids : nat → list Z) (reqs poss : list nat) : Prop :=
  wf b ∧ sizes_ok (layout b) ∧ length reqs = length poss ∧ length reqs ≤ length (slots b) ∧
  ∀ n r p, reqs !! n = Some r → poss !! n = Some p → holds_blocks b r (ids r) ∧ local_position (layout b) p < length (ids r) * manager_block_size (layout b).

Lemma manager_slot_Some n ids p : 0 < n → p < length ids * n → is_Some (manager_slot n ids p).
Proof. intros Hn Hp. unfold manager_slot. rewrite fmap_is_Some, lookup_lt_is_Some. apply Nat.Div0.div_lt_upper_bound; lia. Qed.

Lemma step_token_slot b ids reqs poss n r p : step_ready b ids reqs poss → reqs !! n = Some r → poss !! n = Some p →
  ∃ s, token_slot b r p = Ok s ∧ step_slot (layout b) ids r p = Some s.
Proof.
  intros (Hwf & Hok & _ & _ & H) Hr Hp. destruct (H _ _ _ Hr Hp) as [Hb Hlt].
  destruct (manager_slot_Some (manager_block_size (layout b)) (ids r) (local_position (layout b) p)) as [s Hs];
    [unfold manager_block_size; pose proof (so_block _ Hok); pose proof (so_per _ Hok); nia|done|].
  rewrite (token_slot_exact b r (ids r) p s) by done. unfold step_slot. case_decide; eauto.
Qed.

Lemma compute_slot_mapping_spec b ids reqs poss : step_ready b ids reqs poss → wp (compute_slot_mapping reqs poss) b (λ _ b',
  layout b' = layout b ∧ block_table b' = block_table b ∧ num_blocks_per_row b' = num_blocks_per_row b ∧ length (slots b') = length (slots b) ∧
  ∀ n r p, reqs !! n = Some r → poss !! n = Some p → slots b' !! n = step_slot (layout b) ids r p).
Proof.
  intros H. pose proof H as (_ & _ & Hlen & Hle & _). unfold compute_slot_mapping. rewrite decide_True by done. wp_step. apply wp_gets. wp_step.
  destruct (mapR_total (λ rp : nat * nat, token_slot b rp.1 rp.2) (zip reqs poss)) as [vs Hvs].
  { intros rp [n (r & p & -> & Hr & Hp)%lookup_zip_with_Some]%list_elem_of_lookup. destruct (step_token_slot _ _ _ _ n r p H) as (s & ? & _); eauto. }
  rewrite Hvs. apply wp_ret. apply mapR_ok in Hvs. pose proof (Forall2_length _ _ _ Hvs) as Lv. rewrite length_zip_with in Lv. wp_step.
  apply wp_np_set_slice; [done|lia|]. split_and!; [done..| |].
  - unfold slots at 1. cbn [cpu slot_mapping set_slots take app]. rewrite !length_app, length_drop, length_take. lia.
  - intros n r p Hr Hp. unfold slots. cbn [cpu slot_mapping set_slots]. rewrite take_0. cbn [app]. pose proof (lookup_lt_Some _ _ _ Hr). rewrite lookup_app_l by lia.
    assert (zip reqs poss !! n = Some (r, p)) as Hz by (by rewrite lookup_zip_with, Hr; cbn; rewrite Hp).
    destruct (Forall2_lookup_l _ _ _ _ _ Hvs Hz) as (v & Hv & E). destruct (step_token_slot _ _ _ _ n r p H) as (s & E' & Es); [done..|].
    cbn in E. rewrite Hv, Es. congruence.
Qed.

(** ** All groups *)

Section groups.
Context (Q : nat → BlockTable → BlockTable → Prop) (t : Multi.MultiGroupBlockTable).

(** After the first [n] tables *)
Definition done_upto (n : nat) (s : Multi.MultiGroupBlockTable) : Prop :=
  length s = length t ∧ ∀ i b, t !! i = Some b → if decide (i < n) then ∃ b', s !! i = Some b' ∧ Q i b b' else s !! i = Some b.

Lemma done_upto_step n s (f : M BlockTable ()) b : done_upto n s → t !! n = Some b → wp f b (λ _ b', Q n b b') →
  wp (Multi.at_table n f) s (λ _ s', done_upto (S n) s').
Proof.
  intros [Hlen H] Hb Hf. pose proof (H _ _ Hb) as E. rewrite decide_False in E by lia. unfold wp, Multi.at_table in *. rewrite E.
  destruct (f b) as [[[]|e] b']; [|done]. split; [by rewrite length_insert|]. intros i b0 Hi. pose proof (lookup_lt_Some _ _ _ E). specialize (H _ _ Hi).
  destruct (decide (i = n)) as [->|]; [rewrite decide_True by lia|].
  - rewrite Hb in Hi. injection Hi as <-. exists b'. by rewrite list_lookup_insert_eq.
  - rewrite list_lookup_insert_ne by done. destruct (decide (i < n)), (decide (i < S n)); done || lia.
Qed.

Lemma wp_groups (g : nat → M Multi.MultiGroupBlockTable ()) : (∀ n b s, t !! n = Some b → done_upto n s → wp (g n) s (λ _ s', done_upto (S n) s')) →
  wp (for_each (seq 0 (length t)) g) t (λ _ t', length t' = length t ∧ ∀ i b, t !! i = Some b → ∃ b', t' !! i = Some b' ∧ Q i b b').
Proof.
  intros Hg. apply (wp_for_each (λ l s, done_upto (length l) s)).
  - split; [done|]. intros i b Hi. by rewrite decide_False by (cbn; lia).
  - intros l x rest s' E HI. assert (x = length l) as -> by (assert (seq 0 (length t) !! length l = Some x) as Hx by (rewrite E; by apply list_lookup_middle); apply lookup_seq in Hx; lia).
    assert (length l < length t) as Hl by (rewrite <-(length_seq (length t) 0), E, length_app; cbn; lia). destruct (lookup_lt_is_Some_2 t (length l) Hl) as [b Hb].
    rewrite length_app, Nat.add_1_r. by apply (Hg _ b).
  - intros s' [Hlen H]. split; [done|]. intros i b Hi. specialize (H _ _ Hi). rewrite length_seq in H. by rewrite decide_True in H by (by eapply lookup_lt_Some).
Qed.

Lemma wp_each f : (∀ i b, t !! i = Some b → wp f b (λ _ b', Q i b b')) →
  wp (Multi.each f) t (λ _ t', length t' = length t ∧ ∀ i b, t !! i = Some b → ∃ b', t' !! i = Some b' ∧ Q i b b').
Proof.
  intros Hf. unfold Multi.each. wp_step. apply wp_gets. apply wp_groups. intros n b s Hb HI. eapply done_upto_step; eauto.
Qed.
Lemma wp_each_ids f idss : (∀ i b, t !! i = Some b → ∃ ids, idss !! i = Some ids ∧ wp (f ids) b (λ _ b', Q i b b')) →
  wp (Multi.each_ids f idss) t (λ _ t', length t' = length t ∧ ∀ i b, t !! i = Some b → ∃ b', t' !! i = Some b' ∧ Q i b b').
Proof.
  intros Hf. unfold Multi.each_ids. wp_step. apply wp_gets. apply wp_groups. intros n b s Hb HI. destruct (Hf _ _ Hb) as (ids & Hids & Hw).
  wp_step. eapply wp_index; [done|]. eapply done_upto_step; eauto.
Qed.
End groups.

(** The tables of all groups are well-formed and have [n] rows; the layouts of the groups never change. *)
Definition groups_wf (ls : list Layout) (n : nat) (t : Multi.MultiGroupBlockTable) : Prop :=
  layout <$> t = ls ∧ Forall (λ b, wf b ∧ max_num_reqs (layout b) = n) t.
(** The kernel blocks of a row in every group *)
Definition group_rows (t : Multi.MultiGroupBlockTable) (r : nat) : list (list Z) := (λ b, row_blocks b r) <$> t.

(** An operation that changes the row [k] of the [i]-th table [b] to [R i b k] *)
Definition rows_become (R : nat → BlockTable → nat → list Z) (i : nat) (b b' : BlockTable) : Prop :=
  wf b' ∧ same_frame b b' ∧ ∀ k, row_blocks b' k = R i b k.

Lemma groups_post ls n t t' R : groups_wf ls n t → length t' = length t → (∀ i b, t !! i = Some b → ∃ b', t' !! i = Some b' ∧ rows_become R i b b') →
  groups_wf ls n t' ∧ ∀ k, group_rows t' k = imap (λ i b, R i b k) t.
Proof.
  intros [Hl Hwf] Hlen H. split; [split|].
  - rewrite <-Hl. apply list_eq. intros i. rewrite !list_lookup_fmap. destruct (t !! i) as [b|] eqn:E.
    + destruct (H _ _ E) as (b' & -> & _ & (Ef & _) & _). cbn. by rewrite Ef.
    + apply lookup_ge_None in E. by rewrite lookup_ge_None_2 by lia.
  - apply Forall_lookup. intros i b' Hb'. destruct (lookup_lt_is_Some_2 t i) as [b Hb]; [rewrite <-Hlen; by eapply lookup_lt_Some|].
    destruct (H _ _ Hb) as (b0 & E0 & Hwf' & (Ef & _) & _). assert (b0 = b') as -> by congruence. destruct (Forall_lookup_1 _ _ _ _ Hwf Hb) as [_ En]. split; [done|]. by rewrite Ef.
  - intros k. apply list_eq. intros i. unfold group_rows. rewrite list_lookup_imap, list_lookup_fmap. destruct (t !! i) as [b|] eqn:E; cbn.
    + destruct (H _ _ E) as (b' & -> & _ & _ & Er). cbn. by rewrite Er.
    + apply lookup_ge_None in E. by rewrite lookup_ge_None_2 by lia.
Qed.

Lemma imap_rows t k : imap (λ _ b, row_blocks b k) t = group_rows t k.
Proof. unfold group_rows. apply imap_const. Qed.

Lemma wp_move_row ls n t src tgt : groups_wf ls n t → src < n → tgt < n →
  wp (Multi.move_row src tgt) t (λ _ t', groups_wf ls n t' ∧ ∀ k, group_rows t' k = group_rows t (move_ix src tgt k)).
Proof.
  intros H Hs Ht. eapply wp_mono; [apply (wp_each (rows_become (λ _ b k, row_blocks b (move_ix src tgt k))))|].
  - intros i b Hb. destruct (Forall_lookup_1 _ _ _ _ (proj2 H) Hb) as [Hwf E]. apply move_row_spec; [done|lia..].
  - intros _ t' [Hlen Hp]. destruct (groups_post _ _ _ _ _ H Hlen Hp) as [Hwf Hr]. split; [done|]. intros k. by rewrite Hr, imap_rows.
Qed.
Lemma wp_swap_row ls n t src tgt : groups_wf ls n t → src < n → tgt < n →
  wp (Multi.swap_row src tgt) t (λ _ t', groups_wf ls n t' ∧ ∀ k, group_rows t' k = group_rows t (swap_ix src tgt k)).
Proof.
  intros H Hs Ht. eapply wp_mono; [apply (wp_each (rows_become (λ _ b k, row_blocks b (swap_ix src tgt k))))|].
  - intros i b Hb. destruct (Forall_lookup_1 _ _ _ _ (proj2 H) Hb) as [Hwf E]. apply swap_row_spec; [done|lia..].
  - intros _ t' [Hlen Hp]. destruct (groups_post _ _ _ _ _ H Hlen Hp) as [Hwf Hr]. split; [done|]. intros k. by rewrite Hr, imap_rows.
Qed.

(** The kernel blocks of the manager's blocks [idss] of a request, one list per group *)
Definition kernel_rows (ls : list Layout) (idss : list (list Z)) : list (list Z) := zip_with kernel_ids ls idss.
(** The tables have room for them after a row that has [used] blocks. *)
Definition rows_fit (ls : list Layout) (used : list nat) (idss : list (list Z)) : Prop :=
  length idss = length ls ∧ ∀ i l ids, ls !! i = Some l → idss !! i = Some ids →
    Forall (block_fits l) ids ∧ default 0 (used !! i) + length ids * blocks_per_kv_block l ≤ max_num_blocks_per_req l.

Lemma imap_kernel_rows ls t idss k (h : list Z → list Z → list Z) : layout <$> t = ls → length idss = length ls →
  imap (λ i b, h (row_blocks b k) (kernel_ids (layout b) (idss !!! i))) t = zip_with h (group_rows t k) (kernel_rows ls idss).
Proof.
  intros <- Hlen. rewrite length_fmap in Hlen. apply list_eq. intros i. unfold kernel_rows, group_rows. rewrite list_lookup_imap, !lookup_zip_with, !list_lookup_fmap.
  destruct (t !! i) as [b|] eqn:E; [|done]. destruct (lookup_lt_is_Some_2 idss i) as [ids Hids]; [rewrite Hlen; by eapply lookup_lt_Some|].
  cbn. rewrite list_lookup_total_alt, Hids. done.
Qed.

Lemma wp_add_row ls n t idss r : groups_wf ls n t → r < n → rows_fit ls [] idss →
  wp (Multi.add_row idss r) t (λ _ t', groups_wf ls n t' ∧ ∀ k, group_rows t' k = if decide (k = r) then kernel_rows ls idss else group_rows t k).
Proof.
  intros H Hr [Hlen Hfit]. pose proof H as [Hl Hwf].
  eapply wp_mono; [apply (wp_each_ids (rows_become (λ i b k, if decide (k = r) then kernel_ids (layout b) (idss !!! i) else row_blocks b k)))|].
  - intros i b Hb. destruct (Forall_lookup_1 _ _ _ _ Hwf Hb) as [Hwfb E]. destruct (lookup_lt_is_Some_2 idss i) as [ids Hids].
    { rewrite Hlen, <-Hl, length_fmap. by eapply lookup_lt_Some. }
    exists ids. split; [done|]. destruct (Hfit i (layout b) ids) as [Hf Hw]; [by rewrite <-Hl, list_lookup_fmap, Hb|done|]. cbn in Hw.
    unfold rows_become. rewrite (list_lookup_total_correct _ _ _ Hids). apply add_row_spec; [done|lia|done|lia].
  - intros _ t' [Hlen' Hp]. destruct (groups_post _ _ _ _ _ H Hlen' Hp) as [Hwf' Hr']. split; [done|]. intros k. rewrite Hr'. case_decide; [|apply imap_rows].
    rewrite (imap_kernel_rows ls t idss k (λ _ y, y)) by done. unfold kernel_rows, group_rows. apply list_eq. intros i. rewrite !lookup_zip_with, list_lookup_fmap, <-Hl, list_lookup_fmap.
    by destruct (t !! i), (idss !! i).
Qed.

Lemma wp_append_row ls n t idss r : groups_wf ls n t → r < n → rows_fit ls (length <$> group_rows t r) idss →
  wp (Multi.append_row idss r) t (λ _ t', groups_wf ls n t' ∧
    ∀ k, group_rows t' k = if decide (k = r) then zip_with app (group_rows t r) (kernel_rows ls idss) else group_rows t k).
Proof.
  intros H Hr [Hlen Hfit]. pose proof H as [Hl Hwf].
  eapply wp_mono; [apply (wp_each_ids (rows_become (λ i b k, if decide (k = r) then row_blocks b r ++ kernel_ids (layout b) (idss !!! i) else row_blocks b k)))|].
  - intros i b Hb. destruct (Forall_lookup_1 _ _ _ _ Hwf Hb) as [Hwfb E]. destruct (lookup_lt_is_Some_2 idss i) as [ids Hids].
    { rewrite Hlen, <-Hl, length_fmap. by eapply lookup_lt_Some. }
    exists ids. split; [done|]. destruct (Hfit i (layout b) ids) as [Hf Hw]; [by rewrite <-Hl, list_lookup_fmap, Hb|done|].
    unfold group_rows in Hw. rewrite !list_lookup_fmap, Hb in Hw. cbn in Hw.
    unfold rows_become. rewrite (list_lookup_total_correct _ _ _ Hids). apply append_row_spec; [done|lia|done|lia].
  - intros _ t' [Hlen' Hp]. destruct (groups_post _ _ _ _ _ H Hlen' Hp) as [Hwf' Hr']. split; [done|]. intros k. rewrite Hr'. case_decide; [|apply imap_rows].
    by rewrite (imap_kernel_rows ls t idss r app).
Qed.

(** ** New tables *)

Lemma new_block_table_spec bsize nreqs nblocks ntokens kbs interleave pcp dcp b : 0 < bsize →
  new_block_table bsize nreqs nblocks ntokens kbs interleave pcp dcp = Ok b →
  wf b ∧ (∀ k, row_blocks b k = []) ∧ manager_block_size (layout b) = bsize ∧ max_num_reqs (layout b) = nreqs ∧ length (slots b) = ntokens ∧
  0 < block_size (layout b).
Proof.
  intros Hb H. unfold new_block_table in H. apply result_bind_ok in H as ([[bs per] hybrid] & H1 & H2).
  destruct (default (1, 0) pcp) as [pn pr], (default (1, 0) dcp) as [dn dr]. injection H2 as <-.
  assert (0 < per ∧ (hybrid = false → per = 1) ∧ bs * per = bsize ∧ 0 < bs) as (Hper & Hh & E & Hbs).
  { repeat case_decide; try done; injection H1 as <- <- <-; [split_and!; lia|]. pose proof (Nat.div_mod_eq bsize kbs).
    split_and!; [|done|lia|lia]. destruct (bsize / kbs); lia. }
  split_and!; [constructor; cbn; rewrite ?length_replicate; try done| |done..|cbn; apply length_replicate|done].
  - apply Forall_replicate. by rewrite length_replicate.
  - apply Forall_replicate. lia.
  - intros k. unfold row_blocks, table. cbn. destruct (decide (k < nreqs)); [|by rewrite lookup_ge_None_2 by (rewrite length_replicate; lia)].
    by rewrite !lookup_replicate_2.
Qed.

Lemma new_groups_spec nreqs len ntokens bss kbss spec interleave pcp dcp t : Forall (λ n, 0 < n) bss →
  Multi.new nreqs len ntokens bss kbss spec interleave pcp dcp = Ok t →
  groups_wf (layout <$> t) nreqs t ∧ (∀ k, group_rows t k = replicate (length t) []) ∧ manager_block_size <$> (layout <$> t) = bss.
Proof.
  intros Hbs H. unfold Multi.new in H. case_decide as Hlen; [|done]. apply mapR_ok in H.
  assert (∀ i b, t !! i = Some b → ∃ n, bss !! i = Some n ∧ wf b ∧ (∀ k, row_blocks b k = []) ∧ manager_block_size (layout b) = n ∧ max_num_reqs (layout b) = nreqs) as Hall.
  { intros i b Hi. destruct (Forall2_lookup_r _ _ _ _ _ H Hi) as ([n kbs] & (? & ? & [= <- <-] & Hn & _)%lookup_zip_with_Some & E). cbn in E. exists n. split; [done|].
    case_decide; [done|]. destruct (new_block_table_spec _ _ _ _ _ _ _ _ _ (Forall_lookup_1 _ _ _ _ Hbs Hn) E) as (? & ? & ? & ? & _). done. }
  split_and!; [split; [done|]| |].
  - apply Forall_lookup. intros i b Hi. destruct (Hall _ _ Hi) as (n & _ & ? & _ & _ & ?). done.
  - intros k. unfold group_rows. apply list_eq. intros i. rewrite list_lookup_fmap. destruct (t !! i) as [b|] eqn:E.
    + destruct (Hall _ _ E) as (n & _ & _ & Er & _). cbn. rewrite Er. symmetry. apply lookup_replicate_2. by eapply lookup_lt_Some.
    + cbn. apply lookup_ge_None in E. by rewrite lookup_ge_None_2 by (by rewrite length_replicate).
  - apply list_eq. intros i. rewrite !list_lookup_fmap. destruct (t !! i) as [b|] eqn:E.
    + destruct (Hall _ _ E) as (n & -> & _ & _ & <- & _). done.
    + apply lookup_ge_None in E. apply Forall2_length in H. rewrite length_zip_with in H. by rewrite lookup_ge_None_2 by lia.
Qed.

(** ** Claims *)

(** C38. The slots of a step are exact: with the rows of its tokens holding the manager's
    blocks (split into kernel blocks or not, and with or without context parallelism),
    [compute_slot_mapping] does not raise, changes no row, and gives a token of this rank the
    slot of its local position in the manager's block, and -1 to a token of another rank.
    Blocks whose slots exceed 31 bits are excluded: the product is computed in int32. *)
Theorem slot_mapping_exact b ids reqs poss : step_ready b ids reqs poss → wp (compute_slot_mapping reqs poss) b (λ _ b',
  block_table b' = block_table b ∧ num_blocks_per_row b' = num_blocks_per_row b ∧
  ∀ n r p, reqs !! n = Some r → poss !! n = Some p → slots b' !! n = step_slot (layout b) ids r p).
Proof. intros H. eapply wp_mono; [by apply compute_slot_mapping_spec|]. cbn. intros _ b' (_ & ? & ? & _ & ?). done. Qed.

(** The block of a position, as an index into the blocks of its request, and its offset *)
Definition block_index (c : Layout) (p : nat) : nat := local_position c p / manager_block_size c.
Definition block_offset (c : Layout) (p : nat) : nat := local_position c p mod manager_block_size c.

(** C13. Slots collide only where blocks do.  In a step whose rows hold the manager's blocks,
    two tokens of this rank get the same slot exactly when their positions lie in the same
    block of the manager at the same offset, whether or not blocks are split into kernel
    blocks and with or without context parallelism; so two positions of one request never
    share a slot, when the block of one of them occurs once in its row.  That different
    requests do not write to a common block is up to the manager of the blocks. *)
Theorem slots_never_shared b ids reqs poss : step_ready b ids reqs poss →
  wp (compute_slot_mapping reqs poss) b (λ _ b', ∀ n n' r r' p p' s s',
    reqs !! n = Some r → poss !! n = Some p → reqs !! n' = Some r' → poss !! n' = Some p' →
    slots b' !! n = Some s → slots b' !! n' = Some s' → s ≠ (-1)%Z → s' ≠ (-1)%Z →
    (s = s' ↔ ids r !! block_index (layout b) p = ids r' !! block_index (layout b) p' ∧ block_offset (layout b) p = block_offset (layout b) p') ∧
    (s = s' → r = r' → (∀ j, ids r !! j = ids r !! block_index (layout b) p → j = block_index (layout b) p) → p = p')).
Proof.
  intros H. eapply wp_mono; [by apply compute_slot_mapping_spec|]. cbn. intros _ b' (_ & _ & _ & _ & Hs) n n' r r' p p' s s' Hr Hp Hr' Hp' Hn Hn' Hneg Hneg'.
  rewrite (Hs _ _ _ Hr Hp) in Hn. rewrite (Hs _ _ _ Hr' Hp') in Hn'. destruct H as (_ & Hok & _). set (c := layout b) in *. unfold step_slot in *.
  case_decide as Eo; [|congruence]. case_decide as Eo'; [|congruence]. unfold manager_slot in *. apply fmap_Some in Hn as (id & Hid & ->), Hn' as (id' & Hid' & ->).
  unfold block_index, block_offset. rewrite Hid, Hid'.
  assert (0 < manager_block_size c) as HB by (unfold manager_block_size; destruct Hok; nia). set (B := manager_block_size c) in *.
  pose proof (Nat.mod_upper_bound (local_position c p) B ltac:(lia)). pose proof (Nat.mod_upper_bound (local_position c p') B ltac:(lia)).
  match goal with |- (?s = ?s' ↔ _) ∧ _ => assert (s = s' → id = id' ∧ local_position c p mod B = local_position c p' mod B) as Heq end.
  { intros E. destruct (Z.div_mod_unique (Z.of_nat B) id' id (Z.of_nat (local_position c p' mod B)) (Z.of_nat (local_position c p mod B))); lia. }
  split; [split; [intros E; destruct (Heq E) as [-> ->]; done|intros [[= ->] ->]; done]|].
  intros [<- Em]%Heq <- Hj. pose proof (Hj _ Hid') as Ed. apply (local_position_inj c); [done|congruence|].
  rewrite (Nat.div_mod_eq (local_position c p) B), (Nat.div_mod_eq (local_position c p') B). by rewrite <-Ed, Em.
Qed.

(** ** Witnesses: blocks of four tokens split into kernel blocks of two, two ranks of which
    this is the second *)
Definition example_table : BlockTable :=
  match new_block_table 4 2 2 8 2 1 None (Some (2, 1)) with
  | Ok b => ((add_row [5; 3]%Z 0;; add_row [7]%Z 1) b).2
  | Raise _ => mkBlockTable (mkLayout 0 0 0 0 false 0 0 0 0 0 0) (mkBuffer [] []) [] (mkBuffer [] [])
  end.
Definition example_ids (r : nat) : list Z := match r with 0 => [5; 3]%Z | 1 => [7]%Z | _ => [] end.

Lemma example_ready : step_ready example_table example_ids [0; 0; 0; 1; 1] [0; 1; 9; 0; 3].
Proof.
  split_and!; [split; vm_compute; try (repeat constructor; lia); done| |done|by vm_compute; lia|].
  - split; try (vm_compute; lia). vm_compute. by exists 2.
  - intros n r p Hr Hp.
    assert (r < 2) as Hr2 by (do 5 (destruct n as [|n]; [injection Hr as <-; lia|]); done).
    assert (local_position (layout example_table) p < length (example_ids r) * manager_block_size (layout example_table)) as Hlt
      by (do 5 (destruct n as [|n]; [injection Hr as <-; injection Hp as <-; vm_compute; lia|]); done).
    split; [|done]. destruct r as [|[|r]]; [| |lia]; (split_and!; [vm_compute; lia|done|]); repeat constructor; vm_compute; congruence.
Qed.

Lemma slot_mapping_exact_witness : wp (compute_slot_mapping [0; 0; 0; 1; 1] [0; 1; 9; 0; 3]) example_table (λ _ b',
  block_table b' = block_table example_table ∧ num_blocks_per_row b' = num_blocks_per_row example_table ∧
  ∀ n r p, [0; 0; 0; 1; 1] !! n = Some r → [0; 1; 9; 0; 3] !! n = Some p → slots b' !! n = step_slot (layout example_table) example_ids r p)
  ∧ take 5 (slots (compute_slot_mapping [0; 0; 0; 1; 1] [0; 1; 9; 0; 3] example_table).2) = [-1; 20; 12; -1; 29]%Z.
Proof. split; [|by vm_compute]. apply slot_mapping_exact. apply example_ready. Defined.

Lemma slots_never_shared_witness : wp (compute_slot_mapping [0; 0; 0; 1; 1] [0; 1; 9; 0; 3]) example_table (λ _ b', ∀ n n' r r' p p' s s',
    [0; 0; 0; 1; 1] !! n = Some r → [0; 1; 9; 0; 3] !! n = Some p → [0; 0; 0; 1; 1] !! n' = Some r' → [0; 1; 9; 0; 3] !! n' = Some p' →
    slots b' !! n = Some s → slots b' !! n' = Some s' → s ≠ (-1)%Z → s' ≠ (-1)%Z →
    (s = s' ↔ example_ids r !! block_index (layout example_table) p = example_ids r' !! block_index (layout example_table) p' ∧
      block_offset (layout example_table) p = block_offset (layout example_table) p') ∧
    (s = s' → r = r' → (∀ j, example_ids r !! j = example_ids r !! block_index (layout example_table) p → j = block_index (layout example_table) p) → p = p')).
Proof. apply slots_never_shared. apply example_ready. Defined.
