(* ===== verification/LogitsProcessors.v ===== *)
(** * vllm/v1/sample/logits_processor (interface.py, state.py, builtin.py)

    How the persistent batch tells the logits processors what changed in a step: the
    [BatchUpdateBuilder] that collects removals, additions and moves, and the built-in
    processors, which keep state per row of the batch and follow these updates.

    Floating-point values are canonical rationals ([Qc]); storing one in a float32 array rounds
    it with the parameter [f32].  The list of output tokens of a request is a shared object: an
    update holds a reference ([oref]) into the [heap] of these lists, and a processor sees the
    tokens appended later. *)

From Stdlib Require Import ZArith Lia QArith Qcanon.
From stdpp Require Import sorting.
From stdpp Require Import base tactics option numbers gmap strings list.
From S2P Require Import Prelude Numpy.
Local Open Scope nat_scope.

(** ** Sampling parameters, as far as the batch and the processors read them *)

Inductive SamplingType := GREEDY | RANDOM | RANDOM_SEED.
#[export] Instance SamplingType_eq_dec : EqDecision SamplingType.
Proof. solve_decision. Defined.

Record SamplingParams := mkParams {
  temperature : Qc;
  top_p : Qc;
  top_k : Z;
  min_p : Qc;
  frequency_penalty : Qc;
  presence_penalty : Qc;
  repetition_penalty : Qc;
  seed : option Z;
  logprobs : option Z;
  prompt_logprobs : option Z;
  min_tokens : Z;
  all_stop_token_ids : list Z;  (** a set *)
  logit_bias : option (list (Z * Qc));  (** a dict *)
  allowed_token_ids : option (list nat);
  bad_words_token_ids : option (list (list Z));
}.
Definition SAMPLING_EPS : Qc := Q2Qc (1 # 100000).
Definition sampling_type (p : SamplingParams) : SamplingType :=
  if decide (temperature p < SAMPLING_EPS)%Qc then GREEDY else if seed p then RANDOM_SEED else RANDOM.

(** References to lists of output tokens, and the lists *)
Notation oref := nat (only parsing).
Definition heap := gmap oref (list Z).
Definition tokens_of (h : heap) (o : oref) : list Z := default [] (h !! o).

(** ** interface.py *)

Inductive MoveDirectionality := UNIDIRECTIONAL | SWAP.
#[export] Instance MoveDirectionality_eq_dec : EqDecision MoveDirectionality.
Proof. solve_decision. Defined.
Notation RemovedRequest := nat (only parsing).
Definition AddedRequest : Type := nat * SamplingParams * option (list Z) * oref.
Definition MovedRequest : Type := nat * nat * MoveDirectionality.

Record BatchUpdate := mkUpdate {
  batch_size : nat;
  removed : list RemovedRequest;
  added : list AddedRequest;
  moved : list MovedRequest;
}.

(** ** state.py *)
Module Builder.

Record BatchUpdateBuilder := mkBuilder {
  _removed : list RemovedRequest;
  _is_removed_sorted : bool;
  added : list AddedRequest;
  moved : list MovedRequest;
  batch_changed : bool;
}.
Definition new : BatchUpdateBuilder := mkBuilder [] false [] [] false.
Definition set_removed (l : list nat) (b : BatchUpdateBuilder) := mkBuilder l (_is_removed_sorted b) (added b) (moved b) (batch_changed b).
Definition set_sorted (s : bool) (b : BatchUpdateBuilder) := mkBuilder (_removed b) s (added b) (moved b) (batch_changed b).
Definition set_added (l : list AddedRequest) (b : BatchUpdateBuilder) := mkBuilder (_removed b) (_is_removed_sorted b) l (moved b) (batch_changed b).
Definition set_moved (l : list MovedRequest) (b : BatchUpdateBuilder) := mkBuilder (_removed b) (_is_removed_sorted b) (added b) l (batch_changed b).
Definition set_changed (c : bool) (b : BatchUpdateBuilder) := mkBuilder (_removed b) (_is_removed_sorted b) (added b) (moved b) c.

(** [l.sort(reverse=True)] *)
Definition descending (x y : nat) : Prop := y ≤ x.
#[export] Instance descending_dec x y : Decision (descending x y) := decide (y ≤ x).
Definition _ensure_removed_sorted : M BatchUpdateBuilder () :=
  modify (λ b, if _is_removed_sorted b then b else set_sorted true (set_removed (merge_sort descending (_removed b)) b)).
Definition removed : M BatchUpdateBuilder (list nat) := _ensure_removed_sorted;; gets _removed.
Definition removed_append (i : nat) : M BatchUpdateBuilder () :=
  sorted ← gets _is_removed_sorted;
  if (sorted : bool) then raise RuntimeError
  else modify (λ b, set_changed true (set_removed (_removed b ++ [i]) b)).
Definition has_removed (b : BatchUpdateBuilder) : bool := bool_decide (_removed b ≠ []).
(** [self._removed[-1]] *)
Definition peek_removed : M BatchUpdateBuilder (option nat) :=
  h ← gets has_removed;
  if (h : bool) then _ensure_removed_sorted;; gets (λ b, last (_removed b)) else mret None.
Definition pop_removed : M BatchUpdateBuilder (option nat) :=
  h ← gets has_removed;
  if (h : bool) then
    _ensure_removed_sorted;;
    i ← gets (λ b, last (_removed b));
    modify (λ b, set_removed (take (length (_removed b) - 1) (_removed b)) b);;
    mret i
  else mret None.
Definition reset : M BatchUpdateBuilder bool :=
  c ← gets batch_changed;
  modify (λ _, mkBuilder [] false [] [] false);;
  mret c.
Definition get_and_reset (batch_size : nat) : M BatchUpdateBuilder (option BatchUpdate) :=
  modify (λ b, set_changed false (set_sorted false b));;
  b ← get;
  if decide (_removed b = [] ∧ moved b = [] ∧ added b = []) then mret None
  else modify (λ b, set_added [] (set_moved [] (set_removed [] b)));;
       mret (Some (mkUpdate batch_size (_removed b) (added b) (moved b))).
End Builder.

(** ** builtin.py *)

(** [process_dict_updates] on the dict [d].  [truthy] is the truth value of an entry. *)
Section dict_updates.
Context {T : Type} (new_state : SamplingParams → option (list Z) → oref → option T) (truthy : T → bool).

Definition dict_added (x : bool * list (nat * T)) (a : AddedRequest) : bool * list (nat * T) :=
  let '(updated, d) := x in
  let '(index, params, prompt, out) := a in
  match new_state params prompt out with
  | Some s => (true, OD.set index s d)
  | None => (updated || bool_decide (is_Some (OD.get index d)), OD.del index d)
  end.
Definition dict_removed (x : bool * list (nat * T)) (index : nat) : bool * list (nat * T) :=
  let '(updated, d) := x in
  (updated || match OD.get index d with Some e => truthy e | None => false end, OD.del index d).
Definition dict_moved (x : bool * list (nat * T)) (mv : MovedRequest) : bool * list (nat * T) :=
  let '(updated, d) := x in
  let '(a_index, b_index, direct) := mv in
  let a_entry := OD.get a_index d in
  let d := OD.del a_index d in
  let b_entry := OD.get b_index d in
  let d := OD.del b_index d in
  let '(updated, d) := match a_entry with Some a => (true, OD.set b_index a d) | None => (updated, d) end in
  match b_entry with
  | Some b => (true, if decide (direct = SWAP) then OD.set a_index b d else d)
  | None => (updated, d)
  end.
Definition process_dict_updates (bu : option BatchUpdate) (d : list (nat * T)) : bool * list (nat * T) :=
  match bu with
  | None => (false, d)
  | Some bu =>
    let x := foldl dict_added (false, d) (added bu) in
    if decide (x.2 = []) then x
    else foldl dict_moved (foldl dict_removed x (removed bu)) (moved bu)
  end.
End dict_updates.

Section processors.
Context (f32 : Qc → Qc) (h : heap).

(** [MinPLogitsProcessor]: a dense array and the number of its entries that are not zero.  The
    device tensor is the first [batch_size] entries, refreshed when something changed. *)
Record MinPLogitsProcessor := mkMinP { min_p_count : Z; min_p_cpu : list Qc; min_p_device : list Qc }.
Definition truthyQ (x : Qc) : bool := bool_decide (x ≠ 0%Qc).
Definition set_count (n : Z) (s : MinPLogitsProcessor) := mkMinP n (min_p_cpu s) (min_p_device s).
Definition set_min_p_cpu (l : list Qc) (s : MinPLogitsProcessor) := mkMinP (min_p_count s) l (min_p_device s).
Definition add_count (b : bool) (n : Z) : M MinPLogitsProcessor () := if b then modify (λ s, set_count (min_p_count s + n) s) else mret ().
Definition set_min_p (i : nat) (x : Qc) : M MinPLogitsProcessor () := zoom min_p_cpu set_min_p_cpu (np_set i x).
Definition get_min_p_by_index (i : nat) : M MinPLogitsProcessor Qc := s ← get; index (min_p_cpu s) i.

Definition min_p_added (a : AddedRequest) : M MinPLogitsProcessor bool :=
  let '(i, params, _, _) := a in
  let x := min_p params in
  before ← get_min_p_by_index i;
  if decide (before ≠ f32 x) then
    set_min_p i (f32 x);;
    (if truthyQ x && negb (truthyQ before) then add_count true 1
     else add_count (negb (truthyQ x) && truthyQ before) (-1));;
    mret true
  else mret false.
Definition min_p_removed (i : nat) : M MinPLogitsProcessor () :=
  x ← get_min_p_by_index i;
  if truthyQ x then set_min_p i 0%Qc;; add_count true (-1) else mret ().
Definition min_p_moved (mv : MovedRequest) : M MinPLogitsProcessor bool :=
  let '(adx, bdx, direct) := mv in
  a ← get_min_p_by_index adx;
  b ← get_min_p_by_index bdx;
  (if decide (a ≠ b) then
     set_min_p bdx a;;
     (if decide (direct = SWAP) then set_min_p adx b else mret ())
   else mret ());;
  (if decide (direct = UNIDIRECTIONAL) then
     (if truthyQ a then set_min_p adx 0%Qc else mret ());;
     add_count (truthyQ b) (-1)
   else mret ());;
  mret (bool_decide (a ≠ b)).
(** The disjunction of the flags that a loop sets *)
Fixpoint any_of {S A} (l : list A) (f : A → M S bool) : M S bool :=
  match l with
  | [] => mret false
  | x :: l' => u ← f x; v ← any_of l' f; mret (u || v)
  end.

Definition min_p_update_state (bu : option BatchUpdate) : M MinPLogitsProcessor () :=
  match bu with
  | None => mret ()
  | Some bu =>
    u1 ← any_of (added bu) min_p_added;
    n ← gets min_p_count;
    u2 ← (if decide (n ≠ 0%Z) then
            for_each (removed bu) min_p_removed;;
            u ← any_of (moved bu) min_p_moved;
            mret (bool_decide (removed bu ≠ []) || u)
          else mret false);
    modify (λ s, if decide (min_p_count s ≠ 0%Z ∧ ((u1 || u2) = true ∨ length (min_p_device s) ≠ batch_size bu))
                 then mkMinP (min_p_count s) (min_p_cpu s) (take (batch_size bu) (min_p_cpu s)) else s)
  end.

(** [LogitBiasLogitsProcessor]: a dict, and the tensors of rows, tokens and biases *)
Record LogitBiasLogitsProcessor := mkBias { biases : list (nat * list (Z * Qc)); bias_tensor : list Qc; bias_slice : list nat * list Z }.
Definition bias_state (p : SamplingParams) (_ : option (list Z)) (_ : oref) : option (list (Z * Qc)) :=
  match logit_bias p with None | Some [] => None | Some lb => Some lb end.
(** The truth value of a dict *)
Definition bias_truthy (lb : list (Z * Qc)) : bool := match lb with [] => false | _ => true end.
Definition bias_update_state (bu : option BatchUpdate) (s : LogitBiasLogitsProcessor) : LogitBiasLogitsProcessor :=
  let '(needs_update, d) := process_dict_updates bias_state bias_truthy bu (biases s) in
  if needs_update then
    mkBias d (f32 <$> concat ((λ e : nat * list (Z * Qc), e.2.*2) <$> d))
      (concat ((λ e : nat * list (Z * Qc), replicate (length e.2) e.1) <$> d), concat ((λ e : nat * list (Z * Qc), e.2.*1) <$> d))
  else mkBias d (bias_tensor s) (bias_slice s).

(** [MinTokensLogitsProcessor]: a dict of (min_toks, output_token_ids, stop_token_ids) *)
Record MinTokensLogitsProcessor := mkMinTokens { min_toks : list (nat * (Z * oref * list Z)); stop_slice : list nat * list Z }.
Definition min_tokens_state (p : SamplingParams) (_ : option (list Z)) (out : oref) : option (Z * oref * list Z) :=
  if decide (min_tokens p = 0%Z ∨ (min_tokens p ≤ Z.of_nat (length (tokens_of h out)))%Z) then None
  else Some (min_tokens p, out, all_stop_token_ids p).
(** The request has not produced its minimum yet. *)
Definition below_min (e : Z * oref * list Z) : bool := bool_decide (Z.of_nat (length (tokens_of h e.1.2)) < e.1.1)%Z.
Definition min_tokens_update_state (bu : option BatchUpdate) (s : MinTokensLogitsProcessor) : MinTokensLogitsProcessor :=
  let '(needs_update, d) := process_dict_updates min_tokens_state (λ _, true) bu (min_toks s) in
  let to_remove := (filter (λ e : nat * (Z * oref * list Z), below_min e.2 = false) d).*1 in
  let needs_update := needs_update || bool_decide (to_remove ≠ []) in
  let d := foldl (λ d i, OD.del i d) d to_remove in
  if needs_update then
    mkMinTokens d (concat ((λ e : nat * (Z * oref * list Z), replicate (length e.2.2) e.1) <$> d), concat ((λ e : nat * (Z * oref * list Z), e.2.2) <$> d))
  else mkMinTokens d (stop_slice s).

(** The effect on the logits, for logits of type [L]: an entry per row and token *)
Section apply.
Context {L : Type} (neg_inf : L) (fadd : L → Qc → L).

(** [logits[rows, tokens] = f(...)], an assignment through two index tensors *)
Definition write_logits (f : L → Qc → L) (es : list (nat * nat * Qc)) (logits : nat → nat → L) : nat → nat → L :=
  foldl (λ g e r t, if decide (r = e.1.1 ∧ t = e.1.2) then f (logits r t) e.2 else g r t) logits es.
Definition bias_apply (s : LogitBiasLogitsProcessor) (logits : nat → nat → L) : nat → nat → L :=
  if decide (biases s = []) then logits
  else write_logits fadd (zip (zip (bias_slice s).1 (Z.to_nat <$> (bias_slice s).2)) (bias_tensor s)) logits.
Definition min_tokens_apply (s : MinTokensLogitsProcessor) (logits : nat → nat → L) : nat → nat → L :=
  if decide (min_toks s = []) then logits
  else write_logits (λ _ _, neg_inf) ((λ e, (e, 0%Qc)) <$> zip (stop_slice s).1 (Z.to_nat <$> (stop_slice s).2)) logits.
End apply.
End processors.

(** [LogitsProcessors]: the processors of a batch.  [all] lists those that cannot change the
    most likely token first. *)
Inductive LogitsProcessor :=
  | MinP (s : MinPLogitsProcessor)
  | LogitBias (s : LogitBiasLogitsProcessor)
  | MinTokens (s : MinTokensLogitsProcessor).
Definition is_argmax_invariant (p : LogitsProcessor) : bool := match p with MinP _ => true | LogitBias _ | MinTokens _ => false end.
Record LogitsProcessors := mkProcs { argmax_invariant : list LogitsProcessor; non_argmax_invariant : list LogitsProcessor }.
Definition new_logits_processors (ps : list LogitsProcessor) : LogitsProcessors :=
  mkProcs (filter (λ p, is_argmax_invariant p = true) ps) (filter (λ p, is_argmax_invariant p = false) ps).
Definition all (ps : LogitsProcessors) : list LogitsProcessor := argmax_invariant ps ++ non_argmax_invariant ps.
Definition update_state (f32 : Qc → Qc) (h : heap) (bu : option BatchUpdate) (p : LogitsProcessor) : result LogitsProcessor :=
  match p with
  | MinP s => match min_p_update_state f32 bu s with (Ok _, s') => Ok (MinP s') | (Raise e, _) => Raise e end
  | LogitBias s => Ok (LogitBias (bias_update_state f32 bu s))
  | MinTokens s => Ok (MinTokens (min_tokens_update_state h bu s))
  end.
(** [for logit_proc in self.logitsprocs.all: logit_proc.update_state(batch_update)] *)
Definition update_states (f32 : Qc → Qc) (h : heap) (bu : option BatchUpdate) (ps : LogitsProcessors) : result LogitsProcessors :=
  qs ← mapR (update_state f32 h bu) (argmax_invariant ps);
  rs ← mapR (update_state f32 h bu) (non_argmax_invariant ps);
  Ok (mkProcs qs rs).

(** * Properties *)

(** ** The builder *)

(** Once the removed indices have been read they are in descending order. *)
Definition builder_ok (b : Builder.BatchUpdateBuilder) : Prop :=
  Builder._is_removed_sorted b = true → StronglySorted Builder.descending (Builder._removed b).

#[export] Instance descending_trans : Transitive Builder.descending.
Proof. intros x y z. unfold Builder.descending. lia. Qed.
#[export] Instance descending_total : Total Builder.descending.
Proof. intros x y. unfold Builder.descending. lia. Qed.

Lemma ensure_sorted_spec b : builder_ok b → wp Builder._ensure_removed_sorted b (λ _ b', StronglySorted Builder.descending (Builder._removed b') ∧
  Builder._removed b' ≡ₚ Builder._removed b ∧ Builder._is_removed_sorted b' = true ∧ Builder.added b' = Builder.added b ∧ Builder.moved b' = Builder.moved b ∧
  Builder.batch_changed b' = Builder.batch_changed b).
Proof.
  intros Hb. unfold Builder._ensure_removed_sorted. wp_step. destruct (Builder._is_removed_sorted b) eqn:E; [by split_and!; try apply Hb|]. cbn.
  split_and!; try done; [apply (StronglySorted_merge_sort _)|apply merge_sort_Permutation].
Qed.

Lemma sorted_last (l : list nat) i : StronglySorted Builder.descending l → last l = Some i →
  l = take (length l - 1) l ++ [i] ∧ (∀ j, j ∈ l → i ≤ j) ∧ StronglySorted Builder.descending (take (length l - 1) l).
Proof.
  intros Hs (l' & ->)%last_Some. rewrite length_app. cbn. replace (length l' + 1 - 1) with (length l') by lia. rewrite take_app_length. split; [done|].
  apply StronglySorted_app in Hs as (H & Hl & _). split; [|done]. intros j [Hj | ->%list_elem_of_singleton]%elem_of_app; [|lia].
  apply (H _ _ Hj). by apply list_elem_of_singleton.
Qed.

Lemma peek_removed_spec b : builder_ok b → wp Builder.peek_removed b (λ r b', builder_ok b' ∧ Builder._removed b' ≡ₚ Builder._removed b ∧
  Builder.added b' = Builder.added b ∧ Builder.moved b' = Builder.moved b ∧ (Builder._removed b' ≠ [] → Builder._is_removed_sorted b' = true) ∧
  (Builder._is_removed_sorted b = true → b' = b) ∧
  match r with None => Builder._removed b = [] | Some i => i ∈ Builder._removed b ∧ ∀ j, j ∈ Builder._removed b → i ≤ j end).
Proof.
  intros Hb. unfold Builder.peek_removed. wp_step. wp_step. unfold Builder.has_removed. case_bool_decide as E.
  - wp_step. pose proof (ensure_sorted_spec b Hb) as Hw. destruct (Builder._is_removed_sorted b) eqn:Es.
    + apply wp_modify. rewrite Es. wp_step. specialize (Hb Es). destruct (last (Builder._removed b)) as [i|] eqn:El; [|by apply last_None in El].
      destruct (sorted_last _ _ Hb El) as (E' & H & _). split_and!; try done; [by intros _|by apply last_Some_elem_of].
    + eapply wp_mono; [exact Hw|]. intros _ b' (Hs & Hp & Hso & Ha & Hm & _). apply wp_gets. destruct (last (Builder._removed b')) as [i|] eqn:El.
      * destruct (sorted_last _ _ Hs El) as (E' & H & _). split_and!; try done; [by intros _|rewrite <-Hp; by apply last_Some_elem_of|]. intros j. rewrite <-Hp. apply H.
      * apply last_None in El. rewrite El in Hp. by apply Permutation_nil_l in Hp.
  - apply wp_ret. by split_and!.
Qed.

Lemma pop_removed_spec b : builder_ok b → wp Builder.pop_removed b (λ r b', builder_ok b' ∧
  Builder.added b' = Builder.added b ∧ Builder.moved b' = Builder.moved b ∧
  match r with
  | None => Builder._removed b = [] ∧ b' = b
  | Some i => Builder._removed b ≡ₚ i :: Builder._removed b' ∧ (∀ j, j ∈ Builder._removed b → i ≤ j) ∧ Builder._is_removed_sorted b' = true
  end).
Proof.
  intros Hb. unfold Builder.pop_removed. wp_step. wp_step. unfold Builder.has_removed. case_bool_decide as E.
  - wp_step. eapply wp_mono; [by apply ensure_sorted_spec|]. intros _ b' (Hs & Hp & Hso & Ha & Hm & _). wp_step. apply wp_gets. wp_step. wp_step. apply wp_ret. cbn.
    destruct (last (Builder._removed b')) as [i|] eqn:El.
    + destruct (sorted_last _ _ Hs El) as (E' & H & Hs'). split_and!; try done.
      * by intros _.
      * rewrite <-Hp. rewrite E' at 1. by rewrite Permutation_app_comm.
      * intros j. rewrite <-Hp. apply H.
    + apply last_None in El. rewrite El in Hp. by apply Permutation_nil_l in Hp.
  - apply wp_ret. by split_and!.
Qed.

Lemma removed_spec b : builder_ok b → wp Builder.removed b (λ r b', builder_ok b' ∧ r = Builder._removed b' ∧ Builder._removed b' ≡ₚ Builder._removed b ∧
  Builder._is_removed_sorted b' = true ∧ Builder.added b' = Builder.added b ∧ Builder.moved b' = Builder.moved b ∧ StronglySorted Builder.descending r).
Proof. intros Hb. unfold Builder.removed. wp_step. eapply wp_mono; [by apply ensure_sorted_spec|]. intros _ b' (? & ? & ? & ? & ? & _). apply wp_gets. split_and!; try done; by intros _. Qed.

(** ** What an update means

    State per row as a function; [ref_update] applies the additions, then the removals, then
    the moves. *)
Section reference.
Context {T : Type} (new_state : SamplingParams → option (list Z) → oref → option T).

Definition ref_added (s : nat → option T) (a : AddedRequest) : nat → option T := λ k, if decide (k = a.1.1.1) then new_state a.1.1.2 a.1.2 a.2 else s k.
Definition ref_removed (s : nat → option T) (i : nat) : nat → option T := λ k, if decide (k = i) then None else s k.
Definition ref_moved (s : nat → option T) (mv : MovedRequest) : nat → option T := λ k,
  if decide (k = mv.1.2) then s mv.1.1
  else if decide (k = mv.1.1) then (if decide (mv.2 = SWAP) then s mv.1.2 else None)
  else s k.
Definition ref_update (bu : option BatchUpdate) (s : nat → option T) : nat → option T :=
  match bu with
  | None => s
  | Some bu => foldl ref_moved (foldl ref_removed (foldl ref_added s (added bu)) (removed bu)) (moved bu)
  end.

(** Functions that agree stay in agreement. *)
#[export] Instance ref_added_proper : Proper (pointwise_relation nat eq ==> eq ==> pointwise_relation nat eq) ref_added.
Proof. intros s s' Hs a _ <- k. unfold ref_added. by rewrite Hs. Qed.
#[export] Instance ref_removed_proper : Proper (pointwise_relation nat eq ==> eq ==> pointwise_relation nat eq) ref_removed.
Proof. intros s s' Hs a _ <- k. unfold ref_removed. by rewrite Hs. Qed.
#[export] Instance ref_moved_proper : Proper (pointwise_relation nat eq ==> eq ==> pointwise_relation nat eq) ref_moved.
Proof. intros s s' Hs a _ <- k. unfold ref_moved. by rewrite !Hs. Qed.
End reference.

Lemma foldl_pointwise {A T} (f : (nat → option T) → A → nat → option T) `{!Proper (pointwise_relation nat eq ==> eq ==> pointwise_relation nat eq) f} l : ∀ s s',
  pointwise_relation nat eq s s' → pointwise_relation nat eq (foldl f s l) (foldl f s' l).
Proof. induction l as [|x l IH]; intros s s' Hs; [done|]. cbn. apply IH. intros k. by apply Proper0. Qed.
Lemma ref_update_pointwise {T} (ns : SamplingParams → option (list Z) → oref → option T) bu s s' : (∀ k, s k = s' k) → ∀ k, ref_update ns bu s k = ref_update ns bu s' k.
Proof. intros Hs. destruct bu as [bu|]; [|done]. cbn. by repeat apply foldl_pointwise; [apply _..|]. Qed.

Section dict_correct.
Context {T : Type} (new_state : SamplingParams → option (list Z) → oref → option T) (truthy : T → bool)
  (Htruthy : ∀ p pr o e, new_state p pr o = Some e → truthy e = true).
Implicit Types (d : list (nat * T)) (x : bool * list (nat * T)).

Lemma NoDup_keys_del {V} i (d : list (nat * V)) : NoDup d.*1 → NoDup (OD.del i d).*1.
Proof. intros Hd. rewrite OD.keys_del by done. by apply NoDup_filter. Qed.
Lemma del_absent {V} i (d : list (nat * V)) : OD.get i d = None → OD.del i d = d.
Proof. induction d as [|[k v] d IH]; cbn; [done|]. case_decide; [done|]. intros ?. by rewrite IH. Qed.

(** [x] implements [s], and nothing has changed from [d0] unless the flag says so. *)
Definition tracks (d0 : list (nat * T)) (s : nat → option T) x : Prop :=
  NoDup x.2.*1 ∧ (∀ k, OD.get k x.2 = s k) ∧ (∀ k e, s k = Some e → truthy e = true) ∧ (x.1 = false → x.2 = d0).

Lemma dict_added_tracks d0 s x a : tracks d0 s x → tracks d0 (ref_added new_state s a) (dict_added new_state x a).
Proof.
  destruct x as [u d], a as [[[i p] pr] o]. unfold tracks, ref_added. cbn. intros (Hd & Hg & Ht & Hu). destruct (new_state p pr o) as [t|] eqn:E; cbn.
  - split_and!; [by apply OD.NoDup_keys_set| |intros k e; case_decide; [intros [= <-]; by eapply Htruthy|apply Ht]|done].
    intros k. rewrite OD.get_set, Hg. repeat case_decide; congruence.
  - split_and!; [by apply NoDup_keys_del| |intros k e; case_decide; [done|apply Ht]|].
    + intros k. rewrite OD.get_del, Hg by done. repeat case_decide; congruence.
    + intros [Hf Hn]%orb_false_elim. apply bool_decide_eq_false, eq_None_not_Some in Hn. rewrite del_absent by done. auto.
Qed.
Lemma dict_removed_tracks d0 s x i : tracks d0 s x → tracks d0 (ref_removed s i) (dict_removed truthy x i).
Proof.
  destruct x as [u d]. unfold tracks, ref_removed. cbn. intros (Hd & Hg & Ht & Hu). split_and!; [by apply NoDup_keys_del| |intros k e; case_decide; [done|apply Ht]|].
  - intros k. rewrite OD.get_del, Hg by done. repeat case_decide; congruence.
  - intros [Hf Hn]%orb_false_elim. destruct (OD.get i d) as [e|] eqn:E; [by rewrite (Ht i e) in Hn by congruence|]. rewrite del_absent by done. auto.
Qed.
Lemma dict_moved_tracks d0 s x mv : tracks d0 s x → tracks d0 (ref_moved s mv) (dict_moved x mv).
Proof.
  destruct x as [u d], mv as [[a b] dir]. unfold tracks, ref_moved. cbn. intros (Hd & Hg & Ht & Hu).
  assert (NoDup (OD.del b (OD.del a d)).*1) as Hnd by (by apply NoDup_keys_del, NoDup_keys_del).
  assert (∀ k, OD.get k (OD.del b (OD.del a d)) = if decide (k = a ∨ k = b) then None else s k) as Hdd.
  { intros k. rewrite !OD.get_del, Hg by (by apply NoDup_keys_del || done). repeat case_decide; naive_solver. }
  assert (OD.get b (OD.del a d) = if decide (a = b) then None else s b) as Eb by (rewrite OD.get_del, Hg by done; done).
  assert (∀ k e, ref_moved s (a, b, dir) k = Some e → truthy e = true) as Ht' by (unfold ref_moved; cbn; intros k e; repeat case_decide; apply Ht || done).
  unfold ref_moved in Ht'. cbn in Ht'. rewrite Eb, Hg. destruct (s a) as [ea|] eqn:Ea; [|].
  - assert (∀ k, OD.get k (OD.set b ea (OD.del b (OD.del a d))) = if decide (k = b) then Some ea else if decide (k = a) then None else s k) as Hset.
    { intros k. rewrite OD.get_set, Hdd. repeat case_decide; naive_solver. }
    destruct (if decide (a = b) then None else s b) as [eb|] eqn:Es; cbn.
    + split_and!; [destruct (decide (dir = SWAP)); by repeat apply OD.NoDup_keys_set| |exact Ht'|done]. intros k. destruct (decide (dir = SWAP)); [rewrite OD.get_set|]; rewrite Hset; repeat case_decide; naive_solver.
    + split_and!; [by apply OD.NoDup_keys_set| |exact Ht'|done]. intros k. rewrite Hset. repeat case_decide; naive_solver.
  - destruct (if decide (a = b) then None else s b) as [eb|] eqn:Es; cbn.
    + split_and!; [destruct (decide (dir = SWAP)); by repeat apply OD.NoDup_keys_set| |exact Ht'|done]. intros k. destruct (decide (dir = SWAP)); [rewrite OD.get_set|]; rewrite Hdd; repeat case_decide; naive_solver.
    + split_and!; [done| |exact Ht'|].
      * intros k. rewrite Hdd. repeat case_decide; naive_solver.
      * intros Hf. assert (OD.get b d = None) by (rewrite Hg; destruct (decide (a = b)); congruence). assert (OD.get a d = None) by (by rewrite Hg).
        rewrite (del_absent a), (del_absent b) by done. auto.
Qed.

Lemma foldl_tracks {A} (f : bool * list (nat * T) → A → bool * list (nat * T)) (g : (nat → option T) → A → nat → option T) d0 l :
  (∀ s x a, tracks d0 s x → tracks d0 (g s a) (f x a)) → ∀ s x, tracks d0 s x → tracks d0 (foldl g s l) (foldl f x l).
Proof. intros H. induction l as [|a l IH]; intros s x Hx; [done|]. cbn. auto. Qed.

(** An empty dict skips removals and moves, which would not change it. *)
Lemma foldl_none {A} (g : (nat → option T) → A → nat → option T) l : (∀ s a, (∀ k, s k = None) → ∀ k, g s a k = None) →
  ∀ s, (∀ k, s k = None) → ∀ k, foldl g s l k = None.
Proof. intros H. induction l as [|a l IH]; intros s Hs; [done|]. cbn. apply IH. by apply H. Qed.

Lemma process_dict_updates_spec bu d : NoDup d.*1 → (∀ k e, OD.get k d = Some e → truthy e = true) →
  tracks d (ref_update new_state bu (λ k, OD.get k d)) (process_dict_updates new_state truthy bu d).
Proof.
  intros Hd Ht. destruct bu as [bu|]; [|by split_and!]. cbn.
  assert (tracks d (foldl (ref_added new_state) (λ k, OD.get k d) (added bu)) (foldl (dict_added new_state) (false, d) (added bu))) as H
    by (apply foldl_tracks; [apply dict_added_tracks|by split_and!]).
  case_decide as E.
  - destruct H as (H1 & H2 & H3 & H4).
    match goal with |- tracks _ ?s _ => assert (∀ k, s k = None) as Hnone end; [|split_and!; [done|intros k; by rewrite E, Hnone|intros k e; by rewrite Hnone|done]]. apply foldl_none.
    { intros s mv Hs k. unfold ref_moved. rewrite !Hs. by repeat case_decide. }
    apply foldl_none. { intros s i Hs k. unfold ref_removed. rewrite Hs. by case_decide. }
    intros k. by rewrite <-H2, E.
  - apply foldl_tracks; [apply dict_moved_tracks|]. by apply foldl_tracks; [apply dict_removed_tracks|].
Qed.
End dict_correct.

(** ** What the batch relies on

    A processor with state [view] per row follows an update if the new state is that of
    [ref_update], less the entries that are no longer needed. *)

(** An update for [n] rows: its indices are rows, the moves are between two rows, and one-way
    moves leave rows past the end of the new batch. *)
Record legal_update (n : nat) (bu : BatchUpdate) : Prop := {
  lu_size : batch_size bu ≤ n;
  lu_added : Forall (λ a : AddedRequest, a.1.1.1 < n) (added bu);
  lu_removed : Forall (λ i, i < n) (removed bu);
  lu_moved : Forall (λ mv : MovedRequest, mv.1.1 < n ∧ mv.1.2 < n ∧ mv.1.1 ≠ mv.1.2 ∧ (mv.2 = UNIDIRECTIONAL → batch_size bu ≤ mv.1.1)) (moved bu);
}.
Definition legal (n : nat) (bu : option BatchUpdate) : Prop := match bu with None => True | Some bu => legal_update n bu end.

Definition kept {T} (keep : T → bool) (x : option T) : option T := match x with Some e => if keep e then Some e else None | None => None end.

Class Follows {S T : Type} (new_state : SamplingParams → option (list Z) → oref → option T) (keep : T → bool) (n : nat)
    (inv : S → Prop) (view : S → nat → option T) (update : option BatchUpdate → M S ()) : Prop := {
  follows s bu : inv s → legal n bu → wp (update bu) s (λ _ s', inv s' ∧ ∀ k, view s' k = kept keep (ref_update new_state bu (view s) k));
}.

(** *** Logit bias *)

Definition bias_rows (d : list (nat * list (Z * Qc))) : list nat := concat ((λ e : nat * list (Z * Qc), replicate (length e.2) e.1) <$> d).
Definition bias_tokens (d : list (nat * list (Z * Qc))) : list Z := concat ((λ e : nat * list (Z * Qc), e.2.*1) <$> d).
Definition bias_values (f32 : Qc → Qc) (d : list (nat * list (Z * Qc))) : list Qc := f32 <$> concat ((λ e : nat * list (Z * Qc), e.2.*2) <$> d).
Record bias_inv (f32 : Qc → Qc) (s : LogitBiasLogitsProcessor) : Prop := {
  bi_keys : NoDup (biases s).*1;
  bi_full : ∀ k e, OD.get k (biases s) = Some e → bias_truthy e = true;
  bi_slice : bias_slice s = (bias_rows (biases s), bias_tokens (biases s));
  bi_tensor : bias_tensor s = bias_values f32 (biases s);
}.
Definition bias_view (s : LogitBiasLogitsProcessor) (k : nat) : option (list (Z * Qc)) := OD.get k (biases s).

Lemma kept_all {T} (x : option T) : kept (λ _, true) x = x.
Proof. by destruct x. Qed.

#[export] Instance bias_follows f32 n : Follows bias_state (λ _, true) n (bias_inv f32) bias_view (λ bu, modify (bias_update_state f32 bu)).
Proof.
  constructor. intros s bu [Hk Hf Hs Ht] _. apply wp_modify. unfold bias_update_state.
  pose proof (process_dict_updates_spec bias_state bias_truthy) as H. destruct (process_dict_updates bias_state bias_truthy bu (biases s)) as [u d] eqn:E.
  specialize (H ltac:(unfold bias_state; intros p pr o e; by destruct (logit_bias p) as [[|x l]|]; intros [= <-]) bu (biases s) Hk Hf). rewrite E in H. destruct H as (H1 & H2 & H3 & H4). cbn in *.
  assert (∀ k e, OD.get k d = Some e → bias_truthy e = true) as Hd by (intros k e; rewrite H2; apply H3).
  split; [|intros k; rewrite kept_all; unfold bias_view; destruct u; apply H2]. destruct u; constructor; try done; cbn.
  - by rewrite (H4 eq_refl).
  - by rewrite (H4 eq_refl).
Qed.

(** *** Minimum number of tokens *)

Definition stop_rows (d : list (nat * (Z * oref * list Z))) : list nat := concat ((λ e : nat * (Z * oref * list Z), replicate (length e.2.2) e.1) <$> d).
Definition stop_tokens (d : list (nat * (Z * oref * list Z))) : list Z := concat ((λ e : nat * (Z * oref * list Z), e.2.2) <$> d).
Record min_tokens_inv (s : MinTokensLogitsProcessor) : Prop := {
  mi_keys : NoDup (min_toks s).*1;
  mi_slice : stop_slice s = (stop_rows (min_toks s), stop_tokens (min_toks s));
}.
Definition min_tokens_view (s : MinTokensLogitsProcessor) (k : nat) : option (Z * oref * list Z) := OD.get k (min_toks s).

Lemma foldl_del_spec {V} (ks : list nat) : ∀ d : list (nat * V), NoDup d.*1 →
  NoDup (foldl (λ d i, OD.del i d) d ks).*1 ∧ ∀ k, OD.get k (foldl (λ d i, OD.del i d) d ks) = if decide (k ∈ ks) then None else OD.get k d.
Proof.
  induction ks as [|i ks IH]; intros d Hd; cbn; [split; [done|]; intros k; rewrite decide_False; [done|apply not_elem_of_nil]|].
  destruct (IH (OD.del i d)) as [H1 H2]; [by apply NoDup_keys_del|]. split; [done|]. intros k. rewrite H2, OD.get_del by done.
  destruct (decide (k ∈ ks)); [by rewrite decide_True by (by right)|]. destruct (decide (i = k)) as [->|]; [by rewrite decide_True by left|].
  rewrite decide_False; [done|]. rewrite elem_of_cons. naive_solver.
Qed.

#[export] Instance min_tokens_follows h n : Follows (min_tokens_state h) (below_min h) n min_tokens_inv min_tokens_view (λ bu, modify (min_tokens_update_state h bu)).
Proof.
  constructor. intros s bu [Hk Hs] _. apply wp_modify. unfold min_tokens_update_state.
  pose proof (process_dict_updates_spec (min_tokens_state h) (λ _, true) ltac:(done) bu (min_toks s) Hk ltac:(done)) as H.
  destruct (process_dict_updates _ _ bu (min_toks s)) as [u d] eqn:E. destruct H as (H1 & H2 & _ & H4). cbn in H1, H2, H4.
  set (rm := (filter (λ e : nat * (Z * oref * list Z), below_min h e.2 = false) d).*1). destruct (foldl_del_spec rm d H1) as [H5 H6].
  set (d' := foldl (λ d i, OD.del i d) d rm) in *.
  assert (∀ k, OD.get k d' = kept (below_min h) (ref_update (min_tokens_state h) bu (λ k, OD.get k (min_toks s)) k)) as Hv.
  { intros k. rewrite H6, <-H2. destruct (OD.get k d) as [e|] eqn:Eg; [|by case_decide]. cbn. apply OD.get_Some in Eg as Hin; [|done].
    destruct (below_min h e) eqn:Eb.
    - rewrite decide_False; [done|]. intros ((k' & e') & -> & (Hb & Hin')%list_elem_of_filter)%list_elem_of_fmap. cbn in *.
      apply OD.get_Some in Hin'; [|done]. congruence.
    - rewrite decide_True; [done|]. apply list_elem_of_fmap. exists (k, e). split; [done|]. by apply list_elem_of_filter. }
  destruct (u || bool_decide (rm ≠ [])) eqn:Eu; (split; [constructor; try done|exact Hv]). cbn. apply orb_false_elim in Eu as [-> Erm]. apply bool_decide_eq_false, dec_stable in Erm.
  subst d'. rewrite Erm. cbn. by rewrite (H4 eq_refl).
Qed.

(** *** Minimum probability *)

(** The number of entries that are not zero *)
Definition nonzero (l : list Qc) : Z := Z.of_nat (length (filter (λ x, x ≠ 0%Qc) l)).
Record min_p_ok (n : nat) (s : MinPLogitsProcessor) : Prop := {
  mp_length : length (min_p_cpu s) = n;
  mp_count : min_p_count s = nonzero (min_p_cpu s);
}.
Definition nonzero_entry (x : Qc) : option Qc := if decide (x = 0%Qc) then None else Some x.
Definition min_p_view (s : MinPLogitsProcessor) (k : nat) : option Qc := min_p_cpu s !! k ≫= nonzero_entry.
Definition min_p_state (f32 : Qc → Qc) (p : SamplingParams) (_ : option (list Z)) (_ : oref) : option Qc := nonzero_entry (f32 (min_p p)).

Lemma nonzero_cons x l : nonzero (x :: l) = ((if decide (x = 0%Qc) then 0 else 1) + nonzero l)%Z.
Proof. unfold nonzero. rewrite filter_cons. repeat case_decide; try done; cbn [length]; lia. Qed.
Lemma nonzero_insert l : ∀ i x y, l !! i = Some y →
  nonzero (<[i := x]> l) = (nonzero l - (if decide (y = 0%Qc) then 0 else 1) + (if decide (x = 0%Qc) then 0 else 1))%Z.
Proof.
  induction l as [|z l IH]; intros i x y Hi; [done|]. destruct i as [|i]; cbn in *.
  - injection Hi as ->. rewrite !nonzero_cons. lia.
  - rewrite !nonzero_cons, (IH _ _ _ Hi). lia.
Qed.
Lemma nonzero_zero l k x : nonzero l = 0%Z → l !! k = Some x → x = 0%Qc.
Proof.
  intros H Hk. destruct (decide (x = 0%Qc)) as [|Hx]; [done|]. exfalso. unfold nonzero in H.
  assert (x ∈ filter (λ x, x ≠ 0%Qc) l) as Hin by (apply list_elem_of_filter; split; [done|by eapply list_elem_of_lookup_2]).
  destruct (filter _ l); [by apply not_elem_of_nil in Hin|]. cbn in H. lia.
Qed.

(** A write that keeps the count of entries *)
Definition delta (y x : Qc) : Z := ((if decide (x = 0%Qc) then 0 else 1) - (if decide (y = 0%Qc) then 0 else 1))%Z.
Lemma min_p_write n s (i : nat) x y c : min_p_ok n s → min_p_cpu s !! i = Some y → c = (min_p_count s + delta y x)%Z →
  min_p_ok n (mkMinP c (<[i := x]> (min_p_cpu s)) (min_p_device s)).
Proof. intros [Hl Hc] Hy ->. constructor; cbn; [by rewrite length_insert|]. rewrite (nonzero_insert _ _ _ _ Hy), Hc. unfold delta. lia. Qed.
Lemma min_p_view_insert c l dv i x k : i < length l → min_p_view (mkMinP c (<[i := x]> l) dv) k = if decide (k = i) then nonzero_entry x else l !! k ≫= nonzero_entry.
Proof. intros Hi. unfold min_p_view. cbn. case_decide; subst; [by rewrite list_lookup_insert_eq|by rewrite list_lookup_insert_ne]. Qed.

Lemma wp_get_min_p i x s (Q : Qc → MinPLogitsProcessor → Prop) : min_p_cpu s !! i = Some x → Q x s → wp (get_min_p_by_index i) s Q.
Proof. intros Hx HQ. unfold get_min_p_by_index. wp_step. apply wp_gets. by eapply wp_index. Qed.
Lemma wp_set_min_p (i : nat) x s (Q : () → MinPLogitsProcessor → Prop) : i < length (min_p_cpu s) → Q () (mkMinP (min_p_count s) (<[i := x]> (min_p_cpu s)) (min_p_device s)) → wp (set_min_p i x) s Q.
Proof. intros Hi HQ. unfold set_min_p. wp_step. by apply wp_np_set. Qed.
Lemma wp_add_count (b : bool) (c : Z) s (Q : () → MinPLogitsProcessor → Prop) : Q () (mkMinP (min_p_count s + (if b then c else 0))%Z (min_p_cpu s) (min_p_device s)) → wp (add_count b c) s Q.
Proof. unfold add_count. destruct b; [by apply wp_modify|]. rewrite Z.add_0_r. destruct s. by apply wp_ret. Qed.

(** The state per row is [v]. *)
Definition min_p_is (n : nat) (v : nat → option Qc) (s : MinPLogitsProcessor) : Prop := min_p_ok n s ∧ ∀ k, min_p_view s k = v k.

Lemma min_p_added_spec f32 n a v s : a.1.1.1 < n → (f32 (min_p a.1.1.2) = 0%Qc ↔ min_p a.1.1.2 = 0%Qc) → min_p_is n v s →
  wp (min_p_added f32 a) s (λ u s', min_p_is n (ref_added (min_p_state f32) v a) s' ∧ (u = false → s = s')).
Proof.
  destruct a as [[[i p] pr] o]. cbn. intros Hi Hf [Hok Hv]. destruct (lookup_lt_is_Some_2 (min_p_cpu s) i) as [y Hy]; [by rewrite (mp_length _ _ Hok)|].
  pose proof (lookup_lt_Some _ _ _ Hy) as Hlt. unfold min_p_added. wp_step. eapply wp_get_min_p; [done|]. case_decide as E.
  - wp_step. apply wp_set_min_p; [done|]. wp_step. assert (∀ c, min_p_is n (ref_added (min_p_state f32) v (i, p, pr, o)) (mkMinP (min_p_count s + delta y (f32 (min_p p))) (<[i := f32 (min_p p)]> (min_p_cpu s)) (min_p_device s)) ∧ (true = false → s = c)) as Hgoal.
    { intros c. split; [split|done]; [by apply min_p_write with y|]. intros k. rewrite min_p_view_insert by done. unfold ref_added, min_p_state. cbn. case_decide; [done|]. apply Hv. }
    unfold truthyQ. destruct (decide (min_p p = 0%Qc)) as [Ex|Ex], (decide (y = 0%Qc)) as [Ey|Ey].
    + exfalso. apply E. by rewrite Ey, (proj2 Hf Ex).
    + rewrite (bool_decide_false (min_p p ≠ 0%Qc)), (bool_decide_true (y ≠ 0%Qc)) by auto. apply wp_add_count, wp_ret. cbn. unfold delta in Hgoal.
      rewrite (decide_True (P := f32 (min_p p) = 0%Qc)), (decide_False (P := y = 0%Qc)) in Hgoal by tauto. apply Hgoal.
    + rewrite (bool_decide_true (min_p p ≠ 0%Qc)), (bool_decide_false (y ≠ 0%Qc)) by auto. apply wp_add_count, wp_ret. cbn. unfold delta in Hgoal.
      rewrite (decide_False (P := f32 (min_p p) = 0%Qc)), (decide_True (P := y = 0%Qc)) in Hgoal by tauto. apply Hgoal.
    + rewrite (bool_decide_true (min_p p ≠ 0%Qc)), (bool_decide_true (y ≠ 0%Qc)) by auto. apply wp_add_count, wp_ret. cbn. unfold delta in Hgoal.
      rewrite (decide_False (P := f32 (min_p p) = 0%Qc)), (decide_False (P := y = 0%Qc)) in Hgoal by tauto. apply Hgoal.
  - apply wp_ret. split; [split; [done|]|done]. intros k. unfold ref_added, min_p_state. cbn. case_decide; [|apply Hv]. subst k.
    unfold min_p_view. rewrite Hy. cbn. by rewrite E.
Qed.

Lemma min_p_removed_spec n i v s : i < n → min_p_is n v s → wp (min_p_removed i) s (λ _ s', min_p_is n (ref_removed v i) s').
Proof.
  intros Hi [Hok Hv]. destruct (lookup_lt_is_Some_2 (min_p_cpu s) i) as [y Hy]; [by rewrite (mp_length _ _ Hok)|]. pose proof (lookup_lt_Some _ _ _ Hy) as Hlt.
  unfold min_p_removed. wp_step. eapply wp_get_min_p; [done|]. unfold truthyQ. case_bool_decide as E.
  - wp_step. apply wp_set_min_p; [done|]. unfold set_count. cbn. split.
    + apply min_p_write with y; [done..|]. unfold delta. by rewrite decide_True, decide_False.
    + intros k. rewrite min_p_view_insert by done. unfold ref_removed. case_decide; [done|]. apply Hv.
  - apply wp_ret. subst y. split; [done|]. intros k. unfold ref_removed. case_decide; [subst k|apply Hv]. unfold min_p_view. by rewrite Hy.
Qed.

(** The entries of the first [m] rows and the device tensor are unchanged. *)
Definition same_prefix (m : nat) (s s' : MinPLogitsProcessor) : Prop := take m (min_p_cpu s') = take m (min_p_cpu s) ∧ min_p_device s' = min_p_device s.
#[export] Instance same_prefix_preorder m : PreOrder (same_prefix m).
Proof. split; [by split|]. intros s1 s2 s3 [H1 H2] [H3 H4]. split; congruence. Qed.

Lemma min_p_moved_spec n m mv v s : mv.1.1 < n → mv.1.2 < n → mv.1.1 ≠ mv.1.2 → (mv.2 = UNIDIRECTIONAL → m ≤ mv.1.1) → min_p_is n v s →
  wp (min_p_moved mv) s (λ u s', min_p_is n (ref_moved v mv) s' ∧ (u = false → same_prefix m s s')).
Proof.
  destruct mv as [[a b] dir]. cbn [fst snd]. intros Ha Hb Hab Hm [Hok Hv]. pose proof (mp_length _ _ Hok) as Hlen.
  destruct (lookup_lt_is_Some_2 (min_p_cpu s) a) as [x Hx]; [lia|]. destruct (lookup_lt_is_Some_2 (min_p_cpu s) b) as [y Hy]; [lia|].
  assert (v a = nonzero_entry x) as Eva by (rewrite <-Hv; unfold min_p_view; by rewrite Hx). assert (v b = nonzero_entry y) as Evb by (rewrite <-Hv; unfold min_p_view; by rewrite Hy).
  assert (∀ k, v k = min_p_cpu s !! k ≫= nonzero_entry) as Evk by (intros k; by rewrite <-Hv).
  unfold min_p_moved. wp_step. eapply wp_get_min_p; [done|]. wp_step. eapply wp_get_min_p; [done|]. wp_step. destruct (decide (x ≠ y)) as [Exy|Exy].
  - (* the two rows differ *)
    rewrite bool_decide_true by done. wp_step. apply wp_set_min_p; [lia|]. set (s1 := mkMinP _ _ _).
    assert (min_p_cpu s1 !! a = Some x) as Hx1 by (cbn; by rewrite list_lookup_insert_ne). destruct dir; cbn [decide].
    + rewrite (decide_False (P := UNIDIRECTIONAL = SWAP)) by done. apply wp_ret. repeat wp_step.
      assert (wp (if truthyQ x then set_min_p a 0%Qc else mret ()) s1 (λ _ s2, s2 = mkMinP (min_p_count s) (<[a := 0%Qc]> (<[b := x]> (min_p_cpu s))) (min_p_device s))) as Hw.
      { unfold truthyQ. case_bool_decide as E; [by apply wp_set_min_p; [cbn; rewrite length_insert; lia|]|]. apply wp_ret. subst x. unfold s1. f_equal.
        symmetry. apply list_insert_id. by rewrite list_lookup_insert_ne. }
      eapply wp_mono; [exact Hw|]. intros _ s2 ->. apply wp_add_count, wp_ret. cbn. split; [|done]. split.
      * constructor; cbn; [by rewrite !length_insert|]. rewrite (nonzero_insert _ _ _ x), (nonzero_insert _ _ _ y) by (cbn in Hx1; done). rewrite <-(mp_count _ _ Hok).
        unfold truthyQ. rewrite (decide_True (P := 0%Qc = 0%Qc)) by done. destruct (decide (x = 0%Qc)), (decide (y = 0%Qc)); case_bool_decide; try done; lia.
      * intros k. unfold min_p_view, ref_moved. cbn. destruct (decide (k = b)) as [->|].
        { rewrite list_lookup_insert_ne, list_lookup_insert_eq by (done || lia). by rewrite Eva. }
        destruct (decide (k = a)) as [->|]; [by rewrite list_lookup_insert_eq by (rewrite length_insert; lia)|]. by rewrite !list_lookup_insert_ne, Evk.
    + rewrite decide_True by done. apply wp_set_min_p; [cbn; rewrite length_insert; lia|]. repeat wp_step. cbn. split; [|done]. split.
      * constructor; cbn; [by rewrite !length_insert|]. rewrite (nonzero_insert _ _ _ x), (nonzero_insert _ _ _ y) by (cbn in Hx1; done). rewrite <-(mp_count _ _ Hok). lia.
      * intros k. unfold min_p_view, ref_moved. cbn. destruct (decide (k = b)) as [->|].
        { rewrite list_lookup_insert_ne, list_lookup_insert_eq by (done || lia). by rewrite Eva. }
        destruct (decide (k = a)) as [->|]; [rewrite list_lookup_insert_eq by (rewrite length_insert; lia); by rewrite Evb|]. by rewrite !list_lookup_insert_ne, Evk.
  - (* the two rows are equal *)
    apply dec_stable in Exy as <-. rewrite bool_decide_false by auto. apply wp_ret. apply wp_bind. destruct dir.
    + rewrite decide_True by done. wp_step.
      assert (wp (if truthyQ x then set_min_p a 0%Qc else mret ()) s (λ _ s2, s2 = mkMinP (min_p_count s) (<[a := 0%Qc]> (min_p_cpu s)) (min_p_device s))) as Hw.
      { unfold truthyQ. case_bool_decide as E; [apply wp_set_min_p; [lia|done]|]. apply wp_ret. subst x. rewrite list_insert_id by done. by destruct s. }
      eapply wp_mono; [exact Hw|]. intros _ s2 ->. apply wp_add_count, wp_ret. cbn. split; [split|].
      * apply min_p_write with x; [done..|]. unfold delta, truthyQ. rewrite (decide_True (P := 0%Qc = 0%Qc)) by done. destruct (decide (x = 0%Qc)); case_bool_decide; try done; lia.
      * intros k. rewrite min_p_view_insert by lia. unfold ref_moved. cbn. rewrite (decide_False (P := UNIDIRECTIONAL = SWAP)) by done. destruct (decide (k = b)) as [->|]; [rewrite decide_False by done; by rewrite Hy, Eva|].
        destruct (decide (k = a)) as [->|]; [done|]. by rewrite Evk.
      * intros _. split; [|done]. cbn. rewrite take_insert_ge by (by apply Hm). done.
    + rewrite decide_False by done. repeat wp_step. split; [|done]. split; [done|]. intros k. rewrite Hv. unfold ref_moved. cbn.
      rewrite (decide_True (P := SWAP = SWAP)) by done. destruct (decide (k = b)) as [->|]; [congruence|]. destruct (decide (k = a)) as [->|]; congruence.
Qed.

(** Loops that follow a fold of the reference; [R] holds when the flag stays false. *)
Lemma wp_any_of {S A X} (I : X → S → Prop) (g : X → A → X) (R : S → S → Prop) `{!PreOrder R} (f : A → M S bool) l : ∀ x s,
  (∀ a x s, a ∈ l → I x s → wp (f a) s (λ u s', I (g x a) s' ∧ (u = false → R s s'))) → I x s →
  wp (any_of l f) s (λ u s', I (foldl g x l) s' ∧ (u = false → R s s')).
Proof.
  induction l as [|a l IH]; intros x s Hf HI; cbn [any_of foldl]; [by apply wp_ret|]. apply wp_bind. eapply wp_mono; [apply Hf; [left|done]|]. intros u s1 [HI1 HR1].
  apply wp_bind. eapply wp_mono; [apply (IH (g x a)); [|done]|]. { intros b y s2 Hb. apply Hf. by right. }
  intros u' s2 [HI2 HR2]. apply wp_ret. split; [done|]. intros [-> ->]%orb_false_elim. etransitivity; eauto.
Qed.
Lemma wp_for_each_fold {S A X} (I : X → S → Prop) (g : X → A → X) (f : A → M S ()) l : ∀ x s,
  (∀ a x s, a ∈ l → I x s → wp (f a) s (λ _ s', I (g x a) s')) → I x s → wp (for_each l f) s (λ _ s', I (foldl g x l) s').
Proof.
  induction l as [|a l IH]; intros x s Hf HI; cbn [for_each foldl]; [by apply wp_ret|]. apply wp_bind. eapply wp_mono; [apply Hf; [left|done]|]. intros [] s1 HI1.
  apply IH; [|done]. intros b y s2 Hb. apply Hf. by right.
Qed.

(** The device tensor is up to date whenever it is used. *)
Definition min_p_inv (n : nat) (s : MinPLogitsProcessor) : Prop :=
  min_p_ok n s ∧ (min_p_count s ≠ 0%Z → min_p_device s = take (length (min_p_device s)) (min_p_cpu s)).

Lemma min_p_none n v s : min_p_is n v s → min_p_count s = 0%Z → ∀ k, v k = None.
Proof.
  intros [[Hl Hc] Hv] H0 k. rewrite <-Hv. unfold min_p_view. destruct (min_p_cpu s !! k) as [x|] eqn:E; [|done]. cbn.
  rewrite Hc in H0. unfold nonzero_entry. by rewrite decide_True by (by eapply nonzero_zero).
Qed.

Section min_p.
(** Only zero is rounded to zero: no parameter is below the smallest float32. *)
Context (f32 : Qc → Qc) (Hf32 : ∀ x, f32 x = 0%Qc ↔ x = 0%Qc).

(** Removals and moves, which are skipped when no row has a value *)
Lemma min_p_rest n bu v s : legal_update n bu → min_p_is n v s →
  wp (if decide (min_p_count s ≠ 0%Z) then
        for_each (removed bu) min_p_removed;;
        u ← any_of (moved bu) min_p_moved;
        mret (bool_decide (removed bu ≠ []) || u)
      else mret false) s
    (λ u s', min_p_is n (foldl ref_moved (foldl ref_removed v (removed bu)) (moved bu)) s' ∧ (u = false → same_prefix (batch_size bu) s s') ∧ (min_p_count s = 0%Z → s' = s)).
Proof.
  intros Hlegal Hs. case_decide as E0.
  - apply wp_bind. assert (wp (for_each (removed bu) min_p_removed) s (λ _ s', min_p_is n (foldl ref_removed v (removed bu)) s' ∧ (removed bu = [] → s' = s))) as Hr.
    { destruct (decide (removed bu = [])) as [Er|Er]; [rewrite Er; by apply wp_ret|].
      apply wp_mono with (λ _, min_p_is n (foldl ref_removed v (removed bu))); [|intros [] s1 ?; by split]. apply wp_for_each_fold; [|done].
      intros a x s0 Ha. apply min_p_removed_spec. by apply (proj1 (Forall_forall _ _) (lu_removed _ _ Hlegal)). }
    eapply wp_mono; [exact Hr|]. intros _ s1 [Hs1 E1]. apply wp_bind. eapply wp_mono.
    { apply (wp_any_of (min_p_is n) ref_moved (same_prefix (batch_size bu))); [|exact Hs1]. intros mv x s0 Hmv.
      destruct (proj1 (Forall_forall _ _) (lu_moved _ _ Hlegal) mv Hmv) as (H1 & H2 & H3 & H4). by apply min_p_moved_spec. }
    intros u s2 [Hs2 HR]. apply wp_ret. split_and!; [done| |done]. intros [Hrm ->]%orb_false_elim. apply bool_decide_eq_false, dec_stable in Hrm.
    rewrite (E1 Hrm) in HR. auto.
  - apply wp_ret. split_and!; [|done..]. destruct Hs as [Hok Hv]. split; [done|]. intros k. rewrite Hv, (min_p_none n v s) by done. symmetry. revert k.
    apply foldl_none. { intros w mv Hw k. unfold ref_moved. rewrite !Hw. by repeat case_decide. }
    apply foldl_none; [|by apply (min_p_none n v s)]. intros w i Hw k. unfold ref_removed. rewrite Hw. by case_decide.
Qed.

#[export] Instance min_p_follows n : Follows (min_p_state f32) (λ _, true) n (min_p_inv n) min_p_view (min_p_update_state f32).
Proof.
  constructor. intros s bu [Hok Hdev] Hlegal. destruct bu as [bu|]; [|apply wp_ret; split; [done|]; intros k; by rewrite kept_all]. cbn in Hlegal. unfold min_p_update_state. apply wp_bind.
  eapply wp_mono. { apply (wp_any_of (min_p_is n) (ref_added (min_p_state f32)) eq); [|by split].
    intros a v s0 Ha. apply min_p_added_spec; [|apply Hf32]. by apply (proj1 (Forall_forall _ _) (lu_added _ _ Hlegal)). }
  intros u1 s1 [Hs1 E1]. apply wp_bind, wp_gets, wp_bind. eapply wp_mono; [by apply (min_p_rest n bu)|]. intros u2 s2 (Hs2 & E2 & E20). apply wp_modify.
  assert (∀ k, min_p_view s2 k = kept (λ _, true) (ref_update (min_p_state f32) (Some bu) (min_p_view s) k)) as Hview by (intros k; rewrite kept_all; apply Hs2).
  pose proof (mp_length _ _ (proj1 Hs2)) as Hlen. case_decide as Ed.
  - split; [|exact Hview]. destruct Hs2 as [[Hl Hc] _]. split; [by constructor|]. cbn. intros _. pose proof (lu_size _ _ Hlegal). by rewrite length_take, Nat.min_l by lia.
  - split; [|exact Hview]. split; [apply Hs2|]. intros H0. destruct (u1 || u2) eqn:Eu; [destruct Ed; auto|]. apply orb_false_elim in Eu as [-> ->].
    rewrite <-(E1 eq_refl) in *. specialize (E2 eq_refl) as [Ht Ed2]. assert (min_p_count s ≠ 0%Z) as Hc0 by (intros Hc; apply H0; by rewrite (E20 Hc)).
    assert (length (min_p_device s2) = batch_size bu) as -> by (destruct (decide (length (min_p_device s2) = batch_size bu)); [done|]; destruct Ed; auto).
    rewrite Ht, Ed2. rewrite (Hdev Hc0) at 1. f_equal. destruct (decide (length (min_p_device s) = batch_size bu)); [done|]. destruct Ed. rewrite Ed2. auto.
Qed.
End min_p.

(** ** The effect on the logits *)
Section effect.
Context {L : Type}.
Implicit Types (logits : nat → nat → L).

Lemma write_logits_snoc f es e logits r t :
  write_logits f (es ++ [e]) logits r t = if decide (r = e.1.1 ∧ t = e.1.2) then f (logits r t) e.2 else write_logits f es logits r t.
Proof. unfold write_logits. by rewrite foldl_snoc. Qed.
Lemma write_logits_other f es logits r t : (∀ v, (r, t, v) ∉ es) → write_logits f es logits r t = logits r t.
Proof.
  induction es as [|[[r' t'] v'] es IH] using rev_ind; intros H; [done|]. rewrite write_logits_snoc. rewrite decide_False.
  - apply IH. intros v Hv. apply (H v), elem_of_app. by left.
  - cbn. intros [-> ->]. apply (H v'), elem_of_app. right. by apply list_elem_of_singleton.
Qed.
Lemma write_logits_at f es logits r t v : (r, t, v) ∈ es → (∀ v', (r, t, v') ∈ es → f (logits r t) v' = f (logits r t) v) → write_logits f es logits r t = f (logits r t) v.
Proof.
  induction es as [|[[r' t'] v'] es IH] using rev_ind; intros Hin Hu; [by apply not_elem_of_nil in Hin|]. rewrite write_logits_snoc. cbn. case_decide as E.
  - destruct E as [-> ->]. apply Hu, elem_of_app. right. by apply list_elem_of_singleton.
  - apply elem_of_app in Hin as [Hin|[= -> -> ->]%list_elem_of_singleton]; [|tauto]. apply IH; [done|]. intros v'' Hv''. apply Hu, elem_of_app. by left.
Qed.

Lemma zip_replicate_elem {A} (n : nat) (i : nat) (l : list A) r t : length l = n → (r, t) ∈ zip (replicate n i) l ↔ r = i ∧ t ∈ l.
Proof.
  intros <-. induction l as [|x l IH]; cbn; [split; [by intros ?%not_elem_of_nil|by intros [_ ?%not_elem_of_nil]]|]. rewrite !elem_of_cons, IH. naive_solver.
Qed.
Lemma zip_concat_rows {E A} (g : E → list A) (d : list (nat * E)) r t :
  (r, t) ∈ zip (concat ((λ e : nat * E, replicate (length (g e.2)) e.1) <$> d)) (concat ((λ e : nat * E, g e.2) <$> d)) ↔ ∃ e, (r, e) ∈ d ∧ t ∈ g e.
Proof.
  induction d as [|[i e] d IH]; [cbn; split; [by intros ?%not_elem_of_nil|by intros (? & ?%not_elem_of_nil & _)]|]. cbn [fmap list_fmap concat fst snd].
  rewrite zip_with_app by apply length_replicate. rewrite elem_of_app, zip_replicate_elem, IH by done. setoid_rewrite elem_of_cons. naive_solver.
Qed.

(** The tokens of a dict are not negative. *)
Definition tokens_ok (ts : list Z) : Prop := Forall (λ t, 0 ≤ t)%Z ts.

Lemma min_tokens_apply_spec (neg_inf : L) s logits r t : min_tokens_inv s → (∀ k e, min_tokens_view s k = Some e → tokens_ok e.2) →
  min_tokens_apply neg_inf s logits r t =
    match min_tokens_view s r with Some e => if decide (Z.of_nat t ∈ e.2) then neg_inf else logits r t | None => logits r t end.
Proof.
  intros [Hk Hs] Htok. unfold min_tokens_apply, min_tokens_view in *. rewrite Hs. cbn [fst snd]. case_decide as Ed; [by rewrite Ed|].
  assert (∀ v, (r, t, v) ∈ (λ e, (e, 0%Qc)) <$> zip (stop_rows (min_toks s)) (Z.to_nat <$> stop_tokens (min_toks s)) → ∃ e, OD.get r (min_toks s) = Some e ∧ Z.of_nat t ∈ e.2) as H1.
  { intros v (x & [= <- ->] & Hx)%list_elem_of_fmap. rewrite zip_with_fmap_r in Hx. apply list_elem_of_lookup in Hx as [i (r' & t' & [= -> ->] & Hi & Hi')%lookup_zip_with_Some].
    assert ((r', t') ∈ zip (stop_rows (min_toks s)) (stop_tokens (min_toks s))) as (e & He & Ht)%zip_concat_rows
      by (apply list_elem_of_lookup; exists i; apply lookup_zip_with_Some; eauto).
    apply OD.get_Some in He; [|done]. exists e. split; [done|]. rewrite Z2Nat.id; [done|]. by apply (proj1 (Forall_forall _ _) (Htok _ _ He)). }
  assert (∀ e, OD.get r (min_toks s) = Some e → Z.of_nat t ∈ e.2 → (r, t, 0%Qc) ∈ (λ e, (e, 0%Qc)) <$> zip (stop_rows (min_toks s)) (Z.to_nat <$> stop_tokens (min_toks s))) as H2.
  { intros e He%OD.get_Some Ht; [|done]. apply list_elem_of_fmap. exists (r, t). split; [done|].
    assert ((r, Z.of_nat t) ∈ zip (stop_rows (min_toks s)) (stop_tokens (min_toks s))) as [i (x & y & [= <- <-] & Hx & Hy)%lookup_zip_with_Some]%list_elem_of_lookup by (apply zip_concat_rows; eauto).
    apply list_elem_of_lookup. exists i. apply lookup_zip_with_Some. exists r, t. split_and!; [done..|]. by rewrite list_lookup_fmap, Hy; cbn; rewrite Nat2Z.id. }
  destruct (OD.get r (min_toks s)) as [e|]; [case_decide|].
  - by apply (write_logits_at (λ _ _, neg_inf) _ _ _ _ 0%Qc); [eapply H2|].
  - apply write_logits_other. intros v Hv. destruct (H1 v Hv) as (e' & [= <-] & ?). done.
  - apply write_logits_other. intros v Hv. by destruct (H1 v Hv) as (e' & ? & ?).
Qed.

(** The entries of the bias tensors *)
Lemma bias_entries f32 (d : list (nat * list (Z * Qc))) :
  zip (zip (bias_rows d) (Z.to_nat <$> bias_tokens d)) (bias_values f32 d) =
  concat ((λ e : nat * list (Z * Qc), (λ p : Z * Qc, (e.1, Z.to_nat p.1, f32 p.2)) <$> e.2) <$> d).
Proof.
  unfold bias_rows, bias_tokens, bias_values. induction d as [|[i lb] d IH]; [done|]. rewrite !fmap_cons. cbn [concat fst snd]. rewrite !fmap_app.
  rewrite (zip_with_app pair (replicate (length lb) i)) by (by rewrite length_replicate, !length_fmap).
  rewrite zip_with_app by (by rewrite length_zip_with, length_replicate, !length_fmap, Nat.min_id). f_equal; [|exact IH].
  clear. induction lb as [|p lb IH]; [done|]. cbn. f_equal. exact IH.
Qed.

Lemma bias_apply_spec (fadd : L → Qc → L) f32 s logits r t : bias_inv f32 s → (∀ k lb, bias_view s k = Some lb → NoDup lb.*1 ∧ tokens_ok lb.*1) →
  bias_apply fadd s logits r t =
    match bias_view s r ≫= OD.get (Z.of_nat t) with Some x => fadd (logits r t) (f32 x) | None => logits r t end.
Proof.
  intros [Hk _ Hs Ht] Htok. unfold bias_apply, bias_view in *. rewrite Hs, Ht. cbn [fst snd]. case_decide as Ed; [by rewrite Ed|]. rewrite bias_entries. set (es := concat _).
  assert (∀ v, (r, t, v) ∈ es ↔ ∃ lb x, OD.get r (biases s) = Some lb ∧ OD.get (Z.of_nat t) lb = Some x ∧ v = f32 x) as Hes.
  { intros v. unfold es. rewrite elem_of_concat. split.
    - intros (l & Hl & ([i lb] & -> & Hi)%list_elem_of_fmap). apply list_elem_of_fmap in Hl as ([z x] & [= -> -> ->] & Hz). cbn in *.
      apply OD.get_Some in Hi; [|done]. destruct (Htok _ _ Hi) as [Hn Ho]. exists lb, x. split_and!; [done| |done].
      assert (0 ≤ z)%Z as Hz0 by (apply (proj1 (Forall_forall _ _) Ho); apply list_elem_of_fmap; by exists (z, x)). rewrite Z2Nat.id by done. by apply OD.get_Some.
    - intros (lb & x & Hlb & Hx & ->). destruct (Htok _ _ Hlb) as [Hn _]. apply OD.get_Some in Hlb, Hx; [|done..].
      exists ((λ p : Z * Qc, (r, Z.to_nat p.1, f32 p.2)) <$> lb). split; apply list_elem_of_fmap; [exists (Z.of_nat t, x)|exists (r, lb)]; [|done]. cbn. by rewrite Nat2Z.id. }
  destruct (OD.get r (biases s)) as [lb|] eqn:Er; cbn; [destruct (OD.get (Z.of_nat t) lb) as [x|] eqn:Ex|].
  - apply (write_logits_at fadd); [apply Hes; eauto|]. intros v' (lb' & x' & [= <-] & E & ->)%Hes. congruence.
  - apply write_logits_other. intros v (lb' & x' & [= <-] & E & _)%Hes. congruence.
  - apply write_logits_other. intros v (lb' & x' & ? & _)%Hes. done.
Qed.
End effect.
