(* ===== verification/InputBatch.v ===== *)
(** * vllm/v1/worker/gpu_input_batch.py

    The persistent batch of the worker: one row per running request in arrays that are kept
    between steps.  Requests are removed and added, the rows are condensed, and an attention
    backend may exchange rows; the [BatchUpdateBuilder] records what happened for the logits
    processors.

    The arrays of one entry per row are indexed by their names ([icol] for integers, [fcol] for
    floats), and so are the sets of request ids ([idset]).  Tensors that are only stored and
    handed on are of type [tensor], random generators are numbers.  The lists of output tokens
    are shared objects in [out_heap].  Uninitialized arrays are zero.  The counts stored in the
    arrays of integers are within the range of their types. *)

From Stdlib Require Import ZArith Lia QArith Qcanon.
From stdpp Require Import sorting.
From stdpp Require Import base tactics option numbers gmap strings list.
From S2P Require Import Prelude Numpy BlockTable LogitsProcessors.
Local Open Scope nat_scope.

(** ** Requests *)

Definition tensor := list (list Qc).
Definition generator := nat.
Record PoolingParams := mkPoolingParams { requires_token_ids : bool }.
Record LoRARequest := mkLoRARequest { lora_name : string; lora_int_id : Z }.

Record CachedRequestState := mkCachedRequest {
  req_id : string;
  prompt_token_ids : option (list Z);
  prompt_embeds : option tensor;
  sampling_params : option SamplingParams;
  pooling_params : option PoolingParams;
  req_generator : option generator;
  block_ids : list (list Z);
  num_computed_tokens : Z;
  output_token_ids : oref;
  lora_request : option LoRARequest;
}.

Definition length_from_prompt_token_ids_or_embeds (ids : option (list Z)) (embeds : option tensor) : result nat :=
  match ids, embeds with
  | None, None => Raise ValueError
  | None, Some e => Ok (length e)
  | Some l, None => Ok (length l)
  | Some l, Some e => if decide (length e = length l) then Ok (length l) else Raise ValueError
  end.
(** [CachedRequestState.num_tokens]: the constructor has computed [num_prompt_tokens] *)
Definition request_num_tokens (h : heap) (r : CachedRequestState) : result Z :=
  n ← length_from_prompt_token_ids_or_embeds (prompt_token_ids r) (prompt_embeds r);
  Ok (Z.of_nat n + Z.of_nat (length (tokens_of h (output_token_ids r))))%Z.
Definition get_token_id (h : heap) (r : CachedRequestState) (idx : nat) : result Z :=
  n ← length_from_prompt_token_ids_or_embeds (prompt_token_ids r) (prompt_embeds r);
  if decide (idx < n) then
    match prompt_token_ids r with
    | None => Raise ValueError
    | Some ids => match ids !! idx with Some t => Ok t | None => Raise IndexError end
    end
  else Ok (default (-1)%Z (tokens_of h (output_token_ids r) !! (idx - n))).

(** ** State *)

Record Config := mkBatchConfig {
  is_pooling_model : bool;
  is_spec_decode : bool;
  max_num_reqs : nat;
  max_model_len : nat;
  vocab_size : Z;
  logitsprocs_need_output_token_ids : bool;
  f32 : Qc → Qc;  (** rounding to float32 *)
}.

(** The arrays of integers and of floats with one entry per row *)
Inductive icol :=
  | num_tokens | num_tokens_no_spec | num_prompt_tokens | num_computed_tokens_cpu
  | top_k_cpu | num_accepted_tokens_cpu | request_lora_mapping.
Inductive fcol := temperature_cpu | top_p_cpu | frequency_penalties_cpu | presence_penalties_cpu | repetition_penalties_cpu.
(** The sets of request ids *)
Inductive idset :=
  | greedy_reqs | random_reqs | top_p_reqs | top_k_reqs | spec_decode_unsupported_reqs
  | frequency_penalties_reqs | presence_penalties_reqs | repetition_penalties_reqs | has_allowed_token_ids.
#[export] Instance icol_eq_dec : EqDecision icol.
Proof. solve_decision. Defined.
#[export] Instance fcol_eq_dec : EqDecision fcol.
Proof. solve_decision. Defined.
#[export] Instance idset_eq_dec : EqDecision idset.
Proof. solve_decision. Defined.

(** What is kept per row *)
Record Rows := mkRows {
  token_ids_cpu : list (list Z);
  is_token_ids : list (list bool);
  req_prompt_embeds : gmap nat tensor; (** row to embeddings *)
  icols : icol → list Z;
  fcols : fcol → list Qc;
  block_table : list BlockTable; (** one table per KV cache group *)
  generators : gmap nat generator;
  allowed_mask : option (list (list bool)); (** allocated with the first request that needs it *)
  bad_words : gmap nat (list (list Z));
  needs_token_ids : list bool; (** logits_processing_needs_token_ids *)
  req_output_token_ids : list (option oref);
  spec_token_ids : list (list Z);
}.
Definition set_token_ids_cpu (x : list (list Z)) (r : Rows) : Rows := mkRows x (is_token_ids r) (req_prompt_embeds r) (icols r) (fcols r) (block_table r) (generators r) (allowed_mask r) (bad_words r) (needs_token_ids r) (req_output_token_ids r) (spec_token_ids r).
Definition set_is_token_ids (x : list (list bool)) (r : Rows) : Rows := mkRows (token_ids_cpu r) x (req_prompt_embeds r) (icols r) (fcols r) (block_table r) (generators r) (allowed_mask r) (bad_words r) (needs_token_ids r) (req_output_token_ids r) (spec_token_ids r).
Definition set_req_prompt_embeds (x : gmap nat tensor) (r : Rows) : Rows := mkRows (token_ids_cpu r) (is_token_ids r) x (icols r) (fcols r) (block_table r) (generators r) (allowed_mask r) (bad_words r) (needs_token_ids r) (req_output_token_ids r) (spec_token_ids r).
Definition set_icols (x : icol → list Z) (r : Rows) : Rows := mkRows (token_ids_cpu r) (is_token_ids r) (req_prompt_embeds r) x (fcols r) (block_table r) (generators r) (allowed_mask r) (bad_words r) (needs_token_ids r) (req_output_token_ids r) (spec_token_ids r).
Definition set_fcols (x : fcol → list Qc) (r : Rows) : Rows := mkRows (token_ids_cpu r) (is_token_ids r) (req_prompt_embeds r) (icols r) x (block_table r) (generators r) (allowed_mask r) (bad_words r) (needs_token_ids r) (req_output_token_ids r) (spec_token_ids r).
Definition set_block_table (x : list BlockTable) (r : Rows) : Rows := mkRows (token_ids_cpu r) (is_token_ids r) (req_prompt_embeds r) (icols r) (fcols r) x (generators r) (allowed_mask r) (bad_words r) (needs_token_ids r) (req_output_token_ids r) (spec_token_ids r).
Definition set_generators (x : gmap nat generator) (r : Rows) : Rows := mkRows (token_ids_cpu r) (is_token_ids r) (req_prompt_embeds r) (icols r) (fcols r) (block_table r) x (allowed_mask r) (bad_words r) (needs_token_ids r) (req_output_token_ids r) (spec_token_ids r).
Definition set_allowed_mask (x : option (list (list bool))) (r : Rows) : Rows := mkRows (token_ids_cpu r) (is_token_ids r) (req_prompt_embeds r) (icols r) (fcols r) (block_table r) (generators r) x (bad_words r) (needs_token_ids r) (req_output_token_ids r) (spec_token_ids r).
Definition set_bad_words (x : gmap nat (list (list Z))) (r : Rows) : Rows := mkRows (token_ids_cpu r) (is_token_ids r) (req_prompt_embeds r) (icols r) (fcols r) (block_table r) (generators r) (allowed_mask r) x (needs_token_ids r) (req_output_token_ids r) (spec_token_ids r).
Definition set_needs_token_ids (x : list bool) (r : Rows) : Rows := mkRows (token_ids_cpu r) (is_token_ids r) (req_prompt_embeds r) (icols r) (fcols r) (block_table r) (generators r) (allowed_mask r) (bad_words r) x (req_output_token_ids r) (spec_token_ids r).
Definition set_req_output_token_ids (x : list (option oref)) (r : Rows) : Rows := mkRows (token_ids_cpu r) (is_token_ids r) (req_prompt_embeds r) (icols r) (fcols r) (block_table r) (generators r) (allowed_mask r) (bad_words r) (needs_token_ids r) x (spec_token_ids r).
Definition set_spec_token_ids (x : list (list Z)) (r : Rows) : Rows := mkRows (token_ids_cpu r) (is_token_ids r) (req_prompt_embeds r) (icols r) (fcols r) (block_table r) (generators r) (allowed_mask r) (bad_words r) (needs_token_ids r) (req_output_token_ids r) x.

(** What is kept per request id *)
Record ById := mkById {
  idsets : idset → gset string;
  lora_id_to_request_ids : gmap Z (gset string);
  lora_id_to_lora_request : gmap Z LoRARequest;
  num_logprobs : gmap string Z;
  in_progress_prompt_logprobs : gmap string tensor;
  pooling_params_of : gmap string PoolingParams;
}.
Definition set_idsets (x : idset → gset string) (s : ById) : ById := mkById x (lora_id_to_request_ids s) (lora_id_to_lora_request s) (num_logprobs s) (in_progress_prompt_logprobs s) (pooling_params_of s).
Definition set_lora_id_to_request_ids (x : gmap Z (gset string)) (s : ById) : ById := mkById (idsets s) x (lora_id_to_lora_request s) (num_logprobs s) (in_progress_prompt_logprobs s) (pooling_params_of s).
Definition set_lora_id_to_lora_request (x : gmap Z LoRARequest) (s : ById) : ById := mkById (idsets s) (lora_id_to_request_ids s) x (num_logprobs s) (in_progress_prompt_logprobs s) (pooling_params_of s).
Definition set_num_logprobs (x : gmap string Z) (s : ById) : ById := mkById (idsets s) (lora_id_to_request_ids s) (lora_id_to_lora_request s) x (in_progress_prompt_logprobs s) (pooling_params_of s).
Definition set_in_progress_prompt_logprobs (x : gmap string tensor) (s : ById) : ById := mkById (idsets s) (lora_id_to_request_ids s) (lora_id_to_lora_request s) (num_logprobs s) x (pooling_params_of s).
Definition set_pooling_params_of (x : gmap string PoolingParams) (s : ById) : ById := mkById (idsets s) (lora_id_to_request_ids s) (lora_id_to_lora_request s) (num_logprobs s) (in_progress_prompt_logprobs s) x.

(** The copies on the device *)
Record Device := mkDevice {
  gpu_fcols : fcol → list Qc;
  gpu_top_k : list Z;
  gpu_allowed_mask : option (list (list bool));
}.
Definition set_gpu_fcols (x : fcol → list Qc) (d : Device) : Device := mkDevice x (gpu_top_k d) (gpu_allowed_mask d).
Definition set_gpu_top_k (x : list Z) (d : Device) : Device := mkDevice (gpu_fcols d) x (gpu_allowed_mask d).
Definition set_gpu_allowed_mask (x : option (list (list bool))) (d : Device) : Device := mkDevice (gpu_fcols d) (gpu_top_k d) x.

(** [SamplingMetadata].  The generators, the bad words and the lists of tokens are references to
    the attributes of the batch; of these the record says only whether the output tokens are
    passed. *)
Record SamplingMetadata := mkMetadata {
  md_temperature : option (list Qc);
  md_all_greedy : bool;
  md_all_random : bool;
  md_top_p : option (list Qc);
  md_top_k : option (list Z);
  md_max_num_logprobs : option Z;
  md_prompt_token_ids : option (list (list Z));
  md_frequency_penalties : list Qc;
  md_presence_penalties : list Qc;
  md_repetition_penalties : list Qc;
  md_output_token_ids : bool;
  md_no_penalties : bool;
  md_allowed_token_ids_mask : option (list (list bool));
}.

Record InputBatch := mkBatch {
  config : Config;
  _req_ids : list (option string);
  req_id_to_index : gmap string nat;
  rows : Rows;
  by_id : ById;
  builder : Builder.BatchUpdateBuilder;
  logitsprocs : LogitsProcessors;
  device : Device;
  sampling_metadata : SamplingMetadata;
  out_heap : heap; (** the lists of output tokens, shared with the model runner *)
  prev_req_id_to_index : option (gmap string nat);
  sampled_token_ids_cpu : option (list Z);
}.
Definition set__req_ids (x : list (option string)) (b : InputBatch) : InputBatch := mkBatch (config b) x (req_id_to_index b) (rows b) (by_id b) (builder b) (logitsprocs b) (device b) (sampling_metadata b) (out_heap b) (prev_req_id_to_index b) (sampled_token_ids_cpu b).
Definition set_req_id_to_index (x : gmap string nat) (b : InputBatch) : InputBatch := mkBatch (config b) (_req_ids b) x (rows b) (by_id b) (builder b) (logitsprocs b) (device b) (sampling_metadata b) (out_heap b) (prev_req_id_to_index b) (sampled_token_ids_cpu b).
Definition set_rows (x : Rows) (b : InputBatch) : InputBatch := mkBatch (config b) (_req_ids b) (req_id_to_index b) x (by_id b) (builder b) (logitsprocs b) (device b) (sampling_metadata b) (out_heap b) (prev_req_id_to_index b) (sampled_token_ids_cpu b).
Definition set_by_id (x : ById) (b : InputBatch) : InputBatch := mkBatch (config b) (_req_ids b) (req_id_to_index b) (rows b) x (builder b) (logitsprocs b) (device b) (sampling_metadata b) (out_heap b) (prev_req_id_to_index b) (sampled_token_ids_cpu b).
Definition set_builder (x : Builder.BatchUpdateBuilder) (b : InputBatch) : InputBatch := mkBatch (config b) (_req_ids b) (req_id_to_index b) (rows b) (by_id b) x (logitsprocs b) (device b) (sampling_metadata b) (out_heap b) (prev_req_id_to_index b) (sampled_token_ids_cpu b).
Definition set_logitsprocs (x : LogitsProcessors) (b : InputBatch) : InputBatch := mkBatch (config b) (_req_ids b) (req_id_to_index b) (rows b) (by_id b) (builder b) x (device b) (sampling_metadata b) (out_heap b) (prev_req_id_to_index b) (sampled_token_ids_cpu b).
Definition set_device (x : Device) (b : InputBatch) : InputBatch := mkBatch (config b) (_req_ids b) (req_id_to_index b) (rows b) (by_id b) (builder b) (logitsprocs b) x (sampling_metadata b) (out_heap b) (prev_req_id_to_index b) (sampled_token_ids_cpu b).
Definition set_sampling_metadata (x : SamplingMetadata) (b : InputBatch) : InputBatch := mkBatch (config b) (_req_ids b) (req_id_to_index b) (rows b) (by_id b) (builder b) (logitsprocs b) (device b) x (out_heap b) (prev_req_id_to_index b) (sampled_token_ids_cpu b).
Definition set_out_heap (x : heap) (b : InputBatch) : InputBatch := mkBatch (config b) (_req_ids b) (req_id_to_index b) (rows b) (by_id b) (builder b) (logitsprocs b) (device b) (sampling_metadata b) x (prev_req_id_to_index b) (sampled_token_ids_cpu b).
Definition set_prev_req_id_to_index (x : option (gmap string nat)) (b : InputBatch) : InputBatch := mkBatch (config b) (_req_ids b) (req_id_to_index b) (rows b) (by_id b) (builder b) (logitsprocs b) (device b) (sampling_metadata b) (out_heap b) x (sampled_token_ids_cpu b).
Definition set_sampled_token_ids_cpu (x : option (list Z)) (b : InputBatch) : InputBatch := mkBatch (config b) (_req_ids b) (req_id_to_index b) (rows b) (by_id b) (builder b) (logitsprocs b) (device b) (sampling_metadata b) (out_heap b) (prev_req_id_to_index b) x.

(** ** Access to the parts of the state *)

(** Assignment to one of a family of attributes *)
Definition fset {K V} `{EqDecision K} (k : K) (v : V) (f : K → V) : K → V := λ k', if decide (k' = k) then v else f k'.

Definition at_rows {A} (c : M Rows A) : M InputBatch A := zoom rows set_rows c.
Definition at_icol {A} (k : icol) (c : M (list Z) A) : M Rows A := zoom (λ r, icols r k) (λ l r, set_icols (fset k l (icols r)) r) c.
Definition at_fcol {A} (k : fcol) (c : M (list Qc) A) : M Rows A := zoom (λ r, fcols r k) (λ l r, set_fcols (fset k l (fcols r)) r) c.
Definition on_rows {S A} (rd : Rows → S) (wr : S → Rows → Rows) (c : M S A) : M InputBatch A := at_rows (zoom rd wr c).
Definition on_icol {A} (k : icol) (c : M (list Z) A) : M InputBatch A := at_rows (at_icol k c).
Definition on_fcol {A} (k : fcol) (c : M (list Qc) A) : M InputBatch A := at_rows (at_fcol k c).
Definition on_ids {S A} (rd : ById → S) (wr : S → ById → ById) (c : M S A) : M InputBatch A := zoom (λ b, rd (by_id b)) (λ x b, set_by_id (wr x (by_id b)) b) c.
Definition on_builder {A} (c : M Builder.BatchUpdateBuilder A) : M InputBatch A := zoom builder set_builder c.
(** [self.s.add(req_id)] and [self.s.discard(req_id)] *)
Definition set_add (s : idset) (id : string) : M InputBatch () := on_ids idsets set_idsets (modify (λ f, fset s (f s ∪ {[id]}) f)).
Definition set_discard (s : idset) (id : string) : M InputBatch () := on_ids idsets set_idsets (modify (λ f, fset s (f s ∖ {[id]}) f)).
Definition dict_set {K V} `{Countable K} (k : K) (v : V) : M (gmap K V) () := modify (λ m, <[k := v]> m).
Definition dict_pop {K V} `{Countable K} (k : K) : M (gmap K V) (option V) := λ m, (Ok (m !! k), delete k m).
(** A statement under a condition *)
Definition when {S} (b : bool) (c : M S ()) : M S () := if b then c else mret ().
(** [self.spec_token_ids[i].clear()] *)
Definition list_clear (i : nat) : M (list (list Z)) () := l ← get; index l i;; np_set i [].
(** An assignment of a list of Python integers to a part of a row of an int32 array *)
Definition set_int32_slice (row lo hi : nat) (vs : list Z) : M (list (list Z)) () :=
  if decide (Forall int32_range vs) then np_set_row_slice row lo hi vs else raise OverflowError.

Definition num_reqs (b : InputBatch) : nat := size (req_id_to_index b).

(** ** Adding a request *)

Definition _register_add_request (request : CachedRequestState) : M InputBatch nat :=
  popped ← on_builder Builder.pop_removed;
  new_req_index ← match popped with Some i => mret i | None => gets num_reqs end;
  c ← gets config;
  assert_ (bool_decide (new_req_index < max_num_reqs c));;
  on_builder (modify (Builder.set_changed true));;
  match sampling_params request with
  | Some p => on_builder (modify (λ u, Builder.set_added (Builder.added u ++ [(new_req_index, p, prompt_token_ids request, output_token_ids request)]) u))
  | None => mret ()
  end;;
  mret new_req_index.

(** The request id, its output tokens and its speculative tokens enter the lists. *)
Definition enter_lists (req_index : nat) (request : CachedRequestState) : M InputBatch () :=
  n ← gets (λ b, length (_req_ids b));
  if decide (req_index = n) then
    zoom _req_ids set__req_ids (modify (λ l, l ++ [Some (req_id request)]));;
    on_rows req_output_token_ids set_req_output_token_ids (modify (λ l, l ++ [Some (output_token_ids request)]));;
    on_rows spec_token_ids set_spec_token_ids (modify (λ l, l ++ [[]]))
  else
    zoom _req_ids set__req_ids (np_set req_index (Some (req_id request)));;
    on_rows req_output_token_ids set_req_output_token_ids (np_set req_index (Some (output_token_ids request)));;
    on_rows spec_token_ids set_spec_token_ids (list_clear req_index).

(** The tokens of the prompt and of the output *)
Definition enter_tokens (req_index : nat) (request : CachedRequestState) : M InputBatch () :=
  h ← gets out_heap;
  num_prompt ← of_result (length_from_prompt_token_ids_or_embeds (prompt_token_ids request) (prompt_embeds request));
  on_icol num_prompt_tokens (np_set req_index (Z.of_nat num_prompt));;
  let out := tokens_of h (output_token_ids request) in
  let end_idx := num_prompt + length out in
  match prompt_token_ids request with
  | Some ids =>
    on_rows token_ids_cpu set_token_ids_cpu (set_int32_slice req_index 0 num_prompt ids);;
    on_rows is_token_ids set_is_token_ids (np_set_row_slice req_index 0 num_prompt [true])
  | None => on_rows is_token_ids set_is_token_ids (np_set_row_slice req_index 0 num_prompt [false])
  end;;
  match prompt_embeds request with
  | Some e => on_rows req_prompt_embeds set_req_prompt_embeds (dict_set req_index e)
  | None => mret ()
  end;;
  on_rows token_ids_cpu set_token_ids_cpu (set_int32_slice req_index num_prompt end_idx out);;
  on_rows is_token_ids set_is_token_ids (np_set_row_slice req_index num_prompt end_idx [true]);;
  n ← of_result (request_num_tokens h request);
  on_icol num_tokens (np_set req_index n);;
  on_icol num_tokens_no_spec (np_set req_index n);;
  on_icol num_computed_tokens_cpu (np_set req_index (num_computed_tokens request));;
  on_rows block_table set_block_table (Multi.add_row (block_ids request) req_index).

Definition is_spec_decode_unsupported (p : SamplingParams) : bool :=
  bool_decide (frequency_penalty p ≠ 0%Qc) || bool_decide (presence_penalty p ≠ 0%Qc) || bool_decide (repetition_penalty p ≠ 1%Qc)
  || bool_decide (SAMPLING_EPS < min_p p)%Qc || bool_decide (is_Some (logprobs p)).

(** [mask[req_index] = True] and [mask[req_index][ids] = False] *)
Definition set_allowed_row (req_index : nat) (vocab : nat) (ids : list nat) : M (list (list bool)) () :=
  np_set req_index (replicate vocab true);;
  if decide (Forall (λ t, t < vocab) ids) then np_set req_index (foldl (λ r t, <[t := false]> r) (replicate vocab true) ids)
  else raise IndexError.
Definition enter_allowed (req_index : nat) (id : string) (ids : list nat) : M InputBatch () :=
  set_add has_allowed_token_ids id;;
  c ← gets config;
  let zero := replicate (max_num_reqs c) (replicate (Z.to_nat (vocab_size c)) false) in
  m ← gets (λ b, allowed_mask (rows b));
  match m with
  | None =>
    zoom device set_device (modify (set_gpu_allowed_mask (Some zero)));;
    on_rows allowed_mask set_allowed_mask (modify (λ _, Some zero))
  | Some _ => mret ()
  end;;
  on_rows (λ r, default [] (allowed_mask r)) (λ m, set_allowed_mask (Some m)) (set_allowed_row req_index (Z.to_nat (vocab_size c)) ids).

(** The sampling parameters *)
Definition enter_sampling (req_index : nat) (id : string) (gen : option generator) (p : SamplingParams) : M InputBatch () :=
  c ← gets config;
  when (is_spec_decode c && is_spec_decode_unsupported p) (set_add spec_decode_unsupported_reqs id);;
  (if decide (sampling_type p = GREEDY) then
     on_fcol temperature_cpu (np_set req_index 0%Qc);; set_add greedy_reqs id
   else
     on_fcol temperature_cpu (np_set req_index (f32 c (temperature p)));; set_add random_reqs id);;
  on_fcol top_p_cpu (np_set req_index (f32 c (top_p p)));;
  when (bool_decide (top_p p < 1)%Qc) (set_add top_p_reqs id);;
  let restricts := bool_decide (0 < top_k p < vocab_size c)%Z in
  when restricts (set_add top_k_reqs id);;
  on_icol top_k_cpu (np_set req_index (if restricts then top_k p else vocab_size c));;
  on_fcol frequency_penalties_cpu (np_set req_index (f32 c (frequency_penalty p)));;
  when (bool_decide (frequency_penalty p ≠ 0%Qc)) (set_add frequency_penalties_reqs id);;
  on_fcol presence_penalties_cpu (np_set req_index (f32 c (presence_penalty p)));;
  when (bool_decide (presence_penalty p ≠ 0%Qc)) (set_add presence_penalties_reqs id);;
  on_fcol repetition_penalties_cpu (np_set req_index (f32 c (repetition_penalty p)));;
  when (bool_decide (repetition_penalty p ≠ 1%Qc)) (set_add repetition_penalties_reqs id);;
  match gen with Some g => on_rows generators set_generators (dict_set req_index g) | None => mret () end;;
  match logprobs p with
  | Some n => on_ids num_logprobs set_num_logprobs (dict_set id (if decide (n = -1)%Z then vocab_size c else n))
  | None => mret ()
  end;;
  match allowed_token_ids p with Some ((_ :: _) as ids) => enter_allowed req_index id ids | _ => mret () end;;
  match bad_words_token_ids p with Some ((_ :: _) as ws) => on_rows bad_words set_bad_words (dict_set req_index ws) | _ => mret () end.

(** The LoRA adapter *)
Definition enter_lora (req_index : nat) (id : string) (lora : option LoRARequest) : M InputBatch () :=
  match lora with
  | Some l =>
    let lora_id := lora_int_id l in
    on_ids lora_id_to_request_ids set_lora_id_to_request_ids (modify (λ m, match m !! lora_id with None => <[lora_id := ∅]> m | Some _ => m end));;
    on_icol request_lora_mapping (np_set req_index lora_id);;
    on_ids lora_id_to_request_ids set_lora_id_to_request_ids (modify (λ m, <[lora_id := default ∅ (m !! lora_id) ∪ {[id]}]> m));;
    on_ids lora_id_to_lora_request set_lora_id_to_lora_request (dict_set lora_id l)
  | None => on_icol request_lora_mapping (np_set req_index 0%Z)
  end.

Definition add_request (request : CachedRequestState) : M InputBatch nat :=
  req_index ← _register_add_request request;
  let id := req_id request in
  enter_lists req_index request;;
  zoom req_id_to_index set_req_id_to_index (dict_set id req_index);;
  enter_tokens req_index request;;
  match sampling_params request, pooling_params request with
  | Some p, _ => enter_sampling req_index id (req_generator request) p
  | None, Some pp =>
    on_ids pooling_params_of set_pooling_params_of (dict_set id pp);;
    on_rows needs_token_ids set_needs_token_ids (np_set req_index (requires_token_ids pp))
  | None, None => raise NotImplementedError
  end;;
  on_icol num_accepted_tokens_cpu (np_set req_index 1%Z);;
  enter_lora req_index id (lora_request request);;
  mret req_index.

(** ** Removing a request *)

Definition leave_lora (req_index : nat) (id : string) : M InputBatch () :=
  b ← get;
  lora_id ← index (icols (rows b) request_lora_mapping) req_index;
  if decide (lora_id ≠ 0%Z) then
    match lora_id_to_request_ids (by_id b) !! lora_id with
    | None => raise KeyError
    | Some ids =>
      let ids := ids ∖ {[id]} in
      on_ids lora_id_to_request_ids set_lora_id_to_request_ids (dict_set lora_id ids);;
      (if decide (ids = ∅) then
         on_ids lora_id_to_request_ids set_lora_id_to_request_ids (modify (delete lora_id));;
         match lora_id_to_lora_request (by_id b) !! lora_id with
         | None => raise KeyError
         | Some _ => on_ids lora_id_to_lora_request set_lora_id_to_lora_request (modify (delete lora_id))
         end
       else mret ());;
      on_icol request_lora_mapping (np_set req_index 0%Z)
    end
  else mret ().

Definition remove_request (id : string) : M InputBatch (option nat) :=
  popped ← zoom req_id_to_index set_req_id_to_index (dict_pop id);
  match popped with
  | None => mret None
  | Some req_index =>
    on_builder (Builder.removed_append req_index);;
    zoom _req_ids set__req_ids (np_set req_index None);;
    on_rows req_output_token_ids set_req_output_token_ids (np_set req_index None);;
    on_rows spec_token_ids set_spec_token_ids (list_clear req_index);;
    leave_lora req_index id;;
    c ← gets config;
    if is_pooling_model c then
      on_ids pooling_params_of set_pooling_params_of (dict_pop id);;
      mret (Some req_index)
    else
      for_each [greedy_reqs; random_reqs; top_p_reqs; top_k_reqs; spec_decode_unsupported_reqs; frequency_penalties_reqs;
                presence_penalties_reqs; repetition_penalties_reqs] (λ s, set_discard s id);;
      on_rows generators set_generators (dict_pop req_index);;
      on_ids num_logprobs set_num_logprobs (dict_pop id);;
      on_ids in_progress_prompt_logprobs set_in_progress_prompt_logprobs (dict_pop id);;
      set_discard has_allowed_token_ids id;;
      m ← gets (λ b, allowed_mask (rows b));
      match m with
      | Some _ => on_rows (λ r, default [] (allowed_mask r)) (λ m, set_allowed_mask (Some m)) (np_set req_index (replicate (Z.to_nat (vocab_size c)) false))
      | None => mret ()
      end;;
      on_rows bad_words set_bad_words (dict_pop req_index);;
      mret (Some req_index)
  end.

(** ** Exchanging two rows *)

(** vllm/utils/collection_utils.py; the values are not None *)
Definition swap_dict_values {V} (k1 k2 : nat) : M (gmap nat V) () :=
  modify (λ m,
    let v1 := m !! k1 in
    let v2 := m !! k2 in
    let m := match v1 with Some v => <[k2 := v]> m | None => delete k2 m end in
    match v2 with Some v => <[k1 := v]> m | None => delete k1 m end).

(** [t[i1], t[i2] = t[i2], t[i1]] on the rows of a torch tensor: [t[i]] is a view, so the second
    assignment reads the row that the first has written. *)
Definition torch_swap_rows {A} (i1 i2 : nat) : M (list A) () :=
  np_move i2 i1;;
  np_move i1 i2.

(** The request ids, the output tokens and the speculative tokens *)
Definition swap_ids (i1 i2 : nat) : M InputBatch () :=
  b ← get;
  old_id_i1 ← index (_req_ids b) i1;
  old_id_i2 ← index (_req_ids b) i2;
  zoom _req_ids set__req_ids (np_swap i1 i2);;
  on_rows req_output_token_ids set_req_output_token_ids (np_swap i1 i2);;
  on_rows spec_token_ids set_spec_token_ids (np_swap i1 i2);;
  match old_id_i1, old_id_i2 with
  | Some id1, Some id2 =>
    match req_id_to_index b !! id2, req_id_to_index b !! id1 with
    | Some k2, Some k1 => zoom req_id_to_index set_req_id_to_index (modify (λ m, <[id2 := k1]> (<[id1 := k2]> m)))
    | _, _ => raise KeyError
    end
  | _, _ => raise AssertionError
  end.
(** What all models have *)
Definition swap_common (i1 i2 : nat) : M Rows () :=
  at_icol num_tokens (np_swap i1 i2);;
  at_icol num_tokens_no_spec (np_swap i1 i2);;
  at_icol num_prompt_tokens (np_swap i1 i2);;
  at_icol num_computed_tokens_cpu (np_swap i1 i2);;
  zoom token_ids_cpu set_token_ids_cpu (np_swap i1 i2);;
  zoom is_token_ids set_is_token_ids (np_swap i1 i2);;
  zoom req_prompt_embeds set_req_prompt_embeds (swap_dict_values i1 i2);;
  zoom block_table set_block_table (Multi.swap_row i1 i2);;
  at_icol request_lora_mapping (np_swap i1 i2).
(** What generative models have *)
Definition swap_sampling (i1 i2 : nat) : M Rows () :=
  at_fcol temperature_cpu (np_swap i1 i2);;
  at_fcol top_p_cpu (np_swap i1 i2);;
  at_icol top_k_cpu (np_swap i1 i2);;
  at_fcol frequency_penalties_cpu (np_swap i1 i2);;
  at_fcol presence_penalties_cpu (np_swap i1 i2);;
  at_fcol repetition_penalties_cpu (np_swap i1 i2);;
  at_icol num_accepted_tokens_cpu (np_swap i1 i2);;
  zoom generators set_generators (swap_dict_values i1 i2);;
  zoom bad_words set_bad_words (swap_dict_values i1 i2);;
  m ← gets allowed_mask;
  match m with
  | Some _ => zoom (λ r, default [] (allowed_mask r)) (λ m, set_allowed_mask (Some m)) (torch_swap_rows i1 i2)
  | None => mret ()
  end.

Definition swap_states (i1 i2 : nat) : M InputBatch () :=
  swap_ids i1 i2;;
  at_rows (swap_common i1 i2);;
  c ← gets config;
  if is_pooling_model c then mret ()
  else
    on_builder (modify (λ u, Builder.set_moved (Builder.moved u ++ [(i1, i2, SWAP)]) u));;
    at_rows (swap_sampling i1 i2).

(** ** Condensing the batch *)

(** [while last_req_index in empty_req_indices: last_req_index -= 1] *)
Fixpoint skip_empty (empty : list nat) (last : nat) : Z :=
  if decide (last ∈ empty) then match last with 0 => (-1)%Z | S l => skip_empty empty l end else Z.of_nat last.

(** [t[dst, :n] = t[src, :n]] *)
Definition copy_row_prefix {A} (src dst n : nat) : M (list (list A)) () :=
  t ← get;
  r ← index t src;
  np_set_row_slice dst 0 n (take n r).
(** [if src in d: d[dst] = d.pop(src)] *)
Definition dict_move {V} (src dst : nat) : M (gmap nat V) () :=
  v ← dict_pop src;
  match v with Some v => dict_set dst v | None => mret () end.

(** The request of row [last] moves to the empty row: ids and lists, *)
Definition move_ids (last empty_index : nat) : M InputBatch () :=
  b ← get;
  rid ← index (_req_ids b) last;
  out ← index (req_output_token_ids (rows b)) last;
  match rid with
  | None => raise AssertionError
  | Some id =>
    zoom _req_ids set__req_ids (np_set empty_index (Some id));;
    zoom _req_ids set__req_ids (np_set last None);;
    on_rows req_output_token_ids set_req_output_token_ids (np_set empty_index out);;
    on_rows req_output_token_ids set_req_output_token_ids (np_set last None);;
    zoom req_id_to_index set_req_id_to_index (dict_set id empty_index);;
    if decide (last ≠ empty_index) then
      on_rows spec_token_ids set_spec_token_ids (np_swap last empty_index);;
      on_rows spec_token_ids set_spec_token_ids (list_clear last)
    else mret ()
  end.
(** what all models have, *)
Definition move_common (last empty_index : nat) : M Rows () :=
  r ← get;
  n ← index (icols r num_tokens) last;
  zoom token_ids_cpu set_token_ids_cpu (copy_row_prefix last empty_index (Z.to_nat n));;
  zoom is_token_ids set_is_token_ids (copy_row_prefix last empty_index (Z.to_nat n));;
  zoom req_prompt_embeds set_req_prompt_embeds (dict_move last empty_index);;
  at_icol num_tokens (np_set empty_index n);;
  at_icol num_tokens_no_spec (np_move last empty_index);;
  at_icol num_prompt_tokens (np_move last empty_index);;
  at_icol num_computed_tokens_cpu (np_move last empty_index);;
  zoom block_table set_block_table (Multi.move_row last empty_index);;
  at_icol request_lora_mapping (np_move last empty_index).
(** and what generative models have. *)
Definition move_sampling (last empty_index : nat) : M Rows () :=
  at_fcol temperature_cpu (np_move last empty_index);;
  at_fcol top_p_cpu (np_move last empty_index);;
  at_icol top_k_cpu (np_move last empty_index);;
  at_fcol frequency_penalties_cpu (np_move last empty_index);;
  at_fcol presence_penalties_cpu (np_move last empty_index);;
  at_fcol repetition_penalties_cpu (np_move last empty_index);;
  at_icol num_accepted_tokens_cpu (np_move last empty_index);;
  zoom generators set_generators (dict_move last empty_index);;
  m ← gets allowed_mask;
  match m with
  | Some _ => zoom (λ r, default [] (allowed_mask r)) (λ m, set_allowed_mask (Some m)) (np_move last empty_index)
  | None => mret ()
  end;;
  zoom bad_words set_bad_words (dict_move last empty_index).

Definition move_request (last empty_index : nat) : M InputBatch () :=
  on_builder Builder.pop_removed;;
  move_ids last empty_index;;
  at_rows (move_common last empty_index);;
  c ← gets config;
  if is_pooling_model c then mret ()
  else
    on_builder (modify (λ u, Builder.set_moved (Builder.moved u ++ [(last, empty_index, UNIDIRECTIONAL)]) u));;
    at_rows (move_sampling last empty_index).

(** The loop.  [empty_req_indices] is the builder's own list, from which [move_request] pops;
    every round pops one index. *)
Fixpoint condense_loop (fuel : nat) (last_req_index : Z) : M InputBatch () :=
  match fuel with
  | 0 => raise OutOfFuel
  | S fuel =>
    empty ← gets (λ b, Builder._removed (builder b));
    if decide (empty = []) then mret ()
    else
      let last := if decide (last_req_index < 0)%Z then last_req_index else skip_empty empty (Z.to_nat last_req_index) in
      e ← on_builder Builder.peek_removed;
      match e with
      | None => raise AssertionError
      | Some empty_index =>
        if decide (last ≤ Z.of_nat empty_index)%Z then mret ()
        else
          move_request (Z.to_nat last) empty_index;;
          condense_loop fuel (last - 1)%Z
      end
  end.

Definition condense : M InputBatch () :=
  n ← gets num_reqs;
  empty ← on_builder Builder.removed;
  if decide (empty = []) then mret ()
  else if decide (n = 0) then
    zoom _req_ids set__req_ids (modify (λ _, []));;
    on_rows req_output_token_ids set_req_output_token_ids (modify (λ _, []));;
    on_rows spec_token_ids set_spec_token_ids (modify (λ _, []))
  else
    condense_loop (S (length empty)) (Z.of_nat n + Z.of_nat (length empty) - 1)%Z;;
    zoom _req_ids set__req_ids (modify (take n));;
    on_rows req_output_token_ids set_req_output_token_ids (modify (take n));;
    on_rows spec_token_ids set_spec_token_ids (modify (take n)).

(** ** Metadata for sampling *)

Definition no_ids (s : idset) (b : InputBatch) : bool := bool_decide (idsets (by_id b) s = ∅).
Definition all_greedy : InputBatch → bool := no_ids random_reqs.
Definition all_random : InputBatch → bool := no_ids greedy_reqs.
Definition no_top_p : InputBatch → bool := no_ids top_p_reqs.
Definition no_top_k : InputBatch → bool := no_ids top_k_reqs.
Definition no_penalties (b : InputBatch) : bool := no_ids presence_penalties_reqs b && no_ids frequency_penalties_reqs b && no_ids repetition_penalties_reqs b.
Definition no_allowed_token_ids : InputBatch → bool := no_ids has_allowed_token_ids.
Definition max_num_logprobs (b : InputBatch) : option Z :=
  match (map_to_list (num_logprobs (by_id b))).*2 with [] => None | x :: l => Some (foldl Z.max x l) end.

(** vllm/v1/utils.py: [to_tensor[:length].copy_(from_tensor[:length])] *)
Definition copy_slice {A} (from to : list A) (n : nat) : list A := take n from ++ drop n to.
Definition copy_fcol (k : fcol) : M InputBatch () :=
  modify (λ b, set_device (set_gpu_fcols (fset k (copy_slice (fcols (rows b) k) (gpu_fcols (device b) k) (num_reqs b)) (gpu_fcols (device b))) (device b)) b).

(** The prompts, padded with [vocab_size]; [max()] of no rows raises. *)
Definition _make_prompt_token_ids_tensor (b : InputBatch) : result (list (list Z)) :=
  match take (num_reqs b) (icols (rows b) num_prompt_tokens) with
  | [] => Raise ValueError
  | n :: ns =>
    let max_prompt_len := Z.to_nat (foldl Z.max n ns) in
    Ok (zip_with (λ r n, take (Z.to_nat n) (take max_prompt_len r) ++ replicate (max_prompt_len `min` length r - Z.to_nat n) (vocab_size (config b)))
          (take (num_reqs b) (token_ids_cpu (rows b))) (n :: ns))
  end.

Definition _make_sampling_metadata : M InputBatch SamplingMetadata :=
  b ← get;
  let n := num_reqs b in
  when (negb (all_greedy b)) (copy_fcol temperature_cpu);;
  when (negb (no_top_p b)) (copy_fcol top_p_cpu);;
  when (negb (no_top_k b)) (modify (λ b, set_device (set_gpu_top_k (copy_slice (icols (rows b) top_k_cpu) (gpu_top_k (device b)) n) (device b)) b));;
  when (negb (no_penalties b)) (copy_fcol frequency_penalties_cpu;; copy_fcol presence_penalties_cpu;; copy_fcol repetition_penalties_cpu);;
  let needs_prompt_token_ids := negb (no_penalties b) || existsb id (take n (needs_token_ids (rows b))) in
  prompt_ids ← (if needs_prompt_token_ids then t ← of_result (_make_prompt_token_ids_tensor b); mret (Some t) else mret None);
  let needs_output_token_ids := negb (no_penalties b) || bool_decide (bad_words (rows b) ≠ ∅) || logitsprocs_need_output_token_ids (config b) in
  mask ← (if no_allowed_token_ids b then mret None
          else match gpu_allowed_mask (device b), allowed_mask (rows b) with
               | Some g, Some m =>
                 modify (λ b, set_device (set_gpu_allowed_mask (Some (copy_slice m g n)) (device b)) b);;
                 mret (Some (take n (copy_slice m g n)))
               | _, _ => raise AssertionError
               end);
  d ← gets device;
  mret (mkMetadata
    (if all_greedy b then None else Some (take n (gpu_fcols d temperature_cpu)))
    (all_greedy b) (all_random b)
    (if no_top_p b then None else Some (take n (gpu_fcols d top_p_cpu)))
    (if no_top_k b then None else Some (take n (gpu_top_k d)))
    (max_num_logprobs b) prompt_ids
    (take n (gpu_fcols d frequency_penalties_cpu)) (take n (gpu_fcols d presence_penalties_cpu)) (take n (gpu_fcols d repetition_penalties_cpu))
    needs_output_token_ids (no_penalties b) mask).

Definition refresh_metadata : M InputBatch () :=
  c ← gets config;
  if is_pooling_model c then
    changed ← on_builder Builder.reset;
    when changed (md ← _make_sampling_metadata; modify (set_sampling_metadata md))
  else
    n ← gets num_reqs;
    bu ← on_builder (Builder.get_and_reset n);
    b ← get;
    ps ← of_result (update_states (f32 c) (out_heap b) bu (logitsprocs b));
    modify (set_logitsprocs ps);;
    match bu with
    | Some _ => md ← _make_sampling_metadata; modify (set_sampling_metadata md)
    | None => mret ()
    end.

(** ** A new batch *)
Definition new_input_batch (c : Config) (ntokens : nat) (block_sizes kernel_block_sizes : list nat) (num_speculative_tokens interleave : nat)
    (pcp dcp : option (nat * nat)) (procs : LogitsProcessors) : result InputBatch :=
  t ← Multi.new (max_num_reqs c) (max_model_len c) ntokens block_sizes kernel_block_sizes num_speculative_tokens interleave pcp dcp;
  let n := max_num_reqs c in
  Ok (mkBatch c [] ∅
        (mkRows (replicate n (replicate (max_model_len c) 0%Z)) (replicate n (replicate (max_model_len c) false)) ∅
           (λ k, replicate n (if decide (k = num_accepted_tokens_cpu) then 1 else 0)%Z) (λ _, replicate n 0%Qc) t ∅ None ∅ (replicate n false) [] (replicate n []))
        (mkById (λ _, ∅) ∅ ∅ ∅ ∅ ∅) Builder.new procs (mkDevice (λ _, replicate n 0%Qc) (replicate n 0%Z) None)
        (mkMetadata None true true None None None None [] [] [] (logitsprocs_need_output_token_ids c) true None) ∅ None None).

(** ** Pooling, LoRA and asynchronous scheduling *)

Definition get_pooling_params (b : InputBatch) : result (list PoolingParams) :=
  if decide (length (_req_ids b) = size (pooling_params_of (by_id b))) then
    mapR (λ rid, match rid with Some id => match pooling_params_of (by_id b) !! id with Some p => Ok p | None => Raise KeyError end | None => Raise KeyError end) (_req_ids b)
  else Raise AssertionError.
Definition get_pooling_metadata (b : InputBatch) : result (list Z * option (list (list Z)) * list PoolingParams) :=
  ps ← get_pooling_params b;
  Ok (take (num_reqs b) (icols (rows b) num_prompt_tokens), md_prompt_token_ids (sampling_metadata b), ps).

(** [a.repeat(repeats)]: as many counts as entries, or a single count *)
Definition np_repeat (l : list Z) (ns : list nat) : result (list Z) :=
  if decide (length ns = length l) then Ok (concat (zip_with (λ x n, replicate n x) l ns))
  else match ns with [n] => Ok (concat ((λ x, replicate n x) <$> l)) | _ => Raise ValueError end.
Definition make_lora_inputs (num_scheduled_tokens num_sampled_tokens : list nat) (b : InputBatch) : result (list Z * list Z * list LoRARequest) :=
  let mapping := take (num_reqs b) (icols (rows b) request_lora_mapping) in
  prompt ← np_repeat mapping num_sampled_tokens;
  token ← np_repeat mapping num_scheduled_tokens;
  Ok (prompt, token, (map_to_list (lora_id_to_lora_request (by_id b))).*2).

Definition set_async_sampled_token_ids (sampled : list Z) : M InputBatch () :=
  modify (λ b, set_sampled_token_ids_cpu (if md_output_token_ids (sampling_metadata b) && bool_decide (req_output_token_ids (rows b) ≠ []) then Some sampled else None) b).
(** One request: its last output token is replaced if it is a placeholder. *)
Definition repair_output (prev : gmap string nat) (sampled : list Z) (i : nat) (rid : option string) : M InputBatch () :=
  b ← get;
  match rid ≫= λ id, prev !! id with
  | None => mret ()
  | Some prev_index =>
    o ← index (req_output_token_ids (rows b)) i;
    match o with
    | None => mret ()
    | Some o =>
      let ts := tokens_of (out_heap b) o in
      if decide (last ts = Some (-1)%Z) then
        x ← index sampled prev_index;
        modify (λ b, set_out_heap (<[o := take (length ts - 1) ts ++ [x]]> (out_heap b)) b)
      else mret ()
    end
  end.
Definition update_async_output_token_ids : M InputBatch () :=
  b ← get;
  match sampled_token_ids_cpu b with
  | None => mret ()
  | Some sampled =>
    if md_output_token_ids (sampling_metadata b) && bool_decide (req_output_token_ids (rows b) ≠ []) then
      match prev_req_id_to_index b with
      | None => raise AssertionError
      | Some prev => for_each (imap (λ i rid, (i, rid)) (_req_ids b)) (λ e, repair_output prev sampled e.1 e.2)
      end
    else mret ()
  end.
