(* ===== verification/InputBatchInv.v ===== *)
(** * The persistent batch: what a row holds, and that rows move as a whole

    [row_data] is what a row of the batch says about its request.  The exchange of two rows and
    the move of a row into an empty one are shown to rearrange the row data, attribute by
    attribute. *)

From Stdlib Require Import ZArith Lia QArith Qcanon.
From stdpp Require Import sorting.
From stdpp Require Import base tactics option numbers gmap strings list.
From S2P Require Import Prelude Numpy BlockTable LogitsProcessors InputBatch.
Local Open Scope nat_scope.

(** ** The data of a row *)

(** The attributes that are kept for the kind of model *)
Definition common_icols : list icol := [num_tokens; num_tokens_no_spec; num_prompt_tokens; num_computed_tokens_cpu; request_lora_mapping].
Definition sampling_icols : list icol := [top_k_cpu; num_accepted_tokens_cpu].
Definition sampling_fcols : list fcol := [temperature_cpu; top_p_cpu; frequency_penalties_cpu; presence_penalties_cpu; repetition_penalties_cpu].
Definition icols_used (c : Config) : list icol := common_icols ++ if is_pooling_model c then [] else sampling_icols.
Definition fcols_used (c : Config) : list fcol := if is_pooling_model c then [] else sampling_fcols.

(** The tokens of a row; a position of a prompt given by embeddings has no token. *)
Definition visible (ts : list Z) (fs : list bool) : list (option Z) := zip_with (λ t (f : bool), if f then Some t else None) ts fs.

(** The data of a request that every change of the batch keeps.  The row of the mask of
    allowed tokens and the flag [needs_token_ids] are not among them: exchanging rows
    duplicates the mask, and nothing moves the flag. *)
Record RowData := mkRowData {
  rd_tokens : list (option Z);
  rd_embeds : option tensor;  (** only when a position has no token *)
  rd_ints : list (option Z);
  rd_floats : list (option Qc);
  rd_blocks : list (list Z);
  rd_generator : option generator;
  rd_bad_words : option (list (list Z));
  rd_output : option (option oref);
  rd_spec : option (list Z);
}.

(** The first [num_tokens] entries of a row of tokens or flags *)
Definition row_length (r : Rows) (k : nat) : nat := Z.to_nat (default 0%Z (icols r num_tokens !! k)).
Definition row_prefix {A} (t : list (list A)) (r : Rows) (k : nat) : list A := take (row_length r k) (default [] (t !! k)).
Definition row_data (c : Config) (r : Rows) (k : nat) : RowData :=
  let flags := row_prefix (is_token_ids r) r k in
  mkRowData (visible (row_prefix (token_ids_cpu r) r k) flags)
    (if decide (Forall (λ f, f = true) flags) then None else req_prompt_embeds r !! k)
    ((λ col, icols r col !! k) <$> icols_used c) ((λ col, fcols r col !! k) <$> fcols_used c) (group_rows (block_table r) k)
    (if is_pooling_model c then None else generators r !! k) (if is_pooling_model c then None else bad_words r !! k)
    (req_output_token_ids r !! k) (spec_token_ids r !! k).

(** ** Sizes *)

Record rows_shape (c : Config) (ls : list Layout) (r : Rows) : Prop := {
  rs_icols : ∀ k, length (icols r k) = max_num_reqs c;
  rs_fcols : ∀ k, length (fcols r k) = max_num_reqs c;
  rs_tokens : length (token_ids_cpu r) = max_num_reqs c ∧ Forall (λ l, length l = max_model_len c) (token_ids_cpu r);
  rs_flags : length (is_token_ids r) = max_num_reqs c ∧ Forall (λ l, length l = max_model_len c) (is_token_ids r);
  rs_blocks : groups_wf ls (max_num_reqs c) (block_table r);
  rs_mask : ∀ m, allowed_mask r = Some m → length m = max_num_reqs c;
  rs_needs : length (needs_token_ids r) = max_num_reqs c;
}.


(** ** Exchanging and moving *)

(** The attributes that [swap_common] and [move_common] treat follow [f] on the rows in [P]. *)
Record common_follows (c : Config) (ls : list Layout) (f : nat → nat) (P : nat → Prop) (r r' : Rows) : Prop := {
  cf_shape : rows_shape c ls r';
  cf_icols : ∀ col, col ∈ common_icols → rearranged f (icols r col) (icols r' col);
  cf_icols_other : ∀ col, col ∉ common_icols → icols r' col = icols r col;
  cf_tokens : ∀ k, P k → k < max_num_reqs c → row_prefix (token_ids_cpu r') r' k = row_prefix (token_ids_cpu r) r (f k);
  cf_flags : ∀ k, P k → k < max_num_reqs c → row_prefix (is_token_ids r') r' k = row_prefix (is_token_ids r) r (f k);
  cf_embeds : ∀ k, P k → is_Some (req_prompt_embeds r !! f k) → req_prompt_embeds r' !! k = req_prompt_embeds r !! f k;
  cf_blocks : ∀ k, group_rows (block_table r') k = group_rows (block_table r) (f k);
  cf_rest : fcols r' = fcols r ∧ generators r' = generators r ∧ allowed_mask r' = allowed_mask r ∧ bad_words r' = bad_words r ∧
    needs_token_ids r' = needs_token_ids r ∧ req_output_token_ids r' = req_output_token_ids r ∧ spec_token_ids r' = spec_token_ids r;
}.

Lemma wp_swap_dict {V} i1 i2 (m : gmap nat V) (Q : () → gmap nat V → Prop) :
  (∀ m', (∀ k, m' !! k = m !! swap_ix i1 i2 k) → Q () m') → wp (swap_dict_values i1 i2) m Q.
Proof.
  intros HQ. apply wp_modify, HQ. intros k. unfold swap_ix. destruct (m !! i1) eqn:E1, (m !! i2) eqn:E2; repeat case_decide; subst;
    rewrite ?lookup_insert_eq, ?lookup_delete_eq, ?lookup_insert_ne, ?lookup_delete_ne, ?lookup_insert_eq, ?lookup_delete_eq, ?lookup_insert_ne, ?lookup_delete_ne by done;
    congruence.
Qed.
Lemma wp_dict_move {V} src dst (m : gmap nat V) (Q : () → gmap nat V → Prop) : src ≠ dst →
  (∀ m', (∀ k, k ≠ src → m' !! k = if decide (k = dst ∧ is_Some (m !! src)) then m !! src else m !! k) → m' !! src = None → Q () m') →
  wp (dict_move src dst) m Q.
Proof.
  intros Hne HQ. unfold dict_move. apply wp_bind. unfold wp at 1, dict_pop. destruct (m !! src) as [v|] eqn:E.
  - apply wp_modify, HQ; [|by rewrite lookup_insert_ne, lookup_delete_eq]. intros k Hk. destruct (decide (k = dst)) as [->|].
    + rewrite lookup_insert_eq, decide_True by eauto. done.
    + rewrite lookup_insert_ne, lookup_delete_ne by done. rewrite decide_False by tauto. done.
  - apply wp_ret, HQ; [|by rewrite lookup_delete_eq]. intros k Hk. rewrite lookup_delete_ne by done. rewrite decide_False; [done|]. intros [_ [? ?]]. done.
Qed.

(** Steps of the programs on rows: reads of the arrays go past assignments to others. *)
Ltac fset_simpl := unfold fset in *; cbn in *; repeat first [rewrite decide_False by done|rewrite decide_True by done];
  repeat match goal with
  | E : context [if decide (?x = ?y) then _ else _] |- _ => first [rewrite (decide_False (P := x = y)) in E by done|rewrite (decide_True (P := x = y)) in E by done]
  end.
Ltac row_len H := fset_simpl; rewrite ?(rs_icols _ _ _ H), ?(rs_fcols _ _ _ H), ?(proj1 (rs_tokens _ _ _ H)), ?(proj1 (rs_flags _ _ _ H)); done.
Ltac swap_step H := apply wp_bind, wp_zoom, wp_np_swap; [row_len H|row_len H|]; let l := fresh "l" in let E := fresh "E" in intros l E; fset_simpl.
#[global] Arguments group_rows : simpl never.

Lemma rearranged_length {A} f (l l' : list A) n : rearranged f l l' → length l = n → length l' = n.
Proof. intros [-> _]. done. Qed.
Lemma rearranged_lookup {A} f (l l' : list A) n k : rearranged f l l' → length l = n → k < n → l' !! k = l !! f k.
Proof. intros [_ H] <-. apply H. Qed.
(** Rows that are rearranged with their lengths *)
Lemma row_prefix_rearranged {A} f n (t t' : list (list A)) r r' k : rearranged f t t' → rearranged f (icols r num_tokens) (icols r' num_tokens) →
  length t = n → length (icols r num_tokens) = n → k < n → row_prefix t' r' k = row_prefix t r (f k).
Proof.
  intros Ht Hn Lt Ln Hk. unfold row_prefix, row_length. by rewrite (rearranged_lookup _ _ _ _ _ Ht Lt Hk), (rearranged_lookup _ _ _ _ _ Hn Ln Hk).
Qed.

Lemma swap_common_spec c ls i1 i2 r : rows_shape c ls r → i1 < max_num_reqs c → i2 < max_num_reqs c →
  wp (swap_common i1 i2) r (λ _ r', common_follows c ls (swap_ix i1 i2) (λ _, True) r r').
Proof.
  intros H H1 H2. assert (∀ k, k < max_num_reqs c → swap_ix i1 i2 k < max_num_reqs c) as Hlt by (intros; by apply swap_ix_lt).
  unfold swap_common, at_icol. do 6 swap_step H.
  apply wp_bind, wp_zoom, wp_swap_dict. intros emb Eemb. apply wp_bind, wp_zoom. eapply wp_mono; [apply (wp_swap_row ls (max_num_reqs c)); [apply H|done..]|].
  intros _ t [Ht Er]. apply wp_zoom, wp_np_swap; [row_len H|row_len H|]. intros l5 E5. fset_simpl. destruct H as [Hic Hfc [Ltok Htok] [Lfl Hfl] Hb Hm Hn].
  constructor; cbn.
  - constructor; cbn; [|done| | |done..].
    + intros k. repeat case_decide; eauto using rearranged_length.
    + split; [by eapply rearranged_length|]. eapply Forall_rearranged; [done|by rewrite Ltok|done].
    + split; [by eapply rearranged_length|]. eapply Forall_rearranged; [done|by rewrite Lfl|done].
  - intros col Hcol. destruct col; fset_simpl; try done; exfalso; revert Hcol; unfold common_icols; set_solver.
  - intros col Hcol. destruct col; fset_simpl; try done; exfalso; apply Hcol; unfold common_icols; set_solver.
  - intros k _ Hk. eapply row_prefix_rearranged; [done|cbn; fset_simpl; done|done..].
  - intros k _ Hk. eapply row_prefix_rearranged; [done|cbn; fset_simpl; done|done..].
  - done.
  - done.
  - done.
Qed.

(** The attributes of generative models follow [f] on the rows in [P]; the rows of the mask of
    allowed tokens follow [g]. *)
Record sampling_follows (c : Config) (ls : list Layout) (f g : nat → nat) (P : nat → Prop) (r r' : Rows) : Prop := {
  sf_shape : rows_shape c ls r';
  sf_icols : ∀ col, col ∈ sampling_icols → rearranged f (icols r col) (icols r' col);
  sf_icols_other : ∀ col, col ∉ sampling_icols → icols r' col = icols r col;
  sf_fcols : ∀ col, rearranged f (fcols r col) (fcols r' col);
  sf_generators : ∀ k, P k → generators r' !! k = generators r !! f k;
  sf_bad_words : ∀ k, P k → bad_words r' !! k = bad_words r !! f k;
  sf_vacated : ∀ k, ¬ P k → generators r' !! k = None ∧ bad_words r' !! k = None;
  sf_mask : match allowed_mask r with None => allowed_mask r' = None | Some m => ∃ m', allowed_mask r' = Some m' ∧ rearranged g m m' end;
  sf_rest : token_ids_cpu r' = token_ids_cpu r ∧ is_token_ids r' = is_token_ids r ∧ req_prompt_embeds r' = req_prompt_embeds r ∧ block_table r' = block_table r ∧
    needs_token_ids r' = needs_token_ids r ∧ req_output_token_ids r' = req_output_token_ids r ∧ spec_token_ids r' = spec_token_ids r;
}.

Lemma wp_torch_swap_rows {A} i1 i2 (l : list A) (Q : () → list A → Prop) : i1 < length l → i2 < length l →
  (∀ l', rearranged (move_ix i2 i1) l l' → Q () l') → wp (torch_swap_rows i1 i2) l Q.
Proof.
  intros H1 H2 HQ. unfold torch_swap_rows. apply wp_bind, wp_np_move; [done..|]. intros l1 [L1 E1]. apply wp_np_move; [lia..|]. intros l2 [L2 E2]. apply HQ.
  split; [lia|]. intros k Hk. rewrite E2, !E1 by (unfold move_ix; repeat case_decide; lia). f_equal. unfold move_ix. repeat case_decide; congruence.
Qed.

Ltac solve_cols := let col := fresh in let Hcol := fresh in intros col Hcol; destruct col; fset_simpl; try done; exfalso; revert Hcol; unfold sampling_icols, common_icols; set_solver.

Lemma swap_sampling_spec c ls i1 i2 r : rows_shape c ls r → i1 < max_num_reqs c → i2 < max_num_reqs c →
  wp (swap_sampling i1 i2) r (λ _ r', sampling_follows c ls (swap_ix i1 i2) (move_ix i2 i1) (λ _, True) r r').
Proof.
  intros H H1 H2. unfold swap_sampling, at_icol, at_fcol. do 7 swap_step H.
  apply wp_bind, wp_zoom, wp_swap_dict. intros gen Egen. apply wp_bind, wp_zoom, wp_swap_dict. intros bad Ebad. apply wp_bind, wp_gets. cbn.
  pose proof H as [Hic Hfc Htok Hfl Hb Hm Hn].
  assert (∀ mask, (∀ m, mask = Some m → length m = max_num_reqs c) → match allowed_mask r with None => mask = None | Some m => ∃ m', mask = Some m' ∧ rearranged (move_ix i2 i1) m m' end →
    sampling_follows c ls (swap_ix i1 i2) (move_ix i2 i1) (λ _, True) r
      (mkRows (token_ids_cpu r) (is_token_ids r) (req_prompt_embeds r)
         (fset num_accepted_tokens_cpu l5 (fset top_k_cpu l1 (icols r)))
         (fset repetition_penalties_cpu l4 (fset presence_penalties_cpu l3 (fset frequency_penalties_cpu l2 (fset top_p_cpu l0 (fset temperature_cpu l (fcols r))))))
         (block_table r) gen mask bad (needs_token_ids r) (req_output_token_ids r) (spec_token_ids r))) as Hgoal.
  { intros mask Hlen Hmask. constructor; cbn; [|solve_cols|solve_cols|intros col; destruct col; by fset_simpl|by auto|by auto|tauto|done|done].
    constructor; cbn; [intros k|intros k|done..]; unfold fset; repeat case_decide; eauto using rearranged_length. }
  destruct (allowed_mask r) as [m|] eqn:Em.
  - apply wp_zoom. cbn. rewrite Em. cbn. apply wp_torch_swap_rows; [by rewrite (Hm m)..|]. intros m' E'. apply Hgoal; [|eauto]. intros ? [= <-]. eapply rearranged_length; eauto.
  - apply wp_ret. eapply eq_rect; [exact (Hgoal None ltac:(done) eq_refl)|]. unfold set_bad_words. cbn. by rewrite Em.
Qed.

(** Copying the first [n] entries of a row to another *)
Lemma wp_copy_row_prefix {A} src dst n len (t : list (list A)) (Q : () → list (list A) → Prop) : src < length t → dst < length t →
  Forall (λ l, length l = len) t → n ≤ len →
  (∀ t', length t' = length t → Forall (λ l, length l = len) t' → (∀ k, k ≠ dst → t' !! k = t !! k) → (∀ x, t !! src = Some x → ∃ y, t' !! dst = Some y ∧ take n y = take n x) → Q () t') →
  wp (copy_row_prefix src dst n) t Q.
Proof.
  intros Hs Hd Hlen Hn HQ. destruct (lookup_lt_is_Some_2 t src Hs) as [x Hx], (lookup_lt_is_Some_2 t dst Hd) as [y Hy].
  pose proof (Forall_lookup_1 _ _ _ _ Hlen Hx) as Lx. pose proof (Forall_lookup_1 _ _ _ _ Hlen Hy) as Ly. cbn in Lx, Ly.
  unfold copy_row_prefix. apply wp_bind, wp_gets, wp_bind. eapply wp_index; [done|]. eapply wp_np_set_row_slice; [done|lia|rewrite length_take; lia|]. apply HQ.
  - by rewrite length_insert.
  - apply Forall_insert; [done|]. rewrite !length_app, length_drop, !length_take. lia.
  - intros k Hk. by rewrite list_lookup_insert_ne.
  - intros x' Hx'. assert (x' = x) as -> by congruence. eexists. split; [by apply list_lookup_insert_eq|]. rewrite take_0. cbn [app].
    rewrite take_app_le by (rewrite length_take; lia). by rewrite take_take, Nat.min_id.
Qed.

Ltac move_step H := apply wp_bind, wp_zoom, wp_np_move; [row_len H|row_len H|]; let l := fresh "l" in let E := fresh "E" in intros l E; fset_simpl.

Lemma copied_row {A} (t t' : list (list A)) r r' last empty n k : (∀ k, k ≠ empty → t' !! k = t !! k) →
  (∀ x, t !! last = Some x → ∃ y, t' !! empty = Some y ∧ take n y = take n x) → is_Some (t !! last) → row_length r last = n →
  row_length r' k = row_length r (move_ix last empty k) → row_prefix t' r' k = row_prefix t r (move_ix last empty k).
Proof.
  intros Hk Hx [x Ex] Hn Hl. unfold row_prefix. rewrite Hl. unfold move_ix in *. case_decide as E; [subst k|by rewrite Hk].
  destruct (Hx x Ex) as (y & Ey & Et). by rewrite Ey, Ex, Hn.
Qed.

Lemma move_common_spec c ls last empty r : rows_shape c ls r → last < max_num_reqs c → empty < max_num_reqs c → last ≠ empty → row_length r last ≤ max_model_len c →
  wp (move_common last empty) r (λ _ r', common_follows c ls (move_ix last empty) (λ k, k ≠ last) r r').
Proof.
  intros H H1 H2 Hne Hlen. pose proof H as [Hic Hfc [Ltok Htok] [Lfl Hfl] Hb Hm Hn].
  destruct (lookup_lt_is_Some_2 (icols r num_tokens) last) as [n En]; [by rewrite Hic|].
  assert (row_length r last = Z.to_nat n) as Erl by (unfold row_length; by rewrite En). rewrite Erl in Hlen.
  unfold move_common, at_icol. apply wp_bind, wp_gets, wp_bind. eapply wp_index; [done|].
  apply wp_bind, wp_zoom. eapply wp_copy_row_prefix; [by rewrite Ltok..|done|done|]. intros tok Ltok' Htok' Et1 Et2.
  apply wp_bind, wp_zoom. eapply wp_copy_row_prefix; [by cbn; rewrite Lfl..|done|done|]. intros fl Lfl' Hfl' Ef1 Ef2. cbn in Ef1, Ef2, Lfl'.
  apply wp_bind, wp_zoom, wp_dict_move; [done|]. intros emb Eemb _. cbn in Eemb. apply wp_bind, wp_zoom, wp_np_set; [cbn; by rewrite Hic|].
  do 3 move_step H. apply wp_bind, wp_zoom. eapply wp_mono; [apply (wp_move_row ls (max_num_reqs c)); [apply H|done..]|].
  intros _ t [Ht Er]. apply wp_zoom, wp_np_move; [row_len H|row_len H|]. intros l3 E3. fset_simpl.
  assert (rearranged (move_ix last empty) (icols r num_tokens) (<[empty:=n]> (icols r num_tokens))) as Enum.
  { split; [by rewrite length_insert|]. intros k Hk. unfold move_ix. destruct (decide (k = empty)) as [->|]; [by rewrite list_lookup_insert_eq|by rewrite list_lookup_insert_ne]. }
  assert (∀ k, k < max_num_reqs c → Z.to_nat (default 0%Z (<[empty:=n]> (icols r num_tokens) !! k)) = row_length r (move_ix last empty k)) as Hrl.
  { intros k Hk. unfold row_length. by rewrite (rearranged_lookup _ _ _ _ _ Enum (Hic _) Hk). }
  constructor; cbn.
  - constructor; cbn; [|done| | |done..].
    + intros k. repeat case_decide; rewrite ?length_insert; eauto using rearranged_length.
    + by rewrite Ltok'.
    + by rewrite Lfl'.
  - solve_cols.
  - solve_cols.
  - intros k _ Hk. eapply copied_row; [done..|apply lookup_lt_is_Some; by rewrite Ltok|done|]. unfold row_length at 1. cbn. fset_simpl. by apply Hrl.
  - intros k _ Hk. eapply copied_row; [done..|apply lookup_lt_is_Some; by rewrite Lfl|done|]. unfold row_length at 1. cbn. fset_simpl. by apply Hrl.
  - intros k Hk. unfold move_ix. rewrite Eemb by done. destruct (decide (k = empty)) as [->|]; [intros ?; by rewrite decide_True|]. rewrite decide_False by tauto. done.
  - done.
  - done.
Qed.

(** The end of a program that has assigned all attributes of generative models *)
Ltac sampling_done Em :=
  constructor; cbn; [|solve_cols|solve_cols|let col := fresh in intros col; destruct col; by fset_simpl|done|done|by intros ? ->%dec_stable| |done];
  [constructor; cbn; [intros ?|intros ?|done..|intros ?; rewrite ?Em; intros [= <-]; eauto using rearranged_length|done]; unfold fset; repeat case_decide; eauto using rearranged_length|].

Lemma move_sampling_spec c ls last empty r : rows_shape c ls r → last < max_num_reqs c → empty < max_num_reqs c → last ≠ empty →
  generators r !! empty = None → bad_words r !! empty = None →
  wp (move_sampling last empty) r (λ _ r', sampling_follows c ls (move_ix last empty) (move_ix last empty) (λ k, k ≠ last) r r').
Proof.
  intros H H1 H2 Hne Hg Hbw. unfold move_sampling, at_icol, at_fcol. do 7 move_step H. pose proof H as [Hic Hfc Htok Hfl Hb Hm Hn].
  assert (∀ {V} (m m' : gmap nat V), m !! empty = None → (∀ k, k ≠ last → m' !! k = if decide (k = empty ∧ is_Some (m !! last)) then m !! last else m !! k) →
    ∀ k, k ≠ last → m' !! k = m !! move_ix last empty k) as Hdict.
  { intros V m m' He Hmm k Hk. rewrite Hmm by done. unfold move_ix. destruct (decide (k = empty)) as [->|]; [|by rewrite decide_False by tauto].
    case_decide as Ed; [done|]. destruct (m !! last) eqn:El; [destruct Ed; eauto|done]. }
  apply wp_bind, wp_zoom, wp_dict_move; [done|]. intros gen Egen Egen'. cbn in Egen. pose proof (Hdict _ _ _ Hg Egen) as Eg. apply wp_bind, wp_gets. cbn.
  apply wp_bind. destruct (allowed_mask r) as [m|] eqn:Em.
  - apply wp_zoom. cbn. rewrite Em. cbn. apply wp_np_move; [by rewrite (Hm m)..|]. intros m' E'. apply wp_zoom, wp_dict_move; [done|]. intros bad Eb Eb'. cbn in Eb.
    pose proof (Hdict _ _ _ Hbw Eb) as Ebw. sampling_done Em. rewrite Em. eauto.
  - apply wp_ret, wp_zoom, wp_dict_move; [done|]. intros bad Eb Eb'. cbn in Eb. pose proof (Hdict _ _ _ Hbw Eb) as Ebw. sampling_done Em. by rewrite Em.
Qed.

(** ** The data of a row follows its place *)

(** Only the lists of output tokens and of speculative tokens change, and follow [f] on [P]. *)
Record lists_follow (f : nat → nat) (P : nat → Prop) (r r' : Rows) : Prop := {
  lf_outputs : ∀ k, P k → req_output_token_ids r' !! k = req_output_token_ids r !! f k;
  lf_spec : ∀ k, P k → spec_token_ids r' !! k = spec_token_ids r !! f k;
  lf_rest : r' = set_spec_token_ids (spec_token_ids r') (set_req_output_token_ids (req_output_token_ids r') r);
}.
(** A prompt position without a token has its embedding. *)
Definition embeds_ok (r : Rows) (k : nat) : Prop := ¬ Forall (λ f, f = true) (row_prefix (is_token_ids r) r k) → is_Some (req_prompt_embeds r !! k).
(** The row as a part of a batch that is in use *)
Definition row_ok (c : Config) (r : Rows) (k : nat) : Prop :=
  row_length r k ≤ max_model_len c ∧ embeds_ok r k ∧ ∃ o, req_output_token_ids r !! k = Some (Some o).

Lemma lists_follow_shape c ls f P r r' : lists_follow f P r r' → rows_shape c ls r → rows_shape c ls r'.
Proof. intros [_ _ ->] []. by constructor. Qed.
Lemma lists_follow_row f P r r' k : lists_follow f P r r' → row_length r' k = row_length r k ∧ embeds_ok r' k = embeds_ok r k.
Proof. intros [_ _ ->]. done. Qed.

Section follows.
Context (c : Config) (ls : list Layout) (f g : nat → nat) (P : nat → Prop) (r0 r r1 r2 : Rows) (k : nat).
Context (Hlists : lists_follow f P r0 r) (Hcommon : common_follows c ls f P r r1) (HP : P k) (Hk : k < max_num_reqs c) (Hshape : rows_shape c ls r0) (Hok : embeds_ok r0 (f k)).

Lemma row_data_common : row_data c r1 k = mkRowData (rd_tokens (row_data c r0 (f k))) (rd_embeds (row_data c r0 (f k)))
  ((λ col, icols r1 col !! k) <$> icols_used c) ((λ col, fcols r0 col !! k) <$> fcols_used c) (rd_blocks (row_data c r0 (f k)))
  (if is_pooling_model c then None else generators r0 !! k) (if is_pooling_model c then None else bad_words r0 !! k) (rd_output (row_data c r0 (f k))) (rd_spec (row_data c r0 (f k))).
Proof using Hlists Hcommon HP Hk Hok.
  destruct Hlists as [Lo Ls Lr], Hcommon as [_ _ _ Ht Hf He Hb (E1 & E2 & E3 & E4 & E5 & E6 & E7)]. unfold row_data. cbn.
  rewrite (Ht k HP Hk), (Hf k HP Hk), Hb, E1, E2, E4, E6, E7, (Lo k HP), (Ls k HP).
  assert (∀ k, row_prefix (is_token_ids r) r k = row_prefix (is_token_ids r0) r0 k) as Ep by (intros; by rewrite Lr).
  assert (∀ k, row_prefix (token_ids_cpu r) r k = row_prefix (token_ids_cpu r0) r0 k) as Et by (intros; by rewrite Lr).
  rewrite !Ep, !Et. replace (fcols r) with (fcols r0) by (by rewrite Lr). replace (block_table r) with (block_table r0) by (by rewrite Lr).
  replace (generators r) with (generators r0) by (by rewrite Lr). replace (bad_words r) with (bad_words r0) by (by rewrite Lr). f_equal.
  case_decide as Ed; [done|]. unfold embeds_ok in Hok. assert (req_prompt_embeds r = req_prompt_embeds r0) as Ee by (by rewrite Lr). rewrite He by (auto; rewrite Ee; auto). by rewrite Ee.
Qed.

Lemma common_ints : (λ col, icols r1 col !! k) <$> common_icols = (λ col, icols r0 col !! f k) <$> common_icols.
Proof using Hlists Hcommon Hshape Hk.
  apply list_fmap_ext. intros i col Hcol%list_elem_of_lookup_2. destruct Hlists as [_ _ Lr]. replace (icols r0) with (icols r) by (by rewrite Lr).
  eapply rearranged_lookup; [by apply (cf_icols _ _ _ _ _ _ Hcommon)| |exact Hk]. replace (icols r) with (icols r0) by (by rewrite Lr). apply Hshape.
Qed.

(** Pooling models *)
Lemma row_data_pooling : is_pooling_model c = true → row_data c r1 k = row_data c r0 (f k).
Proof using All.
  intros Hp. rewrite row_data_common. unfold icols_used, fcols_used. rewrite Hp, app_nil_r, common_ints. unfold row_data, icols_used, fcols_used. by rewrite Hp, app_nil_r.
Qed.

(** Generative models *)
Lemma row_data_sampling : is_pooling_model c = false → sampling_follows c ls f g P r1 r2 → row_data c r2 k = row_data c r0 (f k).
Proof using All.
  intros Hp [Hs Hi Hio Hf Hg Hb _ _ (E1 & E2 & E3 & E4 & E5 & E6 & E7)]. pose proof row_data_common as E.
  assert (row_length r2 k = row_length r1 k) as El by (unfold row_length; by rewrite Hio by (unfold sampling_icols; set_solver)).
  assert (∀ A (t : list (list A)), row_prefix t r2 k = row_prefix t r1 k) as Ep by (intros; unfold row_prefix; by rewrite El).
  destruct Hlists as [_ _ Lr]. pose proof (cf_rest _ _ _ _ _ _ Hcommon) as (F1 & F2 & F3 & F4 & _). pose proof common_ints as Ei.
  pose proof (f_equal rd_tokens E) as T1. pose proof (f_equal rd_embeds E) as T2. pose proof (f_equal rd_blocks E) as T3. pose proof (f_equal rd_output E) as T4. pose proof (f_equal rd_spec E) as T5.
  unfold row_data in *. cbn in T1, T2, T3, T4, T5. rewrite !Ep, E1, E2, E3, E4, E6, E7, T1, T2, T3, T4, T5. unfold icols_used, fcols_used. rewrite Hp.
  f_equal.
  - rewrite !fmap_app, <-Ei. f_equal; [apply list_fmap_ext; intros i col Hcol%list_elem_of_lookup_2; by rewrite Hio by (revert Hcol; unfold common_icols, sampling_icols; set_solver)|].
    apply list_fmap_ext. intros i col Hcol%list_elem_of_lookup_2. replace (icols r0 col) with (icols r col) by (by rewrite Lr).
    rewrite <-(cf_icols_other _ _ _ _ _ _ Hcommon col) by (revert Hcol; unfold common_icols, sampling_icols; set_solver).
    eapply rearranged_lookup; [by apply Hi|apply (cf_shape _ _ _ _ _ _ Hcommon)|done].
  - apply list_fmap_ext. intros i col _. replace (fcols r0) with (fcols r1) by (by rewrite F1, Lr). eapply rearranged_lookup; [apply Hf|apply (cf_shape _ _ _ _ _ _ Hcommon)|done].
  - rewrite (Hg k HP), F2. by rewrite Lr.
  - rewrite (Hb k HP), F4. by rewrite Lr.
Qed.
End follows.

(** All attributes follow [f] on the rows in [P]. *)
Record rows_follow (c : Config) (ls : list Layout) (f g : nat → nat) (P : nat → Prop) (r r' : Rows) : Prop := {
  rf_shape : rows_shape c ls r';
  rf_data : ∀ k, P k → k < max_num_reqs c → embeds_ok r (f k) → row_data c r' k = row_data c r (f k);
  rf_ok : ∀ k, P k → k < max_num_reqs c → row_ok c r (f k) → row_ok c r' k;
  rf_lora : ∀ k, k < max_num_reqs c → icols r' request_lora_mapping !! k = icols r request_lora_mapping !! f k;
  rf_dicts : if is_pooling_model c then generators r' = generators r ∧ bad_words r' = bad_words r
    else ∀ k, (P k → generators r' !! k = generators r !! f k ∧ bad_words r' !! k = bad_words r !! f k) ∧ (¬ P k → generators r' !! k = None ∧ bad_words r' !! k = None);
  rf_mask : match allowed_mask r with
    | None => allowed_mask r' = None
    | Some m => ∃ m', allowed_mask r' = Some m' ∧ if is_pooling_model c then m' = m else rearranged g m m'
    end;
  rf_needs : needs_token_ids r' = needs_token_ids r;
}.

Lemma row_ok_data c r r' k k' : row_data c r' k' = row_data c r k → row_length r' k' = row_length r k → row_prefix (is_token_ids r') r' k' = row_prefix (is_token_ids r) r k →
  row_ok c r k → row_ok c r' k'.
Proof.
  intros E El Ef (H1 & H2 & o & H3). split_and!; [by rewrite El| |].
  - intros Hf. pose proof (f_equal rd_embeds E) as Ee. unfold row_data in Ee. cbn in Ee. rewrite Ef in *. rewrite !decide_False in Ee by done. rewrite Ee. by apply H2.
  - exists o. pose proof (f_equal rd_output E) as Eo. cbn in Eo. by rewrite Eo.
Qed.

Lemma rows_follow_intro c ls f g P r0 r r1 r2 : rows_shape c ls r0 → lists_follow f P r0 r → common_follows c ls f P r r1 →
  (if is_pooling_model c then r2 = r1 else sampling_follows c ls f g P r1 r2) →
  rows_follow c ls f g P r0 r2 ∧ req_output_token_ids r2 = req_output_token_ids r ∧ spec_token_ids r2 = spec_token_ids r.
Proof.
  intros Hs Hl Hc H. pose proof (lf_rest _ _ _ _ Hl) as Lr. pose proof (cf_rest _ _ _ _ _ _ Hc) as (F1 & F2 & F3 & F4 & F5 & F6 & F7). pose proof (lists_follow_shape _ _ _ _ _ _ Hl Hs) as Hsr.
  assert (∀ k, P k → k < max_num_reqs c → embeds_ok r0 (f k) → row_data c r2 k = row_data c r0 (f k)) as Hdata.
  { intros k HP Hk Hok. destruct (is_pooling_model c) eqn:Ep; [subst r2; by eapply row_data_pooling|by eapply row_data_sampling]. }
  assert (∀ k, k < max_num_reqs c → ∀ col, col ∈ common_icols → icols r1 col !! k = icols r0 col !! f k) as Hcols.
  { intros k Hk col Hcol. replace (icols r0) with (icols r) by (by rewrite Lr). eapply rearranged_lookup; [by apply (cf_icols _ _ _ _ _ _ Hc)|apply Hsr|done]. }
  assert (∀ col, col ∈ common_icols → icols r2 col = icols r1 col) as E21.
  { intros col Hcol. destruct (is_pooling_model c); [by subst|]. apply (sf_icols_other _ _ _ _ _ _ _ H). revert Hcol. unfold common_icols, sampling_icols. set_solver. }
  assert (is_token_ids r2 = is_token_ids r1 ∧ req_output_token_ids r2 = req_output_token_ids r ∧ spec_token_ids r2 = spec_token_ids r ∧ needs_token_ids r2 = needs_token_ids r) as (G1 & G2 & G3 & G4).
  { destruct (is_pooling_model c); [by subst|]. destruct (sf_rest _ _ _ _ _ _ _ H) as (_ & K2 & _ & _ & K5 & K6 & K7). split_and!; congruence. }
  split; [|done]. constructor; [| done| | | | |].
  - destruct (is_pooling_model c); [subst; apply Hc|apply H].
  - intros k HP Hk Hok. assert (row_length r2 k = row_length r0 (f k)) as El.
    { unfold row_length. rewrite E21, Hcols by (done || unfold common_icols; set_solver). done. }
    eapply row_ok_data; [by apply Hdata; [..|apply Hok]|done| |done].
    assert (row_length r1 k = row_length r0 (f k)) as El1 by (unfold row_length; rewrite Hcols by (done || unfold common_icols; set_solver); done).
    pose proof (cf_flags _ _ _ _ _ _ Hc k HP Hk) as Ef. rewrite G1. unfold row_prefix in *. rewrite El, El1 in *. rewrite Ef. by rewrite Lr.
  - intros k Hk. rewrite E21, Hcols by (done || unfold common_icols; set_solver). done.
  - destruct (is_pooling_model c) eqn:Ep; [subst r2; rewrite F2, F4; by rewrite Lr|]. intros k. split; [|apply (sf_vacated _ _ _ _ _ _ _ H)]. intros HP.
    rewrite (sf_generators _ _ _ _ _ _ _ H k HP), (sf_bad_words _ _ _ _ _ _ _ H k HP), F2, F4. by rewrite Lr.
  - assert (allowed_mask r1 = allowed_mask r0) as Em by (rewrite F3; by rewrite Lr). destruct (is_pooling_model c); [subst r2; rewrite Em; by destruct (allowed_mask r0) as [m|]; [exists m|]|].
    pose proof (sf_mask _ _ _ _ _ _ _ H) as Hm. by rewrite Em in Hm.
  - rewrite G4. by rewrite Lr.
Qed.

(** ** The invariant of the batch *)

(** The adapter of a request, by its row *)
Definition lora_of (b : InputBatch) (id : string) : option Z := req_id_to_index b !! id ≫= λ k, icols (rows b) request_lora_mapping !! k.
(** The sets of requests by adapter are those of the rows. *)
Definition lora_ok (lo : string → option Z) (s : ById) : Prop := ∀ l,
  match lora_id_to_request_ids s !! l with
  | Some ids => l ≠ 0%Z ∧ ids ≠ ∅ ∧ is_Some (lora_id_to_lora_request s !! l) ∧ ∀ id, id ∈ ids ↔ lo id = Some l
  | None => l ≠ 0%Z → ∀ id, lo id ≠ Some l
  end.
Definition occupied (b : InputBatch) (k : nat) : Prop := ∃ id, _req_ids b !! k = Some (Some id).

Record batch_inv (c : Config) (ls : list Layout) (b : InputBatch) : Prop := {
  bi_config : config b = c;
  bi_rows : rows_shape c ls (rows b);
  bi_bound : length (_req_ids b) ≤ max_num_reqs c;
  bi_outputs : length (req_output_token_ids (rows b)) = length (_req_ids b);
  bi_specs : length (_req_ids b) ≤ length (spec_token_ids (rows b));
  bi_index : ∀ id k, req_id_to_index b !! id = Some k ↔ _req_ids b !! k = Some (Some id);
  bi_builder : builder_ok (builder b);
  bi_occupied : ∀ k, occupied b k → row_ok c (rows b) k;
  bi_free : ∀ k, ¬ occupied b k → generators (rows b) !! k = None ∧ bad_words (rows b) !! k = None ∧ default [] (spec_token_ids (rows b) !! k) = [];
  bi_pooling : is_pooling_model c = true → generators (rows b) = ∅ ∧ bad_words (rows b) = ∅;
  bi_lora : lora_ok (lora_of b) (by_id b);
}.

Lemma occupied_lt b k : occupied b k → k < length (_req_ids b).
Proof. intros [id H]. by eapply lookup_lt_Some. Qed.
#[export] Instance occupied_dec b k : Decision (occupied b k).
Proof.
  destruct (_req_ids b !! k) as [[id|]|] eqn:E; [left; by exists id|right|right]; intros [id' E']; congruence.
Defined.
Lemma lora_ok_ext lo lo' s : (∀ id, lo id = lo' id) → lora_ok lo s → lora_ok lo' s.
Proof.
  intros Hlo H l. specialize (H l). destruct (_ !! l); [|intros Hl id; rewrite <-Hlo; auto]. destruct H as (? & ? & ? & H). split_and!; [done..|]. intros id. by rewrite H, Hlo.
Qed.

(** What a batch operation on rows leaves alone *)
Definition same_rest (b b' : InputBatch) : Prop :=
  config b' = config b ∧ by_id b' = by_id b ∧ logitsprocs b' = logitsprocs b ∧ device b' = device b ∧ sampling_metadata b' = sampling_metadata b ∧ out_heap b' = out_heap b ∧
  prev_req_id_to_index b' = prev_req_id_to_index b ∧ sampled_token_ids_cpu b' = sampled_token_ids_cpu b.

(** The result of an exchange *)
Record swapped (c : Config) (ls : list Layout) (i1 i2 : nat) (b b' : InputBatch) : Prop := {
  sw_ids : rearranged (swap_ix i1 i2) (_req_ids b) (_req_ids b');
  sw_index : ∀ id, req_id_to_index b' !! id = swap_ix i1 i2 <$> req_id_to_index b !! id;
  sw_outputs : rearranged (swap_ix i1 i2) (req_output_token_ids (rows b)) (req_output_token_ids (rows b'));
  sw_specs : rearranged (swap_ix i1 i2) (spec_token_ids (rows b)) (spec_token_ids (rows b'));
  sw_rows : rows_follow c ls (swap_ix i1 i2) (move_ix i2 i1) (λ _, True) (rows b) (rows b');
  sw_builder : builder b' = if is_pooling_model c then builder b else Builder.set_moved (Builder.moved (builder b) ++ [(i1, i2, SWAP)]) (builder b);
  sw_rest : same_rest b b';
}.

Lemma swap_ix_outside i1 i2 k n : i1 < n → i2 < n → n ≤ k → swap_ix i1 i2 k = k.
Proof. intros. unfold swap_ix. repeat case_decide; lia. Qed.
Lemma rearranged_swap_all {A} i1 i2 (l l' : list A) k : rearranged (swap_ix i1 i2) l l' → i1 < length l → i2 < length l → l' !! k = l !! swap_ix i1 i2 k.
Proof.
  intros [Hl H] H1 H2. destruct (decide (k < length l)); [by apply H|]. rewrite (swap_ix_outside i1 i2 k (length l)) by lia. rewrite !lookup_ge_None_2 by lia. done.
Qed.

Lemma swap_ids_spec c ls i1 i2 b : batch_inv c ls b → occupied b i1 → occupied b i2 → wp (swap_ids i1 i2) b (λ _ b',
  rearranged (swap_ix i1 i2) (_req_ids b) (_req_ids b') ∧ (∀ id, req_id_to_index b' !! id = swap_ix i1 i2 <$> req_id_to_index b !! id) ∧
  rearranged (swap_ix i1 i2) (req_output_token_ids (rows b)) (req_output_token_ids (rows b')) ∧
  rearranged (swap_ix i1 i2) (spec_token_ids (rows b)) (spec_token_ids (rows b')) ∧
  rows b' = set_spec_token_ids (spec_token_ids (rows b')) (set_req_output_token_ids (req_output_token_ids (rows b')) (rows b)) ∧
  builder b' = builder b ∧ same_rest b b').
Proof.
  intros H [id1 H1] [id2 H2]. pose proof (lookup_lt_Some _ _ _ H1) as L1. pose proof (lookup_lt_Some _ _ _ H2) as L2.
  pose proof (proj2 (bi_index _ _ _ H id1 i1) H1) as X1. pose proof (proj2 (bi_index _ _ _ H id2 i2) H2) as X2.
  pose proof (bi_outputs _ _ _ H) as Lo. pose proof (bi_specs _ _ _ H) as Lsp.
  unfold swap_ids. apply wp_bind, wp_gets, wp_bind. eapply wp_index; [exact H1|]. apply wp_bind. eapply wp_index; [exact H2|].
  apply wp_bind, wp_zoom, wp_np_swap; [done..|]. intros ids Eids. apply wp_bind, wp_zoom, wp_zoom, wp_np_swap; [cbn; lia..|]. intros outs Eouts. cbn in Eouts.
  apply wp_bind, wp_zoom, wp_zoom, wp_np_swap; [cbn; lia..|]. intros specs Especs. cbn in Especs. rewrite X1, X2. apply wp_zoom, wp_modify. cbn. split_and!; [done| |done..].
  intros id. destruct (decide (id = id2)) as [->|N2]; [rewrite lookup_insert_eq, X2; cbn; f_equal; unfold swap_ix; repeat case_decide; congruence|].
  rewrite lookup_insert_ne by done. destruct (decide (id = id1)) as [->|N1]; [rewrite lookup_insert_eq, X1; cbn; f_equal; unfold swap_ix; repeat case_decide; congruence|].
  rewrite lookup_insert_ne by done. destruct (req_id_to_index b !! id) as [k|] eqn:E; [|done]. cbn. f_equal. apply (bi_index _ _ _ H) in E. unfold swap_ix. repeat case_decide; congruence.
Qed.

Lemma swap_states_spec c ls i1 i2 b : batch_inv c ls b → occupied b i1 → occupied b i2 → wp (swap_states i1 i2) b (λ _ b', swapped c ls i1 i2 b b').
Proof.
  intros H H1 H2. pose proof (occupied_lt _ _ H1) as L1. pose proof (occupied_lt _ _ H2) as L2. pose proof (bi_bound _ _ _ H) as Lb. pose proof (bi_rows _ _ _ H) as Hr.
  unfold swap_states. apply wp_bind. eapply wp_mono; [by eapply swap_ids_spec|]. intros _ b1 (E1 & E2 & E3 & E4 & E5 & E6 & E7).
  assert (lists_follow (swap_ix i1 i2) (λ _, True) (rows b) (rows b1)) as Hl.
  { pose proof (bi_outputs _ _ _ H). pose proof (bi_specs _ _ _ H). constructor; [intros k _; apply rearranged_swap_all; [done|lia..]..|done]. }
  apply wp_bind, wp_zoom. eapply wp_mono; [apply (swap_common_spec c ls); [by eapply lists_follow_shape|lia..]|]. intros [] r1 Hr1. apply wp_bind, wp_gets. cbn.
  replace (config b1) with c by (destruct E7 as (-> & _); symmetry; apply H). destruct (is_pooling_model c) eqn:Ep.
  - apply wp_ret. pose proof (rows_follow_intro c ls _ (move_ix i2 i1) _ _ _ _ r1 Hr Hl Hr1) as Hf. rewrite Ep in Hf. destruct (Hf eq_refl) as (Hf' & Eo & Es). constructor; cbn; rewrite ?Ep, ?Eo, ?Es; done.
  - apply wp_bind, wp_zoom, wp_modify, wp_zoom. cbn. eapply wp_mono; [apply (swap_sampling_spec c ls); [apply Hr1|lia..]|]. intros [] r2 Hr2.
    pose proof (rows_follow_intro c ls _ (move_ix i2 i1) _ _ _ _ r2 Hr Hl Hr1) as Hf. rewrite Ep in Hf. destruct (Hf Hr2) as (Hf' & Eo & Es). constructor; cbn; rewrite ?Ep, ?Eo, ?Es, ?E6; done.
Qed.

Lemma swapped_inv c ls i1 i2 b b' : batch_inv c ls b → occupied b i1 → occupied b i2 → swapped c ls i1 i2 b b' → batch_inv c ls b'.
Proof.
  intros H H1 H2 [Ei Ex Eo Es Ef Eb (R1 & R2 & _)]. pose proof (occupied_lt _ _ H1) as L1. pose proof (occupied_lt _ _ H2) as L2. destruct H as [Hc Hr Hlen Ho Hs Hix Hb Hocc Hfree Hpool Hlo].
  assert (∀ k, _req_ids b' !! k = _req_ids b !! swap_ix i1 i2 k) as Eids by (intros; by apply rearranged_swap_all).
  assert (∀ k, occupied b' k ↔ occupied b (swap_ix i1 i2 k)) as Eocc by (intros k; unfold occupied; by rewrite Eids).
  constructor; [congruence|apply Ef|..].
  - destruct Ei as [-> _]. done.
  - destruct Ei as [-> _], Eo as [-> _]. done.
  - destruct Ei as [-> _], Es as [-> _]. done.
  - intros id k. rewrite Ex, Eids, <-Hix. destruct (req_id_to_index b !! id) as [j|]; cbn; [|done]. split; [intros [= <-]; by rewrite swap_ix_involutive|]. intros [= ->]. by rewrite swap_ix_involutive.
  - rewrite Eb. destruct (is_pooling_model c); done.
  - intros k Hk. apply (rf_ok _ _ _ _ _ _ _ Ef); [done| |by apply Hocc, Eocc]. apply occupied_lt in Hk. destruct Ei as [Hl _]. lia.
  - intros k Hk. destruct (Hfree (swap_ix i1 i2 k)) as (F1 & F2 & F3); [by rewrite <-Eocc|]. rewrite (rearranged_swap_all i1 i2 _ _ k Es) by lia. pose proof (rf_dicts _ _ _ _ _ _ _ Ef) as Hd.
    destruct (is_pooling_model c) eqn:Ep; [destruct Hd as [-> ->], (Hpool eq_refl) as [-> ->]; by rewrite !lookup_empty|]. destruct (Hd k) as [[-> ->] _]; done.
  - intros Hp. pose proof (rf_dicts _ _ _ _ _ _ _ Ef) as Hd. rewrite Hp in Hd. destruct Hd as [-> ->]. by apply Hpool.
  - rewrite R2. eapply lora_ok_ext; [|exact Hlo]. intros id. unfold lora_of. rewrite Ex. destruct (req_id_to_index b !! id) as [k|] eqn:E; [|done]. cbn. apply Hix in E. pose proof (lookup_lt_Some _ _ _ E).
    rewrite (rf_lora _ _ _ _ _ _ _ Ef); [by rewrite swap_ix_involutive|]. apply swap_ix_lt; lia.
Qed.

(** ** The move of a request *)
Record request_moved (c : Config) (ls : list Layout) (last empty : nat) (id : string) (b b' : InputBatch) : Prop := {
  rm_ids : _req_ids b' = <[last := None]> (<[empty := Some id]> (_req_ids b));
  rm_index : req_id_to_index b' = <[id := empty]> (req_id_to_index b);
  rm_outputs : length (req_output_token_ids (rows b')) = length (req_output_token_ids (rows b));
  rm_specs : length (spec_token_ids (rows b')) = length (spec_token_ids (rows b)) ∧ spec_token_ids (rows b') !! last = Some [] ∧
    ∀ k, k ≠ last → spec_token_ids (rows b') !! k = spec_token_ids (rows b) !! move_ix last empty k;
  rm_rows : rows_follow c ls (move_ix last empty) (move_ix last empty) (λ k, k ≠ last) (rows b) (rows b');
  rm_removed : Builder._removed (builder b) ≡ₚ empty :: Builder._removed (builder b');
  rm_builder : builder_ok (builder b') ∧ Builder._is_removed_sorted (builder b') = true ∧ Builder.added (builder b') = Builder.added (builder b) ∧
    Builder.moved (builder b') = Builder.moved (builder b) ++ if is_pooling_model c then [] else [(last, empty, UNIDIRECTIONAL)];
  rm_rest : same_rest b b';
}.

Lemma wp_list_clear i (l : list (list Z)) (Q : () → list (list Z) → Prop) : i < length l → Q () (<[i := []]> l) → wp (list_clear i) l Q.
Proof. intros Hi HQ. destruct (lookup_lt_is_Some_2 l i Hi) as [x Hx]. unfold list_clear. apply wp_bind, wp_gets, wp_bind. eapply wp_index; [done|]. by apply wp_np_set. Qed.

Lemma move_ids_spec c ls last empty id b : batch_inv c ls b → _req_ids b !! last = Some (Some id) → empty < last → wp (move_ids last empty) b (λ _ b',
  _req_ids b' = <[last := None]> (<[empty := Some id]> (_req_ids b)) ∧ req_id_to_index b' = <[id := empty]> (req_id_to_index b) ∧
  length (req_output_token_ids (rows b')) = length (req_output_token_ids (rows b)) ∧
  (length (spec_token_ids (rows b')) = length (spec_token_ids (rows b)) ∧ spec_token_ids (rows b') !! last = Some []) ∧
  lists_follow (move_ix last empty) (λ k, k ≠ last) (rows b) (rows b') ∧ builder b' = builder b ∧ same_rest b b').
Proof.
  intros H Hid Hlt. pose proof (lookup_lt_Some _ _ _ Hid) as Hl. pose proof (bi_outputs _ _ _ H) as Lo. pose proof (bi_specs _ _ _ H) as Ls.
  destruct (lookup_lt_is_Some_2 (req_output_token_ids (rows b)) last) as [out Ho]; [lia|]. unfold move_ids. apply wp_bind, wp_gets, wp_bind. eapply wp_index; [exact Hid|].
  apply wp_bind. eapply wp_index; [exact Ho|]. cbn. apply wp_bind, wp_zoom, wp_np_set; [lia|]. apply wp_bind, wp_zoom, wp_np_set; [cbn; rewrite length_insert; lia|].
  apply wp_bind, wp_zoom, wp_zoom, wp_np_set; [cbn; lia|]. apply wp_bind, wp_zoom, wp_zoom, wp_np_set; [cbn; rewrite length_insert; lia|]. apply wp_bind, wp_zoom, wp_modify.
  rewrite decide_True by lia. apply wp_bind, wp_zoom, wp_zoom, wp_np_swap; [cbn; lia..|]. intros sp Esp. cbn in Esp. destruct Esp as [Lsp Esp].
  apply wp_zoom, wp_zoom, wp_list_clear; [cbn; lia|]. cbn. split_and!; [done|done|by rewrite !length_insert|by rewrite length_insert, Lsp|by rewrite list_lookup_insert_eq by lia| |done|done].
  constructor; cbn; [| |done].
  - intros k Hk. rewrite list_lookup_insert_ne by done. unfold move_ix. case_decide; [subst; by rewrite list_lookup_insert_eq by lia|by rewrite list_lookup_insert_ne].
  - intros k Hk. rewrite list_lookup_insert_ne by done. destruct (decide (k < length (spec_token_ids (rows b)))).
    + rewrite Esp by done. f_equal. unfold swap_ix, move_ix. repeat case_decide; congruence.
    + unfold move_ix. rewrite decide_False by lia. by rewrite !lookup_ge_None_2 by lia.
Qed.

Lemma move_request_spec c ls last empty id b : batch_inv c ls b → _req_ids b !! last = Some (Some id) → ¬ occupied b empty → empty < last →
  empty ∈ Builder._removed (builder b) → (∀ j, j ∈ Builder._removed (builder b) → empty ≤ j) →
  wp (move_request last empty) b (λ _ b', request_moved c ls last empty id b b').
Proof.
  intros H Hid Hfree Hlt Hin Hmin. pose proof (lookup_lt_Some _ _ _ Hid) as Hl. pose proof (bi_bound _ _ _ H) as Lb. pose proof (bi_rows _ _ _ H) as Hr.
  destruct (bi_free _ _ _ H empty Hfree) as (Hg & Hbw & _). destruct (bi_occupied _ _ _ H last) as (Hlen & _); [by exists id|].
  unfold move_request. apply wp_bind, wp_zoom. eapply wp_mono; [apply pop_removed_spec, H|]. intros [i|] u; [|intros (_ & _ & _ & E & _); rewrite E in Hin; by apply not_elem_of_nil in Hin].
  intros (Hu & Ua & Um & Hperm & Hlow & Hs). assert (i = empty) as -> by (apply Nat.le_antisymm; [by apply Hlow|]; apply Hmin; rewrite Hperm; left).
  assert (batch_inv c ls (set_builder u b)) as Hb1 by (destruct H; by constructor).
  apply wp_bind. eapply wp_mono; [apply (move_ids_spec c ls last empty id); [exact Hb1|done|done]|]. intros _ b1 (E1 & E2 & E3 & [E4 E5] & Hlf & E6 & E7). cbn in *.
  apply wp_bind, wp_zoom. eapply wp_mono.
  { apply (move_common_spec c ls); [by eapply lists_follow_shape|lia..|]. by rewrite (proj1 (lists_follow_row _ _ _ _ last Hlf)). }
  intros [] r1 Hr1. apply wp_bind, wp_gets. cbn. replace (config b1) with c by (destruct E7 as (-> & _); symmetry; apply H). pose proof (cf_rest _ _ _ _ _ _ Hr1) as (_ & Fg & _ & Fb & _).
  assert (generators (rows b1) = generators (rows b) ∧ bad_words (rows b1) = bad_words (rows b)) as [Gg Gb] by (by rewrite (lf_rest _ _ _ _ Hlf)).
  assert (∀ r2, (if is_pooling_model c then r2 = r1 else sampling_follows c ls (move_ix last empty) (move_ix last empty) (λ k, k ≠ last) r1 r2) → ∀ bd, Builder._removed bd = Builder._removed u →
     builder_ok bd → Builder._is_removed_sorted bd = true → Builder.added bd = Builder.added u → Builder.moved bd = Builder.moved u ++ (if is_pooling_model c then [] else [(last, empty, UNIDIRECTIONAL)]) →
     request_moved c ls last empty id b (set_rows r2 (set_builder bd b1))) as Hgoal.
  { intros r2 Hr2 bd B1 B2 B3 B4 B5. destruct (rows_follow_intro c ls _ _ _ _ _ _ r2 Hr Hlf Hr1 Hr2) as (Hf & Fo & Fs).
    constructor; cbn; rewrite ?Fo, ?Fs, ?B1; [done|done|done| |done|done| |done]; [|split_and!; [done|done|congruence|congruence]].
    split_and!; [done..|]. intros k Hk. by apply (lf_spec _ _ _ _ Hlf). }
  destruct (is_pooling_model c) eqn:Ep.
  - apply wp_ret. specialize (Hgoal r1 eq_refl u). rewrite app_nil_r in Hgoal. assert (set_rows r1 b1 = set_rows r1 (set_builder u b1)) as -> by (rewrite <-E6; by destruct b1). by apply Hgoal.
  - apply wp_bind, wp_zoom, wp_modify, wp_zoom. cbn. rewrite E6. eapply wp_mono; [apply (move_sampling_spec c ls); [apply Hr1|lia..|congruence|congruence]|]. intros [] r2 Hr2. by apply Hgoal.
Qed.

Lemma moved_occupied c ls last empty id b b' : request_moved c ls last empty id b b' → empty < last → last < length (_req_ids b) →
  ∀ k, _req_ids b' !! k = if decide (k = last) then Some None else if decide (k = empty) then Some (Some id) else _req_ids b !! k.
Proof.
  intros [E] H1 H2 k. rewrite E. destruct (decide (k = last)) as [->|]; [apply list_lookup_insert_eq; rewrite length_insert; lia|]. rewrite list_lookup_insert_ne by done.
  destruct (decide (k = empty)) as [->|]; [apply list_lookup_insert_eq; lia|by rewrite list_lookup_insert_ne].
Qed.

(** The place of a request after the move *)
Lemma moved_index c ls last empty id b b' : batch_inv c ls b → _req_ids b !! last = Some (Some id) → request_moved c ls last empty id b b' →
  ∀ id' k, req_id_to_index b !! id' = Some k → req_id_to_index b' !! id' = Some (if decide (k = last) then empty else k).
Proof.
  intros H Hid Hm id' k Hk. rewrite (rm_index _ _ _ _ _ _ _ Hm). destruct (decide (id' = id)) as [->|N].
  - rewrite lookup_insert_eq. apply (bi_index _ _ _ H) in Hid. rewrite decide_True by congruence. done.
  - rewrite lookup_insert_ne by done. rewrite decide_False; [done|]. intros ->. apply (bi_index _ _ _ H) in Hk. congruence.
Qed.

Lemma moved_inv c ls last empty id b b' : batch_inv c ls b → _req_ids b !! last = Some (Some id) → _req_ids b !! empty = Some None → empty < last →
  request_moved c ls last empty id b b' → batch_inv c ls b'.
Proof.
  intros H Hid Hemp Hlt Hm. pose proof (lookup_lt_Some _ _ _ Hid) as Hl. pose proof (moved_occupied _ _ _ _ _ _ _ Hm Hlt Hl) as Eids. pose proof (moved_index _ _ _ _ _ _ _ H Hid Hm) as Eix.
  destruct Hm as [Ei Ex Eo (Es1 & Es2 & Es3) Ef Er (Eb & _) (R1 & R2 & _)]. pose proof H as [Hc Hr Hlen Ho Hs Hix Hb Hocc Hfree Hpool Hlo].
  assert (length (_req_ids b') = length (_req_ids b)) as El by (by rewrite Ei, !length_insert).
  assert (∀ k, k ≠ last → occupied b' k → occupied b (move_ix last empty k)) as Hocc1.
  { intros k Hk [i Hi]. rewrite Eids, decide_False in Hi by done. unfold move_ix. case_decide; [by exists id|by exists i]. }
  assert (∀ k, k ≠ last → ¬ occupied b' k → k ≠ empty ∧ ¬ occupied b k) as Hfree1.
  { intros k Hk Hn. assert (k ≠ empty) as N by (intros ->; apply Hn; exists id; rewrite Eids, decide_False, decide_True by (done || lia); done). split; [done|]. intros [i Hi]. apply Hn. exists i. by rewrite Eids, !decide_False. }
  constructor; [congruence|apply Ef|lia|lia|lia| |done| | | |].
  - intros i k. rewrite Eids. destruct (decide (i = id)) as [->|N].
    + rewrite Ex, lookup_insert_eq. apply Hix in Hid as Hid'. repeat case_decide; subst; split; try congruence; intros E; try (injection E as ->; lia || done); try (apply Hix in E; congruence).
    + rewrite Ex, lookup_insert_ne by done. rewrite Hix. repeat case_decide; subst; split; congruence.
  - intros k Hk. assert (k ≠ last) as N by (intros ->; destruct Hk as [i Hi]; rewrite Eids, decide_True in Hi by done; done).
    apply (rf_ok _ _ _ _ _ _ _ Ef); [done| |by apply Hocc, Hocc1]. apply occupied_lt in Hk. lia.
  - intros k Hk. pose proof (rf_dicts _ _ _ _ _ _ _ Ef) as Hd. destruct (decide (k = last)) as [->|N].
    + rewrite Es2. destruct (is_pooling_model c) eqn:Ep; [destruct Hd as [-> ->], (Hpool eq_refl) as [-> ->]; by rewrite !lookup_empty|]. destruct (Hd last) as [_ [-> ->]]; [tauto|done].
    + destruct (Hfree1 k N Hk) as [N2 Hk2]. destruct (Hfree k Hk2) as (F1 & F2 & F3). rewrite Es3 by done. assert (move_ix last empty k = k) as Em by (unfold move_ix; by rewrite decide_False). rewrite Em.
      destruct (is_pooling_model c) eqn:Ep; [destruct Hd as [-> ->], (Hpool eq_refl) as [-> ->]; by rewrite !lookup_empty|]. destruct (Hd k) as [[-> ->] _]; [done|]. by rewrite Em.
  - intros Hp. pose proof (rf_dicts _ _ _ _ _ _ _ Ef) as Hd. rewrite Hp in Hd. destruct Hd as [-> ->]. by apply Hpool.
  - rewrite R2. eapply lora_ok_ext; [|exact Hlo]. intros i. unfold lora_of. destruct (req_id_to_index b !! i) as [k|] eqn:E; cbn.
    + rewrite (Eix _ _ E). cbn. apply Hix in E. pose proof (lookup_lt_Some _ _ _ E). rewrite (rf_lora _ _ _ _ _ _ _ Ef) by (case_decide; lia). f_equal. unfold move_ix. repeat case_decide; congruence.
    + rewrite Ex. rewrite lookup_insert_ne; [by rewrite E|]. intros ->. apply Hix in Hid. congruence.
Qed.

(** ** Condensing *)

(** All requests keep their data; their ids are those before. *)
Record keeps_requests (c : Config) (b b' : InputBatch) : Prop := {
  kr_dom : dom (req_id_to_index b') = dom (req_id_to_index b);
  kr_data : ∀ id k k', req_id_to_index b !! id = Some k → req_id_to_index b' !! id = Some k' → row_data c (rows b') k' = row_data c (rows b) k;
  kr_rest : same_rest b b';
}.
#[export] Instance same_rest_preorder : PreOrder same_rest.
Proof. split; [done|]. intros b1 b2 b3 (?&?&?&?&?&?&?&?) (?&?&?&?&?&?&?&?). split_and!; congruence. Qed.
#[export] Instance keeps_requests_preorder c : PreOrder (keeps_requests c).
Proof.
  split; [split; [done|intros id k k' ? ?; by replace k' with k by congruence|done]|]. intros b1 b2 b3 [D1 K1 R1] [D2 K2 R2]. split; [congruence| |by etransitivity].
  intros id k k' H1 H3. assert (is_Some (req_id_to_index b2 !! id)) as [k2 H2] by (apply elem_of_dom; rewrite D1; apply elem_of_dom; eauto).
  rewrite (K2 _ _ _ H2 H3). eauto.
Qed.

Lemma moved_keeps c ls last empty id b b' : batch_inv c ls b → _req_ids b !! last = Some (Some id) → request_moved c ls last empty id b b' → empty < last → _req_ids b !! empty = Some None → keeps_requests c b b'.
Proof.
  intros H Hid Hm Hlt Hemp. pose proof (bi_index _ _ _ H) as Hix. split; [|intros i k k' H1 H2|apply Hm].
  - rewrite (rm_index _ _ _ _ _ _ _ Hm), dom_insert_L. apply Hix in Hid. assert (id ∈ dom (req_id_to_index b)) by (apply elem_of_dom; eauto). set_solver.
  - rewrite (moved_index _ _ _ _ _ _ _ H Hid Hm _ _ H1) in H2. injection H2 as <-. apply Hix in H1. pose proof (lookup_lt_Some _ _ _ H1). pose proof (bi_bound _ _ _ H).
    assert (move_ix last empty (if decide (k = last) then empty else k) = k) as Em by (unfold move_ix; repeat case_decide; congruence).
    rewrite (rf_data _ _ _ _ _ _ _ (rm_rows _ _ _ _ _ _ _ Hm)); [by rewrite Em|case_decide; lia|case_decide; lia|]. rewrite Em. apply (bi_occupied _ _ _ H). by exists i.
Qed.
Lemma swapped_keeps c ls i1 i2 b b' : batch_inv c ls b → occupied b i1 → occupied b i2 → swapped c ls i1 i2 b b' → keeps_requests c b b'.
Proof.
  intros H H1 H2 Hs. pose proof (bi_bound _ _ _ H). split; [|intros id k k' E E'|apply Hs].
  - apply set_eq. intros id. rewrite !elem_of_dom, (sw_index _ _ _ _ _ _ Hs), fmap_is_Some. done.
  - rewrite (sw_index _ _ _ _ _ _ Hs), E in E'. injection E' as <-. apply (bi_index _ _ _ H) in E. pose proof (lookup_lt_Some _ _ _ E). apply occupied_lt in H1, H2.
    rewrite (rf_data _ _ _ _ _ _ _ (sw_rows _ _ _ _ _ _ Hs)); [by rewrite swap_ix_involutive|done|apply swap_ix_lt; lia|]. rewrite swap_ix_involutive. apply (bi_occupied _ _ _ H). by exists id.
Qed.

(** Which request is in a row *)
Definition slot (b : InputBatch) (k : nat) : option string := _req_ids b !! k ≫= λ x, x.
Lemma slot_Some b k id : slot b k = Some id ↔ _req_ids b !! k = Some (Some id).
Proof. unfold slot. destruct (_req_ids b !! k) as [[i|]|]; cbn; naive_solver. Qed.
Lemma slot_occupied b k : is_Some (slot b k) ↔ occupied b k.
Proof. unfold occupied. split; intros [id H]; exists id; by apply slot_Some. Qed.

(** The batch is dense: its rows are the first [n]. *)
Definition dense (b : InputBatch) (n : nat) : Prop := ∀ k, occupied b k ↔ k < n.

(** The rows in use are the values of the index. *)
Lemma index_values c ls b (l : list nat) : batch_inv c ls b → NoDup l → (∀ k, k ∈ l ↔ occupied b k) → num_reqs b = length l.
Proof.
  intros H Hnd Hl. pose proof (bi_index _ _ _ H) as Hix. unfold num_reqs.
  assert ((map_to_list (req_id_to_index b)).*2 ≡ₚ l) as Hp.
  { apply NoDup_Permutation; [|done|].
    - apply NoDup_fmap_2_strong; [|apply NoDup_map_to_list]. intros [i k] [i' k'] E1%elem_of_map_to_list E2%elem_of_map_to_list E. cbn in E. subst k'.
      apply Hix in E1, E2. congruence.
    - intros k. rewrite Hl, list_elem_of_fmap. split.
      + intros ([i k'] & -> & E%elem_of_map_to_list). exists i. by apply Hix.
      + intros [i E%Hix]. exists (i, k). split; [done|]. by apply elem_of_map_to_list. }
  rewrite <-Hp, length_fmap. symmetry. apply length_map_to_list.
Qed.
Lemma dense_num_reqs c ls b n : batch_inv c ls b → dense b n → num_reqs b = n.
Proof.
  intros H Hd. rewrite (index_values c ls b (seq 0 n)); [apply length_seq|done|apply NoDup_seq|]. intros k. rewrite (Hd k), elem_of_seq. lia.
Qed.

Lemma skip_empty_spec empty : ∀ last, let l := skip_empty empty last in (-1 ≤ l ≤ Z.of_nat last)%Z ∧ (0 ≤ l → Z.to_nat l ∉ empty)%Z ∧ ∀ k, (l < Z.of_nat k)%Z → k ≤ last → k ∈ empty.
Proof.
  intros last. induction last as [|last IH]; cbn; case_decide as E.
  - split_and!; [lia|lia|lia|]. intros k ? ?. by replace k with 0 by lia.
  - split_and!; [lia|lia|done|]. intros k ? ?. lia.
  - destruct IH as (H1 & H2 & H3). split_and!; [lia|lia|done|]. intros k Hk Hl. destruct (decide (k = S last)) as [->|]; [done|]. apply H3; lia.
  - split_and!; [lia|lia| |]; [intros _; by replace (Z.to_nat _) with (S last) by lia|]. intros k ? ?. lia.
Qed.

(** What the rounds of the loop record for the processors: replaying the moves on any state per
    request brings it to the rows where the requests are now.  The rows that were empty before
    may hold anything. *)
Definition replays (ms : list MovedRequest) (b0 b : InputBatch) : Prop := ∀ T (f : string → option T) (v : nat → option T),
  (∀ k, k ∉ Builder._removed (builder b0) → v k = slot b0 k ≫= f) →
  ∀ k, foldl ref_moved v ms k = if decide (k ∈ Builder._removed (builder b)) then v k else slot b k ≫= f.
Lemma replays_nil b0 b : Builder._removed (builder b) ≡ₚ Builder._removed (builder b0) → (∀ k, slot b k = slot b0 k) → replays [] b0 b.
Proof. intros Hp Hs T f v Hv k. cbn. case_decide as E; [done|]. rewrite Hs. apply Hv. by rewrite <-Hp. Qed.
Record condensing (c : Config) (ls : list Layout) (b0 : InputBatch) (last : Z) (b : InputBatch) : Prop := {
  cd_inv : batch_inv c ls b;
  cd_keeps : keeps_requests c b0 b;
  cd_length : length (_req_ids b) = length (_req_ids b0);
  cd_sorted : Builder._is_removed_sorted (builder b) = true;
  cd_nodup : NoDup (Builder._removed (builder b));
  cd_last : (-1 ≤ last < Z.of_nat (length (_req_ids b)))%Z;
  cd_removed : ∀ k, k ∈ Builder._removed (builder b) → k < length (_req_ids b) ∧ k ∈ Builder._removed (builder b0);
  cd_holes : ∀ k, k < length (_req_ids b) → ¬ occupied b k ↔ k ∈ Builder._removed (builder b) ∨ (last < Z.of_nat k)%Z;
  cd_added : Builder.added (builder b) = Builder.added (builder b0);
  cd_moves : ∃ ms, Builder.moved (builder b) = Builder.moved (builder b0) ++ ms ∧ (is_pooling_model c = true → ms = []) ∧
    (is_pooling_model c = false → replays ms b0 b) ∧
    Forall (λ mv : MovedRequest, mv.1.1 < length (_req_ids b) ∧ mv.1.2 < mv.1.1 ∧ mv.2 = UNIDIRECTIONAL ∧ (last < Z.of_nat mv.1.1)%Z) ms;
}.

Lemma condensing_skip c ls b0 last last' b : condensing c ls b0 last b → (-1 ≤ last' ≤ last)%Z → (∀ k, (last' < Z.of_nat k)%Z → (Z.of_nat k ≤ last)%Z → k ∈ Builder._removed (builder b)) →
  condensing c ls b0 last' b.
Proof.
  intros [] Hl Hk. constructor; try done; [lia| |].
  - intros k Hlt. rewrite cd_holes0 by done. split; [intros [?|?]; [by left|right; lia]|]. intros [?|?]; [by left|].
    destruct (decide (last < Z.of_nat k)%Z); [by right|]. left. apply Hk; lia.
  - destruct cd_moves0 as (ms & ? & ? & ? & Hms). exists ms. split_and!; [done..|]. eapply Forall_impl; [exact Hms|]. cbn. intros mv (? & ? & ? & ?). split_and!; [done..|lia].
Qed.

Lemma condensing_step c ls b0 last empty id b b' : condensing c ls b0 (Z.of_nat last) b → _req_ids b !! last = Some (Some id) → empty ∈ Builder._removed (builder b) → empty < last →
  request_moved c ls last empty id b b' → condensing c ls b0 (Z.of_nat last - 1)%Z b'.
Proof.
  intros [] Hid Hemp Hlt Hm. pose proof (lookup_lt_Some _ _ _ Hid) as Hl. pose proof (moved_occupied _ _ _ _ _ _ _ Hm Hlt Hl) as Eids.
  assert (_req_ids b !! empty = Some None) as Hn.
  { destruct (lookup_lt_is_Some_2 (_req_ids b) empty) as [[i|] E]; [lia| |done]. exfalso. apply (cd_holes0 empty); [lia|by left|by exists i]. }
  pose proof (rm_removed _ _ _ _ _ _ _ Hm) as Hp. assert (NoDup (empty :: Builder._removed (builder b'))) as [Hne Hnd]%NoDup_cons by (by rewrite <-Hp).
  assert (length (_req_ids b') = length (_req_ids b)) as El by (by rewrite (rm_ids _ _ _ _ _ _ _ Hm), !length_insert).
  destruct (rm_builder _ _ _ _ _ _ _ Hm) as (_ & Hs & Ha & Hmv).
  constructor; [by eapply moved_inv| |congruence|done|done|lia| | |congruence|].
  - etransitivity; [done|]. by eapply moved_keeps.
  - intros k Hk. rewrite El. apply cd_removed0. rewrite Hp. by right.
  - intros k Hk. unfold occupied. rewrite Eids. destruct (decide (k = last)) as [->|N1]; [split; [intros _; right; lia|by intros _ [? ?]]|]. destruct (decide (k = empty)) as [->|N2].
    + split; [intros []; eauto|]. intros [?|?]; [done|lia].
    + change (¬ occupied b k ↔ k ∈ Builder._removed (builder b') ∨ (Z.of_nat last - 1 < Z.of_nat k)%Z). rewrite cd_holes0, Hp, elem_of_cons by lia. split; [intros [[?|?]|?]; [done|by left|right; lia]|]. intros [?|?]; [by left; right|right; lia].
  - destruct cd_moves0 as (ms & E1 & E2 & E3 & E4). exists (ms ++ if is_pooling_model c then [] else [(last, empty, UNIDIRECTIONAL)]). rewrite Hmv, E1, app_assoc. split_and!; [done| | |].
    + intros Hpool. rewrite Hpool, E2 by done. done.
    + intros Hpool. rewrite Hpool. intros T f v Hv k. rewrite foldl_snoc. specialize (E3 Hpool T f v Hv). unfold ref_moved. cbn. rewrite !E3, (decide_False (P := UNIDIRECTIONAL = SWAP)) by done.
      assert (last ∉ Builder._removed (builder b)) as Hnl by (intros Hr; apply (cd_holes0 last); [done|by left|by exists id]).
      assert (last ∉ Builder._removed (builder b')) as Hnl' by (intros Hr; apply Hnl; rewrite Hp; by right). rewrite (decide_False (P := last ∈ _)) by done. unfold slot. rewrite Eids, Hid. cbn.
      destruct (decide (k = empty)) as [->|N1]; [rewrite (decide_False (P := empty ∈ _)) by done; rewrite decide_False by lia; done|].
      destruct (decide (k = last)) as [->|N2]; [by rewrite decide_False|]. assert (k ∈ Builder._removed (builder b) ↔ k ∈ Builder._removed (builder b')) as Hk by (rewrite Hp, elem_of_cons; tauto). by rewrite (decide_ext _ _ _ _ Hk).
    + apply Forall_app. split; [eapply Forall_impl; [exact E4|]; cbn; intros mv (? & ? & ? & ?); split_and!; [lia..|done|lia]|]. destruct (is_pooling_model c); [constructor|]. apply Forall_singleton. cbn. split_and!; [lia|lia|done|lia].
Qed.

Lemma condensing_dense c ls b0 last b : condensing c ls b0 last b → (∀ k, k ∈ Builder._removed (builder b) → (last < Z.of_nat k)%Z) → dense b (Z.to_nat (last + 1)).
Proof.
  intros [] Hr k. split.
  - intros Hk. pose proof (occupied_lt _ _ Hk) as Hl. destruct (decide (last < Z.of_nat k)%Z); [|lia]. exfalso. by apply (cd_holes0 k Hl); [right|].
  - intros Hk. assert (k < length (_req_ids b)) as Hl by lia. destruct (decide (occupied b k)) as [|N]; [done|]. apply cd_holes0 in N as [N|N]; [apply Hr in N; lia|lia|done].
Qed.

Lemma condense_loop_spec c ls b0 : ∀ fuel last b, condensing c ls b0 last b → length (Builder._removed (builder b)) < fuel →
  wp (condense_loop fuel last) b (λ _ b', ∃ last', condensing c ls b0 last' b' ∧ ∀ k, k ∈ Builder._removed (builder b') → (last' < Z.of_nat k)%Z).
Proof.
  induction fuel as [|fuel IH]; intros last b Hc Hf; [lia|]. cbn [condense_loop]. apply wp_bind, wp_gets. case_decide as Er.
  { apply wp_ret. exists last. split; [done|]. rewrite Er. by intros k ?%not_elem_of_nil. }
  set (l := if decide (last < 0)%Z then last else skip_empty _ _).
  assert (condensing c ls b0 l b ∧ ((0 ≤ l)%Z → Z.to_nat l ∉ Builder._removed (builder b))) as [Hc' Hl].
  { unfold l. case_decide; [split; [done|lia]|]. destruct (skip_empty_spec (Builder._removed (builder b)) (Z.to_nat last)) as (H1 & H2 & H3). split; [|done].
    eapply condensing_skip; [done|lia|]. intros k ? ?. apply H3; lia. }
  clearbody l. pose proof (cd_inv _ _ _ _ _ Hc') as Hinv. apply wp_bind, wp_zoom. eapply wp_mono; [apply peek_removed_spec, Hinv|].
  intros [e|] u (_ & _ & _ & _ & _ & Hu & He); [|done]. rewrite (Hu (cd_sorted _ _ _ _ _ Hc')). replace (set_builder (builder b) b) with b by (by destruct b). destruct He as [Hin Hmin].
  case_decide as Hle.
  { apply wp_ret. exists l. split; [done|]. intros k Hk. destruct (decide (0 ≤ l)%Z); [|lia]. destruct (decide (Z.of_nat e = l)) as [<-|]; [rewrite Nat2Z.id in Hl; tauto|]. specialize (Hmin k Hk). lia. }
  destruct (Z_of_nat_complete l ltac:(lia)) as [n ->]. rewrite Nat2Z.id in *. assert (occupied b n) as [id Hid].
  { pose proof (cd_last _ _ _ _ _ Hc'). destruct (decide (occupied b n)) as [|N]; [done|]. apply (cd_holes _ _ _ _ _ Hc') in N as [N|N]; [by destruct Hl; [lia|]|lia|lia]. }
  assert (e < length (_req_ids b)) as Hel by (by apply (cd_removed _ _ _ _ _ Hc')).
  apply wp_bind. eapply wp_mono; [apply (move_request_spec c ls n e id); [done|done| |lia|done|done]|].
  { intros Ho. by apply (cd_holes _ _ _ _ _ Hc' e Hel); [left|]. }
  intros [] b' Hm. apply IH; [eapply condensing_step; [exact Hc'|done..|lia|done]|]. pose proof (rm_removed _ _ _ _ _ _ _ Hm) as Hp. apply Permutation_length in Hp. cbn in Hp. lia.
Qed.

(** Between steps the removed indices are the empty rows. *)
Definition holes (b : InputBatch) : Prop := NoDup (Builder._removed (builder b)) ∧ ∀ k : nat, k ∈ Builder._removed (builder b) ↔ _req_ids b !! k = Some None.

Lemma holes_count c ls b : batch_inv c ls b → holes b → length (_req_ids b) = num_reqs b + length (Builder._removed (builder b)).
Proof.
  intros H [Hnd Hh]. rewrite (index_values c ls b (filter (occupied b) (seq 0 (length (_req_ids b))))); [|done|apply NoDup_filter, NoDup_seq|].
  2: { intros k. rewrite list_elem_of_filter, elem_of_seq. split; [tauto|]. intros Hk. pose proof (occupied_lt _ _ Hk). split; [done|lia]. }
  assert (seq 0 (length (_req_ids b)) ≡ₚ filter (occupied b) (seq 0 (length (_req_ids b))) ++ Builder._removed (builder b)) as Hp.
  { apply NoDup_Permutation; [apply NoDup_seq| |].
    - apply NoDup_app. split_and!; [apply NoDup_filter, NoDup_seq| |done]. intros k [[id Hk] _]%list_elem_of_filter Hr. pose proof (proj1 (Hh k) Hr) as Hr2. by rewrite Hk in Hr2.
    - intros k. rewrite elem_of_app, list_elem_of_filter, elem_of_seq, Hh. split.
      + intros Hk. destruct (lookup_lt_is_Some_2 (_req_ids b) k) as [[id|] E]; [lia|left; split; [by exists id|lia]|by right].
      + intros [[_ ?]|E]; [done|]. apply lookup_lt_Some in E. lia. }
  apply Permutation_length in Hp. by rewrite length_seq, length_app in Hp.
Qed.
Lemma holes_occupied b k : holes b → k < length (_req_ids b) → ¬ occupied b k ↔ k ∈ Builder._removed (builder b).
Proof.
  intros [_ Hh] Hk. rewrite Hh. destruct (lookup_lt_is_Some_2 (_req_ids b) k Hk) as [[id|] E]; rewrite E; unfold occupied; rewrite E; split; try done; [intros []; eauto|by intros _ [? ?]].
Qed.

(** Cutting off the rows past the last request *)
Definition trim (n : nat) (b : InputBatch) : InputBatch :=
  set_rows (set_spec_token_ids (take n (spec_token_ids (rows b))) (set_req_output_token_ids (take n (req_output_token_ids (rows b))) (rows b))) (set__req_ids (take n (_req_ids b)) b).
Lemma slot_trim b n k : dense b n → slot (trim n b) k = slot b k.
Proof.
  intros Hd. unfold slot. cbn. destruct (decide (k < n)); [by rewrite lookup_take_lt|]. rewrite lookup_take_ge by lia. cbn. destruct (_req_ids b !! k) as [[id|]|] eqn:E; [|done..].
  exfalso. assert (k < n); [|lia]. apply Hd. by exists id.
Qed.
Lemma trim_spec c ls b n : batch_inv c ls b → dense b n → batch_inv c ls (trim n b) ∧ keeps_requests c b (trim n b) ∧ dense (trim n b) n ∧ length (_req_ids (trim n b)) = n.
Proof.
  intros H Hd. pose proof (dense_num_reqs c ls b n H Hd) as En. pose proof H as [Hc Hr Hlen Ho Hs Hix Hb Hocc Hfree Hpool Hlo].
  assert (∀ k id, _req_ids (trim n b) !! k = Some (Some id) ↔ _req_ids b !! k = Some (Some id)) as Eids by (intros k id; by rewrite <-!slot_Some, slot_trim).
  assert (∀ k, occupied (trim n b) k ↔ occupied b k) as Eocc by (intros k; unfold occupied; by setoid_rewrite Eids).
  assert (n ≤ length (_req_ids b)) as Hn by (destruct n; [lia|]; apply Nat.le_succ_l, occupied_lt, Hd; lia).
  split_and!.
  - constructor; cbn; try done.
    + destruct Hr. by constructor.
    + rewrite length_take. lia.
    + rewrite !length_take. lia.
    + rewrite !length_take. lia.
    + intros id k. by rewrite Hix, <-Eids.
    + intros k Hk%Eocc. destruct (Hocc k Hk) as (H1 & H2 & o & H3). split_and!; [done..|]. exists o. cbn. rewrite lookup_take_lt; [done|]. by apply Hd.
    + intros k Hk. rewrite Eocc in Hk. destruct (Hfree k Hk) as (F1 & F2 & F3). split_and!; [done..|]. rewrite lookup_take_ge; [done|]. rewrite (Hd k) in Hk. lia.
  - split; [done| |done]. cbn. intros id k k' H1 H2. assert (k' = k) as -> by congruence. apply Hix in H1. assert (k < n) as Hk by (apply Hd; by exists id).
    unfold row_data. cbn. by rewrite !lookup_take_lt.
  - intros k. rewrite Eocc. apply Hd.
  - cbn. rewrite length_take. lia.
Qed.

(** The result of [condense] *)
Record condensed (c : Config) (ls : list Layout) (b b' : InputBatch) : Prop := {
  co_inv : batch_inv c ls b';
  co_keeps : keeps_requests c b b';
  co_num : num_reqs b' = num_reqs b;
  co_dense : dense b' (num_reqs b);
  co_length : length (_req_ids b') = num_reqs b;
  co_removed : ∀ k : nat, k ∈ Builder._removed (builder b') → num_reqs b ≤ k < length (_req_ids b) ∧ k ∈ Builder._removed (builder b);
  co_sorted : Builder._is_removed_sorted (builder b') = true;
  co_added : Builder.added (builder b') = Builder.added (builder b);
  co_moves : ∃ ms, Builder.moved (builder b') = Builder.moved (builder b) ++ ms ∧
    (is_pooling_model c = false → replays ms b b') ∧
    Forall (λ mv : MovedRequest, mv.1.1 < length (_req_ids b) ∧ mv.1.2 < mv.1.1 ∧ mv.2 = UNIDIRECTIONAL ∧ num_reqs b ≤ mv.1.1) ms;
}.

Lemma keeps_num_reqs c b b' : keeps_requests c b b' → num_reqs b' = num_reqs b.
Proof. intros [Hd _ _]. unfold num_reqs. by rewrite <-!size_dom, Hd. Qed.
Lemma set_builder_inv c ls b u : batch_inv c ls b → builder_ok u → batch_inv c ls (set_builder u b) ∧ keeps_requests c b (set_builder u b).
Proof. intros H Hu. split; [destruct H; by constructor|]. split; [done| |done]. cbn. intros id k k' H1 H2. by replace k' with k by congruence. Qed.

Lemma no_requests b : (∀ id k, req_id_to_index b !! id = Some k ↔ _req_ids b !! k = Some (Some id)) → num_reqs b = 0 → (∀ k, ¬ occupied b k) ∧ req_id_to_index b = ∅.
Proof. intros Hix H0. apply map_size_empty_iff in H0. split_and!; [|done..]. intros k [id Hid%Hix]. by rewrite H0, lookup_empty in Hid. Qed.

Lemma condense_empty c ls b : batch_inv c ls b → num_reqs b = 0 → batch_inv c ls (trim 0 b) ∧ keeps_requests c b (trim 0 b) ∧ dense (trim 0 b) 0 ∧ length (_req_ids (trim 0 b)) = 0.
Proof. intros H H0. apply trim_spec; [done|]. intros k. destruct (no_requests b (bi_index _ _ _ H) H0) as (Hn & _). split; [by intros ?%Hn|lia]. Qed.

Lemma condense_spec c ls b : batch_inv c ls b → holes b → wp condense b (λ _ b', condensed c ls b b').
Proof.
  intros H Hh. pose proof (holes_count c ls b H Hh) as Hcount. unfold condense. apply wp_bind, wp_gets, wp_bind, wp_zoom. eapply wp_mono; [apply removed_spec, H|].
  intros rm u (Hu & -> & Hp & Hs & Ha & Hm & _). destruct (set_builder_inv c ls b u H Hu) as [Hb1 Hk1]. set (b1 := set_builder u b) in *.
  assert (holes b1) as Hh1 by (destruct Hh as [Hnd Hh]; split; [cbn; by rewrite Hp|intros k; cbn; by rewrite Hp, Hh]).
  case_decide as Er; [|case_decide as E0].
  - (* nothing to fill *)
    apply wp_ret. apply Permutation_length in Hp as Hpl. rewrite Er in Hpl. cbn in Hpl. constructor; try done; [|cbn; lia| |].
    + intros k. split; [intros Hk%occupied_lt; cbn in Hk; lia|]. intros Hk. destruct (decide (occupied b1 k)) as [|N]; [done|].
      apply (holes_occupied b1) in N; [|done|cbn; lia]. cbn in N. rewrite Er in N. by apply not_elem_of_nil in N.
    + cbn. rewrite Er. by intros k ?%not_elem_of_nil.
    + exists []. rewrite app_nil_r. split_and!; [done| |done]. intros _. by apply replays_nil.
  - (* no request left *)
    apply wp_bind, wp_zoom, wp_modify, wp_bind, wp_zoom, wp_zoom, wp_modify, wp_zoom, wp_zoom, wp_modify. cbn. change (condensed c ls b (trim 0 b1)).
    destruct (condense_empty c ls b1 Hb1 E0) as (T1 & T2 & T3 & T4). constructor; try done; try (by rewrite E0).
    + by etransitivity.
    + intros k Hk. change (k ∈ Builder._removed u) in Hk. rewrite Hp in Hk. apply Hh in Hk as Hk'. apply lookup_lt_Some in Hk'. split_and!; [lia..|done].
    + exists []. rewrite app_nil_r. split_and!; [done| |done]. intros _. apply replays_nil; [done|]. intros k. destruct (no_requests b (bi_index _ _ _ H) E0) as (Hn & _).
      destruct (slot b k) eqn:Es; [exfalso; apply (Hn k), slot_occupied; eauto|done].
  - (* the loop *)
    assert (condensing c ls b (Z.of_nat (num_reqs b) + Z.of_nat (length (Builder._removed u)) - 1) b1) as Hc.
    { apply Permutation_length in Hp as Hpl. constructor; try done; [apply Hh1|change (_req_ids b1) with (_req_ids b); lia| | |].
      - intros k Hk. split; [|by rewrite <-Hp]. apply Hh1 in Hk. by eapply lookup_lt_Some.
      - intros k Hk. rewrite (holes_occupied b1) by done. split; [by left|]. intros [?|?]; [done|]. change (_req_ids b1) with (_req_ids b) in Hk. lia.
      - exists []. rewrite app_nil_r. split_and!; try done. intros _. by apply replays_nil. }
    apply wp_bind. eapply wp_mono; [apply (condense_loop_spec c ls b _ _ _ Hc); cbn; lia|]. intros [] b2 (last & Hc2 & Hr2). pose proof (condensing_dense _ _ _ _ _ Hc2 Hr2) as Hd.
    pose proof (cd_inv _ _ _ _ _ Hc2) as Hi2. pose proof (dense_num_reqs _ _ _ _ Hi2 Hd) as En. pose proof (cd_keeps _ _ _ _ _ Hc2) as Hk2. pose proof (keeps_num_reqs _ _ _ Hk2) as En2.
    assert (Z.to_nat (last + 1) = num_reqs b) as El by congruence. rewrite El in Hd. destruct (trim_spec c ls b2 _ Hi2 Hd) as (T1 & T2 & T3 & T4).
    apply wp_bind, wp_zoom, wp_modify, wp_bind, wp_zoom, wp_zoom, wp_modify, wp_zoom, wp_zoom, wp_modify. cbn. change (condensed c ls b (trim (num_reqs b) b2)).
    destruct Hc2 as [_ _ Hlen2 Hso _ Hlast Hrm _ Had (ms & M1 & M2 & M3 & M4)]. constructor; try done.
    + by etransitivity.
    + intros k Hk. specialize (Hr2 k Hk). specialize (Hrm k Hk) as [? ?]. split_and!; [lia..|done].
    + exists ms. split_and!; [done| |].
      * intros Hpool T f v Hv k. by rewrite slot_trim, (M3 Hpool T f v Hv k).
      * eapply Forall_impl; [exact M4|]. cbn. intros mv (? & ? & ? & ?). split_and!; [lia|lia|done|lia].
Qed.
