(* ===== verification/InputBatchOps.v ===== *)
(** * The persistent batch: adding and removing requests

    [remove_request] empties one row and [add_request] fills one; all other rows keep their
    data.  [request_row] is what a row has to hold for a request. *)

From Stdlib Require Import ZArith Lia QArith Qcanon.
From stdpp Require Import sorting.
From stdpp Require Import base tactics option numbers gmap strings list.
From S2P Require Import Prelude Numpy BlockTable LogitsProcessors InputBatch InputBatchInv.
Local Open Scope nat_scope.

(** ** Changes to one row *)

(** [r'] has the rows of [r] except for row [k]. *)
Record agree_off (k : nat) (r r' : Rows) : Prop := {
  ao_icols : ∀ col j, j ≠ k → icols r' col !! j = icols r col !! j;
  ao_fcols : ∀ col j, j ≠ k → fcols r' col !! j = fcols r col !! j;
  ao_tokens : ∀ j, j ≠ k → token_ids_cpu r' !! j = token_ids_cpu r !! j;
  ao_flags : ∀ j, j ≠ k → is_token_ids r' !! j = is_token_ids r !! j;
  ao_embeds : ∀ j, j ≠ k → req_prompt_embeds r' !! j = req_prompt_embeds r !! j;
  ao_blocks : ∀ j, j ≠ k → group_rows (block_table r') j = group_rows (block_table r) j;
  ao_generators : ∀ j, j ≠ k → generators r' !! j = generators r !! j;
  ao_bad_words : ∀ j, j ≠ k → bad_words r' !! j = bad_words r !! j;
  ao_outputs : ∀ j, j ≠ k → req_output_token_ids r' !! j = req_output_token_ids r !! j;
  ao_specs : ∀ j, j ≠ k → default [] (spec_token_ids r' !! j) = default [] (spec_token_ids r !! j);
}.
#[export] Instance agree_off_preorder k : PreOrder (agree_off k).
Proof.
  split; [by constructor|]. intros r1 r2 r3 [] []. constructor; intros; (etransitivity; [match goal with H : _ |- _ => by apply H end|match goal with H : _ |- _ => by apply H end]).
Qed.

Lemma agree_off_row k r r' j : agree_off k r r' → j ≠ k → row_length r' j = row_length r j ∧ row_prefix (is_token_ids r') r' j = row_prefix (is_token_ids r) r j.
Proof.
  intros [] Hj. assert (row_length r' j = row_length r j) as E by (unfold row_length; by rewrite ao_icols0). split; [done|]. unfold row_prefix. by rewrite E, ao_flags0.
Qed.
Lemma agree_off_data c k r r' j : agree_off k r r' → j ≠ k → spec_token_ids r' !! j = spec_token_ids r !! j → row_data c r' j = row_data c r j.
Proof.
  intros H Hj Hs. destruct (agree_off_row k r r' j H Hj) as [El Ef]. destruct H as [Hi Hf Ht Hfl He Hb Hg Hbw Ho _]. unfold row_data. rewrite Ef, He, Hb, Hg, Hbw, Ho, Hs by done.
  assert (row_prefix (token_ids_cpu r') r' j = row_prefix (token_ids_cpu r) r j) as -> by (unfold row_prefix; by rewrite El, Ht). f_equal.
  - apply list_fmap_ext. intros i col _. by apply Hi.
  - apply list_fmap_ext. intros i col _. by apply Hf.
Qed.
Lemma agree_off_ok c k r r' j : agree_off k r r' → j ≠ k → row_ok c r j → row_ok c r' j.
Proof.
  intros H Hj (H1 & H2 & o & H3). destruct (agree_off_row k r r' j H Hj) as [El Ef]. split_and!; [by rewrite El| |].
  - unfold embeds_ok in *. rewrite Ef, (ao_embeds _ _ _ H) by done. done.
  - exists o. by rewrite (ao_outputs _ _ _ H).
Qed.

Lemma fset_col_off {K A} `{EqDecision K} (col : K) (l' : list A) (f : K → list A) k : (∀ j, j ≠ k → l' !! j = f col !! j) → ∀ col' j, j ≠ k → fset col l' f col' !! j = f col' !! j.
Proof. intros H col' j Hj. unfold fset. case_decide; subst; auto. Qed.

(** ** Removing a request *)

(** The rest of the state when a request leaves *)
Record left_batch (c : Config) (id : string) (k : nat) (b b' : InputBatch) : Prop := {
  lb_ids : _req_ids b' = <[k := None]> (_req_ids b);
  lb_index : req_id_to_index b' = delete id (req_id_to_index b);
  lb_rows : agree_off k (rows b) (rows b');
  lb_specs : ∀ j, j ≠ k → spec_token_ids (rows b') !! j = spec_token_ids (rows b) !! j;
  lb_builder : builder b' = Builder.set_changed true (Builder.set_removed (Builder._removed (builder b) ++ [k]) (builder b));
  lb_idsets : is_pooling_model c = false → ∀ s, idsets (by_id b') s = idsets (by_id b) s ∖ {[id]};
  lb_idsets_pooling : is_pooling_model c = true → idsets (by_id b') = idsets (by_id b);
  lb_logprobs : num_logprobs (by_id b') = if is_pooling_model c then num_logprobs (by_id b) else delete id (num_logprobs (by_id b));
  lb_pooling : pooling_params_of (by_id b') = if is_pooling_model c then delete id (pooling_params_of (by_id b)) else pooling_params_of (by_id b);
  lb_rest : config b' = config b ∧ logitsprocs b' = logitsprocs b ∧ device b' = device b ∧ sampling_metadata b' = sampling_metadata b ∧ out_heap b' = out_heap b;
}.

Lemma lora_col_written (f : icol → list Z) (r : Rows) k x n : length (f request_lora_mapping) = n →
  let g := fset request_lora_mapping (<[k := x]> (f request_lora_mapping)) f in
  set_icols g r = set_icols (icols (set_icols g r)) r ∧ (∀ col, col ≠ request_lora_mapping → g col = f col) ∧ length (g request_lora_mapping) = n ∧
  ∀ j, j ≠ k → g request_lora_mapping !! j = f request_lora_mapping !! j.
Proof.
  intros <-. cbn. unfold fset. split_and!; [done|intros; by rewrite decide_False|by rewrite decide_True, length_insert|]. intros j Hj. by rewrite decide_True, list_lookup_insert_ne.
Qed.

Lemma leave_lora_spec c ls id k b : batch_inv c ls b → req_id_to_index b !! id = Some k → ∀ b1, icols (rows b1) = icols (rows b) → by_id b1 = by_id b → wp (leave_lora k id) b1 (λ _ b2,
  (rows b2 = set_icols (icols (rows b2)) (rows b1) ∧ (∀ col, col ≠ request_lora_mapping → icols (rows b2) col = icols (rows b) col) ∧
   length (icols (rows b2) request_lora_mapping) = max_num_reqs c ∧ ∀ j, j ≠ k → icols (rows b2) request_lora_mapping !! j = icols (rows b) request_lora_mapping !! j) ∧
  lora_ok (λ id', if decide (id' = id) then None else lora_of b id') (by_id b2) ∧
  (∃ s1 s2, by_id b2 = set_lora_id_to_lora_request s2 (set_lora_id_to_request_ids s1 (by_id b1))) ∧ b2 = set_by_id (by_id b2) (set_rows (rows b2) b1)).
Proof.
  intros H Hid b1 E1 E2. pose proof (bi_index _ _ _ H) as Hix. apply Hix in Hid as Hk. pose proof (lookup_lt_Some _ _ _ Hk) as Hl. pose proof (bi_bound _ _ _ H) as Hb.
  pose proof (rs_icols _ _ _ (bi_rows _ _ _ H) request_lora_mapping) as Hlen. destruct (lookup_lt_is_Some_2 (icols (rows b) request_lora_mapping) k) as [l El]; [lia|].
  assert (lora_of b id = Some l) as Elo by (unfold lora_of; by rewrite Hid). pose proof (bi_lora _ _ _ H) as Hlo.
  unfold leave_lora. apply wp_bind, wp_gets, wp_bind. rewrite E1. eapply wp_index; [exact El|]. case_decide as E0; cbn.
  - rewrite E2. pose proof (Hlo l) as Hl0. destruct (lora_id_to_request_ids (by_id b) !! l) as [ids|] eqn:Eids; [|exfalso; by apply (Hl0 E0 id)].
    destruct Hl0 as (_ & _ & [lr Elr] & Hids). apply wp_bind, wp_zoom, wp_modify.
    assert (∀ s2, (∀ l', l' ≠ l → s2 !! l' = lora_id_to_lora_request (by_id b) !! l') → ∀ s1, (∀ l', l' ≠ l → s1 !! l' = lora_id_to_request_ids (by_id b) !! l') →
      (s1 !! l = None ∧ ids ∖ {[id]} = ∅ ∨ s1 !! l = Some (ids ∖ {[id]}) ∧ ids ∖ {[id]} ≠ ∅ ∧ is_Some (s2 !! l)) →
      lora_ok (λ id', if decide (id' = id) then None else lora_of b id') (set_lora_id_to_lora_request s2 (set_lora_id_to_request_ids s1 (by_id b)))) as Hok.
    { intros s2 Hs2 s1 Hs1 Hl1 l'. cbn. destruct (decide (l' = l)) as [->|N].
      - destruct Hl1 as [[-> Hemp]|(-> & Hne & Hs)].
        + intros _ id'. case_decide; [done|]. intros Hx%Hids. set_solver.
        + split_and!; [done..|]. intros id'. rewrite elem_of_difference, elem_of_singleton, Hids. case_decide; naive_solver.
      - rewrite Hs1, Hs2 by done. specialize (Hlo l'). destruct (lora_id_to_request_ids (by_id b) !! l') as [ids'|].
        + destruct Hlo as (? & ? & ? & Hlo). split_and!; [done..|]. intros id'. rewrite Hlo. case_decide as Ed; [subst id'; rewrite Elo; naive_solver|done].
        + intros Hn id'. case_decide; [done|]. by apply Hlo. }
    apply wp_bind. case_decide as Eemp.
    + rewrite Elr. apply wp_bind, wp_zoom, wp_modify, wp_zoom, wp_modify, wp_zoom, wp_zoom, wp_np_set; [cbn; rewrite E1; lia|]. cbn. rewrite E2, E1. split; [by apply (lora_col_written _ (rows b1))|]. split; [|split; [by eexists _, _|done]]. apply Hok.
      * intros l' N. by rewrite lookup_delete_ne.
      * intros l' N. by rewrite lookup_delete_ne, lookup_insert_ne.
      * left. by rewrite lookup_delete_eq.
    + apply wp_ret, wp_zoom, wp_zoom, wp_np_set; [cbn; rewrite E1; lia|]. cbn. rewrite E2, E1. split; [by apply (lora_col_written _ (rows b1))|]. split; [|split; [|done]].
      * apply (Hok (lora_id_to_lora_request (by_id b)) ltac:(done) (<[l:=ids ∖ {[id]}]> (lora_id_to_request_ids (by_id b)))); [intros l' N; by rewrite lookup_insert_ne|]. right. rewrite lookup_insert_eq. eauto.
      * exists (<[l:=ids ∖ {[id]}]> (lora_id_to_request_ids (by_id b))), (lora_id_to_lora_request (by_id b)). done.
  - apply wp_ret. subst l. split_and!; [by destruct (rows b1)|by intros; rewrite E1|by rewrite E1|by intros; rewrite E1| |by destruct (by_id b1); eexists _, _|by destruct b1].
    rewrite E2. intros l'. specialize (Hlo l'). destruct (lora_id_to_request_ids (by_id b) !! l') as [ids'|].
    + destruct Hlo as (? & ? & ? & Hlo). split_and!; [done..|]. intros id'. rewrite Hlo. case_decide as Ed; [subst id'; rewrite Elo; naive_solver|done].
    + intros Hn id'. case_decide; [done|]. by apply Hlo.
Qed.

(** Discarding a request from all sets *)
Lemma discard_all_spec id b (ss : list idset) : wp (for_each ss (λ s, set_discard s id)) b (λ _ b',
  (∀ s, idsets (by_id b') s = if decide (s ∈ ss) then idsets (by_id b) s ∖ {[id]} else idsets (by_id b) s) ∧ b' = set_by_id (set_idsets (idsets (by_id b')) (by_id b)) b).
Proof.
  revert b. induction ss as [|s ss IH]; intros b; cbn [for_each].
  - apply wp_ret. split; [intros s; by rewrite decide_False by apply not_elem_of_nil|by destruct b as [????[]]].
  - apply wp_bind, wp_zoom, wp_modify. eapply wp_mono; [apply IH|]. cbn. intros _ b' [E1 E2]. split; [|by rewrite E2]. intros s'. rewrite E1. unfold fset.
    destruct (decide (s' = s)) as [->|N]; [rewrite (decide_True (P := s ∈ s :: ss)) by left; case_decide; [set_solver|done]|].
    destruct (decide (s' ∈ ss)); [by rewrite decide_True by (by right)|rewrite decide_False; [done|]]. rewrite elem_of_cons. naive_solver.
Qed.

(** The request's own row of the lists *)
Definition row_left (c : Config) (ls : list Layout) (id : string) (k : nat) (b b' : InputBatch) : Prop :=
  left_batch c id k b b' ∧ rows_shape c ls (rows b') ∧ length (req_output_token_ids (rows b')) = length (req_output_token_ids (rows b)) ∧
  length (spec_token_ids (rows b')) = length (spec_token_ids (rows b)) ∧ spec_token_ids (rows b') !! k = Some [] ∧
  generators (rows b') !! k = None ∧ bad_words (rows b') !! k = None ∧ (is_pooling_model c = true → generators (rows b') = ∅ ∧ bad_words (rows b') = ∅) ∧
  lora_ok (λ id', if decide (id' = id) then None else lora_of b id') (by_id b').

(** The end of a program that has emptied a row *)
Ltac row_left_done Ep := cbn; try first
  [ by rewrite length_insert
  | by rewrite list_lookup_insert_eq by lia
  | by rewrite lookup_delete_eq
  | by constructor; cbn; rewrite ?Ep; try done;
    [constructor; cbn; try done; intros j Hj; first [by rewrite list_lookup_insert_ne|by rewrite lookup_delete_ne]|intros j Hj; by rewrite list_lookup_insert_ne] ].

Lemma remove_rows_spec c ls id k b : batch_inv c ls b → req_id_to_index b !! id = Some k → Builder._is_removed_sorted (builder b) = false →
  wp (remove_request id) b (λ r b', r = Some k ∧ row_left c ls id k b b').
Proof.
  intros H Hid Hsort. pose proof H as [Hc Hr Hlen Ho Hs Hix Hb Hocc Hfree Hpool Hlo]. apply Hix in Hid as Hk. pose proof (lookup_lt_Some _ _ _ Hk) as Hl.
  unfold remove_request. apply wp_bind, wp_zoom. unfold wp at 1, dict_pop. rewrite Hid. apply wp_bind, wp_zoom. unfold Builder.removed_append. apply wp_bind, wp_gets. cbn [builder set_req_id_to_index]. rewrite Hsort. apply wp_modify.
  apply wp_bind, wp_zoom, wp_np_set; [done|]. apply wp_bind, wp_zoom, wp_zoom, wp_np_set; [cbn; lia|]. apply wp_bind, wp_zoom, wp_zoom, wp_list_clear; [cbn; lia|]. set (b1 := set_rows _ _).
  apply wp_bind. eapply wp_mono; [by apply (leave_lora_spec c ls id k b H Hid b1)|]. intros [] b2 ((R1 & R2 & R3 & R4) & Hlo2 & (s1 & s2 & Hby) & Eb2). apply wp_bind, wp_gets.
  assert (config b2 = c) as Ec by (rewrite Eb2; done). rewrite Ec. destruct Hr as [Sic Sfc St Sfl Sb Sm Sn].
  assert (∀ col, length (icols (rows b2) col) = max_num_reqs c) as Sic2 by (intros col; destruct (decide (col = request_lora_mapping)) as [->|]; [done|by rewrite R2]).
  assert (∀ col j, j ≠ k → icols (rows b2) col !! j = icols (rows b) col !! j) as Aic by (intros col j Hj; destruct (decide (col = request_lora_mapping)) as [->|]; [by apply R4|by rewrite R2]).
  destruct (is_pooling_model c) eqn:Ep.
  - apply wp_bind, wp_zoom. unfold wp at 1, dict_pop. apply wp_ret. destruct (Hpool eq_refl) as [Pg Pb]. split; [done|]. rewrite Eb2. cbn. rewrite R1, Hby. split_and!; try done.
    all: row_left_done Ep.
    + by rewrite Pg.
    + by rewrite Pb.
    + intros l. specialize (Hlo2 l). rewrite Hby in Hlo2. exact Hlo2.
  - apply wp_bind. eapply wp_mono; [apply discard_all_spec|]. intros _ b3 [D1 D2]. rewrite Eb2 in D1, D2. rewrite D2. clear D2. cbn in D1 |- *. rewrite Hby in *. cbn in *.
    apply wp_bind, wp_zoom, wp_zoom. unfold wp at 1, dict_pop. apply wp_bind, wp_zoom. unfold wp at 1, dict_pop. apply wp_bind, wp_zoom. unfold wp at 1, dict_pop.
    apply wp_bind, wp_zoom, wp_modify. apply wp_bind, wp_gets. cbn. rewrite R1. cbn.
    assert (∀ s, fset has_allowed_token_ids (idsets (by_id b3) has_allowed_token_ids ∖ {[id]}) (idsets (by_id b3)) s = idsets (by_id b) s ∖ {[id]}) as Dall.
    { intros s. unfold fset. destruct (decide (s = has_allowed_token_ids)) as [->|N]; rewrite D1; [rewrite decide_False by set_solver; done|].
      rewrite decide_True; [done|]. clear -N. destruct s; try done; set_solver. }
    apply wp_bind. destruct (allowed_mask (rows b)) as [m|] eqn:Em.
    + apply wp_zoom, wp_zoom, wp_np_set; [cbn; rewrite Em; cbn; rewrite (Sm m eq_refl); lia|]. apply wp_bind, wp_zoom, wp_zoom. unfold wp at 1, dict_pop. apply wp_ret. split; [done|]. cbn. rewrite Em. cbn. split_and!; try done.
      all: row_left_done Ep. 2: by rewrite Ep.
      constructor; cbn; try done. intros ? [= <-]. rewrite length_insert. by apply Sm.
    + apply wp_ret, wp_bind, wp_zoom, wp_zoom. unfold wp at 1, dict_pop. apply wp_ret. split; [done|]. cbn. split_and!; try done.
      all: row_left_done Ep. all: try (by rewrite Ep). constructor; cbn; try done. by rewrite Em.
Qed.

Lemma row_left_inv c ls id k b b' : batch_inv c ls b → holes b → req_id_to_index b !! id = Some k → Builder._is_removed_sorted (builder b) = false → row_left c ls id k b b' →
  batch_inv c ls b' ∧ holes b' ∧ length (_req_ids b') = length (_req_ids b) ∧
  (∀ j id', req_id_to_index b' !! id' = Some j → id' ≠ id ∧ req_id_to_index b !! id' = Some j ∧ row_data c (rows b') j = row_data c (rows b) j).
Proof.
  intros H [Hnd Hh] Hid Hso ([Ei Ex Er Es Eb _ _ _ _ (R1 & _)] & Hshape & Lo & Ls & Sk & Gk & Bk & Hpl & Hl). pose proof H as [Hc Hr Hlen Ho Hs Hix Hb Hocc Hfree Hpool Hlo].
  apply Hix in Hid as Hk. pose proof (lookup_lt_Some _ _ _ Hk) as Hlt.
  assert (∀ j, _req_ids b' !! j = if decide (j = k) then Some None else _req_ids b !! j) as Eids.
  { intros j. rewrite Ei. case_decide; [subst; by rewrite list_lookup_insert_eq|by rewrite list_lookup_insert_ne]. }
  assert (∀ j, occupied b' j ↔ j ≠ k ∧ occupied b j) as Eocc by (intros j; unfold occupied; rewrite Eids; case_decide; naive_solver).
  assert (∀ id' j, req_id_to_index b' !! id' = Some j → id' ≠ id ∧ j ≠ k ∧ req_id_to_index b !! id' = Some j) as Hold.
  { intros id' j. rewrite Ex, lookup_delete_Some. intros [N E]. split_and!; [done| |done]. intros ->. apply Hix in E. congruence. }
  split_and!.
  - constructor; [congruence|done| | | | | | | |done|].
    + by rewrite Ei, length_insert.
    + rewrite Lo, Ei, length_insert. done.
    + rewrite Ls, Ei, length_insert. done.
    + intros id' j. rewrite Eids, Ex, lookup_delete_Some, Hix. case_decide; [subst|]; naive_solver.
    + unfold builder_ok. rewrite Eb. cbn. by rewrite Hso.
    + intros j [N Hj]%Eocc. eapply agree_off_ok; eauto.
    + intros j Hj. destruct (decide (j = k)) as [->|N]; [by rewrite Sk|]. destruct (Hfree j) as (F1 & F2 & F3); [rewrite Eocc in Hj; tauto|]. destruct Er as [_ _ _ _ _ _ Hg Hbw _ Hsp]. by rewrite Hg, Hbw, Hsp.
    + eapply lora_ok_ext; [|exact Hl]. intros id'. unfold lora_of. rewrite Ex. case_decide as N; [subst; by rewrite lookup_delete_eq|]. rewrite lookup_delete_ne by done.
      destruct (req_id_to_index b !! id') as [j|] eqn:E; [|done]. cbn. symmetry. apply (ao_icols _ _ _ Er). intros ->. apply Hix in E. congruence.
  - split; rewrite Eb; cbn.
    + apply NoDup_app. split_and!; [done| |apply NoDup_singleton]. intros j Hj ->%list_elem_of_singleton. apply Hh in Hj. congruence.
    + intros j. rewrite elem_of_app, list_elem_of_singleton, Hh, Eids. case_decide; naive_solver.
  - by rewrite Ei, length_insert.
  - intros j id' E. destruct (Hold id' j E) as (N1 & N2 & E'). split_and!; [done..|]. eapply agree_off_data; eauto.
Qed.

Lemma remove_unknown id b : req_id_to_index b !! id = None → remove_request id b = (Ok None, b).
Proof.
  intros Hid. unfold remove_request, mbind, M_bind, zoom, dict_pop. rewrite Hid, delete_id by done. by destruct b.
Qed.

(** ** Adding a request *)

(** [a[row, lo:hi] = v] *)
Lemma wp_fill_row {A} row lo hi (v : A) r t (Q : () → list (list A) → Prop) : t !! row = Some r → lo ≤ hi → hi ≤ length r →
  Q () (<[row := take lo r ++ replicate (hi - lo) v ++ drop hi r]> t) → wp (np_set_row_slice row lo hi [v]) t Q.
Proof.
  intros Hr Hlo Hhi HQ. unfold wp, np_set_row_slice, np_set_slice. rewrite Hr, !Nat.min_l by lia. replace (lo + (hi - lo)) with hi by lia. cbn [length].
  case_decide as E; [by rewrite <-E in HQ|done].
Qed.
Lemma wp_int32_slice row lo hi vs r t (Q : () → list (list Z) → Prop) : Forall int32_range vs → t !! row = Some r → hi ≤ length r → hi = lo + length vs →
  Q () (<[row := take lo r ++ vs ++ drop hi r]> t) → wp (set_int32_slice row lo hi vs) t Q.
Proof. intros. unfold set_int32_slice. rewrite decide_True by done. by eapply wp_np_set_row_slice. Qed.

(** A prompt and an output written one after the other *)
Lemma two_slices {A} n (x y l : list A) : length x = n → n + length y ≤ length l →
  let l1 := x ++ drop n l in let l2 := take n l1 ++ y ++ drop (n + length y) l1 in length l2 = length l ∧ take (n + length y) l2 = x ++ y.
Proof.
  intros Hx Hy. cbn. assert (length (x ++ drop n l) = length l) as E by (rewrite length_app, length_drop; lia). rewrite length_written, E by lia. split; [done|].
  rewrite take_slice by lia. f_equal. by rewrite take_app_length' by done.
Qed.

Definition prompt_flag (r : CachedRequestState) : bool := bool_decide (is_Some (prompt_token_ids r)).
(** What the row's tokens look like: the prompt, if given as tokens, and the output *)
Definition request_tokens (h : heap) (r : CachedRequestState) (n : nat) : list (option Z) :=
  match prompt_token_ids r with Some ids => Some <$> ids | None => replicate n None end ++ (Some <$> tokens_of h (output_token_ids r)).

(** A request that fits the batch *)
Record request_ok (c : Config) (ls : list Layout) (h : heap) (r : CachedRequestState) (n : nat) : Prop := {
  ro_kind : if is_pooling_model c then sampling_params r = None ∧ is_Some (pooling_params r) else is_Some (sampling_params r);
  ro_prompt : length_from_prompt_token_ids_or_embeds (prompt_token_ids r) (prompt_embeds r) = Ok n;
  ro_length : n + length (tokens_of h (output_token_ids r)) ≤ max_model_len c;
  ro_tokens : Forall int32_range (default [] (prompt_token_ids r)) ∧ Forall int32_range (tokens_of h (output_token_ids r));
  ro_blocks : rows_fit ls [] (block_ids r);
  ro_allowed : ∀ p ids, sampling_params r = Some p → allowed_token_ids p = Some ids → Forall (λ t, t < Z.to_nat (vocab_size c)) ids;
  ro_lora : ∀ l, lora_request r = Some l → lora_int_id l ≠ 0%Z;
}.
Lemma ro_prompt_length c ls h r n ids : request_ok c ls h r n → prompt_token_ids r = Some ids → length ids = n.
Proof. intros H E. pose proof (ro_prompt _ _ _ _ _ H) as Hp. unfold length_from_prompt_token_ids_or_embeds in Hp. rewrite E in Hp. destruct (prompt_embeds r); [case_decide|]; congruence. Qed.
Lemma ro_embeds c ls h r n : request_ok c ls h r n → prompt_token_ids r = None → ∃ e, prompt_embeds r = Some e ∧ length e = n.
Proof. intros H E. pose proof (ro_prompt _ _ _ _ _ H) as Hp. unfold length_from_prompt_token_ids_or_embeds in Hp. rewrite E in Hp. destruct (prompt_embeds r) as [e|]; [|done]. exists e. by injection Hp as ->. Qed.

Lemma visible_app ts us fs gs : length ts = length fs → visible (ts ++ us) (fs ++ gs) = visible ts fs ++ visible us gs.
Proof. apply zip_with_app. Qed.
Lemma visible_const ts b : visible ts (replicate (length ts) b) = if b then Some <$> ts else replicate (length ts) None.
Proof. induction ts as [|t ts IH]; [by destruct b|]. cbn. unfold visible in IH. rewrite IH. by destruct b. Qed.

(** What [enter_tokens] has written *)
Record tokens_entered (c : Config) (ls : list Layout) (h : heap) (k : nat) (q : CachedRequestState) (n : nat) (r r' : Rows) : Prop := {
  te_shape : rows_shape c ls r';
  te_off : agree_off k r r';
  te_total : icols r' num_tokens !! k = Some (Z.of_nat n + Z.of_nat (length (tokens_of h (output_token_ids q))))%Z;
  te_no_spec : icols r' num_tokens_no_spec !! k = Some (Z.of_nat n + Z.of_nat (length (tokens_of h (output_token_ids q))))%Z;
  te_prompt : icols r' num_prompt_tokens !! k = Some (Z.of_nat n);
  te_computed : icols r' num_computed_tokens_cpu !! k = Some (num_computed_tokens q);
  te_other : ∀ col, col ∉ [num_tokens; num_tokens_no_spec; num_prompt_tokens; num_computed_tokens_cpu] → icols r' col = icols r col;
  te_tokens : visible (row_prefix (token_ids_cpu r') r' k) (row_prefix (is_token_ids r') r' k) = request_tokens h q n;
  te_flags : row_prefix (is_token_ids r') r' k = replicate n (prompt_flag q) ++ replicate (length (tokens_of h (output_token_ids q))) true;
  te_embeds : ∀ e, prompt_embeds q = Some e → req_prompt_embeds r' !! k = Some e;
  te_blocks : group_rows (block_table r') k = kernel_rows ls (block_ids q);
  te_rest : fcols r' = fcols r ∧ generators r' = generators r ∧ allowed_mask r' = allowed_mask r ∧ bad_words r' = bad_words r ∧
    needs_token_ids r' = needs_token_ids r ∧ req_output_token_ids r' = req_output_token_ids r ∧ spec_token_ids r' = spec_token_ids r;
}.

Lemma enter_tokens_spec c ls k q n b : rows_shape c ls (rows b) → k < max_num_reqs c → request_ok c ls (out_heap b) q n →
  wp (enter_tokens k q) b (λ _ b', tokens_entered c ls (out_heap b) k q n (rows b) (rows b') ∧ b' = set_rows (rows b') b).
Proof.
  intros H Hk Hq. pose proof H as [Sic Sfc [Lt St] [Lf Sf] Sb Sm Sn]. set (out := tokens_of (out_heap b) (output_token_ids q)) in *. set (r := rows b) in *.
  destruct (lookup_lt_is_Some_2 (token_ids_cpu r) k) as [tr Etr]; [by rewrite Lt|]. destruct (lookup_lt_is_Some_2 (is_token_ids r) k) as [fr Efr]; [by rewrite Lf|].
  pose proof (Forall_lookup_1 _ _ _ _ St Etr) as Ltr. pose proof (Forall_lookup_1 _ _ _ _ Sf Efr) as Lfr. cbn in Ltr, Lfr. pose proof (ro_length _ _ _ _ _ Hq) as Hlen. fold out in Hlen.
  destruct (ro_tokens _ _ _ _ _ Hq) as [T1 T2]. fold out in T2.
  unfold enter_tokens. apply wp_bind, wp_gets, wp_bind. rewrite (ro_prompt _ _ _ _ _ Hq). apply wp_ret. apply wp_bind, wp_zoom, wp_zoom, wp_np_set; [by rewrite Sic|]. fold out.
  apply wp_bind. set (b1 := set_rows _ b).
  (* the prompt *)
  assert (∃ pt, length pt = n ∧ (∀ ids, prompt_token_ids q = Some ids → pt = ids) ∧
    wp match prompt_token_ids q with
       | Some ids => on_rows token_ids_cpu set_token_ids_cpu (set_int32_slice k 0 n ids);; on_rows is_token_ids set_is_token_ids (np_set_row_slice k 0 n [true])
       | None => on_rows is_token_ids set_is_token_ids (np_set_row_slice k 0 n [false])
       end b1 (λ _ b2, b2 = set_rows (set_is_token_ids (<[k := replicate n (prompt_flag q) ++ drop n fr]> (is_token_ids r)) (set_token_ids_cpu (<[k := pt ++ drop n tr]> (token_ids_cpu r)) (rows b1))) b1)) as (pt & Lpt & Ept & Hw).
  { unfold prompt_flag. destruct (prompt_token_ids q) as [ids|] eqn:Ep.
    - pose proof (ro_prompt_length _ _ _ _ _ _ Hq Ep) as Lids. exists ids. split_and!; [done|by intros ? [= ->]|]. apply wp_bind, wp_zoom, wp_zoom. eapply wp_int32_slice; [done|exact Etr|lia|lia|].
      apply wp_zoom, wp_zoom. eapply wp_fill_row; [exact Efr|lia|lia|]. cbn. by rewrite Nat.sub_0_r.
    - exists (take n tr). split_and!; [rewrite length_take; lia|done|]. apply wp_zoom, wp_zoom. eapply wp_fill_row; [exact Efr|lia|lia|]. cbn. rewrite Nat.sub_0_r, take_drop, (list_insert_id (token_ids_cpu r)) by done. done. }
  eapply wp_mono; [exact Hw|]. intros _ b2 ->. clear Hw. apply wp_bind.
  assert (wp match prompt_embeds q with Some e => on_rows req_prompt_embeds set_req_prompt_embeds (dict_set k e) | None => mret () end
    (set_rows (set_is_token_ids (<[k := replicate n (prompt_flag q) ++ drop n fr]> (is_token_ids r)) (set_token_ids_cpu (<[k := pt ++ drop n tr]> (token_ids_cpu r)) (rows b1))) b1)
    (λ _ b3, b3 = set_rows (set_req_prompt_embeds (match prompt_embeds q with Some e => <[k := e]> (req_prompt_embeds r) | None => req_prompt_embeds r end)
      (set_is_token_ids (<[k := replicate n (prompt_flag q) ++ drop n fr]> (is_token_ids r)) (set_token_ids_cpu (<[k := pt ++ drop n tr]> (token_ids_cpu r)) (rows b1)))) b1)) as Hw by (by destruct (prompt_embeds q)).
  eapply wp_mono; [exact Hw|]. intros _ b3 ->. clear Hw. set (emb := match prompt_embeds q with Some e => _ | None => _ end).
  (* the output *)
  assert (k < length (token_ids_cpu r)) as Kt by lia. assert (k < length (is_token_ids r)) as Kf by lia.
  apply wp_bind, wp_zoom, wp_zoom. eapply wp_int32_slice; [done|by apply list_lookup_insert_eq|rewrite length_app, length_drop; lia|done|].
  apply wp_bind, wp_zoom, wp_zoom. eapply wp_fill_row; [by apply list_lookup_insert_eq|lia|rewrite length_app, length_replicate, length_drop; lia|]. cbn [rows set_rows token_ids_cpu set_token_ids_cpu is_token_ids set_is_token_ids req_prompt_embeds set_req_prompt_embeds icols set_icols].
  rewrite !list_insert_insert_eq.
  destruct (two_slices n pt out tr Lpt ltac:(lia)) as [Lt2 Et2]. destruct (two_slices n (replicate n (prompt_flag q)) (replicate (length out) true) fr) as [Lf2 Ef2]; [apply length_replicate|rewrite length_replicate; lia|]. rewrite length_replicate in Lf2, Ef2. cbn zeta in *.
  replace (n + length out - n) with (length out) by lia. set (tr2 := take n (pt ++ drop n tr) ++ out ++ drop (n + length out) (pt ++ drop n tr)) in *.
  set (fr2 := take n (replicate n (prompt_flag q) ++ drop n fr) ++ replicate (length out) true ++ drop (n + length out) (replicate n (prompt_flag q) ++ drop n fr)) in *. clearbody tr2 fr2.
  apply wp_bind. unfold request_num_tokens. rewrite (ro_prompt _ _ _ _ _ Hq). cbn [mbind result_bind of_result]. fold out. apply wp_ret.
  do 3 (apply wp_bind, wp_zoom, wp_zoom, wp_np_set; [cbn; fset_simpl; rewrite ?length_insert, ?Sic; lia|]).
  apply wp_zoom, wp_zoom. eapply wp_mono; [apply (wp_add_row ls (max_num_reqs c)); [exact Sb|done|apply Hq]|]. intros _ t [Ht Er]. split; [|done]. subst b1. fold r. cbn.
  assert (∀ A (t : list (list A)) i x, icols i num_tokens !! k = Some (Z.of_nat n + Z.of_nat (length out))%Z → k < length t → row_prefix (<[k := x]> t) i k = take (n + length out) x) as Hpre.
  { intros A t' i x Ei Hkt. unfold row_prefix, row_length. rewrite Ei, list_lookup_insert_eq by done. cbn. f_equal. lia. }
  assert (visible (pt ++ out) (replicate n (prompt_flag q) ++ replicate (length out) true) = request_tokens (out_heap b) q n) as Hvis.
  { rewrite visible_app by (by rewrite length_replicate). rewrite <-Lpt at 1. rewrite !visible_const. unfold request_tokens, prompt_flag. fold out. f_equal.
    destruct (prompt_token_ids q) as [ids|] eqn:Ep; [rewrite bool_decide_true by eauto; by rewrite (Ept ids)|]. rewrite bool_decide_false by (by intros [? ?]). by rewrite Lpt. }
  fold r. constructor; cbn.
  - constructor; cbn; try done.
    + intros col. unfold fset. repeat case_decide; rewrite ?length_insert; auto.
    + rewrite length_insert. split; [done|]. apply Forall_insert; [done|]. lia.
    + rewrite length_insert. split; [done|]. apply Forall_insert; [done|]. lia.
  - constructor; cbn; try done.
    + intros col j Hj. unfold fset. repeat case_decide; subst; rewrite ?list_lookup_insert_ne by done; done.
    + intros j Hj. by rewrite list_lookup_insert_ne.
    + intros j Hj. by rewrite list_lookup_insert_ne.
    + intros j Hj. unfold emb. destruct (prompt_embeds q); [by rewrite lookup_insert_ne|done].
    + intros j Hj. by rewrite Er, decide_False.
  - fset_simpl. rewrite list_lookup_insert_eq by (rewrite Sic; lia). done.
  - fset_simpl. rewrite list_lookup_insert_eq by (rewrite Sic; lia). done.
  - fset_simpl. rewrite list_lookup_insert_eq by (rewrite Sic; lia). done.
  - fset_simpl. rewrite list_lookup_insert_eq by (rewrite Sic; lia). done.
  - intros col Hcol. destruct col; fset_simpl; try done; exfalso; apply Hcol; set_solver.
  - rewrite !Hpre by (done || cbn; fset_simpl; rewrite list_lookup_insert_eq by (rewrite Sic; lia); done). by rewrite Et2, Ef2.
  - rewrite !Hpre by (done || cbn; fset_simpl; rewrite list_lookup_insert_eq by (rewrite Sic; lia); done). done.
  - intros e He. unfold emb. rewrite He. by rewrite lookup_insert_eq.
  - by rewrite Er, decide_True.
  - done.
Qed.

(** *** The sampling parameters *)

Definition param_float (c : Config) (p : SamplingParams) (col : fcol) : Qc :=
  match col with
  | temperature_cpu => if decide (sampling_type p = GREEDY) then 0%Qc else f32 c (temperature p)
  | top_p_cpu => f32 c (top_p p)
  | frequency_penalties_cpu => f32 c (frequency_penalty p)
  | presence_penalties_cpu => f32 c (presence_penalty p)
  | repetition_penalties_cpu => f32 c (repetition_penalty p)
  end.
Definition param_top_k (c : Config) (p : SamplingParams) : Z := if bool_decide (0 < top_k p < vocab_size c)%Z then top_k p else vocab_size c.
(** Which sets a request belongs to *)
Definition in_set (c : Config) (p : SamplingParams) (s : idset) : bool :=
  match s with
  | greedy_reqs => bool_decide (sampling_type p = GREEDY)
  | random_reqs => bool_decide (sampling_type p ≠ GREEDY)
  | top_p_reqs => bool_decide (top_p p < 1)%Qc
  | top_k_reqs => bool_decide (0 < top_k p < vocab_size c)%Z
  | spec_decode_unsupported_reqs => is_spec_decode c && is_spec_decode_unsupported p
  | frequency_penalties_reqs => bool_decide (frequency_penalty p ≠ 0%Qc)
  | presence_penalties_reqs => bool_decide (presence_penalty p ≠ 0%Qc)
  | repetition_penalties_reqs => bool_decide (repetition_penalty p ≠ 1%Qc)
  | has_allowed_token_ids => match allowed_token_ids p with Some (_ :: _) => true | _ => false end
  end.
Definition param_logprobs (c : Config) (p : SamplingParams) : option Z := (λ n, if decide (n = -1)%Z then vocab_size c else n) <$> logprobs p.
Definition param_bad_words (p : SamplingParams) : option (list (list Z)) := match bad_words_token_ids p with Some (_ :: _) => bad_words_token_ids p | _ => None end.
Definition opt_insert {V} (k : nat) (o : option V) (m : gmap nat V) : gmap nat V := match o with Some v => <[k := v]> m | None => m end.

Record sampling_entered (c : Config) (k : nat) (id : string) (gen : option generator) (p : SamplingParams) (b b' : InputBatch) : Prop := {
  se_fcols : ∀ col, fcols (rows b') col = <[k := param_float c p col]> (fcols (rows b) col);
  se_top_k : icols (rows b') top_k_cpu = <[k := param_top_k c p]> (icols (rows b) top_k_cpu);
  se_icols : ∀ col, col ≠ top_k_cpu → icols (rows b') col = icols (rows b) col;
  se_dicts : generators (rows b') = opt_insert k gen (generators (rows b)) ∧ bad_words (rows b') = opt_insert k (param_bad_words p) (bad_words (rows b));
  se_mask : (∀ m, allowed_mask (rows b) = Some m → length m = max_num_reqs c) → ∀ m, allowed_mask (rows b') = Some m → length m = max_num_reqs c;
  se_idsets : ∀ s, idsets (by_id b') s = if in_set c p s then idsets (by_id b) s ∪ {[id]} else idsets (by_id b) s;
  se_logprobs : num_logprobs (by_id b') = match param_logprobs c p with Some n => <[id := n]> (num_logprobs (by_id b)) | None => num_logprobs (by_id b) end;
  se_rows : token_ids_cpu (rows b') = token_ids_cpu (rows b) ∧ is_token_ids (rows b') = is_token_ids (rows b) ∧ req_prompt_embeds (rows b') = req_prompt_embeds (rows b) ∧
    block_table (rows b') = block_table (rows b) ∧ needs_token_ids (rows b') = needs_token_ids (rows b) ∧ req_output_token_ids (rows b') = req_output_token_ids (rows b) ∧
    spec_token_ids (rows b') = spec_token_ids (rows b);
  se_ids : lora_id_to_request_ids (by_id b') = lora_id_to_request_ids (by_id b) ∧ lora_id_to_lora_request (by_id b') = lora_id_to_lora_request (by_id b) ∧
    pooling_params_of (by_id b') = pooling_params_of (by_id b);
  se_rest : config b' = config b ∧ _req_ids b' = _req_ids b ∧ req_id_to_index b' = req_id_to_index b ∧ builder b' = builder b ∧ logitsprocs b' = logitsprocs b ∧
    sampling_metadata b' = sampling_metadata b ∧ out_heap b' = out_heap b;
  se_device : gpu_fcols (device b') = gpu_fcols (device b) ∧ gpu_top_k (device b') = gpu_top_k (device b);
}.

(** [set_add] under a condition, as an equation *)
Lemma wp_when_add (t : bool) s id b (Q : () → InputBatch → Prop) :
  Q () (set_by_id (set_idsets (if t then fset s (idsets (by_id b) s ∪ {[id]}) (idsets (by_id b)) else idsets (by_id b)) (by_id b)) b) → wp (when t (set_add s id)) b Q.
Proof. destruct t; cbn [when]; intros HQ; [by apply wp_zoom, wp_modify|]. apply wp_ret. by destruct b as [????[]]. Qed.
Lemma wp_add_id s id b (Q : () → InputBatch → Prop) :
  Q () (set_by_id (set_idsets (fset s (idsets (by_id b) s ∪ {[id]}) (idsets (by_id b))) (by_id b)) b) → wp (set_add s id) b Q.
Proof. by apply (wp_when_add true). Qed.

Lemma enter_allowed_spec k id ids c b : config b = c → k < max_num_reqs c → (∀ m, allowed_mask (rows b) = Some m → length m = max_num_reqs c) → Forall (λ t, t < Z.to_nat (vocab_size c)) ids →
  wp (enter_allowed k id ids) b (λ _ b', ∃ m g, length m = max_num_reqs c ∧
    b' = set_rows (set_allowed_mask (Some m) (rows b)) (set_device (set_gpu_allowed_mask g (device b)) (set_by_id (set_idsets (fset has_allowed_token_ids (idsets (by_id b) has_allowed_token_ids ∪ {[id]}) (idsets (by_id b))) (by_id b)) b))).
Proof.
  intros Hc Hk Hm Hids. unfold enter_allowed. apply wp_bind, wp_add_id, wp_bind, wp_gets, wp_bind, wp_gets. cbn [config set_by_id rows]. rewrite Hc.
  assert (∀ m g, length m = max_num_reqs c → ∀ b1, b1 = set_rows (set_allowed_mask (Some m) (rows b)) (set_device (set_gpu_allowed_mask g (device b)) (set_by_id (set_idsets (fset has_allowed_token_ids (idsets (by_id b) has_allowed_token_ids ∪ {[id]}) (idsets (by_id b))) (by_id b)) b)) →
    wp (on_rows (λ r, default [] (allowed_mask r)) (λ m, set_allowed_mask (Some m)) (set_allowed_row k (Z.to_nat (vocab_size c)) ids)) b1 (λ _ b', ∃ m g, length m = max_num_reqs c ∧
    b' = set_rows (set_allowed_mask (Some m) (rows b)) (set_device (set_gpu_allowed_mask g (device b)) (set_by_id (set_idsets (fset has_allowed_token_ids (idsets (by_id b) has_allowed_token_ids ∪ {[id]}) (idsets (by_id b))) (by_id b)) b)))) as Hrow.
  { intros m g Lm b1 ->. apply wp_zoom, wp_zoom. unfold set_allowed_row. apply wp_bind, wp_np_set; [cbn; lia|]. rewrite decide_True by done. apply wp_np_set; [cbn; rewrite length_insert; lia|].
    eexists _, g. split; [|done]. cbn. by rewrite !length_insert. }
  apply wp_bind. destruct (allowed_mask (rows b)) as [m|] eqn:Em.
  - apply wp_ret. apply (Hrow m (gpu_allowed_mask (device b))); [by apply Hm|]. destruct b as [??? [] ?? ? [] ]; cbn in *; by subst.
  - apply wp_bind, wp_zoom, wp_modify, wp_zoom, wp_zoom, wp_modify. cbn. eapply Hrow; [|done]. by rewrite length_replicate.
Qed.

(** The columns [cols] and the sets [sets] have been written, and [top_k_cpu] if [tk]. *)
Record entering (c : Config) (k : nat) (id : string) (p : SamplingParams) (cols : list fcol) (tk : bool) (sets : list idset) (b b' : InputBatch) : Prop := {
  en_fcols : ∀ col, fcols (rows b') col = if decide (col ∈ cols) then <[k := param_float c p col]> (fcols (rows b) col) else fcols (rows b) col;
  en_top_k : icols (rows b') top_k_cpu = if tk then <[k := param_top_k c p]> (icols (rows b) top_k_cpu) else icols (rows b) top_k_cpu;
  en_icols : ∀ col, col ≠ top_k_cpu → icols (rows b') col = icols (rows b) col;
  en_idsets : ∀ s, idsets (by_id b') s = if decide (s ∈ sets) then (if in_set c p s then idsets (by_id b) s ∪ {[id]} else idsets (by_id b) s) else idsets (by_id b) s;
  en_rest : b' = set_by_id (set_idsets (idsets (by_id b')) (by_id b)) (set_rows (set_fcols (fcols (rows b')) (set_icols (icols (rows b')) (rows b))) b);
}.

Section entering.
Context (c : Config) (ls : list Layout) (k : nat) (id : string) (p : SamplingParams) (b : InputBatch) (Hshape : rows_shape c ls (rows b)) (Hk : k < max_num_reqs c).

Lemma entering_start : entering c k id p [] false [] b b.
Proof using. clear Hshape. constructor; [intros; by rewrite decide_False by apply not_elem_of_nil|done|done|intros; by rewrite decide_False by apply not_elem_of_nil|by destruct b as [???[][]]]. Qed.

Lemma entering_float cols tk sets b1 col v : entering c k id p cols tk sets b b1 → col ∉ cols → v = param_float c p col →
  wp (on_fcol col (np_set k v)) b1 (λ _ b2, entering c k id p (col :: cols) tk sets b b2).
Proof using All.
  intros [E1 E2 E3 E4 E5] Hcol ->. apply wp_zoom, wp_zoom, wp_np_set; [rewrite E1, decide_False by done; by rewrite (rs_fcols _ _ _ Hshape)|]. constructor; cbn; try done; [|by rewrite E5].
  intros col'. unfold fset. case_decide as E; [subst col'; rewrite decide_True by left; by rewrite E1, decide_False|]. rewrite E1. destruct (decide (col' ∈ cols)); [by rewrite decide_True by (by right)|].
  rewrite decide_False; [done|]. rewrite elem_of_cons. naive_solver.
Qed.
Lemma entering_set cols tk sets b1 s t : entering c k id p cols tk sets b b1 → s ∉ sets → t = in_set c p s → wp (when t (set_add s id)) b1 (λ _ b2, entering c k id p cols tk (s :: sets) b b2).
Proof using.
  intros [E1 E2 E3 E4 E5] Hs ->. apply wp_when_add. constructor; cbn; try done; [|by rewrite E5].
  intros s'. assert (idsets (by_id b1) s = idsets (by_id b) s) as Es by (by rewrite E4, decide_False). destruct (decide (s' = s)) as [->|N].
  - rewrite decide_True by left. unfold fset. destruct (in_set c p s); [by rewrite decide_True, Es|done].
  - assert ((if in_set c p s then fset s (idsets (by_id b1) s ∪ {[id]}) (idsets (by_id b1)) else idsets (by_id b1)) s' = idsets (by_id b1) s') as -> by (destruct (in_set c p s); [|done]; unfold fset; by rewrite decide_False).
    rewrite E4. destruct (decide (s' ∈ sets)); [by rewrite decide_True by (by right)|]. rewrite decide_False; [done|]. rewrite elem_of_cons. naive_solver.
Qed.
Lemma entering_top_k cols sets b1 v : entering c k id p cols false sets b b1 → v = param_top_k c p → wp (on_icol top_k_cpu (np_set k v)) b1 (λ _ b2, entering c k id p cols true sets b b2).
Proof using All.
  intros [E1 E2 E3 E4 E5] ->. apply wp_zoom, wp_zoom, wp_np_set; [by rewrite E2, (rs_icols _ _ _ Hshape)|]. constructor; cbn; try done; [unfold fset; by rewrite decide_True, E2| |by rewrite E5].
  intros col Hcol. unfold fset. rewrite decide_False by done. by apply E3.
Qed.
Lemma entering_temperature cols tk sets b1 : entering c k id p cols tk sets b b1 → temperature_cpu ∉ cols → greedy_reqs ∉ sets → random_reqs ∉ sets →
  wp (if decide (sampling_type p = GREEDY) then on_fcol temperature_cpu (np_set k 0%Qc);; set_add greedy_reqs id
      else on_fcol temperature_cpu (np_set k (f32 c (temperature p)));; set_add random_reqs id) b1
    (λ _ b2, entering c k id p (temperature_cpu :: cols) tk (greedy_reqs :: random_reqs :: sets) b b2).
Proof using All.
  intros H1 Hc Hg Hr. assert (∀ b2 s s' , entering c k id p (temperature_cpu :: cols) tk (s :: sets) b b2 → in_set c p s' = false → s' ∉ s :: sets → (∀ x, x ∈ s :: s' :: sets ↔ x ∈ greedy_reqs :: random_reqs :: sets) →
    entering c k id p (temperature_cpu :: cols) tk (greedy_reqs :: random_reqs :: sets) b b2) as Hweak.
  { intros b2 s s' [E1 E2 E3 E4 E5] Hs' Hn Hx. constructor; try done. intros x. rewrite E4. destruct (decide (x ∈ s :: sets)) as [Hi|Hi].
    - rewrite decide_True; [done|]. apply Hx. apply elem_of_cons in Hi as [->|?]; [left|right; by right].
    - case_decide as Hy; [|done]. apply Hx in Hy. rewrite !elem_of_cons in Hy. rewrite elem_of_cons in Hi. destruct Hy as [?|[->|?]]; [tauto|by rewrite Hs'|tauto]. }
  case_decide as E; apply wp_bind.
  - eapply wp_mono; [apply (entering_float cols tk sets _ temperature_cpu); [done|done|cbn; by rewrite decide_True]|]. intros [] b2 H2.
    eapply wp_mono; [apply (entering_set _ _ _ _ greedy_reqs true H2); [done|cbn; by rewrite bool_decide_true]|]. intros [] b3 H3. eapply (Hweak _ _ random_reqs); [exact H3|cbn; rewrite bool_decide_false; [done|tauto]|set_solver|done].
  - eapply wp_mono; [apply (entering_float cols tk sets _ temperature_cpu); [done|done|cbn; by rewrite decide_False]|]. intros [] b2 H2.
    eapply wp_mono; [apply (entering_set _ _ _ _ random_reqs true H2); [done|cbn; by rewrite bool_decide_true]|]. intros [] b3 H3. eapply (Hweak _ _ greedy_reqs); [exact H3|cbn; by rewrite bool_decide_false|set_solver|set_solver].
Qed.
End entering.

(** All columns and sets but that of the allowed tokens *)
Definition all_entered (c : Config) (k : nat) (id : string) (p : SamplingParams) (b b' : InputBatch) : Prop :=
  entering c k id p (reverse sampling_fcols) true
    [repetition_penalties_reqs; presence_penalties_reqs; frequency_penalties_reqs; top_k_reqs; top_p_reqs; greedy_reqs; random_reqs; spec_decode_unsupported_reqs] b b'.

Lemma opt_insert_spec {V} k (o : option V) (m : gmap nat V) (Q : () → gmap nat V → Prop) : Q () (opt_insert k o m) → wp (match o with Some v => dict_set k v | None => mret () end) m Q.
Proof. by destruct o. Qed.

Lemma enter_sampling_spec c ls k id gen p b : config b = c → rows_shape c ls (rows b) → k < max_num_reqs c →
  (∀ ids, allowed_token_ids p = Some ids → Forall (λ t, t < Z.to_nat (vocab_size c)) ids) →
  wp (enter_sampling k id gen p) b (λ _ b', sampling_entered c k id gen p b b').
Proof.
  intros Hc H Hk Hids. unfold enter_sampling. apply wp_bind, wp_gets. rewrite Hc.
  apply wp_bind. eapply wp_mono; [apply (entering_set c k id p b _ _ _ _ spec_decode_unsupported_reqs _ (entering_start c k id p b)); [apply not_elem_of_nil|done]|]. intros [] b1 H1.
  apply wp_bind. eapply wp_mono; [apply (entering_temperature c ls k id p b H Hk _ _ _ _ H1); set_solver|]. intros [] b2 H2.
  apply wp_bind. eapply wp_mono; [apply (entering_float c ls k id p b H Hk _ _ _ _ top_p_cpu _ H2); [set_solver|done]|]. intros [] b3 H3.
  apply wp_bind. eapply wp_mono; [apply (entering_set c k id p b _ _ _ _ top_p_reqs _ H3); [set_solver|done]|]. intros [] b4 H4.
  apply wp_bind. eapply wp_mono; [apply (entering_set c k id p b _ _ _ _ top_k_reqs _ H4); [set_solver|done]|]. intros [] b5 H5.
  apply wp_bind. eapply wp_mono; [apply (entering_top_k c ls k id p b H Hk _ _ _ _ H5); done|]. intros [] b6 H6.
  apply wp_bind. eapply wp_mono; [apply (entering_float c ls k id p b H Hk _ _ _ _ frequency_penalties_cpu _ H6); [set_solver|done]|]. intros [] b7 H7.
  apply wp_bind. eapply wp_mono; [apply (entering_set c k id p b _ _ _ _ frequency_penalties_reqs _ H7); [set_solver|done]|]. intros [] b8 H8.
  apply wp_bind. eapply wp_mono; [apply (entering_float c ls k id p b H Hk _ _ _ _ presence_penalties_cpu _ H8); [set_solver|done]|]. intros [] b9 H9.
  apply wp_bind. eapply wp_mono; [apply (entering_set c k id p b _ _ _ _ presence_penalties_reqs _ H9); [set_solver|done]|]. intros [] b10 H10.
  apply wp_bind. eapply wp_mono; [apply (entering_float c ls k id p b H Hk _ _ _ _ repetition_penalties_cpu _ H10); [set_solver|done]|]. intros [] b11 H11.
  apply wp_bind. eapply wp_mono; [apply (entering_set c k id p b _ _ _ _ repetition_penalties_reqs _ H11); [set_solver|done]|]. intros [] b12 H12.
  change (all_entered c k id p b b12) in H12. clear -Hc H Hk Hids H12. destruct H12 as [E1 E2 E3 E4 E5]. rename b12 into b1.
  set (gens := opt_insert k gen (generators (rows b))). set (lps := match param_logprobs c p with Some n => <[id := n]> (num_logprobs (by_id b)) | None => num_logprobs (by_id b) end).
  set (bad := opt_insert k (param_bad_words p) (bad_words (rows b))).
  (* the generator and the number of log probabilities *)
  apply wp_bind, wp_mono with (λ _ b2, b2 = set_rows (set_generators gens (rows b1)) b1).
  { unfold gens, opt_insert. destruct gen; [by apply wp_zoom, wp_zoom, wp_modify; rewrite E5|]. apply wp_ret. rewrite E5. by destruct b as [???[]]. }
  intros _ b2 ->. apply wp_bind, wp_mono with (λ _ b3, b3 = set_by_id (set_num_logprobs lps (by_id b1)) (set_rows (set_generators gens (rows b1)) b1)).
  { unfold lps, param_logprobs. destruct (logprobs p) as [n|]; cbn [fmap option_fmap option_map]; [by apply wp_zoom, wp_modify; rewrite E5|]. apply wp_ret. rewrite E5. by destruct b as [????[]]. }
  intros _ b3 ->. set (b4 := set_by_id _ _). assert (allowed_mask (rows b4) = allowed_mask (rows b) ∧ config b4 = c) as [Em4 Ec4] by (unfold b4; rewrite E5; done).
  (* the allowed tokens *)
  apply wp_bind, wp_mono with (λ _ b5, ∃ mask g fs, (∀ m, mask = Some m → length m = max_num_reqs c) ∧ (∀ s, fs s = if in_set c p s then idsets (by_id b) s ∪ {[id]} else idsets (by_id b) s) ∧
      b5 = set_rows (set_allowed_mask mask (rows b4)) (set_device (set_gpu_allowed_mask g (device b4)) (set_by_id (set_idsets fs (by_id b4)) b4))).
  { destruct (allowed_token_ids p) as [[|t ids]|] eqn:Ea.
    2: { eapply wp_mono; [apply (enter_allowed_spec k id _ c); [done|done|rewrite Em4; apply H|by apply Hids]|]. intros _ b5 (m & g & Lm & ->). eexists (Some m), g, _. split_and!; [by intros ? [= <-]| |done].
      intros s. cbn. unfold fset. destruct (decide (s = has_allowed_token_ids)) as [->|N]; [cbn; rewrite E4, decide_False by set_solver; by rewrite Ea|]. rewrite E4, decide_True; [done|]. destruct s; try done; set_solver. }
    all: apply wp_ret; exists (allowed_mask (rows b)), (gpu_allowed_mask (device b)), (idsets (by_id b1)); split_and!; [apply H| |unfold b4; rewrite E5; by destruct b as [???[][]??[]]].
    all: intros s; rewrite E4; destruct (decide (s = has_allowed_token_ids)) as [->|N]; [rewrite decide_False by set_solver; cbn; by rewrite Ea|]; rewrite decide_True; [done|]; destruct s; try done; set_solver. }
  intros _ b5 (mask & g & fs & Hmask & Hsets & Eb5).
  (* the bad words *)
  apply wp_mono with (λ _ b6, b6 = set_rows (set_bad_words bad (rows b5)) b5).
  { unfold bad, param_bad_words, opt_insert. destruct (bad_words_token_ids p) as [[|w ws]|] eqn:Eb; [|by apply wp_zoom, wp_zoom, wp_modify; rewrite Eb5; unfold b4; rewrite E5|]; apply wp_ret; rewrite Eb5; unfold b4; rewrite E5; by destruct b as [???[]]. }
  intros _ b6 ->. subst b5. constructor; unfold b4; cbn.
  - intros col. rewrite E1, decide_True; [done|]. destruct col; unfold sampling_fcols; set_solver.
  - done.
  - done.
  - done.
  - intros _. done.
  - exact Hsets.
  - done.
  - rewrite E5. done.
  - rewrite E5. done.
  - rewrite E5. done.
  - rewrite E5. done.
Qed.

(** *** The adapter and the lists *)

Definition lora_id_of (l : option LoRARequest) : Z := match l with Some l => lora_int_id l | None => 0%Z end.

Lemma enter_lora_spec c ls lo k id l b : rows_shape c ls (rows b) → k < max_num_reqs c → lora_ok lo (by_id b) → lo id = None → (∀ x, l = Some x → lora_int_id x ≠ 0%Z) →
  wp (enter_lora k id l) b (λ _ b', lora_ok (λ id', if decide (id' = id) then Some (lora_id_of l) else lo id') (by_id b') ∧
    (∃ s1 s2, by_id b' = set_lora_id_to_lora_request s2 (set_lora_id_to_request_ids s1 (by_id b))) ∧
    b' = set_by_id (by_id b') (set_rows (set_icols (fset request_lora_mapping (<[k := lora_id_of l]> (icols (rows b) request_lora_mapping)) (icols (rows b))) (rows b)) b)).
Proof.
  intros H Hk Hlo Hid Hl. pose proof (rs_icols _ _ _ H request_lora_mapping) as Lc. destruct l as [x|]; cbn.
  - specialize (Hl x eq_refl). apply wp_bind, wp_zoom, wp_modify, wp_bind, wp_zoom, wp_zoom, wp_np_set; [cbn; lia|]. apply wp_bind, wp_zoom, wp_modify, wp_zoom, wp_modify. cbn. split_and!; [|by eexists _, _|done].
    set (m := match lora_id_to_request_ids (by_id b) !! lora_int_id x with Some _ => _ | None => _ end). set (x' := lora_int_id x) in *.
    assert (∀ l', l' ≠ x' → m !! l' = lora_id_to_request_ids (by_id b) !! l') as Hm by (intros l' N; unfold m; destruct (lora_id_to_request_ids (by_id b) !! x'); [done|by rewrite lookup_insert_ne]).
    assert (default ∅ (m !! x') = default ∅ (lora_id_to_request_ids (by_id b) !! x')) as Hm' by (unfold m; destruct (lora_id_to_request_ids (by_id b) !! x') eqn:E; [by rewrite E|by rewrite lookup_insert_eq]).
    intros l'. cbn. destruct (decide (l' = x')) as [->|N].
    + rewrite lookup_insert_eq, Hm'. split_and!; [done|set_solver|rewrite lookup_insert_eq; eauto|]. intros id'. rewrite elem_of_union, elem_of_singleton. specialize (Hlo x').
      destruct (lora_id_to_request_ids (by_id b) !! x') as [ids|]; cbn.
      * destruct Hlo as (_ & _ & _ & Hlo). rewrite Hlo. case_decide; [naive_solver|naive_solver].
      * specialize (Hlo Hl id'). case_decide; [naive_solver|]. set_solver.
    + rewrite !lookup_insert_ne, Hm by done. specialize (Hlo l'). destruct (lora_id_to_request_ids (by_id b) !! l') as [ids|].
      * destruct Hlo as (? & ? & ? & Hlo). split_and!; [done..|]. intros id'. rewrite Hlo. case_decide; [subst; rewrite Hid; naive_solver|done].
      * intros Hn id'. case_decide; [congruence|]. by apply Hlo.
  - apply wp_zoom, wp_zoom, wp_np_set; [cbn; lia|]. cbn. split_and!; [|by destruct (by_id b); eexists _, _|by destruct b].
    intros l'. specialize (Hlo l'). destruct (lora_id_to_request_ids (by_id b) !! l') as [ids|].
    + destruct Hlo as (? & ? & ? & Hlo). split_and!; [done..|]. intros id'. rewrite Hlo. case_decide; [subst; rewrite Hid; naive_solver|done].
    + intros Hn id'. case_decide; [congruence|]. by apply Hlo.
Qed.

(** The row [k] is the next row, or an empty one. *)
Definition row_for_new (b : InputBatch) (k : nat) : Prop := k = length (_req_ids b) ∨ _req_ids b !! k = Some None.

Record lists_entered (k : nat) (q : CachedRequestState) (b b' : InputBatch) : Prop := {
  le_ids : ∀ j, _req_ids b' !! j = if decide (j = k) then Some (Some (req_id q)) else _req_ids b !! j;
  le_length : length (_req_ids b') = length (_req_ids b) `max` S k;
  le_outputs : ∀ j, req_output_token_ids (rows b') !! j = if decide (j = k) then Some (Some (output_token_ids q)) else req_output_token_ids (rows b) !! j;
  le_outputs_length : length (req_output_token_ids (rows b')) = length (_req_ids b');
  le_specs : ∀ j, j ≠ k → default [] (spec_token_ids (rows b') !! j) = default [] (spec_token_ids (rows b) !! j);
  le_spec_old : ∀ j, j ≠ k → j < length (_req_ids b) → spec_token_ids (rows b') !! j = spec_token_ids (rows b) !! j;
  le_spec : spec_token_ids (rows b') !! k = Some [];
  le_specs_length : length (_req_ids b') ≤ length (spec_token_ids (rows b'));
  le_rest : b' = set_rows (set_spec_token_ids (spec_token_ids (rows b')) (set_req_output_token_ids (req_output_token_ids (rows b')) (rows b))) (set__req_ids (_req_ids b') b);
}.

Lemma enter_lists_spec k q b : row_for_new b k → length (req_output_token_ids (rows b)) = length (_req_ids b) → length (_req_ids b) ≤ length (spec_token_ids (rows b)) →
  (k = length (_req_ids b) → default [] (spec_token_ids (rows b) !! k) = []) → wp (enter_lists k q) b (λ _ b', lists_entered k q b b').
Proof.
  intros Hk Lo Ls Hs. unfold enter_lists. apply wp_bind, wp_gets. case_decide as E.
  - apply wp_bind, wp_zoom, wp_modify, wp_bind, wp_zoom, wp_zoom, wp_modify, wp_zoom, wp_zoom, wp_modify. cbn. specialize (Hs E). constructor; cbn; rewrite ?length_app; cbn; try lia.
    + intros j. case_decide as Ej; [subst; by rewrite list_lookup_middle|]. destruct (decide (j < length (_req_ids b))); [by rewrite lookup_app_l|].
      rewrite !lookup_ge_None_2 by (rewrite ?length_app; cbn; lia). done.
    + intros j. case_decide as Ej; [subst j; by rewrite list_lookup_middle by lia|]. destruct (decide (j < length (_req_ids b))); [by rewrite lookup_app_l by lia|].
      rewrite !lookup_ge_None_2 by (rewrite ?length_app; cbn; lia). done.
    + intros j _. destruct (decide (j < length (spec_token_ids (rows b)))); [by rewrite lookup_app_l|]. rewrite lookup_app_r by lia. rewrite (lookup_ge_None_2 (spec_token_ids _)) by lia. by destruct (j - _).
    + intros j _ Hj. by rewrite lookup_app_l by lia.
    + destruct (decide (k < length (spec_token_ids (rows b)))) as [Hl|Hl].
      * rewrite lookup_app_l by done. destruct (lookup_lt_is_Some_2 _ _ Hl) as [x Hx]. rewrite Hx in Hs |- *. cbn in Hs. by subst.
      * rewrite list_lookup_middle by lia. done.
    + done.
  - destruct Hk as [?|Hk]; [done|]. pose proof (lookup_lt_Some _ _ _ Hk) as Hl. apply wp_bind, wp_zoom, wp_np_set; [done|]. apply wp_bind, wp_zoom, wp_zoom, wp_np_set; [cbn; lia|]. apply wp_zoom, wp_zoom, wp_list_clear; [cbn; lia|]. cbn.
    constructor; cbn; rewrite ?length_insert; try lia; try done.
    + intros j. case_decide as Ej; [subst; by rewrite list_lookup_insert_eq|by rewrite list_lookup_insert_ne].
    + intros j. case_decide as Ej; [subst; by rewrite list_lookup_insert_eq by lia|by rewrite list_lookup_insert_ne].
    + intros j Hj. by rewrite list_lookup_insert_ne.
    + intros j Hj _. by rewrite list_lookup_insert_ne.
    + by rewrite list_lookup_insert_eq by lia.
Qed.

(** The index of a new row *)
Lemma register_spec c ls q b : batch_inv c ls b → holes b → num_reqs b < max_num_reqs c → wp (_register_add_request q) b (λ k b',
  row_for_new b k ∧ k < max_num_reqs c ∧ b' = set_builder (builder b') b ∧ builder_ok (builder b') ∧ Builder.moved (builder b') = Builder.moved (builder b) ∧
  Builder.added (builder b') = Builder.added (builder b) ++ match sampling_params q with Some p => [(k, p, prompt_token_ids q, output_token_ids q)] | None => [] end ∧
  NoDup (Builder._removed (builder b')) ∧ (∀ j : nat, j ∈ Builder._removed (builder b') ↔ j ≠ k ∧ j ∈ Builder._removed (builder b))).
Proof.
  intros H Hh Hn. pose proof (holes_count c ls b H Hh) as Hcount. destruct Hh as [Hnd Hh]. pose proof (bi_bound _ _ _ H) as Hb. unfold _register_add_request. apply wp_bind, wp_zoom. eapply wp_mono; [apply pop_removed_spec, H|].
  intros popped u (Hu & Ua & Um & Hp).
  assert (∃ k, wp (match popped with Some i => mret i | None => gets num_reqs end) (set_builder u b) (λ i b', i = k ∧ b' = set_builder u b) ∧ row_for_new b k ∧ k < max_num_reqs c ∧
    NoDup (Builder._removed u) ∧ ∀ j : nat, j ∈ Builder._removed u ↔ j ≠ k ∧ j ∈ Builder._removed (builder b)) as (k & Hw & Hrow & Hk & Hnd' & Hrm).
  { destruct popped as [i|].
    - destruct Hp as (Hp & _). assert (NoDup (i :: Builder._removed u)) as [Hi Hnd']%NoDup_cons by (by rewrite <-Hp). exists i. assert (_req_ids b !! i = Some None) as Ei by (apply Hh; rewrite Hp; left).
      pose proof (lookup_lt_Some _ _ _ Ei). split_and!; [by apply wp_ret|by right|lia|done|]. intros j. rewrite Hp, elem_of_cons. split; [intros Hj; split; [by intros ->|by right]|]. intros [N [?|?]]; done.
    - destruct Hp as (Hp & ->). exists (num_reqs b). split_and!; [by apply wp_gets| |done|by rewrite Hp; constructor|].
      + left. rewrite Hp in Hcount. cbn in Hcount. lia.
      + intros j. rewrite Hp. split; [by intros ?%not_elem_of_nil|by intros [_ ?%not_elem_of_nil]]. }
  apply wp_bind. eapply wp_mono; [exact Hw|]. intros i b1 [-> ->]. clear Hw. apply wp_bind, wp_gets. cbn [config set_builder]. rewrite (bi_config _ _ _ H). apply wp_bind, wp_assert; [by apply bool_decide_eq_true|].
  apply wp_bind, wp_zoom, wp_modify, wp_bind. destruct (sampling_params q) as [p|].
  - apply wp_zoom, wp_modify, wp_ret. cbn. rewrite Ua. split_and!; done.
  - apply wp_ret, wp_ret. cbn. rewrite Ua, app_nil_r. split_and!; done.
Qed.

(** *** The whole operation *)

(** What a row has to hold for a new request *)
Definition request_row (c : Config) (ls : list Layout) (h : heap) (q : CachedRequestState) (n : nat) : RowData :=
  let total := (Z.of_nat n + Z.of_nat (length (tokens_of h (output_token_ids q))))%Z in
  mkRowData (request_tokens h q n)
    (if decide (prompt_token_ids q = None ∧ n ≠ 0) then prompt_embeds q else None)
    ([Some total; Some total; Some (Z.of_nat n); Some (num_computed_tokens q); Some (lora_id_of (lora_request q))] ++
       if is_pooling_model c then [] else match sampling_params q with Some p => [Some (param_top_k c p); Some 1%Z] | None => [] end)
    (if is_pooling_model c then [] else match sampling_params q with Some p => (λ col, Some (param_float c p col)) <$> sampling_fcols | None => [] end)
    (kernel_rows ls (block_ids q))
    (if is_pooling_model c then None else req_generator q)
    (if is_pooling_model c then None else sampling_params q ≫= param_bad_words)
    (Some (Some (output_token_ids q))) (Some []).

(** The rows after the sampling or pooling parameters have been entered *)
Record params_entered (c : Config) (k : nat) (q : CachedRequestState) (r r' : Rows) : Prop := {
  pe_fcols : match sampling_params q with Some p => ∀ col, fcols r' col = <[k := param_float c p col]> (fcols r col) | None => fcols r' = fcols r end;
  pe_top_k : match sampling_params q with Some p => icols r' top_k_cpu = <[k := param_top_k c p]> (icols r top_k_cpu) | None => icols r' top_k_cpu = icols r top_k_cpu end;
  pe_icols : ∀ col, col ≠ top_k_cpu → icols r' col = icols r col;
  pe_dicts : match sampling_params q with
    | Some p => generators r' = opt_insert k (req_generator q) (generators r) ∧ bad_words r' = opt_insert k (param_bad_words p) (bad_words r)
    | None => generators r' = generators r ∧ bad_words r' = bad_words r
    end;
  pe_mask : (∀ m, allowed_mask r = Some m → length m = max_num_reqs c) → ∀ m, allowed_mask r' = Some m → length m = max_num_reqs c;
  pe_needs : length (needs_token_ids r') = length (needs_token_ids r);
  pe_rest : token_ids_cpu r' = token_ids_cpu r ∧ is_token_ids r' = is_token_ids r ∧ req_prompt_embeds r' = req_prompt_embeds r ∧ block_table r' = block_table r ∧
    req_output_token_ids r' = req_output_token_ids r ∧ spec_token_ids r' = spec_token_ids r;
}.

(** From the parts to the whole: the rows after the lists ([r1]), the tokens ([r2]), the
    parameters ([r3]) and the two last columns ([r4]) *)
Section added_rows.
Context (c : Config) (ls : list Layout) (k : nat) (q : CachedRequestState) (n : nat) (b b1 : InputBatch) (r2 r3 r4 : Rows).
Context (Hinv : batch_inv c ls b) (Hq : request_ok c ls (out_heap b) q n) (Hk : k < max_num_reqs c) (Hnew : row_for_new b k).
Context (H1 : lists_entered k q b b1) (H2 : tokens_entered c ls (out_heap b) k q n (rows b1) r2) (H3 : params_entered c k q r2 r3).
Context (H4 : r4 = set_icols (fset request_lora_mapping (<[k := lora_id_of (lora_request q)]> (icols r3 request_lora_mapping))
                     (fset num_accepted_tokens_cpu (<[k := 1%Z]> (icols r3 num_accepted_tokens_cpu)) (icols r3))) r3).

Lemma added_icols col : icols r4 col = match col with
  | top_k_cpu => icols r3 top_k_cpu
  | num_accepted_tokens_cpu => <[k := 1%Z]> (icols (rows b) num_accepted_tokens_cpu)
  | request_lora_mapping => <[k := lora_id_of (lora_request q)]> (icols (rows b) request_lora_mapping)
  | _ => icols r2 col
  end.
Proof using All.
  assert (∀ col, col ∉ [num_tokens; num_tokens_no_spec; num_prompt_tokens; num_computed_tokens_cpu] → icols r2 col = icols (rows b) col) as E2.
  { intros col' Hc. rewrite (te_other _ _ _ _ _ _ _ _ H2) by done. by rewrite (le_rest _ _ _ _ H1). }
  rewrite H4. cbn. destruct col; fset_simpl; try (apply (pe_icols _ _ _ _ _ H3); done); try done; f_equal; rewrite (pe_icols _ _ _ _ _ H3) by done; apply E2; set_solver.
Qed.

Lemma added_shape : rows_shape c ls r4.
Proof using All.
  pose proof (te_shape _ _ _ _ _ _ _ _ H2) as [Sic Sfc St Sf Sb Sm Sn]. pose proof (pe_rest _ _ _ _ _ H3) as (E1 & E2 & E3 & E4 & E5 & E6). pose proof (bi_rows _ _ _ Hinv) as [Sic0 _ _ _ _ _ _].
  constructor.
  - intros col. rewrite added_icols. destruct col; rewrite ?length_insert; auto. pose proof (pe_top_k _ _ _ _ _ H3) as Ht. destruct (sampling_params q); rewrite Ht, ?length_insert; auto.
  - intros col. rewrite H4. cbn. pose proof (pe_fcols _ _ _ _ _ H3) as Hf. destruct (sampling_params q); rewrite Hf, ?length_insert; auto.
  - rewrite H4. cbn. by rewrite E1.
  - rewrite H4. cbn. by rewrite E2.
  - rewrite H4. cbn. by rewrite E4.
  - rewrite H4. cbn. by apply (pe_mask _ _ _ _ _ H3).
  - rewrite H4. cbn. by rewrite (pe_needs _ _ _ _ _ H3).
Qed.

Lemma added_off : agree_off k (rows b) r4.
Proof using All.
  transitivity (rows b1); [|transitivity r2; [apply H2|]].
  - rewrite (le_rest _ _ _ _ H1). constructor; cbn; try done; [|apply H1]. intros j Hj. by rewrite (le_outputs _ _ _ _ H1), decide_False.
  - pose proof (pe_rest _ _ _ _ _ H3) as (E1 & E2 & E3 & E4 & E5 & E6). pose proof (pe_dicts _ _ _ _ _ H3) as Hd. pose proof (pe_fcols _ _ _ _ _ H3) as Hf. pose proof (pe_top_k _ _ _ _ _ H3) as Ht.
    constructor; rewrite ?H4; cbn; rewrite ?E1, ?E2, ?E3, ?E4, ?E5, ?E6; try done.
    + intros col j Hj. unfold fset. repeat case_decide; subst; rewrite ?list_lookup_insert_ne by done; try (by rewrite (pe_icols _ _ _ _ _ H3)).
      destruct (decide (col = top_k_cpu)) as [->|]; [|by rewrite (pe_icols _ _ _ _ _ H3)]. destruct (sampling_params q); rewrite Ht; [by rewrite list_lookup_insert_ne|done].
    + intros col j Hj. destruct (sampling_params q); rewrite Hf; [by rewrite list_lookup_insert_ne|done].
    + intros j Hj. destruct (sampling_params q); destruct Hd as [-> _]; [|done]. unfold opt_insert. destruct (req_generator q); [by rewrite lookup_insert_ne|done].
    + intros j Hj. destruct (sampling_params q) as [p|]; destruct Hd as [_ ->]; [|done]. unfold opt_insert. destruct (param_bad_words p); [by rewrite lookup_insert_ne|done].
Qed.

Lemma added_length : row_length r4 k = n + length (tokens_of (out_heap b) (output_token_ids q)).
Proof using All. unfold row_length. rewrite added_icols, (te_total _ _ _ _ _ _ _ _ H2). cbn. lia. Qed.
Lemma added_prefix {A} (t : list (list A)) : row_prefix t r4 k = row_prefix t r2 k.
Proof using All. unfold row_prefix. rewrite added_length. f_equal. unfold row_length. rewrite (te_total _ _ _ _ _ _ _ _ H2). cbn. lia. Qed.

Lemma added_flags : row_prefix (is_token_ids r4) r4 k = replicate n (prompt_flag q) ++ replicate (length (tokens_of (out_heap b) (output_token_ids q))) true.
Proof using All.
  rewrite added_prefix. pose proof (pe_rest _ _ _ _ _ H3) as (_ & E2 & _). rewrite H4. cbn. rewrite E2. apply H2.
Qed.
Lemma added_all_tokens : Forall (λ f, f = true) (row_prefix (is_token_ids r4) r4 k) ↔ ¬ (prompt_token_ids q = None ∧ n ≠ 0).
Proof using All.
  rewrite added_flags, Forall_app. unfold prompt_flag. destruct (prompt_token_ids q) as [ids|].
  - rewrite bool_decide_true by eauto. split; [by intros _ [? _]|]. intros _. split; by apply Forall_replicate.
  - rewrite bool_decide_false by (by intros [? ?]). destruct n as [|m]; cbn.
    + split; [intros _ [_ ?]; done|]. intros _. split; [constructor|by apply Forall_replicate].
    + split; [intros [Hf _]; by apply Forall_cons in Hf as [? _]|]. intros []. by split.
Qed.
Lemma added_embeds : prompt_token_ids q = None → req_prompt_embeds r4 !! k = prompt_embeds q ∧ is_Some (prompt_embeds q).
Proof using All.
  intros Hp. destruct (ro_embeds _ _ _ _ _ Hq Hp) as (e & He & _). pose proof (pe_rest _ _ _ _ _ H3) as (_ & _ & E3 & _). rewrite H4. cbn. rewrite E3, He. split; [|eauto]. by apply (te_embeds _ _ _ _ _ _ _ _ H2).
Qed.

Lemma added_row_ok : row_ok c r4 k.
Proof using All.
  split_and!; [rewrite added_length; apply Hq| |].
  - intros Hf. rewrite added_all_tokens in Hf. destruct (decide (prompt_token_ids q = None)) as [Hp|Hp]; [destruct (added_embeds Hp) as [-> ?]; done|]. destruct Hf. intros [? _]. done.
  - exists (output_token_ids q). pose proof (pe_rest _ _ _ _ _ H3) as (_ & _ & _ & _ & E5 & _). pose proof (te_rest _ _ _ _ _ _ _ _ H2) as (_ & _ & _ & _ & _ & F6 & _).
    rewrite H4. cbn. rewrite E5, F6, (le_outputs _ _ _ _ H1), decide_True by done. done.
Qed.

Lemma added_data : generators (rows b) !! k = None → bad_words (rows b) !! k = None → row_data c r4 k = request_row c ls (out_heap b) q n.
Proof using All.
  intros Hg Hb. pose proof (pe_rest _ _ _ _ _ H3) as (E1 & E2 & E3 & E4 & E5 & E6). pose proof (te_rest _ _ _ _ _ _ _ _ H2) as (F1 & F2 & _ & F4 & _ & F6 & F7). pose proof (bi_rows _ _ _ Hinv) as [Sic Sfc _ _ _ _ _].
  assert (generators (rows b1) = generators (rows b) ∧ bad_words (rows b1) = bad_words (rows b) ∧ fcols (rows b1) = fcols (rows b)) as (G1 & G2 & G3) by (rewrite (le_rest _ _ _ _ H1); done).
  unfold row_data, request_row. f_equal.
  - rewrite !added_prefix. rewrite H4. cbn. rewrite E1, E2. apply H2.
  - destruct (decide (prompt_token_ids q = None ∧ n ≠ 0)) as [[Hp Hn]|Hp].
    + rewrite decide_False by (rewrite added_all_tokens; tauto). by apply added_embeds.
    + rewrite decide_True by (by apply added_all_tokens). done.
  - unfold icols_used. rewrite fmap_app. f_equal.
    + unfold common_icols. cbn. rewrite !added_icols, (te_total _ _ _ _ _ _ _ _ H2), (te_no_spec _ _ _ _ _ _ _ _ H2), (te_prompt _ _ _ _ _ _ _ _ H2), (te_computed _ _ _ _ _ _ _ _ H2), list_lookup_insert_eq by (by rewrite Sic). done.
    + pose proof (ro_kind _ _ _ _ _ Hq) as Hkind. destruct (is_pooling_model c); [done|]. destruct Hkind as [p Hp]. pose proof (pe_top_k _ _ _ _ _ H3) as Ht. rewrite Hp in Ht |- *. cbn. rewrite !added_icols, Ht.
      rewrite !list_lookup_insert_eq; [done|by rewrite Sic|]. rewrite (rs_icols _ _ _ (te_shape _ _ _ _ _ _ _ _ H2)). done.
  - unfold fcols_used. pose proof (ro_kind _ _ _ _ _ Hq) as Hkind. destruct (is_pooling_model c); [done|]. destruct Hkind as [p Hp]. pose proof (pe_fcols _ _ _ _ _ H3) as Hf. rewrite Hp in Hf |- *.
    apply list_fmap_ext. intros i col _. rewrite H4. cbn. rewrite Hf, F1, G3, list_lookup_insert_eq by (by rewrite Sfc). done.
  - rewrite H4. cbn. rewrite E4. apply H2.
  - pose proof (ro_kind _ _ _ _ _ Hq) as Hkind. destruct (is_pooling_model c); [done|]. destruct Hkind as [p Hp]. pose proof (pe_dicts _ _ _ _ _ H3) as Hd. rewrite Hp in Hd. destruct Hd as [Hd _]. rewrite H4. cbn. rewrite Hd, F2, G1. unfold opt_insert.
    destruct (req_generator q); [by rewrite lookup_insert_eq|done].
  - pose proof (ro_kind _ _ _ _ _ Hq) as Hkind. destruct (is_pooling_model c); [done|]. destruct Hkind as [p Hp]. pose proof (pe_dicts _ _ _ _ _ H3) as Hd. rewrite Hp in Hd |- *. destruct Hd as [_ Hd]. rewrite H4. cbn. rewrite Hd, F4, G2. unfold opt_insert.
    destruct (param_bad_words p); [by rewrite lookup_insert_eq|done].
  - rewrite H4. cbn. rewrite E5, F6, (le_outputs _ _ _ _ H1), decide_True by done. done.
  - rewrite H4. cbn. rewrite E6, F7. apply H1.
Qed.
End added_rows.

(** The result of adding a request *)
Record entered_batch (c : Config) (ls : list Layout) (q : CachedRequestState) (n k : nat) (b b' : InputBatch) : Prop := {
  eb_ids : ∀ j, _req_ids b' !! j = if decide (j = k) then Some (Some (req_id q)) else _req_ids b !! j;
  eb_length : length (_req_ids b') = length (_req_ids b) `max` S k;
  eb_index : req_id_to_index b' = <[req_id q := k]> (req_id_to_index b);
  eb_row : row_data c (rows b') k = request_row c ls (out_heap b) q n;
  eb_rows : ∀ j, occupied b j → row_data c (rows b') j = row_data c (rows b) j;
  eb_idsets : ∀ s, idsets (by_id b') s = match sampling_params q with Some p => if in_set c p s then idsets (by_id b) s ∪ {[req_id q]} else idsets (by_id b) s | None => idsets (by_id b) s end;
  eb_logprobs : num_logprobs (by_id b') = match sampling_params q ≫= param_logprobs c with Some x => <[req_id q := x]> (num_logprobs (by_id b)) | None => num_logprobs (by_id b) end;
  eb_rest : config b' = config b ∧ logitsprocs b' = logitsprocs b ∧ sampling_metadata b' = sampling_metadata b ∧ out_heap b' = out_heap b ∧
    gpu_fcols (device b') = gpu_fcols (device b) ∧ gpu_top_k (device b') = gpu_top_k (device b);
}.

(** The sampling or pooling parameters *)
Lemma enter_params_spec c ls k q n b : config b = c → rows_shape c ls (rows b) → k < max_num_reqs c → request_ok c ls (out_heap b) q n →
  wp (match sampling_params q, pooling_params q with
      | Some p, _ => enter_sampling k (req_id q) (req_generator q) p
      | None, Some pp => on_ids pooling_params_of set_pooling_params_of (dict_set (req_id q) pp);; on_rows needs_token_ids set_needs_token_ids (np_set k (requires_token_ids pp))
      | None, None => raise NotImplementedError
      end) b (λ _ b', params_entered c k q (rows b) (rows b') ∧
    (∀ s, idsets (by_id b') s = match sampling_params q with Some p => if in_set c p s then idsets (by_id b) s ∪ {[req_id q]} else idsets (by_id b) s | None => idsets (by_id b) s end) ∧
    num_logprobs (by_id b') = match sampling_params q ≫= param_logprobs c with Some x => <[req_id q := x]> (num_logprobs (by_id b)) | None => num_logprobs (by_id b) end ∧
    lora_id_to_request_ids (by_id b') = lora_id_to_request_ids (by_id b) ∧ lora_id_to_lora_request (by_id b') = lora_id_to_lora_request (by_id b) ∧
    config b' = config b ∧ _req_ids b' = _req_ids b ∧ req_id_to_index b' = req_id_to_index b ∧ builder b' = builder b ∧ logitsprocs b' = logitsprocs b ∧
    sampling_metadata b' = sampling_metadata b ∧ out_heap b' = out_heap b ∧ gpu_fcols (device b') = gpu_fcols (device b) ∧ gpu_top_k (device b') = gpu_top_k (device b)).
Proof.
  intros Hc H Hk Hq. pose proof (ro_kind _ _ _ _ _ Hq) as Hkind. destruct (sampling_params q) as [p|] eqn:Ep.
  - eapply wp_mono; [apply (enter_sampling_spec c ls); [done..|intros ids Ha; by apply (ro_allowed _ _ _ _ _ Hq p)]|].
    intros [] b' [E1 E2 E3 E4 E5 E6 E7 (R1 & R2 & R3 & R4 & R5 & R6 & R7) (S1 & S2 & S3) (T1 & T2 & T3 & T4 & T5 & T6 & T7) (U1 & U2)]. split_and!; try done.
    constructor; rewrite ?Ep; try done. by rewrite R5.
  - destruct (is_pooling_model c); [|by destruct Hkind]. destruct Hkind as [_ [pp Hpp]]. rewrite Hpp. apply wp_bind, wp_zoom, wp_modify, wp_zoom, wp_zoom, wp_np_set; [cbn; by rewrite (rs_needs _ _ _ H)|]. cbn. split_and!; try done.
    constructor; rewrite ?Ep; cbn; try done. by rewrite length_insert.
Qed.

Lemma new_row_free c ls b k : batch_inv c ls b → row_for_new b k → ¬ occupied b k.
Proof. intros H [-> | Hk] [id Hid]; [apply lookup_lt_Some in Hid; lia|congruence]. Qed.

(** The operation after its row has been found *)
Lemma fill_row_spec c ls q n k b : batch_inv c ls b → row_for_new b k → k < max_num_reqs c → req_id_to_index b !! req_id q = None → request_ok c ls (out_heap b) q n →
  wp (enter_lists k q;; zoom req_id_to_index set_req_id_to_index (dict_set (req_id q) k);; enter_tokens k q;;
      match sampling_params q, pooling_params q with
      | Some p, _ => enter_sampling k (req_id q) (req_generator q) p
      | None, Some pp => on_ids pooling_params_of set_pooling_params_of (dict_set (req_id q) pp);; on_rows needs_token_ids set_needs_token_ids (np_set k (requires_token_ids pp))
      | None, None => raise NotImplementedError
      end;;
      on_icol num_accepted_tokens_cpu (np_set k 1%Z);; enter_lora k (req_id q) (lora_request q);; mret k) b
    (λ k' b', k' = k ∧ batch_inv c ls b' ∧ builder b' = builder b ∧ entered_batch c ls q n k b b').
Proof.
  intros H Hrow Hk Hid Hq. pose proof H as [Hc Hr Hlen Ho Hs Hix Hb Hocc Hfree Hpool Hlo]. pose proof (new_row_free c ls b k H Hrow) as Hfk. destruct (Hfree k Hfk) as (Fg & Fb & Fs).
  apply wp_bind. eapply wp_mono; [apply enter_lists_spec; [exact Hrow|done|done|done]|]. intros [] b1 H1. pose proof (le_rest _ _ _ _ H1) as E1. apply wp_bind, wp_zoom, wp_modify.
  assert (rows_shape c ls (rows b1)) as S1 by (rewrite E1; destruct Hr; by constructor). assert (out_heap b1 = out_heap b ∧ config b1 = c ∧ req_id_to_index b1 = req_id_to_index b) as (Hh1 & C1 & X1) by (by rewrite E1). rewrite X1.
  apply wp_bind. eapply wp_mono; [apply (enter_tokens_spec c ls k q n); [exact S1|done|cbn; by rewrite Hh1]|]. cbn. rewrite Hh1. intros [] b2 [H2 E2].
  apply wp_bind. eapply wp_mono; [apply (enter_params_spec c ls k q n); [by rewrite E2|apply H2|done|rewrite E2; cbn; by rewrite Hh1]|].
  intros [] b3 (H3 & P1 & P2 & P3 & P4 & P5 & P6 & P7 & P8 & P9 & P10 & P11 & P12 & P13). assert (rows_shape c ls (rows b3)) as S3.
  { pose proof (te_shape _ _ _ _ _ _ _ _ H2) as [Sic Sfc St Sf Sb Sm Sn]. destruct H3 as [K1 K2 K3 _ K5 K6 (L1 & L2 & L3 & L4 & _)]. constructor; rewrite ?L1, ?L2, ?L4, ?K6; try done; [| |by apply K5].
    - intros col. destruct (decide (col = top_k_cpu)) as [->|]; [|by rewrite K3]. destruct (sampling_params q); rewrite K2, ?length_insert; auto.
    - intros col. destruct (sampling_params q); rewrite K1, ?length_insert; auto. }
  apply wp_bind, wp_zoom, wp_zoom, wp_np_set; [by rewrite (rs_icols _ _ _ S3)|]. set (b4 := set_rows _ b3).
  assert (by_id b2 = by_id b1) as Eby by (by rewrite E2). assert (by_id b1 = by_id b) as Eby1 by (by rewrite E1).
  apply wp_bind. eapply wp_mono.
  { apply (enter_lora_spec c ls (lora_of b)); [|done| |unfold lora_of; by rewrite Hid|apply Hq].
    - destruct S3. constructor; cbn; try done. intros col. unfold fset. case_decide; rewrite ?length_insert; auto.
    - intros l. specialize (Hlo l). cbn. rewrite P3, P4, Eby, Eby1. done. }
  intros [] b5 (Hlo5 & (s1 & s2 & Eby5) & Eb5). apply wp_ret. set (r4 := rows b5).
  assert (r4 = set_icols (fset request_lora_mapping (<[k := lora_id_of (lora_request q)]> (icols (rows b3) request_lora_mapping)) (fset num_accepted_tokens_cpu (<[k := 1%Z]> (icols (rows b3) num_accepted_tokens_cpu)) (icols (rows b3)))) (rows b3)) as H4.
  { unfold r4. rewrite Eb5. cbn. fset_simpl. done. }
  pose proof (added_shape c ls k q n b b1 _ _ r4 H Hq Hk Hrow H1 H2 H3 H4) as Sh. pose proof (added_off c ls k q n b b1 _ _ r4 H Hq Hk Hrow H1 H2 H3 H4) as Off.
  pose proof (added_row_ok c ls k q n b b1 _ _ r4 H Hq Hk Hrow H1 H2 H3 H4) as Rok. pose proof (added_data c ls k q n b b1 _ _ r4 H Hq Hk Hrow H1 H2 H3 H4 Fg Fb) as Data.
  pose proof (added_icols c ls k q n b b1 _ _ r4 H Hq Hk Hrow H1 H2 H3 H4 request_lora_mapping) as Elo. cbn in Elo.
  assert (req_output_token_ids r4 = req_output_token_ids (rows b1) ∧ spec_token_ids r4 = spec_token_ids (rows b1)) as [Eout Esp].
  { pose proof (pe_rest _ _ _ _ _ H3) as (_ & _ & _ & _ & K5 & K6). pose proof (te_rest _ _ _ _ _ _ _ _ H2) as (_ & _ & _ & _ & _ & F6 & F7). rewrite H4. cbn. by rewrite K5, K6, F6, F7. }
  assert (_req_ids b5 = _req_ids b1 ∧ req_id_to_index b5 = <[req_id q := k]> (req_id_to_index b) ∧ builder b5 = builder b ∧ config b5 = c) as (I1 & I2 & I3 & I4).
  { rewrite Eb5. cbn. rewrite P5, P6, P7, P8. rewrite E2. cbn. split_and!; [done|done| |done]. by rewrite E1. }
  assert (∀ j, occupied b5 j ↔ j = k ∨ occupied b j) as Eocc.
  { intros j. unfold occupied. rewrite I1. rewrite (le_ids _ _ _ _ H1). case_decide; naive_solver. }
  split_and!; [done| |done|].
  - constructor; [done|done| | | | |by rewrite I3| | | |].
    + rewrite I1, (le_length _ _ _ _ H1). lia.
    + fold r4. by rewrite Eout, I1, (le_outputs_length _ _ _ _ H1).
    + fold r4. rewrite Esp, I1. apply H1.
    + intros id' j. rewrite I1, I2, (le_ids _ _ _ _ H1). destruct (decide (id' = req_id q)) as [->|N].
      * rewrite lookup_insert_eq. case_decide as Ej; [naive_solver|]. split; [congruence|]. intros Hj%Hix. congruence.
      * rewrite lookup_insert_ne, Hix by done. case_decide as Ej; [|done]. subst j. split; [intros Hj; exfalso; apply Hfk; by exists id'|congruence].
    + intros j [->|Hj]%Eocc; [exact Rok|]. eapply agree_off_ok; [exact Off|congruence|by apply Hocc].
    + intros j Hj. rewrite Eocc in Hj. assert (j ≠ k) as N by tauto. destruct (Hfree j) as (G1 & G2 & G3); [tauto|]. destruct Off as [_ _ _ _ _ _ Og Ob _ Os]. fold r4. by rewrite Og, Ob, Os.
    + intros Hp. destruct (Hpool Hp) as [Pg Pb]. pose proof (ro_kind _ _ _ _ _ Hq) as Hkind. rewrite Hp in Hkind. destruct Hkind as [Hsp _]. pose proof (pe_dicts _ _ _ _ _ H3) as Hd. rewrite Hsp in Hd. destruct Hd as [D1 D2].
      pose proof (te_rest _ _ _ _ _ _ _ _ H2) as (_ & F2 & _ & F4 & _). fold r4. rewrite H4. cbn. rewrite D1, D2, F2, F4, E1. cbn. done.
    + eapply lora_ok_ext; [|exact Hlo5]. intros id'. unfold lora_of. rewrite I2. fold r4. rewrite Elo. case_decide as Ei.
      * subst. rewrite lookup_insert_eq. cbn. by rewrite list_lookup_insert_eq by (by rewrite (rs_icols _ _ _ Hr)).
      * rewrite lookup_insert_ne by done. destruct (req_id_to_index b !! id') as [j|] eqn:Ej; [|done]. cbn. rewrite list_lookup_insert_ne; [done|]. intros ->. apply Hix in Ej. apply Hfk. by exists id'.
  - constructor; [by rewrite I1; apply H1|by rewrite I1; apply H1|done|exact Data| | | |].
    + intros j Hj. assert (j ≠ k) as N by congruence. fold r4. apply (agree_off_data c k); [exact Off|done|]. rewrite Esp. apply (le_spec_old _ _ _ _ H1); [done|]. by apply occupied_lt.
    + intros s. rewrite Eb5. cbn. rewrite Eby5. cbn. rewrite P1, Eby, Eby1. done.
    + rewrite Eb5. cbn. rewrite Eby5. cbn. rewrite P2, Eby, Eby1. done.
    + rewrite Eb5. cbn. rewrite P5, P9, P10, P11, P12, P13, E2. cbn. rewrite E1. done.
Qed.

(** Adding a request *)
Lemma add_request_spec c ls q n b : batch_inv c ls b → holes b → num_reqs b < max_num_reqs c → req_id_to_index b !! req_id q = None → request_ok c ls (out_heap b) q n →
  wp (add_request q) b (λ k b', batch_inv c ls b' ∧ holes b' ∧ row_for_new b k ∧ k < max_num_reqs c ∧ entered_batch c ls q n k b b' ∧
    Builder.moved (builder b') = Builder.moved (builder b) ∧
    Builder.added (builder b') = Builder.added (builder b) ++ match sampling_params q with Some p => [(k, p, prompt_token_ids q, output_token_ids q)] | None => [] end ∧
    ∀ j : nat, j ∈ Builder._removed (builder b') ↔ j ≠ k ∧ j ∈ Builder._removed (builder b)).
Proof.
  intros H Hh Hn Hid Hq. unfold add_request. apply wp_bind. eapply wp_mono; [by apply (register_spec c ls)|]. intros k b1 (Hrow & Hk & E1 & Hu & Hm & Ha & Hnd & Hrm).
  assert (batch_inv c ls b1) as H1 by (rewrite E1; by apply set_builder_inv). assert (∀ A (f : InputBatch → A), (∀ u, f (set_builder u b) = f b) → f b1 = f b) as Ef by (intros A f Hf; rewrite E1; apply Hf).
  eapply wp_mono; [apply (fill_row_spec c ls q n k b1); [done|..]|].
  - destruct Hrow as [->|Hr]; [left|right]; by rewrite (Ef _ _req_ids).
  - done.
  - by rewrite (Ef _ req_id_to_index).
  - by rewrite (Ef _ out_heap).
  - intros k' b' (-> & H2 & Eb & He).
    assert (entered_batch c ls q n k b b') as He' by (rewrite E1 in He; by destruct He).
    split_and!; try done; [|by rewrite Eb..|by rewrite Eb]. split; rewrite Eb; [done|]. intros j. rewrite Hrm, (eb_ids _ _ _ _ _ _ _ He'). destruct Hh as [_ Hh]. rewrite Hh. case_decide; naive_solver.
Qed.
