(* ===== verification/InputBatchReorder.v ===== *)
(** * vllm/v1/attention/backends/utils.py: the order of the batch

    [reorder_batch_to_split_decodes_and_prefills] exchanges rows of the persistent batch until
    the requests that decode come first, then those that extend a computed prefix, then those
    that start.  Regions are the numbers 0, 1 and 2 of the source.  A cycle of the permutation
    takes at most one exchange per row that has to move, which is the fuel of its loop. *)

From Stdlib Require Import ZArith Lia QArith Qcanon.
From stdpp Require Import sorting.
From stdpp Require Import base tactics option numbers gmap strings list.
From S2P Require Import Prelude Numpy BlockTable LogitsProcessors InputBatch InputBatchInv.
Local Open Scope nat_scope.

(** ** The code *)

(** [np.argsort(keys, kind='stable')] applied to an array of indices: equal keys keep their order. *)
Fixpoint insert_by {A} (key : A → nat) (x : A) (l : list A) : list A :=
  match l with
  | [] => [x]
  | y :: l' => if decide (key x ≤ key y) then x :: l else y :: insert_by key x l'
  end.
Definition stable_sort {A} (key : A → nat) (l : list A) : list A := foldr (insert_by key) [] l.

Definition is_decode (decode_threshold scheduled : Z) : bool := bool_decide (scheduled ≤ decode_threshold)%Z.
Definition is_extend (decode_threshold scheduled computed : Z) : bool := negb (is_decode decode_threshold scheduled) && bool_decide (0 < computed)%Z.
Definition is_prefill (decode_threshold scheduled computed : Z) : bool := negb (is_decode decode_threshold scheduled) && bool_decide (computed = 0)%Z.
(** [np.zeros], then the assignments through the masks *)
Definition req_region (decode_threshold scheduled computed : Z) : nat :=
  if is_prefill decode_threshold scheduled computed then 2 else if is_extend decode_threshold scheduled computed then 1 else 0.

(** The scheduled and the computed tokens of every row *)
Definition row_counts (num_scheduled_tokens : gmap string Z) (b : InputBatch) : result (list (Z * Z)) :=
  ns ← mapR (λ rid : option string, match rid ≫= λ id, num_scheduled_tokens !! id with Some n => Ok n | None => Raise KeyError end) (_req_ids b);
  Ok (zip ns (take (length (_req_ids b)) (icols (rows b) num_computed_tokens_cpu))).
Definition req_regions (decode_threshold : Z) (counts : list (Z * Z)) : list nat := (λ e, req_region decode_threshold e.1 e.2) <$> counts.
Definition target_regions (decode_threshold : Z) (counts : list (Z * Z)) : list nat :=
  let num_decodes := length (filter (λ e, is_decode decode_threshold e.1 = true) counts) in
  let num_extends := length (filter (λ e, is_extend decode_threshold e.1 e.2 = true) counts) in
  replicate num_decodes 0 ++ replicate num_extends 1 ++ replicate (length counts - num_decodes - num_extends) 2.
Definition needs_swap (regions targets : list nat) : list nat := filter (λ i, regions !! i ≠ targets !! i) (seq 0 (length regions)).

(** The [while] loop: the content of row [src] goes to [dst], that of [dst] is next. *)
Fixpoint follow_cycle (fuel : nat) (src dst : nat) (src_dest_map : gmap nat nat) : M InputBatch (gmap nat nat) :=
  if decide (src = dst) then mret src_dest_map
  else
    match fuel with
    | 0 => raise OutOfFuel
    | S fuel =>
      swap_states src dst;;
      follow_cycle fuel src (default dst (src_dest_map !! dst)) (<[dst := dst]> src_dest_map)
    end.
(** The [for] loop over the keys of the dict, whose size must not change meanwhile *)
Fixpoint follow_cycles (fuel size_ : nat) (keys : list nat) (src_dest_map : gmap nat nat) : M InputBatch () :=
  if decide (size src_dest_map ≠ size_) then raise RuntimeError
  else
    match keys with
    | [] => mret ()
    | src :: keys =>
      match src_dest_map !! src with
      | None => raise KeyError
      | Some dst =>
        m ← follow_cycle fuel src dst src_dest_map;
        follow_cycles fuel size_ keys m
      end
    end.

Definition reorder_batch_to_split_decodes_and_prefills (num_scheduled_tokens : gmap string Z) (decode_threshold : Z) : M InputBatch bool :=
  b ← get;
  counts ← of_result (row_counts num_scheduled_tokens b);
  let regions := req_regions decode_threshold counts in
  let targets := target_regions decode_threshold counts in
  let orig_indices := needs_swap regions targets in
  if decide (orig_indices = []) then mret false
  else
    let src_indices := stable_sort (λ i, default 0 (regions !! i)) orig_indices in
    let src_dest_map : gmap nat nat := list_to_map (zip src_indices orig_indices) in
    follow_cycles (length src_indices) (length src_indices) src_indices src_dest_map;;
    mret true.

(** gpu_model_runner.py *)
Definition _may_reorder_batch (num_kv_cache_groups : nat) (reorder_batch_threshold : option Z) (num_scheduled_tokens : gmap string Z) : M InputBatch () :=
  if decide (num_kv_cache_groups = 0) then mret ()
  else
    match reorder_batch_threshold with
    | Some threshold => reorder_batch_to_split_decodes_and_prefills num_scheduled_tokens threshold;; mret ()
    | None => mret ()
    end.

(** ** Sorting *)

Lemma insert_by_perm {A} (key : A → nat) x l : insert_by key x l ≡ₚ x :: l.
Proof. induction l as [|y l IH]; cbn; [done|]. case_decide; [done|]. rewrite IH. constructor. Qed.
Lemma stable_sort_perm {A} (key : A → nat) l : stable_sort key l ≡ₚ l.
Proof. induction l as [|x l IH]; [done|]. cbn. by rewrite insert_by_perm, IH. Qed.
Lemma insert_by_sorted {A} (key : A → nat) x l : StronglySorted le (key <$> l) → StronglySorted le (key <$> insert_by key x l).
Proof.
  induction l as [|y l IH]; cbn; [by repeat constructor|]. intros [Hs Hf]%StronglySorted_inv. case_decide as E; cbn.
  - constructor; [by constructor|]. constructor; [done|]. eapply Forall_impl; [exact Hf|]. cbn. lia.
  - constructor; [by apply IH|]. rewrite insert_by_perm. cbn. constructor; [lia|done].
Qed.
Lemma stable_sort_sorted {A} (key : A → nat) l : StronglySorted le (key <$> stable_sort key l).
Proof. induction l as [|x l IH]; cbn; [constructor|]. by apply insert_by_sorted. Qed.

(** The targets are the regions in order. *)
Lemma length_filter_cons {A} (P : A → bool) x l : length (filter (λ y, P y = true) (x :: l)) = (if P x then 1 else 0) + length (filter (λ y, P y = true) l).
Proof. rewrite filter_cons. case_decide as E; [by rewrite E|]. by destruct (P x). Qed.
Lemma target_regions_perm thr counts : Forall (λ e : Z * Z, (0 ≤ e.2)%Z) counts → target_regions thr counts ≡ₚ req_regions thr counts.
Proof.
  unfold target_regions, req_regions. induction 1 as [|e counts Hx _ IH]; [done|]. rewrite fmap_cons, <-IH.
  assert (length (filter (λ e : Z * Z, is_decode thr e.1 = true) counts) + length (filter (λ e : Z * Z, is_extend thr e.1 e.2 = true) counts) ≤ length counts) as L.
  { clear. induction counts as [|e counts IH]; [done|]. rewrite (length_filter_cons (λ e : Z * Z, is_decode thr e.1)), (length_filter_cons (λ e : Z * Z, is_extend thr e.1 e.2)).
    cbn. unfold is_extend at 1. destruct (is_decode thr e.1), (bool_decide _); cbn; lia. }
  rewrite (length_filter_cons (λ e : Z * Z, is_decode thr e.1)), (length_filter_cons (λ e : Z * Z, is_extend thr e.1 e.2)).
  set (x := length (filter (λ e : Z * Z, is_decode thr e.1 = true) counts)) in *. set (y := length (filter (λ e : Z * Z, is_extend thr e.1 e.2 = true) counts)) in *. clearbody x y.
  unfold req_region, is_prefill, is_extend. cbn [length]. destruct (is_decode thr e.1); cbn [negb andb]; [done|]. repeat case_bool_decide; try lia; cbn [Nat.add].
  - replace (S (length counts) - x - S y) with (length counts - x - y) by lia. cbn. by rewrite <-Permutation_middle.
  - replace (S (length counts) - x - y) with (S (length counts - x - y)) by lia. cbn. by rewrite <-!Permutation_middle.
Qed.

Lemma StronglySorted_replicate n x : StronglySorted le (replicate n x).
Proof. induction n; cbn; constructor; [done|]. apply Forall_replicate. lia. Qed.
Lemma target_regions_sorted thr counts : StronglySorted le (target_regions thr counts).
Proof.
  unfold target_regions. repeat apply StronglySorted_app_2; try apply StronglySorted_replicate.
  all: intros x y Hx Hy; rewrite ?elem_of_app, ?elem_of_replicate in *; lia.
Qed.

(** Two lists that are permutations of each other still are when the equal places are left out. *)
Lemma differing_perm (xs ys : list nat) : xs ≡ₚ ys → 
  (λ i, default 0 (xs !! i)) <$> needs_swap xs ys ≡ₚ (λ i, default 0 (ys !! i)) <$> needs_swap xs ys.
Proof.
  intros Hp. assert (∀ zs : list nat, (λ i, default 0 (zs !! i)) <$> seq 0 (length zs) = zs) as Hall.
  { intros zs. apply list_eq. intros i. rewrite list_lookup_fmap. destruct (decide (i < length zs)) as [Hi|Hi].
    - rewrite lookup_seq_lt by done. cbn. destruct (lookup_lt_is_Some_2 zs i Hi) as [z ->]. done.
    - rewrite lookup_seq_ge, lookup_ge_None_2 by lia. done. }
  set (P := λ i, xs !! i ≠ ys !! i). pose proof (filter_app_complement P (seq 0 (length xs))) as Hsplit.
  assert ((λ i, default 0 (xs !! i)) <$> filter (λ i, ¬ P i) (seq 0 (length xs)) = (λ i, default 0 (ys !! i)) <$> filter (λ i, ¬ P i) (seq 0 (length xs))) as Hsame.
  { apply list_fmap_ext. intros j i [Hi _]%list_elem_of_lookup_2%list_elem_of_filter. apply dec_stable in Hi. by rewrite Hi. }
  apply (Permutation_app_inv_r ((λ i, default 0 (xs !! i)) <$> filter (λ i, ¬ P i) (seq 0 (length xs)))). rewrite Hsame at 2. unfold needs_swap. fold P. rewrite <-!fmap_app, Hsplit.
  rewrite Hall. rewrite Hp at 1. rewrite (Permutation_length Hp). by rewrite Hall.
Qed.

(** ** Exchanges

    A sequence of exchanges of two rows in use *)
Section exchanges.
Context (c : Config) (ls : list Layout).

Inductive exchanged (b : InputBatch) : list (nat * nat) → InputBatch → Prop :=
  | exchanged_none : exchanged b [] b
  | exchanged_next b1 b2 sw i1 i2 : exchanged b sw b1 → i1 ≠ i2 → occupied b1 i1 → occupied b1 i2 → swapped c ls i1 i2 b1 b2 →
      exchanged b (sw ++ [(i1, i2)]) b2.

(** Where the row after the exchanges was before *)
Definition exchange_ix (sw : list (nat * nat)) (k : nat) : nat := foldr (λ p k, swap_ix p.1 p.2 k) k sw.

Lemma swapped_slot i1 i2 b b' k : occupied b i1 → occupied b i2 → swapped c ls i1 i2 b b' → slot b' k = slot b (swap_ix i1 i2 k).
Proof. intros H1%occupied_lt H2%occupied_lt Hs. unfold slot. by rewrite (rearranged_swap_all _ _ _ _ _ (sw_ids _ _ _ _ _ _ Hs)). Qed.

Lemma exchanged_spec b sw b' : batch_inv c ls b → exchanged b sw b' →
  batch_inv c ls b' ∧ keeps_requests c b b' ∧ length (_req_ids b') = length (_req_ids b) ∧ (∀ k, slot b' k = slot b (exchange_ix sw k)) ∧ (∀ k, occupied b' k ↔ occupied b k) ∧
  (is_pooling_model c = true → builder b' = builder b) ∧
  (is_pooling_model c = false → builder b' = Builder.set_moved (Builder.moved (builder b) ++ ((λ p : nat * nat, (p.1, p.2, SWAP)) <$> sw)) (builder b)) ∧
  Forall (λ p : nat * nat, p.1 ≠ p.2 ∧ p.1 < length (_req_ids b) ∧ p.2 < length (_req_ids b)) sw.
Proof.
  intros H. induction 1 as [|b1 b2 sw i1 i2 _ (IH1 & IH2 & IH3 & IH4 & IH5 & IH6 & IH7 & IH8) Hne H1 H2 Hs].
  { split_and!; try done. intros _. cbn. rewrite app_nil_r. by destruct (builder b). }
  pose proof (swapped_inv c ls i1 i2 b1 b2 IH1 H1 H2 Hs) as Hi. pose proof (sw_builder _ _ _ _ _ _ Hs) as Eb.
  assert (∀ k, slot b2 k = slot b1 (swap_ix i1 i2 k)) as Esl by (intros; by apply swapped_slot).
  split_and!; [done|etransitivity; [done|exact (swapped_keeps c ls i1 i2 b1 b2 IH1 H1 H2 Hs)]| | | | | |].
  - rewrite <-IH3. apply (sw_ids _ _ _ _ _ _ Hs).
  - intros k. rewrite Esl, IH4. unfold exchange_ix. rewrite foldr_snoc. done.
  - intros k. rewrite <-IH5, <-(slot_occupied b2), Esl, slot_occupied. unfold swap_ix. by repeat case_decide; subst.
  - intros Hp. rewrite Hp in Eb. rewrite Eb. auto.
  - intros Hp. rewrite Hp in Eb. rewrite Eb, IH7 by done. cbn. by rewrite fmap_app, <-app_assoc.
  - apply Forall_app. split; [done|]. apply Forall_singleton. cbn. apply occupied_lt in H1, H2. lia.
Qed.

Lemma exchange_step b sw b1 i1 i2 : batch_inv c ls b → exchanged b sw b1 → i1 ≠ i2 → occupied b i1 → occupied b i2 →
  wp (swap_states i1 i2) b1 (λ _ b2, exchanged b (sw ++ [(i1, i2)]) b2).
Proof.
  intros H He Hne H1 H2. destruct (exchanged_spec b sw b1 H He) as (Hi & _ & _ & _ & Ho & _). rewrite <-Ho in H1, H2.
  eapply wp_mono; [by apply (swap_states_spec c ls)|]. intros [] b2 Hs. by econstructor.
Qed.
End exchanges.

(** ** Cycles *)
Section cycles.
Context (c : Config) (ls : list Layout) (b0 : InputBatch) (Hinv : batch_inv c ls b0).
Context (keys : list nat) (Hnodup : NoDup keys) (Hocc : ∀ k, k ∈ keys → occupied b0 k) (q : nat → nat).

(** Where the content of a row still has to go when the cycles from the rows [done] are closed *)
Definition destination (done : list nat) (m : gmap nat nat) (k : nat) : nat := if decide (k ∈ done) then k else default k (m !! k).
(** ... and the content of [src] has to go to [dst] *)
Definition destination_of (done : list nat) (src dst : nat) (m : gmap nat nat) (k : nat) : nat := if decide (k = src) then dst else destination done m k.
Definition map_ok (m : gmap nat nat) : Prop := (∀ k, is_Some (m !! k) ↔ k ∈ keys) ∧ ∀ k d, m !! k = Some d → d ∈ keys.

(** The rows of [b] hold the contents of [b0] that go where [D] says. *)
Definition placed (D : nat → nat) (b : InputBatch) : Prop :=
  Inj (=) (=) D ∧ ∃ sw, exchanged c ls b0 sw b ∧ ∀ k, exchange_ix sw k = q (D k).
Lemma placed_ext D D' b : (∀ k, D' k = D k) → placed D b → placed D' b.
Proof. intros E [Hi (sw & He & Hq)]. split; [intros x y; rewrite !E; apply Hi|]. exists sw. split; [done|]. intros k. by rewrite E. Qed.

Lemma closed_cycle done src m k : destination_of done src src m k = destination (src :: done) m k.
Proof. unfold destination_of, destination. destruct (decide (k = src)) as [->|N]; [by rewrite decide_True by left|]. destruct (decide (k ∈ done)); [by rewrite decide_True by (by right)|]. rewrite decide_False; [done|]. rewrite elem_of_cons. tauto. Qed.

(** One exchange *)
Lemma cycle_step done src dst m b : src ∈ keys → dst ∈ keys → map_ok m → src ≠ dst → placed (destination_of done src dst m) b →
  let next := default dst (m !! dst) in
  map_ok (<[dst := dst]> m) ∧ next ∈ keys ∧ size (<[dst := dst]> m) = size m ∧
  (∀ k, destination_of done src next (<[dst := dst]> m) k = destination_of done src dst m (swap_ix src dst k)) ∧
  S (length (filter (λ k, destination_of done src next (<[dst := dst]> m) k ≠ k) keys)) ≤ length (filter (λ k, destination_of done src dst m k ≠ k) keys).
Proof.
  intros Hs Hd [Hm1 Hm2] Hne [Hi _]. cbn.
  assert (destination_of done src dst m src = dst) as Es by (unfold destination_of; by rewrite decide_True).
  assert (destination_of done src dst m dst ≠ dst) as Ed by (intros E; apply Hne, (Hi src dst); congruence).
  assert (destination_of done src dst m dst = default dst (m !! dst) ∧ dst ∉ done) as [En Hdn].
  { revert Ed. unfold destination_of, destination. rewrite decide_False by done. case_decide; [done|]. by intros _. }
  apply Hm1 in Hd as [d Ed']. rewrite Ed' in *. cbn in *.
  assert (∀ k, destination_of done src d (<[dst := dst]> m) k = destination_of done src dst m (swap_ix src dst k)) as Esw.
  { intros k. unfold swap_ix. destruct (decide (k = src)) as [->|N1]; [rewrite En; unfold destination_of; by rewrite decide_True|]. destruct (decide (k = dst)) as [->|N2].
    - rewrite Es. unfold destination_of, destination. by rewrite !decide_False, lookup_insert_eq.
    - unfold destination_of, destination. rewrite !(decide_False (P := k = src)) by done. by rewrite lookup_insert_ne. }
  split_and!; [split|by eapply Hm2|by rewrite map_size_insert, Ed'|done|].
  - intros k. destruct (decide (k = dst)) as [->|]; [rewrite lookup_insert_eq, <-Hm1, Ed'; split; eauto|by rewrite lookup_insert_ne].
  - intros k d'. destruct (decide (k = dst)) as [->|]; [rewrite lookup_insert_eq; intros [= <-]; apply Hm1; eauto|rewrite lookup_insert_ne by done; apply Hm2].
  - rewrite <-(length_cons dst). apply submseteq_length, NoDup_submseteq.
    + constructor; [|by apply NoDup_filter]. rewrite list_elem_of_filter. intros [Hx _]. apply Hx. rewrite Esw. unfold swap_ix. rewrite decide_False, decide_True by done. done.
    + intros k. rewrite elem_of_cons, !list_elem_of_filter. intros [->|[Hk Hin]]; [split; [done|apply Hm1; eauto]|]. split; [|done]. rewrite Esw in Hk. intros E. revert Hk. unfold swap_ix.
      destruct (decide (k = src)) as [->|]; [by rewrite Es in E|]. destruct (decide (k = dst)) as [->|]; done.
Qed.

Lemma follow_cycle_spec fuel : ∀ done src dst m b, src ∈ keys → dst ∈ keys → map_ok m → placed (destination_of done src dst m) b →
  length (filter (λ k, destination_of done src dst m k ≠ k) keys) ≤ fuel →
  wp (follow_cycle fuel src dst m) b (λ m' b', map_ok m' ∧ size m' = size m ∧ placed (destination (src :: done) m') b').
Proof.
  induction fuel as [|fuel IH]; intros done src dst m b Hs Hd Hm Hp Hf; cbn [follow_cycle]; case_decide as E.
  - subst dst. apply wp_ret. split_and!; [done..|]. eapply placed_ext; [|exact Hp]. intros k. by rewrite closed_cycle.
  - destruct (cycle_step done src dst m b Hs Hd Hm E Hp) as (_ & _ & _ & _ & Hlt). lia.
  - subst dst. apply wp_ret. split_and!; [done..|]. eapply placed_ext; [|exact Hp]. intros k. by rewrite closed_cycle.
  - destruct (cycle_step done src dst m b Hs Hd Hm E Hp) as (Hm' & Hn & Hsz & Esw & Hlt). destruct Hp as [Hi (sw & He & Hq)]. apply wp_bind.
    eapply wp_mono; [apply (exchange_step c ls b0 sw); eauto|]. intros [] b1 He1. eapply wp_mono; [apply (IH done); [done..| |lia]|].
    + split; [intros x y; rewrite !Esw; intros Hxy%Hi; rewrite <-(swap_ix_involutive src dst x), Hxy; apply swap_ix_involutive|].
      exists (sw ++ [(src, dst)]). split; [done|]. intros k. rewrite Esw, <-Hq. unfold exchange_ix. by rewrite foldr_snoc.
    + intros m' b' (? & ? & ?). split_and!; [done|congruence|done].
Qed.

(** The cycles from the rows that are left *)
Lemma follow_cycles_spec fuel : ∀ todo done m b, done ++ todo ≡ₚ keys → map_ok m → size m = length keys → placed (destination done m) b → length keys ≤ fuel →
  wp (follow_cycles fuel (length keys) todo m) b (λ _ b', placed id b').
Proof.
  induction todo as [|src todo IH]; intros done m b Hk Hm Hsz Hp Hf; cbn [follow_cycles]; rewrite decide_False by auto.
  - apply wp_ret. eapply placed_ext; [|exact Hp]. intros k. unfold destination. case_decide as E; [done|]. destruct (m !! k) eqn:Ek; [|done]. exfalso. apply E.
    rewrite app_nil_r in Hk. rewrite Hk. apply Hm. eauto.
  - assert (src ∈ keys) as Hs by (rewrite <-Hk; set_solver). destruct (proj2 (proj1 Hm src) Hs) as [dst Ed]. rewrite Ed. apply wp_bind.
    assert (src ∉ done) as Hnd by (rewrite <-Hk in Hnodup; apply NoDup_app in Hnodup as (_ & Hx & _); intros Hd; apply (Hx src Hd); left).
    eapply wp_mono; [apply (follow_cycle_spec fuel done); [done|by eapply (proj2 Hm)|done| |]|].
    + eapply placed_ext; [|exact Hp]. intros k. unfold destination_of. case_decide; [|done]. subst k. unfold destination. by rewrite decide_False, Ed.
    + etransitivity; [apply length_filter|done].
    + intros m' b' (Hm' & Hsz' & Hp'). apply (IH (src :: done)); [|done|congruence|done..]. rewrite <-Hk. cbn. by rewrite Permutation_middle.
Qed.
End cycles.

(** ** The order after the exchanges *)

(** The scheduled and computed tokens of the request in a row *)
Definition count_of (sched : gmap string Z) (b : InputBatch) (k : nat) : option (Z * Z) :=
  id ← slot b k; n ← sched !! id; x ← icols (rows b) num_computed_tokens_cpu !! k; Some (n, x).

Lemma row_counts_spec c ls sched b : batch_inv c ls b → dense b (length (_req_ids b)) → (∀ id, is_Some (req_id_to_index b !! id) → is_Some (sched !! id)) →
  ∃ counts, row_counts sched b = Ok counts ∧ length counts = length (_req_ids b) ∧ ∀ k, counts !! k = count_of sched b k.
Proof.
  intros H Hd Hs. unfold row_counts. destruct (mapR_total (λ rid : option string, match rid ≫= λ id, sched !! id with Some n => Ok n | None => Raise KeyError end) (_req_ids b)) as [ns Hns].
  { intros rid [k Hk]%list_elem_of_lookup. pose proof (lookup_lt_Some _ _ _ Hk) as Hlt. apply Hd in Hlt as [id Hid]. rewrite Hk in Hid. injection Hid as ->. cbn.
    destruct (Hs id) as [n ->]; [exists k; by apply (bi_index _ _ _ H)|]. eauto. }
  rewrite Hns. cbn. eexists. split; [done|]. apply mapR_ok in Hns. pose proof (Forall2_length _ _ _ Hns) as Ln. pose proof (rs_icols _ _ _ (bi_rows _ _ _ H) num_computed_tokens_cpu) as Lc.
  pose proof (bi_bound _ _ _ H) as Hb. split; [rewrite length_zip_with, length_take; lia|]. intros k. unfold count_of, slot. rewrite lookup_zip_with. destruct (_req_ids b !! k) as [rid|] eqn:Ek.
  - pose proof (lookup_lt_Some _ _ _ Ek) as Hlt. destruct (Forall2_lookup_l _ _ _ _ _ Hns Ek) as (n & En & Eq). rewrite En, lookup_take_lt by done. cbn. destruct (rid ≫= _) as [n'|] eqn:Er; [|done]. injection Eq as ->.
    destruct rid as [id|]; [|done]. cbn in *. by rewrite Er.
  - rewrite (lookup_ge_None_2 ns); [done|]. apply lookup_ge_None in Ek. lia.
Qed.

Lemma keeps_computed c b b' id k k' : keeps_requests c b b' → req_id_to_index b !! id = Some k → req_id_to_index b' !! id = Some k' →
  icols (rows b') num_computed_tokens_cpu !! k' = icols (rows b) num_computed_tokens_cpu !! k.
Proof. intros H Hk Hk'. pose proof (f_equal (λ d, rd_ints d !! 3) (kr_data _ _ _ H id k k' Hk Hk')) as E. cbn in E. congruence. Qed.
Lemma count_of_exchanged c ls sched b sw b' k : batch_inv c ls b → exchanged c ls b sw b' → count_of sched b' k = count_of sched b (exchange_ix sw k).
Proof.
  intros H He. destruct (exchanged_spec c ls b sw b' H He) as (H' & Hk & _ & Hs & _). unfold count_of. rewrite <-Hs. destruct (slot b' k) as [id|] eqn:E; [|done]. cbn.
  rewrite (keeps_computed c b b' id (exchange_ix sw k) k Hk); [done|apply (bi_index _ _ _ H), slot_Some; by rewrite <-Hs|by apply (bi_index _ _ _ H'), slot_Some].
Qed.

(** The permutation of the rows *)
Section permutation.
Context (src orig : list nat) (Hp : src ≡ₚ orig) (Hnd : NoDup orig).
Let m : gmap nat nat := list_to_map (zip src orig).
Definition came_from (k : nat) : nat := default k ((list_to_map (zip orig src) : gmap nat nat) !! k).

Lemma zip_keys (l l' : list nat) : length l = length l' → (zip l l').*1 = l.
Proof. intros E. by apply fst_zip, Nat.eq_le_incl. Qed.
Lemma src_dest_lookup k d : m !! k = Some d ↔ ∃ i, src !! i = Some k ∧ orig !! i = Some d.
Proof using Hp Hnd.
  pose proof (Permutation_length Hp) as L. unfold m. rewrite <-elem_of_list_to_map; [|rewrite zip_keys by done; by rewrite Hp]. rewrite list_elem_of_lookup. setoid_rewrite lookup_zip_with_Some. naive_solver.
Qed.
Lemma came_from_lookup i k s : orig !! i = Some k → src !! i = Some s → came_from k = s.
Proof using Hp Hnd.
  intros Hk Hs. pose proof (Permutation_length Hp) as L. unfold came_from. assert ((list_to_map (zip orig src) : gmap nat nat) !! k = Some s) as ->; [|done].
  apply elem_of_list_to_map; [by rewrite zip_keys|]. apply list_elem_of_lookup. exists i. apply lookup_zip_with_Some. eauto.
Qed.
Lemma came_from_other k : k ∉ orig → came_from k = k.
Proof using Hp. intros Hk. unfold came_from. rewrite not_elem_of_list_to_map_1; [done|]. rewrite zip_keys; [done|]. symmetry. by apply Permutation_length. Qed.
Lemma src_dest_ok : map_ok src m ∧ size m = length src.
Proof using Hp Hnd.
  pose proof (Permutation_length Hp) as L. split; [split|].
  - intros k. split; [intros [d (i & Hi & _)%src_dest_lookup]; by eapply list_elem_of_lookup_2|]. intros [i Hi]%list_elem_of_lookup. destruct (lookup_lt_is_Some_2 orig i) as [d Hd]; [rewrite <-L; by eapply lookup_lt_Some|].
    exists d. apply src_dest_lookup. eauto.
  - intros k d (i & _ & Hi)%src_dest_lookup. rewrite Hp. by eapply list_elem_of_lookup_2.
  - unfold m. rewrite map_size_list_to_map by (rewrite zip_keys by done; by rewrite Hp). rewrite length_zip_with. lia.
Qed.
Lemma came_from_dest k : came_from (destination [] m k) = k.
Proof using Hp Hnd.
  unfold destination. rewrite decide_False by apply not_elem_of_nil. destruct (m !! k) as [d|] eqn:E; cbn.
  - apply src_dest_lookup in E as (i & Hi & Hd). by eapply came_from_lookup.
  - apply came_from_other. rewrite <-Hp. intros [d Hd]%(proj1 (proj1 src_dest_ok)). congruence.
Qed.
End permutation.

Lemma sorted_lookup_le (l : list nat) i j x y : StronglySorted le l → i ≤ j → l !! i = Some x → l !! j = Some y → x ≤ y.
Proof.
  intros Hs. revert i j. induction Hs as [|z l _ IH Hf]; intros i j Hij Hi Hj; [done|]. destruct i as [|i], j as [|j]; cbn in *; try lia; [assert (x = y) as -> by congruence; done| |eapply IH; [|done..]; lia].
  injection Hi as ->. apply (proj1 (Forall_forall _ _) Hf). by eapply list_elem_of_lookup_2.
Qed.
Lemma needs_swap_sorted (xs ys : list nat) : length ys = length xs → StronglySorted le ys → StronglySorted le ((λ i, default 0 (ys !! i)) <$> needs_swap xs ys).
Proof.
  intros L Hs. unfold needs_swap. rewrite <-L. clear L. assert (∀ n m, n + m ≤ length ys → StronglySorted le ((λ i, default 0 (ys !! i)) <$> filter (λ i, xs !! i ≠ ys !! i) (seq n m))) as H; [|by apply (H 0)].
  intros n m. revert n. induction m as [|m IH]; intros n Hn; [constructor|]. cbn [seq]. rewrite filter_cons. case_decide; [|apply IH; lia]. cbn. constructor; [apply IH; lia|].
  apply Forall_fmap, Forall_forall. intros i [_ Hi%elem_of_seq]%list_elem_of_filter. cbn. destruct (lookup_lt_is_Some_2 ys n) as [x Ex]; [lia|]. destruct (lookup_lt_is_Some_2 ys i) as [y Ey]; [lia|].
  rewrite Ex, Ey. cbn. eapply sorted_lookup_le; [done| |done..]. lia.
Qed.

(** After the exchanges every row has the region that its place asks for. *)
Lemma regions_reordered (xs ys : list nat) k : xs ≡ₚ ys → StronglySorted le ys → k < length xs →
  let orig := needs_swap xs ys in let src := stable_sort (λ i, default 0 (xs !! i)) orig in xs !! came_from src orig k = ys !! k.
Proof.
  intros Hp Hs Hk orig src. pose proof (Permutation_length Hp) as L. assert (src ≡ₚ orig) as Hso by apply stable_sort_perm. assert (NoDup orig) as Hnd by apply NoDup_filter, NoDup_seq.
  assert ((λ i, default 0 (xs !! i)) <$> src = (λ i, default 0 (ys !! i)) <$> orig) as E.
  { apply (StronglySorted_unique le); [apply stable_sort_sorted|by apply needs_swap_sorted|]. unfold src. rewrite stable_sort_perm. by apply differing_perm. }
  destruct (decide (k ∈ orig)) as [[i Hi]%list_elem_of_lookup|N].
  - destruct (lookup_lt_is_Some_2 src i) as [s Hsi]; [rewrite (Permutation_length Hso); by eapply lookup_lt_Some|]. rewrite (came_from_lookup src orig Hso Hnd i k s Hi Hsi).
    apply (f_equal (lookup i)) in E. rewrite !list_lookup_fmap, Hsi, Hi in E. cbn in E. injection E as E. assert (s ∈ orig) as Hs' by (rewrite <-Hso; by eapply list_elem_of_lookup_2).
    apply list_elem_of_filter in Hs' as [_ Hs'%elem_of_seq]. destruct (lookup_lt_is_Some_2 xs s) as [x Ex]; [lia|]. destruct (lookup_lt_is_Some_2 ys k) as [y Ey]; [lia|]. rewrite Ex, Ey in *. cbn in E. congruence.
  - rewrite (came_from_other src orig Hso) by done. destruct (decide (xs !! k = ys !! k)) as [|Ne]; [done|]. exfalso. apply N. apply list_elem_of_filter. split; [done|]. apply elem_of_seq. lia.
Qed.

(** What the reordering relies on: every request is scheduled, and no count is negative. *)
Record reorderable (sched : gmap string Z) (b : InputBatch) : Prop := {
  re_dense : dense b (length (_req_ids b));
  re_scheduled : ∀ id, is_Some (req_id_to_index b !! id) → is_Some (sched !! id);
  re_computed : ∀ k x, occupied b k → icols (rows b) num_computed_tokens_cpu !! k = Some x → (0 ≤ x)%Z;
}.

Lemma reorder_spec c ls sched thr b : batch_inv c ls b → reorderable sched b →
  wp (reorder_batch_to_split_decodes_and_prefills sched thr) b (λ r b', ∃ sw counts counts', exchanged c ls b sw b' ∧ row_counts sched b = Ok counts ∧ row_counts sched b' = Ok counts' ∧
    req_regions thr counts' = target_regions thr counts ∧ (r = false → b' = b ∧ req_regions thr counts = target_regions thr counts)).
Proof.
  intros H [Hd Hs Hc]. destruct (row_counts_spec c ls sched b H Hd Hs) as (counts & Ec & Lc & Hcounts). unfold reorder_batch_to_split_decodes_and_prefills. apply wp_bind, wp_gets, wp_bind. rewrite Ec. apply wp_ret.
  set (xs := req_regions thr counts). set (ys := target_regions thr counts). assert (ys ≡ₚ xs) as Hp.
  { apply target_regions_perm, Forall_lookup. intros k [n x] Hk. rewrite Hcounts in Hk. unfold count_of in Hk. destruct (slot b k) as [id|] eqn:Es; [|done]. cbn in Hk.
    destruct (sched !! id); [|done]. cbn in Hk. destruct (icols (rows b) num_computed_tokens_cpu !! k) as [x'|] eqn:Ex; [|done]. injection Hk as _ ->. cbn. eapply Hc; [|done]. apply slot_occupied. eauto. }
  assert (StronglySorted le ys) as Hsorted by apply target_regions_sorted. assert (length xs = length counts) as Lx by apply length_fmap. pose proof (Permutation_length Hp) as Lxy.
  case_decide as E.
  - apply wp_ret. assert (xs = ys) as Exy.
    { apply list_eq. intros k. destruct (decide (xs !! k = ys !! k)) as [|N]; [done|]. exfalso. assert (k ∈ needs_swap xs ys) as Hk; [|rewrite E in Hk; by apply not_elem_of_nil in Hk].
      apply list_elem_of_filter. split; [done|]. apply elem_of_seq. destruct (decide (k < length xs)); [lia|]. by rewrite !lookup_ge_None_2 in N by lia. }
    exists [], counts, counts. split_and!; [constructor|done..].
  - set (orig := needs_swap xs ys) in *. set (src := stable_sort _ orig). assert (src ≡ₚ orig) as Hso by apply stable_sort_perm. assert (NoDup orig) as Hnd by apply NoDup_filter, NoDup_seq.
    destruct (src_dest_ok src orig Hso Hnd) as [Hm Hsz].
    assert (∀ k, k ∈ src → occupied b k) as Hocc. { intros k Hk. rewrite Hso in Hk. apply list_elem_of_filter in Hk as [_ Hk%elem_of_seq]. apply Hd. lia. }
    apply wp_bind. eapply wp_mono; [apply (follow_cycles_spec c ls b H src ltac:(by rewrite Hso) Hocc (came_from src orig) _ src []); [done|done|done| |done]|].
    { split; [intros x y Exy; by rewrite <-(came_from_dest src orig Hso Hnd x), Exy, came_from_dest|]. exists []. split; [constructor|]. intros k. by rewrite came_from_dest. }
    intros [] b' [_ (sw & He & Hq)]. apply wp_ret. destruct (exchanged_spec c ls b sw b' H He) as (H' & Hk & Lb & _ & Ho & _).
    destruct (row_counts_spec c ls sched b' H') as (counts' & Ec' & Lc' & Hcounts').
    { intros k. by rewrite Ho, Lb. }
    { intros id Hid. apply Hs. apply elem_of_dom. rewrite <-(kr_dom _ _ _ Hk). by apply elem_of_dom. }
    exists sw, counts, counts'. split_and!; [done..| |done]. fold ys. apply list_eq. intros k. unfold req_regions. rewrite list_lookup_fmap, Hcounts', (count_of_exchanged c ls sched b sw b' k H He), <-Hcounts, Hq, <-list_lookup_fmap. cbn.
    change (xs !! came_from src orig k = ys !! k). destruct (decide (k < length xs)) as [Hlt|Hlt]; [by apply regions_reordered|].
    assert (k ∉ orig) as N by (intros [_ Hx%elem_of_seq]%list_elem_of_filter; lia). rewrite came_from_other by done. rewrite !lookup_ge_None_2 by lia. done.
Qed.
