(* ===== verification/InputBatchProps.v ===== *)
(** * The persistent batch through a step

    In every step the model runner removes requests, adds requests, condenses the batch and lets
    the attention backend reorder it; then the logits processors are told what happened.  Seen
    from outside the batch is a map from request ids to the data of the requests. *)

From Stdlib Require Import ZArith Lia QArith Qcanon.
From stdpp Require Import sorting.
From stdpp Require Import base tactics option numbers gmap strings list.
From S2P Require Import Prelude Numpy BlockTable LogitsProcessors InputBatch InputBatchInv InputBatchOps InputBatchReorder.
Local Open Scope nat_scope.

(** ** The abstract batch *)

Definition requests (c : Config) (b : InputBatch) : gmap string RowData := row_data c (rows b) <$> req_id_to_index b.

(** A step on a map from request ids: requests leave, then requests enter. *)
Definition leave {A} (m : gmap string A) (removed : list string) : gmap string A := foldl (λ m id, delete id m) m removed.
Definition enter {A} (entry : CachedRequestState → A) (m : gmap string A) (added : list CachedRequestState) : gmap string A :=
  foldl (λ m q, <[req_id q := entry q]> m) m added.
Definition abs_step {A} (entry : CachedRequestState → A) (removed : list string) (added : list CachedRequestState) (m : gmap string A) : gmap string A :=
  enter entry (leave m removed) added.

Definition prompt_len (q : CachedRequestState) : nat := match length_from_prompt_token_ids_or_embeds (prompt_token_ids q) (prompt_embeds q) with Ok n => n | Raise _ => 0 end.

(** The changes of a step to the rows of the batch, in the order of
    [GPUModelRunner._update_states]; what it does in between to requests that stay in the batch
    (counts, new blocks and tokens) is not part of it. *)
Definition remove_all (ids : list string) : M InputBatch () := for_each ids (λ id, remove_request id;; mret ()).
Definition add_all (qs : list CachedRequestState) : M InputBatch () := for_each qs (λ q, add_request q;; mret ()).
Definition update_batch (removed : list string) (added : list CachedRequestState) (groups : nat) (threshold : option Z) (sched : gmap string Z) : M InputBatch () :=
  remove_all removed;;
  add_all added;;
  condense;;
  _may_reorder_batch groups threshold sched.

(** ** Lemmas on maps *)

Lemma leave_lookup {A} (m : gmap string A) ids id : leave m ids !! id = if decide (id ∈ ids) then None else m !! id.
Proof.
  revert m. induction ids as [|i ids IH]; intros m; [by rewrite decide_False by apply not_elem_of_nil|]. cbn. unfold leave in IH. rewrite IH. destruct (decide (id = i)) as [->|N].
  - rewrite lookup_delete_eq, (decide_True (P := i ∈ i :: ids)) by left. by case_decide.
  - rewrite lookup_delete_ne by done. destruct (decide (id ∈ ids)); [by rewrite decide_True by (by right)|]. rewrite decide_False; [done|]. rewrite elem_of_cons. tauto.
Qed.
Lemma keeps_requests_map c b b' : keeps_requests c b b' → requests c b' = requests c b.
Proof.
  intros [Hd Hk _]. apply map_eq. intros id. unfold requests. rewrite !lookup_fmap. destruct (req_id_to_index b !! id) as [k|] eqn:E, (req_id_to_index b' !! id) as [k'|] eqn:E'; cbn; [|exfalso..|done].
  - by rewrite (Hk id k k').
  - apply (not_elem_of_dom (req_id_to_index b')) in E'. apply E'. rewrite Hd. apply elem_of_dom. eauto.
  - apply (not_elem_of_dom (req_id_to_index b)) in E. apply E. rewrite <-Hd. apply elem_of_dom. eauto.
Qed.
Lemma requests_dom c b id : is_Some (requests c b !! id) ↔ is_Some (req_id_to_index b !! id).
Proof. unfold requests. by rewrite lookup_fmap, fmap_is_Some. Qed.
Lemma requests_size c b : size (requests c b) = num_reqs b.
Proof. unfold requests, num_reqs. apply map_size_fmap. Qed.

(** ** Changes that wait for the next refresh

    [v0] is what a processor holds per row and [σ] what it should hold per request.  Replaying
    the additions leaves every row that is not marked as removed right. *)
Definition payload {T} (ns : SamplingParams → option (list Z) → oref → option T) (q : CachedRequestState) : option T :=
  sampling_params q ≫= λ p, ns p (prompt_token_ids q) (output_token_ids q).
Definition row_payload {T} (σ : gmap string (option T)) (b : InputBatch) (k : nat) : option T := slot b k ≫= λ id, mjoin (σ !! id).

Section changes.
Context (c : Config) (ls : list Layout) {T : Type} (ns : SamplingParams → option (list Z) → oref → option T) (v0 : nat → option T).

Record changing (σ : gmap string (option T)) (b : InputBatch) : Prop := {
  ch_inv : batch_inv c ls b;
  ch_holes : holes b;
  ch_moved : Builder.moved (builder b) = [];
  ch_added : Forall (λ a : AddedRequest, a.1.1.1 < max_num_reqs c) (Builder.added (builder b));
  ch_track : is_pooling_model c = false → ∀ k, k ∉ Builder._removed (builder b) → foldl (ref_added ns) v0 (Builder.added (builder b)) k = row_payload σ b k;
}.
(** What no change of the batch touches *)
Definition batch_frame (b b' : InputBatch) : Prop := logitsprocs b' = logitsprocs b ∧ out_heap b' = out_heap b.
#[local] Instance batch_frame_preorder : PreOrder batch_frame.
Proof. split; [done|]. intros b1 b2 b3 [] []. split; congruence. Qed.

Lemma remove_changing id σ b : changing σ b → Builder._is_removed_sorted (builder b) = false →
  wp (remove_request id) b (λ _ b', changing (delete id σ) b' ∧ Builder._is_removed_sorted (builder b') = false ∧ requests c b' = delete id (requests c b) ∧ batch_frame b b').
Proof.
  intros [H Hh Hm Ha Ht] Hs. destruct (req_id_to_index b !! id) as [k|] eqn:Hid.
  - eapply wp_mono; [by apply (remove_rows_spec c ls id k)|]. intros r b' [-> Hl]. destruct (row_left_inv c ls id k b b' H Hh Hid Hs Hl) as (H' & Hh' & _ & Hold).
    destruct Hl as ([Ei Ex _ _ Eb _ _ _ _ (R1 & R2 & _ & _ & R5)] & _). split_and!; [constructor; [done|done|by rewrite Eb|by rewrite Eb|]|by rewrite Eb| |done].
    + intros Hp j. rewrite Eb. cbn. rewrite elem_of_app, list_elem_of_singleton. intros Hj. rewrite Ht by tauto. unfold row_payload, slot. rewrite Ei, list_lookup_insert_ne by (intros ->; tauto).
      destruct (_req_ids b !! j) as [[id'|]|] eqn:Ej; [|done..]. cbn. rewrite lookup_delete_ne; [done|]. intros <-. apply (bi_index _ _ _ H) in Ej. naive_solver.
    + apply map_eq. intros id'. destruct (decide (id' = id)) as [->|N]; [rewrite lookup_delete_eq; unfold requests; by rewrite Ex, lookup_fmap, lookup_delete_eq|]. rewrite lookup_delete_ne by done. unfold requests. rewrite !lookup_fmap.
      destruct (req_id_to_index b' !! id') as [j|] eqn:Ej; [destruct (Hold j id' Ej) as (_ & -> & E); cbn; by rewrite E|]. rewrite Ex, lookup_delete_ne in Ej by done. by rewrite Ej.
  - unfold wp. rewrite remove_unknown by done. split_and!; [|done| |done..].
    + constructor; try done. intros Hp k Hk. rewrite Ht by done. unfold row_payload. destruct (slot b k) as [id'|] eqn:Ej; [|done]. cbn. rewrite lookup_delete_ne; [done|]. intros <-. apply slot_Some, (bi_index _ _ _ H) in Ej. congruence.
    + rewrite delete_id; [done|]. unfold requests. by rewrite lookup_fmap, Hid.
Qed.

Lemma add_changing q σ b : changing σ b → num_reqs b < max_num_reqs c → req_id_to_index b !! req_id q = None → request_ok c ls (out_heap b) q (prompt_len q) →
  wp (add_request q) b (λ _ b', changing (<[req_id q := payload ns q]> σ) b' ∧
    requests c b' = <[req_id q := request_row c ls (out_heap b) q (prompt_len q)]> (requests c b) ∧ batch_frame b b').
Proof.
  intros [H Hh Hm Ha Ht] Hn Hid Hq. eapply wp_mono; [by apply (add_request_spec c ls q (prompt_len q))|]. intros k b' (H' & Hh' & Hrow & Hk & He & Em & Ea & Er).
  pose proof (new_row_free c ls b k H Hrow) as Hfree. destruct He as [Ei _ Ex Ed Eo _ _ (R1 & R2 & R3 & R4 & _)]. split_and!; [constructor; [done|done|by rewrite Em| |]| |done].
  - rewrite Ea. apply Forall_app. split; [done|]. destruct (sampling_params q); [by apply Forall_singleton|constructor].
  - intros Hp j Hj. rewrite Ea. pose proof (ro_kind _ _ _ _ _ Hq) as Hkind. rewrite Hp in Hkind. destruct Hkind as [p Ep]. rewrite Ep, foldl_snoc. unfold ref_added at 1. cbn. unfold row_payload, slot. rewrite Ei. case_decide as Ej.
    + cbn. rewrite lookup_insert_eq. cbn. unfold payload. by rewrite Ep.
    + rewrite (Ht Hp j); [|rewrite Er in Hj; tauto]. unfold row_payload, slot. destruct (_req_ids b !! j) as [[id'|]|] eqn:Ejd; [|done..]. cbn. rewrite lookup_insert_ne; [done|].
      intros <-. apply (bi_index _ _ _ H) in Ejd. congruence.
  - apply map_eq. intros id. unfold requests. rewrite Ex, lookup_fmap. destruct (decide (id = req_id q)) as [->|N]; [rewrite !lookup_insert_eq; cbn; by rewrite Ed|]. rewrite !lookup_insert_ne, lookup_fmap by done.
    destruct (req_id_to_index b !! id) as [j|] eqn:Ej; [|done]. cbn. rewrite Eo; [done|]. exists id. by apply (bi_index _ _ _ H).
Qed.

Lemma remove_all_spec ids : ∀ σ b, changing σ b → Builder._is_removed_sorted (builder b) = false →
  wp (remove_all ids) b (λ _ b', changing (leave σ ids) b' ∧ requests c b' = leave (requests c b) ids ∧ batch_frame b b').
Proof.
  induction ids as [|id ids IH]; intros σ b Hb Hs; [by apply wp_ret|]. unfold remove_all. cbn [for_each]. apply wp_bind, wp_bind. eapply wp_mono; [by apply remove_changing|].
  intros _ b1 (Hb1 & Hs1 & E1 & F1). apply wp_ret. eapply wp_mono; [by apply IH|]. intros [] b2 (Hb2 & E2 & F2). cbn. rewrite <-E1. split_and!; [done..|by etransitivity].
Qed.

(** New requests have new ids and there is room for them. *)
Definition enterable (h : heap) (m : gmap string RowData) (qs : list CachedRequestState) : Prop :=
  NoDup (req_id <$> qs) ∧ Forall (λ q, m !! req_id q = None ∧ request_ok c ls h q (prompt_len q)) qs ∧ size m + length qs ≤ max_num_reqs c.

Lemma enterable_cons h m q qs d : enterable h m (q :: qs) → enterable h (<[req_id q := d]> m) qs.
Proof.
  intros (Hnd & Hf & Hs). apply NoDup_cons in Hnd as [Hq Hnd]. apply Forall_cons in Hf as [[Hm _] Hf]. split_and!; [done| |rewrite map_size_insert_None by done; cbn in Hs; lia].
  apply Forall_forall. intros q' Hq'. apply (proj1 (Forall_forall _ _) Hf) in Hq' as Hx. destruct Hx as [Hx ?]. split; [|done]. rewrite lookup_insert_ne; [done|]. intros E. apply Hq. rewrite E. apply list_elem_of_fmap. eauto.
Qed.

Lemma add_all_spec qs : ∀ σ b, changing σ b → enterable (out_heap b) (requests c b) qs →
  wp (add_all qs) b (λ _ b', changing (enter (payload ns) σ qs) b' ∧ requests c b' = enter (λ q, request_row c ls (out_heap b) q (prompt_len q)) (requests c b) qs ∧ batch_frame b b').
Proof.
  induction qs as [|q qs IH]; intros σ b Hb He; [by apply wp_ret|]. unfold add_all. cbn [for_each]. pose proof He as (_ & Hf & Hs). apply Forall_cons in Hf as [[Hq1 Hq2] _]. apply wp_bind, wp_bind. eapply wp_mono; [apply add_changing; [done| | |done]|].
  - rewrite <-(requests_size c). cbn in Hs. lia.
  - destruct (req_id_to_index b !! req_id q) eqn:E; [|done]. unfold requests in Hq1. by rewrite lookup_fmap, E in Hq1.
  - intros _ b1 (Hb1 & E1 & F1). apply wp_ret. assert (out_heap b1 = out_heap b) as Eh by apply F1. eapply wp_mono; [apply IH; [done|]|].
    + rewrite E1, Eh. by apply enterable_cons.
    + intros [] b2 (Hb2 & E2 & F2). cbn. rewrite <-E1, <-Eh. split_and!; [done..|by etransitivity].
Qed.

(** *** The end of a step *)

Lemma foldl_removed (l : list nat) : ∀ (v : nat → option T) k, foldl ref_removed v l k = if decide (k ∈ l) then None else v k.
Proof.
  induction l as [|i l IH]; intros v k; [by rewrite decide_False by apply not_elem_of_nil|]. cbn. rewrite IH. unfold ref_removed. destruct (decide (k ∈ l)); [by rewrite decide_True by (by right)|].
  destruct (decide (k = i)) as [->|]; [by rewrite decide_True by left|]. rewrite decide_False; [done|]. rewrite elem_of_cons. tauto.
Qed.
(** Replaying exchanges *)
Lemma foldl_swaps (sw : list (nat * nat)) : ∀ (v : nat → option T) k, foldl ref_moved v ((λ p : nat * nat, (p.1, p.2, SWAP)) <$> sw) k = v (exchange_ix sw k).
Proof.
  induction sw as [|[i j] sw IH] using rev_ind; intros v k; [done|]. rewrite fmap_app, foldl_app. cbn. unfold ref_moved at 1. cbn. rewrite !IH. unfold exchange_ix. rewrite foldr_snoc. cbn. unfold swap_ix.
  rewrite (decide_True (P := SWAP = SWAP)) by done. repeat case_decide; subst; done.
Qed.

(** The batch after a step, before the processors are told *)
Record settled (σ : gmap string (option T)) (b : InputBatch) : Prop := {
  se_inv : batch_inv c ls b;
  se_dense : dense b (length (_req_ids b));
  se_legal : legal_update (max_num_reqs c) (mkUpdate (num_reqs b) (Builder._removed (builder b)) (Builder.added (builder b)) (Builder.moved (builder b)));
  se_update : is_pooling_model c = false → ∀ k,
    ref_update ns (Some (mkUpdate (num_reqs b) (Builder._removed (builder b)) (Builder.added (builder b)) (Builder.moved (builder b)))) v0 k = row_payload σ b k;
}.

Lemma condense_settles σ b : changing σ b → wp condense b (λ _ b', settled σ b' ∧ requests c b' = requests c b ∧ batch_frame b b').
Proof.
  intros [H Hh Hm Ha Ht]. eapply wp_mono; [by apply (condense_spec c ls)|]. intros [] b' [H' Hk En Hd Hl Hr Hs Had (ms & Em & Hre & Hms)]. rewrite Hm in Em. cbn in Em. pose proof (bi_bound _ _ _ H) as Hb. pose proof (bi_bound _ _ _ H') as Hb'.
  split_and!; [|by apply keeps_requests_map|split; apply Hk]. constructor; [done|by rewrite Hl| |].
  - constructor; cbn; [lia|by rewrite Had| |].
    + apply Forall_forall. intros k Hkr. apply Hr in Hkr. lia.
    + rewrite Em. eapply Forall_impl; [exact Hms|]. cbn. intros mv (? & ? & ? & ?). split_and!; [lia..|]. intros _. by rewrite En.
  - intros Hp k. cbn. rewrite Had, Em. rewrite (Hre Hp T (λ id, mjoin (σ !! id))).
    + case_decide as E; [|done]. rewrite foldl_removed, decide_True by done. unfold row_payload. destruct (slot b' k) as [id|] eqn:Es; [|done]. exfalso. assert (occupied b' k) as Ho by (apply slot_occupied; eauto). apply Hd in Ho. apply Hr in E. lia.
    + intros j Hj. rewrite foldl_removed, decide_False by (intros E; by apply Hr in E as [_ ?]). by apply Ht.
Qed.

Lemma exchange_settles σ b sw b' : settled σ b → exchanged c ls b sw b' → settled σ b' ∧ requests c b' = requests c b ∧ batch_frame b b'.
Proof.
  intros [H Hd [L1 L2 L3 L4] Hu] He. destruct (exchanged_spec c ls b sw b' H He) as (H' & Hk & El & Hs & Ho & Bp & Bn & Hsw). pose proof (keeps_num_reqs _ _ _ Hk) as En. pose proof (bi_bound _ _ _ H) as Hb.
  assert (Builder._removed (builder b') = Builder._removed (builder b) ∧ Builder.added (builder b') = Builder.added (builder b) ∧
    Builder.moved (builder b') = Builder.moved (builder b) ++ if is_pooling_model c then [] else (λ p : nat * nat, (p.1, p.2, SWAP)) <$> sw) as (E1 & E2 & E3).
  { destruct (is_pooling_model c) eqn:Ep; [rewrite Bp by done|rewrite Bn by done]; cbn; by rewrite ?app_nil_r. }
  split_and!; [|by apply keeps_requests_map|split; apply Hk]. constructor; [done|intros k; by rewrite Ho, El| |].
  - cbn in *. constructor; cbn; rewrite ?E1, ?E2, ?E3, ?En; try done. apply Forall_app. split; [done|]. destruct (is_pooling_model c); [constructor|]. apply Forall_fmap. eapply Forall_impl; [exact Hsw|]. cbn. intros p (? & ? & ?). split_and!; [lia..|done|done].
  - intros Hp k. cbn in *. rewrite E1, E2, E3, Hp, foldl_app, foldl_swaps, (Hu Hp). unfold row_payload. by rewrite <-Hs.
Qed.

(** A request that the attention backend can place *)
Definition schedulable (sched : gmap string Z) (m : gmap string RowData) : Prop :=
  map_Forall (λ id d, is_Some (sched !! id) ∧ ∀ x, rd_ints d !! 3 = Some (Some x) → (0 ≤ x)%Z) m.

Lemma schedulable_reorderable sched b : batch_inv c ls b → dense b (length (_req_ids b)) → schedulable sched (requests c b) → reorderable sched b.
Proof.
  intros H Hd Hs. constructor; [done| |].
  - intros id [k Hk]. apply (Hs id (row_data c (rows b) k)). unfold requests. by rewrite lookup_fmap, Hk.
  - intros k x [id Hid] Hx. apply (bi_index _ _ _ H) in Hid. apply (Hs id (row_data c (rows b) k)); [unfold requests; by rewrite lookup_fmap, Hid|]. cbn. by rewrite Hx.
Qed.

Lemma reorder_settles groups threshold sched σ b : settled σ b → schedulable sched (requests c b) →
  wp (_may_reorder_batch groups threshold sched) b (λ _ b', settled σ b' ∧ requests c b' = requests c b ∧ batch_frame b b').
Proof.
  intros Hse Hs. pose proof (se_inv _ _ Hse) as H. unfold _may_reorder_batch. case_decide; [by apply wp_ret|]. destruct threshold as [thr|]; [|by apply wp_ret]. apply wp_bind.
  eapply wp_mono; [apply (reorder_spec c ls); [done|apply schedulable_reorderable; [done|apply Hse|done]]|]. intros r b' (sw & _ & _ & He & _). apply wp_ret. by eapply exchange_settles.
Qed.

Lemma update_batch_spec removed added groups threshold sched σ b : changing σ b → Builder._is_removed_sorted (builder b) = false →
  let row q := request_row c ls (out_heap b) q (prompt_len q) in
  enterable (out_heap b) (leave (requests c b) removed) added → schedulable sched (abs_step row removed added (requests c b)) →
  wp (update_batch removed added groups threshold sched) b (λ _ b', settled (abs_step (payload ns) removed added σ) b' ∧ requests c b' = abs_step row removed added (requests c b) ∧ batch_frame b b').
Proof.
  intros Hc Hs row He Hsch. unfold update_batch. apply wp_bind. eapply wp_mono; [by apply remove_all_spec|]. intros [] b1 (H1 & E1 & F1). assert (out_heap b1 = out_heap b) as Eh by apply F1.
  apply wp_bind. eapply wp_mono; [apply add_all_spec; [done|by rewrite Eh, E1]|]. intros [] b2 (H2 & E2 & F2). rewrite Eh, E1 in E2. apply wp_bind. eapply wp_mono; [by apply condense_settles|]. intros [] b3 (H3 & E3 & F3).
  eapply wp_mono; [apply reorder_settles; [done|by rewrite E3, E2]|]. intros [] b4 (H4 & E4 & F4). split_and!; [done|by rewrite E4, E3, E2|]. etransitivity; [done|]. etransitivity; [done|]. by etransitivity.
Qed.
End changes.

(** ** Between steps *)

(** Nothing waits to be told to the processors, and there are no gaps. *)
Record ready (c : Config) (ls : list Layout) (b : InputBatch) : Prop := {
  rd_inv : batch_inv c ls b;
  rd_dense : dense b (length (_req_ids b));
  rd_removed : Builder._removed (builder b) = [];
  rd_added : Builder.added (builder b) = [];
  rd_moved : Builder.moved (builder b) = [];
  rd_unsorted : Builder._is_removed_sorted (builder b) = false;
}.

Lemma ready_changing {T} c ls (ns : SamplingParams → option (list Z) → oref → option T) v0 σ b : ready c ls b → (∀ k, v0 k = row_payload σ b k) → changing c ls ns v0 σ b.
Proof.
  intros [H Hd Er Ea Em Es] Hv. constructor; [done| |done|by rewrite Ea|by rewrite Ea]. split; rewrite Er; [constructor|]. intros k. split; [by intros ?%not_elem_of_nil|]. intros Hk.
  pose proof (lookup_lt_Some _ _ _ Hk) as Hl. apply Hd in Hl as [id Hid]. congruence.
Qed.

(** Telling the processors: the update says what has to be replayed. *)
Definition take_update : M InputBatch (option BatchUpdate) := n ← gets num_reqs; on_builder (Builder.get_and_reset n).

Lemma take_update_spec {T} c ls (ns : SamplingParams → option (list Z) → oref → option T) v0 σ b : settled c ls ns v0 σ b → is_pooling_model c = false →
  wp take_update b (λ bu b', ready c ls b' ∧ legal (max_num_reqs c) bu ∧ (∀ k, ref_update ns bu v0 k = row_payload σ b k) ∧ b' = set_builder (builder b') b).
Proof.
  intros [H Hd Hl Hu] Hp. unfold take_update, Builder.get_and_reset. apply wp_bind, wp_gets, wp_zoom, wp_bind, wp_modify, wp_bind, wp_gets. cbn. specialize (Hu Hp).
  assert (∀ u, builder_ok u → Builder._removed u = [] → Builder.added u = [] → Builder.moved u = [] → Builder._is_removed_sorted u = false → ready c ls (set_builder u b)) as Hr.
  { intros u Hu' E1 E2 E3 E4. constructor; try done. by apply set_builder_inv. }
  case_decide as E.
  - destruct E as (E1 & E2 & E3). apply wp_ret. cbn. split_and!; [by apply Hr|done| |done]. intros k. specialize (Hu k). cbn in Hu. by rewrite E1, E2, E3 in Hu.
  - apply wp_bind, wp_modify, wp_ret. cbn. split_and!; [by apply Hr|done| |done]. exact Hu.
Qed.

(** A new batch *)
Lemma new_input_batch_ready c ntokens bss kbss spec interleave pcp dcp procs b : Forall (λ n, 0 < n) bss →
  new_input_batch c ntokens bss kbss spec interleave pcp dcp procs = Ok b → ready c (layout <$> block_table (rows b)) b ∧ requests c b = ∅.
Proof.
  intros Hbs Hn. unfold new_input_batch in Hn. destruct (Multi.new _ _ _ _ _ _ _ _ _) as [t|] eqn:Et; [|done]. cbn in Hn. injection Hn as <-. destruct (new_groups_spec _ _ _ _ _ _ _ _ _ _ Hbs Et) as (Hg & _).
  assert (∀ k, ¬ occupied (mkBatch c [] ∅ (mkRows (replicate (max_num_reqs c) (replicate (max_model_len c) 0%Z)) (replicate (max_num_reqs c) (replicate (max_model_len c) false)) ∅
           (λ k, replicate (max_num_reqs c) (if decide (k = num_accepted_tokens_cpu) then 1 else 0)%Z) (λ _, replicate (max_num_reqs c) 0%Qc) t ∅ None ∅ (replicate (max_num_reqs c) false) [] (replicate (max_num_reqs c) []))
        (mkById (λ _, ∅) ∅ ∅ ∅ ∅ ∅) Builder.new procs (mkDevice (λ _, replicate (max_num_reqs c) 0%Qc) (replicate (max_num_reqs c) 0%Z) None)
        (mkMetadata None true true None None None None [] [] [] (logitsprocs_need_output_token_ids c) true None) ∅ None None) k) as Hno by (intros k [id Hid]; done).
  split; [|done]. constructor; try done; [|intros k; split; [by intros ?%Hno|cbn; lia]]. constructor; try done; cbn.
  - constructor; cbn; try done; intros; rewrite ?length_replicate; try done; split; try done; apply Forall_replicate, length_replicate.
  - lia.
  - lia.
  - by intros k ?%Hno.
  - intros k _. rewrite !lookup_empty. split_and!; [done..|]. destruct (decide (k < max_num_reqs c)); [by rewrite lookup_replicate_2|]. rewrite lookup_ge_None_2 by (rewrite length_replicate; lia). done.
  - intros l. cbn. rewrite lookup_empty. intros _ id. done.
Qed.

(** ** The step *)

(** The data that a new request has to have *)
Definition new_row (c : Config) (ls : list Layout) (b : InputBatch) (q : CachedRequestState) : RowData := request_row c ls (out_heap b) q (prompt_len q).

Section step.
Context (c : Config) (ls : list Layout) (removed : list string) (added : list CachedRequestState) (groups : nat) (threshold : option Z) (sched : gmap string Z) (b : InputBatch).
(** What the model runner guarantees: between steps the batch is [ready], new requests have new
    ids and fit, and all requests are scheduled. *)
Record step_ok : Prop := {
  so_ready : ready c ls b;
  so_enterable : enterable c ls (out_heap b) (leave (requests c b) removed) added;
  so_schedulable : schedulable sched (abs_step (new_row c ls b) removed added (requests c b));
}.

Lemma update_batch_settles {T} (ns : SamplingParams → option (list Z) → oref → option T) v0 σ : step_ok → (∀ k, v0 k = row_payload σ b k) →
  wp (update_batch removed added groups threshold sched) b (λ _ b', settled c ls ns v0 (abs_step (payload ns) removed added σ) b' ∧ requests c b' = abs_step (new_row c ls b) removed added (requests c b) ∧ batch_frame b b').
Proof. intros [Hr He Hs] Hv. apply update_batch_spec; [by apply ready_changing|apply Hr|done..]. Qed.

(** The whole step for one processor state per row *)
Lemma step_spec {T} (ns : SamplingParams → option (list Z) → oref → option T) v0 σ : step_ok → is_pooling_model c = false → (∀ k, v0 k = row_payload σ b k) →
  wp (update_batch removed added groups threshold sched;; take_update) b (λ bu b', ready c ls b' ∧ out_heap b' = out_heap b ∧ requests c b' = abs_step (new_row c ls b) removed added (requests c b) ∧
    legal (max_num_reqs c) bu ∧ ∀ k, ref_update ns bu v0 k = row_payload (abs_step (payload ns) removed added σ) b' k).
Proof.
  intros Hok Hp Hv. apply wp_bind. eapply wp_mono; [by apply (update_batch_settles ns v0 σ)|]. intros [] b1 (H1 & E1 & F1). eapply wp_mono; [by apply (take_update_spec c ls ns)|].
  intros bu b2 (Hr & Hl & Hu & E2). split_and!; [done|rewrite E2; apply F1|rewrite E2; exact E1|done|]. intros k. rewrite Hu, E2. done.
Qed.
Lemma follow_step {S T} (ns : SamplingParams → option (list Z) → oref → option T) keep inv (view : S → nat → option T) update `{!Follows ns keep (max_num_reqs c) inv view update} σ s :
  step_ok → is_pooling_model c = false → inv s → (∀ k, view s k = row_payload σ b k) →
  wp (update_batch removed added groups threshold sched;; take_update) b (λ bu b', ready c ls b' ∧
    wp (update bu) s (λ _ s', inv s' ∧ ∀ k, view s' k = kept keep (row_payload (abs_step (payload ns) removed added σ) b' k))).
Proof.
  intros Hok Hp Hs Hv. eapply wp_mono; [by apply (step_spec ns (view s) σ)|]. intros bu b' (Hr & _ & _ & Hl & Hu). split; [done|]. eapply wp_mono; [by apply (follows s bu)|].
  intros [] s' [Hs' Hv']. split; [done|]. intros k. by rewrite Hv', Hu.
Qed.

(** C6. The persistent batch refines a map from request ids to the data of the requests (tokens,
    embeddings, counts, sampling parameters, block table rows, generator, bad words, output list,
    speculative tokens; not the mask of allowed tokens and the flag for logits processing, which
    the code does not keep).  Whatever rows the requests are in, removing requests, adding requests,
    condensing the rows and reordering them for the attention backend raises nothing and has
    exactly the effect of deleting and inserting these requests in the map; afterwards the
    requests fill the first rows without gaps, and the index and the list of ids are inverse. *)
Theorem batch_step_refines : step_ok → ∃ b', update_batch removed added groups threshold sched b = (Ok tt, b') ∧
  requests c b' = abs_step (new_row c ls b) removed added (requests c b) ∧ (∀ k, occupied b' k ↔ k < size (requests c b')) ∧ (∀ id k, req_id_to_index b' !! id = Some k ↔ _req_ids b' !! k = Some (Some id)).
Proof.
  intros Hok. pose proof (update_batch_settles (λ _ _ _, None : option ()) (λ _, None) ∅ Hok) as Hw. apply wp_ok in Hw as ([] & b' & E & Hs & Hr & _); [|intros k; unfold row_payload; destruct (slot b k); [|done]; cbn; by rewrite lookup_empty].
  exists b'. split_and!; [done..| |apply (bi_index _ _ _ (se_inv _ _ _ _ _ _ Hs))]. intros k. rewrite requests_size, (dense_num_reqs c ls b' _ (se_inv _ _ _ _ _ _ Hs) (se_dense _ _ _ _ _ _ Hs)). apply Hs.
Qed.

(** C7. Every logits processor that follows batch updates in the sense of the [Follows] interface
    stays aligned with the batch: if its state for every row was that of the row's request, then
    after a step and the update that the builder reports for it, its state for every row is that
    of the request that is in the row now, for added requests the state that their parameters
    ask for, and nothing for rows without a request; the batch is ready for the next step. *)
Theorem processors_follow_batch {S T} (ns : SamplingParams → option (list Z) → oref → option T) keep inv (view : S → nat → option T) update `{!Follows ns keep (max_num_reqs c) inv view update} σ s :
  step_ok → is_pooling_model c = false → inv s → (∀ k, view s k = row_payload σ b k) →
  wp (update_batch removed added groups threshold sched;; take_update) b (λ bu b', ready c ls b' ∧
    wp (update bu) s (λ _ s', inv s' ∧ ∀ k, view s' k = kept keep (row_payload (abs_step (payload ns) removed added σ) b' k))).
Proof. apply follow_step, _. Qed.

(** C37. The minimum number of tokens is enforced in whatever row a request is: after a step the
    processor sets exactly the logits of the stop tokens of those requests to minus infinity that
    have produced fewer output tokens than their minimum, and leaves all other logits as they
    are. *)
Theorem min_tokens_enforced {L} (neg_inf : L) σ s logits :
  let h := out_heap b in let σ' := abs_step (payload (min_tokens_state h)) removed added σ in
  step_ok → is_pooling_model c = false → min_tokens_inv s → (∀ k, min_tokens_view s k = row_payload σ b k) → (∀ id e, σ' !! id = Some (Some e) → tokens_ok e.2) →
  wp (update_batch removed added groups threshold sched;; take_update) b (λ bu b', ∀ k t,
    min_tokens_apply neg_inf (min_tokens_update_state h bu s) logits k t =
      match row_payload σ' b' k with Some e => if bool_decide (Z.of_nat (length (tokens_of h e.1.2)) < e.1.1)%Z && bool_decide (Z.of_nat t ∈ e.2) then neg_inf else logits k t | None => logits k t end).
Proof.
  intros h σ' Hok Hp Hs Hv Ht. eapply wp_mono; [by apply (follow_step (min_tokens_state h) (below_min h) min_tokens_inv min_tokens_view (λ bu, modify (min_tokens_update_state h bu)) σ s)|].
  intros bu b' [_ Hw]. unfold wp in Hw. cbn in Hw. destruct Hw as [Hs' Hv']. fold σ' in Hv'. intros k t. rewrite min_tokens_apply_spec; [|done|].
  - rewrite Hv'. destruct (row_payload σ' b' k) as [e|]; [|done]. cbn. change (bool_decide (Z.of_nat (length (tokens_of h e.1.2)) < e.1.1)%Z) with (below_min h e). destruct (below_min h e); cbn; [|done]. by case_bool_decide; case_decide.
  - intros k' e. rewrite Hv'. unfold row_payload. destruct (slot b' k') as [id|]; [|done]. cbn. destruct (σ' !! id) as [[e'|]|] eqn:E; [|done..]. cbn. destruct (below_min h e'); [|done]. intros [= <-]. by eapply Ht.
Qed.
End step.

(** C12. The reordering for the attention backend terminates without an exception and leaves the
    batch in the order it promises: first the requests with at most [decode_threshold] scheduled
    tokens, then those that extend a computed prefix, then those that start; it only exchanges
    rows, so every request keeps its data (as in the refinement of the batch: all but the mask of
    allowed tokens and the flag for logits processing, which an exchange of rows does not carry
    along), and it reports false only if nothing had to move. *)
Theorem reorder_splits_batch c ls sched decode_threshold b : batch_inv c ls b → reorderable sched b →
  ∃ r b' counts', reorder_batch_to_split_decodes_and_prefills sched decode_threshold b = (Ok r, b') ∧ row_counts sched b' = Ok counts' ∧
    StronglySorted le (req_regions decode_threshold counts') ∧ requests c b' = requests c b ∧ batch_inv c ls b' ∧ (r = false → b' = b).
Proof.
  intros H Hr. pose proof (reorder_spec c ls sched decode_threshold b H Hr) as Hw. apply wp_ok in Hw as (r & b' & E & sw & counts & counts' & He & _ & Ec & Er & Hf). exists r, b', counts'.
  destruct (exchanged_spec c ls b sw b' H He) as (H' & Hk & _). split_and!; [done|done| |by apply keeps_requests_map|done|by intros [? _]%Hf]. rewrite Er. apply target_regions_sorted.
Qed.

(** C40. Exchanging two rows duplicates a mask of allowed tokens: the rows of the mask are views of
    one tensor, so the row of the request that was in [i1] is overwritten, and after the exchange
    both requests have the allowed tokens of the request that was in [i2]. *)
Theorem swap_duplicates_mask c ls i1 i2 b m : batch_inv c ls b → is_pooling_model c = false → occupied b i1 → occupied b i2 → allowed_mask (rows b) = Some m →
  wp (swap_states i1 i2) b (λ _ b', ∃ m', allowed_mask (rows b') = Some m' ∧ slot b' i2 = slot b i1 ∧ slot b' i1 = slot b i2 ∧ m' !! i1 = m !! i2 ∧ m' !! i2 = m !! i2).
Proof.
  intros H Hp H1 H2 Em. eapply wp_mono; [by apply (swap_states_spec c ls)|]. intros [] b' Hs. pose proof (rf_mask _ _ _ _ _ _ _ (sw_rows _ _ _ _ _ _ Hs)) as Hm. rewrite Em, Hp in Hm. destruct Hm as (m' & Em' & Hre).
  pose proof (rs_mask _ _ _ (bi_rows _ _ _ H) m Em) as Lm. pose proof (bi_bound _ _ _ H) as Hb. pose proof (occupied_lt _ _ H1) as L1. pose proof (occupied_lt _ _ H2) as L2.
  exists m'. rewrite !(swapped_slot c ls i1 i2 b b' _ H1 H2 Hs), (rearranged_lookup _ _ _ _ i1 Hre Lm), (rearranged_lookup _ _ _ _ i2 Hre Lm) by lia. unfold swap_ix, move_ix.
  split_and!; [done|..]; repeat case_decide; congruence.
Qed.

(** What a processor drops it need not hold in the next step. *)
Lemma row_payload_kept {T} (keep : T → bool) σ b k : row_payload (kept keep <$> σ) b k = kept keep (row_payload σ b k).
Proof. unfold row_payload. destruct (slot b k) as [id|]; [|done]. cbn. rewrite lookup_fmap. by destruct (σ !! id) as [[e|]|]. Qed.

(** ** An example: three requests, then one leaves and one enters *)
Definition example_config : Config := mkBatchConfig false false 4 16 32 false (λ x, x).
Definition example_params (minimum : Z) (allowed : option (list nat)) : SamplingParams := mkParams 1 1 0 0 0 0 1 None None None minimum [7%Z] None allowed None.
Definition example_request (id : string) (prompt : list Z) (blocks : list Z) (computed : Z) (o : oref) (minimum : Z) (allowed : option (list nat)) : CachedRequestState :=
  mkCachedRequest id (Some prompt) None (Some (example_params minimum allowed)) None None [blocks] computed o None.
Definition example_a := example_request "a" [1; 2; 3]%Z [5]%Z 0 0 2 (Some [3]).
Definition example_b := example_request "b" [4; 5]%Z [6]%Z 2 1 0 None.
Definition example_c := example_request "c" [6]%Z [7]%Z 1 2 3 (Some [9]).
Definition example_d := example_request "d" [8; 9]%Z [8]%Z 0 3 1 None.
Definition example_sched : gmap string Z := <["a" := 3%Z]> (<["b" := 1%Z]> (<["c" := 4%Z]> (<["d" := 2%Z]> ∅))).
Definition example_new : InputBatch := match new_input_batch example_config 16 [4] [4] 0 1 None None (new_logits_processors []) with Ok b => b | Raise _ => mkBatch example_config [] ∅ (mkRows [] [] ∅ (λ _, []) (λ _, []) [] ∅ None ∅ [] [] []) (mkById (λ _, ∅) ∅ ∅ ∅ ∅ ∅) Builder.new (new_logits_processors []) (mkDevice (λ _, []) [] None) (mkMetadata None true true None None None None [] [] [] false true None) ∅ None None end.
Definition example_ls : list Layout := layout <$> block_table (rows example_new).
Definition example_first : M InputBatch (option BatchUpdate) := update_batch [] [example_a; example_b; example_c] 1 None example_sched;; take_update.
Definition example_batch : InputBatch := (example_first example_new).2.

Lemma example_new_ready : ready example_config example_ls example_new ∧ requests example_config example_new = ∅.
Proof. by apply (new_input_batch_ready example_config 16 [4] [4] 0 1 None None (new_logits_processors [])); [repeat constructor|]. Qed.

Lemma example_request_ok q : q ∈ [example_a; example_b; example_c; example_d] → request_ok example_config example_ls ∅ q (prompt_len q).
Proof.
  intros Hq. repeat (apply elem_of_cons in Hq as [->|Hq]); [..|by apply not_elem_of_nil in Hq].
  all: constructor; [by eexists|done|vm_compute; lia|split; repeat constructor; done| |intros p ids [= <-]; cbn; intros [= <-] || done; repeat constructor; lia|done].
  all: split; [done|]; intros [|i] l ids Hl Hids; [|done]; injection Hl as <-; injection Hids as <-; split; [repeat constructor; done|vm_compute; lia].
Qed.

Definition example_data (q : CachedRequestState) : RowData := new_row example_config example_ls example_new q.
Definition example_requests : gmap string RowData := enter example_data ∅ [example_a; example_b; example_c].
Lemma example_schedulable m : schedulable example_sched m → ∀ q, q ∈ [example_a; example_b; example_c; example_d] → schedulable example_sched (<[req_id q := example_data q]> m).
Proof.
  intros Hm q Hq. apply map_Forall_insert_2; [|done]. repeat (apply elem_of_cons in Hq as [->|Hq]); [..|by apply not_elem_of_nil in Hq].
  all: split; [by vm_compute; eexists|]; cbn; intros x [= <-]; lia.
Qed.
Lemma example_first_ok : step_ok example_config example_ls [] [example_a; example_b; example_c] example_sched example_new.
Proof.
  destruct example_new_ready as [Hr E0]. constructor; [done| |].
  - rewrite E0. split_and!; [by apply (bool_decide_unpack _); vm_compute| |by vm_compute; lia]. apply Forall_forall. intros q Hq. split; [rewrite leave_lookup, lookup_empty; by case_decide|]. apply example_request_ok. set_solver.
  - rewrite E0. unfold abs_step, enter. cbn. do 3 (apply example_schedulable; [|clear; set_solver]). apply map_Forall_empty.
Qed.
Lemma example_batch_ready : ready example_config example_ls example_batch ∧ out_heap example_batch = ∅ ∧ requests example_config example_batch = example_requests.
Proof.
  pose proof (step_spec example_config example_ls [] [example_a; example_b; example_c] 1 None example_sched example_new (λ _ _ _, None : option ()) (λ _, None) ∅ example_first_ok eq_refl) as Hw.
  unfold wp in Hw. fold example_first in Hw. unfold example_batch. destruct (example_first example_new) as [[bu|e] b']; [|destruct Hw; intros k; unfold row_payload; by destruct (slot _ _)].
  destruct Hw as (H1 & H2 & H3 & _); [intros k; unfold row_payload; by destruct (slot _ _)|]. cbn. destruct example_new_ready as [_ E0]. rewrite E0 in H3. split_and!; [done|by rewrite H2|exact H3].
Qed.
Lemma example_requests_schedulable : schedulable example_sched example_requests.
Proof. unfold example_requests, enter. cbn. do 3 (apply example_schedulable; [|clear; set_solver]). apply map_Forall_empty. Qed.
Lemma example_step_ok : step_ok example_config example_ls ["a"] [example_d] example_sched example_batch.
Proof.
  destruct example_batch_ready as (Hr & Eh & Eq). constructor; [done| |].
  - rewrite Eh, Eq. split_and!; [apply NoDup_singleton| |by vm_compute; lia]. apply Forall_singleton. split; [by vm_compute|]. apply example_request_ok. do 3 right. left.
  - rewrite Eq. unfold abs_step, enter, leave, new_row. rewrite Eh. cbn. change (schedulable example_sched (<[req_id example_d := example_data example_d]> (delete "a" example_requests))). apply example_schedulable; [|do 3 right; left].
    apply map_Forall_delete, example_requests_schedulable.
Qed.

(** The processor for the minimum number of tokens after the first step *)
Definition example_state : MinTokensLogitsProcessor := match (example_first example_new).1 with Ok bu => min_tokens_update_state ∅ bu (mkMinTokens [] ([], [])) | Raise _ => mkMinTokens [] ([], []) end.
Definition example_σ : gmap string (option (Z * oref * list Z)) := kept (below_min ∅) <$> abs_step (payload (min_tokens_state ∅)) [] [example_a; example_b; example_c] ∅.
Lemma example_aligned : min_tokens_inv example_state ∧ ∀ k, min_tokens_view example_state k = row_payload example_σ example_batch k.
Proof.
  pose proof (follow_step example_config example_ls [] [example_a; example_b; example_c] 1 None example_sched example_new (min_tokens_state ∅) (below_min ∅) min_tokens_inv min_tokens_view
    (λ bu, modify (min_tokens_update_state ∅ bu)) ∅ (mkMinTokens [] ([], [])) example_first_ok eq_refl) as Hw. unfold wp in Hw at 1. fold example_first in Hw. unfold example_state, example_batch.
  destruct (example_first example_new) as [[bu|e] b']; [|by destruct Hw; [constructor; constructor|intros k; unfold row_payload; by destruct (slot _ _)]].
  destruct Hw as [_ Hw]; [constructor; constructor|intros k; unfold row_payload; by destruct (slot _ _)|]. cbn in Hw. destruct Hw as [H1 H2]. split; [done|]. intros k. cbn. rewrite H2. unfold example_σ. by rewrite row_payload_kept.
Qed.

Lemma batch_step_refines_witness :
  (∃ b', update_batch ["a"] [example_d] 1 (Some 1%Z) example_sched example_batch = (Ok tt, b') ∧
    requests example_config b' = abs_step (new_row example_config example_ls example_batch) ["a"] [example_d] (requests example_config example_batch) ∧
    (∀ k, occupied b' k ↔ k < size (requests example_config b')) ∧ (∀ id k, req_id_to_index b' !! id = Some k ↔ _req_ids b' !! k = Some (Some id))) ∧
  _req_ids (update_batch ["a"] [example_d] 1 (Some 1%Z) example_sched example_batch).2 = [Some "b"; Some "c"; Some "d"].
Proof. split; [|by vm_compute]. apply (batch_step_refines example_config example_ls). apply example_step_ok. Defined.

Lemma processors_follow_batch_witness :
  wp (update_batch ["a"] [example_d] 1 (Some 1%Z) example_sched;; take_update) example_batch (λ bu b', ready example_config example_ls b' ∧
    wp (modify (min_tokens_update_state ∅ bu)) example_state (λ _ s', min_tokens_inv s' ∧
      ∀ k, min_tokens_view s' k = kept (below_min ∅) (row_payload (abs_step (payload (min_tokens_state ∅)) ["a"] [example_d] example_σ) b' k))) ∧
  min_tokens_view example_state 0 = Some (2%Z, 0, [7%Z]).
Proof.
  split; [|by vm_compute]. apply (processors_follow_batch example_config example_ls ["a"] [example_d] 1 (Some 1%Z) example_sched example_batch (min_tokens_state ∅) (below_min ∅) min_tokens_inv min_tokens_view (λ bu, modify (min_tokens_update_state ∅ bu)));
    [apply example_step_ok|done|apply example_aligned|apply example_aligned].
Defined.

Lemma min_tokens_enforced_witness :
  let σ' := abs_step (payload (min_tokens_state ∅)) ["a"] [example_d] example_σ in
  wp (update_batch ["a"] [example_d] 1 (Some 1%Z) example_sched;; take_update) example_batch (λ bu b', ∀ k t,
    min_tokens_apply 0%Z (min_tokens_update_state ∅ bu example_state) (λ _ _, 5%Z) k t =
      match row_payload σ' b' k with Some e => if bool_decide (Z.of_nat (length (tokens_of ∅ e.1.2)) < e.1.1)%Z && bool_decide (Z.of_nat t ∈ e.2) then 0%Z else 5%Z | None => 5%Z end) ∧ σ' !! "c" = Some (Some (3%Z, 2, [7%Z])).
Proof.
  split; [|by vm_compute]. apply (min_tokens_enforced example_config example_ls ["a"] [example_d] 1 (Some 1%Z) example_sched example_batch 0%Z example_σ example_state (λ _ _, 5%Z));
    [apply example_step_ok|done|apply example_aligned|apply example_aligned|].
  assert (map_Forall (λ _ (o : option (Z * oref * list Z)), Forall (λ t, 0 ≤ t)%Z (match o with Some e => e.2 | None => [] end)) (abs_step (payload (min_tokens_state ∅)) ["a"] [example_d] example_σ)) as Hf
    by (apply (bool_decide_unpack _); by vm_compute).
  intros id e He. exact (Hf id (Some e) He).
Defined.

Lemma reorder_splits_batch_witness :
  ∃ r b' counts', reorder_batch_to_split_decodes_and_prefills example_sched 3 example_batch = (Ok r, b') ∧ row_counts example_sched b' = Ok counts' ∧
    StronglySorted le (req_regions 3 counts') ∧ requests example_config b' = requests example_config example_batch ∧ batch_inv example_config example_ls b' ∧ (r = false → b' = example_batch).
Proof.
  destruct example_batch_ready as (Hr & _ & Eq). apply (reorder_splits_batch example_config example_ls); [exact (rd_inv _ _ _ Hr)|]. apply (schedulable_reorderable example_config example_ls); [exact (rd_inv _ _ _ Hr)|exact (rd_dense _ _ _ Hr)|]. rewrite Eq. apply example_requests_schedulable.
Defined.

Lemma swap_duplicates_mask_witness :
  wp (swap_states 0 2) example_batch (λ _ b', ∃ m', allowed_mask (rows b') = Some m' ∧ slot b' 2 = Some "a" ∧ slot b' 0 = Some "c" ∧
    m' !! 0 = default [] (allowed_mask (rows example_batch)) !! 2 ∧ m' !! 2 = default [] (allowed_mask (rows example_batch)) !! 2) ∧
  default [] (allowed_mask (rows example_batch)) !! 0 ≠ default [] (allowed_mask (rows example_batch)) !! 2.
Proof.
  split; [|vm_compute; discriminate]. apply (swap_duplicates_mask example_config example_ls 0 2 example_batch (default [] (allowed_mask (rows example_batch)))); [exact (rd_inv _ _ _ (proj1 example_batch_ready))|done|by exists "a"; vm_compute|by exists "c"; vm_compute|by vm_compute].
Defined.
