(* ===== verification/XmixText.v ===== *)
(** * Python text, as vllm/activations_extractor/xmix uses it

    A [str] is its list of code points.  The functions are those of [str], [re] and
    [pathlib] that the xmix tools call. *)

From Stdlib Require Import ZArith Lia Ascii String.
From stdpp Require Import base tactics option list gmap strings.
From S2P Require Import Prelude.
Local Open Scope Z_scope.

Abbreviation str := (list Z).

Fixpoint lit (s : string) : str :=
  match s with EmptyString => [] | String a s' => Z.of_N (N_of_ascii a) :: lit s' end.

(** [str.isspace] of one character, which is also what [\s] matches *)
Definition is_space (c : Z) : bool :=
  ((9 <=? c) && (c <=? 13)) || ((28 <=? c) && (c <=? 32)) || (c =? 133) || (c =? 160) || (c =? 5760) ||
  ((8192 <=? c) && (c <=? 8202)) || (c =? 8232) || (c =? 8233) || (c =? 8239) || (c =? 8287) || (c =? 12288).

(** The characters [str.splitlines] splits at *)
Definition is_break (c : Z) : bool :=
  ((10 <=? c) && (c <=? 13)) || ((28 <=? c) && (c <=? 30)) || (c =? 133) || (c =? 8232) || (c =? 8233).

Fixpoint lstrip (s : str) : str :=
  match s with [] => [] | c :: s' => if is_space c then lstrip s' else s end.
Definition rstrip (s : str) : str := reverse (lstrip (reverse s)).
Definition strip (s : str) : str := rstrip (lstrip s).
(** [not s.strip()] *)
Definition is_blank (s : str) : bool := bool_decide (strip s = []).

Fixpoint startswith (p s : str) : bool :=
  match p, s with
  | [], _ => true
  | a :: p', b :: s' => (a =? b) && startswith p' s'
  | _ :: _, [] => false
  end.

(** [s.split()]: the maximal runs of other characters than white space *)
Fixpoint words (s : str) : list str :=
  match s with
  | [] => []
  | c :: s' =>
      if is_space c then words s'
      else match s' with
           | [] => [[c]]
           | d :: _ => if is_space d then [c] :: words s' else
               match words s' with [] => [[c]] | w :: ws => (c :: w) :: ws end
           end
  end.

(** [s.split(",")], without the empty pieces *)
Fixpoint split_commas (s : str) : list str :=
  match s with
  | [] => [[]]
  | c :: s' => if c =? 44 then [] :: split_commas s' else
      match split_commas s' with [] => [[c]] | w :: ws => (c :: w) :: ws end
  end.

Fixpoint splitlines (s : str) : list str :=
  match s with
  | [] => []
  | c :: s' =>
      if is_break c then
        match c, s' with
        | 13, 10 :: s'' => [] :: splitlines s''
        | _, _ => [] :: splitlines s'
        end
      else match splitlines s' with [] => [[c]] | l :: ls => (c :: l) :: ls end
  end.

(** [sep.join(l)] *)
Fixpoint join (sep : str) (l : list str) : str :=
  match l with [] => [] | [x] => x | x :: l' => x ++ sep ++ join sep l' end.

(** [f"\n".join(lines) + "\n"] *)
Definition to_text (lines : list str) : str := join [10] lines ++ [10].

(** Reading a file in text mode turns [\r\n] and [\r] into [\n]. *)
Fixpoint universal_newlines (s : str) : str :=
  match s with
  | [] => []
  | 13 :: s' => match s' with 10 :: s'' => 10 :: universal_newlines s'' | _ => 10 :: universal_newlines s' end
  | c :: s' => c :: universal_newlines s'
  end.

(** [int(x)] for [x] without white space: an optional sign, then digits with single
    underscores between them; [None] is a [ValueError] *)
Definition digit (c : Z) : option Z := if (48 <=? c) && (c <=? 57) then Some (c - 48) else None.
Fixpoint int_digits (acc : Z) (s : str) : option Z :=
  match s with
  | [] => Some acc
  | 95 :: c :: s' => match digit c with Some d => int_digits (10 * acc + d) s' | None => None end
  | c :: s' => match digit c with Some d => int_digits (10 * acc + d) s' | None => None end
  end.
Definition int_unsigned (s : str) : option Z :=
  match s with [] => None | c :: s' => match digit c with Some d => int_digits d s' | None => None end end.
Definition parse_int (s : str) : option Z :=
  match s with
  | 45 :: s' => Z.opp <$> int_unsigned s'
  | 43 :: s' => int_unsigned s'
  | _ => int_unsigned s
  end.

(** [str(z)] *)
Fixpoint dec_digits (fuel : nat) (n : Z) (acc : str) : str :=
  match fuel with
  | O => acc
  | S fuel' => if n <? 10 then 48 + n :: acc else dec_digits fuel' (n / 10) (48 + n mod 10 :: acc)
  end.
Definition int_str (z : Z) : str :=
  (if z <? 0 then [45] else []) ++ dec_digits (S (Z.to_nat (Z.log2 (Z.abs z)))) (Z.abs z) [].

(** Pieces of the regular expressions: [\S+] takes all it can, and what follows it in the
    expressions starts with a space *)
Fixpoint nonspace (s : str) : str * str :=
  match s with
  | [] => ([], [])
  | c :: s' => if is_space c then ([], s) else let '(a, b) := nonspace s' in (c :: a, b)
  end.
Definition token (s : str) : option (str * str) :=
  match nonspace s with ([], _) => None | (a, b) => Some (a, b) end.
Definition expect (p s : str) : option str := if startswith p s then Some (drop (length p) s) else None.
(** [^#\s*] *)
Definition hash_prefix (s : str) : option str := lstrip <$> expect (lit "#") s.

(** [Path(p).stem]: the last part of the path without its last suffix *)
Fixpoint path_parts (cur : str) (s : str) : list str :=
  match s with
  | [] => [cur]
  | c :: s' => if c =? 47 then cur :: path_parts [] s' else path_parts (cur ++ [c]) s'
  end.
Definition path_name (p : str) : str :=
  default [] (last (filter (λ x, x ≠ [] ∧ x ≠ lit ".") (path_parts [] p))).
(** The index of the last dot *)
Fixpoint last_dot (i : nat) (s : str) : option nat :=
  match s with
  | [] => None
  | c :: s' => match last_dot (S i) s' with Some j => Some j | None => if c =? 46 then Some i else None end
  end.
Definition stem (p : str) : str :=
  let name := path_name p in
  match last_dot 0 name with
  | Some i => if (0 <? i)%nat && (i <? length name - 1)%nat then take i name else name
  | None => name
  end.
Definition endswith (p s : str) : bool := startswith (reverse p) (reverse s).

(** ** Lemmas *)

Lemma is_break_space c : is_break c = true → is_space c = true.
Proof. unfold is_break, is_space. rewrite !orb_true_iff, !andb_true_iff, !Z.leb_le, !Z.eqb_eq. lia. Qed.

(** A line: no character that ends one *)
Definition no_break (s : str) : Prop := Forall (λ c, is_break c = false) s.
Definition no_space (s : str) : Prop := Forall (λ c, is_space c = false) s.

Lemma no_space_no_break s : no_space s → no_break s.
Proof. intros H. eapply Forall_impl; [exact H|]. intros c Hc. simpl in *. destruct (is_break c) eqn:E; [|done]. apply is_break_space in E. congruence. Qed.

Lemma splitlines_cons l s : no_break l → splitlines (l ++ 10 :: s) = l :: splitlines s.
Proof.
  induction 1 as [|c l Hc _ IH]; [done|]. simpl. rewrite Hc, IH. done.
Qed.

Lemma splitlines_to_text lines : lines ≠ [] → Forall no_break lines → splitlines (to_text lines) = lines.
Proof.
  unfold to_text. induction lines as [|l lines IH]; intros Hne Hf; [done|]. apply Forall_cons in Hf as [Hl Hf].
  destruct lines as [|l' lines]; [by apply (splitlines_cons l [])|].
  change (join [10] (l :: l' :: lines)) with (l ++ [10] ++ join [10] (l' :: lines)). rewrite <-!app_assoc. simpl. rewrite splitlines_cons by done.
  f_equal. by apply IH.
Qed.

Lemma splitlines_no_break s : Forall no_break (splitlines s).
Proof.
  assert (∀ n s, (length s ≤ n)%nat → Forall no_break (splitlines s)) as H; [|by apply (H (length s))]. clear s.
  induction n as [|n IH]; intros [|c s] Hn; simpl in *; try constructor; try lia. destruct (is_break c) eqn:Ec.
  - assert (Forall no_break ([] :: splitlines s)) as Hs by (constructor; [constructor|apply IH; lia]).
    repeat (case_match; try exact Hs). subst. simpl in Hn. constructor; [constructor|]. apply IH. simpl in *. lia.
  - pose proof (IH s ltac:(lia)) as Hs. destruct (splitlines s) as [|l ls]; [by repeat constructor|].
    apply Forall_cons in Hs as [? ?]. by repeat constructor.
Qed.

Lemma universal_newlines_id s : 13 ∉ s → universal_newlines s = s.
Proof.
  induction s as [|c s IH]; intros Hs; [done|]. apply not_elem_of_cons in Hs as [Hc Hs]. simpl.
  repeat (case_match; try (by rewrite IH)); subst; try lia; try done.
Qed.

Lemma to_text_no_cr lines : Forall no_break lines → 13 ∉ to_text lines.
Proof.
  unfold to_text. intros Hf. rewrite elem_of_app. intros [Hin|Hin]; [|by apply list_elem_of_singleton in Hin].
  induction Hf as [|l lines Hl Hf IH]; [by apply not_elem_of_nil in Hin|]. assert (13 ∉ l) as Hl'.
  { intros Hl'. unfold no_break in Hl. rewrite Forall_forall in Hl. by specialize (Hl _ Hl'). }
  destruct lines as [|l' lines]; [done|]. change (join [10] (l :: l' :: lines)) with (l ++ [10] ++ join [10] (l' :: lines)) in Hin.
  rewrite !elem_of_app, list_elem_of_singleton in Hin. destruct Hin as [?|[?|?]]; [done|lia|auto].
Qed.

(** What a file holds after lines were written to it *)
Lemma read_written lines : lines ≠ [] → Forall no_break lines → splitlines (universal_newlines (to_text lines)) = lines.
Proof. intros Hne Hf. rewrite universal_newlines_id by by apply to_text_no_cr. by apply splitlines_to_text. Qed.

(** ** [strip], [startswith] and [split] *)

Lemma startswith_spec p s : startswith p s = true ↔ ∃ k, s = p ++ k.
Proof.
  revert s. induction p as [|a p IH]; intros s; simpl; [split; [eauto|done]|]. destruct s as [|b s]; [split; [done|by intros [? [=]]]|].
  rewrite andb_true_iff, Z.eqb_eq, IH. split.
  - intros [-> [k ->]]. eauto.
  - intros [k [= -> ->]]. eauto.
Qed.

Lemma startswith_app p k : startswith p (p ++ k) = true.
Proof. apply startswith_spec. eauto. Qed.

(** White space only *)
Definition all_space (s : str) : Prop := Forall (λ c, is_space c = true) s.

Lemma lstrip_app s k : all_space s → lstrip (s ++ k) = lstrip k.
Proof. induction 1 as [|c s Hc _ IH]; [done|]. simpl. by rewrite Hc. Qed.

Lemma lstrip_split s : ∃ k, s = k ++ lstrip s ∧ all_space k.
Proof.
  induction s as [|c s (k & Es & Hk)]; [exists []; split; [done|constructor]|]. simpl. destruct (is_space c) eqn:Ec.
  - exists (c :: k). split; [by rewrite Es at 1|by constructor].
  - exists []. split; [done|constructor].
Qed.

Lemma rstrip_split s : ∃ k, s = rstrip s ++ k ∧ all_space k.
Proof.
  destruct (lstrip_split (reverse s)) as (k & E & Hk). exists (reverse k). split.
  - unfold rstrip. rewrite <-reverse_app, <-E. by rewrite reverse_involutive.
  - unfold all_space. by rewrite Forall_reverse.
Qed.

Lemma lstrip_head c s : is_space c = false → lstrip (c :: s) = c :: s.
Proof. simpl. by intros ->. Qed.

Lemma rstrip_last s c : is_space c = false → rstrip (s ++ [c]) = s ++ [c].
Proof. intros Hc. unfold rstrip. rewrite reverse_snoc. simpl. rewrite Hc. by rewrite reverse_cons, reverse_involutive. Qed.

Lemma strip_indent s k : all_space s → strip (s ++ k) = strip k.
Proof. intros Hs. unfold strip. by rewrite lstrip_app. Qed.

(** A text that starts and ends with other characters is its own [strip]. *)
Lemma strip_id c s d : is_space c = false → is_space d = false → strip (c :: s ++ [d]) = c :: s ++ [d].
Proof. intros Hc Hd. unfold strip. rewrite lstrip_head by done. by apply (rstrip_last (c :: s)). Qed.

Lemma indent_all_space line : all_space (take (length line - length (lstrip line)) line).
Proof.
  destruct (lstrip_split line) as (k & E & Hk). rewrite E at 3. rewrite E at 1. rewrite length_app.
  replace (length k + length (lstrip line) - length (lstrip line))%nat with (length k) by lia. by rewrite take_app_length.
Qed.

(** What [strip] starts with, the text starts with after its indentation. *)
Lemma startswith_rstrip p s : startswith p (rstrip s) = true → startswith p s = true.
Proof. rewrite !startswith_spec. destruct (rstrip_split s) as (k & E & _). intros [k' E']. rewrite E, E', <-app_assoc. eauto. Qed.

Lemma words_step c d s : words (c :: d :: s) =
  if is_space c then words (d :: s) else if is_space d then [c] :: words (d :: s) else
  match words (d :: s) with [] => [[c]] | w :: ws => (c :: w) :: ws end.
Proof. reflexivity. Qed.

Lemma words_cons w s : w ≠ [] → no_space w → words (w ++ 32 :: s) = w :: words s.
Proof.
  induction w as [|c w IH]; [done|]. intros _ [Hc Hw]%Forall_cons. destruct w as [|d w]; [simpl; by rewrite Hc|].
  specialize (IH ltac:(done) Hw). apply Forall_cons in Hw as [Hd Hw]. cbn [app] in *.
  by rewrite words_step, Hc, Hd, IH.
Qed.

Lemma words_single w : w ≠ [] → no_space w → words w = [w].
Proof.
  induction w as [|c w IH]; [done|]. intros _ [Hc Hw]%Forall_cons. destruct w as [|d w]; [simpl; by rewrite Hc|].
  specialize (IH ltac:(done) Hw). apply Forall_cons in Hw as [Hd Hw]. by rewrite words_step, Hc, Hd, IH.
Qed.

Lemma nonspace_spec s a b : nonspace s = (a, b) → s = a ++ b ∧ no_space a.
Proof.
  revert a b. induction s as [|c s IH]; simpl; intros a b E; [simplify_eq; split; [done|constructor]|].
  destruct (is_space c) eqn:Ec; [simplify_eq; split; [done|constructor]|]. destruct (nonspace s) as [a' b'] eqn:E'. simplify_eq.
  destruct (IH a' b eq_refl) as [-> ?]. split; [done|by constructor].
Qed.

Lemma token_spec s a b : token s = Some (a, b) → s = a ++ b ∧ a ≠ [] ∧ no_space a.
Proof.
  unfold token. destruct (nonspace s) as [a' b'] eqn:E. apply nonspace_spec in E as [-> ?]. destruct a'; [done|]. by intros [= <- <-].
Qed.

Lemma no_break_app a b : no_break (a ++ b) ↔ no_break a ∧ no_break b.
Proof. apply Forall_app. Qed.

Lemma dec_digits_no_break fuel : ∀ n acc, 0 ≤ n → no_break acc → no_break (dec_digits fuel n acc).
Proof.
  assert (∀ d, 0 ≤ d < 10 → is_break (48 + d) = false) as Hd.
  { intros d ?. unfold is_break. rewrite !orb_false_iff, !andb_false_iff, !Z.leb_gt, !Z.eqb_neq. lia. }
  induction fuel as [|fuel IH]; intros n acc Hn Hacc; simpl; [done|]. destruct (Z.ltb_spec n 10).
  - constructor; [apply Hd; lia|done].
  - apply IH; [apply Z.div_pos; lia|]. constructor; [apply Hd, Z.mod_pos_bound; lia|done].
Qed.

Lemma int_str_no_break z : no_break (int_str z).
Proof. unfold int_str. apply no_break_app. split; [destruct (z <? 0); by repeat constructor|]. apply dec_digits_no_break; [lia|constructor]. Qed.

Lemma join_no_break sep l : no_break sep → Forall no_break l → no_break (join sep l).
Proof.
  intros Hs. induction 1 as [|x l Hx Hl IH]; [constructor|]. destruct l as [|y l]; [done|]. change (join sep (x :: y :: l)) with (x ++ sep ++ join sep (y :: l)).
  rewrite !no_break_app. auto.
Qed.

(** ** Printing and reading integers *)

Definition is_digit (c : Z) : Prop := 48 ≤ c ≤ 57.
Lemma digit_cases c : is_digit c → c = 48 ∨ c = 49 ∨ c = 50 ∨ c = 51 ∨ c = 52 ∨ c = 53 ∨ c = 54 ∨ c = 55 ∨ c = 56 ∨ c = 57.
Proof. unfold is_digit. lia. Qed.

Lemma int_digits_cons a c s : is_digit c → int_digits a (c :: s) = int_digits (10 * a + (c - 48)) s.
Proof. intros H%digit_cases. repeat destruct H as [->|H]; try reflexivity. by subst. Qed.

Lemma dec_digits_digits fuel : ∀ n acc, 0 ≤ n → Forall is_digit acc → Forall is_digit (dec_digits fuel n acc).
Proof.
  induction fuel as [|fuel IH]; intros n acc Hn Hacc; simpl; [done|]. destruct (Z.ltb_spec n 10).
  - constructor; [unfold is_digit; lia|done].
  - apply IH; [apply Z.div_pos; lia|]. pose proof (Z.mod_pos_bound n 10 ltac:(lia)). constructor; [unfold is_digit; lia|done].
Qed.

Lemma dec_digits_value fuel : ∀ n acc, 0 ≤ n < 2 ^ Z.of_nat fuel → Forall is_digit acc →
  int_digits 0 (dec_digits fuel n acc) = int_digits n acc.
Proof.
  induction fuel as [|fuel IH]; intros n acc Hn Hacc.
  { assert (n = 0) as -> by (change (2 ^ Z.of_nat 0) with 1 in Hn; lia). done. }
  cbn [dec_digits]. destruct (Z.ltb_spec n 10).
  - rewrite int_digits_cons by (unfold is_digit; lia). f_equal. lia.
  - pose proof (Z.mod_pos_bound n 10 ltac:(lia)). pose proof (Z.div_mod n 10 ltac:(lia)). rewrite Nat2Z.inj_succ, Z.pow_succ_r in Hn by lia.
    pose proof (Z.div_pos n 10 ltac:(lia) ltac:(lia)).
    rewrite IH; [|lia|constructor; [unfold is_digit; lia|done]]. rewrite int_digits_cons by (unfold is_digit; lia). f_equal. lia.
Qed.

Lemma dec_digits_ne fuel : ∀ n acc, (fuel ≠ 0%nat ∨ acc ≠ []) → dec_digits fuel n acc ≠ [].
Proof.
  induction fuel as [|fuel IH]; intros n acc H; simpl; [by destruct H|]. destruct (n <? 10); [done|]. apply IH. by right.
Qed.

Lemma int_unsigned_digits s : s ≠ [] → Forall is_digit s → int_unsigned s = int_digits 0 s.
Proof.
  destruct s as [|c s]; [done|]. intros _ [Hc _]%Forall_cons. rewrite int_digits_cons by done. unfold int_unsigned, digit.
  unfold is_digit in Hc. by rewrite !(proj2 (Z.leb_le _ _)) by lia.
Qed.

Lemma abs_digits z : 0 ≤ Z.abs z < 2 ^ Z.of_nat (S (Z.to_nat (Z.log2 (Z.abs z)))).
Proof.
  split; [lia|]. rewrite Nat2Z.inj_succ, Z2Nat.id by apply Z.log2_nonneg.
  destruct (decide (Z.abs z = 0)) as [->|]; [done|]. apply Z.log2_spec. lia.
Qed.

(** [int(str(z)) == z] *)
Lemma parse_int_str z : parse_int (int_str z) = Some z.
Proof.
  unfold int_str. set (s := dec_digits _ _ _). assert (Forall is_digit s) as Hs by (by apply dec_digits_digits; [lia|]).
  assert (s ≠ []) as Hne by (apply dec_digits_ne; by left). assert (int_unsigned s = Some (Z.abs z)) as E.
  { rewrite int_unsigned_digits by done. by apply dec_digits_value; [apply abs_digits|]. }
  destruct (Z.ltb_spec z 0).
  - change (Z.opp <$> int_unsigned s = Some z). rewrite E. simpl. f_equal. lia.
  - simpl. rewrite Z.abs_eq in E by done. rewrite <-E. clearbody s. destruct s as [|c s]; [done|]. apply Forall_cons in Hs as [Hc _].
    apply digit_cases in Hc. repeat destruct Hc as [->|Hc]; try reflexivity. by subst.
Qed.

(** The characters of [str(z)] *)
Lemma int_str_chars z : Forall (λ c, c = 45 ∨ is_digit c) (int_str z) ∧ int_str z ≠ [].
Proof.
  unfold int_str. split.
  - apply Forall_app. split; [destruct (z <? 0); repeat constructor|]. eapply Forall_impl; [apply dec_digits_digits; [lia|constructor]|]. auto.
  - intros [_ E]%app_nil. revert E. apply dec_digits_ne. by left.
Qed.

Lemma int_str_no_space z : no_space (int_str z).
Proof.
  eapply Forall_impl; [apply int_str_chars|]. intros c [->|Hc]; [done|]. apply digit_cases in Hc. repeat destruct Hc as [->|Hc]; try done. by subst.
Qed.

(** ** Pieces of the tags *)

Lemma token_app w s : w ≠ [] → no_space w → token (w ++ 32 :: s) = Some (w, 32 :: s).
Proof.
  intros Hne Hw. unfold token. assert (nonspace (w ++ 32 :: s) = (w, 32 :: s)) as ->; [|by destruct w].
  clear Hne. induction Hw as [|c w Hc _ IH]; [done|]. simpl. by rewrite Hc, IH.
Qed.

Lemma expect_app p s : expect p (p ++ s) = Some s.
Proof. unfold expect. by rewrite startswith_app, drop_app_length. Qed.

Lemma split_commas_word w : 44 ∉ w → split_commas w = [w].
Proof.
  induction w as [|c w IH]; [done|]. intros [Hc Hw]%not_elem_of_cons. simpl. rewrite (proj2 (Z.eqb_neq _ _)) by done. by rewrite IH.
Qed.
Lemma split_commas_cons w s : 44 ∉ w → split_commas (w ++ 44 :: s) = w :: split_commas s.
Proof.
  induction w as [|c w IH]; [done|]. intros [Hc Hw]%not_elem_of_cons. simpl. rewrite (proj2 (Z.eqb_neq _ _)) by done. by rewrite IH.
Qed.

Lemma split_join l : l ≠ [] → Forall (λ w, 44 ∉ w) l → split_commas (join (lit ",") l) = l.
Proof.
  induction l as [|w l IH]; [done|]. intros _ [Hw Hl]%Forall_cons. destruct l as [|w' l]; [by apply split_commas_word|].
  change (join (lit ",") (w :: w' :: l)) with (w ++ 44 :: join (lit ",") (w' :: l)). rewrite split_commas_cons by done. by rewrite IH.
Qed.

Lemma join_no_space sep l : no_space sep → Forall no_space l → no_space (join sep l).
Proof.
  intros Hs. induction 1 as [|x l Hx Hl IH]; [constructor|]. destruct l as [|y l]; [done|]. change (join sep (x :: y :: l)) with (x ++ sep ++ join sep (y :: l)).
  unfold no_space. rewrite !Forall_app. auto.
Qed.
