(* ===== verification/XmixSpec.v ===== *)
(** * vllm/activations_extractor/xmix/spec.py and ir.py: the tables and the IR of xmix *)

From Stdlib Require Import ZArith String.
From stdpp Require Import base tactics option list strings.
From S2P Require Import Prelude XmixText.
Local Open Scope Z_scope.

(** ** The tables *)

(** An argument schema: names with a default, or none when the argument is required *)
Abbreviation schema := (list (str * option str)).

Record OpSpec := mkOp {
  cls_path : str;
  op_flag : str;
  op_arity : nat;
  op_spec_method : str;
  build_kind : option str;
  op_schema : option schema;
}.

Definition req (s : string) : str * option str := (lit s, None).
Definition opt (s d : string) : str * option str := (lit s, Some (lit d)).
Definition write_op (name : string) (args : schema) : str * OpSpec :=
  (lit name, mkOp (lit "vllm.activations_extractor.write_activations." ++ lit name) (lit "w") 0 (lit "run") None (Some args)).

Definition SPEC_ops : list (str * OpSpec) := [
  (lit "SteeringVector", mkOp (lit "vllm.activations_extractor.write_activations.SteeringVectorAdder") (lit "w") 1 (lit "run")
     (Some (lit "steering_vector_adder")) None);
  write_op "SteeringVectorDotSubtractNormalized"
    [opt "hidden_size" "self.model_config.hidden_size"; opt "max_tokens" "2048"; req "steering_vector"; req "vec_indices";
     opt "dtype" "self.model_config.dtype"; opt "device" "self.device"];
  write_op "SteeringVectorAdder" [req "r"; req "scales"; req "vec_indices"; req "n_vecs_per_token"];
  write_op "SteeringVectorScaledAdder" [req "r"; req "coeff"; opt "max_tokens" "2048"];
  write_op "SteeringLinear" [req "W"; req "b"; req "vec_indices"; opt "max_tokens" "2048"];
  (lit "LinearProbe", mkOp (lit "vllm.activations_extractor.read_activations.LinearProbe") (lit "r") 0 (lit "run") None
     (Some [req "weights"; req "bias"; opt "max_tokens" "2048"]))].

Record CompareSpec := mkCompare { builder_path : option str; ctor_kind : str; cmp_arity : nat }.
Record CondOp := mkCondOp { co_cls_path : str; co_flag : str; co_arity : nat; co_method : str; compares : list (str * CompareSpec) }.
Definition SPEC_cond_ops : list (str * CondOp) := [
  (lit "LinearProbe", mkCondOp (lit "vllm.activations_extractor.read_activations.LinearProbe") (lit "r") 2 (lit "run")
     [(lit "biggerThan", mkCompare None (lit "probe_threshold_mask") 2)])].

(** [model_attr] to [run_call] are the entries only model-scope classes have. *)
Record ModelScope := mkModelScope {
  model_attr : str;
  dest : str;
  dest_anchor : str;
  run_dest : str;
  run_anchor : str;
  run_call : list (str * str);  (** what is before and after [{attr}] in each line *)
}.
Record CondInstance := mkCondInstance {
  ci_cls_path : str;
  ci_flag : str;
  ci_method : str;
  ci_plug_fn : str;
  ci_plug_kind : option str;
  ci_scope : str;
  ci_schema : schema;
  ci_model : option ModelScope;
}.
Definition dash : str := [8212].

Definition SPEC_cond_instances : list (str * CondInstance) := [
  (lit "CondProjCosSim", mkCondInstance (lit "vllm.activations_extractor.cond_kernels.CondProjCosSim") (lit "r") (lit "run")
     (lit "set_output_buffers") (Some (lit "out_bool")) (lit "layer")
     [req "condition_projector"; req "threshold"; opt "max_tokens" "2048"] None);
  (lit "EOLTokenDetector", mkCondInstance (lit "vllm.activations_extractor.write_activations.EOLTokenDetector") (lit "r") (lit "run")
     (lit "set_output_buffers") None (lit "model")
     [req "eol_token_ids"; opt "vocab_size" "self.vocab_size"; opt "max_tokens" "2048"; opt "device" "self.device"]
     (Some (mkModelScope (lit "token_detector")
        (lit "model file " ++ dash ++ lit " model construction (e.g. init_token_detector)") (lit "model_construct")
        (lit "model file " ++ dash ++ lit " Model.forward (injected at the model_forward anchor)") (lit "model_forward")
        [(lit "if idx == 0 and self.", lit " is not None:"); (lit "    self.", lit "(input_ids)")])))].

Definition SPEC_destinations : list (str * str) := [
  (lit "runner_setup", lit "gpu_model_runner " ++ dash ++ lit " constructed once (e.g. in __init__/setup)");
  (lit "runner_postload", lit "gpu_model_runner " ++ dash ++ lit " after load_model (install hooks + wire buffers)")].

Record Submodule := mkSubmodule { setter : str; write_arity : nat; read_arity : nat }.
Definition SPEC_submodules : list (str * Submodule) := [
  (lit "attention.post", mkSubmodule (lit "set_post_attn_pre_norm_hook") 3 1);
  (lit "mlp.post", mkSubmodule (lit "set_post_mlp_hook") 3 1);
  (lit "norm.pre_mlp", mkSubmodule (lit "set_post_norm_pre_mlp_hook") 3 1)].

(** [SPEC["models"]]: the anchors of each model and the files they are in *)
Definition runner_file : str := lit "vllm/v1/worker/gpu_model_runner.py".
Definition model_anchors (model_file : str) : list (str * str) :=
  [(lit "runner_setup", runner_file); (lit "runner_postload", runner_file);
   (lit "model_construct", model_file); (lit "model_forward", model_file)].
Definition SPEC_models : list (str * list (str * str)) :=
  [(lit "llama", model_anchors (lit "vllm/model_executor/models/llama.py"));
   (lit "qwen", model_anchors (lit "vllm/model_executor/models/qwen3.py"));
   (lit "mixtral", model_anchors (lit "vllm/model_executor/models/mixtral.py"))].
Definition default_model : str := lit "llama".

(** ** The intermediate representation *)

Inductive OpKind := WRITE | READ.
Record SourceLoc := mkLoc { loc_file : str; loc_line : Z }.

Record CondClause := mkCond {
  c_layers : list Z;
  c_submodule : str;
  probe_op : option str;
  compare_op : option str;
  c_args : list str;
  c_instance_expr : option str;
  cond_cls : option str;
  c_method : str;
  gate_buffer : option str;
  plug_fn : option str;
  plug_kind : option str;
  model_level : bool;
}.

Record Statement := mkStmt {
  op : OpKind;
  op_name : str;
  s_args : list str;
  s_method : str;
  layers : list Z;
  submodule : str;
  cond : option CondClause;
  loc : SourceLoc;
  instance_expr : option str;
  all_layers : bool;
}.

Record PreambleSegment := mkSegment { seg_text : str; seg_targets : list str; block_cls : option str }.
Record ParseResult := mkParse { preamble : list PreambleSegment; statements : list Statement; model : str }.
