(* ===== verification/XmixParser.v ===== *)
(** * vllm/activations_extractor/xmix/parser.py: parsing and validation of .xmix files

    The input is the syntax tree that [ast.parse] gives; source positions are kept only
    where the output depends on them.  Every rejection is an [XmixError]; the message and
    its location are not modelled. *)

From Stdlib Require Import ZArith Lia String.
From stdpp Require Import base tactics option list strings.
From S2P Require Import Prelude XmixText XmixSpec.
Local Open Scope Z_scope.

(** ** The part of [ast] the parser looks at *)

Inductive constant := CInt (z : Z) | CBool (b : bool) | CStr (s : str) | COther.

Inductive expr :=
  | Name (id : str)
  | Attribute (value : expr) (attr : str)
  | Call (func : expr) (args : list expr) (keywords : list (option str * expr))
  | Subscript (value slice : expr)
  | Slice (lower upper step : option expr)
  | EList (elts : list expr)
  | Constant (c : constant)
  | OtherExpr.

(** A statement of the module: its first line, its source text and, for an expression, the
    line the expression starts on *)
Inductive node :=
  | ExprStmt (value : expr) (value_line : Z)
  | Assign (targets : list expr) (value : expr)
  | OtherStmt.
Record top := mkTop { lineno : Z; segment : option str; body : node }.

(** The class of each name the preamble assigns a construction to *)
Abbreviation class_map := (list (str * str)).

Section parser.
(** [ast.get_source_segment(src, e)] of an expression, and the word characters beyond ASCII *)
Context (source_of : expr → option str) (unicode_word : Z → bool) (path : str).

Definition fail {A} : result A := Raise XmixError.
Definition guard (b : bool) : result () := if b then Ok () else fail.

Fixpoint _dotted_name (e : expr) : option str :=
  match e with
  | Name id => Some id
  | Attribute v a => match _dotted_name v with None => None | Some b => Some (b ++ lit "." ++ a) end
  | _ => None
  end.

(** The links from the outermost inwards, then in source order *)
Fixpoint chain_rev (e : expr) : expr * list (str * expr) :=
  match e with
  | Call (Attribute v a) _ _ => let '(b, l) := chain_rev v in (b, (a, e) :: l)
  | Subscript (Attribute v a) _ => let '(b, l) := chain_rev v in (b, (a, e) :: l)
  | _ => (e, [])
  end.
Definition _flatten_chain (e : expr) : expr * list (str * expr) :=
  let '(b, l) := chain_rev e in (b, reverse l).

Definition _no_keywords (call : expr) : result () :=
  match call with Call _ _ [] => Ok () | _ => fail end.
Definition call_args (call : expr) : list expr := match call with Call _ args _ => args | _ => [] end.

Fixpoint name_args (args : list expr) : result (list str) :=
  match args with
  | [] => Ok []
  | Name id :: rest => r ← name_args rest; Ok (id :: r)
  | _ => fail
  end.
Definition _expect_name_args (call : expr) : result (list str) := _no_keywords call ;; name_args (call_args call).

Definition _int_const (e : expr) : option Z := match e with Constant (CInt z) => Some z | _ => None end.

Fixpoint int_items (elts : list expr) : result (list Z) :=
  match elts with
  | [] => Ok []
  | e :: rest => match _int_const e with None => fail | Some z => r ← int_items rest; Ok (z :: r) end
  end.
Definition _expect_int_list (call : expr) : result (list Z) :=
  _no_keywords call ;;
  match call_args call with
  | [EList elts] => items ← int_items elts; if bool_decide (items = []) then fail else Ok items
  | _ => fail
  end.

(** [range(lo, hi + 1, step)] for [lo <= hi] and [step > 0] *)
Definition range_incl (lo hi step : Z) : list Z :=
  (λ i, lo + step * Z.of_nat i) <$> seq 0 (Z.to_nat ((hi - lo) / step + 1)).

Definition _layers_from_slice (slice : expr) : result (list Z) :=
  match slice with
  | Slice (Some lower) (Some upper) step =>
      match _int_const lower, _int_const upper with
      | Some lo, Some hi =>
          step ← match step with
                 | None => Ok 1
                 | Some s => match _int_const s with Some z => if z <=? 0 then fail else Ok z | None => fail end
                 end;
          if hi <? lo then fail else Ok (range_incl lo hi step)
      | _, _ => fail
      end
  | _ => fail
  end.

Definition _expect_layers (link : expr) : result (list Z * bool) :=
  match link with
  | Subscript _ slice => l ← _layers_from_slice slice; Ok (l, false)
  | call =>
      _no_keywords call ;;
      match call_args call with
      | [Constant (CStr s)] => if decide (s = lit "all") then Ok ([], true) else fail
      | [_] => l ← _expect_int_list call; Ok (l, false)
      | _ => fail
      end
  end.

Definition _expect_str (call : expr) : result str :=
  _no_keywords call ;;
  match call_args call with [Constant (CStr s)] => Ok s | _ => fail end.

Definition _validate_submodule (call : expr) : result str :=
  name ← _expect_str call;
  if bool_decide (OD.get name SPEC_submodules = None) then fail else Ok name.

Definition _lookup_op (cls_name : str) : result OpSpec :=
  match OD.get cls_name SPEC_ops with None => fail | Some spec => Ok spec end.
Definition _check_method (method expected : str) : result () := guard (bool_decide (method = expected)).

(** ** Preamble *)

(** [_NOT_SPEC] is the outer [None]. *)
Definition _arg_schema (cls_name : str) : option (option schema) :=
  match OD.get cls_name SPEC_ops with
  | Some op => Some (op_schema op)
  | None => match OD.get cls_name SPEC_cond_instances with
            | Some inst => Some (Some (ci_schema inst))
            | None => None
            end
  end.

Definition source_or_empty (e : expr) : str := default [] (source_of e).

(** [for i, arg in enumerate(call.args): provided[keys[i]] = ...] *)
Definition provided_positional (keys : list str) (args : list expr) : list (str * str) :=
  zip keys (source_or_empty <$> args).

Fixpoint provided_keywords (sch : schema) (kws : list (option str * expr)) (provided : list (str * str)) : result (list (str * str)) :=
  match kws with
  | [] => Ok provided
  | (None, _) :: _ => fail
  | (Some k, v) :: rest =>
      guard (negb (bool_decide (OD.get k sch = None))) ;;
      guard (bool_decide (OD.get k provided = None)) ;;
      provided_keywords sch rest (provided ++ [(k, source_or_empty v)])
  end.

Definition _validate_construction (n : node) : result (option str) :=
  match n with
  | Assign targets (Call (Name cls_name) args keywords) =>
      match _arg_schema cls_name with
      | None => Ok None
      | Some None => fail
      | Some (Some sch) =>
          let keys := sch.*1 in
          guard (negb (length keys <? length args)%nat) ;;
          provided ← provided_keywords sch keywords (provided_positional keys args);
          guard (forallb (λ x, bool_decide (is_Some x.2 ∨ is_Some (OD.get x.1 provided))) sch) ;;
          if forallb (λ k, bool_decide (is_Some (OD.get k provided))) keys then Ok None else
          match targets with
          | [t] =>
              match source_of t with
              | None => fail
              | Some target =>
                  let parts := (λ x, x.1 ++ lit "=" ++ default (default [] x.2) (OD.get x.1 provided)) <$> sch in
                  Ok (Some (target ++ lit " = " ++ cls_name ++ lit "(" ++ join (lit ", ") parts ++ lit ")"))
              end
          | _ => fail
          end
      end
  | _ => Ok None
  end.

Definition _is_m_statement (n : node) : bool :=
  match n with
  | ExprStmt (Call f a k) _ =>
      match (_flatten_chain (Call f a k)).1 with Name id => bool_decide (id = lit "m") | _ => false end
  | _ => false
  end.

Definition _segment_targets (n : node) : list str :=
  match n with Assign targets _ => omap _dotted_name targets | _ => [] end.

Definition _collect_assignment (n : node) (cm : class_map) : class_map :=
  match n with
  | Assign targets (Call (Name cls) _ _) => foldl (λ cm t, OD.set t cls cm) cm (omap _dotted_name targets)
  | _ => cm
  end.

(** [^#\s*model\s*:\s*(\S+)] *)
Definition model_re (s : str) : option str :=
  s ← hash_prefix s;
  s ← expect (lit "model") s;
  s ← expect (lit ":") (lstrip s);
  '(name, _) ← token (lstrip s);
  Some name.

Fixpoint scan_model_lines (lines : list str) (found : option str) : result str :=
  match lines with
  | [] => Ok (default default_model found)
  | raw :: rest =>
      match model_re (strip raw) with
      | None => scan_model_lines rest found
      | Some name =>
          guard (negb (bool_decide (OD.get name SPEC_models = None))) ;;
          guard (match found with Some f => bool_decide (f = name) | None => true end) ;;
          scan_model_lines rest (Some name)
      end
  end.
Definition _scan_model (src : str) : result str := scan_model_lines (splitlines src) None.

(** [\b] after a word: the next character is not a word character *)
Definition is_word (c : Z) : bool :=
  ((48 <=? c) && (c <=? 57)) || ((65 <=? c) && (c <=? 90)) || (c =? 95) || ((97 <=? c) && (c <=? 122)) ||
  ((128 <=? c) && unicode_word c).
(** [^#\s*token_detector\s*:\s*<word>\b] *)
Definition detector_re (word s : str) : bool :=
  match (s ← hash_prefix s;
         s ← expect (lit "token_detector") s;
         s ← expect (lit ":") (lstrip s);
         expect word (lstrip s)) with
  | Some (c :: _) => negb (is_word c)
  | Some [] => true
  | None => false
  end.

Fixpoint scan_blocks (n : Z) (lines : list str) (open_line : option Z) : result (list (Z * Z)) :=
  match lines with
  | [] => match open_line with None => Ok [] | Some _ => fail end
  | raw :: rest =>
      let s := strip raw in
      if detector_re (lit "init") s then
        match open_line with Some _ => fail | None => scan_blocks (n + 1) rest (Some n) end
      else if detector_re (lit "end") s then
        match open_line with
        | None => fail
        | Some o => r ← scan_blocks (n + 1) rest None; Ok ((o, n) :: r)
        end
      else scan_blocks (n + 1) rest open_line
  end.
Definition _scan_init_blocks (src : str) : result (list (Z * Z)) := scan_blocks 1 (splitlines src) None.

Record pre_node := mkPre { p_line : Z; p_text : str; p_targets : list str }.

Definition is_model_scope (cls : str) : bool :=
  match OD.get cls SPEC_cond_instances with Some c => bool_decide (ci_scope c = lit "model") | None => false end.

Definition block_owners (begin end_ : Z) (pre_nodes : list pre_node) (cm : class_map) : list str :=
  pre_nodes ≫= λ p,
    if (begin <? p_line p) && (p_line p <? end_) then
      omap (λ t, match OD.get t cm with Some cls => if is_model_scope cls then Some cls else None | None => None end) (p_targets p)
    else [].

Fixpoint _resolve_init_blocks (ranges : list (Z * Z)) (pre_nodes : list pre_node) (cm : class_map) : result (list (Z * Z * str)) :=
  match ranges with
  | [] => Ok []
  | (begin, end_) :: rest =>
      match block_owners begin end_ pre_nodes cm with
      | [cls] => r ← _resolve_init_blocks rest pre_nodes cm; Ok ((begin, end_, cls) :: r)
      | _ => fail
      end
  end.

Fixpoint _owner_cls (line : Z) (range_cls : list (Z * Z * str)) : option str :=
  match range_cls with
  | [] => None
  | (begin, end_, cls) :: rest => if (begin <? line) && (line <? end_) then Some cls else _owner_cls line rest
  end.

(** ** Statements *)

Definition _resolve_verb (verb : str) : result OpKind :=
  if decide (verb = lit "write") then Ok WRITE else if decide (verb = lit "read") then Ok READ else fail.

(** [(op_name, args, method, instance_expr)] *)
Definition _parse_op_arg (op_call : expr) (cm : class_map) : result (str * list str * str * option str) :=
  _no_keywords op_call ;;
  match call_args op_call with
  | [Attribute value method] =>
      match value with
      | Call (Name cls_name) _ _ =>
          spec ← _lookup_op cls_name;
          args ← _expect_name_args value;
          guard (bool_decide (length args = op_arity spec)) ;;
          _check_method method (op_spec_method spec) ;;
          Ok (cls_name, args, method, None)
      | _ =>
          match _dotted_name value with
          | None => fail
          | Some inst =>
              match OD.get inst cm with
              | None => fail
              | Some cls_name =>
                  spec ← _lookup_op cls_name;
                  _check_method method (op_spec_method spec) ;;
                  Ok (cls_name, [], method, Some inst)
              end
          end
      end
  | _ => fail
  end.

(** The tail of a cond expression; [model_ok] allows [.layer("model")]. *)
Record tail := mkTail { t_layers : option (list Z); t_submodule : option str; t_model : bool }.

Definition _is_str_const (e : expr) : option str := match e with Constant (CStr s) => Some s | _ => None end.
Definition _is_model_sentinel (link : expr) : bool :=
  match link with Call _ [Constant (CStr s)] [] => bool_decide (s = lit "model") | _ => false end.

Fixpoint tail_links (model_ok : bool) (links : list (str * expr)) (t : tail) : result tail :=
  match links with
  | [] => Ok t
  | (attr, link) :: rest =>
      if decide (attr = lit "layer") then
        if model_ok && _is_model_sentinel link then tail_links model_ok rest (mkTail (Some []) (t_submodule t) true)
        else
          x ← _expect_layers link;
          if x.2 : bool then fail else tail_links model_ok rest (mkTail (Some x.1) (t_submodule t) (t_model t))
      else if decide (attr = lit "submodule") then
        s ← _validate_submodule link;
        tail_links model_ok rest (mkTail (t_layers t) (Some s) (t_model t))
      else fail
  end.

Definition _parse_cond_tail (links : list (str * expr)) : result (list Z * str) :=
  t ← tail_links false links (mkTail None None false);
  match t_layers t, t_submodule t with Some l, Some s => Ok (l, s) | _, _ => fail end.

Definition _parse_cond_instance_tail (links : list (str * expr)) : result (list Z * str * bool) :=
  t ← tail_links true links (mkTail None None false);
  if t_model t then match t_submodule t with Some _ => fail | None => Ok ([], [], true) end
  else match t_layers t, t_submodule t with Some l, Some s => Ok (l, s, false) | _, _ => fail end.

Definition _parse_cond_probe (probe : str) (links : list (str * expr)) : result CondClause :=
  match OD.get probe SPEC_cond_ops, links with
  | Some cspec, (compare, compare_call) :: rest =>
      match OD.get compare (compares cspec) with
      | None => fail
      | Some spec =>
          args ← _expect_name_args compare_call;
          guard (bool_decide (length args = cmp_arity spec)) ;;
          x ← _parse_cond_tail rest;
          Ok (mkCond x.1 x.2 (Some probe) (Some compare) args None None (lit "run") None None None false)
      end
  | _, _ => fail
  end.

(** [for kw in gate_call.keywords] *)
Fixpoint gate_keywords (kws : list (option str * expr)) (fn kind : option str) : result (option str * option str) :=
  match kws with
  | [] => Ok (fn, kind)
  | (k, v) :: rest =>
      match k, _is_str_const v with
      | Some k, Some s =>
          if decide (k = lit "via") then gate_keywords rest (Some s) kind
          else if decide (k = lit "kind") then gate_keywords rest fn (Some s)
          else fail
      | _, _ => fail
      end
  end.

(** [gate_call.args] raises [AttributeError] when the link is a subscript. *)
Definition _parse_cond_instance (inst : str) (links : list (str * expr)) (cls : str) : result CondClause :=
  match OD.get cls SPEC_cond_instances with
  | None => fail
  | Some cspec =>
      match links with
      | [] => fail
      | (verb, gate_call) :: rest =>
          guard (bool_decide (verb = lit "gates")) ;;
          match gate_call with
          | Call _ args kws =>
              match args with
              | [Constant (CStr buffer)] =>
                  x ← gate_keywords kws None None;
                  y ← _parse_cond_instance_tail rest;
                  let '(lay, sub, model_level) := y in
                  guard (negb (model_level && negb (bool_decide (ci_scope cspec = lit "model")))) ;;
                  guard (negb (negb model_level && bool_decide (ci_scope cspec = lit "model"))) ;;
                  Ok (mkCond lay sub None None [] (Some inst) (Some cls) (ci_method cspec) (Some buffer) x.1 x.2 model_level)
              | _ => fail
              end
          | _ => Raise AttributeError
          end
      end
  end.

Definition _parse_cond (cond_call : expr) (cm : class_map) : result CondClause :=
  _no_keywords cond_call ;;
  match call_args cond_call with
  | [Call f a k] =>
      let '(base, links) := _flatten_chain (Call f a k) in
      if bool_decide (links = []) then fail else
      match base with
      | Name id => if bool_decide (OD.get id SPEC_cond_ops = None) then
                     match OD.get id cm with Some cls => _parse_cond_instance id links cls | None => fail end
                   else _parse_cond_probe id links
      | _ =>
          match _dotted_name base with
          | Some inst => match OD.get inst cm with Some cls => _parse_cond_instance inst links cls | None => fail end
          | None => fail
          end
      end
  | _ => fail
  end.

Record stmt_vars := mkVars { v_layers : option (list Z * bool); v_submodule : option str; v_cond : option CondClause }.

Fixpoint stmt_links (cm : class_map) (links : list (str * expr)) (v : stmt_vars) : result stmt_vars :=
  match links with
  | [] => Ok v
  | (attr, link) :: rest =>
      if decide (attr = lit "layer" ∨ attr = lit "layers") then
        x ← _expect_layers link;
        stmt_links cm rest (mkVars (Some x) (v_submodule v) (v_cond v))
      else if decide (attr = lit "submodule") then
        s ← _validate_submodule link;
        stmt_links cm rest (mkVars (v_layers v) (Some s) (v_cond v))
      else if decide (attr = lit "cond") then
        c ← _parse_cond link cm;
        stmt_links cm rest (mkVars (v_layers v) (v_submodule v) (Some c))
      else fail
  end.

Definition _parse_statement (call : expr) (line : Z) (cm : class_map) : result Statement :=
  match _flatten_chain call with
  | (Name id, (verb, op_call) :: rest) =>
      guard (bool_decide (id = lit "m")) ;;
      kind ← _resolve_verb verb;
      x ← _parse_op_arg op_call cm;
      let '(name, args, method, inst) := x in
      v ← stmt_links cm rest (mkVars None None None);
      match v_layers v, v_submodule v with
      | Some (lay, all), Some sub => Ok (mkStmt kind name args method lay sub (v_cond v) (mkLoc path line) inst all)
      | _, _ => fail
      end
  | _ => fail
  end.

(** ** The whole file *)

(** The first pass: statements, preamble nodes and the classes of assigned names *)
Fixpoint first_pass (nodes : list top) (cm : class_map) : result (list (expr * Z) * list pre_node * class_map) :=
  match nodes with
  | [] => Ok ([], [], cm)
  | t :: rest =>
      match body t with
      | ExprStmt value line =>
          if _is_m_statement (body t) then
            x ← first_pass rest cm;
            let '(stmts, pres, cm') := x in Ok ((value, line) :: stmts, pres, cm')
          else
            x ← first_pass rest cm;
            let '(stmts, pres, cm') := x in Ok (stmts, mkPre (lineno t) (default [] (segment t)) [] :: pres, cm')
      | n =>
          augmented ← _validate_construction n;
          let text := match augmented with Some a => a | None => default [] (segment t) end in
          x ← first_pass rest (_collect_assignment n cm);
          let '(stmts, pres, cm') := x in Ok (stmts, mkPre (lineno t) text (_segment_targets n) :: pres, cm')
      end
  end.

Fixpoint parse_all (stmts : list (expr * Z)) (cm : class_map) : result (list Statement) :=
  match stmts with
  | [] => Ok []
  | (e, line) :: rest => s ← _parse_statement e line cm; r ← parse_all rest cm; Ok (s :: r)
  end.

(** [tree] is what [ast.parse] returns for [src], [None] a [SyntaxError]. *)
Definition parse_and_validate (src : str) (tree : option (list top)) : result ParseResult :=
  match tree with
  | None => fail
  | Some nodes =>
      x ← first_pass nodes [];
      let '(stmts, pres, cm) := x in
      ranges ← _scan_init_blocks src;
      range_cls ← _resolve_init_blocks ranges pres cm;
      let segs := (λ p, mkSegment (p_text p) (p_targets p) (_owner_cls (p_line p) range_cls)) <$> pres in
      sts ← parse_all stmts cm;
      m ← _scan_model src;
      Ok (mkParse segs sts m)
  end.
End parser.

(** ** What the parser guarantees *)

(** Every rejection is an [XmixError], or the [AttributeError] of a subscripted gate. *)
Definition parse_err (e : exn) : Prop := e = XmixError ∨ e = AttributeError.

Definition known {V} (d : list (str * V)) (k : str) : Prop := is_Some (OD.get k d).

(** The condition of a statement, as the code generator relies on it *)
Definition cond_head_valid (cm : class_map) (c : CondClause) : Prop :=
  match c_instance_expr c with
  | None => ∃ p cspec k spec, probe_op c = Some p ∧ OD.get p SPEC_cond_ops = Some cspec ∧
      compare_op c = Some k ∧ OD.get k (compares cspec) = Some spec ∧ length (c_args c) = cmp_arity spec ∧ model_level c = false
  | Some inst => ∃ cls cspec, OD.get inst cm = Some cls ∧ cond_cls c = Some cls ∧ OD.get cls SPEC_cond_instances = Some cspec ∧
      c_method c = ci_method cspec ∧ is_Some (gate_buffer c) ∧ model_level c = bool_decide (ci_scope cspec = lit "model")
  end.
Definition cond_valid (cm : class_map) (c : CondClause) : Prop :=
  cond_head_valid cm c ∧ (model_level c = false → c_layers c ≠ [] ∧ known SPEC_submodules (c_submodule c)).

Definition op_valid (cm : class_map) (name : str) (args : list str) (method : str) (inst : option str) : Prop :=
  ∃ spec, OD.get name SPEC_ops = Some spec ∧ method = op_spec_method spec ∧
  match inst with
  | None => length args = op_arity spec
  | Some i => args = [] ∧ OD.get i cm = Some name
  end.

Definition layers_valid (x : list Z * bool) : Prop := if x.2 then x.1 = [] else x.1 ≠ [].

Record stmt_valid (cm : class_map) (s : Statement) : Prop := mkValid {
  sv_op : op_valid cm (op_name s) (s_args s) (s_method s) (instance_expr s);
  sv_layers : layers_valid (layers s, all_layers s);
  sv_submodule : known SPEC_submodules (submodule s);
  sv_cond : ∀ c, cond s = Some c → cond_valid cm c;
}.

Lemma outcome_fail {A} (Q : A → Prop) : outcome parse_err Q fail.
Proof. by left. Qed.
Lemma outcome_guard b (Q : () → Prop) : (b = true → Q ()) → outcome parse_err Q (guard b).
Proof. destruct b; simpl; [auto|by left]. Qed.
Lemma outcome_any {A B} (Q : B → Prop) (r : result A) (f : A → result B) :
  outcome parse_err (λ _, True) r → (∀ a, outcome parse_err Q (f a)) → outcome parse_err Q (r ≫= f).
Proof. intros Hr Hf. eapply outcome_bind; eauto. Qed.
#[export] Hint Resolve outcome_fail outcome_guard : py.
Ltac outcome_done := solve [exact (outcome_fail _) | by auto | by left | by right].

Lemma no_keywords_outcome call : outcome parse_err (λ _, True) (_no_keywords call).
Proof. unfold _no_keywords. repeat case_match; outcome_done. Qed.
Lemma name_args_outcome args : outcome parse_err (λ _, True) (name_args args).
Proof. induction args as [|[] args IH]; try outcome_done. by apply outcome_any. Qed.
Lemma int_items_outcome elts : outcome parse_err (λ _, True) (int_items elts).
Proof. induction elts as [|e elts IH]; [done|]. cbn [int_items]. case_match; [|outcome_done]. by apply outcome_any. Qed.

Lemma expect_name_args_outcome call : outcome parse_err (λ _, True) (_expect_name_args call).
Proof. apply outcome_any; [apply no_keywords_outcome|]. intros []. apply name_args_outcome. Qed.

Lemma expect_int_list_outcome call : outcome parse_err (λ l, l ≠ []) (_expect_int_list call).
Proof.
  apply outcome_any; [apply no_keywords_outcome|]. intros []. destruct (call_args call) as [|[] [|]]; try outcome_done.
  apply outcome_any; [apply int_items_outcome|]. intros l. case_bool_decide; [outcome_done|done].
Qed.

(** A slice [lo:hi:step] selects the layers from [lo] to [hi] included. *)
Lemma range_incl_spec lo hi step x : 0 < step → lo ≤ hi → x ∈ range_incl lo hi step ↔ lo ≤ x ≤ hi ∧ (step | x - lo).
Proof.
  intros Hs Hl. unfold range_incl. rewrite list_elem_of_fmap. pose proof (Z.div_mod (hi - lo) step ltac:(lia)) as E.
  pose proof (Z.mod_pos_bound (hi - lo) step Hs). pose proof (Z.div_pos (hi - lo) step ltac:(lia) Hs). split.
  - intros (i & -> & Hi%elem_of_seq). split; [nia|]. exists (Z.of_nat i). lia.
  - intros [Hx [k Hk]]. exists (Z.to_nat k). assert (0 ≤ k) by nia. split; [lia|]. apply elem_of_seq. split; [lia|].
    assert (k ≤ (hi - lo) / step); [|lia]. apply Z.div_le_lower_bound; lia.
Qed.
Lemma range_incl_ne lo hi step : 0 < step → lo ≤ hi → range_incl lo hi step ≠ [].
Proof. intros Hs Hl E. assert (lo ∈ range_incl lo hi step) as H; [|by rewrite E in H; apply not_elem_of_nil in H]. apply range_incl_spec; [done..|]. split; [lia|]. exists 0. lia. Qed.

Lemma layers_from_slice_outcome sl : outcome parse_err (λ l, l ≠ []) (_layers_from_slice sl).
Proof.
  unfold _layers_from_slice. destruct sl as [| | | |[lower|] [upper|] st| | |]; try outcome_done.
  destruct (_int_const lower) as [lo|], (_int_const upper) as [hi|]; try outcome_done. apply (outcome_bind _ (λ z, 0 < z)).
  - destruct st as [e|]; [|done]. destruct (_int_const e) as [z|]; [|outcome_done]. destruct (Z.leb_spec z 0); [outcome_done|done].
  - intros z Hz. destruct (Z.ltb_spec hi lo); [outcome_done|]. apply range_incl_ne; lia.
Qed.

Lemma expect_layers_outcome link : outcome parse_err layers_valid (_expect_layers link).
Proof.
  unfold _expect_layers. assert (outcome parse_err layers_valid (_no_keywords link ;; match call_args link with
    | [Constant (CStr s)] => if decide (s = lit "all") then Ok ([], true) else fail
    | [_] => l ← _expect_int_list link; Ok (l, false) | _ => fail end)) as H.
  { apply outcome_any; [apply no_keywords_outcome|]. intros []. destruct (call_args link) as [|x [|y l]]; [outcome_done| |destruct x as [| | | | | |[]|]; outcome_done].
    assert (outcome parse_err layers_valid (l ← _expect_int_list link; Ok (l, false))) as H.
    { eapply outcome_bind; [apply expect_int_list_outcome|done]. }
    destruct x as [| | | | | |[]|]; try exact H. case_decide; [done|outcome_done]. }
  destruct link; try exact H. eapply outcome_bind; [apply layers_from_slice_outcome|done].
Qed.

Lemma validate_submodule_outcome call : outcome parse_err (known SPEC_submodules) (_validate_submodule call).
Proof.
  apply outcome_any.
  - apply outcome_any; [apply no_keywords_outcome|]. intros []. repeat (case_match; try outcome_done).
  - intros s. case_bool_decide as E; [outcome_done|]. by apply not_eq_None_Some.
Qed.

Lemma parse_op_arg_outcome op_call cm :
  outcome parse_err (λ '(name, args, method, inst), op_valid cm name args method inst) (_parse_op_arg op_call cm).
Proof.
  apply outcome_any; [apply no_keywords_outcome|]. intros [].
  destruct (call_args op_call) as [|x [|y l]]; [outcome_done| |destruct x; outcome_done]. destruct x as [|value method| | | | | |]; try outcome_done.
  assert (outcome parse_err (λ '(name, args, method, inst), op_valid cm name args method inst)
    match _dotted_name value with
    | None => fail
    | Some inst => match OD.get inst cm with
                   | None => fail
                   | Some cls_name => spec ← _lookup_op cls_name; _check_method method (op_spec_method spec) ;; Ok (cls_name, [], method, Some inst)
                   end
    end) as H.
  { destruct (_dotted_name value) as [inst|]; [|outcome_done]. destruct (OD.get inst cm) as [cls|] eqn:Ei; [|outcome_done].
    unfold _lookup_op. destruct (OD.get cls SPEC_ops) as [spec|] eqn:Ec; [|outcome_done]. cbn [mbind result_bind].
    eapply outcome_bind; [apply (outcome_guard _ (λ _, method = op_spec_method spec)); apply bool_decide_eq_true|].
    intros [] ->. exists spec. auto. }
  destruct value as [| |f a k| | | | |]; try exact H. destruct f as [cls| | | | | | |]; try exact H. clear H.
  unfold _lookup_op. destruct (OD.get cls SPEC_ops) as [spec|] eqn:Ec; [|outcome_done]. cbn [mbind result_bind].
  apply outcome_any; [apply expect_name_args_outcome|]. intros args.
  eapply outcome_bind; [apply (outcome_guard _ (λ _, length args = op_arity spec)); apply bool_decide_eq_true|]. intros [] Ha.
  eapply outcome_bind; [apply (outcome_guard _ (λ _, method = op_spec_method spec)); apply bool_decide_eq_true|]. intros [] ->.
  exists spec. auto.
Qed.

Definition tail_valid (model_ok : bool) (t : tail) : Prop :=
  (t_model t = true → model_ok = true) ∧ (t_model t = false → ∀ l, t_layers t = Some l → l ≠ []) ∧
  ∀ s, t_submodule t = Some s → known SPEC_submodules s.

Lemma tail_links_outcome model_ok links : ∀ t, tail_valid model_ok t → outcome parse_err (tail_valid model_ok) (tail_links model_ok links t).
Proof.
  induction links as [|[attr link] links IH]; intros t (Hm & Hl & Hs); [done|]. cbn [tail_links]. case_decide.
  - destruct (model_ok && _is_model_sentinel link) eqn:E.
    { apply IH. apply andb_true_iff in E as [-> _]. by split_and!. }
    eapply outcome_bind; [apply expect_layers_outcome|]. intros [l []] Hv; [outcome_done|]. apply IH. split_and!; [done| |done].
    intros _ l' [= <-]. exact Hv.
  - case_decide; [|outcome_done]. eapply outcome_bind; [apply validate_submodule_outcome|]. intros s Hk. apply IH. split_and!; [done..|].
    by intros s' [= <-].
Qed.
Lemma tail_links_start model_ok links : outcome parse_err (tail_valid model_ok) (tail_links model_ok links (mkTail None None false)).
Proof. by apply tail_links_outcome. Qed.

Lemma parse_cond_tail_outcome links : outcome parse_err (λ x, x.1 ≠ [] ∧ known SPEC_submodules x.2) (_parse_cond_tail links).
Proof.
  eapply outcome_bind; [apply (tail_links_start false)|]. intros [[l|] [s|] []] (Hm & Hl & Hs); try outcome_done; [by discriminate Hm|].
  split; [by apply Hl|by apply Hs].
Qed.

Lemma parse_cond_instance_tail_outcome links : outcome parse_err
  (λ '(l, s, m), m = false → l ≠ [] ∧ known SPEC_submodules s) (_parse_cond_instance_tail links).
Proof.
  eapply outcome_bind; [apply (tail_links_start true)|]. intros [[l|] [s|] []] (Hm & Hl & Hs); try outcome_done.
  intros _. split; [by apply Hl|by apply Hs].
Qed.

Lemma parse_cond_probe_outcome cm p links : outcome parse_err (cond_valid cm) (_parse_cond_probe p links).
Proof.
  unfold _parse_cond_probe. destruct (OD.get p SPEC_cond_ops) as [cspec|] eqn:Ep; [|outcome_done].
  destruct links as [|[k call] rest]; [outcome_done|]. destruct (OD.get k (compares cspec)) as [spec|] eqn:Ek; [|outcome_done].
  apply outcome_any; [apply expect_name_args_outcome|]. intros args.
  eapply outcome_bind; [apply (outcome_guard _ (λ _, length args = cmp_arity spec)); apply bool_decide_eq_true|]. intros [] Ha.
  eapply outcome_bind; [apply parse_cond_tail_outcome|]. intros [l s] Hls. split; [|done]. by exists p, cspec, k, spec.
Qed.

Lemma gate_keywords_outcome kws : ∀ fn kind, outcome parse_err (λ _, True) (gate_keywords kws fn kind).
Proof.
  induction kws as [|[[k|] v] kws IH]; intros fn kind; [done| |outcome_done]. cbn [gate_keywords].
  destruct (_is_str_const v) as [s|]; [|outcome_done]. repeat (case_decide; [apply IH|]). outcome_done.
Qed.

Lemma parse_cond_instance_outcome cm inst links cls : OD.get inst cm = Some cls →
  outcome parse_err (cond_valid cm) (_parse_cond_instance inst links cls).
Proof.
  intros Hi. unfold _parse_cond_instance. destruct (OD.get cls SPEC_cond_instances) as [cspec|] eqn:Ec; [|outcome_done].
  destruct links as [|[verb call] rest]; [outcome_done|]. apply outcome_any; [by apply outcome_guard|]. intros [].
  destruct call as [| |f a k| | | | |]; try outcome_done. destruct a as [|x [|y l]]; [outcome_done| |by destruct x as [| | | | | |[]|]; outcome_done].
  destruct x as [| | | | | |[]|]; try outcome_done. apply outcome_any; [apply gate_keywords_outcome|]. intros [fn kind].
  eapply outcome_bind; [apply parse_cond_instance_tail_outcome|]. intros [[lay sub] m] Hls.
  eapply outcome_bind; [apply (outcome_guard _ (λ _, m = true → ci_scope cspec = lit "model"))|].
  { intros E ->. case_bool_decide; [done|discriminate E]. }
  intros [] Hm. eapply outcome_bind; [apply (outcome_guard _ (λ _, ci_scope cspec = lit "model" → m = true))|].
  { intros E ?. rewrite bool_decide_true in E by done. by destruct m. }
  intros [] Hm'. split; [|done]. exists cls, cspec. split_and!; try done. destruct m; case_bool_decide; naive_solver.
Qed.

Lemma parse_cond_outcome call cm : outcome parse_err (cond_valid cm) (_parse_cond call cm).
Proof.
  apply outcome_any; [apply no_keywords_outcome|]. intros [].
  destruct (call_args call) as [|x [|y l]]; [outcome_done| |by destruct x; outcome_done]. destruct x; try outcome_done.
  destruct (_flatten_chain _) as [base links]. case_bool_decide; [outcome_done|].
  assert (∀ o, outcome parse_err (cond_valid cm) (match o with
    | Some inst => match OD.get inst cm with Some cls => _parse_cond_instance inst links cls | None => fail end | None => fail end)) as Hr.
  { intros [i|]; [|outcome_done]. destruct (OD.get i cm) eqn:Ei; [by apply parse_cond_instance_outcome|outcome_done]. }
  destruct base; try apply Hr. case_bool_decide; [|apply parse_cond_probe_outcome]. apply (Hr (Some id)).
Qed.

Definition vars_valid (cm : class_map) (v : stmt_vars) : Prop :=
  (∀ x, v_layers v = Some x → layers_valid x) ∧ (∀ s, v_submodule v = Some s → known SPEC_submodules s) ∧
  (∀ c, v_cond v = Some c → cond_valid cm c).

Lemma stmt_links_outcome cm links : ∀ v, vars_valid cm v → outcome parse_err (vars_valid cm) (stmt_links cm links v).
Proof.
  induction links as [|[attr link] links IH]; intros v (Hl & Hs & Hc); [done|]. cbn [stmt_links]. repeat case_decide; try outcome_done.
  - eapply outcome_bind; [apply expect_layers_outcome|]. intros x Hx. apply IH. split_and!; [|done..]. by intros ? [= <-].
  - eapply outcome_bind; [apply validate_submodule_outcome|]. intros x Hx. apply IH. split_and!; [done| |done]. by intros ? [= <-].
  - eapply outcome_bind; [apply parse_cond_outcome|]. intros x Hx. apply IH. split_and!; [done..|]. by intros ? [= <-].
Qed.

Lemma parse_statement_outcome path call line cm : outcome parse_err (stmt_valid cm) (_parse_statement path call line cm).
Proof.
  unfold _parse_statement. destruct (_flatten_chain call) as [base links]. destruct base; try outcome_done. destruct links as [|[verb op_call] rest]; [outcome_done|].
  apply outcome_any; [by apply outcome_guard|]. intros []. apply outcome_any; [unfold _resolve_verb; repeat (case_decide; [done|]); outcome_done|].
  intros kind. eapply outcome_bind; [apply parse_op_arg_outcome|]. intros [[[name args] method] inst] Hop.
  eapply outcome_bind; [by apply stmt_links_outcome|]. intros [[[lay all]|] [sub|] c] (Hl & Hs & Hc); try outcome_done.
  constructor; simpl; [done|by apply Hl|by apply Hs|exact Hc].
Qed.

Definition class_known_model (cls : str) : Prop := ∃ c, OD.get cls SPEC_cond_instances = Some c ∧ ci_scope c = lit "model".

(** The classes of the names the file assigns, as the source assigns them *)
Definition assigned_classes (nodes : list top) : class_map := foldl (λ cm t, _collect_assignment (body t) cm) [] nodes.

Record result_valid (nodes : list top) (r : ParseResult) : Prop := mkResultValid {
  rv_statements : Forall (stmt_valid (assigned_classes nodes)) (statements r);
  rv_model : known SPEC_models (model r);
  rv_blocks : Forall (λ seg, ∀ cls, block_cls seg = Some cls → class_known_model cls) (preamble r);
}.

Section file.
Context (source_of : expr → option str) (unicode_word : Z → bool) (path : str).

Lemma provided_keywords_outcome sch kws : ∀ provided, outcome parse_err (λ _, True) (provided_keywords source_of sch kws provided).
Proof.
  induction kws as [|[[k|] v] kws IH]; intros provided; [done| |outcome_done]. cbn [provided_keywords].
  apply outcome_any; [by apply outcome_guard|]. intros []. apply outcome_any; [by apply outcome_guard|]. intros []. apply IH.
Qed.

Lemma validate_construction_outcome n : outcome parse_err (λ _, True) (_validate_construction source_of n).
Proof.
  unfold _validate_construction. destruct n as [|targets value|]; try done. destruct value as [| |f a k| | | | |]; try done.
  destruct f as [cls| | | | | | |]; try done. destruct (_arg_schema cls) as [[sch|]|]; [|outcome_done|done].
  apply outcome_any; [by apply outcome_guard|]. intros []. apply outcome_any; [apply provided_keywords_outcome|]. intros provided.
  apply outcome_any; [by apply outcome_guard|]. intros []. destruct (forallb _ _); [done|].
  destruct targets as [|t [|]]; try outcome_done. destruct (source_of t); [done|outcome_done].
Qed.

Lemma first_pass_outcome nodes : ∀ cm, outcome parse_err (λ x, x.2 = foldl (λ cm t, _collect_assignment (body t) cm) cm nodes) (first_pass source_of nodes cm).
Proof.
  induction nodes as [|t nodes IH]; intros cm; [done|]. cbn [first_pass foldl]. destruct (body t) as [value line|targets value|].
  - destruct (_is_m_statement _); (eapply outcome_bind; [apply IH|]); intros [[stmts pres] cm'] E; exact E.
  - apply outcome_any; [apply validate_construction_outcome|]. intros aug. eapply outcome_bind; [apply IH|]. intros [[stmts pres] cm'] E; exact E.
  - apply outcome_any; [apply validate_construction_outcome|]. intros aug. eapply outcome_bind; [apply IH|]. intros [[stmts pres] cm'] E; exact E.
Qed.

Lemma scan_blocks_outcome lines : ∀ n o, outcome parse_err (λ _, True) (scan_blocks unicode_word n lines o).
Proof.
  induction lines as [|l lines IH]; intros n o; cbn [scan_blocks]; [destruct o; outcome_done|].
  destruct (detector_re _ _ _); [destruct o; [outcome_done|apply IH]|]. destruct (detector_re _ _ _); [|apply IH].
  destruct o; [|outcome_done]. apply outcome_any; [apply IH|done].
Qed.

Lemma block_owners_model b e pres cm cls : cls ∈ block_owners b e pres cm → class_known_model cls.
Proof.
  unfold block_owners. intros (p & Hc & _)%list_elem_of_bind. destruct (_ && _); [|by apply not_elem_of_nil in Hc].
  apply list_elem_of_omap in Hc as (t & _ & Ht). destruct (OD.get t cm) as [c|]; [|done]. destruct (is_model_scope c) eqn:E; [|done]. injection Ht as <-.
  unfold is_model_scope in E. destruct (OD.get c SPEC_cond_instances) as [ci|] eqn:Ec; [|done]. apply bool_decide_eq_true in E. by exists ci.
Qed.

Lemma resolve_init_blocks_outcome ranges pres cm :
  outcome parse_err (Forall (λ x, class_known_model x.2)) (_resolve_init_blocks ranges pres cm).
Proof.
  induction ranges as [|[b e] ranges IH]; cbn [_resolve_init_blocks]; [constructor|].
  destruct (block_owners b e pres cm) as [|cls [|]] eqn:E; try outcome_done. eapply outcome_bind; [exact IH|]. intros r Hr. constructor; [|done].
  eapply block_owners_model. rewrite E. left.
Qed.

Lemma owner_cls_model line rc cls : Forall (λ x : Z * Z * str, class_known_model x.2) rc → _owner_cls line rc = Some cls → class_known_model cls.
Proof. induction 1 as [|[[b e] c] rc Hc _ IH]; [done|]. simpl. destruct (_ && _); [by intros [= <-]|done]. Qed.

Lemma parse_all_outcome stmts cm : outcome parse_err (Forall (stmt_valid cm)) (parse_all path stmts cm).
Proof.
  induction stmts as [|[e line] stmts IH]; cbn [parse_all]; [constructor|]. eapply outcome_bind; [apply parse_statement_outcome|]. intros s Hs.
  eapply outcome_bind; [exact IH|]. intros r Hr. by constructor.
Qed.

Lemma scan_model_outcome lines : ∀ found, (∀ f, found = Some f → known SPEC_models f) → outcome parse_err (known SPEC_models) (scan_model_lines lines found).
Proof.
  induction lines as [|l lines IH]; intros found Hf; cbn [scan_model_lines].
  { destruct found as [f|]; [by apply Hf|]. vm_compute. eauto. }
  destruct (model_re (strip l)) as [name|]; [|by apply IH].
  eapply outcome_bind; [apply (outcome_guard _ (λ _, known SPEC_models name))|].
  { intros E. case_bool_decide as Hn; [done|]. by apply not_eq_None_Some. }
  intros [] Hk. apply outcome_any; [by apply outcome_guard|]. intros []. apply IH. by intros ? [= <-].
Qed.

Lemma parsed_file_outcome src tree :
  outcome parse_err (λ r, ∃ nodes, tree = Some nodes ∧ result_valid nodes r) (parse_and_validate source_of unicode_word path src tree).
Proof.
  destruct tree as [nodes|]; [|outcome_done]. eapply outcome_bind; [apply first_pass_outcome|]. intros [[stmts pres] cm] E.
  change (cm = assigned_classes nodes) in E. subst cm. apply outcome_any; [apply scan_blocks_outcome|]. intros ranges.
  eapply outcome_bind; [apply resolve_init_blocks_outcome|]. intros rc Hrc. eapply outcome_bind; [apply parse_all_outcome|]. intros sts Hs.
  eapply outcome_bind; [by apply scan_model_outcome|]. intros m Hm. exists nodes. split; [done|]. split; [done..|].
  apply Forall_fmap, Forall_forall. intros p _ cls. by apply owner_cls_model.
Qed.

(** C28. What parse_and_validate returns is well formed, or it raises: a rejected file raises
    XmixError (or the AttributeError of a subscripted gate), and in an accepted one every
    statement names a registered operation with its method and arity (or an instance the
    file assigns), steers a non-empty list of layers or all of them at a registered
    submodule, has a condition of a registered probe and comparison with its arguments or of
    an instance of a registered class at the scope of that class, with its own layers and
    submodule; the model is registered, and init blocks belong to model-scope classes. *)
Theorem parsed_file_valid src tree :
  outcome parse_err (λ r, ∃ nodes, tree = Some nodes ∧ result_valid nodes r) (parse_and_validate source_of unicode_word path src tree).
Proof. apply parsed_file_outcome. Qed.
End file.

(** [.cond(x.gates[i].layer(...)...)] on an instance [x] of a registered class escapes the
    error type of the tool: it raises AttributeError. *)
Theorem subscripted_gate_raises cm x cls i rest f :
  OD.get x SPEC_cond_ops = None → OD.get x cm = Some cls → known SPEC_cond_instances cls →
  _parse_cond (Call f [Call (Attribute (Subscript (Attribute (Name x) (lit "gates")) i) (lit "layer")) rest []] []) cm = Raise AttributeError.
Proof.
  intros Hx Hc [cspec Hs]. unfold _parse_cond, _flatten_chain. cbn [_no_keywords mbind result_bind call_args chain_rev].
  unfold reverse. cbn [rev_append]. rewrite bool_decide_false by done. rewrite bool_decide_true, Hc by done.
  unfold _parse_cond_instance. by rewrite Hs.
Qed.
