(* ===== verification/XmixApply.v ===== *)
(** * vllm/activations_extractor/xmix/apply.py: splicing synthesized blocks into sources

    The tool inserts blocks below anchor comments of source files, between sentinel
    comments, and removes them again.  The state is the file system (names to contents)
    and the standard output; messages are not modelled. *)

From Stdlib Require Import ZArith Lia Ascii String.
From stdpp Require Import base tactics option list gmap strings sorting.
From S2P Require Import Prelude XmixText XmixSpec.
Local Open Scope Z_scope.

Record world := mkWorld { files : gmap str str; stdout : list str }.

Definition exists_file (p : str) (w : world) : bool := bool_decide (is_Some (files w !! p)).
Definition read_text (p : str) : M world str :=
  w ← get; match files w !! p with None => raise FileNotFoundError | Some t => mret (universal_newlines t) end.
Definition write_text (p t : str) : M world () := modify (λ w, mkWorld (<[p := t]> (files w)) (stdout w)).
Definition write_stdout (t : str) : M world () := modify (λ w, mkWorld (files w) (stdout w ++ [t])).

(** ** Parsing the synthesized file *)

(** [_APPLY_RE.match] *)
Definition apply_re (s : str) : option (str * str) :=
  s ← hash_prefix s;
  s ← expect (lit ">>> XMIX-APPLY file=") s;
  '(file, s) ← token s;
  s ← expect (lit " anchor=") s;
  '(anchor, s) ← token s;
  s ← expect (lit " <<<") s;
  if bool_decide (lstrip s = []) then Some (file, anchor) else None.

(** [_FOOTPRINT_RE.match] *)
Definition footprint_re (s : str) : option (str * str * str) :=
  s ← hash_prefix s;
  s ← expect (lit ">>> XMIX-FOOTPRINT flag=") s;
  '(flag, s) ← token s;
  s ← expect (lit " submodule=") s;
  '(submodule, s) ← token s;
  s ← expect (lit " layers=") s;
  '(layers, s) ← token s;
  s ← expect (lit " <<<") s;
  Some (flag, submodule, layers).

(** [_APPLIED_FP_RE.match] *)
Definition applied_fp_re (s : str) : option (str * str * str * str) :=
  s ← hash_prefix s;
  s ← expect (lit "xmix:footprint ") s;
  '(app, s) ← token s;
  s ← expect (lit " ") s;
  '(flag, s) ← token s;
  s ← expect (lit " ") s;
  '(submodule, s) ← token s;
  s ← expect (lit " ") s;
  '(layers, _) ← token s;
  Some (app, flag, submodule, layers).

Definition _META_PREFIXES : list str := [lit "# >>> "; lit "#     (executes at:"; lit "# === "; lit "# --- user preamble"].
Definition _is_meta (line : str) : bool := existsb (λ p, startswith p (strip line)) _META_PREFIXES.

Fixpoint drop_blank (lines : list str) : list str :=
  match lines with [] => [] | l :: lines' => if is_blank l then drop_blank lines' else lines end.
Definition _trim_blank (lines : list str) : list str := reverse (drop_blank (reverse (drop_blank lines))).

Record block := mkBlock { b_file : str; b_anchor : str; b_code : list str }.

(** The loop over the lines; [cur] is the open block, its code in reverse *)
Fixpoint collect (lines : list str) (cur : option (str * str * list str)) : list block :=
  let close := match cur with Some (f, a, c) => [mkBlock f a (reverse c)] | None => [] end in
  match lines with
  | [] => close
  | line :: rest =>
      match apply_re (strip line) with
      | Some (f, a) => close ++ collect rest (Some (f, a, []))
      | None =>
          match cur with
          | None => collect rest None
          | Some (f, a, c) => if _is_meta line then collect rest cur else collect rest (Some (f, a, line :: c))
          end
      end
  end.

Definition parse_blocks (text : str) : list block :=
  filter (λ b, b_code b ≠ [])
    ((λ b, mkBlock (b_file b) (b_anchor b) (_trim_blank (b_code b))) <$> collect (splitlines text) None).

(** ** Footprints *)

(** [None] is the sentinel "all". *)
Abbreviation layer_set := (option (gset Z)).
Record footprint := mkFp { fp_flag : str; fp_sub : str; fp_layers : layer_set }.

Definition _parse_layers (spec : str) : result layer_set :=
  if decide (spec = lit "all") then Ok None else
  match mapM parse_int (filter (λ x, x ≠ []) (split_commas spec)) with
  | Some l => Ok (Some (list_to_set l))
  | None => Raise ValueError
  end.

Definition _layers_str (layers : layer_set) : str :=
  match layers with
  | None => lit "all"
  | Some s => join (lit ",") (int_str <$> merge_sort Z.le (elements s))
  end.

Fixpoint parse_footprints_lines (lines : list str) : result (list footprint) :=
  match lines with
  | [] => Ok []
  | line :: rest =>
      match footprint_re (strip line) with
      | None => parse_footprints_lines rest
      | Some (flag, sub, spec) =>
          match _parse_layers spec with
          | Raise e => Raise e
          | Ok lay =>
              match parse_footprints_lines rest with Raise e => Raise e | Ok r => Ok (mkFp flag sub lay :: r) end
          end
      end
  end.
Definition parse_footprints (text : str) : result (list footprint) := parse_footprints_lines (splitlines text).

Definition _overlap (a b : layer_set) : bool :=
  match a, b with Some s, Some t => bool_decide (s ∩ t ≠ ∅) | _, _ => true end.

(** ** Anchors and sentinels *)

Definition _anchor_comment (anchor : str) : str := lit "# xmix:anchor " ++ anchor.
Definition _indent_of (line : str) : str := take (length line - length (lstrip line)) line.

Fixpoint _find_anchor (lines : list str) (anchor : str) : option nat :=
  match lines with
  | [] => None
  | line :: rest => if decide (strip line = _anchor_comment anchor) then Some O else S <$> _find_anchor rest anchor
  end.

Definition is_begin (line : str) : bool := startswith (lit "# xmix:begin ") (strip line).
Definition is_end (line : str) : bool := startswith (lit "# xmix:end ") (strip line).
(** [s.split()[2] if len(s.split()) > 2 else None] *)
Definition begin_app (line : str) : option str := words (strip line) !! 2%nat.
(** [app_ids is None or app in app_ids] *)
Definition selected (app_ids : option (list str)) (app : option str) : bool :=
  match app_ids with
  | None => true
  | Some ids => match app with Some a => bool_decide (a ∈ ids) | None => false end
  end.

Fixpoint strip_go (app_ids : option (list str)) (skipping : bool) (lines : list str) : list str :=
  match lines with
  | [] => []
  | line :: rest =>
      if negb skipping && is_begin line && selected app_ids (begin_app line) then strip_go app_ids true rest
      else if skipping && is_end line then strip_go app_ids false rest
      else if negb skipping then line :: strip_go app_ids skipping rest
      else strip_go app_ids skipping rest
  end.
Definition _strip_app_regions (lines : list str) (app_ids : option (list str)) : list str := strip_go app_ids false lines.

(** How many lines the loops of [_insertion_point] pass over; [inside] is the inner loop,
    which steps past the end marker even when there is none. *)
Fixpoint passed (inside : bool) (lines : list str) : nat :=
  match lines with
  | [] => if inside then 1%nat else O
  | line :: rest =>
      if inside then S (passed (negb (is_end line)) rest)
      else if is_blank line then S (passed false rest)
      else if is_begin line then S (passed true rest)
      else O
  end.
Definition _insertion_point (lines : list str) (anchor_idx : nat) : nat :=
  (anchor_idx + 1 + passed false (drop (anchor_idx + 1) lines))%nat.

(** The block as it is written at indentation [indent] *)
Definition render (indent app_id anchor : str) (code : list str) : list str :=
  [indent ++ lit "# xmix:begin " ++ app_id ++ lit " " ++ anchor] ++
  ((λ cl, if is_blank cl then [] else indent ++ cl) <$> code) ++
  [indent ++ lit "# xmix:end " ++ app_id ++ lit " " ++ anchor].

(** [lines[None]] raises [TypeError]. *)
Definition _insert_stacked (lines : list str) (anchor app_id : str) (code : list str) : result (list str) :=
  match _find_anchor lines anchor with
  | None => Raise TypeError
  | Some idx =>
      let at_ := _insertion_point lines idx in
      Ok (take at_ lines ++ render (_indent_of (lines !!! idx)) app_id anchor code ++ drop at_ lines)
  end.

(** ** Commands *)

Definition _app_id_from (path : str) (override : option str) : str :=
  match override with
  | Some (c :: o) => c :: o
  | _ => let st := stem path in
         if endswith (lit "_synth") st then take (length st - 6) st else st
  end.

Record item := mkItem { i_anchor : str; i_app : str; i_code : list str }.

Section commands.
(** [_all_anchor_files()], a constant of spec.py *)
Context (anchor_files : list str).

Fixpoint scan_lines (lines : list str) : result (list (str * footprint)) :=
  match lines with
  | [] => Ok []
  | line :: rest =>
      match applied_fp_re (strip line) with
      | None => scan_lines rest
      | Some (app, flag, sub, spec) =>
          match _parse_layers spec with
          | Raise e => Raise e
          | Ok lay => match scan_lines rest with Raise e => Raise e | Ok r => Ok ((app, mkFp flag sub lay) :: r) end
          end
      end
  end.

Fixpoint scan_files (fs : list str) : M world (list (str * footprint)) :=
  match fs with
  | [] => mret []
  | f :: rest =>
      w ← get;
      if exists_file f w then
        t ← read_text f;
        l ← of_result (scan_lines (splitlines t));
        r ← scan_files rest;
        mret (l ++ r)
      else scan_files rest
  end.
Definition _scan_applied_footprints : M world (list (str * footprint)) := scan_files anchor_files.

Definition clash (a b : str * footprint) : bool :=
  bool_decide (fp_flag a.2 = fp_flag b.2) && bool_decide (fp_sub a.2 = fp_sub b.2) && _overlap (fp_layers a.2) (fp_layers b.2).

(** The two nested loops over [batch] and [batch[i + 1:] + existing] *)
Fixpoint any_clash (batch existing : list (str * footprint)) : bool :=
  match batch with
  | [] => false
  | a :: rest => existsb (clash a) (rest ++ existing) || any_clash rest existing
  end.

Definition _check_conflicts (batch_apps : list str) (app_fps : list (str * list footprint)) : M world () :=
  let batch := batch_apps ≫= (λ app, pair app <$> default [] (OD.get app app_fps)) in
  scanned ← _scan_applied_footprints;
  let existing := filter (λ e, e.1 ∉ batch_apps) scanned in
  if any_clash batch existing then raise ApplyError else mret ().

(** The first loop of [cmd_apply]: the plan, the apps of the batch and their footprints *)
Fixpoint build_plan (paths : list str) (app_override : option str)
    (plan : list (str * item)) (batch_apps : list str) (app_fps : list (str * list footprint)) :
    M world (list (str * item) * list str * list (str * list footprint)) :=
  match paths with
  | [] => mret (plan, batch_apps, app_fps)
  | p :: rest =>
      let app_id := _app_id_from p app_override in
      if bool_decide (app_id ∈ batch_apps) then raise ApplyError else
      text ← read_text p;
      let blocks := parse_blocks text in
      if bool_decide (blocks = []) then raise ApplyError else
      fps ← of_result (parse_footprints text);
      build_plan rest app_override
        (plan ++ ((λ b, (b_file b, mkItem (b_anchor b) app_id (b_code b))) <$> blocks))
        (batch_apps ++ [app_id]) (OD.set app_id fps app_fps)
  end.

(** [by_file.setdefault(file, []).append(...)] *)
Definition group (plan : list (str * item)) : list (str * list item) :=
  foldl (λ d x, OD.set x.1 (default [] (OD.get x.1 d) ++ [x.2]) d) [] plan.

(** Pass 1: [None] when a file or an anchor is missing *)
Fixpoint validate (by_file : list (str * list item)) : M world (option (list (str * list str))) :=
  match by_file with
  | [] => mret (Some [])
  | (file, items) :: rest =>
      w ← get;
      if exists_file file w then
        t ← read_text file;
        let lines := splitlines t in
        r ← validate rest;
        mret (if forallb (λ it, bool_decide (is_Some (_find_anchor lines (i_anchor it)))) items
              then cons (file, lines) <$> r else None)
      else validate rest ;; mret None
  end.

(** The code of an item, with the footprints of its app below [runner_postload] *)
Definition fp_line (app : str) (fp : footprint) : str :=
  lit "# xmix:footprint " ++ app ++ lit " " ++ fp_flag fp ++ lit " " ++ fp_sub fp ++ lit " " ++ _layers_str (fp_layers fp).
Definition item_code (app_fps : list (str * list footprint)) (it : item) : list str :=
  if decide (i_anchor it = lit "runner_postload") then
    (fp_line (i_app it) <$> default [] (OD.get (i_app it) app_fps)) ++ i_code it
  else i_code it.

Fixpoint stack_items (app_fps : list (str * list footprint)) (items : list item) (lines : list str) : result (list str) :=
  match items with
  | [] => Ok lines
  | it :: rest =>
      match _insert_stacked lines (i_anchor it) (i_app it) (item_code app_fps it) with
      | Ok lines' => stack_items app_fps rest lines'
      | Raise e => Raise e
      end
  end.

(** Pass 2 *)
Definition write_all (app_fps : list (str * list footprint)) (batch_apps : list str) (dry_run : bool)
    (file_lines : list (str * list str)) (by_file : list (str * list item)) : M world () :=
  for_each by_file (λ x,
    lines ← of_result (stack_items app_fps x.2 (_strip_app_regions (default [] (OD.get x.1 file_lines)) (Some batch_apps)));
    if dry_run : bool then write_stdout ([10] ++ lit "===== " ++ x.1 ++ lit " (dry-run) =====" ++ [10] ++ to_text lines)
    else write_text x.1 (to_text lines)).

Definition cmd_apply (paths : list str) (app_override : option str) (dry_run : bool) : M world () :=
  x ← build_plan paths app_override [] [] [];
  let '(plan, batch_apps, app_fps) := x in
  _check_conflicts batch_apps app_fps ;;
  let by_file := group plan in
  v ← validate by_file;
  match v with
  | None => raise ApplyError
  | Some file_lines => write_all app_fps batch_apps dry_run file_lines by_file
  end.

(** [sorted({...})]: ascending by code points, without duplicates *)
Fixpoint str_le (a b : str) : bool :=
  match a, b with
  | [], _ => true
  | _ :: _, [] => false
  | x :: a', y :: b' => (x <? y) || (x =? y) && str_le a' b'
  end.
Definition sorted_set (l : list str) : list str := merge_sort (λ a b, Is_true (str_le a b)) (remove_dups l).

(** The files named by the synthesized files of [paths] *)
Fixpoint revert_files (paths : list str) : M world (list str) :=
  match paths with
  | [] => mret []
  | p :: rest => t ← read_text p; r ← revert_files rest; mret ((b_file <$> parse_blocks t) ++ r)
  end.

Definition revert_file (app_ids : option (list str)) (file : str) : M world () :=
  w ← get;
  if exists_file file w then
    t ← read_text file;
    let lines := splitlines t in
    let stripped := _strip_app_regions lines app_ids in
    if bool_decide (stripped = lines) then mret () else write_text file (to_text stripped)
  else mret ().

Definition cmd_revert (paths : list str) (app_override : option str) : M world () :=
  match paths with
  | [] =>
      let app_ids := match app_override with Some (c :: o) => Some [c :: o] | _ => None end in
      for_each anchor_files (revert_file app_ids)
  | _ =>
      fs ← revert_files paths;
      for_each (sorted_set fs) (revert_file (Some ((λ p, _app_id_from p app_override) <$> paths)))
  end.

(** [cmd_status]: file, line number, app and anchor of every block *)
Definition status_line (file : str) (i : nat) (line : str) : list str :=
  if is_begin line then
    [file ++ lit ":" ++ int_str (Z.of_nat i) ++ lit "  app=" ++ default (lit "?") (words (strip line) !! 2%nat) ++
     lit " anchor=" ++ default (lit "?") (words (strip line) !! 3%nat)]
  else [].
Fixpoint status_files (fs : list str) : M world (list str) :=
  match fs with
  | [] => mret []
  | f :: rest =>
      w ← get;
      if exists_file f w then
        t ← read_text f;
        r ← status_files rest;
        mret (concat (imap (λ i line, status_line f (S i) line) (splitlines t)) ++ r)
      else status_files rest
  end.
Definition cmd_status : M world () :=
  found ← status_files anchor_files;
  if bool_decide (found = []) then write_stdout (lit "no xmix blocks currently applied")
  else for_each found write_stdout.
End commands.

(** The files of the anchors of all models *)
Definition _all_anchor_files : list str := sorted_set (SPEC_models.*2 ≫= λ anchors, anchors.*2).

(** ** The structure of a file: lines and regions *)

Lemma begin_not_end l : is_begin l = true → is_end l = false.
Proof. unfold is_begin, is_end. intros [k ->]%startswith_spec. reflexivity. Qed.

(** The comment that marks an anchor *)
Definition is_anchor (l : str) : bool := startswith (lit "# xmix:anchor ") (strip l).

Lemma anchor_comment_is l a : strip l = _anchor_comment a → is_anchor l = true.
Proof. unfold is_anchor. intros ->. apply startswith_app. Qed.
Lemma begin_not_anchor l : is_begin l = true → is_anchor l = false.
Proof. unfold is_begin, is_anchor. intros [k ->]%startswith_spec. reflexivity. Qed.
Lemma end_not_anchor l : is_end l = true → is_anchor l = false.
Proof. unfold is_end, is_anchor. intros [k ->]%startswith_spec. reflexivity. Qed.
Lemma end_not_begin l : is_end l = true → is_begin l = false.
Proof. unfold is_end, is_begin. intros [k ->]%startswith_spec. reflexivity. Qed.
Lemma begin_not_blank l : is_begin l = true → is_blank l = false.
Proof. unfold is_begin, is_blank. intros [k ->]%startswith_spec. by apply bool_decide_false. Qed.

Definition clean_line (l : str) : Prop := is_begin l = false ∧ is_end l = false ∧ is_anchor l = false.

Inductive seg :=
  | Plain (l : str)
  | Region (b : str) (body : list str) (e : str).

Definition seg_lines (s : seg) : list str := match s with Plain l => [l] | Region b body e => b :: body ++ [e] end.
Definition flatten (segs : list seg) : list str := segs ≫= seg_lines.

Definition seg_ok (s : seg) : Prop :=
  match s with
  | Plain l => is_begin l = false ∧ is_end l = false
  | Region b body e => is_begin b = true ∧ Forall clean_line body ∧ is_end e = true
  end.
Definition seg_selected (ids : option (list str)) (s : seg) : bool :=
  match s with Plain _ => false | Region b _ _ => selected ids (begin_app b) end.
Definition kept_segs (ids : option (list str)) (segs : list seg) : list seg := filter (λ s, seg_selected ids s = false) segs.

Lemma flatten_cons s segs : flatten (s :: segs) = seg_lines s ++ flatten segs.
Proof. done. Qed.
Lemma flatten_app l l' : flatten (l ++ l') = flatten l ++ flatten l'.
Proof. apply bind_app. Qed.

Lemma strip_skip ids body e rest : Forall clean_line body → is_end e = true →
  strip_go ids true (body ++ e :: rest) = strip_go ids false rest.
Proof. intros Hb He. induction Hb as [|l body (_ & Hl & _) _ IH]; simpl; [by rewrite He|]. by rewrite Hl. Qed.

Lemma strip_keep ids body rest : Forall (λ l, is_begin l = false) body → strip_go ids false (body ++ rest) = body ++ strip_go ids false rest.
Proof. induction 1 as [|l body Hl _ IH]; simpl; [done|]. rewrite Hl. simpl. by rewrite IH. Qed.

(** Stripping removes exactly the selected regions. *)
Lemma strip_flatten ids segs : Forall seg_ok segs → _strip_app_regions (flatten segs) ids = flatten (kept_segs ids segs).
Proof.
  unfold _strip_app_regions, kept_segs. induction 1 as [|[l|b body e] segs Hs _ IH]; [done|..].
  - destruct Hs as [Hl _]. rewrite flatten_cons, filter_cons_True by done. rewrite flatten_cons. simpl. rewrite Hl. simpl. by rewrite IH.
  - destruct Hs as (Hb & Hbody & He). rewrite flatten_cons, filter_cons. simpl. rewrite Hb. simpl. rewrite <-app_assoc. simpl.
    destruct (selected ids (begin_app b)) eqn:Es.
    + rewrite decide_False by done. rewrite strip_skip by done. apply IH.
    + rewrite decide_True by done. rewrite flatten_cons. simpl. rewrite strip_keep by (eapply Forall_impl; [exact Hbody|]; by intros l (? & _)).
      simpl. rewrite end_not_begin by done. simpl. rewrite IH. by rewrite <-app_assoc.
Qed.

Lemma find_anchor_skip ls rest a : Forall (λ l, is_anchor l = false) ls →
  _find_anchor (ls ++ rest) a = (λ n, (length ls + n)%nat) <$> _find_anchor rest a.
Proof.
  induction 1 as [|l ls Hl _ IH]; simpl; [by destruct (_find_anchor rest a)|]. rewrite decide_False by (intros E%anchor_comment_is; congruence).
  rewrite IH. by destruct (_find_anchor rest a).
Qed.

Lemma region_no_anchor b body e : seg_ok (Region b body e) → Forall (λ l, is_anchor l = false) (seg_lines (Region b body e)).
Proof.
  intros (Hb & Hbody & He). constructor; [by apply begin_not_anchor|]. apply Forall_app. split; [|by repeat constructor; apply end_not_anchor].
  eapply Forall_impl; [exact Hbody|]. by intros l (_ & _ & ?).
Qed.

(** An anchor is found outside the regions. *)
Lemma find_anchor_flatten segs a idx : Forall seg_ok segs → _find_anchor (flatten segs) a = Some idx →
  ∃ pre l post, segs = pre ++ Plain l :: post ∧ idx = length (flatten pre) ∧ strip l = _anchor_comment a.
Proof.
  intros Hok. revert idx. induction Hok as [|s segs Hs Hsegs IH]; intros idx Hf; [done|].
  assert (∀ n, _find_anchor (flatten segs) a = Some n → idx = (length (seg_lines s) + n)%nat →
    ∃ pre l post, s :: segs = pre ++ Plain l :: post ∧ idx = length (flatten pre) ∧ strip l = _anchor_comment a) as Hnext.
  { intros n (pre & l & post & -> & -> & ?)%IH ->. exists (s :: pre), l, post. split_and!; [done| |done]. by rewrite flatten_cons, length_app. }
  rewrite flatten_cons in Hf. destruct s as [l|b body e].
  - simpl in Hf. case_decide as E; [|apply fmap_Some in Hf as (n & ? & ?); by apply (Hnext n)].
    injection Hf as <-. by exists [], l, segs.
  - rewrite find_anchor_skip in Hf by (by apply region_no_anchor). apply fmap_Some in Hf as (n & ? & ?). by apply (Hnext n).
Qed.

Lemma passed_inside body e rest : Forall clean_line body → is_end e = true →
  passed true (body ++ e :: rest) = (length body + 1 + passed false rest)%nat.
Proof. intros Hb He. induction Hb as [|l body (_ & Hl & _) _ IH]; simpl; [by rewrite He|]. rewrite Hl. simpl. by rewrite IH. Qed.

(** Segments the insertion point moves past *)
Definition passed_seg (s : seg) : bool := match s with Plain l => is_blank l | Region _ _ _ => true end.

Lemma passed_flatten segs : Forall seg_ok segs →
  ∃ skip rest, segs = skip ++ rest ∧ Forall (λ s, passed_seg s = true) skip ∧ passed false (flatten segs) = length (flatten skip) ∧
    (∀ s, head rest = Some s → passed_seg s = false).
Proof.
  induction 1 as [|s segs Hs _ (skip & rest & -> & Hskip & Hp & Hrest)]; [by exists [], []|].
  destruct (passed_seg s) eqn:Es.
  - exists (s :: skip), rest. split_and!; [done|by constructor| |done]. rewrite !flatten_cons, !length_app, <-Hp. destruct s as [l|b body e]; simpl in *.
    + by rewrite Es.
    + destruct Hs as (Hb & Hbody & He). rewrite begin_not_blank, Hb by done. rewrite <-app_assoc. simpl. rewrite passed_inside by done. rewrite length_app. simpl. lia.
  - exists [], (s :: skip ++ rest). split_and!; [done|constructor| |by intros ? [= <-]]. rewrite flatten_cons. destruct s as [l|]; [|done]. simpl in *.
    destruct Hs as [Hb _]. by rewrite Es, Hb.
Qed.

(** ** Inserting a block *)

(** An application name or an anchor that survives [split] *)
Definition good_name (s : str) : Prop := s ≠ [] ∧ no_space s.

Lemma good_name_last s : good_name s → ∃ k d, s = k ++ [d] ∧ is_space d = false.
Proof.
  intros [Hne Hs]. destruct (last s) as [d|] eqn:El; [|by apply last_None in El]. apply last_Some in El as [k ->]. exists k, d. split; [done|].
  apply Forall_app in Hs as [_ Hd]. by apply Forall_cons in Hd as [? _].
Qed.

(** A sentinel line: indentation, a word after [# ], the app and the anchor *)
Lemma sentinel_strip indent (c : Z) mark app anchor : all_space indent → is_space c = false → good_name anchor →
  strip (indent ++ (c :: mark) ++ app ++ lit " " ++ anchor) = (c :: mark) ++ app ++ lit " " ++ anchor.
Proof.
  intros Hi Hc (k & d & -> & Hd)%good_name_last. rewrite strip_indent by done. rewrite !app_assoc.
  by apply (strip_id c (((mark ++ app) ++ lit " ") ++ k) d).
Qed.

Section sentinels.
Context (indent app anchor : str) (Hi : all_space indent) (Happ : good_name app) (Hanchor : good_name anchor).

Lemma begin_line_spec : let l := indent ++ lit "# xmix:begin " ++ app ++ lit " " ++ anchor in is_begin l = true ∧ begin_app l = Some app.
Proof.
  intros l. assert (strip l = lit "# xmix:begin " ++ app ++ lit " " ++ anchor) as E by (by apply (sentinel_strip indent 35 (lit " xmix:begin "))).
  unfold is_begin, begin_app. rewrite E. split; [apply startswith_app|].
  change (lit "# xmix:begin " ++ app ++ lit " " ++ anchor) with (lit "#" ++ 32 :: lit "xmix:begin" ++ 32 :: app ++ 32 :: anchor).
  rewrite (words_cons (lit "#")), (words_cons (lit "xmix:begin")), (words_cons app), words_single; try (by repeat constructor); try apply Happ; apply Hanchor.
Qed.

Lemma end_line_spec : is_end (indent ++ lit "# xmix:end " ++ app ++ lit " " ++ anchor) = true.
Proof. unfold is_end. rewrite (sentinel_strip indent 35 (lit " xmix:end ")) by done. apply startswith_app. Qed.

Lemma body_clean code : Forall clean_line code → Forall clean_line ((λ cl, if is_blank cl then [] else indent ++ cl) <$> code).
Proof.
  intros Hc. apply Forall_fmap. eapply Forall_impl; [exact Hc|]. intros l Hl. simpl. destruct (is_blank l); [done|].
  unfold clean_line, is_begin, is_end, is_anchor in *. by rewrite strip_indent.
Qed.
End sentinels.

(** The new region *)
Definition new_region (l anchor app : str) (code : list str) : seg :=
  let indent := _indent_of l in
  Region (indent ++ lit "# xmix:begin " ++ app ++ lit " " ++ anchor)
    ((λ cl, if is_blank cl then [] else indent ++ cl) <$> code)
    (indent ++ lit "# xmix:end " ++ app ++ lit " " ++ anchor).

Lemma new_region_ok l anchor app code : good_name app → good_name anchor → Forall clean_line code → seg_ok (new_region l anchor app code).
Proof.
  intros Ha Hn Hc. pose proof (indent_all_space l) as Hi. split_and!.
  - by apply begin_line_spec.
  - by apply body_clean.
  - by apply end_line_spec.
Qed.

Lemma new_region_selected ids l anchor app code : good_name app → good_name anchor →
  seg_selected (Some ids) (new_region l anchor app code) = bool_decide (app ∈ ids).
Proof.
  intros Ha Hn. pose proof (indent_all_space l) as Hi. unfold new_region, seg_selected, selected.
  by destruct (begin_line_spec (_indent_of l) app anchor Hi Ha Hn) as [_ ->].
Qed.

Lemma insert_at pre l skip rest anchor app code :
  _find_anchor (flatten (pre ++ Plain l :: skip ++ rest)) anchor = Some (length (flatten pre)) →
  passed false (flatten (skip ++ rest)) = length (flatten skip) →
  _insert_stacked (flatten (pre ++ Plain l :: skip ++ rest)) anchor app code =
    Ok (flatten (pre ++ Plain l :: skip ++ new_region l anchor app code :: rest)).
Proof.
  intros Hf Hp. unfold _insert_stacked. rewrite Hf. cbv zeta.
  assert (flatten (pre ++ Plain l :: skip ++ rest) = (flatten pre ++ [l] ++ flatten skip) ++ flatten rest) as E.
  { rewrite flatten_app, flatten_cons, flatten_app. simpl. by rewrite <-app_assoc. }
  assert (flatten (pre ++ Plain l :: skip ++ rest) !!! length (flatten pre) = l) as El.
  { apply list_lookup_total_correct. rewrite flatten_app, lookup_app_r, Nat.sub_diag by lia. done. }
  assert (_insertion_point (flatten (pre ++ Plain l :: skip ++ rest)) (length (flatten pre)) = length (flatten pre ++ [l] ++ flatten skip)) as Ep.
  { unfold _insertion_point. rewrite flatten_app, flatten_cons. change (seg_lines (Plain l) ++ flatten (skip ++ rest)) with (l :: flatten (skip ++ rest)).
    rewrite drop_app_ge by lia. replace (length (flatten pre) + 1 - length (flatten pre))%nat with 1%nat by lia.
    change (drop 1 (l :: flatten (skip ++ rest))) with (flatten (skip ++ rest)). rewrite Hp, !length_app. cbn [length]. lia. }
  rewrite Ep, El, E, take_app_length, drop_app_length. rewrite flatten_app, flatten_cons, flatten_app, flatten_cons.
  change (seg_lines (Plain l)) with [l]. change (seg_lines (new_region l anchor app code)) with (render (_indent_of l) app anchor code).
  generalize (render (_indent_of l) app anchor code) as r. intros r. by rewrite <-!app_assoc.
Qed.

(** Inserting a block puts one region below the anchor and what is stacked there. *)
Lemma insert_flatten segs anchor app code lines' : Forall seg_ok segs → _insert_stacked (flatten segs) anchor app code = Ok lines' →
  ∃ pre l skip rest, segs = pre ++ Plain l :: skip ++ rest ∧
    lines' = flatten (pre ++ Plain l :: skip ++ new_region l anchor app code :: rest).
Proof.
  intros Hok E. destruct (_find_anchor (flatten segs) anchor) as [idx|] eqn:Ef; [|unfold _insert_stacked in E; by rewrite Ef in E].
  destruct (find_anchor_flatten segs anchor idx Hok Ef) as (pre & l & post & -> & -> & Hl).
  apply Forall_app in Hok as [_ [_ Hpost]%Forall_cons]. destruct (passed_flatten post Hpost) as (skip & rest & -> & _ & Hp & _).
  exists pre, l, skip, rest. split; [done|]. rewrite insert_at in E by done. congruence.
Qed.

(** ** Stacking the blocks of a batch *)

Definition item_ok (fps : list (str * list footprint)) (ids : list str) (it : item) : Prop :=
  good_name (i_app it) ∧ good_name (i_anchor it) ∧ i_app it ∈ ids ∧ Forall clean_line (item_code fps it) ∧ Forall no_break (item_code fps it).

Definition has_anchor (lines : list str) (anchor : str) : Prop := ∃ l, l ∈ lines ∧ strip l = _anchor_comment anchor.

Lemma find_anchor_has lines anchor : is_Some (_find_anchor lines anchor) ↔ has_anchor lines anchor.
Proof.
  unfold has_anchor. induction lines as [|l lines IH]; simpl; [split; [by intros [? ?]|by intros (l & ?%not_elem_of_nil & _)]|].
  case_decide as E; [split; [exists l; split; [left|done]|eauto]|]. rewrite fmap_is_Some, IH. setoid_rewrite elem_of_cons. naive_solver.
Qed.

Lemma insert_no_break lines anchor app code lines' : _insert_stacked lines anchor app code = Ok lines' → Forall no_break lines →
  good_name app → good_name anchor → Forall no_break code → Forall no_break lines'.
Proof.
  unfold _insert_stacked. destruct (_find_anchor lines anchor) as [idx|]; [|done]. intros E Hl [_ Ha] [_ Hn] Hc.
  apply (f_equal (λ r, match r with Ok x => x | Raise _ => [] end)) in E. cbv beta iota zeta in E. subst lines'.
  assert (no_break (_indent_of (lines !!! idx))) as Hi.
  { unfold _indent_of. apply Forall_take. destruct (lines !! idx) as [l|] eqn:El.
    - rewrite (list_lookup_total_correct _ _ _ El). rewrite Forall_forall in Hl. apply Hl. by eapply list_elem_of_lookup_2.
    - rewrite list_lookup_total_alt, El. constructor. }
  assert (∀ mark, no_break mark → no_break (_indent_of (lines !!! idx) ++ mark ++ app ++ lit " " ++ anchor)) as Hs.
  { intros mark Hm. rewrite !no_break_app. split_and!; [done|done|by apply no_space_no_break|by repeat constructor|by apply no_space_no_break]. }
  rewrite !Forall_app. split_and!; [by apply Forall_take| |by apply Forall_drop].
  unfold render. rewrite !Forall_app. split_and!.
  - constructor; [|constructor]. apply Hs. by repeat constructor.
  - apply Forall_fmap. eapply Forall_impl; [exact Hc|]. intros l Hl'. simpl. destruct (is_blank l); [constructor|]. by apply no_break_app.
  - constructor; [|constructor]. apply Hs. by repeat constructor.
Qed.

Lemma kept_segs_app ids l l' : kept_segs ids (l ++ l') = kept_segs ids l ++ kept_segs ids l'.
Proof. apply filter_app. Qed.

(** A line of code that is there, indented *)
Definition carries (lines : list str) (cl : str) : Prop := ∃ indent, all_space indent ∧ indent ++ cl ∈ lines.

(** One block: the anchor is found, the file without the apps of the batch is as before, and
    the code of the block is there. *)
Lemma insert_step fps ids it segs : Forall seg_ok segs → Forall no_break (flatten segs) → item_ok fps ids it → has_anchor (flatten segs) (i_anchor it) →
  ∃ segs', _insert_stacked (flatten segs) (i_anchor it) (i_app it) (item_code fps it) = Ok (flatten segs') ∧ Forall seg_ok segs' ∧
    Forall no_break (flatten segs') ∧ kept_segs (Some ids) segs' = kept_segs (Some ids) segs ∧ (∀ l, l ∈ flatten segs → l ∈ flatten segs') ∧
    (∀ cl, cl ∈ item_code fps it → is_blank cl = false → carries (flatten segs') cl).
Proof.
  intros Hok Hnb (Hg1 & Hg2 & Hin & Hc & Hcb) Hanchor. apply find_anchor_has in Hanchor as [idx Hf].
  destruct (_insert_stacked (flatten segs) (i_anchor it) (i_app it) (item_code fps it)) as [lines'|ex] eqn:E; [|unfold _insert_stacked in E; by rewrite Hf in E].
  destruct (insert_flatten segs _ _ _ _ Hok E) as (pre & l & skip & rest & -> & ->).
  exists (pre ++ Plain l :: skip ++ new_region l (i_anchor it) (i_app it) (item_code fps it) :: rest). split_and!; [done| |by eapply insert_no_break| | |].
  - rewrite !Forall_app, !Forall_cons, !Forall_app, !Forall_cons in *. destruct Hok as (? & ? & ? & ?). split_and!; try done. by apply new_region_ok.
  - rewrite !kept_segs_app. f_equal. rewrite !(app_comm_cons _ _ (Plain l)). rewrite !kept_segs_app. f_equal. unfold kept_segs.
    rewrite filter_cons_False; [done|]. rewrite new_region_selected by done. by rewrite bool_decide_true.
  - intros x. rewrite !flatten_app, !flatten_cons, !flatten_app, !flatten_cons, !elem_of_app. tauto.
  - intros cl Hcl Hb. exists (_indent_of l). split; [apply indent_all_space|]. rewrite flatten_app, flatten_cons, flatten_app, flatten_cons, !elem_of_app.
    do 3 right. left. unfold new_region. cbn [seg_lines]. apply elem_of_cons. right. apply elem_of_app. left. apply list_elem_of_fmap. exists cl. by rewrite Hb.
Qed.

Lemma stack_flatten fps ids items : ∀ segs, Forall seg_ok segs → Forall no_break (flatten segs) → Forall (item_ok fps ids) items →
  Forall (λ it, has_anchor (flatten segs) (i_anchor it)) items →
  ∃ segs', stack_items fps items (flatten segs) = Ok (flatten segs') ∧ Forall seg_ok segs' ∧ Forall no_break (flatten segs') ∧
    kept_segs (Some ids) segs' = kept_segs (Some ids) segs ∧ (∀ l, l ∈ flatten segs → l ∈ flatten segs') ∧
    (∀ it cl, it ∈ items → cl ∈ item_code fps it → is_blank cl = false → carries (flatten segs') cl).
Proof.
  induction items as [|it items IH]; intros segs Hok Hnb Hit Han; [exists segs; split_and!; try done; by intros ? ? ?%not_elem_of_nil|]. apply Forall_cons in Hit as [Hit Hits], Han as [Han Hans].
  destruct (insert_step fps ids it segs Hok Hnb Hit Han) as (segs1 & E1 & Hok1 & Hnb1 & Hk1 & Hsub & Hc). cbn [stack_items]. rewrite E1.
  destruct (IH segs1 Hok1 Hnb1 Hits) as (segs' & E' & ? & ? & Hk' & Hsub' & Hc').
  - eapply Forall_impl; [exact Hans|]. intros it' (l & Hl & ?). exists l. eauto.
  - exists segs'. split_and!; [done|done|done|by rewrite Hk'|by auto|]. intros it' cl [->|Hin]%elem_of_cons Hcl Hb; [|by eapply Hc'].
    destruct (Hc cl Hcl Hb) as (indent & ? & ?). exists indent. auto.
Qed.

Lemma flatten_elem l segs : l ∈ flatten segs ↔ ∃ s, s ∈ segs ∧ l ∈ seg_lines s.
Proof. unfold flatten. rewrite list_elem_of_bind. naive_solver. Qed.

(** Anchors are not lost when regions are stripped. *)
Lemma strip_has_anchor segs ids anchor : Forall seg_ok segs → has_anchor (flatten segs) anchor → has_anchor (flatten (kept_segs ids segs)) anchor.
Proof.
  intros Hok Ha. apply find_anchor_has in Ha as [idx Hf]. destruct (find_anchor_flatten segs anchor idx Hok Hf) as (pre & l & post & -> & _ & Hl).
  exists l. split; [|done]. rewrite kept_segs_app, flatten_app, elem_of_app. right. unfold kept_segs. rewrite filter_cons_True by done. left.
Qed.

Lemma kept_segs_ok ids segs : Forall seg_ok segs → Forall seg_ok (kept_segs ids segs).
Proof. intros Hok. rewrite Forall_forall in *. intros s [_ ?]%list_elem_of_filter. by apply Hok. Qed.

Lemma kept_segs_lines ids segs l : l ∈ flatten (kept_segs ids segs) → l ∈ flatten segs.
Proof. rewrite !flatten_elem. intros (s & [_ ?]%list_elem_of_filter & ?). eauto. Qed.

Lemma kept_segs_idemp ids segs : kept_segs ids (kept_segs ids segs) = kept_segs ids segs.
Proof. unfold kept_segs. apply filter_id. by intros s [? _]%list_elem_of_filter. Qed.

(** ** What the synthesized file gives *)

Lemma apply_re_names s f a : apply_re s = Some (f, a) → good_name f ∧ good_name a.
Proof.
  unfold apply_re. intros H. repeat (apply bind_Some in H as (? & ? & H); try case_match); try done. simplify_eq.
  repeat match goal with H : token _ = Some _ |- _ => apply token_spec in H as (_ & ? & ?) end. by repeat split.
Qed.

Lemma footprint_re_names s fl sub sp : footprint_re s = Some (fl, sub, sp) → good_name fl ∧ good_name sub ∧ good_name sp.
Proof.
  unfold footprint_re. intros H. repeat (apply bind_Some in H as (? & ? & H); try case_match). simplify_eq.
  repeat match goal with H : token _ = Some _ |- _ => apply token_spec in H as (_ & ? & ?) end. by repeat split.
Qed.

Lemma collect_spec lines : ∀ cur, Forall no_break lines →
  match cur with Some (f, a, c) => good_name a ∧ Forall no_break c | None => True end →
  Forall (λ b, good_name (b_anchor b) ∧ Forall no_break (b_code b)) (collect lines cur).
Proof.
  induction lines as [|l lines IH]; intros cur Hl Hcur.
  { destruct cur as [[[f a] c]|]; simpl; [|constructor]. destruct Hcur. constructor; [|constructor]. split; [done|]. by apply Forall_reverse. }
  apply Forall_cons in Hl as [Hl Hls]. cbn [collect]. destruct (apply_re (strip l)) as [[f a]|] eqn:E.
  - apply apply_re_names in E as [_ Ha]. apply Forall_app. split; [|by apply IH].
    destruct cur as [[[f' a'] c]|]; [|constructor]. destruct Hcur. constructor; [|constructor]. split; [done|]. by apply Forall_reverse.
  - destruct cur as [[[f' a'] c]|]; [|by apply IH]. destruct Hcur. destruct (_is_meta l); [by apply IH|]. apply IH; [done|]. split; [done|by constructor].
Qed.

Lemma drop_blank_sub lines l : l ∈ drop_blank lines → l ∈ lines.
Proof. induction lines as [|l' lines IH]; simpl; [done|]. destruct (is_blank l'); [intros ?; right; auto|done]. Qed.

Lemma trim_blank_sub lines l : l ∈ _trim_blank lines → l ∈ lines.
Proof. unfold _trim_blank. rewrite elem_of_reverse. intros H%drop_blank_sub. rewrite elem_of_reverse in H. by apply drop_blank_sub. Qed.

Lemma parse_blocks_spec text b : b ∈ parse_blocks text → good_name (b_anchor b) ∧ Forall no_break (b_code b).
Proof.
  unfold parse_blocks. rewrite list_elem_of_filter. intros [_ (b' & -> & Hb)%list_elem_of_fmap].
  pose proof (collect_spec (splitlines text) None (splitlines_no_break text) I) as H. rewrite Forall_forall in H. destruct (H b' Hb) as [? Hc].
  split; [done|]. rewrite Forall_forall in *. intros l Hl. apply Hc. by apply trim_blank_sub.
Qed.

Definition fp_ok (fp : footprint) : Prop := no_break (fp_flag fp) ∧ no_break (fp_sub fp).
Definition fps_ok (fps : list (str * list footprint)) : Prop := ∀ app l, OD.get app fps = Some l → Forall fp_ok l.

Lemma parse_footprints_ok lines l : parse_footprints_lines lines = Ok l → Forall fp_ok l.
Proof.
  revert l. induction lines as [|x lines IH]; simpl; intros l E; [simplify_eq; constructor|].
  destruct (footprint_re (strip x)) as [[[fl sub] sp]|] eqn:Ef; [|auto]. apply footprint_re_names in Ef as ([_ ?] & [_ ?] & _).
  repeat (case_match; try done). simplify_eq. constructor; [|by apply IH]. split; by apply no_space_no_break.
Qed.

Lemma layers_str_no_break lay : no_break (_layers_str lay).
Proof.
  destruct lay as [s|]; simpl; [|by repeat constructor]. apply join_no_break; [by repeat constructor|]. apply Forall_fmap.
  apply Forall_forall. intros z _. apply int_str_no_break.
Qed.

Lemma fp_line_ok app fp : no_break app → fp_ok fp → clean_line (fp_line app fp) ∧ no_break (fp_line app fp).
Proof.
  intros Ha [Hf Hs]. split.
  - assert (∀ k, lstrip (lit "# xmix:footprint " ++ k) = lit "# xmix:footprint " ++ k) as E by reflexivity.
    unfold clean_line, is_begin, is_end, is_anchor, strip, fp_line. rewrite E.
    split_and!; apply not_true_is_false; intros H%startswith_rstrip; by vm_compute in H.
  - unfold fp_line. rewrite !no_break_app. split_and!; try done; try (by repeat constructor). apply layers_str_no_break.
Qed.

Lemma item_code_ok fps it : good_name (i_app it) → fps_ok fps → Forall clean_line (i_code it) → Forall no_break (i_code it) →
  Forall clean_line (item_code fps it) ∧ Forall no_break (item_code fps it).
Proof.
  intros [_ Ha%no_space_no_break] Hf Hc Hb. unfold item_code. case_decide; [|done]. rewrite !Forall_app, !Forall_fmap.
  assert (Forall fp_ok (default [] (OD.get (i_app it) fps))) as Hok.
  { destruct (OD.get (i_app it) fps) as [l|] eqn:E; [by eapply Hf|constructor]. }
  split; (split; [|done]); (eapply Forall_impl; [exact Hok|]); intros fp Hfp; by apply fp_line_ok.
Qed.

(** Grouping keeps every item with its file. *)
Lemma group_spec plan : NoDup (group plan).*1 ∧ (∀ f, f ∈ (group plan).*1 ↔ f ∈ plan.*1) ∧
  (∀ f items, (f, items) ∈ group plan → items ≠ [] ∧ ∀ it, it ∈ items → (f, it) ∈ plan).
Proof.
  unfold group. induction plan as [|[f it] plan IH] using rev_ind; [simpl; split_and!; [constructor|done|by intros ? ? ?%not_elem_of_nil]|].
  rewrite foldl_snoc. set (d := foldl _ [] plan) in *. destruct IH as (H1 & H2 & H3). split_and!.
  - by apply OD.NoDup_keys_set.
  - intros f'. rewrite OD.keys_set, fmap_app, elem_of_app. csimpl. rewrite list_elem_of_singleton. case_decide as Hf; [|rewrite elem_of_app, list_elem_of_singleton]; rewrite H2 in *; naive_solver.
  - intros f' items. rewrite OD.elem_of_set by done. cbn [fst snd]. intros [[-> ->]|[Hne Hin]].
    + split; [by destruct (default _ _)|]. intros it'. rewrite elem_of_app, list_elem_of_singleton, elem_of_app. intros [Hit| ->]; [|right; left]. left.
      destruct (OD.get f d) as [l|] eqn:El; [|by apply not_elem_of_nil in Hit]. apply OD.get_Some in El; [|done]. by apply (H3 f l).
    + destruct (H3 f' items Hin) as [? Hit]. split; [done|]. intros it' ?. rewrite elem_of_app. left. by apply Hit.
Qed.

(** ** The commands *)

(** Computations that only read *)
Definition read_only {A} (c : M world A) : Prop := ∀ w, (c w).2 = w.

Lemma read_only_bind {A B} (c : M world A) (f : A → M world B) : read_only c → (∀ a, read_only (f a)) → read_only (c ≫= f).
Proof. intros Hc Hf w. unfold mbind, M_bind. pose proof (Hc w). destruct (c w) as [[a|e] w']; simpl in *; subst; [apply Hf|done]. Qed.
Lemma read_only_ret {A} (a : A) : read_only (mret a).
Proof. done. Qed.
Lemma read_only_raise {A} e : read_only (raise (A := A) e).
Proof. done. Qed.
Lemma read_only_get : read_only get.
Proof. done. Qed.
Lemma read_only_result {A} (r : result A) : read_only (of_result r).
Proof. by destruct r. Qed.
#[local] Hint Resolve read_only_bind read_only_ret read_only_raise read_only_get read_only_result : py.

Lemma read_only_read_text p : read_only (read_text p).
Proof. apply read_only_bind; [done|]. intros w. destruct (files w !! p); auto with py. Qed.
#[local] Hint Resolve read_only_read_text : py.

Lemma read_only_scan fs : read_only (scan_files fs).
Proof. induction fs as [|f fs IH]; simpl; auto with py. apply read_only_bind; [done|]. intros w. destruct (exists_file f w); auto 10 with py. Qed.

Lemma read_only_check anchor_files apps fps : read_only (_check_conflicts anchor_files apps fps).
Proof. apply read_only_bind; [apply read_only_scan|]. intros l. cbv zeta. case_match; auto with py. Qed.

Lemma read_only_build paths ov : ∀ plan apps fps, read_only (build_plan paths ov plan apps fps).
Proof.
  induction paths as [|p paths IH]; intros plan apps fps; cbn [build_plan]; [auto with py|]. case_bool_decide; [auto with py|].
  apply read_only_bind; [auto with py|]. intros t. case_bool_decide; auto with py.
Qed.

Lemma read_only_validate bf : read_only (validate bf).
Proof.
  induction bf as [|[f items] bf IH]; simpl; [auto with py|]. apply read_only_bind; [done|]. intros w. destruct (exists_file f w); auto 10 with py.
Qed.

Lemma read_only_run {A} (c : M world A) w r w' : read_only c → c w = (r, w') → w' = w.
Proof. intros H E. specialize (H w). by rewrite E in H. Qed.

(** The content of a file as the commands see it *)
Definition text (w : world) (p : str) : str := default [] (universal_newlines <$> files w !! p).
Definition lines_of (w : world) (p : str) : list str := splitlines (text w p).

Lemma read_text_run p w : is_Some (files w !! p) → read_text p w = (Ok (text w p), w).
Proof. intros [t E]. unfold read_text, mbind, M_bind, get, text. by rewrite E. Qed.

Lemma read_text_ok p w t w' : read_text p w = (Ok t, w') → w' = w ∧ t = text w p ∧ is_Some (files w !! p).
Proof. unfold read_text, mbind, M_bind, get, text. destruct (files w !! p) as [x|]; [|done]. intros [= <- <-]. eauto. Qed.

Abbreviation app_of := (λ p, _app_id_from p None).
Definition plan_of (w : world) (paths : list str) : list (str * item) :=
  paths ≫= λ p, (λ b, (b_file b, mkItem (b_anchor b) (app_of p) (b_code b))) <$> parse_blocks (text w p).

Lemma fps_ok_set app l fps : Forall fp_ok l → fps_ok fps → fps_ok (OD.set app l fps).
Proof. intros Hl Hf app' l'. rewrite OD.get_set. case_decide; [by intros [= <-]|apply Hf]. Qed.

Lemma build_plan_run paths : ∀ plan apps fps w r w', build_plan paths None plan apps fps w = (Ok r, w') → fps_ok fps →
  w' = w ∧ r.1.1 = plan ++ plan_of w paths ∧ r.1.2 = apps ++ (app_of <$> paths) ∧ fps_ok r.2 ∧ (∀ p, p ∈ paths → is_Some (files w !! p)).
Proof.
  induction paths as [|p paths IH]; intros plan apps fps w r w' Hrun Hf; cbn [build_plan] in Hrun.
  { injection Hrun as <- <-. simpl. rewrite !app_nil_r. split_and!; try done. by intros p ?%not_elem_of_nil. }
  case_bool_decide; [done|]. apply bind_ok in Hrun as (t & w1 & (-> & -> & Hp)%read_text_ok & Hrun). case_bool_decide; [done|].
  apply bind_ok in Hrun as (l & w1 & Hl & Hrun). destruct (parse_footprints (text w p)) as [l'|e] eqn:Ef; [|done]. injection Hl as <- <-.
  apply IH in Hrun as (-> & -> & -> & ? & Hps); [|by eapply fps_ok_set, Hf; eapply parse_footprints_ok]. split_and!; try done.
  - unfold plan_of. by rewrite bind_cons, <-app_assoc.
  - by rewrite <-app_assoc.
  - intros p' [->|?]%elem_of_cons; auto.
Qed.

Lemma validate_run bf : ∀ w fl w', validate bf w = (Ok (Some fl), w') → w' = w ∧ fl = (λ x, (x.1, lines_of w x.1)) <$> bf ∧
  (∀ f items, (f, items) ∈ bf → is_Some (files w !! f) ∧ Forall (λ it, has_anchor (lines_of w f) (i_anchor it)) items).
Proof.
  induction bf as [|[f items] bf IH]; intros w fl w' Hrun; cbn [validate] in Hrun.
  { injection Hrun as <- <-. split_and!; try done. by intros ? ? ?%not_elem_of_nil. }
  apply bind_ok in Hrun as (w1 & w2 & E & Hrun). injection E as <- <-. destruct (exists_file f w) eqn:Ex.
  2: { apply bind_ok in Hrun as (? & ? & _ & [=]). }
  apply bind_ok in Hrun as (t & w1 & (-> & -> & Hp)%read_text_ok & Hrun). apply bind_ok in Hrun as (v & w1 & Hv & Hrun).
  injection Hrun as Hfl <-. destruct (forallb _ items) eqn:Ha; [|done]. destruct v as [fl'|]; [|done]. injection Hfl as <-.
  apply IH in Hv as (-> & -> & Hbf). split_and!; [done|done|]. intros f' items' [[= -> ->]|?]%elem_of_cons; [|by apply Hbf]. split; [done|].
  rewrite Forall_forall. intros it Hit. rewrite forallb_forall in Ha. apply find_anchor_has.
  apply (bool_decide_eq_true_1 _ (Ha it (proj1 (list_elem_of_In _ _) Hit))).
Qed.

(** Every block is delimited by its own sentinels and holds no other sentinel or anchor. *)
Definition well_formed (lines : list str) : Prop := ∃ segs, lines = flatten segs ∧ Forall seg_ok segs.

Lemma lines_of_no_break w f : Forall no_break (lines_of w f).
Proof. apply splitlines_no_break. Qed.

Lemma apply_lines fps ids items lines : well_formed lines → Forall no_break lines → items ≠ [] → Forall (item_ok fps ids) items →
  Forall (λ it, has_anchor lines (i_anchor it)) items →
  ∃ lines', stack_items fps items (_strip_app_regions lines (Some ids)) = Ok lines' ∧ lines' ≠ [] ∧ Forall no_break lines' ∧ well_formed lines' ∧
    _strip_app_regions lines' (Some ids) = _strip_app_regions lines (Some ids) ∧
    (∀ it cl, it ∈ items → cl ∈ item_code fps it → is_blank cl = false → carries lines' cl).
Proof.
  intros (segs & -> & Hok) Hnb Hne Hit Han. rewrite strip_flatten by done. pose proof (kept_segs_ok (Some ids) segs Hok) as Hok1.
  destruct (stack_flatten fps ids items (kept_segs (Some ids) segs) Hok1) as (segs' & E & Hok' & Hnb' & Hk & _ & Hcode).
  - rewrite Forall_forall in *. intros l Hl. by apply Hnb, (kept_segs_lines (Some ids)).
  - done.
  - eapply Forall_impl; [exact Han|]. intros it. by apply strip_has_anchor.
  - exists (flatten segs'). split_and!; [done| |done|by exists segs'|by rewrite strip_flatten, Hk, kept_segs_idemp|exact Hcode].
    destruct items as [|it items]; [done|]. intros Enil. cbn [stack_items] in E. apply Forall_cons in Hit as [Hit Hits], Han as [Han Hans].
    destruct (insert_step fps ids it (kept_segs (Some ids) segs) Hok1) as (s1 & E1 & Hok2 & Hnb2 & _ & Hsub & _).
    + rewrite Forall_forall in *. intros l Hl. by apply Hnb, (kept_segs_lines (Some ids)).
    + done.
    + by apply strip_has_anchor.
    + assert (∀ items s, stack_items fps items s = Ok (flatten segs') → Forall (item_ok fps ids) items → s ≠ [] → flatten segs' ≠ []) as Hgrow.
      { clear. induction items as [|it items IH]; intros s E Hit Hs; cbn [stack_items] in E; [congruence|]. apply Forall_cons in Hit as [_ Hits].
        destruct (_insert_stacked s _ _ _) as [s'|] eqn:E'; [|done]. apply (IH s' E Hits). unfold _insert_stacked in E'.
        destruct (_find_anchor s _) as [idx|]; [|done]. apply (f_equal (λ r, match r with Ok x => length x | Raise _ => O end)) in E'.
        cbv beta iota zeta in E'. intros ->. rewrite !length_app in E'. simpl in E'. lia. }
      rewrite E1 in E. apply (Hgrow items (flatten s1) E Hits); [|done]. destruct (strip_has_anchor segs (Some ids) (i_anchor it) Hok Han) as (l & Hl & _).
      intros E0. specialize (Hsub l Hl). rewrite E0 in Hsub. by apply not_elem_of_nil in Hsub.
Qed.

(** What an applied file looks like *)
Definition applied (w : world) (ids : list str) (fps : list (str * list footprint)) (bf : list (str * list item)) (f : str) (w' : world) : Prop :=
  ∃ lines', files w' !! f = Some (to_text lines') ∧ lines' ≠ [] ∧ Forall no_break lines' ∧ well_formed lines' ∧
    _strip_app_regions lines' (Some ids) = _strip_app_regions (lines_of w f) (Some ids) ∧
    (∀ items it cl, (f, items) ∈ bf → it ∈ items → cl ∈ item_code fps it → is_blank cl = false → carries lines' cl).

Lemma wp_write_all fps ids fl bf w : NoDup bf.*1 → fl = (λ x, (x.1, lines_of w x.1)) <$> bf →
  (∀ f items, (f, items) ∈ bf → items ≠ [] ∧ well_formed (lines_of w f) ∧ Forall (item_ok fps ids) items ∧
     Forall (λ it, has_anchor (lines_of w f) (i_anchor it)) items) →
  wp (write_all fps ids false fl bf) w (λ _ w', stdout w' = stdout w ∧ (∀ f, f ∉ bf.*1 → files w' !! f = files w !! f) ∧
    (∀ f, f ∈ bf.*1 → applied w ids fps bf f w')).
Proof.
  intros Hnd -> Hbf. unfold write_all.
  apply wp_for_each with (I := λ done w', stdout w' = stdout w ∧ (∀ f, f ∉ done.*1 → files w' !! f = files w !! f) ∧ (∀ f, f ∈ done.*1 → applied w ids fps bf f w')).
  - split_and!; [done|done|by intros f ?%not_elem_of_nil].
  - intros done [f items] rest w' Hsplit (Hout & Hother & Hdone). assert ((f, items) ∈ bf) as Hin by (rewrite Hsplit; set_solver).
    destruct (Hbf f items Hin) as (Hne & Hwf & Hit & Han). cbn [fst snd].
    assert (OD.get f ((λ x, (x.1, lines_of w x.1)) <$> bf) = Some (lines_of w f)) as ->.
    { apply OD.get_Some; [by rewrite <-list_fmap_compose|]. apply list_elem_of_fmap. by exists (f, items). }
    destruct (apply_lines fps ids items (lines_of w f) Hwf (lines_of_no_break w f) Hne Hit Han) as (lines' & E & ? & ? & ? & ? & Hcode).
    cbn [default]. unfold id. rewrite E. apply wp_bind, wp_ret. unfold write_text. apply wp_modify. cbn [files stdout]. split_and!; [done| |].
    + intros f'. rewrite fmap_app, not_elem_of_app. csimpl. intros [? Hne']. rewrite lookup_insert_ne; [by apply Hother|]. set_solver.
    + intros f'. rewrite fmap_app, elem_of_app. csimpl. rewrite list_elem_of_singleton. intros [Hf'| ->].
      * destruct (Hdone f' Hf') as (l' & ? & ?). exists l'. cbn [files]. rewrite lookup_insert_ne; [done|]. intros ->. rewrite Hsplit, fmap_app in Hnd.
        apply NoDup_app in Hnd as (_ & Hd & _). apply (Hd f' Hf'). left.
      * exists lines'. cbn [files]. rewrite lookup_insert_eq. split_and!; try done. intros items' it cl Hin'. assert (items' = items) as ->; [|by apply Hcode].
        apply OD.get_Some in Hin, Hin'; [|done..]. congruence.
  - done.
Qed.

(** The names and blocks of the synthesized files can be told apart from sentinels. *)
Definition synth_ok (w : world) (paths : list str) : Prop :=
  ∀ p, p ∈ paths → good_name (app_of p) ∧ ∀ b, b ∈ parse_blocks (text w p) → Forall clean_line (b_code b).
(** The files the blocks go to *)
Definition targets (w : world) (paths : list str) : list str := (plan_of w paths).*1.

Lemma plan_of_elem w paths f it : (f, it) ∈ plan_of w paths ↔
  ∃ p b, p ∈ paths ∧ b ∈ parse_blocks (text w p) ∧ f = b_file b ∧ it = mkItem (b_anchor b) (app_of p) (b_code b).
Proof.
  unfold plan_of. rewrite list_elem_of_bind. split.
  - intros (p & Hin & Hp). apply list_elem_of_fmap in Hin as (b & [= -> ->] & Hb). eauto 6.
  - intros (p & b & Hp & Hb & -> & ->). exists p. split; [|done]. apply list_elem_of_fmap. eauto.
Qed.

Lemma plan_items_ok w paths fps f it : synth_ok w paths → fps_ok fps → (f, it) ∈ plan_of w paths → item_ok fps (app_of <$> paths) it.
Proof.
  intros Hs Hf (p & b & Hp & Hb & -> & ->)%plan_of_elem. destruct (Hs p Hp) as [Hg Hc]. destruct (parse_blocks_spec _ _ Hb) as [Ha Hnb].
  specialize (Hc b Hb). destruct (item_code_ok fps (mkItem (b_anchor b) (app_of p) (b_code b)) Hg Hf Hc Hnb). split_and!; try done. simpl. apply list_elem_of_fmap. eauto.
Qed.

Lemma cmd_apply_run anchor_files paths w : synth_ok w paths → (∀ f, f ∈ targets w paths → well_formed (lines_of w f)) →
  (∃ e, cmd_apply anchor_files paths None false w = (Raise e, w)) ∨
  (∃ w' fps, cmd_apply anchor_files paths None false w = (Ok (), w') ∧ (∀ p, p ∈ paths → is_Some (files w !! p)) ∧
     stdout w' = stdout w ∧ (∀ f, f ∉ targets w paths → files w' !! f = files w !! f) ∧
     (∀ f, f ∈ targets w paths → is_Some (files w !! f) ∧ applied w (app_of <$> paths) fps (group (plan_of w paths)) f w') ∧
     build_plan paths None [] [] [] w = (Ok (plan_of w paths, app_of <$> paths, fps), w)).
Proof.
  intros Hs Hwf. destruct (cmd_apply anchor_files paths None false w) as [r w'] eqn:Erun. unfold cmd_apply in Erun.
  unfold mbind at 1, M_bind at 1 in Erun. pose proof (read_only_build paths None [] [] [] w) as Hb.
  destruct (build_plan paths None [] [] [] w) as [[[[plan apps] fps]|e] w1] eqn:Eb; simpl in Hb; subst w1; [|injection Erun as <- <-; left; by eexists].
  apply build_plan_run in Eb as (_ & Hplan & Happs & Hfps & Hex); [|by intros ? ?]. cbn [fst snd] in Hplan, Happs, Hfps.
  rewrite app_nil_l in Hplan, Happs. subst plan apps.
  unfold mbind at 1, M_bind at 1 in Erun. pose proof (read_only_check anchor_files (app_of <$> paths) fps w) as Hc.
  destruct (_check_conflicts anchor_files (app_of <$> paths) fps w) as [[[]|e] w1]; simpl in Hc; subst w1; [|injection Erun as <- <-; left; by eexists].
  cbv zeta in Erun. unfold mbind at 1, M_bind at 1 in Erun. pose proof (read_only_validate (group (plan_of w paths)) w) as Hv.
  destruct (validate (group (plan_of w paths)) w) as [[[fl|]|e] w1] eqn:Ev; simpl in Hv; subst w1; [|injection Erun as <- <-; left; by eexists..].
  apply validate_run in Ev as (_ & Hfl & Han). destruct (group_spec (plan_of w paths)) as (Hnd & Hkeys & Hitems). right.
  pose proof (wp_write_all fps (app_of <$> paths) fl (group (plan_of w paths)) w Hnd Hfl) as Hwp.
  match type of Hwp with ?P → _ => assert P as Hpre end.
  { intros f items Hin. destruct (Hitems f items Hin) as [Hne Hit], (Han f items Hin) as [_ Ha]. split_and!; [done| | |done].
    - apply Hwf. unfold targets. rewrite <-Hkeys. apply list_elem_of_fmap. by exists (f, items).
    - rewrite Forall_forall. intros it ?. by eapply plan_items_ok, Hit. }
  apply Hwp, wp_ok in Hpre as ([] & w2 & Hrun & Hout & Hoth & Happ). rewrite Hrun in Erun. injection Erun as <- <-.
  exists w2, fps. unfold targets. split_and!; [done|done|done|..|done].
  - intros f Hf. apply Hoth. by rewrite Hkeys.
  - intros f Hf. rewrite <-Hkeys in Hf. split; [|by apply Happ]. apply list_elem_of_fmap in Hf as ([f' items] & -> & Hin). by apply (Han f' items).
Qed.

(** *** Reverting *)

Lemma revert_files_run paths w : (∀ p, p ∈ paths → is_Some (files w !! p)) → revert_files paths w = (Ok (targets w paths), w).
Proof.
  unfold targets, plan_of. induction paths as [|p paths IH]; intros Hex; [done|]. cbn [revert_files]. unfold mbind, M_bind.
  rewrite read_text_run by (apply Hex; left). rewrite IH by (intros; apply Hex; by right). unfold mret, M_ret. f_equal. f_equal.
  rewrite bind_cons, fmap_app. f_equal. by rewrite <-list_fmap_compose.
Qed.

Lemma sorted_set_elem l x : x ∈ sorted_set l ↔ x ∈ l.
Proof. unfold sorted_set. rewrite merge_sort_Permutation. apply elem_of_remove_dups. Qed.

(** A source file as an editor leaves it, without blocks of the apps [ids] *)
Definition source_file (ids : list str) (t : str) : Prop :=
  ∃ segs, t = to_text (flatten segs) ∧ flatten segs ≠ [] ∧ Forall no_break (flatten segs) ∧ Forall seg_ok segs ∧
    Forall (λ s, seg_selected (Some ids) s = false) segs.

Lemma source_file_spec ids w f t : files w !! f = Some t → source_file ids t →
  well_formed (lines_of w f) ∧ t = to_text (lines_of w f) ∧ _strip_app_regions (lines_of w f) (Some ids) = lines_of w f.
Proof.
  intros E (segs & -> & Hne & Hnb & Hok & Hsel). assert (lines_of w f = flatten segs) as El.
  { unfold lines_of, text. rewrite E. simpl. by apply read_written. }
  rewrite El. split_and!; [by exists segs|done|]. rewrite strip_flatten by done. f_equal. unfold kept_segs. apply filter_id. by apply Forall_forall.
Qed.

Lemma wp_revert_file ids f w lines : files w !! f = Some (to_text lines) → lines ≠ [] → Forall no_break lines →
  wp (revert_file (Some ids) f) w (λ _ w', stdout w' = stdout w ∧ files w' = <[f := to_text (_strip_app_regions lines (Some ids))]> (files w)).
Proof.
  intros E Hne Hnb. unfold revert_file. apply wp_bind, wp_gets. unfold exists_file. rewrite bool_decide_true by (by rewrite E).
  unfold wp, mbind, M_bind. rewrite read_text_run by (by rewrite E). unfold text. rewrite E. simpl. rewrite read_written by done.
  case_bool_decide as Es; simpl; (split; [done|]).
  - rewrite Es. symmetry. by apply insert_id.
  - done.
Qed.

(** ** Claims *)

(** C22. [apply] is all or nothing, when the application names hold no white space, the
    blocks no sentinels or anchors, and the blocks already in the target files are
    delimited and hold no anchors: a call then either raises and leaves every file as it
    was, or succeeds.  If it succeeds it touches only the target files; each of them is
    written with a line feed after every line, and its lines, without the blocks of the
    batch, are the lines it had without them, blocks of other applications included (line
    ends and other separators of [splitlines] are not kept). *)
Theorem apply_all_or_nothing anchor_files paths w :
  synth_ok w paths → (∀ f, f ∈ targets w paths → well_formed (lines_of w f)) →
  (∃ e, cmd_apply anchor_files paths None false w = (Raise e, w)) ∨
  (∃ w', cmd_apply anchor_files paths None false w = (Ok (), w') ∧
     (∀ f, f ∉ targets w paths → files w' !! f = files w !! f) ∧
     (∀ f, f ∈ targets w paths → well_formed (lines_of w' f) ∧ files w' !! f = Some (to_text (lines_of w' f)) ∧
        _strip_app_regions (lines_of w' f) (Some (app_of <$> paths)) = _strip_app_regions (lines_of w f) (Some (app_of <$> paths)))).
Proof.
  intros Hs Hwf. destruct (cmd_apply_run anchor_files paths w Hs Hwf) as [?|(w' & fps & Hrun & _ & _ & Hoth & Happ & _)]; [by left|right].
  exists w'. split_and!; [done|done|]. intros f Hf. destruct (Happ f Hf) as (_ & lines' & E & Hne & Hnb & ? & ? & _).
  assert (lines_of w' f = lines') as -> by (unfold lines_of, text; rewrite E; by apply read_written). done.
Qed.

(** C11. [revert] undoes [apply]: applying synthesized files and reverting the same files
    gives back every file of the file system, character by character.  The names of the
    applications hold no white space and their blocks no sentinels or anchors; the target
    files end every line, the last one too, with a line feed and hold no other line
    separator; blocks of other applications may be there, delimited and without anchors, but
    none of these applications; and no synthesized file is itself a target. *)
Theorem apply_revert_roundtrip anchor_files paths w w' :
  paths ≠ [] → synth_ok w paths → (∀ p, p ∈ paths → p ∉ targets w paths) →
  (∀ f t, f ∈ targets w paths → files w !! f = Some t → source_file (app_of <$> paths) t) →
  cmd_apply anchor_files paths None false w = (Ok (), w') →
  cmd_revert anchor_files paths None w' = (Ok (), w).
Proof.
  intros Hne Hs Hdisj Hsrc Hrun. assert (∀ f, f ∈ targets w paths → well_formed (lines_of w f)) as Hwf.
  { intros f Hf. destruct (files w !! f) as [t|] eqn:E; [|unfold lines_of, text; rewrite E; by exists []].
    by eapply (source_file_spec (app_of <$> paths) w f t E), Hsrc. }
  destruct (cmd_apply_run anchor_files paths w Hs Hwf) as [[e He]|(w1 & fps & Hrun1 & Hex & Hout & Hoth & Happ & _)]; [congruence|].
  rewrite Hrun in Hrun1. injection Hrun1 as <-.
  assert (∀ p, p ∈ paths → files w' !! p = files w !! p) as Hsame by (intros p Hp; by apply Hoth, Hdisj).
  assert (targets w' paths = targets w paths) as Et.
  { unfold targets, plan_of. f_equal. apply Forall_bind_ext, Forall_forall. intros p Hp. unfold text. by rewrite Hsame. }
  unfold cmd_revert. destruct paths as [|p0 paths']; [done|]. set (paths := p0 :: paths') in *. unfold mbind, M_bind.
  rewrite revert_files_run by (intros p Hp; rewrite Hsame by done; by apply Hex). rewrite Et.
  assert (wp (for_each (sorted_set (targets w paths)) (revert_file (Some (app_of <$> paths)))) w' (λ _ w2, w2 = w)) as Hwp; [|apply wp_ok in Hwp as ([] & w2 & -> & ->); done].
  apply wp_for_each with (I := λ done w2, stdout w2 = stdout w ∧ ∀ f, files w2 !! f = if decide (f ∈ done) then files w !! f else files w' !! f).
  - split; [done|]. intros f. by rewrite decide_False by apply not_elem_of_nil.
  - intros done f rest w2 Hsplit [Hout2 Hf2]. assert (f ∈ targets w paths) as Hf by (rewrite <-sorted_set_elem, Hsplit; set_solver).
    destruct (Happ f Hf) as ([t Ht] & lines' & E & Hne' & Hnb & _ & Hstrip & _). destruct (source_file_spec _ w f t Ht (Hsrc f t Hf Ht)) as (_ & Etext & Estrip).
    rewrite Estrip in Hstrip. specialize (Hf2 f) as Hcur. destruct (decide (f ∈ done)) as [Hd|Hd].
    + exfalso. pose proof (NoDup_remove_dups (targets w paths)) as Hnd. rewrite <-(merge_sort_Permutation (λ a b, Is_true (str_le a b))) in Hnd.
      change (NoDup (sorted_set (targets w paths))) in Hnd. rewrite Hsplit in Hnd. apply NoDup_app in Hnd as (_ & Hx & _). apply (Hx f Hd). left.
    + eapply wp_mono; [apply (wp_revert_file _ f w2 lines'); [congruence|done|done]|]. intros [] w3 [Hout3 ->]. split; [congruence|].
      intros f'. destruct (decide (f' = f)) as [->|Hne3].
      * rewrite lookup_insert_eq, decide_True by set_solver. rewrite Hstrip, Ht. by rewrite <-Etext.
      * rewrite lookup_insert_ne, Hf2 by done. destruct (decide (f' ∈ done)); [rewrite decide_True by set_solver|rewrite decide_False by set_solver]; done.
  - intros w2 [Hout2 Hf2]. destruct w2 as [fs2 out2], w as [fs out]. simpl in *. subst. f_equal. apply map_eq. intros f. rewrite Hf2.
    case_decide as Hd; [done|]. apply Hoth. by rewrite <-sorted_set_elem.
Qed.

(** A source file with an anchor and a synthesized file with one block for it *)
Definition ex_target : str := lit "m.py".
Definition ex_path : str := lit "out/app1_synth.py".
Definition ex_segs : list seg := [Plain (lit "def f():"); Plain (lit "    # xmix:anchor runner_setup"); Plain []; Plain (lit "    return 1")].
Definition ex_synth : str :=
  to_text [lit "# xmix synthesized"; lit "# >>> XMIX-APPLY file=m.py anchor=runner_setup <<<"; lit "# >>> DESTINATION: runner <<<";
           lit "a = 1"; []; lit "b = 2"; []].
Definition ex_world : world := mkWorld {[ex_target := to_text (flatten ex_segs); ex_path := ex_synth]} [].

Lemma ex_app : app_of ex_path = lit "app1".
Proof. by vm_compute. Qed.
Lemma ex_blocks : parse_blocks (text ex_world ex_path) = [mkBlock ex_target (lit "runner_setup") [lit "a = 1"; []; lit "b = 2"]].
Proof. by vm_compute. Qed.

Lemma ex_synth_ok : synth_ok ex_world [ex_path].
Proof.
  intros p ->%list_elem_of_singleton. rewrite ex_app, ex_blocks. split; [split; [done|by repeat constructor]|].
  intros b ->%list_elem_of_singleton. by repeat constructor.
Qed.
Lemma ex_targets : targets ex_world [ex_path] = [ex_target].
Proof. by vm_compute. Qed.
Lemma ex_source_file : source_file (app_of <$> [ex_path]) (to_text (flatten ex_segs)).
Proof. exists ex_segs. split_and!; [done|done|..]; by repeat constructor. Qed.

Definition ex_applied : world := (cmd_apply [ex_target] [ex_path] None false ex_world).2.
Lemma ex_apply_run : cmd_apply [ex_target] [ex_path] None false ex_world = (Ok (), ex_applied).
Proof. apply run_pair. by vm_compute. Qed.

Lemma apply_all_or_nothing_witness : synth_ok ex_world [ex_path] ∧
  ∃ w', cmd_apply [ex_target] [ex_path] None false ex_world = (Ok (), w') ∧ well_formed (lines_of w' ex_target).
Proof.
  split; [exact ex_synth_ok|]. destruct (apply_all_or_nothing [ex_target] [ex_path] ex_world) as [[e He]|(w' & ? & _ & H)].
  - exact ex_synth_ok.
  - rewrite ex_targets. intros f ->%list_elem_of_singleton. exists ex_segs. split; [by vm_compute|by repeat constructor].
  - rewrite ex_apply_run in He. done.
  - exists w'. split; [done|]. apply H. rewrite ex_targets. left.
Defined.

Lemma apply_revert_roundtrip_witness : cmd_revert [ex_target] [ex_path] None ex_applied = (Ok (), ex_world).
Proof.
  apply (apply_revert_roundtrip [ex_target] [ex_path] ex_world ex_applied).
  - done.
  - exact ex_synth_ok.
  - intros p ->%list_elem_of_singleton. rewrite ex_targets, list_elem_of_singleton. done.
  - rewrite ex_targets. intros f t ->%list_elem_of_singleton Ht. assert (t = to_text (flatten ex_segs)) as -> by (vm_compute in Ht; by injection Ht as <-).
    exact ex_source_file.
  - exact ex_apply_run.
Defined.

(** An application whose name holds a space cannot be reverted: its sentinel lines are
    split at white space, so that the name read back is only the first word, and the block
    stays in the file although its application is named in the call. *)
Theorem revert_misses_spaced_app indent a b anchor code :
  all_space indent → good_name a → good_name anchor → Forall clean_line code →
  _strip_app_regions (render indent (a ++ lit " " ++ b) anchor code) (Some [a ++ lit " " ++ b]) = render indent (a ++ lit " " ++ b) anchor code.
Proof.
  intros Hi Ha Hn Hc. set (app := a ++ lit " " ++ b).
  assert (render indent app anchor code = flatten [Region (indent ++ lit "# xmix:begin " ++ app ++ lit " " ++ anchor)
    ((λ cl, if is_blank cl then [] else indent ++ cl) <$> code) (indent ++ lit "# xmix:end " ++ app ++ lit " " ++ anchor)]) as E by (unfold flatten; cbn; by rewrite app_nil_r).
  assert (strip (indent ++ lit "# xmix:begin " ++ app ++ lit " " ++ anchor) = lit "# xmix:begin " ++ app ++ lit " " ++ anchor) as Es
    by (by apply (sentinel_strip indent 35 (lit " xmix:begin "))).
  rewrite E, strip_flatten.
  - f_equal. unfold kept_segs. rewrite filter_cons_True; [done|]. unfold seg_selected, selected, begin_app. rewrite Es.
    assert (app ++ lit " " ++ anchor = a ++ 32 :: (b ++ lit " " ++ anchor)) as -> by (unfold app; by rewrite <-!app_assoc).
    change (lit "# xmix:begin " ++ a ++ 32 :: (b ++ lit " " ++ anchor)) with (lit "#" ++ 32 :: (lit "xmix:begin" ++ 32 :: (a ++ 32 :: (b ++ lit " " ++ anchor)))).
    rewrite (words_cons (lit "#")), (words_cons (lit "xmix:begin")), (words_cons a); try (by repeat constructor); try apply Ha.
    apply bool_decide_false. rewrite list_elem_of_singleton. intros Heq. apply (f_equal length) in Heq. unfold app in Heq. rewrite length_app in Heq. simpl in Heq. lia.
  - constructor; [|constructor]. split_and!.
    + unfold is_begin. rewrite Es. apply startswith_app.
    + by apply body_clean.
    + unfold is_end. rewrite (sentinel_strip indent 35 (lit " xmix:end ")) by done. apply startswith_app.
Qed.

Lemma revert_misses_spaced_app_witness :
  _strip_app_regions (render [] (lit "my app") (lit "runner_setup") [lit "a = 1"]) (Some [lit "my app"]) =
  render [] (lit "my app") (lit "runner_setup") [lit "a = 1"].
Proof.
  apply (revert_misses_spaced_app [] (lit "my") (lit "app") (lit "runner_setup") [lit "a = 1"]).
  - constructor.
  - split; [done|by repeat constructor].
  - split; [done|by repeat constructor].
  - by repeat constructor.
Defined.

(** *** Conflicts *)

Lemma build_plan_fps paths : ∀ plan apps fps w r w', build_plan paths None plan apps fps w = (Ok r, w') →
  NoDup (app_of <$> paths) ∧ (∀ app, app ∈ apps → OD.get app r.2 = OD.get app fps ∧ app ∉ app_of <$> paths) ∧
  (∀ p, p ∈ paths → ∃ l, OD.get (app_of p) r.2 = Some l ∧ parse_footprints (text w p) = Ok l).
Proof.
  induction paths as [|p paths IH]; intros plan apps fps w r w' Hrun; cbn [build_plan] in Hrun.
  { injection Hrun as <- <-. split_and!; [constructor|by intros app _; split; [done|apply not_elem_of_nil]|by intros p ?%not_elem_of_nil]. }
  case_bool_decide as Hnew; [done|]. apply bind_ok in Hrun as (t & w1 & (-> & -> & Hp)%read_text_ok & Hrun). case_bool_decide; [done|].
  apply bind_ok in Hrun as (l & w1 & Hl & Hrun). destruct (parse_footprints (text w p)) as [l'|e] eqn:Ef; [|done]. injection Hl as <- <-.
  apply IH in Hrun as (Hnd & Hold & Hps). destruct (Hold (app_of p)) as [Hget Hfresh]; [set_solver|].
  rewrite OD.get_set, decide_True in Hget by done. rewrite fmap_cons. split_and!.
  - by apply NoDup_cons.
  - intros app Happ. destruct (Hold app) as [Hg Hn]; [set_solver|]. rewrite OD.get_set in Hg. rewrite not_elem_of_cons.
    case_decide as E; [exfalso; apply Hnew; by rewrite E|]. split; [done|]. split; [|done]. intros ->. done.
  - intros p' [->|Hp']%elem_of_cons; [eauto|by apply Hps].
Qed.

Lemma overlap_sym a b : _overlap a b = _overlap b a.
Proof. destruct a, b; simpl; try done. by rewrite (comm_L (∩)). Qed.
Lemma clash_sym a b : clash a b = clash b a.
Proof. unfold clash. rewrite overlap_sym. do 2 f_equal; by apply bool_decide_ext. Qed.

Lemma any_clash_existing batch existing : any_clash batch existing = false → ∀ a e, a ∈ batch → e ∈ existing → clash a e = false.
Proof.
  induction batch as [|x batch IH]; simpl; intros Hc a e Ha He; [by apply not_elem_of_nil in Ha|]. apply orb_false_iff in Hc as [H1 H2].
  apply elem_of_cons in Ha as [->|Ha]; [|by apply IH]. apply not_true_is_false. intros Ht. apply not_true_iff_false in H1. apply H1, existsb_exists.
  exists e. split; [|done]. apply list_elem_of_In, elem_of_app. by right.
Qed.

Lemma any_clash_batch batch existing : any_clash batch existing = false → ∀ a b, a ∈ batch → b ∈ batch → a ≠ b → clash a b = false.
Proof.
  induction batch as [|x batch IH]; simpl; intros Hc a b Ha Hb Hne; [by apply not_elem_of_nil in Ha|]. apply orb_false_iff in Hc as [H1 H2].
  assert (∀ y, y ∈ batch → clash x y = false) as Hx.
  { intros y Hy. apply not_true_is_false. intros Ht. apply not_true_iff_false in H1. apply H1, existsb_exists. exists y. split; [|done].
    apply list_elem_of_In, elem_of_app. by left. }
  apply elem_of_cons in Ha as [->|Ha], Hb as [->|Hb]; [done|by apply Hx|rewrite clash_sym; by apply Hx|by apply IH].
Qed.

(** The slots of two interventions: same hook kind and submodule, on disjoint layers *)
Definition slots_disjoint (f g : footprint) : Prop :=
  fp_flag f = fp_flag g → fp_sub f = fp_sub g → ∃ s t, fp_layers f = Some s ∧ fp_layers g = Some t ∧ s ## t.

Lemma clash_disjoint a b : clash a b = false → slots_disjoint a.2 b.2.
Proof.
  unfold clash. intros Hc E1 E2. rewrite !bool_decide_true in Hc by done. simpl in Hc. destruct (fp_layers a.2) as [s|], (fp_layers b.2) as [t|]; try done.
  exists s, t. split_and!; [done|done|]. simpl in Hc. apply bool_decide_eq_false, dec_stable in Hc. set_solver.
Qed.

(** *** Footprints that stay behind *)

Lemma token_lit w p s : w ≠ [] → no_space w → token (w ++ lit (String " "%char p) ++ s) = Some (w, lit (String " "%char p) ++ s).
Proof. apply (token_app w (lit p ++ s)). Qed.

Lemma parse_layers_join l : l ≠ [] → _parse_layers (join (lit ",") (int_str <$> l)) = Ok (Some (list_to_set l)).
Proof.
  intros Hne. unfold _parse_layers. rewrite decide_False.
  2:{ destruct l as [|z l]; [done|]. destruct (int_str_chars z) as [Hc Hn]. destruct (int_str z) as [|c s] eqn:E; [done|].
    apply Forall_cons in Hc as [Hc _]. intros Eq. assert (c = 97) as ->; [|by unfold is_digit in Hc; lia].
    destruct l; cbn [fmap list_fmap join] in Eq; rewrite E in Eq; by injection Eq. }
  rewrite split_join; [|by destruct l|].
  - rewrite filter_id by (intros x (z & -> & _)%list_elem_of_fmap; apply int_str_chars).
    assert (mapM parse_int (int_str <$> l) = Some l) as ->; [|done].
    apply mapM_Some. apply Forall2_fmap_l, Forall_Forall2_diag, Forall_forall. intros z _. apply parse_int_str.
  - apply Forall_fmap, Forall_forall. intros z _ Hin. destruct (int_str_chars z) as [Hc _]. rewrite Forall_forall in Hc. apply Hc in Hin. unfold is_digit in Hin. lia.
Qed.

Lemma token_end w : w ≠ [] → no_space w → token w = Some (w, []).
Proof.
  intros Hne Hs. unfold token. assert (nonspace w = (w, [])) as ->; [|by destruct w]. clear Hne.
  induction Hs as [|c w Hc _ IH]; [done|]. cbn [nonspace]. by rewrite Hc, IH.
Qed.

(** What [_layers_str] prints is read back, except for an empty set, which prints nothing. *)
Lemma layers_str_read lay : lay ≠ Some ∅ → good_name (_layers_str lay) ∧ _parse_layers (_layers_str lay) = Ok lay.
Proof.
  destruct lay as [s|]; intros Hne; [|split; [split; [done|by repeat constructor]|done]]. cbn [_layers_str]. set (l := merge_sort Z.le (elements s)).
  assert (list_to_set l = s) as El. { apply set_eq. intros z. unfold l. by rewrite elem_of_list_to_set, (merge_sort_Permutation Z.le), elem_of_elements. }
  assert (l ≠ []) as Hl by (intros E; apply Hne; f_equal; by rewrite <-El, E). split; [|rewrite parse_layers_join by done; by rewrite El]. split.
  - destruct l as [|z l']; [done|]. destruct (int_str_chars z) as [_ Hn]. destruct l'; cbn [fmap list_fmap join]; [done|]. by intros [? _]%app_nil.
  - apply join_no_space; [by repeat constructor|]. apply Forall_fmap, Forall_forall. intros z _. apply int_str_no_space.
Qed.

Definition fp_good (fp : footprint) : Prop := good_name (fp_flag fp) ∧ good_name (fp_sub fp) ∧ fp_layers fp ≠ Some ∅.

Lemma parse_footprints_names lines l : parse_footprints_lines lines = Ok l → Forall (λ fp, good_name (fp_flag fp) ∧ good_name (fp_sub fp)) l.
Proof.
  revert l. induction lines as [|x lines IH]; simpl; intros l E; [simplify_eq; constructor|].
  destruct (footprint_re (strip x)) as [[[fl sub] sp]|] eqn:Ef; [|auto]. apply footprint_re_names in Ef as (? & ? & _).
  repeat (case_match; try done). simplify_eq. constructor; [done|by apply IH].
Qed.

(** A persisted footprint is recognised, however it is indented. *)
Lemma fp_line_read indent app fp : all_space indent → good_name app → fp_good fp →
  applied_fp_re (strip (indent ++ fp_line app fp)) = Some (app, fp_flag fp, fp_sub fp, _layers_str (fp_layers fp)).
Proof.
  intros Hi [Ha1 Ha2] ([Hf1 Hf2] & [Hs1 Hs2] & Hl). destruct (layers_str_read (fp_layers fp) Hl) as [Hg _]. pose proof Hg as [Hl1 Hl2].
  set (spec := _layers_str (fp_layers fp)) in *. set (body := lit "xmix:footprint " ++ app ++ lit " " ++ fp_flag fp ++ lit " " ++ fp_sub fp ++ lit " " ++ spec).
  assert (strip (indent ++ fp_line app fp) = lit "# " ++ body) as ->.
  { rewrite strip_indent by done. destruct (good_name_last spec Hg) as (k & d & E & Hd). unfold fp_line. fold spec. unfold body. rewrite E.
    replace (lit "# xmix:footprint " ++ app ++ lit " " ++ fp_flag fp ++ lit " " ++ fp_sub fp ++ lit " " ++ k ++ [d])
      with (35 :: (lit " xmix:footprint " ++ app ++ lit " " ++ fp_flag fp ++ lit " " ++ fp_sub fp ++ lit " " ++ k) ++ [d]); [rewrite strip_id by done|]; simpl; repeat (rewrite <-!app_assoc; simpl); done. }
  clearbody spec. unfold applied_fp_re. change (hash_prefix (lit "# " ++ body)) with (Some body). cbn [mbind option_bind]. unfold body at 1. rewrite expect_app. cbn [mbind option_bind].
  do 3 (rewrite (token_lit _ EmptyString) by done; cbn [mbind option_bind]; rewrite expect_app; cbn [mbind option_bind]). by rewrite token_end.
Qed.

Lemma scan_lines_elem lines : ∀ r l app flag sub spec lay, scan_lines lines = Ok r → l ∈ lines → applied_fp_re (strip l) = Some (app, flag, sub, spec) →
  _parse_layers spec = Ok lay → (app, mkFp flag sub lay) ∈ r.
Proof.
  induction lines as [|x lines IH]; intros r l app flag sub spec lay E Hl Hre Hp; [by apply not_elem_of_nil in Hl|]. cbn [scan_lines] in E.
  apply elem_of_cons in Hl as [->|Hl].
  - rewrite Hre, Hp in E. destruct (scan_lines lines); [|done]. injection E as <-. left.
  - destruct (applied_fp_re (strip x)) as [[[[a b] d] e]|]; [|by eapply IH]. destruct (_parse_layers e); [|done].
    destruct (scan_lines lines) as [r'|]; [|done]. injection E as <-. right. by eapply IH.
Qed.

Lemma scan_files_elem fs : ∀ w r w' f, scan_files fs w = (Ok r, w') → f ∈ fs → is_Some (files w !! f) →
  ∃ r', scan_lines (lines_of w f) = Ok r' ∧ ∀ x, x ∈ r' → x ∈ r.
Proof.
  induction fs as [|g fs IH]; intros w r w' f E Hf Hex; [by apply not_elem_of_nil in Hf|]. cbn [scan_files] in E.
  apply bind_ok in E as (? & ? & [= <- <-] & E). destruct (exists_file g w) eqn:Eg.
  - apply bind_ok in E as (t & w1 & (-> & -> & _)%read_text_ok & E). apply bind_ok in E as (l & w1 & [El ->]%of_result_ok & E).
    apply bind_ok in E as (r1 & w1 & E1 & [= <- <-]). apply elem_of_cons in Hf as [->|Hf]; [exists l; split; [done|]; intros x ?; apply elem_of_app; by left|].
    destruct (IH w r1 w1 f E1 Hf Hex) as (r' & ? & Hr). exists r'. split; [done|]. intros x ?. apply elem_of_app. right. by apply Hr.
  - apply elem_of_cons in Hf as [->|Hf]; [unfold exists_file in Eg; by apply bool_decide_eq_false in Eg|]. by eapply IH.
Qed.

Lemma group_complete plan f it : (f, it) ∈ plan → ∃ items, (f, items) ∈ group plan ∧ it ∈ items.
Proof.
  unfold group. induction plan as [|[f0 it0] plan IH] using rev_ind; [by intros ?%not_elem_of_nil|]. rewrite foldl_snoc. set (d := foldl _ [] plan) in *.
  pose proof (group_spec plan) as (Hnd & _). change (NoDup d.*1) in Hnd. cbn [fst snd]. rewrite elem_of_app, list_elem_of_singleton. setoid_rewrite OD.elem_of_set; [|done].
  intros [H|[= -> ->]].
  - destruct (IH H) as (items & Hin & Hit). destruct (decide (f = f0)) as [->|Hne]; [|exists items; split; [by right|done]].
    eexists. split; [by left|]. apply OD.get_Some in Hin; [|done]. rewrite Hin. apply elem_of_app. by left.
  - eexists. split; [by left|]. apply elem_of_app. right. left.
Qed.

(** After an apply the scan of the sources finds the footprints of the batch. *)
Lemma apply_records anchor_files paths w w' p b fps f : synth_ok w paths → (∀ f, f ∈ targets w paths → well_formed (lines_of w f)) →
  cmd_apply anchor_files paths None false w = (Ok (), w') → p ∈ paths → parse_footprints (text w p) = Ok fps → f ∈ fps → fp_layers f ≠ Some ∅ →
  b ∈ parse_blocks (text w p) → b_anchor b = lit "runner_postload" → b_file b ∈ anchor_files →
  ∀ existing w'', _scan_applied_footprints anchor_files w' = (Ok existing, w'') → (app_of p, f) ∈ existing.
Proof.
  intros Hs Hwf Hrun Hp Efps Hf Hlay Hb Hanchor Hfile existing w'' Hscan. destruct (cmd_apply_run anchor_files paths w Hs Hwf) as [[e He]|(w1 & fpm & Hrun1 & _ & _ & _ & Happ & Hbuild)]; [congruence|].
  rewrite Hrun in Hrun1. injection Hrun1 as <-. destruct (build_plan_fps _ _ _ _ _ _ _ Hbuild) as (_ & _ & Hfps). destruct (Hfps p Hp) as (l & Eg & El). cbn [snd] in Eg.
  assert (l = fps) as -> by congruence. pose (it := mkItem (b_anchor b) (app_of p) (b_code b)).
  assert ((b_file b, it) ∈ plan_of w paths) as Hplan by (apply plan_of_elem; exists p, b; done). destruct (group_complete _ _ _ Hplan) as (items & Hin & Hit).
  destruct (Happ (b_file b)) as (_ & lines' & E & Hne & Hnb & _ & _ & Hcode); [apply list_elem_of_fmap; by exists (b_file b, it)|].
  pose proof (parse_footprints_names _ _ Efps) as Hnames. rewrite Forall_forall in Hnames. destruct (Hnames f Hf) as [Hn1 Hn2].
  assert (∀ indent, all_space indent → applied_fp_re (strip (indent ++ fp_line (app_of p) f)) = Some (app_of p, fp_flag f, fp_sub f, _layers_str (fp_layers f))) as Hread.
  { intros indent Hi. apply fp_line_read; [done|apply Hs, Hp|by split_and!]. }
  assert (carries lines' (fp_line (app_of p) f)) as (indent & Hi & Hl).
  { apply (Hcode items it); [done|done| |apply bool_decide_false; intros E0; specialize (Hread [] (Forall_nil_2 _)); cbn [app] in Hread; by rewrite E0 in Hread]. unfold item_code. cbn [i_anchor i_app i_code it]. rewrite decide_True by done. apply elem_of_app. left.
    rewrite Eg. by apply list_elem_of_fmap_2. }
  destruct (scan_files_elem anchor_files w' existing w'' (b_file b) Hscan Hfile) as (r' & Er & Hr); [by rewrite E|]. apply Hr.
  assert (lines_of w' (b_file b) = lines') as Elines by (unfold lines_of, text; rewrite E; by apply read_written). rewrite Elines in Er.
  pose proof (scan_lines_elem lines' r' _ _ _ _ _ (fp_layers f) Er Hl (Hread indent Hi) (proj2 (layers_str_read _ Hlay))) as H.
  by destruct f.
Qed.

(** C26. A successful [apply] has checked its footprints and leaves them for later checks.
    No hook slot (flag, submodule and layer) of an application of the batch is one of another
    application of the batch, or one recorded in the sources before by an application that is
    not in the batch.  Afterwards (unless it was a dry run, and with names, blocks and files
    as [apply_all_or_nothing] asks) the footprints of every application that has a block at
    [runner_postload] in one of the files with anchors are recorded there: any scan of the
    sources that succeeds finds them, except those that name no layer. *)
Theorem apply_no_conflict anchor_files paths dry_run w w' :
  cmd_apply anchor_files paths None dry_run w = (Ok (), w') →
  ∃ existing, _scan_applied_footprints anchor_files w = (Ok existing, w) ∧
  ∀ p fps f, p ∈ paths → parse_footprints (text w p) = Ok fps → f ∈ fps →
    (∀ q gps g, q ∈ paths → app_of q ≠ app_of p → parse_footprints (text w q) = Ok gps → g ∈ gps → slots_disjoint f g) ∧
    (∀ app g, (app, g) ∈ existing → app ∉ app_of <$> paths → slots_disjoint f g) ∧
    (∀ b existing' w'', dry_run = false → synth_ok w paths → (∀ f, f ∈ targets w paths → well_formed (lines_of w f)) →
      b ∈ parse_blocks (text w p) → b_anchor b = lit "runner_postload" → b_file b ∈ anchor_files → fp_layers f ≠ Some ∅ →
      _scan_applied_footprints anchor_files w' = (Ok existing', w'') → (app_of p, f) ∈ existing').
Proof.
  intros Hrun. pose proof Hrun as Happly. unfold cmd_apply in Hrun. apply bind_ok in Hrun as ([[plan apps] fpm] & w1 & Hb & Hrun).
  pose proof (build_plan_fps _ _ _ _ _ _ _ Hb) as (Hnd & _ & Hfps). apply build_plan_run in Hb as (-> & _ & Happs & _ & _); [|by intros ? ?].
  cbn [fst snd] in *. rewrite app_nil_l in Happs. subst apps. apply bind_ok in Hrun as ([] & w1 & Hc & _). unfold _check_conflicts in Hc.
  apply bind_ok in Hc as (existing & w2 & Hscan & Hc). assert (w2 = w) as -> by (eapply read_only_run; [apply read_only_scan|exact Hscan]).
  exists existing. split; [done|]. cbv zeta in Hc. set (batch := (app_of <$> paths) ≫= _) in Hc. destruct (any_clash batch _) eqn:Hclash; [done|]. clear Hc.
  assert (∀ p fps f, p ∈ paths → parse_footprints (text w p) = Ok fps → f ∈ fps → (app_of p, f) ∈ batch) as Hin.
  { intros p fps f Hp Ef Hf. unfold batch. apply list_elem_of_bind. exists (app_of p). split; [|apply list_elem_of_fmap; eauto].
    destruct (Hfps p Hp) as (l & -> & El). rewrite Ef in El. injection El as <-. apply list_elem_of_fmap. by exists f. }
  intros p fps f Hp Ef Hf. pose proof (Hin p fps f Hp Ef Hf) as Hbf. split_and!.
  - intros q gps g Hq Hne Eg Hg. apply (clash_disjoint (app_of p, f) (app_of q, g)). eapply any_clash_batch; [done|done|by eapply Hin|]. congruence.
  - intros app g Hg Happ. apply (clash_disjoint (app_of p, f) (app, g)). eapply any_clash_existing; [done|done|]. by apply list_elem_of_filter.
  - intros b existing' w'' -> Hs Hwf Hb Ha Hfile Hl. by eapply (apply_records anchor_files paths w w' p b fps f).
Qed.

(** Two applications on different layers of the same hook *)
Definition ex_fp_synth (layers : string) : str :=
  to_text [lit "# >>> XMIX-FOOTPRINT flag=w submodule=mlp.post layers=" ++ lit layers ++ lit " <<<";
           lit "# >>> XMIX-APPLY file=m.py anchor=runner_postload <<<"; lit "install()"].
Definition ex_paths2 : list str := [lit "app1_synth.py"; lit "app2_synth.py"].
Definition ex_world2 : world :=
  mkWorld {[ex_target := to_text [lit "# xmix:anchor runner_postload"];
            lit "app1_synth.py" := ex_fp_synth "1,2"; lit "app2_synth.py" := ex_fp_synth "3"]} [].
Definition ex_applied2 : world := (cmd_apply [ex_target] ex_paths2 None false ex_world2).2.

Definition ex_fp1 : footprint := mkFp (lit "w") (lit "mlp.post") (Some (list_to_set [1; 2])).
Definition ex_fp2 : footprint := mkFp (lit "w") (lit "mlp.post") (Some (list_to_set [3])).
Definition ex_block2 : block := mkBlock ex_target (lit "runner_postload") [lit "install()"].
Lemma ex_blocks2 p : p ∈ ex_paths2 → good_name (app_of p) ∧ parse_blocks (text ex_world2 p) = [ex_block2].
Proof.
  intros [-> | ->%list_elem_of_singleton]%elem_of_cons; (split; [split; [done|by repeat constructor]|by vm_compute]).
Qed.
Lemma ex_synth_ok2 : synth_ok ex_world2 ex_paths2.
Proof. intros p [Hg ->]%ex_blocks2. split; [done|]. intros b ->%list_elem_of_singleton. by repeat constructor. Qed.
Lemma ex_targets2 f : f ∈ targets ex_world2 ex_paths2 → well_formed (lines_of ex_world2 f).
Proof.
  intros Hf. assert (targets ex_world2 ex_paths2 = [ex_target; ex_target]) as E by (by vm_compute). rewrite E in Hf.
  assert (f = ex_target) as -> by (apply elem_of_cons in Hf as [-> | ->%list_elem_of_singleton]; done).
  exists [Plain (lit "# xmix:anchor runner_postload")]. split; [by vm_compute|by repeat constructor].
Qed.

(** The footprint of the first application is disjoint from that of the second, and found
    in the sources afterwards. *)
Lemma apply_no_conflict_witness :
  cmd_apply [ex_target] ex_paths2 None false ex_world2 = (Ok (), ex_applied2) ∧ slots_disjoint ex_fp1 ex_fp2 ∧
  ∃ existing, _scan_applied_footprints [ex_target] ex_applied2 = (Ok existing, ex_applied2) ∧ (lit "app1", ex_fp1) ∈ existing.
Proof.
  assert (cmd_apply [ex_target] ex_paths2 None false ex_world2 = (Ok (), ex_applied2)) as Hrun by (apply run_pair; by vm_compute).
  split; [done|]. destruct (apply_no_conflict [ex_target] ex_paths2 false ex_world2 ex_applied2 Hrun) as (existing & _ & H).
  destruct (H (lit "app1_synth.py") [ex_fp1] ex_fp1) as (H1 & _ & H3); [left|by vm_compute|left|]. split.
  - apply (H1 (lit "app2_synth.py") [ex_fp2]); [right; left|by vm_compute|by vm_compute|left].
  - destruct (_scan_applied_footprints [ex_target] ex_applied2) as [[ex'|e] w''] eqn:Es.
    + assert (w'' = ex_applied2) as -> by (eapply read_only_run; [apply read_only_scan|exact Es]). exists ex'. split; [done|].
      eapply (H3 ex_block2); [done|exact ex_synth_ok2|exact ex_targets2| |done|left|by vm_compute|reflexivity].
      destruct (ex_blocks2 (lit "app1_synth.py")) as [_ ->]; left.
    + exfalso. apply (f_equal fst) in Es. vm_compute in Es. discriminate Es.
Defined.

(** *** Order of the blocks *)

Lemma find_anchor_pre pre l post anchor : Forall (λ x, strip x ≠ _anchor_comment anchor) (flatten pre) → strip l = _anchor_comment anchor →
  _find_anchor (flatten (pre ++ Plain l :: post)) anchor = Some (length (flatten pre)).
Proof.
  intros Hpre Hl. rewrite flatten_app, flatten_cons. change (seg_lines (Plain l) ++ flatten post) with (l :: flatten post).
  induction Hpre as [|x xs Hx _ IH]; simpl; [by rewrite decide_True|]. rewrite decide_False by done. by rewrite IH.
Qed.

Lemma passed_skip skip rest : Forall seg_ok (skip ++ rest) → Forall (λ s, passed_seg s = true) skip →
  (∀ s, head rest = Some s → passed_seg s = false) → passed false (flatten (skip ++ rest)) = length (flatten skip).
Proof.
  intros Hok Hskip Hrest. induction Hskip as [|s skip Hs _ IH].
  - destruct rest as [|[l|b body e] rest]; [done| |by specialize (Hrest _ eq_refl)]. apply Forall_cons in Hok as [[Hb _] _]. cbn [app] in *.
    specialize (Hrest _ eq_refl). rewrite flatten_cons. simpl in *. by rewrite Hrest, Hb.
  - cbn [app] in Hok. apply Forall_cons in Hok as [Hs' Hok]. cbn [app]. rewrite !flatten_cons, length_app, <-(IH Hok). destruct s as [l|b body e]; simpl in *.
    + by rewrite Hs.
    + destruct Hs' as (Hb & Hbody & He). rewrite begin_not_blank, Hb by done. rewrite <-app_assoc. simpl. rewrite passed_inside by done. rewrite length_app. simpl. lia.
Qed.

(** Blocks for the same anchor are stacked in the order of the call: with [l] the first
    line that marks the anchor, followed by blank lines and blocks already applied
    ([skip]), the new blocks come after those and before the next line of code, one after
    the other, and nothing else moves. *)
Theorem blocks_stacked_in_order fps ids anchor items : ∀ pre l skip rest,
  let segs := pre ++ Plain l :: skip ++ rest in
  Forall seg_ok segs → Forall (item_ok fps ids) items → Forall (λ it, i_anchor it = anchor) items →
  Forall (λ x, strip x ≠ _anchor_comment anchor) (flatten pre) → strip l = _anchor_comment anchor →
  Forall (λ s, passed_seg s = true) skip → (∀ s, head rest = Some s → passed_seg s = false) →
  stack_items fps items (flatten segs) =
    Ok (flatten (pre ++ Plain l :: skip ++ ((λ it, new_region l anchor (i_app it) (item_code fps it)) <$> items) ++ rest)).
Proof.
  induction items as [|it items IH]; intros pre l skip rest segs Hok Hit Ha Hpre Hl Hskip Hrest; [done|].
  apply Forall_cons in Hit as [(Hg1 & Hg2 & _ & Hc & _) Hits], Ha as [Ha Has]. cbn [stack_items]. rewrite Ha in *.
  unfold segs in *. rewrite !Forall_app, !Forall_cons, Forall_app in Hok. destruct Hok as (H1 & H2 & H3 & H4).
  rewrite insert_at; [|by apply find_anchor_pre|apply passed_skip; [by apply Forall_app|done|done]].
  pose proof (IH pre l (skip ++ [new_region l anchor (i_app it) (item_code fps it)]) rest) as IH'. cbv zeta in IH'. rewrite <-!app_assoc in IH'. cbn [app] in IH'.
  rewrite fmap_cons. apply IH'; try done.
  - rewrite !Forall_app, !Forall_cons, !Forall_app, !Forall_cons. split_and!; try done. by apply new_region_ok.
  - apply Forall_app. split; [done|]. by repeat constructor.
Qed.

Lemma blocks_stacked_in_order_witness :
  let it1 := mkItem (lit "runner_setup") (lit "app1") [lit "a = 1"] in
  let it2 := mkItem (lit "runner_setup") (lit "app2") [lit "b = 2"] in
  let l := lit "    # xmix:anchor runner_setup" in
  stack_items [] [it1; it2] (flatten ex_segs) =
    Ok (flatten ([Plain (lit "def f():")] ++ Plain l :: [Plain []] ++
      [new_region l (lit "runner_setup") (lit "app1") [lit "a = 1"]; new_region l (lit "runner_setup") (lit "app2") [lit "b = 2"]] ++ [Plain (lit "    return 1")])).
Proof.
  intros it1 it2 l.
  refine (blocks_stacked_in_order [] [lit "app1"; lit "app2"] (lit "runner_setup") [it1; it2] [Plain (lit "def f():")] l [Plain []] [Plain (lit "    return 1")] _ _ _ _ _ _ _).
  - by repeat constructor.
  - repeat constructor; try done; set_solver.
  - by repeat constructor.
  - by repeat constructor.
  - by vm_compute.
  - by repeat constructor.
  - by intros s [= <-].
Defined.
