(* ===== verification/XmixCodegen.v ===== *)
(** * vllm/activations_extractor/xmix/codegen.py: from validated statements to source text *)

From Stdlib Require Import ZArith Lia Ascii String.
From stdpp Require Import base tactics option list gmap strings sorting.
From S2P Require Import Prelude XmixText XmixSpec XmixParser XmixApply.
Local Open Scope Z_scope.

(** ** Sinks and destinations *)

Record Dest := mkDest { d_label : str; d_anchor : str; d_file : str; d_note : option str }.
Record Sink := mkSink { sk_lines : list str; sk_cur : option (str * str) }.
Definition empty_sink : Sink := mkSink [] None.

Definition apply_tag (file anchor : str) : str := lit "# >>> XMIX-APPLY file=" ++ file ++ lit " anchor=" ++ anchor ++ lit " <<<".

Definition sink_to (d : Dest) (s : Sink) : Sink :=
  let key := (d_file d, d_anchor d) in
  if decide (Some key = sk_cur s) then s else
  mkSink (sk_lines s ++ [[]; apply_tag (d_file d) (d_anchor d); lit "# >>> DESTINATION: " ++ d_label d ++ lit " <<<"] ++
          match d_note d with Some (c :: n) => [lit "#     (executes at: " ++ (c :: n) ++ lit ")"] | _ => [] end)
    (Some key).
Definition sink_add (lines : list str) (s : Sink) : Sink := mkSink (sk_lines s ++ lines) (sk_cur s).

(** The state of the generator: the two sinks and the names assumed in scope *)
Record gen := mkGen { g_setup : Sink; g_install : Sink; g_assumed : list str }.
Definition G := M gen.
Definition setup_to (d : Dest) : G () := modify (λ g, mkGen (sink_to d (g_setup g)) (g_install g) (g_assumed g)).
Definition setup_add (lines : list str) : G () := modify (λ g, mkGen (sink_add lines (g_setup g)) (g_install g) (g_assumed g)).
Definition install_to (d : Dest) : G () := modify (λ g, mkGen (g_setup g) (sink_to d (g_install g)) (g_assumed g)).
Definition install_add (lines : list str) : G () := modify (λ g, mkGen (g_setup g) (sink_add lines (g_install g)) (g_assumed g)).
Definition assume (names : list str) : G () := modify (λ g, mkGen (g_setup g) (g_install g) (g_assumed g ++ names)).

(** [d[k]] *)
Definition key {V} (k : str) (d : list (str * V)) : G V := match OD.get k d with Some v => mret v | None => raise KeyError end.
Definition key_opt {V} (k : option str) (d : list (str * V)) : G V := match k with Some k => key k d | None => raise KeyError end.

(** [SPEC["models"][model]["anchors"][anchor]] *)
Definition anchor_file (model anchor : str) : G str := anchors ← key model SPEC_models; key anchor anchors.

Definition _dest (anchor model : str) : G Dest :=
  label ← key anchor SPEC_destinations;
  file ← anchor_file model anchor;
  mret (mkDest label anchor file None).

Definition model_scope (cspec : CondInstance) : G ModelScope := match ci_model cspec with Some m => mret m | None => raise KeyError end.

Definition _model_dest (cspec : CondInstance) (model : str) : G Dest :=
  m ← model_scope cspec;
  file ← anchor_file model (dest_anchor m);
  mret (mkDest (dest m) (dest_anchor m) file (Some (run_dest m))).

(** ** Footprint tags *)

Definition _footprint_tag (flag sub : str) (lay : list Z) (all : bool) : str :=
  let spec := if all then lit "all" else join (lit ",") (int_str <$> merge_sort Z.le lay) in
  lit "# >>> XMIX-FOOTPRINT flag=" ++ flag ++ lit " submodule=" ++ sub ++ lit " layers=" ++ spec ++ lit " <<<".

Definition _cond_flag (c : CondClause) : G str :=
  match c_instance_expr c with
  | Some _ => spec ← key_opt (cond_cls c) SPEC_cond_instances; mret (ci_flag spec)
  | None => spec ← key_opt (probe_op c) SPEC_cond_ops; mret (co_flag spec)
  end.

Fixpoint _footprint_tags (stmts : list Statement) : G (list str) :=
  match stmts with
  | [] => mret []
  | s :: rest =>
      spec ← key (op_name s) SPEC_ops;
      let tag := _footprint_tag (op_flag spec) (submodule s) (layers s) (all_layers s) in
      ctags ← match cond s with
              | Some c => if model_level c then mret [] else
                  flag ← _cond_flag c; mret [_footprint_tag flag (c_submodule c) (c_layers c) false]
              | None => mret []
              end;
      r ← _footprint_tags rest;
      mret ((tag :: ctags) ++ r)
  end.

(** ** Small helpers *)

(** [dotted.rpartition(".")[2]] *)
Definition _cls_name (dotted : str) : str :=
  match last_dot 0 dotted with Some i => drop (S i) dotted | None => dotted end.

Definition int_list (l : list Z) : str := join (lit ", ") (int_str <$> l).
(** [list(xs)] as text *)
Definition list_literal (l : list Z) : str := lit "[" ++ int_list l ++ lit "]".
Definition _tuple_literal (l : list Z) : str :=
  lit "(" ++ int_list l ++ (if (length l =? 1)%nat then lit ",)" else lit ")").

(** [inspect.signature] of the [run] methods: [run(x)] for the probe,
    [run(x, r, steered_tokens_num)] for the steering classes *)
Definition _method_arity (op_name : str) : nat := if decide (op_name = lit "LinearProbe") then 1 else 3.

Definition _MAX_TOKENS : str := lit "_max_tokens".
Definition _COND_BIAS : str := lit "_cond_bias".
Definition _STEERED_TOKENS_NUM : str := lit "_steered_tokens_num".
Definition _INNER_MODEL : str := lit "self.model.model".

Definition _extra_arg_exprs (op_name var : str) : list str :=
  if decide (op_name = lit "SteeringVector") then [var ++ lit ".r"; _STEERED_TOKENS_NUM] else [].

Definition param_names (n : nat) : list str := (λ j, lit "_a" ++ int_str (Z.of_nat j)) <$> seq 0 n.

Definition _reconcile_expr (method_expr : str) (method_arity site_arity : nat) (extra : list str) : G str :=
  if (method_arity =? site_arity)%nat then mret method_expr else
  let params := param_names site_arity in
  if (site_arity <? method_arity)%nat then
    if negb (length extra =? method_arity - site_arity)%nat then raise XmixError else
    assume (filter (λ e, startswith (lit "_a") e = false ∧ (46 : Z) ∉ e) extra) ;;
    mret (lit "lambda " ++ join (lit ", ") params ++ lit ": " ++ method_expr ++ lit "(" ++ join (lit ", ") (params ++ extra) ++ lit ")")
  else
    mret (lit "lambda " ++ join (lit ", ") params ++ lit ": " ++ method_expr ++ lit "(" ++ join (lit ", ") (take method_arity params) ++ lit ")").

(** ** Per statement *)

Definition _emit_steering_vector_adder (cls_name var : str) (args : list str) (i : Z) : list str :=
  let src := default [] (head args) in
  let n := int_str i in
  let r := lit "_r" ++ n in
  let mv := lit "_max_vecs" ++ n in
  let h := lit "_hidden" ++ n in
  let scales := lit "_scales" ++ n in
  let vi := lit "_vec_indices" ++ n in
  let npt := lit "_n_vecs_per_token" ++ n in
  [r ++ lit " = " ++ src ++ lit ".unsqueeze(0) if " ++ src ++ lit ".ndim == 1 else " ++ src;
   mv ++ lit ", " ++ h ++ lit " = " ++ r ++ lit ".shape";
   scales ++ lit " = torch.ones((" ++ _MAX_TOKENS ++ lit ", " ++ mv ++ lit "), dtype=" ++ r ++ lit ".dtype, device=" ++ r ++ lit ".device)";
   vi ++ lit " = torch.arange(" ++ mv ++ lit ", dtype=torch.int32, device=" ++ r ++ lit ".device).repeat(" ++ _MAX_TOKENS ++ lit ", 1)";
   npt ++ lit " = torch.full((" ++ _MAX_TOKENS ++ lit ",), " ++ mv ++ lit ", dtype=torch.int32, device=" ++ r ++ lit ".device)";
   var ++ lit " = " ++ cls_name ++ lit "(" ++ r ++ lit ", " ++ scales ++ lit ", " ++ vi ++ lit ", " ++ npt ++ lit ")"].

(** [args[0]] of an empty tuple raises [IndexError]; an unknown build kind raises [KeyError]. *)
Definition _emit_op_build (spec : OpSpec) (cls_name var : str) (args : list str) (i : Z) : G (list str) :=
  match build_kind spec with
  | None => mret [var ++ lit " = " ++ cls_name ++ lit "(" ++ join (lit ", ") args ++ lit ")"]
  | Some k =>
      if decide (k = lit "steering_vector_adder") then
        match args with [] => raise IndexError | _ => mret (_emit_steering_vector_adder cls_name var args i) end
      else raise KeyError
  end.

Definition or_else (a b : option str) : option str := match a with Some (c :: s) => Some (c :: s) | _ => b end.
(** [a or b] where [b] is a string *)
Definition or_str (a : option str) (b : str) : str := default b (or_else a None).

Definition opt_str (a : option str) : str := default (lit "None") a.

Definition _plug_call (fn : str) (c : CondClause) (cspec : CondInstance) (target : str) : str :=
  match or_else (plug_kind c) (ci_plug_kind cspec) with
  | None => fn ++ lit "([" ++ target ++ lit "])"
  | Some kind => fn ++ lit "(" ++ kind ++ lit "=[" ++ target ++ lit "])"
  end.

Definition _emit_cond_instance_setup (c : CondClause) (steer_var model : str) : G str :=
  cspec ← key_opt (cond_cls c) SPEC_cond_instances;
  let target := steer_var ++ lit "." ++ opt_str (gate_buffer c) in
  d ← _dest (lit "runner_setup") model;
  setup_to d ;;
  setup_add [opt_str (c_instance_expr c) ++ lit "." ++ _plug_call (or_str (plug_fn c) (ci_plug_fn cspec)) c cspec target ++
             lit "   # gate: " ++ opt_str (cond_cls c) ++ lit " output drives " ++ target] ;;
  mret (opt_str (c_instance_expr c) ++ lit "." ++ c_method c).

(** [max(l)] and [min(l)] of a non-empty list *)
Definition zmax (l : list Z) : Z := match l with [] => 0 | x :: l' => foldl Z.max x l' end.
Definition zmin (l : list Z) : Z := match l with [] => 0 | x :: l' => foldl Z.min x l' end.

Definition _emit_cond_setup (i : Z) (s : Statement) (c : CondClause) (steer_var model : str) : G str :=
  (match layers s with
   | [] => mret ()
   | _ => match c_layers c with [] => raise ValueError | _ => if zmin (layers s) <=? zmax (c_layers c) then raise XmixError else mret () end
   end) ;;
  match c_instance_expr c with
  | Some _ => _emit_cond_instance_setup c steer_var model
  | None =>
      cspec ← key_opt (probe_op c) SPEC_cond_ops;
      let probe_cls := _cls_name (co_cls_path cspec) in
      match c_args c with
      | weights :: threshold :: _ =>
          let compare := opt_str (compare_op c) in
          assume [probe_cls; weights; threshold; _COND_BIAS; _MAX_TOKENS; compare] ;;
          let probe_var := lit "lp_" ++ int_str i in
          let cond_var := lit "cond_" ++ int_str i in
          d ← _dest (lit "runner_setup") model;
          setup_to d ;;
          setup_add [probe_var ++ lit " = " ++ probe_cls ++ lit "(" ++ weights ++ lit ", " ++ _COND_BIAS ++ lit ", " ++ _MAX_TOKENS ++ lit ")";
                     cond_var ++ lit " = " ++ compare ++ lit "(" ++ probe_var ++ lit ", " ++ threshold ++ lit ", sv_" ++ int_str i ++
                     lit ".input_map)   # user-defined probs->mask bridge"] ;;
          mret cond_var
      | _ => raise IndexError
      end
  end.

Definition _emit_model_run (c : CondClause) (model : str) : G () :=
  cspec ← key_opt (cond_cls c) SPEC_cond_instances;
  match ci_model cspec with
  | None => mret ()
  | Some m =>
      if bool_decide (run_call m = []) then mret () else
      file ← anchor_file model (run_anchor m);
      setup_to (mkDest (lit "model file " ++ dash ++ lit " " ++ opt_str (cond_cls c) ++ lit ".forward run-site (in the layer loop)") (run_anchor m) file None) ;;
      setup_add [lit "# run " ++ opt_str (cond_cls c) ++ lit " once per forward"] ;;
      setup_add ((λ x, x.1 ++ model_attr m ++ x.2) <$> run_call m)
  end.

Definition _emit_model_cond_install (c : CondClause) (steer_var model : str) : G () :=
  cspec ← key_opt (cond_cls c) SPEC_cond_instances;
  m ← model_scope cspec;
  let target := steer_var ++ lit "." ++ opt_str (gate_buffer c) in
  d ← _dest (lit "runner_postload") model;
  install_to d ;;
  install_add [[]] ;;
  install_add [lit "# token-gate: " ++ opt_str (cond_cls c) ++ lit " runs at model scope (" ++ run_dest m ++ lit "); drives " ++ target] ;;
  install_add [_INNER_MODEL ++ lit "." ++ model_attr m ++ lit "." ++ _plug_call (or_str (plug_fn c) (ci_plug_fn cspec)) c cspec target].

Definition q : str := [34].

Definition _dsl_comment (s : Statement) : list str :=
  let verb := match op s with WRITE => lit "write" | READ => lit "read" end in
  let op_part := match instance_expr s with
                 | Some e => e ++ lit "." ++ s_method s
                 | None => op_name s ++ lit "(" ++ join (lit ", ") (s_args s) ++ lit ")." ++ s_method s
                 end in
  let layer_part := if all_layers s then lit ".layer(" ++ q ++ lit "all" ++ q ++ lit ")" else lit ".layers(" ++ list_literal (layers s) ++ lit ")" in
  let head := lit "# " ++ loc_file (loc s) ++ lit ":" ++ int_str (loc_line (loc s)) ++ lit "  m." ++ verb ++ lit "(" ++ op_part ++ lit ")" ++
              layer_part ++ lit ".submodule(" ++ q ++ submodule s ++ q ++ lit ")" in
  match cond s with
  | None => [head]
  | Some c =>
      let cond_expr :=
        match c_instance_expr c with
        | Some e =>
            e ++ lit ".gates(" ++ q ++ opt_str (gate_buffer c) ++ q ++
            match plug_fn c with Some f => lit ", via=" ++ q ++ f ++ q | None => [] end ++
            match plug_kind c with Some k => lit ", kind=" ++ q ++ k ++ q | None => [] end ++ lit ")"
        | None => opt_str (probe_op c) ++ lit "." ++ opt_str (compare_op c) ++ lit "(" ++ join (lit ", ") (c_args c) ++ lit ")"
        end in
      let tl := if model_level c then lit ".layer(" ++ q ++ lit "model" ++ q ++ lit ")"
                else lit ".layer(" ++ list_literal (c_layers c) ++ lit ").submodule(" ++ q ++ c_submodule c ++ q ++ lit ")" in
      [head; lit "#               .cond(" ++ cond_expr ++ tl ++ lit ")"]
  end.

Definition idx_line : str := lit "    idx = layer.self_attn.layer_idx".
Definition idx_test (lay : list Z) : str := lit "    if idx in " ++ _tuple_literal lay ++ lit ":".
Definition set_hook (indent setter hook flag : str) : str :=
  indent ++ lit "layer." ++ setter ++ lit "(" ++ hook ++ lit ", " ++ q ++ flag ++ q ++ lit ")".

(** The construction of the steerer; returns its name *)
Definition emit_steerer (i : Z) (s : Statement) (op_spec : OpSpec) (model : str) : G str :=
  match instance_expr s with
  | Some e => mret e
  | None =>
      let cls_name := _cls_name (cls_path op_spec) in
      assume (cls_name :: s_args s) ;;
      let steer_var := lit "sv_" ++ int_str i in
      d ← _dest (lit "runner_setup") model;
      setup_to d ;;
      build ← _emit_op_build op_spec cls_name steer_var (s_args s) i;
      setup_add build ;;
      mret steer_var
  end.

Definition _emit_statement (i : Z) (s : Statement) (model : str) : G () :=
  op_spec ← key (op_name s) SPEC_ops;
  sub_spec ← key (submodule s) SPEC_submodules;
  steer_var ← emit_steerer i s op_spec model;
  cond_var ← match cond s with
             | Some c => if model_level c then _emit_model_run c model ;; mret [] else _emit_cond_setup i s c steer_var model
             | None => mret []
             end;
  let site_arity := if decide (op_flag op_spec = lit "w") then write_arity sub_spec else read_arity sub_spec in
  hook_expr ← _reconcile_expr (steer_var ++ lit "." ++ op_spec_method op_spec) (_method_arity (op_name s)) site_arity
                (_extra_arg_exprs (op_name s) steer_var);
  d ← _dest (lit "runner_postload") model;
  install_to d ;;
  install_add [[]] ;;
  install_add (_dsl_comment s) ;;
  install_add [lit "# steer " ++ op_name s ++ lit " on " ++
               (if all_layers s then lit "ALL layers" else lit "layers " ++ list_literal (layers s)) ++
               lit " at '" ++ submodule s ++ lit "' (flag '" ++ op_flag op_spec ++ lit "')"] ;;
  install_add [lit "for layer in " ++ _INNER_MODEL ++ lit ".layers:"] ;;
  (if all_layers s then install_add [set_hook (lit "    ") (setter sub_spec) hook_expr (op_flag op_spec)]
   else install_add [idx_line; idx_test (layers s); set_hook (lit "        ") (setter sub_spec) hook_expr (op_flag op_spec)]) ;;
  match cond s with
  | None => mret ()
  | Some c =>
      if model_level c then _emit_model_cond_install c steer_var model else
      cond_sub ← key (c_submodule c) SPEC_submodules;
      flag ← _cond_flag c;
      install_add [idx_test (c_layers c); set_hook (lit "        ") (setter cond_sub) cond_var flag]
  end.

(** ** The whole file *)

(** The classes of the model-scope instances the statements use *)
Definition model_bound (stmts : list Statement) : list (str * str) :=
  foldl (λ d s, match cond s with
                | Some c => match c_instance_expr c, cond_cls c with
                            | Some (x :: e), Some cls => if model_level c then OD.set (x :: e) cls d else d
                            | _, _ => d
                            end
                | None => d
                end) [] stmts.

Definition segment_cls (bound : list (str * str)) (seg : PreambleSegment) : option str :=
  or_else (block_cls seg) (head (omap (λ t, OD.get t bound) (seg_targets seg))).

Definition emit_preamble (bound : list (str * str)) (model : str) (pre : list PreambleSegment) : G () :=
  if bool_decide (pre = []) then mret () else
  setup_add [[]; lit "# --- user preamble (verbatim) ---"] ;;
  for_each pre (λ seg,
    d ← match segment_cls bound seg with
        | Some cls => cspec ← key cls SPEC_cond_instances; _model_dest cspec model
        | None => _dest (lit "runner_setup") model
        end;
    setup_to d ;;
    setup_add (splitlines (seg_text seg))).

Fixpoint emit_statements (i : Z) (stmts : list Statement) (model : str) : G () :=
  match stmts with
  | [] => mret ()
  | s :: rest => _emit_statement i s model ;; emit_statements (i + 1) rest model
  end.

Definition header (source_name model : str) (assumed : list str) : list str :=
  [lit "# xmix synthesized from " ++ source_name ++ lit "  (model: " ++ model ++ lit ")";
   lit "# assumes in scope: " ++ join (lit ", ") (sorted_set assumed);
   lit "#";
   lit "# Excerpts are grouped by destination. Each '# >>> XMIX-APPLY file=" ++ [8230] ++ lit " anchor=" ++ [8230] ++ lit " <<<'";
   lit "# tag is read by the apply tool to splice the block below it at that anchor;";
   lit "# the '# >>> DESTINATION: " ++ [8230] ++ lit " <<<' banner is the human-readable label."].

(** The lines of the synthesized file *)
Definition generate_lines (stmts : list Statement) (source_name : str) (pre : list PreambleSegment) (model : str) : G (list str) :=
  emit_preamble (model_bound stmts) model pre ;;
  emit_statements 0 stmts model ;;
  tags ← _footprint_tags stmts;
  g ← get;
  mret (header source_name model (g_assumed g) ++ tags ++
        [[]; lit "# === SETUP (construct once " ++ dash ++ lit " see destinations) ==="] ++ sk_lines (g_setup g) ++
        [[]; lit "# === INSTALL (after load_model) ==="] ++ sk_lines (g_install g)).

Definition generate (stmts : list Statement) (source_name : str) (pre : list PreambleSegment) (model : option str) : result str :=
  match generate_lines stmts source_name pre (or_str model default_model) (mkGen empty_sink empty_sink [lit "torch"]) with
  | (Ok lines, _) => Ok (to_text lines)
  | (Raise e, _) => Raise e
  end.

Definition compile_xmix (source_of : expr → option str) (unicode_word : Z → bool) (path src : str) (tree : option (list top)) : result str :=
  r ← parse_and_validate source_of unicode_word path src tree;
  generate (statements r) path (preamble r) (Some (model r)).

(** ** When generation succeeds *)

(** [gspec P c]: [c] returns when [P] holds and raises XmixError when it does not. *)
Definition gspec {A} (P : Prop) (c : G A) : Prop :=
  ∀ g, match c g with (Ok _, _) => P | (Raise e, _) => e = XmixError ∧ ¬ P end.
Abbreviation total := (gspec True).

Lemma gspec_bind {A B} (P Q : Prop) (c : G A) (f : A → G B) : gspec P c → (∀ a, P → gspec Q (f a)) → gspec (P ∧ Q) (c ≫= f).
Proof.
  intros Hc Hf g. specialize (Hc g). unfold mbind, M_bind. destruct (c g) as [[a|e] g']; [|tauto]. specialize (Hf a Hc g').
  destruct (f a g') as [[b|e] g'']; tauto.
Qed.
Lemma gspec_iff {A} (P Q : Prop) (c : G A) : P ↔ Q → gspec P c → gspec Q c.
Proof. intros E Hc g. specialize (Hc g). destruct (c g) as [[a|e] g']; tauto. Qed.
Lemma gspec_then {A B} (Q : Prop) (c : G A) (f : A → G B) : total c → (∀ a, gspec Q (f a)) → gspec Q (c ≫= f).
Proof. intros Hc Hf. eapply gspec_iff; [|by apply (gspec_bind True Q)]. tauto. Qed.
Lemma gspec_last {A B} (P : Prop) (c : G A) (f : A → G B) : gspec P c → (∀ a, P → total (f a)) → gspec P (c ≫= f).
Proof. intros Hc Hf. eapply gspec_iff; [|by apply (gspec_bind P True)]. tauto. Qed.
Lemma total_ret {A} (a : A) : total (mret a).
Proof. by intros g. Qed.
Lemma total_modify f : total (modify f : G ()).
Proof. by intros g. Qed.
Lemma total_for_each {A} (l : list A) (f : A → G ()) : (∀ x, x ∈ l → total (f x)) → total (for_each l f).
Proof.
  induction l as [|x l IH]; intros Hf; [apply total_ret|]. apply gspec_then; [apply Hf; left|]. intros []. apply IH. intros y Hy. apply Hf. by right.
Qed.
#[export] Hint Resolve total_ret total_modify : py.
Ltac gstep := first
  [ apply total_ret | apply total_modify
  | apply gspec_then; [first [apply total_modify | apply total_ret]|intros ?] ].
Ltac gsteps := repeat gstep.

(** *** What the tables guarantee *)

Lemma get_elem {V} k (d : list (str * V)) v : OD.get k d = Some v → (k, v) ∈ d.
Proof.
  induction d as [|[k' v'] d IH]; [done|]. simpl. case_decide; [intros [= ->]; subst; left|]. intros Hd. right. auto.
Qed.
Lemma table {V} (P : str → V → Prop) (d : list (str * V)) : Forall (λ x, P x.1 x.2) d → ∀ k v, OD.get k d = Some v → P k v.
Proof. intros Hf k v H%get_elem. rewrite Forall_forall in Hf. by apply (Hf (k, v)). Qed.

Ltac entries := unfold SPEC_ops, SPEC_models, SPEC_submodules, SPEC_cond_ops, SPEC_cond_instances, write_op;
  repeat (apply Forall_cons_2; [cbn [fst snd]|]); try apply Forall_nil_2.

Lemma models_anchors k v : OD.get k SPEC_models = Some v → ∃ f, v = model_anchors f.
Proof. revert k v. apply (table (λ _ v, ∃ f, v = model_anchors f)). entries; eauto. Qed.

Lemma model_scope_complete k c : OD.get k SPEC_cond_instances = Some c → ci_scope c = lit "model" →
  ∃ m, ci_model c = Some m ∧ dest_anchor m = lit "model_construct" ∧ run_anchor m = lit "model_forward".
Proof.
  revert k c. apply (table (λ _ c, ci_scope c = lit "model" → ∃ m, ci_model c = Some m ∧ dest_anchor m = lit "model_construct" ∧ run_anchor m = lit "model_forward")).
  entries; [by intros E; vm_compute in E|eauto].
Qed.

Lemma op_build_kinds k spec : OD.get k SPEC_ops = Some spec →
  build_kind spec = None ∨ build_kind spec = Some (lit "steering_vector_adder") ∧ op_arity spec = 1%nat.
Proof.
  revert k spec. apply (table (λ _ spec, build_kind spec = None ∨ build_kind spec = Some (lit "steering_vector_adder") ∧ op_arity spec = 1%nat)).
  entries; auto.
Qed.

Lemma compare_two_args p c k spec : OD.get p SPEC_cond_ops = Some c → OD.get k (compares c) = Some spec → cmp_arity spec = 2%nat.
Proof.
  intros Hp. revert k spec. revert p c Hp. apply (table (λ _ c, ∀ k spec, OD.get k (compares c) = Some spec → cmp_arity spec = 2%nat)).
  entries. apply (table (λ _ spec, cmp_arity spec = 2%nat)). by entries.
Qed.

(** No hook site needs an adapter: the arity of every operation is that of its sites. *)
Lemma arities_agree k spec s sub : OD.get k SPEC_ops = Some spec → OD.get s SPEC_submodules = Some sub →
  _method_arity k = if decide (op_flag spec = lit "w") then write_arity sub else read_arity sub.
Proof.
  intros Hk Hs. revert s sub Hs. revert k spec Hk.
  apply (table (λ k spec, ∀ s sub, OD.get s SPEC_submodules = Some sub → _method_arity k = if decide (op_flag spec = lit "w") then write_arity sub else read_arity sub)).
  entries; apply (table (λ _ sub, _ = if decide _ then write_arity sub else read_arity sub)); entries; by vm_compute.
Qed.

(** *** The emitters *)

(** The condition runs on layers before the steered ones; a statement on all layers
    ([layers s = []]) is not checked. *)
Definition cond_before (s : Statement) : Prop :=
  match cond s with
  | Some c => model_level c = false → layers s ≠ [] → zmax (c_layers c) < zmin (layers s)
  | None => True
  end.

Lemma key_ok {V} k (d : list (str * V)) v : OD.get k d = Some v → key k d = mret v.
Proof. unfold key. by intros ->. Qed.
Lemma key_total {V} k (d : list (str * V)) : known d k → total (key k d).
Proof. intros [v E]. rewrite (key_ok _ _ _ E). gstep. Qed.
Lemma gspec_ret {A B} (Q : Prop) (a : A) (f : A → G B) : gspec Q (f a) → gspec Q (mret a ≫= f).
Proof. done. Qed.
Lemma gspec_key {V B} (Q : Prop) k (d : list (str * V)) v (f : V → G B) : OD.get k d = Some v → gspec Q (f v) → gspec Q (key k d ≫= f).
Proof. intros E. by rewrite (key_ok _ _ _ E). Qed.

Section emit.
Context (model : str) (Hmodel : known SPEC_models model).

Lemma anchor_file_total a : known (model_anchors []) a → total (anchor_file model a).
Proof.
  intros Ha. destruct Hmodel as [v Hv]. destruct (models_anchors _ _ Hv) as [f ->]. eapply gspec_key; [exact Hv|]. apply key_total. destruct Ha as [x Ha]. unfold known, model_anchors in *. simpl in *. repeat case_decide; eauto.
Qed.
Lemma dest_total a : known SPEC_destinations a → total (_dest a model).
Proof.
  intros Ha. unfold _dest. apply gspec_then; [by apply key_total|]. intros label. apply gspec_then; [|intros file; gstep].
  apply anchor_file_total. destruct Ha as [x Ha]. unfold known. simpl in *. repeat case_decide; eauto.
Qed.
Lemma dest_setup : total (_dest (lit "runner_setup") model).
Proof. apply dest_total. vm_compute. eauto. Qed.
Lemma dest_postload : total (_dest (lit "runner_postload") model).
Proof. apply dest_total. vm_compute. eauto. Qed.

Lemma model_dest_total cls c : OD.get cls SPEC_cond_instances = Some c → ci_scope c = lit "model" → total (_model_dest c model).
Proof.
  intros Hc Hs. destruct (model_scope_complete _ _ Hc Hs) as (m & Hm & Ha & _). unfold _model_dest, model_scope. rewrite Hm.
  apply gspec_ret. rewrite Ha. apply gspec_then; [|intros file; gstep]. apply anchor_file_total. vm_compute. eauto.
Qed.

Lemma emit_steerer_total cm i s spec : op_valid cm (op_name s) (s_args s) (s_method s) (instance_expr s) →
  OD.get (op_name s) SPEC_ops = Some spec → total (emit_steerer i s spec model).
Proof.
  intros (spec' & E & _ & Hv) Hs. assert (spec' = spec) as -> by congruence. clear E. unfold emit_steerer. destruct (instance_expr s); [gstep|].
  gsteps. apply gspec_then; [apply dest_setup|]. intros d. gsteps. apply gspec_then; [|intros b; gsteps].
  unfold _emit_op_build. destruct (op_build_kinds _ _ Hs) as [->|[-> Ha]]; [gstep|]. rewrite decide_True by done.
  destruct (s_args s); [|gstep]. by rewrite Ha in Hv.
Qed.

Lemma emit_cond_instance_setup_total c cls v : cond_cls c = Some cls → known SPEC_cond_instances cls → total (_emit_cond_instance_setup c v model).
Proof.
  intros Hc [ci Hci]. unfold _emit_cond_instance_setup, key_opt. rewrite Hc. eapply gspec_key; [exact Hci|].
  apply gspec_then; [apply dest_setup|]. intros d. gsteps.
Qed.

Lemma emit_cond_setup_spec cm i s c v : cond_valid cm c → model_level c = false →
  gspec (layers s ≠ [] → zmax (c_layers c) < zmin (layers s)) (_emit_cond_setup i s c v model).
Proof.
  intros [Hh Hl] Hm. destruct (Hl Hm) as [Hne _]. unfold _emit_cond_setup. apply gspec_last.
  - destruct (layers s) as [|x l]; [intros g Hx; by destruct Hx|]. destruct (c_layers c) as [|y l']; [done|]. destruct (Z.leb_spec (zmin (x :: l)) (zmax (y :: l'))) as [E|E]; intros g.
    + split; [done|]. intros Hlt. specialize (Hlt ltac:(done)). lia.
    + intros _. exact E.
  - intros [] _. unfold cond_head_valid in Hh. destruct (c_instance_expr c) as [inst|].
    + destruct Hh as (cls & cspec & _ & Hc & Hs & _). eapply emit_cond_instance_setup_total; [done|by exists cspec].
    + destruct Hh as (p & cspec & k & spec & Hp & Hc & Hk & Hks & Ha & _). rewrite Hp. unfold key_opt.
      rewrite (compare_two_args _ _ _ _ Hc Hks) in Ha. eapply gspec_key; [exact Hc|]. destruct (c_args c) as [|w [|t l]]; try done.
      gsteps. apply gspec_then; [apply dest_setup|]. intros d. gsteps.
Qed.

Lemma emit_model_run_total cm c : cond_valid cm c → model_level c = true → total (_emit_model_run c model).
Proof.
  intros [Hh _] Hm. unfold cond_head_valid in Hh. destruct (c_instance_expr c) as [inst|]; [|destruct Hh as (?&?&?&?&?&?&?&?&?&?); congruence].
  destruct Hh as (cls & cspec & _ & Hc & Hs & _ & _ & E). rewrite Hm in E. symmetry in E. apply bool_decide_eq_true in E.
  destruct (model_scope_complete _ _ Hs E) as (m & Em & _ & Er). unfold _emit_model_run. rewrite Hc. unfold key_opt. eapply gspec_key; [exact Hs|].
  rewrite Em. case_bool_decide; [gstep|]. rewrite Er. apply gspec_then; [apply anchor_file_total; vm_compute; eauto|]. intros f. gsteps.
Qed.

Lemma emit_model_cond_install_total cm c v : cond_valid cm c → model_level c = true → total (_emit_model_cond_install c v model).
Proof.
  intros [Hh _] Hm. unfold cond_head_valid in Hh. destruct (c_instance_expr c) as [inst|]; [|destruct Hh as (?&?&?&?&?&?&?&?&?&?); congruence].
  destruct Hh as (cls & cspec & _ & Hc & Hs & _ & _ & E). rewrite Hm in E. symmetry in E. apply bool_decide_eq_true in E.
  destruct (model_scope_complete _ _ Hs E) as (m & Em & _ & Er). unfold _emit_model_cond_install, key_opt, model_scope. rewrite Hc.
  eapply gspec_key; [exact Hs|]. rewrite Em. apply gspec_ret. apply gspec_then; [apply dest_postload|]. intros d. gsteps.
Qed.

Lemma cond_flag_total cm c : cond_valid cm c → total (_cond_flag c).
Proof.
  intros [Hh _]. unfold cond_head_valid in Hh. unfold _cond_flag, key_opt. destruct (c_instance_expr c) as [inst|].
  - destruct Hh as (cls & cspec & _ & -> & Hs & _). eapply gspec_key; [exact Hs|]. gstep.
  - destruct Hh as (p & cspec & k & spec & -> & Hs & _). eapply gspec_key; [exact Hs|]. gstep.
Qed.

Lemma reconcile_total e n extra : total (_reconcile_expr e n n extra).
Proof. unfold _reconcile_expr. rewrite Nat.eqb_refl. gstep. Qed.

(** The part of a statement that depends on its condition, in SETUP *)
Lemma emit_cond_spec cm i s v : (∀ c, cond s = Some c → cond_valid cm c) →
  gspec (cond_before s) (match cond s with
    | Some c => if model_level c then _emit_model_run c model ;; mret [] else _emit_cond_setup i s c v model
    | None => mret [] end).
Proof.
  intros Hv. unfold cond_before. destruct (cond s) as [c|]; [|by intros g]. specialize (Hv c eq_refl). destruct (model_level c) eqn:Em.
  - eapply (gspec_iff True); [naive_solver|]. apply gspec_then; [by eapply emit_model_run_total|]. intros []. gstep.
  - eapply gspec_iff; [|by eapply emit_cond_setup_spec]. naive_solver.
Qed.

Lemma emit_statement_spec cm i s : stmt_valid cm s → gspec (cond_before s) (_emit_statement i s model).
Proof.
  intros [Hop Hlay [sub Hsub] Hcond]. pose proof Hop as (spec & Hspec & _). unfold _emit_statement.
  eapply gspec_key; [exact Hspec|]. eapply gspec_key; [exact Hsub|]. apply gspec_then; [by eapply emit_steerer_total|]. intros v.
  apply gspec_last; [by eapply emit_cond_spec|]. intros cv _. rewrite (arities_agree _ _ _ _ Hspec Hsub).
  apply gspec_then; [apply reconcile_total|]. intros hook. apply gspec_then; [apply dest_postload|]. intros d. gsteps.
  apply gspec_then; [destruct (all_layers s); gstep|]. intros []. destruct (cond s) as [c|]; [|gstep]. specialize (Hcond c eq_refl).
  destruct (model_level c) eqn:Em; [by eapply emit_model_cond_install_total|]. destruct Hcond as [Hh Hl].
  apply gspec_then; [by apply key_total, Hl|]. intros cs. apply gspec_then; [by apply (cond_flag_total cm)|]. intros f. gstep.
Qed.

Lemma emit_statements_spec cm stmts : ∀ i, Forall (stmt_valid cm) stmts → gspec (Forall cond_before stmts) (emit_statements i stmts model).
Proof.
  induction stmts as [|s stmts IH]; intros i Hv; [by intros g; constructor|]. apply Forall_cons in Hv as [Hs Hv]. cbn [emit_statements].
  eapply gspec_iff; [symmetry; apply Forall_cons|]. apply gspec_bind; [by eapply emit_statement_spec|]. intros [] _. by apply IH.
Qed.

Lemma footprint_tags_total cm stmts : Forall (stmt_valid cm) stmts → total (_footprint_tags stmts).
Proof.
  induction 1 as [|s stmts [(spec & Hspec & _) _ _ Hcond] _ IH]; cbn [_footprint_tags]; [gstep|]. eapply gspec_key; [exact Hspec|].
  apply gspec_then; [|intros ctags; apply gspec_then; [exact IH|intros r; gstep]]. destruct (cond s) as [c|]; [|gstep].
  destruct (model_level c); [gstep|]. apply gspec_then; [by eapply cond_flag_total, Hcond|]. intros f. gstep.
Qed.

(** The classes of the instances at model scope *)
Lemma model_bound_scope cm stmts t cls : Forall (stmt_valid cm) stmts → OD.get t (model_bound stmts) = Some cls → class_known_model cls.
Proof.
  unfold model_bound. intros Hv. assert (∀ d, (∀ t cls, OD.get t d = Some cls → class_known_model cls) →
    ∀ t cls, OD.get t (foldl (λ d s, match cond s with Some c => match c_instance_expr c, cond_cls c with
       | Some (x :: e), Some cls => if model_level c then OD.set (x :: e) cls d else d | _, _ => d end | None => d end) d stmts) = Some cls → class_known_model cls) as H;
    [|by apply H]. clear t cls. induction Hv as [|s stmts Hs _ IH]; intros d Hd; [done|]. apply IH. clear IH stmts.
  destruct (cond s) as [c|] eqn:Ec; [|done]. destruct (sv_cond _ _ Hs c Ec) as [Hh _]. unfold cond_head_valid in Hh.
  destruct (c_instance_expr c) as [[|x e]|]; [done| |done]. destruct Hh as (cls' & cspec & _ & -> & Hsp & _ & _ & E).
  destruct (model_level c); [|done]. symmetry in E. apply bool_decide_eq_true in E. intros t cls. rewrite OD.get_set.
  case_decide; [|by apply Hd]. intros [= <-]. by exists cspec.
Qed.

Lemma segment_cls_scope cm stmts seg cls : Forall (stmt_valid cm) stmts → (∀ cls, block_cls seg = Some cls → class_known_model cls) →
  segment_cls (model_bound stmts) seg = Some cls → class_known_model cls.
Proof.
  intros Hv Hb. unfold segment_cls. assert (head (omap (λ t, OD.get t (model_bound stmts)) (seg_targets seg)) = Some cls → class_known_model cls) as Ht.
  { intros E%head_Some_elem_of. apply list_elem_of_omap in E as (t & _ & E). by eapply model_bound_scope. }
  destruct (block_cls seg) as [[|x b]|]; simpl; [exact Ht| |exact Ht]. intros [= <-]. by apply Hb.
Qed.

Lemma emit_preamble_total cm stmts pre : Forall (stmt_valid cm) stmts →
  Forall (λ seg, ∀ cls, block_cls seg = Some cls → class_known_model cls) pre → total (emit_preamble (model_bound stmts) model pre).
Proof.
  intros Hv Hp. unfold emit_preamble. case_bool_decide; [gstep|]. gstep. apply total_for_each. intros seg Hseg.
  rewrite Forall_forall in Hp. apply gspec_then; [|intros d; gsteps]. destruct (segment_cls _ seg) as [cls|] eqn:E; [|apply dest_setup].
  destruct (segment_cls_scope cm stmts seg cls Hv (Hp _ Hseg) E) as (cspec & Hc & Hs). eapply gspec_key; [exact Hc|]. by eapply model_dest_total.
Qed.

Lemma generate_lines_spec cm stmts name pre : Forall (stmt_valid cm) stmts →
  Forall (λ seg, ∀ cls, block_cls seg = Some cls → class_known_model cls) pre →
  gspec (Forall cond_before stmts) (generate_lines stmts name pre model).
Proof.
  intros Hv Hp. unfold generate_lines. apply gspec_then; [by eapply emit_preamble_total|]. intros [].
  apply gspec_last; [by eapply emit_statements_spec|]. intros [] _. apply gspec_then; [by eapply footprint_tags_total|]. intros tags.
  apply gspec_then; [by intros g|]. intros g. gstep.
Qed.
End emit.

(** C27. Compilation accepts exactly the files whose conditions run before what they gate,
    statements on all layers excepted: when the file parses, compile_xmix returns a text if
    every per-layer condition of a statement that lists its layers is on layers below
    these, and raises XmixError otherwise; no lookup in the tables, no arity adaptation and
    no empty layer list makes it raise anything else.  A statement on all layers is always
    accepted, whatever the layers of its condition (all_layers_cond_unbound shows what its
    code does then). *)
Theorem compile_exact source_of unicode_word path src tree r :
  parse_and_validate source_of unicode_word path src tree = Ok r →
  match compile_xmix source_of unicode_word path src tree with
  | Ok _ => Forall cond_before (statements r)
  | Raise e => e = XmixError ∧ ¬ Forall cond_before (statements r)
  end.
Proof.
  intros E. pose proof (parsed_file_outcome source_of unicode_word path src tree) as H. unfold compile_xmix. rewrite E in *.
  destruct H as (nodes & _ & [Hs [a Hm] Hb]). cbn [mbind result_bind]. unfold generate.
  assert (or_str (Some (model r)) default_model = model r) as ->.
  { destruct (model r) eqn:En; [by vm_compute in Hm|done]. }
  pose proof (generate_lines_spec (model r) (ex_intro _ a Hm) _ _ path _ Hs Hb (mkGen empty_sink empty_sink [lit "torch"])) as H.
  by destruct (generate_lines _ _ _ _ _) as [[l|e] g].
Qed.

(** ** Footprints: what the tool that applies a file reads back *)

Definition layer_set_of (lay : list Z) (all : bool) : layer_set := if all then None else Some (list_to_set lay).

Lemma footprint_tag_read flag sub lay all : good_name flag → good_name sub → layers_valid (lay, all) →
  ∃ spec, footprint_re (strip (_footprint_tag flag sub lay all)) = Some (flag, sub, spec) ∧ _parse_layers spec = Ok (layer_set_of lay all).
Proof.
  intros [Hf Hfs] [Hs Hss] Hl. unfold _footprint_tag. set (spec := if all then _ else _).
  assert (spec ≠ [] ∧ no_space spec ∧ _parse_layers spec = Ok (layer_set_of lay all)) as (Hne & Hsp & Hp).
  { unfold spec. destruct all; [split_and!; [done|by repeat constructor|done]|]. assert (merge_sort Z.le lay ≠ []) as Hm.
    { intros E. apply Hl. apply Permutation_nil_r. by rewrite <-E, merge_sort_Permutation. }
    split_and!; [|apply join_no_space; [by repeat constructor|]; apply Forall_fmap, Forall_forall; intros z _; apply int_str_no_space|].
    - destruct (merge_sort Z.le lay) as [|z l]; [done|]. destruct (int_str_chars z) as [_ Hn]. destruct l; cbn [fmap list_fmap join]; [done|].
      by intros [? _]%app_nil.
    - rewrite parse_layers_join by done. unfold layer_set_of. do 2 f_equal. apply set_eq. intros z. rewrite !elem_of_list_to_set.
      by rewrite merge_sort_Permutation. }
  exists spec. split; [|done]. clearbody spec. set (body := lit ">>> XMIX-FOOTPRINT flag=" ++ flag ++ lit " submodule=" ++ sub ++ lit " layers=" ++ spec ++ lit " <<<").
  assert (strip (lit "# " ++ body) = lit "# " ++ body) as Estrip.
  { unfold body. replace (lit "# " ++ lit ">>> XMIX-FOOTPRINT flag=" ++ flag ++ lit " submodule=" ++ sub ++ lit " layers=" ++ spec ++ lit " <<<")
      with (35 :: (lit " >>> XMIX-FOOTPRINT flag=" ++ flag ++ lit " submodule=" ++ sub ++ lit " layers=" ++ spec ++ lit " <<") ++ [60]); [by apply strip_id|].
    simpl. repeat (rewrite <-!app_assoc; simpl). done. }
  change (footprint_re (strip (lit "# " ++ body)) = Some (flag, sub, spec)). rewrite Estrip. unfold footprint_re.
  change (hash_prefix (lit "# " ++ body)) with (Some body). cbn [mbind option_bind]. unfold body at 1. rewrite expect_app. cbn [mbind option_bind].
  rewrite token_lit by done. cbn [mbind option_bind]. rewrite expect_app. cbn [mbind option_bind].
  rewrite token_lit by done. cbn [mbind option_bind]. rewrite expect_app. cbn [mbind option_bind].
  rewrite <-(app_nil_r (lit " <<<")), token_lit by done. cbn [mbind option_bind]. by rewrite expect_app.
Qed.

(** The hook slots a statement occupies: the site of its operation, and the read site of a
    condition that runs per layer *)
Definition slots (s : Statement) : list footprint :=
  mkFp (from_option op_flag [] (OD.get (op_name s) SPEC_ops)) (submodule s) (layer_set_of (layers s) (all_layers s)) ::
  match cond s with
  | Some c => if model_level c then [] else [mkFp (lit "r") (c_submodule c) (Some (list_to_set (c_layers c)))]
  | None => []
  end.

Lemma good_lit s : forallb (λ c, negb (is_space c)) (lit s) = true → lit s ≠ [] → good_name (lit s).
Proof.
  intros H Hne. split; [done|]. apply Forall_forall. intros c Hc. rewrite forallb_forall in H. apply negb_true_iff, H. by apply list_elem_of_In.
Qed.
Lemma op_flag_good k spec : OD.get k SPEC_ops = Some spec → good_name (op_flag spec).
Proof. revert k spec. apply (table (λ _ spec, good_name (op_flag spec))). entries; by apply good_lit. Qed.
Lemma submodule_good k : known SPEC_submodules k → good_name k.
Proof. intros [sub E]. revert k sub E. apply (table (λ k _, good_name k)). entries; by apply good_lit. Qed.

Lemma cond_flag_read cm c g : cond_valid cm c → _cond_flag c g = (Ok (lit "r"), g).
Proof.
  intros [Hh _]. unfold cond_head_valid in Hh. unfold _cond_flag, key_opt, key. destruct (c_instance_expr c) as [inst|].
  - destruct Hh as (cls & cspec & _ & -> & Hs & _). rewrite Hs. assert (ci_flag cspec = lit "r") as <-; [|done].
    revert cls cspec Hs. apply (table (λ _ c, ci_flag c = lit "r")). by entries.
  - destruct Hh as (p & cspec & k & spec & -> & Hs & _). rewrite Hs. assert (co_flag cspec = lit "r") as <-; [|done].
    revert p cspec Hs. apply (table (λ _ c, co_flag c = lit "r")). by entries.
Qed.

Lemma parse_tag flag sub lay all rest fps : good_name flag → good_name sub → layers_valid (lay, all) → parse_footprints_lines rest = Ok fps →
  parse_footprints_lines (_footprint_tag flag sub lay all :: rest) = Ok (mkFp flag sub (layer_set_of lay all) :: fps).
Proof. intros Hf Hs Hl Hr. cbn [parse_footprints_lines]. destruct (footprint_tag_read flag sub lay all Hf Hs Hl) as (spec & -> & ->). by rewrite Hr. Qed.

(** C29. The footprints a compiled file declares are the slots it occupies: for valid
    statements, _footprint_tags returns, and what parse_footprints reads from its lines is,
    in order, the flag, submodule and set of layers of every operation and of every
    per-layer condition, "all" for a statement on all layers. *)
Theorem footprints_roundtrip cm stmts g : Forall (stmt_valid cm) stmts →
  wp (_footprint_tags stmts) g (λ tags g', g' = g ∧ parse_footprints_lines tags = Ok (stmts ≫= slots)).
Proof.
  induction 1 as [|s stmts [(spec & Hspec & _) Hlay Hsub Hcond] _ IH]; cbn [_footprint_tags]; [done|].
  unfold key. rewrite Hspec. apply wp_bind, wp_ret, wp_bind. assert (slots s = mkFp (op_flag spec) (submodule s) (layer_set_of (layers s) (all_layers s)) :: List.tl (slots s)) as Es.
  { unfold slots. by rewrite Hspec. }
  apply (wp_mono _ _ (λ ctags g', g' = g ∧ ∀ rest fps, parse_footprints_lines rest = Ok fps → parse_footprints_lines (ctags ++ rest) = Ok (List.tl (slots s) ++ fps))).
  - unfold slots. destruct (cond s) as [c|]; [|apply wp_ret; by split]. specialize (Hcond c eq_refl). destruct (model_level c) eqn:Em; [apply wp_ret; by split|].
    apply wp_bind. unfold wp at 1. rewrite (cond_flag_read cm) by done. apply wp_ret. split; [done|]. intros rest fps Hr. destruct Hcond as [_ Hl].
    destruct (Hl Em) as [Hne Hk]. apply (parse_tag _ _ _ false); [by apply good_lit|by apply submodule_good|done..].
  - intros ctags g' [-> Hc]. apply wp_bind. eapply wp_mono; [exact IH|]. intros tags g' [-> Ht]. apply wp_ret. split; [done|].
    rewrite bind_cons, Es. apply parse_tag; [by eapply op_flag_good|by apply submodule_good|done|]. by apply Hc.
Qed.

(** ** The install loop *)

(** [c] leaves the lines of INSTALL as they are. *)
Definition frame {A} (c : G A) : Prop := ∀ g, g_install (c g).2 = g_install g.

Lemma frame_bind {A B} (c : G A) (f : A → G B) : frame c → (∀ a, frame (f a)) → frame (c ≫= f).
Proof.
  intros Hc Hf g. specialize (Hc g). unfold mbind, M_bind. destruct (c g) as [[a|e] g']; simpl in *; [|done]. by rewrite (Hf a g').
Qed.
Lemma frame_ret {A} (a : A) : frame (mret a).
Proof. done. Qed.
Lemma frame_raise {A} e : frame (raise e : G A).
Proof. done. Qed.
Lemma frame_setup_to d : frame (setup_to d).
Proof. done. Qed.
Lemma frame_setup_add l : frame (setup_add l).
Proof. done. Qed.
Lemma frame_assume l : frame (assume l).
Proof. done. Qed.
Create HintDb frame discriminated.
#[export] Hint Resolve frame_ret frame_raise frame_setup_to frame_setup_add frame_assume : frame.
Ltac frames := repeat first [solve [auto with frame] | apply frame_bind; [|intros ?] | case_match].

Lemma frame_key {V} k (d : list (str * V)) : frame (key k d).
Proof. unfold key. frames. Qed.
Lemma frame_key_opt {V} k (d : list (str * V)) : frame (key_opt k d).
Proof. destruct k; [apply frame_key|done]. Qed.
#[export] Hint Resolve frame_key frame_key_opt : frame.
Lemma frame_dest a model : frame (_dest a model).
Proof. unfold _dest, anchor_file. frames. Qed.
#[export] Hint Resolve frame_dest : frame.
Lemma frame_cond_flag c : frame (_cond_flag c).
Proof. unfold _cond_flag. frames. Qed.
Lemma frame_op_build spec cls v args i : frame (_emit_op_build spec cls v args i).
Proof. unfold _emit_op_build. frames. Qed.
Lemma frame_reconcile e m n x : frame (_reconcile_expr e m n x).
Proof. unfold _reconcile_expr. frames. Qed.
Lemma frame_cond_instance_setup c v model : frame (_emit_cond_instance_setup c v model).
Proof. unfold _emit_cond_instance_setup. frames. Qed.
#[export] Hint Resolve frame_cond_flag frame_op_build frame_reconcile frame_cond_instance_setup : frame.
Lemma frame_cond_setup i s c v model : frame (_emit_cond_setup i s c v model).
Proof. unfold _emit_cond_setup. frames. Qed.
Lemma frame_steerer i s spec model : frame (emit_steerer i s spec model).
Proof. unfold emit_steerer. frames. Qed.
#[export] Hint Resolve frame_cond_setup frame_steerer : frame.

(** [c] only appends lines of [P] to INSTALL when it returns. *)
Definition appends {A} (P : list str → Prop) (c : G A) : Prop :=
  ∀ g, match c g with (Ok _, g') => ∃ l, sk_lines (g_install g') = sk_lines (g_install g) ++ l ∧ P l | (Raise _, _) => True end.

Lemma appends_frame {A B} P (c : G A) (f : A → G B) : frame c → (∀ a, appends P (f a)) → appends P (c ≫= f).
Proof.
  intros Hc Hf g. specialize (Hc g). unfold mbind, M_bind. destruct (c g) as [[a|e] g']; [|done]. specialize (Hf a g'). simpl in Hc.
  destruct (f a g') as [[b|e] g'']; [|done]. by rewrite <-Hc.
Qed.
Lemma appends_add {B} P (l : list str) (f : () → G B) : appends (λ k, P (l ++ k)) (f ()) → appends P (install_add l ≫= f).
Proof.
  intros Hf g. unfold mbind, M_bind, install_add, modify. specialize (Hf (mkGen (g_setup g) (sink_add l (g_install g)) (g_assumed g))).
  destruct (f () _) as [[b|e] g'']; [|done]. destruct Hf as (k & E & Hk). exists (l ++ k). split; [|done]. rewrite E. simpl. by rewrite <-app_assoc.
Qed.
Lemma appends_last (P : list str → Prop) (l : list str) : P l → appends P (install_add l).
Proof. intros Hl g. by exists l. Qed.
Lemma appends_to {B} (P : list str → Prop) d (f : () → G B) : (∀ h, Forall (λ l, startswith (lit "    ") l = false) h → appends (λ k, P (h ++ k)) (f ())) → appends P (install_to d ≫= f).
Proof.
  intros Hf g. unfold mbind, M_bind, install_to, modify. unfold sink_to. case_decide.
  - specialize (Hf [] (Forall_nil_2 _) (mkGen (g_setup g) (g_install g) (g_assumed g))).
    destruct (f () _) as [[b|e] g'']; [|done]. destruct Hf as (k & E & Hk). by exists k.
  - set (h := [[]; apply_tag (d_file d) (d_anchor d); lit "# >>> DESTINATION: " ++ d_label d ++ lit " <<<"] ++ _).
    specialize (Hf h). set (g1 := mkGen _ _ _). assert (Forall (λ l, startswith (lit "    ") l = false) h) as Hh.
    { unfold h. repeat (apply Forall_cons_2; [done|]). destruct (d_note d) as [[|? ?]|]; by repeat constructor. }
    specialize (Hf Hh g1). destruct (f () g1) as [[b|e] g'']; [|done]. destruct Hf as (k & E & Hk). exists (h ++ k). split; [|done].
    rewrite E. unfold g1. simpl. by rewrite <-app_assoc.
Qed.

Lemma dsl_comment_lines s : Forall (λ l, startswith (lit "    ") l = false) (_dsl_comment s).
Proof. unfold _dsl_comment. destruct (cond s); repeat (apply Forall_cons_2; [done|]); apply Forall_nil_2. Qed.

Lemma emit_all_layers_lines cm i s c model : stmt_valid cm s → all_layers s = true → cond s = Some c → model_level c = false →
  appends (λ new, idx_test (c_layers c) ∈ new ∧ idx_line ∉ new) (_emit_statement i s model).
Proof.
  intros [_ Hlay _ _] Ha Hc Hm. unfold _emit_statement. rewrite Hc, Hm, Ha. do 5 (apply appends_frame; [auto with frame|intros ?]).
  apply appends_frame; [auto with frame|]. intros d. apply appends_to. intros h Hh. repeat apply appends_add.
  apply appends_frame; [auto with frame|]. intros sub. apply appends_frame; [auto with frame|]. intros flag. apply appends_last.
  split; [rewrite !elem_of_app; set_solver|]. assert (∀ k, Forall (λ l, startswith (lit "    ") l = false) k → idx_line ∉ k) as Hn.
  { intros k Hk Hin. rewrite Forall_forall in Hk. by specialize (Hk _ Hin). }
  pose proof (Hn _ Hh). pose proof (Hn _ (dsl_comment_lines s)). rewrite !elem_of_app, !elem_of_cons, !elem_of_nil.
  intros Hin. repeat match type of Hin with _ ∨ _ => destruct Hin as [Hin|Hin] end; done.
Qed.

(** A statement on all layers with a per-layer condition compiles to a loop that tests a
    name the loop never sets: the lines appended to INSTALL contain [if idx in (...)] and
    not [idx = layer.self_attn.layer_idx], so the generated code raises NameError or tests
    the index an earlier loop left behind. *)
Theorem all_layers_cond_unbound model cm i s c g :
  known SPEC_models model → stmt_valid cm s → all_layers s = true → cond s = Some c → model_level c = false →
  wp (_emit_statement i s model) g (λ _ g', ∃ new,
    sk_lines (g_install g') = sk_lines (g_install g) ++ new ∧ idx_test (c_layers c) ∈ new ∧ idx_line ∉ new).
Proof.
  intros Hk Hs Ha Hc Hm. pose proof (emit_all_layers_lines cm i s c model Hs Ha Hc Hm g) as Hl. pose proof (emit_statement_spec model Hk cm i s Hs g) as Ht.
  unfold wp. destruct (_emit_statement i s model g) as [[a|e] g']; [done|]. destruct Ht as [_ []]. unfold cond_before. rewrite Hc. intros _ Hne.
  pose proof (sv_layers _ _ Hs) as Hv. rewrite Ha in Hv. by destruct Hne.
Qed.

(** ** Examples *)

Definition ex_call (e : expr) (attr : string) (args : list expr) : expr := Call (Attribute e (lit attr)) args [].
Definition ex_name (s : string) : expr := Name (lit s).
Definition ex_str (s : string) : expr := Constant (CStr (lit s)).
Definition ex_layers (l : list Z) : expr := EList ((λ z, Constant (CInt z)) <$> l).

(** [m.write(SteeringVector(v).run).layers(steer).submodule("mlp.post")
      .cond(LinearProbe.biggerThan(w, t).layer(probe).submodule("attention.post"))] *)
Definition ex_statement (steer : expr) (probe : list Z) : expr :=
  ex_call (ex_call (ex_call (ex_call (ex_name "m") "write"
    [Attribute (Call (ex_name "SteeringVector") [ex_name "v"] []) (lit "run")]) "layer" [steer]) "submodule" [ex_str "mlp.post"]) "cond"
    [ex_call (ex_call (ex_call (ex_name "LinearProbe") "biggerThan" [ex_name "w"; ex_name "t"]) "layer" [ex_layers probe]) "submodule" [ex_str "attention.post"]].
Definition ex_src : str := to_text [lit "# model: qwen"; lit "m.write(...)"].
Definition ex_tree (steer : expr) (probe : list Z) : option (list top) := Some [mkTop 2 None (ExprStmt (ex_statement steer probe) 2)].
Definition ex_parse (steer : expr) (probe : list Z) : result ParseResult :=
  parse_and_validate (λ _, None) (λ _, false) (lit "a.xmix") ex_src (ex_tree steer probe).
Definition ex_compile (steer : expr) (probe : list Z) : result str :=
  compile_xmix (λ _, None) (λ _, false) (lit "a.xmix") ex_src (ex_tree steer probe).
Definition ex_result (steer : expr) (probe : list Z) : ParseResult := match ex_parse steer probe with Ok r => r | Raise _ => mkParse [] [] [] end.

(** The blocks and the footprints of a compiled file, as the tool that applies it reads them *)
Example compiled_read :
  match ex_compile (ex_layers [5; 3]) [1; 2] with
  | Ok text => b_anchor <$> parse_blocks text = [lit "runner_setup"; lit "runner_postload"] ∧
      match parse_footprints text with
      | Ok fps => (λ f, (fp_flag f, fp_sub f, _layers_str (fp_layers f))) <$> fps =
          [(lit "w", lit "mlp.post", lit "3,5"); (lit "r", lit "attention.post", lit "1,2")]
      | Raise _ => False
      end
  | Raise _ => False
  end.
Proof. vm_compute. by split. Qed.

Lemma compile_exact_witness :
  ex_parse (ex_layers [3]) [3] = Ok (ex_result (ex_layers [3]) [3]) ∧
  match ex_compile (ex_layers [3]) [3] with
  | Ok _ => Forall cond_before (statements (ex_result (ex_layers [3]) [3]))
  | Raise e => e = XmixError ∧ ¬ Forall cond_before (statements (ex_result (ex_layers [3]) [3]))
  end.
Proof. split; [by vm_compute|]. apply compile_exact. by vm_compute. Defined.

(** The statement of the example, on all layers *)
Definition ex_stmt : Statement := default (mkStmt WRITE [] [] [] [] [] None (mkLoc [] 0) None true) (head (statements (ex_result (ex_str "all") [1]))).
Definition ex_cond : CondClause := default (mkCond [] [] None None [] None None [] None None None false) (cond ex_stmt).

Lemma ex_stmt_valid : stmt_valid [] ex_stmt.
Proof.
  split; [vm_compute; eauto 10| by vm_compute|vm_compute; eauto|].
  intros c E. assert (c = ex_cond) as -> by (vm_compute in E |- *; congruence). split; [|intros _; split; [done|vm_compute; eauto]].
  unfold cond_head_valid. vm_compute. eauto 20.
Defined.

Lemma footprints_roundtrip_witness :
  wp (_footprint_tags [ex_stmt]) (mkGen empty_sink empty_sink []) (λ tags g', g' = mkGen empty_sink empty_sink [] ∧ parse_footprints_lines tags = Ok ([ex_stmt] ≫= slots)).
Proof. apply (footprints_roundtrip []). constructor; [apply ex_stmt_valid|constructor]. Defined.

Lemma all_layers_cond_unbound_witness :
  wp (_emit_statement 0 ex_stmt (lit "qwen")) (mkGen empty_sink empty_sink []) (λ _ g', ∃ new,
    sk_lines (g_install g') = [] ++ new ∧ idx_test (c_layers ex_cond) ∈ new ∧ idx_line ∉ new).
Proof.
  apply (all_layers_cond_unbound (lit "qwen") [] 0 ex_stmt ex_cond (mkGen empty_sink empty_sink [])).
  - vm_compute. eauto.
  - apply ex_stmt_valid.
  - by vm_compute.
  - by vm_compute.
  - by vm_compute.
Defined.
